(* ===== verification/_CoqProject ===== *)
-Q . S2P
Prelude.v
Float64.v
CString.v
MarketRules.v
OrderManager.v
BarWindow.v
Regex.v
RegexProofs.v
HostStatus.v
HostLimits.v
JitCache.v
SortSearch.v
Universe.v
Ast.v
Env.v
Registry.v
Closure.v
Validate.v
Decimal.v
Tree.v
Meter.v
Value.v
State.v
Calls.v
Interp.v
InterpProofs.v
Termination.v
Depth.v
CallProofs.v
Semantics.v
Refinement.v
InterpScopes.v
Fold.v
RtValue.v
Strategy.v
StrategyProofs.v
StrategyRuns.v
StrategyScript.v
Simd.v
SimdProofs.v
SimdReduce.v
SimdExact.v
CrossSection.v
Linalg.v
GaussJordan.v
Stats.v
Finance.v
Optimizer.v
OptimizerProofs.v
Csv.v
CsvProofs.v
FloatExact.v
StringLib.v
StringBasic.v
StringText.v
StringEscape.v
StringSplit.v
StringFormat.v
StringUtf8.v
StringModule.v
StringSample.v
StringProofs.v
StringTextProofs.v
StringSafety.v
StringUtf8Proofs.v
StringTable.v
HostView.v
HostViewProofs.v
HostConvert.v
HostConvertProofs.v
HostResult.v
HostRegistry.v
HostModule.v
HostInstance.v
HostCall.v
HostSystem.v
