(* ===== verification/Prelude.v ===== *)
(** * TurboScript: a verification development

    TurboScript is a scripting engine in C.  Its sources under [src/] are a frontend
    and tree-walking runtime ([exprtk/]), the engine around them with a compiled
    backend and an API for host programs ([turbo_script/]), and native modules
    ([modules/]), of which the financial ones simulate a market.  This library models the
    parts of it whose behaviour is the program's own and proves what makes them correct.
    Definitions keep the names of the C functions; what a definition leaves out is
    said where it stands.

    ** Conventions

    A pointer that may be NULL is an [option]; a pointer into an array is an index.  A
    machine integer is the [Z] it holds, and wraps where the code lets it ([wrapu]).  A [double]
    is the Standard Library's [spec_float] ([Float64.v]).  An allocator that may fail is
    the list of its answers still to come ([heap]), and theorems quantify over it.  Errors are
    values: an [option] or a status.  A C string is a list of characters ([CString.v])
    where the code walks it, and a [string] where it is only stored and compared.

    ** The scripting language

    The parser builds trees ([Ast.v]); [Tree.v] models their copies and measures, [Fold.v] the
    constant folding of the parser and of the compiled backend, [Validate.v] the check of
    a tree before it runs ([exprtk_validate.c]), [Closure.v] the capture analysis that the
    compiled backend makes of function bodies ([turbo_script_closure_analysis.c]).
    [exprtk_eval] runs a tree: [Value.v] has its values and operators, [Env.v] the
    chains of scopes it stores variables in ([exprtk_runtime.c]), [Registry.v] the functions that
    a name can mean ([exprtk_registry.c]), [Meter.v] the limits that stop it, [State.v] the state of
    an evaluation, [Calls.v] functions, closures and their parameters ([exprtk_runtime.c]), [Interp.v]
    the interpreter itself; [Termination.v], [Depth.v], [InterpProofs.v], [InterpScopes.v] and
    [CallProofs.v] have the theorems.  [Decimal.v] and [Regex.v] are the decimal
    numbers ([mod_core.c]) and the regular expressions ([re.c]) that scripts use;
    [RtValue.v] are values with payloads, lists and maps ([exprtk_value.c], [exprtk_map.c]);
    [JitCache.v] is the cache of compiled scripts ([turbo_script_mir_cache.c]).

    - Termination: every evaluation ends under any meter that satisfies [MeterLaws], endless loops and
      recursion included; the matcher of regular expressions ends on every pattern and text.
    - Meaning: [Semantics.v] states what structured programs mean without flow flags and
      limits; [Refinement.v] proves that [exprtk_eval] implements it; integer
      expressions have their mathematical value; the matcher finds the leftmost match of a
      declarative semantics; decimal parsing and printing are exact and inverse.
    - Scopes: an evaluation leaves the chain of scopes as it was entered, never loses a
      variable and never changes a constant; assignment and lookup agree.
    - Calls: what a name resolves to; what a function value captures, what the body of a function
      sees of its caller and of the place it was written in, and that calling a function value
      changes no variable outside of it.
    - Analyses: the validator reports only errors of the tree, the first one where it looks; the capture analysis answers exactly
      the free names it can see; folding agrees with evaluation where the
      operands are numbers, and the two folders agree with each other.
    - Containers: a map is a finite map, a deep copy is an equal value, the compile cache
      never answers the function of another script.

    ** The host API

    A host program creates a context, registers functions ([HostRegistry.v]), compiles a module
    ([HostModule.v]), instantiates it ([HostInstance.v]) and calls its exports
    ([HostCall.v]); values cross as views in its memory, which are validated ([HostView.v]) and
    converted ([HostConvert.v]), answers arrive in results ([HostResult.v]), and
    each call has a budget ([HostLimits.v]).  [HostStatus.v] has the vocabulary of the header
    [turbo_script.h].  The files under [src/turbo_script/src/host/] carry the same names.
    [HostSystem.v] puts the operations together: a world of contexts, modules,
    instances and the stack of what is under way, and a step relation whose steps are
    those operations, in any order, callbacks that use the API again included.

    - Values: the validator accepts exactly the views of finite valid trees within the limits and
      ends on cyclic ones; view to value and back is the identity.
    - Each operation, on every branch: what registration, compilation, creation, resolution
      and a call answer, store and leave behind; a call always detaches its budget, restores
      the limits and leaves the instance ready or faulted.
    - The whole: in every reachable world the reference counts are exact, nothing that is
      in use is freed, the functions compiled code is bound to stay, and at most one
      instance runs.
    - Budgets: the safe points a call passes never charge more than it was given; an interrupt
      is honoured within its interval.

    ** The market simulation

    [MarketRules.v] has the rule sets and the validation of an order, [OrderManager.v] positions,
    fills, pending orders and equity, [BarWindow.v] the price window of an asset, [Universe.v]
    the assets with their splits and dividends over [SortSearch.v] ([qsort] and bisection),
    [Strategy.v] the runner that drives them and the script over the bars (all under
    [src/modules/fin/]); [StrategyProofs.v], [StrategyRuns.v] and [StrategyScript.v] have its
    theorems.  [Csv.v] is the provider that reads bars, assets and adjustments from files
    ([provider_csv.c], theorems in [CsvProofs.v]); [Finance.v] the metrics of a backtest
    ([exprtk_finance.c]); [Optimizer.v] the walk-forward optimizer over the runner
    ([strategy_optimizer.c], theorems in [OptimizerProofs.v]); [CrossSection.v] the
    cross-sectional operations of the universe over the vector kernels.

    - Components: an invariant of the manager under any sequence of its operations, when an order is
      accepted, how long it stays in force, the window as the list of the last bars, the
      factor of an asset as the product of its splits and dividends, rank and top n.
    - The runner: it keeps all their invariants whatever the script does; a backtest cannot look
      ahead; the script sees the last adjusted bars; nothing is traded in the warm-up; every trade
      it logs is reported once; a run over a universe is the calendar of its streams and ends.
    - The optimizer: the grid is visited once per combination, the search answers the first of
      the best scores, the windows fill the result arrays exactly, and more bars only add windows.
    - Files: lines and fields are read back as they were written; a stream delivers the bars of
      the dates asked for.

    ** Vectors, matrices and statistics

    [exprtk/src/simd_helpers.c] has the kernels under the numeric functions of scripts and of
    the market simulation.  [Simd.v] models them over an arithmetic, the class [Num]: doubles,
    floats, and the rationals of [SimdExact.v], where a theorem is about the algorithm and not
    about rounding.  Registers are lists of lanes, loops go by blocks and then singly as in the
    code, and a destination may be a source.  [Linalg.v] has the matrices, [Stats.v] order
    statistics, moments, the least-squares line and the number functions.

    - Lanes: the element-wise operations are the scalar ones everywhere ([SimdProofs.v]); extremes,
      rolling windows, boxes and point transformations ([SimdReduce.v]); where the lanes and the
      scalar code disagree is stated too.
    - Exact arithmetic: sums, products, variances, moments, z scores and fits are those of the
      textbook; the elimination of [gauss_jordan_invert] gives the inverse ([GaussJordan.v]).

    ** The string library

    [mod_string.c] gives scripts some 180 functions on strings; [StringLib.v] has what they are
    written with: native functions over lists of values, the monad [lib] of code that
    allocates, fails or leaves its domain (a store beyond a buffer and a conversion of a double out
    of range are [Undefined]), and the interfaces of the view library ([VStr]) and of the C
    library's number formats ([CText]).  [StringBasic.v] has the predicates, cases, searches, slices and
    padding, [StringText.v] lines, words, indentation and wrapping, [StringEscape.v] the encodings and CSV,
    [StringSplit.v] splitting, joining and replacing, [StringFormat.v] conversions and the two format
    functions, [StringUtf8.v] code points, [StringModule.v] the table of entries.  [FloatExact.v] has the facts on
    doubles that hold small integers, [StringSample.v] concrete libraries for the witnesses.

    - Round trips ([StringProofs.v]): every encoding is undone by its decoder, a line of CSV and a string
      split at a separator are read back.
    - Texts ([StringTextProofs.v], [StringUtf8Proofs.v]): wrapping keeps the width and the ink; words, lines, and the
      comparison in constant time; reversal of code points.
    - Bounds ([StringSafety.v], [StringTable.v]): no function of the table (which leaves out [assert] and the
      two template functions: output, and an outside library) but the seven of [unchecked]
      stores beyond the buffer it measured or converts a number out of range, for strings of at most
      2^30 bytes and lists of at most 2^20 elements; [str_format] is in bounds where it names no
      index, and what the others do is shown by example.

    ** Interfaces

    Code that is not under [src/] is a parameter with laws: [Slots] (where the hash table of
    the container library places an entry), [QSort] and [BSearch] (the C library's sort and search), [Natives] (the functions that are not
    scripts), [HashSet] (its sets, with possible failures),
    [utf8_valid], the C library's [pow] and number formatting in [Interp.v].  Code of the
    repository that a component only calls is an interface too: [Meter] (counters or
    host budget), [Frontend] (parser, validator and backend as module compilation uses them),
    [Backend] (the runs of compiled code: a [script] of the safe points it passes and the host
    functions it calls), [Embedder] (the host program's callbacks), [Executor] (a live
    broker), [Provider] (the bars of an asset; [Csv.v] has an instance), [Engine] (the script as
    the runner sees it), [Num] and [Fused] (an arithmetic), [CLib] (numbers and dates of the C
    library), [VStr], [CText] and [Base64] (views, number formats and Base64 for the string library).  Each property with such a parameter has a witness on a concrete instance.

    ** Fuel and bounds

    [exprtk_eval] recurs on the tree, a loop on what its meter still grants, and a call on the levels of
    recursion that are left: [eval_script] iterates it as often.  [exprtk_eval_terminates] proves that these
    bounds suffice, [depth_enough] that a greater depth changes nothing.  The regular expression
    matcher carries fuel; [match_fuel] and [validate_fuel] are proved to be enough.  The
    validator of views recurs on the levels that may still be open, at most [max_depth] of
    them.  The day loop of [strategy_run_universe] carries fuel: as many days as there are bars
    are enough ([run_universe_calendar]).  The loop over the windows of the optimizer carries fuel:
    [max_windows] rounds are enough ([walk_forward_fills]); the reading of a file a round per character,
    Euclid's loop 127 rounds.

    ** Not modelled

    - The Lemon parser, the re2c lexer and Lemon itself: generated or third-party.
    - The emission of MIR code ([turbo_script/src/mir]) and its runtime helpers: their meaning is
      that of a library whose sources are absent.
    - Maps, members, template strings, generators and classes in the interpreter, and the default
      values of the parameters of function values: [NotModelled] outcomes of [Interp.v]; the memory of objects
      belongs to an absent library.
    - The script bindings of the strategy module, which unpack values for the modelled functions.
    - Timers, tasks, plugins, control-flow graphs and data binding: glue to absent libraries.
    - [assert] and the template functions of the string library (the environment, [printf] and a
      template library), and the module functions for files and for regular expressions, which only unpack values.
    - The functions over [libm] of mathematics and statistics, the indicators, portfolios and the BLAS
      subset: numerical recipes whose correctness is a question of rounding.
    - Threads: the host API checks its owner thread at every entry, which is modelled as a
      flag of the call; the engine runs no script concurrently. *)

From stdpp Require Export base list list_numbers strings gmap.
From Stdlib Require Export ZArith Lia ZifyBool ZifyNat.

(** ** Tactics *)

(** Case analysis on the scrutinee of the innermost [match] or [if] of the
    goal, remembering the equation. *)
Ltac destruct_innermost t :=
  lazymatch t with
  | context [match ?x with _ => _ end] => destruct_innermost x
  | _ => destruct t eqn:?
  end.

Ltac case_goal :=
  match goal with
  | |- context [match ?x with _ => _ end] => destruct_innermost x
  end.

Ltac case_hyp H :=
  match type of H with
  | context [match ?x with _ => _ end] => destruct_innermost x
  end.

(** Split every test of the goal and finish the branches that are routine. *)
Ltac cases := repeat (case_goal; simplify_eq/=; try done).

(** Turn boolean tests in the context into propositions. *)
Ltac bool_props :=
  repeat match goal with
  | H : (_ && _)%bool = true |- _ => apply andb_prop in H as [? ?]
  | H : (_ || _)%bool = false |- _ => apply orb_false_elim in H as [? ?]
  | H : negb _ = true |- _ => apply negb_true_iff in H
  | H : negb _ = false |- _ => apply negb_false_iff in H
  | H : (_ =? _)%Z = true |- _ => apply Z.eqb_eq in H
  | H : (_ =? _)%Z = false |- _ => apply Z.eqb_neq in H
  | H : (_ <? _)%Z = true |- _ => apply Z.ltb_lt in H
  | H : (_ <? _)%Z = false |- _ => apply Z.ltb_ge in H
  | H : (_ <=? _)%Z = true |- _ => apply Z.leb_le in H
  | H : (_ <=? _)%Z = false |- _ => apply Z.leb_gt in H
  | H : (_ =? _)%nat = true |- _ => apply Nat.eqb_eq in H
  | H : (_ =? _)%nat = false |- _ => apply Nat.eqb_neq in H
  | H : (_ <? _)%nat = true |- _ => apply Nat.ltb_lt in H
  | H : (_ <? _)%nat = false |- _ => apply Nat.ltb_ge in H
  | H : (_ <=? _)%nat = true |- _ => apply Nat.leb_le in H
  | H : (_ <=? _)%nat = false |- _ => apply Nat.leb_gt in H
  end.

(** ** Machine integers

    A C unsigned integer of [w] bits is a [Z] reduced modulo [2 ^ w]; a signed
    one is a [Z] in the two's complement range. *)

Definition wrapu (w : Z) (x : Z) : Z := x mod 2 ^ w.

Definition UINT32_MAX : Z := 2 ^ 32 - 1.
Definition SIZE_MAX : Z := 2 ^ 64 - 1.
Definition INT32_MAX : Z := 2 ^ 31 - 1.
Definition INT64_MAX : Z := 2 ^ 63 - 1.
Definition INT64_MIN : Z := - 2 ^ 63.

Lemma wrapu_small w x : (0 <= x < 2 ^ w)%Z -> wrapu w x = x.
Proof. intros. by apply Z.mod_small. Qed.

Lemma wrapu_bounds w x : (0 <= w)%Z -> (0 <= wrapu w x < 2 ^ w)%Z.
Proof. intros. apply Z.mod_pos_bound. lia. Qed.

(** ** Allocation

    [malloc], [realloc] and the arena allocator may fail at every call.  The
    model carries the outcomes of the calls still to come as a list of
    booleans, an exhausted list standing for success from then on; every
    theorem quantifies over it, so it holds whatever the allocator does. *)

Definition heap := list bool.

Definition alloc (h : heap) : bool * heap :=
  match h with
  | [] => (true, [])
  | ok :: h' => (ok, h')
  end.

(** *** Computations that fail only for want of memory *)

Definition fallible (A : Type) : Type := heap -> option A * heap.

#[export] Instance fallible_ret : MRet fallible := fun A a h => (Some a, h).
#[export] Instance fallible_bind : MBind fallible := fun A B k m h =>
  match m h with
  | (Some a, h) => k a h
  | (None, h) => (None, h)
  end.

Definition failing {A} : fallible A := fun h => (None, h).

Definition attempt : fallible unit := fun h =>
  let (ok, h) := alloc h in (if ok then Some tt else None, h).

(** A result satisfies [P], and there is one when no allocation fails. *)
Definition fallibly {A} (m : fallible A) (P : A -> Prop) : Prop :=
  (forall h a h', m h = (Some a, h') -> P a) /\ (exists a, m [] = (Some a, [])).

Lemma fallibly_ret {A} (a : A) (P : A -> Prop) : P a -> fallibly (mret a) P.
Proof. intros Ha. split; [by intros h b h' [= <- _]|by exists a]. Qed.

Lemma fallibly_attempt : fallibly attempt (fun _ => True).
Proof. split; [done|by exists tt]. Qed.

Lemma fallibly_bind {A B} (m : fallible A) (k : A -> fallible B) P Q :
  fallibly m P -> (forall a, P a -> fallibly (k a) Q) -> fallibly (m ≫= k) Q.
Proof.
  intros [Hm (a & Ha)] Hk. split.
  - intros h b h'. unfold mbind, fallible_bind. destruct (m h) as [[a'|] h1] eqn:E; [|done].
    apply Hk. by eapply Hm.
  - destruct (Hk a (Hm _ _ _ Ha)) as [_ (b & Hb)]. exists b.
    unfold mbind, fallible_bind. by rewrite Ha.
Qed.

Lemma fallibly_weaken {A} (m : fallible A) (P Q : A -> Prop) :
  fallibly m P -> (forall a, P a -> Q a) -> fallibly m Q.
Proof. intros [Hm Ha] HPQ. split; [|done]. intros h a h' H. eauto. Qed.

(** ** Searching an array

    The index of the first element that passes a test, as a C [for] loop that
    returns at the first hit. *)

Fixpoint find_index {A} (f : A -> bool) (l : list A) : option nat :=
  match l with
  | [] => None
  | x :: l' => if f x then Some 0%nat else S <$> find_index f l'
  end.

Lemma find_index_Some {A} (f : A -> bool) l i :
  find_index f l = Some i <->
  exists x, l !! i = Some x /\ f x = true /\
    forall j y, (j < i)%nat -> l !! j = Some y -> f y = false.
Proof.
  revert i. induction l as [|x l IH]; intros i; simpl.
  - split; [done|]. intros (? & H & _). by rewrite lookup_nil in H.
  - destruct (f x) eqn:E.
    + split.
      * intros [= <-]. exists x. split_and!; [done..|]. lia.
      * intros (y & Hy & Hf & Hall). destruct i as [|i]; [done|].
        specialize (Hall 0%nat x). rewrite Hall in E by (done || lia). done.
    + rewrite fmap_Some. split.
      * intros (j & Hj & ->). apply IH in Hj as (y & Hy & Hf & Hall).
        exists y. split_and!; [done..|]. intros [|k] z Hk; simpl; [congruence|].
        apply Hall. lia.
      * intros (y & Hy & Hf & Hall). destruct i as [|i]; simpl in *; [congruence|].
        exists i. split; [|done]. apply IH. exists y. split_and!; [done..|].
        intros j z Hj. apply (Hall (S j)). lia.
Qed.

Lemma find_index_None {A} (f : A -> bool) l :
  find_index f l = None <-> Forall (fun x => f x = false) l.
Proof.
  induction l as [|x l IH]; simpl; [by split|].
  rewrite Forall_cons, <- IH. destruct (f x), (find_index f l); simpl; intuition congruence.
Qed.

Lemma find_index_lookup {A} (f : A -> bool) l i :
  find_index f l = Some i -> exists x, l !! i = Some x /\ f x = true.
Proof. intros (x & ? & ? & _)%find_index_Some. by exists x. Qed.

(** ** Related lists up to a permutation *)

Lemma Forall2_perm {A B} (R : A -> B -> Prop) l e e' :
  Forall2 R l e -> e ≡ₚ e' -> exists l', l ≡ₚ l' /\ Forall2 R l' e'.
Proof.
  intros H Hp. revert l H. induction Hp as [|y e e' _ IH|y z e|e e1 e2 _ IH1 _ IH2]; intros l H.
  - by exists l.
  - inversion H as [|x ? l0 ? Hx Hl]; subst. destruct (IH _ Hl) as (l' & Hp & Hl').
    exists (x :: l'). split; [by constructor|by constructor].
  - inversion H as [|x ? l0 ? Hx Hl]; subst. inversion Hl as [|x' ? l1 ? Hx' Hl']; subst.
    exists (x' :: x :: l1). split; [by constructor|by repeat constructor].
  - destruct (IH1 _ H) as (l1 & Hp1 & H1). destruct (IH2 _ H1) as (l2 & Hp2 & H2).
    exists l2. split; [by etrans|done].
Qed.

(** ** Hint database of the development *)

Create HintDb turbo discriminated.
