(* ===== verification/Float64.v ===== *)
(** Binary64 arithmetic: C [double] as the Standard Library's [spec_float] at
    precision 53 and maximal exponent 1024, the comparisons and the
    [math.h] functions the modelled code uses ([fabs], [floor], [fmod]), and
    the order and sign lemmas the components share. *)

From S2P Require Import Prelude.
From Stdlib Require Import SpecFloat.

Declare Scope f64_scope.
Delimit Scope f64_scope with f64.

Definition f64 := spec_float.
Bind Scope f64_scope with f64.

Definition f64_add : f64 -> f64 -> f64 := SFadd 53 1024.
Definition f64_sub : f64 -> f64 -> f64 := SFsub 53 1024.
Definition f64_mul : f64 -> f64 -> f64 := SFmul 53 1024.
Definition f64_div : f64 -> f64 -> f64 := SFdiv 53 1024.
Definition f64_opp : f64 -> f64 := SFopp.
Definition f64_fabs : f64 -> f64 := SFabs.
Definition f64_eqb : f64 -> f64 -> bool := SFeqb.
Definition f64_ltb : f64 -> f64 -> bool := SFltb.
Definition f64_leb : f64 -> f64 -> bool := SFleb.

(** Conversion of an integer, as in [(double)n]: round to nearest even. *)
Definition f64_of_Z (z : Z) : f64 := binary_normalize 53 1024 z 0 false.

(** The decimal literal [m * 10 ^ e].  [m] and [10 ^ |e|] are exact for the
    literals of the code, so one correctly rounded division gives the literal's
    value. *)
Definition f64_lit (m e : Z) : f64 :=
  if (0 <=? e)%Z then f64_of_Z (m * 10 ^ e)
  else f64_div (f64_of_Z m) (f64_of_Z (10 ^ (- e))).

Definition f64_zero : f64 := S754_zero false.
Definition f64_one : f64 := f64_of_Z 1.

(** [floor]: the integer part of a finite number is exact. *)
Definition f64_floor (x : f64) : f64 :=
  match x with
  | S754_finite s m e =>
      if (0 <=? e)%Z then x
      else binary_normalize 53 1024 ((if s then Z.neg m else Z.pos m) / 2 ^ (- e)) 0 s
  | _ => x
  end.

(** The integer part, as a conversion to an integer type takes it; none of NaN and
    the infinities. *)
Definition f64_trunc (x : f64) : option Z :=
  match x with
  | S754_zero _ => Some 0%Z
  | S754_finite s m e =>
      let t := if (0 <=? e)%Z then (Z.pos m * 2 ^ e)%Z else (Z.pos m / 2 ^ (- e))%Z in
      Some (if s then (- t)%Z else t)
  | _ => None
  end.

(** [fmod]: the exact remainder, with the sign of the dividend. *)
Definition f64_fmod (x y : f64) : f64 :=
  match x, y with
  | S754_nan, _ | _, S754_nan => S754_nan
  | S754_infinity _, _ | _, S754_zero _ => S754_nan
  | S754_zero _, _ | _, S754_infinity _ => x
  | S754_finite sx mx ex, S754_finite _ my ey =>
      let e := Z.min ex ey in
      let r := ((Z.pos mx * 2 ^ (ex - e)) mod (Z.pos my * 2 ^ (ey - e)))%Z in
      binary_normalize 53 1024 (if sx then - r else r)%Z e sx
  end.

Notation "0.0" := f64_zero : f64_scope.
Notation "1.0" := f64_one : f64_scope.
Infix "+" := f64_add : f64_scope.
Infix "-" := f64_sub : f64_scope.
Infix "*" := f64_mul : f64_scope.
Infix "/" := f64_div : f64_scope.
Notation "- x" := (f64_opp x) : f64_scope.
Notation "x <? y" := (f64_ltb x y) : f64_scope.
Notation "x <=? y" := (f64_leb x y) : f64_scope.
Notation "x >? y" := (f64_ltb y x) (at level 70) : f64_scope.
Notation "x >=? y" := (f64_leb y x) (at level 70) : f64_scope.
Notation "x ==? y" := (f64_eqb x y) (at level 70) : f64_scope.
Notation "x !=? y" := (negb (f64_eqb x y)) (at level 70) : f64_scope.

Example f64_lit_tenth : f64_lit 1 (-1) = S754_finite false 7205759403792794 (-56).
Proof. reflexivity. Qed.
Example f64_floor_neg : f64_floor (f64_lit (-25) (-1)) = f64_of_Z (-3).
Proof. reflexivity. Qed.
Example f64_fmod_250 : f64_fmod (f64_of_Z 250) (f64_of_Z 100) = f64_of_Z 50.
Proof. reflexivity. Qed.

(** ** Order *)

Definition is_nan (x : f64) : bool :=
  match x with S754_nan => true | _ => false end.

(** The order of the numbers that are not NaN is the lexicographic order of a
    triple of integers. *)
Definition f64_key (x : f64) : Z * Z * Z :=
  match x with
  | S754_infinity true => (-2, 0, 0)
  | S754_finite true m e => (-1, - e, Z.neg m)
  | S754_zero _ | S754_nan => (0, 0, 0)
  | S754_finite false m e => (1, e, Z.pos m)
  | S754_infinity false => (2, 0, 0)
  end%Z.

Definition key_compare (a b : Z * Z * Z) : comparison :=
  let '(a1, a2, a3) := a in
  let '(b1, b2, b3) := b in
  match (a1 ?= b1)%Z with
  | Eq => match (a2 ?= b2)%Z with Eq => (a3 ?= b3)%Z | c => c end
  | c => c
  end.

Lemma SFcompare_key x y :
  is_nan x = false -> is_nan y = false ->
  SFcompare x y = Some (key_compare (f64_key x) (f64_key y)).
Proof.
  intros Hx Hy. destruct x as [sx|sx| |sx mx ex], y as [sy|sy| |sy my ey];
    try discriminate; try destruct sx; try destruct sy; try reflexivity.
  cbn [SFcompare f64_key key_compare]. f_equal.
  destruct (Z.compare_spec ex ey), (Z.compare_spec (- ex) (- ey)); try lia; done.
Qed.

Lemma SFcompare_nan x y : is_nan x || is_nan y = true -> SFcompare x y = None.
Proof. by destruct x as [[]|[]| |[] ? ?], y as [[]|[]| |[] ? ?]. Qed.

Definition key_lt (a b : Z * Z * Z) : Prop :=
  let '(a1, a2, a3) := a in
  let '(b1, b2, b3) := b in
  (a1 < b1 \/ a1 = b1 /\ (a2 < b2 \/ a2 = b2 /\ a3 < b3))%Z.

Lemma key_compare_spec a b :
  match key_compare a b with
  | Lt => key_lt a b
  | Eq => a = b
  | Gt => key_lt b a
  end.
Proof.
  destruct a as [[a1 a2] a3], b as [[b1 b2] b3]. unfold key_compare, key_lt.
  destruct (Z.compare_spec a1 b1), (Z.compare_spec a2 b2),
    (Z.compare_spec a3 b3); subst; try done; lia.
Qed.

Ltac key_order :=
  unfold key_lt in *;
  repeat match goal with
  | |- context [f64_key ?x] => destruct (f64_key x) as [[? ?] ?]
  | H : context [f64_key ?x] |- _ => destruct (f64_key x) as [[? ?] ?]
  end;
  repeat match goal with H : (_, _) = (_, _) |- _ => injection H as ??? end;
  cbv beta iota in *; subst; intuition (solve [congruence | exfalso; lia | lia]).

(** [x < y] and [x <= y] as the code's tests decide them. *)
Lemma f64_ltb_key x y :
  f64_ltb x y = true <->
  is_nan x = false /\ is_nan y = false /\ key_lt (f64_key x) (f64_key y).
Proof.
  unfold f64_ltb, SFltb. destruct (is_nan x || is_nan y) eqn:N.
  - rewrite SFcompare_nan by done. apply orb_true_iff in N. intuition congruence.
  - bool_props. rewrite SFcompare_key by done.
    pose proof (key_compare_spec (f64_key x) (f64_key y)) as K.
    destruct (key_compare _ _); key_order.
Qed.

Lemma f64_leb_key x y :
  f64_leb x y = true <->
  is_nan x = false /\ is_nan y = false /\ ~ key_lt (f64_key y) (f64_key x).
Proof.
  unfold f64_leb, SFleb. destruct (is_nan x || is_nan y) eqn:N.
  - rewrite SFcompare_nan by done. apply orb_true_iff in N. intuition congruence.
  - bool_props. rewrite SFcompare_key by done.
    pose proof (key_compare_spec (f64_key x) (f64_key y)) as K.
    destruct (key_compare _ _); key_order.
Qed.

Ltac f64_order :=
  repeat match goal with
  | H : f64_ltb _ _ = true |- _ => apply f64_ltb_key in H as (? & ? & ?)
  | H : f64_leb _ _ = true |- _ => apply f64_leb_key in H as (? & ? & ?)
  | H : f64_ltb _ _ = false |- _ => apply not_true_iff_false in H; rewrite f64_ltb_key in H
  | H : f64_leb _ _ = false |- _ => apply not_true_iff_false in H; rewrite f64_leb_key in H
  | |- f64_ltb _ _ = true => apply f64_ltb_key
  | |- f64_leb _ _ = true => apply f64_leb_key
  | |- f64_ltb _ _ = false => apply not_true_iff_false; rewrite f64_ltb_key
  | |- f64_leb _ _ = false => apply not_true_iff_false; rewrite f64_leb_key
  end;
  key_order.

Lemma f64_ltb_irrefl x : f64_ltb x x = false.
Proof. f64_order. Qed.
Lemma f64_ltb_asym x y : f64_ltb x y = true -> f64_ltb y x = false.
Proof. intros. f64_order. Qed.
Lemma f64_ltb_leb x y : f64_ltb x y = true -> f64_leb x y = true.
Proof. intros. f64_order. Qed.
Lemma f64_leb_refl x : is_nan x = false -> f64_leb x x = true.
Proof. intros. f64_order. Qed.
Lemma f64_leb_trans x y z :
  f64_leb x y = true -> f64_leb y z = true -> f64_leb x z = true.
Proof. intros. f64_order. Qed.
Lemma f64_ltb_leb_trans x y z :
  f64_ltb x y = true -> f64_leb y z = true -> f64_ltb x z = true.
Proof. intros. f64_order. Qed.
Lemma f64_leb_ltb_trans x y z :
  f64_leb x y = true -> f64_ltb y z = true -> f64_ltb x z = true.
Proof. intros. f64_order. Qed.
Lemma f64_ltb_not_nan x y : f64_ltb x y = true -> is_nan x = false /\ is_nan y = false.
Proof. intros. f64_order. Qed.
Lemma f64_leb_not_nan x y : f64_leb x y = true -> is_nan x = false /\ is_nan y = false.
Proof. intros. f64_order. Qed.
Lemma f64_ltb_false_leb x y :
  is_nan x = false -> is_nan y = false -> f64_ltb x y = false -> f64_leb y x = true.
Proof. intros. f64_order. Qed.
Lemma f64_leb_ltb_false x y : f64_leb x y = true -> f64_ltb y x = false.
Proof. intros. f64_order. Qed.

Lemma key_lt_irrefl a : ~ key_lt a a.
Proof. destruct a as [[a1 a2] a3]. unfold key_lt. lia. Qed.

Lemma f64_eqb_key x y :
  f64_eqb x y = true <-> is_nan x = false /\ is_nan y = false /\ f64_key x = f64_key y.
Proof.
  unfold f64_eqb, SFeqb. destruct (is_nan x || is_nan y) eqn:N.
  - rewrite SFcompare_nan by done. apply orb_true_iff in N. intuition congruence.
  - bool_props. rewrite SFcompare_key by done.
    pose proof (key_compare_spec (f64_key x) (f64_key y)) as K.
    destruct (key_compare _ _); (split; [intros; by split_and!|]); intros (_ & _ & E); [done|..];
      rewrite E in K; by apply key_lt_irrefl in K.
Qed.

Lemma f64_eqb_sym x y : f64_eqb x y = true -> f64_eqb y x = true.
Proof. rewrite !f64_eqb_key. intuition congruence. Qed.
Lemma f64_eqb_trans x y z : f64_eqb x y = true -> f64_eqb y z = true -> f64_eqb x z = true.
Proof. rewrite !f64_eqb_key. intuition congruence. Qed.
Lemma f64_eqb_refl x : is_nan x = false -> f64_eqb x x = true.
Proof. rewrite f64_eqb_key. done. Qed.
Lemma f64_ltb_neq x y : f64_ltb x y = true -> f64_eqb x y = false.
Proof.
  intros H. destruct (f64_eqb x y) eqn:E; [|done].
  apply f64_eqb_key in E as (_ & _ & E). apply f64_ltb_key in H as (_ & _ & H).
  rewrite E in H. by apply key_lt_irrefl in H.
Qed.
Lemma f64_leb_cases x y : f64_leb x y = true -> f64_ltb x y = true \/ f64_eqb x y = true.
Proof.
  intros H. pose proof (key_compare_spec (f64_key x) (f64_key y)) as K.
  rewrite f64_ltb_key, f64_eqb_key. apply f64_leb_key in H as (? & ? & ?).
  destruct (key_compare _ _); [right; by split_and!|left; by split_and!|done].
Qed.
Lemma f64_ltb_eqb_trans x y z : f64_ltb x y = true -> f64_eqb y z = true -> f64_ltb x z = true.
Proof.
  rewrite !f64_ltb_key, f64_eqb_key. intros (? & ? & ?) (? & ? & E). rewrite <- E. by split_and!.
Qed.
#[export] Hint Resolve f64_ltb_irrefl f64_ltb_asym f64_ltb_leb f64_leb_refl
  f64_leb_ltb_false : turbo.

(** ** Signs

    Rounding keeps the sign of the exact result, so additions of numbers that
    are not negative and products of numbers of one sign are not negative. *)

Definition f64_sign (x : f64) : bool :=
  match x with
  | S754_zero s | S754_infinity s | S754_finite s _ _ => s
  | S754_nan => false
  end.

(** [x < 0] is false: [x] is zero, positive or NaN. *)
Definition not_negative (x : f64) : bool := negb (f64_ltb x f64_zero).

Lemma not_negative_sign x :
  not_negative x = match x with S754_zero _ => true | _ => negb (f64_sign x) end.
Proof. by destruct x as [[]|[]| |[] ? ?]. Qed.

Lemma sign_not_negative x : f64_sign x = false -> not_negative x = true.
Proof. rewrite not_negative_sign. by destruct x as [[]|[]| |[] ? ?]. Qed.

Lemma binary_round_aux_sign s m e l :
  let x := binary_round_aux 53 1024 s m e l in
  is_nan x = true \/ f64_sign x = s.
Proof.
  simpl. unfold binary_round_aux.
  destruct (shr_fexp _ _ _ _ _) as [? ?], (shr_fexp _ _ _ _ _) as [mrs ?].
  destruct (shr_m mrs); simpl; [by right| |by left].
  case_match; by right.
Qed.

Lemma binary_normalize_sign m e :
  (0 <= m)%Z -> f64_sign (binary_normalize 53 1024 m e false) = false.
Proof.
  intros. unfold binary_normalize, binary_round. destruct m as [|p|p]; [done| |lia].
  destruct (shl_align _ _ _) as [? ?].
  match goal with |- f64_sign (?f _ _ ?s ?m ?e ?l) = _ =>
    destruct (binary_round_aux_sign s m e l) as [N|N] end; [|done].
  by destruct (binary_round_aux _ _ _ _ _ _).
Qed.

Lemma f64_add_not_negative x y :
  not_negative x = true -> not_negative y = true -> not_negative (x + y)%f64 = true.
Proof.
  rewrite !(not_negative_sign x), !(not_negative_sign y).
  destruct x as [[]|[]| |[] mx ex], y as [[]|[]| |[] my ey]; try done.
  intros _ _. apply sign_not_negative. unfold f64_add, SFadd, cond_Zopp.
  apply binary_normalize_sign. lia.
Qed.

Lemma f64_mul_not_negative x y :
  f64_sign x = false -> f64_sign y = false -> not_negative (x * y)%f64 = true.
Proof.
  intros Hx Hy. apply sign_not_negative.
  destruct x as [sx|sx| |sx mx ex], y as [sy|sy| |sy my ey];
    simpl in *; subst; try done.
  match goal with |- f64_sign (?f _ _ ?s ?m ?e ?l) = _ =>
    destruct (binary_round_aux_sign s m e l) as [N|N] end; [|done].
  by destruct (binary_round_aux _ _ _ _ _ _).
Qed.

(** ** Conversions to [int] *)

(** [(int)] of a 64-bit integer or of a [size_t]. *)
Definition int_of_int64 (z : Z) : Z :=
  (let z := wrapu 32 z in if z <=? INT32_MAX then z else z - 2 ^ 32)%Z.

Definition int_of_size (n : nat) : Z := int_of_int64 (Z.of_nat n).

(** [(int)] of a [double]; outside the range of [int], where C leaves it open, it is what x86
    answers. *)
Definition int_of_f64 (x : f64) : Z :=
  match f64_trunc x with
  | Some t => if (- 2 ^ 31 <=? t)%Z && (t <=? INT32_MAX)%Z then t else (- 2 ^ 31)%Z
  | None => (- 2 ^ 31)%Z
  end.
