(* ===== verification/CString.v ===== *)
(** C strings: the list of the characters without the terminating NUL, a [char]
    being the integer it is in C (signed, as on the supported targets). *)

From S2P Require Import Prelude.
From Stdlib Require Import Ascii.
Open Scope Z_scope.

Definition c_char (a : ascii) : Z :=
  let n := Z.of_N (N_of_ascii a) in if n <? 128 then n else n - 256.

Fixpoint c_str (s : string) : list Z :=
  match s with
  | EmptyString => []
  | String a s' => c_char a :: c_str s'
  end.

(** [s[i]]: reading the terminator gives NUL; the code never reads beyond it. *)
Definition at_ (s : list Z) (i : nat) : Z := nth i s 0.

(** Is [c] this character? *)
Definition is_ (a : ascii) (c : Z) : bool := c =? c_char a.

Definition in_range (lo hi : ascii) (c : Z) : bool := (c_char lo <=? c) && (c <=? c_char hi).

(** [(uint8_t)c] *)
Definition u8 (c : Z) : Z := wrapu 8 c.

Lemma is_distinct a b c : is_ a c = true -> c_char a <> c_char b -> is_ b c = false.
Proof. unfold is_. intros ?%Z.eqb_eq ?. apply Z.eqb_neq. congruence. Qed.
