(* ===== verification/MarketRules.v ===== *)
(** Market rule sets and order validation: [modules/fin/src/market_rules.c] and
    [modules/fin/include/market_rules.h].

    A [const universe_market_rules_t *] that may be NULL is an [option]; the
    integer flags of the C record that are only tested for zero are [bool]. *)

From S2P Require Import Prelude Float64.
Open Scope Z_scope.

(** ** Data *)

Record universe_market_rules_t := MarketRules {
  name : string;
  lot_size_default : f64;
  fractional_allowed : bool;
  t_plus : Z;                  (* uint8_t *)
  has_price_limit : bool;
  price_limit_up : f64;
  price_limit_dn : f64;
  short_allowed : bool;
  commission_rate : f64;
  min_commission : f64;
  stamp_duty : f64;
  trading_days_mask : Z;       (* uint8_t *)
  session_open : f64;
  session_close : f64;
  has_lunch_break : bool;
  lunch_start : f64;
  lunch_end : f64
}.

Inductive order_error_t :=
  | ORDER_OK
  | ORDER_ERR_T_PLUS
  | ORDER_ERR_LOT_SIZE
  | ORDER_ERR_PRICE_LIMIT
  | ORDER_ERR_NO_SHORT
  | ORDER_ERR_MARKET_CLOSED
  | ORDER_ERR_ASSET_INACTIVE
  | ORDER_ERR_ZERO_QTY
  | ORDER_ERR_MARGIN.

#[export] Instance order_error_eq_dec : EqDecision order_error_t.
Proof. solve_decision. Defined.

(** ** Pre-defined markets *)

Definition MARKET_US_EQUITY : universe_market_rules_t := {|
  name := "US_EQUITY"; lot_size_default := f64_lit 1 0; fractional_allowed := false;
  t_plus := 0; has_price_limit := false; price_limit_up := f64_zero;
  price_limit_dn := f64_zero; short_allowed := true; commission_rate := f64_lit 5 (-4);
  min_commission := f64_lit 1 0; stamp_duty := f64_zero; trading_days_mask := 0x1F;
  session_open := f64_lit 95 (-1); session_close := f64_lit 16 0; has_lunch_break := false;
  lunch_start := f64_zero; lunch_end := f64_zero |}.

Definition MARKET_CN_ASTOCK : universe_market_rules_t := {|
  name := "CN_ASTOCK"; lot_size_default := f64_lit 100 0; fractional_allowed := false;
  t_plus := 1; has_price_limit := true; price_limit_up := f64_lit 10 (-2);
  price_limit_dn := f64_lit 10 (-2); short_allowed := false; commission_rate := f64_lit 3 (-4);
  min_commission := f64_lit 5 0; stamp_duty := f64_lit 1 (-3); trading_days_mask := 0x1F;
  session_open := f64_lit 95 (-1); session_close := f64_lit 15 0; has_lunch_break := true;
  lunch_start := f64_lit 115 (-1); lunch_end := f64_lit 13 0 |}.

Definition MARKET_CN_CHINEXT : universe_market_rules_t := {|
  name := "CN_CHINEXT"; lot_size_default := f64_lit 100 0; fractional_allowed := false;
  t_plus := 1; has_price_limit := true; price_limit_up := f64_lit 20 (-2);
  price_limit_dn := f64_lit 20 (-2); short_allowed := false; commission_rate := f64_lit 3 (-4);
  min_commission := f64_lit 5 0; stamp_duty := f64_lit 1 (-3); trading_days_mask := 0x1F;
  session_open := f64_lit 95 (-1); session_close := f64_lit 15 0; has_lunch_break := true;
  lunch_start := f64_lit 115 (-1); lunch_end := f64_lit 13 0 |}.

Definition MARKET_HK_EQUITY : universe_market_rules_t := {|
  name := "HK_EQUITY"; lot_size_default := f64_lit 1 0; fractional_allowed := false;
  t_plus := 0; has_price_limit := false; price_limit_up := f64_zero;
  price_limit_dn := f64_zero; short_allowed := true; commission_rate := f64_lit 25 (-4);
  min_commission := f64_lit 50 0; stamp_duty := f64_lit 13 (-4); trading_days_mask := 0x1F;
  session_open := f64_lit 95 (-1); session_close := f64_lit 16 0; has_lunch_break := true;
  lunch_start := f64_lit 12 0; lunch_end := f64_lit 13 0 |}.

Definition MARKET_CRYPTO : universe_market_rules_t := {|
  name := "CRYPTO"; lot_size_default := f64_lit 1 (-3); fractional_allowed := true;
  t_plus := 0; has_price_limit := false; price_limit_up := f64_zero;
  price_limit_dn := f64_zero; short_allowed := true; commission_rate := f64_lit 1 (-3);
  min_commission := f64_zero; stamp_duty := f64_zero; trading_days_mask := 0x7F;
  session_open := f64_zero; session_close := f64_lit 24 0; has_lunch_break := false;
  lunch_start := f64_zero; lunch_end := f64_zero |}.

Definition MARKET_FOREX : universe_market_rules_t := {|
  name := "FOREX"; lot_size_default := f64_lit 1000 0; fractional_allowed := false;
  t_plus := 0; has_price_limit := false; price_limit_up := f64_zero;
  price_limit_dn := f64_zero; short_allowed := true; commission_rate := f64_lit 1 (-4);
  min_commission := f64_zero; stamp_duty := f64_zero; trading_days_mask := 0x1F;
  session_open := f64_zero; session_close := f64_lit 24 0; has_lunch_break := false;
  lunch_start := f64_zero; lunch_end := f64_zero |}.

Definition MARKET_US_FUTURE : universe_market_rules_t := {|
  name := "US_FUTURE"; lot_size_default := f64_lit 1 0; fractional_allowed := false;
  t_plus := 0; has_price_limit := false; price_limit_up := f64_zero;
  price_limit_dn := f64_zero; short_allowed := true; commission_rate := f64_lit 1 (-3);
  min_commission := f64_lit 2 0; stamp_duty := f64_zero; trading_days_mask := 0x1F;
  session_open := f64_zero; session_close := f64_lit 24 0; has_lunch_break := false;
  lunch_start := f64_zero; lunch_end := f64_zero |}.

(** ** Operations *)

Definition session_open_check (rules : universe_market_rules_t) (t : f64) : bool :=
  if (t <? 0.0)%f64 then true
  else if ((t <? session_open rules) || (t >=? session_close rules))%f64 then false
  else if has_lunch_break rules && (t >=? lunch_start rules)%f64
          && (t <? lunch_end rules)%f64 then false
  else true.

(** The 1e-9 tolerance of the T+1 and lot-size tests. *)
Definition eps : f64 := f64_lit 1 (-9).

Definition upper_limit (rules : universe_market_rules_t) (prev_close : f64) : f64 :=
  (prev_close * (1.0 + price_limit_up rules))%f64.
Definition lower_limit (rules : universe_market_rules_t) (prev_close : f64) : f64 :=
  (prev_close * (1.0 - price_limit_dn rules))%f64.

Definition market_validate_order (rules : option universe_market_rules_t)
    (asset_active : bool) (price quantity : f64) (direction : Z)
    (prev_close current_pos bought_today session_time : f64) : order_error_t :=
  match rules with
  | None => ORDER_OK
  | Some rules =>
      if negb asset_active then ORDER_ERR_ASSET_INACTIVE
      else if (quantity <=? 0.0)%f64 then ORDER_ERR_ZERO_QTY
      else if negb (session_open_check rules session_time) then ORDER_ERR_MARKET_CLOSED
      else
        let goes_short := (quantity >? current_pos)%f64 in
        let available := (current_pos - bought_today)%f64 in
        if (direction <? 0) && goes_short && negb (short_allowed rules)
        then ORDER_ERR_NO_SHORT
        else if (direction <? 0) && (1 <=? t_plus rules)
                && (quantity >? available + eps)%f64
        then ORDER_ERR_T_PLUS
        else if has_price_limit rules && (prev_close >? 0.0)%f64
                && ((price >? upper_limit rules prev_close)
                    || (price <? lower_limit rules prev_close))%f64
        then ORDER_ERR_PRICE_LIMIT
        else if negb (fractional_allowed rules) && (lot_size_default rules >? 0.0)%f64
                && (f64_fmod quantity (lot_size_default rules) >? eps)%f64
        then ORDER_ERR_LOT_SIZE
        else ORDER_OK
  end.

Definition market_round_lot (rules : option universe_market_rules_t) (quantity : f64) : f64 :=
  match rules with
  | None => quantity
  | Some rules =>
      if fractional_allowed rules || (lot_size_default rules <=? 0.0)%f64 then quantity
      else (f64_floor (quantity / lot_size_default rules) * lot_size_default rules)%f64
  end.

Definition market_clamp_price (rules : option universe_market_rules_t)
    (price prev_close : f64) : f64 :=
  match rules with
  | None => price
  | Some rules =>
      if negb (has_price_limit rules) || (prev_close <=? 0.0)%f64 then price
      else
        let upper := upper_limit rules prev_close in
        let lower := lower_limit rules prev_close in
        let price := if (price >? upper)%f64 then upper else price in
        if (price <? lower)%f64 then lower else price
  end.

Definition market_commission (rules : option universe_market_rules_t)
    (notional : f64) (is_sell : bool) : f64 :=
  match rules with
  | None => 0.0%f64
  | Some rules =>
      let comm := (notional * commission_rate rules)%f64 in
      let comm := if (comm <? min_commission rules)%f64 then min_commission rules else comm in
      if is_sell && (stamp_duty rules >? 0.0)%f64
      then (comm + notional * stamp_duty rules)%f64 else comm
  end.

Definition order_error_str (err : order_error_t) : string :=
  match err with
  | ORDER_OK => "OK"
  | ORDER_ERR_T_PLUS => "T+1 violation: cannot sell same-day purchases"
  | ORDER_ERR_LOT_SIZE => "Quantity not a valid lot-size multiple"
  | ORDER_ERR_PRICE_LIMIT => "Price outside daily circuit-breaker range"
  | ORDER_ERR_NO_SHORT => "Short selling not permitted in this market"
  | ORDER_ERR_MARKET_CLOSED => "Order submitted outside trading hours"
  | ORDER_ERR_ASSET_INACTIVE => "Asset is not in the universe on this date"
  | ORDER_ERR_ZERO_QTY => "Order quantity must be positive"
  | ORDER_ERR_MARGIN => "Insufficient margin"
  end.

(** ** Specification: what an accepted order satisfies

    The conditions are the prose of [market_rules.h], one per error code. *)

Record order_acceptable (rules : universe_market_rules_t) (asset_active : bool)
    (price quantity : f64) (direction : Z)
    (prev_close current_pos bought_today session_time : f64) : Prop := {
  acc_active : asset_active = true;
  acc_quantity : (quantity <=? 0.0)%f64 = false;
  acc_session : session_open_check rules session_time = true;
  acc_short : direction < 0 -> short_allowed rules = false ->
    (current_pos <? quantity)%f64 = false;
  acc_t_plus : direction < 0 -> 1 <= t_plus rules ->
    (current_pos - bought_today + eps <? quantity)%f64 = false;
  acc_price : has_price_limit rules = true -> (0.0 <? prev_close)%f64 = true ->
    (upper_limit rules prev_close <? price)%f64 = false /\
    (price <? lower_limit rules prev_close)%f64 = false;
  acc_lot : fractional_allowed rules = false -> (0.0 <? lot_size_default rules)%f64 = true ->
    (eps <? f64_fmod quantity (lot_size_default rules))%f64 = false
}.

(** ** Lemmas *)

(** One test of the chain: it is passed exactly when its condition is false. *)
Lemma check_ok (c : bool) err (k : order_error_t) :
  err <> ORDER_OK -> (if c then err else k) = ORDER_OK <-> c = false /\ k = ORDER_OK.
Proof. destruct c; intuition congruence. Qed.

Lemma and2_false (a b : bool) : (a && b)%bool = false <-> (a = true -> b = false).
Proof. destruct a, b; simpl; intuition. Qed.

Lemma clamp_cases price prev rules :
  has_price_limit rules = true -> (prev <=? 0.0)%f64 = false ->
  let upper := upper_limit rules prev in
  let lower := lower_limit rules prev in
  (upper <? lower)%f64 = false ->
  let r := market_clamp_price (Some rules) price prev in
  (upper <? price)%f64 = true /\ r = upper \/
  (upper <? price)%f64 = false /\ (price <? lower)%f64 = true /\ r = lower \/
  (upper <? price)%f64 = false /\ (price <? lower)%f64 = false /\ r = price.
Proof.
  intros Hl Hp upper lower Hul. simpl. rewrite Hl, Hp. simpl.
  fold upper lower. destruct (upper <? price)%f64; [rewrite Hul; auto|].
  destruct (price <? lower)%f64; auto.
Qed.

(** ** Properties *)

(** [market_validate_order] accepts an order exactly when every documented
    condition holds: active asset, positive quantity, open session, no
    forbidden short, no sale of same-day purchases in a T+1 market, price inside
    the daily range, and a whole number of lots. *)
Theorem market_validate_order_ok_iff rules active price quantity direction prev pos bought t :
  market_validate_order (Some rules) active price quantity direction prev pos bought t = ORDER_OK
  <-> order_acceptable rules active price quantity direction prev pos bought t.
Proof.
  unfold market_validate_order. rewrite !check_ok by done.
  rewrite !negb_false_iff, <- !andb_assoc, !and2_false, !orb_false_iff,
    !negb_false_iff, Z.ltb_lt, Z.leb_le.
  split.
  - intros (? & ? & ? & Hshort & ? & ? & Hlot & _). constructor; try tauto.
    + intros D S. apply not_true_iff_false. intros G.
      specialize (Hshort D G). congruence.
    + intros F. apply Hlot. by rewrite F.
  - intros [? ? ? Hshort ? ? Hlot]. refine (conj _ (conj _ (conj _ (conj _ (conj _ (conj _ (conj _ eq_refl)))))));
      try assumption.
    + intros D G. apply not_false_iff_true. intros S. specialize (Hshort D S). congruence.
    + rewrite negb_true_iff. assumption.
Qed.

(** Clamping brings a price inside the daily range [lower, upper] around the
    previous close and leaves a price that is already inside alone. *)
Theorem market_clamp_price_spec rules price prev :
  has_price_limit rules = true -> (0.0 <? prev)%f64 = true ->
  (lower_limit rules prev <=? upper_limit rules prev)%f64 = true ->
  is_nan price = false ->
  let r := market_clamp_price (Some rules) price prev in
  (lower_limit rules prev <=? r)%f64 = true /\
  (r <=? upper_limit rules prev)%f64 = true /\
  ((lower_limit rules prev <=? price)%f64 = true ->
   (price <=? upper_limit rules prev)%f64 = true -> r = price) /\
  market_clamp_price (Some rules) r prev = r.
Proof.
  intros Hl Hp Hul Hn r.
  assert ((prev <=? 0.0)%f64 = false) as Hp' by f64_order.
  assert ((upper_limit rules prev <? lower_limit rules prev)%f64 = false) as Hul' by auto with turbo.
  destruct (f64_leb_not_nan _ _ Hul) as [Nl Nu].
  assert ((lower_limit rules prev <=? r)%f64 = true /\
    (r <=? upper_limit rules prev)%f64 = true) as [R1 R2].
  { destruct (clamp_cases price prev rules Hl Hp' Hul') as [[? E]|[(?&?&E)|(?&?&E)]];
      fold r in E; rewrite E; split;
      first [assumption | apply f64_leb_refl; assumption | apply f64_ltb_false_leb; assumption]. }
  split_and!; [done|done| |].
  - intros P1 P2. unfold r, market_clamp_price. rewrite Hl, Hp'. simpl.
    rewrite (f64_leb_ltb_false _ _ P2). by rewrite (f64_leb_ltb_false _ _ P1).
  - unfold market_clamp_price at 1. rewrite Hl, Hp'. simpl.
    rewrite (f64_leb_ltb_false _ _ R2). by rewrite (f64_leb_ltb_false _ _ R1).
Qed.

Example market_clamp_price_spec_witness :
  let r := market_clamp_price (Some MARKET_CN_ASTOCK) (f64_lit 12 0) (f64_lit 10 0) in
  r = upper_limit MARKET_CN_ASTOCK (f64_lit 10 0) /\
  (r <=? upper_limit MARKET_CN_ASTOCK (f64_lit 10 0))%f64 = true.
Proof.
  split; [by vm_compute|].
  apply (market_clamp_price_spec MARKET_CN_ASTOCK (f64_lit 12 0) (f64_lit 10 0)); by vm_compute.
Defined.

(** A price that went through [market_clamp_price] is never refused by
    [market_validate_order] as outside the daily range, whatever the order, so
    a trigger price clamped by the order manager passes the price check. *)
Theorem market_clamp_validate rules price prev active quantity direction pos bought t :
  (upper_limit rules prev <? lower_limit rules prev)%f64 = false ->
  market_validate_order (Some rules) active (market_clamp_price (Some rules) price prev)
    quantity direction prev pos bought t <> ORDER_ERR_PRICE_LIMIT.
Proof.
  intros Hul.
  assert (has_price_limit rules && (0.0 <? prev)%f64 &&
    ((upper_limit rules prev <? market_clamp_price (Some rules) price prev)
     || (market_clamp_price (Some rules) price prev <? lower_limit rules prev))%f64 = false) as E.
  { destruct (has_price_limit rules) eqn:Hl; [|done].
    destruct (0.0 <? prev)%f64 eqn:Hp; [|done].
    assert ((prev <=? 0.0)%f64 = false) as Hp' by f64_order.
    destruct (clamp_cases price prev rules Hl Hp' Hul) as [[? ->]|[(?&?&->)|(?&Hpl&->)]];
      rewrite ?f64_ltb_irrefl, ?Hul, ?Hpl, ?orb_false_r; auto. }
  unfold market_validate_order. rewrite E.
  repeat case_match; discriminate.
Qed.

Example market_clamp_validate_witness :
  market_validate_order (Some MARKET_CN_ASTOCK) true
    (market_clamp_price (Some MARKET_CN_ASTOCK) (f64_lit 8 0) (f64_lit 10 0))
    (f64_lit 100 0) 1 (f64_lit 10 0) f64_zero f64_zero (f64_lit (-1) 0)
  <> ORDER_ERR_PRICE_LIMIT.
Proof. apply market_clamp_validate. by vm_compute. Defined.

(** The commission of a buy is never below the rule set's minimum, and with
    rates, minimum and notional that are not negative no commission is. *)
Theorem market_commission_bounds rules notional :
  (market_commission (Some rules) notional false <? min_commission rules)%f64 = false /\
  (f64_sign notional = false -> f64_sign (commission_rate rules) = false ->
   f64_sign (min_commission rules) = false -> f64_sign (stamp_duty rules) = false ->
   forall sell, not_negative (market_commission (Some rules) notional sell) = true).
Proof.
  split.
  - simpl. destruct (notional * commission_rate rules <? min_commission rules)%f64 eqn:E;
      [apply f64_ltb_irrefl|done].
  - intros Hn Hr Hm Hd sell. simpl.
    assert (not_negative (if (notional * commission_rate rules <? min_commission rules)%f64
      then min_commission rules else (notional * commission_rate rules)%f64) = true).
    { case_match; [by apply sign_not_negative|by apply f64_mul_not_negative]. }
    destruct (sell && _); [|done].
    apply f64_add_not_negative; [done|by apply f64_mul_not_negative].
Qed.
