(* ===== verification/OrderManager.v ===== *)
(** The order manager: [modules/fin/src/order_manager.c] and
    [modules/fin/include/order_manager.h].

    A manager is a record; a pointer into one of its arrays is an index.  The
    [pending] and [trades] lists are the live prefixes of the C arrays (their
    lengths are [num_pending] and [num_trades]), next to the capacities; the
    [positions] list has [capacity] slots.  The callbacks of a live executor are
    code outside the program: they are the [Executor] class, and the manager
    carries the log of the calls made to them. *)

From S2P Require Import Prelude Float64 MarketRules.
Open Scope Z_scope.

(** ** Data *)

Inductive order_type_t :=
  | ORDER_TYPE_MARKET | ORDER_TYPE_LIMIT | ORDER_TYPE_STOP | ORDER_TYPE_STOP_LIMIT.

Inductive order_status_t :=
  | ORDER_STATUS_PENDING | ORDER_STATUS_FILLED | ORDER_STATUS_REJECTED
  | ORDER_STATUS_CANCELLED | ORDER_STATUS_EXPIRED.

#[export] Instance order_status_eq_dec : EqDecision order_status_t.
Proof. solve_decision. Defined.
#[export] Instance order_type_eq_dec : EqDecision order_type_t.
Proof. solve_decision. Defined.

Record order_t := Order {
  o_id : Z;                    (* uint64_t *)
  o_asset_id : Z;              (* uint32_t *)
  o_type : order_type_t;
  o_direction : Z;             (* int: +1 buy, -1 sell *)
  o_quantity : f64;
  o_limit_price : f64;
  o_stop_price : f64;
  o_stop_loss : f64;
  o_take_profit : f64;
  o_oco_link_id : Z;           (* uint64_t *)
  o_bars_valid : Z;            (* int: -1 good till cancelled *)
  o_status : order_status_t;
  o_fill_price : f64;
  o_fill_date : f64;
  o_fill_qty : f64
}.

Record trade_record_t := Trade {
  t_asset_id : Z;
  t_entry_price : f64;
  t_exit_price : f64;
  t_quantity : f64;
  t_direction : Z;
  t_entry_date : f64;
  t_exit_date : f64;
  t_pnl : f64;
  t_pnl_pct : f64;
  t_commission : f64
}.

Record position_t := Position {
  p_asset_id : Z;
  p_position : f64;
  p_avg_entry_price : f64;
  p_entry_date : f64;
  p_bought_today : f64;
  p_stop_loss : f64;
  p_take_profit : f64;
  p_trailing_dist : f64;
  p_trailing_is_pct : bool;
  p_trailing_peak : f64;
  p_unrealized_pnl : f64
}.

(** The executor callbacks made so far, latest first. *)
Inductive exec_call :=
  | CallSubmit (o : order_t)
  | CallCancel (order_id : Z)
  | CallSync.

Record order_manager_t := Manager {
  rules : option universe_market_rules_t;
  positions : list position_t;
  pending : list order_t;
  pending_cap : nat;
  trades : list trade_record_t;
  trades_cap : nat;
  equity_curve : list f64;
  equity_cap : nat;
  cash : f64;
  equity : f64;
  initial_cash : f64;
  slippage_pct : f64;
  spread : f64;
  next_order_id : Z;           (* uint64_t *)
  current_date : f64;
  executor : option nat;       (* which live executor is installed, if any *)
  calls : list exec_call;
  mem : heap                   (* outcomes of the allocations to come *)
}.

Definition capacity (mgr : order_manager_t) : nat := length (positions mgr).
Definition num_pending (mgr : order_manager_t) : nat := length (pending mgr).
Definition num_trades (mgr : order_manager_t) : nat := length (trades mgr).

(** The callbacks of [struct order_executor_s].  What they answer may depend on
    every call made before; [submit] may also change the order it is given, and
    [sync] rewrites the manager. *)
Class Executor := {
  ex_submit : nat -> list exec_call -> order_t -> order_error_t * order_t;
  ex_sync : nat -> list exec_call -> order_manager_t -> order_manager_t
}.

Definition INITIAL_PENDING_CAP : nat := 32.
Definition INITIAL_TRADES_CAP : nat := 256.
Definition INITIAL_EQUITY_CAP : nat := 4096.

(** A zeroed slot and a zeroed order, as [memset] leaves them. *)
Definition position_zero : position_t :=
  Position 0 f64_zero f64_zero f64_zero f64_zero f64_zero f64_zero f64_zero false
    f64_zero f64_zero.
Definition order_zero : order_t :=
  Order 0 0 ORDER_TYPE_MARKET 0 f64_zero f64_zero f64_zero f64_zero f64_zero 0 0
    ORDER_STATUS_PENDING f64_zero f64_zero f64_zero.

(** ** Field updates *)

Definition set_positions (l : list position_t) (m : order_manager_t) : order_manager_t :=
  Manager (rules m) l (pending m) (pending_cap m) (trades m) (trades_cap m) (equity_curve m)
    (equity_cap m) (cash m) (equity m) (initial_cash m) (slippage_pct m) (spread m)
    (next_order_id m) (current_date m) (executor m) (calls m) (mem m).
Definition set_pending (l : list order_t) (m : order_manager_t) : order_manager_t :=
  Manager (rules m) (positions m) l (pending_cap m) (trades m) (trades_cap m) (equity_curve m)
    (equity_cap m) (cash m) (equity m) (initial_cash m) (slippage_pct m) (spread m)
    (next_order_id m) (current_date m) (executor m) (calls m) (mem m).
Definition set_pending_cap (c : nat) (m : order_manager_t) : order_manager_t :=
  Manager (rules m) (positions m) (pending m) c (trades m) (trades_cap m) (equity_curve m)
    (equity_cap m) (cash m) (equity m) (initial_cash m) (slippage_pct m) (spread m)
    (next_order_id m) (current_date m) (executor m) (calls m) (mem m).
Definition set_trades (l : list trade_record_t) (m : order_manager_t) : order_manager_t :=
  Manager (rules m) (positions m) (pending m) (pending_cap m) l (trades_cap m) (equity_curve m)
    (equity_cap m) (cash m) (equity m) (initial_cash m) (slippage_pct m) (spread m)
    (next_order_id m) (current_date m) (executor m) (calls m) (mem m).
Definition set_trades_cap (c : nat) (m : order_manager_t) : order_manager_t :=
  Manager (rules m) (positions m) (pending m) (pending_cap m) (trades m) c (equity_curve m)
    (equity_cap m) (cash m) (equity m) (initial_cash m) (slippage_pct m) (spread m)
    (next_order_id m) (current_date m) (executor m) (calls m) (mem m).
Definition set_equity_curve (l : list f64) (c : nat) (m : order_manager_t) : order_manager_t :=
  Manager (rules m) (positions m) (pending m) (pending_cap m) (trades m) (trades_cap m) l
    c (cash m) (equity m) (initial_cash m) (slippage_pct m) (spread m)
    (next_order_id m) (current_date m) (executor m) (calls m) (mem m).
Definition set_cash (c : f64) (m : order_manager_t) : order_manager_t :=
  Manager (rules m) (positions m) (pending m) (pending_cap m) (trades m) (trades_cap m)
    (equity_curve m) (equity_cap m) c (equity m) (initial_cash m) (slippage_pct m) (spread m)
    (next_order_id m) (current_date m) (executor m) (calls m) (mem m).
Definition set_equity (e : f64) (m : order_manager_t) : order_manager_t :=
  Manager (rules m) (positions m) (pending m) (pending_cap m) (trades m) (trades_cap m)
    (equity_curve m) (equity_cap m) (cash m) e (initial_cash m) (slippage_pct m) (spread m)
    (next_order_id m) (current_date m) (executor m) (calls m) (mem m).
Definition set_next_order_id (n : Z) (m : order_manager_t) : order_manager_t :=
  Manager (rules m) (positions m) (pending m) (pending_cap m) (trades m) (trades_cap m)
    (equity_curve m) (equity_cap m) (cash m) (equity m) (initial_cash m) (slippage_pct m)
    (spread m) n (current_date m) (executor m) (calls m) (mem m).
Definition set_current_date (d : f64) (m : order_manager_t) : order_manager_t :=
  Manager (rules m) (positions m) (pending m) (pending_cap m) (trades m) (trades_cap m)
    (equity_curve m) (equity_cap m) (cash m) (equity m) (initial_cash m) (slippage_pct m)
    (spread m) (next_order_id m) d (executor m) (calls m) (mem m).
Definition order_manager_set_executor (e : option nat) (m : order_manager_t) : order_manager_t :=
  Manager (rules m) (positions m) (pending m) (pending_cap m) (trades m) (trades_cap m)
    (equity_curve m) (equity_cap m) (cash m) (equity m) (initial_cash m) (slippage_pct m)
    (spread m) (next_order_id m) (current_date m) e (calls m) (mem m).
Definition log_call (c : exec_call) (m : order_manager_t) : order_manager_t :=
  Manager (rules m) (positions m) (pending m) (pending_cap m) (trades m) (trades_cap m)
    (equity_curve m) (equity_cap m) (cash m) (equity m) (initial_cash m) (slippage_pct m)
    (spread m) (next_order_id m) (current_date m) (executor m) (c :: calls m) (mem m).
Definition set_mem (h : heap) (m : order_manager_t) : order_manager_t :=
  Manager (rules m) (positions m) (pending m) (pending_cap m) (trades m) (trades_cap m)
    (equity_curve m) (equity_cap m) (cash m) (equity m) (initial_cash m) (slippage_pct m)
    (spread m) (next_order_id m) (current_date m) (executor m) (calls m) h.

Definition with_status (s : order_status_t) (o : order_t) : order_t :=
  Order (o_id o) (o_asset_id o) (o_type o) (o_direction o) (o_quantity o) (o_limit_price o)
    (o_stop_price o) (o_stop_loss o) (o_take_profit o) (o_oco_link_id o) (o_bars_valid o) s
    (o_fill_price o) (o_fill_date o) (o_fill_qty o).
Definition with_fill (price date : f64) (o : order_t) : order_t :=
  Order (o_id o) (o_asset_id o) (o_type o) (o_direction o) (o_quantity o) (o_limit_price o)
    (o_stop_price o) (o_stop_loss o) (o_take_profit o) (o_oco_link_id o) (o_bars_valid o)
    ORDER_STATUS_FILLED price date (o_fill_qty o).
Definition with_bars_valid (b : Z) (o : order_t) : order_t :=
  Order (o_id o) (o_asset_id o) (o_type o) (o_direction o) (o_quantity o) (o_limit_price o)
    (o_stop_price o) (o_stop_loss o) (o_take_profit o) (o_oco_link_id o) b (o_status o)
    (o_fill_price o) (o_fill_date o) (o_fill_qty o).
Definition with_oco (link : Z) (o : order_t) : order_t :=
  Order (o_id o) (o_asset_id o) (o_type o) (o_direction o) (o_quantity o) (o_limit_price o)
    (o_stop_price o) (o_stop_loss o) (o_take_profit o) link (o_bars_valid o) (o_status o)
    (o_fill_price o) (o_fill_date o) (o_fill_qty o).

Definition with_stops (sl tp : f64) (p : position_t) : position_t :=
  Position (p_asset_id p) (p_position p) (p_avg_entry_price p) (p_entry_date p)
    (p_bought_today p) sl tp (p_trailing_dist p) (p_trailing_is_pct p) (p_trailing_peak p)
    (p_unrealized_pnl p).
Definition with_bought_today (b : f64) (p : position_t) : position_t :=
  Position (p_asset_id p) (p_position p) (p_avg_entry_price p) (p_entry_date p) b
    (p_stop_loss p) (p_take_profit p) (p_trailing_dist p) (p_trailing_is_pct p)
    (p_trailing_peak p) (p_unrealized_pnl p).
Definition with_trailing (dist : f64) (is_pct : bool) (peak : f64) (p : position_t) : position_t :=
  Position (p_asset_id p) (p_position p) (p_avg_entry_price p) (p_entry_date p)
    (p_bought_today p) (p_stop_loss p) (p_take_profit p) dist is_pct peak (p_unrealized_pnl p).
Definition with_unrealized (u : f64) (p : position_t) : position_t :=
  Position (p_asset_id p) (p_position p) (p_avg_entry_price p) (p_entry_date p)
    (p_bought_today p) (p_stop_loss p) (p_take_profit p) (p_trailing_dist p)
    (p_trailing_is_pct p) (p_trailing_peak p) u.

(** [*slot = p] for the slot of index [i]. *)
Definition put_position (i : nat) (p : position_t) (m : order_manager_t) : order_manager_t :=
  set_positions (<[i := p]> (positions m)) m.

(** The slot of index [i]; every index the code holds is inside the array. *)
Definition slot (m : order_manager_t) (i : nat) : position_t :=
  default position_zero (positions m !! i).

(** ** Internal helpers *)

Definition find_position (m : order_manager_t) (asset_id : Z) : option nat :=
  find_index (fun p => (p_asset_id p =? asset_id) && (p_position p !=? 0.0)%f64) (positions m).

Definition fresh_position (asset_id : Z) : position_t :=
  Position asset_id f64_zero f64_zero f64_zero f64_zero f64_zero f64_zero f64_zero false
    f64_zero f64_zero.

Definition find_or_create_position (m : order_manager_t) (asset_id : Z)
    : option nat * order_manager_t :=
  match find_index (fun p => p_asset_id p =? asset_id) (positions m) with
  | Some i => (Some i, m)
  | None =>
      match find_index (fun p => p_asset_id p =? 0) (positions m) with
      | Some i => (Some i, put_position i (fresh_position asset_id) m)
      | None => (None, m)
      end
  end.

Definition apply_slippage (m : order_manager_t) (price : f64) (direction : Z) : f64 :=
  let slip := (price * slippage_pct m + spread m)%f64 in
  (price + f64_of_Z direction * slip)%f64.

Definition trades_grow (m : order_manager_t) : bool * order_manager_t :=
  let (ok, h) := alloc (mem m) in
  let m := set_mem h m in
  if ok then (true, set_trades_cap (trades_cap m * 2) m) else (false, m).

Definition pending_grow (m : order_manager_t) : bool * order_manager_t :=
  let (ok, h) := alloc (mem m) in
  let m := set_mem h m in
  if ok then (true, set_pending_cap (pending_cap m * 2) m) else (false, m).

Definition make_trade (asset_id direction : Z)
    (entry_price exit_price quantity entry_date exit_date commission : f64) : trade_record_t :=
  let notional := (entry_price * quantity)%f64 in
  let pnl := (f64_of_Z direction * (exit_price - entry_price) * quantity - commission)%f64 in
  {| t_asset_id := asset_id; t_direction := direction; t_entry_price := entry_price;
     t_exit_price := exit_price; t_quantity := quantity; t_entry_date := entry_date;
     t_exit_date := exit_date; t_commission := commission; t_pnl := pnl;
     t_pnl_pct := if (notional >? eps)%f64 then (pnl / notional)%f64 else f64_zero |}.

Definition record_trade (m : order_manager_t) (asset_id direction : Z)
    (entry_price exit_price quantity entry_date exit_date commission : f64) : order_manager_t :=
  let '(room, m) :=
    if (trades_cap m <=? num_trades m)%nat then trades_grow m else (true, m) in
  if room then
    set_trades (trades m ++ [make_trade asset_id direction entry_price exit_price quantity
                               entry_date exit_date commission]) m
  else m.

(** ** Fills *)

(** The branch [direction > 0] of [apply_fill]: buy. *)
Definition buy_position (m : order_manager_t) (quantity fill_price stop_loss take_profit : f64)
    (pos : position_t) : position_t :=
  let old_notional := (p_avg_entry_price pos * f64_fabs (p_position pos))%f64 in
  let new_notional := (fill_price * quantity)%f64 in
  let position := (p_position pos + quantity)%f64 in
  {| p_asset_id := p_asset_id pos;
     p_position := position;
     p_avg_entry_price :=
       if (position >? eps)%f64 then ((old_notional + new_notional) / position)%f64
       else fill_price;
     p_entry_date :=
       if (p_entry_date pos ==? 0.0)%f64 then current_date m else p_entry_date pos;
     p_bought_today := (p_bought_today pos + quantity)%f64;
     p_stop_loss := if (stop_loss >? 0.0)%f64 then stop_loss else p_stop_loss pos;
     p_take_profit := if (take_profit >? 0.0)%f64 then take_profit else p_take_profit pos;
     p_trailing_dist := p_trailing_dist pos;
     p_trailing_is_pct := p_trailing_is_pct pos;
     p_trailing_peak := p_trailing_peak pos;
     p_unrealized_pnl := p_unrealized_pnl pos |}.

(** A full close resets these fields of the slot and no other. *)
Definition closed_position (pos : position_t) : position_t :=
  {| p_asset_id := p_asset_id pos;
     p_position := f64_zero; p_avg_entry_price := f64_zero; p_entry_date := f64_zero;
     p_bought_today := p_bought_today pos;
     p_stop_loss := f64_zero; p_take_profit := f64_zero;
     p_trailing_dist := p_trailing_dist pos;
     p_trailing_is_pct := p_trailing_is_pct pos;
     p_trailing_peak := p_trailing_peak pos;
     p_unrealized_pnl := p_unrealized_pnl pos |}.

Definition reduced_position (close_qty : f64) (pos : position_t) : position_t :=
  Position (p_asset_id pos)
    (p_position pos - (if (p_position pos >? 0.0)%f64 then close_qty else - close_qty))%f64
    (p_avg_entry_price pos) (p_entry_date pos) (p_bought_today pos) (p_stop_loss pos)
    (p_take_profit pos) (p_trailing_dist pos) (p_trailing_is_pct pos) (p_trailing_peak pos)
    (p_unrealized_pnl pos).

Definition apply_fill (m : order_manager_t) (i : nat) (direction : Z)
    (quantity fill_price comm stop_loss take_profit : f64) : order_manager_t :=
  let pos := slot m i in
  let asset_id := p_asset_id pos in
  let m := set_cash (cash m - comm)%f64 m in
  if 0 <? direction then
    let m := put_position i (buy_position m quantity fill_price stop_loss take_profit pos) m in
    set_cash (cash m - fill_price * quantity)%f64 m
  else
    let close_qty :=
      if (quantity <? f64_fabs (p_position pos))%f64 then quantity
      else f64_fabs (p_position pos) in
    let m := set_cash (cash m + fill_price * close_qty)%f64 m in
    let side := if (p_position pos >? 0.0)%f64 then 1 else -1 in
    if (close_qty >=? f64_fabs (p_position pos) - eps)%f64 then
      let m := record_trade m asset_id side (p_avg_entry_price pos) fill_price
                 (f64_fabs (p_position pos)) (p_entry_date pos) (current_date m) comm in
      put_position i (closed_position pos) m
    else
      let m := record_trade m asset_id side (p_avg_entry_price pos) fill_price
                 close_qty (p_entry_date pos) (current_date m) comm in
      put_position i (reduced_position close_qty pos) m.

Definition execute_fill (m : order_manager_t) (asset_id direction : Z)
    (quantity exec_price prev_close stop_loss take_profit : f64)
    : order_error_t * order_manager_t :=
  match find_or_create_position m asset_id with
  | (None, m) => (ORDER_ERR_ASSET_INACTIVE, m)
  | (Some i, m) =>
      let pos := slot m i in
      let bought_today := if 0 <? direction then p_bought_today pos else f64_zero in
      match market_validate_order (rules m) true exec_price quantity direction
              prev_close (p_position pos) bought_today (f64_lit (-1) 0) with
      | ORDER_OK =>
          let fill_price := apply_slippage m exec_price direction in
          let notional := (fill_price * quantity)%f64 in
          let comm := market_commission (rules m) notional (direction <? 0) in
          (ORDER_OK, apply_fill m i direction quantity fill_price comm stop_loss take_profit)
      | err => (err, m)
      end
  end.

(** The first pending order with this id. *)
Definition find_order (order_id : Z) (l : list order_t) : option nat :=
  find_index (fun o => o_id o =? order_id) l.

Definition alter_pending (f : order_t -> order_t) (i : nat) (m : order_manager_t)
    : order_manager_t :=
  set_pending (alter f i (pending m)) m.

Definition order_manager_report_fill (m : order_manager_t) (order_id asset_id direction : Z)
    (quantity price stop_loss take_profit : f64) : order_manager_t :=
  let m :=
    if 0 <? order_id then
      match find_order order_id (pending m) with
      | Some i => alter_pending (with_fill price (current_date m)) i m
      | None => m
      end
    else m in
  match find_or_create_position m asset_id with
  | (None, m) => m
  | (Some i, m) =>
      let comm := market_commission (rules m) (price * quantity)%f64 (direction <? 0) in
      apply_fill m i direction quantity price comm stop_loss take_profit
  end.

(** ** Lifecycle *)

(** [order_manager_create]: the manager itself comes from the arena, the four
    arrays from [malloc]; the first allocation that fails gives NULL. *)
Definition order_manager_create (rls : option universe_market_rules_t) (cash0 : f64)
    (asset_cap : nat) (h : heap) : option order_manager_t :=
  let (ok_mgr, h) := alloc h in
  if negb ok_mgr then None else
  let (ok_positions, h) := alloc h in
  if negb ok_positions then None else
  let (ok_pending, h) := alloc h in
  if negb ok_pending then None else
  let (ok_trades, h) := alloc h in
  if negb ok_trades then None else
  let (ok_curve, h) := alloc h in
  if negb ok_curve then None else
  Some {| rules := rls; positions := replicate asset_cap position_zero;
          pending := []; pending_cap := INITIAL_PENDING_CAP;
          trades := []; trades_cap := INITIAL_TRADES_CAP;
          equity_curve := []; equity_cap := INITIAL_EQUITY_CAP;
          cash := cash0; equity := cash0; initial_cash := cash0;
          slippage_pct := f64_lit 5 (-4); spread := f64_zero;
          next_order_id := 1; current_date := f64_zero;
          executor := None; calls := []; mem := h |}.

(** ** Bars *)

Definition order_manager_begin_bar (m : order_manager_t) (date : f64) : order_manager_t :=
  let m := set_current_date date m in
  match rules m with
  | Some r =>
      if 1 <=? t_plus r
      then set_positions (with_bought_today f64_zero <$> positions m) m else m
  | None => m
  end.

Definition is_pending (o : order_t) : bool :=
  bool_decide (o_status o = ORDER_STATUS_PENDING).

(** Step 0 of [order_manager_check_triggers], for one pending order. *)
Definition expire_order (asset_id : Z) (o : order_t) : order_t :=
  if (o_asset_id o =? asset_id) && is_pending o then
    if o_bars_valid o =? 0 then with_status ORDER_STATUS_EXPIRED o
    else if 0 <? o_bars_valid o then with_bars_valid (o_bars_valid o - 1) o
    else o
  else o.

(** The compaction loops: keep the pending orders, in order. *)
Definition compact (m : order_manager_t) : order_manager_t :=
  set_pending (filter (fun o => is_pending o) (pending m)) m.

Section WithExecutor.
Context {E : Executor}.

(** [mgr->executor->submit(...)]: the error, the order as the callback left it,
    and the manager with the call logged. *)
Definition submit (e : nat) (o : order_t) (m : order_manager_t)
    : order_error_t * order_t * order_manager_t :=
  let (err, o') := ex_submit e (calls m) o in
  (err, o', log_call (CallSubmit o) m).

Definition cancel_call (order_id : Z) (m : order_manager_t) : order_manager_t :=
  match executor m with
  | Some _ => log_call (CallCancel order_id) m
  | None => m
  end.

Definition order_manager_sync (m : order_manager_t) : order_manager_t :=
  match executor m with
  | Some e => ex_sync e (calls m) (log_call CallSync m)
  | None => m
  end.

(** [mgr->next_order_id++]: the id handed out and the manager. *)
Definition fresh_id (m : order_manager_t) : Z * order_manager_t :=
  (next_order_id m, set_next_order_id (wrapu 64 (next_order_id m + 1)) m).

Definition market_order (id asset_id direction : Z) (quantity stop_loss take_profit : f64)
    : order_t :=
  Order id asset_id ORDER_TYPE_MARKET direction quantity f64_zero f64_zero stop_loss
    take_profit 0 0 ORDER_STATUS_PENDING f64_zero f64_zero f64_zero.

(** [order_manager_close]: the trade record it returns, or NULL. *)
Definition order_manager_close (m : order_manager_t) (asset_id : Z) (exec_price date : f64)
    : option trade_record_t * order_manager_t :=
  match find_position m asset_id with
  | None => (None, m)
  | Some i =>
      let pos := slot m i in
      if (p_position pos ==? 0.0)%f64 then (None, m) else
      let trades_before := num_trades m in
      let direction := if (p_position pos >? 0.0)%f64 then -1 else 1 in
      let qty := f64_fabs (p_position pos) in
      match executor m with
      | Some e =>
          let (id, m) := fresh_id m in
          let '(_, _, m) :=
            submit e (market_order id asset_id direction qty f64_zero f64_zero) m in
          (None, m)
      | None =>
          let '(_, m) :=
            execute_fill m asset_id direction qty exec_price f64_zero f64_zero f64_zero in
          if (trades_before <? num_trades m)%nat then (last (trades m), m) else (None, m)
      end
  end.

(** Trailing stop of step 1: the slot after the bar's high and low moved the
    peak. *)
Definition trail (is_long : bool) (high low : f64) (pos : position_t) : position_t :=
  if (p_trailing_dist pos >? 0.0)%f64 then
    if is_long && (high >? p_trailing_peak pos)%f64 then
      let new_sl := if p_trailing_is_pct pos then (high * (1.0 - p_trailing_dist pos))%f64
                    else (high - p_trailing_dist pos)%f64 in
      let pos := with_trailing (p_trailing_dist pos) (p_trailing_is_pct pos) high pos in
      if (new_sl >? p_stop_loss pos)%f64 then with_stops new_sl (p_take_profit pos) pos else pos
    else if negb is_long && (low <? p_trailing_peak pos)%f64 then
      let new_sl := if p_trailing_is_pct pos then (low * (1.0 + p_trailing_dist pos))%f64
                    else (low + p_trailing_dist pos)%f64 in
      let pos := with_trailing (p_trailing_dist pos) (p_trailing_is_pct pos) low pos in
      if (p_stop_loss pos ==? 0.0)%f64 || (new_sl <? p_stop_loss pos)%f64
      then with_stops new_sl (p_take_profit pos) pos else pos
    else pos
  else pos.

(** The level at which step 1 closes the position, if the bar reaches one: the
    stop loss first, then the take profit. *)
Definition exit_level (is_long : bool) (high low : f64) (pos : position_t) : option f64 :=
  if (p_stop_loss pos >? 0.0)%f64
     && (if is_long then low <=? p_stop_loss pos else high >=? p_stop_loss pos)%f64
  then Some (p_stop_loss pos)
  else if (p_take_profit pos >? 0.0)%f64
     && (if is_long then high >=? p_take_profit pos else low <=? p_take_profit pos)%f64
  then Some (p_take_profit pos)
  else None.

(** The price at which a bar fills a pending limit or stop order. *)
Definition trigger_price (o : order_t) (high low : f64) : option f64 :=
  match o_type o with
  | ORDER_TYPE_LIMIT =>
      if (0 <? o_direction o) && (low <=? o_limit_price o)%f64 then Some (o_limit_price o)
      else if (o_direction o <? 0) && (high >=? o_limit_price o)%f64 then Some (o_limit_price o)
      else None
  | ORDER_TYPE_STOP =>
      if (0 <? o_direction o) && (high >=? o_stop_price o)%f64 then Some (o_stop_price o)
      else if (o_direction o <? 0) && (low <=? o_stop_price o)%f64 then Some (o_stop_price o)
      else None
  | _ => None
  end.

(** Cancel the other pending orders of the same link. *)
Definition cancel_linked (i : nat) (link : Z) (l : list order_t) : list order_t :=
  imap (fun j o =>
    if (o_oco_link_id o =? link) && is_pending o && negb (j =? i)%nat
    then with_status ORDER_STATUS_CANCELLED o else o) l.

(** Step 2 of [order_manager_check_triggers], for the pending order of index
    [i]. *)
Definition try_fill (asset_id : Z) (high low prev_close : f64) (m : order_manager_t) (i : nat)
    : order_manager_t :=
  match pending m !! i with
  | None => m
  | Some o =>
      if negb (o_asset_id o =? asset_id) || negb (is_pending o) then m
      else
        match trigger_price o high low with
        | None => m
        | Some price =>
            let fill_price := market_clamp_price (rules m) price prev_close in
            let '(_, m) := execute_fill m asset_id (o_direction o) (o_quantity o) fill_price
                             prev_close (o_stop_loss o) (o_take_profit o) in
            let m := alter_pending (with_fill fill_price (current_date m)) i m in
            if 0 <? o_oco_link_id o
            then set_pending (cancel_linked i (o_oco_link_id o) (pending m)) m else m
        end
  end.

Definition fill_orders (asset_id : Z) (high low prev_close : f64) (m : order_manager_t)
    : order_manager_t :=
  fold_left (try_fill asset_id high low prev_close) (seq 0 (num_pending m)) m.

(** [order_manager_check_triggers]; the bar's open and close are not used. *)
Definition order_manager_check_triggers (m : order_manager_t) (asset_id : Z)
    (open high low close prev_close : f64) : order_manager_t :=
  let m := set_pending (expire_order asset_id <$> pending m) m in
  match executor m with
  | Some _ => m
  | None =>
      let '(m, level) :=
        match find_position m asset_id with
        | None => (m, None)
        | Some i =>
            let pos := slot m i in
            if (p_position pos ==? 0.0)%f64 then (m, None) else
            let is_long := (p_position pos >? 0.0)%f64 in
            let pos := trail is_long high low pos in
            (put_position i pos m, exit_level is_long high low pos)
        end in
      match level with
      | Some fill =>
          let fill := market_clamp_price (rules m) fill prev_close in
          snd (order_manager_close m asset_id fill (current_date m))
      | None => compact (fill_orders asset_id high low prev_close m)
      end
  end.

(** ** Order submission *)

Definition order_manager_market (m : order_manager_t) (asset_id direction : Z)
    (fraction exec_price prev_close stop_loss take_profit : f64)
    : order_error_t * order_manager_t :=
  if (fraction <=? 0.0)%f64 then (ORDER_ERR_ZERO_QTY, m) else
  let fraction := if (fraction >? 1.0)%f64 then f64_one else fraction in
  if (exec_price <=? 0.0)%f64 then (ORDER_ERR_ZERO_QTY, m) else
  let notional := (equity m * fraction)%f64 in
  let quantity := market_round_lot (rules m) (notional / exec_price)%f64 in
  if (quantity <=? 0.0)%f64 then (ORDER_ERR_ZERO_QTY, m) else
  let cost := (quantity * exec_price * (1.0 + slippage_pct m) + spread m)%f64 in
  let quantity :=
    if (0 <? direction) && (cost >? cash m)%f64
    then market_round_lot (rules m) (cash m / (exec_price * (1.0 + slippage_pct m)))%f64
    else quantity in
  if (quantity <=? 0.0)%f64 then (ORDER_ERR_ZERO_QTY, m) else
  match executor m with
  | Some e =>
      let (id, m) := fresh_id m in
      let '(err, _, m) :=
        submit e (market_order id asset_id direction quantity stop_loss take_profit) m in
      (err, m)
  | None => execute_fill m asset_id direction quantity exec_price prev_close stop_loss take_profit
  end.

(** The common part of [order_manager_limit] and [order_manager_stop]: make
    room, size the order on [price], append what [build] makes of the fresh id
    and the quantity, and hand it to a live executor.  The third component is
    what [*out_id] holds. *)
Definition place_order (m : order_manager_t) (fraction price : f64) (build : Z -> f64 -> order_t)
    : order_error_t * order_manager_t * Z :=
  let '(room, m) :=
    if (pending_cap m <=? num_pending m)%nat then pending_grow m else (true, m) in
  if negb room then (ORDER_ERR_ASSET_INACTIVE, m, 0) else
  let quantity := market_round_lot (rules m) (equity m * fraction / price)%f64 in
  if (quantity <=? 0.0)%f64 then (ORDER_ERR_ZERO_QTY, m, 0) else
  let (id, m) := fresh_id m in
  let o := build id quantity in
  match executor m with
  | Some e =>
      let '(err, o', m) := submit e o m in
      if bool_decide (err = ORDER_OK)
      then (ORDER_OK, set_pending (pending m ++ [o']) m, id)
      else (err, m, id)
  | None => (ORDER_OK, set_pending (pending m ++ [o]) m, id)
  end.

Definition order_manager_limit (m : order_manager_t) (asset_id direction : Z)
    (fraction limit_price stop_loss take_profit : f64) (bars_valid : Z)
    : order_error_t * order_manager_t * Z :=
  place_order m fraction limit_price (fun id quantity =>
    Order id asset_id ORDER_TYPE_LIMIT direction quantity limit_price f64_zero stop_loss
      take_profit 0 bars_valid ORDER_STATUS_PENDING f64_zero f64_zero f64_zero).

Definition order_manager_stop (m : order_manager_t) (asset_id direction : Z)
    (fraction stop_price stop_loss take_profit : f64) (bars_valid : Z)
    : order_error_t * order_manager_t * Z :=
  place_order m fraction stop_price (fun id quantity =>
    Order id asset_id ORDER_TYPE_STOP direction quantity f64_zero stop_price stop_loss
      take_profit 0 bars_valid ORDER_STATUS_PENDING f64_zero f64_zero f64_zero).

Definition order_manager_set_sl_tp (m : order_manager_t) (asset_id : Z)
    (stop_loss take_profit : f64) : order_manager_t :=
  match find_position m asset_id with
  | None => m
  | Some i =>
      let pos := slot m i in
      put_position i (with_stops
        (if (stop_loss >? 0.0)%f64 then stop_loss else p_stop_loss pos)
        (if (take_profit >? 0.0)%f64 then take_profit else p_take_profit pos) pos) m
  end.

Definition order_manager_set_trailing_stop (m : order_manager_t) (asset_id : Z)
    (distance : f64) (is_pct : bool) : order_manager_t :=
  match find_position m asset_id with
  | None => m
  | Some i =>
      let pos := slot m i in
      if (p_position pos ==? 0.0)%f64 then m
      else put_position i (with_trailing distance is_pct (p_avg_entry_price pos) pos) m
  end.

Definition order_manager_link_oco (m : order_manager_t) (order_id1 order_id2 : Z)
    : order_manager_t :=
  let (link, m) := fresh_id m in
  set_pending ((fun o =>
    if (o_id o =? order_id1) || (o_id o =? order_id2) then with_oco link o else o)
    <$> pending m) m.

Definition order_manager_cancel_order (m : order_manager_t) (order_id : Z) : order_manager_t :=
  compact
    match find_order order_id (pending m) with
    | Some i =>
        cancel_call order_id (alter_pending (with_status ORDER_STATUS_CANCELLED) i m)
    | None => m
    end.

(** One iteration of the loop of [order_manager_cancel_pending]. *)
Definition cancel_step (asset_id : Z) (m : order_manager_t) (i : nat) : order_manager_t :=
  match pending m !! i with
  | Some o =>
      if o_asset_id o =? asset_id
      then cancel_call (o_id o) (alter_pending (with_status ORDER_STATUS_CANCELLED) i m)
      else m
  | None => m
  end.

Definition order_manager_cancel_pending (m : order_manager_t) (asset_id : Z) : order_manager_t :=
  compact (fold_left (cancel_step asset_id) (seq 0 (num_pending m)) m).

End WithExecutor.

(** ** Mark to market, equity curve and queries *)

(** The caller's parallel arrays [asset_ids] and [prices], of length [n], are
    one list of pairs; the inner loop takes the first entry of an asset. *)
Definition price_of (asset_id : Z) (quotes : list (Z * f64)) : option f64 :=
  match find_index (fun q => q.1 =? asset_id) quotes with
  | Some j => snd <$> quotes !! j
  | None => None
  end.

(** One iteration of the outer loop: the slot and its market value. *)
Definition mark_position (quotes : list (Z * f64)) (p : position_t) : position_t * option f64 :=
  if (p_position p ==? 0.0)%f64 || (p_asset_id p =? 0) then (p, None)
  else
    match price_of (p_asset_id p) quotes with
    | None => (p, None)
    | Some price =>
        let mkt := (price * p_position p)%f64 in
        (with_unrealized (mkt - p_avg_entry_price p * f64_fabs (p_position p))%f64 p, Some mkt)
    end.

(** The outer loop runs over the slots whose index is below both [capacity] and
    [n]. *)
Fixpoint mark_positions (quotes : list (Z * f64)) (k : nat) (l : list position_t)
    (pos_value : f64) : list position_t * f64 :=
  match k, l with
  | S k, p :: l =>
      let (p, mkt) := mark_position quotes p in
      let pos_value := match mkt with Some v => (pos_value + v)%f64 | None => pos_value end in
      let (l, total) := mark_positions quotes k l pos_value in
      (p :: l, total)
  | _, _ => (l, pos_value)
  end.

Definition order_manager_mark_to_market (m : order_manager_t) (quotes : list (Z * f64))
    : order_manager_t :=
  let (l, pos_value) := mark_positions quotes (length quotes) (positions m) f64_zero in
  let m := set_positions l m in
  set_equity (cash m + pos_value)%f64 m.

(** [order_manager_record_equity]: 0 on success, -1 when the curve cannot grow. *)
Definition order_manager_record_equity (m : order_manager_t) : Z * order_manager_t :=
  if (equity_cap m <=? length (equity_curve m))%nat then
    let (ok, h) := alloc (mem m) in
    let m := set_mem h m in
    if ok then (0, set_equity_curve (equity_curve m ++ [equity m]) (equity_cap m * 2) m)
    else (-1, m)
  else (0, set_equity_curve (equity_curve m ++ [equity m]) (equity_cap m) m).

Definition order_manager_position (m : order_manager_t) (asset_id : Z) : f64 :=
  match find_index (fun p => p_asset_id p =? asset_id) (positions m) with
  | Some i => p_position (slot m i)
  | None => f64_zero
  end.

Definition order_manager_entry_price (m : order_manager_t) (asset_id : Z) : f64 :=
  match find_index (fun p => p_asset_id p =? asset_id) (positions m) with
  | Some i => p_avg_entry_price (slot m i)
  | None => f64_zero
  end.

Definition order_manager_trade_returns (m : order_manager_t) (max : nat) : list f64 :=
  t_pnl_pct <$> take (Nat.min (num_trades m) max) (trades m).

(** ** Frame lemmas *)

(** What a fill cannot touch: two managers that agree on everything but the
    positions, the trade log, the cash and the allocator. *)
Definition same_frame (m m' : order_manager_t) : Prop :=
  rules m' = rules m /\ pending m' = pending m /\ pending_cap m' = pending_cap m /\
  equity_curve m' = equity_curve m /\ equity_cap m' = equity_cap m /\
  equity m' = equity m /\ initial_cash m' = initial_cash m /\
  slippage_pct m' = slippage_pct m /\ spread m' = spread m /\
  next_order_id m' = next_order_id m /\ current_date m' = current_date m /\
  executor m' = executor m /\ calls m' = calls m.

#[export] Instance same_frame_preorder : PreOrder same_frame.
Proof.
  split.
  - intros m. by repeat split.
  - intros m1 m2 m3 H1 H2. unfold same_frame in *. destruct_and?. split_and!; congruence.
Qed.

Lemma put_position_frame i p m : same_frame m (put_position i p m).
Proof. by repeat split. Qed.
Lemma set_cash_frame c m : same_frame m (set_cash c m).
Proof. by repeat split. Qed.

Lemma record_trade_spec m a d ep xp q ed xd c :
  let m' := record_trade m a d ep xp q ed xd c in
  same_frame m m' /\ positions m' = positions m /\ cash m' = cash m /\
  (trades m' = trades m \/ trades m' = trades m ++ [make_trade a d ep xp q ed xd c]) /\
  (0 < trades_cap m -> num_trades m <= trades_cap m ->
   0 < trades_cap m' /\ num_trades m' <= trades_cap m')%nat.
Proof.
  unfold record_trade, trades_grow. destruct (alloc (mem m)) as [ok h], ok;
    destruct (trades_cap m <=? num_trades m)%nat eqn:E; bool_props; simpl;
    unfold num_trades in *; simpl; rewrite ?length_app; simpl; split_and!; try done; auto;
    try (by repeat split); lia.
Qed.

Lemma find_or_create_spec m a oi m' :
  find_or_create_position m a = (oi, m') ->
  same_frame m m' /\ cash m' = cash m /\ trades m' = trades m /\
  trades_cap m' = trades_cap m /\ capacity m' = capacity m /\
  match oi with
  | Some i => exists p, positions m' !! i = Some p /\ p_asset_id p = a /\
      (m' = m \/ p = fresh_position a /\ m' = put_position i p m /\
        Forall (fun q => p_asset_id q <> a) (positions m))
  | None => m' = m
  end.
Proof.
  unfold find_or_create_position.
  destruct (find_index (fun p => p_asset_id p =? a) _) as [i|] eqn:E1.
  - intros [= <- <-]. split_and!; try done.
    apply find_index_lookup in E1 as (p & Hp & Hf). bool_props. eauto.
  - destruct (find_index (fun p => p_asset_id p =? 0) _) as [i|] eqn:E2; intros [= <- <-].
    + apply find_index_lookup in E2 as (p & Hp & _).
      unfold capacity. simpl. split_and!; try done; [by rewrite length_insert|].
      exists (fresh_position a). split_and!; [|done|].
      * apply list_lookup_insert_eq. by eapply lookup_lt_Some.
      * right. split_and!; [done..|]. apply find_index_None in E1.
        eapply Forall_impl; [exact E1|]. simpl. intros. by bool_props.
    + split_and!; done.
Qed.

Lemma apply_fill_frame m i d q fp c sl tp : same_frame m (apply_fill m i d q fp c sl tp).
Proof.
  unfold apply_fill. simpl. destruct (0 <? d); [by repeat split|].
  case_match;
    match goal with |- context [record_trade ?m0 ?a ?d ?e ?x ?q ?ed ?xd ?c] =>
      destruct (record_trade_spec m0 a d e x q ed xd c) as [F _] end;
    (etransitivity; [|apply put_position_frame]);
    (etransitivity; [|exact F]); by repeat split.
Qed.

Lemma execute_fill_frame m a d q xp pc sl tp :
  same_frame m (execute_fill m a d q xp pc sl tp).2.
Proof.
  unfold execute_fill. destruct (find_or_create_position m a) as [oi m1] eqn:F.
  apply find_or_create_spec in F as (F & _).
  destruct oi as [i|]; [|done].
  destruct (market_validate_order _ _ _ _ _ _ _ _ _); try done.
  simpl. etransitivity; [exact F|]. apply apply_fill_frame.
Qed.

(** ** Well-formedness

    Every array fits its capacity, an asset owns at most one slot, and the ids
    of the pending orders are distinct and already handed out. *)

Definition assets (m : order_manager_t) : list Z := p_asset_id <$> positions m.

Definition wf_trades (m : order_manager_t) : Prop :=
  (0 < trades_cap m /\ num_trades m <= trades_cap m)%nat.
Definition wf_slots (m : order_manager_t) : Prop :=
  forall i j a, assets m !! i = Some a -> assets m !! j = Some a -> a <> 0 -> i = j.
Definition wf_curve (m : order_manager_t) : Prop :=
  (0 < equity_cap m /\ length (equity_curve m) <= equity_cap m)%nat.

Definition ids (l : list order_t) : list Z := o_id <$> l.
Definition wf_orders (cap : nat) (next : Z) (l : list order_t) : Prop :=
  (0 < cap /\ length l <= cap)%nat /\ 0 < next < 2 ^ 64 /\
  Forall (fun id => 0 < id < next) (ids l) /\ NoDup (ids l).

Record om_wf (m : order_manager_t) : Prop := {
  om_wf_trades : wf_trades m;
  om_wf_slots : wf_slots m;
  om_wf_curve : wf_curve m;
  om_wf_orders : wf_orders (pending_cap m) (next_order_id m) (pending m)
}.

Lemma put_position_assets i p m :
  p_asset_id p = p_asset_id (slot m i) -> assets (put_position i p m) = assets m.
Proof.
  intros Hp. unfold assets, slot in *. simpl. rewrite list_fmap_insert, Hp.
  destruct (positions m !! i) as [q|] eqn:E; simpl.
  - apply list_insert_id. by rewrite list_lookup_fmap, E.
  - apply list_insert_ge. rewrite length_fmap. by apply lookup_ge_None.
Qed.

Lemma apply_fill_wf m i d q fp c sl tp :
  assets (apply_fill m i d q fp c sl tp) = assets m /\
  (wf_trades m -> wf_trades (apply_fill m i d q fp c sl tp)).
Proof.
  unfold apply_fill. simpl. destruct (0 <? d).
  { split; [|done]. by apply (put_position_assets i _ m). }
  case_match;
    match goal with |- context [record_trade ?m0 ?a ?d ?e ?x ?q ?ed ?xd ?c] =>
      destruct (record_trade_spec m0 a d e x q ed xd c) as (_ & P & _ & _ & T);
      set (m' := record_trade m0 a d e x q ed xd c) in * end;
    (split; [|intros [? ?]; by apply T]);
    (rewrite put_position_assets; unfold assets, slot; by rewrite P).
Qed.

Lemma find_or_create_wf m a oi m' :
  find_or_create_position m a = (oi, m') -> wf_slots m -> wf_slots m'.
Proof.
  intros H Hw. apply find_or_create_spec in H as (_ & _ & _ & _ & _ & H).
  destruct oi as [i|]; [|by subst].
  destruct H as (p & Hp & <- & [->|(Hpf & -> & Hnew)]); [done|].
  assert (i < length (positions m))%nat as Hi.
  { apply lookup_lt_Some in Hp. simpl in Hp. by rewrite length_insert in Hp. }
  intros j k b. unfold assets. simpl. rewrite !list_lookup_fmap.
  rewrite Forall_lookup in Hnew. unfold wf_slots, assets in Hw.
  destruct (decide (j = i)) as [->|Nj], (decide (k = i)) as [->|Nk]; [done| | |].
  - rewrite list_lookup_insert_eq, list_lookup_insert_ne by done. simpl. intros [= <-].
    intros (r & Hr & Hrk)%fmap_Some. exfalso. by eapply Hnew.
  - rewrite list_lookup_insert_ne, list_lookup_insert_eq by done. simpl.
    intros (r & Hr & Hrk)%fmap_Some [= <-]. exfalso. by eapply Hnew.
  - rewrite !list_lookup_insert_ne by done. intros. eapply Hw; by rewrite ?list_lookup_fmap.
Qed.

Lemma execute_fill_wf m a d q xp pc sl tp :
  wf_slots m -> wf_trades m ->
  wf_slots (execute_fill m a d q xp pc sl tp).2 /\
  wf_trades (execute_fill m a d q xp pc sl tp).2.
Proof.
  intros Hs Ht. unfold execute_fill.
  destruct (find_or_create_position m a) as [oi m1] eqn:F.
  pose proof (find_or_create_wf _ _ _ _ F Hs) as Hs1.
  apply find_or_create_spec in F as (_ & _ & ETr & ECap & _).
  assert (wf_trades m1) as Ht1 by (unfold wf_trades, num_trades; by rewrite ETr, ECap).
  destruct oi as [i|]; [|done].
  destruct (market_validate_order _ _ _ _ _ _ _ _ _); try done. simpl.
  match goal with |- context [apply_fill ?m ?i ?d ?q ?fp ?c ?sl ?tp] =>
    destruct (apply_fill_wf m i d q fp c sl tp) as [Ea Et] end.
  split; [|by apply Et]. unfold wf_slots. by rewrite Ea.
Qed.

Lemma execute_fill_om_wf m a d q xp pc sl tp :
  om_wf m -> om_wf (execute_fill m a d q xp pc sl tp).2.
Proof.
  intros [Ht Hs Hc Ho].
  destruct (execute_fill_wf m a d q xp pc sl tp Hs Ht).
  destruct (execute_fill_frame m a d q xp pc sl tp) as (_&Ep&Epc&Ec&Ecc&_&_&_&_&En&_).
  split; [done..| |]; unfold wf_curve in *; by rewrite ?Ec, ?Ecc, ?Ep, ?Epc, ?En.
Qed.

(** Rewriting the pending list keeps the orders well formed when it neither
    adds an id nor repeats one. *)
Lemma wf_orders_sub cap next l l' :
  ids l' `sublist_of` ids l -> wf_orders cap next l -> wf_orders cap next l'.
Proof.
  intros Hsub ([? ?] & ? & Hall & Hnd). split; [split; [done|]|split; [done|split]].
  - apply sublist_length in Hsub. unfold ids in *. rewrite !length_fmap in Hsub. lia.
  - apply Forall_forall. intros id Hid. rewrite Forall_forall in Hall. apply Hall.
    by eapply elem_of_submseteq; [|apply sublist_submseteq].
  - by eapply sublist_NoDup.
Qed.

Lemma set_pending_om_wf l m :
  ids l `sublist_of` ids (pending m) -> om_wf m -> om_wf (set_pending l m).
Proof. intros Hsub [Ht Hs Hc Ho]. split; try done.
  eapply wf_orders_sub; [exact Hsub|exact Ho].
Qed.

Lemma ids_fmap (f : order_t -> order_t) l :
  (forall o, o_id (f o) = o_id o) -> ids (f <$> l) = ids l.
Proof. intros Hf. unfold ids. rewrite <- list_fmap_compose.
  apply list_fmap_ext. intros. apply Hf.
Qed.

Lemma ids_alter (f : order_t -> order_t) i l :
  (forall o, o_id (f o) = o_id o) -> ids (alter f i l) = ids l.
Proof.
  intros Hf. unfold ids. apply list_eq. intros j. rewrite !list_lookup_fmap.
  destruct (decide (i = j)) as [->|].
  - rewrite list_lookup_alter_eq. destruct (l !! j); simpl; [by rewrite Hf|done].
  - by rewrite list_lookup_alter_ne.
Qed.

Lemma ids_cancel_linked i link l : ids (cancel_linked i link l) = ids l.
Proof.
  unfold ids, cancel_linked. apply list_eq. intros j.
  rewrite !list_lookup_fmap, list_lookup_imap.
  destruct (l !! j); simpl; [|done]. by destruct (_ && _).
Qed.

Lemma ids_compact m : ids (pending (compact m)) `sublist_of` ids (pending m).
Proof.
  unfold ids, compact. simpl. induction (pending m) as [|o l IH]; [done|].
  rewrite filter_cons. case_decide; simpl; [by apply sublist_skip|by apply sublist_cons].
Qed.

Lemma compact_om_wf m : om_wf m -> om_wf (compact m).
Proof. apply set_pending_om_wf. apply ids_compact. Qed.

Lemma alter_pending_om_wf f i m :
  (forall o, o_id (f o) = o_id o) -> om_wf m -> om_wf (alter_pending f i m).
Proof. intros Hf. apply set_pending_om_wf. by rewrite ids_alter. Qed.

(** Adding one order with a fresh id. *)
Lemma add_order_om_wf (o : order_t) m :
  om_wf m -> (num_pending m < pending_cap m)%nat -> next_order_id m < 2 ^ 64 - 1 ->
  o_id o = next_order_id m ->
  om_wf (set_pending (pending m ++ [o]) (set_next_order_id (wrapu 64 (next_order_id m + 1)) m)).
Proof.
  intros [Ht Hs Hc ((? & ?) & ? & Hall & Hnd)] Hroom Hnext Hid.
  split; [done..|]. unfold num_pending in Hroom. simpl.
  rewrite wrapu_small by lia.
  split; [|split; [lia|]].
  - rewrite length_app. simpl. lia.
  - unfold ids in *. rewrite fmap_app. simpl. rewrite Hid. split.
    + rewrite Forall_app, Forall_singleton. split; [|lia].
      eapply Forall_impl; [exact Hall|]. simpl. lia.
    + apply NoDup_app. split_and!; [done| |apply NoDup_singleton].
      intros id Hin. rewrite list_elem_of_singleton. intros ->.
      rewrite Forall_forall in Hall. specialize (Hall _ Hin). lia.
Qed.

Lemma pending_grow_om_wf m ok m' :
  pending_grow m = (ok, m') -> om_wf m ->
  om_wf m' /\ (ok = true -> num_pending m' < pending_cap m')%nat /\
  next_order_id m' = next_order_id m /\ executor m' = executor m.
Proof.
  unfold pending_grow, num_pending. destruct (alloc (mem m)) as [k h], k; intros [= <- <-] [Ht Hs Hc Ho];
    (split; [|split; [|done]]); try done; simpl.
  - split; try done. destruct Ho as ((? & ?) & ?). split; [simpl; lia|done].
  - destruct Ho as ((? & ?) & ?). lia.
Qed.

(** ** Backtests

    One call of the API on a manager without a live executor (with one, the
    exchange may do anything to the positions), away from the wrap-around of
    the order counter. *)

Section Backtest.
Context {E : Executor}.

Inductive om_step : order_manager_t -> order_manager_t -> Prop :=
  | step_begin_bar m d : om_step m (order_manager_begin_bar m d)
  | step_check_triggers m a o h l c pc :
      om_step m (order_manager_check_triggers m a o h l c pc)
  | step_market m a d f xp pc sl tp :
      om_step m (order_manager_market m a d f xp pc sl tp).2
  | step_limit m a d f lp sl tp bv :
      next_order_id m < 2 ^ 64 - 1 ->
      om_step m (order_manager_limit m a d f lp sl tp bv).1.2
  | step_stop m a d f sp sl tp bv :
      next_order_id m < 2 ^ 64 - 1 ->
      om_step m (order_manager_stop m a d f sp sl tp bv).1.2
  | step_close m a xp date : om_step m (order_manager_close m a xp date).2
  | step_report_fill m id a d q p sl tp :
      om_step m (order_manager_report_fill m id a d q p sl tp)
  | step_set_sl_tp m a sl tp : om_step m (order_manager_set_sl_tp m a sl tp)
  | step_trailing m a dist is_pct :
      om_step m (order_manager_set_trailing_stop m a dist is_pct)
  | step_link_oco m id1 id2 :
      next_order_id m < 2 ^ 64 - 1 ->
      om_step m (order_manager_link_oco m id1 id2)
  | step_cancel_order m id : om_step m (order_manager_cancel_order m id)
  | step_cancel_pending m a : om_step m (order_manager_cancel_pending m a)
  | step_mark m quotes : om_step m (order_manager_mark_to_market m quotes)
  | step_record_equity m : om_step m (order_manager_record_equity m).2
  | step_sync m : om_step m (order_manager_sync m).

Definition om_reachable (rls : option universe_market_rules_t) (cash0 : f64) (cap : nat)
    (h : heap) (m : order_manager_t) : Prop :=
  exists m0, order_manager_create rls cash0 cap h = Some m0 /\ rtc om_step m0 m.

Definition backtest_ok (m : order_manager_t) : Prop := om_wf m /\ executor m = None.

Lemma execute_fill_backtest_ok m a d q xp pc sl tp :
  backtest_ok m -> backtest_ok (execute_fill m a d q xp pc sl tp).2.
Proof.
  intros [Hw He]. split; [by apply execute_fill_om_wf|].
  destruct (execute_fill_frame m a d q xp pc sl tp) as (_&_&_&_&_&_&_&_&_&_&_&Ee&_).
  congruence.
Qed.

Lemma set_pending_backtest_ok l m :
  ids l `sublist_of` ids (pending m) -> backtest_ok m -> backtest_ok (set_pending l m).
Proof. intros ? [? ?]. split; [by apply set_pending_om_wf|done]. Qed.

Lemma alter_pending_backtest_ok f i m :
  (forall o, o_id (f o) = o_id o) -> backtest_ok m -> backtest_ok (alter_pending f i m).
Proof. intros ? [? ?]. split; [by apply alter_pending_om_wf|done]. Qed.

Lemma put_position_backtest_ok i p m :
  p_asset_id p = p_asset_id (slot m i) -> backtest_ok m -> backtest_ok (put_position i p m).
Proof.
  intros Hp [[Ht Hs Hc Ho] He]. split; [|done]. split; try done.
  unfold wf_slots. by rewrite put_position_assets.
Qed.

Lemma close_backtest_ok m a xp d :
  backtest_ok m -> backtest_ok (order_manager_close m a xp d).2.
Proof.
  intros Hm. unfold order_manager_close. destruct (find_position m a) as [i|]; [|done].
  case_match; [done|]. rewrite (proj2 Hm).
  match goal with |- context [execute_fill ?m ?a ?d ?q ?xp ?pc ?sl ?tp] =>
    pose proof (execute_fill_backtest_ok m a d q xp pc sl tp Hm);
    destruct (execute_fill m a d q xp pc sl tp) as [err m'] end.
  by case_match.
Qed.

Lemma trail_asset is_long h l p : p_asset_id (trail is_long h l p) = p_asset_id p.
Proof. unfold trail. by repeat case_match. Qed.

Lemma try_fill_backtest_ok a h l pc m i :
  backtest_ok m -> backtest_ok (try_fill a h l pc m i).
Proof.
  intros Hm. unfold try_fill. destruct (pending m !! i) as [o|]; [|done].
  destruct (_ || _); [done|]. destruct (trigger_price o h l) as [p|]; [|done].
  match goal with |- context [execute_fill ?m ?a ?d ?q ?xp ?pc ?sl ?tp] =>
    pose proof (execute_fill_backtest_ok m a d q xp pc sl tp Hm) as Hm1;
    destruct (execute_fill m a d q xp pc sl tp) as [err m1] end.
  assert (backtest_ok (alter_pending (with_fill
    (market_clamp_price (rules m) p pc) (current_date m1)) i m1)) as Hm2
    by by apply alter_pending_backtest_ok.
  destruct (0 <? o_oco_link_id o); [|done].
  apply set_pending_backtest_ok; [by rewrite ids_cancel_linked|done].
Qed.

Lemma fill_orders_backtest_ok a h l pc m :
  backtest_ok m -> backtest_ok (fill_orders a h l pc m).
Proof.
  unfold fill_orders. generalize (seq 0 (num_pending m)) as js.
  intros js. revert m. induction js as [|j js IH]; intros m Hm; simpl; [done|].
  by apply IH, try_fill_backtest_ok.
Qed.

Lemma expire_order_id a o : o_id (expire_order a o) = o_id o.
Proof. unfold expire_order. by repeat case_match. Qed.

Lemma check_triggers_backtest_ok m a o h l c pc :
  backtest_ok m -> backtest_ok (order_manager_check_triggers m a o h l c pc).
Proof.
  intros Hm. unfold order_manager_check_triggers.
  set (m1 := set_pending (expire_order a <$> pending m) m).
  assert (backtest_ok m1) as Hm1.
  { apply set_pending_backtest_ok; [|done]. rewrite ids_fmap; [done|].
    intros. apply expire_order_id. }
  rewrite (proj2 Hm1).
  assert (forall m2, backtest_ok m2 -> backtest_ok (compact (fill_orders a h l pc m2))) as Hfill.
  { intros m2 Hm2. apply set_pending_backtest_ok; [apply ids_compact|].
    by apply fill_orders_backtest_ok. }
  destruct (find_position m1 a) as [i|]; [|by apply Hfill].
  destruct (p_position (slot m1 i) ==? 0.0)%f64; [by apply Hfill|].
  match goal with |- context [put_position i ?p m1] =>
    assert (backtest_ok (put_position i p m1)) as Hm2
      by (apply put_position_backtest_ok; [apply trail_asset|done]) end.
  destruct (exit_level _ _ _ _); [by apply close_backtest_ok|by apply Hfill].
Qed.

Lemma place_order_backtest_ok m f p build :
  (forall id q, o_id (build id q) = id) -> next_order_id m < 2 ^ 64 - 1 ->
  backtest_ok m -> backtest_ok (place_order m f p build).1.2.
Proof.
  intros Hid Hnext [Hw He]. unfold place_order.
  assert (exists room m1,
    (if (pending_cap m <=? num_pending m)%nat then pending_grow m else (true, m)) = (room, m1) /\
    om_wf m1 /\ (room = true -> num_pending m1 < pending_cap m1)%nat /\
    next_order_id m1 = next_order_id m /\ executor m1 = executor m)
    as (room & m1 & -> & Hw1 & Hroom & En & Ee).
  { destruct (pending_cap m <=? num_pending m)%nat eqn:C.
    - destruct (pending_grow m) as [room m1] eqn:G. exists room, m1. split; [done|].
      by eapply pending_grow_om_wf.
    - bool_props. exists true, m. by split_and!. }
  destruct room; simpl; [|by split; [|congruence]].
  destruct (_ <=? 0.0)%f64; [split; [done|simpl; congruence]|].
  rewrite Ee, He. simpl. split; [|simpl; congruence].
  apply add_order_om_wf; [done|by apply Hroom|lia|apply Hid].
Qed.

Lemma mark_positions_assets quotes k l v :
  p_asset_id <$> (mark_positions quotes k l v).1 = p_asset_id <$> l.
Proof.
  revert l v. induction k as [|k IH]; intros [|p l] v; simpl; try done.
  destruct (mark_position quotes p) as [p' mkt] eqn:M.
  match goal with |- context [mark_positions quotes k l ?w] =>
    specialize (IH l w); destruct (mark_positions quotes k l w) as [l' t] end.
  simpl. f_equal; [|exact IH]. revert M. unfold mark_position.
  repeat case_match; intros; by simplify_eq.
Qed.

Lemma cancel_step_backtest_ok a m i : backtest_ok m -> backtest_ok (cancel_step a m i).
Proof.
  intros Hm. unfold cancel_step, cancel_call. destruct (pending m !! i) as [o|]; [|done].
  destruct (o_asset_id o =? a); [|done]. simpl. rewrite (proj2 Hm).
  by apply alter_pending_backtest_ok.
Qed.

Lemma set_positions_backtest_ok l m :
  p_asset_id <$> l = assets m -> backtest_ok m -> backtest_ok (set_positions l m).
Proof.
  intros Ha [[Ht Hs Hc Ho] He]. split; [|done]. split; try done.
  unfold wf_slots, assets. simpl. by rewrite Ha.
Qed.

Lemma report_fill_backtest_ok m id a d q p sl tp :
  backtest_ok m -> backtest_ok (order_manager_report_fill m id a d q p sl tp).
Proof.
  intros Hm. unfold order_manager_report_fill.
  match goal with |- context [find_or_create_position ?m1 a] =>
    assert (backtest_ok m1) as [[Ht Hs Hc Ho] He];
    [|destruct (find_or_create_position m1 a) as [oi m2] eqn:F; set (m1' := m1) in *] end.
  { case_match; [|done]. case_match; [|done]. by apply alter_pending_backtest_ok. }
  pose proof (find_or_create_wf _ _ _ _ F Hs) as Hs2.
  apply find_or_create_spec in F as (Fr & _ & ETr & ECap & _).
  assert (wf_trades m2) as Ht2 by (unfold wf_trades, num_trades; by rewrite ETr, ECap).
  assert (forall m3, same_frame m1' m3 -> wf_slots m3 -> wf_trades m3 -> backtest_ok m3) as Hfin.
  { intros m3 (_&Ep&Epc&Ec&Ecc&_&_&_&_&En&_&Ee&_) ? ?. split; [|congruence].
    split; try done; unfold wf_curve; by rewrite ?Ec, ?Ecc, ?Ep, ?Epc, ?En. }
  destruct oi as [i|]; [|by apply Hfin].
  match goal with |- context [apply_fill ?m ?i ?d ?q ?fp ?c ?sl ?tp] =>
    destruct (apply_fill_wf m i d q fp c sl tp) as [Ea Et];
    pose proof (apply_fill_frame m i d q fp c sl tp) as Fa end.
  apply Hfin; [by etransitivity| |by apply Et].
  unfold wf_slots. by rewrite Ea.
Qed.

Lemma om_step_backtest_ok m m' : om_step m m' -> backtest_ok m -> backtest_ok m'.
Proof.
  intros Hstep Hm. destruct Hstep as
    [m d|m a o h l c pc|m a d f xp pc sl tp|m a d f lp sl tp bv ?|m a d f sp sl tp bv ?
    |m a xp d|m id a d q p sl tp|m a sl tp|m a dist is_pct|m id1 id2 ?|m id|m a|m quotes|m|m].
  - unfold order_manager_begin_bar. destruct (rules (set_current_date d m)) as [r|]; [|by destruct Hm as [[] ?]].
    destruct (1 <=? t_plus r); [|by destruct Hm as [[] ?]].
    apply set_positions_backtest_ok; [|by destruct Hm as [[] ?]].
    rewrite <- list_fmap_compose. by apply list_fmap_ext.
  - by apply check_triggers_backtest_ok.
  - unfold order_manager_market. rewrite (proj2 Hm).
    repeat (case_match; try done); by apply execute_fill_backtest_ok.
  - by apply place_order_backtest_ok.
  - by apply place_order_backtest_ok.
  - by apply close_backtest_ok.
  - by apply report_fill_backtest_ok.
  - unfold order_manager_set_sl_tp. case_match; [|done]. by apply put_position_backtest_ok.
  - unfold order_manager_set_trailing_stop. case_match; [|done]. case_match; [done|].
    by apply put_position_backtest_ok.
  - unfold order_manager_link_oco. simpl. apply set_pending_backtest_ok.
    + simpl. rewrite ids_fmap; [done|]. intros. by case_match.
    + destruct Hm as [[Ht Hs Hc ((? & ?) & ? & Hall & ?)] He]. split; [|done].
      split; try done. simpl. rewrite wrapu_small by lia. split; [done|split; [lia|split; [|done]]].
      eapply Forall_impl; [exact Hall|]. simpl. lia.
  - apply set_pending_backtest_ok; [apply ids_compact|]. unfold cancel_call.
    case_match; [|done]. simpl. rewrite (proj2 Hm). by apply alter_pending_backtest_ok.
  - apply set_pending_backtest_ok; [apply ids_compact|].
    generalize (seq 0 (num_pending m)) as js. intros js. revert m Hm.
    induction js as [|j js IH]; intros m Hm; simpl; [done|].
    by apply IH, cancel_step_backtest_ok.
  - unfold order_manager_mark_to_market.
    pose proof (mark_positions_assets quotes (length quotes) (positions m) f64_zero) as Ha.
    destruct (mark_positions quotes _ _ _) as [l v].
    apply (set_positions_backtest_ok l) in Hm; [|done]. by destruct Hm as [[] ?].
  - unfold order_manager_record_equity.
    destruct Hm as [[Ht Hs [Hc1 Hc2] Ho] He].
    destruct (_ <=? _)%nat eqn:C; [destruct (alloc (mem m)) as [ok hp], ok|]; bool_props;
      (split; [split; try done|done]); unfold wf_curve; simpl;
      rewrite ?length_app; simpl; lia.
  - unfold order_manager_sync. by rewrite (proj2 Hm).
Qed.

Lemma create_backtest_ok rls cash0 cap h m :
  order_manager_create rls cash0 cap h = Some m -> backtest_ok m.
Proof.
  unfold order_manager_create. repeat (case_match; try done). intros [= <-].
  split; [|done]. split.
  - unfold wf_trades, num_trades. simpl. unfold INITIAL_TRADES_CAP. lia.
  - intros i j a. unfold assets. simpl. rewrite fmap_replicate.
    intros [-> _]%lookup_replicate. done.
  - unfold wf_curve. simpl. unfold INITIAL_EQUITY_CAP. lia.
  - simpl. unfold wf_orders, ids, INITIAL_PENDING_CAP. simpl.
    split; [lia|split; [lia|split; constructor]].
Qed.

(** C2: after any sequence of backtest operations on a created manager, the
    dynamic arrays fit their capacities, no asset owns two position slots, and
    the ids of the pending orders are distinct ids already handed out. *)
Theorem order_manager_invariant rls cash0 cap h m :
  om_reachable rls cash0 cap h m -> om_wf m /\ executor m = None.
Proof.
  intros (m0 & Hc & Hr). apply create_backtest_ok in Hc.
  change (backtest_ok m). induction Hr as [|m1 m2 m3 Hs _ IH]; [done|].
  apply IH. by eapply om_step_backtest_ok.
Qed.

End Backtest.

(** An executor that accepts every order and never changes anything, for the
    concrete examples. *)
Definition paper_executor : Executor :=
  {| ex_submit := fun _ _ o => (ORDER_OK, o); ex_sync := fun _ _ m => m |}.

(** A manager that trades two assets under US equity rules. *)
Definition demo_manager (rls : universe_market_rules_t) : order_manager_t :=
  default (Manager None [] [] 0 [] 0 [] 0 f64_zero f64_zero f64_zero f64_zero f64_zero 0
             f64_zero None [] [])
    (order_manager_create (Some rls) (f64_lit 100000 0) 2 []).

Example order_manager_invariant_witness :
  let m := (order_manager_limit (E := paper_executor) (demo_manager MARKET_US_EQUITY) 7 1
              f64_one (f64_lit 50 0) f64_zero f64_zero (-1)).1.2 in
  length (pending m) = 1%nat /\ om_wf m.
Proof.
  split; [by vm_compute|].
  apply (order_manager_invariant (E := paper_executor) (Some MARKET_US_EQUITY)
           (f64_lit 100000 0) 2 []).
  exists (demo_manager MARKET_US_EQUITY). split; [reflexivity|].
  eapply rtc_l; [|apply rtc_refl]. apply step_limit. by vm_compute.
Defined.

(** ** Fills *)

Lemma execute_fill_ok_inv m a d q xp pc sl tp m' :
  execute_fill m a d q xp pc sl tp = (ORDER_OK, m') ->
  exists i m1, find_or_create_position m a = (Some i, m1) /\
    let fp := apply_slippage m1 xp d in
    m' = apply_fill m1 i d q fp (market_commission (rules m1) (fp * q)%f64 (d <? 0)) sl tp.
Proof.
  unfold execute_fill. destruct (find_or_create_position m a) as [[i|] m1]; [|done].
  destruct (market_validate_order _ _ _ _ _ _ _ _ _); try done.
  intros [= <-]. by exists i, m1.
Qed.

Lemma execute_fill_error_inv m a d q xp pc sl tp err m' :
  execute_fill m a d q xp pc sl tp = (err, m') -> err <> ORDER_OK ->
  exists oi, find_or_create_position m a = (oi, m').
Proof.
  unfold execute_fill. destruct (find_or_create_position m a) as [[i|] m1].
  - destruct (market_validate_order _ _ _ _ _ _ _ _ _); intros [= <- <-] ?; by eauto.
  - intros [= <- <-] _. by eauto.
Qed.

(** The slot of an asset: what the position queries read. *)
Definition asset_slot (m : order_manager_t) (a : Z) : option position_t :=
  match find_index (fun p => p_asset_id p =? a) (positions m) with
  | Some i => positions m !! i
  | None => None
  end.

Lemma order_manager_position_slot m a :
  order_manager_position m a = from_option p_position f64_zero (asset_slot m a).
Proof.
  unfold order_manager_position, asset_slot, slot. case_match eqn:F; [|done].
  apply find_index_lookup in F as (p & -> & _). done.
Qed.

Lemma find_or_create_slot m a i m' :
  find_or_create_position m a = (Some i, m') ->
  find_index (fun p => p_asset_id p =? a) (positions m') = Some i /\
  p_position (slot m' i) = order_manager_position m a.
Proof.
  intros F. pose proof F as F0. unfold find_or_create_position in F0.
  unfold order_manager_position.
  destruct (find_index (fun p => p_asset_id p =? a) (positions m)) as [j|] eqn:E1.
  { by simplify_eq. }
  destruct (find_index (fun p => p_asset_id p =? 0) (positions m)) as [j|] eqn:E2; simplify_eq.
  apply find_index_lookup in E2 as (p & Hp & _). apply lookup_lt_Some in Hp.
  apply find_index_None in E1. rewrite Forall_lookup in E1. unfold slot. simpl. split.
  - apply find_index_Some. exists (fresh_position a).
    rewrite list_lookup_insert_eq by done. split_and!; [done|simpl; lia|].
    intros k y Hk. rewrite list_lookup_insert_ne by lia. apply E1.
  - by rewrite list_lookup_insert_eq.
Qed.

Lemma find_index_insert {A} (f : A -> bool) l i x y :
  l !! i = Some x -> f y = f x -> find_index f (<[i := y]> l) = find_index f l.
Proof.
  revert i. induction l as [|z l IH]; intros [|i]; simpl; try done.
  - intros [= ->] ->. done.
  - intros Hi Hf. by rewrite (IH i Hi Hf).
Qed.

Lemma position_set_cash c m a :
  order_manager_position (set_cash c m) a = order_manager_position m a.
Proof. done. Qed.

Lemma position_after_put m a i p :
  find_index (fun q => p_asset_id q =? a) (positions m) = Some i -> p_asset_id p = a ->
  order_manager_position (put_position i p m) a = p_position p.
Proof.
  intros F Hp. unfold order_manager_position, slot. simpl.
  pose proof (find_index_lookup _ _ _ F) as (q & Hq & Hf).
  rewrite (find_index_insert _ _ _ _ _ Hq), F; [|simpl; rewrite Hf; lia].
  rewrite list_lookup_insert_eq; [done|]. by eapply lookup_lt_Some.
Qed.

(** An accepted buy charges the commission and the notional at the slipped
    price, adds the quantity to the asset's position and logs no trade. *)
Theorem execute_fill_buy m a d q xp pc sl tp m' :
  0 < d -> execute_fill m a d q xp pc sl tp = (ORDER_OK, m') ->
  let fill := apply_slippage m xp d in
  let comm := market_commission (rules m) (fill * q)%f64 false in
  cash m' = (cash m - comm - fill * q)%f64 /\
  order_manager_position m' a = (order_manager_position m a + q)%f64 /\
  trades m' = trades m.
Proof.
  intros Hd H. apply execute_fill_ok_inv in H as (i & m1 & F & ->).
  pose proof (find_or_create_slot _ _ _ _ F) as [Fi Ei].
  apply find_or_create_spec in F as ((Er&_&_&_&_&_&_&Es&Esp&_) & Ec & Et & _ & _ & p & Hp & Ha & _).
  assert ((0 <? d) = true) as Hd1 by lia. assert ((d <? 0) = false) as Hd2 by lia.
  unfold apply_fill. rewrite Hd1, Hd2. cbv zeta.
  assert (apply_slippage m1 xp d = apply_slippage m xp d) as ->
    by (unfold apply_slippage; congruence).
  rewrite Er. split_and!; [simpl; by rewrite Ec| |done].
  rewrite position_set_cash, position_after_put; [by rewrite <- Ei|done|].
  unfold slot. by rewrite Hp.
Qed.

Example execute_fill_buy_witness :
  let r := execute_fill (demo_manager MARKET_US_EQUITY) 7 1 (f64_lit 10 0) (f64_lit 50 0)
             f64_zero f64_zero f64_zero in
  r.1 = ORDER_OK /\
  order_manager_position r.2 7
    = (order_manager_position (demo_manager MARKET_US_EQUITY) 7 + f64_lit 10 0)%f64.
Proof.
  split; [by vm_compute|].
  apply (execute_fill_buy (demo_manager MARKET_US_EQUITY) 7 1 (f64_lit 10 0) (f64_lit 50 0)
           f64_zero f64_zero f64_zero); by vm_compute.
Defined.

(** Claiming a slot for [a] leaves what the queries read of another asset. *)
Lemma find_or_create_other m a oi m' b :
  find_or_create_position m a = (oi, m') -> b <> 0 ->
  order_manager_position m' b = order_manager_position m b.
Proof.
  intros F Hb. destruct (decide (a = b)) as [->|Hab].
  { destruct oi as [i|].
    - apply find_or_create_slot in F as [Fi <-]. unfold order_manager_position. by rewrite Fi.
    - apply find_or_create_spec in F as (_&_&_&_&_&->). done. }
  unfold find_or_create_position in F.
  destruct (find_index (fun p => p_asset_id p =? a) (positions m)) as [j|] eqn:E1; [by simplify_eq|].
  destruct (find_index (fun p => p_asset_id p =? 0) (positions m)) as [j|] eqn:E2; [|by simplify_eq].
  injection F as <- <-. pose proof (find_index_lookup _ _ _ E2) as (p0 & Hp0 & E0). bool_props.
  unfold order_manager_position, slot. simpl.
  rewrite (find_index_insert _ _ _ _ _ Hp0) by (simpl; lia).
  destruct (find_index (fun p => p_asset_id p =? b) (positions m)) as [k|] eqn:E3; [|done].
  apply find_index_lookup in E3 as (p1 & Hp1 & E3). bool_props.
  rewrite list_lookup_insert_ne; [done|]. intros ->. congruence.
Qed.

Lemma refused_fill_frame m a d q xp pc sl tp err m' :
  execute_fill m a d q xp pc sl tp = (err, m') -> err <> ORDER_OK ->
  cash m' = cash m /\ trades m' = trades m /\ pending m' = pending m /\
  forall b, b <> 0 -> order_manager_position m' b = order_manager_position m b.
Proof.
  intros H Herr. destruct (execute_fill_error_inv _ _ _ _ _ _ _ _ _ _ H Herr) as [oi F].
  pose proof (find_or_create_spec _ _ _ _ F) as ((_ & Hp & _) & Hc & Ht & _).
  split_and!; try done. intros b Hb. by eapply find_or_create_other.
Qed.

(** A refused fill leaves the cash, the trade log, the pending orders and
    every asset's position as they were. *)
Theorem execute_fill_refused m a d q xp pc sl tp err m' :
  execute_fill m a d q xp pc sl tp = (err, m') -> err <> ORDER_OK ->
  cash m' = cash m /\ trades m' = trades m /\ pending m' = pending m /\
  forall b, b <> 0 -> order_manager_position m' b = order_manager_position m b.
Proof. apply refused_fill_frame. Qed.

Example execute_fill_refused_witness :
  let r := execute_fill (demo_manager MARKET_CN_ASTOCK) 7 (-1) (f64_lit 100 0) (f64_lit 50 0)
             f64_zero f64_zero f64_zero in
  r.1 = ORDER_ERR_NO_SHORT /\ cash r.2 = cash (demo_manager MARKET_CN_ASTOCK).
Proof.
  split; [by vm_compute|].
  apply (execute_fill_refused (demo_manager MARKET_CN_ASTOCK) 7 (-1) (f64_lit 100 0)
           (f64_lit 50 0) f64_zero f64_zero f64_zero ORDER_ERR_NO_SHORT);
    [by vm_compute|discriminate].
Defined.

(** The same manager, with every slot's record of today's purchases erased. *)
Definition forget_bought (m : order_manager_t) : order_manager_t :=
  set_positions (with_bought_today f64_zero <$> positions m) m.

Lemma find_index_fmap {A B} (g : A -> B) (f : B -> bool) l :
  find_index f (g <$> l) = find_index (fun x => f (g x)) l.
Proof.
  induction l as [|x l IH]; simpl; [done|]. destruct (f (g x)); [done|].
  f_equal. exact IH.
Qed.

(** Whether [execute_fill] accepts a sale does not depend on what was bought
    today: the caller passes 0 for [bought_today] exactly when the order sells, so
    the T+1 rule of [market_validate_order] is never applied to same-day
    purchases. *)
Theorem execute_fill_ignores_t_plus m a d q xp pc sl tp :
  d <= 0 ->
  (execute_fill m a d q xp pc sl tp).1 = (execute_fill (forget_bought m) a d q xp pc sl tp).1.
Proof.
  intros Hd. assert ((0 <? d) = false) as Hd1 by lia.
  unfold execute_fill, find_or_create_position, forget_bought.
  cbn [positions set_positions]. rewrite !find_index_fmap. cbn [p_asset_id with_bought_today].
  rewrite Hd1.
  assert (forall (l : list position_t) i, p_position (default position_zero ((with_bought_today f64_zero <$> l) !! i))
    = p_position (default position_zero (l !! i))) as Hpos.
  { intros l i. rewrite list_lookup_fmap. by destruct (l !! i). }
  destruct (find_index (fun p => p_asset_id p =? a) (positions m)) as [i|] eqn:E1.
  - unfold slot. simpl. rewrite Hpos. by case_match.
  - destruct (find_index (fun p => p_asset_id p =? 0) (positions m)) as [i|] eqn:E2; [|done].
    apply find_index_lookup in E2 as (p & Hp & _). apply lookup_lt_Some in Hp.
    unfold slot. simpl. rewrite !list_lookup_insert_eq by (rewrite ?length_fmap; done).
    simpl. by case_match.
Qed.

(** A T+1 market: 100 shares are bought and sold on the same day, although the
    validation refuses the sale when it is told about the purchase. *)
Example execute_fill_ignores_t_plus_witness :
  let m := (execute_fill (demo_manager MARKET_CN_ASTOCK) 7 1 (f64_lit 100 0) (f64_lit 50 0)
              f64_zero f64_zero f64_zero).2 in
  let sell m := execute_fill m 7 (-1) (f64_lit 100 0) (f64_lit 50 0) f64_zero f64_zero f64_zero in
  market_validate_order (Some MARKET_CN_ASTOCK) true (f64_lit 50 0) (f64_lit 100 0) (-1)
    f64_zero (p_position (slot m 0)) (p_bought_today (slot m 0)) (f64_lit (-1) 0)
    = ORDER_ERR_T_PLUS /\
  (sell m).1 = ORDER_OK /\ (sell m).1 = (sell (forget_bought m)).1.
Proof.
  split_and!; [by vm_compute|by vm_compute|].
  by apply execute_fill_ignores_t_plus.
Defined.

(** Selling an asset that is not held never opens a short position, even in
    a market whose rules allow it: an accepted sale leaves the position at zero,
    charges the commission and at most logs a trade of quantity zero. *)
Theorem execute_fill_never_shorts m a d q xp pc sl tp m' :
  d <= 0 -> (0.0 <? q)%f64 = true ->
  order_manager_position m a = f64_zero ->
  execute_fill m a d q xp pc sl tp = (ORDER_OK, m') ->
  order_manager_position m' a = f64_zero /\
  (trades m' = trades m \/ exists t, trades m' = trades m ++ [t] /\ t_quantity t = f64_zero).
Proof.
  intros Hd Hq Hpos H. apply execute_fill_ok_inv in H as (i & m1 & F & ->).
  pose proof (find_or_create_slot _ _ _ _ F) as [Fi Ei]. rewrite Hpos in Ei.
  apply find_or_create_spec in F as (_ & _ & Et & _ & _ & p & Hp & Ha & _).
  assert ((0 <? d) = false) as Hd1 by lia. unfold apply_fill. rewrite Hd1. cbv zeta.
  rewrite Ei. change (f64_fabs f64_zero) with f64_zero.
  assert ((q <? f64_zero)%f64 = false) as -> by f64_order.
  match goal with |- context [if ?c then put_position _ _ _ else _] =>
    replace c with true by (by vm_compute) end.
  match goal with |- context [record_trade ?m0 ?a ?d ?e ?x ?q ?ed ?xd ?c] =>
    destruct (record_trade_spec m0 a d e x q ed xd c) as (_ & P & _ & T & _);
    set (m2 := record_trade m0 a d e x q ed xd c) in * end.
  split.
  - apply (position_after_put m2 a i (closed_position (slot m1 i))).
    + by rewrite P.
    + simpl. unfold slot. by rewrite Hp.
  - simpl. destruct T as [ET|ET]; rewrite ET; simpl; rewrite Et; [by left|right; by eexists].
Qed.

Example execute_fill_never_shorts_witness :
  let r := execute_fill (demo_manager MARKET_US_EQUITY) 7 (-1) (f64_lit 10 0) (f64_lit 50 0)
             f64_zero f64_zero f64_zero in
  short_allowed MARKET_US_EQUITY = true /\ r.1 = ORDER_OK /\
  order_manager_position r.2 7 = f64_zero.
Proof.
  split_and!; [done|by vm_compute|].
  apply (execute_fill_never_shorts (demo_manager MARKET_US_EQUITY) 7 (-1) (f64_lit 10 0)
           (f64_lit 50 0) f64_zero f64_zero f64_zero); by vm_compute.
Defined.

(** ** Bars: expiry, triggers and linked orders *)

Lemma expire_order_iter a o n k :
  o_asset_id o = a -> o_status o = ORDER_STATUS_PENDING -> o_bars_valid o = Z.of_nat n ->
  (k <= n)%nat -> Nat.iter k (expire_order a) o = with_bars_valid (Z.of_nat (n - k)) o.
Proof.
  intros Ha Hs Hb. induction k as [|k IH]; intros Hk; simpl.
  - destruct o; simpl in *; subst. unfold with_bars_valid; simpl. do 2 f_equal. lia.
  - rewrite IH by lia. unfold expire_order, is_pending. simpl.
    rewrite Ha, Hs, Z.eqb_refl. simpl.
    assert ((Z.of_nat (n - k) =? 0) = false) as -> by lia.
    assert ((0 <? Z.of_nat (n - k)) = true) as -> by lia.
    unfold with_bars_valid. simpl. f_equal. lia.
Qed.

(** An order submitted for [n] bars is still pending after [k] bars of its
    asset exactly when [k <= n], and a good-till-cancelled order (negative
    [bars_valid]) never expires. *)
Theorem order_time_in_force a o :
  o_asset_id o = a -> o_status o = ORDER_STATUS_PENDING ->
  (forall n k, o_bars_valid o = Z.of_nat n ->
    is_pending (Nat.iter k (expire_order a) o) = (k <=? n)%nat) /\
  (o_bars_valid o < 0 -> forall k, Nat.iter k (expire_order a) o = o).
Proof.
  intros Ha Hs. split.
  - intros n k Hb. destruct (k <=? n)%nat eqn:C; bool_props.
    + rewrite (expire_order_iter a o n k) by done. unfold is_pending. simpl. by rewrite Hs.
    + assert (is_pending (Nat.iter (S n) (expire_order a) o) = false) as Hn.
      { simpl. rewrite (expire_order_iter a o n n) by done. unfold expire_order, is_pending. simpl.
        rewrite Ha, Hs, Z.eqb_refl, Nat.sub_diag. by vm_compute. }
      replace k with ((k - S n) + S n)%nat by lia. rewrite Nat.iter_add.
      revert Hn. generalize (Nat.iter (S n) (expire_order a) o) as o'. intros o' Hn.
      induction (k - S n)%nat as [|j IH]; [done|]. simpl. unfold expire_order at 1.
      by rewrite IH, andb_false_r.
  - intros Hb k. induction k as [|k IH]; simpl; [done|]. rewrite IH.
    unfold expire_order, is_pending. rewrite Ha, Hs, Z.eqb_refl. simpl.
    assert ((o_bars_valid o =? 0) = false) as -> by lia.
    by assert ((0 <? o_bars_valid o) = false) as -> by lia.
Qed.

Example order_time_in_force_witness :
  let o := with_bars_valid 2 order_zero in
  is_pending (Nat.iter 2 (expire_order 0) o) = true /\
  is_pending (Nat.iter 3 (expire_order 0) o) = false.
Proof.
  split; apply (order_time_in_force 0 (with_bars_valid 2 order_zero)) with (n := 2%nat); done.
Defined.

(** A change of the pending list that only settles orders: every entry is kept
    or is no longer pending. *)
Definition settles (l l' : list order_t) : Prop :=
  Forall2 (fun o o' => o' = o \/ is_pending o' = false) l l'.

Lemma settles_refl l : settles l l.
Proof. apply Forall2_same_length_lookup_2; [done|]. intros i x y Hx Hy. left. congruence. Qed.

Lemma settles_trans l1 l2 l3 : settles l1 l2 -> settles l2 l3 -> settles l1 l3.
Proof.
  unfold settles. rewrite !Forall2_lookup. intros H1 H2 i. specialize (H1 i). specialize (H2 i).
  destruct H1 as [o1 o2 H1|]; inversion H2 as [? o3 H3|]; subst; constructor.
  destruct H1 as [->|], H3 as [->|]; auto.
Qed.

Lemma settles_alter (f : order_t -> order_t) i l :
  (forall o, is_pending (f o) = false) -> settles l (alter f i l).
Proof.
  intros Hf. apply Forall2_lookup. intros j. destruct (decide (i = j)) as [->|].
  - rewrite list_lookup_alter_eq. destruct (l !! j); simpl; constructor. auto.
  - rewrite list_lookup_alter_ne by done. destruct (l !! j); constructor. auto.
Qed.

Lemma settles_cancel_linked i link l : settles l (cancel_linked i link l).
Proof.
  apply Forall2_lookup. intros j. unfold cancel_linked. rewrite list_lookup_imap.
  destruct (l !! j) as [o|]; simpl; constructor. destruct (_ && _); auto.
Qed.

Lemma settles_filter l l' :
  settles l l' -> filter (fun o => is_pending o) l' `sublist_of` l.
Proof.
  induction 1 as [|o o' l l' Ho _ IH]; [done|]. rewrite filter_cons.
  case_decide as Hd; [|by apply sublist_cons].
  destruct Ho as [->|Ho]; [by apply sublist_skip|]. by rewrite Ho in Hd.
Qed.

Lemma try_fill_settles a h l pc m i : settles (pending m) (pending (try_fill a h l pc m i)).
Proof.
  unfold try_fill. destruct (pending m !! i) as [o|]; [|apply settles_refl].
  destruct (_ || _); [apply settles_refl|].
  destruct (trigger_price o h l) as [p|]; [|apply settles_refl].
  match goal with |- context [execute_fill ?m ?a ?d ?q ?xp ?pc ?sl ?tp] =>
    destruct (execute_fill_frame m a d q xp pc sl tp) as (_ & Ep & _);
    destruct (execute_fill m a d q xp pc sl tp) as [err m1] end.
  simpl in Ep.
  assert (settles (pending m) (pending (alter_pending (with_fill
    (market_clamp_price (rules m) p pc) (current_date m1)) i m1))) as Hs.
  { simpl. rewrite Ep. by apply settles_alter. }
  destruct (0 <? o_oco_link_id o); [|done].
  eapply settles_trans; [exact Hs|]. apply settles_cancel_linked.
Qed.

Lemma fill_orders_settles a h l pc m : settles (pending m) (pending (fill_orders a h l pc m)).
Proof.
  unfold fill_orders. generalize (seq 0 (num_pending m)) as js.
  intros js. revert m. induction js as [|j js IH]; intros m; simpl; [apply settles_refl|].
  eapply settles_trans; [apply try_fill_settles|apply IH].
Qed.

Lemma close_pending {E : Executor} m a xp d :
  pending (order_manager_close m a xp d).2 = pending m.
Proof.
  unfold order_manager_close. destruct (find_position m a) as [i|]; [|done].
  case_match; [done|]. case_match.
  - unfold submit. simpl. by destruct (ex_submit _ _ _).
  - match goal with |- context [execute_fill ?m ?a ?d ?q ?xp ?pc ?sl ?tp] =>
      destruct (execute_fill_frame m a d q xp pc sl tp) as (_ & Ep & _);
      destruct (execute_fill m a d q xp pc sl tp) as [err m1] end.
    by case_match.
Qed.

(** Processing a bar never adds, reorders or rewrites a pending order: what
    is left is a sublist of the previous orders, each changed at most by the
    expiry countdown of its asset. *)
Theorem check_triggers_pending {E : Executor} m a o h l c pc :
  pending (order_manager_check_triggers m a o h l c pc)
    `sublist_of` (expire_order a <$> pending m).
Proof.
  unfold order_manager_check_triggers.
  set (m1 := set_pending (expire_order a <$> pending m) m).
  destruct (executor m1); [done|].
  assert (forall m2, pending m2 = pending m1 ->
    pending (compact (fill_orders a h l pc m2)) `sublist_of` pending m1) as Hfill.
  { intros m2 <-. apply settles_filter, fill_orders_settles. }
  destruct (find_position m1 a) as [i|]; [|by apply Hfill].
  destruct (p_position (slot m1 i) ==? 0.0)%f64; [by apply Hfill|].
  destruct (exit_level _ _ _ _); [|by apply Hfill].
  rewrite close_pending. reflexivity.
Qed.

(** When a bar triggers a pending order that belongs to a one-cancels-other
    link, no order of that link is pending afterwards: the order itself is
    filled and the others are cancelled. *)
Theorem try_fill_oco a h l pc m i o price :
  pending m !! i = Some o -> o_asset_id o = a -> is_pending o = true ->
  trigger_price o h l = Some price -> 0 < o_oco_link_id o ->
  Forall (fun o' => o_oco_link_id o' = o_oco_link_id o -> is_pending o' = false)
    (pending (try_fill a h l pc m i)).
Proof.
  intros Ho Ha Hp Ht Hlink. unfold try_fill. rewrite Ho, Ha, Hp, Z.eqb_refl, Ht. simpl.
  match goal with |- context [execute_fill ?m ?a ?d ?q ?xp ?pc ?sl ?tp] =>
    destruct (execute_fill_frame m a d q xp pc sl tp) as (_ & Ep & _);
    destruct (execute_fill m a d q xp pc sl tp) as [err m1] end.
  simpl in Ep. assert ((0 <? o_oco_link_id o) = true) as -> by lia.
  simpl. apply Forall_lookup. intros j o'. unfold cancel_linked.
  rewrite list_lookup_imap, fmap_Some. intros (o1 & H1 & ->) Hl.
  destruct (decide (j = i)) as [->|Hij].
  - rewrite list_lookup_alter_eq, Ep, Ho in H1. simpl in H1. injection H1 as <-.
    by rewrite andb_false_r.
  - destruct (is_pending o1) eqn:P1; [|by rewrite andb_false_r; simpl].
    assert ((j =? i)%nat = false) as Hji by lia. rewrite Hji in *.
    destruct (o_oco_link_id o1 =? o_oco_link_id o) eqn:EL; simpl in *; [done|].
    bool_props. done.
Qed.

Definition demo_oco : order_manager_t :=
  let m := demo_manager MARKET_US_EQUITY in
  let m := (order_manager_limit (E := paper_executor) m 7 1 f64_one (f64_lit 50 0)
              f64_zero f64_zero (-1)).1.2 in
  let m := (order_manager_stop (E := paper_executor) m 7 1 f64_one (f64_lit 60 0)
              f64_zero f64_zero (-1)).1.2 in
  order_manager_link_oco m 1 2.

Example try_fill_oco_witness :
  let o := default order_zero (pending demo_oco !! 0%nat) in
  is_pending <$> (pending demo_oco !! 1%nat) = Some true /\
  Forall (fun o' => o_oco_link_id o' = o_oco_link_id o -> is_pending o' = false)
    (pending (try_fill 7 (f64_lit 55 0) (f64_lit 45 0) (f64_lit 52 0) demo_oco 0)).
Proof.
  intros o. split; [by vm_compute|].
  apply (try_fill_oco 7 (f64_lit 55 0) (f64_lit 45 0) (f64_lit 52 0) demo_oco 0 o (f64_lit 50 0));
    by vm_compute.
Defined.

(** A triggered order is marked filled whatever the fill answers: when the
    market rules refuse it, the cash and the positions stay as they were and the
    order is settled all the same. *)
Theorem try_fill_marks_filled a h l pc m i o price :
  pending m !! i = Some o -> o_asset_id o = a -> is_pending o = true ->
  trigger_price o h l = Some price ->
  let fp := market_clamp_price (rules m) price pc in
  let m' := try_fill a h l pc m i in
  (exists o', pending m' !! i = Some o' /\ o_status o' = ORDER_STATUS_FILLED /\
     o_fill_price o' = fp) /\
  ((execute_fill m a (o_direction o) (o_quantity o) fp pc (o_stop_loss o) (o_take_profit o)).1
     <> ORDER_OK ->
   cash m' = cash m /\ trades m' = trades m /\
   forall b, b <> 0 -> order_manager_position m' b = order_manager_position m b).
Proof.
  intros Ho Ha Hp Ht fp m'. unfold m', try_fill. rewrite Ho, Ha, Hp, Z.eqb_refl, Ht. simpl.
  fold fp.
  match goal with |- context [execute_fill ?m ?a ?d ?q ?xp ?pc ?sl ?tp] =>
    destruct (execute_fill_frame m a d q xp pc sl tp) as (_ & Ep & _);
    destruct (execute_fill m a d q xp pc sl tp) as [err m1] eqn:X end.
  simpl in Ep. split.
  - exists (with_fill fp (current_date m1) o). split; [|done].
    assert (alter (with_fill fp (current_date m1)) i (pending m1) !! i
      = Some (with_fill fp (current_date m1) o)) as Hi.
    { rewrite list_lookup_alter_eq, Ep, Ho. done. }
    destruct (0 <? o_oco_link_id o); [|done]. simpl. unfold cancel_linked.
    rewrite list_lookup_imap, Hi. simpl. by rewrite andb_false_r.
  - cbn [fst]. intros Herr. destruct (refused_fill_frame _ _ _ _ _ _ _ _ _ _ X Herr) as (Hc & Htr & _ & Hq).
    destruct (0 <? o_oco_link_id o); split_and!; done.
Qed.

(** A limit buy below the daily range of a T+1 market with 100-share lots is
    refused for its lot size, and yet filled. *)
Definition demo_odd_lot : order_manager_t :=
  set_pending [Order 1 7 ORDER_TYPE_LIMIT 1 (f64_lit 50 0) (f64_lit 10 0) f64_zero f64_zero
                 f64_zero 0 (-1) ORDER_STATUS_PENDING f64_zero f64_zero f64_zero]
    (demo_manager MARKET_CN_ASTOCK).

Example try_fill_marks_filled_witness :
  let o := default order_zero (pending demo_odd_lot !! 0%nat) in
  let m' := try_fill 7 (f64_lit 11 0) (f64_lit 9 0) (f64_lit 10 0) demo_odd_lot 0 in
  (exists o', pending m' !! 0%nat = Some o' /\ o_status o' = ORDER_STATUS_FILLED /\
     o_fill_price o' = f64_lit 10 0) /\
  cash m' = cash demo_odd_lot.
Proof.
  intros o m'.
  destruct (try_fill_marks_filled 7 (f64_lit 11 0) (f64_lit 9 0) (f64_lit 10 0) demo_odd_lot 0 o
              (f64_lit 10 0)) as [H1 H2]; [by vm_compute..|].
  split.
  - destruct H1 as (o' & ? & ? & ?). exists o'. split_and!; [done..|].
    transitivity (market_clamp_price (rules demo_odd_lot) (f64_lit 10 0) (f64_lit 10 0));
      [done|by vm_compute].
  - destruct H2 as [Hc _]; [by vm_compute|exact Hc].
Defined.

(** ** Stops *)

(** The trailing stop of a long position only moves up, and so does its peak;
    for a short one the peak only moves down, and a stop once set is never
    raised. *)
Theorem trail_monotone h l pos :
  (p_stop_loss (trail true h l pos) <? p_stop_loss pos)%f64 = false /\
  (p_trailing_peak (trail true h l pos) <? p_trailing_peak pos)%f64 = false /\
  (p_trailing_peak pos <? p_trailing_peak (trail false h l pos))%f64 = false /\
  ((p_stop_loss pos ==? 0.0)%f64 = false ->
   (p_stop_loss pos <? p_stop_loss (trail false h l pos))%f64 = false).
Proof.
  unfold trail. destruct (0.0 <? p_trailing_dist pos)%f64; simpl; [|auto 6 with turbo].
  split_and!.
  - destruct (p_trailing_peak pos <? h)%f64; [|auto with turbo].
    destruct (p_stop_loss pos <? _)%f64 eqn:C; simpl; auto with turbo.
  - destruct (p_trailing_peak pos <? h)%f64 eqn:C; [|auto with turbo].
    destruct (p_stop_loss pos <? _)%f64; simpl; auto with turbo.
  - destruct (l <? p_trailing_peak pos)%f64 eqn:C; [|auto with turbo].
    destruct (_ || _)%bool; simpl; auto with turbo.
  - intros Hsl. rewrite Hsl. destruct (l <? p_trailing_peak pos)%f64; [|auto with turbo]. simpl.
    destruct (_ <? p_stop_loss pos)%f64 eqn:C; simpl; auto with turbo.
Qed.

(** No fill changes the trailing stop of a slot: closing a position in full
    clears its stop loss and take profit but leaves the trailing distance and
    peak, which the next position of the asset inherits. *)
Theorem apply_fill_keeps_trailing m i d q fp c sl tp :
  let pos := slot m i in
  let pos' := slot (apply_fill m i d q fp c sl tp) i in
  p_trailing_dist pos' = p_trailing_dist pos /\
  p_trailing_is_pct pos' = p_trailing_is_pct pos /\
  p_trailing_peak pos' = p_trailing_peak pos.
Proof.
  intros pos pos'.
  assert (forall m1 p, positions m1 = positions m ->
    p_trailing_dist p = p_trailing_dist pos -> p_trailing_is_pct p = p_trailing_is_pct pos ->
    p_trailing_peak p = p_trailing_peak pos ->
    let pos1 := slot (put_position i p m1) i in
    p_trailing_dist pos1 = p_trailing_dist pos /\ p_trailing_is_pct pos1 = p_trailing_is_pct pos /\
    p_trailing_peak pos1 = p_trailing_peak pos) as Hput.
  { intros m1 p E1 ? ? ? pos1. unfold pos1, pos, slot. simpl. rewrite E1.
    destruct (positions m !! i) as [p0|] eqn:Hp.
    - rewrite list_lookup_insert_eq by (by eapply lookup_lt_Some). simpl.
      unfold pos, slot in *. by rewrite Hp in *.
    - rewrite list_insert_ge by (by apply lookup_ge_None). by rewrite Hp. }
  unfold pos', apply_fill. destruct (0 <? d); [by apply Hput|]. fold pos. cbv zeta.
  case_match;
    match goal with |- context [record_trade ?m0 ?a ?d ?e ?x ?q ?ed ?xd ?c] =>
      destruct (record_trade_spec m0 a d e x q ed xd c) as (_ & P & _) end;
    (apply Hput; [exact P|reflexivity..]).
Qed.

(** The consequence: a position re-opened without a trailing stop is closed by
    the stop of the one before it, on a bar that never falls. *)
Example stale_trailing_stop :
  let us := demo_manager MARKET_US_EQUITY in
  let buy m := (execute_fill m 7 1 (f64_lit 10 0) (f64_lit 50 0) f64_zero f64_zero f64_zero).2 in
  let m := order_manager_set_trailing_stop (buy us) 7 (f64_lit 1 0) false in
  let m := (order_manager_close (E := paper_executor) m 7 (f64_lit 50 0) f64_zero).2 in
  let m := buy m in
  let m' := order_manager_check_triggers (E := paper_executor) m 7 (f64_lit 50 0) (f64_lit 60 0)
              (f64_lit 50 0) (f64_lit 60 0) (f64_lit 50 0) in
  order_manager_position m 7 = f64_lit 10 0 /\ order_manager_position m' 7 = f64_zero.
Proof. by vm_compute. Qed.

(** ** Mark to market *)

(** Marking to market values only the slots whose index is below the number
    of quotes: the others keep their unrealized result and do not enter the
    equity, whatever the quotes say about their assets. *)
Theorem mark_to_market_prefix m quotes :
  let n := length quotes in
  let m' := order_manager_mark_to_market m quotes in
  drop n (positions m') = drop n (positions m) /\
  equity m' = equity (order_manager_mark_to_market (set_positions (take n (positions m)) m) quotes).
Proof.
  intros n m'.
  assert (forall k l v,
    drop k (mark_positions quotes k l v).1 = drop k l /\
    (mark_positions quotes k l v).2 = (mark_positions quotes k (take k l) v).2) as Hk.
  { induction k as [|k IH]; intros [|p l] v; simpl; try done.
    destruct (mark_position quotes p) as [p' mkt].
    match goal with |- context [mark_positions quotes k l ?w] =>
      specialize (IH l w); destruct (mark_positions quotes k l w) as [l1 t1],
        (mark_positions quotes k (take k l) w) as [l2 t2] end.
    done. }
  unfold m', order_manager_mark_to_market. simpl.
  destruct (Hk n (positions m) f64_zero) as [H1 H2]. fold n.
  destruct (mark_positions quotes n (positions m) _) as [l1 t1],
    (mark_positions quotes n (take n (positions m)) _) as [l2 t2].
  simpl in *. by subst.
Qed.

(** The consequence: the second slot's position is quoted and yet ignored. *)
Example mark_to_market_ignores_second_slot :
  let us := demo_manager MARKET_US_EQUITY in
  let buy a m := (execute_fill m a 1 (f64_lit 10 0) (f64_lit 50 0) f64_zero f64_zero f64_zero).2 in
  let m := order_manager_mark_to_market (buy 8 (buy 7 us)) [(8, f64_lit 50 0)] in
  equity m = cash m.
Proof. by vm_compute. Qed.
