(* ===== verification/BarWindow.v ===== *)
(** The rolling OHLCV window: [modules/fin/src/bar_window.c].

    The six parallel arrays of a ring, or of its linearized view, are a record of
    six lists; an index outside a list reads [0.0] and writes nothing, and the
    invariant [wf] shows that no such access happens.  [size_t] counters are
    natural numbers: [capacity * sizeof(double)] is taken not to wrap. *)

From S2P Require Import Prelude Float64.
Open Scope nat_scope.

(** ** Data *)

Record columns := Columns {
  c_open : list f64;
  c_high : list f64;
  c_low : list f64;
  c_close : list f64;
  c_volume : list f64;
  c_date : list f64
}.

Record bar_window_t := BarWindow {
  ring : columns;               (* r_open .. r_date *)
  capacity : nat;
  count : nat;
  write_pos : nat;
  view : columns;               (* open .. date *)
  dirty : bool
}.

(** One bar, as [bar_window_push] takes it. *)
Record bar := Bar {
  b_open : f64; b_high : f64; b_low : f64; b_close : f64; b_volume : f64; b_date : f64
}.

Definition get (l : list f64) (i : nat) : f64 := nth i l f64_zero.

Definition get_bar (c : columns) (i : nat) : bar :=
  Bar (get (c_open c) i) (get (c_high c) i) (get (c_low c) i) (get (c_close c) i)
      (get (c_volume c) i) (get (c_date c) i).

Definition set_bar (c : columns) (i : nat) (b : bar) : columns :=
  Columns (<[i := b_open b]> (c_open c)) (<[i := b_high b]> (c_high c))
          (<[i := b_low b]> (c_low c)) (<[i := b_close b]> (c_close c))
          (<[i := b_volume b]> (c_volume c)) (<[i := b_date b]> (c_date c)).

Definition zero_columns (n : nat) : columns :=
  let z := replicate n f64_zero in Columns z z z z z z.

(** ** Lifecycle *)

(** The allocations of [bar_window_create] are made one by one and the first
    that fails ends it; [h] gives their outcomes. *)
Fixpoint allocs (n : nat) (h : heap) : bool * heap :=
  match n with
  | O => (true, h)
  | S n => match alloc h with (true, h) => allocs n h | r => r end
  end.

Definition bar_window_create (cap : nat) (h : heap) : option bar_window_t * heap :=
  if (cap =? 0)%nat then (None, h)
  else
    match alloc h with                         (* the window *)
    | (false, h) => (None, h)
    | (true, h) =>
        match allocs 6 h with                  (* ALLOC_RING *)
        | (false, h) => (None, h)
        | (true, h) =>
            match allocs 6 h with              (* ALLOC_LIN *)
            | (false, h) => (None, h)
            | (true, h) =>
                (Some {| ring := zero_columns cap; capacity := cap; count := 0; write_pos := 0;
                         view := zero_columns cap; dirty := false |}, h)
            end
        end
    end.

Definition bar_window_clear (w : bar_window_t) : bar_window_t :=
  {| ring := zero_columns (capacity w); capacity := capacity w; count := 0; write_pos := 0;
     view := view w; dirty := false |}.

(** ** Pushing *)

Definition ring_write (w : bar_window_t) (date o h l c v : f64) : bar_window_t :=
  let pos := (write_pos w) mod (capacity w) in
  {| ring := set_bar (ring w) pos (Bar o h l c v date);
     capacity := capacity w;
     count := if (count w <? capacity w)%nat then count w + 1 else count w;
     write_pos := (write_pos w + 1) mod (capacity w);
     view := view w;
     dirty := true |}.

Definition bar_window_push (w : bar_window_t) (date o h l c v : f64) : bar_window_t :=
  ring_write w date o h l c v.

Definition bar_window_push_adjusted (w : bar_window_t) (date o h l c v adj_factor : f64)
    : bar_window_t :=
  let adj_factor := if (adj_factor ==? 0.0)%f64 then f64_one else adj_factor in
  ring_write w date (o * adj_factor)%f64 (h * adj_factor)%f64 (l * adj_factor)%f64
    (c * adj_factor)%f64 v.

(** [a[i] *= scale] *)
Definition scale_at (a : list f64) (i : nat) (scale : f64) : list f64 :=
  <[i := (get a i * scale)%f64]> a.

Definition scale_prices_at (scale : f64) (c : columns) (i : nat) : columns :=
  Columns (scale_at (c_open c) i scale) (scale_at (c_high c) i scale)
          (scale_at (c_low c) i scale) (scale_at (c_close c) i scale)
          (c_volume c) (c_date c).

Definition bar_window_rescale_prices (w : bar_window_t) (scale : f64) : bar_window_t :=
  if (count w =? 0)%nat || (scale ==? 1.0)%f64 || (scale ==? 0.0)%f64 then w
  else
    {| ring := foldl (scale_prices_at scale) (ring w) (seq 0 (capacity w));
       capacity := capacity w; count := count w; write_pos := write_pos w;
       view := foldl (scale_prices_at scale) (view w) (seq 0 (count w));
       dirty := true |}.

(** ** Accessing *)

Definition copy_bar (start cap : nat) (from : columns) (to : columns) (i : nat) : columns :=
  let src := (start + i) mod cap in
  set_bar to i (get_bar from src).

Definition oldest (w : bar_window_t) : nat :=
  if (count w <? capacity w)%nat then 0 else write_pos w.

Definition bar_window_linearize (w : bar_window_t) : bar_window_t :=
  if negb (dirty w) || (count w =? 0)%nat then w
  else
    {| ring := ring w; capacity := capacity w; count := count w; write_pos := write_pos w;
       view := foldl (copy_bar (oldest w) (capacity w) (ring w)) (view w) (seq 0 (count w));
       dirty := false |}.

Definition last_slot (w : bar_window_t) : nat :=
  (write_pos w + capacity w - 1) mod (capacity w).

Definition bar_window_last_close (w : bar_window_t) : f64 :=
  if (count w =? 0)%nat then f64_zero else get (c_close (ring w)) (last_slot w).

Definition bar_window_last_date (w : bar_window_t) : f64 :=
  if (count w =? 0)%nat then f64_zero else get (c_date (ring w)) (last_slot w).

Definition bar_window_ready (w : bar_window_t) (min_bars : nat) : bool := (min_bars <=? count w)%nat.

(** ** Specification

    A window of capacity [cap] is the list of its bars, oldest first: the last
    [cap] bars pushed since the last clear. *)

Definition last_n {A} (n : nat) (l : list A) : list A := drop (length l - n) l.

Definition scale_bar (scale : f64) (b : bar) : bar :=
  Bar (b_open b * scale)%f64 (b_high b * scale)%f64 (b_low b * scale)%f64
      (b_close b * scale)%f64 (b_volume b) (b_date b).

Inductive op :=
  | Push (b : bar)
  | PushAdjusted (b : bar) (adj_factor : f64)
  | Rescale (scale : f64)
  | Linearize
  | Clear.

Definition spec_step (cap : nat) (l : list bar) (o : op) : list bar :=
  match o with
  | Push b => last_n cap (l ++ [b])
  | PushAdjusted b f =>
      last_n cap (l ++ [scale_bar (if (f ==? 0.0)%f64 then f64_one else f) b])
  | Rescale s => if ((s ==? 1.0)%f64 || (s ==? 0.0)%f64) then l else scale_bar s <$> l
  | Linearize => l
  | Clear => []
  end.

Definition step (w : bar_window_t) (o : op) : bar_window_t :=
  match o with
  | Push (Bar o h l c v d) => bar_window_push w d o h l c v
  | PushAdjusted (Bar o h l c v d) f => bar_window_push_adjusted w d o h l c v f
  | Rescale s => bar_window_rescale_prices w s
  | Linearize => bar_window_linearize w
  | Clear => bar_window_clear w
  end.

(** The bars a window holds, read from its ring, and the first [n] of a view. *)
Definition bars (w : bar_window_t) : list bar :=
  (fun i => get_bar (ring w) ((oldest w + i) mod (capacity w))) <$> seq 0 (count w).

Definition view_bars (w : bar_window_t) : list bar := get_bar (view w) <$> seq 0 (count w).

(** ** Invariant *)

Definition columns_length (c : columns) (n : nat) : Prop :=
  length (c_open c) = n /\ length (c_high c) = n /\ length (c_low c) = n /\
  length (c_close c) = n /\ length (c_volume c) = n /\ length (c_date c) = n.

Record wf (w : bar_window_t) : Prop := {
  wf_capacity : 0 < capacity w;
  wf_ring : columns_length (ring w) (capacity w);
  wf_view : columns_length (view w) (capacity w);
  wf_count : count w <= capacity w;
  wf_write_pos : write_pos w < capacity w;
  wf_filling : count w < capacity w -> write_pos w = count w;
  wf_clean : dirty w = false -> view_bars w = bars w
}.

(** ** The column loops *)

Lemma get_insert l i j x :
  i < length l -> get (<[i := x]> l) j = if (i =? j)%nat then x else get l j.
Proof.
  intros Hi. unfold get. rewrite !nth_lookup. destruct (i =? j) eqn:E; bool_props.
  - subst. by rewrite list_lookup_insert_eq.
  - by rewrite list_lookup_insert_ne.
Qed.

Lemma set_bar_length c i b n : columns_length c n -> columns_length (set_bar c i b) n.
Proof. unfold columns_length, set_bar. simpl. rewrite !length_insert. done. Qed.

Lemma get_set_bar c i j b n :
  columns_length c n -> i < n ->
  get_bar (set_bar c i b) j = if (i =? j)%nat then b else get_bar c j.
Proof.
  intros (? & ? & ? & ? & ? & ?) Hi. unfold get_bar, set_bar. simpl.
  rewrite !get_insert by congruence. by destruct (i =? j), b.
Qed.

Lemma scale_prices_at_length s c i n :
  columns_length c n -> columns_length (scale_prices_at s c i) n.
Proof. unfold columns_length, scale_prices_at, scale_at. simpl. rewrite !length_insert. done. Qed.

Lemma get_scale_prices_at s c i j n :
  columns_length c n -> i < n ->
  get_bar (scale_prices_at s c i) j = if (i =? j)%nat then scale_bar s (get_bar c i) else get_bar c j.
Proof.
  intros (? & ? & ? & ? & ? & ?) Hi. unfold get_bar, scale_prices_at, scale_at, scale_bar. simpl.
  rewrite !get_insert by congruence. destruct (i =? j) eqn:E; bool_props; by subst.
Qed.

(** A loop over the first [k] slots that treats each slot on its own. *)
Lemma columns_loop (f : columns -> nat -> columns) (g : nat -> bar -> bar) n :
  (forall c i, columns_length c n -> columns_length (f c i) n) ->
  (forall c i j, columns_length c n -> i < n ->
    get_bar (f c i) j = if (i =? j)%nat then g i (get_bar c i) else get_bar c j) ->
  forall k c, columns_length c n -> k <= n ->
  columns_length (foldl f c (seq 0 k)) n /\
  forall j, get_bar (foldl f c (seq 0 k)) j = if (j <? k)%nat then g j (get_bar c j) else get_bar c j.
Proof.
  intros Hlen Hget k c Hc. induction k as [|k IH]; intros Hk; [done|].
  destruct IH as [IHl IHg]; [lia|]. rewrite seq_S, foldl_snoc. simpl.
  split; [by apply Hlen|]. intros j. rewrite Hget by (done || lia). rewrite !IHg.
  destruct (k =? j) eqn:E1, (j <? k) eqn:E2, (k <? k) eqn:E3, (j <? S k) eqn:E4;
    bool_props; subst; done || lia.
Qed.

Lemma rescale_loop s c n k :
  columns_length c n -> k <= n ->
  columns_length (foldl (scale_prices_at s) c (seq 0 k)) n /\
  forall j, get_bar (foldl (scale_prices_at s) c (seq 0 k)) j
    = if (j <? k)%nat then scale_bar s (get_bar c j) else get_bar c j.
Proof.
  apply (columns_loop _ (fun _ => scale_bar s)); intros.
  - by apply scale_prices_at_length.
  - by eapply get_scale_prices_at.
Qed.

Lemma linearize_loop start cap from c n k :
  columns_length c n -> k <= n ->
  columns_length (foldl (copy_bar start cap from) c (seq 0 k)) n /\
  forall j, get_bar (foldl (copy_bar start cap from) c (seq 0 k)) j
    = if (j <? k)%nat then get_bar from ((start + j) mod cap) else get_bar c j.
Proof.
  apply (columns_loop _ (fun i _ => get_bar from ((start + i) mod cap))); intros.
  - by apply set_bar_length.
  - by eapply get_set_bar.
Qed.

(** ** The ring as a list *)

Lemma mod_wrap a n : a < 2 * n -> a mod n = if (a <? n)%nat then a else a - n.
Proof.
  intros Ha. destruct (a <? n) eqn:E; bool_props; [by apply Nat.mod_small|].
  replace a with ((a - n) + 1 * n) at 1 by lia. rewrite Nat.Div0.mod_add.
  apply Nat.mod_small. lia.
Qed.

Lemma lookup_fmap_seq {A} (f : nat -> A) n i :
  (f <$> seq 0 n) !! i = if (i <? n)%nat then Some (f i) else None.
Proof.
  rewrite list_lookup_fmap. destruct (i <? n) eqn:E; bool_props.
  - by rewrite lookup_seq_lt.
  - by rewrite lookup_seq_ge.
Qed.

Lemma lookup_bars w i :
  bars w !! i = if (i <? count w)%nat
                then Some (get_bar (ring w) ((oldest w + i) mod (capacity w))) else None.
Proof. unfold bars. by rewrite lookup_fmap_seq. Qed.

Lemma length_bars w : length (bars w) = count w.
Proof. unfold bars. by rewrite length_fmap, length_seq. Qed.

Lemma lookup_last_n {A} n (l : list A) i : last_n n l !! i = l !! (length l - n + i).
Proof. unfold last_n. by rewrite lookup_drop. Qed.

(** Decides an equation between two tests of linear arithmetic. *)
Ltac solve_index :=
  repeat match goal with
  | |- context [if (?a <? ?b)%nat then _ else _] =>
      let E := fresh "E" in destruct (a <? b)%nat eqn:E; bool_props; try lia
  | |- context [if (?a =? ?b)%nat then _ else _] =>
      let E := fresh "E" in destruct (a =? b)%nat eqn:E; bool_props; try lia
  end.

Lemma ring_write_bars w d o h l c v :
  wf w -> bars (ring_write w d o h l c v) = last_n (capacity w) (bars w ++ [Bar o h l c v d]).
Proof.
  intros [Hcap Hr Hv Hcount Hwp Hfill _]. apply list_eq. intros i.
  rewrite lookup_bars, lookup_last_n, length_app, length_bars. simpl.
  unfold oldest. simpl. rewrite (Nat.mod_small (write_pos w)) by done.
  rewrite lookup_app, lookup_bars, length_bars. unfold oldest.
  destruct (count w <? capacity w) eqn:C; bool_props.
  - rewrite (Hfill C) in *. rewrite (mod_wrap (count w + 1)) by lia.
    replace (count w + 1 - capacity w) with 0 by lia. simpl.
    replace (if count w + 1 <? capacity w then 0
             else if count w + 1 <? capacity w then count w + 1 else 0) with 0
      by by destruct (_ <? _).
    destruct (i <? count w + 1) eqn:I; bool_props; simpl.
    + rewrite (Nat.mod_small i) by lia. erewrite get_set_bar by done.
      solve_index; [done|]. replace (i - count w) with 0 by lia. done.
    + solve_index. by rewrite lookup_ge_None_2 by (simpl; lia).
  - assert (count w = capacity w) as Hc by lia. rewrite Hc in *.
    rewrite Nat.ltb_irrefl. replace (capacity w + 1 - capacity w) with 1 by lia.
    rewrite (mod_wrap (write_pos w + 1)) by lia.
    destruct (i <? capacity w) eqn:I; bool_props.
    + set (start := if write_pos w + 1 <? capacity w then write_pos w + 1 else write_pos w + 1 - capacity w).
      assert (start < capacity w) by (subst start; solve_index; lia).
      rewrite !mod_wrap by (try lia).
      erewrite get_set_bar by (done || (solve_index; lia)).
      subst start. solve_index; try (f_equal; f_equal; lia).
      * by replace (1 + i - capacity w) with 0 by lia.
      * by replace (1 + i - capacity w) with 0 by lia.
    + solve_index. by rewrite lookup_ge_None_2 by (simpl; lia).
Qed.

Lemma zero_columns_length n : columns_length (zero_columns n) n.
Proof. unfold columns_length. simpl. by rewrite !length_replicate. Qed.

Lemma ring_write_wf w d o h l c v : wf w -> wf (ring_write w d o h l c v).
Proof.
  intros [Hcap Hr Hv Hcount Hwp Hfill _]. split; simpl; [done|by apply set_bar_length|done|..].
  - destruct (_ <? _) eqn:C; bool_props; lia.
  - apply Nat.mod_upper_bound. lia.
  - destruct (_ <? _) eqn:C; bool_props; [|lia]. intros Hlt. rewrite Hfill by done.
    by apply Nat.mod_small.
  - done.
Qed.

Lemma rescale_wf w s : wf w -> wf (bar_window_rescale_prices w s).
Proof.
  intros Hw. unfold bar_window_rescale_prices. destruct (_ || _); [done|].
  destruct Hw as [Hcap Hr Hv Hcount Hwp Hfill _]. split; simpl; try done.
  - by apply rescale_loop.
  - by apply rescale_loop.
Qed.

Lemma rescale_bars w s :
  wf w ->
  bars (bar_window_rescale_prices w s)
    = if ((s ==? 1.0)%f64 || (s ==? 0.0)%f64) then bars w else scale_bar s <$> bars w.
Proof.
  intros [Hcap Hr Hv Hcount Hwp Hfill _]. unfold bar_window_rescale_prices.
  destruct (count w =? 0) eqn:C; bool_props.
  { simpl. assert (bars w = []) as -> by (unfold bars; by rewrite C). by case_match. }
  simpl. destruct (_ || _); [done|].
  apply list_eq. intros i. rewrite list_lookup_fmap, !lookup_bars. simpl. unfold oldest. simpl.
  destruct (i <? count w) eqn:I; [|done]. simpl. f_equal.
  rewrite (proj2 (rescale_loop _ _ _ _ Hr (le_n _))).
  rewrite (proj2 (Nat.ltb_lt _ _)); [done|]. apply Nat.mod_upper_bound. lia.
Qed.

Lemma linearize_view w : wf w -> view_bars (bar_window_linearize w) = bars w.
Proof.
  intros Hw. unfold bar_window_linearize. destruct (dirty w) eqn:D; simpl.
  2: { by apply wf_clean. }
  destruct (count w =? 0) eqn:C; bool_props; [unfold view_bars, bars; by rewrite C|].
  destruct Hw as [Hcap Hr Hv Hcount Hwp Hfill _].
  apply list_eq. intros i. unfold view_bars. simpl. rewrite lookup_fmap_seq, lookup_bars.
  destruct (i <? count w) eqn:I; [|done]. f_equal.
  by rewrite (proj2 (linearize_loop _ _ _ _ _ _ Hv Hcount)), I.
Qed.

Lemma linearize_bars w : bars (bar_window_linearize w) = bars w.
Proof. unfold bar_window_linearize. by destruct (_ || _). Qed.

Lemma linearize_wf w : wf w -> wf (bar_window_linearize w).
Proof.
  intros Hw. pose proof (linearize_view w Hw) as Hview.
  pose proof (linearize_bars w) as Hbars. revert Hview Hbars.
  unfold bar_window_linearize. destruct (_ || _); [done|].
  destruct Hw as [Hcap Hr Hv Hcount Hwp Hfill _]. intros Hview Hbars.
  split; simpl; [done..| |done|done|done|].
  - by apply linearize_loop.
  - intros _. by rewrite Hview, Hbars.
Qed.

Lemma clear_wf w : wf w -> wf (bar_window_clear w).
Proof.
  intros [Hcap _ Hv _ _ _ _]. split; simpl; try done; [apply zero_columns_length|lia].
Qed.

Lemma step_wf w o : wf w -> wf (step w o).
Proof.
  destruct o as [[]|[] f|s| |]; simpl;
    [apply ring_write_wf|apply ring_write_wf|apply rescale_wf|apply linearize_wf|apply clear_wf].
Qed.

Lemma step_capacity w o : capacity (step w o) = capacity w.
Proof.
  destruct o as [[]|[] f|s| |]; simpl; try done.
  - unfold bar_window_rescale_prices. by destruct (_ || _).
  - unfold bar_window_linearize. by destruct (_ || _).
Qed.

Lemma step_bars w o : wf w -> bars (step w o) = spec_step (capacity w) (bars w) o.
Proof.
  intros Hw. destruct o as [[]|[] f|s| |]; simpl.
  - by apply ring_write_bars.
  - unfold bar_window_push_adjusted. by rewrite ring_write_bars.
  - by apply rescale_bars.
  - apply linearize_bars.
  - done.
Qed.

(** ** Theorems *)

Lemma allocs_ok n : forall h, (allocs n h).1 = forallb id (take n h).
Proof.
  induction n as [|n IH]; intros h; simpl; [done|].
  destruct h as [|[] h]; simpl; [by rewrite IH, take_nil|by rewrite IH|done].
Qed.

Lemma allocs_heap n : forall h, (allocs n h).1 = true -> (allocs n h).2 = drop n h.
Proof.
  induction n as [|n IH]; intros h; simpl; [done|].
  destruct h as [|[] h]; simpl; intros H; [by rewrite IH, drop_nil|by rewrite IH|done].
Qed.

Lemma create_Some cap h w h' :
  bar_window_create cap h = (Some w, h') -> wf w /\ capacity w = cap /\ bars w = [].
Proof.
  unfold bar_window_create. repeat case_match; try done. intros [= <- _]. bool_props.
  split_and!; [|done..]. split; simpl; try done; try apply zero_columns_length; lia.
Qed.

Lemma run_refines os : forall w, wf w ->
  wf (foldl step w os) /\ capacity (foldl step w os) = capacity w /\
  bars (foldl step w os) = foldl (spec_step (capacity w)) (bars w) os.
Proof.
  induction os as [|o os IH]; intros w Hw; simpl; [done|].
  destruct (IH (step w o) (step_wf w o Hw)) as (? & Hc & Hb). split_and!; [done| |].
  - by rewrite Hc, step_capacity.
  - by rewrite Hb, step_capacity, step_bars.
Qed.

Lemma last_slot_spec w :
  wf w -> count w <> 0 -> last_slot w = (oldest w + (count w - 1)) mod (capacity w).
Proof.
  intros [Hcap Hr Hv Hcount Hwp Hfill _] Hne. unfold last_slot, oldest.
  destruct (count w <? capacity w) eqn:C; bool_props.
  - rewrite Hfill by done. rewrite !mod_wrap by lia. solve_index; lia.
  - rewrite !mod_wrap by lia. solve_index; lia.
Qed.

(** C7: the window refines the list of its last bars.  From a window that
    [bar_window_create] returned, any sequence of pushes, adjusted pushes,
    rescalings, linearizations and clears leaves the bars that the same
    operations leave on a list bounded by the capacity, and after a final
    [bar_window_linearize] the arrays that the scripts read hold exactly these
    bars, oldest first. *)
Theorem bar_window_refines cap h w h' os :
  bar_window_create cap h = (Some w, h') ->
  let w' := foldl step w os in
  bars w' = foldl (spec_step cap) [] os /\
  view_bars (bar_window_linearize w') = foldl (spec_step cap) [] os /\
  count w' <= cap.
Proof.
  intros (Hw & Hcap & Hb)%create_Some. simpl.
  destruct (run_refines os w Hw) as (Hw' & Hc & Hb'). rewrite Hcap, Hb in Hb'. split_and!.
  - done.
  - by rewrite linearize_view.
  - rewrite <- Hcap, <- Hc. by apply wf_count.
Qed.

Definition demo_bar (p : Z) : bar :=
  let x := f64_of_Z p in Bar x x x x f64_one x.

Lemma bar_window_refines_witness :
  exists w h', bar_window_create 3 [true] = (Some w, h') /\
  let os := [Push (demo_bar 1); Push (demo_bar 2); PushAdjusted (demo_bar 3) (f64_of_Z 2);
             Linearize; Push (demo_bar 4); Rescale (f64_of_Z 10)] in
  let w' := foldl step w os in
  bars w' = foldl (spec_step 3) [] os /\
  view_bars (bar_window_linearize w') = foldl (spec_step 3) [] os /\ count w' <= 3.
Proof.
  eexists _, _. split; [reflexivity|]. intros os.
  apply (bar_window_refines 3 [true] _ [] os). reflexivity.
Defined.

(** The accessors of the latest bar agree with the list: on a well-formed
    window [bar_window_last_close] and [bar_window_last_date] are those of the
    last bar, [0.0] when there is none, and [bar_window_ready] compares its
    length. *)
Theorem bar_window_last_spec w :
  wf w ->
  bar_window_last_close w = default f64_zero (b_close <$> last (bars w)) /\
  bar_window_last_date w = default f64_zero (b_date <$> last (bars w)) /\
  forall n, bar_window_ready w n = bool_decide (n <= length (bars w)).
Proof.
  intros Hw. rewrite length_bars. split_and!.
  3: { intros n. unfold bar_window_ready. case_bool_decide; [by apply Nat.leb_le|by apply Nat.leb_gt; lia]. }
  all: unfold bar_window_last_close, bar_window_last_date; rewrite last_lookup, length_bars, lookup_bars;
    destruct (count w =? 0) eqn:C; bool_props;
    [rewrite C; done|];
    rewrite (proj2 (Nat.ltb_lt _ _)) by lia; simpl; rewrite last_slot_spec by done;
    by replace (count w - 1) with (pred (count w)) by lia.
Qed.

Lemma bar_window_last_spec_witness :
  let w := foldl step (BarWindow (zero_columns 2) 2 0 0 (zero_columns 2) false)
             [Push (demo_bar 1); Push (demo_bar 2); Push (demo_bar 3)] in
  bar_window_last_close w = f64_of_Z 3.
Proof.
  intros w. assert (wf w) as Hw.
  { apply run_refines. split; simpl; try apply zero_columns_length; done || lia. }
  destruct (bar_window_last_spec w Hw) as [-> _]. by vm_compute.
Defined.

(** [bar_window_create] answers NULL exactly when the capacity is zero or
    one of its thirteen allocations fails. *)
Theorem bar_window_create_total cap h :
  is_Some (bar_window_create cap h).1 <-> cap <> 0 /\ forallb id (take 13 h) = true.
Proof.
  replace (take 13 h) with (take 1 h ++ take 6 (drop 1 h) ++ take 6 (drop 6 (drop 1 h)))
    by by rewrite !take_take_drop.
  rewrite !forallb_app, <- !allocs_ok. unfold bar_window_create.
  destruct (cap =? 0) eqn:C; bool_props; [split; [by intros []|by intros []]|].
  replace (drop 1 h) with (alloc h).2 by by destruct h.
  replace (allocs 1 h).1 with (alloc h).1 by by destruct h as [|[] h].
  destruct (alloc h) as [[] h1]; cbn [fst snd andb]; [|split; [by intros []|by intros []]].
  pose proof (allocs_heap 6 h1) as Hh.
  destruct (allocs 6 h1) as [[] h2]; cbn [fst snd andb] in *; [|split; [by intros []|by intros []]].
  rewrite <- Hh by done.
  destruct (allocs 6 h2) as [[] h3]; cbn [fst snd andb];
    [by split; eauto|split; [by intros []|by intros []]].
Qed.
