(* ===== verification/Regex.v ===== *)
(** The regular expression engine: [exprtk/src/re.c].

    Strings are those of [CString], an index is a natural number.  The recursive functions carry fuel and answer [None]
    when it runs out; [validate_fuel] and [match_fuel] below bound what they need.
    The one [malloc] of the matcher is the parameter [malloc_ok]. *)

From S2P Require Import Prelude CString.
From Stdlib Require Import Ascii.
Open Scope Z_scope.

(** ** Characters *)

Definition BACKSLASH : Z := c_char "092".

Definition MAX_CHAR_CLASS_LEN : nat := 40.
Definition MAX_PATTERN_LEN : nat := 256.

(** [isdigit], [isalpha] and [isspace] in the C locale. *)
Definition matchdigit (c : Z) : bool := in_range "0" "9" c.
Definition matchalpha (c : Z) : bool := in_range "a" "z" c || in_range "A" "Z" c.
Definition matchwhitespace (c : Z) : bool := (c =? 32) || ((9 <=? c) && (c <=? 13)).
Definition matchalphanum (c : Z) : bool := is_ "_" c || matchalpha c || matchdigit c.
(** [RE_DOT_MATCHES_NEWLINE] is 1 in [re.h]: a dot matches every character. *)
Definition matchdot (c : Z) : bool := true.
Definition ismetachar (c : Z) : bool :=
  is_ "s" c || is_ "S" c || is_ "w" c || is_ "W" c || is_ "d" c || is_ "D" c.

Definition matchmetachar (c m : Z) : bool :=
  if is_ "d" m then matchdigit c
  else if is_ "D" m then negb (matchdigit c)
  else if is_ "w" m then matchalphanum c
  else if is_ "W" m then negb (matchalphanum c)
  else if is_ "s" m then matchwhitespace c
  else if is_ "S" m then negb (matchwhitespace c)
  else c =? m.

Definition isquantifier (c : Z) : bool := is_ "*" c || is_ "+" c || is_ "?" c.

(** ** Scanning the pattern *)

Section Scan.
Context (p : list Z).

(** The loop of [find_char_class_end]; [fuel] is what is left of the range. *)
Fixpoint class_loop (fuel i e : nat) : option nat :=
  match fuel with
  | O => None
  | S fuel =>
      if (i <? e)%nat then
        if at_ p i =? BACKSLASH then
          if (e <=? i + 1)%nat then None else class_loop fuel (i + 2) e
        else if is_ "]" (at_ p i) then Some i
        else class_loop fuel (i + 1) e
      else None
  end.

Definition find_char_class_end (start e : nat) : option nat :=
  let i := (start + 1)%nat in
  let i := if (i <? e)%nat && is_ "^" (at_ p i) then (i + 1)%nat else i in
  class_loop (e - i) i e.

Fixpoint group_loop (fuel depth i e : nat) : option nat :=
  match fuel with
  | O => None
  | S fuel =>
      if (i <? e)%nat then
        if at_ p i =? BACKSLASH then
          if (e <=? i + 1)%nat then None else group_loop fuel depth (i + 2) e
        else if is_ "[" (at_ p i) then
          match find_char_class_end i e with
          | None => None
          | Some class_end => group_loop fuel depth (class_end + 1) e
          end
        else if is_ "(" (at_ p i) then group_loop fuel (depth + 1) (i + 1) e
        else if is_ ")" (at_ p i) then
          if (depth =? 1)%nat then Some i else group_loop fuel (depth - 1) (i + 1) e
        else group_loop fuel depth (i + 1) e
      else None
  end.

Definition find_group_end (start e : nat) : option nat :=
  group_loop (e - (start + 1)) 1 (start + 1) e.

Fixpoint branch_loop (fuel depth i e : nat) : option nat :=
  match fuel with
  | O => Some e
  | S fuel =>
      if (i <? e)%nat then
        if at_ p i =? BACKSLASH then
          if (e <=? i + 1)%nat then None else branch_loop fuel depth (i + 2) e
        else if is_ "[" (at_ p i) then
          match find_char_class_end i e with
          | None => None
          | Some class_end => branch_loop fuel depth (class_end + 1) e
          end
        else if is_ "(" (at_ p i) then branch_loop fuel (depth + 1) (i + 1) e
        else if is_ ")" (at_ p i) then
          if (depth =? 0)%nat then None else branch_loop fuel (depth - 1) (i + 1) e
        else if is_ "|" (at_ p i) && (depth =? 0)%nat then Some i
        else branch_loop fuel depth (i + 1) e
      else Some e
  end.

Definition find_branch_end (start e : nat) : option nat := branch_loop (e - start) 0 start e.

(** ** Validation

    [atom_end_at], [validate_sequence] and [validate_expr] call each other; the
    outer [option] is the fuel, the inner one the -1 of [atom_end_at]. *)

Fixpoint validate_expr (n branch_start e : nat) : option bool :=
  match n with
  | O => None
  | S n =>
      if (branch_start <=? e)%nat then
        match find_branch_end branch_start e with
        | None => Some false
        | Some branch_end =>
            match validate_sequence n branch_start branch_end with
            | Some true =>
                if (branch_end =? e)%nat then Some true
                else validate_expr n (branch_end + 1) e
            | r => r
            end
        end
      else Some true
  end
with validate_sequence (n i e : nat) : option bool :=
  match n with
  | O => None
  | S n =>
      if (i <? e)%nat then
        match atom_end_at n i e with
        | None => None
        | Some None => Some false
        | Some (Some atom_end) =>
            if (atom_end <? e)%nat && isquantifier (at_ p atom_end) then
              if is_ "^" (at_ p i) || is_ "$" (at_ p i) then Some false
              else validate_sequence n (atom_end + 1) e
            else validate_sequence n atom_end e
        end
      else Some true
  end
with atom_end_at (n start e : nat) : option (option nat) :=
  match n with
  | O => None
  | S n =>
      if (e <=? start)%nat then Some None
      else
        let c := at_ p start in
        if is_ "[" c then
          match find_char_class_end start e with
          | None => Some None
          | Some class_end =>
              if (MAX_CHAR_CLASS_LEN <=? class_end - start)%nat then Some None
              else Some (Some (class_end + 1)%nat)
          end
        else if is_ "(" c then
          match find_group_end start e with
          | None => Some None
          | Some group_end =>
              match validate_expr n (start + 1) group_end with
              | None => None
              | Some false => Some None
              | Some true => Some (Some (group_end + 1)%nat)
              end
          end
        else if c =? BACKSLASH then
          if (start + 1 <? e)%nat then Some (Some (start + 2)%nat) else Some None
        else if is_ "|" c || is_ ")" c || isquantifier c then Some None
        else Some (Some (start + 1)%nat)
  end.

(** Fuel that is enough for a range of the pattern. *)
Definition validate_fuel (start e : nat) : nat := 2 * (e - start) + 2.

Definition atom_end (start e : nat) : option nat :=
  match atom_end_at (validate_fuel start e) start e with
  | Some r => r
  | None => None
  end.

End Scan.

(** ** Matching *)

Section Match.
Context (p : list Z) (text : list Z) (malloc_ok : nat -> bool).

Definition text_len : nat := length text.

(** [matchcharclass_n c &p[base] len]. *)
Fixpoint class_match (fuel : nat) (c : Z) (base len i : nat) : bool :=
  match fuel with
  | O => false
  | S fuel =>
      if (i <? len)%nat then
        let str k := at_ p (base + k) in
        if (i + 2 <? len)%nat && negb (is_ "-" c) && negb (is_ "-" (str i))
           && is_ "-" (str (i + 1)%nat) && (str i <=? c) && (c <=? str (i + 2)%nat)
        then true
        else if str i =? BACKSLASH then
          if (i + 1 <? len)%nat && matchmetachar c (str (i + 1)%nat) then true
          else if (i + 1 <? len)%nat && (c =? str (i + 1)%nat)
                  && negb (ismetachar (str (i + 1)%nat)) then true
          else class_match fuel c base len (i + 2)
        else if c =? str i then negb (is_ "-" c) || (i =? 0)%nat || (i =? len - 1)%nat
        else class_match fuel c base len (i + 1)
      else false
  end.

Definition matchcharclass_n (c : Z) (base len : nat) : bool := class_match len c base len 0.

(** The atoms that consume one character: does [text[pos]] match? *)
Definition char_matches (start atom_end pos : nat) : bool :=
  let c := at_ text pos in
  let a := at_ p start in
  if is_ "." a then matchdot c
  else if is_ "[" a then
    match find_char_class_end p start atom_end with
    | None => false
    | Some class_end =>
        let inverted := (start + 1 <? class_end)%nat && is_ "^" (at_ p (start + 1)) in
        let class_start := if inverted then (start + 2)%nat else (start + 1)%nat in
        xorb inverted (matchcharclass_n c class_start (class_end - class_start))
    end
  else if a =? BACKSLASH then matchmetachar c (at_ p (start + 1))
  else c =? a.

(** The greedy loop: the positions reached by repeating [step], latest first.
    [cap] bounds the number of repetitions left. *)
Fixpoint repeat_positions (step : nat -> option (option nat)) (cap cur : nat)
    (positions : list nat) : option (list nat) :=
  match cap with
  | O => Some positions
  | S cap =>
      match step cur with
      | None => None
      | Some None => Some positions
      | Some (Some next) =>
          if (next =? cur)%nat then Some positions
          else repeat_positions step cap next (next :: positions)
      end
  end.

(** The backtracking loop: the first of the candidate positions from which
    [rest] matches. *)
Fixpoint try_positions (rest : nat -> option (option nat)) (positions : list nat)
    : option (option nat) :=
  match positions with
  | [] => Some None
  | pos :: positions =>
      match rest pos with
      | Some None => try_positions rest positions
      | r => r
      end
  end.

(** The results are the [*out_pos] of a match, [Some None] for no match, and
    [None] for fuel that ran out. *)
Fixpoint match_expr (n branch_start e pos : nat) : option (option nat) :=
  match n with
  | O => None
  | S n =>
      if (branch_start <=? e)%nat then
        match find_branch_end p branch_start e with
        | None => Some None
        | Some branch_end =>
            match match_sequence n branch_start branch_end pos with
            | Some None =>
                if (branch_end =? e)%nat then Some None
                else match_expr n (branch_end + 1) e pos
            | r => r
            end
        end
      else Some None
  end
with match_sequence (n start e pos : nat) : option (option nat) :=
  match n with
  | O => None
  | S n =>
      if (e <=? start)%nat then Some (Some pos)
      else
        match atom_end p start e with
        | None => Some None
        | Some ae =>
            let q := if (ae <? e)%nat then at_ p ae else 0 in
            let then_rest rest_start r :=
              match r with
              | Some (Some next) => match_sequence n rest_start e next
              | r => r
              end in
            if is_ "?" q then
              match match_sequence n (ae + 1) e pos with
              | Some None => then_rest (ae + 1)%nat (match_atom_once n start ae pos)
              | r => r
              end
            else if is_ "*" q || is_ "+" q then
              if malloc_ok (text_len - pos + 1)%nat then
                match repeat_positions (match_atom_once n start ae) (text_len - pos) pos [pos] with
                | None => None
                | Some positions =>
                    let candidates := if is_ "+" q then removelast positions else positions in
                    try_positions (match_sequence n (ae + 1) e) candidates
                end
              else Some None
            else then_rest ae (match_atom_once n start ae pos)
        end
  end
with match_atom_once (n start ae pos : nat) : option (option nat) :=
  match n with
  | O => None
  | S n =>
      let a := at_ p start in
      if is_ "^" a then Some (if (pos =? 0)%nat then Some pos else None)
      else if is_ "$" a then Some (if (pos =? text_len)%nat then Some pos else None)
      else if is_ "(" a then
        match find_group_end p start ae with
        | None => Some None
        | Some group_end => match_expr n (start + 1) group_end pos
        end
      else if (text_len <=? pos)%nat then Some None
      else Some (if char_matches start ae pos then Some (pos + 1)%nat else None)
  end.

Definition match_fuel (start e : nat) : nat := 2 * (e - start) + 3.

(** [re_matchp] on a compiled pattern: the index and the length of the first
    match, [Some None] for -1.  A match that starts at the end of the text
    is reported as -1. *)
Fixpoint search (k idx : nat) : option (option (nat * nat)) :=
  match k with
  | O => Some None
  | S k =>
      match match_expr (match_fuel 0 (length p)) 0 (length p) idx with
      | None => None
      | Some (Some out_pos) =>
          if (idx =? text_len)%nat then Some None else Some (Some (idx, (out_pos - idx)%nat))
      | Some None => if is_ "^" (at_ p 0) then Some None else search k (idx + 1)
      end
  end.

Definition re_matchp : option (option (nat * nat)) := search (text_len + 1) 0.

End Match.

(** [re_compile]: the pattern is accepted when it is short enough and
    well formed. *)
Definition re_compile (p : list Z) : option (list Z) :=
  if (MAX_PATTERN_LEN <=? length p)%nat then None
  else
    match validate_expr p (validate_fuel 0 (length p)) 0 (length p) with
    | Some true => Some p
    | _ => None
    end.

(** [re_match]: [Some None] stands for -1. *)
Definition re_match (pattern text : list Z) (malloc_ok : nat -> bool)
    : option (option (nat * nat)) :=
  match re_compile pattern with
  | None => Some None
  | Some p => re_matchp p text malloc_ok
  end.

(** ** What a pattern means

    The declarative reading of a pattern: [expr_matches bs e pos out] says that
    the alternatives of the range [bs..e) match the text from [pos] to [out].
    The pattern is cut into alternatives and atoms by the same scans; which
    alternative, and how many repetitions, is left open. *)

Section Semantics.
Context (p : list Z) (text : list Z).

Definition quantifier_at (ae e : nat) : Z := if (ae <? e)%nat then at_ p ae else 0.

Inductive expr_matches : nat -> nat -> nat -> nat -> Prop :=
  | expr_first bs e be pos out :
      (bs <= e)%nat -> find_branch_end p bs e = Some be ->
      sequence_matches bs be pos out -> expr_matches bs e pos out
  | expr_later bs e be pos out :
      (bs <= e)%nat -> find_branch_end p bs e = Some be -> be <> e ->
      expr_matches (be + 1) e pos out -> expr_matches bs e pos out
with sequence_matches : nat -> nat -> nat -> nat -> Prop :=
  | sequence_empty s e pos : (e <= s)%nat -> sequence_matches s e pos pos
  | sequence_once s e ae pos mid out :
      (s < e)%nat -> atom_end p s e = Some ae -> isquantifier (quantifier_at ae e) = false ->
      atom_matches s ae pos mid -> sequence_matches ae e mid out ->
      sequence_matches s e pos out
  | sequence_optional s e ae pos mid out :
      (s < e)%nat -> atom_end p s e = Some ae -> is_ "?" (quantifier_at ae e) = true ->
      (mid = pos \/ atom_matches s ae pos mid) -> sequence_matches (ae + 1) e mid out ->
      sequence_matches s e pos out
  | sequence_star s e ae pos mid out :
      (s < e)%nat -> atom_end p s e = Some ae -> is_ "*" (quantifier_at ae e) = true ->
      rtc (atom_matches s ae) pos mid -> sequence_matches (ae + 1) e mid out ->
      sequence_matches s e pos out
  | sequence_plus s e ae pos mid out :
      (s < e)%nat -> atom_end p s e = Some ae -> is_ "+" (quantifier_at ae e) = true ->
      tc (atom_matches s ae) pos mid -> sequence_matches (ae + 1) e mid out ->
      sequence_matches s e pos out
with atom_matches : nat -> nat -> nat -> nat -> Prop :=
  | atom_begin s ae : is_ "^" (at_ p s) = true -> atom_matches s ae 0 0
  | atom_finish s ae :
      is_ "$" (at_ p s) = true -> atom_matches s ae (text_len text) (text_len text)
  | atom_group s ae ge pos out :
      is_ "(" (at_ p s) = true -> find_group_end p s ae = Some ge ->
      expr_matches (s + 1) ge pos out -> atom_matches s ae pos out
  | atom_char s ae pos :
      is_ "^" (at_ p s) = false -> is_ "$" (at_ p s) = false -> is_ "(" (at_ p s) = false ->
      (pos < text_len text)%nat -> char_matches p text s ae pos = true ->
      atom_matches s ae pos (pos + 1).

End Semantics.

Definition demo_match (pattern text : string) : option (option (nat * nat)) :=
  re_match (c_str pattern) (c_str text) (fun _ => true).

Example re_match_class : demo_match "[a-c]+x*" "zzabcx!" = Some (Some (2, 4)%nat).
Proof. by vm_compute. Qed.
Example re_match_group : demo_match "(ab|c)+d" "xabcabd" = Some (Some (1, 6)%nat).
Proof. by vm_compute. Qed.
Example re_match_bad : demo_match "a(b" "ab" = Some None.
Proof. by vm_compute. Qed.
Example re_match_digits : demo_match "^[^0-9]*\d\d?" "ab12" = Some (Some (0, 3)%nat).
Proof. by vm_compute. Qed.
