(* ===== verification/RegexProofs.v ===== *)
(** Properties of the regular expression engine of [Regex]: the scans stay in
    their range, every match terminates within the fuel of the model, and what
    the matcher answers agrees with a declarative semantics of patterns. *)

From S2P Require Import Prelude CString Regex.
From Stdlib Require Import Ascii.
Open Scope nat_scope.

Section Bounds.
Context (p : list Z).

Lemma class_loop_bounds fuel i e r : class_loop p fuel i e = Some r -> i <= r < e.
Proof.
  revert i. induction fuel as [|fuel IH]; intros i; simpl; [done|].
  repeat case_match; try done; intros Heq; bool_props;
    try (apply IH in Heq; lia). injection Heq as <-. lia.
Qed.

Lemma find_char_class_end_bounds s e r : find_char_class_end p s e = Some r -> s < r < e.
Proof. intros H%class_loop_bounds. case_match; lia. Qed.

Lemma group_loop_bounds fuel d i e r : group_loop p fuel d i e = Some r -> i <= r < e.
Proof.
  revert d i. induction fuel as [|fuel IH]; intros d i; simpl; [done|].
  repeat case_match; try done; intros Heq; bool_props;
    repeat match goal with
    | H : find_char_class_end _ _ _ = Some _ |- _ => apply find_char_class_end_bounds in H
    end;
    try (apply IH in Heq; lia). injection Heq as <-. lia.
Qed.

Lemma find_group_end_bounds s e r : find_group_end p s e = Some r -> s < r < e.
Proof. intros H%group_loop_bounds. lia. Qed.

Lemma branch_loop_bounds fuel d i e r :
  branch_loop p fuel d i e = Some r -> i <= e -> i <= r <= e.
Proof.
  revert d i. induction fuel as [|fuel IH]; intros d i; simpl; [intros [= <-]; lia|].
  repeat case_match; try done; intros Heq Hi; bool_props;
    repeat match goal with
    | H : find_char_class_end _ _ _ = Some _ |- _ => apply find_char_class_end_bounds in H
    end;
    try (apply IH in Heq; lia); injection Heq as <-; lia.
Qed.

Lemma find_branch_end_bounds s e r :
  find_branch_end p s e = Some r -> s <= e -> s <= r <= e.
Proof. apply branch_loop_bounds. Qed.

Lemma atom_end_at_bounds n s e r : atom_end_at p n s e = Some (Some r) -> s < r <= e.
Proof.
  destruct n as [|n]; simpl; [done|].
  repeat case_match; try done; intros [= <-]; bool_props;
    repeat match goal with
    | H : find_char_class_end _ _ _ = Some _ |- _ => apply find_char_class_end_bounds in H
    | H : find_group_end _ _ _ = Some _ |- _ => apply find_group_end_bounds in H
    end; lia.
Qed.

(** Twice the width of the range is fuel enough for the three validators. *)
Lemma validate_terminates n :
  (forall bs e, 2 * (e - bs) + 2 <= n -> is_Some (validate_expr p n bs e)) /\
  (forall i e, 2 * (e - i) + 1 <= n -> is_Some (validate_sequence p n i e)) /\
  (forall s e, 2 * (e - s) <= n -> 1 <= n -> is_Some (atom_end_at p n s e)).
Proof.
  induction n as [|n (IHe & IHs & IHa)]; [split_and!; intros; lia|].
  split_and!.
  - intros bs e Hn. simpl. destruct (bs <=? e) eqn:C; [|by eauto]. bool_props.
    destruct (find_branch_end p bs e) as [be|] eqn:B; [|by eauto].
    apply find_branch_end_bounds in B; [|done].
    destruct (IHs bs be) as [[] ->]; [lia| |by eauto].
    destruct (be =? e) eqn:D; [by eauto|]. bool_props. apply IHe. lia.
  - intros i e Hn. simpl. destruct (i <? e) eqn:C; [|by eauto]. bool_props.
    destruct (IHa i e) as [[ae|] E]; [lia..| |rewrite E; by eauto]. rewrite E.
    apply atom_end_at_bounds in E.
    destruct (_ && _); [destruct (_ || _); [by eauto|]|]; apply IHs; lia.
  - intros s e Hn _. simpl. destruct (e <=? s) eqn:C; [by eauto|]. bool_props.
    destruct (is_ "[" _); [case_match; [case_match|]; by eauto|].
    destruct (is_ "(" _).
    + destruct (find_group_end p s e) as [ge|] eqn:G; [|by eauto].
      apply find_group_end_bounds in G.
      destruct (IHe (s + 1) ge) as [[] ->]; [lia|by eauto..].
    + repeat case_match; by eauto.
Qed.

Lemma atom_end_bounds s e ae : atom_end p s e = Some ae -> s < ae <= e.
Proof.
  unfold atom_end. destruct (atom_end_at _ _ _ _) as [[r|]|] eqn:E; try done.
  intros [= ->]. by apply atom_end_at_bounds in E.
Qed.
End Bounds.

(** ** Termination of the matcher *)

Section Termination.
Context (p text : list Z) (malloc_ok : nat -> bool).

Lemma repeat_positions_is_Some step cap cur l :
  (forall pos, is_Some (step pos)) -> is_Some (repeat_positions step cap cur l).
Proof.
  intros Hs. revert cur l. induction cap as [|cap IH]; intros cur l; simpl; [by eauto|].
  destruct (Hs cur) as [[next|] ->]; [|by eauto]. case_match; [by eauto|]. apply IH.
Qed.

Lemma try_positions_is_Some rest l :
  (forall pos, is_Some (rest pos)) -> is_Some (try_positions rest l).
Proof.
  intros Hr. induction l as [|pos l IH]; simpl; [by eauto|].
  destruct (Hr pos) as [[r|] ->]; [by eauto|done].
Qed.

Lemma match_terminates n :
  (forall bs e pos, 2 * (e - bs) + 3 <= n -> is_Some (match_expr p text malloc_ok n bs e pos)) /\
  (forall s e pos, 2 * (e - s) + 2 <= n -> is_Some (match_sequence p text malloc_ok n s e pos)) /\
  (forall s ae pos, 2 * (ae - s) + 1 <= n -> is_Some (match_atom_once p text malloc_ok n s ae pos)).
Proof.
  induction n as [|n (IHe & IHs & IHa)]; [split_and!; intros; lia|].
  split_and!.
  - intros bs e pos Hn. simpl. destruct (bs <=? e) eqn:C; [|by eauto]. bool_props.
    destruct (find_branch_end p bs e) as [be|] eqn:B; [|by eauto].
    apply find_branch_end_bounds in B; [|done].
    destruct (IHs bs be pos) as [[r|] ->]; [lia|by eauto|].
    destruct (be =? e) eqn:D; [by eauto|]. bool_props. apply IHe. lia.
  - intros s e pos Hn. simpl. destruct (e <=? s) eqn:C; [by eauto|]. bool_props.
    destruct (atom_end p s e) as [ae|] eqn:A; [|by eauto]. apply atom_end_bounds in A.
    assert (forall pos, is_Some (match_atom_once p text malloc_ok n s ae pos)) as Ha
      by (intros; apply IHa; lia).
    assert (forall rs pos, ae <= rs -> is_Some (match_sequence p text malloc_ok n rs e pos)) as Hr
      by (intros; apply IHs; lia).
    destruct (is_ "?" _).
    { destruct (Hr (ae + 1) pos) as [[r|] ->]; [lia|by eauto|].
      destruct (Ha pos) as [[r|] ->]; [|by eauto]. apply Hr. lia. }
    destruct (_ || _).
    { destruct (malloc_ok _); [|by eauto].
      destruct (repeat_positions_is_Some (match_atom_once p text malloc_ok n s ae)
        (text_len text - pos) pos [pos] Ha) as [l ->].
      apply try_positions_is_Some. intros. apply Hr. lia. }
    destruct (Ha pos) as [[r|] ->]; [|by eauto]. apply Hr. lia.
  - intros s ae pos Hn. simpl. repeat (case_match; try by eauto).
    match goal with H : find_group_end _ _ _ = Some _ |- _ =>
      apply find_group_end_bounds in H end.
    apply IHe. lia.
Qed.

Lemma search_terminates k idx : is_Some (search p text malloc_ok k idx).
Proof.
  revert idx. induction k as [|k IH]; intros idx; simpl; [by eauto|].
  destruct (proj1 (match_terminates (match_fuel 0 (length p))) 0 (length p) idx) as [[r|] ->];
    [unfold match_fuel; lia| |].
  - case_match; by eauto.
  - case_match; by eauto.
Qed.
End Termination.

(** ** Soundness *)

Section Soundness.
Context (p text : list Z) (malloc_ok : nat -> bool).

Lemma repeat_positions_rtc step (R : nat -> nat -> Prop) start cap cur l ps :
  (forall a b, step a = Some (Some b) -> R a b) -> rtc R start cur -> l <> [] ->
  (forall q, q ∈ l -> rtc R start q) -> (forall q, q ∈ removelast l -> tc R start q) ->
  hd_error l = Some cur ->
  repeat_positions step cap cur l = Some ps ->
  (forall q, q ∈ ps -> rtc R start q) /\ (forall q, q ∈ removelast ps -> tc R start q).
Proof.
  intros HR. revert cur l. induction cap as [|cap IH]; intros cur l Hcur Hl H1 H2 Hhd; simpl.
  - intros [= <-]. by split.
  - destruct (step cur) as [[next|]|] eqn:E; [|intros [= <-]; by split|done].
    destruct (next =? cur) eqn:N; [intros [= <-]; by split|].
    apply HR in E. intros Hr.
    assert (tc R start next) as Ht by (by eapply tc_rtc_l; [exact Hcur|apply tc_once]).
    eapply IH; [| | | | |exact Hr]; [by apply tc_rtc|done| | |done].
    + intros q [->|]%elem_of_cons; [by apply tc_rtc|by apply H1].
    + destruct l as [|x l]; [done|]. intros q. change (removelast (next :: x :: l)) with
        (next :: removelast (x :: l)). intros [->|]%elem_of_cons; [done|by apply H2].
Qed.

Lemma try_positions_Some rest l out :
  try_positions rest l = Some (Some out) -> exists pos, pos ∈ l /\ rest pos = Some (Some out).
Proof.
  induction l as [|pos l IH]; simpl; [done|].
  destruct (rest pos) as [[r|]|] eqn:E; [|intros (q & ? & ?)%IH|done].
  - intros [= ->]. exists pos. split; [by left|done].
  - exists q. split; [by right|done].
Qed.

Lemma match_sound n :
  (forall bs e pos out, match_expr p text malloc_ok n bs e pos = Some (Some out) ->
    expr_matches p text bs e pos out) /\
  (forall s e pos out, match_sequence p text malloc_ok n s e pos = Some (Some out) ->
    sequence_matches p text s e pos out) /\
  (forall s ae pos out, match_atom_once p text malloc_ok n s ae pos = Some (Some out) ->
    atom_matches p text s ae pos out).
Proof.
  induction n as [|n (IHe & IHs & IHa)]; [split_and!; done|]. split_and!.
  - intros bs e pos out. simpl. destruct (bs <=? e) eqn:C; [|done]. bool_props.
    destruct (find_branch_end p bs e) as [be|] eqn:B; [|done].
    destruct (match_sequence _ _ _ n bs be pos) as [[r|]|] eqn:M; [| |done].
    + intros [= ->]. eapply expr_first; eauto.
    + destruct (be =? e) eqn:D; [done|]. bool_props. intros. eapply expr_later; eauto.
  - intros s e pos out. simpl. destruct (e <=? s) eqn:C; bool_props.
    { intros [= <-]. by apply sequence_empty. }
    destruct (atom_end p s e) as [ae|] eqn:A; [|done]. fold (quantifier_at p ae e).
    destruct (is_ "?" (quantifier_at p ae e)) eqn:Q.
    { destruct (match_sequence _ _ _ n (ae + 1) e pos) as [[r|]|] eqn:M; [| |done].
      - intros [= ->]. eapply sequence_optional; eauto.
      - destruct (match_atom_once _ _ _ n s ae pos) as [[mid|]|] eqn:M'; try done.
        intros. eapply sequence_optional; eauto. }
    destruct (is_ "*" _ || is_ "+" _) eqn:Q'.
    { destruct (malloc_ok _); [|done].
      destruct (repeat_positions _ _ _ _) as [ps|] eqn:R; [|done].
      eapply repeat_positions_rtc with (R := atom_matches p text s ae) (start := pos) in R
        as [R1 R2]; [|eauto|done|done| |by intros q ?%elem_of_nil|done].
      2: { by intros q ->%list_elem_of_singleton. }
      intros (q & Hq & M)%try_positions_Some. apply IHs in M.
      destruct (is_ "+" _) eqn:P.
      - eapply sequence_plus; eauto.
      - rewrite orb_false_r in Q'. eapply sequence_star; eauto. }
    destruct (match_atom_once _ _ _ n s ae pos) as [[mid|]|] eqn:M'; try done.
    intros. bool_props. eapply sequence_once; eauto.
    unfold isquantifier. by rewrite H0, H1, Q.
  - intros s ae pos out. simpl. destruct (is_ "^" _) eqn:C1.
    { destruct (pos =? 0) eqn:P; [|done]. bool_props. intros [= <-]. subst. by apply atom_begin. }
    destruct (is_ "$" _) eqn:C2.
    { destruct (pos =? _) eqn:P; [|done]. bool_props. intros [= <-]. subst. by apply atom_finish. }
    destruct (is_ "(" _) eqn:C3.
    { destruct (find_group_end p s ae) as [ge|] eqn:G; [|done].
      intros. eapply atom_group; eauto. }
    destruct (_ <=? pos) eqn:C4; [done|]. bool_props.
    destruct (char_matches _ _ _ _ _) eqn:C5; [|done]. intros [= <-]. by apply atom_char.
Qed.
End Soundness.

(** ** A match stays inside the text *)

Section Inside.
Context (p text : list Z) (malloc_ok : nat -> bool).

Definition inside (pos out : nat) : Prop := pos <= out <= text_len text.

Lemma repeat_positions_inside step cap cur l ps start :
  (forall a b, a <= text_len text -> step a = Some (Some b) -> inside a b) ->
  inside start cur -> (forall q, q ∈ l -> inside start q) ->
  repeat_positions step cap cur l = Some ps -> forall q, q ∈ ps -> inside start q.
Proof.
  intros HR. revert cur l. induction cap as [|cap IH]; intros cur l Hc Hl; simpl.
  - by intros [= <-].
  - destruct (step cur) as [[next|]|] eqn:E; [|by intros [= <-]|done].
    destruct (next =? cur); [by intros [= <-]|].
    apply HR in E; [|apply Hc].
    assert (inside start next) by (unfold inside in *; lia).
    apply IH; [done|]. intros q [->|]%elem_of_cons; [done|by apply Hl].
Qed.

Lemma removelast_subseteq {A} (l : list A) x : x ∈ removelast l -> x ∈ l.
Proof.
  induction l as [|y [|z l] IH]; [done|by intros ?%elem_of_nil|].
  change (removelast (y :: z :: l)) with (y :: removelast (z :: l)).
  intros [->|]%elem_of_cons; [by left|right; by apply IH].
Qed.

Lemma match_inside n :
  (forall bs e pos out, pos <= text_len text ->
    match_expr p text malloc_ok n bs e pos = Some (Some out) -> inside pos out) /\
  (forall s e pos out, pos <= text_len text ->
    match_sequence p text malloc_ok n s e pos = Some (Some out) -> inside pos out) /\
  (forall s ae pos out, pos <= text_len text ->
    match_atom_once p text malloc_ok n s ae pos = Some (Some out) -> inside pos out).
Proof.
  induction n as [|n (IHe & IHs & IHa)]; [split_and!; done|].
  assert (forall rs e a b out, inside a b ->
    match_sequence p text malloc_ok n rs e b = Some (Some out) -> inside a out) as Hseq.
  { intros rs e a b out Hab M. apply IHs in M; unfold inside in *; lia. }
  split_and!.
  - intros bs e pos out Hp. simpl. destruct (bs <=? e); [|done].
    destruct (find_branch_end p bs e) as [be|]; [|done].
    destruct (match_sequence _ _ _ n bs be pos) as [[r|]|] eqn:M; [|case_match; [done|]|done].
    + intros [= ->]. by apply IHs in M.
    + by apply IHe.
  - intros s e pos out Hp. simpl. destruct (e <=? s).
    { intros [= <-]. unfold inside. lia. }
    destruct (atom_end p s e) as [ae|]; [|done].
    assert (forall r rs, (match r with
      | Some (Some next) => match_sequence p text malloc_ok n rs e next
      | r => r end) = Some (Some out) -> r = match_atom_once p text malloc_ok n s ae pos ->
      inside pos out) as Hthen.
    { intros r rs M ->. destruct (match_atom_once _ _ _ _ _ _ _) as [[mid|]|] eqn:M'; try done.
      apply IHa in M'; [|done]. by eapply Hseq. }
    destruct (is_ "?" _).
    { destruct (match_sequence _ _ _ n (ae + 1) e pos) as [[r|]|] eqn:M; [| |done].
      - intros [= ->]. by apply IHs in M.
      - intros M'. by eapply Hthen. }
    destruct (_ || _).
    { destruct (malloc_ok _); [|done].
      destruct (repeat_positions _ _ _ _) as [ps|] eqn:R; [|done].
      intros (q & Hq & M)%try_positions_Some. eapply Hseq; [|exact M].
      eapply repeat_positions_inside; [| | |exact R|].
      - intros a b Ha. by apply IHa.
      - unfold inside; lia.
      - intros ? ->%list_elem_of_singleton. unfold inside; lia.
      - case_match; [by apply removelast_subseteq|done]. }
    intros M. by eapply Hthen.
  - intros s ae pos out Hp. simpl. unfold inside.
    repeat (case_match; try done); try (intros [= <-]; bool_props; lia). by apply IHe.
Qed.
End Inside.

(** ** Completeness on patterns without groups *)

Section Complete.
Context (p text : list Z) (malloc_ok : nat -> bool).
Context (Hgroupless : forall i, is_ "(" (at_ p i) = false).
Context (Hmalloc : forall n, malloc_ok n = true).


Definition valid_expr (bs e : nat) : Prop := exists n, validate_expr p n bs e = Some true.












End Complete.

(** ** The search *)

Definition anchored (p : list Z) : bool := is_ "^" (at_ p 0).


Lemma search_sound p text malloc_ok k idx i l :
  search p text malloc_ok k idx = Some (Some (i, l)) -> idx + k <= text_len text + 1 ->
  idx <= i < text_len text /\ i + l <= text_len text /\
  expr_matches p text 0 (length p) i (i + l) /\ (anchored p = true -> i = idx).
Proof.
  revert idx. induction k as [|k IH]; intros idx; simpl; [done|]. intros H Hk.
  destruct (match_expr _ _ _ _ _ _ idx) as [[out|]|] eqn:M; [| |done].
  - destruct (idx =? text_len text) eqn:C; [done|]. injection H as <- <-. bool_props.
    assert (inside text idx out) as Hin by (eapply (proj1 (match_inside _ _ _ _)); [|exact M]; lia).
    apply match_sound in M. unfold inside in Hin.
    replace (idx + (out - idx)) with out by lia. split_and!; [lia..|done|done].
  - fold (anchored p) in H. destruct (anchored p); [done|].
    apply IH in H as (? & ? & ? & _); [|lia]. split_and!; [lia..|done|done].
Qed.


Lemma re_compile_Some p q : re_compile p = Some q -> q = p /\ valid_expr p 0 (length p).
Proof.
  unfold re_compile. case_match; [done|]. case_match; [|done]. case_match; [|done].
  intros [= <-]. split; [done|]. by eexists.
Qed.

(** Compiling and matching terminate for every pattern and text: the fuel of
    the model, linear in the length of the pattern, is never exhausted. *)
Theorem re_match_terminates pattern text malloc_ok :
  is_Some (validate_expr pattern (validate_fuel 0 (length pattern)) 0 (length pattern)) /\
  is_Some (re_match pattern text malloc_ok).
Proof.
  split.
  - apply validate_terminates. unfold validate_fuel. lia.
  - unfold re_match. destruct (re_compile pattern) as [q|]; [|by eauto]. apply search_terminates.
Qed.

(** A reported match is one: whatever the allocator does, the index and the
    length that [re_match] answers delimit a part of the text that the pattern
    matches in the declarative sense, start before the end of the text, and a
    pattern that begins with a caret only matches at index 0. *)
Theorem re_match_sound pattern text malloc_ok i l :
  re_match pattern text malloc_ok = Some (Some (i, l)) ->
  i < text_len text /\ i + l <= text_len text /\
  expr_matches pattern text 0 (length pattern) i (i + l) /\
  (anchored pattern = true -> i = 0).
Proof.
  unfold re_match. destruct (re_compile pattern) as [q|] eqn:C; [|done].
  apply re_compile_Some in C as [-> _]. intros (? & ? & ? & ?)%search_sound; [|lia].
  split_and!; [lia|done..].
Qed.

Lemma re_match_sound_witness :
  5 < text_len (c_str "vol: 12.5k") /\ 5 + 4 <= text_len (c_str "vol: 12.5k") /\
  expr_matches (c_str "\d+\.(\d)+") (c_str "vol: 12.5k") 0 (length (c_str "\d+\.(\d)+")) 5 (5 + 4) /\
  (anchored (c_str "\d+\.(\d)+") = true -> 5 = 0).
Proof. apply (re_match_sound _ _ (fun _ => true)). by vm_compute. Defined.




(** A group is not backtracked into: it matches with the first alternative
    that fits and the match fails when the rest of the pattern needs another
    one, so [(a|ab)c] is not found in [abc] although it matches there. *)
Theorem re_match_group_incomplete :
  expr_matches (c_str "(a|ab)c") (c_str "abc") 0 (length (c_str "(a|ab)c")) 0 3 /\
  forall malloc_ok, re_match (c_str "(a|ab)c") (c_str "abc") malloc_ok = Some None.
Proof.
  split; [|by vm_compute].
  eapply expr_first; [simpl; lia|by vm_compute|].
  eapply sequence_once with (mid := 2); [simpl; lia|by vm_compute..| |].
  - eapply atom_group; [by vm_compute..|].
    eapply expr_later; [simpl; lia|by vm_compute|done|].
    eapply expr_first; [simpl; lia|by vm_compute|].
    eapply sequence_once with (mid := 1); [simpl; lia|by vm_compute..| |].
    { apply (atom_char _ _ _ _ 0); [by vm_compute..|vm_compute; lia|by vm_compute]. }
    eapply sequence_once with (mid := 2); [simpl; lia|by vm_compute..| |by apply sequence_empty].
    apply (atom_char _ _ _ _ 1); [by vm_compute..|vm_compute; lia|by vm_compute].
  - eapply sequence_once with (mid := 3); [simpl; lia|by vm_compute..| |by apply sequence_empty].
    apply (atom_char _ _ _ _ 2); [by vm_compute..|vm_compute; lia|by vm_compute].
Qed.

(** The search stops after index 0 when the pattern begins with a caret, also
    when the caret only belongs to the first alternative. *)
Example anchored_first_alternative : demo_match "^a|b" "xb" = Some None.
Proof. by vm_compute. Qed.

(** A repeated atom that matches the empty text does not count as a repetition. *)
Example empty_repetition : demo_match "(^)+a" "a" = Some None.
Proof. by vm_compute. Qed.
