(* ===== verification/HostStatus.v ===== *)
(** The vocabulary of the host API ([turbo_script/include/turbo_script.h]): the
    statuses, error phases and error codes, string views, and the numbers the ABI
    gives them. *)

From S2P Require Import Prelude.
From Stdlib Require Import Ascii.
Open Scope Z_scope.

(** ** Statuses, phases and error codes *)

Inductive status :=
  | STATUS_OK | STATUS_INVALID_ARGUMENT | STATUS_OUT_OF_MEMORY | STATUS_WRONG_THREAD
  | STATUS_INVALID_STATE | STATUS_CONTEXT_MISMATCH | STATUS_PARSE_ERROR
  | STATUS_VALIDATION_ERROR | STATUS_LIMIT_EXCEEDED | STATUS_INVALID_UTF8
  | STATUS_DUPLICATE_RECORD_KEY | STATUS_NOT_FOUND | STATUS_INVALID_EXPORT_HANDLE
  | STATUS_UNSUPPORTED_BACKEND_SEMANTIC | STATUS_RUNTIME_ERROR | STATUS_HOST_ERROR
  | STATUS_REENTRANT_CALL | STATUS_INTERRUPTED.

Inductive error_phase :=
  | PHASE_NONE | PHASE_COMPILE | PHASE_INSTANTIATE | PHASE_RESOLVE | PHASE_CALL
  | PHASE_HOST_CALLBACK | PHASE_INTERRUPT.

Inductive error_code :=
  | ERROR_NONE | ERROR_ARGUMENT | ERROR_PARSE | ERROR_VALIDATE | ERROR_RUNTIME | ERROR_IO
  | ERROR_PLUGIN | ERROR_JIT | ERROR_OOM | ERROR_STATE | ERROR_CANCELLED.

#[export] Instance status_eq_dec : EqDecision status.
Proof. solve_decision. Defined.
#[export] Instance error_phase_eq_dec : EqDecision error_phase.
Proof. solve_decision. Defined.
#[export] Instance error_code_eq_dec : EqDecision error_code.
Proof. solve_decision. Defined.

(** The numbers of the ABI. *)
Definition status_number (s : status) : Z :=
  match s with
  | STATUS_OK => 0 | STATUS_INVALID_ARGUMENT => 1 | STATUS_OUT_OF_MEMORY => 2
  | STATUS_WRONG_THREAD => 3 | STATUS_INVALID_STATE => 4 | STATUS_CONTEXT_MISMATCH => 5
  | STATUS_PARSE_ERROR => 6 | STATUS_VALIDATION_ERROR => 7 | STATUS_LIMIT_EXCEEDED => 8
  | STATUS_INVALID_UTF8 => 9 | STATUS_DUPLICATE_RECORD_KEY => 10 | STATUS_NOT_FOUND => 11
  | STATUS_INVALID_EXPORT_HANDLE => 12 | STATUS_UNSUPPORTED_BACKEND_SEMANTIC => 13
  | STATUS_RUNTIME_ERROR => 14 | STATUS_HOST_ERROR => 15 | STATUS_REENTRANT_CALL => 16
  | STATUS_INTERRUPTED => 17
  end.

Definition phase_number (p : error_phase) : Z :=
  match p with
  | PHASE_NONE => 0 | PHASE_COMPILE => 1 | PHASE_INSTANTIATE => 2 | PHASE_RESOLVE => 3
  | PHASE_CALL => 4 | PHASE_HOST_CALLBACK => 5 | PHASE_INTERRUPT => 6
  end.

Definition ok (s : status) : bool := bool_decide (s = STATUS_OK).

Lemma ok_true s : ok s = true <-> s = STATUS_OK.
Proof. unfold ok. by rewrite bool_decide_eq_true. Qed.

Lemma ok_false s : ok s = false <-> s <> STATUS_OK.
Proof. unfold ok. by rewrite bool_decide_eq_false. Qed.

(** ** Text

    [turbo_script_string_view_t] and [vstr]: [size] bytes, or a NULL pointer with
    a size. *)

Inductive text :=
  | NoData (size : Z)
  | Text (data : string).

#[export] Instance text_eq_dec : EqDecision text.
Proof. solve_decision. Defined.

Definition str_size (s : string) : Z := Z.of_nat (String.length s).

Definition text_size (t : text) : Z :=
  match t with NoData n => n | Text s => str_size s end.

(** [data == NULL && size != 0] *)
Definition text_dangling (t : text) : bool :=
  match t with NoData n => negb (n =? 0) | Text _ => false end.

(** The bytes of a view that is not dangling. *)
Definition text_bytes (t : text) : string :=
  match t with NoData _ => "" | Text s => s end.

Definition NUL : ascii := zero.

(** [memchr(data, 0, size) != NULL] *)
Fixpoint has_nul (s : string) : bool :=
  match s with
  | EmptyString => false
  | String a s' => bool_decide (a = NUL) || has_nul s'
  end.

(** The C string at the start of a buffer. *)
Fixpoint cut_nul (s : string) : string :=
  match s with
  | EmptyString => EmptyString
  | String a s' => if decide (a = NUL) then EmptyString else String a (cut_nul s')
  end.

Lemma cut_nul_id s : has_nul s = false -> cut_nul s = s.
Proof.
  induction s as [|a s IH]; simpl; [done|].
  intros [Ha Hs]%orb_false_elim. apply bool_decide_eq_false in Ha.
  rewrite decide_False by done. by rewrite IH.
Qed.

Lemma cut_nul_no_nul s : has_nul (cut_nul s) = false.
Proof.
  induction s as [|a s IH]; simpl; [done|].
  destruct (decide (a = NUL)); simpl; [done|]. by rewrite bool_decide_eq_false_2.
Qed.

Lemma str_size_nonneg s : 0 <= str_size s.
Proof. unfold str_size. lia. Qed.

#[export] Hint Resolve str_size_nonneg : turbo.
