(* ===== verification/HostLimits.v ===== *)
(** Call budgets of the host API: [turbo_script/src/host/turbo_script_host_limits.c].

    Every interpreter step, loop iteration, host callback and function frame of a
    host call passes a safe point that charges the budget of the call.  A
    [uint32_t] or [size_t] is the [Z] it holds.  The interrupt callback of the
    embedder is not part of the program: its answers to the polls to come are a
    list, an exhausted list standing for "do not interrupt".  The budget that a
    context points to is stored in the context; a budget has an identity, since
    [detach] compares pointers. *)

From S2P Require Import Prelude HostStatus.
Open Scope Z_scope.

(** ** Data *)

Definition TS_HOST_HARD_STEP_LIMIT : Z := 100000.
Definition TS_HOST_HARD_LOOP_LIMIT : Z := 10000.
Definition TS_HOST_HARD_CALLBACK_LIMIT : Z := 1024.
Definition TS_HOST_HARD_RECURSION_LIMIT : Z := 100.
Definition TS_HOST_INTERRUPT_STEP_INTERVAL : Z := 256.

Record call_budget := Budget {
  steps_left : Z;
  loops_left : Z;
  callbacks_left : Z;
  recursion_left : Z;
  recursion_limit : Z;
  interrupt_step_accumulator : Z;
  stack_bytes_left : Z;
  stack_bytes_limit : Z;
  result_bytes_left : Z;
  retained_bytes_limit : Z;
  interrupt : option (list bool);      (* the answers to come; None: no callback *)
  failure_status : status;
  failure_phase : error_phase;
  failure_message : option string
}.

Record instance_limits := InstanceLimits {
  lim_max_recursion : Z;
  lim_max_stack_bytes : Z;
  lim_max_result_bytes : Z;
  lim_max_retained_bytes : Z
}.

Record call_options := CallOptions {
  opt_max_recursion : Z;
  opt_max_steps : Z;
  opt_max_loop_iterations : Z;
  opt_max_host_callbacks : Z;
  opt_max_result_bytes : Z;
  opt_interrupt : option (list bool)
}.

Inductive safe_point_kind :=
  | SP_STEP | SP_LOOP | SP_CALLBACK_BEFORE | SP_CALLBACK_AFTER
  | SP_FUNCTION_ENTER | SP_FUNCTION_LEAVE | SP_RETAINED_BYTES | SP_INVALID.

(** What the safe points use of [turbo_script_ctx_t]; [hooked] says that
    [env.safe_point] is [ts_host_exprtk_safe_point] on this context, [other_hook]
    that it is another function or has user data. *)
Record runtime_ctx := Ctx {
  active_host_budget : option (nat * call_budget);
  hooked : bool;
  other_hook : bool;
  aborted : bool;
  ctx_error_code : error_code;
  env_error_msg : string;
  ctx_error_msg : string
}.

(** ** Updates *)

Definition set_steps (n : Z) (b : call_budget) : call_budget :=
  Budget n (loops_left b) (callbacks_left b) (recursion_left b) (recursion_limit b)
    (interrupt_step_accumulator b) (stack_bytes_left b) (stack_bytes_limit b)
    (result_bytes_left b) (retained_bytes_limit b) (interrupt b) (failure_status b)
    (failure_phase b) (failure_message b).
Definition set_loops (n : Z) (b : call_budget) : call_budget :=
  Budget (steps_left b) n (callbacks_left b) (recursion_left b) (recursion_limit b)
    (interrupt_step_accumulator b) (stack_bytes_left b) (stack_bytes_limit b)
    (result_bytes_left b) (retained_bytes_limit b) (interrupt b) (failure_status b)
    (failure_phase b) (failure_message b).
Definition set_callbacks (n : Z) (b : call_budget) : call_budget :=
  Budget (steps_left b) (loops_left b) n (recursion_left b) (recursion_limit b)
    (interrupt_step_accumulator b) (stack_bytes_left b) (stack_bytes_limit b)
    (result_bytes_left b) (retained_bytes_limit b) (interrupt b) (failure_status b)
    (failure_phase b) (failure_message b).
Definition set_frames (r s : Z) (b : call_budget) : call_budget :=
  Budget (steps_left b) (loops_left b) (callbacks_left b) r (recursion_limit b)
    (interrupt_step_accumulator b) s (stack_bytes_limit b)
    (result_bytes_left b) (retained_bytes_limit b) (interrupt b) (failure_status b)
    (failure_phase b) (failure_message b).
Definition set_accumulator (a : Z) (b : call_budget) : call_budget :=
  Budget (steps_left b) (loops_left b) (callbacks_left b) (recursion_left b) (recursion_limit b)
    a (stack_bytes_left b) (stack_bytes_limit b)
    (result_bytes_left b) (retained_bytes_limit b) (interrupt b) (failure_status b)
    (failure_phase b) (failure_message b).
Definition set_interrupt (i : option (list bool)) (b : call_budget) : call_budget :=
  Budget (steps_left b) (loops_left b) (callbacks_left b) (recursion_left b) (recursion_limit b)
    (interrupt_step_accumulator b) (stack_bytes_left b) (stack_bytes_limit b)
    (result_bytes_left b) (retained_bytes_limit b) i (failure_status b)
    (failure_phase b) (failure_message b).
Definition set_failure (s : status) (p : error_phase) (m : string) (b : call_budget) : call_budget :=
  Budget (steps_left b) (loops_left b) (callbacks_left b) (recursion_left b) (recursion_limit b)
    (interrupt_step_accumulator b) (stack_bytes_left b) (stack_bytes_limit b)
    (result_bytes_left b) (retained_bytes_limit b) (interrupt b) s p (Some m).

(** ** Operations

    A charge answers whether it succeeded (the 0 of the code) and the budget. *)

Definition ts_host_budget_fail (b : call_budget) (s : status) (p : error_phase) (m : string)
    : bool * call_budget :=
  (false, if decide (failure_status b = STATUS_OK) then set_failure s p m b else b).

Definition ts_host_budget_poll_interrupt (b : call_budget) : bool * call_budget :=
  match interrupt b with
  | None => (true, b)
  | Some answers =>
      let b := set_interrupt (Some (tail answers)) b in
      if hd false answers
      then ts_host_budget_fail b STATUS_INTERRUPTED PHASE_INTERRUPT "call interrupted"
      else (true, b)
  end.

(** [ts_host_budget_charge_u32] on the counter that [remaining] reads and
    [store] writes. *)
Definition ts_host_budget_charge_u32 (b : call_budget) (remaining : call_budget -> Z)
    (store : Z -> call_budget -> call_budget) (cost : Z) (message : string) : bool * call_budget :=
  if (UINT32_MAX <? cost) || (remaining b <? cost)
  then ts_host_budget_fail b STATUS_LIMIT_EXCEEDED PHASE_CALL message
  else (true, store (remaining b - cost) b).

Definition ts_host_call_budget_init (limits : instance_limits) (options : call_options)
    : call_budget :=
  let recursion := Z.min (Z.min (opt_max_recursion options) (lim_max_recursion limits))
                         TS_HOST_HARD_RECURSION_LIMIT in
  {| steps_left := Z.min (opt_max_steps options) TS_HOST_HARD_STEP_LIMIT;
     loops_left := Z.min (opt_max_loop_iterations options) TS_HOST_HARD_LOOP_LIMIT;
     callbacks_left := Z.min (opt_max_host_callbacks options) TS_HOST_HARD_CALLBACK_LIMIT;
     recursion_left := recursion;
     recursion_limit := recursion;
     interrupt_step_accumulator := 0;
     stack_bytes_left := lim_max_stack_bytes limits;
     stack_bytes_limit := lim_max_stack_bytes limits;
     result_bytes_left := Z.min (opt_max_result_bytes options) (lim_max_result_bytes limits);
     retained_bytes_limit := lim_max_retained_bytes limits;
     interrupt := opt_interrupt options;
     failure_status := STATUS_OK;
     failure_phase := PHASE_NONE;
     failure_message := None |}.

Definition set_budget (active : option (nat * call_budget)) (hook : bool) (c : runtime_ctx)
    : runtime_ctx :=
  Ctx active hook (other_hook c) (aborted c) (ctx_error_code c) (env_error_msg c)
    (ctx_error_msg c).

Definition ts_host_call_budget_attach (c : runtime_ctx) (id : nat) (b : call_budget)
    : status * runtime_ctx :=
  match active_host_budget c with
  | None =>
      if hooked c || other_hook c then (STATUS_INVALID_STATE, c)
      else (STATUS_OK, set_budget (Some (id, b)) true c)
  | Some _ => (STATUS_INVALID_STATE, c)
  end.

(** Detaching sets [env.safe_point] and its user data to NULL. *)
Definition ts_host_call_budget_detach (c : runtime_ctx) (id : nat) : runtime_ctx :=
  match active_host_budget c with
  | Some (id', _) =>
      if (id' =? id)%nat
      then Ctx None false false (aborted c) (ctx_error_code c) (env_error_msg c) (ctx_error_msg c)
      else c
  | None => c
  end.

(** The [switch] of [ts_host_safe_point]. *)
Definition charge (b : call_budget) (kind : safe_point_kind) (cost : Z) : bool * call_budget :=
  match kind with
  | SP_STEP =>
      match ts_host_budget_charge_u32 b steps_left set_steps cost "call step quota exceeded" with
      | (true, b) =>
          let increment := if UINT32_MAX <? cost then UINT32_MAX else cost in
          let acc := if UINT32_MAX - increment <? interrupt_step_accumulator b
                     then TS_HOST_INTERRUPT_STEP_INTERVAL
                     else interrupt_step_accumulator b + increment in
          if TS_HOST_INTERRUPT_STEP_INTERVAL <=? acc
          then ts_host_budget_poll_interrupt (set_accumulator 0 b)
          else (true, set_accumulator acc b)
      | r => r
      end
  | SP_LOOP =>
      match ts_host_budget_charge_u32 b loops_left set_loops cost "call loop quota exceeded" with
      | (true, b) => ts_host_budget_poll_interrupt b
      | r => r
      end
  | SP_CALLBACK_BEFORE =>
      match ts_host_budget_charge_u32 b callbacks_left set_callbacks cost
              "call callback quota exceeded" with
      | (true, b) => ts_host_budget_poll_interrupt b
      | r => r
      end
  | SP_CALLBACK_AFTER => ts_host_budget_poll_interrupt b
  | SP_FUNCTION_ENTER =>
      if recursion_left b =? 0 then
        ts_host_budget_fail b STATUS_LIMIT_EXCEEDED PHASE_CALL "call recursion quota exceeded"
      else if stack_bytes_left b <? cost then
        ts_host_budget_fail b STATUS_LIMIT_EXCEEDED PHASE_CALL "call stack quota exceeded"
      else
        ts_host_budget_poll_interrupt
          (set_frames (recursion_left b - 1) (stack_bytes_left b - cost) b)
  | SP_FUNCTION_LEAVE =>
      if (stack_bytes_limit b <? cost) || (recursion_limit b <=? recursion_left b)
         || (stack_bytes_limit b - cost <? stack_bytes_left b)
      then ts_host_budget_fail b STATUS_INVALID_STATE PHASE_CALL
             "call frame accounting is inconsistent"
      else (true, set_frames (recursion_left b + 1) (stack_bytes_left b + cost) b)
  | SP_RETAINED_BYTES =>
      if retained_bytes_limit b <? cost
      then ts_host_budget_fail b STATUS_LIMIT_EXCEEDED PHASE_CALL
             "call retained memory quota exceeded"
      else (true, b)
  | SP_INVALID =>
      ts_host_budget_fail b STATUS_INVALID_STATE PHASE_CALL "invalid call safe point"
  end.

Definition ts_host_call_budget_status (b : option call_budget) : status :=
  match b with Some b => failure_status b | None => STATUS_INVALID_ARGUMENT end.
Definition ts_host_call_budget_phase (b : option call_budget) : error_phase :=
  match b with Some b => failure_phase b | None => PHASE_NONE end.
Definition ts_host_call_budget_message (b : option call_budget) : string :=
  default "call budget failed" (b ≫= failure_message).

Definition ts_host_safe_point (c : runtime_ctx) (kind : safe_point_kind) (cost : Z)
    : bool * runtime_ctx :=
  match active_host_budget c with
  | None => (true, c)
  | Some (id, b) =>
      if decide (failure_status b = STATUS_OK) then
        match charge b kind cost with
        | (true, b) => (true, set_budget (Some (id, b)) (hooked c) c)
        | (false, b) =>
            let message := ts_host_call_budget_message (Some b) in
            (false, {| active_host_budget := Some (id, b); hooked := hooked c;
                       other_hook := other_hook c; aborted := true;
                       ctx_error_code :=
                         if decide (failure_status b = STATUS_INTERRUPTED)
                         then ERROR_CANCELLED else ERROR_RUNTIME;
                       env_error_msg := message; ctx_error_msg := message |})
        end
      else (false, c)
  end.

(** ** A call as the sequence of its safe points *)

Definition event : Type := safe_point_kind * Z.

(** The safe points a call passes until one refuses. *)
Fixpoint run (c : runtime_ctx) (es : list event) : list event * runtime_ctx :=
  match es with
  | [] => ([], c)
  | (kind, cost) :: es =>
      match ts_host_safe_point c kind cost with
      | (true, c) => let (passed, c) := run c es in ((kind, cost) :: passed, c)
      | (false, c) => ([], c)
      end
  end.

Definition cost_of (kind : safe_point_kind) (e : event) : Z :=
  match kind, e with
  | SP_STEP, (SP_STEP, n) | SP_LOOP, (SP_LOOP, n)
  | SP_CALLBACK_BEFORE, (SP_CALLBACK_BEFORE, n) => n
  | _, _ => 0
  end.

Definition total (kind : safe_point_kind) (es : list event) : Z :=
  foldr (fun e n => cost_of kind e + n) 0 es.

(** Frames and stack bytes in use after a sequence of safe points. *)
Definition frames (es : list event) : Z :=
  foldr (fun e n => match e with
                    | (SP_FUNCTION_ENTER, _) => n + 1 | (SP_FUNCTION_LEAVE, _) => n - 1
                    | _ => n end) 0 es.
Definition stack_bytes (es : list event) : Z :=
  foldr (fun e n => match e with
                    | (SP_FUNCTION_ENTER, k) => n + k | (SP_FUNCTION_LEAVE, k) => n - k
                    | _ => n end) 0 es.

(** ** Invariant and lemmas *)

Record budget_ok (b : call_budget) : Prop := {
  ok_steps : 0 <= steps_left b;
  ok_loops : 0 <= loops_left b;
  ok_callbacks : 0 <= callbacks_left b;
  ok_frames : 0 <= recursion_left b <= recursion_limit b;
  ok_stack : 0 <= stack_bytes_left b <= stack_bytes_limit b;
  ok_accumulator : 0 <= interrupt_step_accumulator b < TS_HOST_INTERRUPT_STEP_INTERVAL;
  ok_status : failure_status b = STATUS_OK
}.

(** The counters after a safe point that passed. *)
Definition charged (b b' : call_budget) (e : event) : Prop :=
  steps_left b' = steps_left b - cost_of SP_STEP e /\
  loops_left b' = loops_left b - cost_of SP_LOOP e /\
  callbacks_left b' = callbacks_left b - cost_of SP_CALLBACK_BEFORE e /\
  recursion_left b' = recursion_left b - frames [e] /\
  stack_bytes_left b' = stack_bytes_left b - stack_bytes [e] /\
  recursion_limit b' = recursion_limit b /\
  stack_bytes_limit b' = stack_bytes_limit b.

Lemma poll_ok b b' :
  ts_host_budget_poll_interrupt b = (true, b') ->
  (interrupt b = None /\ b' = b) \/
  exists l, interrupt b = Some l /\ hd false l = false /\ b' = set_interrupt (Some (tail l)) b.
Proof.
  unfold ts_host_budget_poll_interrupt. destruct (interrupt b) as [l|].
  - destruct (hd false l) eqn:E; [done|]. intros [= <-]. right. eauto.
  - intros [= <-]. by left.
Qed.

Lemma charge_u32_ok b get set cost m b' :
  ts_host_budget_charge_u32 b get set cost m = (true, b') ->
  cost <= UINT32_MAX /\ cost <= get b /\ b' = set (get b - cost) b.
Proof.
  unfold ts_host_budget_charge_u32. destruct (_ || _) eqn:E; [done|].
  intros [= <-]. bool_props. done.
Qed.

Ltac solve_charged :=
  unfold charged; simpl in *; split;
  [constructor; unfold TS_HOST_INTERRUPT_STEP_INTERVAL in *; simpl; try done; lia|split_and!; simpl; try done; lia].

Lemma charge_ok b kind cost b' :
  budget_ok b -> 0 <= cost -> charge b kind cost = (true, b') ->
  budget_ok b' /\ charged b b' (kind, cost).
Proof.
  intros [? ? ? ? ? Hacc ?] Hc.
  destruct kind; cbn [charge]; unfold TS_HOST_INTERRUPT_STEP_INTERVAL in *.
  - destruct (ts_host_budget_charge_u32 _ _ _ _ _) as [[] b1] eqn:E; [|cbn; done].
    apply charge_u32_ok in E as (Hm & ? & ->). rewrite (proj2 (Z.ltb_ge UINT32_MAX cost)) by done.
    unfold UINT32_MAX in *. cbn [interrupt_step_accumulator set_steps].
    destruct (256 <=? _) eqn:C.
    + intros [[? ->]|(l & ? & ? & ->)]%poll_ok; solve_charged.
    + destruct (_ <? _) eqn:D; bool_props; [lia|]. intros [= <-]. solve_charged.
  - destruct (ts_host_budget_charge_u32 _ _ _ _ _) as [[] b1] eqn:E; [|cbn; done].
    apply charge_u32_ok in E as (? & ? & ->).
    intros [[? ->]|(l & ? & ? & ->)]%poll_ok; solve_charged.
  - destruct (ts_host_budget_charge_u32 _ _ _ _ _) as [[] b1] eqn:E; [|cbn; done].
    apply charge_u32_ok in E as (? & ? & ->).
    intros [[? ->]|(l & ? & ? & ->)]%poll_ok; solve_charged.
  - intros [[? ->]|(l & ? & ? & ->)]%poll_ok; solve_charged.
  - destruct (_ =? 0) eqn:E1; [done|]. destruct (_ <? _) eqn:E2; [done|]. bool_props.
    intros [[? ->]|(l & ? & ? & ->)]%poll_ok; solve_charged.
  - destruct (_ || _) eqn:E; [done|]. intros [= <-]. bool_props. solve_charged.
  - destruct (_ <? _); [done|]. intros [= <-]. solve_charged.
  - done.
Qed.

Lemma budget_fail_status b s p m b' ok :
  ts_host_budget_fail b s p m = (ok, b') -> s <> STATUS_OK ->
  ok = false /\ failure_status b' <> STATUS_OK.
Proof.
  unfold ts_host_budget_fail. intros [= <- <-] Hs. split; [done|]. by case_decide.
Qed.

Lemma charge_fail b kind cost b' :
  charge b kind cost = (false, b') -> failure_status b' <> STATUS_OK.
Proof.
  assert (forall b, ts_host_budget_poll_interrupt b = (false, b') ->
    failure_status b' <> STATUS_OK) as Hpoll.
  { intros b1. unfold ts_host_budget_poll_interrupt. case_match; [|done].
    case_match; [|done]. intros F. by apply budget_fail_status in F as []. }
  assert (forall get set m, ts_host_budget_charge_u32 b get set cost m = (false, b') ->
    failure_status b' <> STATUS_OK) as Hcharge.
  { intros get set m. unfold ts_host_budget_charge_u32. case_match; [|done].
    intros F. by apply budget_fail_status in F as []. }
  destruct kind; cbn [charge];
    repeat first
      [ progress intros
      | match goal with
        | H : ts_host_budget_fail _ _ _ _ = _ |- _ => by apply budget_fail_status in H as []
        | H : ts_host_budget_poll_interrupt _ = (false, _) |- _ => by apply Hpoll in H
        end
      | case_match; simplify_eq; eauto 2 ].
Qed.

Lemma safe_point_active c id b kind cost :
  active_host_budget c = Some (id, b) -> failure_status b = STATUS_OK ->
  (exists b', charge b kind cost = (true, b') /\
    ts_host_safe_point c kind cost = (true, set_budget (Some (id, b')) (hooked c) c)) \/
  (exists b' c', charge b kind cost = (false, b') /\
    ts_host_safe_point c kind cost = (false, c') /\
    active_host_budget c' = Some (id, b') /\ aborted c' = true).
Proof.
  intros Ha Hs. unfold ts_host_safe_point. rewrite Ha, decide_True by done.
  destruct (charge b kind cost) as [[] b'] eqn:E; [left; by exists b'|right].
  eexists b', _. split_and!; done.
Qed.

(** What a passed sequence of safe points charged. *)
Lemma run_accounts es : forall c id b passed c',
  active_host_budget c = Some (id, b) -> budget_ok b -> Forall (fun e => 0 <= e.2) es ->
  run c es = (passed, c') ->
  total SP_STEP passed <= steps_left b /\ total SP_LOOP passed <= loops_left b /\
  total SP_CALLBACK_BEFORE passed <= callbacks_left b /\
  0 <= recursion_left b - frames passed <= recursion_limit b /\
  0 <= stack_bytes_left b - stack_bytes passed <= stack_bytes_limit b.
Proof.
  induction es as [|[kind cost] es IH]; intros c id b passed c' Ha Hb Hes; simpl.
  { intros [= <- <-]. destruct Hb. simpl. lia. }
  inversion Hes as [|? ? Hcost Hes']; subst. simpl in Hcost.
  destruct (safe_point_active c id b kind cost Ha (ok_status _ Hb))
    as [(b' & E & ->)|(b' & c1 & E & -> & _)].
  - destruct (charge_ok _ _ _ _ Hb Hcost E) as [Hb' Hch].
    destruct (run _ es) as [ps c1] eqn:R. intros [= <- <-].
    eapply IH in R; [|reflexivity|done|done].
    destruct Hch as (? & ? & ? & ? & ? & ? & ?). simpl in *.
    destruct kind; simpl in *; lia.
  - intros [= <- <-]. destruct Hb. simpl. lia.
Qed.

Lemma init_ok limits options :
  0 <= lim_max_recursion limits -> 0 <= lim_max_stack_bytes limits ->
  0 <= opt_max_recursion options -> 0 <= opt_max_steps options ->
  0 <= opt_max_loop_iterations options -> 0 <= opt_max_host_callbacks options ->
  budget_ok (ts_host_call_budget_init limits options).
Proof.
  intros. split; simpl; try done; unfold TS_HOST_HARD_STEP_LIMIT, TS_HOST_HARD_LOOP_LIMIT,
    TS_HOST_HARD_CALLBACK_LIMIT, TS_HOST_HARD_RECURSION_LIMIT, TS_HOST_INTERRUPT_STEP_INTERVAL; lia.
Qed.

(** The unsigned fields of the options and the limits. *)
Definition unsigned_options (limits : instance_limits) (options : call_options) : Prop :=
  0 <= lim_max_recursion limits /\ 0 <= lim_max_stack_bytes limits /\
  0 <= opt_max_recursion options /\ 0 <= opt_max_steps options /\
  0 <= opt_max_loop_iterations options /\ 0 <= opt_max_host_callbacks options.

Definition idle_ctx : runtime_ctx := Ctx None false false false ERROR_NONE "" "".

(** Nested function frames: the costs of the open frames, innermost first. *)
Fixpoint bracketed (open : list Z) (es : list event) : bool :=
  match es with
  | [] => true
  | (SP_FUNCTION_ENTER, n) :: es => bracketed (n :: open) es
  | (SP_FUNCTION_LEAVE, n) :: es =>
      match open with
      | k :: open => (n =? k) && bracketed open es
      | [] => false
      end
  | (SP_INVALID, _) :: _ => false
  | _ :: es => bracketed open es
  end.

Definition sumZ : list Z -> Z := foldr Z.add 0.

Lemma fail_not_invalid_state b m :
  failure_status b = STATUS_OK -> forall b',
  ts_host_budget_fail b STATUS_LIMIT_EXCEEDED PHASE_CALL m = (false, b') ->
  failure_status b' = STATUS_LIMIT_EXCEEDED.
Proof. intros Hb b'. unfold ts_host_budget_fail. rewrite decide_True by done. by intros [= <-]. Qed.

Lemma poll_fail_status b b' :
  failure_status b = STATUS_OK -> ts_host_budget_poll_interrupt b = (false, b') ->
  failure_status b' = STATUS_INTERRUPTED.
Proof.
  intros Hb. unfold ts_host_budget_poll_interrupt. case_match; [|done]. case_match; [|done].
  unfold ts_host_budget_fail. rewrite decide_True by done. by intros [= <-].
Qed.

Lemma charge_u32_fail_status b get set cost m b' :
  failure_status b = STATUS_OK -> ts_host_budget_charge_u32 b get set cost m = (false, b') ->
  failure_status b' = STATUS_LIMIT_EXCEEDED.
Proof.
  intros Hb. unfold ts_host_budget_charge_u32. case_match; [|done].
  by apply fail_not_invalid_state.
Qed.

(** Only an unmatched leave, or an unknown safe point, is an invalid state. *)
Lemma charge_invalid_state b kind cost b' :
  budget_ok b -> 0 <= cost -> charge b kind cost = (false, b') ->
  failure_status b' = STATUS_INVALID_STATE ->
  kind = SP_INVALID \/
  kind = SP_FUNCTION_LEAVE /\ (recursion_limit b <= recursion_left b \/
    stack_bytes_limit b - cost < stack_bytes_left b).
Proof.
  intros Hb Hc. pose proof (ok_status _ Hb) as Hs.
  assert (forall b1, failure_status b1 = STATUS_OK ->
    ts_host_budget_poll_interrupt b1 = (false, b') ->
    failure_status b' = STATUS_INVALID_STATE -> False) as Hpoll.
  { intros b1 H1 H2 H3. apply poll_fail_status in H2; congruence. }
  assert (forall get set m, ts_host_budget_charge_u32 b get set cost m = (false, b') ->
    failure_status b' = STATUS_INVALID_STATE -> False) as Hchg.
  { intros get set m H2 H3. apply charge_u32_fail_status in H2; congruence. }
  assert (forall m, ts_host_budget_fail b STATUS_LIMIT_EXCEEDED PHASE_CALL m = (false, b') ->
    failure_status b' = STATUS_INVALID_STATE -> False) as Hlim.
  { intros m H2 H3. apply fail_not_invalid_state in H2; congruence. }
  destruct kind; cbn [charge].
  1-3: destruct (ts_host_budget_charge_u32 _ _ _ _ _) as [[] b1] eqn:E;
    [apply charge_u32_ok in E as (_ & _ & ->)|intros [= <-] G; destruct (Hchg _ _ _ E G)].
  - destruct (_ <=? _); [|done]. intros F G. exfalso. eapply Hpoll; [|exact F|exact G]. exact Hs.
  - intros F G. exfalso. eapply Hpoll; [|exact F|exact G]. exact Hs.
  - intros F G. exfalso. eapply Hpoll; [|exact F|exact G]. exact Hs.
  - intros F G. exfalso. eapply Hpoll; [|exact F|exact G]. exact Hs.
  - destruct (_ =? 0); [intros F G; destruct (Hlim _ F G)|].
    destruct (_ <? _); [intros F G; destruct (Hlim _ F G)|].
    intros F G. exfalso. eapply Hpoll; [|exact F|exact G]. exact Hs.
  - intros F G. right. split; [done|]. destruct (_ || _) eqn:E; [|done].
    apply orb_prop in E as [[E|E]%orb_prop|E]; [|left; lia|right; lia].
    destruct Hb. right. lia.
  - destruct (_ <? _); [|done]. intros F G. destruct (Hlim _ F G).
  - by left.
Qed.

(** Matched frames keep the accounting: with the costs [open] of the frames
    entered before, a bracketed sequence never fails as inconsistent. *)
Lemma run_bracketed es : forall c id b opened passed c',
  active_host_budget c = Some (id, b) -> budget_ok b -> Forall (fun e => 0 <= e.2) es ->
  recursion_left b = recursion_limit b - Z.of_nat (length opened) ->
  stack_bytes_left b = stack_bytes_limit b - sumZ opened ->
  bracketed opened es = true -> Forall (fun n => 0 <= n) opened ->
  run c es = (passed, c') ->
  exists b', active_host_budget c' = Some (id, b') /\ failure_status b' <> STATUS_INVALID_STATE.
Proof.
  induction es as [|[kind cost] es IH]; intros c id b opened passed c' Ha Hb Hes Hr Hst Hbr Hop.
  { simpl. intros [= <- <-]. exists b. by rewrite (ok_status _ Hb). }
  inversion Hes as [|? ? Hcost Hes']; subst. simpl in Hcost. simpl run.
  destruct (safe_point_active c id b kind cost Ha (ok_status _ Hb))
    as [(b' & E & ->)|(b' & c1 & E & -> & Ha' & _)].
  - destruct (charge_ok _ _ _ _ Hb Hcost E) as [Hb' Hch].
    destruct (run _ es) as [ps c1] eqn:R. intros [= <- <-].
    destruct Hch as (_ & _ & _ & ? & ? & ? & ?).
    destruct kind; simpl in Hbr; try discriminate;
      try (eapply (IH (set_budget (Some (id, b')) (hooked c) c) id b' opened); [done|done|done|simpl in *; lia..|done|done|exact R]).
    + eapply (IH (set_budget (Some (id, b')) (hooked c) c) id b' (cost :: opened)); [done|done|done|simpl in *; lia..|done| |exact R].
      by constructor.
    + destruct opened as [|k opened]; [done|]. bool_props. subst k.
      inversion Hop; subst.
      eapply (IH (set_budget (Some (id, b')) (hooked c) c) id b' opened); [done|done|done|simpl in *; lia..|done|done|exact R].
  - intros [= <- <-]. exists b'. split; [done|]. intros Hinv.
    destruct (charge_invalid_state _ _ _ _ Hb Hcost E Hinv) as [->|[-> Hor]]; [done|].
    simpl in Hbr. destruct opened as [|k opened]; [done|]. bool_props. subst k.
    inversion Hop; subst. simpl in *.
    assert (0 <= sumZ opened) by (clear -H3; induction H3; simpl; lia). lia.
Qed.

(** Under a callback that always asks to stop, only steps pass. *)
Lemma run_interrupted es : forall c id b l passed c',
  active_host_budget c = Some (id, b) -> budget_ok b -> Forall (fun e => 0 <= e.2) es ->
  interrupt b = Some (true :: l) ->
  run c es = (passed, c') ->
  total SP_STEP passed <= TS_HOST_INTERRUPT_STEP_INTERVAL - 1 - interrupt_step_accumulator b /\
  Forall (fun e => e.1 = SP_STEP \/ e.1 = SP_FUNCTION_LEAVE \/ e.1 = SP_RETAINED_BYTES) passed.
Proof.
  induction es as [|[kind cost] es IH]; intros c id b l passed c' Ha Hb Hes Hi; simpl.
  { intros [= <- <-]. destruct Hb. simpl. split; [lia|constructor]. }
  inversion Hes as [|? ? Hcost Hes']; subst. simpl in Hcost.
  destruct (safe_point_active c id b kind cost Ha (ok_status _ Hb))
    as [(b' & E & ->)|(b' & c1 & E & -> & _)].
  2: { intros [= <- <-]. destruct Hb. simpl. split; [lia|constructor]. }
  destruct (charge_ok _ _ _ _ Hb Hcost E) as [Hb' _].
  assert ((kind = SP_STEP \/ kind = SP_FUNCTION_LEAVE \/ kind = SP_RETAINED_BYTES) /\
    interrupt b' = Some (true :: l) /\
    interrupt_step_accumulator b'
      = interrupt_step_accumulator b + cost_of SP_STEP (kind, cost)) as (Hk & Hi' & Hacc).
  { assert (forall b1, interrupt b1 = interrupt b ->
      ts_host_budget_poll_interrupt b1 = (true, b') -> False) as Hpoll.
    { intros b1 H1 [[H2 _]|(l' & H2 & H3 & _)]%poll_ok; rewrite H1, Hi in H2; [done|].
      injection H2 as <-. done. }
    destruct kind; cbn [charge] in E.
    1-3: destruct (ts_host_budget_charge_u32 _ _ _ _ _) as [[] b1] eqn:F; [|discriminate E];
      apply charge_u32_ok in F as (? & ? & ->); try (by apply Hpoll in E).
    - destruct (_ <=? _) eqn:C; [by apply Hpoll in E|]. injection E as <-.
      split_and!; [by left|done|]. revert C. cbn [set_accumulator set_steps
        interrupt_step_accumulator cost_of]. unfold TS_HOST_INTERRUPT_STEP_INTERVAL.
      rewrite (proj2 (Z.ltb_ge UINT32_MAX cost)) by done.
      destruct (UINT32_MAX - cost <? _); [discriminate|done].
    - by apply Hpoll in E.
    - destruct (_ =? 0); [done|]. destruct (_ <? _); [done|]. by apply Hpoll in E.
    - destruct (_ || _); [done|]. injection E as <-. split_and!; [by right; left|done|simpl; lia].
    - destruct (_ <? _); [done|]. injection E as <-. split_and!; [by right; right|done|simpl; lia].
    - done. }
  destruct (run _ es) as [ps c1] eqn:R. intros [= <- <-].
  eapply IH in R as [R1 R2]; [|reflexivity|done|done|exact Hi'].
  rewrite Hacc in R1.
  change (total SP_STEP ((kind, cost) :: ps)) with (cost_of SP_STEP (kind, cost) + total SP_STEP ps).
  split; [lia|by constructor].
Qed.

(** ** Theorems *)

(** C29: A host call stays inside its quotas.  Whatever safe points a call passes
    from a fresh budget, the steps, loop iterations and host callbacks that were
    let through are at most the caller's limit and the hard limit, and at every
    point the open function frames and their stack bytes are between zero and
    the limits. *)
Theorem host_quota limits options c id es passed c' :
  unsigned_options limits options -> Forall (fun e => 0 <= e.2) es ->
  active_host_budget c = Some (id, ts_host_call_budget_init limits options) ->
  run c es = (passed, c') ->
  total SP_STEP passed <= Z.min (opt_max_steps options) 100000 /\
  total SP_LOOP passed <= Z.min (opt_max_loop_iterations options) 10000 /\
  total SP_CALLBACK_BEFORE passed <= Z.min (opt_max_host_callbacks options) 1024 /\
  0 <= frames passed
    <= Z.min (Z.min (opt_max_recursion options) (lim_max_recursion limits)) 100 /\
  0 <= stack_bytes passed <= lim_max_stack_bytes limits.
Proof.
  intros (? & ? & ? & ? & ? & ?) Hes Ha R. eapply run_accounts in R; [|exact Ha|by apply init_ok|done].
  simpl in R. unfold TS_HOST_HARD_STEP_LIMIT, TS_HOST_HARD_LOOP_LIMIT,
    TS_HOST_HARD_CALLBACK_LIMIT, TS_HOST_HARD_RECURSION_LIMIT in R. lia.
Qed.

Definition demo_limits : instance_limits := InstanceLimits 10 4096 1024 65536.
Definition demo_options : call_options := CallOptions 2 5 3 1 512 None.
Definition demo_events : list event :=
  [(SP_FUNCTION_ENTER, 64); (SP_STEP, 2); (SP_LOOP, 1); (SP_FUNCTION_ENTER, 64); (SP_STEP, 2);
   (SP_FUNCTION_LEAVE, 64); (SP_STEP, 1); (SP_STEP, 1); (SP_FUNCTION_LEAVE, 64)].
Definition demo_ctx : runtime_ctx :=
  (ts_host_call_budget_attach idle_ctx 7 (ts_host_call_budget_init demo_limits demo_options)).2.

Lemma host_quota_witness :
  total SP_STEP (run demo_ctx demo_events).1 = 5 /\
  total SP_STEP (run demo_ctx demo_events).1 <= Z.min (opt_max_steps demo_options) 100000.
Proof.
  split; [by vm_compute|].
  apply (host_quota demo_limits demo_options demo_ctx 7 demo_events _ (run demo_ctx demo_events).2).
  - unfold unsigned_options; simpl; lia.
  - repeat constructor; simpl; lia.
  - reflexivity.
  - by destruct (run demo_ctx demo_events).
Defined.

(** Frame accounting is consistent: when every leave matches the innermost
    open enter (as [exprtk_call] and the MIR frames do it), no safe point of the
    call fails as an invalid state, whatever else fails. *)
Theorem host_frames_consistent limits options c id es passed c' :
  unsigned_options limits options -> Forall (fun e => 0 <= e.2) es ->
  active_host_budget c = Some (id, ts_host_call_budget_init limits options) ->
  bracketed [] es = true ->
  run c es = (passed, c') ->
  exists b', active_host_budget c' = Some (id, b') /\
    ts_host_call_budget_status (Some b') <> STATUS_INVALID_STATE.
Proof.
  intros (? & ? & ? & ? & ? & ?) Hes Ha Hbr R.
  eapply (run_bracketed es c id _ []); [exact Ha|by apply init_ok|done|simpl; lia..|done|done|exact R].
Qed.

Lemma host_frames_consistent_witness :
  exists b', active_host_budget (run demo_ctx demo_events).2 = Some (7%nat, b') /\
    ts_host_call_budget_status (Some b') <> STATUS_INVALID_STATE.
Proof.
  apply (host_frames_consistent demo_limits demo_options demo_ctx 7 demo_events
           (run demo_ctx demo_events).1).
  - unfold unsigned_options; simpl; lia.
  - repeat constructor; simpl; lia.
  - reflexivity.
  - reflexivity.
  - by destruct (run demo_ctx demo_events).
Defined.

(** The safe points at which the embedder is asked: every loop iteration, host callback (before and after)
    and function entry, and every 256 steps; [acc] is the number of steps since it was asked for them last. *)
Fixpoint polls (acc : Z) (es : list event) : nat :=
  match es with
  | [] => 0
  | (SP_STEP, n) :: es => if 256 <=? acc + n then S (polls 0 es) else polls (acc + n) es
  | ((SP_LOOP | SP_CALLBACK_BEFORE | SP_CALLBACK_AFTER | SP_FUNCTION_ENTER), _) :: es => S (polls acc es)
  | _ :: es => polls acc es
  end.

Lemma poll_answer b b' answers :
  interrupt b = Some answers -> ts_host_budget_poll_interrupt b = (true, b') ->
  interrupt b' = Some (tail answers) /\ interrupt_step_accumulator b' = interrupt_step_accumulator b.
Proof. intros Hi [[H _]|(l & H & _ & ->)]%poll_ok; rewrite Hi in H; [done|]. by injection H as <-. Qed.

(** A safe point that passes uses the answers that [polls] counts. *)
Lemma charge_polls b kind cost b' answers :
  budget_ok b -> interrupt b = Some answers -> charge b kind cost = (true, b') ->
  interrupt b' = Some (drop (polls (interrupt_step_accumulator b) [(kind, cost)]) answers) /\
  forall es, polls (interrupt_step_accumulator b) ((kind, cost) :: es) =
             (polls (interrupt_step_accumulator b) [(kind, cost)] + polls (interrupt_step_accumulator b') es)%nat.
Proof.
  intros Hb Hi E. pose proof (ok_accumulator _ Hb) as Hacc. unfold TS_HOST_INTERRUPT_STEP_INTERVAL in Hacc.
  assert (forall b1, interrupt b1 = Some answers -> ts_host_budget_poll_interrupt b1 = (true, b') ->
    interrupt b' = Some (drop 1 answers) /\ interrupt_step_accumulator b' = interrupt_step_accumulator b1) as Hpoll.
  { intros b1 H1 H2. destruct (poll_answer _ _ _ H1 H2) as [-> ->]. split; [by destruct answers|done]. }
  destruct kind; cbn [charge] in E.
  1-3: destruct (ts_host_budget_charge_u32 _ _ _ _ _) as [[] b1] eqn:F; [|discriminate E];
    apply charge_u32_ok in F as (Hmax & _ & ->).
  - rewrite (proj2 (Z.ltb_ge UINT32_MAX cost)) in E by done.
    cbn [set_steps interrupt_step_accumulator] in E. unfold TS_HOST_INTERRUPT_STEP_INTERVAL in E.
    assert ((UINT32_MAX - cost <? interrupt_step_accumulator b) = true -> 256 <= interrupt_step_accumulator b + cost)
      as Hwrap by (unfold UINT32_MAX in *; lia).
    cbn [polls]. destruct (UINT32_MAX - cost <? interrupt_step_accumulator b).
    + apply Hpoll in E as [-> Hz]; [|done]. rewrite Hz. rewrite (proj2 (Z.leb_le 256 _)) by auto. done.
    + destruct (256 <=? interrupt_step_accumulator b + cost).
      * apply Hpoll in E as [-> Hz]; [|done]. by rewrite Hz.
      * injection E as <-. simpl. by rewrite Hi.
  - apply Hpoll in E as [-> ->]; done.
  - apply Hpoll in E as [-> ->]; done.
  - apply Hpoll in E as [-> ->]; done.
  - destruct (_ =? 0); [done|]. destruct (_ <? _); [done|]. by apply Hpoll in E as [-> ->].
  - destruct (_ || _); [done|]. injection E as <-. simpl. by rewrite Hi.
  - destruct (_ <? _); [done|]. injection E as <-. simpl. by rewrite Hi.
  - discriminate E.
Qed.

(** What a call is after the safe points [before] that it has passed. *)
Lemma run_split before : forall c id b es after answers c',
  active_host_budget c = Some (id, b) -> budget_ok b -> Forall (fun e => 0 <= e.2) es ->
  interrupt b = Some answers -> run c es = (before ++ after, c') ->
  exists c1 b1 es1, active_host_budget c1 = Some (id, b1) /\ budget_ok b1 /\
    interrupt b1 = Some (drop (polls (interrupt_step_accumulator b) before) answers) /\
    Forall (fun e => 0 <= e.2) es1 /\ run c1 es1 = (after, c').
Proof.
  induction before as [|[kind cost] before IH]; intros c id b es after answers c' Ha Hb Hes Hi R.
  { exists c, b, es. by rewrite Hi. }
  destruct es as [|[k n] es]; [discriminate R|]. inversion Hes as [|? ? Hn Hes']; subst. simpl in R, Hn.
  destruct (safe_point_active c id b k n Ha (ok_status _ Hb)) as [(b' & E & Hs)|(b' & c1 & E & Hs & _)];
    rewrite Hs in R; [|discriminate R].
  destruct (run (set_budget (Some (id, b')) (hooked c) c) es) as [passed c2] eqn:R2. injection R as -> -> Hp ->.
  destruct (charge_ok _ _ _ _ Hb Hn E) as [Hb' _]. destruct (charge_polls _ _ _ _ _ Hb Hi E) as [Hi' Hpolls].
  rewrite Hp in R2. destruct (IH (set_budget (Some (id, b')) (hooked c) c) id b' es after _ c' eq_refl Hb' Hes' Hi' R2)
    as (c1 & b1 & es1 & ? & ? & Hi1 & ? & ?).
  exists c1, b1, es1. split_and!; try done. rewrite Hi1, drop_drop. f_equal. f_equal. symmetry. apply Hpolls.
Qed.

(** C39: Whenever the embedder's callback comes to ask to stop -- at its first poll or after any number of
    polls that let the call go on -- the call makes fewer than 256 further steps and enters no
    loop iteration, host callback or function. *)
Theorem host_interrupt_prompt limits options c id answers es before after c' :
  unsigned_options limits options -> Forall (fun e => 0 <= e.2) es ->
  opt_interrupt options = Some answers ->
  active_host_budget c = Some (id, ts_host_call_budget_init limits options) ->
  run c es = (before ++ after, c') ->
  answers !! polls 0 before = Some true ->
  total SP_STEP after < 256 /\
  Forall (fun e => e.1 = SP_STEP \/ e.1 = SP_FUNCTION_LEAVE \/ e.1 = SP_RETAINED_BYTES) after.
Proof.
  intros (? & ? & ? & ? & ? & ?) Hes Hi Ha R Hstop.
  destruct (run_split before c id _ es after answers c' Ha) as (c1 & b1 & es1 & Ha1 & Hb1 & Hi1 & Hes1 & R1);
    [by apply init_ok|done|exact Hi|exact R|].
  pose proof (ok_accumulator _ Hb1) as Hacc. apply drop_S in Hstop. simpl in Hi1. rewrite Hstop in Hi1.
  eapply run_interrupted in R1 as [R1 R2]; [|exact Ha1|done|done|exact Hi1].
  unfold TS_HOST_INTERRUPT_STEP_INTERVAL in *. split; [lia|done].
Qed.

Definition stop_options : call_options := CallOptions 2 1000 3 1 512 (Some [false; true]).
Definition stop_ctx : runtime_ctx :=
  (ts_host_call_budget_attach idle_ctx 7 (ts_host_call_budget_init demo_limits stop_options)).2.

(** The embedder lets the call go on at the loop iteration and stops it at the 300th step. *)
Lemma host_interrupt_prompt_witness :
  (run stop_ctx ((SP_LOOP, 1) :: replicate 9 (SP_STEP, 100))).1 = [(SP_LOOP, 1)] ++ replicate 2 (SP_STEP, 100) /\
  total SP_STEP (replicate 2 (SP_STEP, 100)) < 256.
Proof.
  split; [by vm_compute|].
  apply (host_interrupt_prompt demo_limits stop_options stop_ctx 7 [false; true]
    ((SP_LOOP, 1) :: replicate 9 (SP_STEP, 100)) [(SP_LOOP, 1)] (replicate 2 (SP_STEP, 100))
    (run stop_ctx ((SP_LOOP, 1) :: replicate 9 (SP_STEP, 100))).2).
  - unfold unsigned_options; simpl; lia.
  - repeat constructor; simpl; lia.
  - reflexivity.
  - reflexivity.
  - by vm_compute.
  - reflexivity.
Defined.

(** A failure is final: the safe point that refuses aborts the script and
    records an error, and from then on every safe point of the call refuses and
    changes nothing, so the first failure is the one reported. *)
Theorem host_failure_latched c id b kind cost c' :
  active_host_budget c = Some (id, b) -> failure_status b = STATUS_OK ->
  ts_host_safe_point c kind cost = (false, c') ->
  aborted c' = true /\ ctx_error_code c' <> ERROR_NONE /\
  (exists b', active_host_budget c' = Some (id, b') /\ failure_status b' <> STATUS_OK) /\
  forall kind' cost', ts_host_safe_point c' kind' cost' = (false, c').
Proof.
  intros Ha Hs. unfold ts_host_safe_point at 1. rewrite Ha, decide_True by done.
  destruct (charge b kind cost) as [[] b'] eqn:E; [done|]. intros [= <-].
  apply charge_fail in E. split_and!; [done|simpl; by case_decide|by exists b'|].
  intros kind' cost'. unfold ts_host_safe_point. simpl. by rewrite decide_False.
Qed.

Lemma host_failure_latched_witness :
  (ts_host_safe_point demo_ctx SP_LOOP 4).1 = false /\
  aborted (ts_host_safe_point demo_ctx SP_LOOP 4).2 = true.
Proof.
  split; [reflexivity|].
  apply (host_failure_latched demo_ctx 7 (ts_host_call_budget_init demo_limits demo_options)
    SP_LOOP 4); reflexivity.
Defined.

(** At most one budget is attached to a context: attaching to a context with
    a budget is refused, detaching another budget changes nothing, and detaching
    the attached one makes the context attachable again. *)
Theorem host_budget_exclusive c id b :
  (ts_host_call_budget_attach c id b).1 = STATUS_OK ->
  let c1 := (ts_host_call_budget_attach c id b).2 in
  (forall id' b', ts_host_call_budget_attach c1 id' b' = (STATUS_INVALID_STATE, c1)) /\
  (forall id', id' <> id -> ts_host_call_budget_detach c1 id' = c1) /\
  (forall id' b', (ts_host_call_budget_attach (ts_host_call_budget_detach c1 id) id' b').1
                  = STATUS_OK) /\
  forall kind cost, ts_host_safe_point (ts_host_call_budget_detach c1 id) kind cost
                    = (true, ts_host_call_budget_detach c1 id).
Proof.
  intros H. simpl. assert (ts_host_call_budget_attach c id b = (STATUS_OK, set_budget (Some (id, b)) true c))
    as ->.
  { revert H. unfold ts_host_call_budget_attach. destruct (active_host_budget c); [done|].
    by destruct (hooked c || other_hook c). }
  unfold ts_host_call_budget_detach. simpl. rewrite Nat.eqb_refl. split_and!; try done.
  intros id' Hne. by rewrite (proj2 (Nat.eqb_neq _ _)).
Qed.

Lemma host_budget_exclusive_witness :
  ts_host_call_budget_attach demo_ctx 8 (ts_host_call_budget_init demo_limits stop_options)
    = (STATUS_INVALID_STATE, demo_ctx).
Proof.
  destruct (host_budget_exclusive idle_ctx 7 (ts_host_call_budget_init demo_limits demo_options))
    as [H _]; [reflexivity|]. exact (H 8%nat _).
Defined.
