(* ===== verification/JitCache.v ===== *)
(** The compile cache of the MIR backend: [turbo_script/src/mir/turbo_script_mir_cache.c].

    Scripts are C strings, a compiled function is the integer of its address (NULL
    is [None]); [strdup] may fail. *)

From S2P Require Import Prelude CString.
Open Scope Z_scope.

(** ** Data *)

Definition TS_JIT_CACHE_SIZE : nat := 128.

Record entry := Entry {
  e_hash : Z;
  e_fn_ptr : option Z;
  e_access_count : Z;              (* uint32_t *)
  e_script : option (list Z)
}.

Definition empty_entry : entry := Entry 0 None 0 None.

Record cache_ctx := Cache {
  jit_cache : list entry;
  cache_hit_count : Z;             (* uint64_t *)
  cache_miss_count : Z;
  jit_stats_enabled : bool;
  mem : heap
}.

(** ** Operations *)

Definition FNV_OFFSET : Z := 0xcbf29ce484222325.
Definition FNV_PRIME : Z := 0x100000001b3.

Definition fnv_step (hash c : Z) : Z := wrapu 64 (Z.lxor hash (u8 c) * FNV_PRIME).

Definition ts_mir_compute_hash (script : list Z) : Z :=
  Z.lxor (fold_left fnv_step script FNV_OFFSET) (wrapu 64 (Z.of_nat (length script))).

Definition slot_of (script : list Z) : nat :=
  Z.to_nat (ts_mir_compute_hash script mod Z.of_nat TS_JIT_CACHE_SIZE).

Definition slot (c : cache_ctx) (i : nat) : entry := nth i (jit_cache c) empty_entry.

(** Does the slot hold this script, compiled? *)
Definition slot_matches (e : entry) (script : list Z) : bool :=
  (e_hash e =? ts_mir_compute_hash script)
  && bool_decide (e_script e = Some script)
  && bool_decide (is_Some (e_fn_ptr e)).

Definition ts_mir_cache_lookup (c : cache_ctx) (script : list Z) : option Z * cache_ctx :=
  let i := slot_of script in
  let e := slot c i in
  if slot_matches e script then
    (e_fn_ptr e,
     {| jit_cache := <[i := Entry (e_hash e) (e_fn_ptr e) (wrapu 32 (e_access_count e + 1))
                              (e_script e)]> (jit_cache c);
        cache_hit_count := if jit_stats_enabled c then wrapu 64 (cache_hit_count c + 1)
                           else cache_hit_count c;
        cache_miss_count := cache_miss_count c;
        jit_stats_enabled := jit_stats_enabled c; mem := mem c |})
  else
    (None,
     {| jit_cache := jit_cache c;
        cache_hit_count := cache_hit_count c;
        cache_miss_count := if jit_stats_enabled c then wrapu 64 (cache_miss_count c + 1)
                            else cache_miss_count c;
        jit_stats_enabled := jit_stats_enabled c; mem := mem c |}).

Definition ts_mir_cache_insert (c : cache_ctx) (script : list Z) (fn_ptr : option Z) : cache_ctx :=
  match fn_ptr with
  | None => c
  | Some _ =>
      let i := slot_of script in
      let (ok, h) := alloc (mem c) in                       (* strdup *)
      {| jit_cache := <[i := Entry (ts_mir_compute_hash script) fn_ptr 1
                               (if ok then Some script else None)]> (jit_cache c);
         cache_hit_count := cache_hit_count c; cache_miss_count := cache_miss_count c;
         jit_stats_enabled := jit_stats_enabled c; mem := h |}
  end.

(** The loop of [ts_mir_cache_find_lru_slot] from index [i]. *)
Fixpoint lru_loop (l : list entry) (i lru_slot : nat) (min_access : Z) : nat :=
  match l with
  | [] => lru_slot
  | e :: l =>
      match e_fn_ptr e with
      | None => i
      | Some _ =>
          if e_access_count e <? min_access then lru_loop l (S i) i (e_access_count e)
          else lru_loop l (S i) lru_slot min_access
      end
  end.

Definition ts_mir_cache_find_lru_slot (c : cache_ctx) : nat :=
  lru_loop (jit_cache c) 0 0 UINT32_MAX.

Definition ts_mir_cache_clear (c : cache_ctx) : cache_ctx :=
  {| jit_cache := (fun _ => empty_entry) <$> jit_cache c;
     cache_hit_count := cache_hit_count c; cache_miss_count := cache_miss_count c;
     jit_stats_enabled := jit_stats_enabled c; mem := mem c |}.

Definition cache_zero (stats : bool) (h : heap) : cache_ctx :=
  Cache (replicate TS_JIT_CACHE_SIZE empty_entry) 0 0 stats h.

(** The hash agrees with the published FNV-1a test vectors, up to the length. *)
Example fnv_a : ts_mir_compute_hash (c_str "a") = Z.lxor 0xaf63dc4c8601ec8c 1.
Proof. reflexivity. Qed.
Example fnv_foobar : ts_mir_compute_hash (c_str "foobar") = Z.lxor 0x85944171f73967e8 6.
Proof. reflexivity. Qed.

(** ** Specification

    A direct-mapped cache is a map from slots to the script and the function that
    the slot holds: an insertion replaces what its slot holds, or empties the slot
    when the copy of the script fails. *)

Inductive op :=
  | Insert (script : list Z) (fn_ptr : Z)
  | Lookup (script : list Z)
  | Clear.

Definition spec_lookup (m : gmap nat (list Z * Z)) (script : list Z) : option Z :=
  match m !! slot_of script with
  | Some (script', fn) => if bool_decide (script' = script) then Some fn else None
  | None => None
  end.

Definition spec_step (m : gmap nat (list Z * Z)) (h : heap) (o : op) : gmap nat (list Z * Z) * heap :=
  match o with
  | Insert script fn =>
      let (ok, h) := alloc h in
      ((if ok then <[slot_of script := (script, fn)]> m else delete (slot_of script) m), h)
  | Lookup _ => (m, h)
  | Clear => (∅, h)
  end.

Definition step (c : cache_ctx) (o : op) : cache_ctx :=
  match o with
  | Insert script fn => ts_mir_cache_insert c script (Some fn)
  | Lookup script => (ts_mir_cache_lookup c script).2
  | Clear => ts_mir_cache_clear c
  end.

(** The abstract contents of a slot. *)
Definition slot_contents (e : entry) : option (list Z * Z) :=
  match e_script e, e_fn_ptr e with
  | Some s, Some fn => Some (s, fn)
  | _, _ => None
  end.

(** The cache implements the contents [m]. *)
Record implements (c : cache_ctx) (m : gmap nat (list Z * Z)) : Prop := {
  impl_length : length (jit_cache c) = TS_JIT_CACHE_SIZE;
  impl_slots : forall i, (i < TS_JIT_CACHE_SIZE)%nat -> slot_contents (slot c i) = m !! i;
  impl_hashes : forall i s, (i < TS_JIT_CACHE_SIZE)%nat -> e_script (slot c i) = Some s ->
    e_hash (slot c i) = ts_mir_compute_hash s /\ slot_of s = i
}.

(** ** Lemmas *)

Lemma slot_of_bound s : (slot_of s < TS_JIT_CACHE_SIZE)%nat.
Proof.
  unfold slot_of.
  pose proof (Z.mod_pos_bound (ts_mir_compute_hash s) (Z.of_nat TS_JIT_CACHE_SIZE)).
  unfold TS_JIT_CACHE_SIZE in *. lia.
Qed.

Lemma nth_insert {A} (l : list A) i j x d :
  (i < length l)%nat -> nth j (<[i := x]> l) d = if (i =? j)%nat then x else nth j l d.
Proof.
  intros Hi. rewrite !nth_lookup. destruct (i =? j)%nat eqn:E; bool_props.
  - subst. by rewrite list_lookup_insert_eq.
  - by rewrite list_lookup_insert_ne.
Qed.

Lemma lookup_spec c m s :
  implements c m ->
  (ts_mir_cache_lookup c s).1 = spec_lookup m s /\ implements (ts_mir_cache_lookup c s).2 m.
Proof.
  intros [Hlen Hslots Hhash]. pose proof (slot_of_bound s) as Hb.
  pose proof (Hslots _ Hb) as Hs. pose proof (Hhash (slot_of s)) as Hh.
  unfold ts_mir_cache_lookup, spec_lookup. rewrite <- Hs.
  destruct (slot_matches (slot c (slot_of s)) s) eqn:M; simpl.
  - unfold slot_matches in M. bool_props. apply bool_decide_eq_true in H0, H1.
    destruct H0 as [fn Hfn]. unfold slot_contents. rewrite H1, Hfn.
    rewrite bool_decide_true by done. split; [done|].
    split; simpl; [by rewrite length_insert|..]; unfold slot; simpl; intros i.
    + intros Hi. rewrite nth_insert by lia. destruct (_ =? i)%nat eqn:E; [|by apply Hslots].
      bool_props. subst i. rewrite <- Hs. unfold slot_contents. simpl.
      by rewrite Hfn, H1.
    + intros t Hi. rewrite nth_insert by lia. destruct (_ =? i)%nat eqn:E; [|by apply Hhash].
      bool_props. subst i. simpl. rewrite ?H1. intros [= <-]. by apply Hh.
  - split; [|by split]. unfold slot_contents.
    destruct (e_script (slot c (slot_of s))) as [t|] eqn:S; [|done].
    destruct (e_fn_ptr (slot c (slot_of s))) as [fn|] eqn:F; [|done].
    case_bool_decide as D; [|done]. subst t. destruct (Hh s Hb eq_refl) as [E _].
    unfold slot_matches in M. rewrite E, Z.eqb_refl, S, F in M.
    by rewrite !bool_decide_true in M by by eauto.
Qed.

Lemma insert_spec c m s fn :
  implements c m ->
  let r := spec_step m (mem c) (Insert s fn) in
  implements (ts_mir_cache_insert c s (Some fn)) r.1 /\
  mem (ts_mir_cache_insert c s (Some fn)) = r.2.
Proof.
  intros [Hlen Hslots Hhash]. pose proof (slot_of_bound s) as Hb. simpl.
  destruct (alloc (mem c)) as [ok h]. simpl. split; [|done].
  split; simpl; [by rewrite length_insert|..]; unfold slot; simpl; intros i.
  - intros Hi. rewrite nth_insert by lia. destruct (_ =? i)%nat eqn:E; bool_props.
    + subst i. destruct ok; simpl; [by rewrite lookup_insert_eq|by rewrite lookup_delete_eq].
    + destruct ok; simpl; [rewrite lookup_insert_ne by done|rewrite lookup_delete_ne by done];
        by apply Hslots.
  - intros t Hi. rewrite nth_insert by lia. destruct (_ =? i)%nat eqn:E; [|by apply Hhash].
    bool_props. subst i. simpl. destruct ok; [|done]. by intros [= ->].
Qed.

Lemma clear_spec c m : implements c m -> implements (ts_mir_cache_clear c) ∅.
Proof.
  intros [Hlen _ _].
  assert (forall i, slot (ts_mir_cache_clear c) i = empty_entry) as Hslot.
  { intros i. unfold slot. simpl. rewrite nth_lookup, list_lookup_fmap.
    by destruct (jit_cache c !! i). }
  split; [by simpl; rewrite length_fmap|..]; intros i; rewrite Hslot; [by rewrite lookup_empty|done].
Qed.

Lemma zero_implements stats h : implements (cache_zero stats h) ∅.
Proof.
  assert (forall i, slot (cache_zero stats h) i = empty_entry) as Hslot.
  { intros i. unfold slot, cache_zero. cbn [jit_cache]. rewrite nth_lookup.
    destruct (replicate TS_JIT_CACHE_SIZE empty_entry !! i) eqn:E; [|done].
    by apply lookup_replicate in E as [-> _]. }
  split; [by simpl|..]; intros i; rewrite Hslot; [by rewrite lookup_empty|done].
Qed.

Definition spec_run (m : gmap nat (list Z * Z)) (h : heap) (os : list op) : gmap nat (list Z * Z) * heap :=
  fold_left (fun '(m, h) o => spec_step m h o) os (m, h).

Lemma step_spec c m o :
  implements c m ->
  implements (step c o) (spec_step m (mem c) o).1 /\ mem (step c o) = (spec_step m (mem c) o).2.
Proof.
  intros Hc. destruct o as [s fn|s|].
  - by apply insert_spec.
  - split; [by apply lookup_spec|]. simpl. unfold ts_mir_cache_lookup. by destruct (slot_matches _ _).
  - split; [by eapply clear_spec|done].
Qed.

Lemma run_spec os : forall c m, implements c m ->
  implements (fold_left step os c) (spec_run m (mem c) os).1.
Proof.
  unfold spec_run. induction os as [|o os IH]; intros c m Hc; simpl; [done|].
  destruct (step_spec c m o Hc) as [H1 H2].
  destruct (spec_step m (mem c) o) as [m' h']. simpl in *. rewrite <- H2. by apply IH.
Qed.

(** ** Theorems *)

(** C35: The cache is a direct-mapped map.  After any insertions, lookups and
    clears of an empty cache, with any failures of [strdup], a lookup answers
    exactly what the map from slots to scripts and functions answers: the
    function last inserted for this very script if its slot still holds it, and
    never the function of another script, whatever the hash collisions. *)
Theorem jit_cache_refines stats h os s :
  (ts_mir_cache_lookup (fold_left step os (cache_zero stats h)) s).1
    = spec_lookup (spec_run ∅ h os).1 s.
Proof.
  exact (proj1 (lookup_spec _ _ s (run_spec os (cache_zero stats h) ∅ (zero_implements stats h)))).
Qed.

(** An insertion whose [strdup] succeeds is found by the next lookup of its
    script, counted as a hit, and the entries of the other slots are kept. *)
Theorem jit_cache_insert_lookup c m s fn :
  implements c m -> (alloc (mem c)).1 = true ->
  let c' := ts_mir_cache_insert c s (Some fn) in
  (ts_mir_cache_lookup c' s).1 = Some fn /\
  cache_miss_count (ts_mir_cache_lookup c' s).2 = cache_miss_count c /\
  forall s', slot_of s' <> slot_of s ->
    (ts_mir_cache_lookup c' s').1 = (ts_mir_cache_lookup c s').1.
Proof.
  intros Hc Hok c'. destruct (insert_spec c m s fn Hc) as [Hc' _]. fold c' in Hc'.
  revert Hc'. simpl. destruct (alloc (mem c)) as [ok h]. simpl in Hok. subst ok. simpl.
  intros Hc'. pose proof (lookup_spec _ _ s Hc') as [Hl _].
  assert ((ts_mir_cache_lookup c' s).1 = Some fn) as Hs.
  { rewrite Hl. unfold spec_lookup. rewrite lookup_insert_eq. by rewrite bool_decide_true. }
  split_and!; [done| |].
  - revert Hs. unfold ts_mir_cache_lookup. destruct (slot_matches _ _); [|done].
    intros _. simpl. subst c'. simpl. by destruct (alloc (mem c)).
  - intros s' Hne. rewrite (proj1 (lookup_spec _ _ s' Hc')), (proj1 (lookup_spec _ _ s' Hc)).
    unfold spec_lookup. by rewrite lookup_insert_ne.
Qed.

Lemma jit_cache_insert_lookup_witness :
  (ts_mir_cache_lookup (ts_mir_cache_insert (cache_zero true []) (c_str "1 + 2") (Some 4096))
     (c_str "1 + 2")).1 = Some 4096.
Proof. by apply (jit_cache_insert_lookup (cache_zero true []) ∅); [apply zero_implements|]. Defined.

Definition is_free (e : entry) : bool := negb (bool_decide (is_Some (e_fn_ptr e))).

Lemma lru_loop_spec l : forall i s m,
  match find_index is_free l with
  | Some k => lru_loop l i s m = (i + k)%nat
  | None =>
      (lru_loop l i s m = s /\ Forall (fun e => m <= e_access_count e) l) \/
      exists k e, l !! k = Some e /\ lru_loop l i s m = (i + k)%nat /\ e_access_count e < m /\
        Forall (fun e' => e_access_count e <= e_access_count e') l
  end.
Proof.
  induction l as [|e l IH]; intros i s m; simpl; [left; by split; [|constructor]|].
  unfold is_free at 1. destruct (e_fn_ptr e) as [fn|]; simpl; [|lia].
  destruct (e_access_count e <? m) eqn:C; bool_props;
    [specialize (IH (S i) i (e_access_count e))|specialize (IH (S i) s m)];
    (destruct (find_index is_free l) as [k|]; simpl; [rewrite IH; lia|]).
  - right. destruct IH as [[-> Hall]|(k & e' & Hk & -> & Hlt & Hall)].
    + exists 0%nat, e. split_and!; [done|lia|done|]. constructor; [lia|done].
    + exists (S k), e'. split_and!; [done|lia|lia|]. constructor; [lia|done].
  - destruct IH as [[-> Hall]|(k & e' & Hk & -> & Hlt & Hall)].
    + left. split; [done|]. constructor; [lia|done].
    + right. exists (S k), e'. split_and!; [done|lia|lia|]. constructor; [lia|done].
Qed.

(** The eviction candidate is the first free slot, or, when every slot holds a
    function, one with the smallest access count. *)
Theorem jit_cache_lru c :
  length (jit_cache c) = TS_JIT_CACHE_SIZE ->
  Forall (fun e => e_access_count e <= UINT32_MAX) (jit_cache c) ->
  let r := ts_mir_cache_find_lru_slot c in
  (r < TS_JIT_CACHE_SIZE)%nat /\
  (forall i, (i < TS_JIT_CACHE_SIZE)%nat -> is_free (slot c i) = true ->
     is_free (slot c r) = true /\ (r <= i)%nat) /\
  ((forall i, (i < TS_JIT_CACHE_SIZE)%nat -> is_free (slot c i) = false) ->
   forall i, (i < TS_JIT_CACHE_SIZE)%nat ->
     e_access_count (slot c r) <= e_access_count (slot c i)).
Proof.
  intros Hlen Hmax r. subst r. unfold ts_mir_cache_find_lru_slot.
  pose proof (lru_loop_spec (jit_cache c) 0 0 UINT32_MAX) as Hspec.
  assert (forall i, (i < TS_JIT_CACHE_SIZE)%nat -> jit_cache c !! i = Some (slot c i)) as Hget.
  { intros i Hi. rewrite <- Hlen in Hi. apply lookup_lt_is_Some in Hi as [e He].
    unfold slot. by rewrite nth_lookup, He. }
  destruct (find_index is_free (jit_cache c)) as [k|] eqn:F.
  - rewrite Hspec. simpl. apply find_index_Some in F as (e & Hk & Hf & Hbefore).
    pose proof (lookup_lt_Some _ _ _ Hk) as Hlt. rewrite Hlen in Hlt.
    assert (is_free (slot c k) = true) as Hfk by (rewrite Hget in Hk by done; congruence).
    split_and!; [done| |].
    + intros i Hi Hfi. split; [done|]. destruct (decide (k <= i)%nat) as [|Hn]; [done|].
      rewrite (Hbefore i (slot c i)) in Hfi by (lia || by apply Hget). done.
    + intros Hfull. by rewrite Hfull in Hfk.
  - apply find_index_None in F.
    assert (forall i, (i < TS_JIT_CACHE_SIZE)%nat -> is_free (slot c i) = false) as Hfull.
    { intros i Hi. by eapply (Forall_lookup_1 _ _ _ _ F), Hget. }
    assert ((lru_loop (jit_cache c) 0 0 UINT32_MAX < TS_JIT_CACHE_SIZE)%nat /\
      Forall (fun e' => e_access_count (slot c (lru_loop (jit_cache c) 0 0 UINT32_MAX))
                        <= e_access_count e') (jit_cache c)) as [Hlt Hmin].
    { destruct Hspec as [[-> Hall]|(k & e & Hk & -> & _ & Hall)].
      - split; [unfold TS_JIT_CACHE_SIZE; lia|]. eapply Forall_impl; [exact Hall|].
        simpl. intros e He. apply (Z.le_trans _ UINT32_MAX); [|done].
        eapply (Forall_lookup_1 _ _ _ _ Hmax), Hget. unfold TS_JIT_CACHE_SIZE. lia.
      - pose proof (lookup_lt_Some _ _ _ Hk) as Hlt. rewrite Hlen in Hlt. simpl.
        split; [done|]. rewrite Hget in Hk by done. by injection Hk as ->. }
    split_and!; [done| |].
    + intros i Hi Hfi. by rewrite Hfull in Hfi.
    + intros _ i Hi. by eapply (Forall_lookup_1 _ _ _ _ Hmin), Hget.
Qed.

Lemma counts_bounded l :
  forallb (fun e => e_access_count e <=? UINT32_MAX) l = true ->
  Forall (fun e => e_access_count e <= UINT32_MAX) l.
Proof.
  induction l as [|e l IH]; simpl; [constructor|]. intros H. bool_props.
  constructor; [done|by apply IH].
Qed.

Lemma jit_cache_lru_witness :
  let c := ts_mir_cache_insert (cache_zero true []) (c_str "1 + 2") (Some 4096) in
  (ts_mir_cache_find_lru_slot c < TS_JIT_CACHE_SIZE)%nat.
Proof.
  intros c. apply (jit_cache_lru c); [by vm_compute|].
  apply counts_bounded. by vm_compute.
Defined.
