(* ===== verification/SortSearch.v ===== *)
(** Sorting and searching: what the components use of the C library's [qsort], and
    the binary search over a sorted array that the code writes out. *)

From S2P Require Import Prelude.
From stdpp Require Export sorting.
Open Scope Z_scope.

(** ** Filters *)

Lemma filter_all {A} (P : A -> Prop) `{forall x, Decision (P x)} l : Forall P l -> base.filter P l = l.
Proof. induction 1; [done|]. rewrite filter_cons_True by done. by f_equal. Qed.

Lemma filter_none {A} (P : A -> Prop) `{forall x, Decision (P x)} l :
  Forall (fun x => ~ P x) l -> base.filter P l = [].
Proof. induction 1; [done|]. by rewrite filter_cons_False by done. Qed.

Lemma omap_cons {A B} (f : A -> option B) x l :
  omap f (x :: l) = match f x with Some y => y :: omap f l | None => omap f l end.
Proof. done. Qed.

Lemma StronglySorted_lookup {A} (R : A -> A -> Prop) l i j x y :
  StronglySorted R l -> (i < j)%nat -> l !! i = Some x -> l !! j = Some y -> R x y.
Proof.
  intros Hs. revert i j. induction Hs as [|a l Hs IH Ha]; intros i j Hij Hi Hj; [done|].
  destruct j as [|j]; [lia|]. destruct i as [|i]; simpl in *; simplify_eq.
  - rewrite Forall_forall in Ha. eapply Ha, list_elem_of_lookup_2, Hj.
  - eapply IH; [|done..]. lia.
Qed.

(** ** [qsort]

    The standard asks for a comparison function that is consistent, and leaves the
    order of equal elements open.  [QSort] is a C library with such a [qsort]. *)

Record consistent {A} (cmp : A -> A -> Z) (l : list A) : Prop := {
  cmp_flip a b : a ∈ l -> b ∈ l -> cmp a b <= 0 <-> 0 <= cmp b a;
  cmp_trans a b c : a ∈ l -> b ∈ l -> c ∈ l -> cmp a b <= 0 -> cmp b c <= 0 -> cmp a c <= 0
}.

Class QSort := {
  qsort : forall {A}, (A -> A -> Z) -> list A -> list A;
  qsort_perm {A} (cmp : A -> A -> Z) l : qsort cmp l ≡ₚ l;
  qsort_sorted {A} (cmp : A -> A -> Z) l :
    consistent cmp l -> StronglySorted (fun a b => cmp a b <= 0) (qsort cmp l)
}.

(** Insertion sort is one. *)
Fixpoint insert_sorted {A} (cmp : A -> A -> Z) (a : A) (l : list A) : list A :=
  match l with
  | [] => [a]
  | b :: l' => if cmp a b <=? 0 then a :: b :: l' else b :: insert_sorted cmp a l'
  end.

Fixpoint insertion_sort {A} (cmp : A -> A -> Z) (l : list A) : list A :=
  match l with [] => [] | a :: l => insert_sorted cmp a (insertion_sort cmp l) end.

Lemma insert_sorted_perm {A} (cmp : A -> A -> Z) a l : insert_sorted cmp a l ≡ₚ a :: l.
Proof.
  induction l as [|b l IH]; simpl; [done|]. destruct (_ <=? _); [done|].
  rewrite IH. by constructor.
Qed.

Lemma insertion_sort_perm {A} (cmp : A -> A -> Z) (l : list A) : insertion_sort cmp l ≡ₚ l.
Proof. induction l as [|a l IH]; simpl; [done|]. by rewrite insert_sorted_perm, IH. Qed.

Lemma insert_sorted_ok {A} (cmp : A -> A -> Z) a l :
  consistent cmp (a :: l) -> StronglySorted (fun a b => cmp a b <= 0) l ->
  StronglySorted (fun a b => cmp a b <= 0) (insert_sorted cmp a l).
Proof.
  induction l as [|b l IH]; intros [Hflip Htrans] Hl; simpl; [by repeat constructor|].
  inversion Hl as [|? ? Hl' Hb]; subst. destruct (cmp a b <=? 0) eqn:C; bool_props.
  - constructor; [done|]. constructor; [done|].
    rewrite Forall_forall in *. intros c Hc. apply (Htrans a b c); set_solver.
  - constructor.
    + apply IH; [|done].
      split; intros; [apply Hflip|eapply (Htrans a0 b0 c)]; try done; set_solver.
    + rewrite insert_sorted_perm. constructor; [|done]. apply Hflip; [set_solver..|lia].
Qed.

Lemma insertion_sort_ok {A} (cmp : A -> A -> Z) (l : list A) :
  consistent cmp l -> StronglySorted (fun a b => cmp a b <= 0) (insertion_sort cmp l).
Proof.
  induction l as [|a l IH]; intros Hc; simpl; [constructor|].
  assert (forall c, c ∈ a :: insertion_sort cmp l -> c ∈ a :: l) as Hin.
  { intros c. by rewrite insertion_sort_perm. }
  apply insert_sorted_ok.
  - split; intros; [apply Hc|eapply (cmp_trans _ _ Hc a0 b c)]; auto.
  - apply IH. split; intros; [apply Hc|eapply (cmp_trans _ _ Hc a0 b c)]; try done; set_solver.
Qed.

#[export] Instance insertion_qsort : QSort | 100 := {
  qsort := @insertion_sort;
  qsort_perm := @insertion_sort_perm;
  qsort_sorted := @insertion_sort_ok
}.

(** ** [bsearch]

    The standard asks for an array in which the elements below the key come first and those
    above it last, and leaves open which of several equal elements is found. *)

Definition arranged {A} (sign : A -> Z) (l : list A) : Prop :=
  StronglySorted (fun a b => (sign a <= 0 -> sign b <= 0) /\ (sign a < 0 -> sign b < 0)) l.

Class BSearch := {
  bsearch : forall {K A}, (K -> A -> Z) -> K -> list A -> option A;
  bsearch_found {K A} (cmp : K -> A -> Z) k l a : bsearch cmp k l = Some a -> a ∈ l /\ cmp k a = 0;
  bsearch_missing {K A} (cmp : K -> A -> Z) k l :
    arranged (cmp k) l -> bsearch cmp k l = None -> Forall (fun a => cmp k a <> 0) l
}.

(** Linear search is one. *)
Definition linear_search {K A} (cmp : K -> A -> Z) (k : K) (l : list A) : option A :=
  find (fun a => cmp k a =? 0) l.

#[export, refine] Instance linear_bsearch : BSearch | 100 := { bsearch := @linear_search }.
Proof.
  - intros K A cmp k l a H. apply find_some in H as [H E]. bool_props. by rewrite list_elem_of_In.
  - intros K A cmp k l _ H. apply Forall_forall. intros a Ha. apply list_elem_of_In in Ha.
    pose proof (find_none _ _ H _ Ha) as E. simpl in E. by bool_props.
Defined.

(** ** Binary search

    [while (lo < hi) { mid = lo + (hi - lo) / 2; if (p(a[mid])) lo = mid + 1; else hi = mid; }]
    on an array of [n] elements; [n] turns are enough. *)

Section bisect.
Context {A : Type} (p : A -> bool).

Fixpoint bisect_loop (l : list A) (fuel lo hi : nat) : nat :=
  match fuel with
  | O => lo
  | S fuel =>
      if (lo <? hi)%nat then
        let mid := (lo + (hi - lo) / 2)%nat in
        match l !! mid with
        | Some a => if p a then bisect_loop l fuel (mid + 1) hi else bisect_loop l fuel lo mid
        | None => lo                                          (* not reached *)
        end
      else lo
  end.

Definition bisect (l : list A) : nat := bisect_loop l (length l) 0 (length l).

(** The elements that satisfy [p] come first. *)
Definition partitioned (l : list A) : Prop :=
  forall i j a b, (i < j)%nat -> l !! i = Some a -> l !! j = Some b -> p b = true -> p a = true.

Definition splits (l : list A) (k : nat) : Prop :=
  (k <= length l)%nat /\ forall i a, l !! i = Some a -> p a = bool_decide (i < k)%nat.

Lemma bisect_loop_spec l fuel lo hi :
  partitioned l -> (hi - lo <= fuel)%nat -> (lo <= hi <= length l)%nat ->
  (forall i a, (i < lo)%nat -> l !! i = Some a -> p a = true) ->
  (forall i a, (hi <= i)%nat -> l !! i = Some a -> p a = false) ->
  splits l (bisect_loop l fuel lo hi).
Proof.
  intros Hp. revert lo hi. induction fuel as [|fuel IH]; intros lo hi Hf Hb Hlo Hhi; cbn [bisect_loop].
  - split; [lia|]. intros i a Hi. case_bool_decide; [by eapply Hlo|eapply Hhi; [|done]; lia].
  - destruct (lo <? hi)%nat eqn:C; bool_props.
    2:{ split; [lia|]. intros i a Hi. case_bool_decide; [by eapply Hlo|eapply Hhi; [|done]; lia]. }
    assert ((hi - lo) / 2 < hi - lo)%nat by (apply Nat.div_lt; lia).
    set (mid := (lo + (hi - lo) / 2)%nat) in *.
    destruct (lookup_lt_is_Some_2 l mid) as [a Ha]; [lia|]. cbv zeta. fold mid. rewrite Ha.
    destruct (p a) eqn:Pa.
    + apply IH; [lia..| |done]. intros i b Hi Hb'.
      destruct (decide (i = mid)) as [->|]; [congruence|]. eapply (Hp i mid); eauto; lia.
    + apply IH; [lia..|done|]. intros i b Hi Hb'. apply not_true_iff_false. intros Pb.
      destruct (decide (i = mid)) as [->|]; [congruence|].
      rewrite (Hp mid i a b) in Pa by (done || lia). done.
Qed.

Lemma bisect_splits l : partitioned l -> splits l (bisect l).
Proof.
  intros Hp. apply bisect_loop_spec; [done|lia..| |].
  - intros i a Hi. lia.
  - intros i a Hi Hl. apply lookup_lt_Some in Hl. lia.
Qed.

Lemma splits_filter l k : splits l k -> base.filter (fun a => p a = true) l = take k l.
Proof.
  intros [Hk H]. rewrite <- (take_drop k l) at 1. rewrite filter_app.
  rewrite filter_all, filter_none, app_nil_r; [done|..].
  - apply Forall_forall. intros a (i & Hi)%list_elem_of_lookup. rewrite lookup_drop in Hi.
    rewrite (H _ _ Hi). case_bool_decide; [lia|done].
  - apply Forall_forall. intros a (i & Hi)%list_elem_of_lookup.
    apply lookup_take_Some in Hi as [Hi ?]. rewrite (H _ _ Hi). by rewrite bool_decide_true.
Qed.
End bisect.
