(* ===== verification/Universe.v ===== *)
(** The universe of a backtest: [modules/fin/src/universe.c] and
    [modules/fin/include/universe.h].

    A universe lists assets and price adjustments; [universe_finalize] sorts the
    adjustments and allocates the arrays that [universe_advance] refreshes for each date.  The
    four arrays with an entry per asset are allocated together (the arena does not
    fail), so they are one optional record; [delisted_today] is its written part.
    Sorting is that of the C library ([SortSearch.v]).  Left out are the functions whose
    result is a sum in the order of SIMD lanes: z-scores, demeaning, clipping and sums. *)

From S2P Require Import Prelude Float64 SortSearch.
From Stdlib Require Import SpecFloat.
Open Scope Z_scope.

(** ** Data *)

Definition UNIVERSE_ADJ_SPLIT : Z := 0.
Definition UNIVERSE_ADJ_DIVIDEND : Z := 1.
Definition INITIAL_ASSET_CAP : nat := 64.
Definition INITIAL_ADJ_CAP : nat := 256.

Definition DBL_MAX : f64 := S754_finite false 9007199254740991 971.

Record universe_asset_t := Asset {
  a_id : Z;                      (* uint32_t *)
  a_ticker : string;             (* char[16], up to its NUL *)
  a_exchange : string;
  a_type : Z;
  a_start_date : f64;
  a_end_date : f64;              (* 0: no end *)
  a_lot_size : f64;
  a_tick_size : f64;
  a_margin_req : f64
}.

Record universe_adj_t := Adj {
  adj_asset_id : Z;
  adj_date : f64;
  adj_type : Z;
  adj_factor : f64;
  adj_cum : f64                  (* cum_adj *)
}.

Record arrays := Arrays {
  active_mask : list bool;
  cum_adj_cache : list f64;
  dividend_adj_cache : list f64;
  last_dividend_date : list f64
}.

Record universe_t := Universe {
  u_assets : list universe_asset_t;
  assets_cap : nat;
  u_adjustments : list universe_adj_t;
  adj_cap : nat;
  u_arrays : option arrays;
  u_current_date : f64;
  delisted_today : list Z
}.

Definition num_assets (u : universe_t) : nat := length (u_assets u).

Definition set_arrays (a : option arrays) (u : universe_t) : universe_t :=
  Universe (u_assets u) (assets_cap u) (u_adjustments u) (adj_cap u) a (u_current_date u)
    (delisted_today u).

Definition set_cum (c : f64) (a : universe_adj_t) : universe_adj_t :=
  Adj (adj_asset_id a) (adj_date a) (adj_type a) (adj_factor a) c.

(** ** Building *)

Definition adj_compare (x y : universe_adj_t) : Z :=
  if negb (adj_asset_id x =? adj_asset_id y) then if adj_asset_id x <? adj_asset_id y then -1 else 1
  else if (adj_date x <? adj_date y)%f64 then -1
  else if (adj_date x >? adj_date y)%f64 then 1
  else 0.

Definition universe_create (h : heap) : option universe_t * heap :=
  let (ok_u, h) := alloc h in
  if negb ok_u then (None, h) else
  let (ok_assets, h) := alloc h in
  if negb ok_assets then (None, h) else
  let (ok_adj, h) := alloc h in
  if negb ok_adj then (None, h) else
  (Some (Universe [] INITIAL_ASSET_CAP [] INITIAL_ADJ_CAP None f64_zero []), h).

Definition universe_add_asset (u : universe_t) (asset : universe_asset_t) (h : heap)
    : Z * universe_t * heap :=
  let add cap u := Universe (u_assets u ++ [asset]) cap (u_adjustments u) (adj_cap u) (u_arrays u)
                     (u_current_date u) (delisted_today u) in
  if (assets_cap u <=? num_assets u)%nat then
    match alloc h with
    | (true, h) => (0, add (assets_cap u * 2)%nat u, h)
    | (false, h) => (-1, u, h)
    end
  else (0, add (assets_cap u) u, h).

Definition universe_add_adjustment (u : universe_t) (adj : universe_adj_t) (h : heap)
    : Z * universe_t * heap :=
  let add cap u := Universe (u_assets u) (assets_cap u) (u_adjustments u ++ [adj]) cap (u_arrays u)
                     (u_current_date u) (delisted_today u) in
  if (adj_cap u <=? length (u_adjustments u))%nat then
    match alloc h with
    | (true, h) => (0, add (adj_cap u * 2)%nat u, h)
    | (false, h) => (-1, u, h)
    end
  else (0, add (adj_cap u) u, h).

(** The two nested loops of step 2 pass over the array once: the product starts
    again where the asset changes. *)
Fixpoint cum_loop (aid : option Z) (cum : f64) (l : list universe_adj_t) : list universe_adj_t :=
  match l with
  | [] => []
  | a :: l =>
      let cum := if decide (aid = Some (adj_asset_id a)) then cum else f64_one in
      let cum := if adj_type a =? UNIVERSE_ADJ_SPLIT then (cum / adj_factor a)%f64 else cum in
      set_cum cum a :: cum_loop (Some (adj_asset_id a)) cum l
  end.

Definition fresh_arrays (n : nat) : arrays :=
  Arrays (replicate n false) (replicate n f64_one) (replicate n f64_one)
    (replicate n (- DBL_MAX)%f64).

(** With arrays of [num_assets] entries, as [universe_finalize] makes them. *)
Definition universe_reset_runtime (u : universe_t) : universe_t :=
  Universe (u_assets u) (assets_cap u) (u_adjustments u) (adj_cap u)
    ((fun _ => fresh_arrays (num_assets u)) <$> u_arrays u) f64_zero [].

Definition universe_finalize `{QSort} (u : universe_t) : universe_t :=
  let l := if (1 <? length (u_adjustments u))%nat then qsort adj_compare (u_adjustments u)
           else u_adjustments u in
  let u := Universe (u_assets u) (assets_cap u) (cum_loop None f64_one l) (adj_cap u) (u_arrays u)
             (u_current_date u) (delisted_today u) in
  if (num_assets u =? 0)%nat then u
  else universe_reset_runtime (set_arrays (Some (fresh_arrays (num_assets u))) u).

Definition universe_reset (u : universe_t) : universe_t := universe_reset_runtime u.

(** ** Searching *)

Definition after (asset_id : Z) (d : f64) (a : universe_adj_t) : bool :=
  (adj_asset_id a <? asset_id) || (adj_asset_id a =? asset_id) && (adj_date a <=? d)%f64.

Definition before (asset_id : Z) (d : f64) (a : universe_adj_t) : bool :=
  (adj_asset_id a <? asset_id) || (adj_asset_id a =? asset_id) && (adj_date a <? d)%f64.

Definition adj_upper_bound (l : list universe_adj_t) (asset_id : Z) (d : f64) : nat :=
  bisect (after asset_id d) l.

Definition adj_lower_bound (l : list universe_adj_t) (asset_id : Z) (d : f64) : nat :=
  bisect (before asset_id d) l.

Definition universe_find_asset (u : universe_t) (asset_id : Z) : option nat :=
  find_index (fun a => a_id a =? asset_id) (u_assets u).

(** [strncmp] over the whole field. *)
Definition universe_find_by_ticker (u : universe_t) (ticker : string) : option universe_asset_t :=
  i ← find_index (fun a => bool_decide (a_ticker a = String.substring 0 16 ticker)) (u_assets u);
  u_assets u !! i.

(** ** One bar *)

Definition now_active (date : f64) (a : universe_asset_t) : bool :=
  (a_start_date a <=? date)%f64 && ((a_end_date a ==? 0.0)%f64 || (a_end_date a >? date)%f64).

Definition delisted (prev_date date : f64) (a : universe_asset_t) : bool :=
  (a_end_date a >? 0.0)%f64 && (a_end_date a >? prev_date)%f64 && (a_end_date a <=? date)%f64.

(** The cumulative factor of the latest adjustment of an asset, if there is one. *)
Definition split_adj (l : list universe_adj_t) (asset_id : Z) (date : f64) : option f64 :=
  let hi := adj_upper_bound l asset_id date in
  if (0 <? hi)%nat then
    let lo := adj_lower_bound l asset_id (- DBL_MAX)%f64 in
    match l !! (hi - 1)%nat with
    | Some e => if (lo <? hi)%nat && (adj_asset_id e =? asset_id) then Some (adj_cum e) else None
    | None => None
    end
  else None.

Definition adj_of (l : list universe_adj_t) (asset_id : Z) (date dividend : f64) : f64 :=
  match split_adj l asset_id date with
  | Some cum => (cum * dividend)%f64
  | None => dividend
  end.

Definition universe_advance (u : universe_t) (date : f64) : universe_t :=
  match u_arrays u with
  | None => u
  | Some _ =>
      if (num_assets u =? 0)%nat then u
      else
        let u := if (date <? u_current_date u)%f64 then universe_reset_runtime u else u in
        let prev_date := u_current_date u in
        let l := u_adjustments u in
        let refresh r :=
          Arrays (now_active date <$> u_assets u)
            (match l with
             | [] => cum_adj_cache r
             | _ => zip_with (fun a dividend => adj_of l (a_id a) date dividend) (u_assets u)
                      (dividend_adj_cache r)
             end)
            (dividend_adj_cache r) (last_dividend_date r) in
        Universe (u_assets u) (assets_cap u) l (adj_cap u) (refresh <$> u_arrays u) date
          (a_id <$> base.filter (fun a => delisted prev_date date a = true) (u_assets u))
  end.

(** A cash dividend becomes a factor once the close of the day before is known. *)
Definition dividend_step (asset_id : Z) (date prev_close : f64) (cache : f64) (a : universe_adj_t) : f64 :=
  if negb (adj_asset_id a =? asset_id) || (adj_date a !=? date)%f64 ||
     negb (adj_type a =? UNIVERSE_ADJ_DIVIDEND) then cache
  else
    let ratio := ((prev_close - adj_factor a) / prev_close)%f64 in
    if (ratio >? 0.0)%f64 then (cache * ratio)%f64 else cache.

Definition slice {A} (lo hi : nat) (l : list A) : list A := take (hi - lo) (drop lo l).

Definition mark_dividend (i : nat) (date : f64) (r : arrays) : arrays :=
  Arrays (active_mask r) (cum_adj_cache r) (dividend_adj_cache r)
    (<[i := date]> (last_dividend_date r)).

Definition universe_apply_runtime_adjustments (u : universe_t) (asset_id : Z) (date prev_close : f64)
    : universe_t :=
  let l := u_adjustments u in
  if (length l =? 0)%nat || (prev_close <=? 0.0)%f64 then u
  else
    match universe_find_asset u asset_id, u_arrays u with
    | Some idx, Some r =>
        if (nth idx (last_dividend_date r) f64_zero ==? date)%f64 then u
        else
          let lo := adj_lower_bound l asset_id date in
          let hi := adj_upper_bound l asset_id date in
          if (hi <=? lo)%nat then set_arrays (Some (mark_dividend idx date r)) u
          else
            let dividend := foldl (dividend_step asset_id date prev_close)
                              (nth idx (dividend_adj_cache r) f64_zero) (slice lo hi l) in
            let cum := (default f64_one (split_adj l asset_id date) * dividend)%f64 in
            set_arrays (Some (mark_dividend idx date
              (Arrays (active_mask r) (<[idx := cum]> (cum_adj_cache r))
                 (<[idx := dividend]> (dividend_adj_cache r)) (last_dividend_date r)))) u
    | _, _ => u
    end.

Definition active_at (u : universe_t) (i : nat) : bool :=
  match u_arrays u with Some r => nth i (active_mask r) false | None => false end.

Definition universe_is_active (u : universe_t) (asset_id : Z) : bool :=
  match universe_find_asset u asset_id with Some i => active_at u i | None => false end.

Definition universe_active_ids (u : universe_t) (max : nat) : list Z :=
  take max (omap (fun '(i, a) => if active_at u i then Some (a_id a) else None)
              (imap pair (u_assets u))).

Definition universe_active_count (u : universe_t) : nat :=
  length (base.filter (fun i => active_at u i = true) (seq 0 (num_assets u))).

Definition universe_adj_factor (u : universe_t) (asset_id : Z) : f64 :=
  match universe_find_asset u asset_id, u_arrays u with
  | Some i, Some r => nth i (cum_adj_cache r) f64_one
  | _, _ => f64_one
  end.

Definition universe_adjust_price (u : universe_t) (asset_id : Z) (raw_price : f64) : f64 :=
  (raw_price * universe_adj_factor u asset_id)%f64.

Definition universe_adjust_prices (u : universe_t) (raw : list f64) : list f64 :=
  match u_arrays u with
  | Some r => zip_with f64_mul raw (take (num_assets u) (cum_adj_cache r))
  | None => []
  end.

Definition universe_delisted_today (u : universe_t) (max : nat) : list Z := take max (delisted_today u).

(** ** Cross sections: only active assets take part *)

(** The (index, value) pairs of the active assets among the first [n]. *)
Definition active_items (u : universe_t) (values : list f64) : list (nat * f64) :=
  omap (fun i => if active_at u i then Some (i, nth i values f64_zero) else None)
    (seq 0 (Nat.min (num_assets u) (length values))).

Definition compare_rank_items (a b : nat * f64) : Z :=
  if (a.2 <? b.2)%f64 then -1 else if (a.2 >? b.2)%f64 then 1 else 0.

Definition rp_cmp_desc (a b : nat * f64) : Z :=
  if (a.2 >? b.2)%f64 then -1 else if (a.2 <? b.2)%f64 then 1 else 0.

Definition rank_denom (active_count : nat) : f64 :=
  f64_of_Z (Z.of_nat (if (0 <? active_count - 1)%nat then active_count - 1 else 1)).

Definition universe_rank `{QSort} (u : universe_t) (values : list f64) : list f64 :=
  let na := Nat.min (num_assets u) (length values) in
  let items := qsort compare_rank_items (active_items u values) in
  foldl (fun out '(i, item) => <[item.1 := (f64_of_Z (Z.of_nat i) / rank_denom (length items))%f64]> out)
    (replicate na f64_zero) (imap pair items).

Definition universe_top_n `{QSort} (u : universe_t) (values : list f64) (k : nat) : list Z :=
  if (length values =? 0)%nat || (k =? 0)%nat then []
  else
    let items := qsort rp_cmp_desc (active_items u values) in
    omap (fun item => a_id <$> u_assets u !! item.1) (take k items).

Definition universe_filter_gt (u : universe_t) (values : list f64) (threshold : f64) : list bool * nat :=
  let mask := (fun i => active_at u i && (nth i values f64_zero >? threshold)%f64) <$>
                seq 0 (Nat.min (num_assets u) (length values)) in
  (mask, length (base.filter (fun b => b = true) mask)).

(** ** Sorted adjustments *)

Definition adj_le (x y : universe_adj_t) : Prop :=
  adj_asset_id x < adj_asset_id y \/
  adj_asset_id x = adj_asset_id y /\ (adj_date x <=? adj_date y)%f64 = true.

(** A date is a number, and not below every finite one. *)
Definition date_ok (a : universe_adj_t) : Prop :=
  is_nan (adj_date a) = false /\ (adj_date a <? - DBL_MAX)%f64 = false.

(** The factors of the splits of an asset, and what they multiply prices by. *)
Definition split_factors (asset_id : Z) (l : list universe_adj_t) : list f64 :=
  omap (fun a => if (adj_asset_id a =? asset_id) && (adj_type a =? UNIVERSE_ADJ_SPLIT)
                 then Some (adj_factor a) else None) l.

Definition divided (l : list f64) : f64 := foldl f64_div f64_one l.

Record adjustments_ok (l : list universe_adj_t) : Prop := {
  adj_sorted : StronglySorted adj_le l;
  adj_dates : Forall date_ok l;
  adj_cums i a : l !! i = Some a -> adj_cum a = divided (split_factors (adj_asset_id a) (take (i + 1) l))
}.

Lemma adj_compare_le x y :
  is_nan (adj_date x) = false -> is_nan (adj_date y) = false -> adj_compare x y <= 0 <-> adj_le x y.
Proof.
  intros Hx Hy. unfold adj_compare, adj_le.
  destruct (adj_asset_id x =? adj_asset_id y) eqn:E; simpl; bool_props.
  - destruct (adj_date x <? adj_date y)%f64 eqn:L.
    + apply f64_ltb_leb in L. split; [intros; by right|lia].
    + destruct (adj_date y <? adj_date x)%f64 eqn:G; split; try lia.
      * intros [|[_ Hle]]; [lia|]. by rewrite (f64_leb_ltb_false _ _ Hle) in G.
      * intros _. right. split; [done|]. by apply f64_ltb_false_leb.
  - destruct (_ <? _) eqn:L; bool_props; split; intros; lia.
Qed.

Lemma adj_le_trans x y z : adj_le x y -> adj_le y z -> adj_le x z.
Proof.
  unfold adj_le. intros [?|[? Hxy]] [?|[? Hyz]]; try (left; lia).
  right. split; [lia|]. by eapply f64_leb_trans.
Qed.

Lemma adj_compare_consistent l : Forall date_ok l -> consistent adj_compare l.
Proof.
  rewrite Forall_forall. intros H. split.
  - intros a b [Ha _]%H [Hb _]%H. rewrite adj_compare_le by done. unfold adj_compare, adj_le.
    rewrite (Z.eqb_sym (adj_asset_id b)).
    destruct (adj_asset_id a =? adj_asset_id b) eqn:E; simpl; bool_props.
    + destruct (adj_date b <? adj_date a)%f64 eqn:L.
      * split; [|lia]. intros [|[_ Hle]]; [lia|]. by rewrite (f64_leb_ltb_false _ _ Hle) in L.
      * split; [destruct (adj_date a <? adj_date b)%f64; lia|].
        intros _. right. split; [done|]. by apply f64_ltb_false_leb.
    + destruct (_ <? _) eqn:L; bool_props; split; intros; lia.
  - intros a b c [Ha _]%H [Hb _]%H [Hc _]%H. rewrite !adj_compare_le by done. apply adj_le_trans.
Qed.

Lemma after_partitioned l asset_id d : StronglySorted adj_le l -> partitioned (after asset_id d) l.
Proof.
  intros Hs i j a b Hij Ha Hb. unfold after. rewrite !orb_true_iff, !andb_true_iff, !Z.ltb_lt, !Z.eqb_eq.
  destruct (StronglySorted_lookup _ _ _ _ _ _ Hs Hij Ha Hb) as [|[? Hle]]; [lia|].
  intros [|[? Hd]]; [lia|]. right. split; [lia|]. by eapply f64_leb_trans.
Qed.

Lemma before_partitioned l asset_id d : StronglySorted adj_le l -> partitioned (before asset_id d) l.
Proof.
  intros Hs i j a b Hij Ha Hb. unfold before. rewrite !orb_true_iff, !andb_true_iff, !Z.ltb_lt, !Z.eqb_eq.
  destruct (StronglySorted_lookup _ _ _ _ _ _ Hs Hij Ha Hb) as [|[? Hle]]; [lia|].
  intros [|[? Hd]]; [lia|]. right. split; [lia|]. by eapply f64_leb_ltb_trans.
Qed.

Lemma split_factors_app id l l' : split_factors id (l ++ l') = split_factors id l ++ split_factors id l'.
Proof. apply omap_app. Qed.

Lemma split_factors_cons id a l :
  split_factors id (a :: l) =
    (if (adj_asset_id a =? id) && (adj_type a =? UNIVERSE_ADJ_SPLIT) then [adj_factor a] else []) ++
    split_factors id l.
Proof. unfold split_factors. rewrite omap_cons. by destruct (_ && _). Qed.

Lemma split_factors_none id l : Forall (fun a => adj_asset_id a <> id) l -> split_factors id l = [].
Proof.
  induction 1 as [|a l Ha _ IH]; [done|]. by rewrite split_factors_cons, (proj2 (Z.eqb_neq _ _) Ha), IH.
Qed.

(** What [cum_loop] keeps of an array. *)
Lemma cum_loop_same aid cum l :
  Forall2 (fun a b => a = set_cum (adj_cum a) b) (cum_loop aid cum l) l.
Proof. revert aid cum. induction l as [|a l IH]; intros; simpl; by constructor. Qed.

Lemma cum_loop_factors id aid cum l : split_factors id (cum_loop aid cum l) = split_factors id l.
Proof.
  revert aid cum. induction l as [|a l IH]; intros; [done|].
  cbn [cum_loop]. by rewrite !split_factors_cons, IH.
Qed.

Lemma cum_loop_take k aid cum l : take k (cum_loop aid cum l) = cum_loop aid cum (take k l).
Proof. revert k aid cum. induction l as [|a l IH]; intros [|k] ??; simpl; [done..|]. by rewrite IH. Qed.

Lemma divided_snoc l x : divided (l ++ [x]) = (divided l / x)%f64.
Proof. apply foldl_snoc. Qed.

Lemma cum_loop_cums l : forall pre cum,
  StronglySorted adj_le (pre ++ l) ->
  match last pre with
  | Some a => cum = divided (split_factors (adj_asset_id a) pre)
  | None => True
  end ->
  forall i a, cum_loop (adj_asset_id <$> last pre) cum l !! i = Some a ->
  adj_cum a = divided (split_factors (adj_asset_id a) (pre ++ take (i + 1) l)).
Proof.
  induction l as [|b l IH]; intros pre cum Hs Hpre i a; [done|]. cbn [cum_loop].
  set (cum1 := if decide _ then cum else f64_one).
  set (cum2 := if adj_type b =? _ then _ else cum1).
  assert (cum1 = divided (split_factors (adj_asset_id b) pre)) as H1.
  { unfold cum1. destruct (last pre) as [c|] eqn:L; simpl in *.
    - case_decide as D; [injection D as D; by rewrite Hpre, D|].
      rewrite split_factors_none; [done|]. apply Forall_forall. intros d (j & Hj)%list_elem_of_lookup E.
      rewrite last_lookup in L.
      assert (StronglySorted adj_le pre) as Hsp.
      { clear -Hs. induction pre as [|x pre IH]; [constructor|]. inversion Hs; subst.
        constructor; [auto|]. rewrite Forall_app in *. by destruct_and!. }
      assert (adj_asset_id c <= adj_asset_id b).
      { assert (adj_le c b) as [|[]]; [|lia..]. eapply (StronglySorted_lookup _ _ (pred (length pre)) (length pre)).
        - apply Hs.
        - apply lookup_lt_Some in L. lia.
        - by rewrite lookup_app_l by (apply lookup_lt_Some in L; lia).
        - by rewrite list_lookup_middle. }
      assert (adj_asset_id d <= adj_asset_id c).
      { destruct (decide (j = pred (length pre))) as [->|]; [simplify_eq; lia|].
        pose proof (lookup_lt_Some _ _ _ Hj).
        assert (adj_le d c) as [|[]]; [|lia..]. eapply (StronglySorted_lookup _ _ j (pred (length pre))); eauto; lia. }
      assert (adj_asset_id c <> adj_asset_id b) by congruence. lia.
    - by apply last_None in L as ->. }
  assert (cum2 = divided (split_factors (adj_asset_id b) (pre ++ [b]))) as H2.
  { unfold cum2. rewrite split_factors_app, split_factors_cons, Z.eqb_refl. simpl.
    rewrite H1. destruct (_ =? _); simpl; [by rewrite divided_snoc|by rewrite app_nil_r]. }
  destruct i as [|i]; simpl.
  - intros [= <-]. simpl. by rewrite take_0.
  - intros Hi. replace (pre ++ b :: take (i + 1) l) with ((pre ++ [b]) ++ take (i + 1) l) by by rewrite <- app_assoc.
    apply (IH (pre ++ [b]) cum2); [by rewrite <- app_assoc|by rewrite last_snoc|by rewrite last_snoc].
Qed.

Lemma cum_loop_ok l :
  StronglySorted adj_le l -> Forall date_ok l -> adjustments_ok (cum_loop None f64_one l).
Proof.
  intros Hs Hd. pose proof (cum_loop_same None f64_one l) as Hl. split.
  - revert Hs. clear Hd. induction Hl as [|a b l' l Ha Hl IH]; intros Hs; [constructor|].
    inversion Hs as [|? ? Hs' Hb]; subst. constructor; [auto|].
    rewrite Ha. clear -Hl Hb. induction Hl as [|c d ? ? Hc]; [constructor|].
    inversion Hb; subst. rewrite Hc. by constructor; auto.
  - clear Hs. induction Hl as [|a b l' l Ha Hl IH]; [constructor|].
    inversion Hd; subst. rewrite Ha. by constructor; auto.
  - intros i a Hi. rewrite (cum_loop_cums l [] f64_one Hs I i a Hi). simpl.
    by rewrite cum_loop_take, cum_loop_factors.
Qed.

(** The adjustments of an asset up to a date. *)
Definition events (l : list universe_adj_t) (asset_id : Z) (date : f64) : list universe_adj_t :=
  base.filter (fun a => adj_asset_id a = asset_id /\ (adj_date a <=? date)%f64 = true) l.

Lemma split_factors_filter id (P : universe_adj_t -> Prop) `{forall a, Decision (P a)} l :
  Forall (fun a => adj_asset_id a = id -> P a) l -> split_factors id (base.filter P l) = split_factors id l.
Proof.
  induction 1 as [|a l Ha _ IH]; [done|]. rewrite split_factors_cons.
  destruct (decide (P a)) as [Hp|Hp].
  - by rewrite filter_cons_True, split_factors_cons, IH.
  - rewrite filter_cons_False, IH by done. destruct (adj_asset_id a =? id) eqn:E; [|done].
    bool_props. naive_solver.
Qed.

Lemma events_after l asset_id date :
  events l asset_id date =
    base.filter (fun a => adj_asset_id a = asset_id /\ (adj_date a <=? date)%f64 = true)
      (base.filter (fun a => after asset_id date a = true) l).
Proof.
  unfold events. rewrite list_filter_filter_l; [done|].
  intros a [E Hd]. unfold after. by rewrite E, Z.eqb_refl, Hd, orb_true_r.
Qed.

(** The latest adjustment up to a date carries the product of all of them. *)
Lemma split_adj_spec l asset_id date :
  adjustments_ok l ->
  split_adj l asset_id date =
    match events l asset_id date with
    | [] => None
    | ev => Some (divided (split_factors asset_id ev))
    end.
Proof.
  intros [Hs Hd Hc]. unfold split_adj. rewrite events_after.
  pose proof (bisect_splits _ l (after_partitioned l asset_id date Hs)) as Hhi.
  rewrite (splits_filter _ _ _ Hhi). unfold adj_upper_bound. set (hi := bisect (after asset_id date) l) in *.
  set (lo := adj_lower_bound l asset_id (- DBL_MAX)%f64).
  destruct hi as [|k] eqn:Ek; [done|].
  change (0 <? S k)%nat with true. cbv iota zeta. rewrite Nat.sub_succ, Nat.sub_0_r.
  destruct Hhi as [Hk Hhi]. destruct (lookup_lt_is_Some_2 l k) as [e He]; [lia|]. rewrite He.
  pose proof (Hhi k e He) as Pe. rewrite bool_decide_true in Pe by lia.
  set (P := fun a => adj_asset_id a = asset_id /\ (adj_date a <=? date)%f64 = true).
  assert (Forall (fun a => adj_asset_id a = asset_id -> P a) (take (S k) l)) as Hall.
  { apply Forall_forall. intros a (i & [Hi ?]%lookup_take_Some)%list_elem_of_lookup E.
    pose proof (Hhi i a Hi) as Pa. rewrite bool_decide_true in Pa by lia. unfold after in Pa.
    rewrite E, Z.ltb_irrefl, Z.eqb_refl in Pa. by split. }
  destruct (adj_asset_id e =? asset_id) eqn:E; bool_props.
  - assert (lo <= k)%nat as Hlo.
    { unfold lo. destruct (bisect_splits _ l (before_partitioned l asset_id (- DBL_MAX)%f64 Hs)) as [_ Hb].
      specialize (Hb k e He). unfold before, adj_lower_bound in *. rewrite Forall_forall in Hd.
      destruct (Hd e) as [_ Hn]; [by eapply list_elem_of_lookup_2|].
      rewrite E, Hn, Z.ltb_irrefl, andb_false_r in Hb. simpl in Hb.
      symmetry in Hb. apply bool_decide_eq_false in Hb. apply Nat.nlt_ge, Hb. }
    rewrite (proj2 (Nat.ltb_lt lo (S k))) by lia. cbn [andb].
    assert (e ∈ base.filter P (take (S k) l)) as Hin.
    { apply list_elem_of_filter. rewrite Forall_forall in Hall. assert (e ∈ take (S k) l); [|auto].
      apply list_elem_of_lookup. exists k. apply lookup_take_Some. split; [done|lia]. }
    pose proof (split_factors_filter asset_id P (take (S k) l) Hall) as Hf.
    destruct (base.filter P (take (S k) l)) as [|x ev]; [by apply not_elem_of_nil in Hin|].
    by rewrite Hf, (Hc k e He), E, Nat.add_1_r.
  - rewrite andb_false_r. rewrite filter_none; [done|].
    apply Forall_forall. intros a (i & [Hi ?]%lookup_take_Some)%list_elem_of_lookup [Ea _].
    unfold after in Pe. rewrite (proj2 (Z.eqb_neq _ _) E) in Pe. simpl in Pe. bool_props.
    destruct (decide (i = k)) as [->|]; [congruence|].
    destruct (StronglySorted_lookup _ _ i k _ _ Hs ltac:(lia) Hi He) as [|[]]; lia.
Qed.

(** ** The arrays stay in step with the assets *)

Definition arrays_ok (u : universe_t) (r : arrays) : Prop :=
  length (active_mask r) = num_assets u /\ length (cum_adj_cache r) = num_assets u /\
  length (dividend_adj_cache r) = num_assets u /\ length (last_dividend_date r) = num_assets u /\
  (u_adjustments u = [] ->
   cum_adj_cache r = replicate (num_assets u) f64_one /\
   dividend_adj_cache r = replicate (num_assets u) f64_one).

Record universe_ok (u : universe_t) : Prop := {
  uo_adjustments : adjustments_ok (u_adjustments u);
  uo_arrays : match u_arrays u with Some r => arrays_ok u r | None => num_assets u = 0%nat end
}.

Lemma fresh_arrays_ok u n : n = num_assets u -> arrays_ok u (fresh_arrays n).
Proof. intros ->. unfold arrays_ok, fresh_arrays. simpl. by rewrite !length_replicate. Qed.

(** What no operation on a finalized universe changes. *)
Definition same_registry (u u' : universe_t) : Prop :=
  u_assets u' = u_assets u /\ u_adjustments u' = u_adjustments u.

Lemma reset_ok u : universe_ok u -> universe_ok (universe_reset_runtime u).
Proof.
  intros [Ha Hr]. split; [done|]. unfold universe_reset_runtime. simpl.
  destruct (u_arrays u); simpl; [by apply fresh_arrays_ok|done].
Qed.

Lemma advance_registry u date : same_registry u (universe_advance u date).
Proof.
  unfold universe_advance. destruct (u_arrays u); [|done]. destruct (_ =? 0)%nat; [done|].
  by destruct (date <? _)%f64.
Qed.

Lemma advance_ok u date : universe_ok u -> universe_ok (universe_advance u date).
Proof.
  intros Hu. unfold universe_advance. destruct (u_arrays u) as [r0|] eqn:E0; [|done].
  destruct (_ =? 0)%nat; [done|].
  set (u1 := if (date <? u_current_date u)%f64 then universe_reset_runtime u else u).
  assert (universe_ok u1) as [Ha Hr] by (subst u1; destruct (_ <? _)%f64; [by apply reset_ok|done]).
  split; [done|]. simpl. destruct (u_arrays u1) as [r|]; simpl; [|done].
  destruct Hr as (Hm & Hc & Hd & Hl & He). unfold arrays_ok, num_assets in *. simpl.
  rewrite length_fmap. split_and!; [done| |done..|by intros H; rewrite H in *; auto].
  destruct (u_adjustments u1); [done|]. rewrite length_zip_with. lia.
Qed.

Lemma apply_registry u id d pc : same_registry u (universe_apply_runtime_adjustments u id d pc).
Proof.
  unfold universe_apply_runtime_adjustments. destruct (_ || _); [done|].
  destruct (universe_find_asset u id); [|done]. destruct (u_arrays u); [|done].
  destruct (_ ==? _)%f64; [done|]. by destruct (_ <=? _)%nat.
Qed.

Lemma apply_ok u id d pc : universe_ok u -> universe_ok (universe_apply_runtime_adjustments u id d pc).
Proof.
  intros [Ha Hr]. unfold universe_apply_runtime_adjustments.
  destruct (length (u_adjustments u) =? 0)%nat eqn:E; simpl; [done|]. bool_props.
  destruct (_ <=? _)%f64; [done|]. destruct (universe_find_asset u id); [|done].
  destruct (u_arrays u) as [r|] eqn:Er; [|by split; rewrite ?Er].
  destruct (_ ==? _)%f64; [by split; rewrite ?Er|]. destruct Hr as (Hm & Hc & Hd & Hl & He).
  assert (u_adjustments u <> []) by (by destruct (u_adjustments u)).
  destruct (_ <=? _)%nat; (split; [done|]); unfold arrays_ok, num_assets in *; simpl;
    rewrite ?length_insert; done.
Qed.

Inductive u_step : universe_t -> universe_t -> Prop :=
  | step_advance u date : u_step u (universe_advance u date)
  | step_apply u id date prev_close : u_step u (universe_apply_runtime_adjustments u id date prev_close)
  | step_reset u : u_step u (universe_reset u).

Lemma u_step_ok u u' : u_step u u' -> universe_ok u -> universe_ok u' /\ same_registry u u'.
Proof.
  intros [] Hu; (split; [|auto using advance_registry, apply_registry]);
    auto using advance_ok, apply_ok, reset_ok. done.
Qed.

Lemma u_steps_ok u u' : rtc u_step u u' -> universe_ok u -> universe_ok u' /\ same_registry u u'.
Proof.
  induction 1 as [|u u1 u2 H _ IH]; intros Hu; [done|].
  destruct (u_step_ok _ _ H Hu) as [H1 [Ea Ed]]. destruct (IH H1) as [H2 [Ea' Ed']].
  split; [done|]. split; congruence.
Qed.

Lemma same_events l l' :
  Forall2 (fun a b => a = set_cum (adj_cum a) b) l l' ->
  set_cum f64_zero <$> l = set_cum f64_zero <$> l'.
Proof. induction 1 as [|a b ? ? E _ IH]; [done|]. rewrite !fmap_cons, IH. by rewrite E. Qed.

Section finalized.
Context {Q : QSort}.

Lemma finalize_registry u :
  u_assets (universe_finalize u) = u_assets u /\
  set_cum f64_zero <$> u_adjustments (universe_finalize u) ≡ₚ set_cum f64_zero <$> u_adjustments u.
Proof.
  unfold universe_finalize.
  set (l := if (1 <? length (u_adjustments u))%nat then _ else _).
  assert (l ≡ₚ u_adjustments u) as Hp by (subst l; destruct (1 <? _)%nat; [apply qsort_perm|done]).
  assert (set_cum f64_zero <$> cum_loop None f64_one l = set_cum f64_zero <$> l) as He.
  { apply same_events, cum_loop_same. }
  destruct (_ =? 0)%nat; simpl; (split; [done|]); by rewrite He, Hp.
Qed.

Lemma finalize_ok u :
  u_arrays u = None -> Forall date_ok (u_adjustments u) -> universe_ok (universe_finalize u).
Proof.
  intros Hu Hd. unfold universe_finalize.
  set (l := if (1 <? length (u_adjustments u))%nat then _ else _).
  assert (StronglySorted adj_le l) as Hs.
  { subst l. destruct (1 <? _)%nat eqn:E; bool_props.
    - pose proof (qsort_sorted _ _ (adj_compare_consistent _ Hd)) as Hs.
      assert (Forall date_ok (qsort adj_compare (u_adjustments u))) as Hd' by by rewrite qsort_perm.
      induction Hs as [|a l' _ IH Ha]; [constructor|]. inversion Hd' as [|? ? [Na _] Hd1]; subst.
      constructor; [auto|]. rewrite Forall_forall in *. intros b Hb. apply adj_compare_le; [done| |auto].
      by destruct (Hd1 b Hb).
    - destruct (u_adjustments u) as [|a [|b l']]; [constructor|by repeat constructor|simpl in E; lia]. }
  assert (Forall date_ok l) as Hdl by (subst l; destruct (1 <? _)%nat; [by rewrite qsort_perm|done]).
  pose proof (cum_loop_ok l Hs Hdl) as Ha.
  unfold num_assets. simpl. destruct (length (u_assets u) =? 0)%nat eqn:E; bool_props.
  - split; [done|]. by rewrite Hu.
  - split; [done|]. by apply fresh_arrays_ok.
Qed.
End finalized.

(** ** What a strategy sees of a date *)

(** The factor an asset's prices are multiplied by: the product of its splits up to the
    date and what its dividends have accumulated. *)
Definition price_factor (l : list universe_adj_t) (asset_id : Z) (date dividend : f64) : f64 :=
  match events l asset_id date with
  | [] => dividend
  | ev => (divided (split_factors asset_id ev) * dividend)%f64
  end.

Definition dividend_at (u : universe_t) (i : nat) : f64 :=
  match u_arrays u with Some r => nth i (dividend_adj_cache r) f64_one | None => f64_one end.

Lemma find_asset_nth u i a :
  NoDup (a_id <$> u_assets u) -> u_assets u !! i = Some a -> universe_find_asset u (a_id a) = Some i.
Proof.
  intros Hn Hi. apply find_index_Some. exists a. split_and!; [done|apply Z.eqb_refl|].
  intros j b Hj Hb. apply Z.eqb_neq. intros E.
  assert (j = i); [|lia]. eapply (NoDup_lookup _ _ _ (a_id a) Hn); by rewrite list_lookup_fmap, ?Hi, ?Hb; simpl; f_equal.
Qed.

Lemma nth_lookup_Some {A} (l : list A) i x d : l !! i = Some x -> nth i l d = x.
Proof. intros H. by rewrite nth_lookup, H. Qed.

Lemma advance_factor u r date i a :
  universe_ok u -> u_arrays u = Some r -> u_assets u !! i = Some a ->
  nth i (match u_adjustments u with
         | [] => cum_adj_cache r
         | _ => zip_with (fun a dividend => adj_of (u_adjustments u) (a_id a) date dividend) (u_assets u)
                  (dividend_adj_cache r)
         end) f64_one =
    price_factor (u_adjustments u) (a_id a) date (nth i (dividend_adj_cache r) f64_one).
Proof.
  intros [Ha Hr] Er Hi. rewrite Er in Hr. destruct Hr as (_ & _ & Hd & _ & He).
  pose proof (lookup_lt_Some _ _ _ Hi) as Hlt. fold (num_assets u) in Hlt.
  pose proof (split_adj_spec _ (a_id a) date Ha) as Hs. unfold price_factor.
  destruct (u_adjustments u) as [|e l] eqn:El.
  - destruct (He eq_refl) as [-> ->]. done.
  - destruct (lookup_lt_is_Some_2 (dividend_adj_cache r) i) as [d Hd']; [lia|].
    rewrite (nth_lookup_Some _ _ _ f64_one Hd').
    rewrite (nth_lookup_Some _ i (adj_of (e :: l) (a_id a) date d)).
    + unfold adj_of. rewrite Hs. by destruct (events _ _ _).
    + rewrite lookup_zip_with, Hi. simpl. by rewrite Hd'.
Qed.

Section exact.
Context {Q : QSort}.

(** C25: However a finalized universe was used before, advancing it to a date makes exactly the assets
    active whose start date is not after it and whose end date, if there is one, is after it (on the end
    date itself an asset is inactive), reports exactly those whose end date lies after the last date and
    not after this one, and gives each asset the product of its splits up to that date (found by binary
    search in the sorted adjustments) times its dividend factor. *)
Theorem universe_advance_exact u0 u date :
  u_arrays u0 = None -> Forall date_ok (u_adjustments u0) -> NoDup (a_id <$> u_assets u0) ->
  rtc u_step (universe_finalize u0) u ->
  let u' := universe_advance u date in
  let l := u_adjustments u' in
  let prev := if (date <? u_current_date u)%f64 then f64_zero else u_current_date u in
  set_cum f64_zero <$> l ≡ₚ set_cum f64_zero <$> u_adjustments u0 /\
  (u_assets u0 <> [] ->
   u_current_date u' = date /\
   delisted_today u' = a_id <$> base.filter (fun a => delisted prev date a = true) (u_assets u0)) /\
  forall i a, u_assets u0 !! i = Some a ->
    universe_is_active u' (a_id a) = now_active date a /\
    universe_adj_factor u' (a_id a) = price_factor l (a_id a) date (dividend_at u' i) /\
    dividend_at u' i = (if (date <? u_current_date u)%f64 then f64_one else dividend_at u i).
Proof.
  intros Hn0 Hd0 Hids Hrtc u' l prev.
  destruct (finalize_registry u0) as [Hf1 Hf2].
  destruct (u_steps_ok _ _ Hrtc (finalize_ok u0 Hn0 Hd0)) as [Hu [Ha Hl]].
  destruct (advance_registry u date) as [Ha' Hl']. fold u' in Ha', Hl'.
  split; [unfold l; by rewrite Hl', Hl|].
  rewrite Ha, Hf1 in Ha'. unfold l, u', universe_advance in *. clear u' l.
  assert (u_assets u = u_assets u0) as Hau by congruence.
  destruct (u_arrays u) as [r0|] eqn:Er0.
  2:{ pose proof (uo_arrays u Hu) as H0. rewrite Er0 in H0. unfold num_assets in H0. rewrite Hau in H0.
      apply length_zero_iff_nil in H0 as ->. split; [done|]. intros i a Hi. done. }
  destruct (num_assets u =? 0)%nat eqn:E0.
  { bool_props. unfold num_assets in E0. rewrite Hau in E0.
    apply length_zero_iff_nil in E0 as ->. split; [done|]. intros i a Hi. done. }
  set (u1 := if (date <? u_current_date u)%f64 then universe_reset_runtime u else u) in *.
  assert (universe_ok u1) as Hu1 by (subst u1; destruct (_ <? _)%f64; [by apply reset_ok|done]).
  assert (u_assets u1 = u_assets u0) as Ha1 by (subst u1; by destruct (_ <? _)%f64).
  assert (u_current_date u1 = prev) as Hp1 by (subst u1 prev; by destruct (_ <? _)%f64).
  assert (exists r, u_arrays u1 = Some r) as [r Hr].
  { subst u1. destruct (_ <? _)%f64; [simpl; rewrite Er0|]; eauto. }
  split; [intros _; split; [done|]; simpl; by rewrite Ha1, Hp1|].
  intros i a Hi. unfold universe_is_active, universe_adj_factor, dividend_at.
  rewrite find_asset_nth with (i := i); [|simpl; by rewrite Ha1..]. simpl. rewrite Hr. simpl.
  unfold active_at. simpl. split_and!.
  - apply nth_lookup_Some. by rewrite list_lookup_fmap, Ha1, Hi.
  - apply (advance_factor u1 r date i a); [done..|by rewrite Ha1].
  - rewrite Er0. subst u1. destruct (_ <? _)%f64; [|congruence].
    simpl in Hr. rewrite Er0 in Hr. simplify_eq/=. rewrite nth_lookup.
    destruct (replicate _ _ !! i) eqn:Hx; [|done]. by apply lookup_replicate in Hx as [-> _].
Qed.
End exact.

(** ** Cross sections *)

Definition active_indices (u : universe_t) (n : nat) : list nat :=
  base.filter (fun i => active_at u i = true) (seq 0 n).

Definition value_at (values : list f64) (i : nat) : f64 := nth i values f64_zero.

Lemma active_items_indices u values :
  active_items u values =
    (fun i => (i, value_at values i)) <$> active_indices u (Nat.min (num_assets u) (length values)).
Proof.
  unfold active_items, active_indices. induction (seq 0 _) as [|i l IH]; [done|].
  destruct (active_at u i) eqn:E.
  - by rewrite filter_cons_True, omap_cons, E, IH.
  - rewrite filter_cons_False by congruence. by rewrite omap_cons, E, IH.
Qed.

Lemma active_indices_spec u n i : i ∈ active_indices u n <-> active_at u i = true /\ (i < n)%nat.
Proof. unfold active_indices. rewrite list_elem_of_filter, elem_of_seq. split; intros []; split; (done || lia). Qed.

Lemma active_indices_NoDup u n : NoDup (active_indices u n).
Proof. apply NoDup_filter, NoDup_seq. Qed.

(** Comparing pairs by their values is consistent on numbers. *)
Lemma rank_consistent (l : list (nat * f64)) :
  Forall (fun p => is_nan p.2 = false) l -> consistent compare_rank_items l.
Proof.
  rewrite Forall_forall. intros H. unfold compare_rank_items. split.
  - intros [i a] [j b] _ _. simpl. destruct (a <? b)%f64 eqn:L, (b <? a)%f64 eqn:G; try lia.
    by rewrite (f64_ltb_asym _ _ L) in G.
  - intros [i a] [j b] [k c] Ha%H Hb%H Hc%H. simpl in *.
    intros Hab Hbc.
    assert ((a <=? b)%f64 = true) as Lab.
    { destruct (b <? a)%f64 eqn:G; [|by apply f64_ltb_false_leb]. rewrite (f64_ltb_asym _ _ G) in Hab. lia. }
    assert ((b <=? c)%f64 = true) as Lbc.
    { destruct (c <? b)%f64 eqn:G; [|by apply f64_ltb_false_leb]. rewrite (f64_ltb_asym _ _ G) in Hbc. lia. }
    rewrite (f64_leb_ltb_false _ _ (f64_leb_trans _ _ _ Lab Lbc)). destruct (a <? c)%f64; simpl; lia.
Qed.

Lemma rank_le a b : is_nan a.2 = false -> is_nan b.2 = false ->
  compare_rank_items a b <= 0 <-> (a.2 <=? b.2)%f64 = true.
Proof.
  intros Ha Hb. unfold compare_rank_items. destruct (b.2 <? a.2)%f64 eqn:G.
  - rewrite (f64_ltb_asym _ _ G). split; [lia|]. intros L. by rewrite (f64_leb_ltb_false _ _ L) in G.
  - split; [intros _; by apply f64_ltb_false_leb|]. destruct (a.2 <? b.2)%f64; simpl; lia.
Qed.

Lemma desc_flip a b : rp_cmp_desc a b = compare_rank_items b a.
Proof. done. Qed.

Lemma consistent_flip {A} (cmp : A -> A -> Z) l :
  consistent cmp l -> consistent (fun a b => cmp b a) l.
Proof.
  intros [Hf Ht]. split.
  - intros a b Ha Hb. split; intros ?.
    + destruct (decide (cmp a b < 0)); [|lia]. assert (cmp b a <= 0 <-> 0 <= cmp a b) by by apply Hf. lia.
    + apply Hf; done.
  - intros a b c Ha Hb Hc H1 H2. by apply (Ht c b a).
Qed.

(** Writing [g k] to the place of the [k]-th item. *)
Lemma scatter_spec {T} (place : T -> nat) (g : nat -> f64) (l : list T) (out : list f64) :
  NoDup (place <$> l) -> Forall (fun x => (place x < length out)%nat) l ->
  let out' := foldl (fun out '(k, x) => <[place x := g k]> out) out (imap pair l) in
  length out' = length out /\
  (forall k x, l !! k = Some x -> out' !! place x = Some (g k)) /\
  (forall i, i ∉ place <$> l -> out' !! i = out !! i).
Proof.
  induction l as [|y l IH] using rev_ind; intros Hn Hl out'; [done|].
  rewrite fmap_app, NoDup_app in Hn. destruct Hn as (Hn & Hy & _). apply Forall_app in Hl as [Hl Hly].
  inversion Hly as [|? ? Hly' _]; subst.
  destruct (IH Hn Hl) as (IHl & IHk & IHi). subst out'.
  rewrite imap_app, foldl_app. cbn [imap foldl]. rewrite Nat.add_0_r.
  set (out1 := foldl _ out (imap pair l)) in *. split_and!.
  - by rewrite length_insert.
  - intros k x [Hk|[-> [= <-]]]%lookup_snoc_Some.
    + destruct Hk as [_ Hk]. rewrite list_lookup_insert_ne; [by apply IHk|].
      intros E. apply (Hy (place x)); [apply list_elem_of_fmap_2; by eapply list_elem_of_lookup_2|].
      rewrite <- E. simpl. set_solver.
    + apply list_lookup_insert_eq. by rewrite IHl.
  - intros i Hi. rewrite fmap_app, elem_of_app in Hi. rewrite list_lookup_insert_ne; [apply IHi; tauto|].
    intros <-. apply Hi. right. simpl. set_solver.
Qed.

Lemma items_values u values :
  Forall (fun v => is_nan v = false) values ->
  Forall (fun p : nat * f64 => is_nan p.2 = false) (active_items u values).
Proof.
  intros Hv. rewrite active_items_indices. apply Forall_fmap, Forall_forall.
  intros i [_ Hi]%active_indices_spec. simpl. unfold value_at.
  destruct (lookup_lt_is_Some_2 values i) as [x Hx]; [lia|]. rewrite (nth_lookup_Some _ _ x _ Hx).
  rewrite Forall_lookup in Hv. by eapply Hv.
Qed.

Lemma sorted_items (R : f64 -> f64 -> Prop) (items : list (nat * f64)) values :
  Forall (fun p => p.2 = value_at values p.1) items ->
  StronglySorted (fun a b => R a.2 b.2) items ->
  StronglySorted (fun i j => R (value_at values i) (value_at values j)) (items.*1).
Proof.
  intros Hv. induction 1 as [|a l _ IH Ha]; [constructor|]. inversion Hv as [|? ? Ea Hl]; subst.
  rewrite fmap_cons. constructor; [auto|]. apply Forall_fmap. rewrite Forall_forall in *. intros b Hb. simpl.
  rewrite <- Ea, <- (Hl b Hb). auto.
Qed.

Lemma StronglySorted_weaken {A} (R R' : A -> A -> Prop) (P : A -> Prop) l :
  Forall P l -> (forall a b, P a -> P b -> R a b -> R' a b) -> StronglySorted R l -> StronglySorted R' l.
Proof.
  intros HP Himp. induction 1 as [|a l _ IH Ha]; [constructor|]. inversion HP; subst.
  constructor; [auto|]. rewrite Forall_forall in *. eauto.
Qed.

Lemma fmap_values (l : list nat) values :
  Forall (fun p : nat * f64 => p.2 = value_at values p.1) ((fun i => (i, value_at values i)) <$> l).
Proof. apply Forall_fmap, Forall_forall. done. Qed.

(** An order that a sorted list of items stands for. *)
Lemma items_order (R : f64 -> f64 -> Prop) u values items :
  items ≡ₚ active_items u values -> StronglySorted (fun a b => R a.2 b.2) items ->
  items.*1 ≡ₚ active_indices u (Nat.min (num_assets u) (length values)) /\
  StronglySorted (fun i j => R (value_at values i) (value_at values j)) (items.*1).
Proof.
  rewrite active_items_indices. intros Hp Hs. split.
  - rewrite Hp. rewrite <- list_fmap_compose. by rewrite list_fmap_id.
  - apply sorted_items; [|done]. rewrite Hp. apply fmap_values.
Qed.

Section sections.
Context {Q : QSort}.

(** Ranking scores the active assets by their place in an order of nondecreasing values, from 0 to
    1 in equal steps, and gives the others 0. *)
Theorem universe_rank_order u values :
  Forall (fun v => is_nan v = false) values ->
  let na := Nat.min (num_assets u) (length values) in
  let out := universe_rank u values in
  exists order,
    order ≡ₚ active_indices u na /\
    StronglySorted (fun i j => (value_at values i <=? value_at values j)%f64 = true) order /\
    length out = na /\
    (forall k i, order !! k = Some i ->
       out !! i = Some (f64_of_Z (Z.of_nat k) / rank_denom (length order))%f64) /\
    (forall i, (i < na)%nat -> active_at u i = false -> out !! i = Some f64_zero).
Proof.
  intros Hv na out. pose proof (items_values u _ Hv) as Hi.
  set (items := qsort compare_rank_items (active_items u values)).
  pose proof (qsort_perm compare_rank_items (active_items u values)) as Hp. fold items in Hp.
  pose proof (qsort_sorted _ _ (rank_consistent _ Hi)) as Hs. fold items in Hs.
  assert (Forall (fun p : nat * f64 => is_nan p.2 = false) items) as Hi' by by rewrite Hp.
  destruct (items_order (fun a b => (a <=? b)%f64 = true) u values items Hp) as [Ho Hso].
  { eapply StronglySorted_weaken; [exact Hi'| |exact Hs]. intros a b Ha Hb. by apply rank_le. }
  fold na in Ho.
  destruct (scatter_spec fst (fun k => f64_of_Z (Z.of_nat k) / rank_denom (length items))%f64 items
    (replicate na f64_zero)) as (Hlen & Hk & Hother).
  { rewrite Ho. apply active_indices_NoDup. }
  { rewrite length_replicate. apply Forall_fmap with (f := fst) (P := fun i => (i < na)%nat).
    rewrite Ho. apply Forall_forall. by intros i [_ ?]%active_indices_spec. }
  exists (items.*1). split_and!; [done|done| | |].
  - unfold out, universe_rank. fold na items. by rewrite Hlen, length_replicate.
  - intros k i. rewrite list_lookup_fmap. intros (p & Hpk & ->)%fmap_Some.
    rewrite length_fmap. by apply Hk.
  - intros i Hina Hact. unfold out, universe_rank. fold na items.
    rewrite Hother; [by apply lookup_replicate_2|].
    rewrite Ho. intros [? _]%active_indices_spec. congruence.
Qed.

(** The top [k] are the ids of the first [k] active assets in an order of nonincreasing values: no
    active asset that is left out has a greater value than one that is chosen. *)
Theorem universe_top_n_best u values k :
  Forall (fun v => is_nan v = false) values ->
  exists chosen rest,
    chosen ++ rest ≡ₚ active_indices u (Nat.min (num_assets u) (length values)) /\
    length chosen = Nat.min k (length (chosen ++ rest)) /\
    universe_top_n u values k = omap (fun i => a_id <$> u_assets u !! i) chosen /\
    forall i j, i ∈ chosen -> j ∈ rest -> (value_at values j <=? value_at values i)%f64 = true.
Proof.
  intros Hv. pose proof (items_values u _ Hv) as Hi.
  set (items := qsort rp_cmp_desc (active_items u values)).
  pose proof (qsort_perm rp_cmp_desc (active_items u values)) as Hp. fold items in Hp.
  pose proof (qsort_sorted _ _ (consistent_flip _ _ (rank_consistent _ Hi))) as Hs.
  change (fun a b => compare_rank_items b a) with rp_cmp_desc in Hs. fold items in Hs.
  assert (Forall (fun p : nat * f64 => is_nan p.2 = false) items) as Hi' by by rewrite Hp.
  destruct (items_order (fun a b => (b <=? a)%f64 = true) u values items Hp) as [Ho Hso].
  { eapply StronglySorted_weaken; [exact Hi'| |exact Hs]. intros a b Ha Hb. by apply rank_le. }
  exists (take k (items.*1)), (drop k (items.*1)). rewrite take_drop. split_and!; [done| | |].
  - apply length_take.
  - unfold universe_top_n. destruct (length values =? 0)%nat eqn:E0; bool_props.
    { rewrite E0, Nat.min_0_r in Ho. apply Permutation_nil_r in Ho as ->. by rewrite take_nil. }
    destruct (k =? 0)%nat eqn:Ek; bool_props; [by subst|]. simpl. fold items.
    rewrite <- fmap_take. generalize (take k items). intros l.
    induction l as [|p l IH]; [done|]. cbn [fmap list_fmap]. rewrite !omap_cons. by rewrite IH.
  - intros i j (m & [Hm ?]%lookup_take_Some)%list_elem_of_lookup (n & Hn)%list_elem_of_lookup.
    rewrite lookup_drop in Hn. eapply (StronglySorted_lookup _ _ m (k + n) i j Hso); [lia|done..].
Qed.
End sections.

(** ** A universe with two assets and three splits *)

Definition sample_asset (id start finish : Z) : universe_asset_t :=
  Asset id "A" "X" 0 (f64_of_Z start) (f64_of_Z finish) f64_one f64_one f64_zero.

Definition sample_split (id date factor : Z) : universe_adj_t :=
  Adj id (f64_of_Z date) UNIVERSE_ADJ_SPLIT (f64_of_Z factor) f64_zero.

Definition sample_universe : universe_t :=
  Universe [sample_asset 1 10 0; sample_asset 2 10 40] INITIAL_ASSET_CAP
    [sample_split 2 30 2; sample_split 1 20 4; sample_split 2 12 5] INITIAL_ADJ_CAP None f64_zero [].

Lemma universe_advance_exact_witness :
  let u := universe_advance (universe_finalize sample_universe) (f64_of_Z 15) in
  let u' := universe_advance u (f64_of_Z 40) in
  universe_is_active u' 1 = true /\ universe_is_active u' 2 = false /\
  universe_adj_factor u' 2 = f64_lit 1 (-1) /\ delisted_today u' = [2] /\
  universe_is_active u' 1 = now_active (f64_of_Z 40) (sample_asset 1 10 0).
Proof.
  intros u u'. split_and!; [by vm_compute..|].
  assert (Forall date_ok (u_adjustments sample_universe)) as Hd by (repeat constructor).
  assert (NoDup (a_id <$> u_assets sample_universe)) as Hn.
  { simpl. repeat constructor; rewrite ?list_elem_of_singleton; [done|apply not_elem_of_nil]. }
  destruct (universe_advance_exact sample_universe u (f64_of_Z 40) eq_refl Hd Hn
    (rtc_once _ _ (step_advance _ _))) as (_ & _ & H).
  exact (proj1 (H 0%nat _ eq_refl)).
Defined.

Definition sample_active : universe_t := universe_advance (universe_finalize sample_universe) (f64_of_Z 15).
Definition sample_values : list f64 := [f64_of_Z 7; f64_of_Z 3].

Lemma sample_values_ok : Forall (fun v => is_nan v = false) sample_values.
Proof. repeat constructor. Qed.

Lemma universe_rank_order_witness :
  universe_rank sample_active sample_values = [f64_one; f64_zero] /\
  length (universe_rank sample_active sample_values) = 2%nat.
Proof.
  split; [by vm_compute|].
  destruct (universe_rank_order sample_active sample_values sample_values_ok) as (? & _ & _ & H & _).
  exact H.
Defined.

Lemma universe_top_n_best_witness :
  universe_top_n sample_active sample_values 1 = [1] /\
  exists chosen, universe_top_n sample_active sample_values 1 =
    omap (fun i => a_id <$> u_assets sample_active !! i) chosen.
Proof.
  split; [by vm_compute|].
  destruct (universe_top_n_best sample_active sample_values 1 sample_values_ok) as (l & ? & _ & _ & H & _).
  exact (ex_intro _ l H).
Defined.
