(* ===== verification/Ast.v ===== *)
(** The syntax tree: [exprtk_node_s] of [exprtk/include/exprtk_types.h].

    A child pointer that may be NULL is an [option]; the entries of an array of
    children are nodes (the parser stores no NULL entry).  Names are strings.  The
    arena and the result of type inference are not part of a tree. *)

From S2P Require Import Prelude Float64.

(** The tokens that a node stores: operators of [EXPRTK_NODE_BINARY_OP] and the
    kinds of [EXPRTK_NODE_FLOW]. *)
Inductive token :=
  | TOKEN_PLUS | TOKEN_MINUS | TOKEN_MULTIPLY | TOKEN_DIVIDE | TOKEN_MOD | TOKEN_POWER
  | TOKEN_EQ | TOKEN_NE | TOKEN_LT | TOKEN_LE | TOKEN_GT | TOKEN_GE
  | TOKEN_AND | TOKEN_OR | TOKEN_NOT
  | TOKEN_BREAK | TOKEN_CONTINUE | TOKEN_RETURN.

#[export] Instance token_eq_dec : EqDecision token.
Proof. solve_decision. Defined.

Inductive node : Type :=
  | Node (line column : Z) (d : node_data)
with node_data : Type :=
  | NODE_NUMBER (number : f64)
  | NODE_INTEGER (integer : Z)
  | NODE_VARIABLE (name : string)
  | NODE_BINARY_OP (op : token) (left right : option node)
  | NODE_FUNCTION_CALL (name : option string) (args : list node)
  | NODE_ASSIGNMENT (name : option string) (value : option node)
  | NODE_IF (condition if_branch else_branch : option node)
  | NODE_WHILE (condition body : option node)
  | NODE_FOR (init condition post body : option node)
  | NODE_SPREAD (child : option node)
  | NODE_BLOCK (statements : list node)
  | NODE_FLOW (type : token) (value : option node)
  | NODE_STRING (value : string)
  | NODE_VECTOR (elements : list node)
  | NODE_INDEX (array index : option node)
  | NODE_SLICE (array start stop : option node)
  | NODE_FUNCTION_DEFINITION (name : option string) (arg_params : list node) (body : option node)
  | NODE_MEMBER_CALL (object : option node) (method : string) (args : list node)
  | NODE_CONSTANT_DECL (name : option string) (value : option node)
  | NODE_SWITCH (value : option node) (cases : list node) (default_case : option node)
  | NODE_DO_WHILE (body condition : option node)
  | NODE_MAP_LITERAL (keys : list string) (values : list node)
  | NODE_MEMBER_ACCESS (object : option node) (member : string)
  | NODE_MEMBER_SET (object : option node) (member : string) (value : option node)
  | NODE_FOR_IN (var_name : string) (collection body : option node)
  | NODE_NULL
  | NODE_TEMPLATE_STRING (template_str : string)
  | NODE_DESTRUCTURING_ASSIGNMENT (targets value : option node) (is_constant : bool)
  | NODE_REST_PARAMETER (name : string)
  | NODE_TRY_CATCH (try_body : option node) (catch_var : option string) (catch_body : option node)
  | NODE_THROW (value : option node)
  | NODE_FUNCTION_EXPRESSION (name : option string) (arg_params : list node) (body : option node)
  | NODE_YIELD (value : option node)
  | NODE_GENERATOR_FUNCTION (name : option string) (arg_params : list node) (body : option node)
  | NODE_CLASS_DEF (name : string) (constructor : option node) (methods static_methods : list node)
      (parent_name : option string) (interface_names : list string)
      (is_abstract is_interface is_final : bool)
  | NODE_METHOD (name : string) (arg_params : list node) (body : option node)
      (is_static is_abstract : bool) (access_level : Z) (is_override is_final : bool)
  | NODE_FIELD_DECL (name : string) (declared_type : option string) (initializer : option node)
      (is_static : bool) (access_level : Z)
  | NODE_NEW (class_name : string) (args : list node)
  | NODE_THIS
  | NODE_SUPER (member : option string) (args : list node) (is_call : bool)
  | NODE_INSTANCEOF (object : option node) (class_name : option string) (class_expr : option node).

Definition node_line (n : node) : Z := let 'Node l _ _ := n in l.
Definition node_column (n : node) : Z := let 'Node _ c _ := n in c.
Definition data (n : node) : node_data := let 'Node _ _ d := n in d.

(** All the children of a node. *)
Definition opt (o : option node) : list node := match o with Some n => [n] | None => [] end.

Definition children (d : node_data) : list node :=
  match d with
  | NODE_NUMBER _ | NODE_INTEGER _ | NODE_VARIABLE _ | NODE_STRING _ | NODE_NULL
  | NODE_TEMPLATE_STRING _ | NODE_REST_PARAMETER _ | NODE_THIS => []
  | NODE_BINARY_OP _ a b | NODE_WHILE a b | NODE_INDEX a b | NODE_DO_WHILE a b
  | NODE_MEMBER_SET a _ b | NODE_FOR_IN _ a b | NODE_DESTRUCTURING_ASSIGNMENT a b _
  | NODE_TRY_CATCH a _ b | NODE_INSTANCEOF a _ b => opt a ++ opt b
  | NODE_FUNCTION_CALL _ l | NODE_BLOCK l | NODE_VECTOR l | NODE_MAP_LITERAL _ l
  | NODE_NEW _ l | NODE_SUPER _ l _ => l
  | NODE_ASSIGNMENT _ a | NODE_SPREAD a | NODE_FLOW _ a | NODE_CONSTANT_DECL _ a
  | NODE_MEMBER_ACCESS a _ | NODE_THROW a | NODE_YIELD a | NODE_FIELD_DECL _ _ a _ _ => opt a
  | NODE_IF a b c | NODE_SLICE a b c => opt a ++ opt b ++ opt c
  | NODE_FOR a b c d => opt a ++ opt b ++ opt c ++ opt d
  | NODE_FUNCTION_DEFINITION _ l a | NODE_FUNCTION_EXPRESSION _ l a
  | NODE_GENERATOR_FUNCTION _ l a | NODE_METHOD _ l a _ _ _ _ _ => l ++ opt a
  | NODE_MEMBER_CALL a _ l => opt a ++ l
  | NODE_SWITCH a l b => opt a ++ l ++ opt b
  | NODE_CLASS_DEF _ a l l' _ _ _ _ _ => opt a ++ l ++ l'
  end.

(** Induction over trees: a property holds of a node when it holds of all its
    children. *)
Lemma node_children_ind (P : node -> Prop) :
  (forall line column d, Forall P (children d) -> P (Node line column d)) -> forall n, P n.
Proof.
  intros H. fix IH 1. intros [line column d].
  assert (forall o, Forall P (opt o)) as Hopt
    by (intros [n|]; simpl; [constructor; [apply IH|constructor]|constructor]).
  assert (forall l, Forall P l) as Hlist.
  { clear Hopt. fix IHl 1. intros [|n l]; [constructor|constructor; [apply IH|apply IHl]]. }
  apply H. destruct d; simpl; repeat apply Forall_app_2; auto.
Qed.
