(* ===== verification/Env.v ===== *)
(** Variable environments: the symbol table of [exprtk/src/exprtk_runtime.c].

    An environment is the list of its scopes, the current one first and its
    [parent] chain behind it; a scope is the hash table of its variables, the
    container being a finite map.  Values are those of any type [V]: storing a value
    into an environment copies it, which is the identity on what it stands for;
    the reference counts of function values are not modelled, and allocations
    succeed.  [zero] is the value of an unknown variable. *)

From S2P Require Import Prelude.

Section Env.
Context {V : Type} (zero : V).

(** ** Data *)

Record var_entry := VarEntry {
  entry_value : V;
  is_constant : bool;
  is_borrowed : bool
}.

Definition env_t : Type := list (gmap string var_entry).

(** ** Operations *)

(** The common body of [exprtk_env_set_local], [..._cloned] and [..._borrowed] on
    one scope. *)
Definition put (name : string) (v : V) (borrowed : bool) (s : gmap string var_entry)
    : gmap string var_entry :=
  match s !! name with
  | Some e => if is_constant e then s else <[name := VarEntry v (is_constant e) borrowed]> s
  | None => <[name := VarEntry v false borrowed]> s
  end.

Definition on_current (f : gmap string var_entry -> gmap string var_entry) (env : env_t) : env_t :=
  match env with s :: parent => f s :: parent | [] => [] end.

Definition exprtk_env_set_local (env : env_t) (name : string) (v : V) : env_t :=
  on_current (put name v false) env.

Definition exprtk_env_set_local_borrowed (env : env_t) (name : string) (v : V) : env_t :=
  on_current (put name v true) env.

(** The loop of [exprtk_env_set] over the scopes; [None] when none of them holds
    the name. *)
Fixpoint set_in_chain (env : env_t) (name : string) (v : V) : option env_t :=
  match env with
  | [] => None
  | s :: parent =>
      match s !! name with
      | Some e =>
          Some (if is_constant e then env
                else <[name := VarEntry v (is_constant e) false]> s :: parent)
      | None => cons s <$> set_in_chain parent name v
      end
  end.

Definition exprtk_env_set (env : env_t) (name : string) (v : V) : env_t :=
  match set_in_chain env name v with
  | Some env => env
  | None => exprtk_env_set_local env name v
  end.

Definition mark_constant (name : string) (s : gmap string var_entry) : gmap string var_entry :=
  match s !! name with
  | Some e => <[name := VarEntry (entry_value e) true (is_borrowed e)]> s
  | None => s
  end.

Definition exprtk_env_set_constant (env : env_t) (name : string) (v : V) : env_t :=
  on_current (mark_constant name) (exprtk_env_set env name v).

Fixpoint find_entry (env : env_t) (name : string) : option var_entry :=
  match env with
  | [] => None
  | s :: parent =>
      match s !! name with
      | Some e => Some e
      | None => find_entry parent name
      end
  end.

Definition exprtk_env_get (env : env_t) (name : string) : V :=
  match find_entry env name with Some e => entry_value e | None => zero end.

Definition exprtk_env_has (env : env_t) (name : string) : bool :=
  match find_entry env name with Some _ => true | None => false end.

Definition exprtk_env_has_local_var (env : env_t) (name : string) : bool :=
  match env with
  | s :: _ => bool_decide (is_Some (s !! name))
  | [] => false
  end.

(** [exprtk_env_init_child] *)
Definition exprtk_env_init_child (parent : env_t) : env_t := ∅ :: parent.

(** [exprtk_env_import_vars]: the entries of the current scope of [src], in any
    order. *)
Definition import_entry (name : string) (e : var_entry) (dst : env_t) : env_t :=
  if exprtk_env_has_local_var dst name then dst
  else if decide (name = "this") then dst
  else
    let dst := exprtk_env_set_local dst name (entry_value e) in
    if is_constant e then exprtk_env_set_constant dst name (entry_value e) else dst.

Definition exprtk_env_import_vars (dst src : env_t) : env_t :=
  match src with
  | s :: _ => map_fold import_entry dst s
  | [] => dst
  end.

(** [exprtk_env_snapshot_names]: the variables of a captured scope.  [None] stands
    for the NULL name list, which captures everything. *)
Definition wanted (names : option (list string)) (name : string) : bool :=
  match names with Some l => bool_decide (name ∈ l) | None => true end.

Definition snapshot_entry (names : option (list string)) (name : string) (e : var_entry)
    (new_env : env_t) : env_t :=
  if wanted names name && negb (exprtk_env_has_local_var new_env name) then
    let new_env := exprtk_env_set_local new_env name (entry_value e) in
    if is_constant e then exprtk_env_set_constant new_env name (entry_value e) else new_env
  else new_env.

Definition exprtk_env_snapshot_names (env : env_t) (names : option (list string)) : env_t :=
  foldl (fun new_env s => map_fold (snapshot_entry names) new_env s)
    [∅] env.

(** ** Lemmas *)

Lemma put_lookup name v b s x :
  put name v b s !! x =
    if decide (x = name) then
      match s !! name with
      | Some e => if is_constant e then Some e else Some (VarEntry v false b)
      | None => Some (VarEntry v false b)
      end
    else s !! x.
Proof.
  unfold put. destruct (s !! name) as [[ev [] eb]|] eqn:E; simpl; case_decide; subst;
    rewrite ?E, ?lookup_insert_eq, ?lookup_insert_ne by done; done.
Qed.

Lemma mark_constant_lookup name s x :
  mark_constant name s !! x =
    if decide (x = name)
    then (fun e => VarEntry (entry_value e) true (is_borrowed e)) <$> s !! name
    else s !! x.
Proof.
  unfold mark_constant. destruct (s !! name) as [e|] eqn:E; case_decide; subst; simpl;
    rewrite ?E, ?lookup_insert_eq, ?lookup_insert_ne by done; done.
Qed.

Lemma set_in_chain_None env name v :
  set_in_chain env name v = None <-> find_entry env name = None.
Proof.
  induction env as [|s parent IH]; simpl; [done|].
  destruct (s !! name) as [e|]; [by destruct (is_constant e)|].
  rewrite <- IH. by destruct (set_in_chain parent name v).
Qed.

Lemma set_in_chain_find env name v env' x :
  set_in_chain env name v = Some env' ->
  find_entry env' x =
    if decide (x = name) then
      (fun e => if is_constant e then e else VarEntry v false false) <$> find_entry env name
    else find_entry env x.
Proof.
  revert env'. induction env as [|s parent IH]; intros env'; simpl; [done|].
  destruct (s !! name) as [[ev [] eb]|] eqn:E; simpl.
  - intros [= <-]. simpl. case_decide; subst; by rewrite ?E.
  - intros [= <-]. simpl. case_decide as D; subst; [by rewrite lookup_insert_eq|].
    by rewrite lookup_insert_ne.
  - destruct (set_in_chain parent name v) as [p|] eqn:C; [|done]. intros [= <-]. simpl.
    rewrite (IH _ eq_refl). case_decide; subst; by rewrite ?E.
Qed.

(** What an assignment leaves visible under every name. *)
Lemma set_find env name v x :
  env <> [] ->
  find_entry (exprtk_env_set env name v) x =
    if decide (x = name) then
      Some match find_entry env name with
           | Some e => if is_constant e then e else VarEntry v false false
           | None => VarEntry v false false
           end
    else find_entry env x.
Proof.
  intros Hne. unfold exprtk_env_set. destruct (set_in_chain env name v) as [env'|] eqn:C.
  - rewrite (set_in_chain_find _ _ _ _ _ C). case_decide; [|done].
    destruct (find_entry env name) eqn:F; [done|]. by rewrite <- set_in_chain_None, C in F.
  - apply set_in_chain_None in C. rewrite C. destruct env as [|s parent]; [done|].
    simpl in *. rewrite put_lookup. destruct (s !! name) eqn:E; [done|]. by case_decide.
Qed.

(** Declaring a name that the current scope does not have. *)
Definition declare (env : env_t) (name : string) (v : V) (constant : bool) : env_t :=
  let env := exprtk_env_set_local env name v in
  if constant then exprtk_env_set_constant env name v else env.

Lemma declare_fresh s parent name v c :
  s !! name = None ->
  declare (s :: parent) name v c = <[name := VarEntry v c false]> s :: parent.
Proof.
  intros Hs. unfold declare, exprtk_env_set_local. simpl. unfold put. rewrite Hs.
  destruct c; [|done]. unfold exprtk_env_set_constant, exprtk_env_set. simpl.
  rewrite lookup_insert_eq. simpl. unfold mark_constant.
  by rewrite !lookup_insert_eq, !insert_insert_eq.
Qed.

(** Copying the entries that pass a test and are not there yet. *)
Lemma copy_entries (test : string -> bool) (step : string -> var_entry -> env_t -> env_t) s n0 parent :
  (forall name e n, step name e (n :: parent) =
     if test name && negb (bool_decide (is_Some (n !! name)))
     then declare (n :: parent) name (entry_value e) (is_constant e) else n :: parent) ->
  exists n1, map_fold step (n0 :: parent) s = n1 :: parent /\
  forall x, n1 !! x =
    match n0 !! x with
    | Some e => Some e
    | None => if test x then (fun e => VarEntry (entry_value e) (is_constant e) false) <$> s !! x
              else None
    end.
Proof.
  intros Hstep. revert s.
  apply (map_fold_weak_ind (fun r s => exists n1, r = n1 :: parent /\ forall x, n1 !! x = _)).
  - exists n0. split; [done|]. intros x. rewrite lookup_empty. simpl. by destruct (n0 !! x), (test x).
  - intros name e s r Hs (n1 & -> & Hn1). rewrite Hstep.
    assert (forall x, x <> name -> <[name := e]> s !! x = s !! x) as Hne
      by (intros; by rewrite lookup_insert_ne).
    destruct (test name) eqn:T; simpl.
    + case_bool_decide as D; simpl.
      * exists n1. split; [done|]. intros x. rewrite Hn1.
        destruct (decide (x = name)) as [->|Hx]; [|by rewrite Hne].
        rewrite Hn1, Hs in D. destruct (n0 !! name); [done|]. rewrite T in D. by destruct D.
      * assert (n1 !! name = None) as Hnone by (by apply eq_None_not_Some).
        rewrite declare_fresh by done. eexists. split; [done|]. intros x.
        destruct (decide (x = name)) as [->|Hx].
        -- rewrite !lookup_insert_eq, T. rewrite Hn1 in Hnone. by destruct (n0 !! name).
        -- by rewrite lookup_insert_ne, Hn1, Hne by done.
    + exists n1. split; [done|]. intros x. rewrite Hn1.
      destruct (decide (x = name)) as [->|Hx]; [by rewrite T|by rewrite Hne].
Qed.

Lemma copy_scope names s n0 :
  exists n1, map_fold (snapshot_entry names) [n0] s = [n1] /\
  forall x, n1 !! x =
    match n0 !! x with
    | Some e => Some e
    | None => if wanted names x
              then (fun e => VarEntry (entry_value e) (is_constant e) false) <$> s !! x else None
    end.
Proof. apply copy_entries. done. Qed.

Lemma snapshot_scope names env : forall n0,
  exists n1, foldl (fun new_env s => map_fold (snapshot_entry names) new_env s) [n0] env = [n1] /\
  forall x, n1 !! x =
    match n0 !! x with
    | Some e => Some e
    | None => if wanted names x
              then (fun e => VarEntry (entry_value e) (is_constant e) false) <$> find_entry env x
              else None
    end.
Proof.
  induction env as [|s parent IH]; intros n0; simpl.
  - exists n0. split; [done|]. intros x. by destruct (n0 !! x), (wanted names x).
  - destruct (copy_scope names s n0) as (n1 & -> & Hn1).
    destruct (IH n1) as (n2 & -> & Hn2). exists n2. split; [done|]. intros x.
    rewrite Hn2, Hn1. destruct (n0 !! x); [done|]. destruct (wanted names x); [|done].
    by destruct (s !! x).
Qed.

(** ** Constants *)

(** Every constant of [s] is a constant of [s'] with the same value. *)
Definition keeps (s s' : gmap string var_entry) : Prop :=
  forall x e, s !! x = Some e -> is_constant e = true ->
  exists e', s' !! x = Some e' /\ is_constant e' = true /\ entry_value e' = entry_value e.

Lemma keeps_refl s : keeps s s.
Proof. intros x e ? ?. eauto. Qed.

Lemma keeps_trans s1 s2 s3 : keeps s1 s2 -> keeps s2 s3 -> keeps s1 s3.
Proof.
  intros H1 H2 x e Hx Hc. destruct (H1 x e Hx Hc) as (e' & Hx' & Hc' & <-). by apply H2.
Qed.

Lemma put_keeps name v b s : keeps s (put name v b s).
Proof.
  intros x e Hx Hc. rewrite put_lookup. case_decide; [|by eauto]. subst. rewrite Hx, Hc. eauto.
Qed.

Lemma mark_keeps name s : keeps s (mark_constant name s).
Proof.
  intros x e Hx Hc. rewrite mark_constant_lookup. case_decide; [|by eauto]. subst.
  rewrite Hx. simpl. eauto.
Qed.

Lemma Forall2_keeps_refl (env : env_t) : Forall2 keeps env env.
Proof. induction env; constructor; [apply keeps_refl|done]. Qed.

Lemma Forall2_keeps_trans (a b c : env_t) :
  Forall2 keeps a b -> Forall2 keeps b c -> Forall2 keeps a c.
Proof.
  intros Hab. revert c. induction Hab as [|s1 s2 a b H Hab IH]; intros c Hbc;
    inversion Hbc; subst; constructor; [by eapply keeps_trans|by apply IH].
Qed.

Lemma on_current_keeps f env : (forall s, keeps s (f s)) -> Forall2 keeps env (on_current f env).
Proof. intros Hf. destruct env; constructor; [apply Hf|apply Forall2_keeps_refl]. Qed.

Lemma set_in_chain_keeps env name v : forall env',
  set_in_chain env name v = Some env' -> Forall2 keeps env env'.
Proof.
  induction env as [|s parent IH]; intros env'; simpl; [done|].
  destruct (s !! name) as [[ev [] eb]|] eqn:E; simpl.
  - intros [= <-]. apply Forall2_keeps_refl.
  - intros [= <-]. constructor; [|apply Forall2_keeps_refl]. intros x e Hx Hc.
    destruct (decide (x = name)) as [->|]; [rewrite E in Hx; by injection Hx as <-|].
    rewrite lookup_insert_ne by done. eauto.
  - destruct (set_in_chain parent name v) as [p|]; [|done]. intros [= <-].
    constructor; [apply keeps_refl|by apply IH].
Qed.

Lemma set_keeps env name v : Forall2 keeps env (exprtk_env_set env name v).
Proof.
  unfold exprtk_env_set. destruct (set_in_chain env name v) eqn:C.
  - by eapply set_in_chain_keeps.
  - apply on_current_keeps. intros s. apply put_keeps.
Qed.

(** The assignments of a scope chain. *)
Inductive assign :=
  | Set_ (name : string) (v : V)
  | SetLocal (name : string) (v : V)
  | SetBorrowed (name : string) (v : V)
  | SetConstant (name : string) (v : V).

Definition do_assign (env : env_t) (a : assign) : env_t :=
  match a with
  | Set_ x v => exprtk_env_set env x v
  | SetLocal x v => exprtk_env_set_local env x v
  | SetBorrowed x v => exprtk_env_set_local_borrowed env x v
  | SetConstant x v => exprtk_env_set_constant env x v
  end.

Lemma assign_keeps env a : Forall2 keeps env (do_assign env a).
Proof.
  destruct a as [x v|x v|x v|x v]; simpl.
  - apply set_keeps.
  - apply on_current_keeps. intros s. apply put_keeps.
  - apply on_current_keeps. intros s. apply put_keeps.
  - eapply Forall2_keeps_trans; [apply set_keeps|].
    apply on_current_keeps. intros s. apply mark_keeps.
Qed.

(** ** Theorems *)

(** [exprtk_env_set] assigns to the innermost scope that has the variable and
    creates it in the current scope otherwise: the name reads as the new value
    from then on, unless its visible binding is a constant, and every other name
    reads as before. *)
Theorem env_set_get env name v x :
  env <> [] ->
  exprtk_env_get (exprtk_env_set env name v) x =
    (if decide (x = name) then
       match find_entry env name with
       | Some e => if is_constant e then entry_value e else v
       | None => v
       end
     else exprtk_env_get env x) /\
  exprtk_env_has (exprtk_env_set env name v) x = bool_decide (x = name) || exprtk_env_has env x.
Proof.
  intros Hne. unfold exprtk_env_get, exprtk_env_has. rewrite set_find by done.
  destruct (decide (x = name)) as [->|Hx].
  - split; [|by rewrite bool_decide_true]. destruct (find_entry env name) as [e|]; [|done].
    by destruct (is_constant e).
  - by rewrite bool_decide_false.
Qed.

(** Constants are immutable: no sequence of assignments to a chain of scopes,
    of any of the four kinds, changes the value of a constant of any of its
    scopes or makes it a variable. *)
Theorem env_constants_immutable env assigns :
  Forall2 keeps env (fold_left do_assign assigns env).
Proof.
  revert env. induction assigns as [|a l IH]; intros env; simpl; [apply Forall2_keeps_refl|].
  eapply Forall2_keeps_trans; [apply assign_keeps|apply IH].
Qed.

(** A captured scope is closed: the snapshot of an environment is a single
    scope that binds exactly the wanted names that were visible, each to the
    value and with the constness of its innermost binding, and borrows nothing. *)
Theorem env_snapshot_spec env names :
  exists s, exprtk_env_snapshot_names env names = [s] /\
  forall x, s !! x =
    if wanted names x
    then (fun e => VarEntry (entry_value e) (is_constant e) false) <$> find_entry env x
    else None.
Proof.
  destruct (snapshot_scope names env ∅) as (s & Hs & Hx). exists s. split; [done|].
  intros x. by rewrite Hx, lookup_empty.
Qed.

(** Importing keeps what the importer has: its own variables and outer scopes
    stay as they are, and the current scope gains exactly the variables of the
    module's scope that it did not have, except [this], constants as constants. *)
Theorem env_import_spec d parent s src :
  exists d', exprtk_env_import_vars (d :: parent) (s :: src) = d' :: parent /\
  forall x, d' !! x =
    match d !! x with
    | Some e => Some e
    | None => if decide (x = "this") then None
              else (fun e => VarEntry (entry_value e) (is_constant e) false) <$> s !! x
    end.
Proof.
  destruct (copy_entries (fun x => negb (bool_decide (x = "this"))) import_entry s d parent)
    as (d' & Hd & Hx).
  { intros name e n. unfold import_entry. simpl.
    destruct (decide (name = "this")) as [E|E];
      [rewrite (bool_decide_true (name = "this")) by done
      |rewrite (bool_decide_false (name = "this")) by done];
      by destruct (bool_decide (is_Some (n !! name))). }
  exists d'. split; [done|]. intros x. rewrite Hx. destruct (d !! x); [done|].
  destruct (decide (x = "this")); [by rewrite bool_decide_true|by rewrite bool_decide_false].
Qed.

(** A constant declaration is not local when an outer scope has the name: it
    then assigns the outer variable, which stays assignable, or is dropped when
    the outer binding is a constant, and the current scope gets no binding. *)
Theorem env_set_constant_outer s parent name v e :
  s !! name = None -> find_entry parent name = Some e ->
  exists parent', exprtk_env_set_constant (s :: parent) name v = s :: parent' /\
  find_entry parent' name
    = Some (if is_constant e then e else VarEntry v false false).
Proof.
  intros Hs Hp. unfold exprtk_env_set_constant, exprtk_env_set. simpl. rewrite Hs.
  destruct (set_in_chain parent name v) as [p|] eqn:C.
  - simpl. unfold mark_constant. rewrite Hs. exists p. split; [done|].
    rewrite (set_in_chain_find _ _ _ _ _ C), Hp. by rewrite decide_True.
  - apply set_in_chain_None in C. congruence.
Qed.

End Env.

Arguments VarEntry {V}.

Lemma env_set_get_witness :
  exprtk_env_get 0%Z (exprtk_env_set [∅; {["x" := VarEntry 1%Z false false]}] "x" 7%Z) "x" = 7%Z.
Proof.
  by destruct (env_set_get 0%Z [∅; {["x" := VarEntry 1%Z false false]}] "x" 7%Z "x") as [-> _].
Defined.

(** [const e = 5] inside a function: the builtin constant [e] hides it. *)
Lemma env_set_constant_outer_witness :
  exists parent', exprtk_env_set_constant [∅; {["e" := VarEntry 1%Z true false]}] "e" 5%Z
                  = ∅ :: parent' /\
  find_entry parent' "e" = Some (VarEntry 1%Z true false).
Proof.
  apply (env_set_constant_outer ∅ [{["e" := VarEntry 1%Z true false]}] "e" 5%Z
           (VarEntry 1%Z true false)); reflexivity.
Defined.
