(* ===== verification/Registry.v ===== *)
(** The functions a script can call by name: [exprtk/src/exprtk_registry.c].

    An environment has a list of functions, defined by the script or registered by the host
    program, and a list of modules; the environments of a chain have one [table] each, the current one
    first.  A pointer to a native function is a number; two entries of a table can share one.  The sorted
    cache of an environment's modules is built on the first lookup and dropped when a module is added, so
    that it is a function of the modules.  The global registry is the array it holds; allocations
    succeed. *)

From S2P Require Import Prelude Ast SortSearch.
From Stdlib Require Import Ascii.
Open Scope Z_scope.

(** ** Data *)

Inductive func_data :=
  | Script (arg_params : list node) (body : option node)
  | Native (fn flags : Z).

Record exprtk_func_t := Func { fn_name : string; fn_data : func_data }.

Record exprtk_func_entry_t := Entry { entry_name : string; entry_fn : Z }.

Record exprtk_module_t := Module { module_name : option string; entries : list exprtk_func_entry_t }.

Record table := Table { t_funcs : list exprtk_func_t; t_modules : list exprtk_module_t }.

(** ** Names *)

Definition strcmp (a b : string) : Z :=
  match String.compare a b with Lt => -1 | Eq => 0 | Gt => 1 end.

Lemma compare_refl a : String.compare a a = Eq.
Proof.
  induction a as [|c a IH]; simpl; [done|].
  unfold Ascii.compare. by rewrite N.compare_refl.
Qed.

Lemma strcmp_eq a b : strcmp a b = 0 <-> a = b.
Proof.
  unfold strcmp. split; [|intros ->; by rewrite compare_refl].
  destruct (String.compare a b) eqn:E; try done. by apply String.compare_eq_iff in E.
Qed.

Lemma strcmp_flip a b : strcmp b a = - strcmp a b.
Proof. unfold strcmp. rewrite String.compare_antisym. by destruct (String.compare a b). Qed.

Lemma compare_step a b c r :
  String.compare a b <> Gt -> String.compare b c <> Gt -> String.compare a c = r ->
  r <> Gt /\ (r = Eq -> String.compare a b = Eq /\ String.compare b c = Eq).
Proof.
  revert b c. induction a as [|x a IH]; intros [|y b] [|z c]; simpl; try naive_solver.
  unfold Ascii.compare.
  destruct (N.compare_spec (N_of_ascii x) (N_of_ascii y)), (N.compare_spec (N_of_ascii y) (N_of_ascii z)),
    (N.compare_spec (N_of_ascii x) (N_of_ascii z)); intros; try lia; try (by subst); eauto.
Qed.

Lemma strcmp_trans a b c : strcmp a b <= 0 -> strcmp b c <= 0 ->
  strcmp a c <= 0 /\ (strcmp a c = 0 -> strcmp a b = 0 /\ strcmp b c = 0).
Proof.
  intros H1 H2. destruct (compare_step a b c (String.compare a c)) as [H3 H4]; [..|done|].
  - unfold strcmp in *. by destruct (String.compare a b).
  - unfold strcmp in *. by destruct (String.compare b c).
  - unfold strcmp. destruct (String.compare a c); try done.
    by destruct (H4 eq_refl) as [-> ->].
Qed.

(** [strchr(name, '.')] with what stands before and after the dot, and [strrchr]. *)
Fixpoint first_dot (name : string) : option (string * string) :=
  match name with
  | EmptyString => None
  | String c s =>
      if decide (c = "."%char) then Some ("", s)
      else (fun p => (String c p.1, p.2)) <$> first_dot s
  end.

Fixpoint last_dot (name : string) : option (string * string) :=
  match name with
  | EmptyString => None
  | String c s =>
      match last_dot s with
      | Some p => Some (String c p.1, p.2)
      | None => if decide (c = "."%char) then Some ("", s) else None
      end
  end.

Definition raw_names : list string := ["typeof"; "is_int64"; "is_bool"; "is_bytes"; "is_decimal"].

(** Functions that see integers as integers. *)
Definition builtin_needs_raw_args (name : string) : bool :=
  bool_decide (match last_dot name with Some p => p.2 | None => name end ∈ raw_names).

Definition compat_names : list string := ["math"; "stats"; "string"; "io"; "core"; "regex"].

Definition is_global_compat_namespace (name : string) : bool := bool_decide (name ∈ compat_names).

(** ** Functions of environments *)

Definition find_func (name : string) (l : list exprtk_func_t) : option exprtk_func_t :=
  find (fun f => bool_decide (fn_name f = name)) l.

(** The search of [exprtk_call_internal] along the chain. *)
Fixpoint lookup_func (name : string) (chain : list table) : option exprtk_func_t :=
  match chain with
  | [] => None
  | t :: chain =>
      match find_func name (t_funcs t) with Some f => Some f | None => lookup_func name chain end
  end.

Definition exprtk_env_has_func (chain : list table) (name : string) : bool :=
  existsb (fun t => existsb (fun f => bool_decide (fn_name f = name)) (t_funcs t)) chain.

(** A function definition replaces the data of the first function of that name in the list. *)
Fixpoint replace_func (name : string) (d : func_data) (l : list exprtk_func_t)
    : option (list exprtk_func_t) :=
  match l with
  | [] => None
  | f :: l =>
      if decide (fn_name f = name) then Some (Func name d :: l) else cons f <$> replace_func name d l
  end.

Definition define_func (name : string) (d : func_data) (chain : list table) : list table :=
  match chain with
  | [] => []
  | t :: chain =>
      Table (match replace_func name d (t_funcs t) with
             | Some l => l
             | None => Func name d :: t_funcs t
             end) (t_modules t) :: chain
  end.

(** ** Modules and the registry *)

Section lookup.
Context {Q : QSort} {B : BSearch}.

Definition entry_cmp (a b : exprtk_func_entry_t) : Z := strcmp (entry_name a) (entry_name b).
Definition search_cmp (key : string) (e : exprtk_func_entry_t) : Z := strcmp key (entry_name e).

Definition build_mod_cache (modules : list exprtk_module_t) : list exprtk_func_entry_t :=
  qsort entry_cmp (flat_map entries modules).

(** Only the modules of the current environment are in its cache. *)
Definition mod_cache_find_entry (chain : list table) (name : string) : option exprtk_func_entry_t :=
  match chain with
  | t :: _ => bsearch search_cmp name (build_mod_cache (t_modules t))
  | [] => None
  end.

Definition find_entry_named (entry : string) (l : list exprtk_func_entry_t) : option exprtk_func_entry_t :=
  find (fun e => bool_decide (entry_name e = entry)) l.

Definition mod_find_entry_in_named_module (chain : list table) (mod_name entry : string)
    : option exprtk_func_entry_t :=
  find_entry_named entry
    (flat_map entries (base.filter (fun m => module_name m = Some mod_name) (flat_map t_modules chain))).

Definition exprtk_registry_add_module (registry : list exprtk_func_entry_t) (m : exprtk_module_t)
    : list exprtk_func_entry_t := registry ++ entries m.

(** [core] is the module that is registered by default. *)
Definition exprtk_registry_init (core : exprtk_module_t) (registry : list exprtk_func_entry_t)
    : list exprtk_func_entry_t := qsort entry_cmp (exprtk_registry_add_module registry core).

Definition exprtk_registry_find_entry (registry : list exprtk_func_entry_t) (name : string)
    : option exprtk_func_entry_t := bsearch search_cmp name registry.

Definition exprtk_find_builtin_entry (registry : list exprtk_func_entry_t) (chain : list table)
    (name : string) : option exprtk_func_entry_t :=
  match mod_cache_find_entry chain name with
  | Some e => Some e
  | None =>
      match first_dot name ≫= (fun p => mod_find_entry_in_named_module chain p.1 p.2) with
      | Some e => Some e
      | None => exprtk_registry_find_entry registry name
      end
  end.

(** The builtin that [exprtk_call_internal] calls: it also looks for the rest of a name in a namespace of
    the library. *)
Definition resolve_builtin (registry : list exprtk_func_entry_t) (chain : list table) (name : string)
    : option exprtk_func_entry_t :=
  match exprtk_find_builtin_entry registry chain name with
  | Some e => Some e
  | None =>
      match first_dot name with
      | Some (mod_name, entry) =>
          if is_global_compat_namespace mod_name then exprtk_registry_find_entry registry entry else None
      | None => None
      end
  end.

(** ** What is found *)

Lemma entry_cmp_consistent l : consistent entry_cmp l.
Proof.
  unfold entry_cmp. split.
  - intros a b _ _. rewrite (strcmp_flip (entry_name a)). lia.
  - intros a b c _ _ _ H1 H2. by apply (strcmp_trans (entry_name a) (entry_name b)).
Qed.

Definition sorted (l : list exprtk_func_entry_t) : Prop :=
  StronglySorted (fun a b => entry_cmp a b <= 0) l.

Lemma sorted_arranged l name : sorted l -> arranged (search_cmp name) l.
Proof.
  unfold search_cmp. induction 1 as [|a l Hl IH Ha]; constructor; [done|].
  eapply Forall_impl; [exact Ha|]. intros b Hab. unfold entry_cmp in Hab. split; intros H.
  - by apply (strcmp_trans name (entry_name a)).
  - destruct (strcmp_trans name (entry_name a) (entry_name b)) as [H1 H2]; [lia|done|].
    destruct (decide (strcmp name (entry_name b) = 0)) as [E|]; [|lia]. apply H2 in E. lia.
Qed.

Lemma search_spec name l :
  sorted l ->
  match bsearch search_cmp name l with
  | Some e => e ∈ l /\ entry_name e = name
  | None => forall e, e ∈ l -> entry_name e <> name
  end.
Proof.
  intros Hl. destruct (bsearch search_cmp name l) as [e|] eqn:E.
  - apply bsearch_found in E as [? E]. split; [done|]. symmetry. by apply strcmp_eq.
  - intros e He Hn. apply (bsearch_missing _ _ _ (sorted_arranged l name Hl)) in E.
    rewrite Forall_forall in E. by apply (E e He), strcmp_eq.
Qed.

Lemma find_entry_named_spec name l :
  match find_entry_named name l with
  | Some e => e ∈ l /\ entry_name e = name
  | None => forall e, e ∈ l -> entry_name e <> name
  end.
Proof.
  unfold find_entry_named. destruct (find _ l) as [e|] eqn:E.
  - apply find_some in E as [H E]. apply bool_decide_eq_true in E. split; [by apply list_elem_of_In|done].
  - intros e He Hn. apply list_elem_of_In in He. pose proof (find_none _ _ E _ He) as F. simpl in F.
    by rewrite bool_decide_true in F.
Qed.

(** The places where a builtin is looked for, in order: an entry in them, by the name it has there. *)
Definition places (registry : list exprtk_func_entry_t) (chain : list table) (name : string)
    : list (list exprtk_func_entry_t * string) :=
  (flat_map (fun t => flat_map entries (t_modules t)) (take 1 chain), name) ::
  match first_dot name with
  | Some (m, n) =>
      [(flat_map entries (base.filter (fun mo => module_name mo = Some m) (flat_map t_modules chain)), n)]
  | None => []
  end ++
  (registry, name) ::
  match first_dot name with
  | Some (m, n) => if is_global_compat_namespace m then [(registry, n)] else []
  | None => []
  end.

(** [e] is in the first of the places that has an entry. *)
Fixpoint first_place (l : list (list exprtk_func_entry_t * string)) (e : option exprtk_func_entry_t) : Prop :=
  match l with
  | [] => e = None
  | (es, n) :: l =>
      (exists e', e = Some e' /\ e' ∈ es /\ entry_name e' = n) \/
      ((forall e', e' ∈ es -> entry_name e' <> n) /\ first_place l e)
  end.

Lemma first_place_step es n l (found rest : option exprtk_func_entry_t) :
  match found with
  | Some e => e ∈ es /\ entry_name e = n
  | None => forall e, e ∈ es -> entry_name e <> n
  end ->
  first_place l rest ->
  first_place ((es, n) :: l) match found with Some e => Some e | None => rest end.
Proof. intros H Hl. destruct found as [e|]; simpl; [left; eauto|by right]. Qed.

Lemma mod_cache_spec chain name :
  let es := flat_map (fun t => flat_map entries (t_modules t)) (take 1 chain) in
  match mod_cache_find_entry chain name with
  | Some e => e ∈ es /\ entry_name e = name
  | None => forall e, e ∈ es -> entry_name e <> name
  end.
Proof.
  cbv zeta. destruct chain as [|t chain]; simpl; [intros e He; by apply not_elem_of_nil in He|].
  rewrite app_nil_r. unfold build_mod_cache.
  pose proof (search_spec name (qsort entry_cmp (flat_map entries (t_modules t)))
                (qsort_sorted _ _ (entry_cmp_consistent _))) as H.
  pose proof (qsort_perm entry_cmp (flat_map entries (t_modules t))) as Hp.
  destruct (bsearch _ _ _) as [e|]; [by rewrite Hp in H|]. intros e He. apply H. by rewrite Hp.
Qed.

(** Which function a name resolves to.  When the global registry is sorted, a builtin is found
    exactly when one of the places has an entry of the name, and it is an entry of the first such place: the
    modules of the current environment (not those of its parents), the module that the name is qualified with,
    the registry, and the registry again for a name in one of the library's namespaces. *)
Theorem resolve_builtin_exact registry chain name :
  sorted registry -> first_place (places registry chain name) (resolve_builtin registry chain name).
Proof.
  intros Hs. unfold resolve_builtin, exprtk_find_builtin_entry, places.
  pose proof (mod_cache_spec chain name) as Hc. cbv zeta in Hc.
  replace (match match mod_cache_find_entry chain name with Some e => _ | None => _ end with
           | Some e => Some e | None => _ end)
    with (match mod_cache_find_entry chain name with
          | Some e => Some e
          | None =>
              match first_dot name ≫= (fun p => mod_find_entry_in_named_module chain p.1 p.2) with
              | Some e => Some e
              | None =>
                  match exprtk_registry_find_entry registry name with
                  | Some e => Some e
                  | None => match first_dot name with
                            | Some (m, n) => if is_global_compat_namespace m
                                             then exprtk_registry_find_entry registry n else None
                            | None => None
                            end
                  end
              end
          end)
    by (repeat case_match; done).
  apply first_place_step; [exact Hc|]. unfold exprtk_registry_find_entry, mod_find_entry_in_named_module.
  destruct (first_dot name) as [[m n]|]; cbn [mbind option_bind fst snd app].
  - apply first_place_step; [apply find_entry_named_spec|].
    apply first_place_step; [by apply search_spec|].
    destruct (is_global_compat_namespace m); [|done].
    pose proof (search_spec n registry Hs) as H. destruct (bsearch _ n registry) as [e|]; [left; eauto|by right].
  - pose proof (search_spec name registry Hs) as H.
    destruct (bsearch _ name registry) as [e|]; [left; eauto|by right].
Qed.

Lemma registry_init_sorted core registry : sorted (exprtk_registry_init core registry).
Proof. apply qsort_sorted, entry_cmp_consistent. Qed.
End lookup.

(** ** Functions of environments *)

Lemma replace_find name d l x :
  fn_data <$> find_func x (match replace_func name d l with Some l' => l' | None => Func name d :: l end) =
  if decide (x = name) then Some d else fn_data <$> find_func x l.
Proof.
  unfold find_func.
  assert (match replace_func name d l with
          | Some l' => fn_data <$> find (fun f => bool_decide (fn_name f = x)) l' =
              if decide (x = name) then Some d
              else fn_data <$> find (fun f => bool_decide (fn_name f = x)) l
          | None => Forall (fun f => fn_name f <> name) l
          end) as H.
  { induction l as [|f l IH]; simpl; [constructor|]. destruct (decide (fn_name f = name)) as [<-|Hf]; simpl.
    - destruct (decide (x = fn_name f)) as [->|Hx]; [by rewrite bool_decide_true|].
      by rewrite bool_decide_false by done.
    - destruct (replace_func name d l) as [l'|]; simpl.
      + case_bool_decide; simpl; [rewrite decide_False by congruence; done|exact IH].
      + by constructor. }
  destruct (replace_func name d l) as [l'|]; [exact H|]. simpl.
  destruct (decide (x = name)) as [->|Hx]; [by rewrite bool_decide_true|].
  by rewrite bool_decide_false by done.
Qed.

(** A definition is found again, in the environment and in its children; it hides the functions of
    that name further out and changes no other. *)
Theorem define_lookup name d chain x :
  chain <> [] ->
  fn_data <$> lookup_func x (define_func name d chain) =
  if decide (x = name) then Some d else fn_data <$> lookup_func x chain.
Proof.
  intros Hc. destruct chain as [|t chain]; [done|]. simpl.
  pose proof (replace_find name d (t_funcs t) x) as H.
  destruct (find_func x (match replace_func _ _ _ with Some _ => _ | None => _ end)) as [f|]; simpl in *.
  - destruct (decide (x = name)); [done|].
    destruct (find_func x (t_funcs t)); [done|discriminate H].
  - destruct (decide (x = name)); [done|].
    destruct (find_func x (t_funcs t)); [discriminate H|done].
Qed.

(** A function [max] of a module of the environment hides that of the registry; a parent's module counts only for
    qualified names. *)
Definition demo_registry : list exprtk_func_entry_t := [Entry "abs" 1; Entry "max" 2; Entry "min" 3].
Definition demo_chain : list table :=
  [Table [] [Module (Some "mine") [Entry "max" 10]]; Table [] [Module (Some "ta") [Entry "sma" 20; Entry "abs" 21]]].

Lemma resolve_builtin_exact_witness :
  (resolve_builtin demo_registry demo_chain <$> ["max"; "min"; "sma"; "ta.sma"; "math.abs"; "ta.min"])
    = [Some (Entry "max" 10); Some (Entry "min" 3); None; Some (Entry "sma" 20); Some (Entry "abs" 1); None] /\
  first_place (places demo_registry demo_chain "sma") (resolve_builtin demo_registry demo_chain "sma").
Proof.
  split; [vm_compute; reflexivity|]. apply (resolve_builtin_exact demo_registry demo_chain "sma").
  unfold sorted. repeat constructor; vm_compute; discriminate.
Defined.

Lemma define_lookup_witness :
  fn_data <$> lookup_func "f" (define_func "f" (Native 1 0) demo_chain) = Some (Native 1 0).
Proof. by rewrite (define_lookup "f" (Native 1 0) demo_chain "f"). Defined.
