(* ===== verification/Closure.v ===== *)
(** Capture analysis of function bodies:
    [turbo_script/src/turbo_script_closure_analysis.c].

    The analysis decides which variables a function captures and whether it can be
    compiled ahead of its calls.  A variable set is the list of its names in order
    of insertion, with the capacity of its array; [realloc] may fail, which drops
    the name. *)

From S2P Require Import Prelude Ast Env.

(** ** Data *)

Record ts_var_set_t := VarSet { vs_names : list string; vs_capacity : nat }.

Record ts_analysis_ctx_t := Analysis {
  used : ts_var_set_t;
  defined : ts_var_set_t;
  assigned : ts_var_set_t;
  read_before_assignment : ts_var_set_t;
  has_nested_closure : bool;
  an_mem : heap
}.

Record ts_closure_analysis_t := ClosureAnalysis {
  captured_vars : list string;
  can_jit : bool;
  reason : option string
}.

(** ** Variable sets *)

Definition ts_var_set_init : ts_var_set_t := VarSet [] 0.

Definition ts_var_set_contains (set : ts_var_set_t) (name : string) : bool :=
  bool_decide (name ∈ vs_names set).

Definition ts_var_set_add (h : heap) (set : ts_var_set_t) (name : string) : ts_var_set_t * heap :=
  if ts_var_set_contains set name then (set, h)
  else if (vs_capacity set <=? length (vs_names set))%nat then
    let new_cap := if (vs_capacity set =? 0)%nat then 8 else vs_capacity set * 2 in
    match alloc h with
    | (true, h) => (VarSet (vs_names set ++ [name]) new_cap, h)
    | (false, h) => (set, h)
    end
  else (VarSet (vs_names set ++ [name]) (vs_capacity set), h).

Definition add_used (name : string) (c : ts_analysis_ctx_t) : ts_analysis_ctx_t :=
  let (s, h) := ts_var_set_add (an_mem c) (used c) name in
  Analysis s (defined c) (assigned c) (read_before_assignment c) (has_nested_closure c) h.
Definition add_defined (name : string) (c : ts_analysis_ctx_t) : ts_analysis_ctx_t :=
  let (s, h) := ts_var_set_add (an_mem c) (defined c) name in
  Analysis (used c) s (assigned c) (read_before_assignment c) (has_nested_closure c) h.
Definition add_assigned (name : string) (c : ts_analysis_ctx_t) : ts_analysis_ctx_t :=
  let (s, h) := ts_var_set_add (an_mem c) (assigned c) name in
  Analysis (used c) (defined c) s (read_before_assignment c) (has_nested_closure c) h.
Definition add_read_before (name : string) (c : ts_analysis_ctx_t) : ts_analysis_ctx_t :=
  let (s, h) := ts_var_set_add (an_mem c) (read_before_assignment c) name in
  Analysis (used c) (defined c) (assigned c) s (has_nested_closure c) h.
Definition set_nested (c : ts_analysis_ctx_t) : ts_analysis_ctx_t :=
  Analysis (used c) (defined c) (assigned c) (read_before_assignment c) true (an_mem c).

(** ** Traversal *)

Definition ts_analyze_variable (name : string) (c : ts_analysis_ctx_t) (in_assignment_lhs : bool)
    : ts_analysis_ctx_t :=
  if in_assignment_lhs then add_defined name c
  else
    let c := if negb (ts_var_set_contains (defined c) name)
                && negb (ts_var_set_contains (assigned c) name)
             then add_read_before name c else c in
    add_used name c.

Definition ts_analyze_func_def (c : ts_analysis_ctx_t) : ts_analysis_ctx_t := set_nested c.
Definition ts_analyze_func_expr (c : ts_analysis_ctx_t) : ts_analysis_ctx_t := set_nested c.

(** [ts_analyze_node] on a pointer that may be NULL. *)
Local Notation "'on_opt' f o c" := (match o with Some n => f n c false | None => c end)
  (at level 10, f at level 9, o at level 9, c at level 9).
Local Notation "'on_list' f l c" := (fold_left (fun c n => f n c false) l c)
  (at level 10, f at level 9, l at level 9, c at level 9).

Fixpoint ts_analyze_node (n : node) (c : ts_analysis_ctx_t) (in_assignment_lhs : bool)
    : ts_analysis_ctx_t :=
  let 'Node _ _ d := n in
  match d with
  | NODE_VARIABLE name => ts_analyze_variable name c in_assignment_lhs
  | NODE_ASSIGNMENT name value =>
      let c := on_opt ts_analyze_node value c in
      match name with Some name => add_assigned name c | None => c end
  | NODE_FUNCTION_DEFINITION _ _ _ => ts_analyze_func_def c
  | NODE_FUNCTION_EXPRESSION _ _ _ => ts_analyze_func_expr c
  | NODE_BINARY_OP _ lhs rhs =>
      let c := on_opt ts_analyze_node lhs c in
      on_opt ts_analyze_node rhs c
  | NODE_FUNCTION_CALL _ args => on_list ts_analyze_node args c
  | NODE_IF condition if_branch else_branch =>
      let c := on_opt ts_analyze_node condition c in
      let c := on_opt ts_analyze_node if_branch c in
      on_opt ts_analyze_node else_branch c
  | NODE_WHILE condition body =>
      let c := on_opt ts_analyze_node condition c in
      on_opt ts_analyze_node body c
  | NODE_FOR init condition post body =>
      let c := on_opt ts_analyze_node init c in
      let c := on_opt ts_analyze_node condition c in
      let c := on_opt ts_analyze_node post c in
      on_opt ts_analyze_node body c
  | NODE_BLOCK statements => on_list ts_analyze_node statements c
  | NODE_FLOW _ value => on_opt ts_analyze_node value c
  | NODE_VECTOR elements => on_list ts_analyze_node elements c
  | NODE_INDEX array index =>
      let c := on_opt ts_analyze_node array c in
      on_opt ts_analyze_node index c
  | NODE_MEMBER_CALL object _ args =>
      let c := on_opt ts_analyze_node object c in
      on_list ts_analyze_node args c
  | NODE_MEMBER_ACCESS object _ => on_opt ts_analyze_node object c
  | NODE_FOR_IN var_name collection body =>
      let c := add_defined var_name c in
      let c := on_opt ts_analyze_node collection c in
      on_opt ts_analyze_node body c
  | _ => c
  end.

(** Is the node an assignment or constant declaration of this name? *)
Definition binds_name (n : node) (name : string) : bool :=
  match data n with
  | NODE_ASSIGNMENT (Some x) _ | NODE_CONSTANT_DECL (Some x) _ => bool_decide (x = name)
  | _ => false
  end.

Definition ts_outer_scope_defines_name (outer_scope : option node) (name : string) : bool :=
  match outer_scope with
  | None => false
  | Some n =>
      match data n with
      | NODE_BLOCK statements => existsb (fun s => binds_name s name) statements
      | _ => binds_name n name
      end
  end.

(** ** The analysis *)

Definition param_name (n : node) : option string :=
  match data n with
  | NODE_VARIABLE name => Some name
  | NODE_ASSIGNMENT name _ => name
  | _ => None
  end.

Definition define_param (c : ts_analysis_ctx_t) (n : node) : ts_analysis_ctx_t :=
  match param_name n with Some name => add_defined name c | None => c end.

Section Analyze.
Context {V : Type} (closure_env : @env_t V) (outer_scope : option node).

(** Is an assigned name known to live outside the function? *)
Definition bound_outside (name : string) : bool :=
  exprtk_env_has closure_env name || ts_outer_scope_defines_name outer_scope name.

(** The loop over the used names: the free variables, the flag
    [has_unbound_read_before_assignment], and the heap. *)
Fixpoint collect (c : ts_analysis_ctx_t) (names : list string)
    (free_vars : ts_var_set_t) (unbound : bool) (h : heap) : ts_var_set_t * bool * heap :=
  match names with
  | [] => (free_vars, unbound, h)
  | name :: names =>
      if ts_var_set_contains (defined c) name then collect c names free_vars unbound h
      else if ts_var_set_contains (assigned c) name && negb (bound_outside name) then
        collect c names free_vars
          (unbound || ts_var_set_contains (read_before_assignment c) name) h
      else
        let (free_vars, h) := ts_var_set_add h free_vars name in
        collect c names free_vars unbound h
  end.

Definition ts_analyze_closure (func_body : option node) (arg_params : list node) (h : heap)
    : option ts_closure_analysis_t * heap :=
  let s := ts_var_set_init in
  let c := Analysis s s s s false h in
  let c := fold_left define_param arg_params c in
  let c := on_opt ts_analyze_node func_body c in
  let '(free_vars, unbound, h) := collect c (vs_names (used c)) s false (an_mem c) in
  let (ok, h) := alloc h in
  if negb ok then (None, h)
  else
    let '(jit, why) :=
      if unbound then (false, Some "unbound assignment requires interpreter scope")
      else if has_nested_closure c then (false, Some "nested closure not supported")
      else if (10 <? length (vs_names free_vars))%nat
      then (false, Some "too many captured variables (max 10)")
      else (true, None) in
    (Some (ClosureAnalysis (vs_names free_vars) jit why), h).

End Analyze.

(** ** Specification

    What a body does to the names, in the order of the traversal. *)

Inductive event := Read (name : string) | Assign (name : string) | Define (name : string) | Nested.

Local Notation "'ev_opt' f o" := (match o with Some n => f n | None => [] end)
  (at level 10, f at level 9, o at level 9).
Local Notation "'ev_list' f l" := (flat_map f l) (at level 10, f at level 9, l at level 9).

Fixpoint events (n : node) : list event :=
  let 'Node _ _ d := n in
  match d with
  | NODE_VARIABLE name => [Read name]
  | NODE_ASSIGNMENT name value =>
      ev_opt events value ++ match name with Some name => [Assign name] | None => [] end
  | NODE_FUNCTION_DEFINITION _ _ _ | NODE_FUNCTION_EXPRESSION _ _ _ => [Nested]
  | NODE_BINARY_OP _ a b | NODE_WHILE a b | NODE_INDEX a b => ev_opt events a ++ ev_opt events b
  | NODE_FUNCTION_CALL _ l | NODE_BLOCK l | NODE_VECTOR l => ev_list events l
  | NODE_IF a b c => ev_opt events a ++ ev_opt events b ++ ev_opt events c
  | NODE_FOR a b c e => ev_opt events a ++ ev_opt events b ++ ev_opt events c ++ ev_opt events e
  | NODE_FLOW _ a | NODE_MEMBER_ACCESS a _ => ev_opt events a
  | NODE_MEMBER_CALL a _ l => ev_opt events a ++ ev_list events l
  | NODE_FOR_IN name a b => Define name :: ev_opt events a ++ ev_opt events b
  | _ => []
  end.

Definition body_events (body : option node) : list event := ev_opt events body.

(** The effect of one event on the analysis. *)
Definition apply_event (c : ts_analysis_ctx_t) (e : event) : ts_analysis_ctx_t :=
  match e with
  | Read x => ts_analyze_variable x c false
  | Assign x => add_assigned x c
  | Define x => add_defined x c
  | Nested => set_nested c
  end.

(** [x] is read before it is assigned or defined. *)
Definition read_first (params : list string) (evs : list event) (x : string) : Prop :=
  exists before after, evs = before ++ Read x :: after /\ (x ∉ params) /\
    (Assign x ∉ before) /\ Define x ∉ before.

(** The names the body defines: parameters and [for ... in] variables. *)
Definition local_name (params : list string) (evs : list event) (x : string) : Prop :=
  x ∈ params \/ Define x ∈ evs.

Definition is_nested (e : event) : bool := match e with Nested => true | _ => false end.

(** ** Lemmas *)

Lemma analyze_events n : forall c,
  ts_analyze_node n c false = fold_left apply_event (events n) c.
Proof.
  induction n as [line column d IH] using node_children_ind.
  assert (forall o c, Forall (fun n => forall c, ts_analyze_node n c false
      = fold_left apply_event (events n) c) (opt o) ->
    (on_opt ts_analyze_node o c) = fold_left apply_event (ev_opt events o) c) as Hopt.
  { intros [n|] c; simpl; [|done]. intros H. inversion H; auto. }
  assert (forall l c, Forall (fun n => forall c, ts_analyze_node n c false
      = fold_left apply_event (events n) c) l ->
    (on_list ts_analyze_node l c) = fold_left apply_event (ev_list events l) c) as Hlist.
  { induction l as [|n l IHl]; intros c H; simpl; [done|]. inversion H; subst.
    rewrite fold_left_app. rewrite <- IHl by done. by f_equal. }
  intros c. destruct d; simpl in IH |- *; try done;
    repeat match goal with H : Forall _ (_ ++ _) |- _ => apply Forall_app in H as [? ?] end;
    rewrite ?fold_left_app; rewrite <- ?Hopt, <- ?Hlist by done; try done.
  by destruct name.
Qed.

Lemma add_spec set x :
  let r := ts_var_set_add [] set x in
  r.2 = [] /\ vs_names r.1 = if ts_var_set_contains set x then vs_names set
                             else vs_names set ++ [x].
Proof.
  simpl. unfold ts_var_set_add. destruct (ts_var_set_contains set x); [done|].
  by destruct (_ <=? _)%nat.
Qed.

Lemma add_names set x y :
  y ∈ vs_names (ts_var_set_add [] set x).1 <-> y ∈ vs_names set \/ y = x.
Proof.
  destruct (add_spec set x) as [_ ->]. unfold ts_var_set_contains. case_bool_decide.
  - split; [by left|]. by intros [?| ->].
  - rewrite elem_of_app, list_elem_of_singleton. done.
Qed.

Lemma add_NoDup set x : NoDup (vs_names set) -> NoDup (vs_names (ts_var_set_add [] set x).1).
Proof.
  intros H. destruct (add_spec set x) as [_ ->]. unfold ts_var_set_contains.
  case_bool_decide; [done|]. apply NoDup_app. split_and!; [done| |apply NoDup_singleton].
  intros y Hy ->%list_elem_of_singleton. done.
Qed.

(** What the analysis knows after the events [evs]. *)
Record knows (params : list string) (evs : list event) (c : ts_analysis_ctx_t) : Prop := {
  kn_mem : an_mem c = [];
  kn_used : forall x, x ∈ vs_names (used c) <-> Read x ∈ evs;
  kn_defined : forall x, x ∈ vs_names (defined c) <-> local_name params evs x;
  kn_assigned : forall x, x ∈ vs_names (assigned c) <-> Assign x ∈ evs;
  kn_read : forall x, x ∈ vs_names (read_before_assignment c) <-> read_first params evs x;
  kn_nested : has_nested_closure c = existsb is_nested evs;
  kn_nodup : NoDup (vs_names (used c))
}.

Lemma read_first_snoc params evs e x :
  read_first params (evs ++ [e]) x <->
  read_first params evs x \/
  (e = Read x /\ (x ∉ params) /\ (Assign x ∉ evs) /\ Define x ∉ evs).
Proof.
  unfold read_first. split.
  - intros (before & after & E & Hp & Ha & Hd). destruct after as [|e' after _] using rev_ind.
    + apply app_inj_tail in E as [-> ->]. by right.
    + rewrite app_comm_cons, app_assoc in E. apply app_inj_tail in E as [-> _].
      left. by exists before, after.
  - intros [(before & after & -> & Hp & Ha & Hd)|(-> & Hp & Ha & Hd)].
    + exists before, (after ++ [e]). split_and!; [|done..]. by rewrite <- app_assoc.
    + exists evs, []. done.
Qed.

Lemma contains_false set x : negb (ts_var_set_contains set x) = true <-> x ∉ vs_names set.
Proof. unfold ts_var_set_contains. rewrite negb_true_iff. apply bool_decide_eq_false. Qed.

(** Membership in a sequence that grew by one event. *)
Ltac snoc_facts :=
  repeat setoid_rewrite elem_of_app; repeat setoid_rewrite list_elem_of_singleton;
  unfold local_name in *; repeat setoid_rewrite elem_of_app;
  repeat setoid_rewrite list_elem_of_singleton.

Lemma knows_event params evs c e : knows params evs c -> knows params (evs ++ [e]) (apply_event c e).
Proof.
  intros [Hm Hu Hd Ha Hr Hn Hnd].
  assert (existsb is_nested (evs ++ [e]) = existsb is_nested evs || is_nested e) as Hne
    by (rewrite existsb_app; simpl; by rewrite orb_false_r).
  destruct e as [x|x|x|]; simpl in *.
  - unfold ts_analyze_variable.
    set (c1 := if _ && _ then add_read_before x c else c).
    assert (an_mem c1 = [] /\ used c1 = used c /\ defined c1 = defined c /\
      assigned c1 = assigned c /\ has_nested_closure c1 = has_nested_closure c /\
      forall y, y ∈ vs_names (read_before_assignment c1) <-> read_first params (evs ++ [Read x]) y)
      as (Hm1 & Hu1 & Hd1 & Ha1 & Hn1 & Hr1).
    { assert ((negb (ts_var_set_contains (defined c) x) && negb (ts_var_set_contains (assigned c) x))
        = true <-> (x ∉ params) /\ (Assign x ∉ evs) /\ Define x ∉ evs) as Htest.
      { rewrite andb_true_iff, !contains_false, Hd, Ha. unfold local_name. tauto. }
      subst c1. destruct (_ && _).
      - unfold add_read_before. rewrite Hm. destruct (add_spec (read_before_assignment c) x) as [Hm' _].
        pose proof (add_names (read_before_assignment c) x) as Hnames.
        destruct (ts_var_set_add [] _ x) as [s h]. simpl in *. split_and!; [done..|].
        intros y. rewrite Hnames, Hr, read_first_snoc. intuition congruence.
      - split_and!; [done..|]. intros y. rewrite Hr, read_first_snoc.
        split; [by left|].
        intros [?|([= ->] & Hx)]; [done|]. by apply Htest in Hx. }
    unfold add_used. rewrite Hm1, Hu1. destruct (add_spec (used c) x) as [Hm' _].
    pose proof (add_names (used c) x) as Hnames. pose proof (add_NoDup (used c) x Hnd) as Hnd'.
    destruct (ts_var_set_add [] _ x) as [s h]. simpl in *.
    split; simpl; rewrite ?Hd1, ?Ha1, ?Hn1; try done.
    + intros y. rewrite Hnames, Hu. snoc_facts. intuition congruence.
    + intros y. rewrite Hd. snoc_facts. intuition congruence.
    + intros y. rewrite Ha. snoc_facts. intuition congruence.
    + by rewrite Hne, orb_false_r.
  - unfold add_assigned. rewrite Hm. destruct (add_spec (assigned c) x) as [Hm' _].
    pose proof (add_names (assigned c) x) as Hnames.
    destruct (ts_var_set_add [] _ x) as [s h]. simpl in *. split; simpl; try done.
    + intros y. rewrite Hu. snoc_facts. intuition congruence.
    + intros y. rewrite Hd. snoc_facts. intuition congruence.
    + intros y. rewrite Hnames, Ha. snoc_facts. intuition congruence.
    + intros y. rewrite Hr, read_first_snoc. intuition congruence.
    + by rewrite Hne, orb_false_r.
  - unfold add_defined. rewrite Hm. destruct (add_spec (defined c) x) as [Hm' _].
    pose proof (add_names (defined c) x) as Hnames.
    destruct (ts_var_set_add [] _ x) as [s h]. simpl in *. split; simpl; try done.
    + intros y. rewrite Hu. snoc_facts. intuition congruence.
    + intros y. rewrite Hnames, Hd. snoc_facts. intuition congruence.
    + intros y. rewrite Ha. snoc_facts. intuition congruence.
    + intros y. rewrite Hr, read_first_snoc. intuition congruence.
    + by rewrite Hne, orb_false_r.
  - split; simpl; try done.
    + intros y. rewrite Hu. snoc_facts. intuition congruence.
    + intros y. rewrite Hd. snoc_facts. intuition congruence.
    + intros y. rewrite Ha. snoc_facts. intuition congruence.
    + intros y. rewrite Hr, read_first_snoc. intuition congruence.
    + by rewrite Hne, orb_true_r.
Qed.

Lemma knows_events params evs : forall before c,
  knows params before c -> knows params (before ++ evs) (fold_left apply_event evs c).
Proof.
  induction evs as [|e evs IH]; intros before c Hc; simpl; [by rewrite app_nil_r|].
  replace (before ++ e :: evs) with ((before ++ [e]) ++ evs) by by rewrite <- app_assoc.
  by apply IH, knows_event.
Qed.

Definition param_names (arg_params : list node) : list string := omap param_name arg_params.

Lemma knows_params arg_params : forall c params,
  knows params [] c ->
  knows (params ++ param_names arg_params) [] (fold_left define_param arg_params c).
Proof.
  induction arg_params as [|n l IH]; intros c params Hc; simpl; [by rewrite app_nil_r|].
  unfold define_param at 2, param_names. simpl. destruct (param_name n) as [x|]; [|by apply IH].
  replace (params ++ x :: omap param_name l) with ((params ++ [x]) ++ omap param_name l)
    by by rewrite <- app_assoc.
  apply IH. destruct Hc as [Hm Hu Hd Ha Hr Hn Hnd]. unfold add_defined. rewrite Hm.
  destruct (add_spec (defined c) x) as [Hm' _]. pose proof (add_names (defined c) x) as Hnames.
  destruct (ts_var_set_add [] _ x) as [s h]. simpl in *. split; simpl; try done.
  - intros y. rewrite Hnames, Hd. unfold local_name.
    rewrite elem_of_app, list_elem_of_singleton. tauto.
  - intros y. rewrite Hr. unfold read_first.
    split; intros (before & ? & E & _); by destruct before.
Qed.

Section Theorems.
Context {V : Type} (closure_env : @env_t V) (outer_scope : option node).

(** The names that a body captures: read, not local, and bound outside when the
    body assigns them. *)
Definition captures (params : list string) (evs : list event) (x : string) : Prop :=
  Read x ∈ evs /\ ~ local_name params evs x /\
  (Assign x ∈ evs -> bound_outside closure_env outer_scope x = true).

(** A variable that the body reads before its own assignment creates it. *)
Definition unbound_read (params : list string) (evs : list event) (x : string) : Prop :=
  Read x ∈ evs /\ ~ local_name params evs x /\ Assign x ∈ evs /\
  bound_outside closure_env outer_scope x = false /\ read_first params evs x.

Lemma contains_true set x : ts_var_set_contains set x = true <-> x ∈ vs_names set.
Proof. apply bool_decide_eq_true. Qed.

Lemma collect_spec params evs c names : knows params evs c -> forall free unbound,
  NoDup (vs_names free) ->
  let '(free', unbound', h) := collect closure_env outer_scope c names free unbound [] in
  h = [] /\ NoDup (vs_names free') /\
  (forall x, x ∈ vs_names free' <-> x ∈ vs_names free \/
     (x ∈ names /\ ~ local_name params evs x /\
      (Assign x ∈ evs -> bound_outside closure_env outer_scope x = true))) /\
  (unbound' = true <-> unbound = true \/
     exists x, x ∈ names /\ ~ local_name params evs x /\ Assign x ∈ evs /\
       bound_outside closure_env outer_scope x = false /\ read_first params evs x).
Proof.
  intros Hk. induction names as [|y names IH]; intros free unbound Hnd; simpl.
  - split_and!; [done|done| |].
    + intros x. split; [by left|]. intros [?|[H _]]; [done|]. by apply elem_of_nil in H.
    + split; [by left|]. intros [?|(x & H & _)]; [done|]. by apply elem_of_nil in H.
  - destruct (ts_var_set_contains (defined c) y) eqn:D.
    { apply contains_true, (kn_defined _ _ _ Hk) in D.
      specialize (IH free unbound Hnd). destruct (collect _ _ _ _ _ _ _) as [[f u] h].
      destruct IH as (? & ? & Hf & Hu). split_and!; [done|done| |].
      - intros x. rewrite Hf, elem_of_cons. intuition (subst; tauto).
      - rewrite Hu. setoid_rewrite elem_of_cons. split; [naive_solver|].
        intros [?|(x & [->|?] & ?)]; [by left|tauto|right; by exists x]. }
    assert (~ local_name params evs y) as Hny.
    { intros Hl. apply (kn_defined _ _ _ Hk), contains_true in Hl. congruence. }
    destruct (ts_var_set_contains (assigned c) y && _) eqn:A.
    { bool_props. apply contains_true, (kn_assigned _ _ _ Hk) in H. rename H0 into Hb.
      specialize (IH free (unbound || ts_var_set_contains (read_before_assignment c) y) Hnd).
      destruct (collect _ _ _ _ _ _ _) as [[f u] h].
      destruct IH as (? & ? & Hf & Hu). split_and!; [done|done| |].
      - intros x. rewrite Hf, elem_of_cons. split; [naive_solver|].
        intros [?|([->|?] & ? & Hx)]; [by left| |by right].
        rewrite Hx in Hb by done. done.
      - rewrite Hu, orb_true_iff, contains_true, (kn_read _ _ _ Hk).
        setoid_rewrite elem_of_cons. split.
        + intros [[?|?]|(x & ? & ?)]; [by left|right; exists y; by eauto 10|right; exists x; by eauto].
        + intros [?|(x & [->|?] & ? & ? & ? & ?)]; [by left; left|by left; right|].
          right. exists x. by eauto 10. }
    assert (Assign y ∈ evs -> bound_outside closure_env outer_scope y = true) as Hb.
    { intros Ha. apply (kn_assigned _ _ _ Hk), contains_true in Ha. rewrite Ha in A. simpl in A.
      by apply negb_false_iff in A. }
    destruct (add_spec free y) as [Hh _]. pose proof (add_names free y) as Hnames.
    pose proof (add_NoDup free y Hnd) as Hnd'. destruct (ts_var_set_add [] free y) as [free1 h1].
    simpl in *. subst h1. specialize (IH free1 unbound Hnd').
    destruct (collect _ _ _ _ _ _ _) as [[f u] h].
    destruct IH as (? & ? & Hf & Hu). split_and!; [done|done| |].
    + intros x. rewrite Hf, Hnames, elem_of_cons. split.
      * intros [[?| ->]|?]; [by left|right; by eauto|right; by tauto].
      * intros [?|([->|?] & ? & ?)]; [by left; left|by left; right|by right].
    + rewrite Hu. setoid_rewrite elem_of_cons. split; [naive_solver|].
      intros [?|(x & [->|?] & ? & ? & Hx & ?)]; [by left| |right; exists x; by eauto 10].
      rewrite Hb in Hx by done. done.
Qed.

Lemma closure_result func_body arg_params :
  exists r, (ts_analyze_closure closure_env outer_scope func_body arg_params []).1 = Some r /\
  NoDup (captured_vars r) /\
  (forall x, x ∈ captured_vars r <->
    captures (param_names arg_params) (body_events func_body) x) /\
  (can_jit r = true <->
    ~ (exists x, unbound_read (param_names arg_params) (body_events func_body) x) /\
    existsb is_nested (body_events func_body) = false /\
    length (captured_vars r) <= 10).
Proof.
  unfold ts_analyze_closure. cbn zeta.
  set (c0 := Analysis _ _ _ _ _ _).
  assert (knows [] [] c0) as H0.
  { subst c0. split; simpl; try done; try (intros x; rewrite elem_of_nil; unfold local_name;
      rewrite ?elem_of_nil; tauto); [|constructor].
    intros x. rewrite elem_of_nil. split; [done|]. intros (b & ? & E & _). by destruct b. }
  apply (knows_params arg_params) in H0. simpl in H0.
  set (c1 := fold_left define_param arg_params c0) in *.
  apply (knows_events _ (body_events func_body)) in H0. simpl in H0.
  replace (fold_left apply_event (body_events func_body) c1)
    with (match func_body with Some n => ts_analyze_node n c1 false | None => c1 end) in H0
    by (destruct func_body; simpl; [by rewrite analyze_events|done]).
  set (c2 := match func_body with Some n => _ | None => _ end) in *.
  pose proof (collect_spec _ _ _ (vs_names (used c2)) H0 ts_var_set_init false
    ltac:(constructor)) as Hc.
  rewrite (kn_mem _ _ _ H0), (kn_nested _ _ _ H0).
  destruct (collect _ _ _ _ _ _ _) as [[free unbound] h]. destruct Hc as (-> & Hnd & Hf & Hu).
  simpl. destruct (if unbound then _ else _) as [jit why] eqn:J. eexists. split; [done|]. simpl.
  split; [done|]. split.
  - intros x. rewrite Hf. unfold captures. simpl.
    rewrite (kn_used _ _ _ H0), elem_of_nil. tauto.
  - assert (unbound = true <->
      exists x, unbound_read (param_names arg_params) (body_events func_body) x) as Hub.
    { rewrite Hu. unfold unbound_read. setoid_rewrite (kn_used _ _ _ H0). naive_solver. }
    rewrite <- Hub. destruct unbound; [by injection J as <- <-; split; [|intros []]|].
    destruct (existsb is_nested _); [by injection J as <- <-; split; [|intros (_ & ? & _)]|].
    destruct (10 <? _) eqn:L; bool_props; injection J as <- <-; split; try done; lia.
Qed.

(** C24: The capture analysis is exact on the names that it sees: when no allocation
    fails it answers the names that the body reads, other than the parameters
    and loop variables, and other than the names that the body assigns without
    an outer binding, each once. *)
Theorem closure_captures func_body arg_params :
  exists r, (ts_analyze_closure closure_env outer_scope func_body arg_params []).1 = Some r /\
  NoDup (captured_vars r) /\
  forall x, x ∈ captured_vars r <->
    captures (param_names arg_params) (body_events func_body) x.
Proof. destruct (closure_result func_body arg_params) as (r & ? & ? & ? & _). eauto. Qed.

(** A body is compiled ahead exactly when it contains no nested function, has at
    most ten captures, and reads no variable of its own before assigning it. *)
Theorem closure_can_jit func_body arg_params :
  exists r, (ts_analyze_closure closure_env outer_scope func_body arg_params []).1 = Some r /\
  (can_jit r = true <->
    (forall x, ~ unbound_read (param_names arg_params) (body_events func_body) x) /\
    existsb is_nested (body_events func_body) = false /\
    length (captured_vars r) <= 10).
Proof.
  destruct (closure_result func_body arg_params) as (r & Hr & _ & _ & Hj). exists r.
  split; [done|]. rewrite Hj. split; intros (Hx & ? & ?); (split_and!; [|done|done]).
  - intros x Hu. apply Hx. by exists x.
  - intros [x Hu]. by apply (Hx x).
Qed.

(** The constructs that the analysis does not look into. *)
Definition not_analyzed (d : node_data) : bool :=
  match d with
  | NODE_CONSTANT_DECL _ _ | NODE_SWITCH _ _ _ | NODE_DO_WHILE _ _ | NODE_MAP_LITERAL _ _
  | NODE_MEMBER_SET _ _ _ | NODE_SLICE _ _ _ | NODE_SPREAD _ | NODE_TEMPLATE_STRING _
  | NODE_DESTRUCTURING_ASSIGNMENT _ _ _ | NODE_TRY_CATCH _ _ _ | NODE_THROW _
  | NODE_YIELD _ | NODE_NEW _ _ | NODE_SUPER _ _ _ | NODE_INSTANCEOF _ _ _ => true
  | _ => false
  end.

(** Whatever a [switch], [try], [do ... while], map literal, member or slice
    assignment, template, [throw], [new] or constant declaration contains, the
    analysis sees no name in it: a function whose body is one of them captures
    nothing and is compiled ahead. *)
Theorem closure_blind_spots line column d arg_params :
  not_analyzed d = true ->
  exists r, (ts_analyze_closure closure_env outer_scope (Some (Node line column d)) arg_params []).1
    = Some r /\ captured_vars r = [] /\ can_jit r = true.
Proof.
  intros Hd. destruct (closure_result (Some (Node line column d)) arg_params) as (r & Hr & _ & Hc & Hj).
  assert (body_events (Some (Node line column d)) = []) as E by by destruct d.
  rewrite E in Hc, Hj.
  assert (captured_vars r = []) as Hcap.
  { destruct (captured_vars r) as [|x l]; [done|].
    assert (captures (param_names arg_params) [] x) as (Hx & _) by (apply Hc; by left).
    by apply elem_of_nil in Hx. }
  exists r. split_and!; [done|done|]. apply Hj. rewrite Hcap. split_and!; [|done|simpl; lia].
  intros (x & Hx & _). by apply elem_of_nil in Hx.
Qed.

End Theorems.

(** [func f(y) { {k: x} }] : the captured [x] is missed. *)
Lemma closure_blind_spots_witness :
  exists r, (ts_analyze_closure (V := Z) [{["x" := VarEntry 1%Z false false]}] None
    (Some (Node 1 1 (NODE_MAP_LITERAL ["k"] [Node 1 5 (NODE_VARIABLE "x")])))
    [Node 1 8 (NODE_VARIABLE "y")] []).1 = Some r /\ captured_vars r = [] /\ can_jit r = true.
Proof. by apply closure_blind_spots. Defined.

(** [return a + x] with the parameter [a]. *)
Example closure_demo :
  (ts_analyze_closure (V := Z) [] None
    (Some (Node 1 1 (NODE_FLOW TOKEN_RETURN (Some (Node 1 1 (NODE_BINARY_OP TOKEN_PLUS
      (Some (Node 1 1 (NODE_VARIABLE "a"))) (Some (Node 1 1 (NODE_VARIABLE "x")))))))))
    [Node 1 8 (NODE_VARIABLE "a")] []).1 = Some (ClosureAnalysis ["x"] true None).
Proof. by vm_compute. Qed.

(** When growing the set of used names fails the capture is silently lost. *)
Example closure_oom :
  (ts_analyze_closure (V := Z) [] None
    (Some (Node 1 1 (NODE_VARIABLE "x"))) [] [true; false]).1 = Some (ClosureAnalysis [] true None).
Proof. by vm_compute. Qed.
