(* ===== verification/Validate.v ===== *)
(** Static validation of a syntax tree: [exprtk/src/exprtk_validate.c].

    The validator keeps a stack of scopes in a scratch arena whose allocations may
    fail.  An operation answers [None] where the code dereferences a NULL pointer.
    Of the environment it reads only names: the variables and functions of each
    scope of the chain and the entries of the mounted modules.  The two lookups
    whose results the code ignores ([exprtk_find_builtin], [exprtk_registry_find])
    are left out. *)

From S2P Require Import Prelude Ast.
From stdpp Require Import pretty.
From Stdlib Require Import Ascii.

(** ** Data *)

Record module_t := Module_ { module_name : option string; entries : list string }.

Record env_names := EnvNames {
  env_vars : list string;
  env_funcs : list string;
  env_modules : list module_t
}.

Record scope_s := Scope { vars : list (option string); cap : nat }.

Record validate_ctx_t := Ctx {
  v_error : option string;             (* p_ctx.error_msg, when p_ctx.error *)
  v_scopes : list scope_s;             (* ctx->scope and its parents *)
  v_mem : heap                         (* outcomes of the scratch arena *)
}.

Definition set_scopes (l : list scope_s) (c : validate_ctx_t) : validate_ctx_t :=
  Ctx (v_error c) l (v_mem c).

(** A C string cut to [n - 1] characters, as [snprintf] does for a buffer of [n]. *)
Definition cut (n : nat) (s : string) : string := String.substring 0 (n - 1) s.

(** ** Scopes *)

Definition scope_push (c : validate_ctx_t) : validate_ctx_t :=
  match alloc (v_mem c) with
  | (true, h) => Ctx (v_error c) (Scope [] 0 :: v_scopes c) h
  | (false, h) => Ctx (v_error c) (v_scopes c) h
  end.

Definition scope_pop (c : validate_ctx_t) : validate_ctx_t := set_scopes (tail (v_scopes c)) c.

Definition scope_contains (s : scope_s) (name : string) : bool :=
  bool_decide (Some name ∈ vars s).

(** The array of the scope has room for one more name, or is grown. *)
Definition scope_room (s : scope_s) (h : heap) : option scope_s * heap :=
  if (cap s <=? length (vars s))%nat then
    match alloc h with
    | (true, h) => (Some (Scope (vars s) (if (cap s =? 0)%nat then 8 else cap s * 2)), h)
    | (false, h) => (None, h)
    end
  else (Some s, h).

Definition scope_add (c : validate_ctx_t) (name : option string) : validate_ctx_t :=
  match v_scopes c, name with
  | s :: parents, Some name =>
      if scope_contains s name then c
      else
        match scope_room s (v_mem c) with
        | (None, h) => Ctx (v_error c) (v_scopes c) h
        | (Some s, h) =>
            let (ok, h) := alloc h in                              (* safe_strdup *)
            Ctx (v_error c)
              (Scope (vars s ++ [if ok then Some name else None]) (cap s) :: parents) h
        end
  | _, _ => c
  end.

(** [validate_node] on a pointer that may be NULL, and on an array. *)
Local Notation "'on_opt' f o c" := (match o with Some n => f n c | None => Some c end)
  (at level 10, f at level 9, o at level 9, c at level 9).
Local Notation "'on_list' f l c" := (fold_left (fun r n => c ← r; f n c) l (Some c))
  (at level 10, f at level 9, l at level 9, c at level 9).

Section Validate.
Context (env : list env_names).

Definition scope_has (c : validate_ctx_t) (name : string) : bool :=
  existsb (fun s => scope_contains s name) (v_scopes c)
  || existsb (fun e => bool_decide (name ∈ env_vars e) || bool_decide (name ∈ env_funcs e)) env.

(** [strncmp(fn, name, strlen(name)) == 0 && fn[strlen(name)] == '.'] *)
Definition has_prefix_dot (name fn : string) : bool := String.prefix (name +:+ ".") fn.

Definition is_module_prefix (c : validate_ctx_t) (name : string) : bool :=
  existsb (fun e => existsb (fun m =>
      bool_decide (module_name m = Some name) || existsb (has_prefix_dot name) (entries m))
    (env_modules e)) env
  || scope_has c name.

(** Is the object of a member call the name of a module? *)
Definition names_module (c : validate_ctx_t) (object : node) : bool :=
  match data object with NODE_VARIABLE obj_name => is_module_prefix c obj_name | _ => false end.

(** [report_error]: only the first error is kept. *)
Definition report_error (c : validate_ctx_t) (n : node) (msg : string) : validate_ctx_t :=
  match v_error c with
  | Some _ => c
  | None =>
      Ctx (Some (cut 256 ("Validation error at line " +:+ pretty (node_line n) +:+ ", col "
                          +:+ pretty (node_column n) +:+ ": " +:+ cut 128 msg)))
        (v_scopes c) (v_mem c)
  end.

(** The characters before the first dot, when there is one. *)
Fixpoint before_dot (s : string) : option string :=
  match s with
  | EmptyString => None
  | String a s =>
      if Ascii.eqb a "."%char then Some EmptyString else String a <$> before_dot s
  end.

Definition add_prefix (c : validate_ctx_t) (fn : string) : validate_ctx_t :=
  match before_dot fn with
  | Some prefix => if (String.length prefix <? 64)%nat then scope_add c (Some prefix) else c
  | None => c
  end.

(** The effect of a call of [import] on the scope. *)
Definition validate_import (name : option string) (args : list node) (c : validate_ctx_t)
    : validate_ctx_t :=
  match name, args with
  | Some name, [arg] =>
      if decide (name = "import") then
        match data arg with
        | NODE_STRING value =>
            let c := scope_add c (Some (cut 64 value)) in
            fold_left (fun c e => fold_left (fun c m => fold_left add_prefix (entries m) c)
              (env_modules e) c) env c
        | _ => c
        end
      else c
  | _, _ => c
  end.

(** The loop over the parameters of a function.  The comparison with a name whose
    copy failed, or in a scope that could not be pushed, dereferences NULL. *)
Definition check_param (r : option validate_ctx_t) (arg : node) : option validate_ctx_t :=
  c ← r;
  match data arg with
  | NODE_VARIABLE name =>
      match v_scopes c with
      | [] => None
      | s :: _ =>
          match find_index (fun v => bool_decide (v = Some name) || bool_decide (v = None)) (vars s) with
          | Some j =>
              if decide (vars s !! j = Some None) then None
              else
                Some (scope_add (report_error c arg ("Duplicate parameter '" +:+ name +:+ "'"))
                        (Some name))
          | None => Some (scope_add c (Some name))
          end
      end
  | _ => Some c
  end.

Definition is_map_literal (o : option node) : bool :=
  match o with
  | Some n => match data n with NODE_MAP_LITERAL _ _ => true | _ => false end
  | None => false
  end.

Definition is_arith (op : token) : bool :=
  match op with
  | TOKEN_PLUS | TOKEN_MINUS | TOKEN_MULTIPLY | TOKEN_DIVIDE => true
  | _ => false
  end.

Fixpoint validate_node (n : node) (c : validate_ctx_t) {struct n} : option validate_ctx_t :=
  match v_error c with
  | Some _ => Some c
  | None =>
      let 'Node _ _ d := n in
      match d with
      | NODE_ASSIGNMENT name value | NODE_CONSTANT_DECL name value =>
          c ← on_opt validate_node value c;
          Some (scope_add c name)
      | NODE_BINARY_OP op lhs rhs =>
          c ← on_opt validate_node lhs c;
          c ← on_opt validate_node rhs c;
          Some (if is_arith op && (is_map_literal lhs || is_map_literal rhs)
                then report_error c n "Invalid operation on Map type" else c)
      | NODE_FUNCTION_EXPRESSION name arg_params body
      | NODE_FUNCTION_DEFINITION name arg_params body =>
          c ← fold_left check_param arg_params (Some (scope_push c));
          c ← on_opt validate_node body c;
          Some (scope_add (scope_pop c) name)
      | NODE_BLOCK statements => on_list validate_node statements c
      | NODE_IF condition if_branch else_branch =>
          c ← on_opt validate_node condition c;
          c ← on_opt validate_node if_branch c;
          on_opt validate_node else_branch c
      | NODE_WHILE condition body =>
          c ← on_opt validate_node condition c;
          on_opt validate_node body c
      | NODE_DO_WHILE body condition =>
          (* read through [while_loop]: its [condition] is the [body] of [do_while] *)
          c ← on_opt validate_node body c;
          on_opt validate_node condition c
      | NODE_FOR init condition post body =>
          c ← on_opt validate_node init (scope_push c);
          c ← on_opt validate_node condition c;
          c ← on_opt validate_node post c;
          c ← on_opt validate_node body c;
          Some (scope_pop c)
      | NODE_FOR_IN var_name collection body =>
          c ← on_opt validate_node collection (scope_push c);
          let c := scope_add c (Some var_name) in
          c ← on_opt validate_node body c;
          Some (scope_pop c)
      | NODE_FUNCTION_CALL name args =>
          c ← on_list validate_node args c;
          Some (validate_import name args c)
      | NODE_MEMBER_CALL object _ args =>
          c ← match object with
              | Some o => if names_module c o then Some c else validate_node o c
              | None => Some c
              end;
          on_list validate_node args c
      | NODE_VECTOR elements => on_list validate_node elements c
      | NODE_MAP_LITERAL _ values => on_list validate_node values c
      | _ => Some c                (* a variable too: an undefined one is not reported *)
      end
  end.

(** [exprtk_validate]: [None] for a crash, [Some None] for success, otherwise the
    message left in a buffer of [msg_len] bytes. *)
Definition exprtk_validate (root : option node) (h : heap) (msg_len : nat)
    : option (option string) :=
  match root with
  | None => Some None
  | Some n =>
      match alloc h with                                            (* mem_init *)
      | (false, _) => Some (Some (cut msg_len "Validation error: out of memory"))
      | (true, h) =>
          c ← validate_node n (scope_push (Ctx None [] h));
          Some (cut msg_len <$> v_error c)
      end
  end.

End Validate.

(** ** Specification

    The errors of a tree, in the order in which its parts run: a parameter that repeats another, and
    arithmetic on a map literal.  [errors] goes through the whole tree and does not look at the validator. *)

Definition error_at (n : node) (msg : string) : string :=
  cut 256 ("Validation error at line " +:+ pretty (node_line n) +:+ ", col "
           +:+ pretty (node_column n) +:+ ": " +:+ cut 128 msg).

Definition or_else (a b : option string) : option string :=
  match a with Some _ => a | None => b end.

Fixpoint duplicate_param (seen : list string) (args : list node) : option string :=
  match args with
  | [] => None
  | arg :: args =>
      match data arg with
      | NODE_VARIABLE name =>
          if decide (name ∈ seen)
          then Some (error_at arg ("Duplicate parameter '" +:+ name +:+ "'"))
          else duplicate_param (seen ++ [name]) args
      | _ => duplicate_param seen args
      end
  end.

Local Notation "'err_opt' f o" := (match o with Some n => f n | None => None end)
  (at level 10, f at level 9, o at level 9).
Local Notation "'err_list' f l" := (fold_left (fun r n => or_else r (f n)) l None)
  (at level 10, f at level 9, l at level 9).

(** The parameters that repeat an earlier one. *)
Fixpoint repeated (seen : list string) (args : list node) : list string :=
  match args with
  | [] => []
  | arg :: args =>
      match data arg with
      | NODE_VARIABLE name =>
          if decide (name ∈ seen)
          then error_at arg ("Duplicate parameter '" +:+ name +:+ "'") :: repeated seen args
          else repeated (seen ++ [name]) args
      | _ => repeated seen args
      end
  end.

Definition repeated_params (d : node_data) : list string :=
  match d with
  | NODE_FUNCTION_EXPRESSION _ l _ | NODE_FUNCTION_DEFINITION _ l _ | NODE_GENERATOR_FUNCTION _ l _
  | NODE_METHOD _ l _ _ _ _ _ _ => repeated [] l
  | _ => []
  end.

Definition map_arithmetic (n : node) : list string :=
  match data n with
  | NODE_BINARY_OP op a b =>
      if is_arith op && (is_map_literal a || is_map_literal b)
      then [error_at n "Invalid operation on Map type"] else []
  | _ => []
  end.

Fixpoint errors (n : node) : list string :=
  let 'Node _ _ d := n in
  let one o := match o with Some n => errors n | None => [] end in
  let all l := flat_map errors l in
  repeated_params d ++
  match d with
  | NODE_NUMBER _ | NODE_INTEGER _ | NODE_VARIABLE _ | NODE_STRING _ | NODE_NULL
  | NODE_TEMPLATE_STRING _ | NODE_REST_PARAMETER _ | NODE_THIS => []
  | NODE_BINARY_OP _ a b | NODE_WHILE a b | NODE_INDEX a b | NODE_DO_WHILE a b
  | NODE_MEMBER_SET a _ b | NODE_FOR_IN _ a b | NODE_DESTRUCTURING_ASSIGNMENT a b _
  | NODE_TRY_CATCH a _ b | NODE_INSTANCEOF a _ b => one a ++ one b
  | NODE_FUNCTION_CALL _ l | NODE_BLOCK l | NODE_VECTOR l | NODE_MAP_LITERAL _ l
  | NODE_NEW _ l | NODE_SUPER _ l _ => all l
  | NODE_ASSIGNMENT _ a | NODE_SPREAD a | NODE_FLOW _ a | NODE_CONSTANT_DECL _ a
  | NODE_MEMBER_ACCESS a _ | NODE_THROW a | NODE_YIELD a | NODE_FIELD_DECL _ _ a _ _ => one a
  | NODE_IF a b c | NODE_SLICE a b c => one a ++ one b ++ one c
  | NODE_FOR a b c d => one a ++ one b ++ one c ++ one d
  | NODE_FUNCTION_DEFINITION _ l a | NODE_FUNCTION_EXPRESSION _ l a
  | NODE_GENERATOR_FUNCTION _ l a | NODE_METHOD _ l a _ _ _ _ _ => all l ++ one a
  | NODE_MEMBER_CALL a _ l => one a ++ all l
  | NODE_SWITCH a l b => one a ++ all l ++ one b
  | NODE_CLASS_DEF _ a l l' _ _ _ _ _ => one a ++ all l ++ all l'
  end ++ map_arithmetic n.

(** The children that the validator looks into, and those it does not. *)
Definition looked (d : node_data) : list node :=
  match d with
  | NODE_ASSIGNMENT _ _ | NODE_CONSTANT_DECL _ _ | NODE_BINARY_OP _ _ _ | NODE_BLOCK _ | NODE_IF _ _ _
  | NODE_WHILE _ _ | NODE_DO_WHILE _ _ | NODE_FOR _ _ _ _ | NODE_FOR_IN _ _ _ | NODE_FUNCTION_CALL _ _
  | NODE_MEMBER_CALL _ _ _ | NODE_VECTOR _ | NODE_MAP_LITERAL _ _ => children d
  | NODE_FUNCTION_EXPRESSION _ _ a | NODE_FUNCTION_DEFINITION _ _ a => opt a
  | _ => []
  end.

Definition hidden (d : node_data) : list node :=
  match d with
  | NODE_FUNCTION_EXPRESSION _ l _ | NODE_FUNCTION_DEFINITION _ l _ => l
  | _ => match looked d with [] => children d | _ => [] end
  end.

Definition params_looked (d : node_data) : bool :=
  match d with NODE_GENERATOR_FUNCTION _ _ _ | NODE_METHOD _ _ _ _ _ _ _ _ => false | _ => true end.

(** The trees whose errors are all where the validator looks. *)
Inductive in_sight : node -> Prop :=
  | in_sight_at line column d :
      (params_looked d = false -> repeated_params d = []) ->
      Forall (fun n => errors n = []) (hidden d) -> Forall in_sight (looked d) ->
      in_sight (Node line column d).

(** The first error where the validator looks. *)
Fixpoint first_error (n : node) : option string :=
  let 'Node _ _ d := n in
  match d with
  | NODE_ASSIGNMENT _ a | NODE_CONSTANT_DECL _ a => err_opt first_error a
  | NODE_BINARY_OP op a b =>
      or_else (err_opt first_error a) (or_else (err_opt first_error b)
        (if is_arith op && (is_map_literal a || is_map_literal b)
         then Some (error_at n "Invalid operation on Map type") else None))
  | NODE_FUNCTION_EXPRESSION _ l a | NODE_FUNCTION_DEFINITION _ l a =>
      or_else (duplicate_param [] l) (err_opt first_error a)
  | NODE_IF a b c => or_else (err_opt first_error a) (or_else (err_opt first_error b) (err_opt first_error c))
  | NODE_WHILE a b | NODE_DO_WHILE a b | NODE_FOR_IN _ a b =>
      or_else (err_opt first_error a) (err_opt first_error b)
  | NODE_FOR a b c d =>
      or_else (err_opt first_error a) (or_else (err_opt first_error b)
        (or_else (err_opt first_error c) (err_opt first_error d)))
  | NODE_BLOCK l | NODE_FUNCTION_CALL _ l | NODE_VECTOR l | NODE_MAP_LITERAL _ l =>
      err_list first_error l
  | NODE_MEMBER_CALL a _ l => or_else (err_opt first_error a) (err_list first_error l)
  | _ => None
  end.

(** ** What the validator finds *)

Lemma head_app {A} (l l' : list A) : head (l ++ l') = match head l with Some x => Some x | None => head l' end.
Proof. by destruct l. Qed.

Lemma head_repeated args : forall seen, duplicate_param seen args = head (repeated seen args).
Proof. induction args as [|arg args IH]; intros seen; simpl; [done|]. by repeat case_match. Qed.

Lemma errors_children line column d :
  errors (Node line column d) =
    repeated_params d ++ flat_map errors (children d) ++ map_arithmetic (Node line column d).
Proof.
  assert (forall o, flat_map errors (opt o) = match o with Some n => errors n | None => [] end) as Hopt
    by (intros [n|]; simpl; by rewrite ?app_nil_r).
  destruct d; cbn [errors children repeated_params]; rewrite ?flat_map_app, ?Hopt; by rewrite <- ?app_assoc.
Qed.

Lemma err_list_app l l' :
  err_list first_error (l ++ l') = or_else (err_list first_error l) (err_list first_error l').
Proof.
  assert (forall l e, fold_left (fun r n => or_else r (first_error n)) l e =
    or_else e (err_list first_error l)) as Hfrom.
  { clear. induction l as [|n l IH]; intros e; simpl; [by destruct e|]. rewrite IH, (IH (first_error n)).
    by destruct e. }
  rewrite fold_left_app. apply Hfrom.
Qed.

Lemma first_error_looked line column d :
  first_error (Node line column d) =
    or_else (if params_looked d then head (repeated_params d) else None)
      (or_else (err_list first_error (looked d)) (head (map_arithmetic (Node line column d)))).
Proof.
  assert (forall o, err_list first_error (opt o) = err_opt first_error o) as Hopt by by intros [n|].
  assert (forall a b c, or_else a (or_else b c) = or_else (or_else a b) c) as Hassoc by by intros [] ? ?.
  assert (forall a, or_else a None = a) as Hnone by by intros [].
  destruct d; cbn [first_error looked children params_looked repeated_params map_arithmetic data head];
    rewrite ?err_list_app, ?Hopt, <- ?head_repeated, ?Hassoc, ?Hnone; try done.
  by destruct (_ && _).
Qed.

Lemma looked_children d n : n ∈ looked d -> n ∈ children d.
Proof. destruct d; cbn [looked children]; try done; rewrite ?elem_of_app; try tauto; by intros ?%not_elem_of_nil. Qed.

Lemma err_list_in l m : err_list first_error l = Some m -> exists n, n ∈ l /\ first_error n = Some m.
Proof.
  induction l as [|n l IH] using rev_ind; [done|]. rewrite err_list_app. simpl.
  destruct (err_list first_error l) as [m'|]; simpl.
  - intros [= ->]. destruct IH as (k & ? & ?); [done|]. exists k. split; [|done]. apply elem_of_app. by left.
  - intros H. exists n. split; [|done]. apply elem_of_app. right. by left.
Qed.

(** What the validator finds is an error of the tree. *)
Lemma first_error_sound n m : first_error n = Some m -> m ∈ errors n.
Proof.
  revert m. induction n as [line column d IH] using node_children_ind. intros m.
  rewrite first_error_looked, errors_children, !elem_of_app.
  destruct (if params_looked d then head (repeated_params d) else None) as [e|] eqn:E; cbn [or_else].
  { intros [= ->]. left. destruct (params_looked d); [|done]. by apply head_Some_elem_of. }
  destruct (err_list first_error (looked d)) as [e|] eqn:El; cbn [or_else].
  { intros [= ->]. right. left. apply err_list_in in El as (k & Hk & He). apply list_elem_of_In, in_flat_map.
    exists k. apply looked_children in Hk. split; [by apply list_elem_of_In|]. rewrite Forall_forall in IH.
    by apply list_elem_of_In, IH. }
  intros H. right. right. by apply head_Some_elem_of.
Qed.

Lemma hidden_nothing d :
  Forall (fun n => errors n = []) (hidden d) -> flat_map errors (children d) = flat_map errors (looked d).
Proof.
  assert (forall l, Forall (fun n => errors n = []) l -> flat_map errors l = []) as H0.
  { induction 1 as [|n l Hn _ IH]; simpl; [done|]. by rewrite Hn, IH. }
  destruct d; cbn [hidden looked children]; try done; intros H; rewrite ?flat_map_app; try by apply H0.
  all: try by rewrite H0.
  all: by rewrite <- ?flat_map_app; apply H0.
Qed.

(** In a tree whose errors are all in sight it finds the first. *)
Lemma first_error_complete n : in_sight n -> first_error n = head (errors n).
Proof.
  induction n as [line column d IH] using node_children_ind. inversion 1 as [? ? ? Hp Hh Hl]; subst.
  rewrite first_error_looked, errors_children, !head_app, (hidden_nothing _ Hh).
  assert (err_list first_error (looked d) = head (flat_map errors (looked d))) as ->.
  { assert (Forall (fun n => n ∈ children d) (looked d)) as Hc by (apply Forall_forall; apply looked_children).
    rewrite Forall_forall in IH. clear Hp Hh. induction (looked d) as [|n l IHl] using rev_ind; [done|].
    apply Forall_app in Hl as [Hl Hn]. apply Forall_app in Hc as [Hc Hcn]. rewrite err_list_app, flat_map_app, head_app.
    rewrite IHl by done. simpl. rewrite app_nil_r. inversion Hn; subst. inversion Hcn; subst.
    rewrite IH by done. by destruct (head (flat_map errors l)). }
  destruct (params_looked d); [|rewrite Hp by done; simpl];
    unfold or_else; by repeat case_match.
Qed.

(** ** Lemmas

    With an arena that never fails, no scope holds a NULL name. *)

Definition named (c : validate_ctx_t) : Prop :=
  v_mem c = [] /\ Forall (fun s => Forall (fun v => is_Some v) (vars s)) (v_scopes c).

(** The part of the stack below the current scope is kept. *)
Definition same_stack (c c' : validate_ctx_t) : Prop :=
  length (v_scopes c') = length (v_scopes c) /\ named c'.

Lemma scope_add_spec c name :
  named c ->
  same_stack c (scope_add c name) /\ v_error (scope_add c name) = v_error c /\
  tail (v_scopes (scope_add c name)) = tail (v_scopes c) /\
  forall s l, v_scopes c = s :: l -> exists s', v_scopes (scope_add c name) = s' :: l /\
    forall x, Some x ∈ vars s' <-> Some x ∈ vars s \/ name = Some x.
Proof.
  intros [Hm Hn]. unfold same_stack, scope_add.
  destruct (v_scopes c) as [|s l] eqn:E.
  { split_and!; rewrite ?E; try done; by split; [done|rewrite E]. }
  destruct name as [x|].
  2: { split_and!; rewrite ?E; try done; try (by split; [done|rewrite E]).
       intros s' l' [= <- <-]. exists s. split; [done|]. intros x. split; [by left|].
       by intros [?|?]. }
  unfold scope_contains. case_bool_decide as D.
  { split_and!; rewrite ?E; try done; try (by split; [done|rewrite E]).
    intros s' l' [= <- <-]. exists s. split; [done|]. intros y. split; [by left|].
    by intros [?|[= <-]]. }
  inversion Hn as [|? ? Hs Hl]; subst.
  assert (exists s', scope_room s (v_mem c) = (Some s', []) /\ vars s' = vars s) as (s' & -> & Hs').
  { unfold scope_room. rewrite Hm. destruct (_ <=? _)%nat; simpl; by eexists. }
  simpl. rewrite Hs'. split_and!; try done.
  - split; [done|]. constructor; [|done]. apply Forall_app. split; [done|]. by repeat constructor.
  - intros s1 l1 [= <- <-]. eexists. split; [done|]. simpl. intros y.
    rewrite elem_of_app, list_elem_of_singleton. intuition congruence.
Qed.

Lemma named_error e c : named c -> named (Ctx e (v_scopes c) (v_mem c)).
Proof. done. Qed.

Lemma report_error_spec c n msg :
  v_scopes (report_error c n msg) = v_scopes c /\ v_mem (report_error c n msg) = v_mem c /\
  v_error (report_error c n msg) = or_else (v_error c) (Some (error_at n msg)).
Proof. unfold report_error. destruct (v_error c) eqn:E; simpl; rewrite ?E; by split_and!. Qed.

Lemma scope_add_keeps c name :
  named c -> same_stack c (scope_add c name) /\ v_error (scope_add c name) = v_error c.
Proof. intros H. by destruct (scope_add_spec c name H) as (? & ? & _). Qed.

Lemma same_stack_trans c1 c2 c3 : same_stack c1 c2 -> same_stack c2 c3 -> same_stack c1 c3.
Proof. intros [H1 _] [H2 H3]. split; [congruence|done]. Qed.

Section Lemmas.
Context (env : list env_names).

Lemma add_prefix_keeps c fn :
  named c -> same_stack c (add_prefix c fn) /\ v_error (add_prefix c fn) = v_error c.
Proof.
  intros H. unfold add_prefix. destruct (before_dot fn); [|done].
  destruct (_ <? _)%nat; [by apply scope_add_keeps|done].
Qed.

Lemma fold_keeps {A} (f : validate_ctx_t -> A -> validate_ctx_t) l :
  (forall c a, named c -> same_stack c (f c a) /\ v_error (f c a) = v_error c) ->
  forall c, named c -> same_stack c (fold_left f l c) /\ v_error (fold_left f l c) = v_error c.
Proof.
  intros Hf. induction l as [|a l IH]; intros c H; simpl; [done|].
  destruct (Hf c a H) as [H1 H2]. destruct (IH _ (proj2 H1)) as [H3 H4].
  split; [by eapply same_stack_trans|congruence].
Qed.

Lemma import_keeps name args c :
  named c -> same_stack c (validate_import env name args c) /\
  v_error (validate_import env name args c) = v_error c.
Proof.
  intros H. unfold validate_import. destruct name as [name|]; [|done].
  destruct args as [|arg [|]]; [done| |done]. case_decide; [|done].
  destruct (data arg); try done.
  destruct (scope_add_keeps c (Some (cut 64 value)) H) as [H1 H2].
  destruct (fold_keeps (fun c e => fold_left (fun c m => fold_left add_prefix (entries m) c)
    (env_modules e) c) env) with (c := scope_add c (Some (cut 64 value))) as [H3 H4].
  - intros c' e Hc'. apply fold_keeps; [|done]. intros c2 m Hc2. by apply fold_keeps; [apply add_prefix_keeps|].
  - apply H1.
  - split; [by eapply same_stack_trans|congruence].
Qed.

(** A step of the traversal: it does not crash, keeps the stack, and finds [e]
    unless an error was there already. *)
Definition finds (f : validate_ctx_t -> option validate_ctx_t) (e : option string) : Prop :=
  forall c, named c ->
  exists c', f c = Some c' /\ same_stack c c' /\ v_error c' = or_else (v_error c) e.

Lemma or_else_assoc a b c : or_else a (or_else b c) = or_else (or_else a b) c.
Proof. by destruct a. Qed.

Lemma or_else_None a : or_else a None = a.
Proof. by destruct a. Qed.

Lemma finds_bind f g e1 e2 :
  finds f e1 -> finds g e2 -> finds (fun c => c ← f c; g c) (or_else e1 e2).
Proof.
  intros Hf Hg c Hc. destruct (Hf c Hc) as (c1 & E1 & S1 & H1).
  destruct (Hg c1 (proj2 S1)) as (c2 & E2 & S2 & H2). exists c2. rewrite E1. simpl.
  split_and!; [done|by eapply same_stack_trans|]. by rewrite H2, H1, or_else_assoc.
Qed.

Lemma finds_none : finds Some None.
Proof. intros c Hc. exists c. split_and!; [done|by split|]. by rewrite or_else_None. Qed.

Lemma finds_keeps f :
  (forall c, named c -> same_stack c (f c) /\ v_error (f c) = v_error c) ->
  finds (fun c => Some (f c)) None.
Proof.
  intros Hf c Hc. destruct (Hf c Hc) as [H1 H2]. exists (f c). split_and!; [done..|].
  by rewrite or_else_None.
Qed.

Lemma finds_ext f g e : (forall c, named c -> f c = g c) -> finds f e -> finds g e.
Proof. intros E H c Hc. rewrite <- E by done. by apply H. Qed.

Lemma finds_list (f : node -> validate_ctx_t -> option validate_ctx_t) (err : node -> option string) l :
  Forall (fun n => finds (f n) (err n)) l -> forall e0,
  finds (fun c => fold_left (fun r n => c ← r; f n c) l (Some c))
    (fold_left (fun r n => or_else r (err n)) l None) /\
  fold_left (fun r n => or_else r (err n)) l e0
    = or_else e0 (fold_left (fun r n => or_else r (err n)) l None).
Proof.
  induction 1 as [|n l Hn _ IH]; intros e0; simpl; [split; [apply finds_none|by rewrite or_else_None]|].
  destruct (IH (or_else e0 (err n))) as [_ ->]. destruct (IH (err n)) as [IH1 IH2]. split.
  - rewrite IH2. intros c Hc. destruct (Hn c Hc) as (c1 & E1 & S1 & H1).
    destruct (IH1 c1 (proj2 S1)) as (c2 & E2 & S2 & H2). exists c2. rewrite E1. simpl.
    split_and!; [done|by eapply same_stack_trans|]. by rewrite H2, H1, or_else_assoc.
  - rewrite IH2. by destruct e0.
Qed.

(** A traversal inside a scope of its own. *)
Lemma finds_scoped f e :
  (forall c l, named c -> v_scopes c = Scope [] 0 :: l -> exists c', f c = Some c' /\ same_stack c c' /\
     v_error c' = or_else (v_error c) e) ->
  finds (fun c => c ← f (scope_push c); Some (scope_pop c)) e.
Proof.
  intros Hf c [Hm Hn]. unfold scope_push. rewrite Hm. simpl.
  destruct (Hf (Ctx (v_error c) (Scope [] 0 :: v_scopes c) []) (v_scopes c)) as (c' & -> & [Hlen [Hm' Hn']] & He).
  { split; [done|]. constructor; [constructor|done]. }
  { done. }
  exists (scope_pop c'). simpl in *. split_and!; [done| |done].
  unfold same_stack, named. simpl. destruct (v_scopes c') as [|s l]; [done|]. simpl in *.
  inversion Hn'; subst. split_and!; [lia|done|done].
Qed.

Lemma finds_guard f g e :
  (forall c, v_error c = None -> f c = g c) ->
  (forall c m, v_error c = Some m -> f c = Some c) ->
  finds g e -> finds f e.
Proof.
  intros H1 H2 Hg c Hc. destruct (v_error c) as [m|] eqn:E.
  - exists c. rewrite (H2 _ _ E). split_and!; [done|by split|]. by rewrite E.
  - rewrite (H1 _ E), <- E. by apply Hg.
Qed.

Lemma check_params args : forall c s l seen,
  named c -> v_scopes c = s :: l -> (forall x, x ∈ seen <-> Some x ∈ vars s) ->
  exists c', fold_left check_param args (Some c) = Some c' /\ same_stack c c' /\
    v_error c' = or_else (v_error c) (duplicate_param seen args).
Proof.
  induction args as [|arg args IH]; intros c s l seen Hc Hs Hseen; simpl.
  { exists c. split_and!; [done|by split|]. by rewrite or_else_None. }
  destruct (data arg) as [| |name| | | | | | | | | | | | | | | | | | | | | | | | | | | | | | | | | | | | | |];
    try by eapply IH.
  rewrite Hs. destruct Hc as [Hm Hn].
  assert (Forall (fun v => is_Some v) (vars s)) as Hsn by (rewrite Hs in Hn; by inversion Hn).
  destruct (find_index _ (vars s)) as [j|] eqn:F.
  - apply find_index_lookup in F as (v & Hj & Hv).
    assert (v = Some name) as ->.
    { apply orb_prop in Hv as [Hv|Hv]; apply bool_decide_eq_true in Hv; [done|]. subst.
      apply (Forall_lookup_1 _ _ _ _ Hsn) in Hj as [? ?]. done. }
    rewrite decide_False by congruence.
    rewrite (decide_True (P := name ∈ seen)) by (apply Hseen, list_elem_of_lookup; by exists j).
    set (c1 := report_error c arg _).
    destruct (report_error_spec c arg ("Duplicate parameter '" +:+ name +:+ "'")) as (R1 & R2 & R3).
    fold c1 in R1, R2, R3.
    assert (named c1) as Hc1 by (split; [by rewrite R2|by rewrite R1]).
    destruct (scope_add_spec c1 (Some name) Hc1) as (A1 & A2 & _ & A4).
    rewrite <- R1 in Hs. destruct (A4 _ _ Hs) as (s' & Hs' & Hx).
    destruct (IH (scope_add c1 (Some name)) s' l seen (proj2 A1) Hs') as (c' & -> & S & He).
    { intros x. rewrite Hx, Hseen. split; [by left|]. intros [?|[= <-]]; [done|].
      apply list_elem_of_lookup. by exists j. }
    exists c'. split_and!; [done| |].
    + eapply same_stack_trans; [|exact S]. destruct A1 as [A1 ?]. split; [by rewrite A1, R1|done].
    + rewrite He, A2, R3. unfold error_at. by destruct (v_error c).
  - rewrite (decide_False (P := name ∈ seen)).
    2: { intros Hin%Hseen%list_elem_of_lookup. destruct Hin as [i Hi].
         apply find_index_None in F. apply (Forall_lookup_1 _ _ _ _ F) in Hi.
         by rewrite bool_decide_true in Hi by done. }
    destruct (scope_add_spec c (Some name) (conj Hm Hn)) as (A1 & A2 & _ & A4).
    destruct (A4 _ _ Hs) as (s' & Hs' & Hx).
    destruct (IH (scope_add c (Some name)) s' l (seen ++ [name]) (proj2 A1) Hs')
      as (c' & -> & S & He).
    { intros x. rewrite Hx, elem_of_app, list_elem_of_singleton, Hseen. intuition congruence. }
    exists c'. split_and!; [done|by eapply same_stack_trans|by rewrite He, A2].
Qed.

Lemma finds_then f k e :
  finds f e ->
  (forall c, named c -> same_stack c (k c) /\ v_error (k c) = v_error c) ->
  finds (fun c => c ← f c; Some (k c)) e.
Proof.
  intros Hf Hk. rewrite <- (or_else_None e). apply finds_bind; [done|by apply finds_keeps].
Qed.

Lemma finds_for f1 f2 f3 f4 e1 e2 e3 e4 :
  finds f1 e1 -> finds f2 e2 -> finds f3 e3 -> finds f4 e4 ->
  finds (fun c => c ← f1 (scope_push c); c ← f2 c; c ← f3 c; c ← f4 c; Some (scope_pop c))
    (or_else e1 (or_else e2 (or_else e3 e4))).
Proof.
  intros H1 H2 H3 H4.
  eapply (finds_ext (fun c => c ← (fun c => c ← f1 c; c ← f2 c; c ← f3 c; f4 c) (scope_push c);
    Some (scope_pop c))).
  - intros c _. destruct (f1 (scope_push c)) as [c1|]; simpl; [|done].
    destruct (f2 c1) as [c2|]; simpl; [|done]. by destruct (f3 c2).
  - apply (finds_scoped (fun c => c ← f1 c; c ← f2 c; c ← f3 c; f4 c)). intros c l Hc _.
    revert c Hc. by repeat (apply finds_bind; [done|]).
Qed.

Lemma finds_for_in f1 f2 e1 e2 name :
  finds f1 e1 -> finds f2 e2 ->
  finds (fun c => c ← f1 (scope_push c); c ← f2 (scope_add c (Some name)); Some (scope_pop c))
    (or_else e1 e2).
Proof.
  intros H1 H2.
  eapply (finds_ext (fun c => c ← (fun c => c ← (c ← f1 c; Some (scope_add c (Some name))); f2 c)
    (scope_push c); Some (scope_pop c))).
  - intros c _. by destruct (f1 (scope_push c)).
  - apply (finds_scoped (fun c => c ← (c ← f1 c; Some (scope_add c (Some name))); f2 c)).
    intros c l Hc _. revert c Hc. apply finds_bind; [|done].
    apply finds_then; [done|]. intros. by apply scope_add_keeps.
Qed.

Lemma finds_function f e args name :
  finds f e ->
  finds (fun c => c ← fold_left check_param args (Some (scope_push c)); c ← f c;
                  Some (scope_add (scope_pop c) name))
    (or_else (duplicate_param [] args) e).
Proof.
  intros Hf.
  eapply (finds_ext (fun c => c ← (fun c =>
    c ← (fun c => c ← fold_left check_param args (Some c); f c) (scope_push c);
    Some (scope_pop c)) c; Some (scope_add c name))).
  - intros c _. destruct (fold_left check_param args (Some (scope_push c))) as [c1|]; simpl; [|done].
    by destruct (f c1).
  - apply finds_then; [|intros; by apply scope_add_keeps].
    apply (finds_scoped (fun c => c ← fold_left check_param args (Some c); f c)). intros c l Hc Hs.
    destruct (check_params args c _ l [] Hc Hs) as (c1 & -> & S1 & E1).
    { intros x. simpl. by rewrite !elem_of_nil. }
    simpl. destruct (Hf c1 (proj2 S1)) as (c2 & -> & S2 & E2). exists c2.
    split_and!; [done|by eapply same_stack_trans|]. by rewrite E2, E1, or_else_assoc.
Qed.

(** The traversal finds the first error where the validator looks. *)
Lemma validate_finds n : finds (validate_node env n) (first_error n).
Proof.
  induction n as [line column d IH] using node_children_ind.
  assert (forall o, Forall (fun n => finds (validate_node env n) (first_error n)) (opt o) ->
    finds (fun c => on_opt (validate_node env) o c) (err_opt first_error o)) as Hopt.
  { intros [n|] H; simpl; [by inversion H|apply finds_none]. }
  assert (forall l, Forall (fun n => finds (validate_node env n) (first_error n)) l ->
    finds (fun c => on_list (validate_node env) l c) (err_list first_error l)) as Hlist.
  { intros l H. exact (proj1 (finds_list _ _ _ H None)). }
  eapply finds_guard;
    [intros c E; simpl; rewrite E; reflexivity|intros c m E; simpl; by rewrite E|].
  destruct d; simpl in IH |- *;
    repeat match goal with H : Forall _ (_ ++ _) |- _ => apply Forall_app in H as [? ?] end;
    try solve [apply finds_none | by apply Hlist | repeat first [by apply Hopt | apply finds_bind]].
  - apply finds_bind; [by apply Hopt|]. apply finds_bind; [by apply Hopt|].
    intros c Hc. eexists. split; [done|]. destruct (_ && _).
    + destruct (report_error_spec c (Node line column (NODE_BINARY_OP op left right))
        "Invalid operation on Map type") as (R1 & R2 & R3).
      split; [|done]. unfold same_stack, named. by rewrite R1, R2.
    + split; [by split|]. by rewrite or_else_None.
  - apply finds_then; [by apply Hlist|]. intros. by apply import_keeps.
  - apply finds_then; [by apply Hopt|]. intros. by apply scope_add_keeps.
  - pose proof (finds_for _ _ _ _ _ _ _ _ (Hopt init ltac:(done)) (Hopt condition ltac:(done))
      (Hopt post ltac:(done)) (Hopt body ltac:(done))) as G. exact G.
  - pose proof (finds_function _ _ arg_params name (Hopt body ltac:(done))) as G. exact G.
  - apply finds_bind; [|by apply Hlist]. destruct object as [o|]; [|apply finds_none].
    assert (finds (validate_node env o) (first_error o)) as Ho
      by (match goal with H : Forall _ (opt (Some o)) |- _ => by inversion H end).
    intros c Hc. destruct (names_module env c o) eqn:M; [|by apply Ho].
    exists c. split_and!; [done|by split|]. simpl. unfold names_module in M.
    destruct o as [? ? []]; try done. simpl. by rewrite or_else_None.
  - apply finds_then; [by apply Hopt|]. intros. by apply scope_add_keeps.
  - pose proof (finds_for_in _ _ _ _ var_name (Hopt collection ltac:(done))
      (Hopt body ltac:(done))) as G. exact G.
  - pose proof (finds_function _ _ arg_params name (Hopt body ltac:(done))) as G. exact G.
Qed.

End Lemmas.

(** ** Theorems *)

(** C30: When no allocation fails, [exprtk_validate] never crashes, whatever the environment and the names in
    scope.  What it answers is an error of the tree -- a repeated parameter or arithmetic on a map literal --
    cut to the caller's buffer; it is the first one when none is hidden where the validator
    does not look ([return], index and slice expressions, [switch], [try], [throw], member assignments and accesses,
    destructuring, generators, classes, default values of parameters); always it is the first one
    elsewhere.  Undefined variables and functions are accepted. *)
Theorem validate_exact env n msg_len :
  exists r, exprtk_validate env (Some n) [] msg_len = Some (cut msg_len <$> r) /\
    (forall m, r = Some m -> m ∈ errors n) /\ (in_sight n -> r = head (errors n)) /\ r = first_error n.
Proof.
  exists (first_error n).
  split_and!; [|intros m; apply first_error_sound|apply first_error_complete|done].
  change (exprtk_validate env (Some n) [] msg_len) with
    (c ← validate_node env n (Ctx None [Scope [] 0] []); Some (cut msg_len <$> v_error c)).
  destruct (validate_finds env n (Ctx None [Scope [] 0] [])) as (c & E & _ & He).
  { split; [done|]. by repeat constructor. }
  rewrite E. cbn [mbind option_bind]. by rewrite He.
Qed.

(** [return {} + 1] is accepted. *)
Example validate_blind :
  let sum := Node 1 8 (NODE_BINARY_OP TOKEN_PLUS (Some (Node 1 8 (NODE_MAP_LITERAL [] [])))
                         (Some (Node 1 13 (NODE_INTEGER 1)))) in
  let program := Node 1 1 (NODE_FLOW TOKEN_RETURN (Some sum)) in
  errors program = ["Validation error at line 1, col 8: Invalid operation on Map type"] /\
  exprtk_validate [] (Some program) [] 256 = Some None.
Proof. by vm_compute. Qed.

(** When the copy of a parameter's name fails, the next parameter is compared
    with a NULL name and the validator crashes. *)
Theorem validate_oom_crash :
  let f := Node 1 1 (NODE_FUNCTION_EXPRESSION None
             [Node 1 6 (NODE_VARIABLE "a"); Node 1 9 (NODE_VARIABLE "b")] None) in
  exprtk_validate [] (Some f) [true; true; true; true; false] 256 = None /\
  exprtk_validate [] (Some f) [] 256 = Some None.
Proof. by vm_compute. Qed.

Example validate_duplicate :
  exprtk_validate [] (Some (Node 1 1 (NODE_FUNCTION_EXPRESSION None
    [Node 1 6 (NODE_VARIABLE "a"); Node 1 9 (NODE_VARIABLE "a")] None))) [] 256
  = Some (Some "Validation error at line 1, col 9: Duplicate parameter 'a'").
Proof. by vm_compute. Qed.

(** A program with a [return], whose error is in sight. *)
Definition sample_program : node :=
  Node 1 1 (NODE_BLOCK
    [Node 1 1 (NODE_FLOW TOKEN_RETURN (Some (Node 1 8 (NODE_INTEGER 1))));
     Node 2 1 (NODE_FUNCTION_EXPRESSION None
       [Node 2 6 (NODE_VARIABLE "a"); Node 2 9 (NODE_VARIABLE "a")] None)]).

Lemma validate_exact_witness :
  exprtk_validate [] (Some sample_program) [] 256 = Some (cut 256 <$> head (errors sample_program)) /\
  head (errors sample_program) = Some "Validation error at line 2, col 9: Duplicate parameter 'a'".
Proof.
  split; [|by vm_compute].
  destruct (validate_exact [] sample_program 256) as (r & -> & _ & Hr & _).
  rewrite Hr; [done|]. repeat constructor; done.
Defined.
