(* ===== verification/Decimal.v ===== *)
(** Decimal numbers of scripts: [exprtk/src/mod_core.c] (normalisation, parsing,
    printing), their copies in [exprtk/src/exprtk_runtime.c] and
    [exprtk/src/exprtk_eval.c], and the equality test of the interpreter.

    A decimal is a 64-bit mantissa and a number of digits after the point.  Text
    is a list of C characters; an output buffer is its size and the characters
    written to it before the terminator. *)

From S2P Require Import Prelude CString.
From Stdlib Require Import Ascii.
Open Scope Z_scope.

(** ** Data *)

Record exprtk_decimal_t := Decimal { mantissa : Z; scale : Z }.

#[export] Instance exprtk_decimal_eq_dec : EqDecision exprtk_decimal_t.
Proof. solve_decision. Defined.

Definition int64 (z : Z) : Prop := INT64_MIN <= z <= INT64_MAX.

(** The decimals a script can get hold of. *)
Definition decimal_ok (d : exprtk_decimal_t) : Prop :=
  int64 (mantissa d) /\ 0 <= scale d <= INT32_MAX.

(** ** Operations *)

(** The loop [while (scale > 0 && mantissa % 10 == 0)]; it runs at most [scale]
    times. *)
Fixpoint strip_zeros (fuel : nat) (d : exprtk_decimal_t) : exprtk_decimal_t :=
  match fuel with
  | O => d
  | S fuel =>
      if (0 <? scale d) && (Z.rem (mantissa d) 10 =? 0)
      then strip_zeros fuel (Decimal (Z.quot (mantissa d) 10) (scale d - 1))
      else d
  end.

Definition normal_form (d : exprtk_decimal_t) : exprtk_decimal_t :=
  let d := strip_zeros (Z.to_nat (scale d)) d in
  if mantissa d =? 0 then Decimal (mantissa d) 0 else d.

Definition core_decimal_normalize (d : exprtk_decimal_t) : option exprtk_decimal_t :=
  if scale d <? 0 then None else Some (normal_form d).

(** [isspace] and [isdigit] of the C locale. *)
Definition isspace (c : Z) : bool :=
  let c := u8 c in (c =? 32) || (9 <=? c) && (c <=? 13).

Definition isdigit (c : Z) : bool :=
  let c := u8 c in (48 <=? c) && (c <=? 57).

Fixpoint skip_spaces (s : list Z) : list Z :=
  match s with
  | c :: s' => if isspace c then skip_spaces s' else s
  | [] => []
  end.

Record scan := Scan { acc : Z; saw_digit : bool; saw_dot : bool; scan_scale : Z }.

(** The loop over the characters after the sign. *)
Fixpoint scan_text (limit : Z) (s : list Z) (st : scan) : option scan :=
  match s with
  | [] => Some st
  | c :: s' =>
      if isdigit c then
        let digit := c - 48 in
        if (limit - digit) / 10 <? acc st then None
        else
          let acc' := wrapu 64 (acc st * 10 + digit) in
          if saw_dot st then
            if scan_scale st =? INT32_MAX then None
            else scan_text limit s' (Scan acc' true true (scan_scale st + 1))
          else scan_text limit s' (Scan acc' true false (scan_scale st))
      else if is_ "."%char c then
        if saw_dot st then None
        else scan_text limit s' (Scan (acc st) (saw_digit st) true (scan_scale st))
      else if isspace c then
        match skip_spaces s' with [] => Some st | _ => None end
      else None
  end.

Definition core_decimal_from_text (text : list Z) : option exprtk_decimal_t :=
  let p := skip_spaces text in
  let '(negative, p) :=
    match p with
    | c :: p' => if is_ "-"%char c then (true, p')
                 else if is_ "+"%char c then (false, p') else (false, p)
    | [] => (false, p)
    end in
  let limit := if negative then INT64_MAX + 1 else INT64_MAX in
  match scan_text limit p (Scan 0 false false 0) with
  | None => None
  | Some st =>
      if saw_digit st then
        let m := if negative
                 then if acc st =? INT64_MAX + 1 then INT64_MIN else - acc st
                 else acc st in
        core_decimal_normalize (Decimal m (scan_scale st))
      else None
  end.

(** The loop that writes the digits of [mag] from the end of [digits]; 20 digits
    hold every [uint64_t] and fit the 32 bytes of the buffer. *)
Fixpoint write_digits (fuel : nat) (mag : Z) (p : list Z) : list Z :=
  match fuel with
  | O => p
  | S fuel =>
      let p := (48 + mag mod 10) :: p in
      if mag / 10 =? 0 then p else write_digits fuel (mag / 10) p
  end.

Definition digits_of (mag : Z) : list Z := write_digits 20 mag [].

(** The magnitude of the mantissa, computed without overflow. *)
Definition magnitude (m : Z) : Z :=
  if m <? 0 then wrapu 64 (- (m + 1)) + 1 else wrapu 64 m.

Definition minus : Z := c_char "-".
Definition dot : Z := c_char ".".
Definition zero_digit : Z := c_char "0".

Definition core_decimal_text (value : exprtk_decimal_t) (out_size : Z) : option (list Z) :=
  if out_size =? 0 then None else
  match core_decimal_normalize value with
  | None => None
  | Some value =>
      let negative := mantissa value <? 0 in
      let p := digits_of (magnitude (mantissa value)) in
      let digit_count := Z.of_nat (length p) in
      if negative && (out_size <=? 1) then None else
      let out := if negative then [minus] else [] in
      let pos := Z.of_nat (length out) in
      if scale value =? 0 then
        if out_size <=? pos + digit_count then None else Some (out ++ p)
      else if digit_count <=? scale value then
        let zeros := scale value - digit_count in
        if out_size <=? pos + 2 + zeros + digit_count then None
        else Some (out ++ [zero_digit; dot] ++ repeat zero_digit (Z.to_nat zeros) ++ p)
      else
        let whole := digit_count - scale value in
        if out_size <=? pos + digit_count + 1 then None
        else Some (out ++ take (Z.to_nat whole) p ++ [dot] ++ drop (Z.to_nat whole) p)
  end.

(** [runtime_decimal_text], the copy behind the method [toString]. *)
Definition runtime_decimal_text (value : exprtk_decimal_t) (out_size : Z) : option (list Z) :=
  if (out_size =? 0) || (scale value <? 0) then None else
  let value := strip_zeros (Z.to_nat (scale value)) value in
  let value := if mantissa value =? 0 then Decimal (mantissa value) 0 else value in
  let negative := mantissa value <? 0 in
  let p := digits_of (magnitude (mantissa value)) in
  let digit_count := Z.of_nat (length p) in
  if negative && (out_size <=? 1) then None else
  let out := if negative then [minus] else [] in
  let pos := Z.of_nat (length out) in
  if scale value =? 0 then
    if out_size <=? pos + digit_count then None else Some (out ++ p)
  else if digit_count <=? scale value then
    let zeros := scale value - digit_count in
    if out_size <=? pos + 2 + zeros + digit_count then None
    else Some (out ++ [zero_digit; dot] ++ repeat zero_digit (Z.to_nat zeros) ++ p)
  else
    let whole := digit_count - scale value in
    if out_size <=? pos + digit_count + 1 then None
    else Some (out ++ take (Z.to_nat whole) p ++ [dot] ++ drop (Z.to_nat whole) p).

(** The outcome of printing without a check of the scale: [Overrun] is a write
    beyond the buffer. *)
Inductive text_result := Text (s : list Z) | NoText | Overrun.

(** The branch of [eval_value_text] for a decimal, after the prefix [out] (the
    currency of a sum of money, or nothing).  The sizes are [size_t]. *)
Definition eval_amount_text (out : list Z) (dec : exprtk_decimal_t) (buf_size : Z) : text_result :=
  let dec := strip_zeros (Z.to_nat (scale dec)) dec in
  let dec := if mantissa dec =? 0 then Decimal (mantissa dec) 0 else dec in
  let negative := mantissa dec <? 0 in
  let p := digits_of (magnitude (mantissa dec)) in
  let digit_count := Z.of_nat (length p) in
  if negative && (buf_size <=? Z.of_nat (length out)) then Overrun else
  let out := if negative then out ++ [minus] else out in
  let pos := Z.of_nat (length out) in
  let scale_size := wrapu 64 (scale dec) in
  if scale dec =? 0 then
    if buf_size <=? pos + digit_count then NoText else Text (out ++ p)
  else if digit_count <=? scale_size then
    let zeros := scale_size - digit_count in
    if buf_size <=? wrapu 64 (pos + 2 + zeros + digit_count) then NoText
    else if buf_size <=? pos + 2 + zeros + digit_count then Overrun
    else Text (out ++ [zero_digit; dot] ++ repeat zero_digit (Z.to_nat zeros) ++ p)
  else
    let whole := digit_count - scale_size in
    if buf_size <=? pos + digit_count + 1 then NoText
    else Text (out ++ take (Z.to_nat whole) p ++ [dot] ++ drop (Z.to_nat whole) p).

Definition eval_decimal_text (dec : exprtk_decimal_t) (buf_size : Z) : text_result :=
  eval_amount_text [] dec buf_size.

(** The branch for a sum of money: the three characters of the currency, a space
    and the amount. *)
Definition eval_money_text (amount : exprtk_decimal_t) (currency : list Z) (buf_size : Z) :
    text_result :=
  if buf_size <=? 4 then NoText
  else eval_amount_text (take 3 currency ++ [c_char " "]) amount buf_size.

(** [core_money_text]: [snprintf] of [%c%c%c %s], which cuts the text to the
    size of the buffer. *)
Definition core_money_text (amount : exprtk_decimal_t) (currency : list Z) (out_size : Z) :
    option (list Z) :=
  match core_decimal_text amount 64 with
  | None => None
  | Some a =>
      if out_size <=? 0 then None
      else Some (take (Z.to_nat (out_size - 1)) (take 3 currency ++ [c_char " "] ++ a))
  end.

(** The test of [==] on two decimals in the interpreter. *)
Definition decimal_equal (l r : exprtk_decimal_t) : bool :=
  let l := strip_zeros (Z.to_nat (scale l)) l in
  let r := strip_zeros (Z.to_nat (scale r)) r in
  let l := if mantissa l =? 0 then Decimal (mantissa l) 0 else l in
  let r := if mantissa r =? 0 then Decimal (mantissa r) 0 else r in
  (mantissa l =? mantissa r) && (scale l =? scale r).

(** [core_bigint_valid_text]: big integers stay text. *)
Definition core_bigint_valid_text (text : list Z) : bool :=
  match text with
  | [] => false
  | c :: s =>
      let digits := if is_ "-"%char c || is_ "+"%char c then s else text in
      match digits with
      | [] => false
      | _ => forallb isdigit digits
      end
  end.

Example print_42 : core_decimal_text (Decimal (-4250) 3) 64 = Some (c_str "-4.25").
Proof. vm_compute. reflexivity. Qed.
Example parse_42 : core_decimal_from_text (c_str " -004.250 ") = Some (Decimal (-425) 2).
Proof. vm_compute. reflexivity. Qed.
Example print_small : eval_decimal_text (Decimal 5 3) 64 = Text (c_str "0.005").
Proof. vm_compute. reflexivity. Qed.
Example parse_edge : core_decimal_from_text (c_str "-9223372036854775808") = Some (Decimal INT64_MIN 0) /\
  core_decimal_from_text (c_str "9223372036854775808") = None.
Proof. vm_compute. done. Qed.

(** ** Normal forms *)

(** [d] denotes the rational [mantissa / 10 ^ scale]. *)
Definition dec_eq (d e : exprtk_decimal_t) : Prop :=
  mantissa d * 10 ^ scale e = mantissa e * 10 ^ scale d.

(** No zero can be dropped from the end of the fraction. *)
Definition normal (d : exprtk_decimal_t) : Prop :=
  0 < scale d -> mantissa d mod 10 <> 0.

Lemma rem_10_iff m : Z.rem m 10 = 0 <-> m mod 10 = 0.
Proof. rewrite Z.rem_mod_eq_0 by lia. done. Qed.

Lemma quot_exact m : Z.rem m 10 = 0 -> m = 10 * Z.quot m 10.
Proof. intros H. pose proof (Z.quot_rem' m 10). lia. Qed.

Lemma strip_zeros_spec n d :
  0 <= scale d <= Z.of_nat n ->
  let e := strip_zeros n d in
  0 <= scale e <= scale d /\ normal e /\ mantissa d = mantissa e * 10 ^ (scale d - scale e).
Proof.
  revert d. induction n as [|n IH]; intros d Hd; cbn [strip_zeros].
  - split_and!; [lia..| |]; [unfold normal; lia|].
    rewrite Z.sub_diag. simpl. lia.
  - destruct (Z.ltb_spec 0 (scale d)); simpl.
    + destruct (Z.eqb_spec (Z.rem (mantissa d) 10) 0) as [E|E].
      * pose proof (quot_exact _ E).
        destruct (IH (Decimal (Z.quot (mantissa d) 10) (scale d - 1))) as (? & ? & Hv); simpl in *; [lia|].
        split_and!; [lia..|done|].
        set (e := strip_zeros _ _) in *.
        replace (scale d - scale e) with (Z.succ (scale d - 1 - scale e)) by lia.
        rewrite Z.pow_succ_r by lia. rewrite Z.mul_assoc, (Z.mul_comm _ 10), <- Z.mul_assoc, <- Hv. lia.
      * split_and!; [lia..| |]; [intros _; by rewrite <- rem_10_iff|].
        rewrite Z.sub_diag. simpl. lia.
    + split_and!; [lia..| |]; [unfold normal; lia|].
      rewrite Z.sub_diag. simpl. lia.
Qed.

Lemma normal_form_spec d :
  0 <= scale d ->
  0 <= scale (normal_form d) <= scale d /\ normal (normal_form d) /\
  mantissa d = mantissa (normal_form d) * 10 ^ (scale d - scale (normal_form d)).
Proof.
  intros H. unfold normal_form.
  destruct (strip_zeros_spec (Z.to_nat (scale d)) d) as (Hs & Hn & Hv); [lia|].
  set (e := strip_zeros _ _) in *.
  destruct (Z.eqb_spec (mantissa e) 0) as [E|E]; [|by split_and!; [lia..| |]].
  simpl. rewrite E in *. split_and!; [lia..| |lia]. unfold normal. simpl. lia.
Qed.

Lemma dec_eq_normal_form d : 0 <= scale d -> dec_eq (normal_form d) d.
Proof.
  intros H. destruct (normal_form_spec d H) as (Hs & _ & Hv). unfold dec_eq.
  set (e := normal_form d) in *. rewrite Hv, <- Z.mul_assoc, <- Z.pow_add_r by lia.
  do 2 f_equal. lia.
Qed.

Lemma normal_unique_le d e :
  0 <= scale d <= scale e -> normal e -> dec_eq d e -> d = e.
Proof.
  intros Hs Hn Heq. unfold dec_eq, normal in *.
  assert (mantissa e = mantissa d * 10 ^ (scale e - scale d)) as Hm.
  { apply (Z.mul_reg_r _ _ (10 ^ scale d)).
    - pose proof (Z.pow_pos_nonneg 10 (scale d)). lia.
    - rewrite <- Z.mul_assoc, <- Z.pow_add_r by lia.
      replace (scale e - scale d + scale d) with (scale e) by lia. done. }
  destruct (Z.eq_dec (scale d) (scale e)) as [E|E].
  - rewrite E, Z.sub_diag in Hm. destruct d, e; simpl in *. f_equal; lia.
  - exfalso. apply Hn; [lia|]. rewrite Hm.
    replace (scale e - scale d) with (Z.succ (scale e - scale d - 1)) by lia.
    rewrite Z.pow_succ_r by lia. apply Z.mod_divide; [lia|].
    exists (mantissa d * 10 ^ (scale e - scale d - 1)). ring.
Qed.

Lemma normal_unique d e :
  0 <= scale d -> 0 <= scale e -> normal d -> normal e -> dec_eq d e -> d = e.
Proof.
  intros. destruct (Z.le_ge_cases (scale d) (scale e)).
  - by apply normal_unique_le.
  - symmetry. apply normal_unique_le; [lia|done|]. unfold dec_eq in *. lia.
Qed.

Lemma dec_eq_sym d e : dec_eq d e -> dec_eq e d.
Proof. unfold dec_eq. lia. Qed.

Lemma dec_eq_trans d e f :
  0 <= scale d -> 0 <= scale e -> 0 <= scale f -> dec_eq d e -> dec_eq e f -> dec_eq d f.
Proof.
  unfold dec_eq. intros ? ? ? H1 H2. apply (Z.mul_reg_r _ _ (10 ^ scale e)).
  - pose proof (Z.pow_pos_nonneg 10 (scale e)). lia.
  - rewrite <- !Z.mul_assoc, (Z.mul_comm (10 ^ scale f)), !Z.mul_assoc, H1.
    rewrite <- Z.mul_assoc, (Z.mul_comm (10 ^ scale d)), Z.mul_assoc, H2. ring.
Qed.

Lemma normal_form_id d : 0 <= scale d -> normal d -> normal_form d = d.
Proof.
  intros H Hn. apply normal_unique; [apply normal_form_spec, H|done|apply normal_form_spec, H|done|].
  by apply dec_eq_normal_form.
Qed.

Lemma normal_form_ok d : decimal_ok d -> decimal_ok (normal_form d).
Proof.
  intros [Hm Hs]. destruct (normal_form_spec d) as (Hs' & _ & Hv); [lia|].
  unfold decimal_ok, int64, INT64_MIN, INT64_MAX in *. split; [|lia].
  pose proof (Z.pow_pos_nonneg 10 (scale d - scale (normal_form d))). nia.
Qed.

(** The interpreter's [==] on decimals decides equality of the numbers they
    denote, whatever the number of digits after the point. *)
Theorem decimal_equal_spec l r :
  0 <= scale l -> 0 <= scale r ->
  decimal_equal l r = true <-> dec_eq l r.
Proof.
  intros Hl Hr. change (decimal_equal l r) with
    ((mantissa (normal_form l) =? mantissa (normal_form r)) &&
     (scale (normal_form l) =? scale (normal_form r))).
  destruct (normal_form_spec l Hl) as (? & ? & _), (normal_form_spec r Hr) as (? & ? & _).
  pose proof (dec_eq_normal_form l Hl) as El. pose proof (dec_eq_normal_form r Hr) as Er.
  split.
  - intros [Em%Z.eqb_eq Es%Z.eqb_eq]%andb_prop.
    assert (normal_form l = normal_form r) as E
      by (destruct (normal_form l), (normal_form r); simpl in *; congruence).
    apply (dec_eq_trans _ (normal_form l)); [lia..|by apply dec_eq_sym|]. by rewrite E.
  - intros E. assert (normal_form l = normal_form r) as ->.
    { apply normal_unique; [lia..|done|done|].
      apply (dec_eq_trans _ l); [lia..|done|].
      apply (dec_eq_trans _ r); [lia..|done|]. by apply dec_eq_sym. }
    by rewrite !Z.eqb_refl.
Qed.

Lemma decimal_equal_spec_witness :
  decimal_equal (Decimal 2500 3) (Decimal 25 1) = true /\
  (decimal_equal (Decimal 2500 3) (Decimal 25 1) = true <->
   dec_eq (Decimal 2500 3) (Decimal 25 1)).
Proof. split; [reflexivity|]. apply decimal_equal_spec; simpl; lia. Defined.

(** ** Strings of digits *)

(** The number that digits denote after the number [a]. *)
Definition dec_from (a : Z) (ds : list Z) : Z := fold_left (fun a c => 10 * a + (c - 48)) ds a.

Definition digit (c : Z) : Prop := 48 <= c <= 57.

Lemma digit_u8 c : digit c -> u8 c = c.
Proof. unfold digit, u8. intros. apply wrapu_small. lia. Qed.

Lemma digit_isdigit c : digit c -> isdigit c = true.
Proof. intros H. unfold isdigit. rewrite digit_u8 by done. unfold digit in H. lia. Qed.

(** A [char] is read as [unsigned char] by the tests. *)
Definition char_ok (c : Z) : Prop := - 128 <= c < 128.

Lemma u8_char c : char_ok c -> u8 c = if c <? 0 then c + 256 else c.
Proof.
  unfold char_ok, u8, wrapu. intros. destruct (Z.ltb_spec c 0).
  - rewrite <- (Z.mod_small (c + 256) (2 ^ 8)) by lia.
    symmetry. apply (Z.mod_add c 1 (2 ^ 8)). lia.
  - apply Z.mod_small. lia.
Qed.

Lemma isdigit_digit c : char_ok c -> isdigit c = true -> digit c.
Proof.
  intros Hc. unfold isdigit. rewrite u8_char by done. unfold char_ok, digit in *.
  destruct (Z.ltb_spec c 0); lia.
Qed.

Lemma space_not_digit c : isspace c = true -> isdigit c = false.
Proof. unfold isspace, isdigit. cbv zeta. lia. Qed.

Lemma space_not_dot c : isspace c = true -> is_ "." c = false.
Proof.
  intros H. destruct (is_ "." c) eqn:E; [|done].
  apply Z.eqb_eq in E as ->. by vm_compute in H.
Qed.

Lemma dec_from_ge a ds : 0 <= a -> Forall digit ds -> a <= dec_from a ds.
Proof.
  revert a. induction ds as [|c ds IH]; intros a Ha Hd; simpl; [lia|].
  inversion Hd as [|? ? Hc]; subst. unfold digit in Hc.
  etransitivity; [|apply IH]; [lia|lia|done].
Qed.

Lemma dec_from_app a ds es : dec_from a (ds ++ es) = dec_from (dec_from a ds) es.
Proof. apply fold_left_app. Qed.

Lemma dec_from_zeros n ds : dec_from 0 (repeat zero_digit n ++ ds) = dec_from 0 ds.
Proof. induction n; done. Qed.

Lemma skip_spaces_app sp s :
  Forall (fun c => isspace c = true) sp ->
  match s with c :: _ => isspace c = false | [] => True end ->
  skip_spaces (sp ++ s) = s.
Proof.
  intros H Hs. induction H as [|c sp Hc _ IH]; simpl; [|by rewrite Hc].
  destruct s as [|c s]; simpl; [done|]. by rewrite Hs.
Qed.

Lemma skip_spaces_split s :
  exists sp, s = sp ++ skip_spaces s /\ Forall (fun c => isspace c = true) sp /\
    match skip_spaces s with c :: _ => isspace c = false | [] => True end.
Proof.
  induction s as [|c s (sp & E & Hsp & Hs)]; simpl; [by exists []|].
  destruct (isspace c) eqn:Ec; [|by exists []].
  exists (c :: sp). simpl. split_and!; [by f_equal|by constructor|done].
Qed.

Section scan.
Context (limit : Z) (Hlimit : 9 <= limit <= INT64_MAX + 1).

Lemma limit_check a c :
  0 <= a -> digit c ->
  ((limit - (c - 48)) / 10 <? a) = (limit <? 10 * a + (c - 48)).
Proof.
  intros Ha Hc. unfold digit in Hc.
  assert (limit - (c - 48) = 10 * ((limit - (c - 48)) / 10) + (limit - (c - 48)) mod 10) by
    (apply Z.div_mod; lia).
  pose proof (Z.mod_pos_bound (limit - (c - 48)) 10).
  apply eq_true_iff_eq. rewrite !Z.ltb_lt. lia.
Qed.

Lemma wrap_acc a c :
  0 <= a -> digit c -> 10 * a + (c - 48) <= limit ->
  wrapu 64 (a * 10 + (c - 48)) = 10 * a + (c - 48).
Proof.
  unfold digit, INT64_MAX in *. intros. rewrite wrapu_small; lia.
Qed.

Lemma scan_spaces sp st :
  Forall (fun c => isspace c = true) sp -> scan_text limit sp st = Some st.
Proof.
  intros H. destruct H as [|c sp Hc H]; simpl; [done|].
  rewrite space_not_digit, space_not_dot, Hc by done.
  rewrite <- (app_nil_r sp), skip_spaces_app by done. done.
Qed.

(** A run of digits is accepted as long as the number stays within the limit. *)
Lemma scan_digits ds rest st :
  Forall digit ds -> 0 <= acc st -> dec_from (acc st) ds <= limit ->
  (saw_dot st = true -> scan_scale st + Z.of_nat (length ds) <= INT32_MAX) ->
  scan_text limit (ds ++ rest) st =
  scan_text limit rest (Scan (dec_from (acc st) ds)
    (saw_digit st || negb (bool_decide (ds = []))) (saw_dot st)
    (scan_scale st + if saw_dot st then Z.of_nat (length ds) else 0)).
Proof.
  revert st. induction ds as [|c ds IH]; intros st Hd Ha Hl Hs.
  - simpl. destruct st as [a g t s]; simpl. rewrite orb_false_r.
    destruct t; do 2 f_equal; lia.
  - inversion Hd as [|? ? Hc Hds]; subst. simpl in Hl, Hs |- *.
    assert (10 * acc st + (c - 48) <= limit) as Hstep.
    { etransitivity; [apply dec_from_ge|exact Hl]; [unfold digit in Hc; lia|done]. }
    rewrite digit_isdigit, limit_check by done.
    destruct (Z.ltb_spec limit (10 * acc st + (c - 48))); [lia|].
    rewrite wrap_acc by done. rewrite orb_true_r.
    destruct (saw_dot st) eqn:Et.
    + destruct (Z.eqb_spec (scan_scale st) INT32_MAX); [specialize (Hs eq_refl); lia|].
      rewrite IH; simpl; [do 2 f_equal; lia|done| |done|intros _; specialize (Hs eq_refl); lia].
      unfold digit in Hc. lia.
    + rewrite IH; simpl; [do 2 f_equal; lia|done| |done|done].
      unfold digit in Hc. lia.
Qed.

(** What an accepted text consists of. *)
Lemma scan_sound s st st' :
  Forall char_ok s -> 0 <= acc st <= limit -> 0 <= scan_scale st <= INT32_MAX ->
  scan_text limit s st = Some st' ->
  exists whole point frac sp,
    s = whole ++ point ++ frac ++ sp /\
    Forall digit whole /\ Forall digit frac /\ Forall (fun c => isspace c = true) sp /\
    (if saw_dot st then whole = [] /\ point = [] else point = [] /\ frac = [] \/ point = [dot]) /\
    acc st' = dec_from (acc st) (whole ++ frac) /\ acc st' <= limit /\
    scan_scale st' = scan_scale st + Z.of_nat (length frac) /\ scan_scale st' <= INT32_MAX /\
    saw_digit st' = saw_digit st || negb (bool_decide (whole ++ frac = [])).
Proof.
  revert st. induction s as [|c s IH]; intros st Hchar Ha Hs H.
  { exists [], [], [], []. simpl in *. simplify_eq. rewrite orb_false_r. split_and!; try done; try lia.
    destruct (saw_dot st'); tauto. }
  inversion Hchar as [|? ? Hc Hchar']; subst. simpl in H.
  destruct (isdigit c) eqn:Ed.
  - apply isdigit_digit in Ed; [|done]. rewrite limit_check in H by (done || lia).
    destruct (Z.ltb_spec limit (10 * acc st + (c - 48))) as [|Hl]; [done|].
    rewrite wrap_acc in H by (done || lia).
    destruct (saw_dot st) eqn:Et.
    + destruct (Z.eqb_spec (scan_scale st) INT32_MAX); [done|].
      apply IH in H as (whole & point & frac & sp & -> & Hw & Hf & Hsp & [-> ->] & Hacc & Hle & Hsc & Hmax & Hsaw);
        [|done|unfold digit in Ed; simpl; lia|simpl; lia].
      exists [], [], (c :: frac), sp. simpl in *. rewrite orb_true_r.
      split_and!; try done; try lia; by constructor.
    + apply IH in H as (whole & point & frac & sp & -> & Hw & Hf & Hsp & Hp & Hacc & Hle & Hsc & Hmax & Hsaw);
        [|done|unfold digit in Ed; simpl; lia|simpl; lia].
      exists (c :: whole), point, frac, sp. simpl in *. rewrite orb_true_r.
      split_and!; try done; try lia; by constructor.
  - destruct (is_ "." c) eqn:Edot.
    + destruct (saw_dot st) eqn:Et; [done|].
      apply IH in H as (whole & point & frac & sp & -> & Hw & Hf & Hsp & [-> ->] & Hacc & Hle & Hsc & Hmax & Hsaw);
        [|done|done|done].
      apply Z.eqb_eq in Edot as ->.
      exists [], [dot], frac, sp. split_and!; try done; try lia. by right.
    + destruct (isspace c) eqn:Esp; [|done].
      destruct (skip_spaces_split s) as (sp & E & Hsp & _).
      destruct (skip_spaces s) as [|c' rest]; [|done]. injection H as <-.
      rewrite app_nil_r in E. subst s.
      exists [], [], [], (c :: sp). simpl. rewrite orb_false_r. split_and!; try done; try lia.
      * by constructor.
      * destruct (saw_dot st); tauto.
Qed.
End scan.

(** ** Parsing *)

(** The shape of a decimal literal: spaces, a sign, digits with at most one
    point among them, spaces. *)
Inductive decimal_literal : list Z -> bool -> list Z -> list Z -> Prop :=
  | Literal sp1 sgn negative whole point frac sp2 :
      Forall (fun c => isspace c = true) sp1 ->
      Forall (fun c => isspace c = true) sp2 ->
      (if negative : bool then sgn = [minus] else sgn = [] \/ sgn = [c_char "+"]) ->
      Forall digit whole -> Forall digit frac -> whole ++ frac <> [] ->
      (point = [] /\ frac = [] \/ point = [dot]) ->
      decimal_literal (sp1 ++ sgn ++ whole ++ point ++ frac ++ sp2) negative whole frac.

Definition mantissa_limit (negative : bool) : Z := if negative then INT64_MAX + 1 else INT64_MAX.

Lemma mantissa_limit_range negative : 9 <= mantissa_limit negative <= INT64_MAX + 1.
Proof. destruct negative; unfold mantissa_limit, INT64_MAX; lia. Qed.

(** Printing and parsing after the sign. *)
Lemma scan_literal negative whole point frac sp :
  Forall (fun c => isspace c = true) sp -> Forall digit whole -> Forall digit frac ->
  (point = [] /\ frac = [] \/ point = [dot]) -> whole ++ frac <> [] ->
  dec_from 0 (whole ++ frac) <= mantissa_limit negative -> Z.of_nat (length frac) <= INT32_MAX ->
  exists t, scan_text (mantissa_limit negative) (whole ++ point ++ frac ++ sp) (Scan 0 false false 0) =
    Some (Scan (dec_from 0 (whole ++ frac)) true t (Z.of_nat (length frac))).
Proof.
  intros Hsp Hw Hf Hp Hne Hl Hs.
  pose proof (mantissa_limit_range negative) as Hlim.
  assert (dec_from 0 whole <= dec_from 0 (whole ++ frac)) as Hle.
  { rewrite dec_from_app. apply dec_from_ge; [|done]. by apply dec_from_ge. }
  assert (0 <= dec_from 0 whole) by (by apply dec_from_ge).
  rewrite scan_digits by (done || simpl; lia). simpl.
  destruct Hp as [[-> ->] | ->].
  - rewrite app_nil_r in *. simpl. rewrite scan_spaces by done.
    exists false. rewrite bool_decide_eq_false_2 by done. done.
  - cbn [app]. simpl scan_text.
    rewrite scan_digits; [|done|done|done|cbn [acc]; by rewrite <- dec_from_app|cbn [saw_dot scan_scale]; lia].
    cbn [acc saw_dot saw_digit scan_scale].
    rewrite scan_spaces by done. exists true. rewrite <- dec_from_app. do 2 f_equal.
    destruct whole; [|done]. destruct frac; done.
Qed.

Lemma signed_acc a negative :
  0 <= a <= mantissa_limit negative ->
  (if negative then if a =? INT64_MAX + 1 then INT64_MIN else - a else a) =
  (if negative then - a else a).
Proof.
  intros H. destruct negative; [|done].
  destruct (Z.eqb_spec a (INT64_MAX + 1)) as [->|]; reflexivity.
Qed.

Lemma core_decimal_normalize_Some d :
  0 <= scale d -> core_decimal_normalize d = Some (normal_form d).
Proof. intros H. unfold core_decimal_normalize. destruct (Z.ltb_spec (scale d) 0); [lia|done]. Qed.

Lemma digit_plain c :
  digit c -> isspace c = false /\ is_ "-" c = false /\ is_ "+" c = false.
Proof.
  intros H. split_and!.
  - destruct (isspace c) eqn:E; [|done]. apply space_not_digit in E.
    by rewrite digit_isdigit in E.
  - apply Z.eqb_neq. unfold digit in H. change (c_char "-") with 45. lia.
  - apply Z.eqb_neq. unfold digit in H. change (c_char "+") with 43. lia.
Qed.

(** The first character after the sign is neither a space nor a sign. *)
Lemma body_head whole point frac sp :
  Forall digit whole -> whole ++ frac <> [] -> (point = [] /\ frac = [] \/ point = [dot]) ->
  exists c s, whole ++ point ++ frac ++ sp = c :: s /\
    isspace c = false /\ is_ "-" c = false /\ is_ "+" c = false.
Proof.
  intros Hw Hne Hp. destruct whole as [|c whole].
  - destruct Hp as [[-> ->] | ->]; [done|]. by exists dot, (frac ++ sp).
  - inversion Hw; subst. exists c, (whole ++ point ++ frac ++ sp). split; [done|].
    by apply digit_plain.
Qed.

Lemma core_decimal_from_text_complete s negative whole frac :
  decimal_literal s negative whole frac -> Z.of_nat (length frac) <= INT32_MAX ->
  dec_from 0 (whole ++ frac) <= mantissa_limit negative ->
  core_decimal_from_text s =
  Some (normal_form (Decimal (if negative then - dec_from 0 (whole ++ frac)
                              else dec_from 0 (whole ++ frac)) (Z.of_nat (length frac)))).
Proof.
  intros H Hs Hl. destruct H as [sp1 sgn neg whole point frac sp2 H1 H2 Hsgn Hw Hf Hne Hp].
  destruct (scan_literal neg whole point frac sp2) as [t Hscan]; [done..|].
  assert (0 <= dec_from 0 (whole ++ frac)) as H0 by (apply dec_from_ge; [done|by apply Forall_app]).
  destruct (body_head whole point frac sp2) as (c & s & Hc & Hcs & Hcm & Hcp); [done..|].
  unfold core_decimal_from_text. rewrite skip_spaces_app; [|done|].
  2:{ destruct neg; [by subst|]. destruct Hsgn as [-> | ->]; [|done]. simpl. by rewrite Hc. }
  assert (core_decimal_normalize (Decimal (if neg then
      if dec_from 0 (whole ++ frac) =? INT64_MAX + 1 then INT64_MIN else - dec_from 0 (whole ++ frac)
      else dec_from 0 (whole ++ frac)) (Z.of_nat (length frac))) =
    Some (normal_form (Decimal (if neg then - dec_from 0 (whole ++ frac)
                              else dec_from 0 (whole ++ frac)) (Z.of_nat (length frac))))) as Hn.
  { rewrite signed_acc by done. rewrite core_decimal_normalize_Some by (simpl; lia). done. }
  unfold mantissa_limit in Hscan. destruct neg.
  - subst sgn. simpl app. cbv iota beta. change (is_ "-" minus) with true. cbv iota beta zeta.
    rewrite Hscan. simpl. exact Hn.
  - destruct Hsgn as [-> | ->]; simpl app.
    + rewrite Hc. rewrite Hcm, Hcp. rewrite <- Hc. rewrite Hscan. simpl. exact Hn.
    + assert (is_ "-" (c_char "+") = false /\ is_ "+" (c_char "+") = true) as [-> ->] by done.
      cbv iota beta zeta. rewrite Hscan. simpl. exact Hn.
Qed.

Lemma core_decimal_from_text_sound s d :
  Forall char_ok s -> core_decimal_from_text s = Some d ->
  exists negative whole frac, decimal_literal s negative whole frac /\
    Z.of_nat (length frac) <= INT32_MAX /\ dec_from 0 (whole ++ frac) <= mantissa_limit negative /\
    d = normal_form (Decimal (if negative then - dec_from 0 (whole ++ frac)
                              else dec_from 0 (whole ++ frac)) (Z.of_nat (length frac))).
Proof.
  intros Hchar H. unfold core_decimal_from_text in H.
  destruct (skip_spaces_split s) as (sp1 & E & Hsp1 & _).
  set (p := skip_spaces s) in *. clearbody p. subst s.
  apply Forall_app in Hchar as [_ Hchar].
  destruct (match p with c :: p' => if is_ "-" c then (true, p') else
      if is_ "+" c then (false, p') else (false, p) | [] => (false, p) end) as [negative body] eqn:Ep.
  assert (exists sgn, p = sgn ++ body /\
    (if negative : bool then sgn = [minus] else sgn = [] \/ sgn = [c_char "+"])) as (sgn & -> & Hsgn).
  { destruct p as [|c p']; simplify_eq/=.
    destruct (is_ "-" c) eqn:Em; simplify_eq/=.
    - apply Z.eqb_eq in Em as ->. by exists [minus].
    - destruct (is_ "+" c) eqn:Epl; simplify_eq/=.
      + apply Z.eqb_eq in Epl as ->. exists [c_char "+"]. split; [done|]. by right.
      + exists []. split; [done|]. by left. }
  clear Ep. apply Forall_app in Hchar as [_ Hchar].
  change (if negative then INT64_MAX + 1 else INT64_MAX) with (mantissa_limit negative) in H.
  pose proof (mantissa_limit_range negative) as Hlim.
  destruct (scan_text _ body _) as [st|] eqn:Hscan; [|done].
  apply scan_sound in Hscan as (whole & point & frac & sp2 & -> & Hw & Hf & Hsp2 & Hp & Hacc & Hle & Hsc & Hmax & Hsaw);
    [|done|done|simpl; lia|unfold INT32_MAX; simpl; lia].
  simpl in *. destruct (saw_digit st) eqn:Esaw; [|done]. rewrite Hsc, Hacc in *.
  assert (0 <= dec_from 0 (whole ++ frac)) by (apply dec_from_ge; [done|by apply Forall_app]).
  rewrite signed_acc, core_decimal_normalize_Some in H by (simpl; lia). injection H as <-.
  exists negative, whole, frac. split_and!; [|done..].
  constructor; try done. intros En. by rewrite En in Hsaw.
Qed.

(** The parser of decimals accepts exactly the literals whose mantissa fits a
    signed 64-bit integer (digits with at most one point, an optional sign, spaces
    around), and gives the normal form of the number written. *)
Theorem core_decimal_from_text_spec s d :
  Forall char_ok s ->
  core_decimal_from_text s = Some d <->
  exists negative whole frac, decimal_literal s negative whole frac /\
    Z.of_nat (length frac) <= INT32_MAX /\ dec_from 0 (whole ++ frac) <= mantissa_limit negative /\
    d = normal_form (Decimal (if negative then - dec_from 0 (whole ++ frac)
                              else dec_from 0 (whole ++ frac)) (Z.of_nat (length frac))).
Proof.
  intros Hchar. split; [by apply core_decimal_from_text_sound|].
  intros (negative & whole & frac & Hlit & Hs & Hl & ->).
  by apply core_decimal_from_text_complete.
Qed.

Lemma core_decimal_from_text_spec_witness :
  core_decimal_from_text (c_str " -1.50") = Some (Decimal (-15) 1) /\
  (core_decimal_from_text (c_str " -1.50") = Some (Decimal (-15) 1) <->
   exists negative whole frac, decimal_literal (c_str " -1.50") negative whole frac /\
    Z.of_nat (length frac) <= INT32_MAX /\ dec_from 0 (whole ++ frac) <= mantissa_limit negative /\
    Decimal (-15) 1 = normal_form (Decimal (if negative then - dec_from 0 (whole ++ frac)
                              else dec_from 0 (whole ++ frac)) (Z.of_nat (length frac)))).
Proof.
  split; [reflexivity|]. apply core_decimal_from_text_spec.
  repeat constructor; vm_compute; done.
Defined.

(** ** Printing *)

Lemma write_digits_spec n m p :
  0 <= m < 10 ^ Z.of_nat (S n) ->
  exists ds, write_digits (S n) m p = ds ++ p /\ Forall digit ds /\
    dec_from 0 ds = m /\ (1 <= length ds <= S n)%nat.
Proof.
  revert m p. induction n as [|n IH]; intros m p Hm.
  - change (10 ^ Z.of_nat 1) with 10 in Hm. exists [48 + m]. cbn [write_digits].
    rewrite Z.mod_small, Z.div_small by lia. simpl. unfold digit, dec_from. simpl.
    split_and!; [done|repeat constructor; lia|lia..].
  - rewrite Nat2Z.inj_succ, Z.pow_succ_r in Hm by lia.
    pose proof (Z.div_mod m 10). pose proof (Z.mod_pos_bound m 10).
    remember (S n) as k. cbn [write_digits]. subst k.
    destruct (Z.eqb_spec (m / 10) 0) as [E|E].
    + exists [48 + m mod 10]. unfold digit, dec_from. simpl.
      split_and!; [done|repeat constructor; lia|lia..].
    + destruct (IH (m / 10) ((48 + m mod 10) :: p)) as (ds & -> & Hd & Hv & Hl).
      { pose proof (Z.div_pos m 10). split; [lia|]. apply Z.div_lt_upper_bound; lia. }
      exists (ds ++ [48 + m mod 10]). rewrite <- app_assoc. split_and!; [done| | |rewrite length_app; simpl; lia..].
      * apply Forall_app. split; [done|]. repeat constructor; unfold digit; lia.
      * rewrite dec_from_app, Hv. unfold dec_from. simpl. lia.
Qed.

Lemma digits_of_spec m :
  0 <= m < 10 ^ 20 ->
  Forall digit (digits_of m) /\ dec_from 0 (digits_of m) = m /\ (1 <= length (digits_of m) <= 20)%nat.
Proof.
  intros H. destruct (write_digits_spec 19 m []) as (ds & E & Hs); [exact H|].
  unfold digits_of. rewrite E, app_nil_r. exact Hs.
Qed.

Lemma magnitude_abs m : int64 m -> magnitude m = Z.abs m.
Proof.
  unfold int64, INT64_MIN, INT64_MAX, magnitude. intros H.
  destruct (Z.ltb_spec m 0); rewrite wrapu_small; lia.
Qed.

Lemma digits_of_mantissa d :
  decimal_ok d -> let p := digits_of (magnitude (mantissa d)) in
  Forall digit p /\ dec_from 0 p = Z.abs (mantissa d) /\ (1 <= length p <= 20)%nat.
Proof.
  intros [H _]. rewrite magnitude_abs by done. apply digits_of_spec.
  unfold int64, INT64_MIN, INT64_MAX in H. lia.
Qed.

(** The text of a normal form: the sign, the digits before and after the point. *)
Definition sign_of (d : exprtk_decimal_t) : list Z := if mantissa d <? 0 then [minus] else [].

Definition layout (d : exprtk_decimal_t) : list Z * list Z * list Z :=
  let p := digits_of (magnitude (mantissa d)) in
  let n := Z.of_nat (length p) in
  if scale d =? 0 then (p, [], [])
  else if n <=? scale d then ([zero_digit], [dot], repeat zero_digit (Z.to_nat (scale d - n)) ++ p)
  else (take (Z.to_nat (n - scale d)) p, [dot], drop (Z.to_nat (n - scale d)) p).

Definition plain_text (d : exprtk_decimal_t) : list Z :=
  let '(whole, point, frac) := layout d in sign_of d ++ whole ++ point ++ frac.

Lemma core_decimal_text_eq d size :
  0 <= scale d -> 0 < size ->
  core_decimal_text d size =
  let s := plain_text (normal_form d) in
  if size <=? Z.of_nat (length s) then None else Some s.
Proof.
  intros Hs Hsize. unfold core_decimal_text, plain_text, layout, sign_of.
  destruct (Z.eqb_spec size 0); [lia|]. rewrite core_decimal_normalize_Some by done.
  destruct (normal_form_spec d Hs) as (He & _). set (e := normal_form d) in *. cbv zeta.
  set (p := digits_of _). set (sg := if mantissa e <? 0 then [minus] else []).
  assert (((mantissa e <? 0) && (size <=? 1)) = true -> size <= Z.of_nat (length sg)) as Hneg.
  { unfold sg. destruct (mantissa e <? 0); [|done]. simpl. lia. }
  destruct ((mantissa e <? 0) && (size <=? 1)) eqn:E.
  - specialize (Hneg eq_refl). repeat case_match; rewrite !length_app in *; try done; lia.
  - clear Hneg E. destruct (Z.eqb_spec (scale e) 0) as [E0|E0].
    + rewrite !length_app. simpl. destruct (Z.leb_spec size (Z.of_nat (length sg) + Z.of_nat (length p))),
        (Z.leb_spec size (Z.of_nat (length sg + (length p + 0)))); try lia; [done|].
      by rewrite app_nil_r.
    + destruct (Z.leb_spec (Z.of_nat (length p)) (scale e)) as [El|El].
      * replace (Z.of_nat (length (sg ++ [zero_digit] ++ [dot] ++ repeat zero_digit (Z.to_nat (scale e - Z.of_nat (length p))) ++ p)))
          with (Z.of_nat (length sg) + 2 + (scale e - Z.of_nat (length p)) + Z.of_nat (length p)); [done|].
        rewrite !length_app, repeat_length. simpl. lia.
      * replace (Z.of_nat (length (sg ++ take (Z.to_nat (Z.of_nat (length p) - scale e)) p ++ [dot] ++
            drop (Z.to_nat (Z.of_nat (length p) - scale e)) p)))
          with (Z.of_nat (length sg) + Z.of_nat (length p) + 1); [done|].
        rewrite !length_app, length_take, length_drop. simpl. lia.
Qed.

Lemma layout_spec d :
  decimal_ok d -> normal d ->
  let '(whole, point, frac) := layout d in
  Forall digit whole /\ Forall digit frac /\ whole ++ frac <> [] /\
  (point = [] /\ frac = [] \/ point = [dot]) /\
  dec_from 0 (whole ++ frac) = Z.abs (mantissa d) /\ Z.of_nat (length frac) = scale d /\
  (length whole + length point <= 21)%nat /\
  Z.of_nat (length whole) + Z.of_nat (length point) + Z.of_nat (length frac) <= Z.max 21 (2 + scale d).
Proof.
  intros Hok Hn. destruct (digits_of_mantissa d Hok) as (Hd & Hv & Hl). unfold layout.
  set (p := digits_of _) in *. destruct Hok as [_ Hs].
  assert (digit zero_digit) as Hz0 by (unfold digit; change zero_digit with 48; lia).
  assert (Forall digit [zero_digit]) as Hz by (by apply Forall_singleton).
  assert (p <> []) by (intros E; rewrite E in Hl; simpl in Hl; lia).
  destruct (Z.eqb_spec (scale d) 0) as [E|E].
  - rewrite !app_nil_r. simpl. split_and!; try done; try lia. by left.
  - destruct (Z.leb_spec (Z.of_nat (length p)) (scale d)).
    + split_and!; try done.
      * apply Forall_app. split; [|done]. generalize (Z.to_nat (scale d - Z.of_nat (length p))).
        intros n. induction n; simpl; by constructor.
      * by right.
      * change ([zero_digit] ++ ?x) with (repeat zero_digit 1 ++ x). by rewrite !dec_from_zeros.
      * rewrite length_app, repeat_length. lia.
      * simpl. lia.
      * rewrite length_app, repeat_length. simpl. lia.
    + rewrite take_drop. split_and!; try done.
      * by apply Forall_take.
      * by apply Forall_drop.
      * by right.
      * rewrite length_drop. lia.
      * rewrite length_take. simpl. lia.
      * rewrite length_take, length_drop. simpl. lia.
Qed.

Lemma plain_text_parses d :
  decimal_ok d -> normal d -> core_decimal_from_text (plain_text d) = Some d.
Proof.
  intros Hok Hn. pose proof (layout_spec d Hok Hn) as H. unfold plain_text, sign_of.
  destruct (layout d) as [[whole point] frac]. destruct H as (Hw & Hf & Hne & Hp & Hv & Hl & _).
  destruct Hok as [Hm Hs]. unfold int64, INT64_MIN, INT64_MAX in Hm.
  rewrite (core_decimal_from_text_complete _ (mantissa d <? 0) whole frac); [| |lia|].
  - rewrite Hv, Hl. f_equal. destruct d as [m s]. simpl in *.
    replace (if m <? 0 then - Z.abs m else Z.abs m) with m by (destruct (Z.ltb_spec m 0); lia).
    apply normal_form_id; [simpl; lia|done].
  - pose proof (Literal [] (if mantissa d <? 0 then [minus] else []) (mantissa d <? 0) whole point frac []) as G.
    rewrite app_nil_r in G. apply G; try done. destruct (mantissa d <? 0); [done|by left].
  - rewrite Hv. unfold mantissa_limit, INT64_MAX. destruct (Z.ltb_spec (mantissa d) 0); lia.
Qed.

Lemma plain_text_length d :
  decimal_ok d -> normal d ->
  Z.of_nat (length (plain_text d)) <= 1 + Z.max 21 (2 + scale d).
Proof.
  intros Hok Hn. pose proof (layout_spec d Hok Hn) as H. unfold plain_text, sign_of.
  destruct (layout d) as [[whole point] frac]. destruct H as (_ & _ & _ & _ & _ & _ & _ & H).
  rewrite !length_app. destruct (mantissa d <? 0); simpl; lia.
Qed.

(** C37: Printing a decimal and parsing the text gives the decimal back in normal
    form; the 64 characters of the buffers are enough up to 60 digits after the
    point, and a text that is produced is shorter than the buffer. *)
Theorem core_decimal_roundtrip d size :
  decimal_ok d -> 0 < size ->
  match core_decimal_text d size with
  | Some s => core_decimal_from_text s = Some (normal_form d) /\ Z.of_nat (length s) < size
  | None => size <= 1 + Z.max 21 (2 + scale d)
  end.
Proof.
  intros Hok Hsize. destruct (Hok) as [_ Hs]. rewrite core_decimal_text_eq by lia. cbv zeta.
  pose proof (normal_form_ok d Hok) as Hok'.
  destruct (normal_form_spec d) as (Hs' & Hn & _); [lia|].
  pose proof (plain_text_length _ Hok' Hn).
  destruct (Z.leb_spec size (Z.of_nat (length (plain_text (normal_form d))))); [lia|].
  split; [by apply plain_text_parses|done].
Qed.

Lemma core_decimal_roundtrip_witness :
  core_decimal_text (Decimal (-1250) 4) 64 = Some (c_str "-0.125") /\
  match core_decimal_text (Decimal (-1250) 4) 64 with
  | Some s => core_decimal_from_text s = Some (normal_form (Decimal (-1250) 4)) /\
      Z.of_nat (length s) < 64
  | None => 64 <= 1 + Z.max 21 (2 + 4)
  end.
Proof.
  split; [reflexivity|]. apply (core_decimal_roundtrip (Decimal (-1250) 4) 64); [|done].
  unfold decimal_ok, int64, INT64_MIN, INT64_MAX, INT32_MAX. simpl. lia.
Defined.

(** ** The copies of the printer *)

Definition of_option (o : option (list Z)) : text_result :=
  match o with Some s => Text s | None => NoText end.

Lemma runtime_decimal_text_eq d size :
  runtime_decimal_text d size = core_decimal_text d size.
Proof.
  unfold runtime_decimal_text, core_decimal_text, core_decimal_normalize.
  destruct (size =? 0); [done|]. by destruct (scale d <? 0).
Qed.

Lemma leb_NoText a b (r : text_result) : a <= b -> (if a <=? b then NoText else r) = NoText.
Proof. intros H. by destruct (Z.leb_spec a b); [|lia]. Qed.

Lemma eval_decimal_text_eq d size :
  0 <= scale d <= INT32_MAX -> 0 < size ->
  eval_decimal_text d size = of_option (core_decimal_text d size).
Proof.
  intros Hs Hsize. unfold eval_decimal_text, eval_amount_text, core_decimal_text.
  destruct (Z.eqb_spec size 0); [lia|]. rewrite core_decimal_normalize_Some by lia.
  change (if mantissa (strip_zeros (Z.to_nat (scale d)) d) =? 0
    then Decimal (mantissa (strip_zeros (Z.to_nat (scale d)) d)) 0
    else strip_zeros (Z.to_nat (scale d)) d) with (normal_form d).
  destruct (normal_form_spec d) as (He & _); [lia|]. set (e := normal_form d) in *. cbv zeta.
  set (p := digits_of _). cbn [length]. unfold INT32_MAX in Hs.
  assert (0 <= Z.of_nat (length p) <= 20) as Hp.
  { enough (length p <= 20)%nat by lia. unfold p, digits_of.
    assert (forall n m q, (length (write_digits n m q) <= n + length q)%nat) as Hw; [|apply (Hw 20%nat _ [])].
    clear. induction n as [|n IH]; intros m q; cbn [write_digits]; [lia|].
    destruct (m / 10 =? 0); [simpl; lia|]. specialize (IH (m / 10) ((48 + m mod 10) :: q)). simpl in IH. lia. }
  destruct (Z.leb_spec size (Z.of_nat 0)); [lia|]. rewrite andb_false_r.
  rewrite (wrapu_small 64 (scale e)) by lia.
  set (sg := if mantissa e <? 0 then [minus] else []).
  change (if mantissa e <? 0 then [] ++ [minus] else []) with sg.
  assert (0 <= Z.of_nat (length sg) <= 1) by (unfold sg; destruct (mantissa e <? 0); simpl; lia).
  assert ((mantissa e <? 0) && (size <=? 1) = true -> size <= Z.of_nat (length sg)) as Hneg.
  { unfold sg. destruct (mantissa e <? 0); [|done]. simpl. lia. }
  destruct ((mantissa e <? 0) && (size <=? 1)) eqn:E.
  - specialize (Hneg eq_refl). simpl of_option.
    destruct (scale e =? 0); [|destruct (Z.leb_spec (Z.of_nat (length p)) (scale e))].
    + apply leb_NoText. lia.
    + rewrite wrapu_small by lia. apply leb_NoText. lia.
    + apply leb_NoText. lia.
  - clear Hneg E. destruct (scale e =? 0); [by destruct (size <=? _)|].
    destruct (Z.leb_spec (Z.of_nat (length p)) (scale e)); [|by destruct (size <=? _)].
    rewrite wrapu_small by lia. by destruct (size <=? _).
Qed.

(** The three copies of the printer agree on every decimal with a scale that
    is not negative; only the copy in the interpreter's string conversion lacks
    the test for a negative scale, and writes beyond its buffer on one. *)
Theorem decimal_texts_agree :
  (forall d size, runtime_decimal_text d size = core_decimal_text d size) /\
  (forall d size, 0 <= scale d <= INT32_MAX -> 0 < size ->
    eval_decimal_text d size = of_option (core_decimal_text d size)) /\
  core_decimal_text (Decimal 5 (-1)) 64 = None /\
  eval_decimal_text (Decimal 5 (-1)) 64 = Overrun.
Proof.
  split_and!.
  - apply runtime_decimal_text_eq.
  - apply eval_decimal_text_eq.
  - reflexivity.
  - reflexivity.
Qed.

(** ** Big integers *)

Lemma core_bigint_valid_text_spec s :
  core_bigint_valid_text s = true <->
  exists sgn ds, s = sgn ++ ds /\ ds <> [] /\ forallb isdigit ds = true /\
    (sgn = [] \/ sgn = [minus] \/ sgn = [c_char "+"]).
Proof.
  split.
  - destruct s as [|c s]; [done|]. simpl.
    destruct (is_ "-" c) eqn:Em; [|destruct (is_ "+" c) eqn:Ep]; simpl.
    + apply Z.eqb_eq in Em as ->. intros H. exists [minus], s.
      split_and!; [done|by destruct s|by destruct s|by right; left].
    + apply Z.eqb_eq in Ep as ->. intros H. exists [c_char "+"], s.
      split_and!; [done|by destruct s|by destruct s|by right; right].
    + intros H. exists [], (c :: s). split_and!; [done..|by left].
  - intros (sgn & ds & -> & Hne & Hd & H).
    destruct ds as [|c ds]; [done|]. destruct H as [-> | [-> | ->]]; simpl; try exact Hd.
    simpl in Hd. apply andb_prop in Hd as [Hc Hd].
    assert (is_ "-" c = false /\ is_ "+" c = false) as [-> ->].
    { split; apply Z.eqb_neq; intros ->; by vm_compute in Hc. }
    simpl. by rewrite Hc, Hd.
Qed.
