(* ===== verification/Tree.v ===== *)
(** Operations on syntax trees: [exprtk_node_copy], [exprtk_node_count] and
    [exprtk_node_depth] of [exprtk/src/grammar/exprtk_parser.c].

    Copying starts with a [memcpy] of the node, so the copy always denotes the same
    tree; what matters is which of its pointers still lead into the arena of the source.
    The model answers the copy with the list of those pointers.  Allocations
    succeed. *)

From S2P Require Import Prelude Float64 Ast.

(** ** Copying *)

Inductive pointer := ToNode (n : node) | ToText (s : string).

(** The texts that a node points to; a NULL name is none. *)
Definition opt_text (o : option string) : list pointer :=
  match o with Some s => [ToText s] | None => [] end.

Definition texts (d : node_data) : list pointer :=
  match d with
  | NODE_VARIABLE s | NODE_STRING s | NODE_TEMPLATE_STRING s | NODE_REST_PARAMETER s
  | NODE_MEMBER_CALL _ s _ | NODE_MEMBER_ACCESS _ s | NODE_MEMBER_SET _ s _
  | NODE_FOR_IN s _ _ | NODE_NEW s _ | NODE_METHOD s _ _ _ _ _ _ _ => [ToText s]
  | NODE_FUNCTION_CALL o _ | NODE_ASSIGNMENT o _ | NODE_CONSTANT_DECL o _
  | NODE_FUNCTION_DEFINITION o _ _ | NODE_FUNCTION_EXPRESSION o _ _
  | NODE_GENERATOR_FUNCTION o _ _ | NODE_TRY_CATCH _ o _ | NODE_SUPER o _ _
  | NODE_INSTANCEOF _ o _ => opt_text o
  | NODE_MAP_LITERAL keys _ => map ToText keys
  | NODE_CLASS_DEF s _ _ _ o l _ _ _ => ToText s :: opt_text o ++ map ToText l
  | NODE_FIELD_DECL s o _ _ _ => ToText s :: opt_text o
  | _ => []
  end.

Definition pointers (d : node_data) : list pointer := map ToNode (children d) ++ texts d.

(** Copying a child that may be NULL, and an array of children. *)
Definition copy_opt (f : node -> node * list pointer) (o : option node)
    : option node * list pointer :=
  match o with Some n => let (n, p) := f n in (Some n, p) | None => (None, []) end.

Definition copy_list (f : node -> node * list pointer) : list node -> list node * list pointer :=
  fix copy l :=
    match l with
    | [] => ([], [])
    | n :: l => let (n, p) := f n in let (l, q) := copy l in (n :: l, p ++ q)
    end.

(** The [switch] of [exprtk_node_copy]: the names are duplicated, the children copied; a kind
    without a case keeps all its pointers. *)
Fixpoint exprtk_node_copy (n : node) : node * list pointer :=
  let 'Node line column d := n in
  let opt1 (make : option node -> node_data) a :=
    let (a, p) := copy_opt exprtk_node_copy a in (Node line column (make a), p) in
  let opt2 (make : option node -> option node -> node_data) a b :=
    let (a, p) := copy_opt exprtk_node_copy a in
    let (b, q) := copy_opt exprtk_node_copy b in (Node line column (make a b), p ++ q) in
  let opt3 (make : option node -> option node -> option node -> node_data) a b c :=
    let (a, p) := copy_opt exprtk_node_copy a in
    let (b, q) := copy_opt exprtk_node_copy b in
    let (c, r) := copy_opt exprtk_node_copy c in (Node line column (make a b c), p ++ q ++ r) in
  let list1 (make : list node -> node_data) l :=
    let (l, p) := copy_list exprtk_node_copy l in (Node line column (make l), p) in
  match d with
  | NODE_NUMBER _ | NODE_VARIABLE _ | NODE_STRING _ | NODE_NULL | NODE_TEMPLATE_STRING _ => (n, [])
  | NODE_BINARY_OP op a b => opt2 (NODE_BINARY_OP op) a b
  | NODE_FUNCTION_CALL name args => list1 (NODE_FUNCTION_CALL name) args
  | NODE_CONSTANT_DECL name a => opt1 (NODE_CONSTANT_DECL name) a
  | NODE_ASSIGNMENT name a => opt1 (NODE_ASSIGNMENT name) a
  | NODE_IF a b c => opt3 NODE_IF a b c
  | NODE_WHILE a b => opt2 NODE_WHILE a b
  | NODE_FOR a b c e =>
      let (a, p) := copy_opt exprtk_node_copy a in
      let (b, q) := copy_opt exprtk_node_copy b in
      let (c, r) := copy_opt exprtk_node_copy c in
      let (e, t) := copy_opt exprtk_node_copy e in
      (Node line column (NODE_FOR a b c e), p ++ q ++ r ++ t)
  | NODE_BLOCK l => list1 NODE_BLOCK l
  | NODE_FLOW type a => opt1 (NODE_FLOW type) a
  | NODE_VECTOR l => list1 NODE_VECTOR l
  | NODE_INDEX a b => opt2 NODE_INDEX a b
  | NODE_SLICE a b c => opt3 NODE_SLICE a b c
  | NODE_FUNCTION_EXPRESSION name params body =>
      let (params, p) := copy_list exprtk_node_copy params in
      let (body, q) := copy_opt exprtk_node_copy body in
      (Node line column (NODE_FUNCTION_EXPRESSION name params body), p ++ q)
  | NODE_FUNCTION_DEFINITION name params body =>
      let (params, p) := copy_list exprtk_node_copy params in
      let (body, q) := copy_opt exprtk_node_copy body in
      (Node line column (NODE_FUNCTION_DEFINITION name params body), p ++ q)
  | NODE_MEMBER_CALL object method args =>
      let (object, p) := copy_opt exprtk_node_copy object in
      let (args, q) := copy_list exprtk_node_copy args in
      (Node line column (NODE_MEMBER_CALL object method args), p ++ q)
  | NODE_INSTANCEOF a name b => opt2 (fun a b => NODE_INSTANCEOF a name b) a b
  | NODE_SPREAD a => opt1 NODE_SPREAD a
  | NODE_DESTRUCTURING_ASSIGNMENT a b c => opt2 (fun a b => NODE_DESTRUCTURING_ASSIGNMENT a b c) a b
  | NODE_SWITCH value cases default_case =>
      let (value, p) := copy_opt exprtk_node_copy value in
      let (cases, q) := copy_list exprtk_node_copy cases in
      let (default_case, r) := copy_opt exprtk_node_copy default_case in
      (Node line column (NODE_SWITCH value cases default_case), p ++ q ++ r)
  | NODE_DO_WHILE a b => opt2 NODE_DO_WHILE a b
  | NODE_MAP_LITERAL keys values => list1 (NODE_MAP_LITERAL keys) values
  | NODE_MEMBER_ACCESS a member => opt1 (fun a => NODE_MEMBER_ACCESS a member) a
  | NODE_MEMBER_SET a member b => opt2 (fun a b => NODE_MEMBER_SET a member b) a b
  | NODE_FOR_IN name a b => opt2 (NODE_FOR_IN name) a b
  | NODE_TRY_CATCH a name b => opt2 (fun a b => NODE_TRY_CATCH a name b) a b
  | NODE_THROW a => opt1 NODE_THROW a
  | NODE_INTEGER _ | NODE_REST_PARAMETER _ | NODE_YIELD _ | NODE_GENERATOR_FUNCTION _ _ _
  | NODE_CLASS_DEF _ _ _ _ _ _ _ _ _ | NODE_METHOD _ _ _ _ _ _ _ _ | NODE_FIELD_DECL _ _ _ _ _
  | NODE_NEW _ _ | NODE_THIS | NODE_SUPER _ _ _ => (n, pointers d)
  end.

(** ** Counting *)

Definition sum_opt (f : node -> nat) (o : option node) : nat :=
  match o with Some n => f n | None => 0 end.

Definition sum_list (f : node -> nat) : list node -> nat :=
  fix sum l := match l with [] => 0 | n :: l => f n + sum l end.

Fixpoint exprtk_node_count (n : node) : nat :=
  let 'Node _ _ d := n in
  1 + match d with
  | NODE_BINARY_OP _ a b | NODE_WHILE a b | NODE_INDEX a b | NODE_DO_WHILE a b
  | NODE_MEMBER_SET a _ b | NODE_FOR_IN _ a b | NODE_DESTRUCTURING_ASSIGNMENT a b _
  | NODE_TRY_CATCH a _ b =>
      sum_opt exprtk_node_count a + sum_opt exprtk_node_count b
  | NODE_IF a b c | NODE_SLICE a b c =>
      sum_opt exprtk_node_count a + (sum_opt exprtk_node_count b + sum_opt exprtk_node_count c)
  | NODE_FOR a b c e =>
      sum_opt exprtk_node_count a + (sum_opt exprtk_node_count b +
      (sum_opt exprtk_node_count c + sum_opt exprtk_node_count e))
  | NODE_BLOCK l | NODE_FUNCTION_CALL _ l | NODE_VECTOR l | NODE_MAP_LITERAL _ l =>
      sum_list exprtk_node_count l
  | NODE_FUNCTION_EXPRESSION _ l a | NODE_FUNCTION_DEFINITION _ l a =>
      sum_list exprtk_node_count l + sum_opt exprtk_node_count a
  | NODE_MEMBER_CALL a _ l => sum_opt exprtk_node_count a + sum_list exprtk_node_count l
  | NODE_ASSIGNMENT _ a | NODE_CONSTANT_DECL _ a | NODE_FLOW _ a | NODE_MEMBER_ACCESS a _
  | NODE_SPREAD a | NODE_THROW a => sum_opt exprtk_node_count a
  | NODE_SWITCH a l b =>
      sum_opt exprtk_node_count a + (sum_list exprtk_node_count l + sum_opt exprtk_node_count b)
  | _ => 0
  end.

(** ** Depth *)

Definition max_list (f : node -> nat) : list node -> nat :=
  fix max l := match l with [] => 0 | n :: l => f n `max` max l end.

Fixpoint exprtk_node_depth (n : node) : nat :=
  let 'Node _ _ d := n in
  1 + match d with
  | NODE_BINARY_OP _ a b | NODE_WHILE a b | NODE_INDEX a b | NODE_DO_WHILE a b
  | NODE_MEMBER_SET a _ b | NODE_FOR_IN _ a b | NODE_DESTRUCTURING_ASSIGNMENT a b _
  | NODE_TRY_CATCH a _ b | NODE_INSTANCEOF a _ b =>
      sum_opt exprtk_node_depth a `max` sum_opt exprtk_node_depth b
  | NODE_IF a b c | NODE_SLICE a b c =>
      sum_opt exprtk_node_depth a `max` (sum_opt exprtk_node_depth b `max` sum_opt exprtk_node_depth c)
  | NODE_FOR a b c e =>
      sum_opt exprtk_node_depth a `max` (sum_opt exprtk_node_depth b `max`
      (sum_opt exprtk_node_depth c `max` sum_opt exprtk_node_depth e))
  | NODE_BLOCK l | NODE_FUNCTION_CALL _ l | NODE_VECTOR l | NODE_MAP_LITERAL _ l =>
      max_list exprtk_node_depth l
  | NODE_FUNCTION_EXPRESSION _ l a | NODE_FUNCTION_DEFINITION _ l a =>
      max_list exprtk_node_depth l `max` sum_opt exprtk_node_depth a
  | NODE_MEMBER_CALL a _ l => sum_opt exprtk_node_depth a `max` max_list exprtk_node_depth l
  | NODE_ASSIGNMENT _ a | NODE_CONSTANT_DECL _ a | NODE_FLOW _ a | NODE_MEMBER_ACCESS a _
  | NODE_SPREAD a | NODE_THROW a => sum_opt exprtk_node_depth a
  | NODE_SWITCH a l b =>
      sum_opt exprtk_node_depth a `max` (max_list exprtk_node_depth l `max` sum_opt exprtk_node_depth b)
  | _ => 0
  end.

(** ** Copies *)

(** The kinds that [exprtk_node_copy] has a case for. *)
Definition copied (d : node_data) : bool :=
  match d with
  | NODE_INTEGER _ | NODE_REST_PARAMETER _ | NODE_YIELD _ | NODE_GENERATOR_FUNCTION _ _ _
  | NODE_CLASS_DEF _ _ _ _ _ _ _ _ _ | NODE_METHOD _ _ _ _ _ _ _ _ | NODE_FIELD_DECL _ _ _ _ _
  | NODE_NEW _ _ | NODE_THIS | NODE_SUPER _ _ _ => false
  | _ => true
  end.

Definition kept (n : node) : list pointer := (exprtk_node_copy n).2.

Lemma copy_opt_eq o :
  Forall (fun n => (exprtk_node_copy n).1 = n) (opt o) ->
  copy_opt exprtk_node_copy o = (o, flat_map kept (opt o)).
Proof.
  destruct o as [n|]; [|done]. inversion 1 as [|? ? Hn _]; subst. unfold kept. simpl.
  destruct (exprtk_node_copy n) as [n' p]. simpl in *. by rewrite Hn, app_nil_r.
Qed.

Lemma copy_list_eq l :
  Forall (fun n => (exprtk_node_copy n).1 = n) l ->
  copy_list exprtk_node_copy l = (l, flat_map kept l).
Proof.
  induction 1 as [|n l Hn Hl IH]; [done|]. cbn [copy_list flat_map]. rewrite IH. unfold kept at 2.
  destruct (exprtk_node_copy n) as [n' p]. simpl in *. by rewrite Hn.
Qed.

(** One level of the copy. *)
Lemma copy_eq line column d :
  Forall (fun n => (exprtk_node_copy n).1 = n) (children d) ->
  exprtk_node_copy (Node line column d) =
    (Node line column d, if copied d then flat_map kept (children d) else pointers d).
Proof.
  intros H. destruct d; cbn [exprtk_node_copy copied children] in *; try reflexivity;
    repeat (apply Forall_app in H as [? H]);
    repeat match goal with
    | H : Forall _ (opt _) |- _ => apply copy_opt_eq in H
    | H : Forall _ _ |- _ => apply copy_list_eq in H
    end;
    repeat match goal with H : copy_opt _ _ = _ |- _ => rewrite H; clear H end;
    repeat match goal with H : copy_list _ _ = _ |- _ => rewrite H; clear H end;
    by rewrite ?flat_map_app.
Qed.

Lemma copy_same n : (exprtk_node_copy n).1 = n.
Proof.
  induction n as [line column d IH] using node_children_ind. by rewrite copy_eq.
Qed.

Lemma kept_eq n :
  kept n = if copied (data n) then flat_map kept (children (data n)) else pointers (data n).
Proof.
  destruct n as [line column d]. unfold kept at 1. rewrite copy_eq; [done|].
  apply Forall_true, copy_same.
Qed.

(** [m] is a node of the tree [n]. *)
Inductive subtree (m : node) : node -> Prop :=
  | subtree_root : subtree m m
  | subtree_child n c : In c (children (data n)) -> subtree m c -> subtree m n.

(** Nothing in the copy of the tree points into the old arena. *)
Definition self_contained (n : node) : Prop :=
  forall m, subtree m n -> copied (data m) = true \/ pointers (data m) = [].

Lemma flat_map_nil {A B} (f : A -> list B) l : flat_map f l = [] <-> forall x, In x l -> f x = [].
Proof.
  induction l as [|x l IH]; simpl; [by split|]. split.
  - intros [Hx Hl]%app_eq_nil y [<-|Hy]; [done|]. by apply IH.
  - intros H. rewrite (H x) by auto. apply IH. auto.
Qed.

Lemma pointers_nil_children d : pointers d = [] -> children d = [].
Proof. unfold pointers. intros [H _]%app_eq_nil. by destruct (children d). Qed.

(** Copying a tree gives the same tree, and the copy is independent of the
    arena of the source exactly when every node of the tree is of a kind that
    [exprtk_node_copy] has a case for or points to nothing: after the source is
    released, a copied [new], [super], [yield], generator, class, method or field
    would still point into it. *)
Theorem exprtk_node_copy_spec n :
  (exprtk_node_copy n).1 = n /\ ((exprtk_node_copy n).2 = [] <-> self_contained n).
Proof.
  split; [apply copy_same|]. change ((exprtk_node_copy n).2) with (kept n).
  induction n as [line column d IH] using node_children_ind. rewrite kept_eq. cbn [data].
  rewrite Forall_forall in IH.
  split.
  - intros Hk m Hm. inversion Hm as [|? c Hc Hmc]; subst; simpl in *; [destruct (copied d); auto|].
    destruct (copied d).
    + rewrite flat_map_nil in Hk. apply (IH c); [by apply list_elem_of_In|by apply Hk|done].
    + apply pointers_nil_children in Hk. by rewrite Hk in Hc.
  - intros Hs. destruct (copied d) eqn:E.
    + apply flat_map_nil. intros c Hc. apply IH; [by apply list_elem_of_In|].
      intros m Hm. apply Hs. by eapply subtree_child.
    + destruct (Hs (Node line column d) (subtree_root _)) as [H|H]; simpl in H; [congruence|done].
Qed.

(** ** Counts *)

(** The kinds whose children [exprtk_node_count] visits; [exprtk_node_depth] also
    visits those of [instanceof]. *)
Definition counted (d : node_data) : bool :=
  match d with
  | NODE_INSTANCEOF _ _ _ | NODE_YIELD _ | NODE_GENERATOR_FUNCTION _ _ _
  | NODE_CLASS_DEF _ _ _ _ _ _ _ _ _ | NODE_METHOD _ _ _ _ _ _ _ _ | NODE_FIELD_DECL _ _ _ _ _
  | NODE_NEW _ _ | NODE_SUPER _ _ _ => false
  | _ => true
  end.

Lemma sum_list_app f l l' : sum_list f (l ++ l') = (sum_list f l + sum_list f l')%nat.
Proof. induction l as [|n l IH]; simpl; [done|]. rewrite IH. lia. Qed.

Lemma max_list_app f l l' : max_list f (l ++ l') = max_list f l `max` max_list f l'.
Proof. induction l as [|n l IH]; simpl; [done|]. rewrite IH. lia. Qed.

Lemma sum_list_opt f o : sum_list f (opt o) = sum_opt f o.
Proof. destruct o; simpl; lia. Qed.

Lemma max_list_opt f o : max_list f (opt o) = sum_opt f o.
Proof. destruct o; simpl; lia. Qed.

Lemma count_eq n :
  exprtk_node_count n =
  S (if counted (data n) then sum_list exprtk_node_count (children (data n)) else 0).
Proof.
  destruct n as [line column d]. destruct d; simpl;
    rewrite ?sum_list_app, ?sum_list_opt; try reflexivity; lia.
Qed.

Lemma depth_eq n :
  exprtk_node_depth n =
  S (if counted (data n) || match data n with NODE_INSTANCEOF _ _ _ => true | _ => false end
     then max_list exprtk_node_depth (children (data n)) else 0).
Proof.
  destruct n as [line column d]. destruct d; simpl;
    rewrite ?max_list_app, ?max_list_opt; try reflexivity; lia.
Qed.

(** The number of nodes and the height of a tree. *)
Inductive size : node -> nat -> Prop :=
  | size_node n ks : Forall2 size (children (data n)) ks -> size n (S (foldr Nat.add 0 ks)).

Inductive height : node -> nat -> Prop :=
  | height_node n ks : Forall2 height (children (data n)) ks -> height n (S (foldr Nat.max 0 ks)).

Lemma sum_list_foldr f l : sum_list f l = foldr Nat.add 0 (map f l).
Proof. induction l; simpl; congruence. Qed.

Lemma max_list_foldr f l : max_list f l = foldr Nat.max 0 (map f l).
Proof. induction l; simpl; congruence. Qed.

Lemma Forall2_map_self {A B} (P : A -> B -> Prop) (f : A -> B) l :
  (forall x, In x l -> P x (f x)) -> Forall2 P l (map f l).
Proof. induction l as [|x l IH]; simpl; intros H; constructor; auto. Qed.

Lemma subtree_counted n c :
  (forall m, subtree m n -> counted (data m) = true) -> In c (children (data n)) ->
  forall m, subtree m c -> counted (data m) = true.
Proof. intros H Hc m Hm. apply H. by eapply subtree_child. Qed.

(** On trees without classes, generators and [instanceof],
    [exprtk_node_count] is the number of nodes and [exprtk_node_depth] the height, so
    that the depth is at most the count. *)
Theorem count_depth_spec n :
  (forall m, subtree m n -> counted (data m) = true) ->
  size n (exprtk_node_count n) /\ height n (exprtk_node_depth n) /\
  (exprtk_node_depth n <= exprtk_node_count n)%nat.
Proof.
  induction n as [line column d IH] using node_children_ind. intros Hn.
  rewrite Forall_forall in IH. setoid_rewrite list_elem_of_In in IH.
  pose proof (Hn _ (subtree_root _)) as Hd. simpl in Hd.
  assert (forall c, In c (children d) -> size c (exprtk_node_count c) /\
    height c (exprtk_node_depth c) /\ (exprtk_node_depth c <= exprtk_node_count c)%nat) as Hc.
  { intros c Hc. apply (IH c Hc). by apply (subtree_counted (Node line column d)). }
  rewrite count_eq, depth_eq. simpl. rewrite Hd. cbn [orb].
  rewrite sum_list_foldr, max_list_foldr. split_and!.
  - apply (size_node (Node line column d)), Forall2_map_self. apply Hc.
  - apply (height_node (Node line column d)), Forall2_map_self. apply Hc.
  - apply le_n_S. clear -Hc. induction (children d) as [|c l IH]; simpl in *; [lia|].
    pose proof (Hc c (or_introl eq_refl)) as (_ & _ & ?). specialize (IH (fun x H => Hc x (or_intror H))). lia.
Qed.

(** The tree of [a + f(1)]. *)
Definition demo_sum : node :=
  Node 1 3 (NODE_BINARY_OP TOKEN_PLUS (Some (Node 1 1 (NODE_VARIABLE "a")))
    (Some (Node 1 5 (NODE_FUNCTION_CALL (Some "f") [Node 1 7 (NODE_INTEGER 1)])))).

Lemma count_depth_spec_witness :
  (exprtk_node_count demo_sum = 4 /\ exprtk_node_depth demo_sum = 3)%nat /\
  size demo_sum (exprtk_node_count demo_sum) /\ height demo_sum (exprtk_node_depth demo_sum) /\
  (exprtk_node_depth demo_sum <= exprtk_node_count demo_sum)%nat.
Proof.
  split; [done|]. apply (count_depth_spec demo_sum).
  intros m Hm.
  repeat match goal with
  | H : subtree m ?t |- _ => inversion H; clear H; subst; simpl in *; [reflexivity|]
  | H : _ \/ _ |- _ => destruct H
  | H : False |- _ => destruct H
  | H : _ = _ |- _ => subst
  end.
Defined.

(** A function body with a [new] keeps pointing into the arena of its source. *)
Example copy_of_new :
  (exprtk_node_copy (Node 1 1 (NODE_BLOCK [Node 1 3 (NODE_NEW "Point" [Node 1 13 (NODE_INTEGER 1)])]))).2
  = [ToNode (Node 1 13 (NODE_INTEGER 1)); ToText "Point"].
Proof. reflexivity. Qed.
