(* ===== verification/Meter.v ===== *)
(** What limits an evaluation: the counters of an environment
    ([exprtk/src/exprtk_eval.c], [eval_loop_tick] and the head of [exprtk_eval])
    or, when the environment has a safe point function, the budget of the host
    call ([HostLimits.v]).

    The interpreter only asks a meter whether it may take a step, another turn
    of a loop, or enter a function.  [Meter] is that interface; [MeterLaws] is what the interpreter's
    termination needs of it, and both meters are proved to have it. *)

From S2P Require Import Prelude HostStatus HostLimits.
Open Scope Z_scope.

(** ** The interface *)

(** [has_safe_point]: the environment has a safe point function, so that all environments
    share the meter; otherwise each has a copy of the counters. *)
Class Meter (M : Type) := {
  meter_step : M -> bool * M;       (* one more node *)
  meter_tick : M -> bool * M;       (* one more turn of a loop *)
  meter_enter : Z -> M -> bool * M; (* a function frame of so many bytes *)
  meter_leave : Z -> M -> bool * M;
  has_safe_point : bool
}.

(** [ticks_left] bounds the turns still granted and [meter_steps] the steps.  A counter that wraps around
    grants them again, so the laws carry reserves: the refusals a meter can take
    before that happens.  A granted turn restores the reserve of turns to [full]. *)
Class MeterLaws (M : Type) `{Meter M} := {
  meter_ok : M -> Prop;
  ticks_left : M -> nat;
  meter_steps : M -> Z;
  tick_reserve : M -> Z;
  step_reserve : M -> Z;
  full : M -> Z;
  steps_nonneg m : 0 <= meter_steps m;
  reserve_full m : meter_ok m -> tick_reserve m <= full m;
  granted_step m m' : meter_ok m -> 0 < step_reserve m -> meter_step m = (true, m') ->
    meter_ok m' /\ (ticks_left m' <= ticks_left m)%nat /\ meter_steps m' < meter_steps m /\
    step_reserve m <= step_reserve m' /\ tick_reserve m <= tick_reserve m';
  refused_step_law m m' : meter_ok m -> 0 < step_reserve m -> meter_step m = (false, m') ->
    meter_ok m' /\ (ticks_left m' <= ticks_left m)%nat /\ meter_steps m' <= meter_steps m /\
    step_reserve m - 1 <= step_reserve m' /\ tick_reserve m <= tick_reserve m';
  granted_tick m m' : meter_ok m -> 0 < tick_reserve m -> meter_tick m = (true, m') ->
    meter_ok m' /\ (ticks_left m' < ticks_left m)%nat /\ meter_steps m' <= meter_steps m /\
    step_reserve m <= step_reserve m' /\ full m <= tick_reserve m';
  refused_tick_law m m' : meter_ok m -> 0 < tick_reserve m -> meter_tick m = (false, m') ->
    meter_ok m' /\ (ticks_left m' <= ticks_left m)%nat /\ meter_steps m' <= meter_steps m /\
    step_reserve m <= step_reserve m' /\ tick_reserve m - 1 <= tick_reserve m';
  frame_law m b m' cost : meter_ok m -> meter_enter cost m = (b, m') \/ meter_leave cost m = (b, m') ->
    meter_ok m' /\ (ticks_left m' <= ticks_left m)%nat /\ meter_steps m' <= meter_steps m /\
    step_reserve m <= step_reserve m' /\ tick_reserve m <= tick_reserve m'
}.

(** A meter that grants nothing any more once it has refused. *)
Class Latching (M : Type) `{Meter M} := {
  latched : M -> Prop;
  refused_step m m' : meter_step m = (false, m') -> latched m';
  refused_tick m m' : meter_tick m = (false, m') -> latched m';
  refused_enter cost m m' : meter_enter cost m = (false, m') -> latched m';
  latched_step m : latched m -> (meter_step m).1 = false;
  latched_enter cost m : latched m -> (meter_enter cost m).1 = false;
  latched_leave cost m : latched m -> latched (meter_leave cost m).2
}.

(** ** The counters of an environment: [uint32_t] *)

Record counters := Counters {
  max_nodes : Z;
  curr_nodes : Z;
  max_loop_iterations : Z;
  curr_loop_iterations : Z
}.

(** The limits of [exprtk_env_init_storage]. *)
Definition default_counters : counters := Counters 100000 0 10000 0.

Definition count_node (c : counters) : bool * counters :=
  let n := wrapu 32 (curr_nodes c + 1) in
  (negb (max_nodes c <? n),
   Counters (max_nodes c) n (max_loop_iterations c) (curr_loop_iterations c)).

(** [eval_loop_tick] *)
Definition count_loop (c : counters) : bool * counters :=
  let n := wrapu 32 (curr_loop_iterations c + 1) in
  (negb (max_loop_iterations c <? n),
   Counters (max_nodes c) (curr_nodes c) (max_loop_iterations c) n).

#[export] Instance counters_meter : Meter counters := {|
  meter_step := count_node; meter_tick := count_loop;
  meter_enter _ c := (true, c); meter_leave _ c := (true, c); has_safe_point := false
|}.

Definition counters_ok (c : counters) : Prop :=
  0 <= max_nodes c <= UINT32_MAX /\ 0 <= curr_nodes c <= UINT32_MAX /\
  0 <= max_loop_iterations c <= UINT32_MAX /\ 0 <= curr_loop_iterations c <= UINT32_MAX.

(** How often a counter can go up before it wraps around. *)
Definition room (limit curr : Z) : Z := UINT32_MAX - Z.max limit curr.

#[export, refine] Instance counters_laws : MeterLaws counters := {|
  meter_ok := counters_ok;
  ticks_left c := Z.to_nat (max_loop_iterations c - curr_loop_iterations c);
  meter_steps c := Z.max 0 (max_nodes c - curr_nodes c);
  tick_reserve c := room (max_loop_iterations c) (curr_loop_iterations c);
  step_reserve c := room (max_nodes c) (curr_nodes c);
  full c := UINT32_MAX - max_loop_iterations c;
  steps_nonneg := _; reserve_full := _; granted_step := _; refused_step_law := _; granted_tick := _;
  refused_tick_law := _; frame_law := _
|}.
Proof.
  all: unfold counters_ok, room, meter_step, meter_tick, counters_meter, count_node, count_loop, UINT32_MAX in *.
  - lia.
  - lia.
  - intros c c' Hok Hr [= Hb <-]. rewrite !wrapu_small in * by lia. simpl. lia.
  - intros c c' Hok Hr [= Hb <-]. rewrite !wrapu_small in * by lia. simpl. lia.
  - intros c c' Hok Hr [= Hb <-]. rewrite !wrapu_small in * by lia. simpl. lia.
  - intros c c' Hok Hr [= Hb <-]. rewrite !wrapu_small in * by lia. simpl. lia.
  - intros c b c' cost Hok [[= <- <-]|[= <- <-]]; split_and!; (done || lia).
Defined.

(** ** The budget of a host call

    [eval_safe_point] and [eval_loop_tick] of an environment whose safe point is
    that of the host: a step costs one of [steps_left], a turn one of
    [loops_left], a frame its bytes. *)

#[export] Instance host_meter : Meter runtime_ctx := {|
  meter_step c := ts_host_safe_point c SP_STEP 1;
  meter_tick c := ts_host_safe_point c SP_LOOP 1;
  meter_enter cost c := ts_host_safe_point c SP_FUNCTION_ENTER cost;
  meter_leave cost c := ts_host_safe_point c SP_FUNCTION_LEAVE cost;
  has_safe_point := true
|}.

Definition host_ok (c : runtime_ctx) : Prop :=
  match active_host_budget c with
  | Some (_, b) => 0 <= loops_left b /\ 0 <= steps_left b
  | None => False
  end.

Definition host_ticks (c : runtime_ctx) : nat :=
  match active_host_budget c with Some (_, b) => Z.to_nat (loops_left b) | None => 0 end.

Definition host_steps (c : runtime_ctx) : Z :=
  match active_host_budget c with Some (_, b) => Z.max 0 (steps_left b) | None => 0 end.

Definition metered (kind : safe_point_kind) (cost : Z) : Prop :=
  (kind = SP_STEP \/ kind = SP_LOOP) /\ cost = 1 \/ kind = SP_FUNCTION_ENTER \/ kind = SP_FUNCTION_LEAVE.

(** What a safe point of such a kind does to the budget. *)
Lemma charge_counts b kind cost b' ok :
  metered kind cost -> 0 <= loops_left b -> 0 <= steps_left b -> charge b kind cost = (ok, b') ->
  0 <= loops_left b' <= loops_left b /\ 0 <= steps_left b' <= steps_left b /\
  (kind = SP_LOOP -> ok = true -> loops_left b' < loops_left b) /\
  (kind = SP_STEP -> ok = true -> steps_left b' < steps_left b).
Proof.
  intros Hkind Hl Hs H.
  destruct Hkind as [[[-> | ->] ->]|[-> | ->]]; cbn [charge] in H;
    unfold ts_host_budget_charge_u32, ts_host_budget_poll_interrupt, ts_host_budget_fail in H;
    repeat first [progress simplify_eq/= | case_hyp H | case_goal]; bool_props; split_and!; try done; lia.
Qed.

(** A refusal of a host budget is final, so that it needs no reserve. *)
Definition ample : Z := 2 ^ 40.

Lemma safe_point_counts c kind cost ok c' :
  metered kind cost -> host_ok c -> ts_host_safe_point c kind cost = (ok, c') ->
  host_ok c' /\ (host_ticks c' <= host_ticks c)%nat /\ host_steps c' <= host_steps c /\
  (kind = SP_LOOP -> ok = true -> (host_ticks c' < host_ticks c)%nat) /\
  (kind = SP_STEP -> ok = true -> host_steps c' < host_steps c).
Proof.
  unfold host_ok, host_ticks, host_steps, ts_host_safe_point. intros Hkind Hok H.
  destruct (active_host_budget c) as [[id b]|] eqn:Ha; [|done]. destruct Hok as [Hl Hs].
  case_decide; [|simplify_eq; rewrite Ha; split_and!; try done; lia].
  destruct (charge b kind cost) as [[] b'] eqn:E; simplify_eq; cbn [active_host_budget set_budget];
    destruct (charge_counts _ _ _ _ _ Hkind Hl Hs E) as (? & ? & Ht & Hk);
    (split_and!; [lia..| |]); intros K Hb; try done;
    [specialize (Ht K eq_refl)|specialize (Hk K eq_refl)]; lia.
Qed.

#[export, refine] Instance host_laws : MeterLaws runtime_ctx := {|
  meter_ok := host_ok; ticks_left := host_ticks; meter_steps := host_steps;
  tick_reserve _ := ample; step_reserve _ := ample; full _ := ample;
  steps_nonneg := _; reserve_full := _; granted_step := _; refused_step_law := _; granted_tick := _;
  refused_tick_law := _; frame_law := _
|}.
Proof.
  - intros c. unfold host_steps. destruct (active_host_budget c) as [[? ?]|]; lia.
  - done.
  - intros c c' Hok _ H. destruct (safe_point_counts c SP_STEP 1 true c') as (? & ? & ? & _ & Hs);
      [by left; auto|done..|]. specialize (Hs eq_refl eq_refl). split_and!; (done || lia).
  - intros c c' Hok _ H. destruct (safe_point_counts c SP_STEP 1 false c') as (? & ? & ? & _);
      [by left; auto|done..|]. split_and!; (done || lia).
  - intros c c' Hok _ H. destruct (safe_point_counts c SP_LOOP 1 true c') as (? & ? & ? & Ht & _);
      [by left; auto|done..|]. specialize (Ht eq_refl eq_refl). split_and!; (done || lia).
  - intros c c' Hok _ H. destruct (safe_point_counts c SP_LOOP 1 false c') as (? & ? & ? & _);
      [by left; auto|done..|]. split_and!; (done || lia).
  - intros c b c' cost Hok [H|H];
      [destruct (safe_point_counts c SP_FUNCTION_ENTER cost b c') as (? & ? & ? & _)
      |destruct (safe_point_counts c SP_FUNCTION_LEAVE cost b c') as (? & ? & ? & _)];
      try done; try (right; auto); split_and!; (done || lia).
Defined.

(** The counters do not latch: they wrap around. *)
Definition host_latched (c : runtime_ctx) : Prop :=
  match active_host_budget c with Some (_, b) => failure_status b <> STATUS_OK | None => False end.

Lemma refused_latched c kind cost c' :
  ts_host_safe_point c kind cost = (false, c') -> host_latched c'.
Proof.
  unfold ts_host_safe_point, host_latched. destruct (active_host_budget c) as [[id b]|] eqn:Ha; [|done].
  case_decide; [|by intros [= <-]; rewrite Ha].
  destruct (charge b kind cost) as [[] b'] eqn:E; [done|]. intros [= <-]. by apply charge_fail in E.
Qed.

Lemma latched_refuses c kind cost : host_latched c -> ts_host_safe_point c kind cost = (false, c).
Proof.
  unfold host_latched, ts_host_safe_point. destruct (active_host_budget c) as [[id b]|]; [|done].
  intros H. by rewrite decide_False.
Qed.

#[export, refine] Instance host_latching : Latching runtime_ctx := {|
  latched := host_latched; refused_step m m' := refused_latched m SP_STEP 1 m';
  refused_tick m m' := refused_latched m SP_LOOP 1 m';
  refused_enter cost m m' := refused_latched m SP_FUNCTION_ENTER cost m';
  latched_step := _; latched_enter := _; latched_leave := _
|}.
Proof.
  - intros c H. cbn. by rewrite latched_refuses.
  - intros cost c H. cbn. by rewrite latched_refuses.
  - intros cost c H. cbn. by rewrite latched_refuses.
Defined.
