(* ===== verification/Value.v ===== *)
(** The values and the binary operators of the tree-walking interpreter:
    [EXPRTK_NODE_BINARY_OP] of [exprtk/src/exprtk_eval.c] with its helpers in
    [exprtk/src/exprtk_runtime.c].

    The values are those that the modelled statements can produce: numbers
    ([double]), 64-bit integers, booleans, strings, null, vectors of numbers, lists
    and functions; a function carries its parameters, its body and the variables it has captured
    ([closure_env], a scope of its own).  [pow] of the C library
    and the text of a [double] under [printf]'s [%g] are parameters.  A signed
    overflow is undefined behaviour in C and an outcome of its own. *)

From S2P Require Import Prelude Float64 Ast Env.
From stdpp Require Import pretty.
Open Scope Z_scope.

Inductive value :=
  | VNumber (number : f64)
  | VInteger (integer : Z)
  | VBool (boolean : bool)
  | VString (s : string)
  | VNull
  | VVector (data : list f64)
  | VList (items : list value)
  | VFunction (arg_params : list node) (body : option node)
      (closure_env : gmap string (@var_entry value)).

Definition zero : value := VNumber f64_zero.

(** [exprtk_val_num] of a truth value of C. *)
Definition num_of_bool (b : bool) : value := VNumber (if b then f64_one else f64_zero).
Definition int_of_bool (b : bool) : value := VInteger (if b then 1 else 0).

Definition eps9 : f64 := f64_lit 1 (-9).
Definition eps15 : f64 := f64_lit 1 (-15).

Definition eval_value_truthy (v : value) : bool :=
  match v with
  | VBool b => b
  | VInteger i => negb (i =? 0)
  | VNumber x => (f64_fabs x >? eps9)%f64
  | VString s => (0 <? String.length s)%nat
  | VNull => false
  | VVector l => (0 <? length l)%nat
  | VList l => (0 <? length l)%nat
  | VFunction _ _ _ => true
  end.

Definition type_name (v : value) : string :=
  match v with
  | VNumber _ => "number"
  | VInteger _ => "int64"
  | VBool _ => "bool"
  | VString _ => "string"
  | VNull => "null"
  | VVector _ => "vector"
  | VList _ => "list"
  | VFunction _ _ _ => "function"
  end.

Definition val_to_double (v : value) : f64 :=
  match v with
  | VInteger i => f64_of_Z i
  | VNumber x => x
  | VBool b => if b then f64_one else f64_zero
  | _ => f64_zero
  end.

(** Equality of values in the sense of [switch]; of two vectors, lists or functions it only compares
    the types. *)
Definition values_match (lhs rhs : value) : bool :=
  match lhs, rhs with
  | VNumber _, VNumber _ | VNumber _, VInteger _
  | VInteger _, VNumber _ | VInteger _, VInteger _ =>
      (f64_fabs (val_to_double lhs - val_to_double rhs) <? eps9)%f64
  | VBool l, VBool r => Bool.eqb l r
  | VString l, VString r => bool_decide (l = r)
  | VNull, VNull => true
  | VVector _, VVector _ | VList _, VList _ | VFunction _ _ _, VFunction _ _ _ => true
  | _, _ => false
  end.

(** The test of a [case]: containers and functions match nothing. *)
Definition comparable (v : value) : bool :=
  match v with VVector _ | VList _ | VFunction _ _ _ => false | _ => true end.

Definition case_matches (switch_val case_val : value) : bool :=
  comparable switch_val && comparable case_val && values_match switch_val case_val.

(** The result of an operator: a value, the message of [throw_error], or
    undefined behaviour of C. *)
Inductive op_result :=
  | OpValue (v : value)
  | OpThrow (message : string)
  | OpUndefined.

(** A signed 64-bit result. *)
Definition int_result (z : Z) : op_result :=
  if (INT64_MIN <=? z) && (z <=? INT64_MAX) then OpValue (VInteger z) else OpUndefined.

Definition op_name (op : token) : string :=
  match op with
  | TOKEN_PLUS => "+" | TOKEN_MINUS => "-" | TOKEN_MULTIPLY => "*" | TOKEN_DIVIDE => "/"
  | TOKEN_MOD => "%" | TOKEN_POWER => "**" | TOKEN_LT => "<" | TOKEN_LE => "<="
  | TOKEN_GT => ">" | TOKEN_GE => ">=" | TOKEN_AND => "&&" | TOKEN_OR => "||"
  | _ => "unknown"
  end.

Section ops.
Context (pow : f64 -> f64 -> f64) (format_g : f64 -> string).

(** [None]: the value has no text. *)
Definition eval_value_text (v : value) : option string :=
  match v with
  | VString s => Some s
  | VInteger i => Some (pretty i)
  | VNumber x => Some (format_g x)
  | VBool b => Some (if b then "true" else "false")
  | VNull => Some "null"
  | VVector _ | VList _ | VFunction _ _ _ => None
  end.

Definition concatenation (l_val r_val : value) : op_result :=
  match eval_value_text l_val, eval_value_text r_val with
  | Some l, Some r => OpValue (VString (l +:+ r))
  | _, _ => OpThrow ("Type error: cannot stringify " +:+ type_name l_val +:+ " and " +:+ type_name r_val)
  end.

(** The first [switch], on two integers; [None] when it has no case for the
    operator. *)
Definition int_op (op : token) (l r : Z) : option op_result :=
  match op with
  | TOKEN_PLUS => Some (int_result (l + r))
  | TOKEN_MINUS => Some (int_result (l - r))
  | TOKEN_MULTIPLY => Some (int_result (l * r))
  | TOKEN_DIVIDE =>
      Some (if r =? 0 then OpThrow "Division by zero"
            else if (l =? INT64_MIN) && (r =? -1) then OpUndefined
            else if Z.rem l r =? 0 then OpValue (VInteger (Z.quot l r))
            else OpValue (VNumber (f64_of_Z l / f64_of_Z r)%f64))
  | TOKEN_MOD =>
      Some (if r =? 0 then OpThrow "Modulo by zero"
            else if (l =? INT64_MIN) && (r =? -1) then OpUndefined
            else OpValue (VInteger (Z.rem l r)))
  | TOKEN_POWER => Some (OpValue (VNumber (pow (f64_of_Z l) (f64_of_Z r))))
  | TOKEN_EQ => Some (OpValue (int_of_bool (l =? r)))
  | TOKEN_NE => Some (OpValue (int_of_bool (negb (l =? r))))
  | TOKEN_LT => Some (OpValue (int_of_bool (l <? r)))
  | TOKEN_LE => Some (OpValue (int_of_bool (l <=? r)))
  | TOKEN_GT => Some (OpValue (int_of_bool (r <? l)))
  | TOKEN_GE => Some (OpValue (int_of_bool (r <=? l)))
  | TOKEN_AND => Some (OpValue (int_of_bool (negb (l =? 0) && negb (r =? 0))))
  | TOKEN_OR => Some (OpValue (int_of_bool (negb (l =? 0) || negb (r =? 0))))
  | _ => None
  end.

(** The second [switch], on two numbers. *)
Definition num_op (op : token) (l r : f64) : option op_result :=
  match op with
  | TOKEN_PLUS => Some (OpValue (VNumber (l + r)%f64))
  | TOKEN_MINUS => Some (OpValue (VNumber (l - r)%f64))
  | TOKEN_MULTIPLY => Some (OpValue (VNumber (l * r)%f64))
  | TOKEN_DIVIDE =>
      Some (if (f64_fabs r <? eps15)%f64 then OpThrow "Division by zero"
            else OpValue (VNumber (l / r)%f64))
  | TOKEN_MOD =>
      Some (if (f64_fabs r <? eps15)%f64 then OpThrow "Modulo by zero"
            else OpValue (VNumber (f64_fmod l r)))
  | TOKEN_POWER => Some (OpValue (VNumber (pow l r)))
  | TOKEN_EQ => Some (OpValue (num_of_bool (f64_fabs (l - r) <? eps9)%f64))
  | TOKEN_NE => Some (OpValue (num_of_bool (f64_fabs (l - r) >=? eps9)%f64))
  | TOKEN_LT => Some (OpValue (num_of_bool (l <? r)%f64))
  | TOKEN_LE => Some (OpValue (num_of_bool (l <=? r)%f64))
  | TOKEN_GT => Some (OpValue (num_of_bool (l >? r)%f64))
  | TOKEN_GE => Some (OpValue (num_of_bool (l >=? r)%f64))
  | TOKEN_AND =>
      Some (OpValue (num_of_bool ((f64_fabs l >? eps9) && (f64_fabs r >? eps9))%f64))
  | TOKEN_OR =>
      Some (OpValue (num_of_bool ((f64_fabs l >? eps9) || (f64_fabs r >? eps9))%f64))
  | _ => None
  end.

Definition is_numeric (v : value) : bool :=
  match v with VNumber _ | VInteger _ | VBool _ => true | _ => false end.

(** [==] and [!=] from the truth of equality; the other operators have no case. *)
Definition equality_op (op : token) (equal : bool) : option op_result :=
  match op with
  | TOKEN_EQ => Some (OpValue (num_of_bool equal))
  | TOKEN_NE => Some (OpValue (num_of_bool (negb equal)))
  | _ => None
  end.

Definition type_error (op : token) (l r : value) : op_result :=
  OpThrow ("Type error: cannot apply '" +:+ op_name op +:+ "' to " +:+ type_name l
           +:+ " and " +:+ type_name r).

(** The tests of the code in their order: two integers, two numeric values, a
    string under [+], two strings, two booleans, two nulls, one null. *)
Definition eval_binary (op : token) (l_val r_val : value) : op_result :=
  let other :=
    if decide (op = TOKEN_PLUS) then
      match l_val, r_val with
      | VString _, _ | _, VString _ => Some (concatenation l_val r_val)
      | _, _ => None
      end
    else
      match l_val, r_val with
      | VString l, VString r => equality_op op (bool_decide (l = r))
      | VBool l, VBool r => equality_op op (Bool.eqb l r)
      | VNull, VNull => equality_op op true
      | VNull, _ | _, VNull => equality_op op false
      | _, _ => None
      end in
  let numeric :=
    if is_numeric l_val && is_numeric r_val
    then num_op op (val_to_double l_val) (val_to_double r_val) else None in
  let integer :=
    match l_val, r_val with VInteger l, VInteger r => int_op op l r | _, _ => None end in
  match integer with
  | Some r => r
  | None =>
      match numeric with
      | Some r => r
      | None =>
          match other with
          | Some r => r
          | None => type_error op l_val r_val
          end
      end
  end.

(** Sums, differences and products of integers are exact or undefined, never
    rounded: the interpreter does not fall back to [double]. *)
Lemma int_result_exact z v : int_result z = OpValue v -> v = VInteger z.
Proof. unfold int_result. case_match; congruence. Qed.

(** On operands that are not both integers, the numeric operators are those of
    the doubles. *)
Lemma eval_binary_num op l r :
  eval_binary op (VNumber l) (VNumber r) =
  match num_op op l r with Some x => x | None => type_error op (VNumber l) (VNumber r) end.
Proof. unfold eval_binary. simpl. destruct (num_op op l r); [done|]. by destruct op. Qed.

(** An operator on two integers is the integer operator, when there is one. *)
Lemma eval_binary_int op l r x :
  int_op op l r = Some x -> eval_binary op (VInteger l) (VInteger r) = x.
Proof. intros H. unfold eval_binary. by rewrite H. Qed.

(** Only integer operators can be undefined. *)
Lemma num_op_defined op l r : num_op op l r <> Some OpUndefined.
Proof.
  destruct op; cbn [num_op]; try congruence; destruct (_ <? _)%f64; congruence.
Qed.

Lemma eval_binary_defined op l r :
  (forall i j, ~ (l = VInteger i /\ r = VInteger j)) -> eval_binary op l r <> OpUndefined.
Proof.
  intros Hn. unfold eval_binary.
  assert (match l, r with VInteger l, VInteger r => int_op op l r | _, _ => None end = None) as ->.
  { destruct l, r; try reflexivity. exfalso. by eapply Hn. }
  pose proof (num_op_defined op (val_to_double l) (val_to_double r)) as H.
  destruct (is_numeric l && is_numeric r); [destruct (num_op _ _ _) as [x|]; [congruence|clear H]|clear H].
  all: destruct (decide (op = TOKEN_PLUS)); destruct l, r; try discriminate; destruct op; discriminate.
Qed.

(** An operator on numeric values that are not both integers gives a number or
    an error. *)
Lemma eval_binary_number op l r :
  (is_numeric l = true) -> (is_numeric r = true) ->
  (forall i j, ~ (l = VInteger i /\ r = VInteger j)) ->
  match eval_binary op l r with
  | OpValue v => exists x, v = VNumber x
  | OpThrow _ => True
  | OpUndefined => False
  end.
Proof.
  intros Hl Hr Hn. unfold eval_binary. rewrite Hl, Hr. cbn [andb].
  assert (match l, r with VInteger l, VInteger r => int_op op l r | _, _ => None end = None) as ->.
  { destruct l, r; try reflexivity. exfalso. by eapply Hn. }
  destruct op; cbn [num_op]; unfold num_of_bool; try eauto;
    try (destruct (_ <? _)%f64; eauto); destruct l, r; simpl; eauto; discriminate.
Qed.

Lemma eval_binary_not v : eval_binary TOKEN_NOT zero v = type_error TOKEN_NOT zero v.
Proof. by destruct v. Qed.

End ops.
