(* ===== verification/State.v ===== *)
(** The state of an evaluation: what [exprtk_eval] and the calls it makes use of an environment
    ([exprtk_env_t] of [exprtk/include/exprtk_types.h]), with its helpers in
    [exprtk/src/exprtk_eval.c] and [exprtk_runtime.c].

    The chain of scopes is that of [Env.v] with a [table] of functions per environment
    ([Registry.v]); the limits are any [Meter].  [Natives] are the functions that are not scripts, and
    the global registry that names them. *)

From S2P Require Import Prelude Float64 Ast Env Meter Value Registry.
Open Scope Z_scope.

(** ** States *)

Inductive flow_t :=
  | FLOW_NORMAL | FLOW_BREAK | FLOW_CONTINUE | FLOW_RETURN | FLOW_THROW | FLOW_YIELD.

#[export] Instance flow_eq_dec : EqDecision flow_t.
Proof. solve_decision. Defined.

Record state (M : Type) := State {
  scopes : list (gmap string (@var_entry value));
  flow : flow_t;
  return_value : value;
  error_value : value;
  aborted : bool;
  meter : M;
  last_line : Z;
  last_column : Z;
  error_msg : string;
  error_line : Z;
  error_column : Z;
  tables : list table;
  max_recursion : Z;
  curr_recursion : Z
}.

Arguments State {M}.
Arguments scopes {M}. Arguments flow {M}. Arguments return_value {M}.
Arguments error_value {M}. Arguments aborted {M}. Arguments meter {M}.
Arguments last_line {M}. Arguments last_column {M}. Arguments error_msg {M}.
Arguments error_line {M}. Arguments error_column {M}. Arguments tables {M}.
Arguments max_recursion {M}. Arguments curr_recursion {M}.

(** An evaluation: a value and a state, or a reason why there is none. *)
Inductive result (M A : Type) :=
  | Done (a : A) (s : state M)
  | Undefined                 (* undefined behaviour of C *)
  | NotModelled
  | Interrupted.              (* the bound of a loop was too small *)

Arguments Done {M A}. Arguments Undefined {M A}.
Arguments NotModelled {M A}. Arguments Interrupted {M A}.

Definition bind {M A B} (r : result M A) (k : A -> state M -> result M B) : result M B :=
  match r with
  | Done a s => k a s
  | Undefined => Undefined
  | NotModelled => NotModelled
  | Interrupted => Interrupted
  end.

Notation "'let*' ( a , s ) := r 'in' k" := (bind r (fun a s => k))
  (at level 10, a name, s name, r at level 100, k at level 200).

(** The native functions of a build: what the function at an address does, the names in the registry,
    and the bytes that a call with so many arguments charges
    ([sizeof(exprtk_env_t) + argc * sizeof(exprtk_value_t)]). *)
Class Natives (M : Type) := {
  run_native : Z -> list value -> state M -> result M value;
  g_registry : list exprtk_func_entry_t;
  frame_bytes : nat -> Z
}.

Section state.
Context {M : Type} {HM : Meter M}.

Definition set_scopes x (s : state M) : state M :=
  State x (flow s) (return_value s) (error_value s) (aborted s) (meter s) (last_line s)
    (last_column s) (error_msg s) (error_line s) (error_column s) (tables s) (max_recursion s)
    (curr_recursion s).
Definition set_flow x (s : state M) : state M :=
  State (scopes s) x (return_value s) (error_value s) (aborted s) (meter s) (last_line s)
    (last_column s) (error_msg s) (error_line s) (error_column s) (tables s) (max_recursion s)
    (curr_recursion s).
Definition set_return_value x (s : state M) : state M :=
  State (scopes s) (flow s) x (error_value s) (aborted s) (meter s) (last_line s) (last_column s)
    (error_msg s) (error_line s) (error_column s) (tables s) (max_recursion s)
    (curr_recursion s).
Definition set_error_value x (s : state M) : state M :=
  State (scopes s) (flow s) (return_value s) x (aborted s) (meter s) (last_line s) (last_column s)
    (error_msg s) (error_line s) (error_column s) (tables s) (max_recursion s)
    (curr_recursion s).
Definition set_aborted x (s : state M) : state M :=
  State (scopes s) (flow s) (return_value s) (error_value s) x (meter s) (last_line s)
    (last_column s) (error_msg s) (error_line s) (error_column s) (tables s) (max_recursion s)
    (curr_recursion s).
Definition set_meter x (s : state M) : state M :=
  State (scopes s) (flow s) (return_value s) (error_value s) (aborted s) x (last_line s)
    (last_column s) (error_msg s) (error_line s) (error_column s) (tables s) (max_recursion s)
    (curr_recursion s).
Definition set_tables x (s : state M) : state M :=
  State (scopes s) (flow s) (return_value s) (error_value s) (aborted s) (meter s) (last_line s)
    (last_column s) (error_msg s) (error_line s) (error_column s) x (max_recursion s)
    (curr_recursion s).
Definition set_recursion x (s : state M) : state M :=
  State (scopes s) (flow s) (return_value s) (error_value s) (aborted s) (meter s) (last_line s)
    (last_column s) (error_msg s) (error_line s) (error_column s) (tables s) (max_recursion s) x.
Definition set_last line column (s : state M) : state M :=
  State (scopes s) (flow s) (return_value s) (error_value s) (aborted s) (meter s) line column
    (error_msg s) (error_line s) (error_column s) (tables s) (max_recursion s)
    (curr_recursion s).

Definition is_flow (f : flow_t) (s : state M) : bool := bool_decide (flow s = f).

(** ** Helpers *)

Definition throw_error (line column : Z) (message : string) (s : state M) : value * state M :=
  (zero, State (scopes s) FLOW_THROW (return_value s) (VString message) (aborted s) (meter s)
           (last_line s) (last_column s) message line column (tables s) (max_recursion s)
           (curr_recursion s)).

(** [throw_error] as the answer of an evaluation. *)
Definition throw (line column : Z) (message : string) (s : state M) : result M value :=
  let (v, s) := throw_error line column message s in Done v s.

(** [eval_loop_tick] *)
Definition eval_loop_tick (s : state M) : bool * state M :=
  let (ok, m) := meter_tick (meter s) in
  let s := set_meter m s in
  (ok, if ok then s else set_aborted true s).

(** The head of [exprtk_eval]: the position of the node and one step. *)
Definition enter (line column : Z) (s : state M) : bool * state M :=
  let s := if 0 <? line then set_last line column s else s in
  let (ok, m) := meter_step (meter s) in
  let s := set_meter m s in
  (ok, if ok then s else set_aborted true s).

(** [exprtk_eval] of a child that may be NULL. *)
Definition eval_opt (ev : node -> (state M -> result M value)) (o : option node) : state M -> result M value :=
  match o with Some n => ev n | None => fun s => Done zero s end.

Definition apply_op (line column : Z) (r : op_result) (s : state M) : result M value :=
  match r with
  | OpValue v => Done v s
  | OpThrow message => throw line column message s
  | OpUndefined => Undefined
  end.

(** A child environment of the one whose chain is [scopes]; [s] is where its limits come from. *)
Definition child_state (scopes : list (gmap string (@var_entry value))) (tables : list table) (s : state M)
    : state M :=
  State (exprtk_env_init_child scopes) FLOW_NORMAL zero zero false (meter s) 0 0 "" 0 0
    (Table [] [] :: tables) (max_recursion s) (curr_recursion s).

(** ** Arguments *)

(** [eval_expand_args]: it stops after the argument that changed the flow. *)
Definition spread_values (v : value) : list value :=
  match v with
  | VVector l => VNumber <$> l
  | VList l => l
  | v => [v]
  end.

Definition eval_expand_args (ev : node -> state M -> result M value)
    : list node -> state M -> result M (list value) :=
  fix loop nodes s :=
    match nodes with
    | [] => Done [] s
    | n :: nodes =>
        let* (vals, s) :=
          match n with
          | Node _ _ (NODE_SPREAD child) =>
              let* (el, s) := eval_opt ev child s in Done (spread_values el) s
          | _ => let* (v, s) := ev n s in Done [v] s
          end in
        if negb (is_flow FLOW_NORMAL s) || aborted s then Done vals s else
        let* (rest, s) := loop nodes s in Done (vals ++ rest) s
    end.
End state.
