(* ===== verification/Calls.v ===== *)
(** Function calls of the interpreter: [eval_script_function] and what it uses in
    [exprtk/src/exprtk_runtime.c], [exprtk_call_internal] of [exprtk_registry.c].

    [deeper] evaluates what a call runs, the body of the function and its default values, one
    level of recursion further down; [Interp.v] ties the knot.  The scope that a function value
    has captured is the parent environment of its body.  Before the body runs every variable of that scope is
    copied into the environment of the call, so that an assignment never reaches it ([this], which is not
    copied, is a keyword and no target), and a call drops it.  A default value of a function value is evaluated in that scope itself, under limits of its own:
    [NotModelled].  Entries of parameter lists are not NULL.  The hooks of a compiled
    backend ([eval_node], [exec_script_body]) are not set. *)

From S2P Require Import Prelude Float64 Ast Env Meter Value SortSearch Registry State.
Open Scope Z_scope.

Local Abbreviation scope := (gmap string (@var_entry value)).
Local Abbreviation env := (list (gmap string (@var_entry value))).

(** ** The variables a function value captures *)

Definition exprtk_collector_add (name : string) (c : list string) : list string :=
  if bool_decide (name = "") || bool_decide (name ∈ c) then c else c ++ [name].

Definition collect_opt (f : node -> list string -> list string) (o : option node) (c : list string)
    : list string :=
  match o with Some n => f n c | None => c end.

(** The first [k] children of an array. *)
Definition collect_first (f : node -> list string -> list string)
    : nat -> list node -> list string -> list string :=
  fix loop k l c {struct l} :=
    match l, k with
    | n :: l, S k => loop k l (f n c)
    | _, _ => c
    end.

Definition collect_all (f : node -> list string -> list string) (l : list node) (c : list string)
    : list string := collect_first f (length l) l c.

(** The array of the cases holds two nodes per case; the code visits as many nodes as there are
    cases. *)
Fixpoint exprtk_collect_free_vars_node (n : node) (c : list string) {struct n} : list string :=
  let 'Node _ _ d := n in
  let one := collect_opt exprtk_collect_free_vars_node in
  let all := collect_all exprtk_collect_free_vars_node in
  match d with
  | NODE_VARIABLE x => exprtk_collector_add x c
  | NODE_BINARY_OP _ a b => one b (one a c)
  | NODE_FUNCTION_CALL name args =>
      all args (match name with Some x => exprtk_collector_add x c | None => c end)
  | NODE_ASSIGNMENT _ v | NODE_CONSTANT_DECL _ v | NODE_FLOW _ v | NODE_THROW v | NODE_YIELD v
  | NODE_SPREAD v | NODE_FIELD_DECL _ _ v _ _ | NODE_MEMBER_ACCESS v _
  | NODE_FUNCTION_DEFINITION _ _ v | NODE_FUNCTION_EXPRESSION _ _ v | NODE_GENERATOR_FUNCTION _ _ v
  | NODE_METHOD _ _ v _ _ _ _ _ => one v c
  | NODE_IF a b e => one e (one b (one a c))
  | NODE_WHILE a b | NODE_DO_WHILE a b | NODE_INDEX a b | NODE_FOR_IN _ a b
  | NODE_DESTRUCTURING_ASSIGNMENT a b _ | NODE_TRY_CATCH a _ b | NODE_INSTANCEOF a _ b
  | NODE_MEMBER_SET a _ b => one b (one a c)
  | NODE_FOR i a p b => one b (one p (one a (one i c)))
  | NODE_SLICE a b e => one e (one b (one a c))
  | NODE_BLOCK l | NODE_VECTOR l | NODE_MAP_LITERAL _ l | NODE_NEW _ l | NODE_SUPER _ l _ => all l c
  | NODE_MEMBER_CALL o _ args => all args (one o c)
  | NODE_SWITCH v cases default_case =>
      one default_case (collect_first exprtk_collect_free_vars_node (length cases / 2) cases (one v c))
  | NODE_CLASS_DEF _ constructor methods static_methods _ _ _ _ _ =>
      all static_methods (all methods (one constructor c))
  | NODE_NUMBER _ | NODE_INTEGER _ | NODE_STRING _ | NODE_NULL | NODE_TEMPLATE_STRING _
  | NODE_REST_PARAMETER _ | NODE_THIS => c
  end.

Definition is_param (x : string) (param : node) : bool :=
  match data param with NODE_VARIABLE y => bool_decide (x = y) | _ => false end.

(** [None] stands for NULL, for a function without a body. *)
Definition exprtk_collect_closure_free_vars (body : option node) (arg_params : list node)
    : option (list string) :=
  (fun body => base.filter (fun x => existsb (is_param x) arg_params = false)
                 (exprtk_collect_free_vars_node body [])) <$> body.

(** The value of a function expression in an environment. *)
Definition function_value (arg_params : list node) (body : option node) (e : env) : value :=
  VFunction arg_params body
    (hd ∅ (exprtk_env_snapshot_names e (exprtk_collect_closure_free_vars body arg_params))).

(** ** Destructuring *)

Definition assign_rest (is_constant : bool) (x : string) (v : value) (e : env) : env :=
  if is_constant then exprtk_env_set_constant e x v else exprtk_env_set e x v.

(** The elements of a pattern; [data] is what is left of the vector. *)
Definition destructure_elements (f : node -> value -> env -> env) (is_constant : bool)
    : list node -> list f64 -> env -> env :=
  fix loop elements data e :=
    match elements with
    | [] => e
    | Node _ _ (NODE_SPREAD (Some (Node _ _ (NODE_VARIABLE x)))) :: elements =>
        loop elements [] (assign_rest is_constant x (VVector data) e)
    | Node _ _ (NODE_SPREAD _) :: elements => loop elements data e
    | Node _ _ NODE_NULL :: elements => loop elements (tail data) e
    | el :: elements => loop elements (tail data) (f el (VNumber (hd f64_zero data)) e)
    end.

(** A pattern of a map binds nothing, values having no maps. *)
Fixpoint eval_destructure (is_constant : bool) (target : node) (rhs : value) (e : env) {struct target}
    : env :=
  let 'Node _ _ d := target in
  match d with
  | NODE_VARIABLE x =>
      if is_constant then exprtk_env_set_constant e x rhs else exprtk_env_set_local e x rhs
  | NODE_VECTOR elements =>
      match rhs with
      | VVector data => destructure_elements (eval_destructure is_constant) is_constant elements data e
      | _ => e
      end
  | NODE_SPREAD (Some (Node _ _ (NODE_VARIABLE x))) => assign_rest is_constant x rhs e
  | _ => e
  end.

(** ** Parameters *)

(** A parameter with a type is a member access on its name. *)
Definition eval_param_binding_node (param : node) : node :=
  match data param with
  | NODE_MEMBER_ACCESS (Some (Node line column (NODE_VARIABLE x))) _ => Node line column (NODE_VARIABLE x)
  | _ => param
  end.

Definition bind_param (param : node) (val : value) (e : env) : env :=
  match data param with
  | NODE_ASSIGNMENT (Some x) _ => exprtk_env_set e x val
  | NODE_ASSIGNMENT None _ => e
  | _ => eval_destructure false param val e
  end.

Definition is_spread (param : node) : bool :=
  match data param with NODE_SPREAD _ => true | _ => false end.

(** The rest parameter, when there is one. *)
Definition rest_param (params : list node) : option node :=
  match last params with Some p => if is_spread p then Some p else None | None => None end.

Definition std_params (params : list node) : list node :=
  match rest_param params with Some _ => removelast params | None => params end.

Section calls.
Context {M : Type} {HM : Meter M} {N : Natives M} {Q : QSort} {B : BSearch}.
Context (deeper : node -> state M -> result M value).

(** The chain of a call whose own scope is [local]: the captured scope of a function value is its
    parent, the chain of the caller that of a named function. *)
Definition callee_chain (closure : option scope) (local : scope) (s : state M) : env :=
  local :: match closure with Some c => [c] | None => scopes s end.

Definition leave_chain (closure : option scope) (e : env) (s : state M) : scope * state M :=
  (hd ∅ e, match closure with Some _ => s | None => set_scopes (tail e) s end).

Definition bind_in (closure : option scope) (param : node) (val : value) (local : scope) (s : state M)
    : scope * state M :=
  leave_chain closure (bind_param param val (callee_chain closure local s)) s.

Definition default_value (closure : option scope) (param : node) (s : state M) : result M value :=
  match data param with
  | NODE_ASSIGNMENT _ (Some e) =>
      match closure with None => deeper e s | Some _ => NotModelled end
  | _ => Done zero s
  end.

Fixpoint bind_params (closure : option scope) (params : list node) (args : list value) (local : scope)
    (s : state M) : result M scope :=
  match params with
  | [] => Done local s
  | param :: params =>
      let* (val, s) := match args with
                       | v :: _ => Done v s
                       | [] => default_value closure param s
                       end in
      let (local, s) := bind_in closure (eval_param_binding_node param) val local s in
      bind_params closure params (tail args) local s
  end.

Definition bind_rest (closure : option scope) (params : list node) (args : list value) (local : scope)
    (s : state M) : scope * state M :=
  match rest_param params with
  | Some p => bind_in closure p (VList (drop (length (std_params params)) args)) local s
  | None => (local, s)
  end.

(** ** Calls *)

(** The environment of the call; without a safe point it has the counters that the caller had before
    the parameters were bound. *)
Definition enter_function (closure : option scope) (local : scope) (m : M) (s : state M) : state M :=
  let child := child_state [] (match closure with Some _ => [Table [] []] | None => tables s end) s in
  set_meter (if has_safe_point then meter s else m) (set_scopes (callee_chain closure local s) child).

Definition throw_from (child s : state M) : state M :=
  State (scopes s) FLOW_THROW (return_value s) (error_value child) (aborted s) (meter s) (last_line s)
    (last_column s) (error_msg child) (error_line child) (error_column child) (tables s)
    (max_recursion s) (curr_recursion s).

(** What the caller takes over from the environment of the call. *)
Definition leave_function (closure : option scope) (bytes : Z) (res : value) (child s : state M)
    : result M value :=
  let s := match closure with
           | Some _ => s
           | None => set_tables (tail (tables child)) (set_scopes (tail (scopes child)) s)
           end in
  let s := set_recursion (wrapu 32 (curr_recursion s - 1)) (set_aborted (aborted child) (set_meter (meter child) s)) in
  let (res, s) := match flow child with
                     | FLOW_RETURN => (return_value child, s)
                     | FLOW_THROW => (res, throw_from child s)
                     | FLOW_YIELD => (res, set_flow FLOW_YIELD s)
                     | _ => (res, s)
                     end in
  let (ok, m) := meter_leave bytes (meter s) in
  let s := set_meter m s in
  Done res (if ok then s else set_aborted true s).

(** Before the frame is entered an environment with a safe point notes where the body is. *)
Definition note_body (body : option node) (s : state M) : state M :=
  match body with
  | Some (Node line column _) => if has_safe_point && (0 <? line) then set_last line column s else s
  | None => s
  end.

Definition eval_script_function (params : list node) (body : option node) (closure : option scope)
    (args : list value) (s : state M) : result M value :=
  let bytes := frame_bytes (length args) in
  let s := note_body body s in
  let (ok, m) := meter_enter bytes (meter s) in
  let s := set_meter m s in
  if negb ok then Done zero (set_aborted true s) else
  if max_recursion s <? wrapu 32 (curr_recursion s + 1) then
    Done zero (set_meter (meter_leave bytes m).2 (set_aborted true s))
  else
    let s := set_recursion (wrapu 32 (curr_recursion s + 1)) s in
    let local := match closure with Some c => hd ∅ (exprtk_env_import_vars (callee_chain closure ∅ s) [c]) | None => ∅ end in
    let* (local, s) := bind_params closure (std_params params) args local s in
    let (local, s) := bind_rest closure params args local s in
    let* (res, child) := eval_opt deeper body (enter_function closure local m s) in
    leave_function closure bytes res child s.

Definition exprtk_call_function_value (f : value) (args : list value) (s : state M) : result M value :=
  match f with
  | VFunction params (Some body) closure => eval_script_function params (Some body) (Some closure) args s
  | _ => Done zero s
  end.

(** Natives see integers as numbers, unless they ask for them. *)
Definition EXPRTK_NATIVE_PRESERVE_VALUE_TYPES : Z := 1.

Definition normalize_numeric (v : value) : value :=
  match v with VInteger i => VNumber (f64_of_Z i) | v => v end.

Definition call_func (f : exprtk_func_t) (args : list value) (s : state M) : result M value :=
  match fn_data f with
  | Script params body => eval_script_function params body None args s
  | Native fn flags =>
      run_native fn (if Z.land flags EXPRTK_NATIVE_PRESERVE_VALUE_TYPES =? 0
                     then normalize_numeric <$> args else args) s
  end.

(** [error_msg] holds 255 characters. *)
Definition exprtk_call_undefined (name : string) (s : state M) : result M value :=
  throw (last_line s) (last_column s)
    (String.substring 0 255 ("Undefined function '" +:+ name +:+ "'")) s.

Definition exprtk_call_internal (name : string) (args : list value) (s : state M) : result M value :=
  match lookup_func name (tables s) with
  | Some f => call_func f args s
  | None =>
      match exprtk_env_get zero (scopes s) name with
      | VFunction params (Some body) closure =>
          exprtk_call_function_value (VFunction params (Some body) closure) args s
      | _ =>
          match resolve_builtin g_registry (tables s) name with
          | Some e =>
              run_native (entry_fn e)
                (if builtin_needs_raw_args name then args else normalize_numeric <$> args) s
          | None => exprtk_call_undefined name s
          end
      end
  end.

(** The case of [EXPRTK_NODE_FUNCTION_CALL] on its arguments. *)
Definition call_callee (callee : value) (name : string) (args : list value) (s : state M) : result M value :=
  match callee with
  | VFunction _ (Some _) _ => exprtk_call_function_value callee args s
  | _ => exprtk_call_internal name args s
  end.
End calls.
