(* ===== verification/Interp.v ===== *)
(** The tree-walking interpreter: [exprtk_eval] of [exprtk/src/exprtk_eval.c] on
    expressions, assignments, control flow, vectors, functions and calls.

    [exprtk_eval] recurs on the tree, and a loop runs at most as often as the meter still grants turns, so
    that it needs no fuel from outside; [Interrupted] marks the end of that bound.  A call runs a tree that is
    no part of the one that makes it: [exprtk_eval] is a functional of the evaluator [deeper] of the
    next level of recursion, and [eval_script] iterates it as often as the recursion limit allows.
    [InterpProofs.v] proves that neither bound is reached.  Allocations succeed.  Maps, member
    access and methods, templates, generators and classes are [NotModelled]. *)

From S2P Require Import Prelude Float64 Ast Env Meter Value SortSearch Registry State Calls.
From stdpp Require Import pretty.
Open Scope Z_scope.

Section interp.
Context {M : Type} {HM : Meter M} {ML : MeterLaws M} (pow : f64 -> f64 -> f64) (format_g : f64 -> string).
Context {N : Natives M} {Q : QSort} {B : BSearch}.

(** ** Loops *)

Fixpoint while_loop (k : nat) (condition body : (state M -> result M value)) (last_val : value) (s : state M)
    : result M value :=
  match k with
  | O => Interrupted
  | S k =>
      if negb (is_flow FLOW_NORMAL s) && negb (is_flow FLOW_CONTINUE s) then Done last_val s else
      let s := if is_flow FLOW_CONTINUE s then set_flow FLOW_NORMAL s else s in
      let* (cond_val, s) := condition s in
      if negb (is_flow FLOW_NORMAL s) || aborted s then Done last_val s else
      if negb (eval_value_truthy cond_val) then Done last_val s else
      let (ok, s) := eval_loop_tick s in
      if negb ok then Done last_val s else
      let* (last_val, s) := body s in
      if is_flow FLOW_BREAK s then Done last_val (set_flow FLOW_NORMAL s) else
      if is_flow FLOW_RETURN s then Done last_val s else
      while_loop k condition body last_val s
  end.

(** The turn of a [for] loop after its condition; [again] is the next one. *)
Definition for_turn (again : value -> state M -> result M value) (post : option (state M -> result M value))
    (body : state M -> result M value) (last_val : value) (s : state M) : result M value :=
  let (ok, s) := eval_loop_tick s in
  if negb ok then Done last_val s else
  let* (last_val, s) := body s in
  if is_flow FLOW_BREAK s then Done last_val (set_flow FLOW_NORMAL s) else
  if is_flow FLOW_RETURN s then Done last_val s else
  match post with
  | Some post =>
      let* (_, s) := post s in
      if negb (is_flow FLOW_NORMAL s) && negb (is_flow FLOW_CONTINUE s) then Done last_val s
      else again last_val (if is_flow FLOW_CONTINUE s then set_flow FLOW_NORMAL s else s)
  | None => again last_val s
  end.

Fixpoint for_loop (k : nat) (condition post : option (state M -> result M value)) (body : state M -> result M value)
    (last_val : value) (s : state M) : result M value :=
  match k with
  | O => Interrupted
  | S k =>
      match condition with
      | Some cond =>
          let* (cond_val, s) := cond s in
          if negb (is_flow FLOW_NORMAL s) || aborted s then Done last_val s else
          if negb (eval_value_truthy cond_val) then Done last_val s else
          for_turn (for_loop k condition post body) post body last_val s
      | None => for_turn (for_loop k condition post body) post body last_val s
      end
  end.

Fixpoint do_while_loop (k : nat) (body condition : (state M -> result M value)) (s : state M) : result M value :=
  match k with
  | O => Interrupted
  | S k =>
      let* (last_val, s) := body s in
      if is_flow FLOW_BREAK s then Done last_val (set_flow FLOW_NORMAL s) else
      if is_flow FLOW_RETURN s then Done last_val s else
      let s := if is_flow FLOW_CONTINUE s then set_flow FLOW_NORMAL s else s in
      let* (cond_val, s) := condition s in
      if negb (is_flow FLOW_NORMAL s) || aborted s then Done last_val s else
      if negb (eval_value_truthy cond_val) then Done last_val s else
      let (ok, s) := eval_loop_tick s in
      if negb ok then Done last_val s else do_while_loop k body condition s
  end.

(** The turns that the meter still grants, and one more to be refused. *)
Definition loop_bound (s : state M) : nat := S (ticks_left (meter s)).

(** ** Statements *)

Definition block_loop (ev : node -> (state M -> result M value)) : list node -> value -> state M -> result M value :=
  fix loop statements last_val s :=
    match statements with
    | [] => Done last_val s
    | n :: statements =>
        let* (last_val, s) := ev n s in
        if negb (is_flow FLOW_NORMAL s) then Done last_val s else
        if aborted s then Done last_val s else loop statements last_val s
    end.

(** The loop over the cases of a [switch]: the array alternates the values and the
    bodies. *)
Definition switch_loop (ev : node -> (state M -> result M value)) (switch_val : value) (default_case : option node)
    : list node -> state M -> result M value :=
  fix loop cases s :=
    match cases with
    | c :: rest =>
        let* (case_val, s) := ev c s in
        if negb (is_flow FLOW_NORMAL s) then Done zero s else
        match rest with
        | b :: rest => if case_matches switch_val case_val then ev b s else loop rest s
        | [] => NotModelled
        end
    | [] => eval_opt ev default_case s
    end.

(** [exprtk_env_set] and [exprtk_env_get] on a name that may be NULL. *)
Definition assign (set : list (gmap string (@var_entry value)) -> string -> value ->
      list (gmap string (@var_entry value)))
    (name : option string) (v : value) (s : state M) : state M :=
  match name with Some x => set_scopes (set (scopes s) x v) s | None => s end.

Definition variable (name : option string) (s : state M) : value :=
  match name with Some x => exprtk_env_get zero (scopes s) x | None => zero end.

(** The child environment of a [catch] block, with the caught value. *)
Definition catch_state (catch_var : option string) (s : state M) : state M :=
  let child := child_state (scopes s) (tables s) s in
  match catch_var with
  | Some x => set_scopes (exprtk_env_set_local (scopes child) x (error_value s)) child
  | None => child
  end.

(** What the environment takes over from it. *)
Definition leave_catch (child s : state M) : state M :=
  let normal := is_flow FLOW_NORMAL child in
  State (tail (scopes child))
    (if normal then FLOW_NORMAL else flow child)
    (if normal then return_value s else return_value child)
    (if normal then error_value s else error_value child)
    (aborted child) (meter child) (last_line s) (last_column s) (error_msg s) (error_line s)
    (error_column s) (tail (tables child)) (max_recursion s) (curr_recursion s).

(** ** Vectors and lists *)

(** [(int)] of an index. *)
Definition index_of (v : value) : option Z :=
  match v with
  | VInteger i => Some (int_of_int64 i)
  | VNumber x => Some (int_of_f64 x)
  | _ => None
  end.

Definition bounds_error (what : string) (idx : Z) (size : nat) : string :=
  what +:+ " index " +:+ pretty idx +:+ " out of bounds [0, " +:+ pretty size +:+ ")".

(** The element at an index of an array of [size] elements. *)
Definition element {A} (line column : Z) (what : string) (make : A -> value) (l : list A) (idx : Z)
    (s : state M) : result M value :=
  if (idx <? 0) || (int_of_size (length l) <=? idx)
  then throw line column (bounds_error what idx (length l)) s
  else match l !! Z.to_nat idx with Some x => Done (make x) s | None => Undefined end.

Definition index_value (line column : Z) (arr idx_val : value) (s : state M) : result M value :=
  match arr, index_of idx_val with
  | VVector l, Some idx => element line column "Array" VNumber l idx s
  | VList l, Some idx => element line column "List" id l idx s
  | _, _ =>
      throw line column ("Invalid indexing: expected vector[number], list[number], " +:+
        "typed_array[number], or map[string], got " +:+ type_name arr +:+ "[" +:+ type_name idx_val +:+ "]") s
  end.

Definition slice_value (line column : Z) (arr start_val end_val : value) (s : state M) : result M value :=
  match arr, index_of start_val, index_of end_val with
  | VVector l, Some start, Some stop =>
      let start := if start <? 0 then 0 else start in
      let stop := if int_of_size (length l) <? stop then int_of_size (length l) else stop in
      if stop <? start
      then throw line column ("Invalid slice range [" +:+ pretty start +:+ ":" +:+ pretty stop +:+ "]") s
      else Done (VVector (take (Z.to_nat (stop - start)) (drop (Z.to_nat start) l))) s
  | _, _, _ =>
      throw line column ("Invalid slice: expected vector[number:number], got " +:+ type_name arr +:+ "[" +:+
        type_name start_val +:+ ":" +:+ type_name end_val +:+ "]") s
  end.

Definition vector_value (vals : list value) : value :=
  match vals with [] => zero | _ => VVector (val_to_double <$> vals) end.

(** The values a [for in] loop binds to its variable. *)
Definition iterated (collection : value) : list value :=
  match collection with
  | VVector l => VNumber <$> l
  | VList l => l
  | _ => []
  end.

Fixpoint for_in_loop (var_name : string) (body : state M -> result M value) (items : list value)
    (last_val : value) (s : state M) : result M value :=
  match items with
  | [] => Done last_val s
  | v :: items =>
      let (ok, s) := eval_loop_tick s in
      if negb ok then Done last_val s else
      let* (last_val, s) := body (assign exprtk_env_set (Some var_name) v s) in
      if is_flow FLOW_BREAK s then Done last_val (set_flow FLOW_NORMAL s) else
      let s := if is_flow FLOW_CONTINUE s then set_flow FLOW_NORMAL s else s in
      if is_flow FLOW_RETURN s then Done last_val s else for_in_loop var_name body items last_val s
  end.

(** ** The interpreter *)

Section level.
Context (deeper : node -> state M -> result M value).

Fixpoint exprtk_eval (n : node) (s : state M) {struct n} : result M value :=
  if aborted s then Done zero s else
  let 'Node line column d := n in
  let (ok, s) := enter line column s in
  if negb ok then Done zero s else
  match d with
  | NODE_NUMBER x => Done (VNumber x) s
  | NODE_INTEGER i => Done (VInteger i) s
  | NODE_STRING x => Done (VString x) s
  | NODE_VARIABLE name => Done (exprtk_env_get zero (scopes s) name) s
  | NODE_NULL => Done VNull s
  | NODE_ASSIGNMENT name value =>
      let* (val, s) := eval_opt exprtk_eval value s in
      let s := assign exprtk_env_set name val s in
      Done (variable name s) s
  | NODE_CONSTANT_DECL name value =>
      let* (val, s) := eval_opt exprtk_eval value s in
      let s := assign exprtk_env_set_constant name val s in
      Done (variable name s) s
  | NODE_IF condition if_branch else_branch =>
      let* (cond_val, s) := eval_opt exprtk_eval condition s in
      if negb (is_flow FLOW_NORMAL s) then Done zero s else
      if eval_value_truthy cond_val then eval_opt exprtk_eval if_branch s
      else eval_opt exprtk_eval else_branch s
  | NODE_WHILE condition body =>
      while_loop (loop_bound s) (eval_opt exprtk_eval condition) (eval_opt exprtk_eval body) zero s
  | NODE_FOR init condition post body =>
      let* (_, s) := eval_opt exprtk_eval init s in
      if negb (is_flow FLOW_NORMAL s) || aborted s then Done zero s else
      for_loop (loop_bound s)
        match condition with Some c => Some (exprtk_eval c) | None => None end
        match post with Some p => Some (exprtk_eval p) | None => None end
        (eval_opt exprtk_eval body) zero s
  | NODE_DO_WHILE body condition =>
      do_while_loop (loop_bound s) (eval_opt exprtk_eval body) (eval_opt exprtk_eval condition) s
  | NODE_BLOCK statements => block_loop exprtk_eval statements zero s
  | NODE_FLOW type value =>
      match type with
      | TOKEN_RETURN =>
          match value with
          | Some v =>
              let* (r, s) := exprtk_eval v s in
              let s := set_return_value r s in
              if negb (is_flow FLOW_NORMAL s) || aborted s then Done r s
              else Done r (set_flow FLOW_RETURN s)
          | None => Done zero (set_flow FLOW_RETURN (set_return_value zero s))
          end
      | TOKEN_BREAK => Done zero (set_flow FLOW_BREAK s)
      | TOKEN_CONTINUE => Done zero (set_flow FLOW_CONTINUE s)
      | _ => Done zero s
      end
  | NODE_BINARY_OP op left_ right_ =>
      let* (l_val, s) := eval_opt exprtk_eval left_ s in
      if bool_decide (is_Some left_) && negb (is_flow FLOW_NORMAL s) then Done zero s else
      let* (r_val, s) := eval_opt exprtk_eval right_ s in
      if negb (is_flow FLOW_NORMAL s) then Done zero s else
      apply_op line column (eval_binary pow format_g op l_val r_val) s
  | NODE_SWITCH value cases default_case =>
      let* (switch_val, s) := eval_opt exprtk_eval value s in
      if negb (is_flow FLOW_NORMAL s) then Done zero s else
      switch_loop exprtk_eval switch_val default_case cases s
  | NODE_THROW value =>
      let* (thrown, s) := eval_opt exprtk_eval value s in
      Done thrown (set_error_value thrown (set_flow FLOW_THROW s))
  | NODE_TRY_CATCH try_body catch_var catch_body =>
      let* (r, s) := eval_opt exprtk_eval try_body s in
      if is_flow FLOW_THROW s then
        let s := set_flow FLOW_NORMAL s in
        let* (r, child) := eval_opt exprtk_eval catch_body (catch_state catch_var s) in
        Done r (leave_catch child s)
      else Done r s
  | NODE_SPREAD child => eval_opt exprtk_eval child s
  | NODE_VECTOR elements =>
      let* (vals, s) := eval_expand_args exprtk_eval elements s in Done (vector_value vals) s
  | NODE_INDEX array index =>
      let* (arr, s) := eval_opt exprtk_eval array s in
      let* (idx_val, s) := eval_opt exprtk_eval index s in
      index_value line column arr idx_val s
  | NODE_SLICE array start stop =>
      let* (arr, s) := eval_opt exprtk_eval array s in
      let* (start_val, s) := eval_opt exprtk_eval start s in
      let* (end_val, s) := eval_opt exprtk_eval stop s in
      slice_value line column arr start_val end_val s
  | NODE_FOR_IN var_name collection body =>
      let* (collection, s) := eval_opt exprtk_eval collection s in
      if negb (is_flow FLOW_NORMAL s) || aborted s then Done zero s else
      for_in_loop var_name (eval_opt exprtk_eval body) (iterated collection) zero s
  | NODE_DESTRUCTURING_ASSIGNMENT targets value is_constant =>
      let* (rhs, s) := eval_opt exprtk_eval value s in
      Done rhs match targets with
               | Some t => set_scopes (eval_destructure is_constant t rhs (scopes s)) s
               | None => s
               end
  | NODE_FUNCTION_DEFINITION name arg_params body =>
      Done zero match name with
                | Some x => set_tables (define_func x (Script arg_params body) (tables s)) s
                | None => s
                end
  | NODE_FUNCTION_EXPRESSION _ arg_params body =>
      Done (function_value arg_params body (scopes s)) s
  | NODE_FUNCTION_CALL name args =>
      match name with
      | Some x =>
          let callee := exprtk_env_get zero (scopes s) x in
          let* (args, s) := eval_expand_args exprtk_eval args s in
          call_callee deeper callee x args s
      | None => Done zero s
      end
  | _ => NotModelled
  end.
End level.

(** The evaluator with [depth] levels of recursion left. *)
Fixpoint eval_depth (depth : nat) : node -> state M -> result M value :=
  exprtk_eval match depth with O => fun _ _ => Interrupted | S depth => eval_depth depth end.

(** [exprtk_eval] in an environment: as deep as its recursion limit allows. *)
Definition eval_script (n : node) (s : state M) : result M value :=
  eval_depth (Z.to_nat (max_recursion s - curr_recursion s)) n s.

End interp.
