(* ===== verification/InterpProofs.v ===== *)
(** What programs compute: integer expressions have their mathematical value, and the
    behaviour of [continue] and of failing assignments. *)

From S2P Require Import Prelude Float64 Ast Env HostLimits Meter Value SortSearch Registry State Calls Interp.
Open Scope Z_scope.

Section proofs.
Context {M : Type} {HM : Meter M} {ML : MeterLaws M} (pow : f64 -> f64 -> f64) (format_g : f64 -> string).
Context {N : Natives M} {Q : QSort} {B : BSearch} (deeper : node -> state M -> result M value).

(** ** Integer expressions *)

(** The value of an expression over integers: [None] when an intermediate result
    is not a 64-bit integer, or a quotient is not exact. *)
Definition in64 (z : Z) : option Z :=
  if (INT64_MIN <=? z) && (z <=? INT64_MAX) then Some z else None.

Definition b2z (b : bool) : Z := if b then 1 else 0.

Definition arith (op : token) (l r : Z) : option Z :=
  match op with
  | TOKEN_PLUS => in64 (l + r)
  | TOKEN_MINUS => in64 (l - r)
  | TOKEN_MULTIPLY => in64 (l * r)
  | TOKEN_DIVIDE => if (r =? 0) || (r =? -1) then None else if r * (l / r) =? l then Some (l / r) else None
  | TOKEN_MOD => if r <=? 0 then None else if l <? 0 then None else Some (l mod r)
  | TOKEN_EQ => Some (b2z (l =? r))
  | TOKEN_NE => Some (b2z (negb (l =? r)))
  | TOKEN_LT => Some (b2z (l <? r))
  | TOKEN_LE => Some (b2z (l <=? r))
  | TOKEN_GT => Some (b2z (r <? l))
  | TOKEN_GE => Some (b2z (r <=? l))
  | TOKEN_AND => Some (b2z (negb (l =? 0) && negb (r =? 0)))
  | TOKEN_OR => Some (b2z (negb (l =? 0) || negb (r =? 0)))
  | _ => None
  end.

Fixpoint denote (rho : string -> option Z) (n : node) : option Z :=
  let 'Node _ _ d := n in
  match d with
  | NODE_INTEGER i => Some i
  | NODE_VARIABLE x => rho x
  | NODE_BINARY_OP op (Some a) (Some b) =>
      l ← denote rho a; r ← denote rho b; arith op l r
  | _ => None
  end.

Lemma arith_eval op l r z :
  arith op l r = Some z -> eval_binary pow format_g op (VInteger l) (VInteger r) = OpValue (VInteger z).
Proof.
  intros H. apply eval_binary_int.
  destruct op; simpl in *; unfold in64, int_result, int_of_bool, b2z in *;
    try (by destruct (_ && _); simplify_eq/=); try (by simplify_eq/=).
  - destruct (Z.eqb_spec r 0); [done|]. destruct (Z.eqb_spec r (-1)); [done|]. simpl in *.
    destruct (Z.eqb_spec (r * (l / r)) l) as [E|]; [|done]. simplify_eq.
    rewrite andb_false_r.
    assert (Z.rem l r = 0) as -> by (apply Z.rem_divide; [done|]; exists (l / r); lia).
    simpl. do 3 f_equal. rewrite <- E at 1. rewrite Z.mul_comm. by apply Z.quot_mul.
  - destruct (Z.leb_spec r 0); [done|]. destruct (Z.ltb_spec l 0); [done|]. simplify_eq.
    destruct (Z.eqb_spec r 0); [lia|]. destruct (Z.eqb_spec r (-1)); [lia|]. rewrite andb_false_r.
    do 3 f_equal. apply Z.rem_mod_nonneg; lia.
Qed.

Lemma enter_ok line column (s : state M) ok s' :
  enter line column s = (ok, s') ->
  scopes s' = scopes s /\ flow s' = flow s /\ aborted s' = (if ok then aborted s else true).
Proof.
  unfold enter. destruct (meter_step _) as [[] m]; intros [= <- <-]; by destruct (0 <? line).
Qed.

(** An operator applied when the evaluation of an operand was aborted. *)
Lemma apply_op_number line column op l r (s : state M) :
  (is_numeric l = true) -> (is_numeric r = true) ->
  (forall i j, ~ (l = VInteger i /\ r = VInteger j)) ->
  exists x s', apply_op line column (eval_binary pow format_g op l r) s = Done (VNumber x) s' /\
    scopes s' = scopes s /\ aborted s' = aborted s.
Proof.
  intros Hl Hr Hn. pose proof (eval_binary_number pow format_g op l r Hl Hr Hn) as H.
  destruct (eval_binary _ _ _ _ _) as [v|m|]; simpl; [destruct H as [x ->]; eauto|unfold zero; eauto|done].
Qed.

Lemma eval_aborted n (s : state M) :
  aborted s = true -> exprtk_eval pow format_g deeper n s = Done zero s.
Proof. intros H. destruct n. cbn [exprtk_eval]. by rewrite H. Qed.

Lemma eval_denote rho n : forall z (s : state M),
  denote rho n = Some z ->
  (forall x i, rho x = Some i -> exprtk_env_get zero (scopes s) x = VInteger i) ->
  flow s = FLOW_NORMAL -> aborted s = false ->
  exists v s', exprtk_eval pow format_g deeper n s = Done v s' /\ scopes s' = scopes s /\
    ((aborted s' = true /\ exists x, v = VNumber x) \/
     (aborted s' = false /\ flow s' = FLOW_NORMAL /\ v = VInteger z)).
Proof.
  induction n as [line column d IH] using node_children_ind. intros z s Hd Hrho Hf Ha.
  cbn [exprtk_eval]. rewrite Ha.
  destruct (enter line column s) as [ok s1] eqn:E. apply enter_ok in E as (E1 & E2 & E3).
  rewrite Hf in E2. rewrite Ha in E3.
  destruct ok; cbn [negb]; [|eexists _, _; split_and!; [done..|left; split; [congruence|by eexists]]].
  destruct d; try discriminate Hd; cbn [denote] in Hd.
  - (* literal *) eexists _, _. split_and!; [done..|right]. by simplify_eq.
  - (* variable *) eexists _, _. split_and!; [done..|right]. rewrite E1. auto.
  - (* operator *) destruct left as [a|], right as [b|]; try discriminate Hd.
    destruct (denote rho a) as [l|] eqn:Da; [|discriminate Hd].
    destruct (denote rho b) as [r|] eqn:Db; [|discriminate Hd]. simpl in Hd.
    cbn [children opt app] in IH. inversion IH as [|? ? IHa IHb']; subst. inversion IHb' as [|? ? IHb _]; subst.
    cbn [eval_opt]. rewrite bool_decide_eq_true_2 by eauto. cbn [andb].
    destruct (IHa l s1 Da) as (va & s2 & -> & Hs2 & Hca); [by rewrite E1|done..|]. cbn [bind].
    destruct Hca as [[Ha2 [x ->]]|(Ha2 & Hf2 & ->)].
    + destruct (negb _).
      { eexists _, _. split_and!; [done|congruence|left; split; [congruence|by eexists]]. }
      rewrite eval_aborted by done. cbn [bind]. destruct (negb _).
      { eexists _, _. split_and!; [done|congruence|left; split; [congruence|by eexists]]. }
      destruct (apply_op_number line column op (VNumber x) zero s2) as (y & s3 & -> & Hs3 & Ha3); [done..|by intros ? ? [? ?]|].
      eexists _, _. split_and!; [done|congruence|left; split; [congruence|by eexists]].
    + unfold is_flow. rewrite (bool_decide_eq_true_2 (flow s2 = FLOW_NORMAL)) by done. cbn [negb].
      destruct (IHb r s2 Db) as (vb & s3 & -> & Hs3 & Hcb); [by rewrite Hs2, E1|done..|]. cbn [bind].
      destruct Hcb as [[Ha3 [x ->]]|(Ha3 & Hf3 & ->)].
      * destruct (negb _).
        { eexists _, _. split_and!; [done|congruence|left; split; [congruence|by eexists]]. }
        destruct (apply_op_number line column op (VInteger l) (VNumber x) s3) as (y & s4 & -> & Hs4 & Ha4); [done..|by intros ? ? [? ?]|].
        eexists _, _. split_and!; [done|congruence|left; split; [congruence|by eexists]].
      * rewrite bool_decide_eq_true_2 by done. cbn [negb]. rewrite (arith_eval _ _ _ _ Hd).
        eexists _, _. split_and!; [done|simpl; congruence|by right].
Qed.

(** An integer expression has its mathematical value.  When every intermediate
    result is a 64-bit integer, the interpreter computes the value that the
    expression denotes and changes no variable, unless the step limit aborts it. *)
Theorem eval_integers n rho z (s : state M) :
  denote rho n = Some z ->
  (forall x i, rho x = Some i -> exprtk_env_get zero (scopes s) x = VInteger i) ->
  flow s = FLOW_NORMAL -> aborted s = false ->
  exists v s', exprtk_eval pow format_g deeper n s = Done v s' /\ scopes s' = scopes s /\
    (aborted s' = true \/ flow s' = FLOW_NORMAL /\ v = VInteger z).
Proof.
  intros Hd Hrho Hf Ha. destruct (eval_denote rho n z s Hd Hrho Hf Ha) as (v & s' & E & Hs & H).
  exists v, s'. split_and!; [done..|]. destruct H as [[? _]|(_ & ? & ?)]; auto.
Qed.

(** ** Behaviours that surprise *)

(** [continue] breaks [for] loops.  The post expression is evaluated while
    the flow is still [continue], and an operator answers 0 as soon as its left
    operand was evaluated in such a flow: [x = a op b] then assigns 0 to [x],
    whatever the operands and the operator are. *)
Theorem eval_post_after_continue line column line' column' x op a r (s : state M) v s' :
  flow s = FLOW_CONTINUE ->
  exprtk_eval pow format_g deeper (Node line column (NODE_ASSIGNMENT (Some x)
    (Some (Node line' column' (NODE_BINARY_OP op (Some (Node line' column' (NODE_VARIABLE a))) r)))))
    s = Done v s' ->
  scopes s' = exprtk_env_set (scopes s) x zero \/ aborted s' = true /\ scopes s' = scopes s.
Proof.
  intros Hf H. cbn [exprtk_eval eval_opt] in H.
  destruct (aborted s) eqn:Ha; [simplify_eq; by right|].
  destruct (enter line column s) as [[] s1] eqn:E1; apply enter_ok in E1 as (Es1 & Ef1 & Ea1);
    cbn [negb] in H; [left|simplify_eq; by right].
  rewrite Ea1, Ha in H.
  destruct (enter line' column' s1) as [[] s2] eqn:E2; apply enter_ok in E2 as (Es2 & Ef2 & Ea2);
    cbn [negb bind] in H; [|by simplify_eq/=; congruence].
  rewrite Ea2, Ea1, Ha in H.
  destruct (enter line' column' s2) as [[] s3] eqn:E3; apply enter_ok in E3 as (Es3 & Ef3 & Ea3);
    cbn [negb bind] in H.
  all: rewrite bool_decide_eq_true_2 in H by eauto; unfold is_flow in H;
    rewrite bool_decide_eq_false_2 in H by congruence; simplify_eq/=; congruence.
Qed.

(** An assignment takes place even when its expression fails: when
    dividing an integer literal by the literal 0 throws, the variable is set to 0. *)
Theorem eval_assign_after_throw line column x i (s : state M) v s' :
  exprtk_eval pow format_g deeper (Node line column (NODE_ASSIGNMENT (Some x)
    (Some (Node line column (NODE_BINARY_OP TOKEN_DIVIDE
      (Some (Node line column (NODE_INTEGER i))) (Some (Node line column (NODE_INTEGER 0))))))))
    s = Done v s' ->
  flow s = FLOW_NORMAL -> aborted s' = false ->
  flow s' = FLOW_THROW /\ error_value s' = VString "Division by zero" /\
  scopes s' = exprtk_env_set (scopes s) x zero.
Proof.
  intros H Hf Ha'. cbn [exprtk_eval eval_opt] in H.
  destruct (aborted s) eqn:Ha; [simplify_eq; congruence|].
  destruct (enter line column s) as [[] s1] eqn:E1; apply enter_ok in E1 as (Es1 & Ef1 & Ea1);
    cbn [negb] in H; [|simplify_eq; congruence].
  rewrite Ea1, Ha in H.
  destruct (enter line column s1) as [[] s2] eqn:E2; apply enter_ok in E2 as (Es2 & Ef2 & Ea2);
    cbn [negb bind] in H; [|simplify_eq/=; congruence].
  rewrite Ea2, Ea1, Ha in H.
  destruct (enter line column s2) as [[] s3] eqn:E3; apply enter_ok in E3 as (Es3 & Ef3 & Ea3);
    cbn [negb bind] in H; rewrite bool_decide_eq_true_2 in H by eauto; unfold is_flow in H;
    rewrite bool_decide_eq_true_2 in H by congruence; cbn [negb andb] in H;
    rewrite Ea3 in H; [rewrite Ea2, Ea1, Ha in H|].
  - destruct (enter line column s3) as [[] s4] eqn:E4; apply enter_ok in E4 as (Es4 & Ef4 & Ea4);
      cbn [negb bind] in H; rewrite bool_decide_eq_true_2 in H by congruence; cbn [negb] in H.
    + cbn in H. simplify_eq/=. split_and!; congruence.
    + exfalso. unfold apply_op, throw, throw_error in H. destruct (eval_binary _ _ _ _ _); simplify_eq/=; congruence.
  - exfalso. cbn [bind] in H. rewrite bool_decide_eq_true_2 in H by congruence. cbn [negb] in H.
    unfold apply_op, throw, throw_error in H. destruct (eval_binary _ _ _ _ _); simplify_eq/=; congruence.
Qed.

(** The interpreter has no logical negation: applied to any operand that it
    evaluates normally, [!] throws a type error. *)
Theorem eval_not_throws line column b (s : state M) v s' :
  exprtk_eval pow format_g deeper (Node line column (NODE_BINARY_OP TOKEN_NOT None (Some b))) s = Done v s' ->
  aborted s' = true \/ flow s' <> FLOW_NORMAL.
Proof.
  intros H. cbn [exprtk_eval eval_opt] in H.
  destruct (aborted s) eqn:Ha; [simplify_eq; by left|].
  destruct (enter line column s) as [[] s1] eqn:E1; apply enter_ok in E1 as (Es1 & Ef1 & Ea1);
    cbn [negb] in H; [|simplify_eq; by left].
  cbn [bind] in H. rewrite bool_decide_eq_false_2 in H by (intros [? ?]; done). cbn [andb] in H.
  destruct (exprtk_eval pow format_g deeper b s1) as [vb s2| | |]; cbn [bind] in H; try done.
  unfold is_flow in H. case_bool_decide as Hf; cbn [negb] in H; [|simplify_eq; by right].
  rewrite eval_binary_not in H. unfold type_error, apply_op, throw, throw_error in H. simplify_eq/=. by right.
Qed.

(** [&&] and [||] evaluate both operands: an assignment on the right of a
    false conjunct or a true disjunct takes place. *)
Theorem eval_logic_not_short_circuit line column op b x i (s : state M) v s' :
  op = TOKEN_AND \/ op = TOKEN_OR ->
  exprtk_eval pow format_g deeper (Node line column (NODE_BINARY_OP op
    (Some (Node line column (NODE_NUMBER b)))
    (Some (Node line column (NODE_ASSIGNMENT (Some x)
             (Some (Node line column (NODE_INTEGER i)))))))) s = Done v s' ->
  flow s = FLOW_NORMAL -> aborted s' = false ->
  scopes s' = exprtk_env_set (scopes s) x (VInteger i).
Proof.
  intros Hop H Hf Ha'. cbn [exprtk_eval eval_opt] in H.
  assert (forall l r (s1 : state M), apply_op line column (eval_binary pow format_g op l r) s1 = Done v s' ->
    scopes s' = scopes s1 /\ aborted s' = aborted s1) as Happ.
  { intros l r s1. unfold apply_op, throw, throw_error. destruct (eval_binary _ _ _ _ _); intros ?; by simplify_eq/=. }
  destruct (aborted s) eqn:Ha; [simplify_eq; congruence|].
  destruct (enter line column s) as [[] s1] eqn:E1; apply enter_ok in E1 as (Es1 & Ef1 & Ea1);
    cbn [negb] in H; [|simplify_eq; congruence].
  rewrite Ea1, Ha in H.
  destruct (enter line column s1) as [[] s2] eqn:E2; apply enter_ok in E2 as (Es2 & Ef2 & Ea2);
    cbn [negb bind] in H; rewrite bool_decide_eq_true_2 in H by eauto; unfold is_flow in H;
    rewrite bool_decide_eq_true_2 in H by congruence; cbn [negb andb] in H;
    rewrite Ea2 in H; [rewrite Ea1, Ha in H|].
  2:{ cbn [bind] in H. rewrite bool_decide_eq_true_2 in H by congruence. apply Happ in H as []. congruence. }
  destruct (enter line column s2) as [[] s3] eqn:E3; apply enter_ok in E3 as (Es3 & Ef3 & Ea3);
    cbn [negb bind] in H; [rewrite Ea3, Ea2, Ea1, Ha in H|].
  2:{ rewrite bool_decide_eq_true_2 in H by congruence. apply Happ in H as []. congruence. }
  destruct (enter line column s3) as [[] s4] eqn:E4; apply enter_ok in E4 as (Es4 & Ef4 & Ea4);
    cbn [negb bind] in H.
  - rewrite bool_decide_eq_true_2 in H by (simpl; congruence). apply Happ in H as [-> _]. simpl. congruence.
  - rewrite bool_decide_eq_true_2 in H by (simpl; congruence). apply Happ in H as [_ H]. simpl in H. congruence.
Qed.

End proofs.

(** ** Programs *)

Definition demo_pow (x y : f64) : f64 := x.
Definition demo_format (x : f64) : string := "?".

(** Two native functions: the value and the number of the arguments. *)
#[export] Instance demo_natives {M} : Natives M := {|
  run_native fn args s :=
    Done (if fn =? 1 then hd zero args else VInteger (Z.of_nat (length args))) s;
  g_registry := [Entry "count" 2; Entry "first" 1];
  frame_bytes argc := 1000 + 32 * Z.of_nat argc
|}.

Definition demo_deeper : node -> state counters -> result counters value :=
  eval_depth demo_pow demo_format 20.

Definition run_demo (n : node) (s : state counters) : result counters value :=
  exprtk_eval demo_pow demo_format demo_deeper n s.

Definition at1 (d : node_data) : node := Node 1 1 d.
Definition var (x : string) : node := at1 (NODE_VARIABLE x).
Definition int (i : Z) : node := at1 (NODE_INTEGER i).
Definition set (x : string) (e : node) : node := at1 (NODE_ASSIGNMENT (Some x) (Some e)).
Definition binary (op : token) (a b : node) : node := at1 (NODE_BINARY_OP op (Some a) (Some b)).
Definition block (l : list node) : node := at1 (NODE_BLOCK l).

Definition limits (nodes turns : Z) : counters := Counters nodes 0 turns 0.
Definition start (l : counters) : state counters :=
  State [∅] FLOW_NORMAL zero zero false l 0 0 "" 0 0 [Table [] []] 100 0.

(** [(7 - 2) * x <= 10], where [x] is 2. *)
Definition demo_expr : node :=
  binary TOKEN_LE (binary TOKEN_MULTIPLY (binary TOKEN_MINUS (int 7) (int 2)) (var "x")) (int 10).

Definition demo_x : state counters :=
  State [ {[ "x" := VarEntry (VInteger 2) false false ]} ] FLOW_NORMAL zero zero false
    default_counters 0 0 "" 0 0 [Table [] []] 100 0.

Definition demo_rho (x : string) : option Z := if decide (x = "x") then Some 2 else None.

Lemma eval_integers_witness :
  denote demo_rho demo_expr = Some 1 /\
  exists v s', run_demo demo_expr demo_x = Done v s' /\ scopes s' = scopes demo_x /\
    (aborted s' = true \/ flow s' = FLOW_NORMAL /\ v = VInteger 1).
Proof.
  split; [reflexivity|].
  apply (eval_integers demo_pow demo_format demo_deeper demo_expr demo_rho 1 demo_x); [reflexivity| |reflexivity..].
  intros x i. unfold demo_rho. case_decide; [|done]. subst. intros [= <-]. reflexivity.
Defined.

(** [for (i = 0; i < 5; i += 1) { if (i == 3) continue; }] starts again from 0 after 3
    and runs into the step limit; without the [continue] it ends with [i] at 5. *)
Definition count_to_5 (body : list node) : node :=
  at1 (NODE_FOR (Some (set "i" (int 0))) (Some (binary TOKEN_LT (var "i") (int 5)))
         (Some (set "i" (binary TOKEN_PLUS (var "i") (int 1)))) (Some (block body))).

Definition skip_3 : node :=
  at1 (NODE_IF (Some (binary TOKEN_EQ (var "i") (int 3)))
         (Some (at1 (NODE_FLOW TOKEN_CONTINUE None))) None).

Definition outcome (r : result counters value) : option (bool * value) :=
  match r with
  | Done _ s => Some (aborted s, exprtk_env_get zero (scopes s) "i")
  | _ => None
  end.

Example for_without_continue :
  outcome (run_demo (count_to_5 []) (start (limits 1000 200))) = Some (false, VInteger 5).
Proof. vm_compute. reflexivity. Qed.

Example for_with_continue :
  outcome (run_demo (count_to_5 [skip_3]) (start (limits 1000 200)))
    = Some (true, VNumber (f64_of_Z 3)).
Proof. vm_compute. reflexivity. Qed.

Lemma eval_post_after_continue_witness :
  let s := set_flow FLOW_CONTINUE demo_x in
  exists v s', run_demo (set "x" (binary TOKEN_PLUS (var "x") (int 1))) s = Done v s' /\
    (scopes s' = exprtk_env_set (scopes s) "x" zero \/ aborted s' = true /\ scopes s' = scopes s).
Proof.
  cbv zeta. eexists _, _. split; [vm_compute; reflexivity|].
  eapply (eval_post_after_continue demo_pow demo_format demo_deeper 1 1 1 1 "x" TOKEN_PLUS "x" (Some (int 1))
            (set_flow FLOW_CONTINUE demo_x)); [reflexivity|vm_compute; reflexivity].
Defined.

Lemma eval_assign_after_throw_witness :
  exists v s', run_demo (set "x" (binary TOKEN_DIVIDE (int 6) (int 0))) demo_x = Done v s' /\
    flow s' = FLOW_THROW /\ error_value s' = VString "Division by zero" /\
    scopes s' = exprtk_env_set (scopes demo_x) "x" zero.
Proof.
  eexists _, _. split; [vm_compute; reflexivity|].
  eapply (eval_assign_after_throw demo_pow demo_format demo_deeper 1 1 "x" 6 demo_x);
    [vm_compute; reflexivity|reflexivity..].
Defined.

Lemma eval_not_throws_witness :
  exists v s', run_demo (at1 (NODE_BINARY_OP TOKEN_NOT None (Some (var "x")))) demo_x = Done v s' /\
    (aborted s' = true \/ flow s' <> FLOW_NORMAL).
Proof.
  eexists _, _. split; [vm_compute; reflexivity|].
  eapply (eval_not_throws demo_pow demo_format demo_deeper 1 1 (var "x") demo_x). vm_compute. reflexivity.
Defined.

Lemma eval_logic_not_short_circuit_witness :
  exists v s', run_demo (binary TOKEN_AND (at1 (NODE_NUMBER f64_zero)) (set "x" (int 9))) demo_x = Done v s' /\
    scopes s' = exprtk_env_set (scopes demo_x) "x" (VInteger 9).
Proof.
  eexists _, _. split; [vm_compute; reflexivity|].
  eapply (eval_logic_not_short_circuit demo_pow demo_format demo_deeper 1 1 TOKEN_AND f64_zero "x" 9 demo_x);
    [by left|vm_compute; reflexivity|reflexivity..].
Defined.
