(* ===== verification/Termination.v ===== *)
(** Every evaluation ends: loops by the turns that the meter grants, calls by the recursion limit, and the
    two counters of an environment do not start again before that. *)

From S2P Require Import Prelude Float64 Ast Env HostLimits Meter Value SortSearch Registry State Calls Interp InterpProofs.
Open Scope Z_scope.

Section proofs.
Context {M : Type} {HM : Meter M} {ML : MeterLaws M} (pow : f64 -> f64 -> f64) (format_g : f64 -> string).
Context {N : Natives M} {Q : QSort} {B : BSearch}.

(** ** Termination

    Two counters can wrap around, each after as many refusals as it has room.  A step that is refused
    aborts its environment, and a turn that is refused its loop; what lets an evaluation go on after
    that is a call or a [catch] block, whose environments start afresh, or another loop.  Each of them is
    a node, for which a step was granted.  So the refusals that are still possible are bounded
    by the steps that are left: [fit k s] says so, with [k] to spare. *)
Definition fit (k : Z) (s : state M) : Prop :=
  meter_ok (meter s) /\
  meter_steps (meter s) + (if aborted s then 0 else 1) + k <= step_reserve (meter s) /\
  meter_steps (meter s) + k <= tick_reserve (meter s).

(** An evaluation went from [s] to [s']. *)
Definition went (k : Z) (s s' : state M) : Prop :=
  fit k s' /\ (ticks_left (meter s') <= ticks_left (meter s))%nat /\
  max_recursion s' = max_recursion s /\ curr_recursion s' = curr_recursion s.

Definition ends {A} (k : Z) (s : state M) (r : result M A) : Prop :=
  match r with
  | Done _ s' => went k s s'
  | Undefined | NotModelled => True
  | Interrupted => False
  end.

(** What [fit] and [went] look at. *)
Definition core (s : state M) : M * bool * Z * Z :=
  (meter s, aborted s, max_recursion s, curr_recursion s).

Lemma went_refl k s : fit k s -> went k s s.
Proof. by unfold went. Qed.

Lemma went_trans k s1 s2 s3 : went k s1 s2 -> went k s2 s3 -> went k s1 s3.
Proof. unfold went. intros (? & ? & ? & ?) (? & ? & ? & ?). split_and!; [done|lia|congruence..]. Qed.

Lemma went_weaken k k' s s' : went k s s' -> k' <= k -> went k' s s'.
Proof. unfold went, fit. intros ((? & ? & ?) & ? & ? & ?) ?. split_and!; (done || lia). Qed.

Lemma fit_weaken k k' s : fit k s -> k' <= k -> fit k' s.
Proof. unfold fit. intros (? & ? & ?) ?. split_and!; (done || lia). Qed.

Lemma core_fit k s s' : core s' = core s -> fit k s -> fit k s'.
Proof. unfold core, fit. intros [= -> -> _ _]. done. Qed.

Lemma core_went k s s1 s2 : core s2 = core s1 -> went k s s1 -> went k s s2.
Proof. unfold core, went, fit. intros [= -> -> -> ->]. done. Qed.

Lemma went_from_core k s s1 s2 : core s2 = core s -> went k s s1 -> went k s2 s1.
Proof. unfold core, went. intros [= -> _ -> ->]. done. Qed.

Lemma ends_done {A} k (a : A) s s' : went k s s' -> ends k s (Done a s').
Proof. done. Qed.

Lemma ends_here {A} k (a : A) s s' : fit k s -> core s' = core s -> ends k s (Done a s').
Proof. intros Hf Hc. apply ends_done, (core_went _ _ s); [done|]. by apply went_refl. Qed.

Lemma ends_from {A} k s s1 (r : result M A) : went k s s1 -> ends k s1 r -> ends k s r.
Proof. destruct r; simpl; eauto using went_trans. Qed.

Lemma ends_weaken {A} k k' s (r : result M A) : ends k s r -> k' <= k -> ends k' s r.
Proof. destruct r; simpl; eauto using went_weaken. Qed.

Lemma ends_bind {A C} k s (r : result M A) (f : A -> state M -> result M C) :
  ends k s r -> (forall a s1, went k s s1 -> ends k s1 (f a s1)) -> ends k s (bind r f).
Proof. destruct r as [a s1| | |]; simpl; [|done..]. intros H Hf. eapply ends_from; eauto. Qed.

(** The same when what follows may use up one to spare. *)
Lemma ends_bind_spare {A C} k s (r : result M A) (f : A -> state M -> result M C) :
  ends (k + 1) s r -> (forall a s1, went (k + 1) s s1 -> ends k s1 (f a s1)) -> ends k s (bind r f).
Proof.
  destruct r as [a s1| | |]; simpl; [|done..]. intros H Hf.
  eapply ends_from; [|eauto]. eapply went_weaken; [exact H|lia].
Qed.

Lemma tick_spec k s ok s' :
  0 <= k -> fit (k + 1) s -> eval_loop_tick s = (ok, s') ->
  if ok then went (k + 1) s s' /\ (ticks_left (meter s') < ticks_left (meter s))%nat else went k s s'.
Proof.
  unfold fit, eval_loop_tick. intros Hk (Hok & Hs & Ht). pose proof (steps_nonneg (meter s)).
  pose proof (reserve_full _ Hok).
  destruct (meter_tick (meter s)) as [[] m] eqn:E; intros [= <- <-].
  - apply granted_tick in E as (? & ? & ? & ? & ?); [|done|lia].
    unfold went, fit. simpl. split_and!; (done || lia).
  - apply refused_tick_law in E as (? & ? & ? & ? & ?); [|done|lia].
    unfold went, fit. simpl. destruct (aborted s); split_and!; (done || lia).
Qed.

Lemma enter_spec k line column s ok s' :
  0 <= k -> fit k s -> aborted s = false -> enter line column s = (ok, s') ->
  if ok then went (k + 1) s s' else went k s s'.
Proof.
  unfold fit, enter. intros Hk (Hok & Hs & Ht) Ha. rewrite Ha in Hs.
  pose proof (steps_nonneg (meter s)).
  set (s1 := if 0 <? line then _ else _).
  assert (core s1 = core s) as Hc by (unfold s1; by destruct (0 <? line)).
  injection Hc as Hm Hab Hmr Hcr. clearbody s1. rewrite Hm.
  destruct (meter_step (meter s)) as [[] m] eqn:E; intros [= <- <-].
  - apply granted_step in E as (? & ? & ? & ? & ?); [|done|lia].
    unfold went, fit. simpl. rewrite Hab, Ha. split_and!; (done || lia).
  - apply refused_step_law in E as (? & ? & ? & ? & ?); [|done|lia].
    unfold went, fit. simpl. split_and!; (done || lia).
Qed.

(** Levels of recursion left. *)
Definition level (s : state M) : nat := Z.to_nat (max_recursion s - curr_recursion s).

Definition counted (s : state M) : Prop :=
  0 <= curr_recursion s /\ curr_recursion s <= max_recursion s < UINT32_MAX.

Lemma went_level k s s' : went k s s' ->
  level s' = level s /\ (counted s -> counted s') /\ (ticks_left (meter s') <= ticks_left (meter s))%nat.
Proof. unfold went, level, counted. intros (_ & ? & -> & ->). done. Qed.

(** An evaluation that ends from every state with at most [d] levels left. *)
Definition terminates {A} (d : nat) (e : state M -> result M A) : Prop :=
  forall k s, 0 <= k -> fit k s -> counted s -> (level s <= d)%nat -> ends k s (e s).

(** Native functions are to end, too. *)
Definition natives_end : Prop := forall d fn args, terminates d (run_native fn args).

Section level.
Context (d : nat) (deeper : node -> state M -> result M value).
Context (Hnative : natives_end).
Context (Hdeeper : forall k n s, 0 <= k -> fit k s -> counted s -> (S (level s) <= d)%nat ->
  ends k s (deeper n s)).

(** *** Loops *)

Lemma core_level s s' : core s' = core s -> level s' = level s /\ (counted s -> counted s') /\
  ticks_left (meter s') = ticks_left (meter s) /\ (forall k, fit k s -> fit k s').
Proof.
  intros Hc. split_and!; [| | |intros k; by apply core_fit];
    revert Hc; unfold core, level, counted; intros [= Hm _ Hx Hr]; by rewrite ?Hm, ?Hx, ?Hr.
Qed.

(** The states at hand are fit and as deep as those that they came from. *)
Ltac levels :=
  repeat match goal with
  | H : core ?s' = core ?s, _ : fit ?k ?s |- _ =>
      lazymatch goal with
      | _ : fit k s' |- _ => fail
      | _ => pose proof (core_fit k s s' H ltac:(assumption)); destruct (core_level _ _ H) as (? & ? & ? & _)
      end
  | H : went ?k ?s ?s' |- _ =>
      lazymatch goal with
      | _ : fit k s' |- _ => fail
      | _ => pose proof (proj1 H); destruct (went_level _ _ _ H) as (? & ? & ?)
      end
  end.

Ltac premises := levels; first [assumption | lia | (eapply fit_weaken; [eassumption|lia]) | solve [eauto; lia] | solve [eauto]].

(** Run [e], which terminates by [H], in front of the rest. *)
Ltac part H :=
  apply ends_bind; [apply H; premises|];
  let v := fresh "v" in let s := fresh "s" in let W := fresh "W" in intros v s W.

Ltac part_spare H :=
  apply ends_bind_spare; [apply H; premises|];
  let v := fresh "v" in let s := fresh "s" in let W := fresh "W" in intros v s W.

Ltac stop := apply ends_here; [premises|done].

Lemma ends_core {A} k s s' (r : result M A) : core s' = core s -> ends k s' r -> ends k s r.
Proof. intros Hc. destruct r; simpl; try done. by apply went_from_core. Qed.

Lemma while_ends condition body n :
  terminates d condition -> terminates d body ->
  forall k last_val s, 0 <= k -> fit (k + 1) s -> counted s -> (level s <= d)%nat ->
  (ticks_left (meter s) < n)%nat -> ends k s (while_loop n condition body last_val s).
Proof.
  intros Hc Hb. induction n as [|n IH]; intros k last_val s Hk Hf Hn Hl Ht; [lia|]. cbn [while_loop].
  destruct (_ && _); [stop|].
  set (s1 := if is_flow FLOW_CONTINUE s then set_flow FLOW_NORMAL s else s).
  assert (core s1 = core s) as Hc1 by (unfold s1; by destruct (is_flow FLOW_CONTINUE s)).
  apply (ends_core _ _ _ _ Hc1). clearbody s1. levels. part_spare Hc.
  destruct (_ || _); [stop|]. destruct (negb _); [stop|].
  destruct (eval_loop_tick s0) as [ok s2] eqn:E. apply (tick_spec k) in E; [|premises..].
  destruct ok; cbn [negb]; [|done]. destruct E as [W2 Ht2].
  eapply ends_from; [eapply went_weaken; [exact W2|lia]|]. part_spare Hb.
  destruct (is_flow _ _); [stop|]. destruct (is_flow _ _); [stop|].
  apply IH; premises.
Qed.

Lemma do_while_ends condition body n :
  terminates d condition -> terminates d body ->
  forall k s, 0 <= k -> fit (k + 1) s -> counted s -> (level s <= d)%nat ->
  (ticks_left (meter s) < n)%nat -> ends k s (do_while_loop n body condition s).
Proof.
  intros Hc Hb. induction n as [|n IH]; intros k s Hk Hf Hn Hl Ht; [lia|]. cbn [do_while_loop].
  part_spare Hb. destruct (is_flow _ _); [stop|]. destruct (is_flow _ _); [stop|].
  set (s1 := if is_flow FLOW_CONTINUE s0 then set_flow FLOW_NORMAL s0 else s0).
  assert (core s1 = core s0) as Hc1 by (unfold s1; by destruct (is_flow FLOW_CONTINUE s0)).
  apply (ends_core _ _ _ _ Hc1).
  clearbody s1. levels.  part_spare Hc.
  destruct (_ || _); [stop|]. destruct (negb _); [stop|].
  destruct (eval_loop_tick s2) as [ok s3] eqn:E. apply (tick_spec k) in E; [|premises..].
  destruct ok; cbn [negb]; [|done]. destruct E as [W2 Ht2].
  eapply ends_from; [eapply went_weaken; [exact W2|lia]|]. apply IH; premises.
Qed.

Lemma for_turn_ends again post body n :
  (forall e, post = Some e -> terminates d e) -> terminates d body ->
  (forall k last_val s, 0 <= k -> fit (k + 1) s -> counted s -> (level s <= d)%nat ->
   (ticks_left (meter s) < n)%nat -> ends k s (again last_val s)) ->
  forall k last_val s, 0 <= k -> fit (k + 1) s -> counted s -> (level s <= d)%nat ->
  (ticks_left (meter s) < S n)%nat -> ends k s (for_turn again post body last_val s).
Proof.
  intros Hp Hb IH k last_val s Hk Hf Hn Hl Ht. unfold for_turn.
  destruct (eval_loop_tick s) as [ok s2] eqn:E. apply (tick_spec k) in E; [|premises..].
  destruct ok; cbn [negb]; [|done]. destruct E as [W2 Ht2].
  eapply ends_from; [eapply went_weaken; [exact W2|lia]|]. part_spare Hb.
  destruct (is_flow _ _); [stop|]. destruct (is_flow _ _); [stop|].
  destruct post as [p|]; [|apply IH; premises].
  pose proof (Hp p eq_refl) as Hp'. part_spare Hp'. destruct (_ && _); [stop|].
  set (s3 := if is_flow FLOW_CONTINUE s1 then set_flow FLOW_NORMAL s1 else s1).
  assert (core s3 = core s1) as Hc1 by (unfold s3; by destruct (is_flow FLOW_CONTINUE s1)).
  apply (ends_core _ _ _ _ Hc1).
  clearbody s3. levels. apply IH; premises.
Qed.

Lemma for_ends condition post body n :
  (forall e, condition = Some e -> terminates d e) -> (forall e, post = Some e -> terminates d e) ->
  terminates d body ->
  forall k last_val s, 0 <= k -> fit (k + 1) s -> counted s -> (level s <= d)%nat ->
  (ticks_left (meter s) < n)%nat -> ends k s (for_loop n condition post body last_val s).
Proof.
  intros Hc Hp Hb. induction n as [|n IH]; intros k last_val s Hk Hf Hn Hl Ht; [lia|].
  cbn [for_loop]. destruct condition as [c|]; [|by apply for_turn_ends with n].
  pose proof (Hc c eq_refl) as Hc'. part_spare Hc'.
  destruct (_ || _); [stop|]. destruct (negb _); [stop|].
  apply for_turn_ends with n; try done; premises.
Qed.

Lemma for_in_ends var_name body :
  terminates d body ->
  forall items k last_val s, 0 <= k -> fit (k + 1) s -> counted s -> (level s <= d)%nat ->
  ends k s (for_in_loop var_name body items last_val s).
Proof.
  intros Hb. induction items as [|v items IH]; intros k last_val s Hk Hf Hn Hl; cbn [for_in_loop]; [stop|].
  destruct (eval_loop_tick s) as [ok s2] eqn:E. apply (tick_spec k) in E; [|premises..].
  destruct ok; cbn [negb]; [|done]. destruct E as [W2 Ht2].
  eapply ends_from; [eapply went_weaken; [exact W2|lia]|].
  apply (ends_core _ _ (assign exprtk_env_set (Some var_name) v s2)); [done|].
  assert (core (assign exprtk_env_set (Some var_name) v s2) = core s2) as Hc1 by done.
 
  set (s3 := assign _ _ _ _) in *. clearbody s3.
  part_spare Hb. destruct (is_flow _ _); [stop|].
  set (s4 := if is_flow FLOW_CONTINUE s0 then set_flow FLOW_NORMAL s0 else s0).
  assert (core s4 = core s0) as Hc2 by (unfold s4; by destruct (is_flow FLOW_CONTINUE s0)).
  apply (ends_core _ _ _ _ Hc2).
   clearbody s4. levels. destruct (is_flow _ _); [stop|]. apply IH; premises.
Qed.

(** *** Statements *)

Lemma terminates_opt (ev : node -> state M -> result M value) o :
  Forall (fun n => terminates d (ev n)) (opt o) -> terminates d (eval_opt ev o).
Proof.
  intros H. destruct o as [n|]; simpl in *; [by inversion H|].
  intros k s _ Hf _ _. by apply ends_here.
Qed.

Lemma block_ends ev l :
  Forall (fun n => terminates d (ev n)) l -> forall last_val, terminates d (block_loop ev l last_val).
Proof.
  induction 1 as [|n l Hn Hl IH]; intros last_val k s Hk Hf Hc Hd; cbn [block_loop]; [stop|].
  part Hn. destruct (negb _); [stop|]. destruct (aborted _); [stop|]. apply IH; premises.
Qed.

Lemma switch_ends ev v default_case l :
  Forall (fun n => terminates d (ev n)) l -> Forall (fun n => terminates d (ev n)) (opt default_case) ->
  terminates d (switch_loop ev v default_case l).
Proof.
  intros Hl Hd. remember (length l) as n eqn:En.
  revert l En Hl. induction n as [n IH] using lt_wf_ind; intros l En Hl k s Hk Hf Hc Hs.
  destruct l as [|c rest]; cbn [switch_loop].
  - by apply terminates_opt.
  - inversion Hl as [|? ? Hc' Hrest]; subst. part Hc'. destruct (negb _); [stop|].
    destruct rest as [|b rest]; [done|]. inversion Hrest as [|? ? Hb Hrest']; subst.
    destruct (case_matches _ _); [apply Hb; premises|].
    eapply IH; [|reflexivity|done|premises..]. simpl. lia.
Qed.

Lemma args_ends ev l :
  Forall (fun n => terminates d (ev n)) l ->
  Forall (fun n => forall c, data n = NODE_SPREAD c -> terminates d (eval_opt ev c)) l ->
  terminates d (eval_expand_args ev l).
Proof.
  intros Hl Hs. induction Hl as [|n l Hn Hl IH]; intros k s Hk Hf Hc Hd; cbn [eval_expand_args]; [stop|].
  inversion Hs as [|? ? Hsn Hs']; subst.
  match goal with |- ends _ _ (bind ?r _) => assert (ends k s r) as Hr end.
  { destruct n as [line column []]; try (part Hn; stop). specialize (Hsn _ eq_refl). part Hsn. stop. }
  eapply ends_bind; [exact Hr|]. intros vals s1 W. destruct (_ || _); [stop|].
  assert (terminates d (eval_expand_args ev l)) as IH' by by apply IH.
  part IH'. stop.
Qed.

(** *** Calls *)

Lemma frame_spec cost k s ok m :
  fit k s -> meter_enter cost (meter s) = (ok, m) \/ meter_leave cost (meter s) = (ok, m) ->
  went k s (set_meter m s) /\ went k s (set_aborted true (set_meter m s)).
Proof.
  intros (Hok & Hs & Ht) Hm. apply frame_law in Hm as (? & ? & ? & ? & ?); [|done].
  unfold went, fit. simpl. destruct (aborted s); split_and!; (done || lia).
Qed.

Lemma bind_in_core closure param val local (s : state M) :
  core (bind_in closure param val local s).2 = core s.
Proof. by destruct closure. Qed.

Lemma default_ends closure param k s :
  0 <= k -> fit k s -> counted s -> (S (level s) <= d)%nat ->
  ends k s (default_value deeper closure param s).
Proof.
  intros Hk Hf Hc Hl. unfold default_value. destruct (data param); try stop.
  match goal with |- context [match ?o with Some _ => _ | None => _ end] => destruct o end; [|stop].
  destruct closure; [done|]. by apply Hdeeper.
Qed.

Lemma bind_params_ends closure params : forall args local k s,
  0 <= k -> fit k s -> counted s -> (S (level s) <= d)%nat ->
  ends k s (bind_params deeper closure params args local s).
Proof.
  induction params as [|p params IH]; intros args local k s Hk Hf Hc Hl; cbn [bind_params]; [stop|].
  apply ends_bind.
  { destruct args; [by apply default_ends|stop]. }
  intros v s1 W. pose proof (bind_in_core closure (eval_param_binding_node p) v local s1) as Hb.
  destruct (bind_in _ _ _ _ _) as [local' s2]. cbn [snd] in Hb.
  apply (ends_core _ _ _ _ Hb). apply core_level in Hb as (? & ? & ? & ?). levels. apply IH; premises.
Qed.

Lemma leave_ends closure bytes res k (s0 child s : state M) :
  0 <= k -> fit k child -> counted s ->
  (ticks_left (meter child) <= ticks_left (meter s0))%nat ->
  max_recursion s = max_recursion s0 -> wrapu 32 (curr_recursion s - 1) = curr_recursion s0 ->
  ends k s0 (leave_function closure bytes res child s).
Proof.
  intros Hk Hf Hc Ht Hmax Hcurr. unfold leave_function.
  set (s1 := match closure with Some _ => s | None => _ end).
  assert (core s1 = core s) as Hs1 by (unfold s1; by destruct closure). clearbody s1.
  injection Hs1 as _ _ Hm1 Hr1.
  set (s2 := set_recursion _ _).
  assert (went k s0 s2) as W2.
  { destruct Hf as (? & ? & ?). unfold went, fit. simpl. rewrite Hm1, Hr1, Hcurr. by split_and!. }
  match goal with |- context [match flow child with FLOW_RETURN => ?a | _ => _ end] =>
    set (r := match flow child with FLOW_RETURN => a | _ => _ end) end.
  assert (core r.2 = core s2) as Hr by (unfold r; by destruct (flow child)).
  apply (core_went k s0) in Hr; [|done]. destruct r as [res' s3]. cbn [snd] in Hr.
  destruct (meter_leave bytes (meter s3)) as [ok m] eqn:E.
  destruct (frame_spec bytes k s3 ok m) as [Wa Wb]; [apply Hr|by right|].
  apply ends_done. eapply went_trans; [exact Hr|]. by destruct ok.
Qed.

Lemma function_ends params body closure args k s :
  0 <= k -> fit (k + 1) s -> counted s -> (level s <= d)%nat ->
  ends k s (eval_script_function deeper params body closure args s).
Proof.
  intros Hk Hf Hc Hl. unfold eval_script_function.
  set (s1 := note_body body s).
  assert (core s1 = core s) as Hs1.
  { unfold s1, note_body. destruct body as [[line column b]|]; [|done]. by destruct (_ && _). }
  apply (ends_core _ _ _ _ Hs1). apply core_level in Hs1 as (Hl1 & Hc1 & _ & Hf1). clearbody s1.
  apply Hf1 in Hf. apply Hc1 in Hc. rewrite <- Hl1 in Hl. clear Hl1 Hc1 Hf1 s.
  set (bytes := frame_bytes _). destruct (meter_enter bytes (meter s1)) as [ok m] eqn:E.
  destruct (frame_spec bytes (k + 1) s1 ok m) as [Wa Wb]; [done|by left|].
  destruct ok; cbn [negb]; [|eapply went_weaken; [exact Wb|lia]].
  set (s2 := set_meter m s1) in *. destruct (max_recursion s2 <? _) eqn:R.
  { destruct (meter_leave bytes m) as [ok m'] eqn:E'.
    destruct (frame_spec bytes (k + 1) s2 ok m') as [_ W']; [apply Wa|by right|].
    eapply ends_from; [eapply went_weaken; [exact Wa|lia]|]. eapply went_weaken; [exact W'|lia]. }
  destruct (went_level _ _ _ Wa) as (Hl2 & Hc2 & Ht2). specialize (Hc2 Hc).
  unfold counted, UINT32_MAX in Hc2. rewrite wrapu_small in R by lia. bool_props.
  set (s3 := set_recursion _ s2). cbv zeta.
  assert (fit (k + 1) s3) as Hf3 by apply Wa.
  assert (curr_recursion s3 = curr_recursion s1 + 1) as Hr3 by (simpl in *; apply wrapu_small; lia).
  assert (max_recursion s3 = max_recursion s1) as Hm3 by done.
  assert (counted s3) as Hc3 by (unfold counted, UINT32_MAX; rewrite Hr3, Hm3; simpl in *; lia).
  assert (S (level s3) <= d)%nat as Hl3 by (unfold level in *; rewrite Hr3, Hm3; simpl in *; lia).
  set (local := match closure with Some _ => _ | None => _ end). clearbody local.
  pose proof (bind_params_ends closure (std_params params) args local (k + 1) s3 ltac:(lia) Hf3 Hc3 Hl3) as Hb.
  destruct (bind_params _ _ _ _ _ _) as [local' s4| | |]; cbn [bind]; [|done..].
  destruct (went_level _ _ _ Hb) as (Hl4 & Hc4 & Ht4). specialize (Hc4 Hc3). destruct Hb as (Hf4 & _ & Hm4 & Hr4).
  assert (core (bind_rest closure params args local' s4).2 = core s4) as Hrest.
  { unfold bind_rest. destruct (rest_param params); [apply bind_in_core|done]. }
  destruct (bind_rest closure params args local' s4) as [local'' s5]. cbn [snd] in Hrest.
  injection Hrest as Em Ea Ex Er.
  set (child := enter_function closure local'' m s5).
  assert (fit k child /\ (ticks_left (meter child) <= ticks_left (meter s1))%nat) as [Hfc Htc].
  { unfold child, enter_function, fit. cbn [meter set_meter aborted set_scopes child_state].
    destruct Wa as ((? & ? & ?) & ? & _). destruct Hf4 as (? & ? & ?). simpl in *.
    destruct has_safe_point; [rewrite Em|].
    - split; [|lia]. destruct (aborted s4); split_and!; (done || lia).
    - split; [|lia]. destruct (aborted s1); split_and!; (done || lia). }
  assert (max_recursion child = max_recursion s1 /\ curr_recursion child = curr_recursion s1 + 1) as [Hmc Hrc].
  { unfold child, enter_function. simpl. split; congruence. }
  assert (ends k child (eval_opt deeper body child)) as Hbody.
  { destruct body as [b|]; [|by apply ends_here]. apply Hdeeper; [done|done| |].
    - unfold counted in *. rewrite Hmc, Hrc. simpl in *. unfold UINT32_MAX in *. lia.
    - unfold level in *. rewrite Hmc, Hrc. rewrite Hr3, Hm3 in Hl3. lia. }
  destruct (eval_opt deeper body child) as [res child'| | |]; cbn [bind]; [|done..].
  destruct Hbody as (Hfc' & Htc' & _ & _).
  assert (went k s1 s1) by (apply went_refl; eapply fit_weaken; [exact Hf|lia]).
  apply leave_ends; [done|done| |lia|congruence|].
  - unfold counted in *. rewrite Ex, Er. exact Hc4.
  - rewrite Er, Hr4, Hr3. replace (curr_recursion s1 + 1 - 1) with (curr_recursion s1) by lia.
    apply wrapu_small. simpl in *. lia.
Qed.

Lemma call_ends callee name args k s :
  0 <= k -> fit (k + 1) s -> counted s -> (level s <= d)%nat ->
  ends k s (call_callee deeper callee name args s).
Proof.
  intros Hk Hf Hc Hl.
  assert (forall fn args, ends k s (run_native fn args s)) as Hn.
  { intros fn args'. apply (Hnative d); try done. eapply fit_weaken; [exact Hf|lia]. }
  assert (forall f, ends k s (exprtk_call_function_value deeper f args s)) as Hv.
  { intros f. unfold exprtk_call_function_value. destruct f; try stop.
    destruct body; [by apply function_ends|stop]. }
  assert (ends k s (exprtk_call_internal deeper name args s)) as Hi.
  { unfold exprtk_call_internal. destruct (lookup_func _ _) as [f|].
    { unfold call_func. destruct (fn_data f); [by apply function_ends|apply Hn]. }
    destruct (exprtk_env_get zero (scopes s) name) as [| | | | | | |? [|] ?]; try apply Hv;
      (destruct (resolve_builtin _ _ _); [apply Hn|stop]). }
  unfold call_callee. destruct callee; try exact Hi. destruct body; [apply Hv|exact Hi].
Qed.

Lemma element_ends {A} line column what (make : A -> value) l idx k s :
  fit k s -> ends k s (element line column what make l idx s).
Proof. intros Hf. unfold element. destruct (_ || _); [stop|]. by destruct (l !! _); [stop|]. Qed.

Lemma index_ends line column arr idx k s : fit k s -> ends k s (index_value line column arr idx s).
Proof.
  intros Hf. unfold index_value. destruct arr; try stop;
    (destruct (index_of idx); [|stop]); first [stop|by apply element_ends].
Qed.

Lemma slice_ends line column arr start stop k s :
  fit k s -> ends k s (slice_value line column arr start stop s).
Proof.
  intros Hf. unfold slice_value. destruct arr; try stop.
  destruct (index_of start); [|stop]. destruct (index_of stop); [|stop]. cbv zeta.
  match goal with |- ends _ _ (if ?b then _ else _) => destruct b end; stop.
Qed.

Lemma catch_fits catch_var k (s : state M) :
  fit (k + 1) s -> fit k (catch_state catch_var s) /\ meter (catch_state catch_var s) = meter s /\
    max_recursion (catch_state catch_var s) = max_recursion s /\
    curr_recursion (catch_state catch_var s) = curr_recursion s.
Proof.
  unfold fit. intros (? & ? & ?).
  destruct (aborted s); destruct catch_var; simpl; split_and!; (done || lia).
Qed.

Definition ends_with_child (n : node) : Prop :=
  terminates d (exprtk_eval pow format_g deeper n) /\
  forall c, data n = NODE_SPREAD c -> terminates d (eval_opt (exprtk_eval pow format_g deeper) c).

Lemma eval_ends n : ends_with_child n.
Proof.
  induction n as [line column nd IH] using node_children_ind.
  assert (forall l, Forall ends_with_child l ->
    Forall (fun n => terminates d (exprtk_eval pow format_g deeper n)) l) as Hall.
  { intros l Hl. eapply Forall_impl; [exact Hl|]. by intros n []. }
  assert (forall o, Forall ends_with_child (opt o) ->
    terminates d (eval_opt (exprtk_eval pow format_g deeper) o)) as Hopt.
  { intros o H. apply terminates_opt, Hall, H. }
  split; [|intros c [= ->]; by apply Hopt].
  intros k s Hk Hf Hc Hl. cbn [exprtk_eval]. destruct (aborted s) eqn:Ha; [stop|].
  destruct (enter line column s) as [ok s1] eqn:E. apply (enter_spec k) in E; [|done..].
  destruct ok; cbn [negb]; [|done]. levels. eapply ends_from; [eapply went_weaken; [exact E|lia]|].
  assert (fit (k + 1) s1 /\ counted s1 /\ (level s1 <= d)%nat) as (Hf1 & Hc1 & Hl1) by (split_and!; premises).
  clear s Hf Hc Hl Ha E H H0 H1 H2.
  destruct nd; cbn [children] in *; try exact I; try stop;
    repeat (apply Forall_app in IH as [? IH]); repeat match goal with
      | H : Forall _ (opt _) |- _ => apply Hopt in H end.
  - (* binary operator *)
    part_spare H. destruct (_ && _); [stop|]. part IH. destruct (negb _); [stop|].
    destruct (eval_binary _ _ _ _ _); [stop|stop|done].
  - (* call *)
    destruct name; [|stop].
    assert (terminates d (eval_expand_args (exprtk_eval pow format_g deeper) args)) as Hargs.
    { apply args_ends; [by apply Hall|]. eapply Forall_impl; [exact IH|]. by intros n []. }
    part_spare Hargs. apply call_ends; premises.
  - (* assignment *) part IH. destruct name; stop.
  - (* if *)
    part_spare H. destruct (negb _); [stop|]. destruct (eval_value_truthy _); [apply H0|apply IH]; premises.
  - (* while *) apply while_ends; try premises; unfold loop_bound; lia.
  - (* for *)
    part_spare H. destruct (_ || _); [stop|]. apply for_ends; try premises; try (unfold loop_bound; lia).
    + intros e. destruct condition; [|done]. intros [= <-]. exact H0.
    + intros e. destruct post; [|done]. intros [= <-]. exact H1.
  - (* spread *) apply IH; premises.
  - (* block *) apply block_ends; [by apply Hall|premises..].
  - (* flow *)
    destruct type; try stop. destruct value as [v|]; [|stop].
    part IH. destruct (_ || _); stop.
  - (* vector *)
    assert (terminates d (eval_expand_args (exprtk_eval pow format_g deeper) elements)) as Hargs.
    { apply args_ends; [by apply Hall|]. eapply Forall_impl; [exact IH|]. by intros n []. }
    part_spare Hargs. stop.
  - (* index *) part_spare H. part_spare IH. apply index_ends. premises.
  - (* slice *) part_spare H. part_spare H0. part_spare IH. apply slice_ends. premises.
  - (* function definition *) destruct name; stop.
  - (* constant *) part IH. destruct name; stop.
  - (* switch *)
    part_spare H. destruct (negb _); [stop|]. apply switch_ends; [by apply Hall| |premises..].
    destruct default_case; constructor; [exact IH|constructor].

  - (* do while *) apply do_while_ends; try premises; unfold loop_bound; lia.
  - (* for in *) part_spare H. destruct (_ || _); [stop|]. apply for_in_ends; premises.
  - (* destructuring *) part_spare IH. destruct targets; stop.
  - (* try *)
    part_spare H. destruct (is_flow _ _); [|stop].
    destruct (catch_fits catch_var k (set_flow FLOW_NORMAL s)) as (Hfc & Hmc & Hxc & Hrc); [exact (proj1 W)|]. levels.
    set (child := catch_state catch_var _) in *.
    assert (counted child /\ (level child <= d)%nat) as [? ?].
    { clearbody child.
      assert (counted s) as Hcs by (levels; eauto). revert Hcs. unfold counted, level in *.
      rewrite Hxc, Hrc. simpl. intros. levels. unfold level in *. split; [done|lia]. }
    assert (ends k child (eval_opt (exprtk_eval pow format_g deeper) catch_body child)) as He
      by (apply IH; premises).
    destruct (eval_opt _ catch_body child) as [v' child'| | |]; cbn [bind]; [|done..].
    destruct He as (Hf' & Ht' & _). rewrite Hmc in Ht'. apply ends_done.
    unfold went, fit, leave_catch. cbn [meter aborted max_recursion curr_recursion].
    cbn [meter set_flow] in Ht'. destruct Hf' as (? & ? & ?). by split_and!.
  - (* throw *) part IH. stop.
Qed.
End level.

Lemma depth_ends n depth : natives_end -> terminates depth (eval_depth pow format_g depth n).
Proof.
  intros Hn. revert n. induction depth as [|depth IH]; intros n; cbn [eval_depth].
  - apply (eval_ends 0 _ Hn). intros. lia.
  - apply (eval_ends (S depth) _ Hn). intros k n' s ? ? ? ?. apply IH; (done || lia).
Qed.

(** C3: Every evaluation ends.  Whatever meter limits it (the counters of the
    environment or the budget of a host call), and whatever the program does (endless
    loops and endless recursion included), [exprtk_eval] answers within the turns that the meter
    grants and within the recursion limit, and leaves the recursion counter as it was, provided
    that the native functions do.  The counters are 32-bit numbers that start again at 0: [fit] is
    the room that they need before that, one refusal per step that is left. *)
Theorem exprtk_eval_terminates n (s : state M) :
  natives_end -> fit 0 s -> counted s ->
  match eval_script pow format_g n s with
  | Done _ s' => fit 0 s' /\ (ticks_left (meter s') <= ticks_left (meter s))%nat /\
      max_recursion s' = max_recursion s /\ curr_recursion s' = curr_recursion s
  | Undefined | NotModelled => True
  | Interrupted => False
  end.
Proof. intros Hn Hf Hc. by apply (depth_ends n _ Hn 0 s). Qed.

End proofs.

(** ** Programs *)

(** [while (1) {}] *)
Definition endless : node := at1 (NODE_WHILE (Some (int 1)) (Some (block []))).

(** [function f() { f(); f(); }  f()]: its calls are made until the step limit is reached, too. *)
Definition call (f : string) (args : list node) : node := at1 (NODE_FUNCTION_CALL (Some f) args).

Definition endless_calls : node :=
  block [at1 (NODE_FUNCTION_DEFINITION (Some "f") [] (Some (block [call "f" []; call "f" []]))); call "f" []].

(** [start] with a recursion limit. *)
Definition start_at (depth : Z) (l : counters) : state counters :=
  State [∅] FLOW_NORMAL zero zero false l 0 0 "" 0 0 [Table [] []] depth 0.

Lemma demo_natives_end : natives_end (M := counters).
Proof. intros d fn args k s Hk Hf Hc Hl. by apply ends_here. Qed.

Definition aborts (r : result counters value) : Prop :=
  match r with Done _ s => aborted s = true | _ => False end.

Lemma exprtk_eval_terminates_witness :
  let program := block [endless_calls; endless] in
  let s := start_at 5 (limits 1000 200) in
  aborts (eval_script demo_pow demo_format program s) /\
  match eval_script demo_pow demo_format program s with
  | Done _ s' => fit 0 s' /\ (ticks_left (meter s') <= ticks_left (meter s))%nat /\
      max_recursion s' = max_recursion s /\ curr_recursion s' = curr_recursion s
  | Undefined | NotModelled => True
  | Interrupted => False
  end.
Proof.
  cbv zeta. split; [vm_compute; reflexivity|].
  apply (exprtk_eval_terminates demo_pow demo_format _ (start_at 5 (limits 1000 200))).
  - exact demo_natives_end.
  - repeat split; done.
  - repeat split; done.
Defined.
