(* ===== verification/Depth.v ===== *)
(** The depth at which the interpreter is cut off does not matter: an evaluation that ends at some depth
    ends in the same way at every greater one.  With [Termination.v] this makes [eval_script] the
    evaluation of the code, whose recursion has no such bound. *)

From S2P Require Import Prelude Float64 Ast Env HostLimits Meter Value SortSearch Registry State Calls Interp InterpProofs Termination.
Open Scope Z_scope.

Section depth.
Context {M : Type} {HM : Meter M} {ML : MeterLaws M} (pow : f64 -> f64 -> f64) (format_g : f64 -> string).
Context {N : Natives M} {Q : QSort} {B : BSearch}.

(** [r'] is [r], unless [r] was cut off. *)
Definition le_result {A} (r r' : result M A) : Prop := r = Interrupted \/ r = r'.

Definition below {A} (e e' : state M -> result M A) : Prop := forall s, le_result (e s) (e' s).

Lemma le_result_refl {A} (r : result M A) : le_result r r.
Proof. by right. Qed.

Lemma le_result_bind {A C} (r r' : result M A) (k k' : A -> state M -> result M C) :
  le_result r r' -> (forall a s, le_result (k a s) (k' a s)) -> le_result (bind r k) (bind r' k').
Proof. intros [->| ->] Hk; [by left|]. destruct r'; simpl; auto using le_result_refl. Qed.

(** Two evaluations that take the same branches. *)
Ltac agree :=
  repeat first
    [ apply le_result_refl
    | assumption
    | match goal with H : below _ _ |- le_result _ _ => apply H end
    | match goal with H : forall _, below _ _ |- le_result _ _ => apply H end
    | apply le_result_bind; [|intros ? ?]
    | match goal with
      | |- le_result (if ?b then _ else _) _ => destruct b
      | |- le_result (let (_, _) := ?e in _) _ => destruct e
      | |- le_result (match ?o with Some _ => _ | None => _ end) _ => destruct o
      end ].

Lemma opt_below ev ev' o :
  Forall (fun n => below (ev n) (ev' n)) (opt o) -> below (eval_opt ev o) (eval_opt ev' o).
Proof. destruct o; simpl; [by inversion 1|]. intros _ s. agree. Qed.

Lemma while_below k c c' b b' :
  below c c' -> below b b' -> forall last, below (while_loop k c b last) (while_loop k c' b' last).
Proof.
  intros Hc Hb. induction k as [|k IH]; intros last s; cbn [while_loop]; cbv zeta; agree.
Qed.

Lemma do_while_below k c c' b b' :
  below c c' -> below b b' -> below (do_while_loop k b c) (do_while_loop k b' c').
Proof. intros Hc Hb. induction k as [|k IH]; intros s; cbn [do_while_loop]; cbv zeta; agree. Qed.

Definition below_opt {A} (o o' : option (state M -> result M A)) : Prop :=
  match o, o' with Some e, Some e' => below e e' | None, None => True | _, _ => False end.

Lemma for_below k c c' p p' b b' :
  below_opt c c' -> below_opt p p' -> below b b' ->
  forall last, below (for_loop k c p b last) (for_loop k c' p' b' last).
Proof.
  intros Hc Hp Hb. induction k as [|k IH]; intros last s; cbn [for_loop]; [agree|].
  assert (forall last, below (for_turn (for_loop k c p b) p b last) (for_turn (for_loop k c' p' b') p' b' last))
    as Ht.
  { clear last s. intros last s. unfold for_turn. destruct p as [p|], p' as [p'|]; simpl in Hp; try done; agree. }
  destruct c as [c|], c' as [c'|]; simpl in Hc; try done; agree.
Qed.

Lemma for_in_below x b b' items : below b b' ->
  forall last, below (for_in_loop x b items last) (for_in_loop x b' items last).
Proof. intros Hb. induction items as [|v items IH]; intros last s; cbn [for_in_loop]; cbv zeta; agree. Qed.

Lemma block_below ev ev' l :
  Forall (fun n => below (ev n) (ev' n)) l ->
  forall last, below (block_loop ev l last) (block_loop ev' l last).
Proof. induction 1 as [|n l Hn Hl IH]; intros last s; cbn [block_loop]; agree. Qed.

Lemma switch_below ev ev' v d l :
  Forall (fun n => below (ev n) (ev' n)) l -> Forall (fun n => below (ev n) (ev' n)) (opt d) ->
  below (switch_loop ev v d l) (switch_loop ev' v d l).
Proof.
  intros Hl Hd. remember (length l) as k eqn:Ek.
  revert l Ek Hl. induction k as [k IH] using lt_wf_ind; intros l Ek Hl s.
  destruct l as [|c [|b l]]; cbn [switch_loop].
  - by apply opt_below.
  - inversion Hl as [|? ? Hc _]; subst. agree.
  - inversion Hl as [|? ? Hc Hl']; subst. inversion Hl' as [|? ? Hb Hl'']; subst.
    assert (below (switch_loop ev v d l) (switch_loop ev' v d l)) as Hrest
      by (eapply IH; [|reflexivity|done]; simpl; lia).
    agree.
Qed.

Lemma args_below ev ev' l :
  Forall (fun n => below (ev n) (ev' n)) l ->
  Forall (fun n => forall c, data n = NODE_SPREAD c -> below (eval_opt ev c) (eval_opt ev' c)) l ->
  below (eval_expand_args ev l) (eval_expand_args ev' l).
Proof.
  intros Hl Hs. induction Hl as [|n l Hn Hl IH]; intros s; cbn [eval_expand_args]; [agree|].
  inversion Hs as [|? ? Hsn Hs']; subst. specialize (IH Hs').
  apply le_result_bind; [|intros vals s1; agree].
  destruct n as [line column []]; try agree. specialize (Hsn _ eq_refl). agree.
Qed.

(** ** Calls *)

Section level.
Context (deeper deeper' : node -> state M -> result M value) (Hd : forall n, below (deeper n) (deeper' n)).

Lemma params_below closure params : forall args local,
  below (bind_params deeper closure params args local) (bind_params deeper' closure params args local).
Proof.
  induction params as [|p params IH]; intros args local s; cbn [bind_params]; [agree|].
  apply le_result_bind; [|intros v s1; destruct (bind_in _ _ _ _ _); apply IH].
  destruct args; [|agree]. unfold default_value. destruct (data p); agree.
Qed.

Lemma function_below params body closure args :
  below (eval_script_function deeper params body closure args)
    (eval_script_function deeper' params body closure args).
Proof.
  intros s. unfold eval_script_function. destruct (meter_enter _ _) as [[] m]; cbn [negb]; [|agree].
  cbv zeta. destruct (_ <? _); [agree|].
  apply le_result_bind; [apply params_below|]. intros local s1. destruct (bind_rest _ _ _ _ _).
  apply le_result_bind; [|intros; agree]. destruct body; simpl; agree.
Qed.

Lemma call_below callee name args :
  below (call_callee deeper callee name args) (call_callee deeper' callee name args).
Proof.
  intros s.
  assert (forall f, le_result (exprtk_call_function_value deeper f args s) (exprtk_call_function_value deeper' f args s))
    as Hv.
  { intros f. unfold exprtk_call_function_value. destruct f; agree. apply function_below. }
  assert (le_result (exprtk_call_internal deeper name args s) (exprtk_call_internal deeper' name args s)) as Hi.
  { unfold exprtk_call_internal. destruct (lookup_func _ _) as [f|].
    { unfold call_func. destruct (fn_data f); [apply function_below|agree]. }
    destruct (exprtk_env_get zero (scopes s) name) as [| | | | | | |? [|] ?]; try apply Hv; agree. }
  unfold call_callee. destruct callee; try exact Hi. destruct body; [apply Hv|exact Hi].
Qed.

Definition below_with_child (n : node) : Prop :=
  below (exprtk_eval pow format_g deeper n) (exprtk_eval pow format_g deeper' n) /\
  forall c, data n = NODE_SPREAD c ->
    below (eval_opt (exprtk_eval pow format_g deeper) c) (eval_opt (exprtk_eval pow format_g deeper') c).

Lemma eval_below n : below_with_child n.
Proof.
  induction n as [line column d IH] using node_children_ind.
  assert (forall l, Forall below_with_child l ->
    Forall (fun n => below (exprtk_eval pow format_g deeper n) (exprtk_eval pow format_g deeper' n)) l) as Hall.
  { intros l Hl. eapply Forall_impl; [exact Hl|]. by intros n []. }
  assert (forall o, Forall below_with_child (opt o) ->
    below (eval_opt (exprtk_eval pow format_g deeper) o) (eval_opt (exprtk_eval pow format_g deeper') o)) as Hopt.
  { intros o H. apply opt_below, Hall, H. }
  assert (forall l, Forall below_with_child l ->
    below (eval_expand_args (exprtk_eval pow format_g deeper) l)
      (eval_expand_args (exprtk_eval pow format_g deeper') l)) as Hargs.
  { intros l Hl. apply args_below; [by apply Hall|]. eapply Forall_impl; [exact Hl|]. by intros n []. }
  split; [|intros c [= ->]; by apply Hopt]. intros s.
  cbn [exprtk_eval]. destruct (aborted s); [agree|]. destruct (enter line column s) as [[] s1]; cbn [negb]; [|agree].
  pose proof call_below as Hcall.
  destruct d; cbn [children] in *; try (by right);
    repeat (apply Forall_app in IH as [? IH]); repeat match goal with
      | H : Forall _ (opt _) |- _ => apply Hopt in H end.
  - agree.
  - destruct name; [|agree]. apply Hargs in IH. cbv zeta. agree. apply Hcall.
  - agree.
  - agree.
  - by apply while_below.
  - agree. apply for_below; [by destruct condition|by destruct post|done].
  - agree.
  - by apply block_below, Hall.
  - destruct type; try agree; destruct value; agree.
  - apply Hargs in IH. agree.
  - agree.
  - agree.
  - agree.
  - agree. apply switch_below; [by apply Hall|].
    destruct default_case; constructor; [exact IH|constructor].
  - by apply do_while_below.
  - agree. by apply for_in_below.
  - agree.
  - agree.
  - agree.
Qed.
End level.

Lemma depth_below d d' n : (d <= d')%nat -> below (eval_depth pow format_g d n) (eval_depth pow format_g d' n).
Proof.
  revert d' n. induction d as [|d IH]; intros d' n Hd; destruct d' as [|d']; try lia; cbn [eval_depth];
    apply eval_below; intros n' s; try (by left). apply IH. lia.
Qed.

(** A greater depth changes nothing. *)
Theorem depth_enough n d (s : state M) :
  natives_end -> fit 0 s -> counted s -> max_recursion s - curr_recursion s <= Z.of_nat d ->
  eval_depth pow format_g d n s = eval_script pow format_g n s.
Proof.
  intros Hn Hf Hc Hd. unfold eval_script.
  pose proof (depth_ends pow format_g n (level s) Hn 0 s (Z.le_refl 0) Hf Hc (le_n _)) as He.
  destruct (depth_below (level s) d n) with (s := s) as [E|E]; [unfold level; lia| |by symmetry].
  rewrite E in He. done.
Qed.

End depth.

Lemma depth_enough_witness :
  let s := start_at 5 (limits 1000 200) in
  aborts (eval_script demo_pow demo_format endless_calls s) /\
  eval_depth demo_pow demo_format 12 endless_calls s = eval_script demo_pow demo_format endless_calls s.
Proof.
  cbv zeta. split; [vm_compute; reflexivity|].
  apply (depth_enough demo_pow demo_format endless_calls 12 (start_at 5 (limits 1000 200))).
  - exact demo_natives_end.
  - repeat split; done.
  - repeat split; done.
  - vm_compute. discriminate.
Defined.
