(* ===== verification/CallProofs.v ===== *)
(** Calls of script functions: what a function value captures, what its body sees, and that
    calling it has no effect on the variables of the caller. *)

From S2P Require Import Prelude Float64 Ast Env HostLimits Meter Value SortSearch Registry State Calls Interp InterpProofs.
Open Scope Z_scope.

Local Abbreviation scope := (gmap string (@var_entry value)).
Local Abbreviation env := (list (gmap string (@var_entry value))).

(** ** The variables of a body *)

(** The children that the collector visits: not the parameters of a function inside, and of the cases of
    a [switch] the first half. *)
Definition visited (d : node_data) : list node :=
  match d with
  | NODE_FUNCTION_DEFINITION _ _ b | NODE_FUNCTION_EXPRESSION _ _ b
  | NODE_GENERATOR_FUNCTION _ _ b | NODE_METHOD _ _ b _ _ _ _ _ => opt b
  | NODE_SWITCH v l d => opt v ++ take (length l / 2) l ++ opt d
  | d => children d
  end.













(** A tree in which the collector visits everything. *)
Lemma visited_children d :
  match d with
  | NODE_FUNCTION_DEFINITION _ l _ | NODE_FUNCTION_EXPRESSION _ l _ | NODE_GENERATOR_FUNCTION _ l _
  | NODE_METHOD _ l _ _ _ _ _ _ | NODE_SWITCH _ l _ => l = []
  | _ => True
  end -> visited d = children d.
Proof. destruct d; simpl; try done; by intros ->. Qed.

(** *** What a tree reads

    This does not look at the collector.  Running a node runs its subtrees: of a function inside, the default
    values of its parameters and its body; of a destructuring assignment, the value only. *)
Definition default_of (param : node) : list node :=
  match data param with NODE_ASSIGNMENT _ v => opt v | _ => [] end.

Definition subtrees (d : node_data) : list node :=
  match d with
  | NODE_FUNCTION_DEFINITION _ l b | NODE_FUNCTION_EXPRESSION _ l b
  | NODE_GENERATOR_FUNCTION _ l b | NODE_METHOD _ l b _ _ _ _ _ => flat_map default_of l ++ opt b
  | NODE_DESTRUCTURING_ASSIGNMENT _ v _ => opt v
  | d => children d
  end.

(** The names a node itself looks up: variables, functions that are called, classes.  The text of a template
    string may look up any. *)
Definition looks_up (x : string) (d : node_data) : Prop :=
  match d with
  | NODE_VARIABLE y | NODE_NEW y _ => x = y
  | NODE_FUNCTION_CALL name _ | NODE_INSTANCEOF _ name _ => name = Some x
  | NODE_CLASS_DEF _ _ _ _ parent interfaces _ _ _ => parent = Some x \/ x ∈ interfaces
  | NODE_TEMPLATE_STRING _ => True
  | _ => False
  end.

Inductive reads (x : string) : node -> Prop :=
  | reads_here line column d : looks_up x d -> reads x (Node line column d)
  | reads_below line column d n : n ∈ subtrees d -> reads x n -> reads x (Node line column d).


(** The trees in which the collector overlooks nothing: without template strings, classes, and cases of
    [switch], and with no default values for the parameters of functions inside. *)
Definition transparent_node (d : node_data) : bool :=
  match d with
  | NODE_TEMPLATE_STRING _ | NODE_NEW _ _ | NODE_INSTANCEOF _ (Some _) _ | NODE_CLASS_DEF _ _ _ _ _ _ _ _ _ => false
  | NODE_SWITCH _ cases _ => (length cases =? 0)%nat
  | NODE_FUNCTION_DEFINITION _ l _ | NODE_FUNCTION_EXPRESSION _ l _
  | NODE_GENERATOR_FUNCTION _ l _ | NODE_METHOD _ l _ _ _ _ _ _ => (length (flat_map default_of l) =? 0)%nat
  | _ => true
  end.

Inductive transparent : node -> Prop :=
  | transparent_at line column d :
      transparent_node d = true -> Forall transparent (subtrees d) -> transparent (Node line column d).





(** ** Captured scopes *)



(** ** Calls *)

Section calls.
Context {M : Type} {HM : Meter M} {N : Natives M} {Q : QSort} {B : BSearch}.
Context (deeper : node -> state M -> result M value).

(** Binding the parameters of a function value does not look at the state of the caller. *)
Lemma closure_params c params : forall args local,
  (forall s, bind_params deeper (Some c) params args local s = NotModelled) \/
  exists local', forall s, bind_params deeper (Some c) params args local s = Done local' s.
Proof.
  induction params as [|p params IH]; intros args local; cbn [bind_params]; [right; by exists local|].
  assert ((forall s, match args with [] => default_value deeper (Some c) p s | v :: _ => Done v s end = NotModelled) \/
    exists v, forall s, match args with [] => default_value deeper (Some c) p s | v :: _ => Done v s end = Done v s)
    as [H|[v H]].
  { destruct args as [|v args]; [|right; by exists v]. unfold default_value.
    destruct (data p); try (right; by exists zero).
    match goal with |- context [match ?o with Some _ => _ | None => _ end] => destruct o end;
      [by left|right; by exists zero]. }
  - left. intros s. by rewrite H.
  - set (local1 := hd ∅ (bind_param (eval_param_binding_node p) v [local; c])).
    destruct (IH (tail args) local1) as [IH'|[local' IH']]; [left|right; exists local'];
      intros s; rewrite H; exact (IH' s).
Qed.

Lemma closure_rest c params args local :
  exists local', forall s : state M, bind_rest (Some c) params args local s = (local', s).
Proof.
  unfold bind_rest. destruct (rest_param params) as [p|]; [|by exists local].
  by exists (hd ∅ (bind_param p (VList (drop (length (std_params params)) args)) [local; c])).
Qed.

(** The same for the caller, up to what limits an evaluation. *)
Definition same_limits (s1 s2 : state M) : Prop :=
  meter s1 = meter s2 /\ max_recursion s1 = max_recursion s2 /\ curr_recursion s1 = curr_recursion s2.

(** The answers of a call made from [s1] and [s2]: the same, the environments keeping their variables
    and functions. *)
Definition same_answer (s1 s2 : state M) (r1 r2 : result M value) : Prop :=
  match r1, r2 with
  | Done v1 s1', Done v2 s2' =>
      v1 = v2 /\ same_limits s1' s2' /\ aborted s1' = aborted s2' /\
      scopes s1' = scopes s1 /\ tables s1' = tables s1 /\ scopes s2' = scopes s2 /\ tables s2' = tables s2 /\
      (flow s1 = flow s2 -> error_value s1 = error_value s2 ->
       flow s1' = flow s2' /\ error_value s1' = error_value s2')
  | Undefined, Undefined | NotModelled, NotModelled | Interrupted, Interrupted => True
  | _, _ => False
  end.

(** [s'] differs from [s] in the meter and the position at most. *)
Definition like (s' s : state M) : Prop :=
  scopes s' = scopes s /\ tables s' = tables s /\ flow s' = flow s /\ error_value s' = error_value s /\
  max_recursion s' = max_recursion s.

Lemma note_body_like body (s : state M) :
  like (note_body body s) s /\ meter (note_body body s) = meter s /\
  curr_recursion (note_body body s) = curr_recursion s.
Proof. unfold note_body. destruct body as [[line column b]|]; [|done]. by destruct (_ && _). Qed.

Lemma same_answer_like (s1 s2 s1' s2' : state M) r1 r2 :
  like s1' s1 -> like s2' s2 -> same_answer s1' s2' r1 r2 -> same_answer s1 s2 r1 r2.
Proof.
  intros (Hs1 & Ht1 & Hf1 & He1 & _) (Hs2 & Ht2 & Hf2 & He2 & _).
  destruct r1, r2; simpl; rewrite ?Hs1, ?Ht1, ?Hf1, ?He1, ?Hs2, ?Ht2, ?Hf2, ?He2; done.
Qed.

Lemma done_same (s1 s2 s1' s2' : state M) v :
  like s1' s1 -> like s2' s2 -> same_limits s1' s2' -> aborted s1' = aborted s2' ->
  same_answer s1 s2 (Done v s1') (Done v s2').
Proof.
  intros (Hs1 & Ht1 & Hf1 & He1 & _) (Hs2 & Ht2 & Hf2 & He2 & _) Hl Ha. simpl.
  rewrite Hf1, Hf2, He1, He2. by split_and!.
Qed.

Lemma leave_same c bytes v child (s1 s2 : state M) :
  max_recursion s1 = max_recursion s2 -> curr_recursion s1 = curr_recursion s2 ->
  same_answer s1 s2 (leave_function (Some c) bytes v child s1) (leave_function (Some c) bytes v child s2).
Proof.
  intros Hx Hc. unfold leave_function. rewrite Hc. set (r := wrapu 32 _). clearbody r.
  destruct (flow child); cbn [meter set_recursion set_aborted set_meter set_flow throw_from];
    destruct (meter_leave bytes (meter child)) as [[] m']; cbn; unfold same_limits; cbn;
    split_and!; try done; congruence.
Qed.

(** C17: A function value is closed.  What a call of it answers depends on the arguments, the scope it captured and the
    limits, and on nothing else of the environment that calls it; and however it ends, that environment has
    the variables and functions it had before.  In particular, no assignment in its body outlives the
    call. *)
Theorem closure_call_closed params body c args (s1 s2 : state M) :
  same_limits s1 s2 ->
  same_answer s1 s2
    (exprtk_call_function_value deeper (VFunction params (Some body) c) args s1)
    (exprtk_call_function_value deeper (VFunction params (Some body) c) args s2).
Proof.
  intros (Hm & Hx & Hc). cbn [exprtk_call_function_value]. unfold eval_script_function.
  destruct (note_body_like (Some body) s1) as (L1 & Hm1 & Hc1).
  destruct (note_body_like (Some body) s2) as (L2 & Hm2 & Hc2).
  apply (same_answer_like _ _ _ _ _ _ L1 L2). 
  destruct L1 as (_ & _ & _ & _ & Hx1), L2 as (_ & _ & _ & _ & Hx2).
  set (t1 := note_body (Some body) s1) in *. set (t2 := note_body (Some body) s2) in *. clearbody t1 t2.
  rewrite Hm2, <- Hm, <- Hm1. set (bytes := frame_bytes _). clearbody bytes.
  destruct (meter_enter bytes (meter t1)) as [[] m]; cbn [negb];
    [|apply done_same; try done; split_and!; simpl; congruence].
  cbn [max_recursion set_meter curr_recursion].
  replace (max_recursion t2) with (max_recursion t1) by congruence.
  replace (curr_recursion t2) with (curr_recursion t1) by congruence.
  set (r := wrapu 32 _). clearbody r.
  destruct (_ <? r); [apply done_same; try done; split_and!; simpl; congruence|].
  cbv zeta. cbn [callee_chain]. set (local := hd ∅ _). clearbody local.
  destruct (closure_params c (std_params params) args local) as [Hp|[local' Hp]]; rewrite !Hp; cbn [bind]; [done|].
  destruct (closure_rest c params args local') as [local'' Hr]. rewrite !Hr.
  assert (enter_function (Some c) local'' m (set_recursion r (set_meter m t2)) =
    enter_function (Some c) local'' m (set_recursion r (set_meter m t1))) as ->.
  { unfold enter_function, child_state. simpl. do 2 f_equal; congruence. }
  destruct (eval_opt _ _ _) as [v child| | |]; cbn [bind]; [|done..].
  apply (same_answer_like _ _ (set_recursion r (set_meter m t1)) (set_recursion r (set_meter m t2))); [done..|].
  apply leave_same; simpl; congruence.
Qed.

(** *** What the body sees *)

(** Parameters that are plain names. *)
Definition plain_params (params : list node) (xs : list string) : Prop :=
  Forall2 (fun p x => data p = NODE_VARIABLE x) params xs /\ NoDup xs.

Fixpoint bind_vars (xs : list string) (args : list value) (local : scope) : scope :=
  match xs with
  | [] => local
  | x :: xs => bind_vars xs (tail args) (put x (hd zero args) false local)
  end.

Lemma set_scopes_same (s : state M) : set_scopes (scopes s) s = s.
Proof. by destruct s. Qed.

Lemma bind_params_vars closure params xs : Forall2 (fun p x => data p = NODE_VARIABLE x) params xs ->
  forall args local (s : state M),
  bind_params deeper closure params args local s = Done (bind_vars xs args local) s.
Proof.
  induction 1 as [|[line column d] x params xs Hp _ IH]; intros args local s; cbn [bind_params bind_vars]; [done|].
  cbn [data] in Hp. subst d.
  destruct args as [|v args]; [unfold default_value|]; cbn [data bind tail hd];
    unfold eval_param_binding_node; cbn [data]; unfold bind_in, leave_chain, bind_param; cbn;
    (destruct closure; cbn; [apply IH|rewrite set_scopes_same; apply IH]).
Qed.

Lemma plain_no_rest params xs :
  Forall2 (fun p x => data p = NODE_VARIABLE x) params xs ->
  rest_param params = None /\ std_params params = params.
Proof.
  intros H. assert (rest_param params = None) as Hr.
  { unfold rest_param. destruct (last params) as [p|] eqn:E; [|done].
    rewrite last_lookup in E. destruct (Forall2_lookup_l _ _ _ _ _ H E) as (x & _ & Hp).
    unfold is_spread. by rewrite Hp. }
  split; [done|]. unfold std_params. by rewrite Hr.
Qed.

Lemma bind_vars_other xs x : x ∉ xs -> forall args local, bind_vars xs args local !! x = local !! x.
Proof.
  induction xs as [|y xs IH]; intros Hx args local; cbn [bind_vars]; [done|].
  apply not_elem_of_cons in Hx as [Hy Hx]. rewrite IH by done. unfold put.
  destruct (local !! y) as [en|]; [destruct (is_constant en); [done|]|]; by rewrite lookup_insert_ne.
Qed.

Lemma bind_vars_param xs : NoDup xs -> forall args local i x,
  Forall (fun x => local !! x = None) xs -> xs !! i = Some x ->
  bind_vars xs args local !! x = Some (VarEntry (nth i args zero) false false).
Proof.
  induction 1 as [|y xs Hy Hnd IH]; intros args local i x Hl Hi; [done|]. cbn [bind_vars].
  inversion Hl as [|? ? Hly Hlx]; subst.
  assert (put y (hd zero args) false local = <[y := VarEntry (hd zero args) false false]> local) as Hput
    by (unfold put; by rewrite Hly).
  destruct i as [|i]; simpl in Hi; [injection Hi as <-|].
  - rewrite bind_vars_other by done. rewrite Hput, lookup_insert_eq. by destruct args.
  - rewrite (IH (tail args) _ i x); [|..|done]; [by destruct args, i|].
    rewrite Hput. apply Forall_forall. intros z Hz. rewrite Forall_forall in Hlx.
    rewrite lookup_insert_ne by congruence. by apply Hlx.
Qed.
(** The environment of a function's body before it runs: its own scope [local] in front of [e]. *)
Definition body_sees (xs : list string) (args : list value) (outer : string -> value) (child : state M) : Prop :=
  (forall i x, xs !! i = Some x -> exprtk_env_get zero (scopes child) x = nth i args zero) /\
  (forall x, x ∉ xs -> exprtk_env_get zero (scopes child) x = outer x) /\
  flow child = FLOW_NORMAL /\ aborted child = false.

(** A call that is within the limits. *)
Definition admitted (argc : nat) (m : M) (s : state M) : Prop :=
  meter_enter (frame_bytes argc) (meter s) = (true, m) /\
  wrapu 32 (curr_recursion s + 1) <= max_recursion s.

Lemma find_bound (l : list scope) (s : scope) xs args i x :
  NoDup xs -> Forall (fun x => s !! x = None) xs -> xs !! i = Some x ->
  exprtk_env_get zero (bind_vars xs args s :: l) x = nth i args zero.
Proof.
  intros Hx Hs Hi. unfold exprtk_env_get. cbn [find_entry]. by rewrite (bind_vars_param xs Hx args s i x Hs Hi).
Qed.

(** A named function runs in the scope of its caller.  Its body sees its parameters in a scope of its own, bound to
    the arguments in order and to 0 when there are too few, and every other variable as its caller does,
    wherever the function was defined; an assignment goes to the caller's variable. *)
Theorem named_call_body params xs body args m (s : state M) :
  plain_params params xs -> admitted (length args) m s ->
  exists child s1, like s1 s /\
    eval_script_function deeper params (Some body) None args s =
      (let* (res, child) := deeper body child in
       leave_function None (frame_bytes (length args)) res child s1) /\
    body_sees xs args (exprtk_env_get zero (scopes s)) child /\
    tail (scopes child) = scopes s /\ tables child = Table [] [] :: tables s.
Proof.
  intros [Hp Hx] [Hm Hr]. destruct (plain_no_rest _ _ Hp) as [Hrest Hstd].
  unfold eval_script_function. destruct (note_body_like (Some body) s) as (L & Hmn & Hcn).
  assert (tables (note_body (Some body) s) = tables s /\ scopes (note_body (Some body) s) = scopes s) as [Htn Hsn]
    by (split; apply L).
  assert (max_recursion (note_body (Some body) s) = max_recursion s) as Hxn by apply L.
  set (t := note_body (Some body) s) in *. clearbody t. rewrite Hmn, Hm. cbn [negb].
  cbn [max_recursion curr_recursion set_meter]. rewrite Hxn, Hcn.
  set (r := wrapu 32 _) in *. clearbody r. rewrite (proj2 (Z.ltb_ge _ _) Hr). cbv zeta.
  rewrite Hstd, (bind_params_vars _ _ _ Hp). cbn [bind]. unfold bind_rest. rewrite Hrest.
  cbn [eval_opt]. set (s1 := set_recursion r (set_meter m t)).
  exists (enter_function None (bind_vars xs args ∅) m s1), s1. split_and!; [apply L|done|..].
  - unfold body_sees, enter_function. simpl. split_and!; [..|done|done].
    + intros i x Hi. apply find_bound; [done| |done]. apply Forall_forall. intros y _. apply lookup_empty.
    + intros x Hn. unfold exprtk_env_get. cbn [callee_chain find_entry]. rewrite bind_vars_other by done.
      by rewrite lookup_empty, <- Hsn.
  - by simpl.
  - simpl. by rewrite Htn.
Qed.


End calls.

(** ** Programs *)

Definition return_ (e : node) : node := at1 (NODE_FLOW TOKEN_RETURN (Some e)).
Definition call_ (f : string) (args : list node) : node := at1 (NODE_FUNCTION_CALL (Some f) args).
Definition function_ (params : list node) (body : node) : node :=
  at1 (NODE_FUNCTION_EXPRESSION None params (Some body)).
Definition define_ (f : string) (params : list node) (body : node) : node :=
  at1 (NODE_FUNCTION_DEFINITION (Some f) params (Some body)).

Definition answer (r : result counters value) : option value :=
  match r with Done v s => if aborted s then None else Some v | _ => None end.

Definition fresh : state counters := start default_counters.

(** [function f(n) { if (n < 2) { return n; } return f(n - 1) + f(n - 2); }  f(10)] *)
Definition fibonacci : node :=
  define_ "f" [var "n"] (block
    [at1 (NODE_IF (Some (binary TOKEN_LT (var "n") (int 2))) (Some (block [return_ (var "n")])) None);
     return_ (binary TOKEN_PLUS (call_ "f" [binary TOKEN_MINUS (var "n") (int 1)])
                                (call_ "f" [binary TOKEN_MINUS (var "n") (int 2)]))]).

Example fibonacci_10 :
  answer (eval_script demo_pow demo_format (block [fibonacci; call_ "f" [int 10]]) fresh) = Some (VInteger 55).
Proof. vm_compute. reflexivity. Qed.

(** The counter of the closure guide: [makeCounter() { count = 0; return () => { count = count + 1;
    return count; }; }]. *)
Definition counter_body : node :=
  block [set "count" (binary TOKEN_PLUS (var "count") (int 1)); return_ (var "count")].

Definition make_counter : node :=
  define_ "makeCounter" [] (block [set "count" (int 0); return_ (function_ [] counter_body)]).

(** Each call starts again from the captured 0. *)
Example counter_stays :
  answer (eval_script demo_pow demo_format
            (block [make_counter; set "c" (call_ "makeCounter" []); call_ "c" []; call_ "c" []; call_ "c" []]) fresh)
  = Some (VInteger 1).
Proof. vm_compute. reflexivity. Qed.

(** A parameter with a default value is not bound in the scope of a named function when the caller has a
    variable of that name: [x = 1; function f(x = 5) { return x; }  f(7); x]. *)
Example default_parameter_escapes :
  answer (eval_script demo_pow demo_format
            (block [set "x" (int 1); define_ "f" [set "x" (int 5)] (block [return_ (var "x")]);
                    call_ "f" [int 7]; var "x"]) fresh)
  = Some (VInteger 7).
Proof. vm_compute. reflexivity. Qed.

(** A function value does not find the functions of the program: [function g() { return 1; }
    h = () => { return g(); }; h()] throws. *)
Example closure_finds_no_function :
  match eval_script demo_pow demo_format
          (block [define_ "g" [] (block [return_ (int 1)]);
                  set "h" (function_ [] (block [return_ (call_ "g" [])])); call_ "h" []]) fresh with
  | Done _ s => flow s = FLOW_THROW /\ error_value s = VString "Undefined function 'g'"
  | _ => False
  end.
Proof. vm_compute. split; reflexivity. Qed.

(** Two callers of a counter whose [count] is 41, one of them with a [count] of its own. *)
Definition at_41 : scope := {[ "count" := VarEntry (VInteger 41) false false ]}.
Definition busy : state counters :=
  set_scopes [{[ "count" := VarEntry (VInteger 7) false false ]}; ∅] fresh.

Lemma closure_call_closed_witness :
  let call := exprtk_call_function_value demo_deeper (VFunction [] (Some counter_body) at_41) [] in
  answer (call fresh) = Some (VInteger 42) /\ same_answer fresh busy (call fresh) (call busy).
Proof.
  cbv zeta. split; [vm_compute; reflexivity|].
  apply (closure_call_closed demo_deeper [] counter_body at_41 [] fresh busy). repeat split.
Defined.

Lemma named_call_body_witness :
  exists child s1, like s1 busy /\
    eval_script_function demo_deeper [var "y"] (Some (binary TOKEN_PLUS (var "count") (var "y"))) None [VInteger 2] busy =
      (let* (res, child) := demo_deeper (binary TOKEN_PLUS (var "count") (var "y")) child in
       leave_function None (frame_bytes (M := counters) 1) res child s1) /\
    body_sees ["y"] [VInteger 2] (exprtk_env_get zero (scopes busy)) child /\
    tail (scopes child) = scopes busy /\ tables child = Table [] [] :: tables busy.
Proof.
  apply (named_call_body demo_deeper [var "y"] ["y"] _ [VInteger 2] default_counters busy).
  - split; [repeat constructor|]. apply NoDup_singleton.
  - split; [reflexivity|vm_compute; discriminate].
Defined.



(** The cases of a [switch] are what the collector overlooks: [() => { switch (1) { case 1: return count; } }]
    reads [count], and sees 0. *)
Definition switch_body : node :=
  at1 (NODE_SWITCH (Some (int 1)) [int 1; return_ (var "count")] None).

Example switch_not_captured :
  reads "count" switch_body /\ ~ transparent switch_body /\
  answer (exprtk_call_function_value demo_deeper (function_value [] (Some switch_body) [at_41]) [] fresh)
    = Some zero.
Proof.
  split_and!.
  - eapply reads_below; [right; right; left|]. eapply reads_below; [left|]. by apply reads_here.
  - inversion 1. discriminate.
  - vm_compute. reflexivity.
Qed.
