(* ===== verification/Semantics.v ===== *)
(** A reference semantics of structured programs: what a script means, in terms
    of outcomes instead of the flow flags, limits and positions that [exprtk_eval] threads
    through an environment.  [Refinement.v] proves that the interpreter implements
    it.

    Expressions have a value and no effect; statements relate the scopes before
    and after to an outcome.  Two peculiarities of the code are part of the
    semantics: an assignment whose expression throws stores 0, and the post
    expression of a [for] loop that [continue] or an exception reaches is only
    skimmed: its operators answer 0 without being applied. *)

From S2P Require Import Prelude Float64 Ast Env Value.
Open Scope Z_scope.

Local Abbreviation env := (list (gmap string (@var_entry value))).

Section semantics.
Context (pow : f64 -> f64 -> f64) (format_g : f64 -> string).

(** ** Expressions *)

Definition opt_all (f : node -> bool) (o : option node) : bool :=
  match o with Some n => f n | None => true end.

Fixpoint is_expr (n : node) : bool :=
  let 'Node _ _ d := n in
  match d with
  | NODE_NUMBER _ | NODE_INTEGER _ | NODE_STRING _ | NODE_VARIABLE _ | NODE_NULL => true
  | NODE_BINARY_OP _ a b => opt_all is_expr a && opt_all is_expr b
  | _ => false
  end.

(** A missing operand is the number 0. *)
Definition opt_value (f : node -> op_result) (o : option node) : op_result :=
  match o with Some n => f n | None => OpValue zero end.

Fixpoint expr_value (e : env) (n : node) : op_result :=
  let 'Node _ _ d := n in
  match d with
  | NODE_NUMBER x => OpValue (VNumber x)
  | NODE_INTEGER i => OpValue (VInteger i)
  | NODE_STRING s => OpValue (VString s)
  | NODE_VARIABLE x => OpValue (exprtk_env_get zero e x)
  | NODE_NULL => OpValue VNull
  | NODE_BINARY_OP op a b =>
      match opt_value (expr_value e) a with
      | OpValue l =>
          match opt_value (expr_value e) b with
          | OpValue r => eval_binary pow format_g op l r
          | r => r
          end
      | r => r
      end
  | _ => OpUndefined
  end.

(** The value of an expression while [continue] or an exception is pending. *)
Definition skim (e : env) (n : node) : value :=
  match data n with
  | NODE_BINARY_OP _ _ _ => zero
  | _ => match expr_value e n with OpValue v => v | _ => zero end
  end.

(** ** Outcomes *)

Inductive outcome :=
  | ONormal (v : value)
  | OBreak
  | OContinue
  | OReturn (v : value)
  | OThrow (v : value)
  | OWrong.                       (* undefined behaviour *)

Definition result_of (r : op_result) : outcome :=
  match r with
  | OpValue v => ONormal v
  | OpThrow message => OThrow (VString message)
  | OpUndefined => OWrong
  end.

(** What the outcome of its body means to a loop: another turn, with the value
    of the body, or an end. *)
Inductive after := Again (v : value) | Leave (o : outcome).

Definition after_body (o : outcome) : after :=
  match o with
  | ONormal v => Again v
  | OContinue => Again zero
  | OBreak => Leave (ONormal zero)
  | o => Leave o
  end.

(** ** Statements *)

(** Storing the value of an expression. *)
Definition store (set : env -> string -> value ->
      env)
    (x : string) (r : op_result) (e : env)
    : outcome * env :=
  match r with
  | OpValue v => (ONormal (exprtk_env_get zero (set e x v) x), set e x v)
  | OpThrow message => (OThrow (VString message), set e x zero)
  | OpUndefined => (OWrong, e)
  end.

(** The post expression of a loop, skimmed. *)
Definition skim_post (p : node) (e : env)
    : env :=
  match data p with
  | NODE_ASSIGNMENT (Some x) (Some v) => exprtk_env_set e x (skim e v)
  | NODE_ASSIGNMENT (Some x) None => exprtk_env_set e x zero
  | _ => e
  end.

Definition caught (x : option string) (v : value) (e : env)
    : env :=
  match x with
  | Some x => exprtk_env_set_local (exprtk_env_init_child e) x v
  | None => exprtk_env_init_child e
  end.

Inductive exec : option node -> env -> outcome ->
    env -> Prop :=
  | exec_none e : exec None e (ONormal zero) e
  | exec_expr n e : is_expr n = true -> exec (Some n) e (result_of (expr_value e n)) e
  | exec_assign line column x v e o e' :
      store exprtk_env_set x (opt_value (expr_value e) v) e = (o, e') ->
      exec (Some (Node line column (NODE_ASSIGNMENT (Some x) v))) e o e'
  | exec_constant line column x v e o e' :
      store exprtk_env_set_constant x (opt_value (expr_value e) v) e = (o, e') ->
      exec (Some (Node line column (NODE_CONSTANT_DECL (Some x) v))) e o e'
  | exec_if line column c a b e v o e' :
      opt_value (expr_value e) c = OpValue v ->
      exec (if eval_value_truthy v then a else b) e o e' ->
      exec (Some (Node line column (NODE_IF c a b))) e o e'
  | exec_if_fails line column c a b e :
      (forall v, opt_value (expr_value e) c <> OpValue v) ->
      exec (Some (Node line column (NODE_IF c a b))) e (result_of (opt_value (expr_value e) c)) e
  | exec_while line column c b e o e' :
      while_runs c b zero e o e' ->
      exec (Some (Node line column (NODE_WHILE c b))) e o e'
  | exec_for line column i c p b e v e1 o e' :
      exec i e (ONormal v) e1 -> for_runs c p b zero e1 o e' ->
      exec (Some (Node line column (NODE_FOR i (Some c) (Some p) b))) e o e'
  | exec_for_fails line column i c p b e o e' :
      exec i e o e' -> (forall v, o <> ONormal v) ->
      exec (Some (Node line column (NODE_FOR i (Some c) (Some p) b))) e o e'
  | exec_do_while line column b c e o e' :
      do_while_runs b c e o e' ->
      exec (Some (Node line column (NODE_DO_WHILE b c))) e o e'
  | exec_block line column l e o e' :
      block_runs l zero e o e' ->
      exec (Some (Node line column (NODE_BLOCK l))) e o e'
  | exec_break line column v e :
      exec (Some (Node line column (NODE_FLOW TOKEN_BREAK v))) e OBreak e
  | exec_continue line column v e :
      exec (Some (Node line column (NODE_FLOW TOKEN_CONTINUE v))) e OContinue e
  | exec_return line column v e w :
      opt_value (expr_value e) v = OpValue w ->
      exec (Some (Node line column (NODE_FLOW TOKEN_RETURN v))) e (OReturn w) e
  | exec_return_fails line column v e :
      (forall w, opt_value (expr_value e) v <> OpValue w) ->
      exec (Some (Node line column (NODE_FLOW TOKEN_RETURN v))) e
        (result_of (opt_value (expr_value e) v)) e
  | exec_throw line column v e w :
      opt_value (expr_value e) v = OpValue w ->
      exec (Some (Node line column (NODE_THROW v))) e (OThrow w) e
  | exec_throw_fails line column v e message :
      opt_value (expr_value e) v = OpThrow message ->
      exec (Some (Node line column (NODE_THROW v))) e (OThrow zero) e
  | exec_throw_wrong line column v e :
      opt_value (expr_value e) v = OpUndefined ->
      exec (Some (Node line column (NODE_THROW v))) e OWrong e
  | exec_switch line column v cases d e w o e' :
      opt_value (expr_value e) v = OpValue w -> switch_runs w d cases e o e' ->
      exec (Some (Node line column (NODE_SWITCH v cases d))) e o e'
  | exec_switch_fails line column v cases d e :
      (forall w, opt_value (expr_value e) v <> OpValue w) ->
      exec (Some (Node line column (NODE_SWITCH v cases d))) e
        (result_of (opt_value (expr_value e) v)) e
  | exec_try line column b x c e o e' :
      exec b e o e' -> (forall v, o <> OThrow v) ->
      exec (Some (Node line column (NODE_TRY_CATCH b x c))) e o e'
  | exec_catch line column b x c e v e1 o e2 :
      exec b e (OThrow v) e1 -> exec c (caught x v e1) o e2 ->
      exec (Some (Node line column (NODE_TRY_CATCH b x c))) e o (tail e2)

(** The turns of a [while] loop, the last of which had the value [last]. *)
with while_runs : option node -> option node -> value -> env ->
    outcome -> env -> Prop :=
  | while_fails c b last e :
      (forall v, opt_value (expr_value e) c <> OpValue v) ->
      while_runs c b last e (result_of (opt_value (expr_value e) c)) e
  | while_ends c b last e v :
      opt_value (expr_value e) c = OpValue v -> eval_value_truthy v = false ->
      while_runs c b last e (ONormal last) e
  | while_leaves c b last e v o o' e' :
      opt_value (expr_value e) c = OpValue v -> eval_value_truthy v = true ->
      exec b e o e' -> after_body o = Leave o' ->
      while_runs c b last e o' e'
  | while_turns c b last e v o w e1 o' e' :
      opt_value (expr_value e) c = OpValue v -> eval_value_truthy v = true ->
      exec b e o e1 -> after_body o = Again w -> while_runs c b w e1 o' e' ->
      while_runs c b last e o' e'

with for_runs : node -> node -> option node -> value -> env ->
    outcome -> env -> Prop :=
  | for_fails c p b last e :
      (forall v, expr_value e c <> OpValue v) ->
      for_runs c p b last e (result_of (expr_value e c)) e
  | for_ends c p b last e v :
      expr_value e c = OpValue v -> eval_value_truthy v = false ->
      for_runs c p b last e (ONormal last) e
  | for_leaves c p b last e v o o' e' :
      expr_value e c = OpValue v -> eval_value_truthy v = true ->
      exec b e o e' -> after_body o = Leave o' -> (forall w, o <> OThrow w) ->
      for_runs c p b last e o' e'
  | for_throws c p b last e v w e1 :
      expr_value e c = OpValue v -> eval_value_truthy v = true ->
      exec b e (OThrow w) e1 ->
      for_runs c p b last e (OThrow w) (skim_post p e1)
  | for_continues c p b last e v e1 o e' :
      expr_value e c = OpValue v -> eval_value_truthy v = true ->
      exec b e OContinue e1 -> for_runs c p b zero (skim_post p e1) o e' ->
      for_runs c p b last e o e'
  | for_post_fails c p b last e v w e1 o e' :
      expr_value e c = OpValue v -> eval_value_truthy v = true ->
      exec b e (ONormal w) e1 -> exec (Some p) e1 o e' -> (forall u, o <> ONormal u) ->
      for_runs c p b last e o e'
  | for_turns c p b last e v w e1 u e2 o e' :
      expr_value e c = OpValue v -> eval_value_truthy v = true ->
      exec b e (ONormal w) e1 -> exec (Some p) e1 (ONormal u) e2 ->
      for_runs c p b w e2 o e' ->
      for_runs c p b last e o e'

with do_while_runs : option node -> option node -> env ->
    outcome -> env -> Prop :=
  | do_leaves b c e o o' e' :
      exec b e o e' -> after_body o = Leave o' -> do_while_runs b c e o' e'
  | do_fails b c e o w e1 :
      exec b e o e1 -> after_body o = Again w ->
      (forall v, opt_value (expr_value e1) c <> OpValue v) ->
      do_while_runs b c e (result_of (opt_value (expr_value e1) c)) e1
  | do_ends b c e o w e1 v :
      exec b e o e1 -> after_body o = Again w ->
      opt_value (expr_value e1) c = OpValue v -> eval_value_truthy v = false ->
      do_while_runs b c e (ONormal w) e1
  | do_turns b c e o w e1 v o' e' :
      exec b e o e1 -> after_body o = Again w ->
      opt_value (expr_value e1) c = OpValue v -> eval_value_truthy v = true ->
      do_while_runs b c e1 o' e' ->
      do_while_runs b c e o' e'

(** The statements of a block, after one of value [last]. *)
with block_runs : list node -> value -> env -> outcome ->
    env -> Prop :=
  | block_ends last e : block_runs [] last e (ONormal last) e
  | block_leaves n l last e o e' :
      exec (Some n) e o e' -> (forall v, o <> ONormal v) -> block_runs (n :: l) last e o e'
  | block_next n l last e v e1 o e' :
      exec (Some n) e (ONormal v) e1 -> block_runs l v e1 o e' -> block_runs (n :: l) last e o e'

(** The cases of a [switch] on [w], with their default. *)
with switch_runs : value -> option node -> list node -> env ->
    outcome -> env -> Prop :=
  | switch_default w d e o e' : exec d e o e' -> switch_runs w d [] e o e'
  | switch_fails w d c b l e :
      (forall v, expr_value e c <> OpValue v) ->
      switch_runs w d (c :: b :: l) e (result_of (expr_value e c)) e
  | switch_matches w d c b l e v o e' :
      expr_value e c = OpValue v -> case_matches w v = true -> exec (Some b) e o e' ->
      switch_runs w d (c :: b :: l) e o e'
  | switch_next w d c b l e v o e' :
      expr_value e c = OpValue v -> case_matches w v = false -> switch_runs w d l e o e' ->
      switch_runs w d (c :: b :: l) e o e'.

Scheme exec_mind := Minimality for exec Sort Prop
  with while_mind := Minimality for while_runs Sort Prop
  with for_mind := Minimality for for_runs Sort Prop
  with do_while_mind := Minimality for do_while_runs Sort Prop
  with block_mind := Minimality for block_runs Sort Prop
  with switch_mind := Minimality for switch_runs Sort Prop.
Combined Scheme exec_mutind from exec_mind, while_mind, for_mind, do_while_mind, block_mind, switch_mind.

(** ** Structured programs

    Those that the semantics covers: conditions, operands and values are
    expressions, a [for] loop has a condition and a post expression that is an expression
    or an assignment, a [catch] has a body, and names are not NULL. *)

Definition is_simple (n : node) : bool :=
  is_expr n ||
  match data n with NODE_ASSIGNMENT (Some _) v => opt_all is_expr v | _ => false end.

(** The array of the cases alternates values and bodies. *)
Definition all_cases (f : node -> bool) : list node -> bool :=
  fix all l :=
    match l with
    | [] => true
    | [_] => false
    | c :: b :: l => is_expr c && f b && all l
    end.

Fixpoint structured (n : node) : bool :=
  let 'Node _ _ d := n in
  match d with
  | NODE_ASSIGNMENT (Some _) v | NODE_CONSTANT_DECL (Some _) v => opt_all is_expr v
  | NODE_IF c a b => opt_all is_expr c && opt_all structured a && opt_all structured b
  | NODE_WHILE c b => opt_all is_expr c && opt_all structured b
  | NODE_FOR i (Some c) (Some p) b =>
      opt_all is_simple i && is_expr c && is_simple p && opt_all structured b
  | NODE_DO_WHILE b c => opt_all structured b && opt_all is_expr c
  | NODE_BLOCK l => forallb structured l
  | NODE_FLOW TOKEN_BREAK _ | NODE_FLOW TOKEN_CONTINUE _ => true
  | NODE_FLOW TOKEN_RETURN v | NODE_THROW v => opt_all is_expr v
  | NODE_SWITCH v cases d =>
      opt_all is_expr v && all_cases structured cases && opt_all structured d
  | NODE_TRY_CATCH b _ (Some c) => opt_all structured b && structured c
  | _ => is_expr n
  end.

(** ** Determinism *)

(** Use the induction hypotheses on the derivations at hand, and drop the cases
    that contradict each other. *)
Ltac determine :=
  repeat match goal with
  | H : forall o e, exec ?n ?s o e -> _, G : exec ?n ?s _ _ |- _ =>
      destruct (H _ _ G) as [? ?]; clear G; simplify_eq
  | H : forall o e, while_runs ?c ?b ?l ?s o e -> _, G : while_runs ?c ?b ?l ?s _ _ |- _ =>
      destruct (H _ _ G) as [? ?]; clear G; simplify_eq
  | H : forall o e, for_runs ?c ?p ?b ?l ?s o e -> _, G : for_runs ?c ?p ?b ?l ?s _ _ |- _ =>
      destruct (H _ _ G) as [? ?]; clear G; simplify_eq
  | H : forall o e, do_while_runs ?b ?c ?s o e -> _, G : do_while_runs ?b ?c ?s _ _ |- _ =>
      destruct (H _ _ G) as [? ?]; clear G; simplify_eq
  | H : forall o e, block_runs ?l ?v ?s o e -> _, G : block_runs ?l ?v ?s _ _ |- _ =>
      destruct (H _ _ G) as [? ?]; clear G; simplify_eq
  | H : forall o e, switch_runs ?w ?d ?l ?s o e -> _, G : switch_runs ?w ?d ?l ?s _ _ |- _ =>
      destruct (H _ _ G) as [? ?]; clear G; simplify_eq
  | H : forall v, ?t <> _, G : ?t = _ |- _ => destruct (H _ G)
  | H : forall v, ?o <> ?f v |- _ => destruct (H _ eq_refl)
  | H : ?t = OpValue _, G : ?t = _ |- _ => rewrite H in G; simplify_eq
  | H : ?t = OpThrow _, G : ?t = _ |- _ => rewrite H in G; simplify_eq
  | H : eval_value_truthy ?v = true, G : eval_value_truthy ?v = _ |- _ => rewrite H in G; discriminate G
  | H : case_matches ?v ?w = true, G : case_matches ?v ?w = _ |- _ => rewrite H in G; discriminate G
  | H : store _ _ _ _ = _, G : store _ _ _ _ = _ |- _ => rewrite H in G; simplify_eq
  | H : after_body ?o = _, G : after_body ?o = _ |- _ => rewrite H in G; simplify_eq
  | H : is_expr (Node _ _ _) = true |- _ => discriminate H
  | H : after_body _ = _ |- _ => discriminate H
  end.

Ltac det :=
  lazymatch goal with
  | G : exec _ _ ?o ?e |- _ = ?o /\ _ = ?e => inversion G; clear G
  | G : while_runs _ _ _ _ ?o ?e |- _ = ?o /\ _ = ?e => inversion G; clear G
  | G : for_runs _ _ _ _ _ ?o ?e |- _ = ?o /\ _ = ?e => inversion G; clear G
  | G : do_while_runs _ _ _ ?o ?e |- _ = ?o /\ _ = ?e => inversion G; clear G
  | G : block_runs _ _ _ ?o ?e |- _ = ?o /\ _ = ?e => inversion G; clear G
  | G : switch_runs _ _ _ _ ?o ?e |- _ = ?o /\ _ = ?e => inversion G; clear G
  end; subst; determine; try (split; reflexivity).

Lemma runs_deterministic :
  (forall n e o e1, exec n e o e1 -> forall o2 e2, exec n e o2 e2 -> o = o2 /\ e1 = e2) /\
  (forall c b v e o e1, while_runs c b v e o e1 ->
     forall o2 e2, while_runs c b v e o2 e2 -> o = o2 /\ e1 = e2) /\
  (forall c p b v e o e1, for_runs c p b v e o e1 ->
     forall o2 e2, for_runs c p b v e o2 e2 -> o = o2 /\ e1 = e2) /\
  (forall b c e o e1, do_while_runs b c e o e1 ->
     forall o2 e2, do_while_runs b c e o2 e2 -> o = o2 /\ e1 = e2) /\
  (forall l v e o e1, block_runs l v e o e1 ->
     forall o2 e2, block_runs l v e o2 e2 -> o = o2 /\ e1 = e2) /\
  (forall w d l e o e1, switch_runs w d l e o e1 ->
     forall o2 e2, switch_runs w d l e o2 e2 -> o = o2 /\ e1 = e2).
Proof. apply exec_mutind; intros; det. Qed.

End semantics.
