(* ===== verification/Refinement.v ===== *)
(** The interpreter of [Interp.v] implements the reference semantics of
    [Semantics.v]: a run that no limit aborts has the outcome, the value and
    the scopes that the semantics gives, and no other. *)

From S2P Require Import Prelude Float64 Ast Env HostLimits Meter Value SortSearch Registry State Calls Interp InterpProofs Termination Semantics.
Open Scope Z_scope.

Local Abbreviation env := (list (gmap string (@var_entry value))).

Section refinement.
Context {M : Type} {HM : Meter M} {ML : MeterLaws M} {LM : Latching M}.
Context (pow : f64 -> f64 -> f64) (format_g : f64 -> string).
Context {N : Natives M} {QS : QSort} {BS : BSearch}.

Section structured.
Context (deeper : node -> state M -> result M value).

(** ** States *)

Definition live (s : state M) : Prop := flow s = FLOW_NORMAL /\ aborted s = false.

(** Aborted by a limit, for good. *)
Definition dead (s : state M) : Prop := aborted s = true /\ latched (meter s).

Definition flow_eqb (a b : flow_t) : bool :=
  match a, b with
  | FLOW_NORMAL, FLOW_NORMAL | FLOW_BREAK, FLOW_BREAK | FLOW_CONTINUE, FLOW_CONTINUE
  | FLOW_RETURN, FLOW_RETURN | FLOW_THROW, FLOW_THROW | FLOW_YIELD, FLOW_YIELD => true
  | _, _ => false
  end.

Lemma is_flow_eqb f (s : state M) : is_flow f s = flow_eqb (flow s) f.
Proof. unfold is_flow. destruct (flow s), f; reflexivity. Qed.

(** Decide the tests of a flow that is known. *)
Ltac flows :=
  rewrite ?is_flow_eqb; cbn [flow set_flow set_aborted set_scopes aborted];
  repeat match goal with
  | H : flow ?s = _ |- context [flow ?s] => rewrite H
  | H : aborted ?s = _ |- context [aborted ?s] => rewrite H
  end; cbn [flow_eqb negb andb orb].

Lemma enter_cases line column (s : state M) ok s' :
  enter line column s = (ok, s') ->
  if ok then scopes s' = scopes s /\ flow s' = flow s /\ aborted s' = aborted s /\
    error_value s' = error_value s /\ return_value s' = return_value s
  else dead s' /\ scopes s' = scopes s /\ flow s' = flow s /\ error_value s' = error_value s.
Proof.
  unfold enter. destruct (meter_step _) as [[] m] eqn:E; intros [= <- <-].
  - by destruct (0 <? line).
  - apply refused_step in E. unfold dead. by destruct (0 <? line).
Qed.

Lemma tick_cases (s : state M) ok s' :
  eval_loop_tick s = (ok, s') ->
  if ok then scopes s' = scopes s /\ flow s' = flow s /\ aborted s' = aborted s
  else dead s'.
Proof.
  unfold eval_loop_tick. destruct (meter_tick _) as [[] m] eqn:E; intros [= <- <-]; [done|].
  by apply refused_tick in E.
Qed.

Lemma opt_aborted o (s : state M) :
  aborted s = true -> eval_opt (exprtk_eval pow format_g deeper) o s = Done zero s.
Proof. intros H. destruct o; simpl; [by apply eval_aborted|done]. Qed.

(** ** Expressions *)

(** The value of an aborted expression is no integer, so that no operator is
    undefined on it. *)
Definition not_integer (v : value) : Prop := forall i, v <> VInteger i.

(** What evaluating an expression of result [r] leaves. *)
Definition expr_post (r : op_result) (s : state M) (res : result M value) : Prop :=
  match res with
  | Done v s' =>
      (dead s' /\ not_integer v) \/
      (scopes s' = scopes s /\ aborted s' = false /\
       match r with
       | OpValue w => v = w /\ flow s' = FLOW_NORMAL
       | OpThrow message => v = zero /\ flow s' = FLOW_THROW /\ error_value s' = VString message
       | OpUndefined => False
       end)
  | Undefined => r = OpUndefined
  | NotModelled | Interrupted => False
  end.

Lemma zero_not_integer : not_integer zero.
Proof. intros i H. discriminate H. Qed.

Lemma not_integer_binary op l r v :
  not_integer l \/ not_integer r -> eval_binary pow format_g op l r = OpValue v -> not_integer v.
Proof.
  intros Hn. unfold eval_binary.
  assert (match l, r with VInteger l, VInteger r => int_op pow op l r | _, _ => None end = None) as ->.
  { destruct l, r; try reflexivity. by destruct Hn as [Hn|Hn]; edestruct Hn. }
  intros H i ->. revert H.
  destruct op; cbn [num_op equality_op]; unfold num_of_bool, type_error;
    destruct l, r; cbn [is_numeric andb]; try destruct (_ <? _)%f64; discriminate.
Qed.

Lemma apply_op_dead line column op l r (s : state M) :
  dead s -> not_integer l \/ not_integer r ->
  exists v s', apply_op line column (eval_binary pow format_g op l r) s = Done v s' /\
    dead s' /\ not_integer v.
Proof.
  intros Hs Hn.
  assert (eval_binary pow format_g op l r <> OpUndefined) as H
    by (apply eval_binary_defined; intros i j [-> ->]; by destruct Hn as [Hn|Hn]; edestruct Hn).
  destruct (eval_binary pow format_g op l r) as [v|m|] eqn:E; [| |done]; cbn [apply_op].
  - eexists _, _. repeat split; [apply Hs..|]. by eapply not_integer_binary.
  - eexists _, _. repeat split; [apply Hs..|]. apply zero_not_integer.
Qed.

Lemma opt_expr ev e o (s : state M) :
  live s -> e = scopes s -> opt_all is_expr o = true ->
  Forall (fun n => is_expr n = true -> forall s, live s -> expr_post (expr_value pow format_g (scopes s) n) s (ev n s))
    (opt o) ->
  expr_post (opt_value (expr_value pow format_g e) o) s (eval_opt ev o s).
Proof.
  intros Hs -> Ho H. destruct o as [n|]; simpl in *; [inversion H; auto|].
  right. by destruct Hs.
Qed.

Lemma expr_sound n :
  is_expr n = true ->
  forall s, live s -> expr_post (expr_value pow format_g (scopes s) n) s (exprtk_eval pow format_g deeper n s).
Proof.
  induction n as [line column d IH] using node_children_ind. intros He s [Hf Ha].
  cbn [exprtk_eval]. rewrite Ha. destruct (enter line column s) as [ok s1] eqn:E.
  apply enter_cases in E. destruct ok; cbn [negb]; [|left; split; [apply E|apply zero_not_integer]].
  destruct E as (Es & Ef & Ea & _). rewrite Hf in Ef. rewrite Ha in Ea.
  destruct d; try discriminate He; cbn [expr_value];
    try (right; rewrite <- Es; repeat split; assumption).
  cbn [is_expr] in He. apply andb_prop in He as [Hl Hr]. simpl in IH.
  apply Forall_app in IH as [IHl IHr].
  pose proof (opt_expr (exprtk_eval pow format_g deeper) (scopes s) left s1 (conj Ef Ea) (eq_sym Es) Hl IHl) as El.
  unfold expr_post in *.
  destruct (eval_opt _ left s1) as [l s2| | |]; cbn [bind]; [|by rewrite El|done..].
  destruct El as [[Hd Hi]|(Es2 & Ea2 & El)].
  { destruct (_ && _); [left; split; [exact Hd|apply zero_not_integer]|].
    rewrite opt_aborted by apply Hd. cbn [bind].
    destruct (negb _); [left; split; [exact Hd|apply zero_not_integer]|].
    destruct (apply_op_dead line column op l zero s2 Hd) as (v & s' & -> & Hd'); [by left|]. by left. }
  destruct (opt_value _ left) as [w|m|] eqn:Vl; [destruct El as [-> Ef2]|destruct El as (-> & Ef2 & Ev)|done].
  2: { destruct left; [|discriminate Vl]. rewrite bool_decide_eq_true_2 by eauto. flows.
       right. by rewrite Es2, Es. }
  flows. rewrite andb_false_r.
  pose proof (opt_expr (exprtk_eval pow format_g deeper) (scopes s) right s2 (conj Ef2 Ea2) ltac:(congruence) Hr IHr) as Er.
  unfold expr_post in Er.
  destruct (eval_opt _ right s2) as [r s3| | |]; cbn [bind]; [|by rewrite Er|done..].
  destruct Er as [[Hd Hi]|(Es3 & Ea3 & Er)].
  { destruct (negb _); [left; split; [exact Hd|apply zero_not_integer]|].
    destruct (apply_op_dead line column op w r s3 Hd) as (v & s' & -> & Hd'); [by right|]. by left. }
  destruct (opt_value _ right) as [u|m|]; [destruct Er as [-> Ef3]|destruct Er as (-> & Ef3 & Ev)|done]; flows.
  - destruct (eval_binary pow format_g op w u); cbn [apply_op throw_error]; [| |done]; right; simpl;
      repeat split; (assumption || congruence).
  - right. repeat split; (assumption || congruence).
Qed.
(** An expression that is evaluated while a flow is pending. *)
Lemma skim_sound n :
  is_expr n = true ->
  forall s, aborted s = false -> flow s <> FLOW_NORMAL ->
  exists v s', exprtk_eval pow format_g deeper n s = Done v s' /\ scopes s' = scopes s /\
    flow s' = flow s /\ error_value s' = error_value s /\
    (dead s' \/ (aborted s' = false /\ v = skim pow format_g (scopes s) n)).
Proof.
  induction n as [line column d IH] using node_children_ind. intros He s Ha Hf.
  cbn [exprtk_eval]. rewrite Ha. destruct (enter line column s) as [ok s1] eqn:E.
  apply enter_cases in E. destruct ok; cbn [negb].
  2: { destruct E as (Hd & ? & ? & ?). eexists _, _. split_and!; [reflexivity|done..|by left]. }
  destruct E as (Es & Ef & Ea & Ee & _). rewrite Ha in Ea.
  destruct d; try discriminate He;
    try (eexists _, _; split_and!; [reflexivity|done..|]; right; split; [done|]; unfold skim; cbn;
      rewrite <- ?Es; reflexivity).
  cbn [is_expr] in He. apply andb_prop in He as [Hl Hr]. simpl in IH.
  apply Forall_app in IH as [IHl IHr].
  assert (forall s1 : state M, flow s1 <> FLOW_NORMAL -> negb (is_flow FLOW_NORMAL s1) = true) as Hneg
    by (intros s2 H2; rewrite is_flow_eqb; by destruct (flow s2)).
  assert (flow s1 <> FLOW_NORMAL) as Hf1 by congruence.
  destruct left as [l|]; cbn [eval_opt] in *.
  - inversion IHl as [|? ? IHl' _]; subst. destruct (IHl' Hl s1 Ea Hf1) as (v & s2 & -> & Es2 & Ef2 & Ee2 & Hd).
    cbn [bind]. rewrite bool_decide_eq_true_2, Hneg by (eauto || congruence). cbn [andb].
    eexists _, _. split_and!; [reflexivity|congruence..|]. destruct Hd as [?|[? _]]; [by left|by right].
  - cbn [bind]. rewrite bool_decide_eq_false_2 by (by intros [? ?]). cbn [andb].
    destruct right as [r|]; cbn [eval_opt bind].
    + inversion IHr as [|? ? IHr' _]; subst. destruct (IHr' Hr s1 Ea Hf1) as (v & s2 & -> & Es2 & Ef2 & Ee2 & Hd).
      cbn [bind]. rewrite Hneg by congruence. eexists _, _. split_and!; [reflexivity|congruence..|].
      destruct Hd as [?|[? _]]; [by left|by right].
    + rewrite Hneg by done. eexists _, _. split_and!; [reflexivity|done..|by right].
Qed.

Lemma skim_post_sound p (s : state M) :
  is_simple p = true -> aborted s = false -> flow s <> FLOW_NORMAL ->
  exists v s', exprtk_eval pow format_g deeper p s = Done v s' /\ flow s' = flow s /\
    error_value s' = error_value s /\
    (dead s' \/ (aborted s' = false /\ scopes s' = skim_post pow format_g p (scopes s))).
Proof.
  intros Hp Ha Hf. unfold is_simple in Hp. destruct (is_expr p) eqn:He; cbn [orb] in Hp.
  - destruct (skim_sound p He s Ha Hf) as (v & s' & -> & Es & Ef & Ee & Hd).
    eexists _, _. split_and!; [reflexivity|done..|]. destruct Hd as [?|[? _]]; [by left|right].
    split; [done|]. rewrite Es. destruct p as [line column []]; try reflexivity. discriminate He.
  - destruct p as [line column []]; try discriminate Hp. cbn [data] in Hp. destruct name as [x|]; [|done].
    cbn [exprtk_eval]. rewrite Ha. destruct (enter line column s) as [ok s1] eqn:E.
    apply enter_cases in E. destruct ok; cbn [negb].
    2: { destruct E as (Hd & ? & ? & ?). eexists _, _. split_and!; [reflexivity|done..|by left]. }
    destruct E as (Es & Ef & Ea & Ee & _). rewrite Ha in Ea. unfold skim_post. cbn [data].
    destruct value as [n|]; cbn [eval_opt bind].
    + destruct (skim_sound n Hp s1 Ea ltac:(congruence)) as (v & s2 & -> & Es2 & Ef2 & Ee2 & Hd).
      cbn [bind]. eexists _, _. split_and!; [reflexivity|simpl; congruence..|].
      destruct Hd as [?|[? ->]]; [by left|right]. split; [done|]. simpl. congruence.
    + eexists _, _. split_and!; [reflexivity|done..|]. right. split; [done|]. simpl. congruence.
Qed.

(** ** Statements *)

(** The state shows the outcome. *)
Definition shows (o : outcome) (v : value) (s : state M) : Prop :=
  aborted s = false /\
  match o with
  | ONormal w => flow s = FLOW_NORMAL /\ v = w
  | OBreak => flow s = FLOW_BREAK /\ v = zero
  | OContinue => flow s = FLOW_CONTINUE /\ v = zero
  | OReturn w => flow s = FLOW_RETURN /\ v = w /\ return_value s = w
  | OThrow w => flow s = FLOW_THROW /\ error_value s = w
  | OWrong => False
  end.

Definition refines (P : outcome -> env -> Prop) (r : result M value) : Prop :=
  match r with
  | Done v s => dead s \/ exists o, P o (scopes s) /\ shows o v s
  | Undefined => exists e, P OWrong e
  | NotModelled => False
  | Interrupted => True
  end.

Lemma refines_mono (P P' : outcome -> env -> Prop) r :
  (forall o e, P o e -> P' o e) -> refines P r -> refines P' r.
Proof. intros H. destruct r; simpl; [|intros [e ?]; eauto|done..]. intros [?|(o & ? & ?)]; eauto 6. Qed.

Definition sound (o : option node) : Prop :=
  forall s, live s ->
  refines (exec pow format_g o (scopes s)) (eval_opt (exprtk_eval pow format_g deeper) o s).

Lemma opt_expr_sound o (s : state M) :
  live s -> opt_all is_expr o = true ->
  expr_post (opt_value (expr_value pow format_g (scopes s)) o) s
    (eval_opt (exprtk_eval pow format_g deeper) o s).
Proof. intros Hs Ho. apply opt_expr; [done..|]. destruct o; constructor; [|constructor]. by apply expr_sound. Qed.

(** A failing expression ends what contains it. *)
Lemma failed_refines (P : outcome -> env -> Prop) r (v : value) (s s' : state M) :
  scopes s' = scopes s -> aborted s' = false ->
  match r with
  | OpThrow message => flow s' = FLOW_THROW /\ error_value s' = VString message
  | _ => False
  end ->
  P (result_of r) (scopes s) -> refines P (Done v s').
Proof.
  intros Es Ea H HP. right. exists (result_of r). rewrite Es. split; [done|].
  destruct r; [done| |done]. by split.
Qed.

Lemma opt_skim o (s : state M) :
  opt_all is_expr o = true -> aborted s = false -> flow s <> FLOW_NORMAL ->
  exists v s', eval_opt (exprtk_eval pow format_g deeper) o s = Done v s' /\ scopes s' = scopes s /\
    flow s' = flow s /\ error_value s' = error_value s /\ (dead s' \/ aborted s' = false).
Proof.
  intros Ho Ha Hf. destruct o as [n|]; cbn [eval_opt]; [|eexists _, _; split_and!; (done || by right)].
  destruct (skim_sound n Ho s Ha Hf) as (v & s' & -> & ? & ? & ? & Hd).
  eexists _, _. split_and!; [done..|]. destruct Hd as [?|[? _]]; [by left|by right].
Qed.

(** ** Loops *)

(** Evaluate an expression: it dies, succeeds or fails. *)
Ltac run_expr Hs He v s' Hd Es Ea Ef :=
  let E := fresh "E" in
  pose proof (opt_expr_sound _ _ Hs He) as E; unfold expr_post in E;
  lazymatch type of E with
  | match ?r with _ => _ end =>
      destruct r as [v s'| | |]; cbn [bind]; [|..|destruct E|destruct E];
      [destruct E as [[Hd _]|(Es & Ea & E)]|]
  end.

Definition stays_dead (r : result M value) : Prop :=
  match r with Done _ s => dead s | Interrupted => True | _ => False end.

Lemma dead_refines P r : stays_dead r -> refines P r.
Proof. destruct r; simpl; [by left|done..]. Qed.

Lemma dead_flow f (s : state M) : dead s -> dead (set_flow f s).
Proof. done. Qed.

Section loops.
Context (c b : option node) (Hc : opt_all is_expr c = true) (Hb : sound b).
Local Abbreviation ev := (eval_opt (exprtk_eval pow format_g deeper)).

Lemma while_dead k last (s : state M) : dead s -> stays_dead (while_loop k (ev c) (ev b) last s).
Proof.
  intros Hd. destruct k as [|k]; [done|]. cbn [while_loop]. destruct (_ && _); [done|].
  set (s1 := if is_flow FLOW_CONTINUE s then set_flow FLOW_NORMAL s else s).
  assert (dead s1) as Hd1 by (unfold s1; by destruct (is_flow _ _)). clearbody s1.
  rewrite opt_aborted by apply Hd1. cbn [bind]. rewrite (proj1 Hd1), orb_true_r. exact Hd1.
Qed.

Lemma while_continue k last (s : state M) :
  flow s = FLOW_CONTINUE ->
  while_loop k (ev c) (ev b) last s = while_loop k (ev c) (ev b) last (set_flow FLOW_NORMAL s).
Proof. intros Hf. destruct k as [|k]; [done|]. cbn [while_loop]. by flows. Qed.

Lemma while_refines k : forall last s, live s ->
  refines (while_runs pow format_g c b last (scopes s)) (while_loop k (ev c) (ev b) last s).
Proof.
  induction k as [|k IH]; intros last s Hs; [done|]. cbn [while_loop].
  destruct (Hs) as [Hf Ha]. flows.
  run_expr Hs Hc v s1 Hd Es Ea Ef.
  - rewrite (proj1 Hd), orb_true_r. left. exact Hd.
  - destruct (opt_value _ c) as [w|m|] eqn:Ec; [destruct E as [-> Hf1]|destruct E as (-> & Hf1 & Hv)|done]; flows.
    2: { eapply (failed_refines _ (OpThrow m)); [done..|]. rewrite <- Ec. apply while_fails. by rewrite Ec. }
    destruct (eval_value_truthy w) eqn:Et; cbn [negb].
    2: { right. exists (ONormal last). rewrite Es. split; [by eapply while_ends|by split]. }
    destruct (eval_loop_tick s1) as [ok s2] eqn:Tk. apply tick_cases in Tk.
    destruct ok; cbn [negb]; [|by left]. destruct Tk as (Es2 & Ef2 & Ea2).
    assert (live s2) as Hs2 by (split; congruence).
    assert (scopes s2 = scopes s) as Es2' by congruence. rewrite <- Es2' in *.
    pose proof (Hb s2 Hs2) as B. destruct (ev b s2) as [u s3| | |]; cbn [bind]; try done.
    + destruct B as [Hd|(o & Hx & Ha3 & Ho)].
      { destruct (is_flow _ _); [by left|]. destruct (is_flow _ _); [by left|].
        apply dead_refines. by apply while_dead. }
      destruct o; [destruct Ho as [Hf3 ->]|destruct Ho as [Hf3 ->]|destruct Ho as [Hf3 ->]
        |destruct Ho as (Hf3 & -> & Hr)|destruct Ho as [Hf3 Hv]|done]; flows.
      * eapply refines_mono; [|apply IH; by split]. intros o e H. by eapply while_turns.
      * right. exists (ONormal zero). split; [by eapply while_leaves|by split].
      * rewrite while_continue by done. eapply refines_mono; [|apply IH; by split].
        intros o e H. by eapply while_turns.
      * right. eexists. split; [by eapply while_leaves|by split].
      * destruct k as [|k']; [done|]. cbn [while_loop]. flows.
        right. eexists. split; [by eapply while_leaves|by split].
    + destruct B as [e B]. exists e. by eapply while_leaves.
  - exists (scopes s). change OWrong with (result_of OpUndefined). rewrite <- E. apply while_fails. by rewrite E.
Qed.

Lemma do_while_dead k (s : state M) : dead s -> stays_dead (do_while_loop k (ev b) (ev c) s).
Proof.
  intros Hd. destruct k as [|k]; [done|]. cbn [do_while_loop]. rewrite opt_aborted by apply Hd.
  cbn [bind]. destruct (is_flow _ _); [done|]. destruct (is_flow _ _); [done|].
  set (s1 := if is_flow FLOW_CONTINUE s then set_flow FLOW_NORMAL s else s).
  assert (dead s1) as Hd1 by (unfold s1; by destruct (is_flow _ _)). clearbody s1.
  rewrite opt_aborted by apply Hd1. cbn [bind]. rewrite (proj1 Hd1), orb_true_r. exact Hd1.
Qed.

(** The end of a turn of [do ... while], after a body that asks for more. *)
Lemma do_while_again k e o w (s : state M) :
  (forall s, live s -> refines (do_while_runs pow format_g b c (scopes s)) (do_while_loop k (ev b) (ev c) s)) ->
  exec pow format_g b e o (scopes s) -> after_body o = Again w -> live s ->
  refines (do_while_runs pow format_g b c e)
    (let* (cond_val, s) := ev c s in
     if negb (is_flow FLOW_NORMAL s) || aborted s then Done w s else
     if negb (eval_value_truthy cond_val) then Done w s else
     let (ok, s) := eval_loop_tick s in
     if negb ok then Done w s else do_while_loop k (ev b) (ev c) s).
Proof.
  intros IH Hx Ho Hs. run_expr Hs Hc v s1 Hd Es Ea Ef.
  - rewrite (proj1 Hd), orb_true_r. left. exact Hd.
  - destruct (opt_value _ c) as [u|m|] eqn:Ec; [destruct E as [-> Hf1]|destruct E as (-> & Hf1 & Hv)|done]; flows.
    2: { right. exists (OThrow (VString m)). rewrite Es. split; [|done].
         change (OThrow (VString m)) with (result_of (OpThrow m)). rewrite <- Ec.
         eapply do_fails; [done..|]. by rewrite Ec. }
    destruct (eval_value_truthy u) eqn:Et; cbn [negb].
    2: { right. exists (ONormal w). rewrite Es. split; [by eapply do_ends|by split]. }
    destruct (eval_loop_tick s1) as [ok s2] eqn:Tk. apply tick_cases in Tk.
    destruct ok; cbn [negb]; [|by left]. destruct Tk as (Es2 & Ef2 & Ea2).
    eapply refines_mono; [|apply IH; split; congruence]. intros o' e' H.
    eapply do_turns; [done..|]. by rewrite <- Es, <- Es2.
  - exists (scopes s). change OWrong with (result_of OpUndefined). rewrite <- E.
    eapply do_fails; [done..|]. by rewrite E.
Qed.

Lemma do_while_refines k : forall s, live s ->
  refines (do_while_runs pow format_g b c (scopes s)) (do_while_loop k (ev b) (ev c) s).
Proof.
  induction k as [|k IH]; intros s Hs; [done|]. cbn [do_while_loop].
  pose proof (Hb s Hs) as B. destruct (ev b s) as [u s3| | |]; cbn [bind]; try done.
  - destruct B as [Hd|(o & Hx & Ha3 & Ho)].
    { destruct (is_flow _ _); [by left|]. destruct (is_flow _ _); [by left|].
      set (s1 := if is_flow FLOW_CONTINUE s3 then set_flow FLOW_NORMAL s3 else s3).
      assert (dead s1) as Hd1 by (unfold s1; by destruct (is_flow _ _)). clearbody s1. cbv zeta.
      rewrite opt_aborted by apply Hd1. cbn [bind]. rewrite (proj1 Hd1), orb_true_r. by left. }
    destruct o; [destruct Ho as [Hf3 ->]|destruct Ho as [Hf3 ->]|destruct Ho as [Hf3 ->]
      |destruct Ho as (Hf3 & -> & Hr)|destruct Ho as [Hf3 Hv]|done]; flows.
    + eapply do_while_again; [done|done|done|by split].
    + right. exists (ONormal zero). split; [by eapply do_leaves|by split].
    + eapply (do_while_again k _ _ zero (set_flow FLOW_NORMAL s3)); [done|done|done|by split].
    + right. eexists. split; [by eapply do_leaves|by split].
    + destruct (opt_skim c s3 Hc Ha3 ltac:(congruence)) as (u' & s4 & -> & Es4 & Ef4 & Ee4 & Hd).
      cbn [bind]. rewrite is_flow_eqb, Ef4, Hf3. cbn [flow_eqb negb orb].
      destruct Hd as [Hd|Ha4]; [by left|right]. exists (OThrow v). rewrite Es4.
      split; [by eapply do_leaves|]. split; [done|]. split; congruence.
  - destruct B as [e B]. exists e. by eapply do_leaves.
Qed.
End loops.

(** The outcomes of an expression or assignment. *)
Lemma simple_outcome p e o e' :
  is_simple p = true -> exec pow format_g (Some p) e o e' ->
  match o with ONormal _ | OThrow _ | OWrong => True | _ => False end.
Proof.
  intros Hp H. inversion H; subst; try discriminate Hp; try done;
    try (by destruct (expr_value pow format_g e' p)).
  destruct (opt_value _ v); simplify_eq/=; done.
Qed.

Section for_loops.
Context (c p : node) (b : option node).
Context (Hc : is_expr c = true) (Hp : is_simple p = true) (Hps : sound (Some p)) (Hb : sound b).
Local Abbreviation run := (exprtk_eval pow format_g deeper).
Local Abbreviation loop k := (for_loop k (Some (run c)) (Some (run p)) (eval_opt run b)).

Lemma for_dead k last (s : state M) : dead s -> stays_dead (loop k last s).
Proof.
  intros Hd. destruct k as [|k]; [done|]. cbn [for_loop]. rewrite eval_aborted by apply Hd.
  cbn [bind]. rewrite (proj1 Hd), orb_true_r. exact Hd.
Qed.

(** The post expression and the next turn, the body having ended with outcome
    [o]. *)
Definition for_post (k : nat) (last : value) (s : state M) : result M value :=
  let* (_, s) := run p s in
  if negb (is_flow FLOW_NORMAL s) && negb (is_flow FLOW_CONTINUE s) then Done last s
  else loop k last (if is_flow FLOW_CONTINUE s then set_flow FLOW_NORMAL s else s).

Lemma for_post_dead k last (s : state M) : dead s -> stays_dead (for_post k last s).
Proof.
  intros Hd. unfold for_post. rewrite eval_aborted by apply Hd. cbn [bind].
  destruct (_ && _); [exact Hd|]. apply for_dead. by destruct (is_flow _ _).
Qed.

Lemma for_post_refines k last e v o w (s : state M) :
  (forall last s, live s -> refines (for_runs pow format_g c p b last (scopes s)) (loop k last s)) ->
  expr_value pow format_g e c = OpValue v -> eval_value_truthy v = true ->
  exec pow format_g b e o (scopes s) -> shows o w s ->
  (o = ONormal w \/ (o = OContinue /\ w = zero) \/ exists x, o = OThrow x) ->
  refines (for_runs pow format_g c p b last e) (for_post k w s).
Proof.
  intros IH Hv Ht Hx [Ha Ho] [->|[[-> ->]|[x ->]]].
  - destruct Ho as [Hf _]. unfold for_post.
    pose proof (Hps s (conj Hf Ha)) as P. cbn [eval_opt] in P.
    destruct (run p s) as [u s1| | |]; cbn [bind]; try done.
    + destruct P as [Hd|(o & Hx1 & Ha1 & Ho)].
      { destruct (_ && _); [by left|]. apply dead_refines, for_dead. by destruct (is_flow _ _). }
      destruct o; [destruct Ho as [Hf1 ->]|destruct Ho as [Hf1 ->]|destruct Ho as [Hf1 ->]
        |destruct Ho as (Hf1 & -> & Hr)|destruct Ho as [Hf1 Hw]|done].
      * flows. eapply refines_mono; [|apply IH; by split]. intros o' e' H. by eapply for_turns.
      * exfalso. by eapply simple_outcome in Hx1.
      * exfalso. by eapply simple_outcome in Hx1.
      * exfalso. by eapply simple_outcome in Hx1.
      * flows. right. eexists. split; [by eapply for_post_fails|by split].
    + destruct P as [e1 P]. exists e1. by eapply for_post_fails.
  - destruct Ho as [Hf _]. unfold for_post.
    destruct (skim_post_sound p s Hp Ha ltac:(congruence)) as (u & s1 & -> & Ef1 & Ee1 & Hd).
    cbn [bind]. rewrite !is_flow_eqb, Ef1, Hf. cbn [flow_eqb negb andb].
    destruct Hd as [Hd|[Ha1 Es1]]; [by apply dead_refines, for_dead|].
    eapply refines_mono; [|apply IH; by split]. cbn [scopes set_flow]. rewrite Es1.
    intros o' e' H. by eapply for_continues.
  - destruct Ho as [Hf Hw]. unfold for_post.
    destruct (skim_post_sound p s Hp Ha ltac:(congruence)) as (u & s1 & -> & Ef1 & Ee1 & Hd).
    cbn [bind]. rewrite !is_flow_eqb, Ef1, Hf. cbn [flow_eqb negb andb].
    destruct Hd as [Hd|[Ha1 Es1]]; [by left|right]. exists (OThrow x). rewrite Es1.
    split; [by eapply for_throws|]. split; [done|]. split; congruence.
Qed.

Lemma for_refines k : forall last s, live s ->
  refines (for_runs pow format_g c p b last (scopes s)) (loop k last s).
Proof.
  induction k as [|k IH]; intros last s Hs; [done|]. cbn [for_loop].
  pose proof (expr_sound c Hc s Hs) as E. unfold expr_post in E.
  destruct (run c s) as [v s1| | |]; cbn [bind]; [|..|destruct E|destruct E].
  - destruct E as [[Hd _]|(Es & Ea & E)]; [rewrite (proj1 Hd), orb_true_r; left; exact Hd|].
    destruct (expr_value pow format_g (scopes s) c) as [w|m|] eqn:Ec;
      [destruct E as [-> Hf1]|destruct E as (-> & Hf1 & Hv)|done]; flows.
    2: { eapply (failed_refines _ (OpThrow m)); [done..|]. rewrite <- Ec. apply for_fails. by rewrite Ec. }
    destruct (eval_value_truthy w) eqn:Et; cbn [negb].
    2: { right. exists (ONormal last). rewrite Es. split; [by eapply for_ends|by split]. }
    unfold for_turn. destruct (eval_loop_tick s1) as [ok s2] eqn:Tk. apply tick_cases in Tk.
    destruct ok; cbn [negb]; [|by left]. destruct Tk as (Es2 & Ef2 & Ea2).
    assert (live s2) as Hs2 by (split; congruence).
    assert (scopes s2 = scopes s) as Es2' by congruence. rewrite <- Es2' in *.
    pose proof (Hb s2 Hs2) as B. destruct (eval_opt run b s2) as [u s3| | |]; cbn [bind]; try done.
    + destruct B as [Hd|(o & Hx & Hsh)].
      { destruct (is_flow _ _); [by left|]. destruct (is_flow _ _); [by left|].
        apply dead_refines. by apply (for_post_dead k u). }
      assert (Hsh' := Hsh). destruct Hsh as [Ha3 Ho].
      destruct o; [destruct Ho as [Hf3 ->]|destruct Ho as [Hf3 ->]|destruct Ho as [Hf3 ->]
        |destruct Ho as (Hf3 & -> & Hr)|destruct Ho as [Hf3 Hv]|done]; flows.
      * eapply (for_post_refines k last); [done..|]. by left.
      * right. exists (ONormal zero). split; [by eapply for_leaves|by split].
      * eapply (for_post_refines k last _ _ _ zero); [done..|]. by right; left.
      * right. eexists. split; [by eapply for_leaves|by split].
      * eapply (for_post_refines k last); [done..|]. right; right. eauto.
    + destruct B as [e B]. exists e. by eapply for_leaves.
  - exists (scopes s). change OWrong with (result_of OpUndefined). rewrite <- E. apply for_fails. by rewrite E.
Qed.
End for_loops.

(** ** Blocks and cases *)

Lemma block_refines l :
  Forall (fun n => structured n = true -> sound (Some n)) l -> forallb structured l = true ->
  forall last s, live s ->
  refines (block_runs pow format_g l last (scopes s)) (block_loop (exprtk_eval pow format_g deeper) l last s).
Proof.
  induction 1 as [|n l Hn Hl IH]; intros Hst last s Hs; cbn [block_loop forallb] in *.
  - destruct Hs. right. exists (ONormal last). split; [constructor|by split].
  - apply andb_prop in Hst as [Hsn Hsl]. pose proof (Hn Hsn s Hs) as B. cbn [eval_opt] in B.
    destruct (exprtk_eval pow format_g deeper n s) as [v s1| | |]; cbn [bind]; try done.
    + destruct B as [Hd|(o & Hx & Ha & Ho)].
      { destruct (negb _); [by left|]. rewrite (proj1 Hd). left. exact Hd. }
      destruct o; [destruct Ho as [Hf ->]|destruct Ho as [Hf ->]|destruct Ho as [Hf ->]
        |destruct Ho as (Hf & -> & Hr)|destruct Ho as [Hf Hv]|done]; flows.
      * eapply refines_mono; [|apply IH; [done|by split]]. intros o e H. by eapply block_next.
      * right. eexists. split; [by eapply block_leaves|by split].
      * right. eexists. split; [by eapply block_leaves|by split].
      * right. eexists. split; [by eapply block_leaves|by split].
      * right. eexists. split; [by eapply block_leaves|by split].
    + destruct B as [e B]. exists e. by eapply block_leaves.
Qed.

Lemma dead_eval n (s : state M) : dead s -> stays_dead (exprtk_eval pow format_g deeper n s).
Proof. intros Hd. rewrite eval_aborted by apply Hd. exact Hd. Qed.

Lemma switch_dead w d l (s : state M) :
  all_cases structured l = true -> dead s ->
  stays_dead (switch_loop (exprtk_eval pow format_g deeper) w d l s).
Proof.
  remember (length l) as k eqn:Ek. revert l Ek. induction k as [k IH] using lt_wf_ind; intros l Ek Hl Hd.
  destruct l as [|c [|b l]]; [|discriminate Hl|]; cbn [switch_loop].
  - rewrite opt_aborted by apply Hd. exact Hd.
  - cbn [all_cases] in Hl. apply andb_prop in Hl as [_ Hl].
    rewrite eval_aborted by apply Hd. cbn [bind]. destruct (negb _); [exact Hd|].
    destruct (case_matches _ _); [by apply dead_eval|].
    eapply IH; [|reflexivity|done|done]. subst k. simpl. lia.
Qed.

Lemma switch_refines w d l :
  Forall (fun n => structured n = true -> sound (Some n)) l -> all_cases structured l = true ->
  sound d ->
  forall s, live s ->
  refines (switch_runs pow format_g w d l (scopes s)) (switch_loop (exprtk_eval pow format_g deeper) w d l s).
Proof.
  intros Hall Hl Hd. remember (length l) as k eqn:Ek. revert l Ek Hall Hl.
  induction k as [k IH] using lt_wf_ind; intros l Ek Hall Hl s Hs.
  destruct l as [|c [|b l]]; [|discriminate Hl|]; cbn [switch_loop].
  - eapply refines_mono; [|by apply Hd]. intros o e. by constructor.
  - cbn [all_cases] in Hl. apply andb_prop in Hl as [Hcb Hl]. apply andb_prop in Hcb as [Hc Hb].
    inversion Hall as [|? ? _ Hall']; subst. inversion Hall' as [|? ? Hsb Hall'']; subst.
    pose proof (expr_sound c Hc s Hs) as E. unfold expr_post in E.
    destruct (exprtk_eval pow format_g deeper c s) as [v s1| | |]; cbn [bind]; [|..|destruct E|destruct E].
    + destruct E as [[Hdd _]|(Es & Ea & E)].
      { destruct (negb _); [by left|]. apply dead_refines. destruct (case_matches _ _); [by apply dead_eval|].
        by apply switch_dead. }
      destruct (expr_value pow format_g (scopes s) c) as [u|m|] eqn:Ec;
        [destruct E as [-> Hf1]|destruct E as (-> & Hf1 & Hv)|done]; flows.
      2: { eapply (failed_refines _ (OpThrow m)); [done..|]. rewrite <- Ec. apply switch_fails. by rewrite Ec. }
      destruct (case_matches w u) eqn:Em.
      * eapply refines_mono; [|apply (Hsb Hb); by split]. intros o e H. rewrite Es in H.
        by eapply switch_matches.
      * eapply refines_mono; [|eapply (IH (length l)); [simpl; lia|reflexivity|done|done|by split]].
        intros o e H. rewrite Es in H. by eapply switch_next.
    + exists (scopes s). change OWrong with (result_of OpUndefined). rewrite <- E. apply switch_fails.
      by rewrite E.
Qed.

(** ** Every structured program *)

(** An assignment or a constant declaration; [fin] is what follows the
    evaluation of its expression. *)
Lemma store_refines (P : outcome -> env -> Prop) set x o (s : state M) :
  live s -> opt_all is_expr o = true ->
  (forall out e, store set x (opt_value (expr_value pow format_g (scopes s)) o) (scopes s) = (out, e) -> P out e) ->
  refines P
    (let* (val, s) := eval_opt (exprtk_eval pow format_g deeper) o s in
     let s := assign set (Some x) val s in Done (variable (Some x) s) s).
Proof.
  intros Hs Ho HP. run_expr Hs Ho v s1 Hd Es Ea Ef.
  - by left.
  - unfold assign, variable. destruct (opt_value _ o) as [w|m|]; [destruct E as [-> Hf]|destruct E as (-> & Hf & Hv)|done].
    + right. eexists. cbn [scopes set_scopes]. rewrite Es. split; [by apply HP|by split].
    + right. exists (OThrow (VString m)). cbn [scopes set_scopes]. rewrite Es. split; [by apply HP|by split].
  - exists (scopes s). apply HP. by rewrite E.
Qed.

Lemma caught_scopes x (s : state M) :
  scopes (catch_state x s) = caught x (error_value s) (scopes s) /\
  flow (catch_state x s) = FLOW_NORMAL /\ aborted (catch_state x s) = false /\
  meter (catch_state x s) = meter s.
Proof. by destruct x. Qed.

(** The body of a [catch]. *)
Lemma catch_refines b x c e v (s : state M) :
  exec pow format_g b e (OThrow v) (scopes s) -> error_value s = v -> flow s = FLOW_NORMAL ->
  structured c = true -> sound (Some c) ->
  forall line column,
  refines (exec pow format_g (Some (Node line column (NODE_TRY_CATCH b x (Some c)))) e)
    (let* (r, child) := exprtk_eval pow format_g deeper c (catch_state x s) in Done r (leave_catch child s)).
Proof.
  intros Hx <- Hf Hc Hs line column. destruct (caught_scopes x s) as (Ec & Efc & Eac & _).
  pose proof (Hs _ (conj Efc Eac)) as C. rewrite Ec in C. cbn [eval_opt] in C.
  destruct (exprtk_eval pow format_g deeper c (catch_state x s)) as [r child| | |]; cbn [bind]; try done.
  - destruct C as [Hd|(o & Hx1 & Ha & Ho)]; [by left|right]. exists o.
    split; [by eapply exec_catch|]. split; [done|].
    destruct o; [destruct Ho as [Hf1 ->]|destruct Ho as [Hf1 ->]|destruct Ho as [Hf1 ->]
        |destruct Ho as (Hf1 & -> & Hr)|destruct Ho as [Hf1 Hv]|done];
      unfold leave_catch; cbn [flow error_value return_value]; by flows.
  - destruct C as [e1 C]. exists (tail e1). by eapply exec_catch.
Qed.

(** A refused step in the body of a [catch] that an aborted run reaches. *)
Lemma catch_dead x c (s : state M) :
  dead s ->
  stays_dead (let* (r, child) := exprtk_eval pow format_g deeper c (catch_state x s) in
              Done r (leave_catch child s)).
Proof.
  intros [_ Hl]. destruct (caught_scopes x s) as (_ & _ & Eac & Em). rewrite <- Em in Hl.
  destruct c as [line column d]. cbn [exprtk_eval]. rewrite Eac.
  destruct (enter line column (catch_state x s)) as [ok s1] eqn:E.
  assert (ok = false) as ->.
  { revert E. unfold enter. apply latched_step in Hl.
    destruct (0 <? line); cbn [meter set_last]; destruct (meter_step _) as [[] m]; try done; by intros [= <- _]. }
  apply enter_cases in E. cbn [negb bind]. destruct E as [Hd _]. exact Hd.
Qed.

(** The statements one by one, after the step that enters them. *)
Section statements.
Context (line column : Z) (s : state M) (Hs : live s).
Local Abbreviation run := (exprtk_eval pow format_g deeper).
Local Abbreviation means d := (exec pow format_g (Some (Node line column d)) (scopes s)).

Lemma if_refines c a b :
  opt_all is_expr c = true -> sound a -> sound b ->
  refines (means (NODE_IF c a b))
    (let* (cond_val, s) := eval_opt run c s in
     if negb (is_flow FLOW_NORMAL s) then Done zero s else
     if eval_value_truthy cond_val then eval_opt run a s else eval_opt run b s).
Proof.
  intros Hc Ha Hb. run_expr Hs Hc v s1 Hd Es Ea Ef.
  - destruct (negb _); [by left|]. apply dead_refines.
    destruct (eval_value_truthy v); (rewrite opt_aborted by apply Hd); exact Hd.
  - destruct (opt_value _ c) as [w|m|] eqn:Ec; [destruct E as [-> Hf1]|destruct E as (-> & Hf1 & Hv)|done]; flows.
    + rewrite <- Es in *. assert (live s1) as Hs1 by (by split).
      destruct (eval_value_truthy w) eqn:Et; (eapply refines_mono; [|by auto]); intros o e H;
        (eapply exec_if; [exact Ec|by rewrite Et]).
    + eapply (failed_refines _ (OpThrow m)); [done..|]. rewrite <- Ec. apply exec_if_fails. by rewrite Ec.
  - exists (scopes s). change OWrong with (result_of OpUndefined). rewrite <- E. apply exec_if_fails. by rewrite E.
Qed.

Lemma for_statement_refines i c p b :
  opt_all is_simple i = true -> sound i -> is_expr c = true -> is_simple p = true -> sound (Some p) ->
  sound b ->
  refines (means (NODE_FOR i (Some c) (Some p) b))
    (let* (_, s) := eval_opt run i s in
     if negb (is_flow FLOW_NORMAL s) || aborted s then Done zero s else
     for_loop (loop_bound s) (Some (run c)) (Some (run p)) (eval_opt run b) zero s).
Proof.
  intros Hi Hsi Hc Hp Hsp Hb. pose proof (Hsi s Hs) as I.
  destruct (eval_opt _ i s) as [v s1| | |]; cbn [bind]; try done.
  - destruct I as [Hd|(o & Hx & Ha1 & Ho)]; [rewrite (proj1 Hd), orb_true_r; left; exact Hd|].
    assert (match o with ONormal _ | OThrow _ | OWrong => True | _ => False end) as Hout
      by (destruct i; [exact (simple_outcome _ _ _ _ Hi Hx)|by inversion Hx; subst]).
    destruct o; try done; [destruct Ho as [Hf1 ->]|destruct Ho as [Hf1 Hv]]; flows.
    + eapply refines_mono; [|apply for_refines; [done|done|done|done|by split]].
      intros o e H. by eapply exec_for.
    + right. eexists. split; [by eapply exec_for_fails|by split].
  - destruct I as [e I]. exists e. by eapply exec_for_fails.
Qed.

Lemma return_refines n :
  is_expr n = true ->
  refines (means (NODE_FLOW TOKEN_RETURN (Some n)))
    (let* (r, s) := run n s in
     let s := set_return_value r s in
     if negb (is_flow FLOW_NORMAL s) || aborted s then Done r s else Done r (set_flow FLOW_RETURN s)).
Proof.
  intros Hn. pose proof (opt_expr_sound (Some n) s Hs Hn) as E. cbn [eval_opt] in E. unfold expr_post in E.
  destruct (run n s) as [v s1| | |]; cbn [bind]; [|..|done|done].
  - destruct E as [[Hd _]|(Es & Ea & E)].
    { cbn [aborted set_return_value]. rewrite (proj1 Hd), orb_true_r. left. exact Hd. }
    destruct (opt_value _ _) as [w|m|] eqn:Ec; [destruct E as [-> Hf1]|destruct E as (-> & Hf1 & Hv)|done];
      rewrite is_flow_eqb; cbn [flow aborted set_return_value]; flows.
    + right. exists (OReturn w). cbn [scopes set_flow set_return_value]. rewrite Es.
      split; [by apply exec_return|by split].
    + eapply (failed_refines _ (OpThrow m)); [done..|]. rewrite <- Ec. apply exec_return_fails. by rewrite Ec.
  - exists (scopes s). change OWrong with (result_of OpUndefined). rewrite <- E.
    apply exec_return_fails. by rewrite E.
Qed.

Lemma switch_statement_refines v cases d :
  opt_all is_expr v = true -> all_cases structured cases = true ->
  Forall (fun n => structured n = true -> sound (Some n)) cases -> sound d ->
  refines (means (NODE_SWITCH v cases d))
    (let* (switch_val, s) := eval_opt run v s in
     if negb (is_flow FLOW_NORMAL s) then Done zero s else switch_loop run switch_val d cases s).
Proof.
  intros Hv Hl Hall Hd. run_expr Hs Hv u s1 Hdd Es Ea Ef.
  - destruct (negb _); [by left|]. apply dead_refines. by apply switch_dead.
  - destruct (opt_value _ v) as [w|m|] eqn:Ec; [destruct E as [-> Hf1]|destruct E as (-> & Hf1 & Hv1)|done]; flows.
    + rewrite <- Es in *. eapply refines_mono; [|apply switch_refines; [done|done|done|by split]].
      intros o e H. by eapply exec_switch.
    + eapply (failed_refines _ (OpThrow m)); [done..|]. rewrite <- Ec. apply exec_switch_fails. by rewrite Ec.
  - exists (scopes s). change OWrong with (result_of OpUndefined). rewrite <- E. apply exec_switch_fails. by rewrite E.
Qed.

Lemma try_refines b x c :
  sound b -> structured c = true -> sound (Some c) ->
  refines (means (NODE_TRY_CATCH b x (Some c)))
    (let* (r, s) := eval_opt run b s in
     if is_flow FLOW_THROW s then
       let s := set_flow FLOW_NORMAL s in
       let* (r, child) := run c (catch_state x s) in Done r (leave_catch child s)
     else Done r s).
Proof.
  intros Hb Hc Hsc. pose proof (Hb s Hs) as B.
  destruct (eval_opt _ b s) as [v s1| | |]; cbn [bind]; try done.
  - destruct B as [Hd|(o & Hx & Ha1 & Ho)].
    { destruct (is_flow _ _); [|by left]. apply dead_refines. by apply catch_dead. }
    destruct o; [destruct Ho as [Hf1 ->]|destruct Ho as [Hf1 ->]|destruct Ho as [Hf1 ->]
      |destruct Ho as (Hf1 & -> & Hr)|destruct Ho as [Hf1 Hv]|done]; flows.
    5: by eapply catch_refines.
    all: right; eexists; split; [by eapply exec_try|by split].
  - destruct B as [e B]. exists e. by eapply exec_try.
Qed.

Lemma throw_refines v :
  opt_all is_expr v = true ->
  refines (means (NODE_THROW v))
    (let* (thrown, s) := eval_opt run v s in Done thrown (set_error_value thrown (set_flow FLOW_THROW s))).
Proof.
  intros Hv. run_expr Hs Hv u s1 Hd Es Ea Ef; [by left| |by exists (scopes s); apply exec_throw_wrong].
  destruct (opt_value _ v) as [w|m|] eqn:Ec; [destruct E as [-> Hf1]|destruct E as (-> & Hf1 & Hv1)|done];
    right; eexists; cbn [scopes set_error_value set_flow]; rewrite Es.
  - split; [by apply exec_throw|by split].
  - split; [by eapply exec_throw_fails|by split].
Qed.
End statements.

Lemma expr_refines n : is_expr n = true -> sound (Some n).
Proof.
  intros He s Hs. cbn [eval_opt]. pose proof (expr_sound n He s Hs) as E. unfold expr_post in E.
  pose proof (exec_expr pow format_g n (scopes s) He) as X.
  destruct (exprtk_eval pow format_g deeper n s) as [v s1| | |]; [|by rewrite E in X; exists (scopes s)|done..].
  destruct E as [[Hd _]|(Es & Ea & E)]; [by left|]. right. eexists. rewrite Es. split; [exact X|].
  split; [done|]. destruct (expr_value _ _ _ _); [|by destruct E as (_ & ? & ?)|done].
  by destruct E as [-> ?].
Qed.

Lemma simple_structured n : is_simple n = true -> structured n = true.
Proof. destruct n as [line column d]. unfold is_simple. destruct d; cbn; rewrite ?orb_false_r; done. Qed.

Lemma eval_sound n : structured n = true -> sound (Some n).
Proof.
  induction n as [line column d IH] using node_children_ind. intros Hst.
  destruct (is_expr (Node line column d)) eqn:He; [by apply expr_refines|].
  intros s [Hf Ha]. cbn [eval_opt exprtk_eval]. rewrite Ha.
  destruct (enter line column s) as [ok s1] eqn:E. apply enter_cases in E.
  destruct ok; cbn [negb]; [|left; apply E]. destruct E as (Es & Ef & Ea & _). rewrite <- Es.
  assert (live s1) as Hs by (split; congruence). clear s Hf Ha Es Ef Ea. rename s1 into s.
  assert (forall o, opt_all structured o = true -> Forall (fun n => structured n = true -> sound (Some n)) (opt o) ->
    sound o) as Hopt.
  { intros [n|] Ho HF; [inversion HF; auto|]. intros s1 [Hf1 Ha1]. right. exists (ONormal zero).
    split; [constructor|by split]. }
  destruct d; cbn [structured children] in *; try congruence;
    repeat (apply Forall_app in IH as [? IH]); repeat (apply andb_prop in Hst as [Hst ?]).
  - destruct name; [|congruence]. apply store_refines; [done..|]. intros. by apply exec_assign.
  - apply if_refines; auto.
  - eapply refines_mono; [|apply while_refines; auto]. intros o e. by constructor.
  - destruct condition as [c|]; [|congruence]. destruct post as [p|]; [|congruence].
    repeat (apply andb_prop in Hst as [Hst ?]).
    apply for_statement_refines; auto.
    + apply Hopt; [|done]. destruct init; [by apply simple_structured|done].
    + apply Hopt; [by apply simple_structured|done].
  - eapply refines_mono; [|by apply block_refines]. intros o e. by constructor.
  - destruct Hs as [Hf Ha]. destruct type; try congruence.
    + right. exists OBreak. split; [constructor|by split].
    + right. exists OContinue. split; [constructor|by split].
    + destruct value; [by apply return_refines|]. right. exists (OReturn zero).
      split; [by apply exec_return|by split].
  - destruct name; [|congruence]. apply store_refines; [done..|]. intros. by apply exec_constant.
  - apply switch_statement_refines; auto.
  - eapply refines_mono; [|apply do_while_refines; auto]. intros o e. by constructor.
  - destruct catch_body as [c|]; [|congruence]. apply andb_prop in Hst as [Hb Hc].
    apply try_refines; auto.
  - by apply throw_refines.
Qed.

End structured.

(** C8: The interpreter implements the reference semantics.  A structured program
    that is started in a normal state either is aborted by a limit, or ends with
    exactly the outcome, the value and the scopes that the semantics gives it, and the
    semantics gives no other; it has undefined behaviour only where the semantics
    says so. *)
Theorem interp_refines n (s : state M) :
  natives_end -> structured n = true -> live s -> fit 0 s -> counted s ->
  match eval_script pow format_g n s with
  | Done v s' =>
      aborted s' = true \/
      exists o, shows o v s' /\
        forall o' e, exec pow format_g (Some n) (scopes s) o' e <-> o' = o /\ e = scopes s'
  | Undefined =>
      exists e, forall o' e', exec pow format_g (Some n) (scopes s) o' e' <-> o' = OWrong /\ e' = e
  | NotModelled | Interrupted => False
  end.
Proof.
  intros Hn Hst Hs Hf Hc. pose proof (depth_ends pow format_g n _ Hn 0 s (Z.le_refl 0) Hf Hc (le_n _)) as T.
  change (ends 0 s (eval_script pow format_g n s)) in T.
  assert (refines (exec pow format_g (Some n) (scopes s)) (eval_script pow format_g n s)) as R.
  { unfold eval_script. destruct (Z.to_nat _); exact (eval_sound _ n Hst s Hs). }
  destruct (runs_deterministic pow format_g) as [D _].
  destruct (eval_script pow format_g n s) as [v s'| | |]; [| |done|done].
  - destruct R as [[Ha _]|(o & Hx & Ho)]; [by left|right]. exists o. split; [done|]. intros o' e.
    split; [intros H; by destruct (D _ _ _ _ H _ _ Hx)|by intros [-> ->]].
  - destruct R as [e Hx]. exists e. intros o' e'.
    split; [intros H; by destruct (D _ _ _ _ H _ _ Hx)|by intros [-> ->]].
Qed.

End refinement.

(** [while (i < 4) { i = i + 1; try { if (i == 2) { throw 9 } } catch (e) { break } }],
    with a host budget of 1000 steps and 10 turns. *)
Definition demo_loop : node :=
  at1 (NODE_WHILE (Some (binary TOKEN_LT (var "i") (int 4)))
    (Some (block
      [set "i" (binary TOKEN_PLUS (var "i") (int 1));
       at1 (NODE_TRY_CATCH
         (Some (block [at1 (NODE_IF (Some (binary TOKEN_EQ (var "i") (int 2)))
                         (Some (block [at1 (NODE_THROW (Some (int 9)))])) None)]))
         (Some "e")
         (Some (block [at1 (NODE_FLOW TOKEN_BREAK None)])))]))).

Definition demo_host : state runtime_ctx :=
  State [{[ "i" := VarEntry (VInteger 0) false false ]}] FLOW_NORMAL zero zero false
    (ts_host_call_budget_attach idle_ctx 7
       (ts_host_call_budget_init demo_limits (CallOptions 2 1000 10 1 512 None))).2
    0 0 "" 0 0 [Table [] []] 100 0.

Lemma interp_refines_witness :
  match eval_script demo_pow demo_format demo_loop demo_host with
  | Done v s' => aborted s' = false /\ v = zero /\ exprtk_env_get zero (scopes s') "i" = VInteger 2
  | _ => False
  end /\
  match eval_script demo_pow demo_format demo_loop demo_host with
  | Done v s' =>
      aborted s' = true \/
      exists o, shows o v s' /\
        forall o' e, exec demo_pow demo_format (Some demo_loop) (scopes demo_host) o' e <->
                     o' = o /\ e = scopes s'
  | Undefined =>
      exists e, forall o' e', exec demo_pow demo_format (Some demo_loop) (scopes demo_host) o' e' <->
                              o' = OWrong /\ e' = e
  | NotModelled | Interrupted => False
  end.
Proof.
  split; [vm_compute; repeat split|].
  apply (interp_refines demo_pow demo_format demo_loop demo_host).
  - intros d fn args k s _ Hf _ _. by apply ends_here.
  - reflexivity.
  - split; reflexivity.
  - repeat split; vm_compute; discriminate.
  - repeat split; vm_compute; (discriminate || reflexivity).
Defined.
