(* ===== verification/InterpScopes.v ===== *)
(** What a program can do to its environment: constants keep their values,
    variables never disappear, and the chain of scopes is left as it was entered. *)

From S2P Require Import Prelude Float64 Ast Env Meter Value SortSearch Registry State Calls Interp InterpProofs.
Open Scope Z_scope.

Local Abbreviation scope := (gmap string (@var_entry value)).

Section scopes.
Context {M : Type} {HM : Meter M} {ML : MeterLaws M} (pow : f64 -> f64 -> f64) (format_g : f64 -> string).
Context {N : Natives M} {Q : QSort} {B : BSearch}.

(** ** Invariants of the scopes

    A relation between chains of scopes that the elementary changes respect is
    respected by every program. *)

Section invariant.
Context (R : list scope -> list scope -> Prop).
Context (R_refl : forall e, R e e) (R_trans : forall e1 e2 e3, R e1 e2 -> R e2 e3 -> R e1 e3).
Context (R_set : forall e x v, R e (exprtk_env_set e x v)).
Context (R_local : forall e x v, R e (exprtk_env_set_local e x v)).
Context (R_constant : forall e x v, R e (exprtk_env_set_constant e x v)).
Context (R_child : forall e s e', R (s :: e) e' -> R e (tail e')).

Definition respects {A} (e : list scope) (r : result M A) : Prop :=
  match r with Done _ s => R e (scopes s) | _ => True end.

Lemma respects_bind {A C} e (r : result M A) (k : A -> state M -> result M C) :
  respects e r -> (forall a s, R e (scopes s) -> respects e (k a s)) -> respects e (bind r k).
Proof. destruct r; simpl; auto. Qed.

Lemma respects_from {A} e e' (r : result M A) : R e e' -> respects e' r -> respects e r.
Proof. destruct r; simpl; eauto. Qed.

Definition respectful {A} (e : state M -> result M A) : Prop := forall s, respects (scopes s) (e s).

Lemma respectful_opt (ev : node -> state M -> result M value) o :
  Forall (fun n => respectful (ev n)) (opt o) -> respectful (eval_opt ev o).
Proof. destruct o; simpl; [by inversion 1|]. intros _ s. apply R_refl. Qed.

Lemma tick_scopes (s : state M) ok s' : eval_loop_tick s = (ok, s') -> scopes s' = scopes s.
Proof. unfold eval_loop_tick. destruct (meter_tick _) as [[] m]; by intros [= <- <-]. Qed.

Lemma enter_scopes line column (s : state M) ok s' :
  enter line column s = (ok, s') -> scopes s' = scopes s.
Proof.
  unfold enter. destruct (meter_step _) as [[] m]; intros [= <- <-]; by destruct (0 <? line).
Qed.

(** One more evaluation in the middle of a loop or statement. *)
Ltac step_with Hx :=
  apply respects_bind;
  [eapply respects_from; [|apply Hx]; simpl; eauto|
   let v := fresh "v" in let s := fresh "s" in let H := fresh "HR" in intros v s H].

Lemma while_respects k condition body :
  respectful condition -> respectful body ->
  forall last_val s e, R e (scopes s) -> respects e (while_loop k condition body last_val s).
Proof.
  intros Hc Hb. induction k as [|k IH]; intros last_val s e He; cbn [while_loop]; [done|].
  destruct (_ && _); [done|].
  set (s1 := if is_flow FLOW_CONTINUE s then set_flow FLOW_NORMAL s else s).
  assert (scopes s1 = scopes s) as Hs1 by (unfold s1; by destruct (is_flow _ _)).
  rewrite <- Hs1 in *. clearbody s1. step_with Hc.
  destruct (_ || _); [done|]. destruct (negb _); [done|].
  destruct (eval_loop_tick s0) as [ok s2] eqn:E. apply tick_scopes in E. rewrite <- E in *.
  destruct ok; cbn [negb]; [|done]. step_with Hb.
  destruct (is_flow _ _); [done|]. destruct (is_flow _ _); [done|]. by apply IH.
Qed.

Lemma do_while_respects k condition body :
  respectful condition -> respectful body ->
  forall s e, R e (scopes s) -> respects e (do_while_loop k body condition s).
Proof.
  intros Hc Hb. induction k as [|k IH]; intros s e He; cbn [do_while_loop]; [done|].
  step_with Hb. destruct (is_flow _ _); [done|]. destruct (is_flow _ _); [done|].
  set (s1 := if is_flow FLOW_CONTINUE s0 then set_flow FLOW_NORMAL s0 else s0).
  assert (scopes s1 = scopes s0) as Hs1 by (unfold s1; by destruct (is_flow _ _)).
  rewrite <- Hs1 in *. clearbody s1. step_with Hc.
  destruct (_ || _); [done|]. destruct (negb _); [done|].
  destruct (eval_loop_tick s2) as [ok s3] eqn:E. apply tick_scopes in E. rewrite <- E in *.
  destruct ok; cbn [negb]; [|done]. by apply IH.
Qed.

Lemma for_respects k condition post body :
  (forall c, condition = Some c -> respectful c) -> (forall p, post = Some p -> respectful p) ->
  respectful body ->
  forall last_val s e, R e (scopes s) -> respects e (for_loop k condition post body last_val s).
Proof.
  intros Hc Hp Hb. induction k as [|k IH]; intros last_val s e He; cbn [for_loop]; [done|].
  assert (forall last_val s, R e (scopes s) ->
    respects e (for_turn (for_loop k condition post body) post body last_val s)) as Hturn.
  { clear last_val s He. intros last_val s He. unfold for_turn.
    destruct (eval_loop_tick s) as [ok s2] eqn:E; apply tick_scopes in E; rewrite <- E in *.
    destruct ok; cbn [negb]; [|done]. step_with Hb.
    destruct (is_flow _ _); [done|]. destruct (is_flow _ _); [done|].
    destruct post as [p|]; [|by apply IH].
    specialize (Hp p eq_refl). step_with Hp. destruct (_ && _); [done|].
    apply IH. by destruct (is_flow _ _). }
  destruct condition as [c|]; [|by apply Hturn]. specialize (Hc c eq_refl). step_with Hc.
  destruct (_ || _); [done|]. destruct (negb _); [done|]. by apply Hturn.
Qed.

Lemma for_in_respects var_name body :
  respectful body ->
  forall items last_val s e, R e (scopes s) -> respects e (for_in_loop var_name body items last_val s).
Proof.
  intros Hb. induction items as [|v items IH]; intros last_val s e He; cbn [for_in_loop]; [done|].
  destruct (eval_loop_tick s) as [ok s2] eqn:E; apply tick_scopes in E; rewrite <- E in *.
  destruct ok; cbn [negb]; [|done]. step_with Hb. destruct (is_flow _ _); [done|].
  set (s3 := if is_flow FLOW_CONTINUE s0 then _ else _) in *.
  assert (scopes s3 = scopes s0) as Hs by (unfold s3; by destruct (is_flow _ _)).
  rewrite <- Hs in HR. clearbody s3. destruct (is_flow _ _); [done|]. by apply IH.
Qed.

Lemma block_respects ev l :
  Forall (fun n => respectful (ev n)) l ->
  forall last_val s e, R e (scopes s) -> respects e (block_loop ev l last_val s).
Proof.
  induction 1 as [|n l Hn Hl IH]; intros last_val s e He; cbn [block_loop]; [done|].
  step_with Hn. destruct (negb _); [done|]. destruct (aborted _); [done|]. by apply IH.
Qed.

Lemma switch_respects ev v d l :
  Forall (fun n => respectful (ev n)) l -> Forall (fun n => respectful (ev n)) (opt d) ->
  forall s e, R e (scopes s) -> respects e (switch_loop ev v d l s).
Proof.
  intros Hl Hd. remember (length l) as k eqn:Ek.
  revert l Ek Hl. induction k as [k IH] using lt_wf_ind; intros l Ek Hl s e He.
  destruct l as [|c rest]; cbn [switch_loop].
  - eapply respects_from; [exact He|]. by apply respectful_opt.
  - inversion Hl as [|? ? Hc Hrest]; subst. step_with Hc. destruct (negb _); [done|].
    destruct rest as [|b rest]; [done|]. inversion Hrest as [|? ? Hb Hrest']; subst.
    destruct (case_matches _ _); [eapply respects_from; [exact HR|apply Hb]|].
    eapply IH; [|reflexivity|done|done]. simpl. lia.
Qed.

Lemma args_respects ev l :
  Forall (fun n => respectful (ev n)) l ->
  Forall (fun n => forall c, data n = NODE_SPREAD c -> respectful (eval_opt ev c)) l ->
  forall s e, R e (scopes s) -> respects e (eval_expand_args ev l s).
Proof.
  intros Hl Hs. induction Hl as [|n l Hn Hl IH]; intros s e He; cbn [eval_expand_args]; [done|].
  inversion Hs as [|? ? Hsn Hs']; subst. apply respects_bind.
  { destruct n as [line column []]; try (step_with Hn; done). specialize (Hsn _ eq_refl). by step_with Hsn. }
  intros vals s1 H1. destruct (_ || _); [done|].
  apply respects_bind; [by apply IH|]. by intros rest s2 H2.
Qed.

(** *** Destructuring and parameters *)

Lemma assign_rest_respects is_constant x v e : R e (assign_rest is_constant x v e).
Proof. unfold assign_rest. destruct is_constant; auto. Qed.

Lemma elements_respect f is_constant l :
  Forall (fun n => forall v e, R e (f n v e)) l ->
  forall data e, R e (destructure_elements f is_constant l data e).
Proof.
  induction 1 as [|n l Hn Hl IH]; intros data e; cbn [destructure_elements]; [done|].
  destruct n as [line column d]. specialize (Hn (VNumber (hd f64_zero data)) e).
  assert (R e (destructure_elements f is_constant l (tail data) (f (Node line column d) (VNumber (hd f64_zero data)) e)))
    as Hel by (eapply R_trans; [exact Hn|apply IH]).
  destruct d; try exact Hel; [|apply IH]. destruct child as [[? ? []]|]; try apply IH.
  eapply R_trans; [apply assign_rest_respects|apply IH].
Qed.

Lemma destructure_respects is_constant n : forall rhs e, R e (eval_destructure is_constant n rhs e).
Proof.
  induction n as [line column d IH] using node_children_ind. intros rhs e.
  destruct d; cbn [eval_destructure children] in *; try done.
  - destruct is_constant; auto.
  - destruct child as [[? ? []]|]; try done. apply assign_rest_respects.
  - destruct rhs; try done. by apply elements_respect.
Qed.

Lemma bind_param_respects param v e : R e (bind_param param v e).
Proof.
  unfold bind_param. destruct (data param); try apply destructure_respects.
  match goal with |- context [match ?o with Some _ => _ | None => _ end] => destruct o end; auto.
Qed.

(** *** Calls

    A named function runs in a scope in front of those of the caller, a function value in scopes of its
    own. *)

Context (deeper : node -> state M -> result M value).
Context (Hnative : forall fn args, respectful (run_native fn args)).
Context (Hdeeper : forall n, respectful (deeper n)).

Lemma bind_in_respects closure param v local (s : state M) :
  R (scopes s) (scopes (bind_in closure param v local s).2).
Proof.
  unfold bind_in, leave_chain. destruct closure; simpl; [done|].
  eapply R_child. apply bind_param_respects.
Qed.

Lemma bind_params_respects closure params : forall args local s e,
  R e (scopes s) -> respects e (bind_params deeper closure params args local s).
Proof.
  induction params as [|p params IH]; intros args local s e He; cbn [bind_params]; [done|].
  apply respects_bind.
  { destruct args; [|done]. unfold default_value. destruct (data p); try done.
    match goal with |- context [match ?o with Some _ => _ | None => _ end] => destruct o end; [|done].
    destruct closure; [done|]. eapply respects_from; [exact He|apply Hdeeper]. }
  intros v s1 H1. pose proof (bind_in_respects closure (eval_param_binding_node p) v local s1) as Hb.
  destruct (bind_in _ _ _ _ _) as [local' s2]. apply IH. eauto.
Qed.

Lemma leave_respects closure bytes res child (s : state M) e :
  match closure with Some _ => R e (scopes s) | None => R e (tail (scopes child)) end ->
  respects e (leave_function closure bytes res child s).
Proof.
  intros H. unfold leave_function.
  destruct closure, (flow child); simpl; match goal with |- context [meter_leave ?b ?m] =>
    destruct (meter_leave b m) as [[] ?] end; exact H.
Qed.

Lemma function_respects params body closure args s :
  respects (scopes s) (eval_script_function deeper params body closure args s).
Proof.
  unfold eval_script_function.
  assert (scopes (note_body body s) = scopes s) as Hs.
  { unfold note_body. destruct body as [[line column b]|]; [|done]. by destruct (_ && _). }
  rewrite <- Hs. clear Hs. set (s1 := note_body body s). clearbody s1.
  destruct (meter_enter _ _) as [[] m]; cbn [negb]; [|apply R_refl].
  destruct (_ <? _); [apply R_refl|].
  set (s2 := set_recursion _ _). assert (scopes s2 = scopes s1) as Hs2 by done. rewrite <- Hs2.
  clearbody s2. clear Hs2. set (local := match closure with Some _ => _ | None => _ end). clearbody local.
  pose proof (bind_params_respects closure (std_params params) args local s2 _ (R_refl _)) as Hb.
  destruct (bind_params _ _ _ _ _ _) as [local' s3| | |]; cbn [bind]; [|done..].
  assert (R (scopes s3) (scopes (bind_rest closure params args local' s3).2)) as Hr.
  { unfold bind_rest. destruct (rest_param params); [apply bind_in_respects|done]. }
  destruct (bind_rest closure params args local' s3) as [local'' s4]. cbn [snd] in Hr.
  simpl in Hb. assert (R (scopes s2) (scopes s4)) as H4 by eauto.
  set (child := enter_function closure local'' m s4).
  assert (respects (scopes child) (eval_opt deeper body child)) as Hbody
    by (destruct body; simpl; [apply Hdeeper|apply R_refl]).
  destruct (eval_opt deeper body child) as [res child'| | |]; cbn [bind]; [|done..].
  apply leave_respects. destruct closure as [c|]; [done|].
  eapply R_trans; [exact H4|]. eapply R_child. exact Hbody.
Qed.

Lemma call_respects callee name args s : respects (scopes s) (call_callee deeper callee name args s).
Proof.
  pose proof (R_refl (scopes s)) as Hrefl.
  assert (forall f, respects (scopes s) (exprtk_call_function_value deeper f args s)) as Hv.
  { intros f. unfold exprtk_call_function_value. destruct f; try exact Hrefl.
    destruct body; [apply function_respects|exact Hrefl]. }
  assert (respects (scopes s) (exprtk_call_internal deeper name args s)) as Hi.
  { unfold exprtk_call_internal. destruct (lookup_func _ _) as [f|].
    { unfold call_func. destruct (fn_data f); [apply function_respects|apply Hnative]. }
    destruct (exprtk_env_get zero (scopes s) name) as [| | | | | | |? [|] ?]; try apply Hv;
      (destruct (resolve_builtin _ _ _); [apply Hnative|exact Hrefl]). }
  unfold call_callee. destruct callee; try exact Hi. destruct body; [apply Hv|exact Hi].
Qed.

(** *** Every program *)

Definition respectful_with_child (n : node) : Prop :=
  respectful (exprtk_eval pow format_g deeper n) /\
  forall c, data n = NODE_SPREAD c -> respectful (eval_opt (exprtk_eval pow format_g deeper) c).

Lemma eval_respects n : respectful_with_child n.
Proof.
  induction n as [line column d IH] using node_children_ind.
  assert (forall l, Forall respectful_with_child l ->
    Forall (fun n => respectful (exprtk_eval pow format_g deeper n)) l) as Hall.
  { intros l Hl. eapply Forall_impl; [exact Hl|]. by intros n []. }
  assert (forall o, Forall respectful_with_child (opt o) ->
    respectful (eval_opt (exprtk_eval pow format_g deeper) o)) as Hopt.
  { intros o H. apply respectful_opt, Hall, H. }
  split; [|intros c [= ->]; by apply Hopt]. intros s.
  cbn [exprtk_eval]. destruct (aborted s); [by apply R_refl|].
  destruct (enter line column s) as [ok s1] eqn:E. apply enter_scopes in E. rewrite <- E. clear s E.
  destruct ok; cbn [negb]; [|by apply R_refl].
  pose proof (R_refl (scopes s1)) as Hrefl.
  assert (forall l, Forall respectful_with_child l ->
    respects (scopes s1) (eval_expand_args (exprtk_eval pow format_g deeper) l s1)) as Hargs.
  { intros l Hl. apply args_respects; [by apply Hall| |done]. eapply Forall_impl; [exact Hl|]. by intros n []. }
  destruct d; cbn [children] in *; try exact I; try exact Hrefl;
    repeat (apply Forall_app in IH as [? IH]); repeat match goal with
      | H : Forall _ (opt _) |- _ => apply Hopt in H end.
  - step_with H. destruct (_ && _); [done|]. step_with IH. destruct (negb _); [done|].
    by destruct (eval_binary _ _ _ _ _).
  - destruct name; [|exact Hrefl]. apply respects_bind; [by apply Hargs|]. intros vals s2 H2.
    eapply respects_from; [exact H2|apply call_respects].
  - step_with IH. destruct name; simpl; eauto.
  - step_with H. destruct (negb _); [done|].
    destruct (eval_value_truthy _); (eapply respects_from; [exact HR|]); [apply H0|apply IH].
  - by apply while_respects.
  - step_with H. destruct (_ || _); [done|].
    apply for_respects; [..|done|done]; intros e; [destruct condition|destruct post];
      (done || (intros [= <-]; done)).
  - apply IH.
  - apply block_respects; [by apply Hall|done].
  - destruct type; try exact Hrefl. destruct value as [v|]; [|exact Hrefl].
    step_with IH. by destruct (_ || _).
  - apply respects_bind; [by apply Hargs|]. by intros vals s2 H2.
  - step_with H. step_with IH. unfold index_value, element, throw, throw_error.
    repeat case_match; done.
  - step_with H. step_with H0. step_with IH. unfold slice_value, throw, throw_error. cbv zeta. repeat case_match; done.
  - by destruct name.
  - step_with IH. destruct name; simpl; eauto.
  - step_with H. destruct (negb _); [done|].
    apply switch_respects; [by apply Hall| |done]. destruct default_case; constructor; [exact IH|constructor].
  - by apply do_while_respects.
  - step_with H. destruct (_ || _); [done|]. by apply for_in_respects.
  - step_with IH. destruct targets; simpl; eauto using destructure_respects.
  - step_with H. destruct (is_flow _ _); [|done].
    pose proof (IH (catch_state catch_var (set_flow FLOW_NORMAL s))) as Hcatch.
    destruct (eval_opt _ catch_body _) as [v' child| | |]; simpl in *; [|done..].
    eapply R_trans; [exact HR|]. by destruct catch_var; simpl in Hcatch; eapply R_child.
  - step_with IH. done.
Qed.
End invariant.

(** ** Scopes survive *)

(** The scope [s'] still has every variable of [s], and its constants unchanged. *)
Definition evolves (s s' : scope) : Prop :=
  keeps s s' /\ forall x, is_Some (s !! x) -> is_Some (s' !! x).

Lemma evolves_refl s : evolves s s.
Proof. split; [apply keeps_refl|done]. Qed.

Lemma evolves_trans s1 s2 s3 : evolves s1 s2 -> evolves s2 s3 -> evolves s1 s3.
Proof. intros [K1 G1] [K2 G2]. split; [by eapply keeps_trans|eauto]. Qed.

Lemma chain_refl (e : list scope) : Forall2 evolves e e.
Proof. induction e; constructor; [apply evolves_refl|done]. Qed.

Lemma chain_trans (e1 e2 e3 : list scope) :
  Forall2 evolves e1 e2 -> Forall2 evolves e2 e3 -> Forall2 evolves e1 e3.
Proof.
  intros H. revert e3. induction H as [|s1 s2 e1 e2 H He IH]; intros e3 H3;
    inversion H3; subst; constructor; [by eapply evolves_trans|by apply IH].
Qed.

Lemma insert_evolves (s : scope) x e0 :
  (forall e, s !! x = Some e -> is_constant e = true -> is_constant e0 = true /\ entry_value e0 = entry_value e) ->
  evolves s (<[x := e0]> s).
Proof.
  intros H. split.
  - intros y e Hy Hc. destruct (decide (y = x)) as [->|].
    + rewrite lookup_insert_eq. destruct (H e Hy Hc). eauto.
    + rewrite lookup_insert_ne by done. eauto.
  - intros y Hy. destruct (decide (y = x)) as [->|]; [by rewrite lookup_insert_eq|].
    by rewrite lookup_insert_ne.
Qed.

Lemma put_evolves x v b (s : scope) : evolves s (put x v b s).
Proof.
  unfold put. destruct (s !! x) as [[ev [] eb]|] eqn:E; simpl; [apply evolves_refl| |];
    apply insert_evolves; rewrite E; intros e; [|done]. by intros [= <-].
Qed.

Lemma mark_evolves x (s : scope) : evolves s (mark_constant x s).
Proof.
  unfold mark_constant. destruct (s !! x) as [e|] eqn:E; [|apply evolves_refl].
  apply insert_evolves. rewrite E. by intros e' [= <-].
Qed.

Lemma current_evolves (f : scope -> scope) e :
  (forall s, evolves s (f s)) -> Forall2 evolves e (on_current f e).
Proof. intros Hf. destruct e; constructor; [apply Hf|apply chain_refl]. Qed.

Lemma set_evolves e x v : Forall2 evolves e (exprtk_env_set e x v).
Proof.
  unfold exprtk_env_set. destruct (set_in_chain e x v) as [e'|] eqn:C.
  - revert e' C. induction e as [|s e IH]; intros e'; simpl; [done|].
    destruct (s !! x) as [[ev [] eb]|] eqn:E; simpl.
    + intros [= <-]. apply chain_refl.
    + intros [= <-]. constructor; [|apply chain_refl]. apply insert_evolves. rewrite E.
      by intros e0 [= <-].
    + destruct (set_in_chain e x v) as [p|]; [|done]. intros [= <-].
      constructor; [apply evolves_refl|by apply IH].
  - apply current_evolves. intros s. apply put_evolves.
Qed.

Lemma set_constant_evolves e x v : Forall2 evolves e (exprtk_env_set_constant e x v).
Proof.
  eapply chain_trans; [apply set_evolves|]. apply current_evolves. intros s. apply mark_evolves.
Qed.

Lemma child_evolves (e : list scope) s e' : Forall2 evolves (s :: e) e' -> Forall2 evolves e (tail e').
Proof. intros H. by inversion H. Qed.

Lemma set_local_evolves e x v : Forall2 evolves e (exprtk_env_set_local e x v).
Proof. unfold exprtk_env_set_local. apply current_evolves. intros s. apply put_evolves. Qed.

(** C33: No program changes its environment but by assigning variables.  After an
    evaluation, however it ends (normally, by [return], by an exception, aborted by
    a limit, inside or outside a [catch] block or a function), the chain of scopes is as long as
    before, every constant of every scope has its value and is a constant, and no
    variable has disappeared, provided that native functions do the same. *)
Theorem eval_scopes n (s : state M) v s' :
  (forall fn args (s : state M) v s', run_native fn args s = Done v s' -> Forall2 evolves (scopes s) (scopes s')) ->
  eval_script pow format_g n s = Done v s' -> Forall2 evolves (scopes s) (scopes s').
Proof.
  intros Hn H.
  assert (forall fn args, respectful (Forall2 evolves) (run_native fn args)) as Hn'.
  { intros fn args s1. specialize (Hn fn args s1). destruct (run_native fn args s1); simpl; eauto. }
  assert (forall depth n, respectful (Forall2 evolves) (eval_depth pow format_g depth n)) as G.
  { intros depth. induction depth as [|depth IH]; intros n';
      apply (eval_respects (Forall2 evolves) chain_refl chain_trans set_evolves set_local_evolves
               set_constant_evolves child_evolves _ Hn'); done. }
  specialize (G (Z.to_nat (max_recursion s - curr_recursion s)) n s).
  unfold eval_script in H. by rewrite H in G.
Qed.

End scopes.

(** A program that tries to overwrite a constant inside a [catch] block. *)
Definition demo_catch : node :=
  Node 1 1 (NODE_TRY_CATCH (Some (Node 1 5 (NODE_THROW (Some (Node 1 11 (NODE_INTEGER 7))))))
    (Some "err")
    (Some (Node 1 20 (NODE_BLOCK
      [Node 1 22 (NODE_ASSIGNMENT (Some "c") (Some (Node 1 26 (NODE_INTEGER 2))));
       Node 1 30 (NODE_ASSIGNMENT (Some "x") (Some (Node 1 34 (NODE_VARIABLE "err"))))])))).

Definition demo_scope : gmap string (@var_entry value) :=
  {[ "c" := VarEntry (VInteger 1) true false; "x" := VarEntry (VInteger 0) false false ]}.

Definition demo_state : state counters :=
  State [demo_scope] FLOW_NORMAL zero zero false default_counters 0 0 "" 0 0 [Table [] []] 100 0.

(** [function bump(c) { c = c + 1; x = x + c; return x; }  bump(10)] around the same. *)
Definition demo_bump : node :=
  block [at1 (NODE_FUNCTION_DEFINITION (Some "bump") [var "c"] (Some (block
           [set "c" (binary TOKEN_PLUS (var "c") (int 1)); set "x" (binary TOKEN_PLUS (var "x") (var "c"));
            at1 (NODE_FLOW TOKEN_RETURN (Some (var "x")))])));
         demo_catch; at1 (NODE_FUNCTION_CALL (Some "bump") [int 10])].

Lemma eval_scopes_witness :
  exists v s', eval_script demo_pow demo_format demo_bump demo_state = Done v s' /\
    exprtk_env_get zero (scopes s') "c" = VInteger 1 /\
    exprtk_env_get zero (scopes s') "x" = VInteger 18 /\
    Forall2 evolves (scopes demo_state) (scopes s').
Proof.
  eexists _, _. split; [vm_compute; reflexivity|]. split; [vm_compute; reflexivity|].
  split; [vm_compute; reflexivity|].
  eapply (eval_scopes demo_pow demo_format demo_bump demo_state).
  - intros fn args s v s' [= _ <-]. apply chain_refl.
  - vm_compute. reflexivity.
Defined.
