(* ===== verification/Fold.v ===== *)
(** Constant folding: in the parser ([exprtk_fold_binary], [exprtk_fold_unary] and
    [exprtk_fold_if] of [exprtk/src/grammar/exprtk_parser.c]) and in the compiled backend
    ([ts_try_fold_constant] of [turbo_script/src/mir/turbo_script_mir_constant.c]), against what
    the interpreter computes for the unfolded tree. *)

From S2P Require Import Prelude Float64 Ast Env Meter Value SortSearch Registry State Calls Interp InterpProofs.
Open Scope Z_scope.

Section fold.
Context (pow : f64 -> f64 -> f64) (format_g : f64 -> string).

(** ** The parser *)

(** A folding function returns a node (or NULL) or dereferences the NULL of a
    failed allocation. *)
Inductive built := Crash | Built (n : option node) (h : heap).

Definition c_bool (b : bool) : f64 := if b then f64_one else f64_zero.

(** [x] as a truth value of C. *)
Definition nonzero (x : f64) : bool := (x !=? 0.0)%f64.

(** The [switch] of [exprtk_fold_binary]. *)
Definition fold_numbers (op : token) (l r : f64) : option f64 :=
  match op with
  | TOKEN_PLUS => Some (l + r)%f64
  | TOKEN_MINUS => Some (l - r)%f64
  | TOKEN_MULTIPLY => Some (l * r)%f64
  | TOKEN_DIVIDE => if nonzero r then Some (l / r)%f64 else None
  | TOKEN_MOD => if nonzero r then Some (f64_fmod l r) else None
  | TOKEN_POWER => Some (pow l r)
  | TOKEN_EQ => Some (c_bool (l ==? r)%f64)
  | TOKEN_NE => Some (c_bool (l !=? r)%f64)
  | TOKEN_LT => Some (c_bool (l <? r)%f64)
  | TOKEN_LE => Some (c_bool (l <=? r)%f64)
  | TOKEN_GT => Some (c_bool (l >? r)%f64)
  | TOKEN_GE => Some (c_bool (l >=? r)%f64)
  | TOKEN_AND => Some (c_bool (nonzero l && nonzero r))
  | TOKEN_OR => Some (c_bool (nonzero l || nonzero r))
  | _ => None
  end.

(** The texts of a sum that is folded to a string. *)
Definition concat_texts (op : token) (l r : node_data) : option (string * string) :=
  if decide (op = TOKEN_PLUS) then
    match l, r with
    | NODE_STRING a, NODE_STRING b => Some (a, b)
    | NODE_STRING a, NODE_NUMBER y => Some (a, format_g y)
    | NODE_NUMBER x, NODE_STRING b => Some (format_g x, b)
    | _, _ => None
    end
  else None.

(** A folded node has the position of the left operand. *)
Definition create_at (n : node) (d : node_data) (h : heap) : built :=
  let (ok, h) := alloc h in
  Built (if ok then Some (Node (node_line n) (node_column n) d) else None) h.

(** Creating the operator node; its fields are written without a test for NULL. *)
Definition create_binary (op : token) (l r : option node) (h : heap) : built :=
  let (ok, h) := alloc h in
  if ok then Built (Some (Node 0 0 (NODE_BINARY_OP op l r))) h else Crash.

Definition exprtk_fold_binary (op : token) (left right : option node) (h : heap) : built :=
  match left, right with
  | Some l, Some r =>
      let folded :=
        match data l, data r with
        | NODE_NUMBER x, NODE_NUMBER y => fold_numbers op x y
        | _, _ => None
        end in
      match folded with
      | Some res => create_at l (NODE_NUMBER res) h
      | None =>
          match concat_texts op (data l) (data r) with
          | Some (a, b) =>
              let (ok, h) := alloc h in
              if ok then create_at l (NODE_STRING (a +:+ b)) h
              else create_binary op left right h
          | None => create_binary op left right h
          end
      end
  | _, _ => Built None h
  end.

Definition exprtk_fold_unary (op : token) (child : option node) (h : heap) : built :=
  match child with
  | None => Built None h
  | Some c =>
      let create (x : f64) :=
        let (ok, h) := alloc h in
        if ok then Built (Some (Node 0 0 (NODE_NUMBER x))) h else Crash in
      match op, data c with
      | TOKEN_MINUS, NODE_NUMBER v => create (- v)%f64
      | TOKEN_PLUS, NODE_NUMBER _ => Built (Some c) h
      | TOKEN_NOT, NODE_NUMBER v => create (c_bool (f64_fabs v <? eps9)%f64)
      | _, _ => create_binary op None (Some c) h
      end
  end.

Definition exprtk_fold_if (cond if_branch else_branch : option node) (h : heap) : built :=
  match cond with
  | None => Crash
  | Some c =>
      match data c with
      | NODE_NUMBER v =>
          if (f64_fabs v >? eps9)%f64 then Built if_branch h
          else
            match else_branch with
            | Some e => Built (Some e) h
            | None =>
                let (ok, h) := alloc h in
                Built (if ok then Some (Node 0 0 (NODE_BLOCK [])) else None) h
            end
      | _ =>
          let (ok, h) := alloc h in
          if ok then Built (Some (Node 0 0 (NODE_IF cond if_branch else_branch))) h else Crash
      end
  end.

(** ** The compiled backend *)

Definition is_null (o : option node) : bool :=
  match o with Some n => match data n with NODE_NULL => true | _ => false end | None => false end.

Definition ts_binary_is_null_eq_compare (op : token) (left right : option node) : bool :=
  bool_decide (is_Some left) && (bool_decide (op = TOKEN_EQ) || bool_decide (op = TOKEN_NE)) &&
  (is_null left || is_null right).

Definition is_const (o : option node) : bool :=
  match o with
  | Some n =>
      match data n with
      | NODE_NULL | NODE_NUMBER _ | NODE_INTEGER _ | NODE_STRING _ => true
      | _ => false
      end
  | None => false
  end.

Definition fold_constants (op : token) (l r : f64) : option f64 :=
  match op with
  | TOKEN_PLUS => Some (l + r)%f64
  | TOKEN_MINUS => Some (l - r)%f64
  | TOKEN_MULTIPLY => Some (l * r)%f64
  | TOKEN_DIVIDE => Some (if nonzero r then (l / r)%f64 else f64_zero)
  | TOKEN_MOD => Some (f64_fmod l r)
  | TOKEN_POWER => Some (pow l r)
  | TOKEN_LT => Some (c_bool (l <? r)%f64)
  | TOKEN_GT => Some (c_bool (l >? r)%f64)
  | TOKEN_LE => Some (c_bool (l <=? r)%f64)
  | TOKEN_GE => Some (c_bool (l >=? r)%f64)
  | TOKEN_EQ => Some (c_bool (l ==? r)%f64)
  | TOKEN_NE => Some (c_bool (l !=? r)%f64)
  | TOKEN_AND => Some (c_bool (nonzero l && nonzero r))
  | TOKEN_OR => Some (c_bool (nonzero l || nonzero r))
  | _ => None
  end.

Definition fold_unary_constant (op : token) (r : f64) : option f64 :=
  match op with
  | TOKEN_MINUS => Some (- r)%f64
  | TOKEN_PLUS => Some r
  | TOKEN_NOT => Some (c_bool (r ==? 0.0)%f64)
  | _ => None
  end.

Definition on_child (f : node -> option f64) (o : option node) : option f64 :=
  match o with Some n => f n | None => None end.

Fixpoint ts_try_fold_constant (n : node) : option f64 :=
  let 'Node _ _ d := n in
  match d with
  | NODE_NUMBER x => Some x
  | NODE_INTEGER i => Some (f64_of_Z i)
  | NODE_NULL => Some f64_zero
  | NODE_BINARY_OP op None r_ =>
      match on_child ts_try_fold_constant r_ with
      | Some r => fold_unary_constant op r
      | None => None
      end
  | NODE_BINARY_OP op l_ r_ =>
      if ts_binary_is_null_eq_compare op l_ r_ then
        if negb (is_const l_) || negb (is_const r_) then None
        else
          let both_null := is_null l_ && is_null r_ in
          Some (c_bool (if decide (op = TOKEN_EQ) then both_null else negb both_null))
      else
        match on_child ts_try_fold_constant l_ with
        | Some l =>
            match on_child ts_try_fold_constant r_ with
            | Some r => fold_constants op l r
            | None => None
            end
        | None => None
        end
  | _ => None
  end.

(** ** The parser against the interpreter *)

Definition literal (n : node) : option value :=
  match data n with
  | NODE_NUMBER x => Some (VNumber x)
  | NODE_STRING s => Some (VString s)
  | _ => None
  end.

(** Where the exact tests of the folder and the tests of the interpreter up to a
    tolerance agree. *)
Definition tests_agree (op : token) (l r : value) : Prop :=
  match l, r with
  | VNumber l, VNumber r =>
      match op with
      | TOKEN_DIVIDE | TOKEN_MOD => nonzero r = negb (f64_fabs r <? eps15)%f64
      | TOKEN_EQ => (l ==? r)%f64 = (f64_fabs (l - r) <? eps9)%f64
      | TOKEN_NE => (l !=? r)%f64 = (f64_fabs (l - r) >=? eps9)%f64
      | TOKEN_AND | TOKEN_OR =>
          nonzero l = (f64_fabs l >? eps9)%f64 /\ nonzero r = (f64_fabs r >? eps9)%f64
      | _ => True
      end
  | _, _ => True
  end.

Lemma fold_numbers_eval op l r x :
  fold_numbers op l r = Some x -> tests_agree op (VNumber l) (VNumber r) ->
  eval_binary pow format_g op (VNumber l) (VNumber r) = OpValue (VNumber x).
Proof.
  intros H Ht. rewrite eval_binary_num. destruct op; cbn [fold_numbers num_op tests_agree] in *;
    unfold num_of_bool, c_bool in *; try discriminate H.
  1, 2, 3, 6, 9, 10, 11, 12: injection H as <-; reflexivity.
  - destruct (nonzero r); [|discriminate H]. destruct (f64_fabs r <? eps15)%f64; [discriminate Ht|].
    injection H as <-. reflexivity.
  - destruct (nonzero r); [|discriminate H]. destruct (f64_fabs r <? eps15)%f64; [discriminate Ht|].
    injection H as <-. reflexivity.
  - injection H as <-. rewrite <- Ht. reflexivity.
  - injection H as <-. rewrite <- Ht. reflexivity.
  - injection H as <-. destruct Ht as [-> ->]. reflexivity.
  - injection H as <-. destruct Ht as [-> ->]. reflexivity.
Qed.

(** What a literal becomes. *)
Lemma create_at_Some n d h n' h' :
  create_at n d h = Built (Some n') h' -> n' = Node (node_line n) (node_column n) d.
Proof. unfold create_at. destruct (alloc h) as [[] ?]; intros H; [by injection H as <- _|discriminate H]. Qed.

Lemma create_binary_Some op l r h n' h' :
  create_binary op l r h = Built (Some n') h' -> n' = Node 0 0 (NODE_BINARY_OP op l r).
Proof. unfold create_binary. destruct (alloc h) as [[] ?]; intros H; [by injection H as <- _|discriminate H]. Qed.

(** The parser folds a binary operator only to what the interpreter computes.
    Whatever the allocator does, the node it builds is either the operator node
    itself, or a literal at the position of the left operand whose value is that
    of the operator on the literal operands, where the exact tests of the folder
    and the tolerances of the interpreter agree. *)
Theorem fold_binary_sound op l r h n h' :
  exprtk_fold_binary op (Some l) (Some r) h = Built (Some n) h' ->
  n = Node 0 0 (NODE_BINARY_OP op (Some l) (Some r)) \/
  exists vl vr v, literal l = Some vl /\ literal r = Some vr /\ literal n = Some v /\
    node_line n = node_line l /\ node_column n = node_column l /\
    (tests_agree op vl vr -> eval_binary pow format_g op vl vr = OpValue v).
Proof.
  unfold exprtk_fold_binary. intros H.
  destruct (match data l, data r with NODE_NUMBER x, NODE_NUMBER y => fold_numbers op x y | _, _ => None end)
    as [res|] eqn:E.
  - apply create_at_Some in H as ->. right. unfold literal.
    destruct (data l) as [x| | | | | | | | | | | | | | | | | | | | | | | | | | | | | | | | | | | | | | | |] eqn:El;
      try discriminate E.
    destruct (data r) as [y| | | | | | | | | | | | | | | | | | | | | | | | | | | | | | | | | | | | | | | |] eqn:Er;
      try discriminate E.
    eexists _, _, _. repeat (split; [reflexivity|]). intros Ht. by apply fold_numbers_eval.
  - clear E. destruct (concat_texts op (data l) (data r)) as [[a b]|] eqn:E;
      [|left; by eapply create_binary_Some].
    destruct (alloc h) as [[] h1]; [|left; by eapply create_binary_Some].
    apply create_at_Some in H as ->. right. unfold concat_texts in E.
    destruct (decide (op = TOKEN_PLUS)) as [->|]; [|discriminate E]. unfold literal.
    destruct (data l) eqn:El; try discriminate E; destruct (data r) eqn:Er; try discriminate E;
      injection E as <- <-; eexists _, _, _; repeat (split; [reflexivity|]); reflexivity.
Qed.

(** Negating a literal folds to what the interpreter computes for [0 - v],
    except for the literal 0, which folds to -0 and evaluates to 0; a sign [+]
    is dropped. *)
Theorem fold_unary_sound op c v h n h' :
  data c = NODE_NUMBER v -> op = TOKEN_MINUS \/ op = TOKEN_PLUS ->
  exprtk_fold_unary op (Some c) h = Built (Some n) h' ->
  v <> f64_zero -> v <> (- f64_zero)%f64 ->
  exists x, literal n = Some (VNumber x) /\
    eval_binary pow format_g op zero (VNumber v) = OpValue (VNumber x).
Proof.
  intros Hc Hop H Hz Hz'. unfold exprtk_fold_unary in H. rewrite Hc in H.
  unfold zero. rewrite eval_binary_num. unfold f64_zero, f64_opp in *. simpl in Hz'.
  destruct Hop as [-> | ->]; cbn [num_op].
  - destruct (alloc h) as [[] h1]; [|discriminate H]. injection H as <- _.
    eexists. split; [reflexivity|]. unfold f64_sub. destruct v as [[]| | |]; try done.
  - injection H as <- _. unfold literal. rewrite Hc. eexists. split; [reflexivity|].
    unfold f64_add. destruct v as [[]| | |]; done.
Qed.

(** Steps that the interpreter takes before it comes to the branch. *)
Definition two_steps {M} `{Meter M} (n c : node) (s s' : state M) : Prop :=
  exists s1, enter (node_line n) (node_column n) s = (true, s1) /\
    enter (node_line c) (node_column c) s1 = (true, s').

(** Folding an [if] with a literal condition keeps its meaning: the node it is
    folded to is the branch that the interpreter would run after its two steps
    for the statement and the condition. *)
Theorem fold_if_sound {M} {HM : Meter M} {ML : MeterLaws M} {N : Natives M} {Q : QSort} {B : BSearch}
    (deeper : node -> state M -> result M value) n c v a b h folded h' (s s' : state M) :
  data n = NODE_IF (Some c) a b -> data c = NODE_NUMBER v ->
  exprtk_fold_if (Some c) a b h = Built folded h' ->
  flow s = FLOW_NORMAL -> aborted s = false -> two_steps n c s s' ->
  exprtk_eval pow format_g deeper n s =
    if (f64_fabs v >? eps9)%f64 || bool_decide (is_Some b)
    then eval_opt (exprtk_eval pow format_g deeper) folded s'
    else Done zero s'.
Proof.
  intros Hn Hc H Hf Ha (s1 & E1 & E2). unfold exprtk_fold_if in H. rewrite Hc in H.
  destruct n as [line column dn], c as [line' column' dc]. cbn [data] in Hn, Hc. subst dn dc.
  cbn [node_line node_column] in E1, E2.
  pose proof (enter_ok _ _ _ _ _ E1) as (_ & Ef1 & Ea1).
  pose proof (enter_ok _ _ _ _ _ E2) as (_ & Ef2 & Ea2).
  cbn [exprtk_eval eval_opt]. rewrite Ha, E1. cbn [negb]. rewrite Ea1, Ha, E2. cbn [negb bind].
  unfold is_flow. rewrite bool_decide_eq_true_2 by congruence. cbn [negb eval_value_truthy].
  destruct (f64_fabs v >? eps9)%f64; cbn [orb]; [by injection H as <- _|].
  destruct b as [b|]; [|by rewrite bool_decide_eq_false_2 by (intros [? ?]; done)].
  rewrite bool_decide_eq_true_2 by eauto. by injection H as <- _.
Qed.

(** ** The compiled backend against the interpreter *)

(** Trees of number literals and operators that neither fail nor test. *)
Definition total_op (op : token) : bool :=
  match op with
  | TOKEN_PLUS | TOKEN_MINUS | TOKEN_MULTIPLY | TOKEN_POWER
  | TOKEN_LT | TOKEN_LE | TOKEN_GT | TOKEN_GE => true
  | _ => false
  end.

Definition on_both (f : node -> bool) (a b : option node) : bool :=
  match a, b with Some a, Some b => f a && f b | _, _ => false end.

Fixpoint number_tree (n : node) : bool :=
  let 'Node _ _ d := n in
  match d with
  | NODE_NUMBER _ => true
  | NODE_BINARY_OP op a b => total_op op && on_both number_tree a b
  | _ => false
  end.

Lemma total_op_num op l r :
  total_op op = true ->
  exists x, fold_constants op l r = Some x /\ num_op pow op l r = Some (OpValue (VNumber x)).
Proof.
  destruct op; intros H; try discriminate H; cbn [fold_constants num_op];
    unfold num_of_bool, c_bool; eexists; split; reflexivity.
Qed.

Lemma number_tree_null n : number_tree n = true -> is_null (Some n) = false.
Proof. destruct n as [? ? []]; try done. Qed.

(** The two backends agree on constant expressions: for a tree of number
    literals under [+ - * **] and comparisons, the constant that the compiler
    emits is the number that the interpreter computes, unless its step limit aborts it;
    the variables are untouched. *)
Theorem constant_backends_agree {M} {HM : Meter M} {ML : MeterLaws M} {N : Natives M} {Q : QSort} {B : BSearch}
    (deeper : node -> state M -> result M value) n :
  (number_tree n = true) ->
  exists x, ts_try_fold_constant n = Some x /\
  forall s : state M, flow s = FLOW_NORMAL -> aborted s = false ->
  exists y s', exprtk_eval pow format_g deeper n s = Done (VNumber y) s' /\ scopes s' = scopes s /\
    flow s' = FLOW_NORMAL /\ (aborted s' = true \/ y = x).
Proof.
  induction n as [line column d IH] using node_children_ind. intros Hn.
  destruct d; try discriminate Hn.
  - exists number. split; [done|]. intros s Hf Ha. cbn [exprtk_eval]. rewrite Ha.
    destruct (enter line column s) as [ok s1] eqn:E. apply enter_ok in E as (E1 & E2 & E3).
    destruct ok; cbn [negb]; eexists _, _; (split; [reflexivity|]); repeat split; try congruence; auto.
  - cbn [number_tree] in Hn. apply andb_prop in Hn as [Hop Hn].
    destruct left as [a|], right as [b|]; try discriminate Hn. apply andb_prop in Hn as [Ha Hb].
    cbn [children opt app] in IH. inversion IH as [|? ? IHa IHb']; subst.
    inversion IHb' as [|? ? IHb _]; subst.
    destruct (IHa Ha) as (l & Fl & El), (IHb Hb) as (r & Fr & Er). clear IH IHa IHb IHb'.
    destruct (total_op_num op l r Hop) as (x & Fx & _). exists x. split.
    { cbn [ts_try_fold_constant on_child]. rewrite Fl, Fr.
      unfold ts_binary_is_null_eq_compare. rewrite !number_tree_null by done.
      by rewrite andb_false_r. }
    intros s Hf Hs. cbn [exprtk_eval eval_opt]. rewrite Hs.
    destruct (enter line column s) as [ok s1] eqn:E. apply enter_ok in E as (E1 & E2 & E3).
    destruct ok; cbn [negb]; [|eexists _, _; split; [reflexivity|]; repeat split; try congruence; auto].
    rewrite bool_decide_eq_true_2 by eauto. cbn [andb].
    destruct (El s1) as (y & s2 & -> & Es2 & Ef2 & Hy); [congruence..|]. cbn [bind].
    unfold is_flow. rewrite bool_decide_eq_true_2 by done. cbn [negb].
    assert (exists z s3, exprtk_eval pow format_g deeper b s2 = Done (VNumber z) s3 /\ scopes s3 = scopes s2 /\
      flow s3 = FLOW_NORMAL /\ (aborted s3 = true \/ y = l /\ z = r)) as (z & s3 & -> & Es3 & Ef3 & Hz).
    { destruct (aborted s2) eqn:A2.
      - rewrite eval_aborted by done. eexists _, _. split; [reflexivity|]. auto.
      - destruct Hy as [|Hy]; [done|]. destruct (Er s2 Ef2 A2) as (z & s3 & -> & Es3 & Ef3 & Hz).
        eexists _, _. split; [reflexivity|]. repeat split; [done..|]. destruct Hz; auto. }
    cbn [bind]. rewrite bool_decide_eq_true_2 by done. cbn [negb].
    destruct (total_op_num op y z Hop) as (w & Fw & Nw).
    rewrite eval_binary_num, Nw. cbn [apply_op]. eexists _, _. split; [reflexivity|].
    repeat split; [congruence|done|]. destruct Hz as [|[-> ->]]; [by left|right]. congruence.
Qed.

(** Folding is not faithful outside of those conditions.  The parser decides
    [1e-10 == 0] and [1e-10 && 1] exactly where the interpreter has a tolerance, and
    divides by 1e-16 where it throws; the compiled backend gives 0 for [1 / 0], 1 for
    [null + 1] and for [not 0], where the interpreter throws, and computes integers in
    [double]. *)
Theorem folding_diverges :
  let tiny := f64_lit 1 (-10) in
  (fold_numbers TOKEN_EQ tiny f64_zero = Some f64_zero /\
   eval_binary pow format_g TOKEN_EQ (VNumber tiny) (VNumber f64_zero) = OpValue (VNumber f64_one)) /\
  (fold_numbers TOKEN_AND tiny f64_one = Some f64_one /\
   eval_binary pow format_g TOKEN_AND (VNumber tiny) (VNumber f64_one) = OpValue (VNumber f64_zero)) /\
  (fold_numbers TOKEN_DIVIDE f64_one (f64_lit 1 (-16)) = Some (f64_lit 1 16) /\
   eval_binary pow format_g TOKEN_DIVIDE (VNumber f64_one) (VNumber (f64_lit 1 (-16)))
     = OpThrow "Division by zero") /\
  (ts_try_fold_constant (binary TOKEN_DIVIDE (int 1) (int 0)) = Some f64_zero /\
   eval_binary pow format_g TOKEN_DIVIDE (VInteger 1) (VInteger 0) = OpThrow "Division by zero") /\
  (ts_try_fold_constant (binary TOKEN_PLUS (at1 NODE_NULL) (int 1)) = Some f64_one /\
   eval_binary pow format_g TOKEN_PLUS VNull (VInteger 1)
     = OpThrow "Type error: cannot apply '+' to null and int64") /\
  (ts_try_fold_constant (at1 (NODE_BINARY_OP TOKEN_NOT None (Some (int 0)))) = Some f64_one /\
   eval_binary pow format_g TOKEN_NOT zero (VInteger 0)
     = OpThrow "Type error: cannot apply 'unknown' to number and int64") /\
  (ts_try_fold_constant (binary TOKEN_MINUS (int 9007199254740993) (int 9007199254740992)) = Some f64_zero /\
   eval_binary pow format_g TOKEN_MINUS (VInteger 9007199254740993) (VInteger 9007199254740992)
     = OpValue (VInteger 1)).
Proof. vm_compute. repeat split. Qed.

End fold.

(** [1 < 2]. *)
Definition num (x : f64) : node := at1 (NODE_NUMBER x).
Definition one_lt_two : node := binary TOKEN_LT (num f64_one) (num (f64_of_Z 2)).

Lemma fold_binary_sound_witness :
  let l := Node 3 5 (NODE_NUMBER f64_one) in
  let r := num (f64_of_Z 2) in
  let n := Node 3 5 (NODE_NUMBER f64_one) in
  exprtk_fold_binary demo_pow demo_format TOKEN_LT (Some l) (Some r) [true; false] = Built (Some n) [false] /\
  (n = Node 0 0 (NODE_BINARY_OP TOKEN_LT (Some l) (Some r)) \/
   exists vl vr v, literal l = Some vl /\ literal r = Some vr /\ literal n = Some v /\
     node_line n = node_line l /\ node_column n = node_column l /\
     (tests_agree TOKEN_LT vl vr -> eval_binary demo_pow demo_format TOKEN_LT vl vr = OpValue v)).
Proof.
  cbv zeta. split; [vm_compute; reflexivity|].
  apply (fold_binary_sound demo_pow demo_format TOKEN_LT _ _ [true; false] _ [false]).
  vm_compute. reflexivity.
Defined.

Lemma fold_unary_sound_witness :
  exists n, exprtk_fold_unary TOKEN_MINUS (Some (num f64_one)) [] = Built (Some n) [] /\
  exists x, literal n = Some (VNumber x) /\
    eval_binary demo_pow demo_format TOKEN_MINUS zero (VNumber f64_one) = OpValue (VNumber x).
Proof.
  eexists. split; [vm_compute; reflexivity|].
  eapply (fold_unary_sound demo_pow demo_format TOKEN_MINUS (num f64_one) f64_one [] _ []);
    [reflexivity|by left|vm_compute; reflexivity|vm_compute; discriminate|vm_compute; discriminate].
Defined.

Definition demo_if : node := at1 (NODE_IF (Some (num f64_one)) (Some (int 7)) None).

Definition demo_two_steps : state counters := (enter 1 1 (enter 1 1 demo_x).2).2.

Lemma fold_if_sound_witness :
  exprtk_fold_if (Some (num f64_one)) (Some (int 7)) None [] = Built (Some (int 7)) [] /\
  exprtk_eval demo_pow demo_format demo_deeper demo_if demo_x =
    if (f64_fabs f64_one >? eps9)%f64 || bool_decide (is_Some (@None node))
    then eval_opt (exprtk_eval demo_pow demo_format demo_deeper) (Some (int 7)) demo_two_steps
    else Done zero demo_two_steps.
Proof.
  split; [vm_compute; reflexivity|].
  refine (fold_if_sound demo_pow demo_format demo_deeper demo_if (num f64_one) f64_one (Some (int 7)) None []
            (Some (int 7)) [] demo_x demo_two_steps eq_refl eq_refl _ eq_refl eq_refl _).
  - vm_compute. reflexivity.
  - exists (enter 1 1 demo_x).2. split; vm_compute; reflexivity.
Defined.

Lemma constant_backends_agree_witness :
  number_tree one_lt_two = true /\
  exists x, ts_try_fold_constant demo_pow one_lt_two = Some x /\
  forall s : state counters, flow s = FLOW_NORMAL -> aborted s = false ->
  exists y s', exprtk_eval demo_pow demo_format demo_deeper one_lt_two s = Done (VNumber y) s' /\
    scopes s' = scopes s /\ flow s' = FLOW_NORMAL /\ (aborted s' = true \/ y = x).
Proof.
  split; [reflexivity|]. apply (constant_backends_agree demo_pow demo_format demo_deeper one_lt_two).
  reflexivity.
Defined.
