(* ===== verification/RtValue.v ===== *)
(** Runtime values with their payloads: [exprtk/src/exprtk_value.c] (deep copies,
    lists) and [exprtk/src/exprtk_map.c] (maps).

    A value is the tree it is when its buffers, list elements and map entries are
    read off; buffers are never shared between the values of the model, since
    every operation here copies.  The entries of a map are listed in slot order.
    The hash table itself belongs to a library outside the repository: where it
    puts a new entry, and how it closes up after a removal, are the operations of
    the class [Slots].  Dates, functions and the other
    types that a copy takes over as they are ([exprtk_value_retain]) are [XOther]
    with an identity. *)

From S2P Require Import Prelude HostStatus Float64.
From stdpp Require Import sorting.
Open Scope Z_scope.

(** ** Data: [exprtk_value_t] *)

Inductive xvalue :=
  | XNull
  | XNumber (number : f64)
  | XInteger (integer : Z)
  | XBool (boolean : Z)
  | XString (s : text)
  | XBytes (s : text)
  | XBigint (s : text)
  | XEnum (flags : bool) (type_name symbol : text) (value is_flags : Z)
  | XVector (data : list f64)
  | XVectorNull (size : Z)                          (* [data] is NULL *)
  | XTyped (kind count : Z) (data : option string)
  | XList (set : bool) (items : list xvalue)        (* [EXPRTK_VAL_LIST] or [_SET] *)
  | XMap (object : bool) (htab : option (list (string * xvalue)))  (* [_MAP] or [_OBJECT] *)
  | XOther (type id : Z).

(** Induction with the hypothesis for the elements and the entries. *)
Section xvalue_induction.
Context (P : xvalue -> Prop).
Hypothesis HNull : P XNull.
Hypothesis HNumber : forall x, P (XNumber x).
Hypothesis HInteger : forall x, P (XInteger x).
Hypothesis HBool : forall x, P (XBool x).
Hypothesis HString : forall x, P (XString x).
Hypothesis HBytes : forall x, P (XBytes x).
Hypothesis HBigint : forall x, P (XBigint x).
Hypothesis HEnum : forall f t s v i, P (XEnum f t s v i).
Hypothesis HVector : forall l, P (XVector l).
Hypothesis HVectorNull : forall n, P (XVectorNull n).
Hypothesis HTyped : forall k n d, P (XTyped k n d).
Hypothesis HList : forall b l, Forall P l -> P (XList b l).
Hypothesis HMapNull : forall b, P (XMap b None).
Hypothesis HMap : forall b l, Forall (fun e => P e.2) l -> P (XMap b (Some l)).
Hypothesis HOther : forall t i, P (XOther t i).

Fixpoint xvalue_nested_ind (v : xvalue) : P v :=
  match v with
  | XNull => HNull
  | XNumber x => HNumber x
  | XInteger x => HInteger x
  | XBool x => HBool x
  | XString x => HString x
  | XBytes x => HBytes x
  | XBigint x => HBigint x
  | XEnum f t s x i => HEnum f t s x i
  | XVector l => HVector l
  | XVectorNull n => HVectorNull n
  | XTyped k n d => HTyped k n d
  | XList b l =>
      HList b l ((fix go l : Forall P l := match l return Forall P l with
                              | [] => Forall_nil_2 _
                              | x :: l => Forall_cons_2 _ x l (xvalue_nested_ind x) (go l)
                              end) l)
  | XMap b None => HMapNull b
  | XMap b (Some l) =>
      HMap b l ((fix go l : Forall (fun e => P e.2) l :=
                   match l return Forall (fun e => P e.2) l with
                             | [] => Forall_nil_2 _
                             | e :: l => Forall_cons_2 _ e l (xvalue_nested_ind e.2) (go l)
                             end) l)
  | XOther t i => HOther t i
  end.
End xvalue_induction.

(** The slots of a map: none without a table. *)
Definition slots (htab : option (list (string * xvalue))) : list (string * xvalue) :=
  default [] htab.

Definition find_key {A} (key : string) (l : list (string * A)) : option (nat * A) :=
  match find_index (fun e => bool_decide (e.1 = key)) l with
  | Some i => (fun e => (i, e.2)) <$> l !! i
  | None => None
  end.

(** ** The hash table: where [hash_map_put] puts a new key, and what
    [hash_map_remove] leaves without slot [i] *)

Class Slots := {
  place : string -> xvalue -> list (string * xvalue) -> list (string * xvalue);
  vacate : nat -> list (string * xvalue) -> list (string * xvalue)
}.

Class SlotsLaws `{Slots} := {
  place_perm k v l : place k v l ≡ₚ (k, v) :: l;
  vacate_perm i l : vacate i l ≡ₚ delete i l
}.

(** ** Deep copies

    A buffer is one allocation outcome; a retained buffer is one that succeeds. *)

(** [exprtk_copy_view] *)
Definition exprtk_copy_view (source : text) (nul_terminate : bool) : fallible text :=
  if text_dangling source then failing
  else if text_size source =? 0 then mret (Text "")
  else if nul_terminate && (text_size source =? SIZE_MAX) then failing
  else _ ← attempt; mret source.

(** The size of an element of a typed array. *)
Definition typed_size (kind : Z) : option Z :=
  if kind =? 1 then Some 4 else if kind =? 2 then Some 8
  else if kind =? 3 then Some 4 else if kind =? 4 then Some 8 else None.

Section copying.
Context `{Slots}.

(** [exprtk_list_push] and [exprtk_map_set] on the contents, over the copy of the
    new element. *)
Definition push_copy (copy : xvalue -> fallible xvalue) (items : list xvalue) (item : xvalue)
    : fallible (list xvalue) :=
  _ ← attempt;                                      (* the list's pool *)
  stored ← copy item;
  _ ← attempt;                                      (* room in the array *)
  mret (items ++ [stored]).

Definition set_copy (copy : xvalue -> fallible xvalue) (l : list (string * xvalue))
    (key : string) (value : xvalue) : fallible (list (string * xvalue)) :=
  value_copy ← copy value;
  match find_key key l with
  | Some (i, _) => mret (<[i := (key, value_copy)]> l)
  | None =>
      _ ← attempt;                                  (* the key *)
      _ ← attempt;                                  (* the slot *)
      mret (place key value_copy l)
  end.

(** [exprtk_map_storage_create] *)
Definition exprtk_map_storage_create : fallible (list (string * xvalue)) :=
  _ ← attempt; _ ← attempt; _ ← attempt; _ ← attempt; mret [].

Fixpoint fold_m {A B} (f : A -> B -> fallible A) (a : A) (l : list B) : fallible A :=
  match l with
  | [] => mret a
  | x :: l => a ← f a x; fold_m f a l
  end.

(** [exprtk_value_copy_to_pool] *)
Fixpoint exprtk_value_copy_to_pool (v : xvalue) : fallible xvalue :=
  match v with
  | XString s => s ← exprtk_copy_view s true; mret (XString s)
  | XBytes s => s ← exprtk_copy_view s false; mret (XBytes s)
  | XBigint s => s ← exprtk_copy_view s true; mret (XBigint s)
  | XEnum f t s n i =>
      t ← exprtk_copy_view t true;
      s ← exprtk_copy_view s true;
      mret (XEnum f t s n i)
  | XVector l =>
      if (length l =? 0)%nat then mret (XVector [])
      else if SIZE_MAX / 8 <? Z.of_nat (length l) then failing
      else _ ← attempt; mret (XVector l)
  | XVectorNull n => if 0 <? n then failing else mret (XVector [])
  | XTyped kind count data =>
      match typed_size kind with
      | None => failing
      | Some size =>
          if 0 <? count then
            match data with
            | None => failing
            | Some d =>
                if SIZE_MAX / size <? count then failing
                else _ ← attempt; mret (XTyped kind count (Some d))
            end
          else mret (XTyped kind count None)
      end
  | XList set items =>
      items ← fold_m (push_copy exprtk_value_copy_to_pool) [] items;
      mret (XList set items)
  | XMap object None =>
      l ← exprtk_map_storage_create; mret (XMap object (Some l))
  | XMap object (Some entries) =>
      l ← exprtk_map_storage_create;
      l ← fold_m (fun l e => set_copy exprtk_value_copy_to_pool l e.1 e.2) l entries;
      mret (XMap object (Some l))
  | XNull | XNumber _ | XInteger _ | XBool _ | XOther _ _ => mret v
  end.

(** [exprtk_value_copy_to_env]: the copy, and what a failure leaves in the
    environment ([aborted], [error_msg]). *)
Definition exprtk_value_copy_to_env (v : xvalue) : heap -> option xvalue * option string * heap :=
  fun h => match exprtk_value_copy_to_pool v h with
           | (Some v, h) => (Some v, None, h)
           | (None, h) => (None, Some "failed to allocate owned value payload", h)
           end.

(** ** Lists and maps *)

Definition exprtk_val_list_empty : xvalue := XList false [].
Definition exprtk_val_set_empty : xvalue := XList true [].

(** [exprtk_list_push]; [None] is the -1 of the code. *)
Definition exprtk_list_push (list : xvalue) (item : xvalue) : fallible xvalue :=
  match list with
  | XList set items =>
      items ← push_copy exprtk_value_copy_to_pool items item; mret (XList set items)
  | _ => failing
  end.

(** [exprtk_val_map], [exprtk_val_object]: without memory the table is NULL. *)
Definition exprtk_val_map (object : bool) (h : heap) : xvalue * heap :=
  let (l, h) := exprtk_map_storage_create h in (XMap object l, h).

Definition exprtk_map_get (map : xvalue) (key : string) : xvalue :=
  match map with
  | XMap _ (Some l) => match find_key key l with Some (_, v) => v | None => XNumber f64_zero end
  | _ => XNumber f64_zero
  end.

(** Do [map] and [value] have the same table?  Values here are trees, so whether two tables that
    are there are one is the argument [own]: [value] borrows the table of [map].  NULL equals NULL. *)
Definition same_htab (own : bool) (map value : xvalue) : bool :=
  match map, value with
  | XMap _ None, XMap _ None => true
  | XMap _ (Some _), XMap _ (Some _) => own
  | _, _ => false
  end.

Definition exprtk_map_set (own : bool) (map : xvalue) (key : string) (value : xvalue) : fallible xvalue :=
  match map with
  | XMap object htab =>
      if same_htab own map value then failing
      else
        l ← match htab with Some l => mret l | None => exprtk_map_storage_create end;
        l ← set_copy exprtk_value_copy_to_pool l key value;
        mret (XMap object (Some l))
  | _ => failing
  end.

Definition exprtk_map_has (map : xvalue) (key : string) : bool :=
  match map with
  | XMap _ (Some l) => match find_key key l with Some _ => true | None => false end
  | _ => false
  end.

(** Whether the key was there, and the map. *)
Definition exprtk_map_delete (map : xvalue) (key : string) : bool * xvalue :=
  match map with
  | XMap object (Some l) =>
      match find_key key l with
      | Some (i, _) => (true, XMap object (Some (vacate i l)))
      | None => (false, map)
      end
  | _ => (false, map)
  end.

Definition exprtk_map_count (map : xvalue) : Z :=
  match map with XMap _ (Some l) => Z.of_nat (length l) | _ => 0 end.
End copying.

(** ** Well-formed values

    Payloads are there when they have a size, and the keys of a map are distinct
    C strings. *)

Definition text_ok (s : text) : bool := negb (text_dangling s) && (text_size s <? SIZE_MAX).

Definition keys_ok {A} (l : list (string * A)) : bool :=
  bool_decide (NoDup l.*1) && forallb (fun e => negb (has_nul e.1)) l.

Fixpoint wf_value (v : xvalue) : bool :=
  match v with
  | XString s | XBytes s | XBigint s => text_ok s
  | XEnum _ t s _ _ => text_ok t && text_ok s
  | XVector l => Z.of_nat (length l) <=? SIZE_MAX / 8
  | XVectorNull n => n =? 0
  | XTyped kind count data =>
      match typed_size kind with
      | Some size =>
          match data with
          | Some _ => count <=? SIZE_MAX / size
          | None => count <=? 0
          end
      | None => false
      end
  | XList _ l => forallb wf_value l
  | XMap _ (Some l) => keys_ok l && forallb (fun e => wf_value e.2) l
  | XNull | XNumber _ | XInteger _ | XBool _ | XMap _ None | XOther _ _ => true
  end.

(** ** Equal values

    Values that a script cannot tell apart: empty payloads with and without
    storage are the same, and so are maps whose entries lie in other slots. *)

Definition canon_text (s : text) : text :=
  match s with NoData n => if n =? 0 then Text "" else s | Text _ => s end.

Definition leaf (v : xvalue) : bool :=
  match v with XList _ _ | XMap _ _ => false | _ => true end.

Definition canon (v : xvalue) : xvalue :=
  match v with
  | XString s => XString (canon_text s)
  | XBytes s => XBytes (canon_text s)
  | XBigint s => XBigint (canon_text s)
  | XEnum f t s n i => XEnum f (canon_text t) (canon_text s) n i
  | XVectorNull n => if n =? 0 then XVector [] else v
  | XTyped kind count _ => if count <=? 0 then XTyped kind count None else v
  | _ => v
  end.

Definition entry_rel {A B} (R : A -> B -> Prop) (p : string * A) (q : string * B) : Prop :=
  p.1 = q.1 /\ R p.2 q.2.

Inductive xeq : xvalue -> xvalue -> Prop :=
  | xeq_leaf v v' : leaf v = true -> canon v = canon v' -> xeq v v'
  | xeq_list b l l' : Forall2 xeq l l' -> xeq (XList b l) (XList b l')
  | xeq_map b h h' e :
      Forall2 (entry_rel xeq) (slots h) e -> e ≡ₚ slots h' -> xeq (XMap b h) (XMap b h').

#[export] Instance xvalue_equiv : Equiv xvalue := xeq.

Lemma leaf_canon v : leaf (canon v) = leaf v.
Proof. destruct v; simpl; try done; by case_match. Qed.

Lemma canon_leaf v v' : leaf v = true -> canon v = canon v' -> leaf v' = true.
Proof. intros Hl He. by rewrite <- leaf_canon, <- He, leaf_canon. Qed.

Lemma xeq_refl v : xeq v v.
Proof.
  induction v as [| | | | | | | | | | |b l IH|b|b l IH|] using xvalue_nested_ind;
    try by apply xeq_leaf.
  - apply xeq_list. by induction IH; constructor.
  - by eapply xeq_map.
  - eapply xeq_map; [|done]. simpl. by induction IH; constructor.
Qed.

Lemma xeq_sym v w : xeq v w -> xeq w v.
Proof.
  revert w. induction v as [| | | | | | | | | | |b l IH|b|b l IH|] using xvalue_nested_ind;
    intros w H; inversion H as [? ? Hl Hc|? ? ? Hl|? h h' e He Hp]; subst; clear H;
    try (apply xeq_leaf; [by eapply canon_leaf, Hc|done]); try discriminate Hl.
  - apply xeq_list. induction Hl as [|x y l l' Hx Hl IHl]; [constructor|].
    inversion IH; subst. constructor; [by auto|by apply IHl].
  - inversion He; subst. symmetry in Hp. apply Permutation_nil_r in Hp.
    eapply xeq_map; [by rewrite Hp|done].
  - destruct (Forall2_perm _ _ _ _ He Hp) as (l0 & Hl0 & He0).
    eapply xeq_map; [|symmetry; exact Hl0].
    rewrite Hl0 in IH. clear -IH He0. simpl in *.
    induction He0 as [|x y l l' [Hk Hx] Hl IHl]; [constructor|].
    inversion IH; subst. constructor; [|by apply IHl]. split; [done|by auto].
Qed.

Lemma xeq_trans u y0 w : xeq u y0 -> xeq y0 w -> xeq u w.
Proof.
  revert y0 w. induction u as [| | | | | | | | | | |b l IH|b|b l IH|] using xvalue_nested_ind;
    intros y0 w H H'; inversion H as [? ? Hl Hc|? ? ? Hl|? h h' e He Hp]; subst; clear H;
    try (inversion H' as [? ? Hl' Hc'|? ? ? Hl'|? h h' e He Hp]; subst;
         [apply xeq_leaf; [done|congruence]|by apply canon_leaf in Hc..]); try discriminate Hl.
  - inversion H' as [? ? Hl' Hc'|? ? ? Hl'|]; subst; [discriminate Hl'|].
    apply xeq_list. clear H'. revert l'0 Hl'.
    induction Hl as [|x y l l' Hx Hl IHl]; intros l'' Hl'; inversion Hl'; subst; [constructor|].
    inversion IH; subst. constructor; [by eauto|by apply IHl].
  - inversion He; subst. apply Permutation_nil_l in Hp.
    inversion H' as [? ? Hl' Hc'| |? k k' e He' Hp']; subst; [discriminate Hl'|].
    rewrite <- Hp in He'. inversion He'; subst. by eapply xeq_map.
  - inversion H' as [? ? Hl' Hc'| |? k k' e' He' Hp']; subst; [discriminate Hl'|].
    apply Forall2_flip in He'. symmetry in Hp.
    destruct (Forall2_perm _ _ _ _ He' Hp) as (e1 & He1 & Hf). apply Forall2_flip in Hf.
    eapply xeq_map; [|etrans; [symmetry; exact He1|exact Hp']].
    clear -IH He Hf. simpl in *. revert e1 Hf.
    induction He as [|x y l l' [Hk Hx] Hl IHl]; intros l'' Hl'; inversion Hl' as [|? z ? ? [Hk' Hz]]; subst;
      [constructor|].
    inversion IH; subst. constructor; [|by apply IHl]. split; [congruence|by eauto].
Qed.

#[export] Instance xeq_equivalence : Equivalence (≡@{xvalue}).
Proof. split; [exact xeq_refl|exact xeq_sym|exact xeq_trans]. Qed.

(** ** Looking up a key *)

Lemma find_key_Some {A} key (l : list (string * A)) i v :
  find_key key l = Some (i, v) -> l !! i = Some (key, v).
Proof.
  unfold find_key. destruct (find_index _ l) as [j|] eqn:E; [|done].
  apply find_index_lookup in E as ([k w] & Hl & Hk). apply bool_decide_eq_true in Hk.
  rewrite Hl. simpl in *. congruence.
Qed.

Lemma find_key_None {A} key (l : list (string * A)) :
  find_key key l = None <-> key ∉ l.*1.
Proof.
  unfold find_key. destruct (find_index _ l) as [j|] eqn:E.
  - apply find_index_lookup in E as ([k w] & Hl & Hk). apply bool_decide_eq_true in Hk.
    rewrite Hl. simpl in *. subst. split; [done|]. intros []. apply list_elem_of_fmap.
    exists (key, w). split; [done|]. by eapply list_elem_of_lookup_2.
  - split; [intros _|done]. apply find_index_None in E. rewrite Forall_forall in E.
    intros ([k w] & -> & Hin)%list_elem_of_fmap. apply E in Hin.
    by apply bool_decide_eq_false in Hin.
Qed.

Lemma find_key_remaining {A} key (l : list (string * A)) i v :
  NoDup l.*1 -> find_key key l = Some (i, v) ->
  l ≡ₚ (key, v) :: delete i l /\ key ∉ (delete i l).*1.
Proof.
  intros Hn Hf%find_key_Some. apply delete_Permutation in Hf. split; [done|].
  rewrite Hf in Hn. simpl in Hn. by apply NoDup_cons in Hn as [? _].
Qed.

Lemma insert_perm {A} (l : list A) i x y :
  l !! i = Some x -> <[i := y]> l ≡ₚ y :: delete i l.
Proof.
  revert i. induction l as [|z l IH]; intros [|i] Hi; simplify_eq/=; [done|].
  rewrite (IH i) by done. apply perm_swap.
Qed.

Definition keys_free {A} (l : list (string * A)) : Prop :=
  Forall (fun e => has_nul e.1 = false) l.

Lemma keys_ok_spec {A} (l : list (string * A)) :
  keys_ok l = true <-> NoDup l.*1 /\ keys_free l.
Proof.
  unfold keys_ok, keys_free. rewrite andb_true_iff, bool_decide_eq_true, forallb_forall, Forall_forall.
  setoid_rewrite negb_true_iff. by setoid_rewrite list_elem_of_In.
Qed.

#[export] Instance keys_ok_proper {A} : Proper ((≡ₚ) ==> eq) (@keys_ok A).
Proof.
  intros l l' Hp. apply eq_bool_prop_intro. rewrite !Is_true_true, !keys_ok_spec.
  unfold keys_free. by rewrite Hp.
Qed.

#[export] Instance forallb_perm {A} (f : A -> bool) : Proper ((≡ₚ) ==> eq) (forallb f).
Proof.
  intros l l' Hp. apply eq_bool_prop_intro. rewrite !Is_true_true, !forallb_forall.
  setoid_rewrite <- list_elem_of_In. by setoid_rewrite Hp.
Qed.

(** ** Copies are equal to their source *)

Section copy_correct.
Context `{SlotsLaws}.

Lemma copy_text_ok s b :
  text_ok s = true ->
  fallibly (exprtk_copy_view s b) (fun s' => canon_text s' = canon_text s /\ text_ok s' = true).
Proof.
  intros Ht. pose proof Ht as Hok. unfold text_ok in Ht. bool_props. unfold exprtk_copy_view.
  destruct (text_dangling s) eqn:Hd; [done|]. destruct (text_size s =? 0) eqn:Hz.
  - apply fallibly_ret. split; [|done]. apply Z.eqb_eq in Hz. destruct s as [n|s]; simpl in *.
    + by subst n.
    + unfold str_size in Hz. destruct s; [done|simpl in Hz; lia].
  - replace (text_size s =? SIZE_MAX) with false by lia. rewrite andb_false_r.
    eapply fallibly_bind; [apply fallibly_attempt|]. intros _ _. by apply fallibly_ret.
Qed.

Local Abbreviation copies f := (fun v => wf_value v = true -> fallibly (f v) (fun v' => v ≡ v' /\ wf_value v' = true)).

Lemma push_copy_ok f items v :
  copies f v -> wf_value v = true ->
  fallibly (push_copy f items v)
    (fun l => exists v', l = items ++ [v'] /\ v ≡ v' /\ wf_value v' = true).
Proof.
  intros Hf Hv. unfold push_copy. eapply fallibly_bind; [apply fallibly_attempt|]. intros _ _.
  eapply fallibly_bind; [by apply Hf|]. intros v' [He Hw].
  eapply fallibly_bind; [apply fallibly_attempt|]. intros _ _. apply fallibly_ret. by exists v'.
Qed.

Lemma push_all_ok f items : forall acc,
  Forall (copies f) items -> forallb wf_value items = true ->
  fallibly (fold_m (push_copy f) acc items)
    (fun l => exists new, l = acc ++ new /\ Forall2 xeq items new /\ forallb wf_value new = true).
Proof.
  induction items as [|v items IH]; intros acc Hf Hw; simpl in *.
  - apply fallibly_ret. exists []. by rewrite app_nil_r.
  - apply andb_prop in Hw as [Hv Hw]. inversion Hf as [|? ? Hfv Hfs]; subst.
    eapply fallibly_bind; [by apply push_copy_ok|]. intros l (v' & -> & He & Hv').
    eapply fallibly_weaken; [by apply IH|]. intros l (new & -> & Hn & Hwn).
    exists (v' :: new). rewrite <- app_assoc. split_and!; [done|by constructor|].
    simpl. by rewrite Hv'.
Qed.

Lemma map_create_ok : fallibly exprtk_map_storage_create (fun l => l = []).
Proof.
  unfold exprtk_map_storage_create.
  do 4 (eapply fallibly_bind; [apply fallibly_attempt|]; intros _ _). by apply fallibly_ret.
Qed.

(** Setting a key: the entries of the other keys stay. *)
Lemma set_copy_ok f l key v :
  copies f v -> wf_value v = true -> NoDup l.*1 ->
  fallibly (set_copy f l key v)
    (fun l' => exists v' rest, l' ≡ₚ (key, v') :: rest /\ v ≡ v' /\ wf_value v' = true /\
       (key ∉ rest.*1) /\
       match find_key key l with Some (_, old) => l ≡ₚ (key, old) :: rest | None => l = rest end).
Proof.
  intros Hf Hv Hn. unfold set_copy. eapply fallibly_bind; [by apply Hf|]. intros v' [He Hw].
  destruct (find_key key l) as [[i old]|] eqn:Hk.
  - apply fallibly_ret. destruct (find_key_remaining _ _ _ _ Hn Hk) as [Hp Hin].
    exists v', (delete i l). split_and!; [|done..].
    eapply insert_perm. by apply find_key_Some.
  - do 2 (eapply fallibly_bind; [apply fallibly_attempt|]; intros _ _). apply fallibly_ret.
    exists v', l. split_and!; [apply place_perm|done|done| |done]. by apply find_key_None.
Qed.

Lemma set_all_ok f entries : forall acc,
  Forall (fun e => copies f e.2) entries -> forallb (fun e => wf_value e.2) entries = true ->
  NoDup (acc ++ entries).*1 ->
  fallibly (fold_m (fun l e => set_copy f l e.1 e.2) acc entries)
    (fun l => exists new, l ≡ₚ acc ++ new /\ Forall2 (entry_rel xeq) entries new /\
       forallb (fun e => wf_value e.2) new = true).
Proof.
  induction entries as [|[k v] entries IH]; intros acc Hf Hw Hn; simpl in *.
  - apply fallibly_ret. exists []. by rewrite app_nil_r.
  - apply andb_prop in Hw as [Hv Hw]. inversion Hf as [|? ? Hfv Hfs]; subst.
    rewrite fmap_app in Hn. simpl in Hn. pose proof Hn as (Hacc & Hdis & Hrest)%NoDup_app.
    eapply fallibly_bind; [by apply set_copy_ok|]. intros l (v' & rest & Hl & He & Hv' & _ & Hold).
    assert (find_key k acc = None) as Hnone.
    { apply find_key_None. intros Hin. eapply Hdis; [exact Hin|]. by left. }
    rewrite Hnone in Hold. subst rest.
    eapply fallibly_weaken; [apply IH; [done..|]|].
    + rewrite fmap_app, Hl. simpl. by rewrite Permutation_middle.
    + intros l' (new & Hl' & Hnew & Hwn). exists ((k, v') :: new). split_and!.
      * rewrite Hl', Hl. simpl. by rewrite Permutation_middle.
      * by constructor.
      * simpl. by rewrite Hv'.
Qed.

Lemma entry_rel_keys (l l' : list (string * xvalue)) :
  Forall2 (entry_rel xeq) l l' -> l.*1 = l'.*1.
Proof. induction 1 as [|? ? ? ? [Hk _] _ IH]; [done|]. rewrite !fmap_cons. by f_equal. Qed.

Lemma keys_ok_keys {A B} (l : list (string * A)) (l' : list (string * B)) :
  l.*1 = l'.*1 -> keys_ok l = true -> keys_ok l' = true.
Proof.
  rewrite !keys_ok_spec. unfold keys_free. intros He [Hn Hf]. rewrite <- He. split; [done|].
  apply (Forall_fmap fst (fun k => has_nul k = false)). rewrite <- He. by apply Forall_fmap.
Qed.

Lemma copy_ok v : copies exprtk_value_copy_to_pool v.
Proof.
  induction v as [| | | |s|s|s|f t s x i|l|n|k n d|b l IH|b|b l IH|] using xvalue_nested_ind;
    intros Hw; simpl in *; try by (apply fallibly_ret; split).
  1-3: eapply fallibly_bind; [by apply copy_text_ok|]; intros s' [He Hs']; apply fallibly_ret;
    (split; [apply xeq_leaf; [done|]; simpl; by rewrite He|done]).
  - apply andb_prop in Hw as [Ht Hs].
    eapply fallibly_bind; [by apply (copy_text_ok t)|]; intros t' [Het Ht'].
    eapply fallibly_bind; [by apply (copy_text_ok s)|]; intros s' [He Hs']. apply fallibly_ret.
    split; [apply xeq_leaf; [done|]; simpl; by rewrite He, Het|]. simpl. by rewrite Ht'.
  - destruct (length l =? 0)%nat eqn:E.
    + apply fallibly_ret. destruct l; [by split|done].
    + replace (SIZE_MAX / 8 <? Z.of_nat (length l)) with false by lia.
      eapply fallibly_bind; [apply fallibly_attempt|]. intros _ _. apply fallibly_ret. by split.
  - replace (0 <? n) with false by lia. apply fallibly_ret. split; [|done].
    apply xeq_leaf; [done|]. simpl. by rewrite Hw.
  - destruct (typed_size k) as [size|] eqn:Ek; [|done]. destruct (0 <? n) eqn:En.
    + destruct d as [d|]; [|lia]. replace (SIZE_MAX / size <? n) with false by lia.
      eapply fallibly_bind; [apply fallibly_attempt|]. intros _ _. apply fallibly_ret.
      split; [done|]. simpl. by rewrite Ek.
    + apply fallibly_ret. split.
      * apply xeq_leaf; [done|]. simpl. by replace (n <=? 0) with true by lia.
      * simpl. rewrite Ek. lia.
  - eapply fallibly_bind; [by apply push_all_ok|]. intros l' (new & -> & Hn & Hwn).
    apply fallibly_ret. split; [by apply xeq_list|done].
  - eapply fallibly_bind; [by apply map_create_ok|]. intros l ->. apply fallibly_ret.
    split; [|done]. by eapply xeq_map.
  - apply andb_prop in Hw as [Hk Hw].
    eapply fallibly_bind; [by apply map_create_ok|]. intros l0 ->.
    eapply fallibly_bind; [apply set_all_ok; [done..|]; by apply keys_ok_spec in Hk as []|].
    intros l' (new & Hl' & Hnew & Hwn). simpl in Hl'. apply fallibly_ret. split.
    + by eapply xeq_map.
    + simpl. rewrite Hl', Hwn, andb_true_r. eapply keys_ok_keys; [|exact Hk].
      by apply entry_rel_keys.
Qed.

(** A deep copy succeeds unless an allocation fails, whatever the types nested in
    the value, and its result is a well-formed value equal to the source up to the
    slots that the map entries lie in. *)
Theorem value_copy_equal v :
  wf_value v = true ->
  fallibly (exprtk_value_copy_to_pool v) (fun v' => v ≡ v' /\ wf_value v' = true).
Proof. apply copy_ok. Qed.

(** ** Maps are finite maps *)

Definition contents (m : xvalue) : gmap string xvalue :=
  match m with XMap _ h => list_to_map (slots h) | _ => ∅ end.

Lemma find_key_contents (l : list (string * xvalue)) key :
  NoDup l.*1 -> (list_to_map l : gmap string xvalue) !! key = snd <$> find_key key l.
Proof.
  intros Hn. destruct (find_key key l) as [[i v]|] eqn:E; simpl.
  - apply elem_of_list_to_map; [done|]. eapply list_elem_of_lookup_2, find_key_Some, E.
  - by apply not_elem_of_list_to_map, find_key_None.
Qed.

Lemma wf_slots object h :
  wf_value (XMap object h) = true ->
  NoDup (slots h).*1 /\ keys_free (slots h) /\ forallb (fun e => wf_value e.2) (slots h) = true.
Proof.
  destruct h as [l|]; simpl; [|intros _; split_and!; [constructor|constructor|done]].
  intros [Hk Hw]%andb_prop. by apply keys_ok_spec in Hk as [].
Qed.

Lemma wf_slots_intro object l l' :
  l' ≡ₚ l -> NoDup l.*1 -> keys_free l -> forallb (fun e => wf_value e.2) l = true ->
  wf_value (XMap object (Some l')) = true.
Proof.
  intros Hp Hn Hf Hw. simpl. rewrite Hp, Hw, andb_true_r. by apply keys_ok_spec.
Qed.

Lemma map_delete_ok object h key :
  wf_value (XMap object h) = true ->
  let m := XMap object h in
  (exprtk_map_delete m key).1 = exprtk_map_has m key /\
  contents (exprtk_map_delete m key).2 = delete key (contents m) /\
  wf_value (exprtk_map_delete m key).2 = true.
Proof.
  intros Hwf. destruct (wf_slots _ _ Hwf) as (Hn & Hf & Hw).
  destruct h as [l|]; simpl in *; [|split_and!; [done|by rewrite delete_empty|done]].
  destruct (find_key key l) as [[i old]|] eqn:Hk; simpl.
  - destruct (find_key_remaining _ _ _ _ Hn Hk) as [Hp Hin].
    pose proof Hn as Hnl. unfold keys_free in Hf. rewrite Hp in Hn, Hf, Hw. simpl in *.
    apply NoDup_cons in Hn as [_ Hn]. inversion Hf as [|? ? _ Hf']; subst.
    apply andb_prop in Hw as [_ Hw]. split_and!; [done| |].
    + rewrite (list_to_map_proper l ((key, old) :: delete i l)) by done.
      rewrite (list_to_map_proper (vacate i l) (delete i l)).
      * simpl. rewrite delete_insert_id; [done|]. by apply not_elem_of_list_to_map.
      * by rewrite vacate_perm.
      * apply vacate_perm.
    + eapply (wf_slots_intro object (delete i l)); [apply vacate_perm|done..].
  - split_and!; [done| |done]. rewrite delete_id; [done|].
    by apply not_elem_of_list_to_map, find_key_None.
Qed.

(** A value with a table of its own, set in a map that has one. *)
Lemma map_set_fresh object l key v :
  exprtk_map_set false (XMap object (Some l)) key v =
  (l ← set_copy exprtk_value_copy_to_pool l key v; mret (XMap object (Some l))).
Proof. by destruct v as [| | | | | | | | | | | |b [t|]|]. Qed.

Lemma map_set_ok own object h key v :
  wf_value (XMap object h) = true -> has_nul key = false -> wf_value v = true ->
  same_htab own (XMap object h) v = false ->
  fallibly (exprtk_map_set own (XMap object h) key v) (fun m' =>
    wf_value m' = true /\
    exists v', v ≡ v' /\ contents m' = <[key := v']> (contents (XMap object h))).
Proof.
  intros Hwf Hkey Hv Hown. cbn [exprtk_map_set]. rewrite Hown. eapply (fallibly_bind _ _ (fun l => l = slots h)).
  { destruct h as [l|]; [by apply fallibly_ret|apply map_create_ok]. }
  intros l ->. destruct (wf_slots _ _ Hwf) as (Hn & Hf & Hw).
  eapply fallibly_bind; [apply set_copy_ok; [apply copy_ok|done..]|].
  intros l' (v' & rest & Hl' & He & Hv' & Hin & Hold). apply fallibly_ret.
  assert (NoDup rest.*1 /\ keys_free rest /\ forallb (fun e => wf_value e.2) rest = true /\
          (list_to_map l' : gmap string xvalue) = <[key := v']> (list_to_map (slots h)))
    as (Hn' & Hf' & Hw' & Hm).
  { assert (forall l0 : list (string * xvalue), l0 ≡ₚ rest \/ (exists o, l0 ≡ₚ (key, o) :: rest) ->
      NoDup l0.*1 -> (list_to_map l' : gmap string xvalue) = <[key := v']> (list_to_map l0)) as Hmap.
    { intros l0 Hl0 Hn0. rewrite (list_to_map_proper l' ((key, v') :: rest)); [| |done].
      2:{ rewrite Hl'. simpl. apply NoDup_cons. split; [done|].
          destruct Hl0 as [Hl0|[o Hl0]]; rewrite Hl0 in Hn0; [done|].
          simpl in Hn0. by apply NoDup_cons in Hn0 as [_ ?]. }
      destruct Hl0 as [Hl0|[o Hl0]]; [by rewrite (list_to_map_proper l0 rest)|].
      rewrite (list_to_map_proper l0 ((key, o) :: rest)) by done. simpl.
      by rewrite insert_insert_eq. }
    destruct (find_key key (slots h)) as [[i old]|].
    - rewrite (Hmap (slots h)) by eauto. unfold keys_free in *. rewrite Hold in Hn, Hf, Hw.
      simpl in *. apply NoDup_cons in Hn as [_ Hn]. apply Forall_cons in Hf as [_ Hf].
      apply andb_prop in Hw as [_ Hw]. by split_and!.
    - subst rest. split_and!; [done..|]. by apply Hmap; [left|]. }
  split; [|by exists v'].
  eapply wf_slots_intro; [exact Hl'| | |].
  - simpl. by apply NoDup_cons.
  - by constructor.
  - simpl. by rewrite Hv'.
Qed.

(** C31: A map behaves as the finite map of its entries: lookups, membership, size,
    deletion and insertion are those of the abstract map, a missing key reads as the
    number 0, and insertion stores a copy that is equal to the value; a map is not inserted
    into itself, nor one without a table into another without. *)
Theorem map_refines_gmap object h key v :
  wf_value (XMap object h) = true -> has_nul key = false -> wf_value v = true ->
  let m := XMap object h in
  exprtk_map_get m key = default (XNumber f64_zero) (contents m !! key) /\
  exprtk_map_has m key = bool_decide (is_Some (contents m !! key)) /\
  exprtk_map_count m = Z.of_nat (size (contents m)) /\
  (exprtk_map_delete m key).1 = exprtk_map_has m key /\
  contents (exprtk_map_delete m key).2 = delete key (contents m) /\
  (forall own, same_htab own m v = false -> fallibly (exprtk_map_set own m key v) (fun m' =>
    exists v', v ≡ v' /\ contents m' = <[key := v']> (contents m))) /\
  (forall own mem, same_htab own m v = true -> exprtk_map_set own m key v mem = (None, mem)).
Proof.
  intros Hwf Hkey Hv m. destruct (wf_slots _ _ Hwf) as (Hn & _ & _).
  destruct (map_delete_ok object h key Hwf) as (Hd1 & Hd2 & _).
  pose proof (find_key_contents (slots h) key Hn) as Hfind. split_and!.
  - subst m. destruct h as [l|]; simpl in *; [|done]. rewrite Hfind.
    by destruct (find_key key l) as [[]|].
  - subst m. destruct h as [l|]; simpl in *; [|done]. rewrite Hfind.
    by destruct (find_key key l) as [[]|].
  - subst m. simpl. destruct h as [l|]; simpl in *; [|by rewrite map_size_empty].
    by rewrite map_size_list_to_map.
  - done.
  - done.
  - intros own Hown. eapply fallibly_weaken; [by apply map_set_ok|]. intros m' [_ Hc]. exact Hc.
  - intros own mem Hown. subst m. cbn [exprtk_map_set]. by rewrite Hown.
Qed.

(** C38: Every operation on values keeps them well-formed: copying, pushing to a list or
    a set, setting and deleting a key never produce a dangling payload or a map
    with two entries for one key. *)
Theorem value_operations_typed v item key :
  wf_value v = true -> wf_value item = true -> has_nul key = false ->
  fallibly (exprtk_value_copy_to_pool v) (fun v' => wf_value v' = true) /\
  (forall h v' h', exprtk_list_push v item h = (Some v', h') -> wf_value v' = true) /\
  (forall own h v' h', exprtk_map_set own v key item h = (Some v', h') -> wf_value v' = true) /\
  wf_value (exprtk_map_delete v key).2 = true /\
  (forall object, wf_value (exprtk_map_get v key) = true /\
     forall h, wf_value (exprtk_val_map object h).1 = true).
Proof.
  intros Hv Hi Hk. split_and!.
  - eapply fallibly_weaken; [by apply copy_ok|]. by intros v' [_ ?].
  - intros h v' h'. destruct v as [| | | | | | | | | | |b l| |]; simpl; try done.
    apply (fallibly_bind _ _ _ (fun v' => wf_value v' = true)
      (push_copy_ok _ l item (copy_ok item) Hi)).
    intros l' (w & -> & _ & Hw). apply fallibly_ret. simpl in *. by rewrite forallb_app, Hv; simpl; rewrite Hw.
  - intros own h v' h' Hs. destruct v as [| | | | | | | | | | | |b t|]; try done.
    destruct (same_htab own (XMap b t) item) eqn:E; [cbn [exprtk_map_set] in Hs; by rewrite E in Hs|].
    by eapply (map_set_ok own b t key item) in Hs as [? _].
  - destruct v as [| | | | | | | | | | | |b t|]; try done. by apply map_delete_ok.
  - intros object. split.
    + destruct v as [| | | | | | | | | | | |b [l|]|]; try done. simpl.
      destruct (find_key key l) as [[i w]|] eqn:E; [|done]. simpl in Hv.
      apply andb_prop in Hv as [_ Hw]. apply find_key_Some, list_elem_of_lookup_2 in E.
      apply list_elem_of_In in E. rewrite forallb_forall in Hw. by apply Hw in E.
    + intros h. unfold exprtk_val_map. destruct (exprtk_map_storage_create h) as [[l|] h'] eqn:E; [|done].
      by apply map_create_ok in E as ->.
Qed.

End copy_correct.

(** ** An instance of the hash table, and the theorems at work *)

#[export] Instance slots_append : Slots := {|
  place k v l := l ++ [(k, v)];
  vacate i l := delete i l
|}.

#[export, refine] Instance slots_append_laws : SlotsLaws :=
  {| place_perm k v l := _; vacate_perm i l := _ |}.
Proof.
  - symmetry. apply Permutation_cons_append.
  - apply Permutation_refl.
Defined.

Definition sample_map : xvalue :=
  XMap false (Some [("a"%string, XInteger 1); ("b"%string, XList false [XNull; XString (Text "x")])]).

Lemma value_copy_equal_witness :
  wf_value sample_map = true /\
  fallibly (exprtk_value_copy_to_pool sample_map) (fun v' => sample_map ≡ v' /\ wf_value v' = true).
Proof. split; [reflexivity|]. apply (value_copy_equal sample_map). reflexivity. Defined.

Lemma map_refines_gmap_witness :
  exprtk_map_get sample_map "a" = default (XNumber f64_zero) (contents sample_map !! "a"%string).
Proof.
  destruct (map_refines_gmap false
    (Some [("a"%string, XInteger 1); ("b"%string, XList false [XNull; XString (Text "x")])])
    "a" XNull eq_refl eq_refl eq_refl) as [H _]. exact H.
Defined.

Lemma value_operations_typed_witness : wf_value (exprtk_map_delete sample_map "b").2 = true.
Proof.
  destruct (value_operations_typed sample_map XNull "b" eq_refl eq_refl eq_refl) as (_ & _ & _ & H & _).
  exact H.
Defined.

Example map_set_run :
  (exprtk_map_set false sample_map "a" (XInteger 7) []).1 =
  Some (XMap false (Some [("a"%string, XInteger 7);
                          ("b"%string, XList false [XNull; XString (Text "x")])])).
Proof. reflexivity. Qed.

Example map_set_itself : exprtk_map_set true sample_map "self" sample_map [] = (None, []).
Proof. reflexivity. Qed.

(** A map that could not be allocated is refused by another such map, for which memory would be there. *)
Example map_set_null : exprtk_map_set false (XMap false None) "a" (XMap false None) [] = (None, []).
Proof. reflexivity. Qed.
