(* ===== verification/Strategy.v ===== *)
(** The strategy runner: [modules/fin/src/strategy.c] and
    [modules/fin/include/strategy.h], [provider.h].

    A context joins a universe ([Universe.v]), a price window per asset
    ([BarWindow.v]), an order manager ([OrderManager.v]) and a script.  The script is
    code that the runner only calls: [Engine] is what its environment and its evaluation
    are; what scripts and the runner exchange are variables of that environment
    ([Env.v], values of [RtValue.v]).  [Provider] is the source of the bars: a stream is the list
    of the bars that [next_bar] delivers before it answers something else than 1.
    Context, universe and provider are not NULL and the provider has its three stream
    callbacks.  The parallel arrays of [strategy_run_universe] are a list of records. The
    allocations of script values succeed; the others are those of the manager's [mem]. *)

From S2P Require Import Prelude Float64 MarketRules OrderManager Env State RtValue SortSearch Universe BarWindow.
Open Scope Z_scope.

(** ** Data *)

Record provider_bar_t := ProviderBar {
  pb_date : f64;
  pb_open : f64;
  pb_high : f64;
  pb_low : f64;
  pb_close : f64;
  pb_volume : f64;
  pb_asset_id : Z
}.

Class Provider := {
  market : option universe_market_rules_t;
  open_stream : Z -> f64 -> f64 -> option (list provider_bar_t)
}.

(** What the runner knows of [exprtk_func_t] and [exprtk_env_t]: [N] are the nodes of
    syntax trees, [W] is the rest of an environment. *)
Record func_t (N : Type) := Func {
  f_name : option string;
  is_script : bool;
  f_body : option N
}.
Arguments Func {N}. Arguments f_name {N}. Arguments is_script {N}. Arguments f_body {N}.

Record script_env (N W : Type) := ScriptEnv {
  vars : @env_t xvalue;
  env_flow : flow_t;
  funcs : list (func_t N);
  world : W
}.
Arguments ScriptEnv {N W}. Arguments vars {N W}. Arguments env_flow {N W}.
Arguments funcs {N W}. Arguments world {N W}.

(** [fresh_env] is the environment that [exprtk_env_init] and the mounting of the
    strategy module leave; the parser answers a tree and its error code. *)
Class Engine := {
  node : Type;
  world_t : Type;
  fresh_env : script_env node world_t;
  parse_script : string -> option node * Z;
  eval_script : node -> script_env node world_t -> script_env node world_t
}.

Definition STRATEGY_DEFAULT_WARMUP : nat := 50.

Record strategy_config_t := Config {
  warmup_bars : nat;
  window_capacity : nat;
  cfg_initial_cash : f64;
  cfg_slippage_pct : f64;
  cfg_spread : f64
}.

Definition strategy_config_default : strategy_config_t :=
  Config STRATEGY_DEFAULT_WARMUP 500 (f64_of_Z 1000000) (f64_lit 5 (-4)) f64_zero.

Section strategy.
Context {X : Executor} {P : Provider} {G : Engine} {S : Slots}.

Abbreviation fn := (func_t node).
Abbreviation senv := (script_env node world_t).

(** [parsed] is the tree of the compiled script, if there is one; the fields
    [num_assets] and [warmup_bars] are the length of [windows] and the value in [config]. *)
Record strategy_ctx_t := Ctx {
  universe : universe_t;
  env : senv;
  parsed : option (option node);
  windows : list bar_window_t;
  order_mgr : order_manager_t;
  has_hooks : bool;
  hook_on_init : option fn;
  hook_on_bar : option fn;
  hook_on_fill : option fn;
  hook_on_stop : option fn;
  total_bars : nat;
  ctx_date : f64;                (* current_date *)
  config : strategy_config_t
}.

Definition set_universe (u : universe_t) (c : strategy_ctx_t) : strategy_ctx_t :=
  Ctx u (env c) (parsed c) (windows c) (order_mgr c) (has_hooks c) (hook_on_init c) (hook_on_bar c)
    (hook_on_fill c) (hook_on_stop c) (total_bars c) (ctx_date c) (config c).
Definition set_env (e : senv) (c : strategy_ctx_t) : strategy_ctx_t :=
  Ctx (universe c) e (parsed c) (windows c) (order_mgr c) (has_hooks c) (hook_on_init c) (hook_on_bar c)
    (hook_on_fill c) (hook_on_stop c) (total_bars c) (ctx_date c) (config c).
Definition set_parsed (p : option (option node)) (c : strategy_ctx_t) : strategy_ctx_t :=
  Ctx (universe c) (env c) p (windows c) (order_mgr c) (has_hooks c) (hook_on_init c) (hook_on_bar c)
    (hook_on_fill c) (hook_on_stop c) (total_bars c) (ctx_date c) (config c).
Definition set_windows (l : list bar_window_t) (c : strategy_ctx_t) : strategy_ctx_t :=
  Ctx (universe c) (env c) (parsed c) l (order_mgr c) (has_hooks c) (hook_on_init c) (hook_on_bar c)
    (hook_on_fill c) (hook_on_stop c) (total_bars c) (ctx_date c) (config c).
Definition set_mgr (m : order_manager_t) (c : strategy_ctx_t) : strategy_ctx_t :=
  Ctx (universe c) (env c) (parsed c) (windows c) m (has_hooks c) (hook_on_init c) (hook_on_bar c)
    (hook_on_fill c) (hook_on_stop c) (total_bars c) (ctx_date c) (config c).
Definition set_hooks (i b f s : option fn) (c : strategy_ctx_t) : strategy_ctx_t :=
  Ctx (universe c) (env c) (parsed c) (windows c) (order_mgr c)
    (bool_decide (is_Some i) || bool_decide (is_Some b) || bool_decide (is_Some f) || bool_decide (is_Some s))
    i b f s (total_bars c) (ctx_date c) (config c).
Definition set_total (n : nat) (c : strategy_ctx_t) : strategy_ctx_t :=
  Ctx (universe c) (env c) (parsed c) (windows c) (order_mgr c) (has_hooks c) (hook_on_init c)
    (hook_on_bar c) (hook_on_fill c) (hook_on_stop c) n (ctx_date c) (config c).
Definition set_date (d : f64) (c : strategy_ctx_t) : strategy_ctx_t :=
  Ctx (universe c) (env c) (parsed c) (windows c) (order_mgr c) (has_hooks c) (hook_on_init c)
    (hook_on_bar c) (hook_on_fill c) (hook_on_stop c) (total_bars c) d (config c).

(** [f] applied to the order manager, or to the environment. *)
Definition on_mgr (f : order_manager_t -> order_manager_t) (c : strategy_ctx_t) : strategy_ctx_t :=
  set_mgr (f (order_mgr c)) c.
Definition on_env (f : senv -> senv) (c : strategy_ctx_t) : strategy_ctx_t := set_env (f (env c)) c.

(** ** Variables of the script *)

Definition set_var (name : string) (v : xvalue) (e : senv) : senv :=
  ScriptEnv (exprtk_env_set (vars e) name v) (env_flow e) (funcs e) (world e).

Definition set_env_flow (f : flow_t) (e : senv) : senv :=
  ScriptEnv (vars e) f (funcs e) (world e).

Definition ts_bind_num (e : senv) (name : string) (val : f64) : senv := set_var name (XNumber val) e.

(** The first [len] elements of an array. *)
Definition ts_bind_vec (e : senv) (name : string) (data : list f64) (len : nat) : senv :=
  set_var name (XVector (take len data)) e.

Definition read_num (e : senv) (name : string) (def : f64) : f64 :=
  match exprtk_env_get (XNumber f64_zero) (vars e) name with
  | XNumber x => x
  | _ => def
  end.

Definition bind_nums (l : list (string * f64)) (e : senv) : senv :=
  foldl (fun e p => ts_bind_num e p.1 p.2) e l.

(** ** Lifecycle *)

Fixpoint create_windows (n cap : nat) (h : heap) : option (list bar_window_t) * heap :=
  match n with
  | O => (Some [], h)
  | Datatypes.S n =>
      match bar_window_create cap h with
      | (Some w, h) =>
          let (l, h) := create_windows n cap h in (cons w <$> l, h)
      | (None, h) => (None, h)
      end
  end.

Definition declared_vars : list (string * f64) :=
  [("signal", f64_zero); ("size", f64_lit 1 (-1)); ("stop_loss", f64_zero); ("take_profit", f64_zero);
   ("num_trades", f64_zero); ("num_wins", f64_zero); ("cum_pnl", f64_zero); ("entry_price", f64_zero)].

Definition strategy_create (u : universe_t) (cfg : option strategy_config_t) (h : heap)
    : option strategy_ctx_t :=
  let (ok_ctx, h) := alloc h in
  if negb ok_ctx then None else
  let cfg := default strategy_config_default cfg in
  let n := Universe.num_assets u in
  let (ok_windows, h) := if (0 <? n)%nat then alloc h else (true, h) in
  if negb ok_windows then None else
  let (l, h) := create_windows n (window_capacity cfg) h in
  match l with
  | None => None
  | Some l =>
      match order_manager_create market (cfg_initial_cash cfg) (if (0 <? n)%nat then n else 256%nat) h with
      | None => None
      | Some m =>
          let m := Manager (rules m) (positions m) (pending m) (pending_cap m) (trades m) (trades_cap m)
                     (equity_curve m) (equity_cap m) (cash m) (equity m) (initial_cash m)
                     (cfg_slippage_pct cfg) (cfg_spread cfg) (next_order_id m) (current_date m)
                     (executor m) (calls m) (mem m) in
          let (ok_env, h) := alloc (mem m) in
          if negb ok_env then None
          else Some (Ctx u (bind_nums declared_vars fresh_env) None l (set_mem h m) false
                       None None None None 0 f64_zero cfg)
      end
  end.

(** ** Hooks *)

(** The last function of the list that a script defined under this name. *)
Definition find_hook (name : string) (l : list fn) : option fn :=
  foldl (fun found f => if is_script f && bool_decide (f_name f = Some name) then Some f else found)
    None l.

Definition strategy_init_hooks (c : strategy_ctx_t) : strategy_ctx_t :=
  let l := funcs (env c) in
  set_hooks (find_hook "on_init" l) (find_hook "on_bar" l) (find_hook "on_fill" l)
    (find_hook "on_stop" l) c.

(** One evaluation with the flow reset around it; evaluating NULL does nothing. *)
Definition run_body (body : option node) (e : senv) : senv :=
  let e := set_env_flow FLOW_NORMAL e in
  set_env_flow FLOW_NORMAL (match body with Some b => eval_script b e | None => e end).

Definition call_hook (hook : option fn) (c : strategy_ctx_t) : strategy_ctx_t :=
  match hook with
  | Some (Func _ _ (Some b)) => on_env (run_body (Some b)) c
  | _ => c
  end.

Definition fill_fields (tr : trade_record_t) : list (string * f64) :=
  [("asset_id", f64_of_Z (t_asset_id tr)); ("direction", f64_of_Z (t_direction tr));
   ("price", t_exit_price tr); ("quantity", t_quantity tr); ("pnl", t_pnl tr)].

(** The map of a fill; an assignment that fails leaves the map as it was. *)
Definition fill_map (tr : trade_record_t) : xvalue :=
  foldl (fun m p => default m (exprtk_map_set false m p.1 (XNumber p.2) []).1)
    (exprtk_val_map false []).1 (fill_fields tr).

Definition call_hook_on_fill (c : strategy_ctx_t) (tr : trade_record_t) : strategy_ctx_t :=
  match hook_on_fill c with
  | Some f => on_env (fun e => run_body (f_body f) (set_var "fill" (fill_map tr) e)) c
  | None => c
  end.

(** ** Reset *)

Definition strategy_reset (c : strategy_ctx_t) : strategy_ctx_t :=
  let m := order_mgr c in
  let m := Manager (rules m) (replicate (OrderManager.capacity m) position_zero) [] (pending_cap m)
             [] (trades_cap m) [] (equity_cap m) (initial_cash m) (initial_cash m) (initial_cash m)
             (slippage_pct m) (spread m) 1 (current_date m) (executor m) (calls m) (mem m) in
  set_date f64_zero (set_total 0 (set_universe (universe_reset (universe c))
    (set_windows (bar_window_clear <$> windows c) (set_mgr m c)))).

(** ** Compilation *)

Definition strategy_compile (c : strategy_ctx_t) (code : string) : Z * strategy_ctx_t :=
  let (ok, h) := alloc (mem (order_mgr c)) in
  let c := on_mgr (set_mem h) c in
  if negb ok then (-1, set_parsed None c) else
  let (root, err) := parse_script code in
  let c := set_parsed (Some root) c in
  if err =? 0 then
    let c := match root with
             | Some r => on_env (fun e => set_env_flow FLOW_NORMAL (eval_script r e)) c
             | None => c
             end in
    (0, strategy_init_hooks c)
  else (-1, c).

(** ** One bar *)

Definition bind_bar_context (c : strategy_ctx_t) (w : bar_window_t) (asset_id : Z) (prev_close : f64)
    : strategy_ctx_t :=
  let n := BarWindow.count w in
  let m := order_mgr c in
  let vec e name l := ts_bind_vec e name l n in
  let e := env c in
  let e := vec e "O" (c_open (view w)) in
  let e := vec e "H" (c_high (view w)) in
  let e := vec e "L" (c_low (view w)) in
  let e := vec e "C" (c_close (view w)) in
  let e := vec e "V" (c_volume (view w)) in
  set_env (bind_nums
    [("n", f64_of_Z (Z.of_nat n)); ("asset_id", f64_of_Z asset_id);
     ("bar_index", f64_of_Z (Z.of_nat (total_bars c)));
     ("position", order_manager_position m asset_id);
     ("entry_price", order_manager_entry_price m asset_id); ("cash", cash m); ("equity", equity m);
     ("prev_close", prev_close)] e) c.

Definition bind_trade_stats (c : strategy_ctx_t) : strategy_ctx_t :=
  let l := trades (order_mgr c) in
  let nw := foldl (fun nw t => if (t_pnl t >? 0.0)%f64 then (nw + 1.0)%f64 else nw) f64_zero l in
  let cpnl := foldl (fun s t => (s + t_pnl t)%f64) f64_zero l in
  on_env (bind_nums [("num_trades", f64_of_Z (Z.of_nat (length l))); ("num_wins", nw); ("cum_pnl", cpnl)]) c.

Definition output_vars : list (string * f64) :=
  [("signal", f64_zero); ("size", f64_lit 1 (-1)); ("signal_type", f64_zero); ("signal_price", f64_zero);
   ("bars_valid", f64_one); ("stop_loss", f64_zero); ("take_profit", f64_zero);
   ("trailing_dist", f64_zero); ("trailing_pct", f64_zero)].

Definition reset_output_vars (c : strategy_ctx_t) : strategy_ctx_t := on_env (bind_nums output_vars) c.

(** The top level of a script without [on_bar] runs with the flow as it is. *)
Definition execute_strategy_script (c : strategy_ctx_t) : strategy_ctx_t :=
  match has_hooks c, hook_on_bar c with
  | true, Some f => call_hook (Some f) c
  | _, _ =>
      match parsed c with
      | Some (Some root) => on_env (eval_script root) c
      | _ => c
      end
  end.

(** What the script asks for. *)
Record request := Request {
  q_signal : f64; q_size : f64; q_type : f64; q_price : f64; q_valid : Z;
  q_stop_loss : f64; q_take_profit : f64; q_trailing_dist : f64; q_trailing_pct : f64
}.

Definition read_request (e : senv) : request :=
  Request (read_num e "signal" f64_zero) (read_num e "size" (f64_lit 1 (-1)))
    (read_num e "signal_type" f64_zero) (read_num e "signal_price" f64_zero)
    (int_of_f64 (read_num e "bars_valid" f64_one)) (read_num e "stop_loss" f64_zero)
    (read_num e "take_profit" f64_zero) (read_num e "trailing_dist" f64_zero)
    (read_num e "trailing_pct" f64_zero).

Definition submit_signal (q : request) (asset_id direction : Z) (open_price prev_close : f64)
    (m : order_manager_t) : order_manager_t :=
  if (q_type q ==? 1.0)%f64 then
    (order_manager_limit m asset_id direction (q_size q) (q_price q) (q_stop_loss q) (q_take_profit q)
       (q_valid q)).1.2
  else if (q_type q ==? f64_of_Z 2)%f64 then
    (order_manager_stop m asset_id direction (q_size q) (q_price q) (q_stop_loss q) (q_take_profit q)
       (q_valid q)).1.2
  else
    (order_manager_market m asset_id direction (q_size q) open_price prev_close (q_stop_loss q)
       (q_take_profit q)).2.

Definition may_short (m : order_manager_t) : bool :=
  match rules m with Some r => short_allowed r | None => false end.

(** [process_strategy_signals] on the order manager; [date] is that of the context. *)
Definition follow_signal (q : request) (asset_id : Z) (open_price prev_close date : f64)
    (m : order_manager_t) : order_manager_t :=
  let pos := order_manager_position m asset_id in
  let m := if (q_trailing_dist q >? 0.0)%f64 && (pos !=? 0.0)%f64
           then order_manager_set_trailing_stop m asset_id (q_trailing_dist q) (q_trailing_pct q >? 0.0)%f64
           else m in
  let close m := (order_manager_close m asset_id open_price date).2 in
  if (q_signal q >? f64_lit 5 (-1))%f64 && (pos <=? 0.0)%f64 then
    let m := if (pos <? 0.0)%f64 then close m else m in
    submit_signal q asset_id 1 open_price prev_close m
  else if (q_signal q <? - f64_lit 5 (-1))%f64 && (pos >=? 0.0)%f64 then
    let m := if (pos >? 0.0)%f64 then close m else m in
    if may_short m then submit_signal q asset_id (-1) open_price prev_close m else m
  else if (f64_fabs (q_signal q) <? f64_lit 1 (-2))%f64 && (pos !=? 0.0)%f64 then
    close (order_manager_cancel_pending m asset_id)
  else m.

Definition process_strategy_signals (c : strategy_ctx_t) (asset_id : Z) (open_price prev_close : f64)
    : strategy_ctx_t :=
  on_mgr (follow_signal (read_request (env c)) asset_id open_price prev_close (ctx_date c)) c.

(** Step 1 of [strategy_on_bar]: the adjusted bar enters the window. *)
Definition push_bar (asset_id : Z) (b : provider_bar_t) (prev_close : f64) (u : universe_t)
    (w : bar_window_t) : universe_t * bar_window_t :=
  let prev_adj := universe_adj_factor u asset_id in
  let u := universe_apply_runtime_adjustments u asset_id (pb_date b) prev_close in
  let adj := universe_adj_factor u asset_id in
  let w := if (0 <? BarWindow.count w)%nat && (prev_adj >? 0.0)%f64 && (adj >? 0.0)%f64 && (prev_adj !=? adj)%f64
           then bar_window_rescale_prices w (adj / prev_adj)%f64 else w in
  (u, bar_window_push_adjusted w (pb_date b) (pb_open b) (pb_high b) (pb_low b) (pb_close b)
        (pb_volume b) adj).

(** Binding, running and following the script. *)
Definition run_script (asset_id : Z) (b : provider_bar_t) (w : bar_window_t) (prev_close : f64)
    (c : strategy_ctx_t) : strategy_ctx_t :=
  let c := bind_bar_context c w asset_id prev_close in
  let c := bind_trade_stats c in
  let c := reset_output_vars c in
  let c := execute_strategy_script c in
  process_strategy_signals c asset_id (pb_open b) prev_close.

Definition strategy_on_bar (c : strategy_ctx_t) (asset_id : Z) (b : provider_bar_t) (prev_close : f64)
    (is_warmup : bool) : strategy_ctx_t :=
  match universe_find_asset (universe c) asset_id with
  | None => c
  | Some idx =>
      match windows c !! idx with
      | None => c                      (* outside the array; see [ctx_ok] *)
      | Some w =>
          let (u, w) := push_bar asset_id b prev_close (universe c) w in
          let c := set_windows (<[idx := w]> (windows c)) (set_universe u c) in
          if is_warmup || negb (bar_window_ready w (warmup_bars (config c))) then c else
          let w := bar_window_linearize w in
          let c := set_windows (<[idx := w]> (windows c)) c in
          let c := on_mgr (fun m => order_manager_check_triggers m asset_id (pb_open b) (pb_high b)
                                      (pb_low b) (pb_close b) prev_close) c in
          match parsed c with
          | None => c
          | Some _ => run_script asset_id b w prev_close c
          end
      end
  end.

(** The fills since the last report go to [on_fill]. *)
Definition fire_fills (c : strategy_ctx_t) (seen : nat) : strategy_ctx_t * nat :=
  match has_hooks c, hook_on_fill c with
  | true, Some _ =>
      let l := trades (order_mgr c) in
      (foldl call_hook_on_fill c (drop seen l), length l)
  | _, _ => (c, seen)
  end.

Definition if_hooks (hook : strategy_ctx_t -> option fn) (c : strategy_ctx_t) : strategy_ctx_t :=
  if has_hooks c then call_hook (hook c) c else c.

(** The last close of a run, and its report. *)
Definition close_out (asset_id : Z) (price date : f64) (c : strategy_ctx_t) : strategy_ctx_t :=
  let (tr, m) := order_manager_close (order_mgr c) asset_id price date in
  let c := set_mgr m c in
  match has_hooks c, tr with
  | true, Some tr => call_hook_on_fill c tr
  | _, _ => c
  end.

(** ** One asset *)

Record single_state := Single {
  s_ctx : strategy_ctx_t;
  s_seen : nat;                  (* prev_num_trades *)
  s_prev_close : f64;            (* prev_bar.close *)
  s_processed : nat
}.

Definition single_step (asset_id : Z) (s : single_state) (b : provider_bar_t) : single_state :=
  let c := s_ctx s in
  let c := set_universe (universe_advance (universe c) (pb_date b)) c in
  let c := on_mgr (fun m => order_manager_begin_bar m (pb_date b)) c in
  let c := set_date (pb_date b) c in
  let warmup := Z.of_nat (s_processed s) <? int_of_size (warmup_bars (config c)) in
  let c := strategy_on_bar c asset_id b (s_prev_close s) warmup in
  let (c, seen) := fire_fills c (s_seen s) in
  let price := (pb_close b * universe_adj_factor (universe c) asset_id)%f64 in
  let c := on_mgr (fun m => order_manager_mark_to_market m [(asset_id, price)]) c in
  let c := on_mgr (fun m => (order_manager_record_equity m).2) c in
  Single (set_total (total_bars c + 1) c) seen (pb_close b) (s_processed s + 1).

Definition begin_single (c : strategy_ctx_t) (start_date : f64) : single_state :=
  let c := on_mgr (fun m => order_manager_begin_bar m start_date) c in
  let c := if_hooks hook_on_init c in
  Single c (num_trades (order_mgr c)) f64_zero 0.

Definition end_single (asset_id : Z) (end_date : f64) (s : single_state) : strategy_ctx_t :=
  let c := s_ctx s in
  let c := if (s_prev_close s >? 0.0)%f64 then close_out asset_id (s_prev_close s) end_date c else c in
  if_hooks hook_on_stop c.

Definition strategy_run_single (c : strategy_ctx_t) (asset_id : Z) (start_date end_date : f64)
    : Z * strategy_ctx_t :=
  match universe_find_asset (universe c) asset_id ≫= fun i => u_assets (universe c) !! i with
  | None => (-1, c)
  | Some a =>
      let start_date := if (start_date <=? 0.0)%f64 then a_start_date a else start_date in
      let end_date := if (end_date <=? 0.0)%f64
                      then if (a_end_date a >? 0.0)%f64 then a_end_date a else f64_of_Z (10 ^ 12)
                      else end_date in
      match open_stream asset_id start_date end_date with
      | None => (-1, c)
      | Some l =>
          let s := foldl (single_step asset_id) (begin_single c start_date) l in
          (Z.of_nat (s_processed s), end_single asset_id end_date s)
      end
  end.

(** ** A whole universe *)

(** The entries of the parallel arrays for one asset.  [l_bars] is the bar in
    [bars[i]] with what its stream still holds, none when [has_bar[i]] is 0. *)
Record lane := Lane {
  l_id : Z;
  l_bars : list provider_bar_t;
  l_prev_close : f64;
  l_mtm : f64;
  l_processed : nat
}.

Definition open_lane (start_date end_date : f64) (a : universe_asset_t) : lane :=
  let s := if (start_date >? 0.0)%f64 then start_date else a_start_date a in
  let e := if (end_date >? 0.0)%f64 then end_date
           else if (a_end_date a >? 0.0)%f64 then a_end_date a else f64_of_Z (10 ^ 12) in
  Lane (a_id a) (default [] (open_stream (a_id a) s e)) f64_zero f64_zero 0.

Definition next_date (l : list lane) : option f64 :=
  foldl (fun found x =>
    match l_bars x with
    | [] => found
    | b :: _ =>
        match found with
        | Some d => if (pb_date b <? d)%f64 then Some (pb_date b) else found
        | None => Some (pb_date b)
        end
    end) None l.

(** The state of a day: the context, [prev_num_trades] and [total]. *)
Record day_state := Day { d_ctx : strategy_ctx_t; d_seen : nat; d_total : nat }.

Definition lane_step (date : f64) (d : day_state) (x : lane) : day_state * lane :=
  match l_bars x with
  | [] => (d, x)
  | b :: rest =>
      if (pb_date b !=? date)%f64 then (d, x) else
      let c := d_ctx d in
      let c := strategy_on_bar c (l_id x) b (l_prev_close x)
                 (l_processed x <? warmup_bars (config c))%nat in
      let (c, seen) := fire_fills c (d_seen d) in
      let mtm := (pb_close b * universe_adj_factor (universe c) (l_id x))%f64 in
      (Day (set_total (total_bars c + 1) c) seen (d_total d + 1),
       Lane (l_id x) rest (pb_close b) mtm (l_processed x + 1))
  end.

Fixpoint lane_loop (date : f64) (d : day_state) (l : list lane) : day_state * list lane :=
  match l with
  | [] => (d, [])
  | x :: l =>
      let (d, x) := lane_step date d x in
      let (d, l) := lane_loop date d l in
      (d, x :: l)
  end.

Definition begin_day (date : f64) (c : strategy_ctx_t) : strategy_ctx_t :=
  let c := set_universe (universe_advance (universe c) date) c in
  set_date date (on_mgr (fun m => order_manager_begin_bar m date) c).

Definition end_day (l : list lane) (c : strategy_ctx_t) : strategy_ctx_t :=
  let c := on_mgr (fun m => order_manager_mark_to_market m ((fun x => (l_id x, l_mtm x)) <$> l)) c in
  on_mgr (fun m => (order_manager_record_equity m).2) c.

Definition run_day (date : f64) (d : day_state) (l : list lane) : day_state * list lane :=
  let (d, l) := lane_loop date (Day (begin_day date (d_ctx d)) (d_seen d) (d_total d)) l in
  (Day (end_day l (d_ctx d)) (d_seen d) (d_total d), l).

(** The [for (;;)]; [None] when it does not end within [fuel] days. *)
Fixpoint day_loop (fuel : nat) (d : day_state) (l : list lane) : option (day_state * list lane) :=
  match next_date l with
  | None => Some (d, l)
  | Some date =>
      match fuel with
      | O => None
      | Datatypes.S fuel => let (d, l) := run_day date d l in day_loop fuel d l
      end
  end.

Definition close_lane (c : strategy_ctx_t) (x : lane) : strategy_ctx_t :=
  if (l_mtm x <=? 0.0)%f64 then c else close_out (l_id x) (l_mtm x) (ctx_date c) c.

Definition end_universe (d : day_state) (l : list lane) : Z * strategy_ctx_t :=
  (Z.of_nat (d_total d), if_hooks hook_on_stop (foldl close_lane (d_ctx d) l)).

Definition open_universe (c : strategy_ctx_t) (start_date end_date : f64) : day_state * list lane :=
  let l := open_lane start_date end_date <$> u_assets (universe c) in
  let c := set_windows (bar_window_clear <$> windows c) c in
  let c := if_hooks hook_on_init c in
  (Day c (num_trades (order_mgr c)) 0, l).

(** [None] stands for a run that does not end within [fuel] days. *)
Definition strategy_run_universe (fuel : nat) (c : strategy_ctx_t) (start_date end_date : f64)
    : option (Z * strategy_ctx_t) :=
  let h := mem (order_mgr c) in              (* seven allocations, tested together *)
  let c := on_mgr (set_mem (drop 7 h)) c in
  if negb (forallb id (take 7 h)) then Some (-1, c)
  else
    let (d, l) := open_universe c start_date end_date in
    (fun '(d, l) => end_universe d l) <$> day_loop fuel d l.

(** ** Results *)

Definition strategy_equity_curve (c : strategy_ctx_t) : list f64 := equity_curve (order_mgr c).

Definition strategy_trade_returns (c : strategy_ctx_t) (max : nat) : list f64 :=
  order_manager_trade_returns (order_mgr c) max.

Definition strategy_final_equity (c : strategy_ctx_t) : f64 := equity (order_mgr c).

Definition strategy_total_return (c : strategy_ctx_t) : f64 :=
  let init := initial_cash (order_mgr c) in
  if (init >? f64_lit 1 (-9))%f64 then ((equity (order_mgr c) - init) / init)%f64 else f64_zero.
End strategy.
