(* ===== verification/StrategyProofs.v ===== *)
(** Runs of a strategy: what every run keeps, the calendar a universe is run on, and
    what a run cannot depend on.  The definitions are those of [Strategy.v]. *)

From S2P Require Import Prelude Float64 MarketRules OrderManager Env State RtValue SortSearch Universe BarWindow Strategy.
Open Scope Z_scope.

(** ** The order manager along a run

    Operations only append to the trade log and to the equity curve. *)

Definition calm (m m' : order_manager_t) : Prop :=
  next_order_id m' = next_order_id m /\ executor m' = executor m /\
  trades m `prefix_of` trades m' /\ equity_curve m `prefix_of` equity_curve m'.

#[export] Instance calm_preorder : PreOrder calm.
Proof.
  split.
  - intros m. by repeat split.
  - intros m1 m2 m3 (N1 & X1 & T1 & C1) (N2 & X2 & T2 & C2). split_and!; [congruence..| |]; by etransitivity.
Qed.

Lemma calm_pure m m' :
  next_order_id m' = next_order_id m -> executor m' = executor m -> trades m' = trades m ->
  equity_curve m' = equity_curve m -> calm m m'.
Proof. unfold calm. intros -> -> -> ->. by split_and!. Qed.

Lemma same_frame_calm m m' : same_frame m m' -> trades m `prefix_of` trades m' -> calm m m'.
Proof. intros (_&_&_&Ec&_&_&_&_&_&En&_&Ee&_) Ht. split_and!; [done..|by rewrite Ec]. Qed.

(** At most one trade is appended. *)
Definition logs (m m' : order_manager_t) (t : option trade_record_t) : Prop :=
  trades m' = trades m ++ option_list t.

Lemma logs_prefix m m' t : logs m m' t -> trades m `prefix_of` trades m'.
Proof. intros ->. by apply prefix_app_r. Qed.

Lemma apply_fill_logs m i d q fp c sl tp : exists t, logs m (apply_fill m i d q fp c sl tp) t.
Proof.
  unfold apply_fill, logs. simpl. destruct (0 <? d); [exists None; by rewrite app_nil_r|].
  case_match;
    match goal with |- context [record_trade ?m0 ?a ?d ?e ?x ?q ?ed ?xd ?c] =>
      destruct (record_trade_spec m0 a d e x q ed xd c) as (_ & _ & _ & [T|T] & _) end;
    simpl; rewrite T; simpl; [exists None; by rewrite app_nil_r|by eexists (Some _)|
                              exists None; by rewrite app_nil_r|by eexists (Some _)].
Qed.

Lemma execute_fill_logs m a d q xp pc sl tp : exists t, logs m (execute_fill m a d q xp pc sl tp).2 t.
Proof.
  unfold execute_fill.
  destruct (find_or_create_position m a) as [oi m1] eqn:F.
  apply find_or_create_spec in F as (_ & _ & T & _).
  assert (exists t, logs m m1 t) as H0 by (exists None; unfold logs; by rewrite T, app_nil_r).
  destruct oi as [i|]; [|done].
  destruct (market_validate_order _ _ _ _ _ _ _ _ _); simpl; try done.
  unfold logs. rewrite <- T. apply apply_fill_logs.
Qed.

Lemma execute_fill_calm m a d q xp pc sl tp : calm m (execute_fill m a d q xp pc sl tp).2.
Proof.
  destruct (execute_fill_logs m a d q xp pc sl tp) as [t Ht].
  apply same_frame_calm; [apply execute_fill_frame|by eapply logs_prefix].
Qed.

Section manager.
Context {X : Executor}.

Lemma begin_bar_calm m d : calm m (order_manager_begin_bar m d).
Proof. unfold order_manager_begin_bar. by repeat case_match. Qed.

(** Closing returns the trade it logs. *)
Lemma close_logs m a xp d :
  executor m = None -> let r := order_manager_close m a xp d in logs m r.2 r.1 /\ same_frame m r.2.
Proof.
  intros He. assert (logs m m None) as H0 by (unfold logs; by rewrite app_nil_r).
  unfold order_manager_close. destruct (find_position m a) as [i|]; [|by split].
  case_match; [by split|]. rewrite He.
  match goal with |- context [execute_fill ?m ?a ?d ?q ?xp ?pc ?sl ?tp] =>
    pose proof (execute_fill_frame m a d q xp pc sl tp) as Hf;
    destruct (execute_fill_logs m a d q xp pc sl tp) as [t Ht];
    destruct (execute_fill m a d q xp pc sl tp) as [err m'] end.
  unfold logs, num_trades in *. cbn [snd] in *.
  destruct (_ <? _)%nat eqn:E; bool_props; cbn [fst snd]; (split; [|exact Hf]);
    rewrite Ht, length_app in *; destruct t; simpl in *; try lia; try done.
  by rewrite last_snoc.
Qed.

Lemma close_calm m a xp d : executor m = None -> calm m (order_manager_close m a xp d).2.
Proof. intros [Ht Hf]%(close_logs m a xp d). apply same_frame_calm; [done|by eapply logs_prefix]. Qed.

Lemma try_fill_calm a h l pc m i : calm m (try_fill a h l pc m i).
Proof.
  unfold try_fill. destruct (pending m !! i) as [o|]; [|done].
  destruct (_ || _); [done|]. destruct (trigger_price o h l) as [p|]; [|done].
  match goal with |- context [execute_fill ?m ?a ?d ?q ?xp ?pc ?sl ?tp] =>
    pose proof (execute_fill_calm m a d q xp pc sl tp) as Hm1;
    destruct (execute_fill m a d q xp pc sl tp) as [err m1] end.
  etransitivity; [exact Hm1|]. destruct (0 <? o_oco_link_id o); by apply calm_pure.
Qed.

(** A loop of calm steps. *)
Lemma foldl_calm {A} (f : order_manager_t -> A -> order_manager_t) l :
  (forall m x, calm m (f m x)) -> forall m, calm m (fold_left f l m).
Proof.
  intros Hf. induction l as [|x l IH]; intros m; [done|]. simpl. etransitivity; [apply Hf|apply IH].
Qed.

Lemma check_triggers_calm m a o h l c pc :
  executor m = None -> calm m (order_manager_check_triggers m a o h l c pc).
Proof.
  intros He. unfold order_manager_check_triggers.
  set (m1 := set_pending (expire_order a <$> pending m) m).
  assert (calm m m1) as Hm1 by by apply calm_pure.
  assert (executor m1 = None) as He1 by done. rewrite He1.
  assert (forall m2, calm m m2 -> calm m (compact (fill_orders a h l pc m2))) as Hfill.
  { intros m2 Hm2. etransitivity; [exact Hm2|]. unfold fill_orders.
    etransitivity; [apply (foldl_calm (try_fill a h l pc)); intros; apply try_fill_calm|].
    by apply calm_pure. }
  destruct (find_position m1 a) as [i|]; [|by apply Hfill].
  destruct (p_position (slot m1 i) ==? 0.0)%f64; [by apply Hfill|].
  match goal with |- context [put_position i ?p m1] =>
    assert (calm m (put_position i p m1)) as Hm2 by by apply calm_pure end.
  destruct (exit_level _ _ _ _); [|by apply Hfill].
  etransitivity; [exact Hm2|]. by apply close_calm.
Qed.

Lemma market_calm m a d f xp pc sl tp :
  executor m = None -> calm m (order_manager_market m a d f xp pc sl tp).2.
Proof.
  intros He. unfold order_manager_market. rewrite He.
  repeat (case_match; try done); apply execute_fill_calm.
Qed.

Lemma set_trailing_calm m a dist p : calm m (order_manager_set_trailing_stop m a dist p).
Proof. unfold order_manager_set_trailing_stop. by repeat case_match. Qed.

Lemma cancel_pending_calm m a : executor m = None -> calm m (order_manager_cancel_pending m a).
Proof.
  intros _. unfold order_manager_cancel_pending.
  etransitivity; [apply (foldl_calm (cancel_step a))|by apply calm_pure].
  intros m1 i. unfold cancel_step, cancel_call. destruct (pending m1 !! i); [|done].
  case_match; [|done]. case_match; by apply calm_pure.
Qed.

Lemma mark_calm m quotes : calm m (order_manager_mark_to_market m quotes).
Proof. unfold order_manager_mark_to_market. destruct (mark_positions _ _ _ _). by apply calm_pure. Qed.

Lemma record_calm m : calm m (order_manager_record_equity m).2.
Proof.
  unfold order_manager_record_equity. case_match; [|by split_and!; try apply prefix_app_r].
  destruct (alloc (mem m)) as [[] h]; simpl; by split_and!; try apply prefix_app_r.
Qed.

(** What [n] new order ids are enough for. *)
Definition evolves (n : Z) (m m' : order_manager_t) : Prop :=
  backtest_ok m -> next_order_id m + n < 2 ^ 64 ->
  backtest_ok m' /\ next_order_id m' <= next_order_id m + n /\
  trades m `prefix_of` trades m' /\ equity_curve m `prefix_of` equity_curve m'.

Lemma evolution_trans n k m1 m2 m3 : 0 <= k -> evolves n m1 m2 -> evolves k m2 m3 -> evolves (n + k) m1 m3.
Proof.
  intros Hk H1 H2 Hm Hn. destruct H1 as (Ha & Hb & Hc & Hd); [done|lia|].
  destruct H2 as (He & Hf & Hg & Hh); [done|lia|]. split_and!; [done|lia| |]; by etransitivity.
Qed.

Lemma evolution_refl n m : 0 <= n -> evolves n m m.
Proof. intros Hn Hm _. split_and!; [done|lia|done..]. Qed.

Lemma evolves_step m m' : om_step m m' -> (executor m = None -> calm m m') -> evolves 0 m m'.
Proof.
  intros Hs Hc Hm Hn. destruct (Hc (proj2 Hm)) as (En & _ & Ht & Hq).
  split_and!; [by eapply om_step_backtest_ok|lia|done..].
Qed.

Lemma evolves_close m a xp d : evolves 0 m (order_manager_close m a xp d).2.
Proof. apply evolves_step; [constructor|by apply close_calm]. Qed.

Lemma place_order_evolves m f p build :
  (forall id q, o_id (build id q) = id) -> evolves 1 m (place_order m f p build).1.2.
Proof.
  intros Hid Hm Hn. split; [apply place_order_backtest_ok; [done|lia|done]|].
  assert (0 < next_order_id m) as Hpos by by destruct Hm as [[? ? ? (_ & [? ?] & _)] _].
  unfold place_order.
  assert (exists room m1,
    (if (pending_cap m <=? num_pending m)%nat then pending_grow m else (true, m)) = (room, m1) /\
    calm m m1) as (room & m1 & -> & En & Ee & Ht & Hc).
  { unfold pending_grow. destruct (pending_cap m <=? num_pending m)%nat; [|by eexists _, _].
    destruct (alloc (mem m)) as [[] h]; (eexists _, _; split; [done|by apply calm_pure]). }
  destruct room; simpl; [|split_and!; [lia|done..]].
  destruct (_ <=? 0.0)%f64; [split_and!; [simpl; lia|done..]|].
  rewrite Ee, (proj2 Hm). simpl. rewrite En, wrapu_small by lia. split_and!; [lia|done..].
Qed.

Lemma submit_signal_evolves q a d op pc m : evolves 1 m (submit_signal q a d op pc m).
Proof.
  unfold submit_signal. repeat case_match; [by apply place_order_evolves..|].
  intros Hm Hn. destruct (evolves_step m (order_manager_market m a d (q_size q) op pc (q_stop_loss q)
    (q_take_profit q)).2) as (? & ? & ? & ?); [constructor|by apply market_calm|done|lia|].
  split_and!; [done|lia|done..].
Qed.

Lemma follow_signal_evolves q a op pc d m : evolves 1 m (follow_signal q a op pc d m).
Proof.
  unfold follow_signal.
  match goal with |- context [if ?b then order_manager_set_trailing_stop ?m ?a ?x ?y else ?m] =>
    assert (evolves 0 m (if b then order_manager_set_trailing_stop m a x y else m)) as H0;
    [|generalize dependent (if b then order_manager_set_trailing_stop m a x y else m); intros m1 H0] end.
  { case_match; [|by apply evolution_refl]. apply evolves_step; [constructor|intros; apply set_trailing_calm]. }
  assert (forall (b : bool) m2, evolves 0 m2 (if b then (order_manager_close m2 a op d).2 else m2)) as Hclose.
  { intros b m2. destruct b; [apply evolves_close|by apply evolution_refl]. }
  assert (forall m2, evolves 0 m m2 -> evolves 1 m m2) as Hweak.
  { intros m2 H. apply (evolution_trans 0 1 m m2 m2); [lia|done|apply evolution_refl; lia]. }
  assert (forall b m2, evolves 0 m m2 -> evolves 0 m (if b : bool then (order_manager_close m2 a op d).2 else m2))
    as Hmaybe by (intros b m2 H; by apply (evolution_trans 0 0 m m2)).
  assert (forall m2 dir, evolves 0 m m2 -> evolves 1 m (submit_signal q a dir op pc m2)) as Hsubmit.
  { intros m2 dir H. apply (evolution_trans 0 1 m m2); [lia|done|apply submit_signal_evolves]. }
  destruct (_ && _); [by apply Hsubmit, Hmaybe|].
  destruct (_ && _); [destruct (may_short _); [by apply Hsubmit, Hmaybe|by apply Hweak, Hmaybe]|].
  destruct (_ && _); [|by apply Hweak].
  apply Hweak, (Hmaybe true), (evolution_trans 0 0 m m1); [lia|done|].
  apply evolves_step; [constructor|by apply cancel_pending_calm].
Qed.
End manager.

Section runs.
Context {X : Executor} {P : Provider} {G : Engine} {SL : Slots}.

(** ** The invariant of a context *)

Definition window_ok (cap : nat) (w : bar_window_t) : Prop :=
  BarWindow.wf w /\ BarWindow.capacity w = cap.

Record ctx_ok (c : strategy_ctx_t) : Prop := {
  ok_mgr : backtest_ok (order_mgr c);
  ok_windows : Forall (window_ok (window_capacity (config c))) (windows c);
  ok_length : length (windows c) = Universe.num_assets (universe c);
  ok_universe : universe_ok (universe c)
}.

(** [c'] comes from [c], at the price of at most [n] order ids. *)
Definition advances (n : Z) (c c' : strategy_ctx_t) : Prop :=
  ctx_ok c -> next_order_id (order_mgr c) + n < 2 ^ 64 ->
  ctx_ok c' /\ u_assets (universe c') = u_assets (universe c) /\ config c' = config c /\
  next_order_id (order_mgr c') <= next_order_id (order_mgr c) + n /\
  trades (order_mgr c) `prefix_of` trades (order_mgr c') /\
  equity_curve (order_mgr c) `prefix_of` equity_curve (order_mgr c').

Lemma advances_refl n c : 0 <= n -> advances n c c.
Proof. intros Hn Hc _. split_and!; [done..|lia|done|done]. Qed.

Lemma advances_trans n k c1 c2 c3 : 0 <= k -> advances n c1 c2 -> advances k c2 c3 -> advances (n + k) c1 c3.
Proof.
  intros Hk H1 H2 Hc Hn. destruct H1 as (H1 & Ea & Ec & Hb & Ht & Hq); [done|lia|].
  destruct H2 as (H2 & Ea' & Ec' & Hb' & Ht' & Hq'); [done|lia|].
  split_and!; [done|congruence|congruence|lia| |]; by etransitivity.
Qed.

Lemma advances_0 n c1 c2 c3 : 0 <= n -> advances 0 c1 c2 -> advances n c2 c3 -> advances n c1 c3.
Proof. apply (advances_trans 0). Qed.

Lemma advances_weaken n k c c' : n <= k -> advances n c c' -> advances k c c'.
Proof.
  intros Hk H Hc Hn. destruct H as (H1 & Ea & Ec & Hb & Ht & Hq); [done|lia|].
  split_and!; [done..|lia|done|done].
Qed.

Lemma advances_mgr n c m : evolves n (order_mgr c) m -> advances n c (set_mgr m c).
Proof.
  intros He [Hm Hw Hl Hu] Hn. destruct He as (Ho & Hb & Ht & Hq); [done..|].
  split_and!; [by split|done..].
Qed.

Lemma advances_step c m : om_step (order_mgr c) m -> (executor (order_mgr c) = None -> calm (order_mgr c) m) ->
  advances 0 c (set_mgr m c).
Proof. intros. by apply advances_mgr, evolves_step. Qed.

Lemma advances_universe c u : u_step (universe c) u -> advances 0 c (set_universe u c).
Proof.
  intros Hs [Hm Hw Hl Hu] _. destruct (u_step_ok _ _ Hs Hu) as [Hu' [Ea _]].
  split_and!; [|done|done|simpl; lia|done..]. split; [done..| |done].
  simpl. unfold Universe.num_assets in *. by rewrite Ea.
Qed.

Lemma advances_windows c l :
  (Forall (window_ok (window_capacity (config c))) (windows c) ->
   Forall (window_ok (window_capacity (config c))) l /\ length l = length (windows c)) ->
  advances 0 c (set_windows l c).
Proof.
  intros H [Hm Hw Hl Hu] _. destruct (H Hw) as [Hw' Hl'].
  split_and!; [|done|done|simpl; lia|done..]. split; [done..| |done]. simpl. congruence.
Qed.

(** Contexts that differ in the environment, the date and the counter only. *)
Definition same_books (c c' : strategy_ctx_t) : Prop :=
  universe c' = universe c /\ windows c' = windows c /\ order_mgr c' = order_mgr c /\
  config c' = config c.

#[local] Instance same_books_preorder : PreOrder same_books.
Proof.
  split; [by intros c|]. intros c1 c2 c3 (?&?&?&?) (?&?&?&?). split_and!; congruence.
Qed.

Lemma advances_books c c' : same_books c c' -> advances 0 c c'.
Proof.
  intros (Eu & Ew & Em & Ec) [Hm Hw Hl Hu] _. rewrite Em.
  split_and!; [|congruence|done|lia|done|done]. split; congruence.
Qed.

Lemma call_hook_books hook c : same_books c (call_hook hook c).
Proof. by destruct hook as [[? ? []]|]. Qed.

Lemma if_hooks_books hook c : same_books c (if_hooks hook c).
Proof. unfold if_hooks. destruct (has_hooks c); [apply call_hook_books|done]. Qed.

Lemma on_fill_books c tr : same_books c (call_hook_on_fill c tr).
Proof. unfold call_hook_on_fill. by destruct (hook_on_fill c). Qed.

Lemma on_fills_books l c : same_books c (foldl call_hook_on_fill c l).
Proof.
  revert c. induction l as [|tr l IH]; intros c; [done|]. simpl.
  etransitivity; [apply on_fill_books|apply IH].
Qed.

Lemma fire_fills_books c seen : same_books c (fire_fills c seen).1.
Proof.
  unfold fire_fills. destruct (has_hooks c); [|done]. destruct (hook_on_fill c); [|done].
  apply on_fills_books.
Qed.

Lemma execute_books c : same_books c (execute_strategy_script c).
Proof.
  unfold execute_strategy_script.
  destruct (has_hooks c); [destruct (hook_on_bar c) as [f|]; [apply call_hook_books|]|];
    by destruct (parsed c) as [[]|].
Qed.

(** ** One bar *)

Lemma push_bar_ok asset_id b pc u w cap :
  universe_ok u -> window_ok cap w ->
  universe_ok (push_bar asset_id b pc u w).1 /\ window_ok cap (push_bar asset_id b pc u w).2 /\
  u_assets (push_bar asset_id b pc u w).1 = u_assets u.
Proof.
  intros Hu [Hw Hc]. unfold push_bar. cbn [fst snd]. split_and!.
  - by apply apply_ok.
  - match goal with |- window_ok _ (bar_window_push_adjusted ?w1 _ _ _ _ _ _ _) =>
      assert (window_ok cap w1) as [? ?]; [|split; [by apply ring_write_wf|done]] end.
    destruct (_ && _); [|done]. split; [by apply rescale_wf|].
    by etransitivity; [apply (step_capacity w (Rescale _))|].
  - by destruct (apply_registry u asset_id (pb_date b) pc).
Qed.

Lemma run_script_advances asset_id b w pc c : advances 1 c (run_script asset_id b w pc c).
Proof.
  unfold run_script.
  match goal with |- advances 1 c (process_strategy_signals ?c1 _ _ _) => set (c' := c1) end.
  assert (same_books c c') as Hb by (etransitivity; [|apply execute_books]; by repeat split).
  apply (advances_0 1 c c'); [lia|by apply advances_books|].
  apply advances_mgr, follow_signal_evolves.
Qed.

Lemma insert_window (cap : nat) (l : list bar_window_t) idx w w' :
  l !! idx = Some w -> (window_ok cap w -> window_ok cap w') ->
  Forall (window_ok cap) l -> Forall (window_ok cap) (<[idx := w']> l).
Proof.
  intros Hi Hw Hl. apply Forall_insert; [done|]. rewrite Forall_lookup in Hl. by eapply Hw, Hl.
Qed.

Lemma on_bar_advances c asset_id b pc warm : advances 1 c (strategy_on_bar c asset_id b pc warm).
Proof.
  intros Hok Hn. revert Hok Hn. change (advances 1 c (strategy_on_bar c asset_id b pc warm)).
  unfold strategy_on_bar.
  destruct (universe_find_asset _ _) as [idx|]; [|apply advances_refl; lia].
  destruct (windows c !! idx) as [w|] eqn:Hi; [|apply advances_refl; lia].
  destruct (push_bar asset_id b pc (universe c) w) as [u w'] eqn:Hp.
  set (c1 := set_windows (<[idx := w']> (windows c)) (set_universe u c)).
  assert (advances 0 c c1) as H1.
  { intros [Hm Hw Hl Hu] _.
    pose proof (fun cap H => push_bar_ok asset_id b pc (universe c) w cap Hu H) as Hpush.
    rewrite Hp in Hpush. simpl in Hpush.
    assert (window_ok (window_capacity (config c)) w) as Hwok by (rewrite Forall_lookup in Hw; by eapply Hw).
    destruct (Hpush _ Hwok) as (Hu' & Hw' & Ea).
    split_and!; [|done|done|simpl; lia|done..]. split; [done| | |done].
    - by eapply insert_window.
    - simpl. rewrite length_insert. unfold Universe.num_assets in *. by rewrite Ea. }
  apply (advances_0 1 c c1); [lia|done|]. cbn zeta.
  destruct (_ || _); [apply advances_refl; lia|].
  set (c2 := set_windows _ c1).
  assert (windows c1 !! idx = Some w') as Hi1.
  { simpl. apply list_lookup_insert_eq. by eapply lookup_lt_Some. }
  apply (advances_0 1 c1 c2); [lia| |].
  { apply advances_windows. intros Hw. split; [|by rewrite length_insert].
    eapply insert_window; [exact Hi1| |done]. intros [? ?]. split; [by apply linearize_wf|].
    by etransitivity; [apply (step_capacity w' Linearize)|]. }
  eapply (advances_0 1); [lia| |].
  { apply advances_step; [constructor|by apply check_triggers_calm]. }
  simpl. destruct (parsed c); [|apply advances_refl; lia]. apply run_script_advances.
Qed.

Lemma close_out_advances asset_id price date c : advances 0 c (close_out asset_id price date c).
Proof.
  unfold close_out. pose proof (evolves_close (order_mgr c) asset_id price date) as H.
  destruct (order_manager_close _ _ _ _) as [tr m]. apply (advances_0 0 c (set_mgr m c)); [lia|by apply advances_mgr|].
  simpl. destruct (has_hooks c); [|by apply advances_refl]. destruct tr; [|by apply advances_refl].
  apply advances_books, on_fill_books.
Qed.

Lemma begin_bar_advances d c : advances 0 c (on_mgr (fun m => order_manager_begin_bar m d) c).
Proof. apply advances_step; [apply step_begin_bar|intros; apply begin_bar_calm]. Qed.

Lemma mark_advances quotes c : advances 0 c (on_mgr (fun m => order_manager_mark_to_market m quotes) c).
Proof. apply advances_step; [apply step_mark|intros; apply mark_calm]. Qed.

Lemma record_advances c : advances 0 c (on_mgr (fun m => (order_manager_record_equity m).2) c).
Proof. apply advances_step; [apply step_record_equity|intros; apply record_calm]. Qed.

Lemma advance_advances d c : advances 0 c (set_universe (universe_advance (universe c) d) c).
Proof. apply advances_universe, step_advance. Qed.

Lemma fire_fills_advances c seen : advances 0 c (fire_fills c seen).1.
Proof. apply advances_books, fire_fills_books. Qed.

(** ** Runs on one asset *)

Lemma single_step_advances asset_id s b : advances 1 (s_ctx s) (s_ctx (single_step asset_id s b)).
Proof.
  unfold single_step. destruct (fire_fills _ _) as [c seen] eqn:Ef.
  match type of Ef with fire_fills (strategy_on_bar ?c0 _ _ ?p ?w) ?n = _ =>
    apply (advances_0 1 (s_ctx s) c0); [lia| |];
    [|apply (advances_trans 1 0 c0 (strategy_on_bar c0 asset_id b p w)); [lia|apply on_bar_advances|];
      pose proof (fire_fills_advances (strategy_on_bar c0 asset_id b p w) n) as Hf; rewrite Ef in Hf] end.
  - eapply (advances_0 0); [lia|apply advance_advances|].
    eapply (advances_0 0); [lia|apply begin_bar_advances|].
    by apply advances_books.
  - apply (advances_0 0 _ c); [lia|exact Hf|]. simpl.
    eapply (advances_0 0); [lia|apply mark_advances|].
    eapply (advances_0 0); [lia|apply record_advances|].
    by apply advances_books.
Qed.

Lemma single_loop_advances asset_id l : forall s,
  advances (Z.of_nat (length l)) (s_ctx s) (s_ctx (foldl (single_step asset_id) s l)).
Proof.
  induction l as [|b l IH]; intros s; [by apply advances_refl|]. simpl length. rewrite Nat2Z.inj_succ.
  replace (Z.succ (Z.of_nat (length l))) with (1 + Z.of_nat (length l)) by lia.
  eapply advances_trans; [lia|apply single_step_advances|apply IH].
Qed.

Lemma begin_single_advances c start : advances 0 c (s_ctx (begin_single c start)).
Proof.
  unfold begin_single. simpl.
  eapply (advances_0 0); [lia|apply begin_bar_advances|].
  apply advances_books, if_hooks_books.
Qed.

Lemma end_single_advances asset_id date s : advances 0 (s_ctx s) (end_single asset_id date s).
Proof.
  unfold end_single. destruct (_ >? _)%f64.
  - eapply (advances_0 0); [lia|apply close_out_advances|]. apply advances_books, if_hooks_books.
  - apply advances_books, if_hooks_books.
Qed.

Lemma close_out_logs asset_id price date c :
  executor (order_mgr c) = None -> exists t,
  logs (order_mgr c) (order_mgr (close_out asset_id price date c)) t /\
  same_frame (order_mgr c) (order_mgr (close_out asset_id price date c)).
Proof.
  intros He. destruct (close_logs (order_mgr c) asset_id price date He) as [Ht Hf].
  exists (order_manager_close (order_mgr c) asset_id price date).1.
  unfold close_out. destruct (order_manager_close _ _ _ _) as [tr m]. simpl in *.
  destruct (has_hooks c); [|done]. destruct tr as [tr|]; [|done].
  by destruct (on_fill_books (set_mgr m c) tr) as (_ & _ & -> & _).
Qed.

Lemma end_single_logs asset_id date s :
  executor (order_mgr (s_ctx s)) = None -> exists t,
  logs (order_mgr (s_ctx s)) (order_mgr (end_single asset_id date s)) t /\
  equity_curve (order_mgr (end_single asset_id date s)) = equity_curve (order_mgr (s_ctx s)).
Proof.
  intros He. unfold end_single. destruct (_ >? _)%f64.
  - destruct (close_out_logs asset_id (s_prev_close s) date _ He) as (t & Ht & Hf). exists t.
    destruct (if_hooks_books hook_on_stop (close_out asset_id (s_prev_close s) date (s_ctx s)))
      as (_ & _ & -> & _).
    split; [done|]. by destruct Hf as (_ & _ & _ & ? & _).
  - exists None. destruct (if_hooks_books hook_on_stop (s_ctx s)) as (_ & _ & -> & _).
    unfold logs. by rewrite app_nil_r.
Qed.

Lemma run_single_advances c asset_id start finish n :
  0 <= n -> (forall s e l, open_stream asset_id s e = Some l -> Z.of_nat (length l) <= n) ->
  advances n c (strategy_run_single c asset_id start finish).2.
Proof.
  intros Hn Hl. unfold strategy_run_single. destruct (_ ≫= _) as [a|]; [|by apply advances_refl].
  destruct (open_stream _ _ _) as [l|] eqn:El; [|by apply advances_refl]. simpl.
  eapply (advances_0 n); [lia|apply begin_single_advances|].
  apply (advances_weaken (Z.of_nat (length l) + 0)); [apply Hl in El; lia|].
  eapply advances_trans; [lia|apply single_loop_advances|apply end_single_advances].
Qed.

(** ** Runs on a universe *)

Definition bars_left (l : list lane) : nat := sum_list ((fun x => length (l_bars x)) <$> l).

Lemma bars_left_cons x l : bars_left (x :: l) = (length (l_bars x) + bars_left l)%nat.
Proof. done. Qed.

Lemma lane_step_advances date d x :
  let r := lane_step date d x in
  advances (Z.of_nat (length (l_bars x)) - Z.of_nat (length (l_bars r.2))) (d_ctx d) (d_ctx r.1) /\
  (length (l_bars r.2) <= length (l_bars x))%nat.
Proof.
  unfold lane_step. destruct (l_bars x) as [|b rest] eqn:El.
  { simpl. rewrite El. split; [by apply advances_refl|done]. }
  destruct (_ !=? _)%f64; cbn [fst snd].
  { rewrite El. split; [apply advances_refl; lia|done]. }
  destruct (fire_fills _ _) as [c seen] eqn:Ef. simpl. split; [|lia].
  match type of Ef with fire_fills ?c0 ?n = _ =>
    apply (advances_weaken (1 + 0)); [lia|]; apply (advances_trans 1 0 _ c0); [lia|apply on_bar_advances|];
    pose proof (fire_fills_advances c0 n) as Hf; rewrite Ef in Hf end.
  apply (advances_0 0 _ c); [lia|exact Hf|]. by apply advances_books.
Qed.

Lemma lane_loop_advances date l : forall d,
  let r := lane_loop date d l in
  advances (Z.of_nat (bars_left l) - Z.of_nat (bars_left r.2)) (d_ctx d) (d_ctx r.1) /\
  (bars_left r.2 <= bars_left l)%nat.
Proof.
  induction l as [|x l IH]; intros d; [split; [by apply advances_refl|done]|]. simpl.
  pose proof (lane_step_advances date d x) as [H1 H2].
  destruct (lane_step date d x) as [d1 x1]. specialize (IH d1) as [H3 H4].
  destruct (lane_loop date d1 l) as [d2 l2]. cbn [fst snd] in *. rewrite !bars_left_cons. split; [|lia].
  eapply advances_weaken; [|eapply advances_trans; [|exact H1|exact H3]]; lia.
Qed.

Lemma run_day_advances date d l :
  let r := run_day date d l in
  advances (Z.of_nat (bars_left l) - Z.of_nat (bars_left r.2)) (d_ctx d) (d_ctx r.1) /\
  (bars_left r.2 <= bars_left l)%nat.
Proof.
  unfold run_day. set (d0 := Day _ _ _).
  pose proof (lane_loop_advances date l d0) as [H1 H2].
  destruct (lane_loop date d0 l) as [d1 l1]. simpl in *. split; [|done].
  apply (advances_0 _ _ (begin_day date (d_ctx d))); [lia| |].
  - eapply (advances_0 0); [lia|apply advance_advances|].
    eapply (advances_0 0); [lia|apply begin_bar_advances|].
    by apply advances_books.
  - rewrite <- (Z.add_0_r (_ - _)). eapply advances_trans; [lia|exact H1|].
    eapply (advances_0 0); [lia|apply mark_advances|].
    apply record_advances.
Qed.

Lemma day_loop_advances fuel : forall d l d' l',
  day_loop fuel d l = Some (d', l') -> advances (Z.of_nat (bars_left l)) (d_ctx d) (d_ctx d').
Proof.
  induction fuel as [|fuel IH]; intros d l d' l'; simpl.
  - destruct (next_date l); [done|]. intros [= <- <-]. apply advances_refl. lia.
  - destruct (next_date l) as [date|]; [|intros [= <- <-]; apply advances_refl; lia].
    pose proof (run_day_advances date d l) as [H1 H2]. destruct (run_day date d l) as [d1 l1]. simpl in *.
    intros H%IH. eapply advances_weaken; [|eapply advances_trans; [|exact H1|exact H]]; lia.
Qed.

Lemma close_lanes_advances l : forall c, advances 0 c (foldl close_lane c l).
Proof.
  induction l as [|x l IH]; intros c; [by apply advances_refl|]. simpl.
  eapply (advances_0 0); [lia| |apply IH]. unfold close_lane.
  destruct (_ <=? _)%f64; [by apply advances_refl|apply close_out_advances].
Qed.

Lemma clear_windows_advances c : advances 0 c (set_windows (bar_window_clear <$> windows c) c).
Proof.
  apply advances_windows. intros H. split; [|by rewrite length_fmap].
  apply Forall_fmap. eapply Forall_impl; [exact H|]. intros w [? ?]. split; [by apply clear_wf|done].
Qed.

Lemma set_mem_advances h c : advances 0 c (on_mgr (set_mem h) c).
Proof. apply advances_mgr. intros [[Ht Hs Hc Ho] He] _. split_and!; [split; [by split|done]|simpl; lia|done..]. Qed.

Lemma run_universe_advances fuel c start finish r c' :
  strategy_run_universe fuel c start finish = Some (r, c') ->
  advances (Z.of_nat (bars_left (open_lane start finish <$> u_assets (universe c)))) c c'.
Proof.
  unfold strategy_run_universe. destruct (negb _).
  { intros [= <- <-]. eapply advances_weaken; [|apply set_mem_advances]. lia. }
  set (c0 := on_mgr _ c). unfold open_universe. change (universe c0) with (universe c).
  set (l := open_lane start finish <$> _). set (c1 := if_hooks _ _).
  destruct (day_loop _ _ _) as [[d l']|] eqn:E; simpl; [|done]. intros [= _ <-].
  apply day_loop_advances in E. simpl in E.
  apply (advances_0 _ c c0); [lia|apply set_mem_advances|].
  apply (advances_0 _ c0 c1); [lia| |].
  { eapply (advances_0 0); [lia|apply clear_windows_advances|apply advances_books, if_hooks_books]. }
  rewrite <- (Z.add_0_r (Z.of_nat _)). eapply advances_trans; [lia|exact E|].
  eapply (advances_0 0); [lia|apply close_lanes_advances|apply advances_books, if_hooks_books].
Qed.

(** ** Creation, reset and compilation *)

Lemma create_windows_ok n cap : forall h l h',
  create_windows n cap h = (Some l, h') -> Forall (window_ok cap) l /\ length l = n.
Proof.
  induction n as [|n IH]; intros h l h'; simpl; [by intros [= <- _]|].
  destruct (bar_window_create cap h) as [[w|] h1] eqn:Ew; [|done].
  destruct (create_windows n cap h1) as [[l1|] h2] eqn:El; [|done]. intros [= <- _].
  apply create_Some in Ew as (? & ? & _). apply IH in El as [? <-]. split; [by constructor|done].
Qed.

Lemma create_ok u cfg h c :
  universe_ok u -> strategy_create u cfg h = Some c -> ctx_ok c /\ universe c = u.
Proof.
  intros Hu. unfold strategy_create. destruct (alloc h) as [[] h1]; simpl; [|done].
  destruct (if (0 <? Universe.num_assets u)%nat then alloc h1 else (true, h1)) as [[] h2]; simpl; [|done].
  destruct (create_windows _ _ h2) as [[l|] h3] eqn:El; [|done].
  destruct (order_manager_create _ _ _ h3) as [m|] eqn:Em; [|done].
  apply create_backtest_ok in Em as [[Ht Hs Hc Ho] He]. apply create_windows_ok in El as [Hw Hl].
  destruct (alloc (mem m)) as [[] h4]; simpl; [|done]. intros [= <-].
  split; [|done]. split; simpl; [|done..]. by split.
Qed.

Lemma reset_ctx_ok c : ctx_ok c -> ctx_ok (strategy_reset c).
Proof.
  intros [[[Ht Hs Hc Ho] He] Hw Hl Hu]. split; simpl.
  - split; [|done]. destruct Ht as [? _], Hc as [? _], Ho as ([? _] & _). split; simpl.
    + split; [done|]. unfold num_trades. simpl. lia.
    + intros i j a. unfold assets. simpl. rewrite fmap_replicate. by intros [-> _]%lookup_replicate.
    + split; simpl; lia.
    + split; [simpl; lia|split; [lia|split; constructor]].
  - apply Forall_fmap. eapply Forall_impl; [exact Hw|]. intros w [? ?]. split; [by apply clear_wf|done].
  - by rewrite length_fmap.
  - by apply reset_ok.
Qed.

Lemma compile_ctx_ok c code : ctx_ok c -> ctx_ok (strategy_compile c code).2.
Proof.
  intros Hc. assert (next_order_id (order_mgr c) + 0 < 2 ^ 64) as Hn
    by (destruct Hc as [[[? ? ? (_ & [? ?] & _)] _] _ _ _]; lia).
  assert (advances 0 c (strategy_compile c code).2) as H; [|by apply H].
  unfold strategy_compile. destruct (alloc _) as [ok h].
  apply (advances_0 0 c (on_mgr (set_mem h) c)); [lia|apply set_mem_advances|].
  destruct ok; [|by apply advances_books].
  destruct (parse_script code) as [root err]. destruct (err =? 0), root as [r|]; by apply advances_books.
Qed.

(** What a host does with a context, as long as the order ids last. *)
Inductive ctx_step : strategy_ctx_t -> strategy_ctx_t -> Prop :=
  | ctx_run_single c asset_id start finish n :
      (forall s e l, open_stream asset_id s e = Some l -> Z.of_nat (length l) <= n) ->
      0 <= n -> next_order_id (order_mgr c) + n < 2 ^ 64 ->
      ctx_step c (strategy_run_single c asset_id start finish).2
  | ctx_run_universe c fuel start finish r c' :
      next_order_id (order_mgr c)
        + Z.of_nat (bars_left (open_lane start finish <$> u_assets (universe c))) < 2 ^ 64 ->
      strategy_run_universe fuel c start finish = Some (r, c') -> ctx_step c c'
  | ctx_reset c : ctx_step c (strategy_reset c)
  | ctx_compile c code : ctx_step c (strategy_compile c code).2.

Lemma ctx_step_ok c c' : ctx_step c c' -> ctx_ok c -> ctx_ok c'.
Proof.
  intros Hs Hc. destruct Hs as [c id s e n Hl Hn Hid|c fuel s e r c' Hid Hr|c|c code].
  - by apply (run_single_advances c id s e n).
  - by eapply run_universe_advances.
  - by apply reset_ctx_ok.
  - by apply compile_ctx_ok.
Qed.

(** C5: Whatever the script does and the bars are, any sequence of compilations, runs over one asset or
    the universe and resets on a created context keeps the order manager, every price window and the
    universe well formed, as long as order ids last. *)
Theorem strategy_invariant u cfg h c0 c :
  universe_ok u -> strategy_create u cfg h = Some c0 -> rtc ctx_step c0 c ->
  om_wf (order_mgr c) /\ executor (order_mgr c) = None /\
  Forall BarWindow.wf (windows c) /\ length (windows c) = Universe.num_assets (universe c) /\
  universe_ok (universe c).
Proof.
  intros Hu Hc Hr. apply create_ok in Hc as [Hc _]; [|done].
  assert (ctx_ok c) as [[Hm He] Hw Hl Hu'] by (induction Hr; eauto using ctx_step_ok).
  split_and!; [done..| |done|done]. eapply Forall_impl; [exact Hw|]. by intros w [? _].
Qed.
End runs.

(** ** No look-ahead *)

(** C9: A backtest cannot look ahead.  When two providers deliver the same bars of an asset up to some
    point, and the second goes on, then the equity curve of the first run is a prefix of that of the
    second, and so is its trade log but for the trade that closes the position at its end. *)
Theorem strategy_no_lookahead {X : Executor} {G : Engine} {SL : Slots} (P1 P2 : Provider) c asset_id
    start finish l1 l2 :
  ctx_ok c -> next_order_id (order_mgr c) + Z.of_nat (length (l1 ++ l2)) < 2 ^ 64 ->
  (forall s e, @open_stream P1 asset_id s e = Some l1) ->
  (forall s e, @open_stream P2 asset_id s e = Some (l1 ++ l2)) ->
  let m1 := order_mgr (@strategy_run_single X P1 G SL c asset_id start finish).2 in
  let m2 := order_mgr (@strategy_run_single X P2 G SL c asset_id start finish).2 in
  equity_curve m1 `prefix_of` equity_curve m2 /\
  exists before final, trades m1 = before ++ option_list final /\ before `prefix_of` trades m2.
Proof.
  intros Hc Hn H1 H2. unfold strategy_run_single. rewrite length_app in Hn.
  destruct (_ ≫= _) as [a|]; [|simpl; split; [done|exists (trades (order_mgr c)), None; by rewrite app_nil_r]].
  rewrite H1, H2, foldl_app. cbn [snd].
  set (start' := if (start <=? 0.0)%f64 then _ else _). set (finish' := if (finish <=? 0.0)%f64 then _ else _).
  set (s0 := begin_single c start'). set (s1 := foldl (single_step asset_id) s0 l1).
  destruct (begin_single_advances c start' Hc) as (Hc0 & _ & _ & Hn0 & _); [lia|]. fold s0 in Hc0, Hn0.
  destruct (single_loop_advances asset_id l1 s0 Hc0) as (Hc1 & _ & _ & Hn1 & _); [lia|]. fold s1 in Hc1, Hn1.
  destruct (single_loop_advances asset_id l2 s1 Hc1) as (Hc2 & _ & _ & Hn2 & Ht2 & He2); [lia|].
  destruct (end_single_advances asset_id finish' _ Hc2) as (_ & _ & _ & _ & Ht3 & He3); [lia|].
  assert (exists t, logs (order_mgr (s_ctx s1)) (order_mgr (end_single asset_id finish' s1)) t /\
            equity_curve (order_mgr (end_single asset_id finish' s1)) = equity_curve (order_mgr (s_ctx s1)))
    as (t & Ht & ->).
  { apply end_single_logs, Hc1. }
  split; [by etransitivity|]. exists (trades (order_mgr (s_ctx s1))), t.
  split; [exact Ht|by etransitivity].
Qed.

(** ** A script that buys when it holds nothing and sells when it does, and logs its fills *)

Definition sample_engine : Engine := {|
  node := bool;
  world_t := list xvalue;
  fresh_env := ScriptEnv [∅] FLOW_NORMAL [Func (Some "on_fill") true (Some false)] [];
  parse_script := fun _ => (Some true, 0);
  eval_script := fun (b : bool) e =>
    let get := exprtk_env_get (XNumber f64_zero) (vars e) in
    if b then
      let signal := match get "position" with
                    | XNumber x => if (x >? 0.0)%f64 then f64_zero else f64_one
                    | _ => f64_zero
                    end in
      ScriptEnv (exprtk_env_set (vars e) "signal" (XNumber signal)) (env_flow e) (funcs e) (world e)
    else ScriptEnv (vars e) (env_flow e) (funcs e) (world e ++ [get "fill"])
|}.

Definition sample_slots : Slots :=
  {| place := fun k v l => l ++ [(k, v)]; vacate := fun i l => delete i l |}.

Definition sample_bar (day price : Z) : provider_bar_t :=
  let p := f64_of_Z price in ProviderBar (f64_of_Z day) p p p p f64_one 1.

Definition sample_bars (first : Z) (prices : list Z) : list provider_bar_t :=
  imap (fun i p => sample_bar (first + Z.of_nat i) p) prices.

Definition sample_provider (l : list provider_bar_t) : Provider :=
  {| market := Some MARKET_US_EQUITY; open_stream := fun _ _ _ => Some l |}.

Definition sample_config : strategy_config_t := Config 1 3 (f64_of_Z 1000000) f64_zero f64_zero.

(** The compiled context over the universe of [Universe.v]. *)
Definition sample_ctx (l : list provider_bar_t) : option (@strategy_ctx_t sample_engine) :=
  c ← @strategy_create (sample_provider l) sample_engine (universe_finalize sample_universe)
        (Some sample_config) [];
  Some (@strategy_compile sample_engine c "").2.

Lemma sample_universe_ok : universe_ok (universe_finalize sample_universe).
Proof. apply finalize_ok; [done|repeat constructor]. Qed.

Definition sample_prices : list provider_bar_t := sample_bars 15 [100; 110; 120; 110; 130; 90; 80].

Definition sample_create : option (@strategy_ctx_t sample_engine) :=
  @strategy_create (sample_provider sample_prices) sample_engine (universe_finalize sample_universe)
    (Some sample_config) [].

(** It exists, and its order ids begin with 1. *)
Lemma sample_created : (fun c => next_order_id (order_mgr c)) <$> sample_create = Some 1.
Proof. vm_compute. reflexivity. Qed.

Lemma strategy_invariant_witness :
  match sample_create with
  | Some c0 =>
      om_wf (order_mgr (@strategy_run_single paper_executor (sample_provider sample_prices) sample_engine
                          sample_slots c0 1 f64_zero f64_zero).2)
  | None => False
  end.
Proof.
  pose proof sample_created as Hn. destruct sample_create as [c0|] eqn:E; [|discriminate Hn].
  injection Hn as Hn.
  destruct (@strategy_invariant paper_executor (sample_provider sample_prices) sample_engine sample_slots
    _ _ _ _ (@strategy_run_single paper_executor (sample_provider sample_prices) sample_engine
                sample_slots c0 1 f64_zero f64_zero).2 sample_universe_ok E) as [H _].
  { apply rtc_once, (@ctx_run_single paper_executor (sample_provider sample_prices) sample_engine
      sample_slots c0 1 f64_zero f64_zero 7); [by intros ? ? ? [= <-]|lia|rewrite Hn; lia]. }
  exact H.
Defined.

Lemma strategy_no_lookahead_witness :
  let run l c := @strategy_run_single paper_executor (sample_provider l) sample_engine sample_slots
                   c 1 f64_zero f64_zero in
  match sample_create with
  | Some c =>
      equity_curve (order_mgr (run (take 4 sample_prices) c).2)
        `prefix_of` equity_curve (order_mgr (run (take 4 sample_prices ++ drop 4 sample_prices) c).2)
  | None => False
  end.
Proof.
  intros run. pose proof sample_created as Hn. destruct sample_create as [c|] eqn:E; [|discriminate Hn].
  injection Hn as Hn.
  destruct (create_ok _ _ _ _ sample_universe_ok E) as [Hc _].
  destruct (@strategy_no_lookahead paper_executor sample_engine sample_slots
    (sample_provider (take 4 sample_prices)) (sample_provider (take 4 sample_prices ++ drop 4 sample_prices))
    c 1 f64_zero f64_zero (take 4 sample_prices) (drop 4 sample_prices) Hc) as [H _].
  { rewrite Hn. by vm_compute. }
  { done. }
  { done. }
  exact H.
Defined.
