(* ===== verification/StrategyRuns.v ===== *)
(** The calendar of a run over a universe: the merge of the streams by date.  The definitions are
    those of [Strategy.v]. *)

From S2P Require Import Prelude Float64 MarketRules OrderManager Env State RtValue SortSearch Universe BarWindow Strategy StrategyProofs.
From Stdlib Require Import SpecFloat.
Open Scope Z_scope.

(** ** Streams in the order of their dates *)

Definition date_lt (d e : f64) : Prop := (d <? e)%f64 = true.

Record ordered (l : list provider_bar_t) : Prop := {
  dates_sorted : StronglySorted (fun a b => date_lt (pb_date a) (pb_date b)) l;
  dates_numbers : Forall (fun b => is_nan (pb_date b) = false) l
}.

(** The bars of a date, and those of other dates. *)
Definition bars_on (date : f64) (l : list provider_bar_t) : list provider_bar_t :=
  base.filter (fun b => (pb_date b ==? date)%f64 = true) l.

Definition bars_off (date : f64) (l : list provider_bar_t) : list provider_bar_t :=
  base.filter (fun b => ~ (pb_date b ==? date)%f64 = true) l.

(** No bar comes before a date. *)
Definition starts (date : f64) (l : list provider_bar_t) : Prop :=
  Forall (fun b => (date <=? pb_date b)%f64 = true) l.

Lemma ordered_head b l :
  ordered (b :: l) -> ordered l /\ Forall (fun b' => date_lt (pb_date b) (pb_date b')) l /\
  is_nan (pb_date b) = false.
Proof. intros [Hs Hn]. inversion Hs; subst. inversion Hn; subst. done. Qed.

Lemma bars_on_later date l : Forall (fun b => date_lt date (pb_date b)) l -> bars_on date l = [].
Proof.
  induction 1 as [|b l Hb _ IH]; [done|]. unfold bars_on. rewrite filter_cons_False; [exact IH|].
  intros E%f64_eqb_sym. apply f64_ltb_neq in Hb. congruence.
Qed.

Lemma bars_off_later date l : Forall (fun b => date_lt date (pb_date b)) l -> bars_off date l = l.
Proof.
  induction 1 as [|b l Hb _ IH]; [done|]. unfold bars_off. rewrite filter_cons_True; [by f_equal|].
  intros E%f64_eqb_sym. apply f64_ltb_neq in Hb. congruence.
Qed.

(** A stream that starts at [date] has at most its first bar on that date. *)
Lemma bars_split date b l :
  ordered (b :: l) -> starts date (b :: l) ->
  if (pb_date b ==? date)%f64 then bars_on date (b :: l) = [b] /\ bars_off date (b :: l) = l
  else bars_on date (b :: l) = [] /\ bars_off date (b :: l) = b :: l.
Proof.
  intros (Ho & Hl & Hn)%ordered_head Hs. inversion Hs as [|? ? Hb _]; subst.
  assert (Forall (fun b' => date_lt date (pb_date b')) l) as Hl'.
  { eapply Forall_impl; [exact Hl|]. intros b' Hb'. unfold date_lt in *. by eapply f64_leb_ltb_trans. }
  destruct (pb_date b ==? date)%f64 eqn:E.
  - unfold bars_on, bars_off. rewrite filter_cons_True, filter_cons_False by auto.
    fold (bars_on date l) (bars_off date l). by rewrite bars_on_later, bars_off_later.
  - unfold bars_on, bars_off. rewrite filter_cons_False, filter_cons_True by (rewrite E; done).
    fold (bars_on date l) (bars_off date l). by rewrite bars_on_later, bars_off_later.
Qed.

Lemma Forall_sub {A} (P Q : A -> Prop) `{forall x, Decision (Q x)} l : Forall P l -> Forall P (base.filter Q l).
Proof. rewrite !Forall_forall. intros Hl x [_ Hx]%list_elem_of_filter. by apply Hl. Qed.

Lemma bars_off_ordered date l : ordered l -> ordered (bars_off date l).
Proof.
  intros [Hs Hn]. split; [|by apply Forall_sub].
  clear Hn. induction Hs as [|b l Hs IH Hb]; [constructor|]. unfold bars_off. rewrite filter_cons.
  case_decide; [|exact IH]. constructor; [exact IH|by apply Forall_sub].
Qed.

Lemma bars_on_off d e l : date_lt d e -> bars_on e (bars_off d l) = bars_on e l.
Proof.
  intros Hd. apply list_filter_filter_l. intros b Hb E.
  apply f64_ltb_neq in Hd. apply f64_eqb_sym in E.
  pose proof (f64_eqb_trans _ _ _ E Hb). congruence.
Qed.

Section merging.
Context {X : Executor} {P : Provider} {G : Engine} {SL : Slots}.

(** ** The specification: on each day of the calendar, every asset with a bar on that day runs *)

Definition with_bars (l : list provider_bar_t) (x : lane) : lane :=
  Lane (l_id x) l (l_prev_close x) (l_mtm x) (l_processed x).

Definition today (streams : list (list provider_bar_t)) (date : f64) (l : list lane) : list lane :=
  zip_with (fun s x => with_bars (bars_on date s) x) streams l.

Definition calendar_day (streams : list (list provider_bar_t)) (r : day_state * list lane) (date : f64)
    : day_state * list lane :=
  run_day date r.1 (today streams date r.2).

(** The days are the dates on which some stream has a bar, in ascending order. *)
Definition calendar (streams : list (list provider_bar_t)) (days : list f64) : Prop :=
  StronglySorted date_lt days /\
  (forall date, date ∈ days -> exists s b, s ∈ streams /\ b ∈ s /\ (pb_date b ==? date)%f64 = true) /\
  (forall s b, s ∈ streams -> b ∈ s -> exists date, date ∈ days /\ (pb_date b ==? date)%f64 = true).

(** ** Lanes up to their bars *)

Definition blank (l : list lane) : list lane := with_bars [] <$> l.

Lemma today_blank S1 S2 date l1 l2 :
  bars_on date <$> S1 = bars_on date <$> S2 -> blank l1 = blank l2 ->
  today S1 date l1 = today S2 date l2.
Proof.
  assert (forall S l, today S date l = zip_with with_bars (bars_on date <$> S) (blank l)) as H.
  { intros S l. unfold today, blank. rewrite zip_with_fmap_l, zip_with_fmap_r. done. }
  intros ES El. by rewrite !H, ES, El.
Qed.

Lemma lane_step_today date d x :
  ordered (l_bars x) -> starts date (l_bars x) ->
  let r := lane_step date d x in
  let r' := lane_step date d (with_bars (bars_on date (l_bars x)) x) in
  r.1 = r'.1 /\ with_bars [] r.2 = with_bars [] r'.2 /\ l_bars r.2 = bars_off date (l_bars x).
Proof.
  intros Ho Hs. destruct x as [id bars pc mtm n]. simpl in *. destruct bars as [|b rest]; [done|].
  pose proof (bars_split date b rest Ho Hs) as Hb. destruct (pb_date b ==? date)%f64 eqn:E.
  - destruct Hb as [-> ->]. unfold lane_step. simpl. rewrite E. simpl.
    by destruct (fire_fills _ _) as [c seen].
  - destruct Hb as [-> ->]. unfold lane_step. simpl. by rewrite E.
Qed.

Lemma lane_loop_today date l : forall d,
  Forall (fun x => ordered (l_bars x) /\ starts date (l_bars x)) l ->
  let r := lane_loop date d l in
  let r' := lane_loop date d (today (l_bars <$> l) date l) in
  r.1 = r'.1 /\ blank r.2 = blank r'.2 /\ l_bars <$> r.2 = bars_off date <$> (l_bars <$> l).
Proof.
  induction l as [|x l IH]; intros d Hl; [done|]. inversion Hl as [|? ? [Ho Hs] Hl']; subst.
  pose proof (lane_step_today date d x Ho Hs) as (E1 & E2 & E3).
  unfold today. cbn [fmap list_fmap zip_with lane_loop].
  destruct (lane_step date d x) as [d1 x1].
  destruct (lane_step date d (with_bars _ x)) as [d1' x1']. cbn [fst snd] in *. subst d1'.
  destruct (IH d1 Hl') as (F1 & F2 & F3). unfold today in F1, F2.
  destruct (lane_loop date d1 l) as [d2 l2].
  destruct (lane_loop date d1 (zip_with _ _ _)) as [d2' l2']. cbn [fst snd] in *. subst d2'.
  split_and!; [done| |].
  - unfold blank in *. rewrite !fmap_cons. by f_equal.
  - rewrite fmap_cons. by f_equal.
Qed.

Lemma quotes_blank l l' : blank l = blank l' ->
  (fun x => (l_id x, l_mtm x)) <$> l = (fun x => (l_id x, l_mtm x)) <$> l'.
Proof.
  assert (forall l, (fun x => (l_id x, l_mtm x)) <$> l = (fun x => (l_id x, l_mtm x)) <$> blank l) as H.
  { intros l0. unfold blank. by rewrite <- list_fmap_compose. }
  intros E. by rewrite H, (H l'), E.
Qed.

Lemma run_day_today date d l :
  Forall (fun x => ordered (l_bars x) /\ starts date (l_bars x)) l ->
  let r := run_day date d l in
  let r' := calendar_day (l_bars <$> l) (d, l) date in
  r.1 = r'.1 /\ blank r.2 = blank r'.2 /\ l_bars <$> r.2 = bars_off date <$> (l_bars <$> l).
Proof.
  intros Hl. unfold calendar_day, run_day. cbn [fst snd].
  pose proof (lane_loop_today date l (Day (begin_day date (d_ctx d)) (d_seen d) (d_total d)) Hl)
    as (E1 & E2 & E3).
  destruct (lane_loop date _ l) as [d1 l1].
  destruct (lane_loop date _ (today _ _ _)) as [d1' l1']. cbn [fst snd] in *. subst d1'.
  split_and!; [|done|done]. unfold end_day. by rewrite (quotes_blank _ _ E2).
Qed.

(** ** The next date *)

Lemma next_date_spec l :
  Forall (fun x => ordered (l_bars x)) l ->
  match next_date l with
  | None => Forall (fun x => l_bars x = []) l
  | Some date =>
      is_nan date = false /\
      Exists (fun x => exists b rest, l_bars x = b :: rest /\ pb_date b = date) l /\
      Forall (fun x => starts date (l_bars x)) l
  end.
Proof.
  induction l as [|x l IH] using rev_ind; intros Hl; [constructor|].
  apply Forall_app in Hl as [Hl [Hx _]%Forall_cons]. specialize (IH Hl).
  assert (forall date b rest, l_bars x = b :: rest -> (date <=? pb_date b)%f64 = true -> starts date (l_bars x))
    as Hstart.
  { intros date b rest Ex Hd. rewrite Ex in *. apply ordered_head in Hx as (_ & Hr & _).
    constructor; [done|]. eapply Forall_impl; [exact Hr|]. intros b' Hb'.
    by eapply f64_leb_trans, f64_ltb_leb. }
  unfold next_date in *. rewrite foldl_snoc. destruct (foldl _ None l) as [d|].
  - destruct IH as (Hn & He & Hs). destruct (l_bars x) as [|b rest] eqn:Ex.
    { split_and!; [done|rewrite Exists_app; by left|]. apply Forall_app. split; [done|].
      apply Forall_singleton. rewrite Ex. constructor. }
    assert (is_nan (pb_date b) = false) as Hnb by (by apply ordered_head in Hx as (_ & _ & ?)).
    destruct (pb_date b <? d)%f64 eqn:Hlt.
    + split_and!; [done|rewrite Exists_app; right; left; by eexists _, _|].
      apply Forall_app. split; [|apply Forall_singleton; rewrite Ex; eapply Hstart; [done|by apply f64_leb_refl]].
      eapply Forall_impl; [exact Hs|]. intros y Hy. eapply Forall_impl; [exact Hy|]. simpl. intros b' Hb'.
      eapply f64_leb_trans; [by apply f64_ltb_leb|done].
    + split_and!; [done|rewrite Exists_app; by left|]. apply Forall_app. split; [done|].
      apply Forall_singleton. rewrite Ex; eapply Hstart; [done|]. by apply f64_ltb_false_leb.
  - destruct (l_bars x) as [|b rest] eqn:Ex; [apply Forall_app; split; [done|by apply Forall_singleton]|].
    apply ordered_head in Hx as Hx'. destruct Hx' as (_ & _ & Hnb).
    split_and!; [done|rewrite Exists_app; right; left; by eexists _, _|].
    apply Forall_app. split; [eapply Forall_impl; [exact IH|]; simpl; intros y ->; constructor|].
    apply Forall_singleton. rewrite Ex; eapply Hstart; [done|by apply f64_leb_refl].
Qed.

(** ** The merge *)

Lemma bars_left_shrinks date S : Exists (fun s => bars_on date s <> []) S ->
  (sum_list (length <$> (bars_off date <$> S)) < sum_list (length <$> S))%nat.
Proof.
  assert (forall S, (sum_list (length <$> (bars_off date <$> S)) <= sum_list (length <$> S))%nat) as Hle.
  { induction S0 as [|s S0 IH]; [done|]. rewrite !fmap_cons. simpl.
    pose proof (length_filter (fun b => ~ (pb_date b ==? date)%f64 = true) s). unfold bars_off in *. lia. }
  induction 1 as [s S Hs|s S _ IH]; rewrite !fmap_cons; simpl.
  - destruct (bars_on date s) as [|b bs] eqn:E; [done|].
    assert (b ∈ bars_on date s) as [Hb Hin]%list_elem_of_filter by (rewrite E; left).
    assert (length (bars_off date s) < length s)%nat by (eapply length_filter_lt; [exact Hin|tauto]).
    specialize (Hle S). lia.
  - pose proof (length_filter (fun b => ~ (pb_date b ==? date)%f64 = true) s). unfold bars_off in *. lia.
Qed.

Lemma bars_left_fmap l : bars_left l = sum_list (length <$> (l_bars <$> l)).
Proof. unfold bars_left. by rewrite <- list_fmap_compose. Qed.

Lemma bars_on_elem date s : bars_on date s <> [] <-> exists b, b ∈ s /\ (pb_date b ==? date)%f64 = true.
Proof.
  split.
  - destruct (bars_on date s) as [|b bs] eqn:E; [done|]. intros _. exists b.
    assert (b ∈ bars_on date s) as [? ?]%list_elem_of_filter by (rewrite E; left). done.
  - intros (b & Hb & E) Hn. assert (b ∈ bars_on date s) as H by by apply list_elem_of_filter.
    rewrite Hn in H. by apply not_elem_of_nil in H.
Qed.

(** The first day, and the calendar of what comes after it. *)
Lemma calendar_cons date streams days :
  Forall (starts date) streams -> Exists (fun s => bars_on date s <> []) streams ->
  calendar (bars_off date <$> streams) days ->
  calendar streams (date :: days) /\ Forall (date_lt date) days.
Proof.
  intros Hst Hex (Hs & Hd & Hb). rewrite Forall_forall in Hst.
  assert (Forall (date_lt date) days) as Hlater.
  { apply Forall_forall. intros e (s1 & b & (s & -> & Hin)%list_elem_of_fmap & [Hne Hbs]%list_elem_of_filter & E)%Hd.
    specialize (Hst s Hin). unfold starts in Hst. rewrite Forall_forall in Hst.
    destruct (f64_leb_cases _ _ (Hst b Hbs)) as [Hlt|Heq]; [|by apply f64_eqb_sym in Heq].
    by eapply f64_ltb_eqb_trans. }
  split; [|done]. split_and!; [by constructor| |].
  - intros e [->|(s1 & b & (s & -> & Hin)%list_elem_of_fmap & [_ Hbs]%list_elem_of_filter & E)%Hd]%elem_of_cons.
    + apply Exists_exists in Hex as (s & Hin & (b & Hbs & E)%bars_on_elem). eauto.
    + eauto.
  - intros s b Hin Hbs. destruct (pb_date b ==? date)%f64 eqn:E; [exists date; split; [left|done]|].
    destruct (Hb (bars_off date s) b) as (e & He & Ee).
    + by apply list_elem_of_fmap_2.
    + apply list_elem_of_filter. by rewrite E.
    + exists e. split; [by right|done].
Qed.

Lemma foldl_calendar S1 S2 days : forall r1 r2,
  r1.1 = r2.1 -> blank r1.2 = blank r2.2 ->
  (forall date, date ∈ days -> bars_on date <$> S1 = bars_on date <$> S2) ->
  let q1 := foldl (calendar_day S1) r1 days in
  let q2 := foldl (calendar_day S2) r2 days in
  q1.1 = q2.1 /\ blank q1.2 = blank q2.2.
Proof.
  induction days as [|date days IH]; intros r1 r2 E1 E2 Hd; [done|]. simpl.
  assert (calendar_day S1 r1 date = calendar_day S2 r2 date) as ->.
  { unfold calendar_day. rewrite E1. f_equal. apply today_blank; [|done]. apply Hd. left. }
  apply IH; [done..|]. intros d ?. apply Hd. by right.
Qed.

Lemma next_date_exists l date :
  Exists (fun x => exists b rest, l_bars x = b :: rest /\ pb_date b = date) l -> is_nan date = false ->
  Exists (fun s => bars_on date s <> []) (l_bars <$> l).
Proof.
  intros He Hn. apply Exists_exists in He as (x & Hx & b & rest & Ex & Ed). apply Exists_exists.
  exists (l_bars x). split; [by apply list_elem_of_fmap_2|]. apply bars_on_elem. exists b.
  rewrite Ex, Ed. split; [left|by apply f64_eqb_refl].
Qed.

Lemma merge n : forall d l,
  Forall (fun x => ordered (l_bars x)) l -> (bars_left l <= n)%nat ->
  exists days, calendar (l_bars <$> l) days /\ forall fuel, (n <= fuel)%nat -> exists l',
    let q := foldl (calendar_day (l_bars <$> l)) (d, l) days in
    day_loop fuel d l = Some (q.1, l') /\ blank l' = blank q.2.
Proof.
  induction n as [|n IH]; intros d l Ho Hn; pose proof (next_date_spec l Ho) as Hd;
    destruct (next_date l) as [date|] eqn:Ed.
  1: { destruct Hd as (Hnan & He & _). pose proof (bars_left_shrinks _ _ (next_date_exists _ _ He Hnan)).
       rewrite bars_left_fmap in Hn. lia. }
  2: destruct Hd as (Hnan & He & Hst); pose proof (next_date_exists _ _ He Hnan) as Hex.
  1,3: (exists []; split; [split_and!; [constructor|by intros ? ?%not_elem_of_nil|]|]);
    [intros s b (x & -> & Hx)%list_elem_of_fmap Hb; rewrite Forall_forall in Hd; rewrite (Hd x Hx) in Hb;
       by apply not_elem_of_nil in Hb
    |intros fuel _; exists l; destruct fuel; simpl; by rewrite Ed].
  assert (Forall (fun x => ordered (l_bars x) /\ starts date (l_bars x)) l) as Hl.
  { apply Forall_forall. rewrite Forall_forall in Ho, Hst. intros x Hx. split; auto. }
  destruct (run_day_today date d l Hl) as (E1 & E2 & E3).
  destruct (run_day date d l) as [d1 l1] eqn:Er. cbn [fst snd] in E1, E2, E3.
  destruct (IH d1 l1) as (days & Hc & Hrun).
  { apply Forall_fmap with (f := l_bars). rewrite E3. apply Forall_fmap, Forall_fmap.
    eapply Forall_impl; [exact Ho|]. intros x. apply bars_off_ordered. }
  { pose proof (bars_left_shrinks _ _ Hex). rewrite bars_left_fmap in *. rewrite E3. lia. }
  rewrite E3 in Hc. destruct (calendar_cons _ _ _ (proj2 (Forall_fmap _ _ _) Hst) Hex Hc) as [Hc' Hlater].
  exists (date :: days). split; [done|]. intros [|fuel] Hf; [lia|].
  destruct (Hrun fuel) as (l' & Hloop & Hb); [lia|]. exists l'. simpl. rewrite Ed, Er, Hloop.
  destruct (foldl_calendar (l_bars <$> l1) (l_bars <$> l) days (d1, l1) (calendar_day (l_bars <$> l) (d, l) date))
    as [F1 F2]; [done|done| |].
  { intros e He'. rewrite E3. rewrite <- list_fmap_compose. apply list_fmap_ext. intros _ s _. simpl.
    apply bars_on_off. rewrite Forall_forall in Hlater. auto. }
  rewrite F1 in *. split; [done|]. by rewrite Hb.
Qed.

Lemma close_lanes_blank l : forall l' c, blank l = blank l' -> foldl close_lane c l = foldl close_lane c l'.
Proof.
  induction l as [|x l IH]; intros [|x' l'] c E; try done. unfold blank in E. rewrite !fmap_cons in E.
  injection E as Ei Ep Em En El. simpl. unfold close_lane at 2 4. rewrite Ei, Em. by apply IH.
Qed.

(** The streams of a run, one per asset; an asset without a stream has no bars. *)
Definition streams_of (c : strategy_ctx_t) (start finish : f64) : list (list provider_bar_t) :=
  l_bars <$> (open_lane start finish <$> u_assets (universe c)).

(** C6: A run over a universe is the calendar of its streams: when the bars of every asset come in the
    order of their dates, the merging loop ends within as many rounds as there are bars and
    does what the days of the calendar do one after the other, each asset on the bar it has on that
    day, so that every bar is handled exactly once and none before an earlier one of any asset. *)
Theorem run_universe_calendar c start finish :
  let streams := streams_of c start finish in
  Forall ordered streams -> forallb id (take 7 (mem (order_mgr c))) = true ->
  exists days, calendar streams days /\
    forall fuel, (sum_list (length <$> streams) <= fuel)%nat ->
    strategy_run_universe fuel c start finish =
      let r := open_universe (on_mgr (set_mem (drop 7 (mem (order_mgr c)))) c) start finish in
      let q := foldl (calendar_day streams) r days in
      Some (end_universe q.1 q.2).
Proof.
  intros streams Ho Hmem. unfold strategy_run_universe. rewrite Hmem. simpl negb. cbv iota.
  set (c0 := on_mgr _ c). destruct (open_universe c0 start finish) as [d l] eqn:Eo.
  assert (l_bars <$> l = streams) as El.
  { unfold open_universe in Eo. by injection Eo as _ <-. }
  destruct (merge (sum_list (length <$> streams)) d l) as (days & Hc & Hrun).
  - apply Forall_fmap with (f := l_bars). by rewrite El.
  - by rewrite bars_left_fmap, El.
  - rewrite El in Hc. exists days. split; [done|]. intros fuel Hf.
    destruct (Hrun fuel Hf) as (l' & Hloop & Hb). rewrite El in Hloop, Hb. rewrite Hloop. cbv zeta. simpl fmap.
    f_equal. unfold end_universe. by rewrite (close_lanes_blank l' _ _ Hb).
Qed.

(** ** Dates that are not numbers *)

Definition stuck (x : lane) : Prop :=
  match l_bars x with b :: _ => is_nan (pb_date b) = true | [] => False end.

Lemma next_date_None l : next_date l = None -> Forall (fun x => l_bars x = []) l.
Proof.
  induction l as [|x l IH] using rev_ind; [constructor|]. unfold next_date in *. rewrite foldl_snoc.
  destruct (l_bars x) eqn:E.
  - intros H. apply Forall_app. split; [by apply IH|by apply Forall_singleton].
  - destruct (foldl _ None l); [|done]. by case_match.
Qed.

Lemma lane_step_stuck date d x : stuck x -> (lane_step date d x).2 = x.
Proof.
  unfold stuck, lane_step. destruct (l_bars x) as [|b rest]; [done|]. intros Hn.
  destruct (pb_date b ==? date)%f64 eqn:E; [|done]. apply f64_eqb_key in E as (Hn' & _). congruence.
Qed.

Lemma lane_loop_stuck date l : forall d, Exists stuck l -> Exists stuck (lane_loop date d l).2.
Proof.
  induction l as [|x l IH]; intros d H; [by inversion H|]. simpl.
  pose proof (lane_step_stuck date d x) as Hx. destruct (lane_step date d x) as [d1 x1].
  specialize (IH d1). destruct (lane_loop date d1 l) as [d2 l2]. simpl in *.
  inversion H; subst; [left; by rewrite Hx|right; auto].
Qed.

(** A run over a universe never ends once a bar whose date is not a number has become the next of
    its asset, as the first of its stream for instance: no day takes that bar. *)
Theorem run_universe_nan_date c start finish fuel :
  forallb id (take 7 (mem (order_mgr c))) = true ->
  Exists (fun s => exists b rest, s = b :: rest /\ is_nan (pb_date b) = true) (streams_of c start finish) ->
  strategy_run_universe fuel c start finish = None.
Proof.
  intros Hmem Hex. unfold strategy_run_universe. rewrite Hmem. simpl negb. cbv iota.
  set (c0 := on_mgr _ c). unfold open_universe. change (universe c0) with (universe c).
  set (l := open_lane start finish <$> _). set (d := Day _ _ _).
  assert (Exists stuck l) as Hl.
  { unfold streams_of in Hex. apply Exists_exists in Hex as (s & (x & -> & Hx)%list_elem_of_fmap & b & rest & E & Hn).
    apply Exists_exists. exists x. split; [done|]. unfold stuck. by rewrite E. }
  assert (day_loop fuel d l = None) as ->; [|done]. clearbody d l. clear -Hl. revert d l Hl.
  induction fuel as [|fuel IH]; intros d l Hl; simpl; destruct (next_date l) as [date|] eqn:E; try done.
  2: { pose proof (lane_loop_stuck date l (Day (begin_day date (d_ctx d)) (d_seen d) (d_total d)) Hl) as H.
       unfold run_day. destruct (lane_loop date _ l). by apply IH. }
  all: apply next_date_None in E; apply Exists_exists in Hl as (x & Hx & Hs);
    rewrite Forall_forall in E; unfold stuck in Hs; by rewrite (E x Hx) in Hs.
Qed.
End merging.

(** ** The script of [StrategyProofs.v] on two assets *)

Lemma sample_prices_ordered : ordered sample_prices.
Proof. split; [|repeat constructor]. unfold sample_prices, sample_bars. simpl. repeat constructor. Qed.

Lemma sample_mem :
  (fun c => (mem (order_mgr c), u_assets (universe c))) <$> sample_create =
    Some ([], u_assets sample_universe).
Proof. vm_compute. reflexivity. Qed.

Lemma run_universe_calendar_witness :
  match sample_create with
  | Some c =>
      exists r, @strategy_run_universe paper_executor (sample_provider sample_prices) sample_engine sample_slots
                  14 c f64_zero f64_zero = Some r
  | None => False
  end.
Proof.
  pose proof sample_mem as Hm. destruct sample_create as [c|]; [|discriminate Hm]. injection Hm as Hm Hu.
  assert (@streams_of (sample_provider sample_prices) sample_engine c f64_zero f64_zero
            = [sample_prices; sample_prices]) as Es by by unfold streams_of; rewrite Hu.
  destruct (@run_universe_calendar paper_executor (sample_provider sample_prices) sample_engine sample_slots
    c f64_zero f64_zero) as (days & _ & H).
  { rewrite Es. repeat constructor; apply sample_prices_ordered. }
  { by rewrite Hm. }
  eexists. apply H. by rewrite Es.
Defined.

Lemma run_universe_nan_date_witness :
  match sample_create with
  | Some c =>
      let b := ProviderBar S754_nan f64_one f64_one f64_one f64_one f64_one 1 in
      @strategy_run_universe paper_executor (sample_provider [b]) sample_engine sample_slots
        1000 c f64_zero f64_zero = None
  | None => False
  end.
Proof.
  pose proof sample_mem as Hm. destruct sample_create as [c|]; [|discriminate Hm]. injection Hm as Hm Hu.
  intros b. apply (@run_universe_nan_date paper_executor (sample_provider [b]) sample_engine sample_slots).
  - by rewrite Hm.
  - unfold streams_of. rewrite Hu. left. by exists b, [].
Defined.
