(* ===== verification/StrategyScript.v ===== *)
(** What the script of a strategy sees and hears: the variables it is run with, the warm-up before
    its first run, and the fills that [on_fill] is told.  The definitions are those of [Strategy.v]. *)

From S2P Require Import Prelude Float64 MarketRules OrderManager Env State RtValue SortSearch Universe BarWindow Strategy StrategyProofs.
Open Scope Z_scope.

Section script.
Context {X : Executor} {P : Provider} {G : Engine} {SL : Slots}.

(** ** Variables *)

(** The name may be assigned: no scope declares it constant. *)
Definition assignable (name : string) (e : script_env node world_t) : Prop :=
  vars e <> [] /\ forall x, find_entry (vars e) name = Some x -> is_constant x = false.

Definition get_var (e : script_env node world_t) (name : string) : xvalue :=
  exprtk_env_get (XNumber f64_zero) (vars e) name.

Definition bind_all (l : list (string * xvalue)) (e : script_env node world_t) : script_env node world_t :=
  foldl (fun e p => set_var p.1 p.2 e) e l.

(** The last value that a list of bindings gives a name. *)
Fixpoint bound (name : string) (l : list (string * xvalue)) : option xvalue :=
  match l with
  | [] => None
  | (x, v) :: l =>
      match bound name l with
      | Some v => Some v
      | None => if bool_decide (x = name) then Some v else None
      end
  end.

Lemma set_var_assignable x name v e : assignable x e -> assignable x (set_var name v e).
Proof.
  intros [Hne Hc]. unfold assignable, set_var. simpl. split.
  - pose proof (set_keeps (vars e) name v) as H. destruct (exprtk_env_set _ _ _); [|done].
    by apply Forall2_nil_inv_r in H.
  - intros en. rewrite set_find by done. case_decide; [|apply Hc]. subst.
    destruct (find_entry (vars e) name) as [e0|] eqn:F; intros [= <-]; [|done].
    specialize (Hc e0 eq_refl). by rewrite Hc.
Qed.

Lemma get_set_var e name v x :
  assignable name e -> get_var (set_var name v e) x = if decide (x = name) then v else get_var e x.
Proof.
  intros [Hne Hc]. unfold get_var, exprtk_env_get, set_var. simpl. rewrite set_find by done.
  case_decide; [|done]. subst. destruct (find_entry (vars e) name) as [e0|] eqn:F; [|done].
  by rewrite (Hc e0 eq_refl).
Qed.

Lemma bind_all_assignable x l : forall e, assignable x e -> assignable x (bind_all l e).
Proof. induction l as [|[n v] l IH]; intros e H; [done|]. simpl. by apply IH, set_var_assignable. Qed.

Lemma get_bind_all x l : forall e,
  Forall (fun p => assignable p.1 e) l -> get_var (bind_all l e) x = default (get_var e x) (bound x l).
Proof.
  induction l as [|[n v] l IH]; intros e Hl; [done|]. inversion Hl as [|? ? Hn Hl']; subst. simpl in *.
  rewrite IH by (eapply Forall_impl; [exact Hl'|]; intros; by apply set_var_assignable).
  destruct (bound x l); [done|]. simpl. rewrite get_set_var by done.
  case_decide; case_bool_decide; subst; done.
Qed.

Lemma bind_nums_all l e : bind_nums l e = bind_all ((fun p => (p.1, XNumber p.2)) <$> l) e.
Proof. unfold bind_nums, bind_all. revert e. induction l as [|p l IH]; intros e; [done|]. apply IH. Qed.

Lemma bind_all_app l1 l2 e : bind_all (l1 ++ l2) e = bind_all l2 (bind_all l1 e).
Proof. apply foldl_app. Qed.

(** ** What a script sees *)

Definition column (f : bar -> f64) (l : list bar) : xvalue := XVector (f <$> l).

(** The variables bound before a script runs, in order. *)
Definition script_bindings (m : order_manager_t) (asset_id : Z) (l : list bar) (bar_index : nat)
    (prev_close : f64) : list (string * xvalue) :=
  let wins := base.filter (fun t => (0.0 <? t_pnl t)%f64 = true) (trades m) in
  [("O", column b_open l); ("H", column b_high l); ("L", column b_low l); ("C", column b_close l);
   ("V", column b_volume l);
   ("n", XNumber (f64_of_Z (Z.of_nat (length l)))); ("asset_id", XNumber (f64_of_Z asset_id));
   ("bar_index", XNumber (f64_of_Z (Z.of_nat bar_index)));
   ("position", XNumber (order_manager_position m asset_id));
   ("entry_price", XNumber (order_manager_entry_price m asset_id));
   ("cash", XNumber (cash m)); ("equity", XNumber (equity m)); ("prev_close", XNumber prev_close);
   ("num_trades", XNumber (f64_of_Z (Z.of_nat (length (trades m)))));
   ("num_wins", XNumber (foldl (fun n _ => (n + 1.0)%f64) f64_zero wins));
   ("cum_pnl", XNumber (foldl f64_add f64_zero (t_pnl <$> trades m)));
   ("signal", XNumber f64_zero); ("size", XNumber (f64_lit 1 (-1))); ("signal_type", XNumber f64_zero);
   ("signal_price", XNumber f64_zero); ("bars_valid", XNumber f64_one); ("stop_loss", XNumber f64_zero);
   ("take_profit", XNumber f64_zero); ("trailing_dist", XNumber f64_zero);
   ("trailing_pct", XNumber f64_zero)].

Lemma take_column (f : columns -> list f64) (g : bar -> f64) w :
  (forall c i, g (get_bar c i) = get (f c) i) -> (BarWindow.count w <= length (f (view w)))%nat ->
  take (BarWindow.count w) (f (view w)) = g <$> view_bars w.
Proof.
  intros Hg Hl. apply list_eq. intros i. unfold view_bars.
  rewrite <- list_fmap_compose, lookup_fmap_seq. destruct (i <? BarWindow.count w)%nat eqn:E; bool_props.
  - rewrite lookup_take_lt by done. simpl. rewrite Hg. unfold get.
    destruct (lookup_lt_is_Some_2 (f (view w)) i) as [x Hx]; [lia|]. by rewrite (nth_lookup_Some _ _ _ _ Hx).
  - by rewrite lookup_take_ge.
Qed.

Lemma wins_fold l n :
  foldl (fun nw t => if (t_pnl t >? 0.0)%f64 then (nw + 1.0)%f64 else nw) n l =
  foldl (fun n _ => (n + 1.0)%f64) n (base.filter (fun t => (0.0 <? t_pnl t)%f64 = true) l).
Proof.
  revert n. induction l as [|t l IH]; intros n; [done|]. rewrite filter_cons. simpl.
  destruct (0.0 <? t_pnl t)%f64 eqn:E; case_decide as D; try done; apply IH.
Qed.

Lemma pnl_fold l s : foldl (fun s t => (s + t_pnl t)%f64) s l = foldl f64_add s (t_pnl <$> l).
Proof. revert s. induction l as [|t l IH]; intros s; [done|]. apply IH. Qed.

Lemma script_env_bindings c w asset_id pc :
  BarWindow.wf w -> dirty w = false ->
  env (reset_output_vars (bind_trade_stats (bind_bar_context c w asset_id pc))) =
    bind_all (script_bindings (order_mgr c) asset_id (BarWindow.bars w) (total_bars c) pc) (env c).
Proof.
  intros Hw Hd. pose proof (wf_clean w Hw Hd) as Hv. destruct (wf_view w Hw) as (V1 & V2 & V3 & V4 & V5 & _).
  pose proof (wf_count w Hw) as Hcount.
  unfold reset_output_vars, bind_trade_stats, bind_bar_context, on_env, ts_bind_vec. cbn [env set_env order_mgr total_bars].
  rewrite !bind_nums_all.
  rewrite (take_column c_open b_open), (take_column c_high b_high), (take_column c_low b_low),
    (take_column c_close b_close), (take_column c_volume b_volume) by (done || congruence).
  rewrite wins_fold, pnl_fold, Hv. unfold script_bindings. rewrite BarWindow.length_bars. done.
Qed.

(** The bars of an asset after one more: split and dividend factors that have changed rescale
    those that are there. *)
Definition window_after (cap : nat) (u : universe_t) (asset_id : Z) (b : provider_bar_t) (prev_close : f64)
    (l : list bar) : list bar :=
  let prev_adj := universe_adj_factor u asset_id in
  let adj := universe_adj_factor (universe_apply_runtime_adjustments u asset_id (pb_date b) prev_close) asset_id in
  let l := if (prev_adj >? 0.0)%f64 && (adj >? 0.0)%f64 && (prev_adj !=? adj)%f64
           then spec_step cap l (Rescale (adj / prev_adj)%f64) else l in
  spec_step cap l
    (PushAdjusted (Bar (pb_open b) (pb_high b) (pb_low b) (pb_close b) (pb_volume b) (pb_date b)) adj).

Lemma window_after_first cap u asset_id b pc :
  length (window_after cap u asset_id b pc []) = (1 - (1 - cap))%nat.
Proof.
  unfold window_after. cbn [spec_step]. unfold last_n. rewrite length_drop, length_app.
  destruct (_ && _); [destruct (_ || _)|]; done.
Qed.

Lemma push_bar_bars asset_id b pc u w :
  BarWindow.wf w ->
  BarWindow.wf (push_bar asset_id b pc u w).2 /\
  BarWindow.capacity (push_bar asset_id b pc u w).2 = BarWindow.capacity w /\
  BarWindow.bars (push_bar asset_id b pc u w).2 =
    window_after (BarWindow.capacity w) u asset_id b pc (BarWindow.bars w).
Proof.
  intros Hw. unfold push_bar, window_after. cbn [fst snd].
  set (adj := universe_adj_factor (universe_apply_runtime_adjustments _ _ _ _) asset_id).
  set (prev := universe_adj_factor u asset_id).
  set (test := (prev >? 0.0)%f64 && (adj >? 0.0)%f64 && (prev !=? adj)%f64).
  assert ((0 <? BarWindow.count w)%nat && (prev >? 0.0)%f64 && (adj >? 0.0)%f64 && (prev !=? adj)%f64
            = (0 <? BarWindow.count w)%nat && test) as -> by (subst test; by rewrite !andb_assoc).
  match goal with |- context [bar_window_push_adjusted ?w1 _ _ _ _ _ _ _] => set (w1' := w1) end.
  assert (BarWindow.wf w1' /\ BarWindow.capacity w1' = BarWindow.capacity w /\
    BarWindow.bars w1' = if test then spec_step (BarWindow.capacity w) (BarWindow.bars w) (Rescale (adj / prev)%f64)
                         else BarWindow.bars w) as (Hw1 & Hc1 & Hb1).
  { subst w1'. destruct test; [|by rewrite andb_false_r]. rewrite andb_true_r.
    pose proof (step_bars w (Rescale (adj / prev)%f64) Hw) as Hb.
    pose proof (step_wf w (Rescale (adj / prev)%f64) Hw) as Hwf.
    pose proof (step_capacity w (Rescale (adj / prev)%f64)) as Hcap. simpl BarWindow.step in *.
    destruct (0 <? BarWindow.count w)%nat eqn:E; [done|]. bool_props. split_and!; [done..|].
    assert (BarWindow.bars w = []) as -> by (apply length_zero_iff_nil; rewrite BarWindow.length_bars; lia).
    simpl. by case_match. }
  set (p := PushAdjusted _ adj).
  pose proof (step_bars w1' p Hw1) as Hb. pose proof (step_wf w1' p Hw1) as Hwf.
  pose proof (step_capacity w1' p) as Hcap. rewrite Hb1, Hc1 in *. split_and!; done.
Qed.

Lemma linearize_clean w : BarWindow.wf w -> BarWindow.count w <> 0%nat -> dirty (bar_window_linearize w) = false.
Proof.
  intros _ Hc. unfold bar_window_linearize. destruct (dirty w) eqn:E; simpl; [|done].
  destruct (BarWindow.count w =? 0)%nat eqn:E0; bool_props; done.
Qed.

(** The script runs on the current window.  On a bar that it is run for, the arrays it reads are
    exactly the last adjusted bars of the asset up to and including this one, oldest first; the
    account variables are those of the order manager after the bar's triggers; the outputs are reset;
    every other variable is as the script left it; and its signal is followed afterwards. *)
Theorem script_sees_window c asset_id b pc idx w root :
  universe_find_asset (universe c) asset_id = Some idx -> windows c !! idx = Some w ->
  BarWindow.wf w -> parsed c = Some root ->
  let l := window_after (BarWindow.capacity w) (universe c) asset_id b pc (BarWindow.bars w) in
  let m := order_manager_check_triggers (order_mgr c) asset_id (pb_open b) (pb_high b) (pb_low b)
             (pb_close b) pc in
  let bindings := script_bindings m asset_id l (total_bars c) pc in
  Forall (fun p => assignable p.1 (env c)) bindings -> (warmup_bars (config c) <= length l)%nat ->
  exists c1,
    strategy_on_bar c asset_id b pc false =
      process_strategy_signals (execute_strategy_script c1) asset_id (pb_open b) pc /\
    order_mgr c1 = m /\
    forall x, get_var (env c1) x = default (get_var (env c) x) (bound x bindings).
Proof.
  intros Hf Hi Hw Hp l m bindings Ha Hready. unfold strategy_on_bar. rewrite Hf, Hi.
  destruct (push_bar_bars asset_id b pc (universe c) w Hw) as (Hw1 & Hc1 & Hb1).
  destruct (push_bar asset_id b pc (universe c) w) as [u w1]. cbn [fst snd] in *. fold l in Hb1.
  assert (BarWindow.count w1 = length l) as Hn by by rewrite <- Hb1, BarWindow.length_bars.
  unfold bar_window_ready. simpl config. rewrite Hn, (proj2 (Nat.leb_le _ _) Hready). simpl negb.
  cbn [orb]. cbv iota zeta. cbn [parsed on_mgr set_mgr set_windows set_universe]. rewrite Hp.
  unfold run_script.
  match goal with |- context [reset_output_vars (bind_trade_stats (bind_bar_context ?c2 ?w2 _ _))] =>
    set (c2' := c2); set (w2' := w2) end.
  exists (reset_output_vars (bind_trade_stats (bind_bar_context c2' w2' asset_id pc))).
  split_and!; [done|done|]. intros x.
  assert (length l <> 0%nat) as Hl0.
  { unfold l, window_after. simpl. unfold last_n. rewrite length_drop, length_app. simpl.
    pose proof (wf_capacity w Hw). lia. }
  rewrite (script_env_bindings c2' w2').
  - unfold w2'. rewrite linearize_bars, Hb1. change (order_mgr c2') with m. change (total_bars c2') with (total_bars c).
    change (env c2') with (env c). by apply get_bind_all.
  - by apply linearize_wf.
  - apply linearize_clean; [done|lia].
Qed.

(** ** Warm-up *)

(** What neither a day without trading nor the marking of positions changes. *)
Definition idle (m m' : order_manager_t) : Prop :=
  trades m' = trades m /\ pending m' = pending m /\ cash m' = cash m /\
  (fun p => (p_asset_id p, p_position p)) <$> positions m' = (fun p => (p_asset_id p, p_position p)) <$> positions m.

#[local] Instance idle_preorder : PreOrder idle.
Proof. split; [by intros m|]. intros m1 m2 m3 (?&?&?&?) (?&?&?&?). split_and!; congruence. Qed.

Lemma begin_bar_idle m d : idle m (order_manager_begin_bar m d).
Proof.
  unfold order_manager_begin_bar. destruct (rules _); [|done]. case_match; [|done].
  split_and!; [done..|]. simpl. rewrite <- list_fmap_compose. by apply list_fmap_ext.
Qed.

Lemma mark_positions_idle quotes k l v :
  (fun p => (p_asset_id p, p_position p)) <$> (mark_positions quotes k l v).1
    = (fun p => (p_asset_id p, p_position p)) <$> l.
Proof.
  revert l v. induction k as [|k IH]; intros [|p l] v; simpl; try done.
  destruct (mark_position quotes p) as [p' mkt] eqn:M.
  match goal with |- context [mark_positions quotes k l ?w] =>
    specialize (IH l w); destruct (mark_positions quotes k l w) as [l' t] end.
  simpl. f_equal; [|exact IH]. revert M. unfold mark_position.
  repeat case_match; intros; by simplify_eq.
Qed.

Lemma mark_idle m quotes : idle m (order_manager_mark_to_market m quotes).
Proof.
  unfold order_manager_mark_to_market.
  pose proof (mark_positions_idle quotes (length quotes) (positions m) f64_zero) as H.
  destruct (mark_positions _ _ _ _) as [l v]. by split_and!.
Qed.

Lemma record_idle m : idle m (order_manager_record_equity m).2.
Proof. unfold order_manager_record_equity. case_match; [|done]. by destruct (alloc (mem m)) as [[] h]. Qed.

(** No position is open. *)
Definition flat (m : order_manager_t) : Prop :=
  Forall (fun p => (p_position p ==? 0.0)%f64 = true) (positions m).

Lemma idle_flat m m' : idle m m' -> flat m -> flat m'.
Proof.
  intros (_ & _ & _ & Hp) Hf. unfold flat in *.
  apply (Forall_fmap (fun p => (p_asset_id p, p_position p)) (fun q => (q.2 ==? 0.0)%f64 = true)).
  rewrite Hp. by apply Forall_fmap.
Qed.

Lemma flat_close m a xp d : flat m -> order_manager_close m a xp d = (None, m).
Proof.
  intros Hf. unfold order_manager_close. assert (find_position m a = None) as ->; [|done].
  apply find_index_None. eapply Forall_impl; [exact Hf|]. simpl. intros p ->. by rewrite andb_false_r.
Qed.

(** Windows that hold at most [cap] bars, and a script that never runs. *)
Definition waiting (c : strategy_ctx_t) : Prop :=
  Forall (window_ok (window_capacity (config c))) (windows c).

Lemma on_bar_waiting c asset_id b pc warm :
  waiting c -> warm = true \/ (window_capacity (config c) < warmup_bars (config c))%nat ->
  let c' := strategy_on_bar c asset_id b pc warm in
  waiting c' /\ order_mgr c' = order_mgr c /\ config c' = config c.
Proof.
  intros Hw Hwarm. unfold strategy_on_bar.
  destruct (universe_find_asset _ _) as [idx|]; [|done]. destruct (windows c !! idx) as [w|] eqn:Hi; [|done].
  pose proof Hw as Hw0. unfold waiting in Hw0. rewrite Forall_lookup in Hw0. destruct (Hw0 _ _ Hi) as [Hwf Hcap].
  destruct (push_bar_bars asset_id b pc (universe c) w Hwf) as (Hw1 & Hc1 & _).
  destruct (push_bar asset_id b pc (universe c) w) as [u w1]. cbn [fst snd] in *.
  assert (warm || negb (bar_window_ready w1 (warmup_bars (config c))) = true) as Hskip.
  { destruct Hwarm as [->|Hlt]; [done|]. apply orb_true_iff. right. apply negb_true_iff, Nat.leb_gt.
    pose proof (wf_count w1 Hw1). lia. }
  simpl config. rewrite Hskip. split_and!; [|done|done].
  unfold waiting. simpl. eapply insert_window; [exact Hi| |done]. intros _. by split; [|congruence].
Qed.

(** What one more bar of a run on one asset leaves, while the script waits. *)
Definition waits (s s' : single_state) : Prop :=
  waiting (s_ctx s') /\ idle (order_mgr (s_ctx s)) (order_mgr (s_ctx s')) /\
  config (s_ctx s') = config (s_ctx s).

(** A step of a run in its parts: the day begins, the bar is handled, fills are reported, equity is recorded. *)
Definition on_single (asset_id : Z) (s : single_state) (b : provider_bar_t) : strategy_ctx_t :=
  let c := begin_day (pb_date b) (s_ctx s) in
  strategy_on_bar c asset_id b (s_prev_close s)
    (Z.of_nat (s_processed s) <? int_of_size (warmup_bars (config c))).

Definition settle_single (asset_id : Z) (b : provider_bar_t) (c : strategy_ctx_t) : strategy_ctx_t :=
  let price := (pb_close b * universe_adj_factor (universe c) asset_id)%f64 in
  let c := on_mgr (fun m => order_manager_mark_to_market m [(asset_id, price)]) c in
  let c := on_mgr (fun m => (order_manager_record_equity m).2) c in
  set_total (total_bars c + 1) c.

Lemma single_step_parts asset_id s b :
  let r := fire_fills (on_single asset_id s b) (s_seen s) in
  single_step asset_id s b = Single (settle_single asset_id b r.1) r.2 (pb_close b) (s_processed s + 1).
Proof. unfold single_step, on_single, begin_day. simpl. by destruct (fire_fills _ _). Qed.

Lemma settle_idle asset_id b c : idle (order_mgr c) (order_mgr (settle_single asset_id b c)).
Proof. etransitivity; [apply mark_idle|apply record_idle]. Qed.

Lemma single_step_waiting asset_id s b :
  waiting (s_ctx s) ->
  Z.of_nat (s_processed s) < int_of_size (warmup_bars (config (s_ctx s))) \/
    (window_capacity (config (s_ctx s)) < warmup_bars (config (s_ctx s)))%nat ->
  waits s (single_step asset_id s b) /\ s_processed (single_step asset_id s b) = (s_processed s + 1)%nat.
Proof.
  intros Hw Hwarm. rewrite single_step_parts. split; [|done]. unfold waits. cbn [s_ctx].
  destruct (on_bar_waiting (begin_day (pb_date b) (s_ctx s)) asset_id b (s_prev_close s)
    (Z.of_nat (s_processed s) <? int_of_size (warmup_bars (config (begin_day (pb_date b) (s_ctx s))))))
    as (Hw' & Hm & Hc); [exact Hw|destruct Hwarm as [H|H]; [left; by apply Z.ltb_lt|by right]|].
  fold (on_single asset_id s b) in Hw', Hm, Hc.
  destruct (fire_fills_books (on_single asset_id s b) (s_seen s)) as (_ & Ew & Em & Ec).
  split_and!.
  - unfold waiting. simpl. by rewrite Ew, Ec.
  - etransitivity; [|apply settle_idle]. rewrite Em, Hm. apply begin_bar_idle.
  - simpl. by rewrite Ec, Hc.
Qed.

Lemma single_loop_waiting asset_id l : forall s,
  waiting (s_ctx s) ->
  Z.of_nat (s_processed s + length l) <= int_of_size (warmup_bars (config (s_ctx s))) \/
    (window_capacity (config (s_ctx s)) < warmup_bars (config (s_ctx s)))%nat ->
  waits s (foldl (single_step asset_id) s l).
Proof.
  induction l as [|b l IH]; intros s Hw Hwarm; [by split_and!|]. simpl foldl. simpl length in Hwarm.
  destruct (single_step_waiting asset_id s b Hw) as [(Hw' & Hi & Hc) Hn]; [destruct Hwarm; [left; lia|by right]|].
  destruct (IH (single_step asset_id s b)) as (Hw2 & Hi2 & Hc2); [done| |].
  - rewrite Hc, Hn. destruct Hwarm; [left|by right]. lia.
  - split_and!; [done|by etransitivity|congruence].
Qed.

(** No trading before the warm-up is over.  A backtest of an asset with at most [warmup_bars] bars, or
    with any number of bars when the warm-up is longer than the price window, places no order and
    trades nothing: trade log, pending orders, cash and positions are as before. *)
Theorem warmup_never_trades c asset_id start finish :
  ctx_ok c -> flat (order_mgr c) ->
  (window_capacity (config c) < warmup_bars (config c))%nat \/
    (forall s e l, open_stream asset_id s e = Some l ->
       Z.of_nat (length l) <= int_of_size (warmup_bars (config c))) ->
  idle (order_mgr c) (order_mgr (strategy_run_single c asset_id start finish).2).
Proof.
  intros Hc Hf Hwarm. unfold strategy_run_single. destruct (_ ≫= _) as [a|]; [|done].
  destruct (open_stream _ _ _) as [l|] eqn:El; [|done]. cbn [snd].
  set (start' := if (start <=? 0.0)%f64 then _ else _).
  destruct (if_hooks_books hook_on_init (on_mgr (fun m => order_manager_begin_bar m start') c))
    as (_ & Ew & Em & Ec).
  destruct (single_loop_waiting asset_id l (begin_single c start')) as (Hw & Hi & Hcfg).
  { unfold waiting, begin_single. simpl. rewrite Ew, Ec. apply Hc. }
  { unfold begin_single. simpl. rewrite Ec. simpl. destruct Hwarm as [H|H]; [by right|left; by eapply H]. }
  set (s := foldl _ _ l) in *.
  assert (idle (order_mgr c) (order_mgr (s_ctx s))) as Hidle.
  { etransitivity; [|exact Hi]. unfold begin_single. simpl. rewrite Em. apply begin_bar_idle. }
  assert (forall p d, order_mgr (close_out asset_id p d (s_ctx s)) = order_mgr (s_ctx s)) as Hclose.
  { intros p d. unfold close_out. rewrite flat_close by exact (idle_flat _ _ Hidle Hf). by destruct (has_hooks _). }
  unfold end_single. match goal with |- idle _ (order_mgr (if_hooks _ ?c1)) =>
    destruct (if_hooks_books hook_on_stop c1) as (_ & _ & -> & _) end.
  destruct (s_prev_close s >? 0.0)%f64; [by rewrite Hclose|done].
Qed.

(** ** What a script hears

    [log] is what an engine has recorded of the runs of one body, which is that of [on_fill]: every
    such run records the value of [fill], and nothing else does. *)
Record hears (body : node) (log : script_env node world_t -> list xvalue)
    (good : script_env node world_t -> Prop) : Prop := {
  good_set name v e : good e -> good (set_var name v e);
  good_flow f e : good e -> good (set_env_flow f e);
  good_eval b e : good e -> good (eval_script b e);
  log_set name v e : log (set_var name v e) = log e;
  log_flow f e : log (set_env_flow f e) = log e;
  log_other b e : good e -> b <> body -> log (eval_script b e) = log e;
  log_fill v e : good e ->
    log (eval_script body (set_env_flow FLOW_NORMAL (set_var "fill" v e))) = log e ++ [v]
}.

Section fills.
Context (body : node) (log : script_env node world_t -> list xvalue) (good : script_env node world_t -> Prop).
Hypothesis Hears : hears body log good.

(** The context has [body] as its [on_fill] and nowhere else. *)
Definition other_body (f : option (func_t node)) : Prop :=
  match f with Some f => f_body f <> Some body | None => True end.

Record listening (c : strategy_ctx_t) : Prop := {
  li_hooks : has_hooks c = true;
  li_fill : exists f, hook_on_fill c = Some f /\ f_body f = Some body;
  li_init : other_body (hook_on_init c);
  li_bar : other_body (hook_on_bar c);
  li_stop : other_body (hook_on_stop c);
  li_parsed : parsed c <> Some (Some body);
  li_good : good (env c)
}.

(** Only the environment and the books change, and nothing is heard. *)
Definition deaf (c c' : strategy_ctx_t) : Prop :=
  listening c -> listening c' /\ log (env c') = log (env c).

#[local] Instance deaf_preorder : PreOrder deaf.
Proof.
  split; [by intros c Hc|]. intros c1 c2 c3 H1 H2 Hc. destruct (H1 Hc) as [Hc2 E2].
  destruct (H2 Hc2) as [Hc3 E3]. split; [done|congruence].
Qed.

(** The script, its hooks and its environment are the same. *)
Definition same_script (c c' : strategy_ctx_t) : Prop :=
  has_hooks c' = has_hooks c /\ hook_on_init c' = hook_on_init c /\ hook_on_bar c' = hook_on_bar c /\
  hook_on_fill c' = hook_on_fill c /\ hook_on_stop c' = hook_on_stop c /\ parsed c' = parsed c.

Lemma deaf_same c c' : same_script c c' -> env c' = env c -> deaf c c'.
Proof.
  intros (E1 & E2 & E3 & E4 & E5 & E6) Ee [Hh Hf Hi Hb Hs Hp Hg].
  split; [|by rewrite Ee]. by split; rewrite ?E1, ?E2, ?E3, ?E4, ?E5, ?E6, ?Ee.
Qed.

Lemma deaf_env c e : (good (env c) -> good e /\ log e = log (env c)) -> deaf c (set_env e c).
Proof. intros H [Hh Hf Hi Hb Hs Hp Hg]. destruct (H Hg). by split. Qed.

Lemma bind_all_deaf l e : good e -> good (bind_all l e) /\ log (bind_all l e) = log e.
Proof.
  unfold bind_all. revert e. induction l as [|[n v] l IH]; intros e Hg; [done|]. simpl.
  destruct (IH (set_var n v e)) as [? E]; [by apply (good_set _ _ _ Hears)|].
  split; [done|]. by rewrite E, (log_set _ _ _ Hears).
Qed.

Lemma bind_nums_deaf l e : good e -> good (bind_nums l e) /\ log (bind_nums l e) = log e.
Proof. rewrite bind_nums_all. apply bind_all_deaf. Qed.

Lemma run_body_deaf b e : b <> Some body -> good e -> good (run_body b e) /\ log (run_body b e) = log e.
Proof.
  intros Hb Hg. unfold run_body. destruct Hears as [Gs Gf Ge Ls Lf Lo _]. destruct b as [b|].
  - rewrite Lf, Lo, Lf by (auto; congruence). auto.
  - rewrite !Lf. auto.
Qed.

Lemma call_hook_deaf hook c : other_body hook -> deaf c (call_hook hook c).
Proof.
  destruct hook as [[nm sc [b|]]|]; simpl; intros Hb; try done.
  apply deaf_env. by apply run_body_deaf.
Qed.

Lemma if_hooks_deaf hook c : (listening c -> other_body (hook c)) -> deaf c (if_hooks hook c).
Proof.
  intros Hb Hc. unfold if_hooks. destruct (has_hooks c); [|done]. apply call_hook_deaf; auto.
Qed.

Lemma execute_deaf c : deaf c (execute_strategy_script c).
Proof.
  intros Hc. unfold execute_strategy_script. rewrite (li_hooks c Hc).
  destruct (hook_on_bar c) as [f|] eqn:Eb.
  - apply call_hook_deaf; [|done]. pose proof (li_bar c Hc) as H. by rewrite Eb in H.
  - destruct (parsed c) as [[r|]|] eqn:Ep; [|done..]. apply deaf_env; [|done]. intros Hg.
    split; [by apply (good_eval _ _ _ Hears)|]. apply (log_other _ _ _ Hears); [done|].
    intros ->. by apply (li_parsed c Hc).
Qed.

Lemma on_mgr_deaf f c : deaf c (on_mgr f c).
Proof. by apply deaf_same. Qed.

Lemma on_bar_deaf c asset_id b pc warm : deaf c (strategy_on_bar c asset_id b pc warm).
Proof.
  unfold strategy_on_bar. destruct (universe_find_asset _ _); [|done]. destruct (windows c !! _); [|done].
  destruct (push_bar _ _ _ _ _) as [u w]. cbv zeta.
  match goal with |- deaf c (if _ then ?c1 else _) =>
    assert (deaf c c1) as H1 by (apply deaf_same; by repeat split) end.
  destruct (_ || _); [done|]. simpl parsed. destruct (parsed c); [|by apply deaf_same].
  unfold run_script. match goal with |- deaf c (process_strategy_signals (execute_strategy_script ?c2) _ _ _) =>
    assert (deaf c c2) as H2 end.
  { unfold reset_output_vars, bind_trade_stats, bind_bar_context, on_env, ts_bind_vec.
    cbn [env set_env order_mgr total_bars on_mgr set_mgr set_windows set_universe].
    rewrite !bind_nums_all.
    intros Hc. pose proof (li_good c Hc) as Hg.
    match goal with |- listening (set_env (bind_all ?l3 (bind_all ?l2 (bind_all ?l1 ?e))) _) /\ _ =>
      assert (good e /\ log e = log (env c)) as [G1 L1];
      [|destruct (bind_all_deaf l1 e G1) as [G2 L2]; destruct (bind_all_deaf l2 _ G2) as [G3 L3];
        destruct (bind_all_deaf l3 _ G3) as [G4 L4]] end.
    { destruct Hears as [Gs Gf Ge Ls Lf Lo _]. rewrite !Ls. auto 10. }
    destruct Hc. split; [by split|]. cbn [env set_env]. by rewrite L4, L3, L2, L1. }
  etransitivity; [exact H2|]. etransitivity; [apply execute_deaf|].
  apply on_mgr_deaf.
Qed.

Lemma on_fills_heard l : forall c, listening c ->
  let c' := foldl call_hook_on_fill c l in
  listening c' /\ log (env c') = log (env c) ++ (fill_map <$> l).
Proof.
  induction l as [|tr l IH]; intros c Hc; [split; [done|by rewrite app_nil_r]|]. simpl.
  assert (listening (call_hook_on_fill c tr) /\ log (env (call_hook_on_fill c tr)) = log (env c) ++ [fill_map tr])
    as [H1 E1].
  { destruct (li_fill c Hc) as (f & Ef & Eb). pose proof (li_good c Hc) as Hg.
    unfold call_hook_on_fill. rewrite Ef, Eb. unfold run_body. destruct Hears as [Gs Gf Ge Ls Lf Lo Lb].
    destruct Hc as [Hh Hf Hi Hbar Hs Hp _]. unfold on_env. cbn [env set_env].
    split; [split; cbn [env set_env has_hooks hook_on_fill hook_on_init hook_on_bar hook_on_stop parsed]; auto|].
    by rewrite Lf, Lb. }
  destruct (IH _ H1) as [H2 E2]. split; [done|]. by rewrite E2, E1, <- app_assoc.
Qed.

Lemma fire_fills_heard c seen : listening c ->
  let r := fire_fills c seen in
  listening r.1 /\ log (env r.1) = log (env c) ++ (fill_map <$> drop seen (trades (order_mgr c))) /\
  r.2 = num_trades (order_mgr c).
Proof.
  intros Hc. unfold fire_fills. rewrite (li_hooks c Hc). destruct (li_fill c Hc) as (f & -> & _). simpl.
  destruct (on_fills_heard (drop seen (trades (order_mgr c))) c Hc). by split_and!.
Qed.

(** From [c] to [c'] every trade that is logged is heard, in order. *)
Definition heard (c c' : strategy_ctx_t) : Prop :=
  listening c' /\ trades (order_mgr c) `prefix_of` trades (order_mgr c') /\
  log (env c') = log (env c) ++ (fill_map <$> drop (num_trades (order_mgr c)) (trades (order_mgr c'))).

Lemma heard_trans c1 c2 c3 : heard c1 c2 -> heard c2 c3 -> heard c1 c3.
Proof.
  intros (_ & [k1 T1] & E1) (H3 & [k2 T2] & E2). unfold num_trades in *. split; [done|].
  rewrite T1 in T2, E1, E2. rewrite T2 in E2. rewrite T2, E2, E1. rewrite !drop_app_length, <- !app_assoc.
  unfold num_trades. rewrite drop_app_length, fmap_app. split; [by apply prefix_app_r|done].
Qed.

Lemma heard_deaf c c' : deaf c c' -> listening c -> trades (order_mgr c') = trades (order_mgr c) -> heard c c'.
Proof.
  intros Hd Hc Et. destruct (Hd Hc) as [H E]. unfold heard, num_trades.
  rewrite Et, E, drop_all, app_nil_r. by split_and!.
Qed.

Lemma heard_same_books c c' : deaf c c' -> same_books c c' -> listening c -> heard c c'.
Proof. intros Hd (_ & _ & Em & _) Hc. apply heard_deaf; [done..|by rewrite Em]. Qed.

Lemma close_out_heard asset_id price date c :
  listening c -> executor (order_mgr c) = None -> heard c (close_out asset_id price date c).
Proof.
  intros Hc He. destruct (close_logs (order_mgr c) asset_id price date He) as [Ht _].
  unfold close_out. destruct (order_manager_close _ _ _ _) as [tr m]. unfold logs in Ht. cbn [fst snd] in Ht.
  destruct (on_mgr_deaf (fun _ => m) c Hc) as [Hc1 E1].
  change (set_mgr m c) with (on_mgr (fun _ => m) c). set (c1 := on_mgr (fun _ => m) c) in *.
  rewrite (li_hooks _ Hc1). unfold heard, num_trades. destruct tr as [tr|]; cbn [option_list] in Ht.
  - destruct (on_fills_heard [tr] _ Hc1) as [H2 E2]. cbn [foldl fmap list_fmap] in H2, E2.
    destruct (on_fill_books c1 tr) as (_ & _ & -> & _). change (order_mgr c1) with m.
    rewrite Ht, drop_app_length, E2, E1. split_and!; [done|by apply prefix_app_r|done].
  - change (order_mgr c1) with m. rewrite Ht, app_nil_r, drop_all, app_nil_r. by split_and!.
Qed.

Lemma single_step_heard asset_id s b :
  ctx_ok (s_ctx s) -> next_order_id (order_mgr (s_ctx s)) + 1 < 2 ^ 64 ->
  listening (s_ctx s) -> s_seen s = num_trades (order_mgr (s_ctx s)) ->
  let s' := single_step asset_id s b in
  heard (s_ctx s) (s_ctx s') /\ s_seen s' = num_trades (order_mgr (s_ctx s')).
Proof.
  intros Hok Hn Hc Hs. cbv zeta.
  destruct (single_step_advances asset_id s b Hok Hn) as (_ & _ & _ & _ & Hpre & _).
  unfold heard. rewrite single_step_parts in *. cbn [s_ctx s_seen] in *.
  assert (deaf (s_ctx s) (begin_day (pb_date b) (s_ctx s))) as H0 by by apply deaf_same.
  destruct (H0 Hc) as [H1 E1]. destruct (on_bar_deaf _ asset_id b (s_prev_close s)
    (Z.of_nat (s_processed s) <? int_of_size (warmup_bars (config (begin_day (pb_date b) (s_ctx s))))) H1) as [H2 E2].
  fold (on_single asset_id s b) in H2, E2.
  destruct (fire_fills_heard (on_single asset_id s b) (s_seen s) H2) as (H3 & E3 & E4).
  destruct (fire_fills_books (on_single asset_id s b) (s_seen s)) as (_ & _ & Em & _).
  set (c := (fire_fills (on_single asset_id s b) (s_seen s)).1) in *.
  assert (deaf c (settle_single asset_id b c)) as H5 by (clearbody c; by apply deaf_same).
  destruct (H5 H3) as [H6 E6]. destruct (settle_idle asset_id b c) as [Et _].
  split_and!; [done|done| |].
  - by rewrite E6, E3, E2, E1, Et, Em, Hs.
  - rewrite E4. unfold num_trades. by rewrite Et, Em.
Qed.

Lemma single_loop_heard asset_id l : forall s,
  ctx_ok (s_ctx s) -> next_order_id (order_mgr (s_ctx s)) + Z.of_nat (length l) < 2 ^ 64 ->
  listening (s_ctx s) -> s_seen s = num_trades (order_mgr (s_ctx s)) ->
  heard (s_ctx s) (s_ctx (foldl (single_step asset_id) s l)).
Proof.
  induction l as [|b l IH]; intros s Hok Hn Hc Hs; [by apply heard_deaf|].
  simpl length in Hn. simpl foldl. destruct (single_step_heard asset_id s b Hok) as [H1 S1]; [lia|done|done|].
  destruct (single_step_advances asset_id s b Hok) as (Hok1 & _ & _ & Hn1 & _); [lia|].
  eapply heard_trans; [exact H1|]. apply IH; [done|lia|apply H1|done].
Qed.

Lemma begin_single_heard c start :
  listening c -> heard c (s_ctx (begin_single c start)).
Proof.
  intros Hc. unfold begin_single. cbn [s_ctx]. set (c1 := on_mgr _ c).
  assert (heard c c1) as H1.
  { apply heard_deaf; [apply on_mgr_deaf|done|]. apply (begin_bar_idle (order_mgr c) start). }
  eapply heard_trans; [exact H1|].
  apply heard_same_books; [apply if_hooks_deaf, li_init|apply if_hooks_books|apply H1].
Qed.

Lemma end_single_heard asset_id date s :
  listening (s_ctx s) -> executor (order_mgr (s_ctx s)) = None ->
  heard (s_ctx s) (end_single asset_id date s).
Proof.
  intros Hc He. unfold end_single. set (c1 := if (s_prev_close s >? 0.0)%f64 then _ else _).
  assert (heard (s_ctx s) c1) as H1.
  { subst c1. destruct (_ >? _)%f64; [by apply close_out_heard|by apply heard_deaf]. }
  eapply heard_trans; [exact H1|].
  apply heard_same_books; [apply if_hooks_deaf, li_stop|apply if_hooks_books|apply H1].
Qed.

(** C32: Every logged trade of a backtest -- an order manager logs a trade when a position is reduced or closed, and
    none when it is opened -- reaches [on_fill] exactly once, in the order of the trade log: the values
    of [fill] that the runs of [on_fill] see are the maps of the trades that the run has logged, the
    closing trade included.  A fill that opens or adds to a position is no trade and reaches no hook. *)
Theorem fills_heard_once c asset_id start finish n :
  ctx_ok c -> listening c -> 0 <= n -> next_order_id (order_mgr c) + n < 2 ^ 64 ->
  (forall s e l, open_stream asset_id s e = Some l -> Z.of_nat (length l) <= n) ->
  let c' := (strategy_run_single c asset_id start finish).2 in
  log (env c') = log (env c) ++ (fill_map <$> drop (num_trades (order_mgr c)) (trades (order_mgr c'))).
Proof.
  intros Hok Hc Hn0 Hn Hl. cbv zeta. assert (heard c c) as Hrefl by by apply heard_deaf.
  enough (heard c (strategy_run_single c asset_id start finish).2) as H by apply H.
  unfold strategy_run_single. destruct (_ ≫= _) as [a|]; [|done].
  destruct (open_stream _ _ _) as [l|] eqn:El; [|done]. cbn [snd]. apply Hl in El.
  set (start' := if (start <=? 0.0)%f64 then _ else _).
  pose proof (begin_single_heard c start' Hc) as H1.
  destruct (begin_single_advances c start' Hok) as (Hok1 & _ & _ & Hn1 & _); [lia|].
  assert (heard c (s_ctx (foldl (single_step asset_id) (begin_single c start') l))) as H2.
  { eapply heard_trans; [exact H1|]. apply single_loop_heard; [done|lia|apply H1|done]. }
  destruct (single_loop_advances asset_id l (begin_single c start') Hok1) as (Hok2 & _); [lia|].
  eapply heard_trans; [exact H2|]. apply end_single_heard; [apply H2|apply Hok2].
Qed.
End fills.
End script.

(** ** The script of [StrategyProofs.v] *)

Lemma sample_ctx_ok c : sample_ctx sample_prices = Some c -> @ctx_ok sample_engine c.
Proof.
  unfold sample_ctx. destruct (strategy_create _ _ _) as [c0|] eqn:E; [|done]. intros [= <-].
  apply compile_ctx_ok. by destruct (create_ok _ _ _ _ sample_universe_ok E).
Qed.

Definition sample_log (e : script_env (@node sample_engine) (@world_t sample_engine)) : list xvalue := world e.

(** What the witnesses need to know of the compiled context. *)
Lemma sample_ctx_facts :
  (fun c : @strategy_ctx_t sample_engine =>
     (next_order_id (order_mgr c), trades (order_mgr c), sample_log (env c), warmup_bars (config c),
      (has_hooks c, hook_on_init c, hook_on_bar c, hook_on_fill c, hook_on_stop c, parsed c)))
    <$> sample_ctx sample_prices =
  Some (1, [], [], 1%nat,
    (true, None, None, Some (Func (Some "on_fill"%string) true (Some false)), None, Some (Some true))).
Proof. vm_compute. reflexivity. Qed.

Definition sample_names : list string :=
  (fun p => p.1) <$> script_bindings (demo_manager MARKET_US_EQUITY) 1 [] 0 f64_zero.

Definition can_assign (e : script_env (@node sample_engine) (@world_t sample_engine)) (name : string) : bool :=
  match vars e with
  | [] => false
  | _ => match find_entry (vars e) name with Some x => negb (is_constant x) | None => true end
  end.

Lemma can_assign_spec e name : can_assign e name = true -> @assignable sample_engine name e.
Proof.
  unfold can_assign, assignable. intros H. destruct (vars e) as [|s l]; [discriminate H|]. split; [discriminate|].
  intros x Hx. rewrite Hx in H. by apply negb_true_iff in H.
Qed.

Lemma sample_ctx_vars :
  (fun c : @strategy_ctx_t sample_engine =>
     (can_assign (env c) "fill", forallb (can_assign (env c)) sample_names))
    <$> sample_ctx sample_prices = Some (true, true).
Proof. vm_compute. reflexivity. Qed.

Lemma sample_hears : @hears sample_engine false sample_log (@assignable sample_engine "fill").
Proof.
  split; try done.
  - intros name v e. apply set_var_assignable.
  - intros b e He. destruct b; [|exact He]. simpl.
    match goal with |- assignable _ (ScriptEnv (exprtk_env_set (vars e) "signal" ?v) _ _ _) =>
      exact (@set_var_assignable sample_engine "fill" "signal" v e He) end.
  - intros [] e He Hb; done.
  - intros v e He. simpl. f_equal. f_equal.
    pose proof (@get_set_var sample_engine e "fill" v "fill" He) as H. by rewrite decide_True in H by done.
Qed.

Lemma fills_heard_once_witness :
  match sample_ctx sample_prices with
  | Some c =>
      let c' := (@strategy_run_single paper_executor (sample_provider sample_prices) sample_engine sample_slots
                   c 1 f64_zero f64_zero).2 in
      sample_log (env c') = @fill_map sample_slots <$> trades (order_mgr c')
  | None => False
  end.
Proof.
  pose proof sample_ctx_facts as Hf. pose proof sample_ctx_vars as Hv.
  destruct (sample_ctx sample_prices) as [c|] eqn:E; [|discriminate Hf].
  injection Hf as Hn Ht Hw _ Hh Hi Hb Hfill Hs Hp. injection Hv as Hv _.
  assert (@listening sample_engine false (@assignable sample_engine "fill") c) as Hc.
  { split; rewrite ?Hi, ?Hb, ?Hs; [done|rewrite Hfill; by eexists|done..|by rewrite Hp|].
    by apply can_assign_spec. }
  assert (next_order_id (order_mgr c) + 7 < 2 ^ 64) as Hid by (rewrite Hn; reflexivity).
  assert (forall s e l, @open_stream (sample_provider sample_prices) 1 s e = Some l -> Z.of_nat (length l) <= 7)
    as Hl by (by intros s e l [= <-]).
  assert (0 <= 7) as H7 by discriminate.
  pose proof (@fills_heard_once paper_executor (sample_provider sample_prices) sample_engine sample_slots
    false sample_log (@assignable sample_engine "fill") sample_hears c 1 f64_zero f64_zero 7 (sample_ctx_ok c E)
    Hc H7 Hid Hl) as H.
  cbv zeta in H. unfold num_trades in H. rewrite Hw, Ht in H. cbn [length app drop] in H. cbv zeta. exact H.
Defined.

Lemma warmup_never_trades_witness :
  match sample_ctx sample_prices with
  | Some c =>
      let m := order_mgr (@strategy_run_single paper_executor (sample_provider (take 1 sample_prices)) sample_engine
                            sample_slots c 1 f64_zero f64_zero).2 in
      trades m = trades (order_mgr c)
  | None => False
  end.
Proof.
  pose proof sample_ctx_facts as Hf.
  assert ((fun c : @strategy_ctx_t sample_engine =>
             forallb (fun p => (p_position p ==? 0.0)%f64) (positions (order_mgr c)))
            <$> sample_ctx sample_prices = Some true) as Hflat by (vm_compute; reflexivity).
  destruct (sample_ctx sample_prices) as [c|] eqn:E; [|discriminate Hf].
  injection Hf as _ _ _ Hw _. injection Hflat as Hflat.
  destruct (@warmup_never_trades paper_executor (sample_provider (take 1 sample_prices)) sample_engine sample_slots
    c 1 f64_zero f64_zero (sample_ctx_ok c E)) as (Htr & _).
  { apply Forall_forall. intros p Hp. rewrite forallb_forall in Hflat. by apply Hflat, list_elem_of_In. }
  { right. intros s e l [= <-]. by rewrite Hw. }
  exact Htr.
Defined.

Lemma sample_window :
  (fun c : @strategy_ctx_t sample_engine =>
     (universe_find_asset (universe c) 1,
      (fun w => (BarWindow.bars w, BarWindow.capacity w)) <$> windows c !! 0%nat)) <$> sample_ctx sample_prices =
  Some (Some 0%nat, Some ([], 3%nat)).
Proof. vm_compute. reflexivity. Qed.

Lemma script_sees_window_witness :
  match sample_ctx sample_prices with
  | Some c =>
      exists c1, @strategy_on_bar paper_executor sample_engine c 1 (sample_bar 15 100) f64_zero false =
        @process_strategy_signals paper_executor sample_engine (@execute_strategy_script sample_engine c1) 1
          (f64_of_Z 100) f64_zero /\
      @get_var sample_engine (env c1) "signal" = XNumber f64_zero
  | None => False
  end.
Proof.
  pose proof sample_ctx_facts as Hf. pose proof sample_ctx_vars as Hv. pose proof sample_window as Hwin.
  destruct (sample_ctx sample_prices) as [c|] eqn:E; [|discriminate Hf].
  injection Hf as _ _ _ Hw _ _ _ _ _ Hp. injection Hv as _ Hv. injection Hwin as Hfind Hwin.
  destruct (windows c !! 0%nat) as [w|] eqn:Ew; [|discriminate Hwin]. injection Hwin as Hb Hcap.
  assert (BarWindow.wf w) as Hwf.
  { pose proof (ok_windows c (sample_ctx_ok c E)) as H. rewrite Forall_lookup in H. by destruct (H _ _ Ew). }
  destruct (@script_sees_window paper_executor sample_engine c 1 (sample_bar 15 100) f64_zero 0 w (Some true)
    Hfind Ew Hwf Hp) as (c1 & Hrun & _ & Hget).
  - apply (Forall_fmap (fun p : string * xvalue => p.1) (fun name => @assignable sample_engine name (env c))).
    apply Forall_forall. intros name Hname. apply can_assign_spec.
    assert (forallb (can_assign (env c)) sample_names = true) as Hall by exact Hv.
    apply (proj1 (forallb_forall _ _) Hall). by apply list_elem_of_In.
  - rewrite Hw, Hb, Hcap, window_after_first. apply le_n.
  - exists c1. split; [exact Hrun|]. rewrite Hget. reflexivity.
Defined.
