(* ===== verification/Simd.v ===== *)
(** Vector operations: [exprtk/src/simd_helpers.c], the part on arrays.

    A 256-bit register is the list of its lanes, four of them for [double] and eight for
    [float]; an intrinsic works lane by lane.  [Num] is the arithmetic of an element type:
    binary64, binary32, and any exact field that a proof compares them with.  Whether
    [_mm256_fmadd_pd] rounds once or twice depends on the processor: it is a field of [Num].
    Arrays are lists; a call whose source is its destination reads the array that it
    writes ([Same]), other arrays do not overlap ([Apart]). *)

From S2P Require Import Prelude Float64.
From Stdlib Require Import SpecFloat.
Local Open Scope nat_scope.

(** ** Arithmetic *)

Class Num (A : Type) := {
  zero : A; one : A;
  add : A -> A -> A; sub : A -> A -> A; mul : A -> A -> A; div : A -> A -> A;
  opp : A -> A; nabs : A -> A;
  ltb : A -> A -> bool; leb : A -> A -> bool;
  fmadd : A -> A -> A -> A;      (* a * b + c *)
  fnmadd : A -> A -> A -> A;     (* - (a * b) + c *)
  lit : Z -> Z -> A;             (* the literal m * 10 ^ e *)
  of_size : nat -> A
}.

#[export] Instance num_inhabited `{Num A} : Inhabited A := populate zero.

(** The processor's fused operations. *)
Class Fused (A : Type) := { fused_add : A -> A -> A -> A; fused_sub : A -> A -> A -> A }.

#[export] Instance f64_num `{Fused f64} : Num f64 := {|
  zero := f64_zero; one := f64_one;
  add := f64_add; sub := f64_sub; mul := f64_mul; div := f64_div; opp := f64_opp; nabs := f64_fabs;
  ltb := f64_ltb; leb := f64_leb; fmadd := fused_add; fnmadd := fused_sub;
  lit := f64_lit; of_size := fun n => f64_of_Z (Z.of_nat n)
|}.

(** C [float]: the same numbers at precision 24. *)
Definition f32 := spec_float.

Definition f32_of_Z (z : Z) : f32 := binary_normalize 24 128 z 0 false.

Definition f32_num `{Fused f32} : Num f32 := {|
  zero := S754_zero false; one := f32_of_Z 1;
  add := SFadd 24 128; sub := SFsub 24 128; mul := SFmul 24 128; div := SFdiv 24 128;
  opp := SFopp; nabs := SFabs; ltb := SFltb; leb := SFleb; fmadd := fused_add; fnmadd := fused_sub;
  lit := fun m e => if (0 <=? e)%Z then f32_of_Z (m * 10 ^ e)
                    else SFdiv 24 128 (f32_of_Z m) (f32_of_Z (10 ^ (- e)));
  of_size := fun n => f32_of_Z (Z.of_nat n)
|}.

(** ** Loops

    [for (; i < n; i++)], and [for (; i + w <= n; i += w)] followed by it; [n] rounds
    of fuel are enough for [0 < w]. *)

Definition for_range {St} (i n : nat) (body : nat -> St -> St) (s : St) : St :=
  foldl (fun s i => body i s) s (seq i (n - i)).

Fixpoint for_blocks {St} (fuel w n i : nat) (body : nat -> St -> St) (s : St) : nat * St :=
  match fuel with
  | O => (i, s)
  | S fuel => if i + w <=? n then for_blocks fuel w n (i + w) body (body i s) else (i, s)
  end.

Definition SIMD_THRESHOLD : nat := 8.

(** ** Registers and arrays *)

Definition loadu {A} (w : nat) (l : list A) (i : nat) : list A := take w (drop i l).
Definition storeu {A} (i : nat) (v l : list A) : list A := list_inserts i v l.
Definition set1 {A} (w : nat) (x : A) : list A := replicate w x.

Inductive src (A : Type) := Apart (l : list A) | Same.
Arguments Apart {A}. Arguments Same {A}.

Definition at_ {A} (s : src A) (dst : list A) : list A :=
  match s with Apart l => l | Same => dst end.

(** ** Registers of points: pairs of [float]s, eight points in two registers *)

#[export] Instance f64_inhabited : Inhabited f64 | 100 := populate f64_zero.

Section registers.
Context {A : Type} {IA : Inhabited A}.

(** One half of [_mm256_shuffle_ps]: two lanes of each operand. *)
Definition shuffle_half (a b : list A) (h i0 i1 i2 i3 : nat) : list A :=
  [a !!! (h + i0); a !!! (h + i1); b !!! (h + i2); b !!! (h + i3)].

Definition shuffle_88 (a b : list A) : list A := shuffle_half a b 0 0 2 0 2 ++ shuffle_half a b 4 0 2 0 2.
Definition shuffle_DD (a b : list A) : list A := shuffle_half a b 0 1 3 1 3 ++ shuffle_half a b 4 1 3 1 3.

(** [_mm256_permute4x64_pd] with 0xD8 on pairs of [float] lanes. *)
Definition permute_D8 (v : list A) : list A :=
  loadu 2 v 0 ++ loadu 2 v 4 ++ loadu 2 v 2 ++ loadu 2 v 6.

Definition unpacklo (a b : list A) : list A :=
  [a !!! 0; b !!! 0; a !!! 1; b !!! 1; a !!! 4; b !!! 4; a !!! 5; b !!! 5].
Definition unpackhi (a b : list A) : list A :=
  [a !!! 2; b !!! 2; a !!! 3; b !!! 3; a !!! 6; b !!! 6; a !!! 7; b !!! 7].

(** [_mm256_permute2f128_ps] with 0x20 and 0x31. *)
Definition permute2f128_20 (a b : list A) : list A := loadu 4 a 0 ++ loadu 4 b 0.
Definition permute2f128_31 (a b : list A) : list A := loadu 4 a 4 ++ loadu 4 b 4.

(** The x and the y of eight points, in order. *)
Definition deinterleave (v0 v1 : list A) : list A * list A :=
  (permute_D8 (shuffle_88 v0 v1), permute_D8 (shuffle_DD v0 v1)).

End registers.

Section operations.
Context {A : Type} {N : Num A}.

(** ** Reductions *)

Definition hsum (tmp : list A) : A :=
  match tmp with [] => zero | x :: l => foldl add x l end.

(** [w] lanes, and a scalar loop for fewer than [t] elements. *)
Definition sum_loop (w t : nat) (arr : list A) (n : nat) : A :=
  let one_ i s := add s (arr !!! i) in
  if n <? t then for_range 0 n one_ zero else
  let (i, acc) := for_blocks n w n 0 (fun i acc => zip_with add acc (loadu w arr i)) (set1 w zero) in
  for_range i n one_ (hsum acc).

Definition fma3 (va vb acc : list A) : list A := zip_with (fun p c => fmadd p.1 p.2 c) (zip va vb) acc.

Definition dot_loop (w t : nat) (a b : list A) (n : nat) : A :=
  let one_ i s := add s (mul (a !!! i) (b !!! i)) in
  if n <? t then for_range 0 n one_ zero else
  let (i, acc) := for_blocks n w n 0 (fun i acc => fma3 (loadu w a i) (loadu w b i) acc) (set1 w zero) in
  for_range i n one_ (hsum acc).

Definition simd_sum (arr : list A) (n : nat) : A := sum_loop 4 SIMD_THRESHOLD arr n.
Definition simd_dot (a b : list A) (n : nat) : A := dot_loop 4 SIMD_THRESHOLD a b n.
Definition simd_norm_sq (a : list A) (n : nat) : A := dot_loop 4 SIMD_THRESHOLD a a n.

Definition simd_sum_f32 (arr : list A) (n : nat) : A := sum_loop 8 SIMD_THRESHOLD arr n.
Definition simd_dot_f32 (a b : list A) (n : nat) : A := dot_loop 8 SIMD_THRESHOLD a b n.
Definition simd_norm_sq_f32 (a : list A) (n : nat) : A := simd_dot_f32 a a n.

(** ** Element by element

    [vec1] and [vec2] are the common shape of the operations: [w] lanes at a time with
    [vop], then one by one with [op]; only one by one for fewer than [t] elements. *)

Definition put (i : nat) (x : A) (dst : list A) : list A := <[i := x]> dst.

Definition vec1 (w t : nat) (vop : list A -> list A) (op : A -> A) (a : src A) (dst : list A) (n : nat)
    : list A :=
  let one_ i d := put i (op (at_ a d !!! i)) d in
  if n <? t then for_range 0 n one_ dst else
  let (i, d) := for_blocks n w n 0 (fun i d => storeu i (vop (loadu w (at_ a d) i)) d) dst in
  for_range i n one_ d.

Definition vec2 (w t : nat) (vop : list A -> list A -> list A) (op : A -> A -> A) (a b : src A)
    (dst : list A) (n : nat) : list A :=
  let one_ i d := put i (op (at_ a d !!! i) (at_ b d !!! i)) d in
  if n <? t then for_range 0 n one_ dst else
  let (i, d) := for_blocks n w n 0
                  (fun i d => storeu i (vop (loadu w (at_ a d) i) (loadu w (at_ b d) i)) d) dst in
  for_range i n one_ d.

Definition simd_add := vec2 4 SIMD_THRESHOLD (zip_with add) add.
Definition simd_sub := vec2 4 SIMD_THRESHOLD (zip_with sub) sub.
Definition simd_mul := vec2 4 SIMD_THRESHOLD (zip_with mul) mul.
Definition simd_div := vec2 4 SIMD_THRESHOLD (zip_with div) div.

Definition simd_scale (a : src A) (dst : list A) (scale : A) (n : nat) : list A :=
  vec1 4 SIMD_THRESHOLD (fun va => zip_with mul va (set1 4 scale)) (fun x => mul x scale) a dst n.

Definition simd_sqr := vec1 4 SIMD_THRESHOLD (fun v => zip_with mul v v) (fun x => mul x x).

Definition simd_reciprocal := vec1 4 SIMD_THRESHOLD (fun v => zip_with div (set1 4 one) v) (fun x => div one x).

Definition simd_fill (dst : list A) (val : A) (n : nat) : list A :=
  vec1 4 SIMD_THRESHOLD (fun _ => set1 4 val) (fun _ => val) Same dst n.

(** [float] versions have no scalar case of their own. *)
Definition simd_add_f32 := vec2 8 0 (zip_with add) add.
Definition simd_sub_f32 := vec2 8 0 (zip_with sub) sub.
Definition simd_mul_f32 := vec2 8 0 (zip_with mul) mul.
Definition simd_div_f32 := vec2 8 0 (zip_with div) div.

Definition simd_scale_f32 (a : src A) (dst : list A) (scale : A) (n : nat) : list A :=
  vec1 8 0 (fun va => zip_with mul va (set1 8 scale)) (fun x => mul x scale) a dst n.

(** The sign bit goes; then the sign as a number. *)
Definition simd_abs := vec1 4 SIMD_THRESHOLD (fmap nabs) nabs.

Definition blendv (a b : list A) (mask : list bool) : list A :=
  zip_with (fun p (m : bool) => if m then p.2 else p.1) (zip a b) mask.

Definition sign_of (x : A) : A :=
  match ltb zero x, ltb x zero with true, false => one | false, true => opp one | _, _ => zero end.

Definition simd_sign := vec1 4 SIMD_THRESHOLD
  (fun v =>
    let pos_mask := zip_with (fun x z => ltb z x) v (set1 4 zero) in
    let neg_mask := zip_with ltb v (set1 4 zero) in
    blendv (blendv (set1 4 zero) (set1 4 one) pos_mask) (set1 4 (opp one)) neg_mask)
  sign_of.

(** The vector code multiplies by the reciprocal, the scalar code divides. *)
Definition simd_zscore (a : src A) (dst : list A) (n : nat) (mean sd : A) : list A :=
  if ltb sd (lit 1 (-15)) then list_inserts 0 (replicate n zero) dst else
  vec1 4 SIMD_THRESHOLD
    (fun v => zip_with mul (zip_with sub v (set1 4 mean)) (set1 4 (div one sd)))
    (fun x => div (sub x mean) sd) a dst n.

(** ** Moving elements *)

Definition simd_reverse (a : src A) (dst : list A) (n : nat) : list A :=
  let one_ i d := put (n - 1 - i) (at_ a d !!! i) d in
  if n =? 0 then dst else
  if n <? SIMD_THRESHOLD then for_range 0 n one_ dst else
  let (i, d) := for_blocks n 4 n 0
                  (fun i d => storeu (n - i - 4) (reverse (loadu 4 (at_ a d) i)) d) dst in
  for_range i n one_ d.

Definition simd_cumsum (a : src A) (dst : list A) (n : nat) : list A :=
  (for_range 0 n (fun i '(sum, d) => let sum := add sum (at_ a d !!! i) in (sum, put i sum d)) (zero, dst)).2.

Definition simd_diff (a : src A) (dst : list A) (n : nat) : list A :=
  if n <=? 1 then dst else
  let out_n := n - 1 in
  let one_ i d := put i (sub (at_ a d !!! (i + 1)) (at_ a d !!! i)) d in
  if out_n <? SIMD_THRESHOLD then for_range 0 out_n one_ dst else
  let (i, d) := for_blocks out_n 4 out_n 0
                  (fun i d => storeu i (zip_with sub (loadu 4 (at_ a d) (i + 1)) (loadu 4 (at_ a d) i)) d) dst in
  for_range i out_n one_ d.

(** ** Mean and variance *)

Definition mv_one (data : list A) (i : nat) (p : A * A) : A * A :=
  (add p.1 (data !!! i), add p.2 (mul (data !!! i) (data !!! i))).

Definition mv_block (data : list A) (i : nat) (acc : list A * list A) : list A * list A :=
  let v := loadu 4 data i in (zip_with add acc.1 v, fma3 v v acc.2).

Definition mv_sums (data : list A) (n : nat) : A * A :=
  if n <? SIMD_THRESHOLD then for_range 0 n (mv_one data) (zero, zero) else
  let (i, acc) := for_blocks n 4 n 0 (mv_block data) (set1 4 zero, set1 4 zero) in
  for_range i n (mv_one data) (hsum acc.1, hsum acc.2).

Definition simd_mean_variance (data : list A) (n : nat) : A * A :=
  if n =? 0 then (zero, zero) else
  if n =? 1 then (data !!! 0, zero) else
  let (sum, sum_sq) := mv_sums data n in
  let mean := div sum (of_size n) in
  let var := div (sub sum_sq (div (mul sum sum) (of_size n))) (of_size (n - 1)) in
  (mean, if ltb var zero then zero else var).

(** ** Tests *)

(** Whether an element is not zero; whether all are.  The scalar code takes numbers up
    to 1e-15 for zero. *)
Definition big (x : A) : bool := ltb (lit 1 (-15)) (nabs x).
Definition small (x : A) : bool := leb (nabs x) (lit 1 (-15)).
Definition neq_oq (x : A) : bool := ltb x zero || ltb zero x.

(** The tests of the loops and their early returns: the blocks, then the rest. *)
Definition simd_any (data : list A) (n : nat) : bool :=
  if n <? SIMD_THRESHOLD then existsb big (take n data) else
  existsb (fun b => existsb neq_oq (loadu 4 data (4 * b))) (seq 0 (n / 4))
  || existsb (fun i => big (data !!! i)) (seq (n / 4 * 4) (n - n / 4 * 4)).

Definition simd_all (data : list A) (n : nat) : bool :=
  if n =? 0 then false else
  if n <? SIMD_THRESHOLD then negb (existsb small (take n data)) else
  forallb (fun b => forallb neq_oq (loadu 4 data (4 * b))) (seq 0 (n / 4))
  && negb (existsb (fun i => small (data !!! i)) (seq (n / 4 * 4) (n - n / 4 * 4))).

(** ** Points of the plane *)

Definition transform_block (m : list A) (i : nat) (inp : list A) (out : list A) : list A :=
  let v0 := loadu 8 inp (i * 2) in
  let v1 := loadu 8 inp (i * 2 + 8) in
  let (x, y) := deinterleave v0 v1 in
  let rx := fma3 (set1 8 (m !!! 0)) x (fma3 (set1 8 (m !!! 1)) y (set1 8 (m !!! 2))) in
  let ry := fma3 (set1 8 (m !!! 3)) x (fma3 (set1 8 (m !!! 4)) y (set1 8 (m !!! 5))) in
  let w0 := unpacklo rx ry in
  let w1 := unpackhi rx ry in
  storeu (i * 2 + 8) (permute2f128_31 w0 w1) (storeu (i * 2) (permute2f128_20 w0 w1) out).

Definition transform_point (m : list A) (i : nat) (inp : list A) (out : list A) : list A :=
  let px := inp !!! (i * 2) in
  let py := inp !!! (i * 2 + 1) in
  put (i * 2 + 1) (add (add (mul (m !!! 3) px) (mul (m !!! 4) py)) (m !!! 5))
    (put (i * 2) (add (add (mul (m !!! 0) px) (mul (m !!! 1) py)) (m !!! 2)) out).

Definition simd_transform_points_f32 (m : list A) (a : src A) (out : list A) (n : nat) : list A :=
  if n =? 0 then out else
  let (i, out) := for_blocks n 8 n 0 (fun i out => transform_block m i (at_ a out) out) out in
  for_range i n (fun i out => transform_point m i (at_ a out) out) out.

Definition simd_compose_transforms_f32 (m1 m2 : list A) : list A :=
  [add (mul (m1 !!! 0) (m2 !!! 0)) (mul (m1 !!! 1) (m2 !!! 3));
   add (mul (m1 !!! 0) (m2 !!! 1)) (mul (m1 !!! 1) (m2 !!! 4));
   add (add (mul (m1 !!! 0) (m2 !!! 2)) (mul (m1 !!! 1) (m2 !!! 5))) (m1 !!! 2);
   add (mul (m1 !!! 3) (m2 !!! 0)) (mul (m1 !!! 4) (m2 !!! 3));
   add (mul (m1 !!! 3) (m2 !!! 1)) (mul (m1 !!! 4) (m2 !!! 4));
   add (add (mul (m1 !!! 3) (m2 !!! 2)) (mul (m1 !!! 4) (m2 !!! 5))) (m1 !!! 5)].
End operations.

(** ** Extremes

    Comparisons do not depend on the precision.  [fmax] and [fmin] of the C library
    ignore a NaN; of two equal numbers, here, they answer the first. *)

Definition fmax (x y : f64) : f64 :=
  if is_nan x then y else if is_nan y then x else if (x <? y)%f64 then y else x.
Definition fmin (x y : f64) : f64 :=
  if is_nan x then y else if is_nan y then x else if (y <? x)%f64 then y else x.

Definition INFINITY : f64 := S754_infinity false.

(** [if (x > mx) mx = x;] *)
Definition raise (mx x : f64) : f64 := if (x >? mx)%f64 then x else mx.
Definition lower (mn x : f64) : f64 := if (x <? mn)%f64 then x else mn.

Definition wide_max (a b : f64) : f64 := if (a >? b)%f64 then a else b.
Definition wide_min (a b : f64) : f64 := if (a <? b)%f64 then a else b.

Definition simd_max (arr : list f64) (n : nat) : f64 :=
  let rd i := arr !!! i in
  let one_ i mx := raise mx (rd i) in
  if n =? 0 then f64_zero else
  if n <? SIMD_THRESHOLD then for_range 1 n one_ (rd 0) else
  let (i, acc) := for_blocks n 4 n 0 (fun i acc => zip_with wide_max acc (loadu 4 arr i))
                    (set1 4 (- INFINITY)%f64) in
  for_range i n one_ (fmax (fmax (acc !!! 0) (acc !!! 1)) (fmax (acc !!! 2) (acc !!! 3))).

Definition simd_min (arr : list f64) (n : nat) : f64 :=
  let rd i := arr !!! i in
  let one_ i mn := lower mn (rd i) in
  if n =? 0 then f64_zero else
  if n <? SIMD_THRESHOLD then for_range 1 n one_ (rd 0) else
  let (i, acc) := for_blocks n 4 n 0 (fun i acc => zip_with wide_min acc (loadu 4 arr i)) (set1 4 INFINITY) in
  for_range i n one_ (fmin (fmin (acc !!! 0) (acc !!! 1)) (fmin (acc !!! 2) (acc !!! 3))).

(** [float]: the first block starts the accumulator. *)
Definition simd_max_f32 (arr : list f32) (n : nat) : f32 :=
  let rd i := arr !!! i in
  let one_ i mx := raise mx (rd i) in
  if n =? 0 then f64_zero else
  if n <? SIMD_THRESHOLD then for_range 1 n one_ (rd 0) else
  let (i, acc) := for_blocks n 8 n 8 (fun i acc => zip_with wide_max acc (loadu 8 arr i)) (loadu 8 arr 0) in
  for_range i n one_ (for_range 1 8 (fun k mx => raise mx (acc !!! k)) (acc !!! 0)).

Definition simd_min_f32 (arr : list f32) (n : nat) : f32 :=
  let rd i := arr !!! i in
  let one_ i mn := lower mn (rd i) in
  if n =? 0 then f64_zero else
  if n <? SIMD_THRESHOLD then for_range 1 n one_ (rd 0) else
  let (i, acc) := for_blocks n 8 n 8 (fun i acc => zip_with wide_min acc (loadu 8 arr i)) (loadu 8 arr 0) in
  for_range i n one_ (for_range 1 8 (fun k mn => lower mn (acc !!! k)) (acc !!! 0)).

Section extremes.
Context {FU : Fused f64}.

Definition simd_element_max := vec2 4 SIMD_THRESHOLD (zip_with wide_max) fmax.
Definition simd_element_min := vec2 4 SIMD_THRESHOLD (zip_with wide_min) fmin.

Definition simd_element_max_scalar (a : src f64) (scalar : f64) (dst : list f64) (n : nat) : list f64 :=
  vec1 4 SIMD_THRESHOLD (fun va => zip_with wide_max va (set1 4 scalar)) (fun x => fmax x scalar) a dst n.
Definition simd_element_min_scalar (a : src f64) (scalar : f64) (dst : list f64) (n : nat) : list f64 :=
  vec1 4 SIMD_THRESHOLD (fun va => zip_with wide_min va (set1 4 scalar)) (fun x => fmin x scalar) a dst n.

Definition simd_clip (a : src f64) (dst : list f64) (n : nat) (lo hi : f64) : list f64 :=
  vec1 4 SIMD_THRESHOLD
    (fun v => zip_with wide_min (zip_with wide_max v (set1 4 lo)) (set1 4 hi))
    (fun x => fmin (fmax x lo) hi) a dst n.

(** A window of [win] elements that ends at each element; [memcpy] when it is one.
    [i - win + 1] wraps around and back when [i] is [win - 1]. *)
Definition roll (pick : list f64 -> nat -> f64) (a : src f64) (dst : list f64) (n win : nat) : list f64 :=
  if (win <=? 1) || (n =? 0) then
    match a with Apart l => list_inserts 0 (take n l) dst | Same => dst end
  else
    for_range 0 n (fun i d =>
      let start := if win - 1 <=? i then i + 1 - win else 0 in
      let len := i - start + 1 in
      put i (pick (drop start (at_ a d)) len) d) dst.

Definition simd_roll_max := roll simd_max.
Definition simd_roll_min := roll simd_min.
End extremes.

(** ** The bounding box of points *)

Record box := Box { min_x : f32; min_y : f32; max_x : f32; max_y : f32 }.

Definition box_add (b : box) (x y : f32) : box :=
  Box (lower (min_x b) x) (lower (min_y b) y) (raise (max_x b) x) (raise (max_y b) y).

Definition huge : f32 := binary_normalize 24 128 (10 ^ 30) 0 false.

(** The registers [v_min_x], [v_min_y], [v_max_x] and [v_max_y]. *)
Record wide_box := Wide { wmin_x : list f32; wmin_y : list f32; wmax_x : list f32; wmax_y : list f32 }.

Definition aabb_block (points : list f32) (i : nat) (v : wide_box) : wide_box :=
  let (x, y) := deinterleave (loadu 8 points (i * 2)) (loadu 8 points (i * 2 + 8)) in
  Wide (zip_with wide_min (wmin_x v) x) (zip_with wide_min (wmin_y v) y)
       (zip_with wide_max (wmax_x v) x) (zip_with wide_max (wmax_y v) y).

Definition aabb_lane (v : wide_box) (k : nat) (b : box) : box :=
  Box (lower (min_x b) (wmin_x v !!! k)) (lower (min_y b) (wmin_y v !!! k))
      (raise (max_x b) (wmax_x v !!! k)) (raise (max_y b) (wmax_y v !!! k)).

Definition simd_aabb_points_f32 (points : list f32) (n : nat) : box :=
  let rd i := points !!! i in
  if n =? 0 then Box f64_zero f64_zero f64_zero f64_zero else
  let b := Box (rd 0) (rd 1) (rd 0) (rd 1) in
  let '(i, b) :=
    if 8 <=? n then
      let (i, v) := for_blocks n 8 n 0 (aabb_block points)
                      (Wide (set1 8 huge) (set1 8 huge) (set1 8 (- huge)%f64) (set1 8 (- huge)%f64)) in
      (i, for_range 0 8 (aabb_lane v) b)
    else (0, b) in
  for_range i n (fun i b => box_add b (rd (i * 2)) (rd (i * 2 + 1))) b.
