(* ===== verification/SimdProofs.v ===== *)
(** What the vector operations of [Simd.v] compute: the element-wise ones agree with the
    scalar code wherever the intrinsics do, whatever the length, in place or not; the
    reductions agree with it in exact arithmetic; the cases where they do not agree are
    theorems as well. *)

From S2P Require Import Prelude Float64 Simd.
From Stdlib Require Import SpecFloat.
Local Open Scope nat_scope.

(** ** Loops *)

Lemma for_range_nil {St} i n (f : nat -> St -> St) s : n <= i -> for_range i n f s = s.
Proof. intros. unfold for_range. by replace (n - i) with 0 by lia. Qed.

Lemma for_range_split {St} i k n (f : nat -> St -> St) s :
  i <= k <= n -> for_range i n f s = for_range k n f (for_range i k f s).
Proof.
  intros. unfold for_range. replace (n - i) with ((k - i) + (n - k)) by lia.
  rewrite seq_app, foldl_app. by replace (i + (k - i)) with k by lia.
Qed.

Lemma for_range_snoc {St} i n (f : nat -> St -> St) s :
  i <= n -> for_range i (S n) f s = f n (for_range i n f s).
Proof.
  intros. rewrite (for_range_split i n) by lia. unfold for_range at 1.
  by replace (S n - n) with 1 by lia.
Qed.

Lemma for_range_cons {St} i n (f : nat -> St -> St) s :
  i < n -> for_range i n f s = for_range (S i) n f (f i s).
Proof. intros. rewrite (for_range_split i (S i)) by lia. by rewrite for_range_snoc, (for_range_nil i i) by lia. Qed.

Lemma for_range_ext {St} i n (f g : nat -> St -> St) s :
  (forall j s, i <= j < n -> f j s = g j s) -> for_range i n f s = for_range i n g s.
Proof.
  induction n as [|n IH]; intros H; [by rewrite !for_range_nil by lia|].
  destruct (decide (i <= n)); [|by rewrite !for_range_nil by lia].
  rewrite !for_range_snoc by done. rewrite IH; [apply H; lia|]. intros. apply H. lia.
Qed.

Lemma for_range_rule {St} (P : nat -> St -> Prop) i n f s :
  i <= n -> P i s -> (forall j s, i <= j < n -> P j s -> P (S j) (f j s)) -> P n (for_range i n f s).
Proof.
  intros Hi H0 Hs. induction n as [|n IH].
  - by replace i with 0 in * by lia.
  - destruct (decide (i = S n)) as [->|]; [by rewrite for_range_nil|].
    rewrite for_range_snoc by lia. apply Hs; [lia|]. apply IH; [lia|]. intros. apply Hs; [lia|done].
Qed.

(** The loop over blocks ends at the last multiple of [w]. *)
Lemma for_blocks_rule {St} (P : nat -> St -> Prop) w n f fuel : forall i s,
  0 < w -> Nat.divide w i -> i <= n -> n <= i + fuel -> P i s ->
  (forall j s, i <= j -> j + w <= n -> P j s -> P (j + w) (f j s)) ->
  (for_blocks fuel w n i f s).1 = n / w * w /\ P (n / w * w) (for_blocks fuel w n i f s).2.
Proof.
  assert (forall i, 0 < w -> Nat.divide w i -> i <= n < i + w -> n / w * w = i) as Hend.
  { intros i Hw [k ->] Hi. replace (n / w) with k; [done|].
    apply (Nat.div_unique n w k (n - k * w)); nia. }
  induction fuel as [|fuel IH]; intros i s Hw Hd Hi Hf H0 Hs; simpl.
  - assert (n / w * w = i) as -> by (apply Hend; [done..|lia]). done.
  - destruct (i + w <=? n) eqn:E; bool_props.
    + apply IH; [done|by apply Nat.divide_add_r|lia|lia|by apply Hs|].
      intros. apply Hs; [lia|done|done].
    + assert (n / w * w = i) as -> by (apply Hend; [done..|lia]). done.
Qed.

Lemma block_end w n : 0 < w -> n / w * w <= n < n / w * w + w.
Proof. intros. pose proof (Nat.div_mod n w). pose proof (Nat.mod_upper_bound n w). lia. Qed.

(** A loop over one component of the state. *)
Lemma for_blocks_proj {S1 S2} (pi : S1 -> S2) w n f g fuel : forall i s,
  (forall j s, j + w <= n -> pi (f j s) = g j (pi s)) ->
  (for_blocks fuel w n i g (pi s)).1 = (for_blocks fuel w n i f s).1 /\
  (for_blocks fuel w n i g (pi s)).2 = pi (for_blocks fuel w n i f s).2.
Proof.
  induction fuel as [|fuel IH]; intros i s H; [done|]. simpl. destruct (i + w <=? n) eqn:E; bool_props; [|done].
  rewrite <- H by done. by apply IH.
Qed.

Lemma for_range_proj {S1 S2} (pi : S1 -> S2) i n f g s :
  (forall j s, i <= j < n -> pi (f j s) = g j (pi s)) -> pi (for_range i n f s) = for_range i n g (pi s).
Proof.
  induction n as [|n IH]; intros H; [by rewrite !for_range_nil by lia|].
  destruct (decide (i <= n)); [|by rewrite !for_range_nil by lia].
  rewrite !for_range_snoc by done. rewrite H by lia. f_equal. apply IH. intros. apply H. lia.
Qed.

(** A block that does [w] rounds of [g]: the two loops are one loop. *)
Lemma blocks_unrolled {St} (Q : St -> Prop) w n (block one_ g : nat -> St -> St) s :
  0 < w -> Q s ->
  (forall i s, Q s -> i + w <= n -> block i s = for_range i (i + w) g s /\ Q (block i s)) ->
  (let (i, s) := for_blocks n w n 0 block s in for_range i n one_ s)
  = for_range 0 n (fun i => if i <? n / w * w then g i else one_ i) s.
Proof.
  intros Hw HQ Hb. pose proof (block_end w n Hw).
  destruct (for_blocks_rule (fun i s' => s' = for_range 0 i g s /\ Q s') w n block n 0 s)
    as [E1 [E2 _]]; [done|by exists 0|lia|lia|done| |].
  { intros j s' Hj Hn [-> HQ']. destruct (Hb _ _ HQ' Hn) as [E HQ'']. split; [|done].
    rewrite E. symmetry. apply for_range_split. lia. }
  destruct (for_blocks _ _ _ _ _ _) as [i s']. simpl in *. subst.
  rewrite (for_range_split 0 (n / w * w) n (fun _ => _)) by lia.
  rewrite (for_range_ext 0 (n / w * w) (fun i => if i <? _ then _ else _) g)
    by (intros; by rewrite (proj2 (Nat.ltb_lt _ _)) by lia).
  apply for_range_ext. intros j ? ?. by rewrite (proj2 (Nat.ltb_ge _ _)) by lia.
Qed.

(** ** Arrays *)

Lemma loadu_seq {A} `{Inhabited A} w (l : list A) i :
  i + w <= length l -> loadu w l i = (fun k => l !!! k) <$> seq i w.
Proof.
  intros. unfold loadu. apply list_eq. intros k. rewrite list_lookup_fmap.
  destruct (decide (k < w)).
  - rewrite lookup_take_lt, lookup_drop by done. rewrite lookup_seq_lt by done. simpl.
    apply list_lookup_lookup_total_lt. lia.
  - rewrite lookup_take_ge, lookup_seq_ge by lia. done.
Qed.

Lemma length_loadu {A} w (l : list A) i : i + w <= length l -> length (loadu w l i) = w.
Proof. intros. unfold loadu. rewrite length_take_le; [done|]. rewrite length_drop. lia. Qed.

Lemma zip_with_seq {A C D E} (f : C -> D -> E) (g : A -> C) (h : A -> D) l :
  zip_with f (g <$> l) (h <$> l) = (fun k => f (g k) (h k)) <$> l.
Proof. induction l; simpl; by f_equal. Qed.

Lemma set1_seq {A} w (x : A) i : set1 w x = (fun _ => x) <$> seq i w.
Proof. revert i. induction w as [|w IH]; intros i; [done|]. simpl. f_equal. apply IH. Qed.

(** [f l j] reads no cell that the rounds before [j] have written. *)
Definition stable {A C} (b n : nat) (f : list A -> nat -> C) : Prop :=
  forall j l l', j < n -> length l = length l' -> (forall p, p < b \/ b + j <= p -> l !! p = l' !! p) -> f l j = f l' j.

Lemma for_range_put {A} b (f : list A -> nat -> A) m n l :
  stable b n f -> m <= n ->
  for_range m n (fun j d => <[b + j := f d j]> d) l = list_inserts (b + m) (f l <$> seq m (n - m)) l.
Proof.
  induction n as [|n IH]; intros Hf Hm.
  { rewrite for_range_nil by lia. by replace m with 0 by lia. }
  destruct (decide (m = S n)) as [->|]. { by rewrite for_range_nil, Nat.sub_diag by lia. }
  rewrite for_range_snoc, IH by (lia || (intros ????; apply Hf; lia)).
  replace (S n - m) with ((n - m) + 1) by lia. rewrite seq_app, fmap_app, list_inserts_app_l. simpl.
  rewrite length_fmap, length_seq. replace (n - m + (b + m)) with (b + n) by lia.
  replace (m + (n - m)) with n by lia. f_equal. apply Hf; [lia|apply length_inserts|].
  intros p Hp. destruct (decide (p < b + m)).
  - apply list_lookup_inserts_lt. lia.
  - apply list_lookup_inserts_ge. rewrite length_fmap, length_seq. lia.
Qed.

(** Whether element [j] of [n] is done in a block. *)
Definition blocked (w t n j : nat) : bool := (t <=? n) && (j <? n / w * w).

(** The shape of all loops that write one cell per round, by blocks and then singly. *)
Lemma block_map {A} b w t n (block : nat -> list A -> list A) (f g : list A -> nat -> A) l :
  0 < w -> stable b n f -> stable b n g ->
  (forall i d, length d = length l -> i + w <= n -> block i d = storeu (b + i) (g d <$> seq i w) d) ->
  (if n <? t then for_range 0 n (fun j d => <[b + j := f d j]> d) l
   else let (i, d) := for_blocks n w n 0 block l in for_range i n (fun j d => <[b + j := f d j]> d) d)
  = list_inserts b ((fun j => if blocked w t n j then g l j else f l j) <$> seq 0 n) l.
Proof.
  intros Hw Hf Hg Hb. unfold blocked. destruct (n <? t) eqn:E; bool_props.
  - rewrite for_range_put, Nat.add_0_r, Nat.sub_0_r by (done || lia).
    rewrite (proj2 (Nat.leb_gt t n)) by done. done.
  - rewrite (blocks_unrolled (fun d => length d = length l) w n block _ (fun j d => <[b + j := g d j]> d));
      [|done|done|].
    + rewrite (proj2 (Nat.leb_le t n)) by done. simpl.
      rewrite (for_range_ext 0 n _ (fun j d => <[b + j := if j <? n / w * w then g d j else f d j]> d))
        by (intros; by case_match).
      rewrite (for_range_put b (fun d j => if j <? n / w * w then g d j else f d j)), Nat.add_0_r, Nat.sub_0_r;
        [done| |lia].
      intros j d d' Hj Hd Hp. by destruct (_ <? _); [apply Hg|apply Hf].
    + intros i d Hd Hi. rewrite (Hb i d) by done. split.
      * rewrite (for_range_put b g) by (lia || (intros ????; apply Hg; lia)). by replace (i + w - i) with w by lia.
      * unfold storeu. by rewrite length_inserts.
Qed.

Lemma stable_at {A C} `{Inhabited A} (a : src A) (op : A -> C) n :
  stable 0 n (fun d j => op (at_ a d !!! j)).
Proof.
  intros j d d' Hj Hl Hp. destruct a; simpl; [done|]. rewrite !list_lookup_total_alt, Hp; [done|lia].
Qed.

Lemma stable_at2 {A C} `{Inhabited A} (a b : src A) (op : A -> A -> C) n :
  stable 0 n (fun d j => op (at_ a d !!! j) (at_ b d !!! j)).
Proof.
  intros j d d' Hj Hl Hp. destruct a, b; simpl; [done|..];
    rewrite !list_lookup_total_alt, Hp; (done || lia).
Qed.

Lemma map_cell {A} (f : nat -> A) (l : list A) n j :
  n <= length l -> j < n -> list_inserts 0 (f <$> seq 0 n) l !! j = Some (f j).
Proof.
  intros. rewrite list_lookup_inserts by (rewrite ?length_fmap, ?length_seq; lia).
  by rewrite Nat.sub_0_r, list_lookup_fmap, lookup_seq_lt by done.
Qed.

Lemma at_length {A} (a : src A) (d d' : list A) : length d = length d' -> length (at_ a d) = length (at_ a d').
Proof. by destruct a. Qed.

(** ** Element by element *)

Section elementwise.
Context {A : Type} {N : Num A}.

Lemma vec1_at w t vop opv op a dst n :
  0 < w -> n <= length (at_ a dst) ->
  (forall v, length v = w -> vop v = opv <$> v) ->
  vec1 w t vop op a dst n
  = list_inserts 0 ((fun j => (if blocked w t n j then opv else op) (at_ a dst !!! j)) <$> seq 0 n) dst.
Proof.
  intros Hw Hn Hv. unfold vec1, put.
  rewrite (block_map 0 w t n _ (fun d j => op (at_ a d !!! j)) (fun d j => opv (at_ a d !!! j)));
    [|done|apply stable_at..|].
  - f_equal. apply list_fmap_ext. intros. by case_match.
  - intros i d Hd Hi. simpl. unfold storeu. f_equal.
    rewrite loadu_seq by (rewrite (at_length _ d dst) by done; lia).
    by rewrite Hv, <- list_fmap_compose by (by rewrite length_fmap, length_seq).
Qed.

Lemma vec2_at w t vop opv op a b dst n :
  0 < w -> n <= length (at_ a dst) -> n <= length (at_ b dst) ->
  (forall v v', vop v v' = zip_with opv v v') ->
  vec2 w t vop op a b dst n
  = list_inserts 0 ((fun j => (if blocked w t n j then opv else op) (at_ a dst !!! j) (at_ b dst !!! j))
                      <$> seq 0 n) dst.
Proof.
  intros Hw Ha Hb Hv. unfold vec2, put.
  rewrite (block_map 0 w t n _ (fun d j => op (at_ a d !!! j) (at_ b d !!! j))
             (fun d j => opv (at_ a d !!! j) (at_ b d !!! j)));
    [|done|apply stable_at2..|].
  - f_equal. apply list_fmap_ext. intros. by case_match.
  - intros i d Hd Hi. simpl. unfold storeu. f_equal.
    rewrite !loadu_seq by (rewrite (at_length _ d dst) by done; lia).
    by rewrite Hv, zip_with_seq.
Qed.

Lemma fmap_seq_take (f : A -> A) (l : list A) n :
  n <= length l -> (fun j => f (l !!! j)) <$> seq 0 n = f <$> take n l.
Proof.
  intros. change (fun j => f (l !!! j)) with (f ∘ (fun j => l !!! j)).
  rewrite list_fmap_compose, <- (loadu_seq n l 0) by lia. done.
Qed.

Lemma inserts_front (k l : list A) : length k <= length l -> list_inserts 0 k l = k ++ drop (length k) l.
Proof.
  intros. rewrite <- (take_drop (length k) l) at 1. apply list_inserts_0_r. rewrite length_take. lia.
Qed.

(** Where the lanes do what the scalar code does, the length and the place do not matter. *)
Lemma vec1_map w t vop op a dst n :
  0 < w -> n <= length (at_ a dst) -> n <= length dst ->
  (forall v, length v = w -> vop v = op <$> v) ->
  vec1 w t vop op a dst n = (op <$> take n (at_ a dst)) ++ drop n dst.
Proof.
  intros Hw Ha Hd Hv. rewrite (vec1_at w t vop op) by done.
  rewrite (list_fmap_ext _ (fun j => op (at_ a dst !!! j))) by (intros; by case_match).
  rewrite fmap_seq_take, inserts_front by (done || (rewrite length_fmap, length_take; lia)).
  rewrite length_fmap, length_take. by replace (n `min` _) with n by lia.
Qed.

Lemma vec2_map w t vop op a b dst n :
  0 < w -> n <= length (at_ a dst) -> n <= length (at_ b dst) -> n <= length dst ->
  (forall v v', vop v v' = zip_with op v v') ->
  vec2 w t vop op a b dst n = zip_with op (take n (at_ a dst)) (take n (at_ b dst)) ++ drop n dst.
Proof.
  intros Hw Ha Hb Hd Hv. rewrite (vec2_at w t vop op) by done.
  rewrite (list_fmap_ext _ (fun j => op (at_ a dst !!! j) (at_ b dst !!! j))) by (intros; by case_match).
  rewrite <- zip_with_seq, <- !(loadu_seq n _ 0) by lia. unfold loadu. rewrite !drop_0.
  rewrite inserts_front by (rewrite length_zip_with, !length_take; lia).
  rewrite length_zip_with, !length_take. by replace ((n `min` _) `min` _) with n by lia.
Qed.

Lemma zip_with_set1_r (f : A -> A -> A) x v : zip_with f v (set1 (length v) x) = (fun y => f y x) <$> v.
Proof. unfold set1. apply zip_with_replicate_r. done. Qed.

Lemma zip_with_set1_l (f : A -> A -> A) x v : zip_with f (set1 (length v) x) v = f x <$> v.
Proof. unfold set1. apply zip_with_replicate_l. done. Qed.

Lemma zip_with_self (f : A -> A -> A) v : zip_with f v v = (fun y => f y y) <$> v.
Proof. induction v; simpl; by f_equal. Qed.
End elementwise.

Section doubles.
Context {FU : Fused f64}.

Ltac lanes := intros v Hv; try rewrite <- Hv; rewrite ?zip_with_set1_r, ?zip_with_set1_l, ?zip_with_self; try done.

Lemma sign_lanes (v : list f64) :
  blendv (blendv (set1 (length v) zero) (set1 (length v) one) (zip_with (fun x z => ltb z x) v (set1 (length v) zero)))
    (set1 (length v) (opp one)) (zip_with ltb v (set1 (length v) zero)) = sign_of <$> v.
Proof.
  unfold blendv, set1. induction v as [|x v IH]; [done|]. simpl in *. rewrite IH. f_equal.
  unfold sign_of. simpl. destruct (f64_ltb f64_zero x) eqn:E; [|by destruct (f64_ltb x f64_zero)].
  by rewrite (f64_ltb_asym _ _ E).
Qed.

(** C28: The element-wise operations on [double] arrays compute the scalar operation at
    every element, however many elements go through the registers, and also when the
    destination is one of the sources; the cells past [n] keep their values. *)
Theorem simd_elementwise (a b : src f64) (dst : list f64) (x : f64) (n : nat) :
  n <= length dst -> n <= length (at_ a dst) -> n <= length (at_ b dst) ->
  let map1 f := (f <$> take n (at_ a dst)) ++ drop n dst in
  let map2 f := zip_with f (take n (at_ a dst)) (take n (at_ b dst)) ++ drop n dst in
  simd_add a b dst n = map2 f64_add /\ simd_sub a b dst n = map2 f64_sub /\
  simd_mul a b dst n = map2 f64_mul /\ simd_div a b dst n = map2 f64_div /\
  simd_scale a dst x n = map1 (fun y => y * x)%f64 /\ simd_sqr a dst n = map1 (fun y => y * y)%f64 /\
  simd_reciprocal a dst n = map1 (fun y => 1.0 / y)%f64 /\ simd_abs a dst n = map1 f64_fabs /\
  simd_sign a dst n = map1 sign_of /\ simd_fill dst x n = replicate n x ++ drop n dst.
Proof.
  intros Hd Ha Hb map1 map2. unfold map1, map2.
  split_and!; try (apply vec2_map; (done || lia)); try (apply vec1_map; [lia|done|done|by lanes]).
  - apply vec1_map; [lia|done|done|]. intros v Hv. rewrite <- Hv. apply sign_lanes.
  - unfold simd_fill. rewrite (vec1_map _ _ _ (fun _ => x)); [|lia|done|done|].
    + f_equal. rewrite <- (length_take_le dst n) at 2 by done. apply const_fmap. done.
    + intros v Hv. rewrite <- Hv. symmetry. by apply const_fmap.
Qed.

(** With a NaN in the second operand the answer depends on the position: the scalar
    [fmax] ignores the NaN, the register takes it. *)
Theorem element_max_nan (a b : src f64) (dst : list f64) (n j : nat) :
  n <= length dst -> n <= length (at_ a dst) -> n <= length (at_ b dst) -> j < n ->
  is_nan (at_ b dst !!! j) = true -> is_nan (at_ a dst !!! j) = false ->
  simd_element_max a b dst n !!! j = if blocked 4 8 n j then at_ b dst !!! j else at_ a dst !!! j.
Proof.
  intros Hd Ha Hb Hj Nb Na. unfold simd_element_max. rewrite (vec2_at _ _ _ wide_max) by (done || lia).
  rewrite list_lookup_total_alt, map_cell by lia. simpl. unfold SIMD_THRESHOLD.
  destruct (blocked 4 8 n j).
  - unfold wide_max. destruct (_ <? _)%f64 eqn:E; [|done].
    apply f64_ltb_not_nan in E as [E _]. by rewrite E in Nb.
  - unfold fmax. by rewrite Na, Nb.
Qed.
End doubles.

(** Without the instruction, a product and a sum. *)
Definition plain_fused : Fused f64 :=
  {| fused_add a b c := (a * b + c)%f64; fused_sub a b c := (c - a * b)%f64 |}.

(** Nine numbers, two blocks and one alone, squared in place. *)
Lemma simd_elementwise_witness :
  let l := f64_of_Z <$> [1; 2; 3; 4; 5; 6; 7; 8; 9]%Z in
  @simd_mul _ (@f64_num plain_fused) Same Same l 9 = f64_of_Z <$> [1; 4; 9; 16; 25; 36; 49; 64; 81]%Z /\
  @simd_mul _ (@f64_num plain_fused) Same Same l 9 = zip_with f64_mul (take 9 l) (take 9 l) ++ drop 9 l.
Proof.
  intros l. split; [vm_compute; reflexivity|].
  destruct (@simd_elementwise plain_fused Same Same l f64_zero 9) as (_ & _ & H & _); [vm_compute; lia..|exact H].
Defined.

(** ** Tests *)

Lemma existsb_true {A} (f : A -> bool) l : existsb f l = true <-> exists x, x ∈ l /\ f x = true.
Proof.
  rewrite existsb_exists. split; intros (x & Hx & E); exists x; (split; [|done]); by apply list_elem_of_In.
Qed.

Lemma negb_existsb {A} (f : A -> bool) l : negb (existsb f l) = forallb (fun x => negb (f x)) l.
Proof. induction l as [|x l IH]; [done|]. simpl. by rewrite negb_orb, IH. Qed.

Lemma forallb_ext {A} (f g : A -> bool) l : (forall x, f x = g x) -> forallb f l = forallb g l.
Proof. intros H. induction l as [|x l IH]; [done|]. simpl. by rewrite H, IH. Qed.

Section tests.
Context {A : Type} {N : Num A}.

Lemma elem_of_loadu w (l : list A) i x :
  i + w <= length l -> x ∈ loadu w l i <-> exists k, i <= k < i + w /\ x = l !!! k.
Proof.
  intros. rewrite loadu_seq by done. rewrite list_elem_of_fmap. split.
  - intros (k & -> & Hk). apply elem_of_seq in Hk. by exists k.
  - intros (k & Hk & ->). exists k. split; [done|]. by apply elem_of_seq.
Qed.

(** The blocks and the rest together look at every element once. *)
Lemma blocks_existsb (f g : A -> bool) (l : list A) n :
  n <= length l ->
  existsb (fun b => existsb f (loadu 4 l (4 * b))) (seq 0 (n / 4))
  || existsb (fun i => g (l !!! i)) (seq (n / 4 * 4) (n - n / 4 * 4)) = true <->
  exists j, j < n /\ (if j <? n / 4 * 4 then f else g) (l !!! j) = true.
Proof.
  intros Hn. pose proof (block_end 4 n ltac:(lia)). rewrite orb_true_iff, !existsb_true. split.
  - intros [(b & Hb & (x & Hx & E)%existsb_true)|(i & Hi & E)]; apply elem_of_seq in Hb || apply elem_of_seq in Hi.
    + apply elem_of_loadu in Hx as (k & Hk & ->); [|lia]. exists k. split; [lia|].
      by rewrite (proj2 (Nat.ltb_lt _ _)) by lia.
    + exists i. split; [lia|]. by rewrite (proj2 (Nat.ltb_ge _ _)) by lia.
  - intros (j & Hj & E). destruct (j <? n / 4 * 4) eqn:B; bool_props.
    + left. exists (j / 4). pose proof (block_end 4 j ltac:(lia)). rewrite elem_of_seq. split; [nia|].
      apply existsb_true. exists (l !!! j). split; [|done]. apply elem_of_loadu; [nia|]. exists j. split; [lia|done].
    + right. exists j. split; [apply elem_of_seq; lia|done].
Qed.

Lemma small_existsb (f : A -> bool) (l : list A) n :
  n <= length l -> existsb f (take n l) = true <-> exists j, j < n /\ f (l !!! j) = true.
Proof.
  intros. rewrite existsb_true. change (take n l) with (loadu n l 0). split.
  - intros (x & Hx & E). apply elem_of_loadu in Hx as (k & Hk & ->); [|lia]. exists k. split; [lia|done].
  - intros (j & Hj & E). exists (l !!! j). split; [|done]. apply elem_of_loadu; [lia|]. exists j. split; [lia|done].
Qed.

(** [simd_any] answers whether there is an element that is not zero, where the
    elements of a block are compared with zero and the others with 1e-15. *)
Theorem simd_any_spec (data : list A) n :
  n <= length data ->
  simd_any data n = true <->
  exists j, j < n /\ (if blocked 4 8 n j then neq_oq else big) (data !!! j) = true.
Proof.
  intros Hn. unfold simd_any, blocked, SIMD_THRESHOLD. destruct (n <? 8) eqn:E; bool_props.
  - rewrite small_existsb by done. by rewrite (proj2 (Nat.leb_gt 8 n)) by lia.
  - rewrite blocks_existsb by done. by rewrite (proj2 (Nat.leb_le 8 n)) by lia.
Qed.

Theorem simd_all_spec (data : list A) n :
  0 < n <= length data ->
  simd_all data n = true <->
  forall j, j < n -> (if blocked 4 8 n j then neq_oq (data !!! j) else negb (small (data !!! j))) = true.
Proof.
  intros Hn. unfold simd_all, blocked, SIMD_THRESHOLD. rewrite (proj2 (Nat.eqb_neq n 0)) by lia.
  destruct (n <? 8) eqn:E; bool_props.
  - rewrite (proj2 (Nat.leb_gt 8 n)) by lia. rewrite negb_true_iff, <- not_true_iff_false, small_existsb by lia.
    simpl. setoid_rewrite negb_true_iff. setoid_rewrite <- not_true_iff_false. naive_solver.
  - rewrite (proj2 (Nat.leb_le 8 n)) by lia. cbn [andb].
    pose proof (blocks_existsb (fun x => negb (neq_oq x)) small data n ltac:(lia)) as H.
    set (bs := existsb (fun b => existsb _ _) _ || _) in H.
    replace (_ && _) with (negb bs).
    + rewrite negb_true_iff, <- not_true_iff_false, H. split.
      * intros Hno j Hj. destruct (_ <? _) eqn:B; apply not_false_iff_true; intros F; apply Hno; exists j;
          rewrite B, ?negb_true_iff; (split; [done|]); [done|by apply negb_false_iff].
      * intros Hall (j & Hj & F). specialize (Hall j Hj). destruct (_ <? _); [|rewrite F in Hall; done].
        rewrite Hall in F. done.
    + unfold bs. rewrite negb_orb. f_equal. rewrite negb_existsb. apply forallb_ext. intros b.
      rewrite negb_existsb. apply forallb_ext. intros x. by rewrite negb_involutive.
Qed.
End tests.

(** ** Moving elements *)

Lemma inserts_disjoint {A} (k1 k2 l : list A) : forall i j,
  i + length k1 <= j -> list_inserts i k1 (list_inserts j k2 l) = list_inserts j k2 (list_inserts i k1 l).
Proof.
  induction k1 as [|x k1 IH]; intros i j H; [done|]. simpl in *.
  rewrite IH by lia. apply list_insert_inserts_lt. lia.
Qed.

Lemma inserts_app_back {A} (k1 k2 l : list A) i :
  list_inserts i k1 (list_inserts (length k1 + i) k2 l) = list_inserts i (k1 ++ k2) l.
Proof. rewrite list_inserts_app_l. apply inserts_disjoint. lia. Qed.

Lemma take_loadu {A} w (l : list A) i : take (i + w) l = take i l ++ loadu w l i.
Proof. symmetry. apply take_take_drop. Qed.

Section moving.
Context {A : Type} {N : Num A}.

Lemma reverse_step (l dst : list A) n i w :
  i + w <= n -> n <= length l ->
  storeu (n - i - w) (reverse (loadu w l i)) (list_inserts (n - i) (reverse (take i l)) dst)
  = list_inserts (n - (i + w)) (reverse (take (i + w) l)) dst.
Proof.
  intros Hi Hn. unfold storeu. rewrite take_loadu, reverse_app, <- inserts_app_back.
  rewrite length_reverse, length_loadu by lia.
  by replace (w + (n - (i + w))) with (n - i) by lia; replace (n - (i + w)) with (n - i - w) by lia.
Qed.

Lemma reverse_one (l dst : list A) n i :
  i < n -> n <= length l ->
  put (n - 1 - i) (l !!! i) (list_inserts (n - i) (reverse (take i l)) dst)
  = list_inserts (n - S i) (reverse (take (S i) l)) dst.
Proof.
  intros Hi Hn. pose proof (reverse_step l dst n i 1 ltac:(lia) Hn) as H.
  replace (n - S i) with (n - (i + 1)) by lia. replace (S i) with (i + 1) by lia. rewrite <- H.
  rewrite (loadu_seq 1) by lia. unfold put, storeu. simpl. f_equal. lia.
Qed.

(** [simd_reverse] stores the first [n] elements in the opposite order. *)
Theorem simd_reverse_spec (l dst : list A) n :
  n <= length l -> n <= length dst -> simd_reverse (Apart l) dst n = reverse (take n l) ++ drop n dst.
Proof.
  intros Hl Hd. unfold simd_reverse. cbn [at_].
  set (P i d := d = list_inserts (n - i) (reverse (take i l)) dst).
  assert (forall m d, m <= n -> P m d -> for_range m n (fun i d => put (n - 1 - i) (l !!! i) d) d
                                         = reverse (take n l) ++ drop n dst) as Hrest.
  { intros m d Hm H0. pose proof (for_range_rule P m n (fun i d => put (n - 1 - i) (l !!! i) d) d Hm H0) as H.
    rewrite H.
    - rewrite Nat.sub_diag, inserts_front; rewrite length_reverse, length_take_le by done; done.
    - intros j s Hj ->. apply reverse_one; [lia|done]. }
  assert (P 0 dst) as H0 by (unfold P; by rewrite take_0).
  destruct (n =? 0) eqn:E0; bool_props; [subst; by rewrite take_0|].
  destruct (n <? SIMD_THRESHOLD); [apply Hrest; [lia|done]|].
  destruct (for_blocks_rule P 4 n (fun i d => storeu (n - i - 4) (reverse (loadu 4 l i)) d) n 0 dst)
    as [E1 E2]; [lia|by exists 0|lia|lia|done| |].
  - intros j s _ Hj ->. apply reverse_step; lia.
  - destruct (for_blocks _ _ _ _ _ _) as [i d]. simpl in *. subst i. apply Hrest; [|done].
    apply (block_end 4 n). lia.
Qed.

(** The sum of the first elements, from the left. *)
Definition prefix_sum (l : list A) (j : nat) : A := foldl add zero (take j l).

Lemma prefix_sum_snoc (l : list A) j : j < length l -> prefix_sum l (S j) = add (prefix_sum l j) (l !!! j).
Proof.
  intros. unfold prefix_sum. rewrite (take_S_r _ _ (l !!! j)) by (by apply list_lookup_lookup_total_lt).
  by rewrite foldl_app.
Qed.

(** [simd_cumsum] leaves at every element the sum up to it, added from the left;
    the destination may be the source. *)
Theorem simd_cumsum_spec (a : src A) dst n :
  n <= length dst -> n <= length (at_ a dst) ->
  simd_cumsum a dst n = ((fun j => prefix_sum (at_ a dst) (S j)) <$> seq 0 n) ++ drop n dst.
Proof.
  intros Hd Ha. unfold simd_cumsum. set (body := fun i s => _).
  pose proof (for_range_rule (fun i s => s = (prefix_sum (at_ a dst) i,
    list_inserts 0 ((fun j => prefix_sum (at_ a dst) (S j)) <$> seq 0 i) dst)) 0 n body (zero, dst)) as ->;
    [|lia|done|].
  - simpl. rewrite inserts_front by (by rewrite length_fmap, length_seq). by rewrite length_fmap, length_seq.
  - intros j s Hj ->. unfold body, put.
    assert (at_ a (list_inserts 0 ((fun j => prefix_sum (at_ a dst) (S j)) <$> seq 0 j) dst) !!! j = at_ a dst !!! j)
      as ->.
    { destruct a; simpl; [done|]. rewrite !list_lookup_total_alt, list_lookup_inserts_ge; [done|].
      rewrite length_fmap, length_seq. lia. }
    rewrite prefix_sum_snoc by lia. f_equal.
    rewrite seq_S, fmap_app, list_inserts_app_l, length_fmap, length_seq. simpl.
    rewrite prefix_sum_snoc by lia. by rewrite Nat.add_0_r.
Qed.

(** [simd_diff] leaves the differences of neighbours, in place or not. *)
Theorem simd_diff_spec (a : src A) dst n :
  n <= length dst -> n <= length (at_ a dst) ->
  simd_diff a dst n
  = ((fun j => sub (at_ a dst !!! S j) (at_ a dst !!! j)) <$> seq 0 (n - 1)) ++ drop (n - 1) dst.
Proof.
  intros Hd Ha. unfold simd_diff. destruct (n <=? 1) eqn:E; bool_props.
  { by replace (n - 1) with 0 by lia. }
  assert (stable 0 (n - 1) (fun d j => sub (at_ a d !!! (j + 1)) (at_ a d !!! j))) as Hs.
  { intros j d d' Hj Hl Hp. destruct a; simpl; [done|]. rewrite !list_lookup_total_alt, !Hp; (done || lia). }
  unfold put. rewrite (block_map 0 4 _ _ _ _ (fun d j => sub (at_ a d !!! (j + 1)) (at_ a d !!! j))); [|lia|done..|].
  - rewrite inserts_front by (rewrite length_fmap, length_seq; lia). rewrite length_fmap, length_seq. f_equal.
    apply list_fmap_ext. intros _ j _. rewrite Nat.add_1_r. by case_match.
  - intros i d Hl Hi. simpl. f_equal.
    rewrite (loadu_seq 4 _ i), (loadu_seq 4 _ (i + 1)) by (rewrite (at_length a d dst) by done; lia).
    simpl. by rewrite !Nat.add_1_r.
Qed.
End moving.
