(* ===== verification/SimdReduce.v ===== *)
(** Reductions of [Simd.v]: the lanes of the accumulator together hold an extreme of the
    elements seen so far, or their sum in exact arithmetic; rolling windows, bounding
    boxes and transformations of points. *)

From S2P Require Import Prelude Float64 Simd SimdProofs.
From Stdlib Require Import SpecFloat.
Local Open Scope nat_scope.

(** ** Extremes *)

(** [x] is an element of [l] that no element exceeds in the order [R]. *)
Definition extreme (R : f64 -> f64 -> Prop) (l : list f64) (x : f64) : Prop :=
  x ∈ l /\ forall y, y ∈ l -> R y x.

Definition no_nan (l : list f64) : Prop := Forall (fun x => is_nan x = false) l.

Lemma Forall_elem {A} (P : A -> Prop) l x : Forall P l -> x ∈ l -> P x.
Proof. rewrite Forall_forall. auto. Qed.

Lemma no_nan_elem l x : no_nan l -> x ∈ l -> is_nan x = false.
Proof. intros H. by apply (Forall_elem (fun x => is_nan x = false)). Qed.

Definition le (x y : f64) : Prop := (x <=? y)%f64 = true.
Definition ge (x y : f64) : Prop := (y <=? x)%f64 = true.

(** A choice between two numbers that answers the greater in the order [R]. *)
Definition picks (R : f64 -> f64 -> Prop) (f : f64 -> f64 -> f64) : Prop :=
  forall x y, is_nan x = false -> is_nan y = false -> (f x y = x \/ f x y = y) /\ R x (f x y) /\ R y (f x y).

Lemma picks_le f : (forall x y, is_nan x = false -> is_nan y = false ->
    f x y = (if (x <? y)%f64 then y else x) \/ f x y = (if (y <? x)%f64 then x else y)) -> picks le f.
Proof.
  intros H x y Hx Hy. unfold le. destruct (H x y Hx Hy) as [-> | ->];
    destruct (_ <? _)%f64 eqn:E; split_and!;
    auto using f64_leb_refl, f64_ltb_leb, f64_ltb_false_leb.
Qed.

Lemma picks_ge f : (forall x y, is_nan x = false -> is_nan y = false ->
    f x y = (if (y <? x)%f64 then y else x) \/ f x y = (if (x <? y)%f64 then x else y)) -> picks ge f.
Proof.
  intros H x y Hx Hy. unfold ge. destruct (H x y Hx Hy) as [-> | ->];
    destruct (_ <? _)%f64 eqn:E; split_and!;
    auto using f64_leb_refl, f64_ltb_leb, f64_ltb_false_leb.
Qed.

Lemma raise_picks : picks le raise.
Proof. apply picks_le. auto. Qed.
Lemma wide_max_picks : picks le wide_max.
Proof. apply picks_le. auto. Qed.
Lemma fmax_picks : picks le fmax.
Proof. apply picks_le. intros x y Hx Hy. unfold fmax. rewrite Hx, Hy. auto. Qed.
Lemma lower_picks : picks ge lower.
Proof. apply picks_ge. auto. Qed.
Lemma wide_min_picks : picks ge wide_min.
Proof. apply picks_ge. auto. Qed.
Lemma fmin_picks : picks ge fmin.
Proof. apply picks_ge. intros x y Hx Hy. unfold fmin. rewrite Hx, Hy. auto. Qed.

Section extremes.
Context (R : f64 -> f64 -> Prop) (RT : forall x y z, R x y -> R y z -> R x z).
Context (RR : forall x, is_nan x = false -> R x x).

(** Together the lanes hold an extreme of [l]. *)
Definition lanes_of (l acc : list f64) : Prop :=
  Forall (fun x => x ∈ l) acc /\ forall y, y ∈ l -> exists x, x ∈ acc /\ R y x.

Lemma extreme_step f l x y :
  picks R f -> no_nan (l ++ [y]) -> extreme R l x -> extreme R (l ++ [y]) (f x y).
Proof.
  intros Hf Hn [Hx Hmax]. destruct (Hf x y) as (Hor & Rx & Ry);
    [apply (no_nan_elem (l ++ [y])); set_solver..|]. split.
  - apply elem_of_app. destruct Hor as [-> | ->]; [by left|right; by apply list_elem_of_singleton].
  - intros z [Hz|Hz%list_elem_of_singleton]%elem_of_app; [eapply RT; [by apply Hmax|exact Rx]|rewrite Hz; exact Ry].
Qed.

Lemma extreme_loop f (l : list f64) i n x :
  picks R f -> no_nan (take n l) -> i <= n <= length l -> extreme R (take i l) x ->
  extreme R (take n l) (for_range i n (fun i s => f s (l !!! i)) x).
Proof.
  intros Hf Hn Hi Hx. apply (for_range_rule (fun i s => extreme R (take i l) s)); [lia|done|].
  intros j s Hj Hs. assert (take (S j) l = take j l ++ [l !!! j]) as E.
  { apply take_S_r. apply list_lookup_lookup_total_lt. lia. }
  rewrite E. apply extreme_step; [done| |done]. rewrite <- E.
  unfold no_nan in *. replace (take (S j) l) with (take (S j) (take n l)); [by apply Forall_take|].
  rewrite take_take. f_equal. lia.
Qed.

Lemma lanes_step (wide : f64 -> f64 -> f64) (l acc v : list f64) :
  picks R wide -> no_nan (l ++ v) -> length acc = length v -> lanes_of l acc ->
  lanes_of (l ++ v) (zip_with wide acc v).
Proof.
  intros Hf [Hl Hv]%Forall_app Hlen [Hin Hall].
  assert (forall k x y, acc !! k = Some x -> v !! k = Some y ->
    (wide x y = x \/ wide x y = y) /\ R x (wide x y) /\ R y (wide x y)) as Hp.
  { intros k x y Hx Hy. apply Hf; [|by eapply Forall_lookup_1 in Hv].
    apply (no_nan_elem l); [exact Hl|]. by eapply Forall_lookup_1 in Hin. }
  split.
  - apply Forall_lookup. intros k z (x & y & -> & Hx & Hy)%lookup_zip_with_Some. apply elem_of_app.
    destruct (Hp k x y Hx Hy) as [[-> | ->] _];
      [left; by eapply Forall_lookup_1 in Hin|right; by eapply list_elem_of_lookup_2].
  - intros y [Hy|Hy]%elem_of_app.
    + destruct (Hall y Hy) as (x & [k Hx]%list_elem_of_lookup & Hr).
      destruct (lookup_lt_is_Some_2 v k) as [z Hz]; [rewrite <- Hlen; by eapply lookup_lt_Some|].
      exists (wide x z). split; [|eapply RT; [exact Hr|]; by apply (Hp k)].
      apply (list_elem_of_lookup_2 _ k). rewrite lookup_zip_with, Hx. simpl. by rewrite Hz.
    + apply list_elem_of_lookup in Hy as [k Hy].
      destruct (lookup_lt_is_Some_2 acc k) as [x Hx]; [rewrite Hlen; by eapply lookup_lt_Some|].
      exists (wide x y). split; [|by apply (Hp k)].
      apply (list_elem_of_lookup_2 _ k). rewrite lookup_zip_with, Hx. simpl. by rewrite Hy.
Qed.

(** A register that starts with a number [e] that every element replaces. *)
Lemma lanes_first (wide : f64 -> f64 -> f64) (e : f64) (v : list f64) :
  (forall y, y ∈ v -> wide e y = y) -> no_nan v -> lanes_of v (zip_with wide (set1 (length v) e) v).
Proof.
  intros He Hn. unfold set1. rewrite zip_with_replicate_l by done.
  replace (wide e <$> v) with v.
  - split; [by apply Forall_forall|]. intros y Hy. exists y. split; [done|]. apply RR.
    by eapply no_nan_elem.
  - rewrite <- (list_fmap_id v) at 1. apply list_fmap_ext. intros k x Hx. symmetry.
    apply He. by eapply list_elem_of_lookup_2.
Qed.

Lemma lanes_extreme l acc x : no_nan l -> lanes_of l acc -> extreme R acc x -> extreme R l x.
Proof.
  intros Hn [Hin Hall] [Hx Hmax]. split; [exact (Forall_elem _ _ _ Hin Hx)|].
  intros y Hy. destruct (Hall y Hy) as (z & Hz & Hr). eapply RT; [exact Hr|by apply Hmax].
Qed.

Lemma lanes_no_nan l acc : no_nan l -> lanes_of l acc -> no_nan acc.
Proof.
  intros Hn [Hin _]. eapply Forall_impl; [exact Hin|]. intros x Hx. by eapply no_nan_elem.
Qed.

Lemma extreme_head (l : list f64) n : 0 < n <= length l -> no_nan (take n l) -> extreme R (take 1 l) (l !!! 0).
Proof.
  intros Hn Hnan. destruct l as [|x l]; simpl in *; [lia|]. rewrite take_0. split; [by left|].
  intros y Hy. apply list_elem_of_singleton in Hy as ->. apply RR.
  destruct n; [lia|]. simpl in Hnan. by inversion Hnan.
Qed.

(** Two levels of [fmax] on four lanes. *)
Lemma pick_four f acc :
  picks R f -> no_nan acc -> length acc = 4 ->
  extreme R acc (f (f (acc !!! 0) (acc !!! 1)) (f (acc !!! 2) (acc !!! 3))).
Proof.
  intros Hf Hn Hlen. destruct acc as [|a [|b [|c [|d [|]]]]]; try discriminate. simpl.
  repeat (apply Forall_cons in Hn as [? Hn]).
  destruct (Hf a b) as (O1 & A1 & B1), (Hf c d) as (O2 & C2 & D2); [done..|].
  destruct (Hf (f a b) (f c d)) as (O3 & A3 & C3);
    [by destruct O1 as [-> | ->]|by destruct O2 as [-> | ->]|].
  split.
  - set_unfold. destruct O3 as [-> | ->]; [destruct O1 as [-> | ->]|destruct O2 as [-> | ->]]; auto.
  - intros y Hy. set_unfold. repeat destruct Hy as [->|Hy]; try done; eauto.
Qed.

Lemma prefix_no_nan (l : list f64) i n : i <= n -> no_nan (take n l) -> no_nan (take i l).
Proof.
  intros Hi H. unfold no_nan in *. replace (take i l) with (take i (take n l)); [by apply Forall_take|].
  rewrite take_take. f_equal. lia.
Qed.

(** The blocks from [i] on. *)
Lemma lanes_loop wide w (l : list f64) n fuel i acc :
  0 < w -> Nat.divide w i -> i <= n <= length l -> n <= i + fuel -> picks R wide -> no_nan (take n l) ->
  length acc = w -> lanes_of (take i l) acc ->
  let r := for_blocks fuel w n i (fun i acc => zip_with wide acc (loadu w l i)) acc in
  r.1 = n / w * w /\ length r.2 = w /\ lanes_of (take (n / w * w) l) r.2.
Proof.
  intros Hw Hd Hi Hf Hp Hn Hlen Ha r. unfold r.
  apply (for_blocks_rule (fun i acc => length acc = w /\ lanes_of (take i l) acc)); [done|done|lia|lia|done|].
  intros j s Hj Hjn [Hl Hs]. rewrite length_zip_with, length_loadu by lia. split; [lia|].
  rewrite take_loadu. apply lanes_step; [done| |by rewrite length_loadu by lia|done].
  rewrite <- take_loadu. by apply (prefix_no_nan l _ n).
Qed.

(** The blocks from 0 on. *)
Lemma lanes_loop0 wide w e (l : list f64) n :
  0 < w <= n -> n <= length l -> picks R wide -> no_nan (take n l) ->
  (forall y, y ∈ take n l -> wide e y = y) ->
  let r := for_blocks n w n 0 (fun i acc => zip_with wide acc (loadu w l i)) (set1 w e) in
  r.1 = n / w * w /\ length r.2 = w /\ lanes_of (take (n / w * w) l) r.2.
Proof.
  intros Hw Hl Hp Hn He r. unfold r. pose proof (block_end w n ltac:(lia)).
  destruct (for_blocks_rule (fun i acc => length acc = w /\
    ((i = 0 /\ acc = set1 w e) \/ (0 < i /\ lanes_of (take i l) acc))) w n
    (fun i acc => zip_with wide acc (loadu w l i)) n 0 (set1 w e)) as (E1 & E2 & E3); [lia|by exists 0|lia|lia| | |].
  - unfold set1. rewrite length_replicate. auto.
  - intros j s Hj Hjn [Hs Hor]. rewrite length_zip_with, length_loadu by lia. split; [lia|]. right. split; [lia|].
    assert (no_nan (take (j + w) l)) as Hnj by (by apply (prefix_no_nan l _ n)).
    destruct Hor as [[-> ->]|[_ Ha]].
    + change (take (0 + w) l) with (loadu w l 0). pose proof (lanes_first wide e (loadu w l 0)) as H0.
      rewrite length_loadu in H0 by lia. apply H0; [|done]. intros y Hy. apply He.
      apply list_elem_of_lookup in Hy as [k Hk]. apply (list_elem_of_lookup_2 _ k).
      apply lookup_take_Some in Hk as [Hk Hlt]. rewrite drop_0 in Hk. apply lookup_take_Some. split; [done|lia].
    + rewrite take_loadu in *. by apply lanes_step; rewrite ?length_loadu by lia.
  - split; [done|]. split; [done|]. destruct E3 as [[E3 _]|[_ E3]]; [nia|done].
Qed.

(** [simd_max] and [simd_min] once the functions are known. *)
Lemma simd_extreme f wide hor e (l : list f64) n :
  picks R f -> picks R wide -> picks R hor -> (forall y, is_nan y = false -> wide e y = y) ->
  0 < n <= length l -> no_nan (take n l) ->
  extreme R (take n l)
    (if n =? 0 then f64_zero else
     if n <? SIMD_THRESHOLD then for_range 1 n (fun i s => f s (l !!! i)) (l !!! 0) else
     let (i, acc) := for_blocks n 4 n 0 (fun i acc => zip_with wide acc (loadu 4 l i)) (set1 4 e) in
     for_range i n (fun i s => f s (l !!! i))
       (hor (hor (acc !!! 0) (acc !!! 1)) (hor (acc !!! 2) (acc !!! 3)))).
Proof.
  intros Hf Hw Hh He Hn Hnan. rewrite (proj2 (Nat.eqb_neq n 0)) by lia.
  unfold SIMD_THRESHOLD. destruct (n <? 8) eqn:E; bool_props.
  - apply extreme_loop; [done..|lia|]. by apply (extreme_head l n).
  - destruct (lanes_loop0 wide 4 e l n) as (E1 & E2 & E3); [lia|lia|done|done| |].
    { intros y Hy. apply He. by eapply no_nan_elem. }
    destruct (for_blocks _ _ _ _ _ _) as [i acc]. cbn [fst snd] in E1, E2, E3. subst i.
    pose proof (block_end 4 n ltac:(lia)).
    assert (no_nan (take (n / 4 * 4) l)) by (apply (prefix_no_nan l _ n); [lia|done]).
    apply extreme_loop; [done..|lia|].
    eapply lanes_extreme; [done..|]. apply pick_four; [done|by eapply lanes_no_nan|done].
Qed.

(** The same with the first block in the accumulator and a loop over its lanes. *)
Lemma simd_extreme_f32 f wide (l : list f64) n :
  picks R f -> picks R wide -> 0 < n <= length l -> no_nan (take n l) ->
  extreme R (take n l)
    (if n =? 0 then f64_zero else
     if n <? SIMD_THRESHOLD then for_range 1 n (fun i s => f s (l !!! i)) (l !!! 0) else
     let (i, acc) := for_blocks n 8 n 8 (fun i acc => zip_with wide acc (loadu 8 l i)) (loadu 8 l 0) in
     for_range i n (fun i s => f s (l !!! i))
       (for_range 1 8 (fun k s => f s (acc !!! k)) (acc !!! 0))).
Proof.
  intros Hf Hw Hn Hnan. rewrite (proj2 (Nat.eqb_neq n 0)) by lia.
  unfold SIMD_THRESHOLD. destruct (n <? 8) eqn:E; bool_props.
  - apply extreme_loop; [done..|lia|]. by apply (extreme_head l n).
  - destruct (lanes_loop wide 8 l n n 8 (loadu 8 l 0)) as (E1 & E2 & E3);
      [lia|by exists 1|lia|lia|done|done|by apply length_loadu; lia| |].
    { split; [by apply Forall_forall|]. intros y Hy. exists y. split; [done|]. apply RR.
      apply (no_nan_elem (take 8 l)); [by apply (prefix_no_nan l _ n)|done]. }
    destruct (for_blocks _ _ _ _ _ _) as [i acc]. cbn [fst snd] in E1, E2, E3. subst i.
    pose proof (block_end 8 n ltac:(lia)).
    assert (no_nan (take (n / 8 * 8) l)) as Hn8 by (apply (prefix_no_nan l _ n); [lia|done]).
    apply extreme_loop; [done..|lia|]. eapply lanes_extreme; [done..|].
    assert (acc = take 8 acc) as Ea by (by rewrite firstn_all2 by lia).
    assert (no_nan (take 8 acc)) by (rewrite <- Ea; by eapply lanes_no_nan).
    rewrite Ea at 1. apply extreme_loop; [done..|lia|]. apply (extreme_head acc 8); [lia|done].
Qed.
End extremes.

Lemma le_trans x y z : le x y -> le y z -> le x z.
Proof. apply f64_leb_trans. Qed.
Lemma ge_trans x y z : ge x y -> ge y z -> ge x z.
Proof. unfold ge. eauto using f64_leb_trans. Qed.
Lemma le_refl x : is_nan x = false -> le x x.
Proof. apply f64_leb_refl. Qed.
Lemma ge_refl x : is_nan x = false -> ge x x.
Proof. apply f64_leb_refl. Qed.

Create HintDb extremes.
#[export] Hint Resolve raise_picks wide_max_picks fmax_picks lower_picks wide_min_picks fmin_picks
  le_trans ge_trans le_refl ge_refl : extremes.

Lemma wide_max_bottom y : is_nan y = false -> wide_max (- INFINITY)%f64 y = y.
Proof.
  intros Hy. unfold wide_max. destruct (y <? - INFINITY)%f64 eqn:E; [|done].
  by destruct y as [[]|[]| |[]].
Qed.

Lemma wide_min_top y : is_nan y = false -> wide_min INFINITY y = y.
Proof.
  intros Hy. unfold wide_min. destruct (INFINITY <? y)%f64 eqn:E; [|done].
  by destruct y as [[]|[]| |[]].
Qed.

(** Of numbers without a NaN, [simd_max] answers one that none exceeds and
    [simd_min] one that exceeds none, for [double] and for [float] arrays of any length. *)
Theorem simd_max_min_spec (arr : list f64) n :
  0 < n <= length arr -> no_nan (take n arr) ->
  extreme le (take n arr) (simd_max arr n) /\ extreme ge (take n arr) (simd_min arr n) /\
  extreme le (take n arr) (simd_max_f32 arr n) /\ extreme ge (take n arr) (simd_min_f32 arr n).
Proof.
  intros Hn Hnan. split_and!.
  - apply (simd_extreme le le_trans le_refl raise wide_max fmax); auto using wide_max_bottom with extremes.
  - apply (simd_extreme ge ge_trans ge_refl lower wide_min fmin); auto using wide_min_top with extremes.
  - apply (simd_extreme_f32 le le_trans le_refl raise wide_max); auto with extremes.
  - apply (simd_extreme_f32 ge ge_trans ge_refl lower wide_min); auto with extremes.
Qed.

(** A NaN is found or overlooked according to the length of the array. *)
Example max_with_nan :
  let l n := S754_nan :: replicate n f64_one in
  simd_max (l 6) 7 = S754_nan /\ simd_max (l 7) 8 = f64_one.
Proof. split; vm_compute; reflexivity. Qed.

(** ** Rolling windows *)

Definition window (l : list f64) (win i : nat) : list f64 :=
  take (S i `min` win) (drop (S i - win) l).

Lemma roll_at pick (l dst : list f64) n win :
  1 < win -> n <= length dst ->
  roll pick (Apart l) dst n win
  = list_inserts 0 ((fun i => pick (drop (S i - win) l) (S i `min` win)) <$> seq 0 n) dst.
Proof.
  intros Hw Hn. unfold roll. rewrite (proj2 (Nat.leb_gt win 1)) by done. cbn [orb at_].
  destruct (n =? 0) eqn:E; bool_props; [by subst|]. unfold put.
  rewrite (for_range_put 0 (fun _ i =>
    pick (drop (if win - 1 <=? i then i + 1 - win else 0) l) (i - (if win - 1 <=? i then i + 1 - win else 0) + 1)));
    [|done|lia].
  rewrite Nat.sub_0_r. f_equal. apply list_fmap_ext. intros _ i _.
  destruct (win - 1 <=? i) eqn:B; bool_props; (f_equal; [f_equal|]; lia).
Qed.

(** In another array, [simd_roll_max] and [simd_roll_min] leave at every element the
    extreme of the window of [win] elements that ends there, the shorter ones at the start included. *)
Theorem simd_roll_spec (l dst : list f64) n win i :
  1 < win -> i < n -> n <= length l -> n <= length dst -> no_nan (take n l) ->
  extreme le (window l win i) (simd_roll_max (Apart l) dst n win !!! i) /\
  extreme ge (window l win i) (simd_roll_min (Apart l) dst n win !!! i).
Proof.
  intros Hw Hi Hl Hd Hnan.
  assert (0 < S i `min` win <= length (drop (S i - win) l)) as Hlen by (rewrite length_drop; lia).
  assert (no_nan (take (S i `min` win) (drop (S i - win) l))) as Hwin.
  { apply Forall_forall. intros x Hx. apply (no_nan_elem (take n l)); [done|].
    apply list_elem_of_lookup in Hx as [k Hk]. apply lookup_take_Some in Hk as [Hk Hlt].
    rewrite lookup_drop in Hk. apply (list_elem_of_lookup_2 _ (S i - win + k)).
    apply lookup_take_Some. split; [done|lia]. }
  destruct (simd_max_min_spec (drop (S i - win) l) (S i `min` win) Hlen Hwin) as (Hmax & Hmin & _).
  unfold window, simd_roll_max, simd_roll_min. rewrite !roll_at by done.
  by rewrite !list_lookup_total_alt, !map_cell by done.
Qed.

(** In place it reads what it has written: the greatest so far, not that of the window. *)
Example roll_max_in_place :
  let l := f64_of_Z <$> [9; 1; 2; 3]%Z in
  simd_roll_max (Apart l) l 4 2 = f64_of_Z <$> [9; 9; 2; 3]%Z /\
  simd_roll_max Same l 4 2 = f64_of_Z <$> [9; 9; 9; 9]%Z.
Proof. split; vm_compute; reflexivity. Qed.

(** ** Points of the plane *)

Section points.
Context {A : Type} {N : Num A}.

Definition pairs (p : nat -> A * A) (i n : nat) : list A := seq i (n - i) ≫= fun j => [(p j).1; (p j).2].

Lemma length_pairs p i n : length (pairs p i n) = 2 * (n - i).
Proof.
  unfold pairs. generalize (n - i). clear n. intros k. revert i.
  induction k as [|k IH]; intros i; [done|]. simpl. rewrite IH. lia.
Qed.

Lemma pairs_app p i k n : i <= k <= n -> pairs p i n = pairs p i k ++ pairs p k n.
Proof.
  intros. unfold pairs. replace (n - i) with ((k - i) + (n - k)) by lia.
  rewrite seq_app, bind_app. do 2 f_equal. f_equal. lia.
Qed.

Lemma pairs_ext p q i n : (forall j, i <= j < n -> p j = q j) -> pairs p i n = pairs q i n.
Proof.
  intros H. unfold pairs. assert (forall k i, (forall j, i <= j < i + k -> p j = q j) ->
    seq i k ≫= (fun j => [(p j).1; (p j).2]) = seq i k ≫= (fun j => [(q j).1; (q j).2])) as Hk.
  - intros k. induction k as [|k IH]; intros i' Hi; [done|]. simpl. rewrite (Hi i') by lia.
    do 2 f_equal. apply IH. intros. apply Hi. lia.
  - apply Hk. intros. apply H. lia.
Qed.

(** The affine image of a point, as the registers and as the scalar code round it. *)
Definition wide_image (m : list A) (x y : A) : A * A :=
  (fmadd (m !!! 0) x (fmadd (m !!! 1) y (m !!! 2)), fmadd (m !!! 3) x (fmadd (m !!! 4) y (m !!! 5))).
Definition image (m : list A) (x y : A) : A * A :=
  (add (add (mul (m !!! 0) x) (mul (m !!! 1) y)) (m !!! 2), add (add (mul (m !!! 3) x) (mul (m !!! 4) y)) (m !!! 5)).

Definition images (m l : list A) (n j : nat) : A * A :=
  (if blocked 8 0 n j then wide_image else image) m (l !!! (j * 2)) (l !!! (j * 2 + 1)).

Lemma loadu_8 (l : list A) i :
  i + 8 <= length l ->
  loadu 8 l i = [l !!! i; l !!! (i + 1); l !!! (i + 2); l !!! (i + 3);
                 l !!! (i + 4); l !!! (i + 5); l !!! (i + 6); l !!! (i + 7)].
Proof.
  intros. rewrite loadu_seq by done. simpl.
  by rewrite !(Nat.add_succ_r i), Nat.add_0_r.
Qed.

(** The shuffles bring the coordinates in order, and back. *)
Lemma deinterleave_order x0 y0 x1 y1 x2 y2 x3 y3 x4 y4 x5 y5 x6 y6 x7 y7 :
  deinterleave [x0; y0; x1; y1; x2; y2; x3; y3] [x4; y4; x5; y5; x6; y6; x7; y7]
  = ([x0; x1; x2; x3; x4; x5; x6; x7], [y0; y1; y2; y3; y4; y5; y6; y7]) :> (list A * list A).
Proof. reflexivity. Qed.

Lemma transform_block_image (m l out : list A) i :
  i * 2 + 16 <= length l ->
  transform_block m i l out
  = list_inserts (i * 2) (pairs (fun j => wide_image m (l !!! (j * 2)) (l !!! (j * 2 + 1))) i (i + 8)) out.
Proof.
  intros Hl. unfold transform_block. rewrite !loadu_8 by lia.
  rewrite <- !Nat.add_assoc. cbn [Nat.add]. rewrite deinterleave_order.
  unfold pairs. replace (i + 8 - i) with 8 by lia. cbn [seq mbind list_bind app fst snd].
  replace (S i * 2) with (i * 2 + 2) by lia. replace (S (S i) * 2) with (i * 2 + 4) by lia.
  replace (S (S (S i)) * 2) with (i * 2 + 6) by lia. replace (S (S (S (S i))) * 2) with (i * 2 + 8) by lia.
  replace (S (S (S (S (S i)))) * 2) with (i * 2 + 10) by lia.
  replace (S (S (S (S (S (S i))))) * 2) with (i * 2 + 12) by lia.
  replace (S (S (S (S (S (S (S i)))))) * 2) with (i * 2 + 14) by lia.
  rewrite <- !Nat.add_assoc. cbn [Nat.add]. unfold storeu, wide_image.
  match goal with |- _ = list_inserts _ ?k _ => rewrite <- (take_drop 8 k) end.
  rewrite list_inserts_app_l. cbn [take drop length]. by rewrite (Nat.add_comm (i * 2) 8).
Qed.

(** [simd_transform_points_f32] stores the affine image of each of the [n] points at
    its place, in place or not: the shuffles of a block keep the order of the points. *)
Theorem simd_transform_points_spec (m : list A) (a : src A) (out : list A) n :
  2 * n <= length out -> 2 * n <= length (at_ a out) ->
  simd_transform_points_f32 m a out n
  = pairs (images m (at_ a out) n) 0 n ++ drop (2 * n) out.
Proof.
  intros Ho Ha. set (img := images m (at_ a out) n).
  set (P i o := o = list_inserts 0 (pairs img 0 i) out).
  assert (forall i o k, P i o -> i * 2 <= k -> at_ a o !!! k = at_ a out !!! k) as Hread.
  { intros i o k -> Hk. destruct a; simpl; [done|]. rewrite !list_lookup_total_alt, list_lookup_inserts_ge; [done|].
    rewrite length_pairs. lia. }
  assert (forall i o k, P i o -> i <= k -> list_inserts (i * 2) (pairs img i k) o = list_inserts 0 (pairs img 0 k) out)
    as Happ.
  { intros i o k -> Hk. rewrite (pairs_app img 0 i k) by lia. rewrite list_inserts_app_l, length_pairs.
    f_equal. lia. }
  assert (P n (simd_transform_points_f32 m a out n)) as ->.
  - unfold simd_transform_points_f32. destruct (n =? 0) eqn:E; bool_props; [by subst|].
    pose proof (block_end 8 n ltac:(lia)) as Hend.
    destruct (for_blocks_rule (fun i o => Nat.divide 8 i /\ P i o) 8 n
      (fun i out => transform_block m i (at_ a out) out) n 0 out) as [E1 [_ E2]];
      [lia|by exists 0|lia|lia|split; [by exists 0|done]| |].
    + intros i o _ Hi [Hdiv Hio]. split; [by apply Nat.divide_add_r|].
      assert (i + 8 <= n / 8 * 8) by (destruct Hdiv as [k ->]; pose proof (Nat.div_le_lower_bound n 8 (S k)); lia).
      assert (length o = length out) as Hlo by (rewrite Hio; apply length_inserts).
      rewrite transform_block_image by (rewrite (at_length a o out) by done; lia).
      unfold P. rewrite <- (Happ i o (i + 8) Hio) by lia. f_equal. apply pairs_ext. intros j Hj.
      unfold img, images, blocked. cbn [Nat.leb andb]. rewrite (proj2 (Nat.ltb_lt _ _)) by lia.
      by rewrite !(Hread i o) by (done || lia).
    + destruct (for_blocks _ _ _ _ _ _) as [i o]. cbn [fst snd] in E1, E2. subst i.
      apply (for_range_rule P); [lia|done|]. intros j o' Hj Hio.
      unfold P. rewrite <- (Happ j o' (S j) Hio) by lia. unfold pairs, transform_point, put.
      replace (S j - j) with 1 by lia. cbn [seq mbind list_bind app list_inserts].
      unfold img, images, blocked. cbn [Nat.leb andb]. rewrite (proj2 (Nat.ltb_ge _ _)) by lia.
      rewrite !(Hread j o') by (done || lia). rewrite Nat.add_1_r. apply list_insert_insert_ne. lia.
  - rewrite inserts_front by (rewrite length_pairs; lia). rewrite length_pairs. do 2 f_equal. lia.
Qed.
End points.

(** Nine points moved by (5, 7), in place. *)
Lemma simd_transform_points_spec_witness :
  let m := f64_of_Z <$> [1; 0; 5; 0; 1; 7]%Z in
  let out := f64_of_Z <$> [1; 10; 2; 20; 3; 30; 4; 40; 5; 50; 6; 60; 7; 70; 8; 80; 9; 90]%Z in
  @simd_transform_points_f32 _ (@f64_num plain_fused) m Same out 9
  = f64_of_Z <$> [6; 17; 7; 27; 8; 37; 9; 47; 10; 57; 11; 67; 12; 77; 13; 87; 14; 97]%Z.
Proof.
  intros m out. rewrite (@simd_transform_points_spec _ (@f64_num plain_fused)) by (vm_compute; lia).
  vm_compute. reflexivity.
Defined.

(** ** The bounding box *)

Section coordinate.
Context (R : f64 -> f64 -> Prop) (RT : forall x y z, R x y -> R y z -> R x z).
Context (RR : forall x, is_nan x = false -> R x x).
Context (f wide : f64 -> f64 -> f64) (Hf : picks R f) (Hwide : picks R wide).

(** Running over [l] from [s], inside [L]. *)
Lemma cover_loop (L l : list f64) i n s :
  no_nan L -> s ∈ L -> (forall k, i <= k < n -> l !!! k ∈ L) -> i <= n <= length l ->
  (forall y, y ∈ take i l -> R y s) ->
  let r := for_range i n (fun k s => f s (l !!! k)) s in
  r ∈ L /\ forall y, y ∈ take n l -> R y r.
Proof.
  intros HL Hs Hin Hi Hall r. unfold r.
  apply (for_range_rule (fun k s => s ∈ L /\ forall y, y ∈ take k l -> R y s)); [lia|done|].
  intros j x Hj [Hx Hmax]. destruct (Hf x (l !!! j)) as (Hor & Rx & Ry); [by apply (no_nan_elem L)|..].
  { apply (no_nan_elem L); [done|]. by apply Hin. }
  split; [destruct Hor as [-> | ->]; [done|by apply Hin]|].
  rewrite (take_S_r _ _ (l !!! j)) by (apply list_lookup_lookup_total_lt; lia).
  intros y [Hy|Hy]%elem_of_app; [eapply RT; [by apply Hmax|done]|].
  apply list_elem_of_singleton in Hy as ->. done.
Qed.

Definition coordinate (e : f64) (l : list f64) (n : nat) : f64 :=
  let '(i, s) :=
    if 8 <=? n then
      let '(i, acc) := for_blocks n 8 n 0 (fun i acc => zip_with wide acc (loadu 8 l i)) (set1 8 e) in
      (i, for_range 0 8 (fun k s => f s (acc !!! k)) (l !!! 0))
    else (0, l !!! 0) in
  for_range i n (fun i s => f s (l !!! i)) s.

Lemma coordinate_extreme e (l : list f64) n :
  0 < n <= length l -> no_nan (take n l) -> (forall y, y ∈ take n l -> wide e y = y) ->
  extreme R (take n l) (coordinate e l n).
Proof.
  intros Hn Hnan He. unfold coordinate.
  assert (forall k, k < n -> l !!! k ∈ take n l) as Hin.
  { intros k Hk. apply (list_elem_of_lookup_2 _ k), lookup_take_Some. split; [|done].
    apply list_lookup_lookup_total_lt. lia. }
  destruct (8 <=? n) eqn:E; bool_props.
  - destruct (lanes_loop0 R RT RR wide 8 e l n) as (E1 & E2 & E3 & E4); [lia|lia|done|done|done|].
    destruct (for_blocks _ _ _ _ _ _) as [i acc]. cbn [fst snd] in E1, E2, E3, E4. subst i.
    pose proof (block_end 8 n ltac:(lia)) as Hend.
    destruct (cover_loop (take n l) acc 0 8 (l !!! 0)) as [H1 H2]; [done|by apply Hin; lia| |lia| |].
    + intros k Hk. assert (acc !!! k ∈ take (n / 8 * 8) l) as Hk'.
      { apply (Forall_elem _ _ _ E3). apply list_elem_of_lookup_total_2. lia. }
      apply list_elem_of_lookup in Hk' as [p [Hp Hlt]%lookup_take_Some].
      apply (list_elem_of_lookup_2 _ p), lookup_take_Some. split; [done|lia].
    + intros y Hy. by apply not_elem_of_nil in Hy.
    + apply cover_loop; [done|done|by intros; apply Hin; lia|lia|].
      intros y Hy. destruct (E4 y Hy) as (x & Hx & Rx). eapply RT; [exact Rx|]. apply H2.
      by rewrite firstn_all2 by lia.
  - apply cover_loop; [done|apply Hin; lia|by intros; apply Hin; lia|lia|].
    intros y Hy. by apply not_elem_of_nil in Hy.
Qed.
End coordinate.

(** Every coordinate of a box is a loop of its own. *)
Definition abscissas (points : list f32) (n : nat) : list f32 := (fun j => points !!! (j * 2)) <$> seq 0 n.
Definition ordinates (points : list f32) (n : nat) : list f32 := (fun j => points !!! (j * 2 + 1)) <$> seq 0 n.

Lemma coordinate_cell (g : nat -> f32) n j : j < n -> (g <$> seq 0 n) !!! j = g j.
Proof. intros. rewrite list_lookup_total_alt, list_lookup_fmap, lookup_seq_lt by done. done. Qed.

Lemma deinterleave_points (points : list f32) n i :
  i + 8 <= n -> 2 * n <= length points ->
  deinterleave (loadu 8 points (i * 2)) (loadu 8 points (i * 2 + 8))
  = (loadu 8 (abscissas points n) i, loadu 8 (ordinates points n) i).
Proof.
  intros Hi Hn. rewrite (loadu_seq 8 (abscissas _ _)), (loadu_seq 8 (ordinates _ _))
    by (unfold abscissas, ordinates; rewrite length_fmap, length_seq; lia).
  rewrite (loadu_seq 8 points (i * 2)), (loadu_seq 8 points (i * 2 + 8)) by lia.
  unfold abscissas, ordinates. cbn [seq fmap list_fmap].
  rewrite !coordinate_cell by lia. unfold deinterleave, shuffle_88, shuffle_DD, shuffle_half, permute_D8, loadu. simpl.
  repeat (f_equal; try lia).
Qed.

Lemma aabb_coordinate (pi : box -> f64) (pw : wide_box -> list f64) (f wide : f64 -> f64 -> f64) (e : f64)
    (points : list f32) (l : list f64) n :
  0 < n ->
  pi (Box (points !!! 0) (points !!! 1) (points !!! 0) (points !!! 1)) = l !!! 0 ->
  pw (Wide (set1 8 huge) (set1 8 huge) (set1 8 (- huge)%f64) (set1 8 (- huge)%f64)) = set1 8 e ->
  (forall i v, i + 8 <= n -> pw (aabb_block points i v) = zip_with wide (pw v) (loadu 8 l i)) ->
  (forall v k b, pi (aabb_lane v k b) = f (pi b) (pw v !!! k)) ->
  (forall i b, i < n -> pi (box_add b (points !!! (i * 2)) (points !!! (i * 2 + 1))) = f (pi b) (l !!! i)) ->
  pi (simd_aabb_points_f32 points n) = coordinate f wide e l n.
Proof.
  intros Hn H0 He Hb Hl Ha. unfold simd_aabb_points_f32, coordinate. rewrite (proj2 (Nat.eqb_neq n 0)) by lia.
  destruct (8 <=? n).
  - destruct (for_blocks_proj pw 8 n (aabb_block points) (fun i acc => zip_with wide acc (loadu 8 l i)) n 0
      (Wide (set1 8 huge) (set1 8 huge) (set1 8 (- huge)%f64) (set1 8 (- huge)%f64)) Hb) as [E1 E2].
    rewrite He in E1, E2.
    destruct (for_blocks _ _ _ _ (aabb_block points) _) as [i v], (for_blocks _ _ _ _ _ (set1 8 e)) as [i' acc].
    cbn [fst snd] in E1, E2. subst.
    rewrite (for_range_proj pi _ _ _ (fun i s => f s (l !!! i))) by (intros; apply Ha; lia).
    rewrite (for_range_proj pi _ _ _ (fun k s => f s (pw v !!! k))) by (intros; apply Hl). by rewrite H0.
  - rewrite (for_range_proj pi _ _ _ (fun i s => f s (l !!! i))) by (intros; apply Ha; lia). by rewrite H0.
Qed.

Lemma aabb_coordinates (points : list f32) n :
  0 < n -> 2 * n <= length points ->
  let xs := abscissas points n in
  let ys := ordinates points n in
  simd_aabb_points_f32 points n
  = Box (coordinate lower wide_min huge xs n) (coordinate lower wide_min huge ys n)
        (coordinate raise wide_max (- huge)%f64 xs n) (coordinate raise wide_max (- huge)%f64 ys n).
Proof.
  intros Hn Hp xs ys.
  assert (forall i, i < n -> xs !!! i = points !!! (i * 2)) as Hx
    by (intros; unfold xs, abscissas; by rewrite coordinate_cell).
  assert (forall i, i < n -> ys !!! i = points !!! (i * 2 + 1)) as Hy
    by (intros; unfold ys, ordinates; by rewrite coordinate_cell).
  rewrite <- (aabb_coordinate min_x wmin_x _ _ _ points), <- (aabb_coordinate min_y wmin_y _ _ _ points),
    <- (aabb_coordinate max_x wmax_x _ _ _ points), <- (aabb_coordinate max_y wmax_y _ _ _ points); try done.
  1: by destruct (simd_aabb_points_f32 points n).
  all: intros; rewrite ?Hx, ?Hy by lia; try done.
  all: unfold aabb_block; by rewrite (deinterleave_points _ n) by done.
Qed.

Lemma le_huge_max y : is_nan y = false -> le (- huge)%f64 y -> wide_max (- huge)%f64 y = y.
Proof. intros Hy H. unfold wide_max. by rewrite (f64_leb_ltb_false _ _ H). Qed.

Lemma ge_huge_min y : is_nan y = false -> le y huge -> wide_min huge y = y.
Proof. intros Hy H. unfold wide_min. by rewrite (f64_leb_ltb_false _ _ H). Qed.

(** Points whose coordinates are numbers between -1e30 and 1e30. *)
Definition moderate (l : list f32) : Prop := Forall (fun c => is_nan c = false /\ le (- huge)%f64 c /\ le c huge) l.

Lemma moderate_extremes (l : list f64) n :
  0 < n -> length l = n -> moderate l ->
  extreme ge l (coordinate lower wide_min huge l n) /\ extreme le l (coordinate raise wide_max (- huge)%f64 l n).
Proof.
  intros Hn Hl Hm. assert (take n l = l) as El by (by rewrite firstn_all2 by lia).
  assert (no_nan (take n l)) as Hnan.
  { rewrite El. eapply Forall_impl; [exact Hm|]. by intros ? (? & _). }
  assert (forall y, y ∈ take n l -> is_nan y = false /\ le (- huge)%f64 y /\ le y huge) as Hy.
  { intros y. rewrite El. by apply (Forall_elem _ _ y Hm). }
  pose proof (coordinate_extreme ge ge_trans ge_refl lower wide_min lower_picks wide_min_picks huge l n) as H1.
  pose proof (coordinate_extreme le le_trans le_refl raise wide_max raise_picks wide_max_picks (- huge)%f64 l n) as H2.
  rewrite El in H1, H2, Hnan, Hy. split; [apply H1|apply H2]; try done; try lia;
    intros y (? & ? & ?)%Hy; [by apply ge_huge_min|by apply le_huge_max].
Qed.

(** The box of points with coordinates between -1e30 and 1e30 holds all of them, and
    each of its sides goes through one. *)
Theorem simd_aabb_spec (points : list f32) n :
  0 < n -> 2 * n <= length points -> moderate (abscissas points n) -> moderate (ordinates points n) ->
  let b := simd_aabb_points_f32 points n in
  extreme ge (abscissas points n) (min_x b) /\ extreme le (abscissas points n) (max_x b) /\
  extreme ge (ordinates points n) (min_y b) /\ extreme le (ordinates points n) (max_y b).
Proof.
  intros Hn Hp Hx Hy b. unfold b. rewrite aabb_coordinates by done. cbn [min_x min_y max_x max_y].
  destruct (moderate_extremes (abscissas points n) n) as [? ?]; [done|by unfold abscissas; rewrite length_fmap, length_seq|done|].
  destruct (moderate_extremes (ordinates points n) n) as [? ?]; [done|by unfold ordinates; rewrite length_fmap, length_seq|done|].
  done.
Qed.

(** A coordinate past 1e30 is replaced by it when there are eight points. *)
Example aabb_far_away :
  let p := f32_of_Z (10 ^ 35) in
  min_x (simd_aabb_points_f32 (replicate 14 p) 7) = p /\ min_x (simd_aabb_points_f32 (replicate 16 p) 8) = huge.
Proof. split; vm_compute; reflexivity. Qed.
