(* ===== verification/SimdExact.v ===== *)
(** The reductions of [Simd.v] in exact arithmetic: splitting a sum over lanes changes
    the order of the additions only, so that in a field the answers are the sums of the
    textbook.  The rationals are such a field. *)

From S2P Require Import Prelude Float64 Simd SimdProofs.
From Stdlib Require Import Ring Field QArith Qcanon.
Local Open Scope nat_scope.

(** ** Exact arithmetic *)

Class Exact (A : Type) `{Num A} := {
  exact_field : field_theory zero one add mul sub opp div (fun x => div one x) (@eq A);
  exact_fmadd a b c : fmadd a b c = add (mul a b) c;
  exact_fnmadd a b c : fnmadd a b c = sub c (mul a b);
  exact_size : of_size 0 = zero;
  exact_size_S n : of_size (S n) = add (of_size n) one;
  exact_size_pos n : of_size (S n) <> zero;
  exact_tiny x : ltb (nabs x) (lit 1 (-15)) = false -> x <> zero;
  exact_tiny_pos : ltb zero (lit 1 (-15)) = true
}.

(** The rationals. *)
Definition Qc_lit (m e : Z) : Qc :=
  if (0 <=? e)%Z then Q2Qc (inject_Z (m * 10 ^ e)) else Q2Qc (Qmake m (Z.to_pos (10 ^ (- e)))).

#[export] Instance Qc_num : Num Qc := {|
  zero := 0%Qc; one := 1%Qc; add := Qcplus; sub := Qcminus; mul := Qcmult; div := Qcdiv;
  opp := Qcopp; nabs := fun x => if (Qnum x <? 0)%Z then Qcopp x else x;
  ltb := fun x y => match Qccompare x y with Lt => true | _ => false end;
  leb := fun x y => match Qccompare x y with Gt => false | _ => true end;
  fmadd := fun a b c => (a * b + c)%Qc; fnmadd := fun a b c => (c - a * b)%Qc;
  lit := Qc_lit; of_size := fun n => Q2Qc (inject_Z (Z.of_nat n))
|}.

Lemma Qc_field : field_theory 0%Qc 1%Qc Qcplus Qcmult Qcminus Qcopp Qcdiv (fun x => (1 / x)%Qc) (@eq Qc).
Proof.
  destruct Qcft as [R D I V]. constructor; [exact R|exact D| |].
  - intros p q. unfold Qcdiv. by rewrite Qcmult_1_l.
  - intros p Hp. unfold Qcdiv. rewrite Qcmult_1_l. by apply V.
Qed.

#[export] Instance Qc_exact : Exact Qc.
Proof.
  constructor; simpl.
  - exact Qc_field.
  - done.
  - done.
  - reflexivity.
  - intros n. apply Qc_is_canon. simpl. rewrite !Qred_correct, Nat2Z.inj_succ.
    unfold Z.succ. rewrite inject_Z_plus. reflexivity.
  - intros n H. apply (f_equal this) in H. cbn [this Q2Qc] in H.
    assert (Qeq (inject_Z (Z.of_nat (S n))) 0) as H' by (rewrite <- (Qred_correct (inject_Z _)), H; reflexivity).
    unfold Qeq in H'. simpl in H'. lia.
  - intros x H ->. vm_compute in H. discriminate H.
  - vm_compute. reflexivity.
Defined.

(** ** Sums *)

Section exact.
Context {A : Type} {N : Num A} {E : Exact A}.
Add Field exact_arithmetic : exact_field.

Fixpoint total (l : list A) : A := match l with [] => zero | x :: l => add x (total l) end.

Lemma total_app l1 l2 : total (l1 ++ l2) = add (total l1) (total l2).
Proof. induction l1 as [|x l1 IH]; simpl; [ring|]. rewrite IH. ring. Qed.

Lemma foldl_total l : forall x, foldl add x l = add x (total l).
Proof. induction l as [|y l IH]; intros x; simpl; [ring|]. rewrite IH. ring. Qed.

Lemma hsum_total v : hsum v = total v.
Proof. destruct v as [|x v]; [done|]. apply foldl_total. Qed.

Lemma total_zip_add acc : forall v, length acc = length v -> total (zip_with add acc v) = add (total acc) (total v).
Proof.
  induction acc as [|x acc IH]; intros [|y v]; try done; simpl; intros; [ring|]. rewrite IH by lia. ring.
Qed.

Lemma total_zero w : total (set1 w zero) = zero.
Proof. unfold set1. induction w as [|w IH]; simpl; [done|]. rewrite IH. ring. Qed.

(** A loop that adds [g i] at every round, by lanes and then singly. *)
Lemma sum_by_lanes w n (block : nat -> list A -> list A) (g : nat -> A) :
  0 < w ->
  (forall i acc, length acc = w -> i + w <= n ->
     length (block i acc) = w /\ total (block i acc) = add (total acc) (total (g <$> seq i w))) ->
  (let (i, acc) := for_blocks n w n 0 block (set1 w zero) in
   for_range i n (fun i s => add s (g i)) (hsum acc)) = total (g <$> seq 0 n).
Proof.
  intros Hw Hb. pose proof (block_end w n Hw).
  destruct (for_blocks_rule (fun i acc => length acc = w /\ total acc = total (g <$> seq 0 i)) w n block n 0
    (set1 w zero)) as (E1 & E2 & E3); [done|by exists 0|lia|lia| | |].
  - split; [apply length_replicate|]. apply total_zero.
  - intros j acc _ Hj [Hl Ht]. destruct (Hb j acc Hl Hj) as [Hl' Ht']. split; [done|].
    rewrite Ht', Ht, seq_app, fmap_app, total_app. done.
  - destruct (for_blocks _ _ _ _ _ _) as [i acc]. cbn [fst snd] in E1, E2, E3. subst i.
    apply (for_range_rule (fun i s => s = total (g <$> seq 0 i))); [lia|by rewrite hsum_total|].
    intros j s Hj ->. rewrite seq_S, fmap_app, total_app. simpl. ring.
Qed.

Lemma sum_singly n (g : nat -> A) : for_range 0 n (fun i s => add s (g i)) zero = total (g <$> seq 0 n).
Proof.
  apply (for_range_rule (fun i s => s = total (g <$> seq 0 i))); [lia|done|].
  intros j s Hj ->. rewrite seq_S, fmap_app, total_app. simpl. ring.
Qed.

Lemma add_block (arr : list A) w n i acc :
  n <= length arr -> length acc = w -> i + w <= n ->
  length (zip_with add acc (loadu w arr i)) = w /\
  total (zip_with add acc (loadu w arr i)) = add (total acc) (total ((fun k => arr !!! k) <$> seq i w)).
Proof.
  intros Hn Hl Hi. rewrite length_zip_with, length_loadu by lia. split; [lia|].
  by rewrite total_zip_add, loadu_seq by (rewrite ?length_loadu; lia).
Qed.

Lemma fma_block (a b : list A) w n i acc :
  n <= length a -> n <= length b -> length acc = w -> i + w <= n ->
  length (fma3 (loadu w a i) (loadu w b i) acc) = w /\
  total (fma3 (loadu w a i) (loadu w b i) acc)
  = add (total acc) (total ((fun k => mul (a !!! k) (b !!! k)) <$> seq i w)).
Proof.
  intros Ha Hb Hl Hi. rewrite !loadu_seq by lia. unfold fma3.
  rewrite length_zip_with, zip_with_seq, length_fmap, length_seq. split; [lia|].
  revert i Hi acc Hl. induction w as [|w IH]; intros i Hi [|x acc] Hl; try done; simpl in *; [ring|].
  rewrite IH, exact_fmadd by lia. unfold fmap. ring.
Qed.

(** The cells of an array below [n]. *)
Lemma cells (l : list A) n : n <= length l -> (fun k => l !!! k) <$> seq 0 n = take n l.
Proof. intros. by rewrite <- (loadu_seq n l 0) by lia. Qed.

Lemma sum_loop_total w (a : list A) n :
  0 < w -> n <= length a -> sum_loop w SIMD_THRESHOLD a n = total (take n a).
Proof.
  intros Hw Ha. rewrite <- cells by done. unfold sum_loop.
  destruct (n <? SIMD_THRESHOLD); [apply sum_singly|]. apply sum_by_lanes; [done|].
  intros. by apply (add_block a w n).
Qed.

Lemma simd_sum_total (a : list A) n : n <= length a -> simd_sum a n = total (take n a).
Proof. apply sum_loop_total. lia. Qed.

Lemma dot_loop_total w (a b : list A) n :
  0 < w -> n <= length a -> n <= length b ->
  dot_loop w SIMD_THRESHOLD a b n = total (zip_with mul (take n a) (take n b)).
Proof.
  intros Hw Ha Hb. rewrite <- !cells, zip_with_seq by done. unfold dot_loop.
  destruct (n <? SIMD_THRESHOLD); [apply sum_singly|]. apply sum_by_lanes; [done|].
  intros. by apply (fma_block a b w n).
Qed.

Lemma simd_dot_total (a b : list A) n :
  n <= length a -> n <= length b -> simd_dot a b n = total (zip_with mul (take n a) (take n b)).
Proof. apply dot_loop_total. lia. Qed.

(** In exact arithmetic the vectorised sum, dot product and squared norm are the
    sums of the elements, of the products and of the squares, at every length. *)
Theorem simd_sum_dot_exact (a b : list A) n :
  n <= length a -> n <= length b ->
  simd_sum a n = total (take n a) /\ simd_sum_f32 a n = total (take n a) /\
  simd_dot a b n = total (zip_with mul (take n a) (take n b)) /\
  simd_dot_f32 a b n = total (zip_with mul (take n a) (take n b)) /\
  simd_norm_sq a n = total ((fun x => mul x x) <$> take n a).
Proof.
  intros Ha Hb. unfold simd_sum, simd_sum_f32, simd_dot, simd_dot_f32, simd_norm_sq.
  rewrite !sum_loop_total, !dot_loop_total by (done || lia). by rewrite zip_with_self.
Qed.

(** The sums of the code's one-pass formula. *)
Lemma mean_variance_sums (data : list A) n :
  2 <= n <= length data ->
  let s := total (take n data) in
  let sq := total ((fun x => mul x x) <$> take n data) in
  let var := div (sub sq (div (mul s s) (of_size n))) (of_size (n - 1)) in
  simd_mean_variance data n = (div s (of_size n), if ltb var zero then zero else var).
Proof.
  intros Hn s sq var. unfold simd_mean_variance.
  rewrite (proj2 (Nat.eqb_neq n 0)), (proj2 (Nat.eqb_neq n 1)) by lia.
  assert (mv_sums data n = (s, sq)) as ->; [|done]. unfold s, sq. rewrite <- cells by lia.
  rewrite <- list_fmap_compose. change ((fun x => mul x x) ∘ _) with (fun k => mul (data !!! k) (data !!! k)).
  rewrite (surjective_pairing (mv_sums data n)). unfold mv_sums. clear var s sq.
  assert (forall i p, (for_range i n (mv_one data) p).1 = for_range i n (fun i s => add s (data !!! i)) p.1 /\
    (for_range i n (mv_one data) p).2 = for_range i n (fun i s => add s (mul (data !!! i) (data !!! i))) p.2) as Hproj.
  { intros i p. split; apply for_range_proj; done. }
  destruct (n <? SIMD_THRESHOLD).
  - destruct (Hproj 0 (zero, zero)) as [-> ->]. cbn [fst snd]. by rewrite !sum_singly.
  - destruct (for_blocks_proj fst 4 n (mv_block data) (fun i acc => zip_with add acc (loadu 4 data i)) n 0
      (set1 4 zero, set1 4 zero)) as [E1 E2]; [done|].
    destruct (for_blocks_proj snd 4 n (mv_block data) (fun i acc => fma3 (loadu 4 data i) (loadu 4 data i) acc) n 0
      (set1 4 zero, set1 4 zero)) as [E3 E4]; [done|].
    pose proof (sum_by_lanes 4 n (fun i acc => zip_with add acc (loadu 4 data i)) (fun k => data !!! k) ltac:(lia)
      (fun i acc => add_block data 4 n i acc ltac:(lia))) as S1.
    pose proof (sum_by_lanes 4 n (fun i acc => fma3 (loadu 4 data i) (loadu 4 data i) acc) _ ltac:(lia)
      (fun i acc => fma_block data data 4 n i acc ltac:(lia) ltac:(lia))) as S2.
    cbn [fst snd] in E1, E2, E3, E4. rewrite <- S1, <- S2.
    destruct (for_blocks _ _ _ _ (mv_block data) _) as [i [acc1 acc2]].
    destruct (for_blocks _ _ _ _ _ (set1 4 zero)) as [i1 a1], (for_blocks _ _ _ _ _ (set1 4 zero)) as [i2 a2].
    cbn [fst snd] in *. subst. destruct (Hproj i (hsum acc1, hsum acc2)) as [-> ->]. done.
Qed.

Lemma square_deviations (m : A) l :
  total ((fun x => mul (sub x m) (sub x m)) <$> l)
  = add (sub (total ((fun x => mul x x) <$> l)) (mul (mul (add one one) m) (total l)))
      (mul (of_size (length l)) (mul m m)).
Proof.
  induction l as [|x l IH]; simpl; [rewrite exact_size; ring|].
  rewrite exact_size_S. change (list_fmap A A ?f l) with (f <$> l). rewrite IH. unfold fmap. ring.
Qed.

Lemma mean_variance_deviations (data : list A) n :
  2 <= n <= length data ->
  let l := take n data in
  let mean := div (total l) (of_size n) in
  let var := div (total ((fun x => mul (sub x mean) (sub x mean)) <$> l)) (of_size (n - 1)) in
  simd_mean_variance data n = (mean, if ltb var zero then zero else var).
Proof.
  intros Hn l mean var. rewrite mean_variance_sums by done. fold l mean.
  assert (var = div (sub (total ((fun x => mul x x) <$> l)) (div (mul (total l) (total l)) (of_size n)))
                  (of_size (n - 1))) as ->; [|done].
  unfold var. rewrite square_deviations. unfold l. rewrite length_take_le by lia. fold l. unfold mean.
  destruct n as [|[|n]]; [lia..|]. replace (S (S n) - 1) with (S n) by lia.
  pose proof (exact_size_pos n). pose proof (exact_size_pos (S n)). field. done.
Qed.

(** In exact arithmetic [simd_mean_variance] answers the mean and the sample variance,
    the sum of the squared deviations over [n - 1] (zero if that were negative). *)
Theorem simd_mean_variance_exact (data : list A) n :
  2 <= n <= length data ->
  let l := take n data in
  let mean := div (total l) (of_size n) in
  let var := div (total ((fun x => mul (sub x mean) (sub x mean)) <$> l)) (of_size (n - 1)) in
  simd_mean_variance data n = (mean, if ltb var zero then zero else var).
Proof. apply mean_variance_deviations. Qed.
End exact.

Lemma simd_mean_variance_exact_witness :
  simd_mean_variance (A := Qc) [one; Qc_lit 3 0; Qc_lit 5 0] 3 = (Qc_lit 3 0, Qc_lit 4 0).
Proof.
  rewrite (simd_mean_variance_exact (A := Qc)) by (simpl; lia). vm_compute.
  f_equal; by apply Qc_is_canon.
Defined.
