(* ===== verification/CrossSection.v ===== *)
(** The vectorised cross-sectional operations of the universe: [modules/fin/src/universe.c],
    [universe_zscore], [universe_clip], [universe_cross_sum] and [universe_demean], over the
    kernels of [Simd.v].  As the kernels they are functions of the arithmetic; [sqrt] is the
    square root of that arithmetic ([f64_sqrt] of [Finance.v] for doubles).  The arena gives
    the scratch arrays. *)

From S2P Require Import Prelude Float64 SortSearch Universe Simd SimdProofs SimdExact.
From Stdlib Require Import Ring Field QArith Qcanon.
Local Open Scope nat_scope.

(** ** Gather and scatter *)

Definition span_of (u : universe_t) (n : nat) : nat := Nat.min (num_assets u) n.

(** [active_vals] and [active_idx] *)
Definition gather {A} `{Inhabited A} (u : universe_t) (values : list A) (n : nat) : list A :=
  (fun i => values !!! i) <$> active_indices u (span_of u n).

Definition scatter {A} (idx : list nat) (z out : list A) : list A :=
  foldl (fun out '(i, x) => <[i := x]> out) out (zip idx z).

Section ops.
Context {A : Type} {N : Num A} (sqrt : A -> A).

Definition universe_zscore (u : universe_t) (values : list A) (n : nat) (out : list A) : list A :=
  if n =? 0 then out else
  let idx := active_indices u (span_of u n) in
  let vals := gather u values n in
  let ac := length vals in
  let out := simd_fill out zero (span_of u n) in
  if ac <? 2 then out else
  let (mean, variance) := simd_mean_variance vals ac in
  let sd := sqrt variance in
  if ltb sd (lit 1 (-15)) then out else
  scatter idx (simd_zscore (Apart vals) (replicate ac zero) ac mean sd) out.

Definition universe_cross_sum (u : universe_t) (values : list A) (n : nat) : A :=
  if n =? 0 then zero else
  let vals := gather u values n in
  if 0 <? length vals then simd_sum vals (length vals) else zero.

Definition universe_demean (u : universe_t) (values : list A) (n : nat) (out : list A) : list A :=
  if n =? 0 then out else
  let idx := active_indices u (span_of u n) in
  let vals := gather u values n in
  let ac := length vals in
  let out := simd_fill out zero (span_of u n) in
  if ac =? 0 then out else
  let mean := div (simd_sum vals ac) (of_size ac) in
  let mean_vec := simd_fill (replicate ac zero) mean ac in
  scatter idx (simd_sub (Apart vals) (Apart mean_vec) (replicate ac zero) ac) out.
End ops.

(** The second pass works in place on [out]. *)
Definition universe_clip `{Fused f64} (u : universe_t) (values : list f64) (n : nat) (lo hi : f64) (out : list f64)
    : list f64 :=
  if n =? 0 then out else
  let na := span_of u n in
  simd_element_min_scalar Same hi (simd_element_max_scalar (Apart values) lo out na) na.

(** ** Scattering *)

Lemma scatter_lookup {A} (idx : list nat) : forall (z out : list A),
  NoDup idx -> length z = length idx -> Forall (fun i => i < length out) idx ->
  length (scatter idx z out) = length out /\
  (forall k i, idx !! k = Some i -> scatter idx z out !! i = z !! k) /\
  (forall i, i ∉ idx -> scatter idx z out !! i = out !! i).
Proof.
  unfold scatter. induction idx as [|j idx IH]; intros [|x z] out Hn Hl Ho; try done.
  apply NoDup_cons in Hn as [Hj Hn]. apply Forall_cons in Ho as [Ho Hos]. cbn [zip_with foldl].
  destruct (IH z (<[j := x]> out)) as (IHl & IHk & IHi); [done|by injection Hl|by rewrite length_insert|].
  rewrite length_insert in IHl. split_and!; [done| |].
  - intros [|k] i; cbn; [|by apply IHk]. intros [= <-]. rewrite IHi by done. by apply list_lookup_insert_eq.
  - intros i Hi. apply not_elem_of_cons in Hi as [? Hi]. rewrite IHi by done. by apply list_lookup_insert_ne.
Qed.

Lemma scatter_app {A} (idx : list nat) : forall (z l r : list A),
  Forall (fun i => i < length l) idx -> scatter idx z (l ++ r) = scatter idx z l ++ r.
Proof.
  unfold scatter. induction idx as [|j idx IH]; intros [|x z] l r Hb; try done.
  apply Forall_cons in Hb as [Hj Hb]. cbn [zip_with foldl].
  rewrite insert_app_l by done. apply IH. by rewrite length_insert.
Qed.

Lemma active_below u n m : span_of u n <= m -> Forall (fun i => i < m) (active_indices u (span_of u n)).
Proof. intros. apply Forall_forall. intros i [_ Hi]%active_indices_spec. lia. Qed.

Lemma length_gather {A} `{Inhabited A} u (values : list A) n :
  length (gather u values n) = length (active_indices u (span_of u n)).
Proof. apply length_fmap. Qed.

(** ** In exact arithmetic *)

Section exact.
Context {A : Type} {N : Num A} {E : Exact A}.
Add Field cross_section_field : exact_field.

Lemma total_insert (l : list A) i x :
  l !! i = Some zero -> total (<[i := x]> l) = add (total l) x.
Proof.
  revert i. induction l as [|y l IH]; intros [|i]; try done; cbn; [intros [= ->]; ring|].
  intros H. rewrite IH by done. ring.
Qed.

(** Scattering over zeros keeps the sum. *)
Lemma total_scatter idx : forall (z out : list A),
  NoDup idx -> length z = length idx -> Forall (fun i => out !! i = Some zero) idx ->
  total (scatter idx z out) = add (total out) (total z).
Proof.
  unfold scatter. induction idx as [|j idx IH]; intros [|x z] out Hn Hl Ho; try done; cbn; [ring|].
  apply NoDup_cons in Hn as [Hj Hn]. apply Forall_cons in Ho as [Ho Hos].
  rewrite IH; [rewrite total_insert by done; ring|done|by injection Hl|].
  eapply Forall_impl; [apply Forall_and; split; [exact Hos|by apply Forall_forall; intros i Hi; exact Hi]|].
  cbn. intros i [Hi Hin]. rewrite list_lookup_insert_ne; [done|]. by intros ->.
Qed.

Lemma fmap_scatter (f : A -> A) idx : forall (z out : list A),
  f <$> scatter idx z out = scatter idx (f <$> z) (f <$> out).
Proof.
  unfold scatter. induction idx as [|j idx IH]; intros [|x z] out; try done. cbn. rewrite IH.
  by rewrite list_fmap_insert.
Qed.

Lemma fmap_constant (x : A) (l : list A) : (fun _ => x) <$> l = replicate (length l) x.
Proof. induction l as [|y l IH]; [done|]. cbn. by rewrite IH. Qed.

Lemma fill_spec (out : list A) x n : n <= length out -> simd_fill out x n = replicate n x ++ drop n out.
Proof.
  intros Hn. unfold simd_fill. rewrite (vec1_map _ _ _ (fun _ => x)); [|lia|done|done|].
  - by rewrite fmap_constant, length_take_le.
  - intros v <-. by rewrite fmap_constant.
Qed.

(** What the two operations do to [out]: the values [z] go to the active assets of the
    first [na], the others become zero, the cells beyond stay. *)
Definition spread (u : universe_t) (n : nat) (z out out' : list A) : Prop :=
  let na := span_of u n in
  length out' = length out /\
  (forall k i, active_indices u na !! k = Some i -> out' !! i = z !! k) /\
  (forall i, i < na -> active_at u i = false -> out' !! i = Some zero) /\
  (forall i, na <= i -> out' !! i = out !! i).

Lemma scatter_spread u n z out :
  span_of u n <= length out -> length z = length (active_indices u (span_of u n)) ->
  let out' := scatter (active_indices u (span_of u n)) z (simd_fill out zero (span_of u n)) in
  spread u n z out out' /\ total (take (span_of u n) out') = total z /\
  total ((fun x => mul x x) <$> take (span_of u n) out') = total ((fun x => mul x x) <$> z).
Proof.
  set (na := span_of u n). set (idx := active_indices u na). intros Ho Hz out'.
  assert (simd_fill out zero na = replicate na zero ++ drop na out) as Ef by (by apply fill_spec).
  assert (length (replicate na zero ++ drop na out) = length out) as Hlen.
  { rewrite length_app, length_replicate, length_drop. lia. }
  pose proof (active_indices_NoDup u na : NoDup idx) as Hn.
  pose proof (active_below u n na ltac:(done) : Forall (fun i => i < na) idx) as Hb.
  destruct (scatter_lookup idx z (replicate na zero ++ drop na out)) as (Hl & Hk & Hi); [done|done| |].
  { rewrite Hlen. eapply Forall_impl; [exact Hb|]. cbn. lia. }
  destruct (scatter_lookup idx z (replicate na zero)) as (Hl' & Hk' & Hi'); [done|done|by rewrite length_replicate|].
  assert (out' = scatter idx z (replicate na zero) ++ drop na out) as Eo.
  { subst out'. rewrite Ef. apply scatter_app. by rewrite length_replicate. }
  rewrite length_replicate in Hl'. split.
  - subst out'. rewrite Ef. split_and!; [by rewrite Hl| |..].
    + intros k i Hki. by apply Hk.
    + intros i Hlt Ha. rewrite Hi.
      * rewrite lookup_app_l by (by rewrite length_replicate). by apply lookup_replicate_2.
      * intros [? _]%active_indices_spec. congruence.
    + intros i Hge. rewrite Hi.
      * rewrite lookup_app_r, length_replicate, lookup_drop by (by rewrite length_replicate). f_equal. lia.
      * intros [_ ?]%active_indices_spec. lia.
  - rewrite Eo, take_app_length' by done.
    assert (forall w, total w = zero -> forall z', length z' = length z -> Forall (fun i => w !! i = Some zero) idx ->
      total (scatter idx z' w) = total z') as Ht.
    { intros w Hw z' Hz' Hf. rewrite total_scatter by (done || congruence). rewrite Hw. ring. }
    assert (Forall (fun i => replicate na (zero : A) !! i = Some zero) idx) as Hf.
    { eapply Forall_impl; [exact Hb|]. intros. by apply lookup_replicate_2. }
    split; [apply Ht; [apply total_zero|done|done]|].
    rewrite fmap_scatter. replace ((fun x => mul x x) <$> replicate na zero) with (replicate na (zero : A)).
    + apply Ht; [apply total_zero|apply length_fmap|done].
    + rewrite fmap_replicate. f_equal. ring.
Qed.
(** Sums of normalised values. *)
Lemma total_shift m l : total ((fun x => sub x m) <$> l) = sub (total l) (mul (of_size (length l)) m).
Proof.
  induction l as [|x l IH]; cbn; [rewrite exact_size; ring|]. rewrite IH, exact_size_S. ring.
Qed.

Lemma total_over s (f : A -> A) l : s <> zero -> total ((fun x => div (f x) s) <$> l) = div (total (f <$> l)) s.
Proof. intros Hs. induction l as [|x l IH]; cbn; [by field|]. rewrite IH. by field. Qed.

Lemma total_mean l : l <> [] ->
  total ((fun x => sub x (div (total l) (of_size (length l)))) <$> l) = zero.
Proof.
  intros Hl. rewrite total_shift. destruct l as [|x l]; [done|]. pose proof (exact_size_pos (length l)).
  cbn [length]. by field.
Qed.

Lemma product_zero (x y : A) : mul x y = zero -> y <> zero -> x = zero.
Proof. intros H Hy. transitivity (div (mul x y) y); [by field|]. rewrite H. by field. Qed.

Lemma demean_scatter u values n out :
  n <> 0 -> span_of u n <= length out ->
  let vals := gather u values n in
  universe_demean u values n out
  = scatter (active_indices u (span_of u n))
      ((fun x => sub x (div (simd_sum vals (length vals)) (of_size (length vals)))) <$> vals)
      (simd_fill out zero (span_of u n)).
Proof.
  intros Hn Ho vals. unfold universe_demean. rewrite (proj2 (Nat.eqb_neq n 0)) by done. fold vals.
  destruct (length vals =? 0) eqn:Ez; bool_props.
  - pose proof (length_gather u values n) as Hg. fold vals in Hg. rewrite Ez in Hg.
    symmetry in Hg. apply nil_length_inv in Hg. by rewrite Hg.
  - f_equal. set (mean := div _ _). set (ac := length vals).
    rewrite (fill_spec (replicate ac zero) mean ac) by (by rewrite length_replicate).
    unfold simd_sub. rewrite (vec2_map _ _ _ sub); cbn [at_];
      rewrite ?length_app, ?length_replicate, ?length_drop; [|lia|lia|lia|lia|done].
    rewrite take_app_length' by (by rewrite length_replicate).
    rewrite drop_ge, app_nil_r, take_ge by (rewrite ?length_replicate; lia).
    unfold ac. by rewrite zip_with_replicate_r.
Qed.

(** In exact arithmetic [universe_demean] gives every active asset its value less the
    mean of the active ones, so that these sum to zero; inactive assets get zero and the
    cells beyond the universe keep what they held. *)
Theorem universe_demean_exact u (values : list A) n out :
  n <> 0 -> span_of u n <= length out ->
  let vals := gather u values n in
  let mean := div (total vals) (of_size (length vals)) in
  let out' := universe_demean u values n out in
  spread u n ((fun x => sub x mean) <$> vals) out out' /\ total (take (span_of u n) out') = zero.
Proof.
  intros Hn Ho vals mean out'.
  assert (simd_sum vals (length vals) = total vals) as Es by (by rewrite simd_sum_total, take_ge by lia).
  pose proof (demean_scatter u values n out Hn Ho) as Ed. cbn zeta in Ed. fold vals out' in Ed.
  rewrite Es in Ed. fold mean in Ed.
  destruct (scatter_spread u n ((fun x => sub x mean) <$> vals) out Ho) as (H1 & H2 & _).
  { rewrite length_fmap. apply length_gather. }
  rewrite <- Ed in H1, H2. split; [done|]. rewrite H2.
  destruct (decide (vals = [])) as [-> |Hne]; [done|]. by apply total_mean.
Qed.

Lemma zscore_kernel (vals : list A) mean sd :
  sd <> zero -> ltb sd (lit 1 (-15)) = false ->
  simd_zscore (Apart vals) (replicate (length vals) zero) (length vals) mean sd
  = (fun x => div (sub x mean) sd) <$> vals.
Proof.
  intros Hs Hb. unfold simd_zscore. rewrite Hb. rewrite (vec1_map _ _ _ (fun x => div (sub x mean) sd)).
  - cbn [at_]. rewrite take_ge, drop_ge by (rewrite ?length_replicate; lia). apply app_nil_r.
  - lia.
  - cbn. lia.
  - rewrite length_replicate. lia.
  - intros v <-. rewrite zip_with_set1_r. rewrite <- (length_fmap (fun y => sub y mean) v), zip_with_set1_r.
    rewrite <- list_fmap_compose. apply list_fmap_ext. intros _ x _. cbn. by field.
Qed.

Lemma zscore_moments (l : list A) (sd : A) :
  2 <= length l -> sd <> zero ->
  let mean := div (total l) (of_size (length l)) in
  let var := div (total ((fun x => mul (sub x mean) (sub x mean)) <$> l)) (of_size (length l - 1)) in
  mul sd sd = (if ltb var zero then zero else var) ->
  let z := (fun x => div (sub x mean) sd) <$> l in
  total z = zero /\ total ((fun x => mul x x) <$> z) = of_size (length l - 1).
Proof.
  intros Hl Hs mean var Hsq z. subst z. split.
  - rewrite (total_over sd (fun x => sub x mean)) by done. unfold mean. rewrite total_mean by (by intros ->; cbn in Hl; lia).
    by field.
  - assert (mul sd sd = var) as Hv.
    { destruct (ltb var zero); [|done]. exfalso. by apply Hs, (product_zero sd sd). }
    rewrite <- list_fmap_compose.
    rewrite (list_fmap_ext _ (fun x => div (mul (sub x mean) (sub x mean)) (mul sd sd))) by (intros; cbn; by field).
    rewrite (total_over (mul sd sd)).
    + assert (of_size (length l - 1) <> zero) as Hz.
      { destruct (length l - 1) eqn:El; [lia|]. apply exact_size_pos. }
      assert (total ((fun x => mul (sub x mean) (sub x mean)) <$> l) = mul (mul sd sd) (of_size (length l - 1))) as ->.
      { rewrite Hv. unfold var. by field. }
      field. done.
    + intros H0. by apply Hs, (product_zero sd sd).
Qed.

Context (sqrt : A -> A).

(** C27: In exact arithmetic, where the square root of the variance is one, the z-scores
    that [universe_zscore] gives the active assets have mean zero and sample variance one;
    inactive assets get zero.  With fewer than two active assets or no deviation every
    score is zero. *)
Theorem universe_zscore_exact u (values : list A) n out :
  n <> 0 -> span_of u n <= length out ->
  let vals := gather u values n in
  let ac := length vals in
  let variance := (simd_mean_variance vals ac).2 in
  let out' := universe_zscore sqrt u values n out in
  (2 <= ac -> ltb (sqrt variance) (lit 1 (-15)) = false -> mul (sqrt variance) (sqrt variance) = variance ->
   spread u n ((fun x => div (sub x (div (total vals) (of_size ac))) (sqrt variance)) <$> vals) out out' /\
   total (take (span_of u n) out') = zero /\
   total ((fun x => mul x x) <$> take (span_of u n) out') = of_size (ac - 1)) /\
  (ac < 2 \/ ltb (sqrt variance) (lit 1 (-15)) = true ->
   out' = replicate (span_of u n) zero ++ drop (span_of u n) out).
Proof.
  intros Hn Ho vals ac variance out'. subst out' ac. unfold universe_zscore.
  rewrite (proj2 (Nat.eqb_neq n 0)) by done. fold vals.
  destruct (simd_mean_variance vals (length vals)) as [mean var] eqn:Emv. cbn [snd] in variance. subst variance. split.
  - intros H2 Hb Hsq. rewrite (proj2 (Nat.ltb_ge (length vals) 2)), Hb by done.
    pose proof (mean_variance_deviations vals (length vals) ltac:(lia)) as Ev.
    cbn zeta in Ev. rewrite take_ge, Emv in Ev by done. injection Ev as Em Ev.
    assert (sqrt var <> zero) as Hs by (intros H0; rewrite H0, exact_tiny_pos in Hb; discriminate).
    rewrite zscore_kernel by done. rewrite <- Em. set (z := _ <$> vals).
    destruct (scatter_spread u n z out Ho) as (H3 & -> & ->); [unfold z; rewrite length_fmap; apply length_gather|].
    split; [done|]. subst z. rewrite Em. apply zscore_moments; [done|done|]. by rewrite Hsq.
  - intros [Hlt|Hb]; 
      [rewrite (proj2 (Nat.ltb_lt (length vals) 2)) by done|rewrite Hb; destruct (length vals <? 2)];
      by apply fill_spec.
Qed.
End exact.

(** ** Witnesses *)

Definition four_assets : universe_t :=
  universe_advance (universe_finalize (Universe [sample_asset 7 10 20; sample_asset 9 30 0; sample_asset 11 10 0;
    sample_asset 12 0 0] INITIAL_ASSET_CAP [] INITIAL_ADJ_CAP None f64_zero [])) (f64_of_Z 15).

Definition four_values : list Qc := [one; Qc_lit 7 0; Qc_lit 3 0; Qc_lit 5 0].

Lemma universe_demean_exact_witness :
  gather four_assets four_values 4 = [one; Qc_lit 3 0; Qc_lit 5 0] /\
  universe_demean four_assets four_values 4 (replicate 5 one) !! 1 = Some zero /\
  total (take 4 (universe_demean four_assets four_values 4 (replicate 5 one))) = zero.
Proof.
  destruct (universe_demean_exact four_assets four_values 4 (replicate 5 one)) as [(_ & _ & H & _) Ht];
    [done|cbn; lia|].
  split; [by vm_compute|]. split; [apply (H 1); vm_compute; [lia|done]|exact Ht].
Defined.

(** The variance of 1, 3 and 5 is 4. *)
Lemma universe_zscore_exact_witness :
  let sqrt4 (x : Qc) : Qc := Qc_lit 2 0 in
  (simd_mean_variance (gather four_assets four_values 4) 3).2 = Qc_lit 4 0 /\
  total (take 4 (universe_zscore sqrt4 four_assets four_values 4 (replicate 5 one))) = zero.
Proof.
  intros sqrt4.
  assert (simd_mean_variance (gather four_assets four_values 4) 3 = (Qc_lit 3 0, Qc_lit 4 0)) as E
    by (vm_compute; f_equal; by apply Qc_is_canon).
  split; [by rewrite E|].
  destruct (universe_zscore_exact sqrt4 four_assets four_values 4 (replicate 5 one)) as [H _]; [done|cbn; lia|].
  destruct H as (_ & Ht & _); [vm_compute; lia|by vm_compute| |exact Ht].
  change (length (gather four_assets four_values 4)) with 3%nat. rewrite E. by apply Qc_is_canon.
Defined.
