(* ===== verification/Linalg.v ===== *)
(** Small linear algebra: the matrix functions of [exprtk/src/simd_helpers.c].

    A matrix is a row-major array.  The definitions work over any [Num]; the theorems
    about values are in exact arithmetic, those about positions hold for every [Num]. *)

From S2P Require Import Prelude Float64 Simd SimdProofs SimdExact.
From Stdlib Require Import Ring Field Qcanon.
Local Open Scope nat_scope.

Section matrices.
Context {A : Type} {N : Num A}.

(** ** Two by two, three by three *)

Definition exprtk_trace2 (M : list A) : A := add (M !!! 0) (M !!! 3).

Definition exprtk_det2 (M : list A) : A := sub (mul (M !!! 0) (M !!! 3)) (mul (M !!! 1) (M !!! 2)).

Definition exprtk_det3 (M : list A) : A :=
  let minor a b c d := sub (mul (M !!! a) (M !!! b)) (mul (M !!! c) (M !!! d)) in
  add (sub (mul (M !!! 0) (minor 4 8 5 7)) (mul (M !!! 1) (minor 3 8 5 6))) (mul (M !!! 2) (minor 3 7 4 6)).

(** [None] is the answer 0, which leaves [out] as it was. *)
Definition exprtk_inv2 (M : list A) : option (list A) :=
  let det := exprtk_det2 M in
  if ltb (nabs det) (lit 1 (-15)) then None else
  let idet := div one det in
  Some [mul (M !!! 3) idet; mul (opp (M !!! 1)) idet; mul (opp (M !!! 2)) idet; mul (M !!! 0) idet].

Definition exprtk_inv3 (M : list A) : option (list A) :=
  let det := exprtk_det3 M in
  if ltb (nabs det) (lit 1 (-15)) then None else
  let idet := div one det in
  let cof a b c d := mul (sub (mul (M !!! a) (M !!! b)) (mul (M !!! c) (M !!! d))) idet in
  Some [cof 4 8 5 7; cof 2 7 1 8; cof 1 5 2 4;
        cof 5 6 3 8; cof 0 8 2 6; cof 2 3 0 5;
        cof 3 7 4 6; cof 1 6 0 7; cof 0 4 1 3].

(** ** Product *)

(** One round of the loop over [p]: a row of the product gains [A[i,p]] times row [p]. *)
Definition matmul_row (M1 M2 : list A) (k n i p : nat) (out : list A) : list A :=
  let a := M1 !!! (i * k + p) in
  let (j, out) := for_blocks n 4 n 0
      (fun j out => storeu (i * n + j) (fma3 (set1 4 a) (loadu 4 M2 (p * n + j)) (loadu 4 out (i * n + j))) out) out in
  for_range j n (fun j out => put (i * n + j) (add (out !!! (i * n + j)) (mul a (M2 !!! (p * n + j)))) out) out.

(** The pointers are not NULL. *)
Definition exprtk_matmul (M1 M2 : list A) (m k n : nat) (out : list A) : list A :=
  if (m =? 0) || (k =? 0) || (n =? 0) || (SIZE_MAX / Z.of_nat n <? Z.of_nat m)%Z then out else
  let out := list_inserts 0 (replicate (m * n) zero) out in
  for_range 0 m (fun i out => for_range 0 k (fun p out => matmul_row M1 M2 k n i p out) out) out.

(** ** Transposition *)

(** [for (; i < n; i += w)]; [n] rounds of fuel are enough. *)
Fixpoint for_step {St} (fuel w n i : nat) (body : nat -> St -> St) (s : St) : St :=
  match fuel with
  | O => s
  | S fuel => if i <? n then for_step fuel w n (i + w) body (body i s) else s
  end.

Definition BLOCK : nat := 8.

Definition exprtk_transpose (M : list A) (rows cols : nat) (out : list A) : list A :=
  for_step rows BLOCK rows 0 (fun i out =>
    for_step cols BLOCK cols 0 (fun j out =>
      let i_max := if i + BLOCK <? rows then i + BLOCK else rows in
      let j_max := if j + BLOCK <? cols then j + BLOCK else cols in
      for_range i i_max (fun ii out =>
        for_range j j_max (fun jj out => put (jj * rows + ii) (M !!! (ii * cols + jj)) out) out) out) out) out.

(** ** Gauss-Jordan inversion *)

(** The matrix beside the identity; the memory starts with any [raw] content. *)
Definition augment (mat : list A) (n : nat) (raw : list A) : list A :=
  for_range 0 n (fun i aug =>
    for_range 0 n (fun j aug => put (i * (2 * n) + n + j) (if i =? j then one else zero) aug)
      (for_range 0 n (fun j aug => put (i * (2 * n) + j) (mat !!! (i * n + j)) aug) aug)) raw.

Definition find_pivot (aug : list A) (n cols col : nat) : nat * A :=
  for_range (col + 1) n (fun row '(pivot, max_val) =>
    let v := nabs (aug !!! (row * cols + col)) in
    if ltb max_val v then (row, v) else (pivot, max_val)) (col, nabs (aug !!! (col * cols + col))).

Definition swap_rows (cols col pivot : nat) (aug : list A) : list A :=
  if pivot =? col then aug else
  let (j, aug) := for_blocks cols 4 cols 0 (fun j aug =>
      let v1 := loadu 4 aug (col * cols + j) in
      let v2 := loadu 4 aug (pivot * cols + j) in
      storeu (pivot * cols + j) v1 (storeu (col * cols + j) v2 aug)) aug in
  for_range j cols (fun j aug =>
      let tmp := aug !!! (col * cols + j) in
      put (pivot * cols + j) tmp (put (col * cols + j) (aug !!! (pivot * cols + j)) aug)) aug.

Definition scale_row (cols col : nat) (aug : list A) : list A :=
  let diag := aug !!! (col * cols + col) in
  let (j, aug) := for_blocks cols 4 cols 0 (fun j aug =>
      storeu (col * cols + j) (zip_with mul (loadu 4 aug (col * cols + j)) (set1 4 (div one diag))) aug) aug in
  for_range j cols (fun j aug => put (col * cols + j) (div (aug !!! (col * cols + j)) diag) aug) aug.

(** [_mm256_fnmadd_pd] on registers. *)
Definition fnma3 (va vb vc : list A) : list A := zip_with (fun p c => fnmadd p.1 p.2 c) (zip va vb) vc.

Definition eliminate_row (cols col row : nat) (aug : list A) : list A :=
  if row =? col then aug else
  let factor := aug !!! (row * cols + col) in
  let (k, aug) := for_blocks cols 4 cols 0 (fun k aug =>
      storeu (row * cols + k)
        (fnma3 (set1 4 factor) (loadu 4 aug (col * cols + k)) (loadu 4 aug (row * cols + k))) aug) aug in
  for_range k cols (fun k aug =>
      put (row * cols + k) (sub (aug !!! (row * cols + k)) (mul factor (aug !!! (col * cols + k)))) aug) aug.

Definition gj_column (n col : nat) (aug : list A) : option (list A) :=
  let cols := 2 * n in
  let (pivot, max_val) := find_pivot aug n cols col in
  if ltb max_val (lit 1 (-15)) then None else
  Some (for_range 0 n (eliminate_row cols col) (scale_row cols col (swap_rows cols col pivot aug))).

(** [None] is the answer 0, with [mat] as it was; [raw] is what [mem_alloc] gives. *)
Definition gauss_jordan_invert (mat : list A) (n : nat) (raw : option (list A)) : option (list A) :=
  if n =? 0 then None else
  aug ← raw;
  aug ← for_range 0 n (fun col s => s ≫= gj_column n col) (Some (augment mat n aug));
  Some (for_range 0 n (fun i mat => for_range 0 n (fun j mat =>
          put (i * n + j) (aug !!! (i * (2 * n) + n + j)) mat) mat) mat).
End matrices.

(** ** Rows of an array *)

Lemma cell_index w r c r' c' : c < w -> c' < w -> r * w + c = r' * w + c' -> r = r' /\ c = c'.
Proof.
  intros Hc Hc' H. assert (r = r') as ->; [|split; [done|lia]].
  destruct (Nat.lt_trichotomy r r') as [Hr|[Hr|Hr]]; [|done|]; nia.
Qed.

Section rows.
Context {A : Type} {N : Num A}.

Definition cell (w : nat) (l : list A) (r c : nat) : A := l !!! (r * w + c).

Lemma cell_put w (l : list A) r c x r' c' :
  c < w -> c' < w -> r * w + c < length l ->
  cell w (put (r * w + c) x l) r' c' = if (r' =? r) && (c' =? c) then x else cell w l r' c'.
Proof.
  intros Hc Hc' Hl. unfold cell, put. destruct ((r' =? r) && (c' =? c)) eqn:E; bool_props.
  - subst. by apply list_lookup_total_insert_eq.
  - apply list_lookup_total_insert_ne. intros H. apply cell_index in H; [|done..]. destruct H as [-> ->].
    rewrite !Nat.eqb_refl in E. done.
Qed.

(** A part of a row written by a loop over its cells. *)
Lemma cell_part w (l : list A) (f : nat -> A) s k r r' c :
  c < w -> s + k <= w -> r * w + w <= length l ->
  cell w (list_inserts (r * w + s) (f <$> seq s k) l) r' c
  = if (r' =? r) && (s <=? c) && (c <? s + k) then f c else cell w l r' c.
Proof.
  intros Hc Hs Hl. unfold cell. rewrite !list_lookup_total_alt.
  destruct ((r' =? r) && (s <=? c) && (c <? s + k)) eqn:E.
  - bool_props. subst. rewrite list_lookup_inserts by (rewrite ?length_fmap, ?length_seq; lia).
    rewrite list_lookup_fmap, lookup_seq_lt by lia. simpl. f_equal. lia.
  - assert (r' * w + c < r * w + s \/ r * w + s + k <= r' * w + c) as [Hlt|Hge].
    { destruct (Nat.lt_trichotomy r' r) as [Hr|[->|Hr]]; [left; nia| |right; nia].
      rewrite Nat.eqb_refl in E. destruct (s <=? c) eqn:E1, (c <? s + k) eqn:E2; bool_props; try done; lia. }
    + by rewrite list_lookup_inserts_lt by done.
    + by rewrite list_lookup_inserts_ge by (rewrite length_fmap, length_seq; lia).
Qed.

Lemma cell_row w (l : list A) (f : nat -> A) r r' c :
  c < w -> r * w + w <= length l ->
  cell w (list_inserts (r * w) (f <$> seq 0 w) l) r' c = if r' =? r then f c else cell w l r' c.
Proof.
  intros Hc Hl. pose proof (cell_part w l f 0 w r r' c Hc (le_n _) Hl) as H.
  rewrite Nat.add_0_r in H. rewrite H. by rewrite (proj2 (Nat.ltb_lt c _)), !andb_true_r by lia.
Qed.

Lemma row_loop w b n (block : nat -> list A -> list A) (f g : list A -> nat -> A) l :
  0 < w -> stable b n f -> stable b n g ->
  (forall i d, length d = length l -> i + w <= n -> block i d = storeu (b + i) (g d <$> seq i w) d) ->
  (let (i, d) := for_blocks n w n 0 block l in for_range i n (fun j d => put (b + j) (f d j) d) d)
  = list_inserts b ((fun j => if blocked w 0 n j then g l j else f l j) <$> seq 0 n) l.
Proof. exact (block_map b w 0 n block f g l). Qed.

Lemma set1_at w (x : A) i : set1 w x = (fun _ => x) <$> seq i w.
Proof. apply set1_seq. Qed.

Lemma fma3_seq (f g h : nat -> A) l :
  fma3 (f <$> l) (g <$> l) (h <$> l) = (fun k => fmadd (f k) (g k) (h k)) <$> l.
Proof. unfold fma3. by rewrite !zip_with_seq. Qed.

Lemma fnma3_seq (f g h : nat -> A) l :
  fnma3 (f <$> l) (g <$> l) (h <$> l) = (fun k => fnmadd (f k) (g k) (h k)) <$> l.
Proof. unfold fnma3. by rewrite !zip_with_seq. Qed.

Lemma loadu_row (l : list A) b i w : b + i + w <= length l -> loadu w l (b + i) = (fun k => l !!! (b + k)) <$> seq i w.
Proof.
  intros. rewrite loadu_seq by done. by rewrite <- (fmap_add_seq b i w), <- list_fmap_compose.
Qed.

(** What a read of another part of the array, or of the cell to be written, makes. *)
Lemma stable_read b b' n (op : A -> A -> A) (x : A) :
  (b' = b \/ b' + n <= b \/ b + n <= b') ->
  stable b n (fun d j => op (d !!! (b' + j)) (d !!! (b + j))).
Proof.
  intros Hb j d d' Hj _ Hp. rewrite !list_lookup_total_alt, !Hp by lia. done.
Qed.

(** ** Product *)

Definition acc_step (lane : bool) (a b acc : A) : A := if lane then fmadd a b acc else add acc (mul a b).

Lemma matmul_row_cells (M1 M2 out : list A) k n i p :
  i * n + n <= length out -> p * n + n <= length M2 ->
  matmul_row M1 M2 k n i p out
  = list_inserts (i * n) ((fun j => acc_step (blocked 4 0 n j) (M1 !!! (i * k + p)) (M2 !!! (p * n + j))
                                      (out !!! (i * n + j))) <$> seq 0 n) out.
Proof.
  intros Ho H2. unfold matmul_row.
  rewrite (row_loop 4 (i * n) n _ (fun d j => add (d !!! (i * n + j)) (mul (M1 !!! (i * k + p)) (M2 !!! (p * n + j))))
    (fun d j => fmadd (M1 !!! (i * k + p)) (M2 !!! (p * n + j)) (d !!! (i * n + j)))).
  - done.
  - lia.
  - intros j d d' Hj _ Hp. rewrite !list_lookup_total_alt, !Hp by lia. done.
  - intros j d d' Hj _ Hp. rewrite !list_lookup_total_alt, !Hp by lia. done.
  - intros j d Hd Hj. rewrite (set1_at 4 _ j), !loadu_row, fma3_seq by lia. done.
Qed.

(** The entry of the product: the products of a row and a column added from the left. *)
Definition entry (M1 M2 : list A) (k n i j p : nat) : A :=
  for_range 0 p (fun p acc => acc_step (blocked 4 0 n j) (M1 !!! (i * k + p)) (M2 !!! (p * n + j)) acc) zero.

Lemma matmul_rows (M1 M2 out : list A) m k n i :
  i < m -> m * n <= length out -> k * n <= length M2 ->
  (forall c, c < n -> cell n out i c = zero) ->
  let out' := for_range 0 k (fun p out => matmul_row M1 M2 k n i p out) out in
  length out' = length out /\
  forall r c, r < m -> c < n -> cell n out' r c = if r =? i then entry M1 M2 k n i c k else cell n out r c.
Proof.
  intros Hi Ho H2 H0 out'. unfold out'.
  apply (for_range_rule (fun p o => length o = length out /\
    forall r c, r < m -> c < n -> cell n o r c = if r =? i then entry M1 M2 k n i c p else cell n out r c)); [lia| |].
  - split; [done|]. intros r c Hr Hc. destruct (r =? i) eqn:E; bool_props; [subst; by apply H0|done].
  - intros p o Hp [Hl Hc]. rewrite matmul_row_cells by (rewrite ?Hl; nia). rewrite length_inserts. split; [done|].
    intros r c Hr Hc'. rewrite cell_row by (rewrite ?Hl; nia).
    destruct (r =? i) eqn:E; [|by rewrite Hc, E by done]. bool_props. subst.
    unfold entry. rewrite for_range_snoc by lia. fold (entry M1 M2 k n i c p). f_equal.
    specialize (Hc i c Hr Hc'). rewrite Nat.eqb_refl in Hc. exact Hc.
Qed.

(** [exprtk_matmul] stores at every place of the product its row times its column,
    added from the left; a column goes through the registers or not by its number alone. *)
Theorem matmul_entries (M1 M2 out : list A) m k n i j :
  0 < k -> (Z.of_nat m <= SIZE_MAX / Z.of_nat n)%Z -> m * n <= length out -> k * n <= length M2 ->
  i < m -> j < n ->
  let out' := exprtk_matmul M1 M2 m k n out in
  length out' = length out /\ drop (m * n) out' = drop (m * n) out /\
  out' !!! (i * n + j) = entry M1 M2 k n i j k.
Proof.
  intros Hk Hz Ho H2 Hi Hj out'. unfold out', exprtk_matmul. clear out'.
  rewrite (proj2 (Nat.eqb_neq m 0)), (proj2 (Nat.eqb_neq k 0)), (proj2 (Nat.eqb_neq n 0)) by lia.
  rewrite (proj2 (Z.ltb_ge _ _)) by done. cbn [orb].
  set (z := list_inserts 0 (replicate (m * n) zero) out).
  assert (length z = length out) as Hz' by apply length_inserts.
  assert (forall r c, r < m -> c < n -> cell n z r c = zero) as Hcell.
  { intros r c Hr Hc. unfold cell, z. rewrite list_lookup_total_alt, list_lookup_inserts
      by (rewrite ?length_replicate; nia). rewrite lookup_replicate_2 by nia. done. }
  set (P i o := length o = length out /\ drop (m * n) o = drop (m * n) out /\
    forall r c, r < m -> c < n -> cell n o r c = if r <? i then entry M1 M2 k n r c k else zero).
  assert (P m (for_range 0 m (fun i out => for_range 0 k (fun p out => matmul_row M1 M2 k n i p out) out) z))
    as (H & Hd & Hc).
  - apply for_range_rule; [lia| |].
    + split; [done|]. split; [|intros; by apply Hcell].
      unfold z. rewrite inserts_front by (rewrite length_replicate; lia). rewrite length_replicate.
      by rewrite drop_app_length' by (by rewrite length_replicate).
    + intros i' o Hi' (Hl & Hd & Hc). destruct (matmul_rows M1 M2 o m k n i') as [Hl' Hc'];
        [lia|lia|lia| |].
      { intros c Hc'. rewrite Hc by lia. by rewrite Nat.ltb_irrefl. }
      split; [congruence|]. split.
      * rewrite <- Hd. apply (for_range_rule (fun _ o' => drop (m * n) o' = drop (m * n) o /\ length o' = length o) 0 k);
          [lia|done|]. intros p o' Hp [Hdo Hlo]. rewrite matmul_row_cells by (rewrite ?Hlo, ?Hl; nia).
        rewrite length_inserts. split; [|done]. rewrite <- Hdo. apply list_eq. intros q.
        rewrite !lookup_drop. apply list_lookup_inserts_ge. rewrite length_fmap, length_seq. nia.
      * intros r c Hr Hcn. rewrite Hc' by done. rewrite Hc by done.
        destruct (r =? i') eqn:E; bool_props; [subst; by rewrite (proj2 (Nat.ltb_lt _ _)) by lia|].
        destruct (r <? i') eqn:E1, (r <? S i') eqn:E2; bool_props; try done; lia.
  - split; [done|]. split; [done|]. specialize (Hc i j Hi Hj). by rewrite (proj2 (Nat.ltb_lt _ _)) in Hc by done.
Qed.
End rows.

(** ** Transposition *)

(** A property that a round establishes and the other rounds keep holds after the loop. *)
Lemma for_step_reaches {St} (I X : St -> Prop) w n f i0 fuel : forall i s,
  0 < w -> n <= i + fuel -> i <= i0 < n -> (exists q, i0 = i + q * w) ->
  I s -> (forall j s, I s -> I (f j s)) -> (forall j s, I s -> X s -> X (f j s)) ->
  (forall s, I s -> X (f i0 s)) -> X (for_step fuel w n i f s).
Proof.
  assert (forall fuel i s, I s -> X s -> (forall j s, I s -> I (f j s)) -> (forall j s, I s -> X s -> X (f j s)) ->
    X (for_step fuel w n i f s)) as Hkeep.
  { intros k. induction k as [|k IH]; intros i s HI HX HIs HXs; [done|]. simpl.
    destruct (i <? n); [apply IH; auto|done]. }
  induction fuel as [|fuel IH]; intros i s Hw Hf Hi [q Hq] HI HIs HXs HX; [lia|]. simpl.
  rewrite (proj2 (Nat.ltb_lt i n)) by lia. destruct q as [|q].
  - assert (i0 = i) as -> by lia. apply Hkeep; auto.
  - apply IH; auto; [lia|nia|]. exists q. nia.
Qed.

Lemma for_step_keeps {St} (I : St -> Prop) w n f fuel : forall i s,
  I s -> (forall j s, I s -> I (f j s)) -> I (for_step fuel w n i f s).
Proof. induction fuel as [|fuel IH]; intros i s HI HIs; [done|]. simpl. destruct (i <? n); auto. Qed.

Lemma for_range_keeps {St} (I : St -> Prop) i n f s :
  I s -> (forall j s, i <= j < n -> I s -> I (f j s)) -> I (for_range i n f s).
Proof.
  intros HI HIs. destruct (decide (i <= n)); [|by rewrite for_range_nil by lia].
  apply (for_range_rule (fun _ => I)); auto.
Qed.

Lemma for_range_reaches {St} (I X : St -> Prop) i n f i0 s :
  i <= i0 < n -> I s -> (forall j s, i <= j < n -> I s -> I (f j s)) ->
  (forall j s, i <= j < n -> I s -> X s -> X (f j s)) -> (forall s, I s -> X (f i0 s)) -> X (for_range i n f s).
Proof.
  intros Hi HI HIs HXs HX. rewrite (for_range_split i (S i0)), for_range_snoc by lia.
  assert (I (for_range i i0 f s)) by (apply for_range_keeps; [done|]; intros; apply HIs; [lia|done]).
  apply (for_range_keeps (fun s => I s /\ X s)); [split; [apply HIs; [lia|done]|by apply HX]|].
  intros j s' Hj [HI' HX']. split; [apply HIs; [lia|done]|apply HXs; [lia|done..]].
Qed.

Section transpose.
Context {A : Type} {N : Num A} (M : list A) (rows cols : nat).

(** One copy, and what it keeps. *)
Definition copy (ii jj : nat) (out : list A) : list A := put (jj * rows + ii) (M !!! (ii * cols + jj)) out.

Definition copied (len : nat) (r c : nat) (out : list A) : Prop :=
  length out = len /\ out !!! (c * rows + r) = M !!! (r * cols + c).

Lemma copy_keeps len r c ii jj out :
  r < rows -> ii < rows -> c * rows + r < len -> copied len r c out -> copied len r c (copy ii jj out).
Proof.
  intros Hr Hi Hlen [Hl Hc]. split; [by unfold copy, put; rewrite length_insert|].
  pose proof (cell_put rows out jj ii (M !!! (ii * cols + jj)) c r Hi Hr) as H. unfold cell in H.
  destruct (decide (jj * rows + ii < length out)).
  - unfold copy. rewrite H by done. destruct ((c =? jj) && (r =? ii)) eqn:E; bool_props; [by subst|done].
  - unfold copy, put. by rewrite list_insert_ge by lia.
Qed.

Lemma copy_does len r c out : c * rows + r < len -> length out = len -> copied len r c (copy r c out).
Proof.
  intros Hlen Hl. split; [by unfold copy, put; rewrite length_insert|].
  unfold copy, put. apply list_lookup_total_insert_eq. lia.
Qed.

Definition block_copy (i j : nat) (out : list A) : list A :=
  for_range i (if i + BLOCK <? rows then i + BLOCK else rows) (fun ii out =>
    for_range j (if j + BLOCK <? cols then j + BLOCK else cols) (fun jj out => copy ii jj out) out) out.

Lemma block_copy_bounds i n : (if i + BLOCK <? n then i + BLOCK else n) <= n.
Proof. destruct (_ <? _) eqn:E; bool_props; lia. Qed.

Lemma in_block i n r : i <= r < i + BLOCK -> r < n -> i <= r < (if i + BLOCK <? n then i + BLOCK else n).
Proof. intros. destruct (_ <? _); lia. Qed.

Lemma block_copy_keeps len r c i j out :
  r < rows -> c * rows + r < len -> copied len r c out -> copied len r c (block_copy i j out).
Proof.
  intros Hr Hlen H. unfold block_copy. apply for_range_keeps; [done|]. intros ii o Hii Ho. apply for_range_keeps; [done|].
  intros jj o' Hjj Ho'. apply copy_keeps; [done| |done..].
  pose proof (block_copy_bounds i rows). lia.
Qed.

Lemma block_copy_length len i j out : length out = len -> length (block_copy i j out) = len.
Proof.
  intros H. unfold block_copy. apply (for_range_keeps (fun o => length o = len)); [done|]. intros ii o _ Ho.
  apply (for_range_keeps (fun o => length o = len)); [done|]. intros jj o' _ Ho'.
  unfold copy, put. by rewrite length_insert.
Qed.

Lemma block_copy_does len r c i j out :
  r < rows -> c < cols -> c * rows + r < len -> length out = len ->
  i <= r < i + BLOCK -> j <= c < j + BLOCK -> copied len r c (block_copy i j out).
Proof.
  intros Hr Hc Hlen Hl Hi Hj. pose proof (block_copy_bounds i rows) as Hb.
  unfold block_copy. apply (for_range_reaches (fun o => length o = len) _ i _ _ r).
  - by apply in_block.
  - done.
  - intros ii o _ Ho. apply (for_range_keeps (fun o => length o = len)); [done|]. intros jj o' _ Ho'.
    unfold copy, put. by rewrite length_insert.
  - intros ii o Hii _ Ho. apply for_range_keeps; [done|]. intros jj o' _ Ho'. apply copy_keeps; (done || lia).
  - intros o Ho. apply (for_range_reaches (fun o => length o = len) _ j _ _ c).
    + by apply in_block.
    + done.
    + intros jj o' _ Ho'. unfold copy, put. by rewrite length_insert.
    + intros jj o' _ _ Ho'. apply copy_keeps; (done || lia).
    + intros o' Ho'. by apply copy_does.
Qed.

Lemma block_start q w r : 0 < w -> q = r / w -> q * w <= r < q * w + w.
Proof. intros Hw ->. apply block_end, Hw. Qed.

Lemma transpose_copies out r c :
  cols * rows <= length out -> r < rows -> c < cols ->
  copied (length out) r c (exprtk_transpose M rows cols out).
Proof.
  intros Ho Hr Hc. assert (c * rows + r < length out) as Hlen by nia.
  assert (0 < BLOCK) as HB by (unfold BLOCK; lia).
  pose proof (block_start _ BLOCK r HB eq_refl) as Hbr. pose proof (block_start _ BLOCK c HB eq_refl) as Hbc.
  unfold exprtk_transpose.
  change (fun i out => for_step cols BLOCK cols 0 _ out)
    with (fun i out => for_step cols BLOCK cols 0 (fun j out => block_copy i j out) out).
  apply (for_step_reaches (fun o => length o = length out) _ BLOCK rows _ (r / BLOCK * BLOCK));
    [done|lia|lia|by exists (r / BLOCK)|done|..].
  - intros i o Hl. apply (for_step_keeps (fun o => length o = length out)); [done|].
    intros j o' Ho'. by apply block_copy_length.
  - intros i o _ Hx. apply for_step_keeps; [done|]. intros j o' Ho'. by apply block_copy_keeps.
  - intros o Hl. apply (for_step_reaches (fun o => length o = length out) _ BLOCK cols _ (c / BLOCK * BLOCK));
      [done|lia|lia|by exists (c / BLOCK)|done|..].
    + intros j o' Ho'. by apply block_copy_length.
    + intros j o' _ Ho'. by apply block_copy_keeps.
    + intros o' Ho'. by apply block_copy_does.
Qed.
End transpose.

Section transposed.
Context {A : Type} {N : Num A}.

(** The blocked [exprtk_transpose] moves the entry of row [r] and column [c] to row
    [c] and column [r], for matrices of every shape. *)
Theorem transpose_entries (M out : list A) rows cols r c :
  cols * rows <= length out -> r < rows -> c < cols ->
  exprtk_transpose M rows cols out !!! (c * rows + r) = M !!! (r * cols + c).
Proof. intros Ho Hr Hc. by apply (transpose_copies M rows cols out r c). Qed.

(** Transposing twice gives the matrix back. *)
Theorem transpose_twice (M out1 out2 : list A) rows cols :
  length M = rows * cols -> length out1 = rows * cols -> length out2 = rows * cols ->
  exprtk_transpose (exprtk_transpose M rows cols out1) cols rows out2 = M.
Proof.
  intros HM H1 H2. destruct (decide (rows * cols = 0)) as [E0|E0].
  { assert (forall (f : list A -> list A) (l : list A), length l = 0 -> length (f l) = length l -> f l = []) as Hnil.
    { intros f l Hl Hf. rewrite Hl in Hf. by apply nil_length_inv. }
    rewrite E0 in *. apply nil_length_inv in HM as ->. apply nil_length_inv in H2 as ->.
    apply nil_length_inv. apply (for_step_keeps (fun o => length o = 0)); [done|]. intros i o Ho.
    apply (for_step_keeps (fun o => length o = 0)); [done|]. intros j o' Ho'. by apply block_copy_length. }
  apply list_eq. intros p.
  assert (length (exprtk_transpose (exprtk_transpose M rows cols out1) cols rows out2) = rows * cols) as Hl.
  { rewrite <- H2. apply (transpose_copies _ cols rows out2 0 0); lia. }
  destruct (decide (p < rows * cols)) as [Hp|Hp]; [|by rewrite !lookup_ge_None_2 by lia].
  rewrite !list_lookup_lookup_total_lt by lia. f_equal.
  pose proof (Nat.div_mod p cols ltac:(lia)) as Hdm. pose proof (Nat.mod_upper_bound p cols ltac:(lia)) as Hc.
  assert (p / cols < rows) as Hr by (apply Nat.Div0.div_lt_upper_bound; lia).
  replace p with (p / cols * cols + p mod cols) at 1 2 by lia.
  rewrite transpose_entries by lia. by rewrite transpose_entries by lia.
Qed.
End transposed.

Section exact_product.
Context {A : Type} {N : Num A} {E : Exact A}.
Add Field product_arithmetic : exact_field.

Lemma entry_exact (M1 M2 : list A) k n i j p :
  entry M1 M2 k n i j p = total ((fun q => mul (M1 !!! (i * k + q)) (M2 !!! (q * n + j))) <$> seq 0 p).
Proof.
  unfold entry. apply (for_range_rule (fun p acc =>
    acc = total ((fun q => mul (M1 !!! (i * k + q)) (M2 !!! (q * n + j))) <$> seq 0 p))); [lia|done|].
  intros q s _ ->. rewrite seq_S, fmap_app, total_app. unfold acc_step. simpl.
  destruct (blocked 4 0 n j); [rewrite exact_fmadd|]; ring.
Qed.
End exact_product.
