(* ===== verification/GaussJordan.v ===== *)
(** Gauss-Jordan inversion ([gauss_jordan_invert] of [exprtk/src/simd_helpers.c],
    modelled in [Linalg.v]): what a column step does to the rows, and that in exact
    arithmetic an answer is an inverse of the matrix. *)

From S2P Require Import Prelude Float64 Simd SimdProofs SimdExact Linalg.
From Stdlib Require Import Ring Field Qcanon.
Local Open Scope nat_scope.

(** ** The steps on the rows *)

Section steps.
Context {A : Type} {N : Num A} (n cols : nat).

Definition shaped (aug : list A) : Prop := length aug = n * cols.

Lemma find_pivot_spec (aug : list A) col :
  col < n -> let (pivot, max_val) := find_pivot aug n cols col in
  col <= pivot < n /\ max_val = nabs (cell cols aug pivot col).
Proof.
  intros Hc. unfold find_pivot.
  apply (for_range_rule (fun _ '(pivot, max_val) => col <= pivot < n /\ max_val = nabs (cell cols aug pivot col)));
    [lia|split; [lia|done]|].
  intros row [pivot max_val] Hr [Hp ->]. destruct (ltb _ _); (split; [lia|done]).
Qed.

Definition swapped (aug : list A) (col pivot r c : nat) : A :=
  if r =? col then cell cols aug pivot c else if r =? pivot then cell cols aug col c else cell cols aug r c.

(** Exchanging the same part of two rows. *)
Lemma swap_part (aug0 aug : list A) col pivot s k :
  col < n -> pivot < n -> s + k <= cols -> shaped aug ->
  (forall r c, r < n -> c < cols -> cell cols aug r c = if c <? s then swapped aug0 col pivot r c else cell cols aug0 r c) ->
  let aug' := list_inserts (pivot * cols + s) ((fun j => aug !!! (col * cols + j)) <$> seq s k)
                (list_inserts (col * cols + s) ((fun j => aug !!! (pivot * cols + j)) <$> seq s k) aug) in
  shaped aug' /\
  forall r c, r < n -> c < cols ->
    cell cols aug' r c = if c <? s + k then swapped aug0 col pivot r c else cell cols aug0 r c.
Proof.
  intros Hc Hp Hs Hl H aug'. unfold shaped in *. unfold aug'. clear aug'. rewrite !length_inserts. split; [done|].
  intros r c Hr Hcc. rewrite cell_part by (rewrite ?length_inserts; nia). rewrite cell_part by nia.
  fold (cell cols aug col c). fold (cell cols aug pivot c). rewrite !H by done. unfold swapped.
  destruct (s <=? c) eqn:E1, (c <? s) eqn:E2, (c <? s + k) eqn:E3; bool_props; try lia;
    rewrite ?andb_false_r, ?andb_true_r; cbn [andb];
    destruct (r =? pivot) eqn:E4, (r =? col) eqn:E5; bool_props; subst; done.
Qed.

Lemma swap_rows_cells (aug : list A) col pivot :
  col < n -> pivot < n -> shaped aug ->
  shaped (swap_rows cols col pivot aug) /\
  forall r c, r < n -> c < cols -> cell cols (swap_rows cols col pivot aug) r c = swapped aug col pivot r c.
Proof.
  intros Hc Hp Hl. unfold swap_rows. destruct (pivot =? col) eqn:E; bool_props.
  { subst. split; [done|]. intros r c Hr Hcc. unfold swapped. by destruct (r =? col) eqn:E; bool_props; subst. }
  set (P s a := shaped a /\ forall r c, r < n -> c < cols ->
    cell cols a r c = if c <? s then swapped aug col pivot r c else cell cols aug r c).
  pose proof (block_end 4 cols ltac:(lia)) as Hend.
  destruct (for_blocks_rule P 4 cols (fun j aug =>
      let v1 := loadu 4 aug (col * cols + j) in
      let v2 := loadu 4 aug (pivot * cols + j) in
      storeu (pivot * cols + j) v1 (storeu (col * cols + j) v2 aug)) cols 0 aug) as [E1 E2];
    [lia|by exists 0|lia|lia|by split| |].
  - intros j a _ Hj [Ha Hcells]. cbv zeta. unfold storeu.
    rewrite !loadu_row by (unfold shaped in Ha; nia). by apply swap_part.
  - destruct (for_blocks _ _ _ _ _ _) as [j a]. cbn [fst snd] in E1, E2. subst j.
    match goal with |- shaped ?x /\ _ => assert (P cols x) as [HP1 HP2] end.
    + apply for_range_rule; [lia|done|]. intros j a' Hj [Ha' Hcells].
      pose proof (swap_part aug a' col pivot j 1 Hc Hp ltac:(lia) Ha' Hcells) as H.
      rewrite Nat.add_1_r in H. exact H.
    + split; [done|]. intros r c Hr Hcc. rewrite HP2 by done. by rewrite (proj2 (Nat.ltb_lt c cols)).
Qed.

Lemma scale_row_cells (aug : list A) col :
  col < n -> shaped aug ->
  let diag := cell cols aug col col in
  shaped (scale_row cols col aug) /\
  forall r c, r < n -> c < cols ->
    cell cols (scale_row cols col aug) r c
    = if r =? col then (if blocked 4 0 cols c then mul (cell cols aug r c) (div one diag) else div (cell cols aug r c) diag)
      else cell cols aug r c.
Proof.
  intros Hc Hl diag. unfold shaped in *. unfold scale_row. fold (cell cols aug col col). fold diag.
  rewrite (row_loop 4 (col * cols) cols _ (fun d j => div (d !!! (col * cols + j)) diag)
    (fun d j => mul (d !!! (col * cols + j)) (div one diag))).
  - rewrite length_inserts. split; [done|]. intros r c Hr Hcc. rewrite cell_row by nia.
    destruct (r =? col) eqn:E; bool_props; [by subst|done].
  - lia.
  - intros j d d' Hj _ Hp. rewrite !list_lookup_total_alt, !Hp by lia. done.
  - intros j d d' Hj _ Hp. rewrite !list_lookup_total_alt, !Hp by lia. done.
  - intros j d Hd Hj. rewrite loadu_row by nia. by rewrite (set1_at 4 _ j), zip_with_seq.
Qed.

Lemma eliminate_row_cells (aug : list A) col row :
  col < n -> row < n -> shaped aug ->
  let factor := cell cols aug row col in
  shaped (eliminate_row cols col row aug) /\
  forall r c, r < n -> c < cols ->
    cell cols (eliminate_row cols col row aug) r c
    = if (r =? row) && negb (r =? col) then
        (if blocked 4 0 cols c then fnmadd factor (cell cols aug col c) (cell cols aug r c)
         else sub (cell cols aug r c) (mul factor (cell cols aug col c)))
      else cell cols aug r c.
Proof.
  intros Hc Hrow Hl factor. unfold shaped in *. unfold eliminate_row. destruct (row =? col) eqn:E; bool_props.
  { subst. split; [done|]. intros r c _ _. by destruct (r =? col). }
  fold (cell cols aug row col). fold factor.
  assert (col * cols + cols <= row * cols \/ row * cols + cols <= col * cols) as Hapart by nia.
  rewrite (row_loop 4 (row * cols) cols _ (fun d j => sub (d !!! (row * cols + j)) (mul factor (d !!! (col * cols + j))))
    (fun d j => fnmadd factor (d !!! (col * cols + j)) (d !!! (row * cols + j)))).
  - rewrite length_inserts. split; [done|]. intros r c Hr Hcc. rewrite cell_row by nia.
    destruct (r =? row) eqn:E1; [|done]. bool_props. subst.
    rewrite (proj2 (Nat.eqb_neq row col)) by done. done.
  - lia.
  - intros j d d' Hj _ Hp. rewrite !list_lookup_total_alt, !Hp by lia. done.
  - intros j d d' Hj _ Hp. rewrite !list_lookup_total_alt, !Hp by lia. done.
  - intros j d Hd Hj. rewrite (set1_at 4 _ j), !loadu_row by nia. by rewrite fnma3_seq.
Qed.
End steps.

(** ** Exact arithmetic *)

Section inverse.
Context {A : Type} {N : Num A} {E : Exact A}.
Add Field exact_numbers : exact_field.
Context (mat : list A) (n : nat).

(** Entry [j] of the row vector [v] times the matrix. *)
Definition times (v : nat -> A) (j : nat) : A := total ((fun k => mul (v k) (mat !!! (k * n + j))) <$> seq 0 n).

Lemma times_ext v u j : (forall k, k < n -> v k = u k) -> times v j = times u j.
Proof.
  intros H. unfold times. f_equal. apply list_fmap_ext. intros _ k Hk%list_elem_of_lookup_2.
  apply elem_of_seq in Hk. by rewrite H by lia.
Qed.

Lemma times_scale s v j : times (fun k => mul (v k) s) j = mul (times v j) s.
Proof.
  unfold times. induction (seq 0 n) as [|k l IH]; simpl; [ring|].
  change (list_fmap nat A ?f l) with (f <$> l). rewrite IH. ring.
Qed.

Lemma times_sub f v u j :
  times (fun k => sub (v k) (mul f (u k))) j = sub (times v j) (mul f (times u j)).
Proof.
  unfold times. induction (seq 0 n) as [|k l IH]; simpl; [ring|].
  change (list_fmap nat A ?f l) with (f <$> l). rewrite IH. ring.
Qed.

Definition delta (r c : nat) : A := if r =? c then one else zero.

Lemma times_delta r j : r < n -> times (delta r) j = mat !!! (r * n + j).
Proof.
  intros Hr. unfold times.
  assert (forall k i, total ((fun p => mul (delta r p) (mat !!! (p * n + j))) <$> seq i k)
                      = if (i <=? r) && (r <? i + k) then mat !!! (r * n + j) else zero) as H.
  { intros k. induction k as [|k IH]; intros i; simpl.
    - destruct (i <=? r) eqn:E1, (r <? i + 0) eqn:E2; bool_props; done || lia.
    - change (list_fmap nat A ?f ?l) with (f <$> l). rewrite IH. unfold delta.
      destruct (r =? i) eqn:E0; bool_props.
      + subst. rewrite (proj2 (Nat.leb_gt (S i) i)), (proj2 (Nat.leb_le i i)), (proj2 (Nat.ltb_lt i (i + S k))) by lia.
        simpl. ring.
      + destruct (S i <=? r) eqn:E1, (i <=? r) eqn:E2, (r <? S i + k) eqn:E3, (r <? i + S k) eqn:E4;
          bool_props; try lia; simpl; ring. }
  rewrite H. cbn [Nat.leb andb]. by rewrite (proj2 (Nat.ltb_lt _ _)) by lia.
Qed.

(** Every row of the augmented matrix is its right half times [mat], and its left half;
    the first [col] columns are those of the identity. *)
Definition row_ok (aug : list A) (r : nat) : Prop :=
  forall j, j < n -> cell (2 * n) aug r j = times (fun k => cell (2 * n) aug r (n + k)) j.

Definition units (aug : list A) (col : nat) : Prop :=
  forall r c, r < n -> c < col -> cell (2 * n) aug r c = delta r c.

Definition gj_inv (col : nat) (aug : list A) : Prop :=
  shaped n (2 * n) aug /\ (forall r, r < n -> row_ok aug r) /\ units aug col.

Lemma div_mul (x d : A) : div x d = mul x (div one d).
Proof. apply (Fdiv_def exact_field). Qed.

Lemma swap_inv aug col pivot :
  col <= pivot < n -> gj_inv col aug -> gj_inv col (swap_rows (2 * n) col pivot aug).
Proof.
  intros Hp (Hs & Hrow & Hu). destruct (swap_rows_cells n (2 * n) aug col pivot) as [Hs' Hc]; [lia|lia|done|].
  split; [done|]. split.
  - intros r Hr j Hj. rewrite Hc by lia. rewrite (times_ext _ (fun k => swapped (2 * n) aug col pivot r (n + k)))
      by (intros; apply Hc; lia).
    unfold swapped. destruct (r =? col); [apply Hrow; lia|]. destruct (r =? pivot); apply Hrow; lia.
  - intros r c Hr Hcc. rewrite Hc by lia. unfold swapped.
    destruct (r =? col) eqn:E1; [|destruct (r =? pivot) eqn:E2; [|by apply Hu]]; bool_props; subst.
    + rewrite Hu by lia. unfold delta. by rewrite (proj2 (Nat.eqb_neq pivot c)), (proj2 (Nat.eqb_neq col c)) by lia.
    + rewrite Hu by lia. unfold delta. by rewrite (proj2 (Nat.eqb_neq pivot c)), (proj2 (Nat.eqb_neq col c)) by lia.
Qed.

Lemma scale_cells aug col r c :
  col < n -> shaped n (2 * n) aug -> r < n -> c < 2 * n ->
  cell (2 * n) (scale_row (2 * n) col aug) r c
  = if r =? col then mul (cell (2 * n) aug r c) (div one (cell (2 * n) aug col col)) else cell (2 * n) aug r c.
Proof.
  intros Hc Hs Hr Hcc. rewrite (proj2 (scale_row_cells n (2 * n) aug col Hc Hs)) by done.
  destruct (r =? col); [|done]. destruct (blocked _ _ _ _); [done|apply div_mul].
Qed.

Lemma scale_inv aug col :
  col < n -> cell (2 * n) aug col col <> zero -> gj_inv col aug ->
  gj_inv col (scale_row (2 * n) col aug) /\ cell (2 * n) (scale_row (2 * n) col aug) col col = one.
Proof.
  intros Hc Hz (Hs & Hrow & Hu). pose proof (fun r c => scale_cells aug col r c Hc Hs) as Hcell.
  split; [split; [by apply (scale_row_cells n (2 * n) aug col)|split]|].
  - intros r Hr j Hj. rewrite Hcell by lia.
    rewrite (times_ext _ (fun k => if r =? col then mul (cell (2 * n) aug r (n + k)) (div one (cell (2 * n) aug col col))
                                   else cell (2 * n) aug r (n + k))) by (intros; apply Hcell; lia).
    destruct (r =? col); [|by apply Hrow]. rewrite times_scale. f_equal. by apply Hrow.
  - intros r c Hr Hcc. rewrite Hcell by lia. destruct (r =? col) eqn:E1; [|by apply Hu]. bool_props. subst.
    rewrite Hu by done.
    unfold delta. rewrite (proj2 (Nat.eqb_neq col c)) by lia. ring.
  - rewrite Hcell by lia. rewrite Nat.eqb_refl. field. done.
Qed.

Lemma eliminate_cells aug col row r c :
  col < n -> row < n -> shaped n (2 * n) aug -> r < n -> c < 2 * n ->
  cell (2 * n) (eliminate_row (2 * n) col row aug) r c
  = if (r =? row) && negb (r =? col)
    then sub (cell (2 * n) aug r c) (mul (cell (2 * n) aug row col) (cell (2 * n) aug col c))
    else cell (2 * n) aug r c.
Proof.
  intros Hc Hrow Hs Hr Hcc. rewrite (proj2 (eliminate_row_cells n (2 * n) aug col row Hc Hrow Hs)) by done.
  destruct (_ && _); [|done]. destruct (blocked _ _ _ _); [apply exact_fnmadd|done].
Qed.

(** Rows below [row] have been cleared in column [col]. *)
Definition clearing (col row : nat) (aug : list A) : Prop :=
  gj_inv col aug /\ cell (2 * n) aug col col = one /\
  forall r, r < row -> r < n -> cell (2 * n) aug r col = delta r col.

Lemma eliminate_inv aug col row :
  col < n -> row < n -> clearing col row aug -> clearing col (S row) (eliminate_row (2 * n) col row aug).
Proof.
  intros Hc Hrow ((Hs & Hok & Hu) & H1 & Hclr).
  pose proof (fun r c => eliminate_cells aug col row r c Hc Hrow Hs) as Hcell.
  split; [split; [by apply (eliminate_row_cells n (2 * n) aug col row)|split]|split].
  - intros r Hr j Hj. rewrite Hcell by lia.
    rewrite (times_ext _ (fun k => if (r =? row) && negb (r =? col)
      then sub (cell (2 * n) aug r (n + k)) (mul (cell (2 * n) aug row col) (cell (2 * n) aug col (n + k)))
      else cell (2 * n) aug r (n + k))) by (intros; apply Hcell; lia).
    destruct (_ && _); [|by apply Hok]. rewrite times_sub. by rewrite (Hok r Hr j Hj), (Hok col Hc j Hj).
  - intros r c Hr Hcc. rewrite Hcell by lia. rewrite (Hu r c), (Hu col c) by lia.
    destruct (_ && _); [|done]. unfold delta. rewrite (proj2 (Nat.eqb_neq col c)) by lia. ring.
  - rewrite Hcell by lia. by rewrite Nat.eqb_refl, andb_false_r.
  - intros r Hr Hrn. rewrite Hcell by lia. rewrite H1. destruct (r =? row) eqn:E1; bool_props.
    + subst. destruct (row =? col) eqn:E2; bool_props; cbn [andb negb].
      * subst. rewrite H1. unfold delta. by rewrite Nat.eqb_refl.
      * unfold delta. rewrite (proj2 (Nat.eqb_neq row col)) by done. ring.
    + apply Hclr; [lia|done].
Qed.

(** One column: the answer is the invariant for the next, or "singular". *)
Lemma gj_column_inv col aug aug' :
  col < n -> gj_inv col aug -> gj_column n col aug = Some aug' -> gj_inv (S col) aug'.
Proof.
  intros Hc Hinv. unfold gj_column. pose proof (find_pivot_spec n (2 * n) aug col Hc) as Hp.
  destruct (find_pivot _ _ _ _) as [pivot max_val]. destruct Hp as [Hp ->].
  destruct (ltb _ _) eqn:Et; [done|]. intros [= <-]. apply exact_tiny in Et.
  set (aug1 := swap_rows (2 * n) col pivot aug).
  assert (gj_inv col aug1) as H1 by (by apply swap_inv).
  assert (cell (2 * n) aug1 col col <> zero) as Hz.
  { unfold aug1. rewrite (proj2 (swap_rows_cells n (2 * n) aug col pivot Hc ltac:(lia) (proj1 Hinv))) by lia.
    unfold swapped. by rewrite Nat.eqb_refl. }
  destruct (scale_inv aug1 col Hc Hz H1) as [H2 Hone].
  assert (clearing col n (for_range 0 n (eliminate_row (2 * n) col) (scale_row (2 * n) col aug1))) as [H3 [_ Hclr]].
  { apply for_range_rule; [lia|split; [done|split; [done|intros; lia]]|].
    intros row s Hr Hs. apply eliminate_inv; [done|lia|done]. }
  destruct H3 as (Hs & Hok & Hu). split; [done|]. split; [done|].
  intros r c Hr Hcc. destruct (decide (c = col)) as [->|]; [by apply Hclr|]. apply Hu; lia.
Qed.

(** The matrix beside the identity. *)
Lemma augment_row (aug : list A) i :
  i < n -> shaped n (2 * n) aug ->
  let aug' := for_range 0 n (fun j aug => put (i * (2 * n) + n + j) (if i =? j then one else zero) aug)
                (for_range 0 n (fun j aug => put (i * (2 * n) + j) (mat !!! (i * n + j)) aug) aug) in
  shaped n (2 * n) aug' /\
  forall r c, r < n -> c < 2 * n ->
    cell (2 * n) aug' r c
    = if r =? i then (if c <? n then mat !!! (r * n + c) else delta r (c - n)) else cell (2 * n) aug r c.
Proof.
  intros Hi Hs aug'. unfold shaped in *. unfold aug', put. clear aug'.
  rewrite (for_range_put (i * (2 * n)) (fun _ j => mat !!! (i * n + j)) 0 n aug) by (done || lia).
  rewrite (for_range_put (i * (2 * n) + n) (fun _ j => if i =? j then one else zero) 0 n) by (done || lia).
  rewrite !Nat.add_0_r, !Nat.sub_0_r, !length_inserts. split; [done|]. intros r c Hr Hc.
  assert ((fun j => if i =? j then one else zero) <$> seq 0 n = ((fun p => delta i (p - n)) <$> seq n n)) as ->.
  { rewrite <- (Nat.add_0_r n) at 2. rewrite <- (fmap_add_seq n 0 n), <- list_fmap_compose.
    apply list_fmap_ext. intros _ j _. unfold delta, compose. by replace (n + j - n) with j by lia. }
  rewrite cell_part by (rewrite ?length_inserts; nia).
  pose proof (cell_part (2 * n) aug (fun j => mat !!! (i * n + j)) 0 n i r c Hc ltac:(lia) ltac:(nia)) as H.
  rewrite Nat.add_0_r in H. rewrite H. destruct (r =? i) eqn:E1; [|done]. bool_props. subst. cbn [andb].
  destruct (c <? n) eqn:E2; bool_props.
  - rewrite (proj2 (Nat.leb_gt n c)) by done. cbn [andb]. by rewrite (proj2 (Nat.ltb_lt c _)) by lia.
  - rewrite (proj2 (Nat.leb_le n c)), (proj2 (Nat.ltb_lt c (n + n))) by lia. done.
Qed.

Lemma augment_inv (raw : list A) :
  shaped n (2 * n) raw -> gj_inv 0 (augment mat n raw).
Proof.
  intros Hs. unfold augment.
  match goal with |- gj_inv 0 (for_range 0 n ?f raw) => set (body := f) end.
  assert (shaped n (2 * n) (for_range 0 n body raw) /\ forall r c, r < n -> c < 2 * n ->
    cell (2 * n) (for_range 0 n body raw) r c = if c <? n then mat !!! (r * n + c) else delta r (c - n)) as [Hs' Hc].
  - pose proof (for_range_rule (fun i aug => shaped n (2 * n) aug /\ forall r c, r < i -> i <= n -> c < 2 * n ->
      cell (2 * n) aug r c = if c <? n then mat !!! (r * n + c) else delta r (c - n)) 0 n body raw) as H.
    destruct H as [H1 H2]; [lia|split; [done|lia]| |split; [done|auto]].
    intros i aug Hi [Ha Hcells]. destruct (augment_row aug i) as [Ha' Hc']; [lia|done|].
    split; [exact Ha'|]. intros r c Hr _ Hc. rewrite Hc' by lia.
    destruct (r =? i) eqn:E1; bool_props; [done|]. apply Hcells; lia.
  - split; [done|]. split; [|intros r c _ ?; lia]. intros r Hr j Hj. rewrite Hc by lia.
    rewrite (proj2 (Nat.ltb_lt j n)) by done.
    rewrite (times_ext _ (delta r)).
    + symmetry. by apply times_delta.
    + intros k Hk. rewrite Hc by lia. rewrite (proj2 (Nat.ltb_ge _ _)) by lia. f_equal. lia.
Qed.

Lemma columns_inv k aug :
  k <= n -> gj_inv 0 aug ->
  match for_range 0 k (fun col s => s ≫= gj_column n col) (Some aug) with
  | Some aug' => gj_inv k aug'
  | None => True
  end.
Proof.
  intros Hk Ha. apply (for_range_rule (fun col s => match s with Some aug' => gj_inv col aug' | None => True end));
    [lia|done|]. intros col [a|] Hc Hs; [|done]. simpl.
  destruct (gj_column n col a) as [a'|] eqn:E1; [|done]. apply (gj_column_inv col a); (done || lia).
Qed.

(** The right half, copied over the matrix. *)
Lemma copy_back (aug : list A) i j :
  length mat = n * n -> i < n -> j < n ->
  let out := for_range 0 n (fun i mat => for_range 0 n (fun j mat =>
               put (i * n + j) (aug !!! (i * (2 * n) + n + j)) mat) mat) mat in
  length out = n * n /\ out !!! (i * n + j) = cell (2 * n) aug i (n + j).
Proof.
  intros Hl Hi Hj out. unfold out. clear out.
  match goal with |- length (for_range 0 n ?f mat) = _ /\ _ => set (body := f) end.
  pose proof (for_range_rule (fun k m => length m = n * n /\ forall r c, r < k -> k <= n -> c < n ->
    cell n m r c = cell (2 * n) aug r (n + c)) 0 n body mat) as H.
  destruct H as [H1 H2]; [lia|split; [done|lia]| |split; [done|apply (H2 i j); lia]].
  intros k m Hk [Hm Hc]. unfold body, put.
  rewrite (for_range_put (k * n) (fun _ j => aug !!! (k * (2 * n) + n + j)) 0 n m) by (done || lia).
  rewrite Nat.add_0_r, Nat.sub_0_r, length_inserts. split; [done|]. intros r c Hr _ Hcn.
  rewrite cell_row by nia. destruct (r =? k) eqn:E1; bool_props; [subst; unfold cell; f_equal; lia|].
  apply Hc; lia.
Qed.

(** C19: In exact arithmetic, what [gauss_jordan_invert] answers for a matrix is its
    inverse: multiplied by the matrix it gives the identity.  The vectorised row
    operations, the pivoting and the early return are those of the code. *)
Theorem gauss_jordan_inverse (raw inv : list A) i j :
  length mat = n * n -> shaped n (2 * n) raw ->
  gauss_jordan_invert mat n (Some raw) = Some inv -> i < n -> j < n ->
  length inv = n * n /\
  total ((fun k => mul (inv !!! (i * n + k)) (mat !!! (k * n + j))) <$> seq 0 n) = if i =? j then one else zero.
Proof.
  intros Hl Hraw. unfold gauss_jordan_invert. destruct (n =? 0) eqn:E0; [done|]. simpl.
  pose proof (columns_inv n _ (le_n n) (augment_inv raw Hraw)) as Hinv.
  destruct (for_range 0 n _ (Some _)) as [aug|]; [|done]. simpl. intros [= <-] Hi Hj.
  destruct Hinv as (Hs & Hok & Hu). split; [by apply (copy_back aug i j)|].
  pose proof (Hok i Hi j Hj) as H. rewrite (Hu i j Hi Hj) in H. unfold delta in H. rewrite H.
  apply times_ext. intros k Hk. by apply (copy_back aug i k).
Qed.
End inverse.

Lemma gauss_jordan_inverse_witness :
  let mat := [Qc_lit 2 0; Qc_lit 1 0; Qc_lit 1 0; Qc_lit 1 0] in
  match gauss_jordan_invert mat 2 (Some (replicate 8 zero)) with
  | Some inv => total ((fun k => mul (inv !!! (0 * 2 + k)) (mat !!! (k * 2 + 0))) <$> seq 0 2) = one
  | None => False
  end.
Proof.
  intros mat. destruct (gauss_jordan_invert mat 2 (Some (replicate 8 zero))) as [inv|] eqn:Ei.
  - apply (gauss_jordan_inverse mat 2 (replicate 8 zero) inv 0 0); (done || lia).
  - vm_compute in Ei. discriminate Ei.
Defined.

(** ** Two by two, three by three *)

Section small.
Context {A : Type} {N : Num A} {E : Exact A}.
Add Field exact_entries : exact_field.

Definition identity (n : nat) : list A := seq 0 n ≫= fun r => delta r <$> seq 0 n.

(** In exact arithmetic the matrices times the answers of [exprtk_inv2] and
    [exprtk_inv3], multiplied by [exprtk_matmul], are the identity. *)
Theorem small_inverses (a b c d e f g h i : A) inv2 inv3 :
  exprtk_inv2 [a; b; c; d] = Some inv2 -> exprtk_inv3 [a; b; c; d; e; f; g; h; i] = Some inv3 ->
  exprtk_matmul [a; b; c; d] inv2 2 2 2 (replicate 4 zero) = identity 2 /\
  exprtk_matmul [a; b; c; d; e; f; g; h; i] inv3 3 3 3 (replicate 9 zero) = identity 3.
Proof.
  unfold exprtk_inv2, exprtk_inv3. intros H2 H3.
  destruct (ltb _ _) eqn:E2 in H2; [done|]. destruct (ltb _ _) eqn:E3 in H3; [done|].
  apply exact_tiny in E2, E3. injection H2 as <-. injection H3 as <-.
  cbv [exprtk_det2 exprtk_det3] in *. cbn in *.
  split; lazy -[add sub mul div opp zero one]; repeat f_equal; by field.
Qed.
End small.

Lemma small_inverses_witness :
  let q z := Qc_lit z 0 in
  match exprtk_inv2 [q 2; q 1; q 1; q 1], exprtk_inv3 [q 2; q 1; q 1; q 1; q 1; q 0; q 0; q 0; q 1] with
  | Some inv2, Some inv3 =>
      exprtk_matmul [q 2; q 1; q 1; q 1] inv2 2 2 2 (replicate 4 zero) = identity 2
  | _, _ => False
  end%Z.
Proof.
  intros q. destruct (exprtk_inv2 _) as [inv2|] eqn:E2; [|vm_compute in E2; discriminate E2].
  destruct (exprtk_inv3 _) as [inv3|] eqn:E3; [|vm_compute in E3; discriminate E3].
  apply (small_inverses _ _ _ _ _ _ _ _ _ _ _ E2 E3).
Defined.
