(* ===== verification/Stats.v ===== *)
(** Statistics and number functions of [exprtk/src/simd_helpers.c]: order statistics by
    [qsort] ([SortSearch.v]), means and moments on the lanes of [Simd.v], the line through
    points, the greatest common divisor and the Fibonacci numbers. *)

From S2P Require Import Prelude Float64 SortSearch Simd SimdProofs SimdReduce SimdExact.
From Stdlib Require Import Ring Field Qcanon SpecFloat.
Local Open Scope nat_scope.

(** ** Order statistics *)

Definition compare_doubles (a b : f64) : Z :=
  if (a <? b)%f64 then -1 else if (a >? b)%f64 then 1 else 0.

(** The memory for the sorted copy is there. *)
Definition exprtk_median `{QSort} (data : list f64) (n : nat) : f64 :=
  if n =? 0 then f64_zero else
  let sorted := qsort compare_doubles (take n data) in
  if n mod 2 =? 1 then sorted !!! (n / 2)
  else f64_div (f64_add (sorted !!! (n / 2 - 1)) (sorted !!! (n / 2))) (f64_of_Z 2).

(** The conversion of a double to [size_t] is defined for -1 < x < 2^64. *)
Definition size_of_f64 (x : f64) : option Z :=
  match f64_trunc x with
  | Some z => if (0 <=? z)%Z && (z <=? SIZE_MAX)%Z then Some z else None
  | None => None
  end.

(** [None] is undefined behaviour: a conversion out of range or a read past the array. *)
Definition exprtk_percentile `{QSort} (data : list f64) (n : nat) (p : f64) : option f64 :=
  if n =? 0 then Some f64_zero else
  let p := (p / f64_of_Z 100)%f64 in
  let sorted := qsort compare_doubles (take n data) in
  if n =? 1 then sorted !! 0 else
  let idx := (p * f64_of_Z (Z.of_nat (n - 1)))%f64 in
  lo ← Z.to_nat <$> size_of_f64 idx;
  let hi := if lo + 1 <? n then lo + 1 else lo in
  let frac := (idx - f64_of_Z (Z.of_nat lo))%f64 in
  x ← sorted !! lo;
  y ← sorted !! hi;
  Some (x + frac * (y - x))%f64.

(** ** Means and moments *)

Section moments.
Context {A : Type} {N : Num A} (sqrt : A -> A).

Definition three : A := lit 3 0.

Definition exprtk_harmonic_mean (data : list A) (n : nat) : A :=
  if n =? 0 then zero else
  if existsb (fun i => ltb (nabs (data !!! i)) (lit 1 (-15))) (seq 0 n) then zero else
  let one_ i s := add s (div one (data !!! i)) in
  let sum_inv :=
    if n <? SIMD_THRESHOLD then for_range 0 n one_ zero else
    let (i, acc) := for_blocks n 4 n 0
                      (fun i acc => zip_with add acc (zip_with div (set1 4 one) (loadu 4 data i))) (set1 4 zero) in
    for_range i n one_ (hsum acc) in
  div (of_size n) sum_inv.

(** The loops of the third and the fourth moment; [d] is the deviation from the mean. *)
Definition moment_loop (data : list A) (n : nat) (mean : A) (term : A -> A)
    (wide : list A -> list A -> list A) : A :=
  let one_ i m := add m (term (sub (data !!! i) mean)) in
  if n <? SIMD_THRESHOLD then for_range 0 n one_ zero else
  let (i, acc) := for_blocks n 4 n 0
                    (fun i acc => wide (zip_with sub (loadu 4 data i) (set1 4 mean)) acc) (set1 4 zero) in
  for_range i n one_ (hsum acc).

Definition exprtk_skewness (data : list A) (n : nat) : A :=
  if n <? 3 then zero else
  let (mean, var) := simd_mean_variance data n in
  let std_dev := sqrt var in
  if ltb std_dev (lit 1 (-15)) then zero else
  let m3 := moment_loop data n mean (fun d => mul (mul d d) d) (fun vd acc3 => fma3 (zip_with mul vd vd) vd acc3) in
  mul (div (of_size n) (mul (of_size (n - 1)) (of_size (n - 2)))) (div m3 (mul (mul std_dev std_dev) std_dev)).

Definition exprtk_kurtosis (data : list A) (n : nat) : A :=
  if n <? 4 then zero else
  let (mean, var) := simd_mean_variance data n in
  if ltb var (lit 1 (-15)) then zero else
  let m4 := moment_loop data n mean (fun d => let d2 := mul d d in mul d2 d2)
              (fun vd acc4 => let vd2 := zip_with mul vd vd in fma3 vd2 vd2 acc4) in
  let nn := of_size n in
  let n1 := sub nn one in
  let n2 := sub nn (lit 2 0) in
  let n3 := sub nn three in
  sub (mul (div (mul nn (add nn one)) (mul (mul n1 n2) n3)) (div m4 (mul var var)))
      (div (mul (mul three n1) n1) (mul n2 n3)).

(** ** The line through points *)

Record ols_result_t := Ols { intercept : A; slope : A; res_var : A; t_slope : A }.

Definition residual (r_int r_slope : A) (y x : list A) (i : nat) : A :=
  sub (y !!! i) (add r_int (mul r_slope (x !!! i))).

Definition ols_sse (r_int r_slope : A) (y x : list A) (n : nat) : A :=
  let one_ i sse := let e := residual r_int r_slope y x i in add sse (mul e e) in
  if n <? SIMD_THRESHOLD then for_range 0 n one_ zero else
  let (i, acc) := for_blocks n 4 n 0 (fun i acc =>
      let e := zip_with sub (loadu 4 y i) (fma3 (set1 4 r_slope) (loadu 4 x i) (set1 4 r_int)) in
      fma3 e e acc) (set1 4 zero) in
  for_range i n one_ (hsum acc).

Definition ols_fit (y x : list A) (n : nat) : ols_result_t :=
  let nothing := Ols zero zero zero zero in
  if n <? 3 then nothing else
  let sx := simd_sum x n in
  let sy := simd_sum y n in
  let sxx := simd_dot x x n in
  let sxy := simd_dot x y n in
  let denom := sub (mul (of_size n) sxx) (mul sx sx) in
  if ltb (nabs denom) (lit 1 (-15)) then nothing else
  let r_slope := div (sub (mul (of_size n) sxy) (mul sx sy)) denom in
  let r_int := div (sub sy (mul r_slope sx)) (of_size n) in
  let r_var := div (ols_sse r_int r_slope y x n) (of_size (n - 2)) in
  let se_slp_sq := div (mul r_var (of_size n)) denom in
  Ols r_int r_slope r_var (if ltb zero se_slp_sq then div r_slope (sqrt se_slp_sq) else zero).
End moments.

(** ** Numbers *)

Definition exprtk_fibonacci (n : Z) : f64 :=
  if (n <=? 0)%Z then f64_zero else
  if (n =? 1)%Z then f64_one else
  (for_range 2 (S (Z.to_nat n)) (fun _ '(a, b) => (b, (a + b)%f64)) (f64_zero, f64_one)).2.

(** The [while] of Euclid's algorithm; [None] when [fuel] rounds are not enough.  [%] is
    the remainder of C. *)
Fixpoint gcd_loop (fuel : nat) (u v : Z) : option Z :=
  if (v =? 0)%Z then Some u else
  match fuel with
  | O => None
  | S fuel => gcd_loop fuel v (Z.rem u v)
  end.

(** [llabs] of the least [long long] is undefined; the model has its absolute value there. *)
Definition exprtk_gcd (fuel : nat) (u v : Z) : option Z := gcd_loop fuel (Z.abs u) (Z.abs v).

(** ** Order *)

Lemma compare_doubles_le a b :
  is_nan a = false -> is_nan b = false -> (compare_doubles a b <= 0)%Z <-> le a b.
Proof.
  intros Ha Hb. unfold compare_doubles, le. destruct (a <? b)%f64 eqn:E1.
  - split; [intros _; by apply f64_ltb_leb|lia].
  - destruct (b <? a)%f64 eqn:E2; split; try lia.
    + intros H. by rewrite (f64_leb_ltb_false _ _ H) in E2.
    + intros _. by apply f64_ltb_false_leb.
Qed.

Lemma compare_doubles_flip a b : compare_doubles b a = (- compare_doubles a b)%Z.
Proof.
  unfold compare_doubles. destruct (a <? b)%f64 eqn:E1, (b <? a)%f64 eqn:E2; try done.
  by rewrite (f64_ltb_asym _ _ E1) in E2.
Qed.

Lemma compare_doubles_consistent l : no_nan l -> consistent compare_doubles l.
Proof.
  intros Hl. split.
  - intros a b _ _. rewrite (compare_doubles_flip a b). lia.
  - intros a b c Ha Hb Hc. rewrite !compare_doubles_le by (by apply (no_nan_elem l)). apply le_trans.
Qed.

Section order.
Context {QS : QSort}.

Lemma sorted_data data n :
  no_nan (take n data) -> n <= length data ->
  let sorted := qsort compare_doubles (take n data) in
  length sorted = n /\ no_nan sorted /\
  forall i j, i <= j < n -> le (sorted !!! i) (sorted !!! j).
Proof.
  intros Hn Hl sorted. pose proof (qsort_perm compare_doubles (take n data)) as Hp. fold sorted in Hp.
  assert (length sorted = n) as Hlen by (rewrite Hp; rewrite length_take; lia).
  assert (no_nan sorted) as Hs.
  { apply Forall_forall. intros x Hx. rewrite Hp in Hx. by apply (no_nan_elem (take n data)). }
  split; [done|]. split; [done|]. intros i j Hij.
  assert (forall k, k < n -> is_nan (sorted !!! k) = false) as Hk.
  { intros k Hk. apply (no_nan_elem sorted); [done|]. apply list_elem_of_lookup_total_2. lia. }
  destruct (decide (i = j)) as [->|]; [apply le_refl, Hk; lia|].
  apply compare_doubles_le; [apply Hk; lia..|].
  apply (StronglySorted_lookup (fun a b => (compare_doubles a b <= 0)%Z) sorted i j); [|lia|apply list_lookup_lookup_total_lt; lia..].
  apply qsort_sorted. by apply compare_doubles_consistent.
Qed.

Lemma count_at_least {A} (P : A -> Prop) `{forall x, Decision (P x)} (l : list A) (k : list A) :
  k `sublist_of` l -> Forall P k -> length k <= length (base.filter P l).
Proof.
  intros Hs Hk. rewrite <- (filter_all P k Hk) at 1. apply sublist_length.
  clear Hk. induction Hs as [|x l1 l2 Hs IH|x l1 l2 Hs IH].
  - done.
  - destruct (decide (P x)); [rewrite !filter_cons_True by done; by constructor|by rewrite !filter_cons_False by done].
  - destruct (decide (P x)); [rewrite (filter_cons_True _ x l2) by done; by constructor|by rewrite (filter_cons_False _ x l2) by done].
Qed.

Definition at_most (m : f64) (l : list f64) : nat := length (base.filter (fun x => (x <=? m)%f64 = true) l).
Definition at_least (m : f64) (l : list f64) : nat := length (base.filter (fun x => (m <=? x)%f64 = true) l).

(** The median of numbers without a NaN is an element with at least half of them on
    either side, itself included, or half the sum of two neighbours in order when their
    number is even, each with half of the elements on its side. *)
Theorem median_splits (data : list f64) n :
  0 < n <= length data -> no_nan (take n data) ->
  exists lo hi, lo ∈ take n data /\ hi ∈ take n data /\ le lo hi /\
    n <= 2 * at_most lo (take n data) /\ n <= 2 * at_least hi (take n data) /\
    if Nat.odd n then lo = hi /\ exprtk_median data n = hi
    else exprtk_median data n = ((lo + hi) / f64_of_Z 2)%f64.
Proof.
  intros Hn Hnan. destruct (sorted_data data n Hnan ltac:(lia)) as (Hl & Hs & Hle).
  unfold exprtk_median. rewrite (proj2 (Nat.eqb_neq n 0)) by lia.
  pose proof (qsort_perm compare_doubles (take n data)) as Hp.
  set (sorted := qsort compare_doubles (take n data)) in *. clearbody sorted.
  assert (forall k, k < n -> sorted !!! k ∈ take n data) as Hin.
  { intros k Hk. rewrite <- Hp. apply list_elem_of_lookup_total_2. lia. }
  assert (forall k, k < n -> S k <= at_most (sorted !!! k) (take n data)) as Hmost.
  { intros k Hk. unfold at_most. rewrite <- Hp.
    replace (S k) with (length (take (S k) sorted)) by (rewrite length_take; lia).
    apply count_at_least; [apply sublist_take|]. apply Forall_lookup. intros i x [Hx Hi]%lookup_take_Some.
    apply list_lookup_total_correct in Hx as <-. apply Hle. lia. }
  assert (forall k, k < n -> n - k <= at_least (sorted !!! k) (take n data)) as Hleast.
  { intros k Hk. unfold at_least. rewrite <- Hp.
    replace (n - k) with (length (drop k sorted)) by (rewrite length_drop; lia).
    apply count_at_least; [apply sublist_drop|]. apply Forall_lookup. intros i x Hx. rewrite lookup_drop in Hx.
    pose proof (lookup_lt_Some _ _ _ Hx). apply list_lookup_total_correct in Hx as <-. apply Hle. lia. }
  pose proof (Nat.div_mod n 2 ltac:(lia)) as Hdm. pose proof (Nat.mod_upper_bound n 2 ltac:(lia)) as Hm.
  rewrite <- Nat.bit0_odd, Nat.bit0_eqb.
  destruct (n mod 2 =? 1) eqn:Eo; bool_props.
  - exists (sorted !!! (n / 2)), (sorted !!! (n / 2)). split_and!; try (apply Hin; lia).
    + apply Hle. lia.
    + pose proof (Hmost (n / 2)). lia.
    + pose proof (Hleast (n / 2)). lia.
    + done.
    + done.
  - exists (sorted !!! (n / 2 - 1)), (sorted !!! (n / 2)). split_and!; try (apply Hin; lia).
    + apply Hle. lia.
    + pose proof (Hmost (n / 2 - 1)). lia.
    + pose proof (Hleast (n / 2)). lia.
    + done.
Qed.

(** [exprtk_percentile] is defined exactly when its index, converted to an integer,
    lies inside the array: nothing in the code keeps it there. *)
Theorem percentile_defined (data : list f64) n (p : f64) :
  2 <= n <= length data ->
  let idx := f64_mul (f64_div p (f64_of_Z 100)) (f64_of_Z (Z.of_nat (n - 1))) in
  is_Some (exprtk_percentile data n p) <-> exists lo, size_of_f64 idx = Some lo /\ Z.to_nat lo < n.
Proof.
  intros Hn idx. unfold exprtk_percentile. rewrite (proj2 (Nat.eqb_neq n 0)), (proj2 (Nat.eqb_neq n 1)) by lia.
  fold idx. set (sorted := qsort compare_doubles (take n data)).
  assert (length sorted = n) as Hl by (unfold sorted; rewrite qsort_perm, length_take; lia).
  destruct (size_of_f64 idx) as [lo|]; simpl; [|split; [by intros []|by intros (? & ? & _)]].
  split.
  - intros [x Hx]. exists lo. split; [done|]. destruct (sorted !! Z.to_nat lo) eqn:E; [|done].
    apply lookup_lt_Some in E. lia.
  - intros (lo' & [= <-] & Hlo). destruct (lookup_lt_is_Some_2 sorted (Z.to_nat lo)) as [x ->]; [lia|]. simpl.
    destruct (lookup_lt_is_Some_2 sorted (if Z.to_nat lo + 1 <? n then Z.to_nat lo + 1 else Z.to_nat lo)) as [y ->]; [case_match; bool_props; lia|].
    eauto.
Qed.
End order.

Lemma percentile_defined_witness :
  is_Some (exprtk_percentile (f64_of_Z <$> [4; 1; 3; 2]%Z) 4 (f64_of_Z 50)).
Proof.
  apply (percentile_defined (f64_of_Z <$> [4; 1; 3; 2]%Z) 4 (f64_of_Z 50)); [simpl; lia|].
  exists 1%Z. split; [vm_compute; reflexivity|lia].
Defined.

Example percentile_out_of_range :
  let data := f64_of_Z <$> [4; 1; 3; 2]%Z in
  exprtk_percentile data 4 (f64_of_Z 50) = Some (f64_lit 25 (-1)) /\
  exprtk_percentile data 4 (f64_of_Z 200) = None /\ exprtk_percentile data 4 (f64_of_Z (-50)) = None.
Proof. repeat split; vm_compute; reflexivity. Qed.

(** ** Numbers *)

Fixpoint fib (n : nat) : Z * Z := match n with O => (0, 1) | S n => let (a, b) := fib n in (b, a + b) end%Z.

(** Up to the 81st the answers are the Fibonacci numbers, rounded once; the 82nd is
    the first that is not. *)
Theorem fibonacci_exact (n : nat) :
  n <= 81 -> exprtk_fibonacci (Z.of_nat n) = f64_of_Z (fib n).1.
Proof. intros Hn. do 82 (destruct n as [|n]; [vm_compute; reflexivity|]). lia. Qed.

Lemma fibonacci_exact_witness : exprtk_fibonacci 78 = f64_of_Z 8944394323791464.
Proof. apply (fibonacci_exact 78). lia. Defined.

Example fibonacci_82 : (exprtk_fibonacci 82 ==? f64_of_Z (fib 82).1)%f64 = false.
Proof. vm_compute. reflexivity. Qed.

(** Two rounds of Euclid's loop halve the second number. *)
Lemma gcd_loop_ends k : forall u v,
  (0 <= u)%Z -> (0 <= v < 2 ^ Z.of_nat k)%Z -> gcd_loop (2 * k + 1) u v = Some (Z.gcd u v).
Proof.
  induction k as [|k IH]; intros u v Hu Hv.
  { assert (v = 0%Z) as -> by (simpl in Hv; lia). simpl. by rewrite Z.gcd_0_r_nonneg. }
  replace (2 * S k + 1) with (S (S (2 * k + 1))) by lia. cbn [gcd_loop].
  destruct (v =? 0)%Z eqn:E1; bool_props; [subst; by rewrite Z.gcd_0_r_nonneg|].
  rewrite Z.rem_mod_nonneg by lia. pose proof (Z.mod_pos_bound u v ltac:(lia)) as H1.
  assert (Z.gcd v (u mod v) = Z.gcd u v) as E2.
  { rewrite (Z.gcd_comm v), Z.gcd_mod by lia. apply Z.gcd_comm. }
  destruct (u mod v =? 0)%Z eqn:E3; bool_props.
  { rewrite E3, Z.gcd_0_r_nonneg in E2 by lia. by f_equal. }
  rewrite Z.rem_mod_nonneg by lia.
  assert (Z.gcd (u mod v) (v mod (u mod v)) = Z.gcd u v) as E4.
  { rewrite <- E2, (Z.gcd_comm (u mod v) (v mod _)), Z.gcd_mod by lia. apply Z.gcd_comm. }
  rewrite <- E4. apply IH; [lia|].
  pose proof (Z.mod_pos_bound v (u mod v) ltac:(lia)) as H2.
  assert (2 * (v mod (u mod v)) < v)%Z.
  { pose proof (Z.div_mod v (u mod v) ltac:(lia)) as Hd.
    assert (1 <= v / (u mod v))%Z by (apply Z.div_le_lower_bound; lia). nia. }
  rewrite Nat2Z.inj_succ, Z.pow_succ_r in Hv by lia. lia.
Qed.

(** Euclid's loop ends within 127 rounds on two [long long] and answers their greatest
    common divisor. *)
Theorem gcd_correct (u v : Z) :
  (- 2 ^ 63 < u < 2 ^ 63)%Z -> (- 2 ^ 63 < v < 2 ^ 63)%Z -> exprtk_gcd 127 u v = Some (Z.gcd u v).
Proof.
  intros Hu Hv. unfold exprtk_gcd. change 127 with (2 * 63 + 1). rewrite gcd_loop_ends by lia.
  by rewrite Z.gcd_abs_l, Z.gcd_abs_r.
Qed.

Lemma gcd_correct_witness : exprtk_gcd 127 (-84) 36 = Some 12%Z.
Proof. apply (gcd_correct (-84) 36); lia. Defined.

(** ** Exact arithmetic *)

Section exact.
Context {A : Type} {N : Num A} {E : Exact A} (sqrt : A -> A).
Add Field statistics : exact_field.

(** The sums that the two loops of a moment and of a fit compute. *)
Lemma lane_loop (g : nat -> A) n (block : nat -> list A -> list A) :
  (forall i acc, length acc = 4 -> i + 4 <= n ->
     length (block i acc) = 4 /\ total (block i acc) = add (total acc) (total (g <$> seq i 4))) ->
  (if n <? SIMD_THRESHOLD then for_range 0 n (fun i s => add s (g i)) zero else
   let (i, acc) := for_blocks n 4 n 0 block (set1 4 zero) in
   for_range i n (fun i s => add s (g i)) (hsum acc)) = total (g <$> seq 0 n).
Proof. intros H. destruct (n <? _); [apply sum_singly|]. apply sum_by_lanes; [lia|exact H]. Qed.

Lemma fma_lanes (f h : nat -> A) i acc :
  length acc = 4 ->
  length (fma3 (f <$> seq i 4) (h <$> seq i 4) acc) = 4 /\
  total (fma3 (f <$> seq i 4) (h <$> seq i 4) acc) = add (total acc) (total ((fun k => mul (f k) (h k)) <$> seq i 4)).
Proof.
  intros Hl. destruct acc as [|a0 [|a1 [|a2 [|a3 [|]]]]]; try discriminate. split; [done|].
  simpl. rewrite !exact_fmadd. ring.
Qed.

Lemma total_sub {B} (f g : B -> A) l :
  total ((fun i => sub (f i) (g i)) <$> l) = sub (total (f <$> l)) (total (g <$> l)).
Proof. induction l as [|i l IH]; simpl; [ring|]. unfold fmap in *. rewrite IH. ring. Qed.

Lemma total_add {B} (f g : B -> A) l :
  total ((fun i => add (f i) (g i)) <$> l) = add (total (f <$> l)) (total (g <$> l)).
Proof. induction l as [|i l IH]; simpl; [ring|]. unfold fmap in *. rewrite IH. ring. Qed.

Lemma total_mul {B} c (f : B -> A) l : total ((fun i => mul c (f i)) <$> l) = mul c (total (f <$> l)).
Proof. induction l as [|i l IH]; simpl; [ring|]. unfold fmap in *. rewrite IH. ring. Qed.

Lemma total_const {B} c (l : list B) : total ((fun _ => c) <$> l) = mul c (of_size (length l)).
Proof.
  induction l as [|i l IH]; simpl; [rewrite exact_size; ring|].
  unfold fmap in *. rewrite IH, exact_size_S. ring.
Qed.

Lemma total_ext {B} (f g : B -> A) l : (forall i, f i = g i) -> total (f <$> l) = total (g <$> l).
Proof. intros H. f_equal. by apply list_fmap_ext. Qed.

(** In exact arithmetic the vectorised loops of the skewness and the kurtosis add the
    cubes and the fourth powers of the deviations, and the harmonic mean of numbers that
    are not tiny is [n] over the sum of their reciprocals. *)
Theorem moments_exact (data : list A) n (mean : A) :
  n <= length data ->
  let sum g := total ((fun i => g (data !!! i)) <$> seq 0 n) in
  let d x := sub x mean in
  moment_loop data n mean (fun d => mul (mul d d) d) (fun vd acc3 => fma3 (zip_with mul vd vd) vd acc3)
  = sum (fun x => mul (mul (d x) (d x)) (d x)) /\
  moment_loop data n mean (fun d => let d2 := mul d d in mul d2 d2)
    (fun vd acc4 => let vd2 := zip_with mul vd vd in fma3 vd2 vd2 acc4)
  = sum (fun x => mul (mul (d x) (d x)) (mul (d x) (d x))) /\
  (0 < n -> (forall i, i < n -> ltb (nabs (data !!! i)) (lit 1 (-15)) = false) ->
   exprtk_harmonic_mean data n = div (of_size n) (sum (fun x => div one x))).
Proof.
  intros Hn sum d. unfold sum, d. split_and!.
  - unfold moment_loop. apply (lane_loop (fun i => mul (mul (sub (data !!! i) mean) (sub (data !!! i) mean)) (sub (data !!! i) mean))).
    intros i acc Hl Hi. rewrite loadu_seq, (set1_seq 4 _ i), !zip_with_seq by lia. by apply fma_lanes.
  - unfold moment_loop. apply (lane_loop (fun i => mul (mul (sub (data !!! i) mean) (sub (data !!! i) mean))
      (mul (sub (data !!! i) mean) (sub (data !!! i) mean)))).
    intros i acc Hl Hi. cbv zeta. rewrite loadu_seq, (set1_seq 4 _ i), !zip_with_seq by lia. by apply fma_lanes.
  - intros H0 Hbig. unfold exprtk_harmonic_mean. rewrite (proj2 (Nat.eqb_neq n 0)) by lia.
    destruct (existsb _ _) eqn:Ex.
    + apply existsb_true in Ex as (i & Hi%elem_of_seq & Ei). rewrite Hbig in Ei by lia. done.
    + f_equal. apply (lane_loop (fun i => div one (data !!! i))). intros i acc Hl Hi.
      rewrite (set1_seq 4 _ i), loadu_seq, zip_with_seq by lia.
      rewrite length_zip_with, length_fmap, length_seq. split; [lia|].
      by rewrite total_zip_add by (by rewrite length_fmap, length_seq).
Qed.

(** The sums of [ols_fit] over the indices. *)
Lemma ols_sums (y x : list A) n :
  n <= length y -> n <= length x ->
  simd_sum x n = total ((fun i => x !!! i) <$> seq 0 n) /\
  simd_dot x y n = total ((fun i => mul (x !!! i) (y !!! i)) <$> seq 0 n).
Proof.
  intros Hy Hx. rewrite simd_sum_total, simd_dot_total by done.
  by rewrite <- !cells, zip_with_seq by done.
Qed.

Lemma ols_sse_exact r_int r_slope (y x : list A) n :
  n <= length y -> n <= length x ->
  ols_sse r_int r_slope y x n
  = total ((fun i => mul (residual r_int r_slope y x i) (residual r_int r_slope y x i)) <$> seq 0 n).
Proof.
  intros Hy Hx. unfold ols_sse. apply (lane_loop (fun i => mul (residual r_int r_slope y x i) (residual r_int r_slope y x i))).
  intros i acc Hl Hi. rewrite !(loadu_seq 4) by lia. rewrite !(set1_seq 4 _ i).
  assert (zip_with sub ((fun k => y !!! k) <$> seq i 4)
            (fma3 ((fun _ => r_slope) <$> seq i 4) ((fun k => x !!! k) <$> seq i 4) ((fun _ => r_int) <$> seq i 4))
          = residual r_int r_slope y x <$> seq i 4) as ->; [|by apply fma_lanes].
  unfold fma3. rewrite !zip_with_seq. apply list_fmap_ext. intros _ k _. unfold residual.
  rewrite exact_fmadd. f_equal. simpl. ring.
Qed.

(** C40: In exact arithmetic the line of [ols_fit] is that of least squares: the residuals
    add up to zero, also weighted with the abscissas, and [res_var] is the sum of their
    squares over [n - 2]. *)
Theorem ols_normal_equations (y x : list A) n :
  n <= length y -> n <= length x -> 3 <= n ->
  let sum g := total (g <$> seq 0 n) in
  let r := ols_fit sqrt y x n in
  let e i := residual (intercept r) (slope r) y x i in
  ltb (nabs (sub (mul (of_size n) (sum (fun i => mul (x !!! i) (x !!! i))))
                 (mul (sum (fun i => x !!! i)) (sum (fun i => x !!! i))))) (lit 1 (-15)) = false ->
  sum e = zero /\ sum (fun i => mul (x !!! i) (e i)) = zero /\
  res_var r = div (sum (fun i => mul (e i) (e i))) (of_size (n - 2)).
Proof.
  intros Hy Hx Hn sum r e Hd. unfold sum in *. clear sum.
  assert (exists sx sy sxx sxy, total ((fun i => x !!! i) <$> seq 0 n) = sx /\ total ((fun i => y !!! i) <$> seq 0 n) = sy /\
    total ((fun i => mul (x !!! i) (x !!! i)) <$> seq 0 n) = sxx /\
    total ((fun i => mul (x !!! i) (y !!! i)) <$> seq 0 n) = sxy) as (sx & sy & sxx & sxy & Esx & Esy & Esxx & Esxy)
    by (do 4 eexists; split_and!; reflexivity).
  rewrite Esx, Esxx in Hd. pose proof (exact_tiny _ Hd) as Hz.
  destruct (ols_sums y x n Hy Hx) as [F1 F2], (ols_sums x y n Hx Hy) as [F3 _], (ols_sums x x n Hx Hx) as [_ F4].
  assert (r = Ols (div (sub sy (mul (slope r) sx)) (of_size n))
    (div (sub (mul (of_size n) sxy) (mul sx sy)) (sub (mul (of_size n) sxx) (mul sx sx))) (res_var r) (t_slope r) /\
    res_var r = div (ols_sse (intercept r) (slope r) y x n) (of_size (n - 2))) as [Er Ev].
  { unfold r, ols_fit. rewrite (proj2 (Nat.ltb_ge n 3)) by lia. rewrite F1, F2, F3, F4, Esx, Esy, Esxx, Esxy, Hd. done. }
  rewrite ols_sse_exact in Ev by done. clear F1 F2 F3 F4.
  assert (of_size n <> zero) as Hn0 by (destruct n; [lia|apply exact_size_pos]).
  unfold e. clear e. generalize (f_equal (@intercept A) Er), (f_equal (@slope A) Er). cbn [intercept slope].
  destruct r as [a b v t]. cbn [intercept slope res_var] in *. intros Ea Eb. unfold residual in *. split_and!; [| |done].
  - rewrite total_sub, total_add, total_const, total_mul, length_seq, Esx, Esy, Ea. field. done.
  - rewrite (total_ext _ (fun i => sub (mul (x !!! i) (y !!! i))
      (add (mul a (x !!! i)) (mul b (mul (x !!! i) (x !!! i)))))) by (intros; ring).
    rewrite total_sub, total_add, !total_mul, Esx, Esxx, Esxy, Ea, Eb. field. done.
Qed.
End exact.

Lemma ols_normal_equations_witness :
  let q z := Qc_lit z 0 in
  let y := [q 1; q 3; q 4]%Z in
  let x := [q 0; q 1; q 2]%Z in
  let r := ols_fit (fun v => v) y x 3 in
  total (residual (intercept r) (slope r) y x <$> seq 0 3) = zero.
Proof. intros q y x r. apply (ols_normal_equations (fun v => v) y x 3); [simpl; lia..|vm_compute; reflexivity]. Defined.
