(* ===== verification/Finance.v ===== *)
(** Performance metrics: [modules/fin/src/exprtk_finance.c].

    The square root is that of binary64; [pow] is the C library's, of which nothing is
    assumed.  Sums and variances are the vectorised ones of [Simd.v]. *)

From S2P Require Import Prelude Float64 Simd SimdProofs SimdReduce.
From Stdlib Require Import SpecFloat.
Local Open Scope nat_scope.

Definition f64_sqrt : f64 -> f64 := SFsqrt 53 1024.
Definition of_count (n : nat) : f64 := f64_of_Z (Z.of_nat n).
Definition EPS : f64 := f64_lit 1 (-15).

Class Pow := pow : f64 -> f64 -> f64.

(** [peak], [max_dur] and [cur_dur]. *)
Definition dd_step (s : f64 * nat * nat) (e : f64) : f64 * nat * nat :=
  let '(peak, max_dur, cur_dur) := s in
  if (e >=? peak)%f64 then (e, if max_dur <? cur_dur then cur_dur else max_dur, 0)
  else (peak, max_dur, S cur_dur).

Definition exprtk_max_dd_duration (equity : list f64) (n : nat) : nat :=
  if n <? 2 then 0 else
  let '(_, max_dur, cur_dur) := for_range 1 n (fun i s => dd_step s (equity !!! i)) (equity !!! 0, 0, 0) in
  if max_dur <? cur_dur then cur_dur else max_dur.

Definition exprtk_ulcer_index (equity : list f64) (n : nat) : f64 :=
  if n <? 2 then f64_zero else
  let '(_, sum_dd2) :=
    for_range 1 n (fun i '(peak, s) =>
      let e := equity !!! i in
      let peak := if (e >? peak)%f64 then e else peak in
      let dd_pct := ((peak - e) / peak * f64_of_Z 100)%f64 in
      (peak, (s + dd_pct * dd_pct)%f64)) (equity !!! 0, f64_zero) in
  f64_sqrt (f64_div sum_dd2 (of_count (n - 1))).

Definition exprtk_treynor (ret bench : list f64) (n : nat) (rf : f64) : f64 :=
  if n <? 2 then f64_zero else
  let sum l := foldl f64_add f64_zero (take n l) in
  let mean_r := (sum ret / of_count n)%f64 in
  let mean_b := (sum bench / of_count n)%f64 in
  let '(cov, var_b) :=
    for_range 0 n (fun i '(cov, var_b) =>
      let dr := f64_sub (ret !!! i) mean_r in
      let db := f64_sub (bench !!! i) mean_b in
      ((cov + dr * db)%f64, (var_b + db * db)%f64)) (f64_zero, f64_zero) in
  if (var_b <? EPS)%f64 then f64_zero else
  let beta := (cov / var_b)%f64 in
  if (f64_fabs beta <? EPS)%f64 then f64_zero else ((mean_r - rf) / beta)%f64.
Section metrics.
Context {FU : Fused f64} {PW : Pow}.

Definition exprtk_sharpe (returns : list f64) (n : nat) (rf annual_factor : f64) : f64 :=
  if n <? 2 then f64_zero else
  let (mean, variance) := simd_mean_variance returns n in
  let std := f64_sqrt variance in
  if (std <? EPS)%f64 then f64_zero
  else ((mean - rf) / std * f64_sqrt annual_factor)%f64.

Definition exprtk_sortino (returns : list f64) (n : nat) (rf annual_factor : f64) : f64 :=
  if n <? 2 then f64_zero else
  let mean := (simd_sum returns n / of_count n)%f64 in
  let '(down_sum, down_count) :=
    foldl (fun '(s, c) r =>
      let d := (r - rf)%f64 in
      if (d <? 0.0)%f64 then ((s + d * d)%f64, S c) else (s, c)) (f64_zero, 0) (take n returns) in
  if down_count =? 0 then f64_zero else
  let down_std := f64_sqrt (down_sum / of_count down_count)%f64 in
  if (down_std <? EPS)%f64 then f64_zero
  else ((mean - rf) / down_std * f64_sqrt annual_factor)%f64.

(** The greatest fall from the highest value so far, as a fraction of it. *)
Definition max_drawdown (equity : list f64) : f64 :=
  match equity with
  | [] => f64_zero
  | e0 :: l =>
      (foldl (fun '(peak, max_dd) e =>
         let peak := if (e >? peak)%f64 then e else peak in
         let dd := ((peak - e) / peak)%f64 in
         (peak, if (dd >? max_dd)%f64 then dd else max_dd)) (e0, f64_zero) l).2
  end.

Definition exprtk_calmar (equity : list f64) (n : nat) (annual_factor : f64) : f64 :=
  if (n <? 2) || (equity !!! 0 <? EPS)%f64 then f64_zero else
  let growth := f64_div (equity !!! (n - 1)) (equity !!! 0) in
  let periods := of_count (n - 1) in
  if (growth <=? 0.0)%f64 || (periods <=? 0.0)%f64 then f64_zero else
  let annual_return := (pow growth (annual_factor / periods) - 1.0)%f64 in
  let max_dd := max_drawdown (take n equity) in
  if (max_dd <? EPS)%f64 then f64_zero else (annual_return / max_dd)%f64.

(** Gains and losses: [if (x > 0) profit += x; else loss -= x]. *)
Definition gross (trades : list f64) : f64 * f64 :=
  foldl (fun '(gp, gl) x => if (x >? 0.0)%f64 then ((gp + x)%f64, gl) else (gp, (gl - x)%f64))
    (f64_zero, f64_zero) trades.

Definition exprtk_profit_factor (trades : list f64) (n : nat) : f64 :=
  let (gross_profit, gross_loss) := gross (take n trades) in
  if (gross_loss <? EPS)%f64 then (if (gross_profit >? 0.0)%f64 then f64_lit 1 15 else f64_zero)
  else (gross_profit / gross_loss)%f64.

(** Wins and losses, with their numbers. *)
Definition win_loss (trades : list f64) : f64 * f64 * nat * nat :=
  foldl (fun '(sw, sl, nw, nl) x =>
    if (x >? 0.0)%f64 then ((sw + x)%f64, sl, S nw, nl)
    else if (x <? 0.0)%f64 then (sw, (sl - x)%f64, nw, S nl) else (sw, sl, nw, nl))
    (f64_zero, f64_zero, 0, 0) trades.

Definition exprtk_expectancy (trades : list f64) (n : nat) : f64 :=
  if n =? 0 then f64_zero else
  let '(sum_win, sum_loss, n_win, n_loss) := win_loss (take n trades) in
  let win_rate := (of_count n_win / of_count n)%f64 in
  let loss_rate := (of_count n_loss / of_count n)%f64 in
  let avg_win := if 0 <? n_win then (sum_win / of_count n_win)%f64 else f64_zero in
  let avg_loss := if 0 <? n_loss then (sum_loss / of_count n_loss)%f64 else f64_zero in
  (win_rate * avg_win - loss_rate * avg_loss)%f64.

Definition exprtk_payoff_ratio (trades : list f64) (n : nat) : f64 :=
  let '(sum_win, sum_loss, n_win, n_loss) := win_loss (take n trades) in
  if (n_win =? 0) || (n_loss =? 0) then f64_zero
  else (sum_win / of_count n_win / (sum_loss / of_count n_loss))%f64.

(** [alloc_ok]: whether [malloc] gave the array of the differences. *)
Definition exprtk_information_ratio (alloc_ok : bool) (ret bench : list f64) (n : nat) : f64 :=
  if n <? 2 then f64_zero else
  if negb alloc_ok then f64_zero else
  let excess := simd_sub (Apart ret) (Apart bench) (replicate n f64_zero) n in
  let (mean, variance) := simd_mean_variance excess n in
  let te := f64_sqrt variance in
  if (te <? EPS)%f64 then f64_zero else (mean / te)%f64.

End metrics.

(** ** The longest drawdown *)

(** Bar [k] is below an earlier one; a run of [d] such bars from [i] on. *)
Definition below (l : list f64) (k : nat) : Prop := exists j, j < k /\ (l !!! k <? l !!! j)%f64 = true.
Definition run (l : list f64) (n i d : nat) : Prop := i + d <= n /\ forall k, i <= k < i + d -> below l k.

Lemma max_ite (a b : nat) : (if a <? b then b else a) = a `max` b.
Proof. destruct (a <? b) eqn:E; bool_props; lia. Qed.

Section durations.
Context (l : list f64).

(** After [i] bars: the highest value, the longest run that has ended, and the length of the run in course. *)
Definition dd_inv (i : nat) (s : f64 * nat * nat) : Prop :=
  let '(peak, m, c) := s in
  extreme le (take i l) peak /\ c < i /\ run l i (i - c) c /\ ~ below l (i - c - 1) /\
  (exists p, run l i p m) /\ forall p d, run l (i - c) p d -> d <= m.

Lemma below_peak i peak :
  i < length l -> no_nan (take (S i) l) -> extreme le (take i l) peak -> below l i <-> (l !!! i >=? peak)%f64 = false.
Proof.
  intros Hi Hn [Hin Hmax].
  assert (forall j, j < S i -> l !!! j ∈ take (S i) l) as Hall.
  { intros j Hj. apply (list_elem_of_lookup_2 _ j), lookup_take_Some. split; [|done].
    apply list_lookup_lookup_total_lt. lia. }
  assert (is_nan peak = false) as Hp.
  { apply (no_nan_elem (take (S i) l)); [done|]. rewrite (take_S_r _ _ (l !!! i)) by (apply list_lookup_lookup_total_lt; lia).
    apply elem_of_app. by left. }
  assert (is_nan (l !!! i) = false) as Hx by (apply (no_nan_elem (take (S i) l)); [done|by apply Hall; lia]).
  split.
  - intros (j & Hj & Hlt). apply not_true_iff_false. intros Hge.
    assert (le (l !!! j) peak) as Hle.
    { apply Hmax. apply (list_elem_of_lookup_2 _ j), lookup_take_Some. split; [|done].
      apply list_lookup_lookup_total_lt. lia. }
    pose proof (f64_ltb_leb_trans _ _ _ Hlt (f64_leb_trans _ _ _ Hle Hge)) as H. by rewrite f64_ltb_irrefl in H.
  - intros Hge. apply list_elem_of_lookup in Hin as [j [Hj Hlt]%lookup_take_Some].
    exists j. split; [done|]. apply list_lookup_total_correct in Hj as ->.
    destruct (l !!! i <? peak)%f64 eqn:E; [done|]. by rewrite f64_ltb_false_leb in Hge.
Qed.

(** A run inside the first [i] bars is one that has ended or a part of that in course. *)
Lemma runs_bounded i m c q d :
  c < i -> ~ below l (i - c - 1) -> (forall p d, run l (i - c) p d -> d <= m) -> run l i q d -> d <= m `max` c.
Proof.
  intros Hc Hb Hmax [Hq1 Hq2]. destruct (decide (q + d <= i - c)).
  - pose proof (Hmax q d ltac:(split; [lia|done])). lia.
  - destruct (decide (q <= i - c - 1)); [|lia]. destruct Hb. apply Hq2. lia.
Qed.

Lemma dd_step_inv i s :
  i < length l -> no_nan (take (S i) l) -> dd_inv i s -> dd_inv (S i) (dd_step s (l !!! i)).
Proof.
  destruct s as [[peak m] c]. intros Hi Hn (Hp & Hc & [Hr1 Hr2] & Hb & (p & Hp1 & Hp2) & Hmax).
  pose proof (below_peak i peak Hi Hn Hp) as Hbelow.
  assert (take (S i) l = take i l ++ [l !!! i]) as Et.
  { apply take_S_r. apply list_lookup_lookup_total_lt. lia. }
  unfold dd_step. destruct (l !!! i >=? peak)%f64 eqn:E.
  - assert (~ below l i) as Hni by (rewrite Hbelow; done).
    unfold dd_inv. rewrite max_ite, Nat.sub_0_r. split_and!.
    + rewrite Et. destruct Hp as [Hin Hle]. split; [apply elem_of_app; right; by apply list_elem_of_singleton|].
      intros y [Hy|Hy]%elem_of_app; [eapply le_trans; [by apply Hle|exact E]|].
      apply list_elem_of_singleton in Hy as ->. apply le_refl. apply (no_nan_elem (take (S i) l)); [done|].
      rewrite Et. apply elem_of_app. right. by apply list_elem_of_singleton.
    + lia.
    + split; [lia|]. intros k Hk. lia.
    + by replace (S i - 1) with i by lia.
    + destruct (Nat.max_spec m c) as [[? ->]|[? ->]]; [exists (i - c)|exists p]; (split; [lia|]); intros k Hk;
        [apply Hr2|apply Hp2]; lia.
    + intros q d Hq. destruct Hq as [Hq1 Hq2]. destruct (decide (d = 0)); [lia|].
      assert (q + d <= i) as Hqi.
      { destruct (decide (q + d <= i)); [done|]. destruct Hni. apply Hq2. lia. }
      apply (runs_bounded i m c q); [done..|]. split; [done|]. intros k Hk. apply Hq2. lia.
  - assert (below l i) as Hbi by (by apply Hbelow).
    unfold dd_inv. replace (S i - S c) with (i - c) by lia. split_and!.
    + rewrite Et. destruct Hp as [Hin Hle]. split; [apply elem_of_app; by left|].
      intros y [Hy|Hy]%elem_of_app; [by apply Hle|]. apply list_elem_of_singleton in Hy as ->.
      apply f64_ltb_leb. apply not_false_iff_true. intros F.
      assert (forall y, y ∈ take (S i) l -> is_nan y = false) as Hnn by (intros; by apply (no_nan_elem (take (S i) l))).
      rewrite Et in Hnn. rewrite f64_ltb_false_leb in E; [done| | |done]; apply Hnn, elem_of_app;
        [right; by apply list_elem_of_singleton|by left].
    + lia.
    + split; [lia|]. intros k Hk. destruct (decide (k = i)) as [->|]; [done|]. apply Hr2. lia.
    + done.
    + exists p. split; [lia|done].
    + done.
Qed.
End durations.

(** The longest drawdown of an equity curve without a NaN is the length of the longest
    run of consecutive bars each below an earlier one. *)
Theorem max_dd_duration_longest (equity : list f64) n :
  2 <= n <= length equity -> no_nan (take n equity) ->
  (exists i, run equity n i (exprtk_max_dd_duration equity n)) /\
  forall i d, run equity n i d -> d <= exprtk_max_dd_duration equity n.
Proof.
  intros Hn Hnan. unfold exprtk_max_dd_duration. rewrite (proj2 (Nat.ltb_ge n 2)) by lia.
  pose proof (for_range_rule (dd_inv equity) 1 n (fun i s => dd_step s (equity !!! i)) (equity !!! 0, 0, 0)) as H.
  destruct (for_range _ _ _ _) as [[peak m] c]. destruct H as (_ & Hc & [Hr1 Hr2] & Hb & (p & Hp1 & Hp2) & Hmax).
  - lia.
  - unfold dd_inv. split_and!; try lia.
    + by apply (extreme_head le le_refl equity n); [lia|].
    + split; [lia|]. intros k Hk. lia.
    + intros (j & Hj & _). lia.
    + exists 0. split; [lia|]. intros k Hk. lia.
    + intros q d [Hq1 Hq2]. destruct (decide (d = 0)); [lia|].
      destruct (Hq2 0) as (j & Hj & _); lia.
  - intros j s Hj. apply dd_step_inv; [lia|]. by apply (prefix_no_nan equity (S j) n); [lia|].
  - rewrite max_ite. split.
    + destruct (Nat.max_spec m c) as [[? ->]|[? ->]]; [exists (n - c)|exists p]; (split; [lia|]); intros k Hk;
        [apply Hr2|apply Hp2]; lia.
    + intros q d Hq. by apply (runs_bounded equity n m c q).
Qed.

Lemma max_dd_duration_longest_witness :
  let equity := f64_of_Z <$> [100; 90; 95; 110; 100; 105; 104; 120]%Z in
  exprtk_max_dd_duration equity 8 = 3 /\ exists i, run equity 8 i 3.
Proof.
  intros equity. assert (exprtk_max_dd_duration equity 8 = 3) as E by (vm_compute; reflexivity).
  split; [exact E|]. rewrite <- E. apply (max_dd_duration_longest equity 8); [simpl; lia|].
  repeat constructor.
Defined.
