(* ===== verification/Optimizer.v ===== *)
(** Walk-forward optimization: [modules/fin/src/strategy_optimizer.c] and
    [modules/fin/include/strategy_optimizer.h].

    A run of a strategy is that of [Strategy.v], the metrics are those of [Finance.v].  The
    context, the configuration, the result and the arena are not NULL; the provider has its
    callbacks.  [heap] are the outcomes of [malloc], [realloc] and the arena that
    this file asks; the allocations of a run are those of [Strategy.v].  [None] is
    undefined behaviour: a conversion out of range or a read past [bar_dates]. *)

From S2P Require Import Prelude Float64 MarketRules OrderManager Env State RtValue SortSearch Universe BarWindow Strategy Simd SimdReduce Stats Finance.
From Stdlib Require Import SpecFloat.
From stdpp Require Import list_numbers.
Open Scope Z_scope.

(** ** Configuration and results *)

Inductive wfo_metric_t :=
  | WFO_METRIC_SHARPE | WFO_METRIC_SORTINO | WFO_METRIC_CALMAR | WFO_METRIC_PROFIT_FACTOR
  | WFO_METRIC_OTHER (code : Z).

(** [None] is a NULL array; the arrays have [num_params] names and three times as many
    numbers. *)
Record wfo_config_t := Wfo {
  param_names : option (list string);
  ranges : option (list f64);
  num_params : nat;
  in_sample_bars : Z;
  out_sample_bars : Z;
  step_bars : Z;
  metric : wfo_metric_t
}.

(** One window of [wfo_result_t]: a row of [best_params] and its two scores. *)
Record wfo_window := Window { best_params : list f64; is_score : f64; oos_score : f64 }.

(** ** The grid *)

Definition WORST : f64 := f64_lit (-1) 30.

(** [(size_t)floor((hi - lo) / step) + 1] for parameter [i]. *)
Definition param_count (rs : list f64) (i : nat) : option Z :=
  let lo := rs !!! (i * 3)%nat in
  let hi := rs !!! (i * 3 + 1)%nat in
  let step := rs !!! (i * 3 + 2)%nat in
  (fun z => wrapu 64 (z + 1)) <$> size_of_f64 (f64_floor ((hi - lo) / step)%f64).

Fixpoint grid_loop (rs : list f64) (i n : nat) (total : Z) : option Z :=
  match n with
  | O => Some total
  | Datatypes.S n =>
      let lo := rs !!! (i * 3)%nat in
      let hi := rs !!! (i * 3 + 1)%nat in
      let step := rs !!! (i * 3 + 2)%nat in
      if (step <=? 0.0)%f64 || (hi <? lo)%f64 then Some 0 else
      count ← param_count rs i;
      grid_loop rs (Datatypes.S i) n (wrapu 64 (total * count))
  end.

Definition param_grid_size (rs : list f64) (num_params : nat) : option Z := grid_loop rs 0 num_params 1.

(** The slot of each parameter in combination [idx]: an odometer whose last digit runs fastest. *)
Fixpoint grid_slots (rs : list f64) (p : nat) (idx : Z) : option (list Z) :=
  match p with
  | O => Some []
  | Datatypes.S pi =>
      count ← param_count rs pi;
      l ← grid_slots rs pi (idx / count);
      Some (l ++ [idx mod count])
  end.

Definition slot_value (rs : list f64) (i : nat) (slot : Z) : f64 :=
  (rs !!! (i * 3)%nat + f64_of_Z slot * rs !!! (i * 3 + 2)%nat)%f64.

(** The cells [out[0]] to [out[num_params - 1]]. *)
Definition param_grid_get (rs : list f64) (num_params : nat) (combo_idx : Z) : option (list f64) :=
  imap (slot_value rs) <$> grid_slots rs num_params combo_idx.

Section optimizer.
Context {X : Executor} {P : Provider} {G : Engine} {S : Slots} {FU : Fused f64} {PW : Pow}.

Abbreviation ctx := (@strategy_ctx_t G).

Definition inject_params (names : list string) (values : list f64) (e : script_env node world_t)
    : script_env node world_t :=
  foldl (fun e p => set_var p.1 (XNumber p.2) e) e (zip names values).

(** ** Metric *)

(** The returns of an equity curve. *)
Fixpoint bar_returns (eq : list f64) : list f64 :=
  match eq with
  | a :: ((b :: _) as rest) =>
      (if (a >? f64_lit 1 (-9))%f64 then ((b - a) / a)%f64 else f64_zero) :: bar_returns rest
  | _ => []
  end.

Definition profit_factor (pnl_pcts : list f64) : f64 :=
  let (gross_profit, gross_loss) := gross pnl_pcts in
  if (gross_loss >? EPS)%f64 then (gross_profit / gross_loss)%f64
  else if (gross_profit >? 0.0)%f64 then f64_lit 1 15 else f64_zero.

Definition is_inf (x : f64) : bool := match x with S754_infinity _ => true | _ => false end.

Definition metric_of (eq : list f64) (trades : list trade_record_t) (m : wfo_metric_t) : f64 :=
  let returns := bar_returns eq in
  let nr := (length eq - 1)%nat in
  let score :=
    match m with
    | WFO_METRIC_SHARPE => exprtk_sharpe returns nr f64_zero (f64_of_Z 252)
    | WFO_METRIC_SORTINO => exprtk_sortino returns nr f64_zero (f64_of_Z 252)
    | WFO_METRIC_CALMAR => exprtk_calmar eq (length eq) (f64_of_Z 252)
    | WFO_METRIC_PROFIT_FACTOR => profit_factor (t_pnl_pct <$> trades)
    | WFO_METRIC_OTHER _ => WORST
    end in
  if is_nan score || is_inf score then WORST else score.

(** More than 1024 returns go to the heap. *)
Definition eval_metric (c : ctx) (m : wfo_metric_t) (h : heap) : f64 * heap :=
  let eq := strategy_equity_curve c in
  let eq_len := length eq in
  if (eq_len <? 2)%nat then (WORST, h) else
  let (ok, h) := if (eq_len - 1 <=? 1024)%nat then (true, h) else alloc h in
  if negb ok then (WORST, h) else (metric_of eq (trades (order_mgr c)) m, h).

(** ** Dates *)

(** The loop of [collect_bar_dates]: [dates] grows to 64 cells and then doubles. *)
Fixpoint collect_loop (l : list provider_bar_t) (dates : list f64) (capacity : nat) (h : heap)
    : option (list f64) * heap :=
  match l with
  | [] => (Some dates, h)
  | b :: l =>
      if (length dates =? capacity)%nat then
        let (ok, h) := alloc h in
        if negb ok then (None, h)
        else collect_loop l (dates ++ [pb_date b]) (if (capacity =? 0)%nat then 64 else capacity * 2)%nat h
      else collect_loop l (dates ++ [pb_date b]) capacity h
  end.

(** A stream without bars leaves [dates] NULL. *)
Definition collect_bar_dates (asset_id : Z) (start_date end_date : f64) (h : heap) : option (list f64) * heap :=
  match open_stream asset_id start_date end_date with
  | None => (None, h)
  | Some [] => (None, h)
  | Some l => collect_loop l [] 0 h
  end.

(** ** The search in the sample *)

(** One combination: the context it leaves, and its score unless the run failed. *)
Definition try_combo (cfg : wfo_config_t) (names : list string) (asset_id : Z) (from to_ : f64)
    (params : list f64) (c : ctx) (h : heap) : option f64 * ctx * heap :=
  let c := on_env (inject_params names params) (strategy_reset c) in
  let (rc, c) := strategy_run_single c asset_id from to_ in
  if rc <=? 0 then (None, c, h)
  else let (score, h) := eval_metric c (metric cfg) h in (Some score, c, h).

Definition better (best : f64 * Z) (score : option f64) (ci : Z) : f64 * Z :=
  match score with
  | Some s => if (s >? best.1)%f64 then (s, ci) else best
  | None => best
  end.

(** The state of the search: the context, the heap, [best_score] and [best_combo]. *)
Record search := Search { s_context : ctx; s_heap : heap; s_best : f64 * Z }.

Definition search_step (cfg : wfo_config_t) (names : list string) (rs : list f64) (asset_id : Z)
    (from to_ : f64) (s : option search) (ci : Z) : option search :=
  s ← s;
  params ← param_grid_get rs (num_params cfg) ci;
  let '(score, c, h) := try_combo cfg names asset_id from to_ params (s_context s) (s_heap s) in
  Some (Search c h (better (s_best s) score ci)).

Definition grid_search (cfg : wfo_config_t) (names : list string) (rs : list f64) (grid_sz : Z)
    (asset_id : Z) (from to_ : f64) (c : ctx) (h : heap) : option search :=
  foldl (search_step cfg names rs asset_id from to_) (Some (Search c h (WORST, 0))) (seqZ 0 grid_sz).

(** ** The windows *)

Definition run_window (cfg : wfo_config_t) (names : list string) (rs : list f64) (grid_sz : Z)
    (asset_id : Z) (dates : list f64) (start_idx : Z) (c : ctx) (h : heap)
    : option (wfo_window * ctx * heap) :=
  let date i := dates !! Z.to_nat (wrapu 64 i) in
  let window_size := wrapu 64 (in_sample_bars cfg + out_sample_bars cfg) in
  is_start ← date start_idx;
  is_end ← date (start_idx + in_sample_bars cfg - 1);
  oos_start ← date (start_idx + in_sample_bars cfg);
  oos_end ← date (start_idx + window_size - 1);
  s ← grid_search cfg names rs grid_sz asset_id is_start is_end c h;
  params ← param_grid_get rs (num_params cfg) (s_best s).2;
  let '(score, c, h) := try_combo cfg names asset_id oos_start oos_end params (s_context s) (s_heap s) in
  Some (Window params (s_best s).1 (default WORST score), c, h).

(** The [for] over the windows; [None] also when [fuel] windows are not all. *)
Fixpoint windows_loop (fuel : nat) (cfg : wfo_config_t) (names : list string) (rs : list f64) (grid_sz : Z)
    (asset_id : Z) (dates : list f64) (start_idx : Z) (c : ctx) (h : heap)
    : option (list wfo_window * ctx * heap) :=
  let window_size := wrapu 64 (in_sample_bars cfg + out_sample_bars cfg) in
  if wrapu 64 (start_idx + window_size) <=? Z.of_nat (length dates) then
    match fuel with
    | O => None
    | Datatypes.S fuel =>
        r ← run_window cfg names rs grid_sz asset_id dates start_idx c h;
        let '(w, c, h) := r in
        r ← windows_loop fuel cfg names rs grid_sz asset_id dates (wrapu 64 (start_idx + step_bars cfg)) c h;
        let '(l, c, h) := r in
        Some (w :: l, c, h)
    end
  else Some ([], c, h).

(** The estimate for the result arrays. *)
Definition max_windows (cfg : wfo_config_t) (num_dates : nat) : Z :=
  wrapu 64 (1 + (Z.of_nat num_dates - wrapu 64 (in_sample_bars cfg + out_sample_bars cfg)) / step_bars cfg).

(** The answer, the windows of the result, the context and the heap. *)
Definition strategy_walk_forward (fuel : nat) (c : ctx) (asset_id : Z) (start_date end_date : f64)
    (cfg : wfo_config_t) (h : heap) : option (Z * list wfo_window * ctx * heap) :=
  let fail := Some (-1, [], c, h) in
  match param_names cfg, ranges cfg with
  | Some names, Some rs =>
      if (num_params cfg =? 0)%nat then fail else
      if (in_sample_bars cfg =? 0) || (out_sample_bars cfg =? 0) then fail else
      if step_bars cfg =? 0 then fail else
      grid_sz ← param_grid_size rs (num_params cfg);
      if grid_sz =? 0 then fail else
      if (end_date <=? start_date)%f64 then fail else
      let (dates, h) := collect_bar_dates asset_id start_date end_date h in
      match dates with
      | None => Some (-1, [], c, h)
      | Some dates =>
          if Z.of_nat (length dates) <? wrapu 64 (in_sample_bars cfg + out_sample_bars cfg)
          then Some (-1, [], c, h) else
          let ok3 := forallb id (take 3 h) in      (* three arrays, tested together *)
          let h := drop 3 h in
          if negb ok3 then Some (-1, [], c, h) else
          let (ok, h) := alloc h in
          if negb ok then Some (-1, [], c, h) else
          r ← windows_loop fuel cfg names rs grid_sz asset_id dates 0 c h;
          let '(l, c, h) := r in
          Some (0, l, c, h)
      end
  | _, _ => fail
  end.
End optimizer.
