(* ===== verification/OptimizerProofs.v ===== *)
(** The walk-forward optimizer of [Optimizer.v]: the grid is visited once per combination,
    the search keeps the first of the best scores, the windows are as many as the result
    arrays have room for, and a longer history only adds windows. *)

From Stdlib Require Import SpecFloat.
From stdpp Require Import list_numbers.
From S2P Require Import Prelude Float64 MarketRules OrderManager Env State RtValue SortSearch Universe BarWindow Strategy StrategyProofs Simd SimdReduce Stats Finance Optimizer.
From S2P Require Import SimdProofs SimdReduce.
Open Scope Z_scope.

(** ** The grid *)

(** The parameters of a grid with [counts] values each, whose product fits [size_t]. *)
Definition product (counts : list Z) : Z := foldl Z.mul 1 counts.

Record grid_ok (rs : list f64) (counts : list Z) : Prop := {
  range_ok i : (i < length counts)%nat ->
    (rs !!! (i * 3 + 2)%nat <=? 0.0)%f64 || (rs !!! (i * 3 + 1)%nat <? rs !!! (i * 3)%nat)%f64 = false;
  count_ok i c : counts !! i = Some c -> param_count rs i = Some c /\ 0 < c;
  product_fits : product counts < 2 ^ 64
}.

Lemma foldl_mul l : forall a, foldl Z.mul a l = a * product l.
Proof.
  unfold product. induction l as [|x l IH]; intros a; simpl; [lia|]. rewrite IH, (IH (1 * x)). lia.
Qed.

Lemma product_snoc l c : product (l ++ [c]) = product l * c.
Proof. unfold product. by rewrite foldl_app. Qed.

Lemma product_pos l : (forall i c, l !! i = Some c -> 0 < c) -> 0 < product l.
Proof.
  induction l as [|c l IH] using rev_ind; intros H; [done|]. rewrite product_snoc.
  assert (0 < c) by (apply (H (length l) c); by rewrite lookup_app_r, Nat.sub_diag by done).
  assert (0 < product l); [|lia]. apply IH. intros i d Hi. apply (H i d). by apply lookup_app_l_Some.
Qed.

Lemma grid_ok_init rs counts c : grid_ok rs (counts ++ [c]) -> grid_ok rs counts.
Proof.
  intros [Hr Hc Hp]. assert (forall i d, counts !! i = Some d -> param_count rs i = Some d /\ 0 < d) as Hc'.
  { intros i d Hi. apply Hc. by apply lookup_app_l_Some. }
  assert (0 < product counts) by (apply product_pos; intros i d Hi; by apply (Hc' i d)).
  assert (0 < c) by (apply (Hc (length counts) c); by rewrite lookup_app_r, Nat.sub_diag by done).
  split.
  - intros i Hi. apply Hr. rewrite length_app. simpl. lia.
  - done.
  - rewrite product_snoc in Hp. nia.
Qed.

Lemma grid_loop_product rs : forall counts i total,
  (forall k, (k < length counts)%nat ->
     (rs !!! ((i + k) * 3 + 2)%nat <=? 0.0)%f64 || (rs !!! ((i + k) * 3 + 1)%nat <? rs !!! ((i + k) * 3)%nat)%f64 = false) ->
  (forall k c, counts !! k = Some c -> param_count rs (i + k) = Some c /\ 0 < c) ->
  0 < total -> total * product counts < 2 ^ 64 ->
  grid_loop rs i (length counts) total = Some (total * product counts).
Proof.
  induction counts as [|c counts IH]; intros i total Hr Hc Ht Hp; simpl.
  { unfold product. simpl. f_equal. lia. }
  pose proof (Hr 0%nat ltac:(simpl; lia)) as H0. rewrite Nat.add_0_r in H0. rewrite H0.
  destruct (Hc 0%nat c eq_refl) as [Ec Hpos]. rewrite Nat.add_0_r in Ec. rewrite Ec. simpl.
  unfold product in Hp. simpl in Hp. rewrite foldl_mul in Hp.
  assert (0 < product counts).
  { apply product_pos. intros k d Hk. apply (Hc (Datatypes.S k) d Hk). }
  rewrite wrapu_small by nia. rewrite IH.
  - f_equal. unfold product at 2. simpl. rewrite foldl_mul. lia.
  - intros k Hk. pose proof (Hr (Datatypes.S k) ltac:(simpl; lia)) as H1.
    by replace (Datatypes.S i + k)%nat with (i + Datatypes.S k)%nat by lia.
  - intros k d Hk. replace (Datatypes.S i + k)%nat with (i + Datatypes.S k)%nat by lia. by apply Hc.
  - nia.
  - nia.
Qed.

Definition in_grid (counts slots : list Z) : Prop := Forall2 (fun c s => 0 <= s < c) counts slots.

Lemma grid_slots_in rs counts : grid_ok rs counts -> forall idx, 0 <= idx < product counts ->
  exists slots, grid_slots rs (length counts) idx = Some slots /\ in_grid counts slots.
Proof.
  induction counts as [|c counts IH] using rev_ind; intros Hg idx Hi.
  { exists []. split; [done|]. constructor. }
  rewrite length_app, Nat.add_1_r. simpl.
  destruct (count_ok _ _ Hg (length counts) c) as [-> Hc]; [by rewrite lookup_app_r, Nat.sub_diag by done|].
  rewrite product_snoc in Hi. simpl.
  destruct (IH (grid_ok_init _ _ _ Hg) (idx / c)) as (l & -> & Hl).
  { split; [apply Z.div_pos; lia|apply Z.div_lt_upper_bound; lia]. }
  exists (l ++ [idx mod c]). split; [done|]. apply Forall2_app; [done|]. repeat constructor; by apply Z.mod_pos_bound.
Qed.

Lemma grid_slots_of rs counts : grid_ok rs counts -> forall slots, in_grid counts slots ->
  exists idx, 0 <= idx < product counts /\ grid_slots rs (length counts) idx = Some slots /\
    forall idx', 0 <= idx' < product counts -> grid_slots rs (length counts) idx' = Some slots -> idx' = idx.
Proof.
  induction counts as [|c counts IH] using rev_ind; intros Hg slots Hs.
  { apply Forall2_nil_inv_l in Hs as ->. exists 0. unfold product. simpl. split_and!; [lia..|done|]. intros. lia. }
  apply Forall2_app_inv_l in Hs as (l & k & Hl & Hk & ->).
  inversion Hk as [|? s ? ? Hsc Hk']; subst. apply Forall2_nil_inv_l in Hk' as ->.
  destruct (IH (grid_ok_init _ _ _ Hg) l Hl) as (q & Hq & Eq & Huniq).
  rewrite length_app, Nat.add_1_r, product_snoc. simpl.
  destruct (count_ok _ _ Hg (length counts) c) as [-> Hc]; [by rewrite lookup_app_r, Nat.sub_diag by done|]. simpl.
  assert ((q * c + s) / c = q) as E1 by (rewrite Z.add_comm, Z.div_add, Z.div_small by lia; lia).
  assert ((q * c + s) mod c = s) as E2 by (rewrite Z.add_comm, Z.mod_add, Z.mod_small by lia; lia).
  exists (q * c + s). split_and!; [nia..| |].
  - rewrite E1, E2, Eq. done.
  - intros idx' Hi. destruct (grid_slots rs (length counts) (idx' / c)) as [l'|] eqn:E; [|done]. simpl.
    intros [= H]. apply app_inj_tail in H as [-> Hm].
    apply Huniq in E; [|split; [apply Z.div_pos; lia|apply Z.div_lt_upper_bound; lia]].
    pose proof (Z.div_mod idx' c ltac:(lia)). lia.
Qed.

(** The size of the grid is the product of the numbers of values, and the odometer
    goes through every combination of slots exactly once. *)
Theorem grid_bijection (rs : list f64) (counts : list Z) :
  grid_ok rs counts ->
  let n := length counts in
  param_grid_size rs n = Some (product counts) /\
  (forall idx, 0 <= idx < product counts ->
     exists slots, grid_slots rs n idx = Some slots /\ in_grid counts slots /\
                   param_grid_get rs n idx = Some (imap (slot_value rs) slots)) /\
  (forall slots, in_grid counts slots ->
     exists idx, 0 <= idx < product counts /\ grid_slots rs n idx = Some slots /\
       forall idx', 0 <= idx' < product counts -> grid_slots rs n idx' = Some slots -> idx' = idx).
Proof.
  intros Hg n. split_and!.
  - unfold param_grid_size, n. rewrite (grid_loop_product rs counts 0 1); [f_equal; lia|apply Hg|apply Hg|lia|].
    pose proof (product_fits _ _ Hg). lia.
  - intros idx Hi. destruct (grid_slots_in rs counts Hg idx Hi) as (slots & E & Hs).
    exists slots. unfold param_grid_get, n. by rewrite E.
  - by apply grid_slots_of.
Qed.

Definition demo_ranges : list f64 := f64_of_Z <$> [5; 20; 5; 1; 3; 1].

Lemma demo_grid_ok : grid_ok demo_ranges [4; 3].
Proof.
  split.
  - intros [|[|i]] Hi; [vm_compute; reflexivity..|simpl in Hi; lia].
  - intros [|[|i]] c Hc; simplify_eq/=; (split; [vm_compute; reflexivity|lia]).
  - by vm_compute.
Qed.

Lemma grid_bijection_witness : param_grid_size demo_ranges 2 = Some 12.
Proof. apply (grid_bijection demo_ranges [4; 3] demo_grid_ok). Defined.

Example demo_combination : param_grid_get demo_ranges 2 4 = Some (f64_of_Z <$> [10; 2]).
Proof. vm_compute. reflexivity. Qed.

(** ** The best combination *)

Lemma WORST_num : is_nan WORST = false.
Proof. vm_compute. reflexivity. Qed.

#[local] Opaque WORST.

(** [best] after the scores of the combinations 0, 1, ... of [l]. *)
Definition best_of (l : list (option f64)) : f64 * Z :=
  foldl (fun b p => better b p.2 (Z.of_nat p.1)) (WORST, 0) (imap pair l).

Lemma best_of_snoc l s : best_of (l ++ [s]) = better (best_of l) s (Z.of_nat (length l)).
Proof. unfold best_of. rewrite imap_app, foldl_app. simpl. by rewrite Nat.add_0_r. Qed.

(** The first of the best scores, if it is better than the start. *)
Record first_best (l : list (option f64)) (best : f64 * Z) : Prop := {
  best_bound i s : l !! i = Some (Some s) -> is_nan s = false -> le s best.1;
  best_found : best = (WORST, 0) \/
    exists k, best.2 = Z.of_nat k /\ l !! k = Some (Some best.1) /\ (WORST <? best.1)%f64 = true /\
      forall i s, (i < k)%nat -> l !! i = Some (Some s) -> is_nan s = false -> (s <? best.1)%f64 = true
}.

Lemma first_best_num l best : first_best l best -> is_nan best.1 = false.
Proof.
  intros [_ [->|(k & _ & _ & H & _)]]; [apply WORST_num|].
  apply f64_ltb_not_nan in H as [_ H]. exact H.
Qed.

Lemma best_of_first l : first_best l (best_of l).
Proof.
  induction l as [|s l IH] using rev_ind; [split; [done|by left]|].
  pose proof (first_best_num _ _ IH) as Hnum. rewrite best_of_snoc. unfold better.
  assert (forall i x, (l ++ [s]) !! i = Some x -> l !! i = Some x \/ i = length l /\ x = s) as Hcases.
  { intros i x Hi. destruct (decide (i < length l)%nat).
    - left. by rewrite lookup_app_l in Hi by done.
    - right. apply lookup_app_Some in Hi as [Hi|[Hle Hi]]; [apply lookup_lt_Some in Hi; lia|].
      destruct (i - length l)%nat as [|k] eqn:E; simplify_eq/=. split; [lia|done]. }
  assert (forall x, (match s with Some y => (best_of l).1 <? y | None => false end)%f64 = false ->
    s = Some x -> is_nan x = false -> le x (best_of l).1) as Hnot.
  { intros x Hx -> Hnx. by apply f64_ltb_false_leb. }
  destruct (match s with Some y => (best_of l).1 <? y | None => false end)%f64 eqn:E.
  - destruct s as [y|]; [|done]. rewrite E. split; cbn [fst snd].
    + intros i x [Hi|[-> [= ->]]]%Hcases Hnx; [|by apply le_refl].
      apply f64_ltb_leb. eapply f64_leb_ltb_trans; [by apply (best_bound _ _ IH i)|done].
    + right. exists (length l). split; [done|]. rewrite lookup_app_r, Nat.sub_diag by done. split; [done|]. split.
      * destruct (best_found _ _ IH) as [H|(k & _ & _ & H & _)]; [by rewrite H in E|].
        eapply f64_ltb_leb_trans; [exact H|by apply f64_ltb_leb].
      * intros i x Hi [Hx|[-> _]]%Hcases Hnx; [|lia].
        eapply f64_leb_ltb_trans; [by apply (best_bound _ _ IH i)|done].
  - assert (match s with Some y => if ((best_of l).1 <? y)%f64 then (y, Z.of_nat (length l)) else best_of l
            | None => best_of l end = best_of l) as -> by (by destruct s as [y|]; [rewrite E|]).
    split.
    + intros i x [Hi|[-> Hx]]%Hcases Hnx; [by apply (best_bound _ _ IH i)|]. by apply Hnot.
    + destruct (best_found _ _ IH) as [H|(k & Hk & Hlk & H & Hbefore)]; [by left|]. right.
      exists k. split; [done|]. split; [by apply lookup_app_l_Some|]. split; [done|].
      intros i x Hi Hx Hnx. apply (Hbefore i x Hi); [|done].
      apply lookup_lt_Some in Hlk. by rewrite lookup_app_l in Hx by lia.
Qed.

Section search.
Context {X : Executor} {P : Provider} {G : Engine} {SL : Slots} {FU : Fused f64} {PW : Pow}.
Context (cfg : wfo_config_t) (names : list string) (rs : list f64) (asset_id : Z).

Lemma metric_num eq trs m : is_nan (metric_of eq trs m) = false.
Proof.
  unfold metric_of. cbv zeta. match goal with |- is_nan (if is_nan ?s || _ then _ else _) = _ => generalize s end.
  intros s. destruct (is_nan s) eqn:E; simpl; [apply WORST_num|]. destruct (is_inf s); [apply WORST_num|done].
Qed.

Lemma eval_metric_num c m h : is_nan (eval_metric c m h).1 = false.
Proof.
  unfold eval_metric. cbv zeta. destruct (Nat.ltb _ 2); [exact WORST_num|].
  destruct (if Nat.leb _ _ then _ else _) as [ok h']. destruct ok; [apply metric_num|exact WORST_num].
Qed.

Lemma try_combo_num from to_ params c h s : (try_combo cfg names asset_id from to_ params c h).1.1 = Some s -> is_nan s = false.
Proof.
  unfold try_combo. destruct (strategy_run_single _ _ _ _) as [rc c']. destruct (rc <=? 0); [done|].
  pose proof (eval_metric_num c' (metric cfg) h) as H. destruct (eval_metric _ _ _) as [score h'].
  cbn [fst snd] in *. intros E. by injection E as <-.
Qed.

(** The score of combination [i]: that of its run, from the context that the earlier ones leave. *)
Definition score_at (from to_ : f64) (c : strategy_ctx_t) (h : heap) (i : nat) (score : option f64) : Prop :=
  exists s params, grid_search cfg names rs (Z.of_nat i) asset_id from to_ c h = Some s /\
    param_grid_get rs (num_params cfg) (Z.of_nat i) = Some params /\
    (try_combo cfg names asset_id from to_ params (s_context s) (s_heap s)).1.1 = score.

Lemma grid_search_snoc from to_ c h k :
  grid_search cfg names rs (Z.of_nat (Datatypes.S k)) asset_id from to_ c h
  = search_step cfg names rs asset_id from to_ (grid_search cfg names rs (Z.of_nat k) asset_id from to_ c h) (Z.of_nat k).
Proof.
  unfold grid_search. rewrite Nat2Z.inj_succ. unfold Z.succ. rewrite seqZ_app by lia. by rewrite foldl_app.
Qed.

Lemma grid_search_scores from to_ c h k : forall s,
  grid_search cfg names rs (Z.of_nat k) asset_id from to_ c h = Some s ->
  exists scores, length scores = k /\ s_best s = best_of scores /\
    forall i sc, scores !! i = Some sc -> score_at from to_ c h i sc.
Proof.
  induction k as [|k IH]; intros s.
  - intros [= <-]. exists []. done.
  - rewrite grid_search_snoc. unfold search_step.
    destruct (grid_search _ _ _ (Z.of_nat k) _ _ _ _ _) as [s0|] eqn:E0; [|done]. simpl.
    destruct (param_grid_get _ _ _) as [params|] eqn:Ep; [|done]. simpl.
    destruct (try_combo _ _ _ _ _ _ _ _) as [[score c'] h'] eqn:Et. intros [= <-].
    destruct (IH s0 eq_refl) as (scores & Hl & Hb & Hs). exists (scores ++ [score]).
    rewrite length_app, Hl. split; [simpl; lia|]. split; [by rewrite best_of_snoc, Hl, <- Hb|].
    intros i sc [Hi|[Hge Hi]]%lookup_app_Some; [by apply Hs|].
    rewrite Hl in *. destruct (i - k)%nat as [|j] eqn:Ej; simplify_eq/=. assert (i = length scores) as -> by lia.
    exists s0, params. by rewrite Et.
Qed.

(** ** The windows *)

Context (counts : list Z) (Hgrid : grid_ok rs counts) (Hnum : num_params cfg = length counts).

Lemma combo_exists idx : 0 <= idx < product counts -> is_Some (param_grid_get rs (num_params cfg) idx).
Proof.
  intros Hi. rewrite Hnum. destruct (grid_slots_in rs counts Hgrid idx Hi) as (slots & E & _).
  unfold param_grid_get. rewrite E. by eexists.
Qed.

Lemma grid_search_total from to_ c h k :
  Z.of_nat k <= product counts -> exists s, grid_search cfg names rs (Z.of_nat k) asset_id from to_ c h = Some s /\
    0 <= (s_best s).2 /\ ((s_best s).2 < Z.of_nat k \/ (s_best s).2 = 0).
Proof.
  induction k as [|k IH]; intros Hk; [eexists; split; [done|]; simpl; lia|].
  destruct IH as (s & E & H0 & H1); [lia|]. rewrite grid_search_snoc, E. simpl.
  destruct (combo_exists (Z.of_nat k)) as [params ->]; [lia|]. simpl.
  destruct (try_combo _ _ _ _ _ _ _ _) as [[score c'] h']. eexists. split; [done|]. cbn [s_best].
  unfold better. destruct score as [y|]; [destruct (_ <? y)%f64|]; cbn [snd]; lia.
Qed.

(** C15: The search in the sample always answers, and answers the first combination with the
    best score: no run scores better and every earlier one scores less; combination 0 with
    -1e30 if no run is better than that. *)
Theorem grid_search_argmax from to_ c h n :
  Z.of_nat n <= product counts ->
  exists s scores, grid_search cfg names rs (Z.of_nat n) asset_id from to_ c h = Some s /\
    length scores = n /\
    (forall i sc, scores !! i = Some sc -> score_at from to_ c h i sc) /\
    (forall i sc, scores !! i = Some (Some sc) -> le sc (s_best s).1) /\
    (s_best s = (WORST, 0) \/
     exists k, (s_best s).2 = Z.of_nat k /\ scores !! k = Some (Some (s_best s).1) /\
       forall i sc, (i < k)%nat -> scores !! i = Some (Some sc) -> (sc <? (s_best s).1)%f64 = true).
Proof.
  intros Hn. destruct (grid_search_total from to_ c h n Hn) as (s & H & _).
  destruct (grid_search_scores from to_ c h n s H) as (scores & Hl & Hb & Hs).
  pose proof (best_of_first scores) as Hf. rewrite <- Hb in Hf.
  assert (forall i sc, scores !! i = Some (Some sc) -> is_nan sc = false) as Hnum'.
  { intros i sc Hi. destruct (Hs i _ Hi) as (s0 & params & _ & _ & E). by eapply try_combo_num. }
  exists s, scores. split; [done|]. split; [done|]. split; [done|]. split.
  - intros i sc Hi. apply (best_bound _ _ Hf i); [done|by eapply Hnum'].
  - destruct (best_found _ _ Hf) as [E|(k & Hk & Hlk & _ & Hbefore)]; [by left|]. right.
    exists k. split; [done|]. split; [done|]. intros i sc Hi Hlk'. eapply Hbefore; eauto.
Qed.

(** The parameters of a window are a combination of the grid. *)
Definition from_grid (w : wfo_window) : Prop :=
  exists idx, 0 <= idx < product counts /\ param_grid_get rs (num_params cfg) idx = Some (best_params w).

Context (dates : list f64) (Hin : 0 < in_sample_bars cfg) (Hout : 0 < out_sample_bars cfg)
  (Hfit : in_sample_bars cfg + out_sample_bars cfg <= Z.of_nat (length dates))
  (Hstep : 0 < step_bars cfg) (Hwide : Z.of_nat (length dates) + step_bars cfg < 2 ^ 63).

Lemma window_reads start c h :
  0 <= start -> start + (in_sample_bars cfg + out_sample_bars cfg) <= Z.of_nat (length dates) ->
  exists w c' h', run_window cfg names rs (product counts) asset_id dates start c h = Some (w, c', h') /\ from_grid w.
Proof.
  intros Hs Hle. assert (0 < product counts) as Hpos by (apply product_pos; intros; by apply (count_ok _ _ Hgrid i)).
  assert (forall i, 0 <= i < Z.of_nat (length dates) -> exists d, dates !! Z.to_nat (wrapu 64 i) = Some d) as Hd.
  { intros i Hi. rewrite wrapu_small by lia. apply lookup_lt_is_Some_2. lia. }
  unfold run_window. cbv zeta. rewrite (wrapu_small 64 (in_sample_bars cfg + out_sample_bars cfg)) by lia.
  destruct (Hd start) as [d1 ->]; [lia|]. destruct (Hd (start + in_sample_bars cfg - 1)) as [d2 ->]; [lia|].
  destruct (Hd (start + in_sample_bars cfg)) as [d3 ->]; [lia|].
  destruct (Hd (start + (in_sample_bars cfg + out_sample_bars cfg) - 1)) as [d4 ->]; [lia|]. cbn [mbind option_bind].
  destruct (grid_search_total d1 d2 c h (Z.to_nat (product counts))) as (s & E & H0 & H1); [lia|].
  rewrite Z2Nat.id in E, H1 by lia. rewrite E. cbn [mbind option_bind].
  destruct (combo_exists (s_best s).2) as [params Ep]; [lia|]. rewrite Ep. cbn [mbind option_bind].
  destruct (try_combo _ _ _ _ _ _ _ _) as [[score c'] h']. do 3 eexists. split; [done|].
  exists (s_best s).2. split; [lia|done].
Qed.

Lemma windows_total k : forall fuel start c h,
  0 <= start -> (k < fuel)%nat ->
  start + (in_sample_bars cfg + out_sample_bars cfg) + Z.of_nat k * step_bars cfg
    <= Z.of_nat (length dates) + step_bars cfg ->
  Z.of_nat (length dates) < start + (in_sample_bars cfg + out_sample_bars cfg) + Z.of_nat k * step_bars cfg ->
  exists l c' h', windows_loop fuel cfg names rs (product counts) asset_id dates start c h = Some (l, c', h') /\
    length l = k /\ Forall from_grid l.
Proof.
  induction k as [|k IH]; intros [|fuel] start c h Hs Hf Hle Hgt; [lia| |lia|]; cbn [windows_loop];
    rewrite (wrapu_small 64 (in_sample_bars cfg + out_sample_bars cfg)) by lia.
  - rewrite wrapu_small by lia. rewrite (proj2 (Z.leb_gt _ _)) by lia. by exists [], c, h.
  - rewrite wrapu_small by nia. rewrite (proj2 (Z.leb_le _ _)) by nia.
    destruct (window_reads start c h) as (w & c1 & h1 & -> & Hw); [done|nia|]. cbn [mbind option_bind].
    rewrite wrapu_small by nia.
    destruct (IH fuel (start + step_bars cfg) c1 h1) as (l & c2 & h2 & -> & Hl & Hall); [lia|lia|lia|lia|].
    cbn [mbind option_bind]. exists (w :: l), c2, h2. split; [done|]. split; [simpl; lia|]. by constructor.
Qed.

Lemma walk_forward_total c start_date end_date h h' fuel :
  param_names cfg = Some names -> ranges cfg = Some rs -> counts <> [] -> (end_date <=? start_date)%f64 = false ->
  collect_bar_dates asset_id start_date end_date h = (Some dates, h') -> forallb id (take 4 h') = true ->
  max_windows cfg (length dates) < Z.of_nat fuel ->
  exists l c' h'', strategy_walk_forward fuel c asset_id start_date end_date cfg h = Some (0, l, c', h'') /\
    Z.of_nat (length l) = max_windows cfg (length dates) /\ Forall from_grid l.
Proof.
  intros En Er Hne Hd Hc Hh Hfuel. unfold strategy_walk_forward. rewrite En, Er, Hd, Hc. cbv zeta.
  rewrite (proj2 (Nat.eqb_neq _ _)) by (rewrite Hnum; by destruct counts).
  rewrite (proj2 (Z.eqb_neq (in_sample_bars cfg) 0)), (proj2 (Z.eqb_neq (out_sample_bars cfg) 0)),
    (proj2 (Z.eqb_neq (step_bars cfg) 0)) by lia. cbn [orb].
  assert (0 < product counts) as Hpos by (apply product_pos; intros; by apply (count_ok _ _ Hgrid i)).
  rewrite Hnum. replace (param_grid_size rs (length counts)) with (Some (product counts)).
  2: { symmetry. unfold param_grid_size. rewrite (grid_loop_product rs counts 0 1); [f_equal; lia|apply Hgrid|apply Hgrid|lia|].
       pose proof (product_fits _ _ Hgrid). lia. }
  cbn [mbind option_bind]. rewrite (proj2 (Z.eqb_neq _ _)) by lia.
  unfold max_windows in *. rewrite (wrapu_small 64 (in_sample_bars cfg + out_sample_bars cfg)) in * by lia.
  rewrite (proj2 (Z.ltb_ge _ _)) by lia.
  assert (forallb id (take 3 h') = true /\ (alloc (drop 3 h')).1 = true) as [H3 H1].
  { destruct h' as [|[] [|[] [|[] [|[] h']]]]; try discriminate; done. }
  rewrite H3. destruct (alloc (drop 3 h')) as [ok h1]. cbn [fst] in H1. subst ok. cbn [negb].
  set (w := in_sample_bars cfg + out_sample_bars cfg) in *. set (d := (Z.of_nat (length dates) - w) / step_bars cfg) in *.
  pose proof (Z.div_mod (Z.of_nat (length dates) - w) (step_bars cfg) ltac:(lia)) as Hdm. fold d in Hdm.
  pose proof (Z.mod_pos_bound (Z.of_nat (length dates) - w) (step_bars cfg) Hstep) as Hm.
  assert (0 <= d) by (apply Z.div_pos; lia). assert (d <= Z.of_nat (length dates)) by nia.
  rewrite wrapu_small in * by lia.
  destruct (windows_total (Z.to_nat (1 + d)) fuel 0 c h1) as (l & c' & h'' & -> & Hl & Hall).
  - lia.
  - lia.
  - fold w. rewrite Z2Nat.id by lia. nia.
  - fold w. rewrite Z2Nat.id by lia. nia.
  - cbn [mbind option_bind]. exists l, c', h''. split; [done|]. split; [lia|done].
Qed.

(** C22: With a grid of [size_t] many combinations and bar counts that do not wrap around,
    the optimizer ends, reads dates inside their array only, and produces exactly as many
    windows as the result arrays were allocated for, each with parameters of the grid. *)
Theorem walk_forward_fills c start_date end_date h h' fuel :
  param_names cfg = Some names -> ranges cfg = Some rs -> counts <> [] -> (end_date <=? start_date)%f64 = false ->
  collect_bar_dates asset_id start_date end_date h = (Some dates, h') -> forallb id (take 4 h') = true ->
  max_windows cfg (length dates) < Z.of_nat fuel ->
  exists l c' h'', strategy_walk_forward fuel c asset_id start_date end_date cfg h = Some (0, l, c', h'') /\
    Z.of_nat (length l) = max_windows cfg (length dates) /\ Forall from_grid l.
Proof. exact (walk_forward_total c start_date end_date h h' fuel). Qed.
End search.

(** ** No look-ahead in the choice *)

Lemma foldl_ext {A B} (f g : A -> B -> A) l : (forall a b, f a b = g a b) -> forall a, foldl f a l = foldl g a l.
Proof. intros H. induction l as [|b l IH]; intros a; [done|]. cbn [foldl]. rewrite H. apply IH. Qed.

Section lookahead.
Context {X : Executor} {G : Engine} {SL : Slots} {FU : Fused f64} {PW : Pow} (P1 P2 : Provider).

(** The runs from [from] to [to_] see the same bars, and are not before day 1. *)
Definition agree (asset_id : Z) (from to_ : f64) : Prop :=
  (from <=? 0.0)%f64 = false /\ (to_ <=? 0.0)%f64 = false /\
  @open_stream P1 asset_id from to_ = @open_stream P2 asset_id from to_.

Lemma try_combo_agree cfg names asset_id from to_ params c h :
  agree asset_id from to_ ->
  @try_combo X P1 G SL FU PW cfg names asset_id from to_ params c h
  = @try_combo X P2 G SL FU PW cfg names asset_id from to_ params c h.
Proof.
  intros (Hf & Ht & Ho).
  assert (forall c, @strategy_run_single X P1 G SL c asset_id from to_ = @strategy_run_single X P2 G SL c asset_id from to_) as Hrun.
  { intros c'. unfold strategy_run_single. destruct (_ ≫= _); [|done]. by rewrite Hf, Ht, Ho. }
  unfold try_combo. by rewrite Hrun.
Qed.

Lemma grid_search_agree cfg names rs grid_sz asset_id from to_ c h :
  agree asset_id from to_ ->
  @grid_search X P1 G SL FU PW cfg names rs grid_sz asset_id from to_ c h
  = @grid_search X P2 G SL FU PW cfg names rs grid_sz asset_id from to_ c h.
Proof.
  intros Ha. apply foldl_ext. intros [s|] ci; [|exact eq_refl]. unfold search_step.
  cbn [mbind option_bind]. destruct (param_grid_get _ _ _) as [params|]; [|exact eq_refl].
  cbn [mbind option_bind]. by rewrite try_combo_agree.
Qed.

(** A window over the first dates is the same window over all of them. *)
Lemma run_window_agree cfg names rs grid_sz asset_id dates more i c h r :
  (forall from to_, from ∈ dates -> to_ ∈ dates -> agree asset_id from to_) ->
  @run_window X P1 G SL FU PW cfg names rs grid_sz asset_id dates i c h = Some r ->
  @run_window X P2 G SL FU PW cfg names rs grid_sz asset_id (dates ++ more) i c h = Some r.
Proof.
  intros Ha. unfold run_window. cbv zeta.
  assert (forall k d, dates !! Z.to_nat (wrapu 64 k) = Some d ->
    (dates ++ more) !! Z.to_nat (wrapu 64 k) = Some d /\ d ∈ dates) as Hd.
  { intros k d Hk. split; [by apply lookup_app_l_Some|by eapply list_elem_of_lookup_2]. }
  destruct (dates !! Z.to_nat (wrapu 64 i)) as [d1|] eqn:E1; [|done].
  destruct (dates !! Z.to_nat (wrapu 64 (i + in_sample_bars cfg - 1))) as [d2|] eqn:E2; [|done].
  destruct (dates !! Z.to_nat (wrapu 64 (i + in_sample_bars cfg))) as [d3|] eqn:E3; [|done].
  destruct (dates !! Z.to_nat (wrapu 64 (i + wrapu 64 (in_sample_bars cfg + out_sample_bars cfg) - 1))) as [d4|] eqn:E4; [|done].
  apply Hd in E1 as [-> I1], E2 as [-> I2], E3 as [-> I3], E4 as [-> I4]. cbn [mbind option_bind].
  rewrite grid_search_agree by auto. destruct (@grid_search _ P2 _ _ _ _ _ _ _ _ _ _ _ _ _) as [s|]; [|done]. cbn.
  destruct (param_grid_get _ _ _) as [params|]; [|done]. cbn. by rewrite try_combo_agree by auto.
Qed.

Lemma windows_loop_prefix cfg names rs grid_sz asset_id dates more :
  (forall from to_, from ∈ dates -> to_ ∈ dates -> agree asset_id from to_) ->
  forall n1 n2 i c h l1 r1 l2 r2,
  @windows_loop X P1 G SL FU PW n1 cfg names rs grid_sz asset_id dates i c h = Some (l1, r1.1, r1.2) ->
  @windows_loop X P2 G SL FU PW n2 cfg names rs grid_sz asset_id (dates ++ more) i c h = Some (l2, r2.1, r2.2) ->
  l1 `prefix_of` l2.
Proof.
  intros Ha. induction n1 as [|n1 IH]; intros n2 i c h l1 [c1 h1] l2 [c2 h2] H1 H2; cbn [windows_loop fst snd] in *.
  - destruct (_ <=? Z.of_nat (length dates)); [done|]. injection H1 as <- _ _. apply prefix_nil.
  - destruct (_ <=? Z.of_nat (length dates)) eqn:E; [|injection H1 as <- _ _; apply prefix_nil].
    destruct (run_window _ _ _ _ _ dates _ _ _) as [[[w c'] h']|] eqn:Ew; [|done]. cbn in H1.
    destruct (windows_loop n1 _ _ _ _ _ _ _ _ _) as [[[l1' c1'] h1']|] eqn:El; [|done]. cbn in H1.
    injection H1 as <- <- <-. apply Z.leb_le in E.
    destruct n2 as [|n2]; cbn [windows_loop] in H2; rewrite length_app, (proj2 (Z.leb_le _ _)) in H2 by lia; [done|].
    rewrite (run_window_agree _ _ _ _ _ _ _ _ _ _ _ Ha Ew) in H2. cbn in H2.
    destruct (windows_loop n2 _ _ _ _ _ _ _ _ _) as [[[l2' c2'] h2']|] eqn:El2; [|done]. cbn in H2.
    injection H2 as <- <- <-. apply prefix_cons.
    by apply (IH n2 _ _ _ _ (c1', h1') _ (c2', h2') El).
Qed.
End lookahead.

Section optimization.
Context {X : Executor} {P : Provider} {G : Engine} {SL : Slots} {FU : Fused f64} {PW : Pow}.

Lemma collect_loop_dates l : forall dates capacity, collect_loop l dates capacity [] = (Some (dates ++ (pb_date <$> l)), []).
Proof.
  induction l as [|b l IH]; intros dates capacity; cbn [collect_loop fmap list_fmap]; [by rewrite app_nil_r|].
  destruct (_ =? _)%nat; cbn; by rewrite IH, <- app_assoc.
Qed.

(** The windows of a finished optimization without failing allocations. *)
Lemma walk_forward_windows fuel c asset_id start_date end_date cfg l c' h' :
  strategy_walk_forward fuel c asset_id start_date end_date cfg [] = Some (0, l, c', h') ->
  exists names rs grid_sz bars, param_names cfg = Some names /\ ranges cfg = Some rs /\
    param_grid_size rs (num_params cfg) = Some grid_sz /\
    open_stream asset_id start_date end_date = Some bars /\
    windows_loop fuel cfg names rs grid_sz asset_id (pb_date <$> bars) 0 c [] = Some (l, c', h').
Proof.
  unfold strategy_walk_forward. destruct (param_names cfg) as [names|], (ranges cfg) as [rs|]; try done.
  destruct (num_params cfg =? 0)%nat; [done|]. destruct (_ || _); [done|]. destruct (step_bars cfg =? 0); [done|].
  destruct (param_grid_size rs (num_params cfg)) as [grid_sz|] eqn:Eg; [|done]. cbn [mbind option_bind].
  destruct (grid_sz =? 0); [done|]. destruct (_ <=? _)%f64; [done|]. unfold collect_bar_dates.
  destruct (open_stream _ _ _) as [[|b bars]|]; [done| |done]. rewrite collect_loop_dates.
  destruct (_ <? _); [done|]. cbn [alloc take drop forallb negb app]. intros H.
  exists names, rs, grid_sz, (b :: bars). do 4 (split; [done|]).
  destruct (windows_loop _ _ _ _ _ _ _ _ _ _) as [[[l' c1] h1]|]; [|done]. cbn in H. by injection H as <- <- <-.
Qed.
End optimization.

(** C10: The optimizer cannot look ahead: when the bars go on after those of an earlier
    optimization, whatever they are, the windows of the earlier one come first again,
    with the same parameters and the same scores in and out of the sample. *)
Theorem walk_forward_no_lookahead {X : Executor} {G : Engine} {SL : Slots} {FU : Fused f64} {PW : Pow}
    (P1 P2 : Provider) cfg asset_id start_date end1 end2 bars more n1 n2 c l1 c1 h1 l2 c2 h2 :
  @open_stream P1 asset_id start_date end1 = Some bars ->
  @open_stream P2 asset_id start_date end2 = Some (bars ++ more) ->
  (forall from to_, from ∈ pb_date <$> bars -> to_ ∈ pb_date <$> bars -> agree P1 P2 asset_id from to_) ->
  @strategy_walk_forward X P1 G SL FU PW n1 c asset_id start_date end1 cfg [] = Some (0, l1, c1, h1) ->
  @strategy_walk_forward X P2 G SL FU PW n2 c asset_id start_date end2 cfg [] = Some (0, l2, c2, h2) ->
  l1 `prefix_of` l2.
Proof.
  intros O1 O2 Ha H1 H2.
  apply walk_forward_windows in H1 as (names & rs & g & bars1 & En & Er & Eg & Eb & H1).
  apply walk_forward_windows in H2 as (names2 & rs2 & g2 & bars2 & En2 & Er2 & Eg2 & Eb2 & H2).
  simplify_eq. rewrite fmap_app in H2.
  exact (windows_loop_prefix P1 P2 cfg _ _ _ _ _ _ Ha n1 n2 0 c [] l1 (c1, h1) l2 (c2, h2) H1 H2).
Qed.

(** ** A small optimization *)

Definition demo_power : Pow := fun x _ => x.

Definition demo_wfo : wfo_config_t :=
  Wfo (Some ["size"; "stop_loss"]) (Some demo_ranges) 2 3 2 1 WFO_METRIC_PROFIT_FACTOR.

Lemma grid_search_argmax_witness :
  match sample_create with
  | Some c => exists s (scores : list (option f64)),
      @grid_search paper_executor (sample_provider sample_prices) sample_engine sample_slots plain_fused
        demo_power demo_wfo ["size"; "stop_loss"] demo_ranges 12 1 f64_one (f64_of_Z 20) c [] = Some s /\
      length scores = 12%nat /\ forall i sc, scores !! i = Some (Some sc) -> le sc (s_best s).1
  | None => False
  end.
Proof.
  pose proof sample_created as Hn. destruct sample_create as [c|]; [|discriminate Hn]. clear Hn.
  destruct (@grid_search_argmax paper_executor (sample_provider sample_prices) sample_engine sample_slots plain_fused
    demo_power demo_wfo ["size"; "stop_loss"] demo_ranges 1 [4; 3] demo_grid_ok eq_refl f64_one (f64_of_Z 20) c [] 12)
    as (s & scores & E & Hl & _ & H & _); [by vm_compute|].
  exists s, scores. exact (conj E (conj Hl H)).
Defined.

Lemma walk_forward_fills_witness :
  match sample_create with
  | Some c => exists l c' h',
      @strategy_walk_forward paper_executor (sample_provider sample_prices) sample_engine sample_slots plain_fused
        demo_power 10 c 1 f64_one (f64_of_Z 30) demo_wfo [] = Some (0, l, c', h') /\
      Z.of_nat (length l) = max_windows demo_wfo (length (pb_date <$> sample_prices))
  | None => False
  end.
Proof.
  pose proof sample_created as Hn. destruct sample_create as [c|]; [|discriminate Hn]. clear Hn.
  assert (@collect_bar_dates (sample_provider sample_prices) 1 f64_one (f64_of_Z 30) [] = (Some (pb_date <$> sample_prices), [])) as Hc
    by (vm_compute; reflexivity).
  assert (max_windows demo_wfo (length (pb_date <$> sample_prices)) < 10) as Hm by (vm_compute; reflexivity).
  pose proof (@walk_forward_fills paper_executor (sample_provider sample_prices) sample_engine sample_slots plain_fused
    demo_power demo_wfo ["size"; "stop_loss"] demo_ranges 1 [4; 3] demo_grid_ok eq_refl (pb_date <$> sample_prices)) as H.
  destruct (H eq_refl eq_refl ltac:(vm_compute; discriminate) eq_refl eq_refl c f64_one (f64_of_Z 30) [] [] 10%nat
    eq_refl eq_refl ltac:(discriminate) ltac:(vm_compute; reflexivity) Hc eq_refl Hm) as (l & c' & h' & E & Hl & _).
  exists l, c', h'. exact (conj E Hl).
Defined.

(** A provider that delivers the bars of [l] between the dates. *)
Definition dated_provider (l : list provider_bar_t) : Provider :=
  {| market := None;
     open_stream := fun _ from to_ =>
       Some (List.filter (fun b => (from <=? pb_date b)%f64 && (pb_date b <=? to_)%f64) l) |}.

Definition demo_walk (P : Provider) (c : @strategy_ctx_t sample_engine) (end_date : f64) :=
  @strategy_walk_forward paper_executor P sample_engine sample_slots plain_fused
    demo_power 10 c 1 f64_one end_date demo_wfo [].

Lemma walk_forward_no_lookahead_witness :
  match sample_create with
  | Some c => exists l1 c1 h1 l2 c2 h2,
      demo_walk (dated_provider (take 6 sample_prices)) c (f64_of_Z 20) = Some (0, l1, c1, h1) /\
      demo_walk (dated_provider sample_prices) c (f64_of_Z 21) = Some (0, l2, c2, h2) /\
      length l1 = 2%nat /\ length l2 = 3%nat /\ l1 `prefix_of` l2
  | None => False
  end.
Proof.
  pose proof sample_created as Hn. destruct sample_create as [c|]; [|discriminate Hn]. clear Hn.
  assert (forall l end_date, @collect_bar_dates (dated_provider l) 1 f64_one end_date [] = (Some (pb_date <$> l), []) ->
    (end_date <=? f64_one)%f64 = false -> max_windows demo_wfo (length (pb_date <$> l)) < 10 ->
    5 <= Z.of_nat (length (pb_date <$> l)) -> Z.of_nat (length (pb_date <$> l)) + 1 < 2 ^ 63 ->
    exists l' c' h', demo_walk (dated_provider l) c end_date = Some (0, l', c', h') /\
      Z.of_nat (length l') = max_windows demo_wfo (length (pb_date <$> l))) as Hends.
  { intros l end_date Hc He Hm Hl Hw.
    destruct (@walk_forward_total paper_executor (dated_provider l) sample_engine sample_slots plain_fused
      demo_power demo_wfo ["size"; "stop_loss"] demo_ranges 1 [4; 3] demo_grid_ok eq_refl (pb_date <$> l) eq_refl eq_refl
      Hl eq_refl Hw c f64_one end_date [] [] 10%nat eq_refl eq_refl ltac:(discriminate) He Hc eq_refl Hm)
      as (l' & c' & h' & E & Hl' & _).
    exists l', c', h'. exact (conj E Hl'). }
  destruct (Hends (take 6 sample_prices) (f64_of_Z 20)) as (l1 & c1 & h1 & E1 & H1); [vm_compute; (reflexivity || discriminate)..|].
  destruct (Hends sample_prices (f64_of_Z 21)) as (l2 & c2 & h2 & E2 & H2); [vm_compute; (reflexivity || discriminate)..|].
  replace (max_windows _ _) with 2 in H1 by (vm_compute; reflexivity).
  replace (max_windows _ _) with 3 in H2 by (vm_compute; reflexivity).
  exists l1, c1, h1, l2, c2, h2. split; [done|]. split; [done|].
  split; [lia|]. split; [lia|].
  apply (@walk_forward_no_lookahead paper_executor sample_engine sample_slots plain_fused demo_power
    (dated_provider (take 6 sample_prices)) (dated_provider sample_prices) demo_wfo 1 f64_one (f64_of_Z 20) (f64_of_Z 21)
    (take 6 sample_prices) (drop 6 sample_prices) 10 10 c l1 c1 h1 l2 c2 h2); [vm_compute; reflexivity..| |exact E1|exact E2].
  assert (Forall (fun a => Forall (agree (dated_provider (take 6 sample_prices)) (dated_provider sample_prices) 1 a)
    (pb_date <$> take 6 sample_prices)) (pb_date <$> take 6 sample_prices)) as Hall
    by (repeat (apply Forall_nil_2 || apply Forall_cons_2 || split); vm_compute; reflexivity).
  intros a b Ha Hb. rewrite Forall_forall in Hall. specialize (Hall a Ha). rewrite Forall_forall in Hall. by apply Hall.
Defined.
