(* ===== verification/Csv.v ===== *)
(** The CSV provider: [modules/fin/src/provider_csv.c].

    Files are strings by their path.  [strtod] (through [atof]) and [mktime] depend on the
    locale and the time zone: they are parameters; [sscanf] for dates and [atoi] are
    written out.  Lines are read by [fgets] into buffers of the code's sizes; a NUL byte
    ends the line it is in, as every use of the buffer takes it.  [malloc] for a stream
    succeeds; the provider and the universe are not NULL. *)

From Stdlib Require Import Ascii.
From S2P Require Import Prelude Float64 CString MarketRules SortSearch Universe BarWindow Strategy.
Open Scope Z_scope.

(** ** The C library and the files *)

Class CLib := {
  atof : string -> f64;
  mktime : Z -> Z -> Z -> option Z          (* year, month and day; [None] is -1 *)
}.

Definition files := string -> option string.

Definition newline : ascii := "010"%char.
Definition carriage : ascii := "013"%char.
Definition nul : ascii := "000"%char.

(** At most [k] characters, up to a newline and with it. *)
Fixpoint read_chars (k : nat) (s : string) : string * string :=
  match k, s with
  | O, _ | _, EmptyString => ("", s)
  | Datatypes.S k, String a s =>
      if Ascii.eqb a newline then (String a "", s)
      else let (l, r) := read_chars k s in (String a l, r)
  end.

(** [fgets]: [None] at the end of the file. *)
Definition fgets (size : nat) (s : string) : option (string * string) :=
  match s with EmptyString => None | _ => Some (read_chars (size - 1) s) end.

Fixpoint until_nul (s : string) : string :=
  match s with
  | EmptyString => ""
  | String a s => if Ascii.eqb a nul then "" else String a (until_nul s)
  end.

(** [snprintf] and [strncpy] keep what fits. *)
Fixpoint truncate (k : nat) (s : string) : string :=
  match k, s with
  | O, _ | _, EmptyString => ""
  | Datatypes.S k, String a s => String a (truncate k s)
  end.

Definition is_newline (a : ascii) : bool := Ascii.eqb a newline || Ascii.eqb a carriage.

Fixpoint strip_newline (s : string) : string :=
  match s with
  | EmptyString => ""
  | String a s =>
      match strip_newline s with
      | EmptyString => if is_newline a then "" else String a ""
      | t => String a t
      end
  end.

(** ** Fields *)

Definition comma : ascii := ",".

(** The characters of a field, and what follows them. *)
Fixpoint span_field (p : string) : string * string :=
  match p with
  | EmptyString => ("", "")
  | String a q =>
      if Ascii.eqb a comma || is_newline a then ("", p)
      else let (f, r) := span_field q in (String a f, r)
  end.

(** [None] is the pointer NULL. *)
Definition csv_next_field (p : option string) (buflen : nat) : string * option string :=
  match p with
  | None | Some EmptyString => ("", None)
  | Some p =>
      let (f, r) := span_field p in
      (truncate (buflen - 1) f,
       Some (match r with String a r' => if Ascii.eqb a comma then r' else r | EmptyString => r end))
  end.

(** The fields of a line, into buffers of these sizes. *)
Fixpoint csv_fields (p : option string) (sizes : list nat) : list string :=
  match sizes with
  | [] => []
  | n :: sizes => let (f, p) := csv_next_field p n in f :: csv_fields p sizes
  end.

(** ** Values *)

Definition is_space (a : ascii) : bool :=
  let n := N_of_ascii a in ((n =? 32) || (9 <=? n) && (n <=? 13))%N.

Definition digit (a : ascii) : option Z :=
  let n := Z.of_N (N_of_ascii a) in if (48 <=? n) && (n <=? 57) then Some (n - 48) else None.

(** A run of digits: its value, none for no digit, and what follows. *)
Fixpoint scan_digits (acc : option Z) (s : string) : option Z * string :=
  match s with
  | EmptyString => (acc, s)
  | String a r =>
      match digit a with
      | Some d => scan_digits (Some (default 0 acc * 10 + d)) r
      | None => (acc, s)
      end
  end.

Fixpoint skip_spaces (s : string) : string :=
  match s with String a r => if is_space a then skip_spaces r else s | EmptyString => s end.

(** The [%d] of [sscanf], which is also [strtol] in base ten; numbers beyond [int] are
    taken as they are, where C leaves them undefined. *)
Definition scan_int (s : string) : option Z * string :=
  match skip_spaces s with
  | String a r =>
      if Ascii.eqb a "-" then let (v, t) := scan_digits None r in (Z.opp <$> v, t)
      else if Ascii.eqb a "+" then scan_digits None r
      else scan_digits None (String a r)
  | EmptyString => (None, "")
  end.

Definition atoi (s : string) : Z := default 0 (scan_int s).1.

Definition scan_dash (s : string) : option string :=
  match s with String a r => if Ascii.eqb a "-" then Some r else None | EmptyString => None end.

(** [sscanf(s, "%d-%d-%d", &y, &m, &d) == 3] *)
Definition scan_date (s : string) : option (Z * Z * Z) :=
  let '(y, s) := scan_int s in
  y ← y; s ← scan_dash s;
  let '(m, s) := scan_int s in
  m ← m; s ← scan_dash s;
  let '(d, _) := scan_int s in
  d ← d; Some (y, m, d).

Fixpoint has_prefix (p s : string) : bool :=
  match p, s with
  | EmptyString, _ => true
  | String a p, String b s => Ascii.eqb a b && has_prefix p s
  | String _ _, EmptyString => false
  end.

Definition UNIVERSE_ASSET_EQUITY : Z := 0.
Definition parse_asset_type (s : string) : Z :=
  if has_prefix "EQUITY" s then UNIVERSE_ASSET_EQUITY
  else if has_prefix "ETF" s then 1
  else if has_prefix "FUTURE" s then 2
  else if has_prefix "CRYPTO" s then 3
  else if has_prefix "FX" s then 4
  else if has_prefix "BOND" s then 5
  else UNIVERSE_ASSET_EQUITY.

Definition parse_adj_type (s : string) : Z :=
  if has_prefix "SPLIT" s then 0
  else if has_prefix "DIVIDEND" s then 1
  else if has_prefix "DELIST" s then 2
  else if has_prefix "NAME" s then 3
  else 0.

Section provider.
Context {L : CLib}.

(** The division of C truncates. *)
Definition parse_date (s : string) : f64 :=
  match s with
  | EmptyString => f64_zero
  | _ =>
      match scan_date s with
      | Some (y, m, d) =>
          if (0 <? y) && (0 <? m) && (0 <? d) then
            match mktime y m d with
            | None => f64_zero
            | Some epoch => f64_of_Z (Z.quot epoch 86400)
            end
          else atof s
      | None => atof s
      end
  end.

(** ** Lines *)

(** The lines of a file as the loops see them, stripped; a round of fuel for each
    character is enough. *)
Fixpoint read_lines (fuel size : nat) (s : string) : list string :=
  match fuel with
  | O => []
  | Datatypes.S fuel =>
      match fgets size s with
      | None => []
      | Some (line, s) => strip_newline (until_nul line) :: read_lines fuel size s
      end
  end.

Definition file_lines (size : nat) (s : string) : list string := read_lines (String.length s) size s.

(** The header is skipped, then comments and empty lines. *)
Definition is_comment (line : string) : bool :=
  match line with EmptyString => true | String a _ => Ascii.eqb a "#" end.

Definition data_lines (size : nat) (s : string) : list string :=
  base.filter (fun l => is_comment l = false) (tl (file_lines size s)).

(** ** Loading *)

Record csv_provider := Csv { csv_market : universe_market_rules_t; data_dir : string; fs : files }.

(** [source[0] == '/'] or [source[1] == ':']; the empty string is read past its end. *)
Definition is_absolute (source : string) : option bool :=
  match source with
  | EmptyString => None
  | String a EmptyString => Some (Ascii.eqb a "/")
  | String a (String b _) => Some (Ascii.eqb a "/" || Ascii.eqb b ":")
  end.

Definition source_path (p : csv_provider) (source : option string) (preset : string) : option string :=
  match source with
  | None => Some (truncate 639 (data_dir p ++ "/" ++ preset))
  | Some s =>
      absolute ← is_absolute s;
      Some (truncate 639 (if absolute : bool then s else data_dir p ++ "/" ++ s))
  end.

Definition field (l : list string) (i : nat) : string := nth i l "".

Definition parse_asset (p : csv_provider) (line : string) : option universe_asset_t :=
  let f := csv_fields (Some line) [32; 16; 8; 16; 16; 16; 32; 32; 32]%nat in
  let num i d := match field f i with EmptyString => d | s => atof s end in
  if bool_decide (field f 0 = "") || bool_decide (field f 1 = "") then None else
  Some (Asset (wrapu 32 (atoi (field f 0))) (truncate 15 (field f 1)) (truncate 7 (field f 2))
          (parse_asset_type (field f 3)) (parse_date (field f 4)) (parse_date (field f 5))
          (num 6%nat (lot_size_default (csv_market p))) (num 7%nat (f64_lit 1 (-2))) (num 8%nat f64_zero)).

Definition parse_adjustment (line : string) : option universe_adj_t :=
  let f := csv_fields (Some line) [32; 16; 16; 32]%nat in
  if bool_decide (field f 0 = "") then None else
  Some (Adj (wrapu 32 (atoi (field f 0))) (parse_date (field f 1)) (parse_adj_type (field f 2))
          (atof (field f 3)) f64_zero).

(** The answers of [universe_add_asset] are not looked at. *)
Definition add_assets (l : list universe_asset_t) (u : universe_t) (h : heap) : universe_t * heap :=
  foldl (fun '(u, h) a => let '(_, u, h) := universe_add_asset u a h in (u, h)) (u, h) l.

Definition add_adjustments (l : list universe_adj_t) (u : universe_t) (h : heap) : universe_t * heap :=
  foldl (fun '(u, h) a => let '(_, u, h) := universe_add_adjustment u a h in (u, h)) (u, h) l.

(** [None] is the read past an empty source. *)
Definition csv_load_assets (p : csv_provider) (u : universe_t) (source : option string) (h : heap)
    : option (Z * universe_t * heap) :=
  path ← source_path p source "assets.csv";
  Some (match fs p path with
        | None => (-1, u, h)
        | Some text => let (u, h) := add_assets (omap (parse_asset p) (data_lines 1024 text)) u h in (0, u, h)
        end).

Definition csv_load_adjustments (p : csv_provider) (u : universe_t) (source : option string) (h : heap)
    : option (Z * universe_t * heap) :=
  path ← source_path p source "adjustments.csv";
  let explicit_source := match source with Some (String _ _) => true | _ => false end in
  Some (match fs p path with
        | None => (if explicit_source then -1 else 0, u, h)
        | Some text => let (u, h) := add_adjustments (omap parse_adjustment (data_lines 512 text)) u h in (0, u, h)
        end).

(** ** Bars *)

Definition parse_bar (asset_id : Z) (line : string) : option provider_bar_t :=
  let f := csv_fields (Some line) [16; 32; 32; 32; 32; 32]%nat in
  if bool_decide (field f 0 = "") || bool_decide (field f 4 = "") then None else
  Some (ProviderBar (parse_date (field f 0)) (atof (field f 1)) (atof (field f 2)) (atof (field f 3))
          (atof (field f 4)) (atof (field f 5)) asset_id).

Record csv_bar_stream_t := Stream {
  file : string;                 (* what is left to read *)
  stream_id : Z;
  start_date : f64;
  end_date : f64;
  header_skipped : bool
}.

Definition with_file (f : string) (s : csv_bar_stream_t) : csv_bar_stream_t :=
  Stream f (stream_id s) (start_date s) (end_date s) true.

(** The answer of [csv_next_bar], 1 with a bar and 0 without, and the stream after it. *)
Fixpoint next_bar_loop (fuel : nat) (s : csv_bar_stream_t) : option provider_bar_t * csv_bar_stream_t :=
  match fuel with
  | O => (None, s)
  | Datatypes.S fuel =>
      match fgets 256 (file s) with
      | None => (None, s)
      | Some (line, rest) =>
          let line := strip_newline (until_nul line) in
          let s' := with_file rest s in
          if negb (header_skipped s) then next_bar_loop fuel s'
          else if is_comment line then next_bar_loop fuel s'
          else match parse_bar (stream_id s) line with
               | None => next_bar_loop fuel s'
               | Some b =>
                   if (start_date s >? 0.0)%f64 && (pb_date b <? start_date s)%f64 then next_bar_loop fuel s'
                   else if (end_date s >? 0.0)%f64 && (pb_date b >? end_date s)%f64 then (None, s')
                   else (Some b, s')
               end
      end
  end.

Definition csv_next_bar (s : csv_bar_stream_t) : option provider_bar_t * csv_bar_stream_t :=
  next_bar_loop (Datatypes.S (String.length (file s))) s.

(** The bars that a caller reads until the answer is not 1. *)
Fixpoint all_bars (fuel : nat) (s : csv_bar_stream_t) : list provider_bar_t :=
  match fuel with
  | O => []
  | Datatypes.S fuel =>
      match csv_next_bar s with
      | (Some b, s) => b :: all_bars fuel s
      | (None, _) => []
      end
  end.

Definition stream_bars (s : csv_bar_stream_t) : list provider_bar_t := all_bars (Datatypes.S (String.length (file s))) s.

(** [%u] *)
Fixpoint decimal_digits (fuel : nat) (n : Z) (acc : string) : string :=
  match fuel with
  | O => acc
  | Datatypes.S fuel =>
      let acc := String (ascii_of_N (Z.to_N (48 + n mod 10))) acc in
      if n <? 10 then acc else decimal_digits fuel (n / 10) acc
  end.
Definition print_u32 (n : Z) : string := decimal_digits 10 (wrapu 32 n) "".

Definition bars_path (p : csv_provider) (name : string) : string :=
  truncate 639 (data_dir p ++ "/bars/" ++ name ++ ".csv").

Definition csv_open_stream (p : csv_provider) (asset_id : Z) (from to_ : f64) : option csv_bar_stream_t :=
  text ← fs p (bars_path p (print_u32 asset_id));
  Some (Stream text asset_id from to_ false).

Definition csv_open_stream_by_ticker (p : csv_provider) (ticker : string) (asset_id : Z) (from to_ : f64)
    : option csv_bar_stream_t :=
  text ← match fs p (bars_path p ticker) with
         | Some text => Some text
         | None => fs p (bars_path p (print_u32 asset_id))
         end;
  Some (Stream text asset_id from to_ false).

(** A name of 511 characters or more is cut; the arena's memory after it is taken to be
    zero. *)
Definition provider_csv_create (m : universe_market_rules_t) (dir : option string) (fs : files) : csv_provider :=
  Csv m (truncate 511 (default "." dir)) fs.

(** What the strategy runner sees of the provider: [open_stream] and the calls of
    [next_bar] until the answer is not 1. *)
Definition csv_streams (p : csv_provider) : Provider := {|
  market := Some (csv_market p);
  open_stream := fun asset_id from to_ => stream_bars <$> csv_open_stream p asset_id from to_
|}.

(** ** Helpers for any CSV provider *)

Definition provider_load_universe `{QSort} (p : csv_provider) (u : universe_t) (assets_source adj_source : option string)
    (h : heap) : option (Z * universe_t * heap) :=
  r ← csv_load_assets p u assets_source h;
  let '(rc, u, h) := r in
  if rc <? 0 then Some (rc, u, h) else
  match adj_source with
  | None => Some (0, universe_finalize u, h)
  | Some _ =>
      r ← csv_load_adjustments p u adj_source h;
      let '(rc, u, h) := r in
      if rc <? 0 then Some (rc, u, h) else Some (0, universe_finalize u, h)
  end.

(** One bar into the window, adjusted; [prev_close] is that of the bar before. *)
Definition load_bar (asset_id : Z) (s : universe_t * bar_window_t * f64) (b : provider_bar_t)
    : universe_t * bar_window_t * f64 :=
  let '(u, w, prev_close) := s in
  let (u, w) := push_bar asset_id b prev_close (universe_advance u (pb_date b)) w in
  (u, w, pb_close b).

Definition provider_load_window (p : csv_provider) (u : universe_t) (asset_id : Z) (from to_ : f64)
    (w : bar_window_t) : Z * universe_t * bar_window_t :=
  let a := universe_find_asset u asset_id ≫= fun i => u_assets u !! i in
  let stream :=
    match a with
    | Some a => if bool_decide (a_ticker a = "") then csv_open_stream p asset_id from to_
                else csv_open_stream_by_ticker p (a_ticker a) asset_id from to_
    | None => csv_open_stream p asset_id from to_
    end in
  match stream with
  | None => (-1, u, w)
  | Some s =>
      let l := stream_bars s in
      let '(u, w, _) := foldl (load_bar asset_id) (u, w, f64_zero) l in
      (Z.of_nat (length l), u, w)
  end.
End provider.
