(* ===== verification/CsvProofs.v ===== *)
(** What a script gets from the files of the CSV provider: lines and fields come back as
    they were written, and a stream yields the bars of its dates. *)

From Stdlib Require Import Ascii Sorted.
From S2P Require Import Prelude Float64 CString MarketRules SortSearch Universe BarWindow Strategy Csv.
Open Scope Z_scope.

#[local] Arguments String.append : simpl nomatch.

(** ** Files as they are written *)

Fixpoint join (l : list string) : string :=
  match l with
  | [] => ""
  | [f] => f
  | f :: l => f +:+ String comma (join l)
  end.

Fixpoint unlines (l : list string) : string :=
  match l with
  | [] => ""
  | s :: l => s +:+ String newline (unlines l)
  end.

Fixpoint all_chars (P : ascii -> bool) (s : string) : bool :=
  match s with EmptyString => true | String a s => P a && all_chars P s end.

Definition plain (a : ascii) : bool := negb (is_newline a || Ascii.eqb a nul).
Definition in_field (a : ascii) : bool := plain a && negb (Ascii.eqb a comma).

Definition good_line (size : nat) (s : string) : Prop := all_chars plain s = true /\ (String.length s + 2 <= size)%nat.
Definition good_field (size : nat) (s : string) : Prop := all_chars in_field s = true /\ (String.length s < size)%nat.

Lemma all_chars_app P s t : all_chars P (s +:+ t) = all_chars P s && all_chars P t.
Proof. induction s as [|a s IH]; cbn; [done|]. by rewrite IH, andb_assoc. Qed.

Lemma all_chars_impl (P R : ascii -> bool) s :
  (forall a, P a = true -> R a = true) -> all_chars P s = true -> all_chars R s = true.
Proof.
  intros HPR. induction s as [|a s IH]; cbn; [done|]. rewrite !andb_true_iff. intros [? ?]. auto.
Qed.

Lemma plain_facts a : plain a = true -> is_newline a = false /\ Ascii.eqb a newline = false /\ Ascii.eqb a nul = false.
Proof. unfold plain, is_newline. rewrite negb_true_iff, !orb_false_iff. tauto. Qed.

Lemma length_app s t : String.length (s +:+ t) = (String.length s + String.length t)%nat.
Proof. induction s as [|a s IH]; cbn; [done|]. by rewrite IH. Qed.

(** ** Lines *)

Lemma read_chars_line k s t :
  all_chars plain s = true -> (String.length s < k)%nat ->
  read_chars k (s +:+ String newline t) = (s +:+ String newline "", t).
Proof.
  revert k. induction s as [|a s IH]; intros [|k] Hs Hk; cbn in *; try lia.
  - done.
  - apply andb_true_iff in Hs as [Ha Hs]. apply plain_facts in Ha as (_ & -> & _).
    rewrite IH; [done|done|lia].
Qed.

Lemma until_nul_line s : all_chars plain s = true -> until_nul (s +:+ String newline "") = s +:+ String newline "".
Proof.
  induction s as [|a s IH]; cbn; [done|]. rewrite andb_true_iff. intros [Ha Hs].
  apply plain_facts in Ha as (_ & _ & ->). by rewrite IH.
Qed.

Lemma strip_newline_line s : all_chars plain s = true -> strip_newline (s +:+ String newline "") = s.
Proof.
  induction s as [|a s IH]; cbn; [done|]. rewrite andb_true_iff. intros [Ha Hs].
  apply plain_facts in Ha as (Hn & _). rewrite IH by done. destruct s; [by rewrite Hn|done].
Qed.

Lemma fgets_line size s t :
  good_line size s ->
  fgets size (s +:+ String newline t) = Some (s +:+ String newline "", t) /\
  strip_newline (until_nul (s +:+ String newline "")) = s.
Proof.
  intros [Hs Hl]. split; [|by rewrite until_nul_line, strip_newline_line].
  unfold fgets. destruct s as [|a s]; cbn [String.append].
  - destruct size as [|[|k]]; cbn in *; [lia|lia|done].
  - f_equal. apply (read_chars_line _ (String a s)); [done|]. lia.
Qed.

Lemma read_chars_length k s l r :
  read_chars k s = (l, r) -> (String.length r <= String.length s)%nat /\ (k <> 0 -> s <> "" -> String.length r < String.length s)%nat.
Proof.
  revert s l r. induction k as [|k IH]; intros s l r; [by destruct s; intros [= <- <-]|].
  destruct s as [|a s]; cbn; [by intros [= <- <-]|].
  destruct (Ascii.eqb a newline); [intros [= <- <-]; lia|].
  destruct (read_chars k s) as [l' r'] eqn:E. intros [= <- <-]. apply IH in E. lia.
Qed.

Lemma fgets_length size s l r :
  (2 <= size)%nat -> fgets size s = Some (l, r) -> (String.length r < String.length s)%nat.
Proof.
  intros Hs. unfold fgets. destruct s as [|a s]; [done|]. intros [= E]. apply read_chars_length in E as [_ H].
  apply H; [lia|done].
Qed.

(** More fuel than characters changes nothing. *)
Lemma read_lines_fuel size n m s :
  (2 <= size)%nat -> (String.length s <= n)%nat -> (String.length s <= m)%nat ->
  read_lines n size s = read_lines m size s.
Proof.
  intros Hs. revert m s. induction n as [|n IH]; intros [|m] s Hn Hm; [done| | |].
  1, 2: destruct s; cbn in *; [done|lia].
  cbn [read_lines]. destruct (fgets size s) as [[l r]|] eqn:E; [|done].
  apply fgets_length in E; [|done]. f_equal. apply IH; lia.
Qed.

Lemma file_lines_unlines size l :
  (2 <= size)%nat -> Forall (good_line size) l -> file_lines size (unlines l) = l.
Proof.
  intros Hs. unfold file_lines. induction 1 as [|s l Hl _ IH]; [done|].
  cbn [unlines]. rewrite (read_lines_fuel _ _ (Datatypes.S (String.length (s +:+ String newline (unlines l))))) by lia.
  cbn [read_lines]. destruct (fgets_line size s (unlines l) Hl) as [-> ->]. f_equal.
  transitivity (read_lines (String.length (unlines l)) size (unlines l)); [|exact IH].
  apply read_lines_fuel; [done| |done]. rewrite length_app. cbn. lia.
Qed.

(** ** Fields *)

Lemma truncate_id k s : (String.length s <= k)%nat -> truncate k s = s.
Proof.
  revert k. induction s as [|a s IH]; intros [|k] H; cbn in *; try done; [lia|]. rewrite IH; [done|lia].
Qed.

Lemma in_field_facts a : in_field a = true -> (Ascii.eqb a comma || is_newline a) = false.
Proof.
  unfold in_field. rewrite andb_true_iff, negb_true_iff. intros [H ->]. by apply plain_facts in H as [-> _].
Qed.

Lemma span_field_end s : all_chars in_field s = true -> span_field s = (s, "").
Proof.
  induction s as [|a s IH]; cbn; [done|]. rewrite andb_true_iff. intros [Ha Hs].
  by rewrite in_field_facts, IH.
Qed.

Lemma span_field_comma s t :
  all_chars in_field s = true -> span_field (s +:+ String comma t) = (s, String comma t).
Proof.
  induction s as [|a s IH]; cbn; [done|]. rewrite andb_true_iff. intros [Ha Hs].
  by rewrite in_field_facts, IH.
Qed.

Lemma next_field_end n f :
  good_field n f -> exists p, csv_next_field (Some f) n = (f, p) /\ (p = None \/ p = Some "").
Proof.
  intros [Hc Hl]. destruct f as [|a f]; [by exists None; auto|]. exists (Some "").
  cbn [csv_next_field]. rewrite span_field_end, truncate_id by (done || lia). auto.
Qed.

Lemma next_field_comma n f t :
  good_field n f -> csv_next_field (Some (f +:+ String comma t)) n = (f, Some t).
Proof.
  intros [Hc Hl].
  assert (csv_next_field (Some (f +:+ String comma t)) n =
    (truncate (n - 1) f, Some t)) as ->; [|by rewrite truncate_id by lia].
  pose proof (span_field_comma f t Hc) as E.
  destruct f as [|a f]; cbn [String.append csv_next_field] in *; by rewrite E.
Qed.

Lemma no_fields p sizes : (p = None \/ p = Some "") -> csv_fields p sizes = replicate (length sizes) "".
Proof.
  intros Hp. revert p Hp. induction sizes as [|n l IH]; intros p Hp; [done|].
  cbn [csv_fields length replicate]. destruct Hp as [-> | ->]; cbn [csv_next_field]; f_equal; apply IH; auto.
Qed.

Lemma fields_join fs sizes rest :
  fs <> [] -> Forall2 good_field sizes fs ->
  csv_fields (Some (join fs)) (sizes ++ rest) = fs ++ replicate (length rest) "".
Proof.
  intros Hne H. induction H as [|n f sizes fs Hf Hfs IH]; [done|].
  destruct fs as [|g fs].
  - apply Forall2_nil_inv_r in Hfs as ->. cbn [join app csv_fields].
    destruct (next_field_end n f Hf) as (p & -> & Hp). by rewrite no_fields.
  - change (join (f :: g :: fs)) with (f +:+ String comma (join (g :: fs)))%string.
    cbn [app csv_fields]. rewrite next_field_comma by done. f_equal. by apply IH.
Qed.

(** The fields that are written with commas between them, none holding a comma, a line
    break or a NUL and each shorter than its buffer, are read back as they were; buffers
    beyond them are empty. *)
Theorem csv_fields_round_trip fs sizes rest :
  fs <> [] -> Forall2 good_field sizes fs ->
  csv_fields (Some (join fs)) (sizes ++ rest) = fs ++ replicate (length rest) "".
Proof. apply fields_join. Qed.

(** ** Streams *)

(** The bars of the dates that were asked for: those before are left out, the first one
    after ends the stream. *)
Definition too_early (from : f64) (b : provider_bar_t) : bool := (from >? 0.0)%f64 && (pb_date b <? from)%f64.
Definition too_late (to_ : f64) (b : provider_bar_t) : bool := (to_ >? 0.0)%f64 && (pb_date b >? to_)%f64.

Fixpoint select (from to_ : f64) (l : list provider_bar_t) : list provider_bar_t :=
  match l with
  | [] => []
  | b :: l => if too_early from b then select from to_ l
              else if too_late to_ b then [] else b :: select from to_ l
  end.

(** In the order of dates that is the bars in the range. *)
Lemma select_sorted from to_ l :
  StronglySorted (fun a b => (pb_date a <=? pb_date b)%f64 = true) l ->
  select from to_ l = base.filter (fun b => too_early from b = false /\ too_late to_ b = false) l.
Proof.
  induction 1 as [|b l Hs IH Hb]; [done|]. cbn [select]. rewrite filter_cons.
  destruct (too_early from b) eqn:E1; [rewrite decide_False; [done|naive_solver]|].
  destruct (too_late to_ b) eqn:E2; [|by rewrite decide_True, IH].
  rewrite decide_False; [|naive_solver]. symmetry. apply filter_none.
  eapply Forall_impl; [exact Hb|]. intros c Hc [_ H].
  unfold too_late in *. apply andb_true_iff in E2 as [Hp E2]. rewrite Hp in H.
  cbn in H. pose proof (f64_ltb_leb_trans _ _ _ E2 Hc). congruence.
Qed.

Section stream.
Context {L : CLib}.

Definition remaining (s : csv_bar_stream_t) : list string :=
  let l := file_lines 256 (file s) in
  base.filter (fun x => is_comment x = false) (if header_skipped s then l else tl l).

Definition rows (s : csv_bar_stream_t) : list provider_bar_t :=
  select (start_date s) (end_date s) (omap (parse_bar (stream_id s)) (remaining s)).

Lemma file_lines_step s line rest :
  fgets 256 s = Some (line, rest) ->
  file_lines 256 s = strip_newline (until_nul line) :: file_lines 256 rest.
Proof.
  intros E. unfold file_lines. pose proof (fgets_length 256 s line rest ltac:(lia) E).
  destruct (String.length s) as [|n] eqn:El; [lia|]. cbn [read_lines]. rewrite E. f_equal.
  apply read_lines_fuel; lia.
Qed.

Lemma file_lines_end size s : fgets size s = None -> file_lines size s = [].
Proof. unfold fgets. by destruct s. Qed.

(** One call gives the first of the rows that are left, and leaves the others. *)
Definition gives_next (s : csv_bar_stream_t) (r : option provider_bar_t * csv_bar_stream_t) : Prop :=
  match r with
  | (Some b, s') => rows s = b :: rows s' /\ (String.length (file s') < String.length (file s))%nat
  | (None, _) => rows s = []
  end.

Lemma gives_next_skip s s' r :
  rows s = rows s' -> (String.length (file s') <= String.length (file s))%nat -> gives_next s' r -> gives_next s r.
Proof. unfold gives_next. intros -> ?. destruct r as [[b|] t]; [intros [-> ?]; split; [done|lia]|done]. Qed.

Lemma next_bar_rows fuel s :
  (String.length (file s) < fuel)%nat -> gives_next s (next_bar_loop fuel s).
Proof.
  revert s. induction fuel as [|fuel IH]; intros s Hf; [lia|]. cbn [next_bar_loop].
  destruct (fgets 256 (file s)) as [[line rest]|] eqn:E.
  2: { unfold gives_next, rows, remaining. rewrite file_lines_end by done. by destruct (header_skipped s). }
  pose proof (file_lines_step _ _ _ E) as Hl. pose proof (fgets_length 256 _ _ _ ltac:(lia) E) as Hlen.
  set (x := strip_newline (until_nul line)) in *. set (s' := with_file rest s).
  assert (gives_next s' (next_bar_loop fuel s')) as Hn by (apply IH; cbn; lia).
  assert (rows s = rows s' -> gives_next s (next_bar_loop fuel s')) as Hskip.
  { intros Hr. apply (gives_next_skip s s'); [done|cbn; lia|done]. }
  clear IH E. unfold rows, remaining in Hskip |- *. cbn in Hskip. rewrite Hl in Hskip.
  destruct (header_skipped s) eqn:Eh; cbn [negb]; [|by apply Hskip].
  rewrite filter_cons in Hskip. destruct (is_comment x) eqn:Ec.
  { apply Hskip. by rewrite decide_False. }
  rewrite decide_True in Hskip by done. cbn [omap list_omap] in Hskip.
  destruct (parse_bar (stream_id s) x) as [b|] eqn:Eb; [|by apply Hskip].
  assert (rows s = select (start_date s) (end_date s) (b :: omap (parse_bar (stream_id s)) (remaining s'))) as Hr.
  { unfold rows, remaining. rewrite Eh. cbn [negb file with_file header_skipped s']. rewrite Hl, filter_cons, decide_True by done. cbn. by rewrite Eb. }
  cbn [select] in Hskip, Hr. fold (too_early (start_date s) b) (too_late (end_date s) b).
  destruct (too_early (start_date s) b); [by apply Hskip|].
  unfold gives_next. destruct (too_late (end_date s) b); [done|]. split; [exact Hr|cbn; lia].
Qed.

Lemma all_bars_rows fuel s :
  (String.length (file s) < fuel)%nat -> all_bars fuel s = rows s.
Proof.
  revert s. induction fuel as [|fuel IH]; intros s Hf; [lia|]. cbn [all_bars]. unfold csv_next_bar.
  pose proof (next_bar_rows (Datatypes.S (String.length (file s))) s ltac:(lia)) as H.
  destruct (next_bar_loop _ s) as [[b|] s']; cbn in H; [|done].
  destruct H as [-> ?]. rewrite IH by lia. done.
Qed.

Lemma stream_rows s : stream_bars s = rows s.
Proof. apply all_bars_rows. lia. Qed.

(** ** A file of bars *)

Definition bar_sizes : list nat := [16; 32; 32; 32; 32; 32]%nat.

(** The six fields of a row: they fit, the date is there and starts no comment, the close
    is there. *)
Definition good_row (l : list string) : Prop :=
  Forall2 good_field bar_sizes l /\ good_line 256 (join l) /\ is_comment (field l 0) = false /\ field l 4 <> "".

Definition row_bar (id : Z) (l : list string) : provider_bar_t :=
  ProviderBar (parse_date (field l 0)) (atof (field l 1)) (atof (field l 2)) (atof (field l 3))
    (atof (field l 4)) (atof (field l 5)) id.

Lemma parse_bar_row id l : good_row l -> parse_bar id (join l) = Some (row_bar id l).
Proof.
  intros (Hf & _ & Hc & Hne).
  assert (l <> []) as Hl by (intros ->; inversion Hf).
  pose proof (fields_join l bar_sizes [] Hl Hf) as E. rewrite !app_nil_r in E.
  unfold parse_bar. fold bar_sizes. rewrite E.
  rewrite (bool_decide_eq_false_2 (field l 0 = "")); [|by intros H; rewrite H in Hc].
  by rewrite bool_decide_eq_false_2.
Qed.

Lemma join_comment l : good_row l -> is_comment (join l) = false.
Proof.
  intros (_ & _ & Hc & _). destruct l as [|f [|g l]]; [done|done|]. cbn in *. by destruct f.
Qed.

Lemma good_rows_lines id rs :
  Forall good_row rs ->
  Forall (good_line 256) (map join rs) /\
  omap (parse_bar id) (base.filter (fun x => is_comment x = false) (map join rs)) = map (row_bar id) rs.
Proof.
  induction 1 as [|r rs Hr _ [IH1 IH2]]; [done|]. split; [constructor; [apply Hr|done]|].
  cbn [map]. rewrite filter_cons, decide_True by (by apply join_comment). cbn [omap list_omap].
  rewrite parse_bar_row by done. by f_equal.
Qed.

Lemma stream_of_file header rs id from to_ :
  good_line 256 header -> Forall good_row rs ->
  stream_bars (Stream (unlines (header :: map join rs)) id from to_ false)
  = select from to_ (map (row_bar id) rs).
Proof.
  intros Hh Hr. destruct (good_rows_lines id rs Hr) as [Hl E].
  rewrite stream_rows. unfold rows, remaining. cbn [file header_skipped start_date end_date stream_id].
  rewrite file_lines_unlines; [|lia|by constructor]. cbn [tl]. by rewrite E.
Qed.

(** C12: A file of bars (a header, then a line for each bar with six fields that fit the
    buffers) is read back by the stream that the provider opens for the strategy runner:
    when it is written in the order of the dates, the runner gets exactly the bars whose
    dates lie in the range; without a file there is no stream. *)
Theorem csv_stream_round_trip p id from to_ header rs :
  good_line 256 header -> Forall good_row rs ->
  StronglySorted (fun a b => (pb_date a <=? pb_date b)%f64 = true) (map (row_bar id) rs) ->
  let text := fs p (bars_path p (print_u32 id)) in
  (text = Some (unlines (header :: map join rs)) ->
   @open_stream (csv_streams p) id from to_
   = Some (base.filter (fun b => too_early from b = false /\ too_late to_ b = false) (map (row_bar id) rs))) /\
  (text = None -> @open_stream (csv_streams p) id from to_ = None).
Proof.
  intros Hh Hr Hs text. cbn [open_stream csv_streams]. unfold csv_open_stream. fold text.
  split; intros ->; [|done]. cbn [mbind option_bind fmap option_fmap option_map].
  by rewrite stream_of_file, select_sorted.
Qed.
End stream.

(** ** Witnesses *)

Definition sample_clib : CLib := {|
  atof := fun s => f64_of_Z (atoi s);
  mktime := fun y m d => Some (86400 * (372 * (y - 1970) + 31 * (m - 1) + (d - 1)))
|}.

Lemma csv_fields_round_trip_witness :
  csv_fields (Some (join ["7"; ""; "SPLIT"])) [32; 16; 16; 32]%nat = ["7"; ""; "SPLIT"; ""].
Proof.
  apply (csv_fields_round_trip ["7"; ""; "SPLIT"] [32; 16; 16]%nat [32]%nat); [done|].
  repeat constructor.
Defined.

Definition sample_row (date close : string) : list string := [date; "1"; "2"; "3"; close; "100"].

Definition sample_files : files := fun path =>
  if bool_decide (path = "data/bars/12.csv") then
    Some (unlines ("date,open,high,low,close,volume" ::
      map join [sample_row "2020-01-01" "7"; sample_row "2020-01-02" "8"; sample_row "2020-01-03" "9"]))
  else None.

Definition sample_provider : csv_provider := provider_csv_create MARKET_US_EQUITY (Some "data") sample_files.

Lemma csv_stream_round_trip_witness :
  map pb_close <$> @open_stream (@csv_streams sample_clib sample_provider) 12 f64_zero (f64_of_Z 18601)
  = Some [f64_of_Z 7; f64_of_Z 8].
Proof.
  pose (rs := [sample_row "2020-01-01" "7"; sample_row "2020-01-02" "8"; sample_row "2020-01-03" "9"]).
  rewrite (proj1 (@csv_stream_round_trip sample_clib sample_provider 12 f64_zero (f64_of_Z 18601)
    "date,open,high,low,close,volume" rs
    ltac:(split; vm_compute; [done|lia]) ltac:(repeat constructor; vm_compute; done || lia)
    ltac:(repeat constructor)) ltac:(vm_compute; reflexivity)).
  vm_compute. reflexivity.
Defined.
