(* ===== verification/FloatExact.v ===== *)
(** The integers that a [double] has exactly: those of at most 53 bits. *)

From Stdlib Require Import SpecFloat.
From S2P Require Import Prelude Float64.
Open Scope Z_scope.

Lemma digits2_pos_size m : digits2_pos m = Pos.size m.
Proof. induction m as [m IH|m IH|]; simpl; by rewrite ?IH. Qed.

Lemma digits2_pos_le m k : Z.pos m < 2 ^ Z.pos k -> Z.pos (digits2_pos m) <= Z.pos k.
Proof.
  intros Hm. rewrite digits2_pos_size. pose proof (Pos.size_le m) as Hs.
  assert (2 ^ Z.pos (Pos.size m) <= 2 * Z.pos m) by (rewrite <- Pos2Z.inj_pow; lia).
  assert (2 ^ Z.pos (Pos.size m) < 2 ^ (Z.pos k + 1)).
  { rewrite Z.pow_add_r by lia. change (2 ^ 1) with 2. lia. }
  assert (Z.pos (Pos.size m) < Z.pos k + 1); [|lia]. apply (Z.pow_lt_mono_r_iff 2); lia.
Qed.

(** [m * 2 ^ d] *)
Lemma digits2_pos_shift m d : digits2_pos (shift_pos d m) = (digits2_pos m + d)%positive.
Proof.
  unfold shift_pos. induction d as [|d IH] using Pos.peano_ind; simpl; [lia|].
  rewrite Pos.iter_succ. simpl. rewrite IH. lia.
Qed.

Lemma shift_pos_value d m : Z.pos (shift_pos d m) = Z.pos m * 2 ^ Z.pos d.
Proof. rewrite shift_pos_correct, <- Z.pow_pos_fold. lia. Qed.

(** A mantissa of 53 bits is rounded to itself. *)
Lemma round_exact m e :
  Z.pos (digits2_pos m) = 53 -> - 1074 <= e <= 971 ->
  binary_round_aux 53 1024 false (Z.pos m) e loc_Exact = S754_finite false m e.
Proof.
  intros Hd He. unfold binary_round_aux.
  assert (Hs : forall l, shr_fexp 53 1024 (Z.pos m) e l = (shr_record_of_loc (Z.pos m) l, e)).
  { intros l. unfold shr_fexp. simpl Zdigits2. rewrite Hd. unfold fexp, emin.
    replace (Z.max (53 + e - 53) (3 - 1024 - 53) - e) with 0 by lia. done. }
  rewrite Hs. simpl. rewrite Hs. simpl. by rewrite (proj2 (Z.leb_le _ _)) by lia.
Qed.

Lemma of_pos_exact m :
  Z.pos m < 2 ^ 53 ->
  exists m' e, f64_of_Z (Z.pos m) = S754_finite false m' e /\ e <= 0 /\ Z.pos m' = Z.pos m * 2 ^ (- e).
Proof.
  intros Hm. pose proof (digits2_pos_le m 53 Hm) as Hd.
  unfold f64_of_Z, binary_normalize, binary_round. unfold fexp, emin.
  replace (Z.max (Z.pos (digits2_pos m) + 0 - 53) (3 - 1024 - 53)) with (Z.pos (digits2_pos m) - 53) by lia.
  unfold shl_align. rewrite Z.sub_0_r.
  destruct (Z.pos (digits2_pos m) - 53) as [|p|p] eqn:E; [|lia|].
  - exists m, 0. split_and!; [apply round_exact; lia|lia|]. by rewrite Z.mul_1_r.
  - exists (shift_pos p m), (Z.neg p). split_and!; [|lia|].
    + apply round_exact; [|lia]. rewrite digits2_pos_shift. lia.
    + rewrite shift_pos_value. done.
Qed.

(** Converting an integer below [2 ^ 53] to [double] and back loses nothing. *)
Lemma trunc_of_Z n : 0 <= n < 2 ^ 53 -> f64_trunc (f64_of_Z n) = Some n.
Proof.
  intros Hn. destruct n as [|m|]; [done| |lia].
  destruct (of_pos_exact m) as (m' & e & -> & He & Hm); [lia|]. cbn [f64_trunc]. f_equal.
  destruct (Z.leb_spec 0 e).
  - assert (e = 0) as -> by lia. rewrite Hm. lia.
  - rewrite Hm, Z.div_mul; [done|]. pose proof (Z.pow_pos_nonneg 2 (- e)). lia.
Qed.
