(* ===== verification/StringLib.v ===== *)
(** The string module, foundations: [exprtk/src/mod_string.c].

    A native function takes the list of its arguments ([argc] is its length) and returns a
    value, or its behaviour is undefined: a store beyond the end of a buffer, or a conversion
    of a [double] out of the range of the integer type.  The buffer a function allocates has
    a size, computed as the code computes it in [size_t]; what it stores is the list of bytes
    in order, and since the position only grows, the stores are in bounds exactly when the
    last one is.

    Strings are views whose bytes are there.  The character classes are those of the C
    locale.  The views ([vstr]) and the growing strings ([tstr]) come from a library outside
    the repository: the operations on them that search, trim or decode are the class
    [VStr].  [strtod], [strtoll] and [printf]'s conversions of numbers are the class [CText]. *)

From Stdlib Require Import Ascii SpecFloat.
From Stdlib Require Strings.String.
From S2P Require Import Prelude Float64 HostStatus RtValue.
Open Scope Z_scope.

(** ** Bytes *)

Abbreviation bytes := (list ascii).

Definition bytes_string : bytes -> string := Strings.String.string_of_list_ascii.

Definition byte (a : ascii) : Z := Z.of_N (N_of_ascii a).

(** [(char)n] *)
Definition to_char (n : Z) : ascii := ascii_of_N (Z.to_N (wrapu 8 n)).

Definition len (s : bytes) : Z := Z.of_nat (length s).

Definition between (lo hi : Z) (n : Z) : bool := (lo <=? n) && (n <=? hi).

Definition isdigit (c : ascii) : bool := between 48 57 (byte c).
Definition isupper (c : ascii) : bool := between 65 90 (byte c).
Definition islower (c : ascii) : bool := between 97 122 (byte c).
Definition isalpha (c : ascii) : bool := isupper c || islower c.
Definition isalnum (c : ascii) : bool := isalpha c || isdigit c.
Definition isxdigit (c : ascii) : bool := isdigit c || between 65 70 (byte c) || between 97 102 (byte c).
Definition isspace (c : ascii) : bool := (byte c =? 32) || between 9 13 (byte c).
Definition isprint (c : ascii) : bool := between 32 126 (byte c).

Definition tolower (c : ascii) : ascii := if isupper c then to_char (byte c + 32) else c.
Definition toupper (c : ascii) : ascii := if islower c then to_char (byte c - 32) else c.

Definition is_byte (c a : ascii) : bool := bool_decide (a = c).

(** A string literal. *)
Definition lit (s : string) : bytes := Strings.String.list_ascii_of_string s.

Definition quote : ascii := "034"%char.
Definition lf : ascii := "010"%char.
Definition cr : ascii := "013"%char.
Definition tab : ascii := "009"%char.

(** [memchr] *)
Definition memchr (c : ascii) (s : bytes) : bool := existsb (is_byte c) s.

(** [s.data[i..i + len)] *)
Definition slice (s : bytes) (start count : Z) : bytes := take (Z.to_nat count) (drop (Z.to_nat start) s).

(** ** Values *)

Definition view (t : text) : bytes := Strings.String.list_ascii_of_string (text_bytes t).
Definition str (s : bytes) : xvalue := XString (Text (bytes_string s)).
Definition num (x : f64) : xvalue := XNumber x.
Definition num0 : xvalue := num 0.0.
Definition truth (b : bool) : xvalue := num (if b then 1.0 else 0.0)%f64.
Definition count (n : Z) : xvalue := num (f64_of_Z n).
Definition minus_one : xvalue := num (f64_opp 1.0).

(** ** Native functions *)

Inductive outcome := Returns (v : xvalue) | Undefined.

(** A step of a function goes on, or leaves the function. *)
Inductive step (A : Type) := Next (a : A) | Leave (r : outcome).
Arguments Next {A} a.
Arguments Leave {A} r.

Definition lib (A : Type) : Type := heap -> step A * heap.

#[export] Instance lib_ret : MRet lib := fun A a h => (Next a, h).
#[export] Instance lib_bind : MBind lib := fun A B k m h =>
  match m h with
  | (Next a, h) => k a h
  | (Leave r, h) => (Leave r, h)
  end.

(** An early return. *)
Definition leave {A} (v : xvalue) : lib A := fun h => (Leave (Returns v), h).
Definition undefined {A} : lib A := fun h => (Leave Undefined, h).

(** [mem_alloc], and [if (!buf) return exprtk_val_num(0);] *)
Definition mem_alloc : lib unit := fun h =>
  match attempt h with
  | (Some _, h) => (Next tt, h)
  | (None, h) => (Leave (Returns num0), h)
  end.

(** A call whose failure the caller looks at. *)
Definition optional {A} (m : fallible A) : lib (option A) := fun h => let (a, h) := m h in (Next a, h).

Definition exec (m : lib xvalue) (h : heap) : outcome * heap :=
  match m h with
  | (Next v, h) => (Returns v, h)
  | (Leave r, h) => (r, h)
  end.

Definition native := list xvalue -> lib xvalue.

(** ** Buffers *)

Definition size_t (n : Z) : Z := wrapu 64 n.

(** [out] and a terminating NUL, stored into a buffer of [cap] bytes. *)
Definition stored (cap : Z) (out : bytes) : lib xvalue :=
  if len out + 1 <=? size_t cap then mret (str out) else undefined.

Definition buffer (cap : Z) (out : bytes) : lib xvalue := _ ← mem_alloc; stored cap out.

(** The same without the terminator. *)
Definition unterminated (cap : Z) (out : bytes) : lib xvalue :=
  _ ← mem_alloc; if len out <=? size_t cap then mret (str out) else undefined.

(** [n] bytes stored into a buffer of [cap] bytes that was allocated for other uses than a result. *)
Definition store_bytes (cap n : Z) : lib unit := if n <=? size_t cap then mret tt else undefined.

(** [n] copies of [unit], the count as the loop has it. *)
Definition copies (n : Z) (unit : bytes) : bytes := concat (replicate (Z.to_nat n) unit).

(** A buffer of [cap] bytes that receives [before], [n] times [unit] and [after]. *)
Definition filled (cap : Z) (before : bytes) (n : Z) (unit after : bytes) : lib xvalue :=
  _ ← mem_alloc;
  if len before + n * len unit + len after + 1 <=? size_t cap
  then mret (str (before ++ copies n unit ++ after)) else undefined.

(** [mod_copy_string] *)
Definition mod_copy_string (s : bytes) : lib xvalue := buffer (len s + 1) s.

(** [exprtk_val_list_empty], and [mod_list_append_string], which ignores what
    [exprtk_list_push] returns: without memory for the element the list stays as it is. *)
Definition mod_list_append_string `{Slots} (list : xvalue) (data : bytes) : lib xvalue :=
  item ← mod_copy_string data;
  pushed ← optional (exprtk_list_push list item);
  mret (default list pushed).

Definition exprtk_list_push_ignored `{Slots} (list item : xvalue) : lib xvalue :=
  pushed ← optional (exprtk_list_push list item);
  mret (default list pushed).

(** The elements appended in turn. *)
Fixpoint append_all `{Slots} (l : xvalue) (parts : list bytes) : lib xvalue :=
  match parts with
  | [] => mret l
  | p :: parts => l ← mod_list_append_string l p; append_all l parts
  end.

Definition string_list `{Slots} (parts : list bytes) : lib xvalue := append_all exprtk_val_list_empty parts.

(** ** Numbers *)

Definition mod_is_number (value : xvalue) : bool :=
  match value with XNumber _ | XInteger _ => true | _ => false end.

(** Read only where [mod_is_number] holds. *)
Definition mod_number_value (value : xvalue) : f64 :=
  match value with XInteger n => f64_of_Z n | XNumber x => x | _ => S754_nan end.

(** [(size_t)n] and [(long long)n] *)
Definition to_size (n : f64) : lib Z :=
  match f64_trunc n with
  | Some k => if between 0 SIZE_MAX k then mret k else undefined
  | None => undefined
  end.

Definition to_signed (n : f64) : lib Z :=
  match f64_trunc n with
  | Some k => if between INT64_MIN INT64_MAX k then mret k else undefined
  | None => undefined
  end.

Definition mod_number_to_index (value : xvalue) : lib Z :=
  let n := mod_number_value value in
  if (n <=? 0.0)%f64 then mret 0 else to_size n.

Definition mod_number_to_signed (value : xvalue) : lib Z := to_signed (mod_number_value value).

(** An index, negative ones from the end, clamped. *)
Definition normalize (size index : Z) : Z :=
  let index := if index <? 0 then size + index else index in
  if index <? 0 then 0 else if size <? index then size else index.

Definition mod_normalize_byte_index (s : bytes) (value : xvalue) : lib Z :=
  index ← mod_number_to_signed value; mret (normalize (len s) index).

Definition mod_normalize_unit_index (unit_count : Z) (value : xvalue) : lib Z :=
  index ← mod_number_to_signed value; mret (normalize unit_count index).

(** ** The view library and the conversions of the C library *)

Class VStr := {
  vstr_find : bytes -> bytes -> option nat;             (* [None] is [VSTR_NPOS] *)
  vstr_rfind : bytes -> bytes -> option nat;
  vstr_contains : bytes -> bytes -> bool;
  vstr_starts_with : bytes -> bytes -> bool;
  vstr_ends_with : bytes -> bytes -> bool;
  vstr_eq : bytes -> bytes -> bool;
  vstr_ieq : bytes -> bytes -> bool;                    (* whatever the case of the letters *)
  vstr_sub : bytes -> Z -> option Z -> bytes;           (* start and length; [None] is [VSTR_NPOS] *)
  vstr_trim : bytes -> bytes -> bytes;                  (* the view and the characters *)
  vstr_trim_left : bytes -> bytes -> bytes;
  vstr_trim_right : bytes -> bytes -> bytes;
  vstr_utf8_valid : bytes -> bool;
  vstr_utf8_len : bytes -> option Z;
  vstr_utf8_byte_offset : bytes -> Z -> option Z;
  vstr_utf8_next : bytes -> option (Z * Z);             (* the code point and its width *)
  tstr_utf8_from_cp : Z -> option bytes;
  tstr_utf8_codepoint_size : Z -> Z                     (* 0 for no code point *)
}.

(** What the module relies on. *)
Class VStrLaws `{VStr} := {
  find_occurs s sub i : vstr_find s sub = Some i -> (i + length sub <= length s)%nat /\ take (length sub) (drop i s) = sub;
  find_first s sub i :
    (i + length sub <= length s)%nat -> take (length sub) (drop i s) = sub ->
    exists j, vstr_find s sub = Some j /\ (j <= i)%nat;
  starts_with_length s p : vstr_starts_with s p = true -> (length p <= length s)%nat;
  ends_with_length s p : vstr_ends_with s p = true -> (length p <= length s)%nat;
  sub_drop s n : 0 <= n <= len s -> vstr_sub s n None = drop (Z.to_nat n) s;
  utf8_len_range s n : vstr_utf8_len s = Some n -> 0 <= n <= len s;
  byte_offset_range s i n : vstr_utf8_byte_offset s i = Some n -> 0 <= n <= len s;
  byte_offset_mono s i j :
    i <= j -> default (len s) (vstr_utf8_byte_offset s i) <= default (len s) (vstr_utf8_byte_offset s j);
  utf8_next_width s cp n : vstr_utf8_next s = Some (cp, n) -> 0 < n <= len s;
  utf8_from_cp_length cp e : tstr_utf8_from_cp cp = Some e -> len e <= 4
}.

Class CText := {
  strtod : bytes -> option f64;                         (* [None] when nothing was converted *)
  strtoll : bytes -> option Z;
  print_g : f64 -> bytes;                               (* [%g] *)
  print_f : f64 -> bytes;                               (* [%f] *)
  print_d : Z -> bytes;                                 (* [%d], [%lld] *)
  raw_number : xvalue -> f64                            (* the [number] of another payload's union *)
}.

Section views.
Context `{VStr}.

Definition mod_utf8_byte_offset (s : bytes) (codepoint_index : Z) : Z :=
  default (len s) (vstr_utf8_byte_offset s codepoint_index).

Definition mod_utf8_codepoint_count_before (s : bytes) (byte_offset : Z) : Z :=
  default 0 (vstr_utf8_len (slice s 0 (Z.min byte_offset (len s)))).

Definition mod_utf8_is_boundary (s : bytes) (byte_offset : Z) : bool :=
  (byte_offset =? 0) || (byte_offset =? len s) ||
  (byte_offset <? len s) &&
  negb (Z.land (byte (nth (Z.to_nat byte_offset) s "000"%char)) 192 =? 128).

Definition mod_utf8_next_width (s : bytes) (offset : Z) : Z :=
  if len s <=? offset then 0
  else match vstr_utf8_next (drop (Z.to_nat offset) s) with Some (_, n) => n | None => 0 end.

Definition mod_first_utf8_char_len (s : bytes) : Z :=
  if len s =? 0 then 0
  else let n := mod_utf8_next_width s 0 in if n =? 0 then 1 else n.

Definition mod_string_unit_count (s : bytes) : Z := default (len s) (vstr_utf8_len s).

Definition mod_string_byte_offset (s : bytes) (units : Z) : Z :=
  if vstr_utf8_valid s then mod_utf8_byte_offset s units
  else if len s <? units then len s else units.
End views.

Definition mod_view_contains_char (chars : bytes) (c : ascii) : bool := memchr c chars.

Definition mod_is_ascii_alnum (c : ascii) : bool := isalnum c.

Definition mod_is_unreserved_url_char (c : ascii) : bool :=
  mod_is_ascii_alnum c || is_byte "-" c || is_byte "_" c || is_byte "." c || is_byte "~" c.

(** [None] is the -1 of the code. *)
Definition mod_hex_value (c : ascii) : option Z :=
  if between 48 57 (byte c) then Some (byte c - 48)
  else if between 97 102 (byte c) then Some (byte c - 97 + 10)
  else if between 65 70 (byte c) then Some (byte c - 65 + 10)
  else None.
