(* ===== verification/StringBasic.v ===== *)
(** The string module: classes of characters, searches, slices, insertions and padding
    ([exprtk/src/mod_string.c]). *)

From Stdlib Require Import Ascii.
From S2P Require Import Prelude Float64 HostStatus RtValue StringLib.
Open Scope Z_scope.

(** ** Sizes, case and classes of characters *)

Definition fn_size : native := fun args =>
  match args with [XString s] => mret (count (len (view s))) | _ => mret num0 end.

Definition fn_lower : native := fun args =>
  match args with
  | [XString s] => unterminated (len (view s)) (map tolower (view s))
  | _ => mret num0
  end.

Definition fn_upper : native := fun args =>
  match args with
  | [XString s] => unterminated (len (view s)) (map toupper (view s))
  | _ => mret num0
  end.

Definition fn_is_empty : native := fun args =>
  match args with [XString s] => mret (truth (len (view s) =? 0)) | _ => mret num0 end.

Definition fn_is_blank : native := fun args =>
  match args with [XString s] => mret (truth (forallb isspace (view s))) | _ => mret num0 end.

Definition fn_is_ascii : native := fun args =>
  match args with
  | [XString s] => mret (truth (forallb (fun c => negb (127 <? byte c)) (view s)))
  | _ => mret num0
  end.

(** A class of characters that every byte of a string that is not empty is in. *)
Definition all_in (test : ascii -> bool) : native := fun args =>
  match args with
  | [XString s] => if len (view s) =? 0 then mret num0 else mret (truth (forallb test (view s)))
  | _ => mret num0
  end.

Definition fn_is_hex : native := all_in isxdigit.
Definition fn_is_digit : native := all_in isdigit.
Definition fn_is_alpha : native := all_in isalpha.
Definition fn_is_alnum : native := all_in isalnum.
Definition fn_is_space : native := all_in isspace.

Definition fn_is_printable : native := fun args =>
  match args with
  | [XString s] =>
      mret (truth (forallb (fun c =>
        negb (128 <=? byte c) &&
        negb (negb (isprint c) && negb (is_byte tab c) && negb (is_byte lf c) &&
              negb (is_byte cr c) && negb (is_byte "011" c) && negb (is_byte "012" c))) (view s)))
  | _ => mret num0
  end.

(** No byte of the other case, and one of this. *)
Fixpoint cased (other this : ascii -> bool) (has_cased : bool) (s : bytes) : bool :=
  match s with
  | [] => has_cased
  | c :: s => if other c then false else cased other this (has_cased || this c) s
  end.

Definition fn_is_lower : native := fun args =>
  match args with
  | [XString s] => if len (view s) =? 0 then mret num0 else mret (truth (cased isupper islower false (view s)))
  | _ => mret num0
  end.

Definition fn_is_upper : native := fun args =>
  match args with
  | [XString s] => if len (view s) =? 0 then mret num0 else mret (truth (cased islower isupper false (view s)))
  | _ => mret num0
  end.

Definition fn_reverse : native := fun args =>
  match args with
  | [XString s] => unterminated (len (view s)) (rev (view s))
  | _ => mret num0
  end.

Definition fn_capitalize : native := fun args =>
  match args with
  | [XString s] =>
      buffer (len (view s) + 1)
        (match view s with [] => [] | c :: rest => toupper c :: map tolower rest end)
  | _ => mret num0
  end.

Fixpoint title_from (word_start : bool) (s : bytes) : bytes :=
  match s with
  | [] => []
  | c :: s =>
      if isalnum c then (if word_start then toupper c else tolower c) :: title_from false s
      else c :: title_from true s
  end.

Definition fn_title : native := fun args =>
  match args with
  | [XString s] => buffer (len (view s) + 1) (title_from true (view s))
  | _ => mret num0
  end.

Definition fn_swapcase : native := fun args =>
  match args with
  | [XString s] =>
      buffer (len (view s) + 1)
        (map (fun c => if islower c then toupper c else if isupper c then tolower c else c) (view s))
  | _ => mret num0
  end.

(** [mod_case_convert]: snake (0), kebab (1), camel (2) and Pascal (3) case, and slugs (4). *)
Record case_state := CaseState {
  word_index : Z;
  in_word : bool;
  cap_next : bool;
  prev : ascii
}.

Definition case_step (style : Z) (pos : Z) (st : case_state) (c : ascii) : bytes * case_state :=
  if negb (isalnum c) then ([], CaseState (word_index st) false (cap_next st) "000")
  else
    let boundary := in_word st && isupper c && (islower (prev st) || isdigit (prev st)) in
    let fresh := negb (in_word st) || boundary in
    let sep := fresh && ((style =? 0) || (style =? 1) || (style =? 4)) && (0 <? word_index st) && (0 <? pos) in
    let cap := if fresh then (style =? 3) || (style =? 2) && (0 <? word_index st) else cap_next st in
    let index := if fresh then word_index st + 1 else word_index st in
    let out := if cap && isalpha c then toupper c else tolower c in
    ((if sep then [if style =? 0 then "_"%char else "-"%char] else []) ++ [out],
     CaseState index true
       (if cap && isalpha c then false else if negb (isalpha c) then false else cap) c).

Fixpoint case_loop (style : Z) (pos : Z) (st : case_state) (s : bytes) : bytes :=
  match s with
  | [] => []
  | c :: s =>
      let (out, st) := case_step style pos st c in
      out ++ case_loop style (pos + len out) st s
  end.

Definition mod_case_convert (s : bytes) (style : Z) : lib xvalue :=
  buffer (len s * 2 + 1) (case_loop style 0 (CaseState 0 false false "000") s).

Definition fn_snake_case : native := fun args =>
  match args with [XString s] => mod_case_convert (view s) 0 | _ => mret num0 end.
Definition fn_kebab_case : native := fun args =>
  match args with [XString s] => mod_case_convert (view s) 1 | _ => mret num0 end.
Definition fn_camel_case : native := fun args =>
  match args with [XString s] => mod_case_convert (view s) 2 | _ => mret num0 end.
Definition fn_pascal_case : native := fun args =>
  match args with [XString s] => mod_case_convert (view s) 3 | _ => mret num0 end.
Definition fn_slugify : native := fun args =>
  match args with [XString s] => mod_case_convert (view s) 4 | _ => mret num0 end.

(** ** Bytes *)

(** [fn_constant_time_eq]: [unsigned int] differences, never cut short. *)
Definition difference (a b : bytes) (i : nat) : Z :=
  Z.lxor (byte (nth i a "000"%char)) (byte (nth i b "000"%char)).

Definition diff (a b : bytes) : Z :=
  foldl (fun d i => Z.lor d (difference a b i)) (wrapu 32 (Z.lxor (len a) (len b)))
    (seq 0 (Nat.max (length a) (length b))).

Definition fn_constant_time_eq : native := fun args =>
  match args with
  | [XString a; XString b] => mret (truth (diff (view a) (view b) =? 0))
  | _ => mret num0
  end.

Definition fn_byte_at : native := fun args =>
  match args with
  | [XString s; i] =>
      if mod_is_number i then
        index ← mod_number_to_index i;
        if len (view s) <=? index then mret minus_one
        else mret (count (byte (nth (Z.to_nat index) (view s) "000"%char)))
      else mret num0
  | _ => mret num0
  end.

Definition fn_bytes : native := fun args =>
  match args with
  | [XString s] =>
      buf ← optional attempt;
      if negb (match buf with Some _ => true | None => false end) && (0 <? len (view s)) then mret num0
      else
        _ ← (if 0 <? len (view s) then store_bytes (len (view s)) (len (view s)) else mret tt);
        mret (XBytes (Text (bytes_string (view s))))
  | _ => mret num0
  end.


(** The loop of [fn_from_bytes], left at an element that is not a byte; a NaN passes the
    tests, and its conversion is undefined. *)
Fixpoint bytes_of (l : list f64) : lib bytes :=
  match l with
  | [] => mret []
  | v :: l =>
      let iv := f64_floor v in
      if ((v <? 0.0) || (f64_of_Z 255 <? v) || (f64_lit 1 (-9) <? f64_fabs (v - iv)))%f64 then leave num0
      else match f64_trunc iv with
           | Some k => rest ← bytes_of l; mret (to_char k :: rest)
           | None => undefined
           end
  end.

(** The numbers of a list up to the first element that is none. *)
Fixpoint numbers (items : list xvalue) : list f64 * bool :=
  match items with
  | [] => ([], true)
  | v :: items =>
      if mod_is_number v then let (l, whole) := numbers items in (mod_number_value v :: l, whole)
      else ([], false)
  end.

Definition fn_from_bytes : native := fun args =>
  match args with
  | [XBytes b] => buffer (len (view b) + 1) (view b)
  | [XList false items] =>
      _ ← mem_alloc;
      let (l, whole) := numbers items in
      out ← bytes_of l;
      if whole then stored (Z.of_nat (length items) + 1) out else mret num0
  | [XVectorNull n] => _ ← mem_alloc; if n =? 0 then stored 1 [] else undefined
  | [XVector l] => _ ← mem_alloc; out ← bytes_of l; stored (Z.of_nat (length l) + 1) out
  | _ => mret num0
  end.

Section searches.
Context `{VStr, Slots}.

Definition spaces : bytes := lit " " ++ [tab; cr; lf].

Definition fn_trim : native := fun args =>
  match args with [XString s] => mret (str (vstr_trim (view s) spaces)) | _ => mret num0 end.
Definition fn_ltrim : native := fun args =>
  match args with [XString s] => mret (str (vstr_trim_left (view s) spaces)) | _ => mret num0 end.
Definition fn_rtrim : native := fun args =>
  match args with [XString s] => mret (str (vstr_trim_right (view s) spaces)) | _ => mret num0 end.

(** [mod_view_to_arena_cstr]: the set of characters ends at a NUL. *)
Definition mod_view_to_arena_cstr (s : text) : lib bytes :=
  _ ← mem_alloc;
  _ ← store_bytes (len (view s) + 1) (len (view s) + 1);
  mret (lit (cut_nul (text_bytes s))).

Definition fn_trim_chars : native := fun args =>
  match args with
  | [XString s; XString chars] =>
      chars ← mod_view_to_arena_cstr chars; mret (str (vstr_trim (view s) chars))
  | _ => mret num0
  end.
Definition fn_ltrim_chars : native := fun args =>
  match args with
  | [XString s; XString chars] =>
      chars ← mod_view_to_arena_cstr chars; mret (str (vstr_trim_left (view s) chars))
  | _ => mret num0
  end.
Definition fn_rtrim_chars : native := fun args =>
  match args with
  | [XString s; XString chars] =>
      chars ← mod_view_to_arena_cstr chars; mret (str (vstr_trim_right (view s) chars))
  | _ => mret num0
  end.

Definition fn_contains : native := fun args =>
  match args with
  | [XString s; XString t] => mret (truth (vstr_contains (view s) (view t)))
  | _ => mret num0
  end.
Definition fn_starts_with : native := fun args =>
  match args with
  | [XString s; XString t] => mret (truth (vstr_starts_with (view s) (view t)))
  | _ => mret num0
  end.
Definition fn_ends_with : native := fun args =>
  match args with
  | [XString s; XString t] => mret (truth (vstr_ends_with (view s) (view t)))
  | _ => mret num0
  end.

Definition position (base : Z) (pos : option nat) : xvalue :=
  match pos with Some i => count (base + Z.of_nat i) | None => minus_one end.

Definition fn_index_of : native := fun args =>
  match args with
  | [XString s; XString t] => mret (position 0 (vstr_find (view s) (view t)))
  | _ => mret num0
  end.
Definition fn_last_index_of : native := fun args =>
  match args with
  | [XString s; XString t] => mret (position 0 (vstr_rfind (view s) (view t)))
  | _ => mret minus_one
  end.

Definition find_from (s t : bytes) (start : Z) : xvalue :=
  if len s <? start then minus_one
  else position start (vstr_find (slice s start (len s - start)) t).

Definition fn_find : native := fun args =>
  match args with
  | [XString s; XString t] => mret (find_from (view s) (view t) 0)
  | [XString s; XString t; i] =>
      if mod_is_number i then start ← mod_number_to_index i; mret (find_from (view s) (view t) start)
      else mret minus_one
  | _ => mret minus_one
  end.

Definition rfind_to (s t : bytes) (to_ : Z) : xvalue :=
  let to_ := if len s <? to_ then len s else to_ in
  position 0 (vstr_rfind (slice s 0 to_) t).

Definition fn_rfind : native := fun args =>
  match args with
  | [XString s; XString t] => mret (rfind_to (view s) (view t) (len (view s)))
  | [XString s; XString t; i] =>
      if mod_is_number i then to_ ← mod_number_to_index i; mret (rfind_to (view s) (view t) to_)
      else mret minus_one
  | _ => mret minus_one
  end.

(** ** Slices and edits *)

(** The sign is that of the number, before the fraction is cut off. *)
Definition slice_index (s : bytes) (n : f64) : lib Z :=
  i ← to_signed n;
  let i := if (n <? 0.0)%f64 then len s + i else i in
  mret (if i <? 0 then 0 else if len s <? i then len s else i).

Definition slice_between (s : bytes) (a b : f64) : lib xvalue :=
  start ← slice_index s a;
  to_ ← slice_index s b;
  let to_ := if to_ <? start then start else to_ in
  mod_copy_string (slice s start (to_ - start)).

Definition fn_slice : native := fun args =>
  match args with
  | [XString s; a] =>
      if mod_is_number a then slice_between (view s) (mod_number_value a) (f64_of_Z (len (view s)))
      else mret num0
  | [XString s; a; b] =>
      if mod_is_number a && mod_is_number b then slice_between (view s) (mod_number_value a) (mod_number_value b)
      else mret num0
  | _ => mret num0
  end.

Definition fn_char_at : native := fun args =>
  match args with
  | [XString s; i] =>
      if mod_is_number i then
        index ← mod_number_to_index i;
        if len (view s) <=? index then mret (str []) else mod_copy_string (slice (view s) index 1)
      else mret num0
  | _ => mret num0
  end.

Definition fn_remove_prefix : native := fun args =>
  match args with
  | [XString s; XString p] =>
      if vstr_starts_with (view s) (view p)
      then mod_copy_string (slice (view s) (len (view p)) (len (view s) - len (view p)))
      else mod_copy_string (view s)
  | _ => mret num0
  end.

Definition fn_remove_suffix : native := fun args =>
  match args with
  | [XString s; XString p] =>
      if vstr_ends_with (view s) (view p)
      then mod_copy_string (slice (view s) 0 (len (view s) - len (view p)))
      else mod_copy_string (view s)
  | _ => mret num0
  end.

Definition surround (s prefix suffix : bytes) : lib xvalue :=
  buffer (len prefix + len s + len suffix + 1) (prefix ++ s ++ suffix).

Definition fn_surround : native := fun args =>
  match args with
  | [XString s; XString p] => surround (view s) (view p) (view p)
  | [XString s; XString p; XString q] => surround (view s) (view p) (view q)
  | _ => mret num0
  end.

Definition unwrap (s prefix suffix : bytes) : lib xvalue :=
  if (size_t (len prefix + len suffix) <=? len s) && vstr_starts_with s prefix && vstr_ends_with s suffix
  then mod_copy_string (slice s (len prefix) (len s - len prefix - len suffix))
  else mod_copy_string s.

Definition fn_unwrap : native := fun args =>
  match args with
  | [XString s; XString p] => unwrap (view s) (view p) (view p)
  | [XString s; XString p; XString q] => unwrap (view s) (view p) (view q)
  | _ => mret num0
  end.

Definition fn_replace_range : native := fun args =>
  match args with
  | [XString t; i; n; XString r] =>
      if mod_is_number i && mod_is_number n then
        let s := view t in
        start ← mod_normalize_byte_index s i;
        count ← mod_number_to_index n;
        let count := if len s - start <? count then len s - start else count in
        buffer (size_t (len s - count + len (view r)) + 1)
          (slice s 0 start ++ view r ++ slice s (start + count) (len s - start - count))
      else mret num0
  | _ => mret num0
  end.

Definition fn_insert : native := fun args =>
  match args with
  | [XString s; i; XString r] => if mod_is_number i then fn_replace_range [XString s; i; num0; XString r] else mret num0
  | _ => mret num0
  end.

Definition fn_delete_range : native := fun args =>
  match args with
  | [XString s; i; n] =>
      if mod_is_number i && mod_is_number n then fn_replace_range [XString s; i; n; str []] else mret num0
  | _ => mret num0
  end.

Definition fn_left : native := fun args =>
  match args with
  | [XString s; n] =>
      if mod_is_number n then
        count ← mod_number_to_index n;
        mod_copy_string (slice (view s) 0 (mod_string_byte_offset (view s) count))
      else mret num0
  | _ => mret num0
  end.

Definition fn_right : native := fun args =>
  match args with
  | [XString s; n] =>
      if mod_is_number n then
        count ← mod_number_to_index n;
        let units := mod_string_unit_count (view s) in
        let start_units := if units <=? count then 0 else units - count in
        let start := mod_string_byte_offset (view s) start_units in
        mod_copy_string (slice (view s) start (len (view s) - start))
      else mret num0
  | _ => mret num0
  end.

Definition fn_drop : native := fun args =>
  match args with
  | [XString s; n] =>
      if mod_is_number n then
        count ← mod_number_to_index n;
        let start := mod_string_byte_offset (view s) count in
        mod_copy_string (slice (view s) start (len (view s) - start))
      else mret num0
  | _ => mret num0
  end.

Definition truncate_to (s suffix : bytes) (max_units : Z) : lib xvalue :=
  let current := mod_string_unit_count s in
  if current <=? max_units then mod_copy_string s
  else
    let suffix_units := mod_string_unit_count suffix in
    let suffix_units := if max_units <? suffix_units then max_units else suffix_units in
    let keep_bytes := mod_string_byte_offset s (max_units - suffix_units) in
    let suffix_bytes := mod_string_byte_offset suffix suffix_units in
    buffer (keep_bytes + suffix_bytes + 1) (slice s 0 keep_bytes ++ slice suffix 0 suffix_bytes).

Definition fn_truncate : native := fun args =>
  match args with
  | [XString s; n] =>
      if mod_is_number n then max_units ← mod_number_to_index n; truncate_to (view s) (lit "...") max_units
      else mret num0
  | [XString s; n; XString suffix] =>
      if mod_is_number n then max_units ← mod_number_to_index n; truncate_to (view s) (view suffix) max_units
      else mret num0
  | _ => mret num0
  end.

(** ** Padding *)

(** The first character of the filling, a space for none. *)
Definition filling (fill : bytes) : bytes :=
  let fill_len := mod_first_utf8_char_len fill in
  if fill_len =? 0 then lit " " else slice fill 0 fill_len.

Definition fill_of (rest : list xvalue) : bytes :=
  filling (match rest with [XString f] => view f | _ => lit " " end).

Definition pad (place : bytes -> bytes -> Z -> lib xvalue) : native := fun args =>
  match args with
  | XString s :: n :: rest =>
      if (length rest <=? 1)%nat && mod_is_number n then
        width ← mod_number_to_index n;
        let current := mod_string_unit_count (view s) in
        if width <=? current then mod_copy_string (view s)
        else place (view s) (fill_of rest) (width - current)
      else mret num0
  | _ => mret num0
  end.

Definition pad_size (s fill : bytes) (n : Z) : Z := size_t (len s + n * len fill) + 1.

Definition fn_pad_left : native := pad (fun s fill n => filled (pad_size s fill n) [] n fill s).
Definition fn_pad_right : native := pad (fun s fill n => filled (pad_size s fill n) s n fill []).

Definition fn_center : native := pad (fun s fill n =>
  _ ← mem_alloc;
  if n * len fill + len s + 1 <=? size_t (pad_size s fill n)
  then mret (str (copies (n / 2) fill ++ s ++ copies (n - n / 2) fill)) else undefined).

Definition fn_zfill : native := fun args =>
  match args with
  | [XString t; n] =>
      if mod_is_number n then
        let s := view t in
        width ← mod_number_to_index n;
        let current := mod_string_unit_count s in
        if width <=? current then mod_copy_string s
        else
          let sign := match s with c :: _ => is_byte "+" c || is_byte "-" c | [] => false end in
          filled (len s + (width - current) + 1) (if sign then take 1 s else []) (width - current) (lit "0")
            (if sign then drop 1 s else s)
      else mret num0
  | _ => mret num0
  end.

Definition fn_str_repeat : native := fun args =>
  match args with
  | [XString s; n] =>
      if mod_is_number n then
        count ← mod_number_to_index n;
        filled (size_t (len (view s) * count) + 1) [] count (view s) []
      else mret num0
  | _ => mret num0
  end.

(** The leading spaces dropped. *)
Fixpoint skip_space (s : bytes) : bytes :=
  match s with c :: rest => if isspace c then skip_space rest else s | [] => [] end.

Definition shorten (s suffix : bytes) (width : Z) : lib xvalue :=
  if len s <=? width then mod_copy_string s
  else if width =? 0 then mod_copy_string []
  else if width <=? len suffix then mod_copy_string (slice suffix 0 width)
  else
    let limit := width - len suffix in
    let last_space := last (filter (fun i => isspace (nth i s "000"%char) = true) (seq 0 (Z.to_nat (Z.min limit (len s))))) in
    let cut := match last_space with
               | Some i => if (0 <? i)%nat then Z.of_nat i else limit
               | None => limit
               end in
    let kept := skip_space (rev (slice s 0 cut)) in
    buffer (len kept + len suffix + 1) (rev kept ++ suffix).

Definition fn_shorten : native := fun args =>
  match args with
  | [XString s; n] =>
      if mod_is_number n then width ← mod_number_to_index n; shorten (view s) (lit "...") width else mret num0
  | [XString s; n; XString suffix] =>
      if mod_is_number n then width ← mod_number_to_index n; shorten (view s) (view suffix) width else mret num0
  | _ => mret num0
  end.
End searches.
