(* ===== verification/StringText.v ===== *)
(** The string module: lines, words, tokens and layout ([exprtk/src/mod_string.c]). *)

From Stdlib Require Import Ascii.
From S2P Require Import Prelude Float64 HostStatus RtValue StringLib StringBasic.
Open Scope Z_scope.

(** ** Lines *)

Definition is_eol (c : ascii) : bool := is_byte lf c || is_byte cr c.

(** What is before the first end of line, and what is after it; a carriage return and the
    line feed after it end one line. *)
Fixpoint next_line (s : bytes) : bytes * option bytes :=
  match s with
  | [] => ([], None)
  | c :: s =>
      if is_eol c then
        ([], Some (if is_byte cr c then match s with d :: rest => if is_byte lf d then rest else s | [] => s end else s))
      else let (l, rest) := next_line s in (c :: l, rest)
  end.

(** The loop of [fn_str_lines] from the start of a line: a last line is one only when it has
    a byte. *)
Fixpoint lines (fuel : nat) (s : bytes) : list bytes :=
  match fuel with
  | O => []
  | Datatypes.S fuel =>
      match next_line s with
      | (l, Some rest) => l :: lines fuel rest
      | (l, None) => if 0 <? len l then [l] else []
      end
  end.

Definition str_lines (s : bytes) : list bytes := lines (length s + 1) s.

Section lists.
Context `{Slots}.

Definition fn_str_lines : native := fun args =>
  match args with [XString s] => string_list (str_lines (view s)) | _ => mret num0 end.

(** [fn_line_count]: the same loop over the bytes, with a count and the start of the line. *)
Fixpoint line_count (skip : bool) (started : bool) (n : Z) (s : bytes) : Z :=
  match s with
  | [] => if started then n + 1 else n
  | c :: s =>
      if skip then line_count false false n s
      else if is_eol c then
        line_count (is_byte cr c && match s with d :: _ => is_byte lf d | [] => false end) false (n + 1) s
      else line_count false true n s
  end.

Definition fn_line_count : native := fun args =>
  match args with
  | [XString s] => if len (view s) =? 0 then mret num0 else mret (count (line_count false false 0 (view s)))
  | _ => mret num0
  end.

(** ** Words *)

Fixpoint span_word (s : bytes) : bytes * bytes :=
  match s with
  | [] => ([], [])
  | c :: rest => if isspace c then ([], s) else let (w, r) := span_word rest in (c :: w, r)
  end.

Fixpoint words_loop (fuel : nat) (s : bytes) : list bytes :=
  match fuel with
  | O => []
  | Datatypes.S fuel =>
      match s with
      | [] => []
      | _ => let (w, rest) := span_word (skip_space s) in
             if 0 <? len w then w :: words_loop fuel rest else words_loop fuel rest
      end
  end.

Definition str_words (s : bytes) : list bytes := words_loop (length s) s.

Definition fn_str_words : native := fun args =>
  match args with [XString s] => string_list (str_words (view s)) | _ => mret num0 end.

(** ** Tokens *)

(** [mod_next_token]: the token and what is left, none after the last.  The rest of the
    input is [None] when the cursor is beyond its end. *)
Fixpoint mod_next_token (delimiters : bytes) (ignore_empty : bool) (token rest : bytes)
    : option (bytes * option bytes) :=
  match rest with
  | [] => if (0 <? len token) || negb ignore_empty then Some (token, None) else None
  | c :: rest =>
      if mod_view_contains_char delimiters c then
        if (0 <? len token) || negb ignore_empty then Some (token, Some rest)
        else mod_next_token delimiters ignore_empty [] rest
      else mod_next_token delimiters ignore_empty (token ++ [c]) rest
  end.

Fixpoint tokens_loop (fuel : nat) (delimiters : bytes) (ignore_empty : bool) (input : option bytes) : list bytes :=
  match fuel, input with
  | Datatypes.S fuel, Some s =>
      match mod_next_token delimiters ignore_empty [] s with
      | Some (token, rest) => token :: tokens_loop fuel delimiters ignore_empty rest
      | None => []
      end
  | _, _ => []
  end.

Definition tokens (input delimiters : bytes) : list bytes :=
  tokens_loop (length input + 1) delimiters true (Some input).

Definition mod_count_tokens (input delimiters : bytes) : Z := Z.of_nat (length (tokens input delimiters)).

Definition fn_token_count : native := fun args =>
  match args with
  | [XString s; XString d] => mret (count (mod_count_tokens (view s) (view d)))
  | _ => mret num0
  end.

Definition fn_tokenize : native := fun args =>
  match args with
  | [XString s; XString d; XNumber n] =>
      index ← to_size n;
      if index <? mod_count_tokens (view s) (view d)
      then match tokens (view s) (view d) !! Z.to_nat index with
           | Some token => buffer (len token + 1) token
           | None => mret num0
           end
      else mret num0
  | _ => mret num0
  end.
End lists.

(** ** Layout *)

Definition chomp (s : bytes) : bytes :=
  match rev s with
  | c :: rest =>
      if is_byte lf c then
        match rest with
        | d :: rest' => if is_byte cr d then rev rest' else rev rest
        | [] => []
        end
      else if is_byte cr c then rev rest else s
  | [] => s
  end.

Definition fn_chomp : native := fun args =>
  match args with [XString s] => mod_copy_string (chomp (view s)) | _ => mret num0 end.

(** [fn_normalize_space], after the leading spaces: [started] is [pos > 0]. *)
Fixpoint squeeze (pending started : bool) (s : bytes) : bytes :=
  match s with
  | [] => []
  | c :: s =>
      if isspace c then squeeze started started s
      else (if pending then lit " " else []) ++ c :: squeeze false true s
  end.

Definition fn_normalize_space : native := fun args =>
  match args with
  | [XString s] => buffer (len (view s) + 1) (squeeze false false (skip_space (view s)))
  | _ => mret num0
  end.

(** [fn_indent]: the lines it counts, and what it writes. *)
Fixpoint indent_count (skip : bool) (lines : Z) (s : bytes) : Z :=
  match s with
  | [] => lines
  | c :: s =>
      if skip then indent_count false lines s
      else match s with
           | d :: _ => if is_eol c then indent_count (is_byte cr c && is_byte lf d) (lines + 1) s
                       else indent_count false lines s
           | [] => lines
           end
  end.

(** [skip]: the byte is the line feed written with the carriage return before it. *)
Fixpoint indent_loop (prefix : bytes) (include_first skip at_line_start : bool) (line_index : Z) (s : bytes) : bytes :=
  match s with
  | [] => []
  | c :: s =>
      let more := match s with [] => false | _ => true end in
      if skip then
        c :: indent_loop prefix include_first false more (if more then line_index + 1 else line_index) s
      else
        (if at_line_start && (include_first || (0 <? line_index)) then prefix else []) ++ c ::
        (if is_byte cr c then
           match s with
           | d :: _ =>
               if is_byte lf d then indent_loop prefix include_first true false line_index s
               else indent_loop prefix include_first false true (line_index + 1) s
           | [] => []
           end
         else if is_byte lf c && more then indent_loop prefix include_first false true (line_index + 1) s
         else indent_loop prefix include_first false false line_index s)
  end.

Definition indent (s prefix : bytes) (include_first : bool) : lib xvalue :=
  let lines := indent_count false (if 0 <? len s then 1 else 0) s in
  let prefixes := if negb include_first && (0 <? lines) then lines - 1 else lines in
  buffer (len s + prefixes * len prefix + 1) (indent_loop prefix include_first false true 0 s).

Definition fn_indent : native := fun args =>
  match args with
  | [XString s; XString p] => indent (view s) (view p) true
  | [XString s; XString p; n] =>
      if mod_is_number n then
        indent (view s) (view p) (f64_lit 1 (-9) <? f64_fabs (mod_number_value n))%f64
      else mret num0
  | _ => mret num0
  end.

(** [fn_dedent]: the lines with their ends. *)
Fixpoint line_and_end (s : bytes) : bytes * bytes * bytes :=
  match s with
  | [] => ([], [], [])
  | c :: s =>
      if is_eol c then
        match s with
        | d :: rest => if is_byte cr c && is_byte lf d then ([], [c; d], rest) else ([], [c], s)
        | [] => ([], [c], [])
        end
      else let '(l, e, rest) := line_and_end s in (c :: l, e, rest)
  end.

Fixpoint lines_and_ends (fuel : nat) (s : bytes) : list (bytes * bytes) :=
  match fuel, s with
  | Datatypes.S fuel, _ :: _ => let '(l, e, rest) := line_and_end s in (l, e) :: lines_and_ends fuel rest
  | _, _ => []
  end.

Definition is_blank_char (c : ascii) : bool := is_byte " " c || is_byte tab c.

Fixpoint indent_of (l : bytes) : nat :=
  match l with c :: l => if is_blank_char c then Datatypes.S (indent_of l) else O | [] => O end.

(** The least indent of a line that has more than its indent; none without such a line. *)
Fixpoint min_indent (m : option nat) (ls : list (bytes * bytes)) : option nat :=
  match ls with
  | [] => m
  | (l, _) :: ls =>
      let i := indent_of l in
      let below := match m with Some k => (i <? k)%nat | None => true end in
      min_indent (if (i <? length l)%nat && below then Some i else m) ls
  end.

Definition dedent_line (n : nat) (l : bytes * bytes) : bytes := drop (Nat.min n (indent_of l.1)) l.1 ++ l.2.

Definition fn_dedent : native := fun args =>
  match args with
  | [XString t] =>
      let s := view t in
      let ls := lines_and_ends (length s) s in
      match min_indent None ls with
      | Some (Datatypes.S _ as n) => buffer (len s + 1) (concat (map (dedent_line n) ls))
      | _ => mod_copy_string s
      end
  | _ => mret num0
  end.

(** ** Characters *)

Section characters.
Context `{VStr}.

(** The pieces the loops over a text take: characters, or bytes in a text that is not valid
    UTF-8. *)
Definition chunk_width (valid : bool) (s : bytes) : Z :=
  let n := if valid then mod_utf8_next_width s 0 else 1 in
  if (n =? 0) || (len s <? n) then 1 else n.

Fixpoint chunks (fuel : nat) (valid : bool) (s : bytes) : list bytes :=
  match fuel with
  | O => []
  | Datatypes.S fuel =>
      match s with
      | [] => []
      | _ => let n := Z.to_nat (chunk_width valid s) in take n s :: chunks fuel valid (drop n s)
      end
  end.

(** [mod_view_contains_span] *)
Definition mod_view_contains_span (haystack data : bytes) : bool :=
  if (len data =? 0) || (len haystack <? len data) then false
  else existsb (fun c => bool_decide (c = data)) (chunks (length haystack) true haystack).

Definition select_chars (keep : bool) (s chars : bytes) : lib xvalue :=
  let valid := vstr_utf8_valid s && vstr_utf8_valid chars in
  buffer (len s + 1)
    (concat (List.filter (fun c => Bool.eqb keep (mod_view_contains_span chars c)) (chunks (length s) valid s))).

Definition fn_remove_chars : native := fun args =>
  match args with [XString s; XString c] => select_chars false (view s) (view c) | _ => mret num0 end.

Definition fn_keep_chars : native := fun args =>
  match args with [XString s; XString c] => select_chars true (view s) (view c) | _ => mret num0 end.

(** [fn_translate]: a byte of [from] becomes the byte of [to_] at its place, and is dropped
    when there is none. *)
Definition translate_char (from to_ : bytes) (c : ascii) : bytes :=
  match find_index (is_byte c) from with
  | None => [c]
  | Some i => match to_ !! i with Some d => [d] | None => [] end
  end.

Definition fn_translate : native := fun args =>
  match args with
  | [XString s; XString from; XString to_] =>
      buffer (len (view s) * (if len (view to_) =? 0 then 1 else len (view to_)) + 1)
        (concat (map (translate_char (view from) (view to_)) (view s)))
  | _ => mret num0
  end.

(** [fn_expand_tabs]: the spaces for a tab, and the column after a piece. *)
Definition tab_spaces (tabsize col : Z) : Z := if tabsize =? 0 then 0 else tabsize - col mod tabsize.

(** What each piece becomes: spaces, or itself. *)
Fixpoint expand_pieces (fuel : nat) (valid : bool) (tabsize col : Z) (s : bytes) : list (Z + bytes) :=
  match fuel with
  | O => []
  | Datatypes.S fuel =>
      match s with
      | [] => []
      | c :: rest =>
          if is_byte tab c then
            let spaces := tab_spaces tabsize col in
            inl spaces :: expand_pieces fuel valid tabsize (size_t (col + spaces)) rest
          else
            let n := Z.to_nat (chunk_width valid s) in
            inr (take n s) :: expand_pieces fuel valid tabsize (if is_eol c then 0 else col + 1) (drop n s)
      end
  end.

Definition piece_len (p : Z + bytes) : Z := match p with inl n => n | inr s => len s end.
Definition piece_bytes (p : Z + bytes) : bytes := match p with inl n => copies n (lit " ") | inr s => s end.

Definition expand_tabs (s : bytes) (tabsize : Z) : lib xvalue :=
  let pieces := expand_pieces (length s) (vstr_utf8_valid s) tabsize 0 s in
  let stores := foldr (fun p n => piece_len p + n) 0 pieces in
  _ ← mem_alloc;
  if stores + 1 <=? size_t (size_t stores + 1) then mret (str (concat (map piece_bytes pieces))) else undefined.

Definition fn_expand_tabs : native := fun args =>
  match args with
  | [XString s] => expand_tabs (view s) 8
  | [XString s; n] =>
      if mod_is_number n then tabsize ← mod_number_to_index n; expand_tabs (view s) tabsize else mret num0
  | _ => mret num0
  end.
End characters.

(** ** Wrapping *)

(** The spaces skipped before a word, and whether one of them ends a line. *)
Fixpoint skip_to_word (saw_newline : bool) (s : bytes) : bool * bytes :=
  match s with
  | c :: rest => if isspace c then skip_to_word (saw_newline || is_eol c) rest else (saw_newline, s)
  | [] => (saw_newline, [])
  end.

(** A word wider than a line, broken: what is written and the length of the last line. *)
Fixpoint break_word (fuel : nat) (width line_len : Z) (word : bytes) : bytes * Z :=
  match fuel with
  | O => ([], line_len)
  | Datatypes.S fuel =>
      match word with
      | [] => ([], line_len)
      | _ =>
          let room := width - line_len in
          let n := Z.min (len word) room in
          let rest := drop (Z.to_nat n) word in
          match rest with
          | [] => (slice word 0 n, line_len + n)
          | _ => let (out, l) := break_word fuel width 0 rest in (slice word 0 n ++ lf :: out, l)
          end
      end
  end.

Fixpoint wrap_loop (fuel : nat) (width : Z) (break_long : bool) (line_len : Z) (s : bytes) : bytes :=
  match fuel with
  | O => []
  | Datatypes.S fuel =>
      match s with
      | [] => []
      | _ =>
          let (saw_newline, s) := skip_to_word false s in
          let fresh := saw_newline && (0 <? line_len) in
          let line_len := if fresh then 0 else line_len in
          (if fresh then [lf] else []) ++
          match s with
          | [] => []
          | _ =>
              let (word, rest) := span_word s in
              let joined := line_len + 1 + len word <=? width in
              let sep := if 0 <? line_len then (if joined then lit " " else [lf]) else [] in
              let line_len := if 0 <? line_len then (if joined then line_len + 1 else 0) else line_len in
              let (out, line_len) :=
                if (len word <=? width) || negb break_long then (word, line_len + len word)
                else break_word (length word) width line_len word in
              sep ++ out ++ wrap_loop fuel width break_long line_len rest
          end
      end
  end.

Definition word_wrap (s : bytes) (width : Z) (break_long : bool) : lib xvalue :=
  if (width =? 0) || (len s =? 0) then mod_copy_string s
  else buffer (len s * 2 + 1) (wrap_loop (length s) width break_long 0 s).

Definition fn_word_wrap : native := fun args =>
  match args with
  | [XString s; n] =>
      if mod_is_number n then width ← mod_number_to_index n; word_wrap (view s) width true else mret num0
  | [XString s; n; b] =>
      if mod_is_number n && mod_is_number b then
        width ← mod_number_to_index n;
        word_wrap (view s) width (f64_lit 1 (-9) <? f64_fabs (mod_number_value b))%f64
      else mret num0
  | _ => mret num0
  end.
