(* ===== verification/StringEscape.v ===== *)
(** The string module: escapes, encodings and CSV ([exprtk/src/mod_string.c]).

    The Base64 routines and the encoder of a code point come from libraries outside the
    repository. *)

From Stdlib Require Import Ascii.
From S2P Require Import Prelude Float64 HostStatus RtValue StringLib StringBasic.
Open Scope Z_scope.

Definition upper_hex (n : Z) : ascii := nth (Z.to_nat n) (lit "0123456789ABCDEF") "000"%char.
Definition lower_hex (n : Z) : ascii := nth (Z.to_nat n) (lit "0123456789abcdef") "000"%char.
Definition high (c : ascii) : Z := Z.shiftr (byte c) 4.
Definition low (c : ascii) : Z := Z.land (byte c) 15.

Definition hex_pair (hex : Z -> ascii) (c : ascii) : bytes := [hex (high c); hex (low c)].

(** [memcmp(s.data + i, p, n) == 0] with [rem >= n]. *)
Definition at_prefix (p : string) (s : bytes) : bool := bool_decide (take (String.length p) s = lit p).

(** A byte at a time, each becoming some bytes. *)
Definition expand (f : ascii -> bytes) (s : bytes) : bytes := concat (map f s).

(** A string expanded into a buffer of the size counted before. *)
Definition expanded (size : ascii -> Z) (f : ascii -> bytes) : native := fun args =>
  match args with
  | [XString s] => buffer (foldr (fun c n => size c + n) 0 (view s) + 1) (expand f (view s))
  | _ => mret num0
  end.

(** ** HTML *)

Definition html_size (c : ascii) : Z :=
  if is_byte "&" c then 5 else if is_byte "<" c || is_byte ">" c then 4
  else if is_byte quote c then 6 else if is_byte "'" c then 5 else 1.

Definition html_char (c : ascii) : bytes :=
  if is_byte "&" c then lit "&amp;" else if is_byte "<" c then lit "&lt;"
  else if is_byte ">" c then lit "&gt;" else if is_byte quote c then lit "&quot;"
  else if is_byte "'" c then lit "&#39;" else [c].

Definition fn_html_escape : native := expanded html_size html_char.

(** The entity at the head of the input: its character and how many bytes more it has. *)
Definition entity (s : bytes) : option (ascii * nat) :=
  if at_prefix "&amp;" s then Some ("&"%char, 4%nat)
  else if at_prefix "&lt;" s then Some ("<"%char, 3%nat)
  else if at_prefix "&gt;" s then Some (">"%char, 3%nat)
  else if at_prefix "&quot;" s then Some (quote, 5%nat)
  else if at_prefix "&apos;" s then Some ("'"%char, 5%nat)
  else if at_prefix "&#39;" s then Some ("'"%char, 4%nat)
  else None.

Fixpoint html_unescape (skip : nat) (s : bytes) : bytes :=
  match s with
  | [] => []
  | c :: rest =>
      match skip with
      | Datatypes.S skip => html_unescape skip rest
      | O => match entity s with
             | Some (d, n) => d :: html_unescape n rest
             | None => c :: html_unescape 0 rest
             end
      end
  end.

Definition fn_html_unescape : native := fun args =>
  match args with
  | [XString s] => buffer (len (view s) + 1) (html_unescape 0 (view s))
  | _ => mret num0
  end.

(** ** JSON *)

Definition short_escape (c : ascii) : option ascii :=
  if is_byte quote c then Some quote else if is_byte "\" c then Some "\"%char
  else if is_byte "008" c then Some "b"%char else if is_byte "012" c then Some "f"%char
  else if is_byte lf c then Some "n"%char else if is_byte cr c then Some "r"%char
  else if is_byte tab c then Some "t"%char else None.

Definition json_size (c : ascii) : Z :=
  match short_escape c with Some _ => 2 | None => if byte c <? 32 then 6 else 1 end.

Definition json_char (c : ascii) : bytes :=
  match short_escape c with
  | Some e => ["\"%char; e]
  | None => if byte c <? 32 then lit "\u00" ++ hex_pair upper_hex c else [c]
  end.

Definition fn_json_escape : native := expanded json_size json_char.

Definition unescape_of (e : ascii) : option ascii :=
  if is_byte quote e then Some quote else if is_byte "\" e then Some "\"%char
  else if is_byte "/" e then Some "/"%char else if is_byte "b" e then Some "008"%char
  else if is_byte "f" e then Some "012"%char else if is_byte "n" e then Some lf
  else if is_byte "r" e then Some cr else if is_byte "t" e then Some tab else None.

(** [mod_hex4_value]: [None] is -1. *)
Definition mod_hex4_value (a b c d : ascii) : option Z :=
  match mod_hex_value a, mod_hex_value b, mod_hex_value c, mod_hex_value d with
  | Some a, Some b, Some c, Some d =>
      Some (Z.lor (Z.lor (Z.lor (Z.shiftl a 12) (Z.shiftl b 8)) (Z.shiftl c 4)) d)
  | _, _, _, _ => None
  end.

(** A low surrogate that follows a high one. *)
Definition surrogate (cp : Z) (s : bytes) : option Z :=
  match s with
  | b :: u :: x :: y :: z :: w :: _ =>
      if between 55296 56319 cp && is_byte "\" b && is_byte "u" u then
        match mod_hex4_value x y z w with
        | Some low =>
            if between 56320 57343 low
            then Some (65536 + Z.shiftl (cp - 55296) 10 + (low - 56320)) else None
        | None => None
        end
      else None
  | _ => None
  end.

Section json.
Context `{VStr}.

(** [mod_utf8_write_codepoint]: nothing is written when the encoding does not fit. *)
Definition mod_utf8_write_codepoint (cap : Z) (cp : Z) : bytes :=
  match tstr_utf8_from_cp cp with
  | Some e => if cap <? len e then [] else e
  | None => []
  end.

(** The loop; [skip] bytes of an escape are behind already, [cap] is the room left in the
    buffer with the terminator.  [None] is the early return. *)
Fixpoint json_unescape (cap : Z) (skip : nat) (s : bytes) : option bytes :=
  match s with
  | [] => Some []
  | c :: rest =>
      match skip with
      | Datatypes.S skip => json_unescape cap skip rest
      | O =>
          let emit out n := app out <$> json_unescape (cap - len out) n rest in
          match rest with
          | [] => emit [c] O
          | e :: more =>
              if negb (is_byte "\" c) then emit [c] O
              else if is_byte "u" e then
                match more with
                | x :: y :: z :: w :: after =>
                    match mod_hex4_value x y z w with
                    | None => emit (lit "\u") 1%nat
                    | Some cp =>
                        let '(cp, n) := match surrogate cp after with
                                        | Some joined => (joined, 11%nat)
                                        | None => (cp, 5%nat)
                                        end in
                        match mod_utf8_write_codepoint cap cp with
                        | [] => None
                        | out => emit out n
                        end
                    end
                | _ => emit (lit "\u") 1%nat
                end
              else match unescape_of e with
                   | Some d => emit [d] 1%nat
                   | None => emit [e] 1%nat
                   end
          end
      end
  end.

Definition fn_json_unescape : native := fun args =>
  match args with
  | [XString s] =>
      _ ← mem_alloc;
      match json_unescape (len (view s) + 1) 0 (view s) with
      | Some out => stored (len (view s) + 1) out
      | None => mret num0
      end
  | _ => mret num0
  end.
End json.

(** ** URLs *)

Definition url_size (c : ascii) : Z := if mod_is_unreserved_url_char c then 1 else 3.

Definition url_char (c : ascii) : bytes :=
  if mod_is_unreserved_url_char c then [c] else "%"%char :: hex_pair upper_hex c.

Definition fn_url_encode : native := expanded url_size url_char.

Definition hex_byte (a b : ascii) : option ascii :=
  match mod_hex_value a, mod_hex_value b with
  | Some hi, Some lo => Some (to_char (Z.lor (Z.shiftl hi 4) lo))
  | _, _ => None
  end.

Fixpoint url_decode (skip : nat) (s : bytes) : bytes :=
  match s with
  | [] => []
  | c :: rest =>
      match skip with
      | Datatypes.S skip => url_decode skip rest
      | O =>
          let plain := (if is_byte "+" c then " "%char else c) :: url_decode 0 rest in
          match rest with
          | a :: b :: _ =>
              if is_byte "%" c then match hex_byte a b with Some d => d :: url_decode 2 rest | None => plain end
              else plain
          | _ => plain
          end
      end
  end.

Definition fn_url_decode : native := fun args =>
  match args with
  | [XString s] => buffer (len (view s) + 1) (url_decode 0 (view s))
  | _ => mret num0
  end.

(** ** Hexadecimal *)

Definition fn_hex_encode : native := fun args =>
  match args with
  | [XString s] => buffer (len (view s) * 2 + 1) (expand (hex_pair lower_hex) (view s))
  | _ => mret num0
  end.

Fixpoint hex_decode (s : bytes) : option bytes :=
  match s with
  | a :: b :: rest => d ← hex_byte a b; cons d <$> hex_decode rest
  | _ => Some []
  end.

Definition fn_hex_decode : native := fun args =>
  match args with
  | [XString s] =>
      if negb (len (view s) mod 2 =? 0) then mret num0
      else
        _ ← mem_alloc;
        match hex_decode (view s) with
        | Some out => stored (len (view s) / 2 + 1) out
        | None => mret num0
        end
  | _ => mret num0
  end.

(** ** Base64 *)

(** [tn_base64_encode] and [tn_base64_decode]; [None] for a return other than 0. *)
Class Base64 := {
  tn_base64_encode : bytes -> option bytes;
  tn_base64_decode : bytes -> option bytes
}.

Section base64.
Context `{Base64}.

(** What a C string function sees. *)
Definition c_string (s : bytes) : bytes := lit (cut_nul (bytes_string s)).

Definition fn_base64_encode : native := fun args =>
  match args with
  | [XString s] =>
      if len (view s) =? 0 then mret (str [])
      else match tn_base64_encode (view s) with
           | Some e => mod_copy_string (c_string e)
           | None => mret num0
           end
  | _ => mret num0
  end.

Definition fn_base64_decode : native := fun args =>
  match args with
  | [XString s] =>
      if len (view s) =? 0 then mret (str [])
      else
        input ← mod_view_to_arena_cstr s;
        match tn_base64_decode input with
        | Some d => mod_copy_string d
        | None => mret num0
        end
  | _ => mret num0
  end.

Fixpoint strip_padding (rev_s : bytes) : bytes :=
  match rev_s with c :: rest => if is_byte "=" c then strip_padding rest else rev_s | [] => [] end.

Definition to_url_char (c : ascii) : ascii :=
  if is_byte "+" c then "-"%char else if is_byte "/" c then "_"%char else c.
Definition from_url_char (c : ascii) : ascii :=
  if is_byte "-" c then "+"%char else if is_byte "_" c then "/"%char else c.

Definition fn_base64url_encode : native := fun args =>
  match args with
  | [XString s] =>
      if len (view s) =? 0 then mret (str [])
      else match tn_base64_encode (view s) with
           | Some e => let kept := rev (strip_padding (rev (c_string e))) in
                       buffer (len kept + 1) (map to_url_char kept)
           | None => mret num0
           end
  | _ => mret num0
  end.

Definition fn_base64url_decode : native := fun args =>
  match args with
  | [XString t] =>
      let s := view t in
      if len s =? 0 then mret (str [])
      else if len s mod 4 =? 1 then mret num0
      else
        let pad := (4 - len s mod 4) mod 4 in
        let input := map from_url_char s ++ copies pad (lit "=") in
        _ ← mem_alloc;
        if size_t (len s + pad + 1) <? len input + 1 then undefined
        else match tn_base64_decode (c_string input) with
             | Some d => mod_copy_string d
             | None => mret num0
             end
  | _ => mret num0
  end.
End base64.

(** ** CSV *)

Definition needs_quote (c : ascii) : bool :=
  is_byte quote c || is_byte "," c || is_byte lf c || is_byte cr c.

Definition quote_count (s : bytes) : Z := foldr (fun c n => if is_byte quote c then n + 1 else n) 0 s.

Definition doubled (c : ascii) : bytes := if is_byte quote c then [quote; c] else [c].

(** [mod_csv_write_cell] and the buffer of [fn_csv_escape]. *)
Definition mod_csv_write_cell (s : bytes) : bytes :=
  if existsb needs_quote s then [quote] ++ expand doubled s ++ [quote] else s.

Definition mod_csv_cell_encoded_len (s : bytes) : Z :=
  if existsb needs_quote s then len s + quote_count s + 2 else len s.

Definition fn_csv_escape : native := fun args =>
  match args with
  | [XString s] =>
      if existsb needs_quote (view s)
      then buffer (len (view s) + quote_count (view s) + 3) (mod_csv_write_cell (view s))
      else mod_copy_string (view s)
  | _ => mret num0
  end.

(** The bytes between the quotes; a quote before another one that is also between them is
    dropped. *)
Fixpoint undouble (s : bytes) : bytes :=
  match s with
  | c :: (d :: rest) as tail =>
      if is_byte quote c && is_byte quote d then d :: undouble rest else c :: undouble tail
  | _ => s
  end.

Definition csv_unescape (s : bytes) : option bytes :=
  match s, last s with
  | c :: rest, Some d =>
      if (len s <? 2) || negb (is_byte quote c) || negb (is_byte quote d) then None
      else Some (undouble (take (length rest - 1) rest))
  | _, _ => None
  end.

Definition fn_csv_unescape : native := fun args =>
  match args with
  | [XString s] =>
      match csv_unescape (view s) with
      | Some out => buffer (len (view s) - 1) out
      | None => mod_copy_string (view s)
      end
  | _ => mret num0
  end.

(** [cell[cell_len++] = c] in a buffer of [cap] bytes; [None] beyond its end. *)
Definition put_cell (cap : Z) (c : ascii) (cell : bytes) : option bytes :=
  if len cell <? cap then Some (cell ++ [c]) else None.

(** [fn_csv_split_line]: the cells; [skip] says that the byte was read with the one before.
    After the end of the input the loop reads one more comma, which ends the last cell, or
    goes into it when its quotes are still open; that cell is never appended.  [None] is a store
    beyond the buffer. *)
Fixpoint csv_cells (cap : Z) (quoted skip : bool) (cell : bytes) (s : bytes) : option (list bytes) :=
  match s with
  | [] =>
      if quoted then _ ← put_cell cap "," cell; Some [] else Some [cell]
  | c :: rest =>
      if skip then csv_cells cap quoted false cell rest
      else if quoted then
        if is_byte quote c && match rest with d :: _ => is_byte quote d | [] => false end
        then cell ← put_cell cap quote cell; csv_cells cap true true cell rest
        else if is_byte quote c then csv_cells cap false false cell rest
        else cell ← put_cell cap c cell; csv_cells cap true false cell rest
      else if is_byte quote c && (len cell =? 0) then csv_cells cap true false cell rest
      else if is_byte "," c then cons cell <$> csv_cells cap false false [] rest
      else cell ← put_cell cap c cell; csv_cells cap false false cell rest
  end.

Section csv.
Context `{Slots, CText}.

Definition fn_csv_split_line : native := fun args =>
  match args with
  | [XString s] =>
      _ ← mem_alloc;
      match csv_cells (size_t (len (view s) + 1)) false false [] (view s) with
      | Some cells => string_list cells
      | None => undefined
      end
  | _ => mret num0
  end.

(** The text of an element of a joined list, and its size: nothing for other values. *)
Definition csv_item (v : xvalue) : bytes :=
  match v with
  | XString s => mod_csv_write_cell (view s)
  | XNumber _ | XInteger _ => print_g (mod_number_value v)
  | _ => []
  end.

Definition csv_item_len (v : xvalue) : Z :=
  match v with
  | XString s => mod_csv_cell_encoded_len (view s)
  | XNumber _ | XInteger _ => len (print_g (mod_number_value v))
  | _ => 0
  end.

Fixpoint join (sep : bytes) (parts : list bytes) : bytes :=
  match parts with
  | [] => []
  | [p] => p
  | p :: parts => p ++ sep ++ join sep parts
  end.

Definition total (size : xvalue -> Z) (items : list xvalue) : Z := foldr (fun v n => size v + n) 0 items.

Definition fn_csv_join_line : native := fun args =>
  match args with
  | [XList false items] =>
      let separators := if (0 <? length items)%nat then Z.of_nat (length items) - 1 else 0 in
      buffer (separators + total csv_item_len items + 1) (join (lit ",") (map csv_item items))
  | _ => mret num0
  end.
End csv.
