(* ===== verification/StringSplit.v ===== *)
(** The string module: occurrences of a substring, splitting, joining and replacing
    ([exprtk/src/mod_string.c]).

    A cursor into the input is the number of bytes before it. *)

From Stdlib Require Import Ascii.
From S2P Require Import Prelude Float64 HostStatus RtValue StringLib StringBasic StringEscape.
Open Scope Z_scope.

Section split.
Context `{VStr, Slots}.

(** ** Occurrences *)

(** The positions that the loops find from a cursor on, moving it [advance] bytes beyond
    each: the length of the substring, or one for overlapping ones. *)
Fixpoint occurrences (fuel : nat) (advance : nat) (s sub : bytes) (cursor : nat) : list nat :=
  match fuel with
  | O => []
  | Datatypes.S fuel =>
      if (length s <? cursor)%nat then []
      else match vstr_find (drop cursor s) sub with
           | None => []
           | Some found =>
               let pos := (cursor + found)%nat in
               pos :: occurrences fuel advance s sub (pos + advance)
           end
  end.

Definition disjoint_occurrences (s sub : bytes) : list nat := occurrences (length s + 1) (length sub) s sub 0.
Definition overlapping_occurrences (s sub : bytes) : list nat := occurrences (length s + 1) 1 s sub 0.

(** A list of positions, each pushed in turn. *)
Fixpoint push_positions (found : xvalue) (l : list nat) : lib xvalue :=
  match l with
  | [] => mret found
  | i :: l => found ← exprtk_list_push_ignored found (count (Z.of_nat i)); push_positions found l
  end.

Definition fn_find_all : native := fun args =>
  match args with
  | [XString s; XString t] =>
      if len (view t) =? 0 then mret exprtk_val_list_empty
      else push_positions exprtk_val_list_empty (disjoint_occurrences (view s) (view t))
  | _ => mret num0
  end.

Definition fn_find_all_overlapping : native := fun args =>
  match args with
  | [XString s; XString t] =>
      if len (view t) =? 0 then mret exprtk_val_list_empty
      else push_positions exprtk_val_list_empty (overlapping_occurrences (view s) (view t))
  | _ => mret num0
  end.

Definition fn_str_count_substr : native := fun args =>
  match args with
  | [XString s; XString t] =>
      if len (view t) =? 0 then mret num0
      else mret (count (Z.of_nat (length (disjoint_occurrences (view s) (view t)))))
  | _ => mret num0
  end.

Definition fn_str_count_overlapping : native := fun args =>
  match args with
  | [XString s; XString t] =>
      if len (view t) =? 0 then mret num0
      else mret (count (Z.of_nat (length (overlapping_occurrences (view s) (view t)))))
  | _ => mret num0
  end.

(** ** Splitting *)

(** The code points, with no separator: at most [limit] of them, and what is left. *)
Fixpoint characters (fuel : nat) (limit : Z) (s : bytes) : list bytes * bytes :=
  match fuel with
  | O => ([], s)
  | Datatypes.S fuel =>
      if (len s =? 0) || (limit <=? 0) then ([], s)
      else
        let n := Z.to_nat (mod_utf8_next_width s 0) in
        let (l, rest) := characters fuel (limit - 1) (drop n s) in (take n s :: l, rest)
  end.

(** The parts between separators: at most [limit] separators are looked for. *)
Fixpoint parts (fuel : nat) (limit : Z) (sep s : bytes) : list bytes :=
  match fuel with
  | O => [s]
  | Datatypes.S fuel =>
      if limit <=? 0 then [s]
      else match vstr_find s sep with
           | None => [s]
           | Some found => take found s :: parts fuel (limit - 1) sep (drop (found + length sep) s)
           end
  end.

(** No more separators than bytes. *)
Definition no_limit (s : bytes) : Z := len s + 1.

Definition str_split (s sep : bytes) : list bytes := parts (length s + 1) (no_limit s) sep s.

Definition fn_str_split : native := fun args =>
  match args with
  | [XString t; XString p] =>
      let s := view t in
      if len (view p) =? 0 then
        if vstr_utf8_valid s then string_list (characters (length s) (no_limit s) s).1 else mret num0
      else string_list (str_split s (view p))
  | _ => mret num0
  end.

Definition fn_split_limit : native := fun args =>
  match args with
  | [XString t; XString p; n] =>
      if mod_is_number n then
        let s := view t in
        maxsplit ← mod_number_to_index n;
        if maxsplit =? 0 then string_list [s]
        else if len (view p) =? 0 then
          if vstr_utf8_valid s then
            let (l, rest) := characters (length s) maxsplit s in string_list (l ++ [rest])
          else mret num0
        else string_list (parts (length s + 1) maxsplit (view p) s)
      else mret num0
  | _ => mret num0
  end.

(** The parts that start at [start] and end at the positions, and the last one. *)
Fixpoint cut_at (s : bytes) (width start : nat) (positions : list nat) : list bytes :=
  match positions with
  | [] => [drop start s]
  | p :: positions => take (p - start) (drop start s) :: cut_at s width (p + width) positions
  end.

Definition rsplit (s sep : bytes) (maxsplit : option Z) : lib xvalue :=
  let positions := disjoint_occurrences s sep in
  let total := Z.of_nat (length positions) in
  let maxsplit := default total maxsplit in
  if (total =? 0) || (maxsplit =? 0) then string_list [s]
  else
    let maxsplit := if total <? maxsplit then total else maxsplit in
    _ ← mem_alloc;                                  (* the positions *)
    _ ← store_bytes (total * 8) (Z.of_nat (length positions) * 8);
    string_list (cut_at s (length sep) 0 (drop (Z.to_nat (total - maxsplit)) positions)).

Definition fn_rsplit : native := fun args =>
  match args with
  | [XString s; XString p] => if len (view p) =? 0 then mret num0 else rsplit (view s) (view p) None
  | [XString s; XString p; n] =>
      if mod_is_number n then
        if len (view p) =? 0 then mret num0
        else match disjoint_occurrences (view s) (view p) with
             | [] => string_list [view s]           (* the number is not looked at *)
             | _ => maxsplit ← mod_number_to_index n; rsplit (view s) (view p) (Some maxsplit)
             end
      else mret num0
  | _ => mret num0
  end.

(** The input around a separator at [pos]. *)
Definition before_and_after (s sep : bytes) (pos : option nat) : lib xvalue :=
  match pos with
  | None => string_list [s; []]
  | Some pos => string_list [take pos s; drop (pos + length sep) s]
  end.

Definition fn_split_once : native := fun args =>
  match args with
  | [XString s; XString p] =>
      if len (view p) =? 0 then mret num0 else before_and_after (view s) (view p) (vstr_find (view s) (view p))
  | _ => mret num0
  end.

Definition fn_rsplit_once : native := fun args =>
  match args with
  | [XString s; XString p] =>
      if len (view p) =? 0 then mret num0 else before_and_after (view s) (view p) (vstr_rfind (view s) (view p))
  | _ => mret num0
  end.

Definition mod_partition_result (s sep : bytes) (pos : option nat) : lib xvalue :=
  match pos with
  | None => string_list [s; []; []]
  | Some pos => string_list [take pos s; sep; drop (pos + length sep) s]
  end.

Definition fn_str_partition : native := fun args =>
  match args with
  | [XString s; XString p] =>
      if len (view p) =? 0 then mret num0 else mod_partition_result (view s) (view p) (vstr_find (view s) (view p))
  | _ => mret num0
  end.

Definition fn_str_rpartition : native := fun args =>
  match args with
  | [XString s; XString p] =>
      if len (view p) =? 0 then mret num0 else mod_partition_result (view s) (view p) (vstr_rfind (view s) (view p))
  | _ => mret num0
  end.

(** ** Replacing *)

(** The first loop of [fn_replace] counts, the second writes. *)
Fixpoint replace_count (fuel : nat) (old s : bytes) : Z :=
  match fuel with
  | O => 0
  | Datatypes.S fuel =>
      match vstr_find s old with
      | None => 0
      | Some p => 1 + replace_count fuel old (vstr_sub s (Z.of_nat (p + length old)) None)
      end
  end.

Fixpoint replace_loop (fuel : nat) (old new s : bytes) : bytes :=
  match fuel with
  | O => s
  | Datatypes.S fuel =>
      match s with
      | [] => []
      | _ => match vstr_find s old with
             | None => s
             | Some p => take p s ++ new ++ replace_loop fuel old new (vstr_sub s (Z.of_nat (p + length old)) None)
             end
      end
  end.

(** The result is the whole buffer: it is undefined unless the stores fill it exactly. *)
Definition fn_replace : native := fun args =>
  match args with
  | [XString t; XString o; XString n] =>
      let s := view t in
      if len (view o) =? 0 then mret (XString t)
      else
        let count := replace_count (length s + 1) (view o) s in
        if count =? 0 then mret (XString t)
        else
          let new_len := size_t (len s + count * (len (view n) - len (view o))) in
          let out := replace_loop (length s + 1) (view o) (view n) s in
          _ ← mem_alloc; if len out =? new_len then mret (str out) else undefined
  | _ => mret num0
  end.

Definition fn_replace_once : native := fun args =>
  match args with
  | [XString t; XString o; XString n] =>
      let s := view t in
      if len (view o) =? 0 then mod_copy_string s
      else match vstr_find s (view o) with
           | None => mod_copy_string s
           | Some pos =>
               buffer (len s - len (view o) + len (view n) + 1)
                 (take pos s ++ view n ++ drop (pos + length (view o)) s)
           end
  | _ => mret num0
  end.

(** ** Joining *)

Context `{CText}.

Definition join_item (v : xvalue) : bytes :=
  match v with
  | XString s => view s
  | XNumber _ | XInteger _ => print_g (mod_number_value v)
  | _ => []
  end.

Definition fn_str_join : native := fun args =>
  match args with
  | [XList false items; XString p] =>
      let sep := view p in
      let separators := if (0 <? length items)%nat then (Z.of_nat (length items) - 1) * len sep else 0 in
      buffer (1 + separators + total (fun v => len (join_item v)) items) (join sep (map join_item items))
  | _ => mret num0
  end.
End split.
