(* ===== verification/StringFormat.v ===== *)
(** The string module: numbers and formatting ([exprtk/src/mod_string.c]).

    The formatting functions compute the size of their buffer from the arguments before they
    write; every store is checked against that size. *)

From Stdlib Require Import Ascii.
From S2P Require Import Prelude Float64 HostStatus RtValue StringLib StringBasic StringText.
Open Scope Z_scope.

Section format.
Context `{VStr, CText}.

(** ** Conversions *)

(** [mod_view_to_parse_cstr] with a stack buffer of 128 bytes: a longer string is copied to
    the arena.  [None] for want of memory. *)
Definition mod_view_to_parse_cstr (s : bytes) : lib (option bytes) :=
  let text := lit (cut_nul (bytes_string s)) in
  if len s + 1 <=? 128 then _ ← store_bytes 128 (len s + 1); mret (Some text)
  else
    buf ← optional attempt;
    match buf with
    | Some _ => _ ← store_bytes (len s + 1) (len s + 1); mret (Some text)
    | None => mret None
    end.

(** The value, or what the caller had set. *)
Definition mod_to_double_v (s : bytes) (out : f64) : lib f64 :=
  text ← mod_view_to_parse_cstr s;
  mret (match text with Some t => default out (strtod t) | None => out end).

Definition mod_to_int_v (s : bytes) (out : Z) : lib Z :=
  text ← mod_view_to_parse_cstr s;
  mret (match text with Some t => default out (strtoll t) | None => out end).

Definition mod_to_bool_v (s : bytes) : option bool :=
  if vstr_ieq s (lit "true") || vstr_ieq s (lit "yes") || vstr_eq s (lit "1") then Some true
  else if vstr_ieq s (lit "false") || vstr_ieq s (lit "no") || vstr_eq s (lit "0") then Some false
  else None.

Definition fn_to_num : native := fun args =>
  match args with
  | [XString s] => v ← mod_to_double_v (view s) 0.0; mret (num v)
  | _ => mret num0
  end.

Definition fn_to_double : native := fn_to_num.

Definition fn_to_int : native := fun args =>
  match args with
  | [XString s] => v ← mod_to_int_v (view s) 0; mret (count v)
  | _ => mret num0
  end.

Definition fn_to_bool : native := fun args =>
  match args with
  | [XString s] => mret (XBool (if default false (mod_to_bool_v (view s)) then 1 else 0))
  | _ => mret (XBool 0)
  end.

Definition fn_to_str : native := fun args =>
  match args with
  | [XNumber x] => buffer (len (print_g x) + 1) (print_g x)
  | _ => mret num0
  end.

Fixpoint to_doubles (l : list bytes) : lib (list f64) :=
  match l with
  | [] => mret []
  | t :: l => v ← mod_to_double_v t 0.0; rest ← to_doubles l; mret (v :: rest)
  end.

Definition fn_split : native := fun args =>
  match args with
  | [XString s; XString d] =>
      let count := mod_count_tokens (view s) (view d) in
      if 0 <? count then
        let read := take (Z.to_nat count) (tokens (view s) (view d)) in
        _ ← mem_alloc;
        _ ← store_bytes (count * 8) (Z.of_nat (length read) * 8);     (* [vec], a double per token *)
        l ← to_doubles read;
        mret (XVector l)
      else mret num0
  | _ => mret num0
  end.

(** ** Checked stores

    The position, and the bytes of the buffer before it: as long as no store left the buffer,
    and what [snprintf] reported did not move the position beyond its end, these are as many
    as the position says. *)

Record cursor := Cursor { pos : Z; out : bytes }.

(** [buf[pos++] = c] in a buffer of [size] bytes; [None] beyond its end. *)
Definition put (size : Z) (c : ascii) (st : cursor) : option cursor :=
  if pos st <? size then Some (Cursor (pos st + 1) (out st ++ [c])) else None.

Definition put_all (size : Z) (s : bytes) (st : cursor) : option cursor :=
  foldl (fun st c => st ≫= put size c) (Some st) s.

(** [snprintf(buf + pos, room, ...)] stores at most [room] bytes with the terminator, and
    returns the length of the whole text, by which the position moves. *)
Definition snprintf (size room : Z) (s : bytes) (st : cursor) : option cursor :=
  if room =? 0 then Some (Cursor (pos st + len s) (out st))
  else
    let kept := if len s <? room then s else slice s 0 (room - 1) in
    if pos st + len kept + 1 <=? size
    then Some (Cursor (pos st + len s) (out st ++ (if len s <? room then s else kept ++ [NUL])))
    else None.

(** [buf[pos] = '\0'], and the result. *)
Definition finish (size : Z) (st : option cursor) : lib xvalue :=
  match st with
  | Some st => if pos st + 1 <=? size then mret (str (out st)) else undefined
  | None => undefined
  end.

(** ** [join] *)

(** The delimiter, the number, and so on. *)
Fixpoint join_loop (size : Z) (delim : bytes) (first : bool) (l : list f64) (st : cursor) : option cursor :=
  match l with
  | [] => Some st
  | x :: l =>
      st ← (if first then Some st else put_all size delim st);
      st ← snprintf size (size_t (size - pos st)) (print_g x) st;
      join_loop size delim false l st
  end.

Definition fn_join : native := fun args =>
  match args with
  | [XVector l; XString d] =>
      if (length l =? 0)%nat then mret (str [])
      else
        let cap := size_t (Z.of_nat (length l) * 24 + (Z.of_nat (length l) - 1) * len (view d) + 1) in
        _ ← mem_alloc;
        match join_loop cap (view d) true l (Cursor 0 []) with
        | Some st => if pos st <=? cap then mret (str (out st)) else undefined
        | None => undefined
        end
  | _ => mret num0
  end.

(** ** [format] *)

(** [args[i].data.number]; of a value of another type it is what the union holds. *)
Definition data_number (v : xvalue) : f64 :=
  match v with XNumber x => x | _ => raw_number v end.

(** The conversion of one argument. *)
Definition format_arg (size room : Z) (spec : ascii) (v : xvalue) (st : cursor) : option cursor :=
  if is_byte "d" spec then
    match f64_trunc (data_number v) with
    | Some k => if between (- 2 ^ 31) INT32_MAX k then snprintf size room (print_d k) st else None
    | None => None
    end
  else if is_byte "f" spec then snprintf size room (print_f (data_number v)) st
  else if is_byte "g" spec then snprintf size room (print_g (data_number v)) st
  else match v with
       | XString s =>
           (* [%.*s] with the length as an [int] *)
           if len (view s) <=? INT32_MAX
           then snprintf size room (lit (cut_nul (text_bytes s))) st else None
       | _ => Some st
       end.

Definition is_spec (c : ascii) : bool := is_byte "d" c || is_byte "f" c || is_byte "g" c || is_byte "s" c.

(** [args] are the arguments not used yet. *)
Fixpoint format_loop (cap : Z) (args : list xvalue) (skip : bool) (fmt : bytes) (st : cursor) : option cursor :=
  match fmt with
  | [] => Some st
  | c :: rest =>
      if skip then format_loop cap args false rest st
      else
        let plain := st ← put (cap + 1) c st; format_loop cap args false rest st in
        match rest with
        | spec :: _ =>
            if negb (is_byte "%" c) then plain
            else if is_byte "%" spec then st ← put (cap + 1) "%" st; format_loop cap args true rest st
            else match args with
                 | [] => plain
                 | v :: args' =>
                     if is_spec spec then
                       st ← format_arg (cap + 1) (size_t (cap - pos st)) spec v st;
                       format_loop cap args' true rest st
                     else
                       st ← put_all (cap + 1) ["%"%char; spec] st;
                       format_loop cap args true rest st
                 end
        | [] => plain
        end
  end.

Definition string_size (v : xvalue) : Z := match v with XString s => len (view s) | _ => 0 end.

Definition fn_format : native := fun args =>
  match args with
  | XString fmt :: rest =>
      let cap := len (view fmt) + Z.of_nat (length args) * 32 + foldr (fun v n => string_size v + n) 0 rest in
      _ ← mem_alloc;
      finish (cap + 1) (format_loop cap rest false (view fmt) (Cursor 0 []))
  | _ => mret num0
  end.

(** ** [str_format] *)

Definition mod_value_string_len (v : xvalue) : Z :=
  match v with
  | XString s => len (view s)
  | XInteger k => len (print_d k)
  | XNumber x => len (print_g x)
  | XNull => 4
  | _ => 0
  end.

(** [mod_write_value_string] at the position, with [room] bytes. *)
Definition mod_write_value_string (size room : Z) (v : xvalue) (st : cursor) : option cursor :=
  match v with
  | XString s => put_all size (slice (view s) 0 (Z.min (len (view s)) room)) st
  | XInteger k => snprintf size room (print_d k) st
  | XNumber x => snprintf size room (print_g x) st
  | XNull => if 4 <=? room then put_all size (lit "null") st else Some st
  | _ => Some st
  end.

(** The digits after a brace: how many and their value in [size_t]. *)
Fixpoint index_digits (n : nat) (index : Z) (s : bytes) : nat * Z * bytes :=
  match s with
  | c :: rest =>
      if isdigit c then index_digits (Datatypes.S n) (size_t (index * 10 + (byte c - 48))) rest
      else (n, index, s)
  | [] => (n, index, [])
  end.

(** A placeholder, after its brace: the number of digits and the index. *)
Definition placeholder (s : bytes) : option (nat * Z) :=
  match index_digits 0 0 s with
  | (n, index, c :: _) => if is_byte "}" c then Some (n, index) else None
  | (_, _, []) => None
  end.

Definition head_is (c : ascii) (s : bytes) : bool := match s with d :: _ => is_byte c d | [] => false end.

Fixpoint str_format_loop (cap : Z) (args : list xvalue) (next_arg : Z) (skip : nat) (fmt : bytes) (st : cursor)
    : option cursor :=
  match fmt with
  | [] => Some st
  | c :: rest =>
      match skip with
      | Datatypes.S skip => str_format_loop cap args next_arg skip rest st
      | O =>
          if is_byte "{" c && head_is "{" rest || is_byte "}" c && head_is "}" rest then
            st ← put cap c st; str_format_loop cap args next_arg 1 rest st
          else match (if is_byte "{" c then placeholder rest else None) with
               | Some (digits, index) =>
                   let explicit := (0 <? digits)%nat in
                   let arg_index := if explicit then size_t (index + 1) else next_arg in
                   let next := if explicit then next_arg else next_arg + 1 in
                   st ← (if arg_index <? Z.of_nat (length args) then
                           match args !! Z.to_nat arg_index with
                           | Some v => mod_write_value_string cap (size_t (cap - pos st)) v st
                           | None => Some st
                           end
                         else Some st);
                   str_format_loop cap args next (digits + 1) rest st
               | None => st ← put cap c st; str_format_loop cap args next_arg 0 rest st
               end
      end
  end.

Definition fn_str_format : native := fun args =>
  match args with
  | XString fmt :: rest =>
      let cap := size_t (len (view fmt) + 1 + foldr (fun v n => mod_value_string_len v + 16 + n) 0 rest) in
      _ ← mem_alloc;
      finish cap (str_format_loop cap args 1 0 (view fmt) (Cursor 0 []))
  | _ => mret num0
  end.
End format.
