(* ===== verification/StringUtf8.v ===== *)
(** The string module: code points ([exprtk/src/mod_string.c]).

    Code points are read and written by the view library; what the module does with them --
    case, slices, comparison, reversal -- is here. *)

From Stdlib Require Import Ascii.
From S2P Require Import Prelude Float64 HostStatus RtValue StringLib StringBasic StringSplit StringFormat.
Open Scope Z_scope.

(** ** Case *)

Definition mod_utf8_lower_cp (cp : Z) : Z :=
  if between 65 90 cp then wrapu 32 (cp + 32)
  else if between 192 214 cp then wrapu 32 (cp + 32)
  else if between 216 222 cp then wrapu 32 (cp + 32)
  else cp.

Definition mod_utf8_upper_cp (cp : Z) : Z :=
  if between 97 122 cp then wrapu 32 (cp - 32)
  else if between 224 246 cp then wrapu 32 (cp - 32)
  else if between 248 254 cp then wrapu 32 (cp - 32)
  else cp.

Definition mod_utf8_fold_cp (cp : Z) : Z := mod_utf8_lower_cp cp.

Section utf8.
Context `{VStr}.

(** [tstr_utf8_append_cp]: for want of memory, or for a number that is no code point, the
    caller returns. *)
Definition tstr_utf8_append_cp (out : bytes) (cp : Z) : lib bytes :=
  _ ← mem_alloc;
  match tstr_utf8_from_cp cp with Some e => mret (out ++ e) | None => leave num0 end.

Fixpoint map_case (fuel : nat) (to_upper : bool) (rest out : bytes) : lib bytes :=
  match fuel with
  | O => mret out
  | Datatypes.S fuel =>
      match rest with
      | [] => mret out
      | _ =>
          match vstr_utf8_next rest with
          | None => leave num0
          | Some (cp, n) =>
              out ← tstr_utf8_append_cp out (if to_upper then mod_utf8_upper_cp cp else mod_utf8_lower_cp cp);
              map_case fuel to_upper (drop (Z.to_nat n) rest) out
          end
      end
  end.

Definition mod_utf8_map_case (s : bytes) (to_upper : bool) : lib xvalue :=
  _ ← mem_alloc;
  out ← map_case (length s) to_upper s [];
  mod_copy_string out.

Definition fn_utf8_lower : native := fun args =>
  match args with
  | [XString s] => if negb (vstr_utf8_valid (view s)) then mret num0 else mod_utf8_map_case (view s) false
  | _ => mret num0
  end.

Definition fn_utf8_upper : native := fun args =>
  match args with
  | [XString s] => if negb (vstr_utf8_valid (view s)) then mret num0 else mod_utf8_map_case (view s) true
  | _ => mret num0
  end.

Definition fn_casefold : native := fn_utf8_lower.

(** ** Comparison whatever the case *)

Fixpoint ieq_loop (fuel : nat) (l r : bytes) : bool :=
  match fuel with
  | O => (len l =? 0) && (len r =? 0)
  | Datatypes.S fuel =>
      match l, r with
      | _ :: _, _ :: _ =>
          match vstr_utf8_next l, vstr_utf8_next r with
          | Some (lcp, n), Some (rcp, m) =>
              if mod_utf8_fold_cp lcp =? mod_utf8_fold_cp rcp
              then ieq_loop fuel (drop (Z.to_nat n) l) (drop (Z.to_nat m) r) else false
          | _, _ => false
          end
      | _, _ => (len l =? 0) && (len r =? 0)
      end
  end.

Definition mod_utf8_ieq_view (lhs rhs : bytes) : bool := ieq_loop (length lhs) lhs rhs.

Definition mod_utf8_starts_with_ci (s prefix : bytes) : bool :=
  if (len s <? len prefix) || negb (vstr_utf8_valid s) || negb (vstr_utf8_valid prefix) then false
  else if negb (mod_utf8_is_boundary s (len prefix)) then false
  else mod_utf8_ieq_view (slice s 0 (len prefix)) prefix.

(** The loop of [mod_utf8_contains_ci]; [haystack] starts at the offset. *)
Fixpoint contains_loop (fuel : nat) (needle haystack : bytes) : bool :=
  match fuel with
  | O => false
  | Datatypes.S fuel =>
      if len haystack <? len needle then false
      else if mod_utf8_is_boundary haystack (len needle) &&
              mod_utf8_ieq_view (slice haystack 0 (len needle)) needle then true
      else
        let width := mod_utf8_next_width haystack 0 in
        if width =? 0 then false else contains_loop fuel needle (drop (Z.to_nat width) haystack)
  end.

Definition mod_utf8_contains_ci (haystack needle : bytes) : bool :=
  if negb (vstr_utf8_valid haystack) || negb (vstr_utf8_valid needle) then false
  else if len needle =? 0 then true
  else contains_loop (length haystack + 1) needle haystack.

Definition fn_str_eq_ci : native := fun args =>
  match args with
  | [XString a; XString b] =>
      if negb (vstr_utf8_valid (view a)) || negb (vstr_utf8_valid (view b)) then mret num0
      else mret (truth (mod_utf8_ieq_view (view a) (view b)))
  | _ => mret num0
  end.

Definition fn_str_contains_ci : native := fun args =>
  match args with
  | [XString a; XString b] => mret (truth (mod_utf8_contains_ci (view a) (view b)))
  | _ => mret num0
  end.

Definition fn_starts_with_ci : native := fun args =>
  match args with
  | [XString s; XString p] => mret (truth (mod_utf8_starts_with_ci (view s) (view p)))
  | _ => mret num0
  end.

Definition fn_ends_with_ci : native := fun args =>
  match args with
  | [XString a; XString b] =>
      let s := view a in
      let suffix := view b in
      if (len s <? len suffix) || negb (vstr_utf8_valid s) || negb (vstr_utf8_valid suffix) then mret num0
      else
        let start := len s - len suffix in
        if negb (mod_utf8_is_boundary s start) then mret num0
        else mret (truth (mod_utf8_ieq_view (slice s start (len suffix)) suffix))
  | _ => mret num0
  end.

(** ** Lengths, positions and slices *)

Definition fn_utf8_valid : native := fun args =>
  match args with [XString s] => mret (truth (vstr_utf8_valid (view s))) | _ => mret num0 end.

(** [VSTR_NPOS] as a number, should the length be that. *)
Definition fn_utf8_len : native := fun args =>
  match args with
  | [XString s] =>
      if negb (vstr_utf8_valid (view s)) then mret minus_one
      else mret (count (default SIZE_MAX (vstr_utf8_len (view s))))
  | _ => mret num0
  end.

Definition fn_grapheme_len : native := fn_utf8_len.

Definition codepoint_position (s : bytes) (pos : option nat) : xvalue :=
  match pos with
  | Some i => count (mod_utf8_codepoint_count_before s (Z.of_nat i))
  | None => minus_one
  end.

Definition fn_utf8_index_of : native := fun args =>
  match args with
  | [XString s; XString t] =>
      if negb (vstr_utf8_valid (view s)) || negb (vstr_utf8_valid (view t)) then mret minus_one
      else mret (codepoint_position (view s) (vstr_find (view s) (view t)))
  | _ => mret num0
  end.

Definition fn_utf8_rindex_of : native := fun args =>
  match args with
  | [XString s; XString t] =>
      if negb (vstr_utf8_valid (view s)) || negb (vstr_utf8_valid (view t)) then mret minus_one
      else mret (codepoint_position (view s) (vstr_rfind (view s) (view t)))
  | _ => mret num0
  end.

Definition fn_utf8_substr : native := fun args =>
  match args with
  | [XString t; i] =>
      if negb (mod_is_number i) then mret num0
      else if negb (vstr_utf8_valid (view t)) then mret num0
      else
        let s := view t in
        start ← mod_number_to_index i;
        let start_byte := mod_utf8_byte_offset s start in
        mod_copy_string (slice s start_byte (len s - start_byte))
  | [XString t; i; n] =>
      if negb (mod_is_number i) || negb (mod_is_number n) then mret num0
      else if negb (vstr_utf8_valid (view t)) then mret num0
      else
        let s := view t in
        start ← mod_number_to_index i;
        let start_byte := mod_utf8_byte_offset s start in
        count ← mod_number_to_index n;
        let end_byte := mod_utf8_byte_offset (slice s start_byte (len s - start_byte)) count + start_byte in
        mod_copy_string (slice s start_byte (end_byte - start_byte))
  | _ => mret num0
  end.

Definition fn_grapheme_substr : native := fn_utf8_substr.

Definition utf8_slice (s : bytes) (units start to_ : Z) : lib xvalue :=
  let to_ := if to_ <? start then start else to_ in
  let start_byte := mod_utf8_byte_offset s start in
  let end_byte := mod_utf8_byte_offset s to_ in
  if end_byte <? start_byte then undefined          (* the size wraps around *)
  else mod_copy_string (slice s start_byte (end_byte - start_byte)).

Definition fn_utf8_slice : native := fun args =>
  match args with
  | [XString t; i] =>
      if negb (mod_is_number i) || negb (vstr_utf8_valid (view t)) then mret num0
      else
        let units := default SIZE_MAX (vstr_utf8_len (view t)) in
        start ← mod_normalize_unit_index units i;
        utf8_slice (view t) units start units
  | [XString t; i; j] =>
      if negb (mod_is_number i) || negb (mod_is_number j) || negb (vstr_utf8_valid (view t)) then mret num0
      else
        let units := default SIZE_MAX (vstr_utf8_len (view t)) in
        start ← mod_normalize_unit_index units i;
        to_ ← mod_normalize_unit_index units j;
        utf8_slice (view t) units start to_
  | _ => mret num0
  end.

Definition fn_utf8_char_at : native := fun args =>
  match args with
  | [XString t; i] =>
      if negb (mod_is_number i) || negb (vstr_utf8_valid (view t)) then mret num0
      else
        let s := view t in
        index ← mod_number_to_index i;
        let start := mod_utf8_byte_offset s index in
        if len s <=? start then mret (str [])
        else
          let to_ := mod_utf8_byte_offset (slice s start (len s - start)) 1 + start in
          mod_copy_string (slice s start (to_ - start))
  | _ => mret num0
  end.

(** The code point at an index, -1 for none. *)
Definition codepoint_at (s : bytes) (index : Z) : xvalue :=
  let start := mod_utf8_byte_offset s index in
  if len s <=? start then minus_one
  else match vstr_utf8_next (drop (Z.to_nat start) s) with
       | Some (cp, n) => if n =? 0 then minus_one else count cp
       | None => minus_one
       end.

Definition fn_utf8_codepoint_at : native := fun args =>
  match args with
  | [XString s; i] =>
      if negb (mod_is_number i) then mret num0
      else if negb (vstr_utf8_valid (view s)) then mret minus_one
      else index ← mod_number_to_index i; mret (codepoint_at (view s) index)
  | _ => mret num0
  end.

Definition fn_ord : native := fun args =>
  match args with
  | [XString s] =>
      if negb (vstr_utf8_valid (view s)) then mret minus_one else mret (codepoint_at (view s) 0)
  | [XString s; i] =>
      if negb (mod_is_number i) then mret num0
      else if negb (vstr_utf8_valid (view s)) then mret minus_one
      else index ← mod_number_to_index i; mret (codepoint_at (view s) index)
  | _ => mret num0
  end.

(** ** Building strings *)

(** [fn_from_codepoint]: the number is looked at as a [long long], and encoded as the
    [uint32_t] it becomes. *)
Fixpoint from_codepoints (args : list xvalue) (out : bytes) : lib bytes :=
  match args with
  | [] => mret out
  | v :: args =>
      if negb (mod_is_number v) then leave num0
      else
        cp ← mod_number_to_signed v;
        if (cp <? 0) || (tstr_utf8_codepoint_size (wrapu 32 cp) =? 0) then leave num0
        else out ← tstr_utf8_append_cp out (wrapu 32 cp); from_codepoints args out
  end.

Definition fn_from_codepoint : native := fun args =>
  _ ← mem_alloc;
  out ← from_codepoints args [];
  mod_copy_string out.

Definition fn_chr : native := fn_from_codepoint.

(** ** Reversal and characters *)

(** A byte that continues a character. *)
Definition is_continuation (c : ascii) : bool := Z.land (byte c) 192 =? 128.

(** [fn_utf8_reverse] walks back to the start of each character: over the reversed bytes,
    the continuation bytes and the byte before them. *)
Fixpoint reverse_loop (group rev_s : bytes) : bytes :=
  match rev_s with
  | [] => group
  | c :: rest =>
      if is_continuation c then reverse_loop (c :: group) rest
      else (c :: group) ++ reverse_loop [] rest
  end.

Definition utf8_reverse (s : bytes) : bytes := reverse_loop [] (rev s).

Definition fn_utf8_reverse : native := fun args =>
  match args with
  | [XString s] =>
      if negb (vstr_utf8_valid (view s)) then mret num0 else buffer (len (view s) + 1) (utf8_reverse (view s))
  | _ => mret num0
  end.

Definition fn_grapheme_reverse : native := fn_utf8_reverse.

Context `{Slots}.

Definition grapheme_width (s : bytes) : Z :=
  let n := mod_utf8_next_width s 0 in if (n =? 0) || (len s <? n) then 1 else n.

Fixpoint graphemes (fuel : nat) (s : bytes) : list bytes :=
  match fuel with
  | O => []
  | Datatypes.S fuel =>
      match s with
      | [] => []
      | _ => let n := Z.to_nat (grapheme_width s) in take n s :: graphemes fuel (drop n s)
      end
  end.

Definition fn_grapheme_split : native := fun args =>
  match args with
  | [XString s] =>
      if negb (vstr_utf8_valid (view s)) then mret num0 else string_list (graphemes (length (view s)) (view s))
  | _ => mret num0
  end.

Definition normal_form (form : bytes) : bool :=
  vstr_ieq form (lit "NFC") || vstr_ieq form (lit "NFD") || vstr_ieq form (lit "NFKC") || vstr_ieq form (lit "NFKD").

(** The text itself, whatever the form. *)
Definition fn_unicode_normalize : native := fun args =>
  match args with
  | [XString s] => if negb (vstr_utf8_valid (view s)) then mret num0 else mod_copy_string (view s)
  | [XString s; XString form] =>
      if negb (vstr_utf8_valid (view s)) then mret num0
      else if negb (normal_form (view form)) then mret num0
      else mod_copy_string (view s)
  | _ => mret num0
  end.

Context `{CText}.

(** [fn_substr] reads the numbers out of the union without a look at the type. *)
Definition fn_substr : native := fun args =>
  match args with
  | [XString s; i] => start ← to_size (data_number i); mret (str (vstr_sub (view s) start None))
  | [XString s; i; n] =>
      start ← to_size (data_number i);
      count ← to_size (data_number n);
      mret (str (vstr_sub (view s) start (Some count)))
  | _ => mret num0
  end.
End utf8.
