(* ===== verification/StringModule.v ===== *)
(** The string module: its table ([exprtk/src/mod_string.c]), without [assert] and the
    template functions. *)

From Stdlib Require Import Ascii.
From S2P Require Import Prelude Float64 HostStatus RtValue StringLib StringBasic StringText StringEscape StringSplit StringFormat StringUtf8.

Section module.
Context `{VStr, CText, Base64, Slots}.

(** The table of the module, without [assert] (it prints and aborts the environment) and without
    [mustache_render] and [template_render] (one function, over an outside library). *)
Definition string_entries : list (string * native) := [
  ("base64_decode"%string, fn_base64_decode);
  ("base64_encode"%string, fn_base64_encode);
  ("base64url_decode"%string, fn_base64url_decode);
  ("base64url_encode"%string, fn_base64url_encode);
  ("bytes"%string, fn_bytes);
  ("camel_case"%string, fn_camel_case);
  ("capitalize"%string, fn_capitalize);
  ("casefold"%string, fn_casefold);
  ("center"%string, fn_center);
  ("char_at"%string, fn_char_at);
  ("charAt"%string, fn_char_at);
  ("chr"%string, fn_chr);
  ("codepoint_at"%string, fn_ord);
  ("codePointAt"%string, fn_ord);
  ("contains"%string, fn_contains);
  ("constant_time_eq"%string, fn_constant_time_eq);
  ("count_overlapping"%string, fn_str_count_overlapping);
  ("csv_escape"%string, fn_csv_escape);
  ("csv_join_line"%string, fn_csv_join_line);
  ("csv_split_line"%string, fn_csv_split_line);
  ("csv_unescape"%string, fn_csv_unescape);
  ("ends_with"%string, fn_ends_with);
  ("ends_with_ci"%string, fn_ends_with_ci);
  ("endsWith"%string, fn_ends_with);
  ("expand_tabs"%string, fn_expand_tabs);
  ("expandTabs"%string, fn_expand_tabs);
  ("find"%string, fn_find);
  ("find_all"%string, fn_find_all);
  ("find_all_overlapping"%string, fn_find_all_overlapping);
  ("format"%string, fn_format);
  ("from_bytes"%string, fn_from_bytes);
  ("from_codepoint"%string, fn_from_codepoint);
  ("fromCodePoint"%string, fn_from_codepoint);
  ("grapheme_len"%string, fn_grapheme_len);
  ("grapheme_reverse"%string, fn_grapheme_reverse);
  ("grapheme_split"%string, fn_grapheme_split);
  ("grapheme_substr"%string, fn_grapheme_substr);
  ("hex_decode"%string, fn_hex_decode);
  ("hex_encode"%string, fn_hex_encode);
  ("html_escape"%string, fn_html_escape);
  ("html_unescape"%string, fn_html_unescape);
  ("indent"%string, fn_indent);
  ("index_of"%string, fn_index_of);
  ("indexOf"%string, fn_index_of);
  ("includes"%string, fn_contains);
  ("is_alnum"%string, fn_is_alnum);
  ("is_alpha"%string, fn_is_alpha);
  ("is_ascii"%string, fn_is_ascii);
  ("is_blank"%string, fn_is_blank);
  ("is_digit"%string, fn_is_digit);
  ("is_empty"%string, fn_is_empty);
  ("is_hex"%string, fn_is_hex);
  ("is_lower"%string, fn_is_lower);
  ("is_printable"%string, fn_is_printable);
  ("is_space"%string, fn_is_space);
  ("is_upper"%string, fn_is_upper);
  ("join"%string, fn_join);
  ("json_escape"%string, fn_json_escape);
  ("json_unescape"%string, fn_json_unescape);
  ("kebab_case"%string, fn_kebab_case);
  ("last_index_of"%string, fn_last_index_of);
  ("lastIndexOf"%string, fn_last_index_of);
  ("left"%string, fn_left);
  ("line_count"%string, fn_line_count);
  ("lpad"%string, fn_pad_left);
  ("length"%string, fn_size);
  ("size"%string, fn_size);
  ("byte_at"%string, fn_byte_at);
  ("byte_length"%string, fn_size);
  ("lower"%string, fn_lower);
  ("toLower"%string, fn_lower);
  ("lstrip"%string, fn_ltrim);
  ("ltrim"%string, fn_ltrim);
  ("ltrim_chars"%string, fn_ltrim_chars);
  ("normalize"%string, fn_unicode_normalize);
  ("normalize_space"%string, fn_normalize_space);
  ("num_to_str"%string, fn_to_str);
  ("ord"%string, fn_ord);
  ("pad_left"%string, fn_pad_left);
  ("pad_right"%string, fn_pad_right);
  ("pad_start"%string, fn_pad_left);
  ("pad_end"%string, fn_pad_right);
  ("padStart"%string, fn_pad_left);
  ("padEnd"%string, fn_pad_right);
  ("replace"%string, fn_replace);
  ("replace_all"%string, fn_replace);
  ("replace_once"%string, fn_replace_once);
  ("replace_range"%string, fn_replace_range);
  ("remove_prefix"%string, fn_remove_prefix);
  ("remove_suffix"%string, fn_remove_suffix);
  ("remove_chars"%string, fn_remove_chars);
  ("dedent"%string, fn_dedent);
  ("unindent"%string, fn_dedent);
  ("reverse"%string, fn_reverse);
  ("repeat"%string, fn_str_repeat);
  ("rfind"%string, fn_rfind);
  ("right"%string, fn_right);
  ("rsplit"%string, fn_rsplit);
  ("rsplit_once"%string, fn_rsplit_once);
  ("rpad"%string, fn_pad_right);
  ("rstrip"%string, fn_rtrim);
  ("rtrim"%string, fn_rtrim);
  ("rtrim_chars"%string, fn_rtrim_chars);
  ("slice"%string, fn_slice);
  ("shorten"%string, fn_shorten);
  ("split"%string, fn_split);
  ("split_limit"%string, fn_split_limit);
  ("split_once"%string, fn_split_once);
  ("split_str"%string, fn_str_split);
  ("split_whitespace"%string, fn_str_words);
  ("starts_with"%string, fn_starts_with);
  ("starts_with_ci"%string, fn_starts_with_ci);
  ("startsWith"%string, fn_starts_with);
  ("str_contains_ci"%string, fn_str_contains_ci);
  ("str_count"%string, fn_token_count);
  ("str_count_overlapping"%string, fn_str_count_overlapping);
  ("str_count_substr"%string, fn_str_count_substr);
  ("str_eq_ci"%string, fn_str_eq_ci);
  ("str_format"%string, fn_str_format);
  ("str_join"%string, fn_str_join);
  ("str_lines"%string, fn_str_lines);
  ("split_lines"%string, fn_str_lines);
  ("str_partition"%string, fn_str_partition);
  ("str_repeat"%string, fn_str_repeat);
  ("str_rpartition"%string, fn_str_rpartition);
  ("str_split"%string, fn_str_split);
  ("str_words"%string, fn_str_words);
  ("str_to_num"%string, fn_to_num);
  ("str_take"%string, fn_left);
  ("str_drop"%string, fn_drop);
  ("snake_case"%string, fn_snake_case);
  ("slugify"%string, fn_slugify);
  ("surround"%string, fn_surround);
  ("string_format"%string, fn_str_format);
  ("strip"%string, fn_trim);
  ("strip_prefix"%string, fn_remove_prefix);
  ("strip_suffix"%string, fn_remove_suffix);
  ("parse_num"%string, fn_to_num);
  ("str_token"%string, fn_tokenize);
  ("substr"%string, fn_substr);
  ("count"%string, fn_str_count_substr);
  ("chomp"%string, fn_chomp);
  ("to_bool"%string, fn_to_bool);
  ("to_double"%string, fn_to_double);
  ("to_int"%string, fn_to_int);
  ("to_num"%string, fn_to_num);
  ("to_str"%string, fn_to_str);
  ("token_count"%string, fn_token_count);
  ("tokenize"%string, fn_tokenize);
  ("title"%string, fn_title);
  ("truncate"%string, fn_truncate);
  ("translate"%string, fn_translate);
  ("trim"%string, fn_trim);
  ("trim_chars"%string, fn_trim_chars);
  ("trim_start"%string, fn_ltrim);
  ("trim_end"%string, fn_rtrim);
  ("trimStart"%string, fn_ltrim);
  ("trimEnd"%string, fn_rtrim);
  ("unicode_normalize"%string, fn_unicode_normalize);
  ("unwrap"%string, fn_unwrap);
  ("url_decode"%string, fn_url_decode);
  ("url_encode"%string, fn_url_encode);
  ("utf8_char_at"%string, fn_utf8_char_at);
  ("utf8_codepoint_at"%string, fn_utf8_codepoint_at);
  ("utf8_index_of"%string, fn_utf8_index_of);
  ("utf8_len"%string, fn_utf8_len);
  ("utf8_lower"%string, fn_utf8_lower);
  ("utf8_reverse"%string, fn_utf8_reverse);
  ("utf8_rindex_of"%string, fn_utf8_rindex_of);
  ("utf8_slice"%string, fn_utf8_slice);
  ("utf8_substr"%string, fn_utf8_substr);
  ("utf8_upper"%string, fn_utf8_upper);
  ("utf8_valid"%string, fn_utf8_valid);
  ("upper"%string, fn_upper);
  ("word_wrap"%string, fn_word_wrap);
  ("zfill"%string, fn_zfill);
  ("insert"%string, fn_insert);
  ("delete_range"%string, fn_delete_range);
  ("swapcase"%string, fn_swapcase);
  ("toUpper"%string, fn_upper);
  ("keep_chars"%string, fn_keep_chars);
  ("pascal_case"%string, fn_pascal_case)
].

(** The function a name of the module stands for. *)
Definition string_function (name : string) : option native :=
  snd <$> List.find (fun e => bool_decide (e.1 = name)) string_entries.

(** The functions that leave their buffers for some arguments, or convert a number to an
    integer without a look at its range. *)
Definition unchecked : list string :=
  ["format"; "from_bytes"; "str_format"; "string_format"; "str_token"; "substr"; "tokenize"]%string.
End module.
