(* ===== verification/StringSample.v ===== *)
(** A simple instance of what the string module takes from elsewhere, at which its theorems
    are evaluated: substrings are searched byte by byte, every byte is a code point, and
    numbers are printed as ["0"]. *)

From Stdlib Require Import Ascii SpecFloat.
From S2P Require Import Prelude Float64 HostStatus RtValue StringLib.
Open Scope Z_scope.

Fixpoint naive_find (s sub : bytes) : option nat :=
  if bool_decide (take (length sub) s = sub) then Some 0%nat
  else match s with [] => None | _ :: s => Datatypes.S <$> naive_find s sub end.

Definition naive_rfind (s sub : bytes) : option nat :=
  (fun i => length s - length sub - i)%nat <$> naive_find (rev s) (rev sub).

Definition prefix_of (s p : bytes) : bool := bool_decide (take (length p) s = p).

Fixpoint drop_chars (chars s : bytes) : bytes :=
  match s with c :: rest => if memchr c chars then drop_chars chars rest else s | [] => [] end.

Definition plain_vstr : VStr := {|
  vstr_find := naive_find;
  vstr_rfind := naive_rfind;
  vstr_contains s sub := match naive_find s sub with Some _ => true | None => false end;
  vstr_starts_with := prefix_of;
  vstr_ends_with s p := prefix_of (rev s) (rev p);
  vstr_eq a b := bool_decide (a = b);
  vstr_ieq a b := bool_decide (map tolower a = map tolower b);
  vstr_sub s n k := match k with Some k => slice s n k | None => drop (Z.to_nat n) s end;
  vstr_trim s chars := rev (drop_chars chars (rev (drop_chars chars s)));
  vstr_trim_left s chars := drop_chars chars s;
  vstr_trim_right s chars := rev (drop_chars chars (rev s));
  vstr_utf8_valid s := true;
  vstr_utf8_len s := Some (len s);
  vstr_utf8_byte_offset s i := if i <=? len s then Some (Z.max 0 i) else None;
  vstr_utf8_next s := match s with c :: _ => Some (byte c, 1) | [] => None end;
  tstr_utf8_from_cp cp := if between 0 255 cp then Some [to_char cp] else None;
  tstr_utf8_codepoint_size cp := if between 0 255 cp then 1 else 0
|}.

Lemma naive_find_occurs s sub i :
  naive_find s sub = Some i -> (i + length sub <= length s)%nat /\ take (length sub) (drop i s) = sub.
Proof.
  revert i. induction s as [|c s IH]; intros i; simpl; case_bool_decide as E; intros H; simplify_eq.
  - split; [rewrite <- E, length_take; simpl; lia|done].
  - split; [|done]. rewrite <- E, length_take. simpl. lia.
  - apply fmap_Some in H as (j & Hj & ->). apply IH in Hj as [Hl Hj]. simpl. split; [lia|done].
Qed.

Lemma naive_find_first s sub i :
  (i + length sub <= length s)%nat -> take (length sub) (drop i s) = sub ->
  exists j, naive_find s sub = Some j /\ (j <= i)%nat.
Proof.
  revert i. induction s as [|c s IH]; intros i Hl Hi.
  - destruct i; [|simpl in Hl; lia]. exists 0%nat. split; [|lia]. simpl. by rewrite bool_decide_true.
  - simpl. case_bool_decide as E; [exists 0%nat; split; [done|lia]|].
    destruct i as [|i]; [done|]. destruct (IH i) as (j & -> & Hj); [simpl in *; lia|done|].
    exists (Datatypes.S j). split; [done|lia].
Qed.

Lemma prefix_of_length s p : prefix_of s p = true -> (length p <= length s)%nat.
Proof. intros E%bool_decide_eq_true. rewrite <- E, length_take. lia. Qed.

Lemma plain_vstr_laws : @VStrLaws plain_vstr.
Proof.
  split; cbn [plain_vstr vstr_find vstr_starts_with vstr_ends_with vstr_sub vstr_utf8_len vstr_utf8_byte_offset vstr_utf8_next tstr_utf8_from_cp].
  - apply naive_find_occurs.
  - apply naive_find_first.
  - apply prefix_of_length.
  - intros s p H%prefix_of_length. by rewrite !length_rev in H.
  - done.
  - intros s n [= <-]. unfold len. lia.
  - intros s i n. destruct (Z.leb_spec i (len s)); [|done]. intros [= <-]. unfold len in *. lia.
  - intros s i j Hij. destruct (Z.leb_spec i (len s)), (Z.leb_spec j (len s)); simpl; unfold len in *; lia.
  - intros [|c s] cp n; [done|]. intros [= _ <-]. unfold len. simpl. lia.
  - intros cp e. destruct (between 0 255 cp); [|done]. intros [= <-]. done.
Qed.

Definition plain_text : CText := {|
  strtod _ := None;
  strtoll _ := None;
  print_g _ := lit "0";
  print_f _ := lit "0";
  print_d _ := lit "0";
  raw_number _ := f64_zero
|}.
