(* ===== verification/StringProofs.v ===== *)
(** The string module: what its encodings and its CSV functions undo.

    The statements are about calls with memory; [StringSafety] has what happens without. *)

From Stdlib Require Import Ascii SpecFloat.
From Stdlib Require Strings.String.
From S2P Require Import Prelude Float64 HostStatus RtValue StringLib StringBasic StringEscape StringSplit StringSample.
Open Scope Z_scope.

(** ** Bytes *)

Lemma byte_range c : 0 <= byte c < 256.
Proof. unfold byte. pose proof (N_ascii_bounded c). lia. Qed.

Lemma to_char_byte c : to_char (byte c) = c.
Proof.
  unfold to_char, byte. rewrite wrapu_small by (pose proof (N_ascii_bounded c); lia).
  rewrite N2Z.id. apply ascii_N_embedding.
Qed.

Lemma is_byte_spec c a : is_byte c a = true <-> a = c.
Proof. unfold is_byte. by rewrite bool_decide_eq_true. Qed.

Lemma is_byte_refl c : is_byte c c = true.
Proof. by apply is_byte_spec. Qed.

(** A fact of all 256 bytes. *)
Ltac every_byte c := destruct c as [[] [] [] [] [] [] [] []]; vm_compute.

Lemma hex_byte_upper c : hex_byte (upper_hex (high c)) (upper_hex (low c)) = Some c.
Proof. every_byte c; reflexivity. Qed.

Lemma hex_byte_lower c : hex_byte (lower_hex (high c)) (lower_hex (low c)) = Some c.
Proof. every_byte c; reflexivity. Qed.

Lemma hex4_upper c : mod_hex4_value "0" "0" (upper_hex (high c)) (upper_hex (low c)) = Some (byte c).
Proof. every_byte c; reflexivity. Qed.

(** ** Views and results *)

Lemma view_str s : view (Text (bytes_string s)) = s.
Proof. apply Strings.String.list_ascii_of_string_of_list_ascii. Qed.

Lemma bytes_string_length s : str_size (bytes_string s) = len s.
Proof.
  unfold str_size, len, bytes_string. f_equal. induction s as [|c s IH]; [done|]. simpl. by rewrite IH.
Qed.

Lemma len_nonneg s : 0 <= len s.
Proof. unfold len. lia. Qed.

Lemma len_app s t : len (s ++ t) = len s + len t.
Proof. unfold len. rewrite length_app. lia. Qed.

Lemma len_cons c s : len (c :: s) = len s + 1.
Proof. unfold len. simpl. lia. Qed.

Lemma len_nil : len [] = 0.
Proof. done. Qed.

Ltac lens := rewrite ?len_app, ?len_cons, ?len_nil in *.

Lemma len_rev s : len (rev s) = len s.
Proof. unfold len. by rewrite length_rev. Qed.

Lemma len_map (f : ascii -> ascii) s : len (map f s) = len s.
Proof. unfold len. by rewrite length_map. Qed.

(** The value that a call returns with memory. *)
Definition gives (m : lib xvalue) (v : xvalue) : Prop := m [] = (Next v, []).

Lemma gives_exec m v : gives m v -> exec m [] = (Returns v, []).
Proof. unfold gives, exec. by intros ->. Qed.

Lemma exec_ret v h : exec (mret v) h = (Returns v, h).
Proof. done. Qed.

Lemma gives_bind {A} (m : lib A) (k : A -> lib xvalue) a v :
  m [] = (Next a, []) -> gives (k a) v -> gives (m ≫= k) v.
Proof. intros Hm Hk. unfold gives, mbind, lib_bind. by rewrite Hm. Qed.

Lemma size_t_small n : 0 <= n < 2 ^ 64 -> size_t n = n.
Proof. apply wrapu_small. Qed.

Lemma gives_buffer cap out : len out + 1 <= cap < 2 ^ 64 -> gives (buffer cap out) (str out).
Proof.
  intros H. unfold gives, buffer, mbind, lib_bind, mem_alloc, stored. cbn [attempt alloc].
  rewrite size_t_small by (pose proof (len_nonneg out); lia).
  by rewrite (proj2 (Z.leb_le _ _)) by lia.
Qed.

Lemma gives_stored cap out : len out + 1 <= cap < 2 ^ 64 -> gives (stored cap out) (str out).
Proof.
  intros H. unfold gives, stored. rewrite size_t_small by (pose proof (len_nonneg out); lia).
  by rewrite (proj2 (Z.leb_le _ _)) by lia.
Qed.

Lemma mem_alloc_gives : mem_alloc [] = (Next tt, []).
Proof. done. Qed.

(** Two functions of which the second undoes the first. *)
Definition undoes (decode encode : native) (s : bytes) : Prop :=
  exists e, exec (encode [str s]) [] = (Returns (str e), []) /\
            exec (decode [str e]) [] = (Returns (str s), []).

(** ** Encodings byte by byte *)

Lemma expand_cons f c s : expand f (c :: s) = f c ++ expand f s.
Proof. done. Qed.

Lemma decode_expand (f : ascii -> bytes) (decode : bytes -> bytes) s :
  decode [] = [] -> (forall c rest, decode (f c ++ rest) = c :: decode rest) -> decode (expand f s) = s.
Proof. intros H0 H. induction s as [|c s IH]; [done|]. by rewrite expand_cons, H, IH. Qed.

Lemma len_expand size f s :
  (forall c, len (f c) = size c) -> len (expand f s) = foldr (fun c n => size c + n) 0 s.
Proof. intros H. induction s as [|c s IH]; [done|]. rewrite expand_cons, len_app, H, IH. done. Qed.

Lemma foldr_bound (size : ascii -> Z) k s :
  (forall c, 0 <= size c <= k) -> 0 <= foldr (fun c n => size c + n) 0 s <= k * len s.
Proof.
  intros H. induction s as [|c s IH]; [by rewrite len_nil, Z.mul_0_r|].
  rewrite len_cons. simpl. specialize (H c). lia.
Qed.

(** An encoder over [expanded]. *)
Lemma expanded_gives size f k s :
  (forall c, len (f c) = size c) -> (forall c, 0 <= size c <= k) -> k * len s < 2 ^ 63 ->
  gives (expanded size f [str s]) (str (expand f s)).
Proof.
  intros Hf Hk Hs. unfold expanded, str. rewrite view_str.
  pose proof (foldr_bound size k s Hk). rewrite <- (len_expand size f s) in * by done.
  apply gives_buffer. lia.
Qed.

Lemma html_size_ok c : len (html_char c) = html_size c.
Proof. unfold html_char, html_size. by repeat (case_match; try done). Qed.

Lemma html_size_bound c : 0 <= html_size c <= 6.
Proof. unfold html_size. repeat case_match; lia. Qed.

Lemma json_size_ok c : len (json_char c) = json_size c.
Proof. unfold json_char, json_size. by repeat (case_match; try done). Qed.

Lemma json_size_bound c : 0 <= json_size c <= 6.
Proof. unfold json_size. repeat case_match; lia. Qed.

Lemma url_size_ok c : len (url_char c) = url_size c.
Proof. unfold url_char, url_size. by case_match. Qed.

Lemma url_size_bound c : 0 <= url_size c <= 3.
Proof. unfold url_size. case_match; lia. Qed.

(** ** HTML *)

Lemma at_prefix_other a p c s : is_byte a c = false -> at_prefix (String a p) (c :: s) = false.
Proof.
  intros H. unfold at_prefix, is_byte in *. apply bool_decide_eq_false in H. apply bool_decide_eq_false.
  cbn. congruence.
Qed.

Lemma entity_other c s : is_byte "&" c = false -> entity (c :: s) = None.
Proof. intros H. unfold entity. by rewrite !at_prefix_other by done. Qed.

Lemma html_unescape_char c rest : html_unescape 0 (html_char c ++ rest) = c :: html_unescape 0 rest.
Proof.
  unfold html_char. repeat case_match;
    repeat match goal with H : is_byte _ c = true |- _ => apply is_byte_spec in H; subst c end; try reflexivity.
  cbn [app html_unescape]. by rewrite entity_other.
Qed.

Lemma html_unescape_escape s : html_unescape 0 (expand html_char s) = s.
Proof. apply (decode_expand html_char (html_unescape 0)); [done|apply html_unescape_char]. Qed.

Lemma html_unescape_length n s : len (html_unescape n s) <= len s.
Proof.
  revert n. induction s as [|c s IH]; intros n; [done|]. rewrite len_cons. simpl.
  destruct n as [|n]; [|specialize (IH n); lia].
  destruct (entity (c :: s)) as [[d n]|]; rewrite len_cons; [specialize (IH n)|specialize (IH O)]; lia.
Qed.

(** ** URLs *)

Lemma unreserved_plain c :
  mod_is_unreserved_url_char c = true -> is_byte "%" c = false /\ is_byte "+" c = false.
Proof. every_byte c; by intros. Qed.

Lemma url_decode_char c rest : url_decode 0 (url_char c ++ rest) = c :: url_decode 0 rest.
Proof.
  unfold url_char. destruct (mod_is_unreserved_url_char c) eqn:E.
  - apply unreserved_plain in E as [E1 E2]. cbn [app url_decode]. rewrite E1, E2. by repeat case_match.
  - cbn [app hex_pair url_decode]. rewrite is_byte_refl, hex_byte_upper. done.
Qed.

Lemma url_decode_encode s : url_decode 0 (expand url_char s) = s.
Proof. apply (decode_expand url_char (url_decode 0)); [done|apply url_decode_char]. Qed.

Lemma url_decode_length n s : len (url_decode n s) <= len s.
Proof.
  revert n. induction s as [|c s IH]; intros n; [done|]. rewrite len_cons. simpl.
  destruct n as [|n]; [|specialize (IH n); lia].
  pose proof (IH 0%nat). pose proof (IH 2%nat). repeat case_match; rewrite len_cons; lia.
Qed.

(** ** Hexadecimal *)

Lemma hex_decode_encode s : hex_decode (expand (hex_pair lower_hex) s) = Some s.
Proof.
  induction s as [|c s IH]; [done|]. rewrite expand_cons. cbn [hex_pair app hex_decode].
  rewrite hex_byte_lower. cbn [mbind option_bind]. by rewrite IH.
Qed.

Lemma len_hex s : len (expand (hex_pair lower_hex) s) = 2 * len s.
Proof. induction s as [|c s IH]; [done|]. rewrite expand_cons, len_app, IH, len_cons. change (len (hex_pair lower_hex c)) with 2. lia. Qed.

(** ** JSON *)

(** The encoder of a code point, for ASCII. *)
Class AsciiEncoder `{VStr} := {
  ascii_from_cp c : byte c < 128 -> tstr_utf8_from_cp (byte c) = Some [c]
}.

Lemma surrogate_small cp s : cp < 55296 -> surrogate cp s = None.
Proof.
  intros H. do 6 (destruct s as [|? s]; [done|]). unfold surrogate, between.
  by rewrite (proj2 (Z.leb_gt _ _)) by lia.
Qed.

(** The escape of a character: short, long, or the character itself. *)
Lemma json_char_cases c :
  (exists e, json_char c = ["\"%char; e] /\ is_byte "u" e = false /\ unescape_of e = Some c) \/
  (byte c < 32 /\ json_char c = lit "\u00" ++ hex_pair upper_hex c) \/
  (json_char c = [c] /\ is_byte "\" c = false).
Proof.
  destruct (short_escape c) as [e|] eqn:E.
  - left. exists e. revert E. every_byte c; (discriminate || (intros [= <-]; done)).
  - right. unfold json_char. rewrite E. destruct (byte c <? 32) eqn:Hc; [left; split; [lia|done]|right].
    split; [done|]. revert E. clear. every_byte c; (discriminate || done).
Qed.

Section json.
Context `{AsciiEncoder}.

Lemma json_unescape_char cap c rest :
  1 <= cap -> json_unescape cap 0 (json_char c ++ rest) = cons c <$> json_unescape (cap - 1) 0 rest.
Proof.
  intros Hcap. destruct (json_char_cases c) as [(e & -> & Hu & He)|[[Hc ->]|[-> Hc]]].
  - cbn [app json_unescape]. by rewrite is_byte_refl, Hu, He.
  - cbn [app lit hex_pair Strings.String.list_ascii_of_string json_unescape negb].
    rewrite !is_byte_refl. cbn [negb]. rewrite hex4_upper, surrogate_small by lia.
    unfold mod_utf8_write_codepoint. rewrite ascii_from_cp by lia.
    rewrite (proj2 (Z.ltb_ge cap (len [c]))); [done|]. change (len [c]) with 1. lia.
  - cbn [app json_unescape]. rewrite Hc. by destruct rest.
Qed.

Lemma json_unescape_escape cap s : len s < cap -> json_unescape cap 0 (expand json_char s) = Some s.
Proof.
  revert cap. induction s as [|c s IH]; intros cap Hcap; [done|]. lens.
  pose proof (len_nonneg s). rewrite expand_cons, json_unescape_char, IH by lia. done.
Qed.

End json.

(** ** CSV cells *)

Lemma undouble_plain c s : is_byte quote c = false -> undouble (c :: s) = c :: undouble s.
Proof. intros E. destruct s as [|d s]; [done|]. simpl. by rewrite E. Qed.

Lemma undouble_doubled s : undouble (expand doubled s) = s.
Proof.
  induction s as [|c s IH]; [done|]. rewrite expand_cons. unfold doubled at 1.
  destruct (is_byte quote c) eqn:E.
  - apply is_byte_spec in E. subst c. cbn [app undouble]. rewrite is_byte_refl. cbn [andb]. by rewrite IH.
  - cbn [app]. by rewrite undouble_plain, IH.
Qed.

Lemma len_doubled s : len (expand doubled s) = len s + quote_count s.
Proof.
  induction s as [|c s IH]; [done|]. rewrite expand_cons, len_app, IH, len_cons.
  unfold doubled. simpl. destruct (is_byte quote c).
  - change (len [quote; c]) with 2. lia.
  - change (len [c]) with 1. lia.
Qed.

Lemma quote_count_bound s : 0 <= quote_count s <= len s.
Proof.
  induction s as [|c s IH]; [done|]. rewrite len_cons. simpl. destruct (is_byte quote c); lia.
Qed.

Lemma len_csv_cell s : len (mod_csv_write_cell s) = mod_csv_cell_encoded_len s.
Proof.
  unfold mod_csv_write_cell, mod_csv_cell_encoded_len. destruct (existsb needs_quote s); [|done].
  rewrite !len_app, len_doubled. change (len [quote]) with 1. lia.
Qed.

Lemma csv_cell_bound s : 0 <= mod_csv_cell_encoded_len s <= 2 * len s + 2.
Proof.
  unfold mod_csv_cell_encoded_len. pose proof (quote_count_bound s). case_match; lia.
Qed.

Lemma not_existsb {A} (f : A -> bool) c s : existsb f (c :: s) = false -> f c = false /\ existsb f s = false.
Proof. by intros [??]%orb_false_elim. Qed.

Lemma needs_quote_quote c : needs_quote c = false -> is_byte quote c = false /\ is_byte "," c = false.
Proof. unfold needs_quote. intros [[[??]%orb_false_elim ?]%orb_false_elim ?]%orb_false_elim. done. Qed.

Lemma csv_unescape_quoted s : csv_unescape ([quote] ++ expand doubled s ++ [quote]) = Some (undouble (expand doubled s)).
Proof.
  assert (Hl : last (quote :: expand doubled s ++ [quote]) = Some quote) by apply (last_snoc quote (quote :: _)).
  change ([quote] ++ ?l) with (quote :: l). unfold csv_unescape. rewrite Hl, !is_byte_refl.
  rewrite len_cons, len_app, len_doubled. change (len [quote]) with 1.
  pose proof (quote_count_bound s). pose proof (len_nonneg s).
  rewrite (proj2 (Z.ltb_ge _ _)) by lia. cbn [orb negb]. f_equal. f_equal.
  rewrite length_app. simpl. rewrite take_app_le by lia. apply take_ge. lia.
Qed.

Lemma csv_unescape_plain s : existsb needs_quote s = false -> csv_unescape s = None.
Proof.
  destruct s as [|c s]; [done|]. intros [[Hq _]%needs_quote_quote _]%not_existsb.
  unfold csv_unescape. rewrite Hq. rewrite orb_true_r. by case_match.
Qed.

(** ** The theorem on encodings *)

Lemma undoes_intro decode encode s e :
  gives (encode [str s]) (str e) -> gives (decode [str e]) (str s) -> undoes decode encode s.
Proof. intros He Hd. exists e. split; by apply gives_exec. Qed.

(** A decoder that writes into a buffer of its input's size. *)
Lemma gives_alloc_stored cap out : len out + 1 <= cap < 2 ^ 64 -> gives (mem_alloc ≫= fun _ => stored cap out) (str out).
Proof. apply gives_buffer. Qed.

Section undone.
Context (s : bytes) (Hs : len s < 2 ^ 60).

Lemma html_undone : undoes fn_html_unescape fn_html_escape s.
Proof using Hs.
  apply (undoes_intro _ _ _ (expand html_char s)).
  - apply (expanded_gives html_size html_char 6); [apply html_size_ok|apply html_size_bound|lia].
  - unfold fn_html_unescape, str at 1. rewrite view_str, html_unescape_escape. apply gives_buffer.
    rewrite (len_expand html_size) by apply html_size_ok.
    pose proof (html_unescape_length 0 (expand html_char s)) as Hl. rewrite html_unescape_escape in Hl.
    rewrite (len_expand html_size) in Hl by apply html_size_ok.
    pose proof (foldr_bound html_size 6 s html_size_bound). lia.
Qed.

Lemma url_undone : undoes fn_url_decode fn_url_encode s.
Proof using Hs.
  apply (undoes_intro _ _ _ (expand url_char s)).
  - apply (expanded_gives url_size url_char 3); [apply url_size_ok|apply url_size_bound|lia].
  - unfold fn_url_decode, str at 1. rewrite view_str, url_decode_encode. apply gives_buffer.
    pose proof (url_decode_length 0 (expand url_char s)) as Hl. rewrite url_decode_encode in Hl.
    rewrite (len_expand url_size) in * by apply url_size_ok.
    pose proof (foldr_bound url_size 3 s url_size_bound). lia.
Qed.

Lemma json_size_pos c : 1 <= json_size c.
Proof. unfold json_size. repeat case_match; lia. Qed.

Lemma json_expand_length l : len l <= len (expand json_char l).
Proof.
  induction l as [|c l IH]; [done|]. rewrite expand_cons, len_app, len_cons, json_size_ok.
  pose proof (json_size_pos c). lia.
Qed.

Lemma json_undone `{AsciiEncoder} : undoes fn_json_unescape fn_json_escape s.
Proof using Hs.
  apply (undoes_intro _ _ _ (expand json_char s)).
  - apply (expanded_gives json_size json_char 6); [apply json_size_ok|apply json_size_bound|lia].
  - unfold fn_json_unescape, str at 1. rewrite view_str. pose proof (json_expand_length s).
    rewrite json_unescape_escape by lia. apply gives_alloc_stored.
    rewrite (len_expand json_size) in * by apply json_size_ok.
    pose proof (foldr_bound json_size 6 s json_size_bound). lia.
Qed.

Lemma hex_undone : undoes fn_hex_decode fn_hex_encode s.
Proof using Hs.
  apply (undoes_intro _ _ _ (expand (hex_pair lower_hex) s)).
  - unfold fn_hex_encode, str at 1. rewrite view_str. apply gives_buffer. rewrite len_hex. lia.
  - unfold fn_hex_decode, str at 1. rewrite view_str, len_hex, hex_decode_encode.
    rewrite Z.mul_comm, Z_mod_mult, Z.div_mul by done. apply gives_alloc_stored. lia.
Qed.

Lemma csv_cell_undone : undoes fn_csv_unescape fn_csv_escape s.
Proof using Hs.
  pose proof (quote_count_bound s). pose proof (len_nonneg s).
  apply (undoes_intro _ _ _ (mod_csv_write_cell s)); unfold fn_csv_escape, fn_csv_unescape, str at 1; rewrite view_str.
  - destruct (existsb needs_quote s) eqn:E; [|unfold mod_csv_write_cell; rewrite E; apply gives_buffer; lia].
    apply gives_buffer. rewrite len_csv_cell. unfold mod_csv_cell_encoded_len. rewrite E. lia.
  - rewrite len_csv_cell. unfold mod_csv_write_cell, mod_csv_cell_encoded_len. destruct (existsb needs_quote s) eqn:E.
    + rewrite csv_unescape_quoted, undouble_doubled. apply gives_buffer. lia.
    + rewrite csv_unescape_plain by done. apply gives_buffer. lia.
Qed.
End undone.

(** C14: Every encoding the module offers is undone by its decoder, for every string of
    bytes: HTML entities, JSON escapes, percent encoding, hexadecimal, and CSV quoting. *)
Theorem encodings_undone `{AsciiEncoder} (s : bytes) :
  len s < 2 ^ 60 ->
  undoes fn_html_unescape fn_html_escape s /\ undoes fn_json_unescape fn_json_escape s /\
  undoes fn_url_decode fn_url_encode s /\ undoes fn_hex_decode fn_hex_encode s /\
  undoes fn_csv_unescape fn_csv_escape s.
Proof.
  intros Hs. split_and!; [by apply html_undone|by apply json_undone|by apply url_undone|by apply hex_undone|by apply csv_cell_undone].
Qed.

(** ** Lists of strings *)

Section lists.
Context `{Slots}.

Lemma copy_view_gives s :
  len s < 2 ^ 63 -> exprtk_copy_view (Text (bytes_string s)) true [] = (Some (Text (bytes_string s)), []).
Proof.
  intros Hs. unfold exprtk_copy_view. cbn [text_dangling text_size]. rewrite bytes_string_length.
  destruct (Z.eqb_spec (len s) 0) as [E|E].
  - destruct s; [done|]. pose proof (len_nonneg s). lens. lia.
  - rewrite (proj2 (Z.eqb_neq _ _)) by (unfold SIZE_MAX; lia). done.
Qed.

Lemma append_string_gives l s :
  len s < 2 ^ 63 -> gives (mod_list_append_string (XList false l) s) (XList false (l ++ [str s])).
Proof.
  intros Hs. pose proof (len_nonneg s). unfold mod_list_append_string.
  apply (gives_bind _ _ (str s)); [apply gives_buffer; lia|].
  unfold gives, mbind, lib_bind, optional, exprtk_list_push, push_copy, str, mbind, fallible_bind.
  cbn [attempt alloc exprtk_value_copy_to_pool]. unfold mbind, fallible_bind.
  by rewrite copy_view_gives by done.
Qed.

Lemma append_all_gives l parts :
  Forall (fun s => len s < 2 ^ 63) parts -> gives (append_all (XList false l) parts) (XList false (l ++ map str parts)).
Proof.
  intros Hp. revert l. induction Hp as [|s parts Hs _ IH]; intros l; cbn [append_all].
  - simpl. by rewrite app_nil_r.
  - eapply gives_bind; [by apply append_string_gives|]. cbn [map].
    change (str s :: map str parts) with ([str s] ++ map str parts). rewrite app_assoc. apply IH.
Qed.

Lemma string_list_gives parts :
  Forall (fun s => len s < 2 ^ 63) parts -> gives (string_list parts) (XList false (map str parts)).
Proof. apply append_all_gives. Qed.

(** ** CSV lines *)

(** The cells that are read, without the buffer they go through. *)
Fixpoint csv_read (quoted skip : bool) (cell : bytes) (s : bytes) : list bytes :=
  match s with
  | [] => if quoted then [] else [cell]
  | c :: rest =>
      if skip then csv_read quoted false cell rest
      else if quoted then
        if is_byte quote c && match rest with d :: _ => is_byte quote d | [] => false end
        then csv_read true true (cell ++ [quote]) rest
        else if is_byte quote c then csv_read false false cell rest
        else csv_read true false (cell ++ [c]) rest
      else if is_byte quote c && (len cell =? 0) then csv_read true false cell rest
      else if is_byte "," c then cell :: csv_read false false [] rest
      else csv_read false false (cell ++ [c]) rest
  end.

(** A cell is never longer than what was read, so one byte more than the input is room enough. *)
Lemma csv_cells_fit cap q k cell s :
  len cell + len s < cap -> csv_cells cap q k cell s = Some (csv_read q k cell s).
Proof.
  revert q k cell. induction s as [|c s IH]; intros q k cell Hcap; cbn [csv_cells csv_read].
  { rewrite len_nil in Hcap. destruct q; [|done]. unfold put_cell. by rewrite (proj2 (Z.ltb_lt _ _)) by lia. }
  rewrite len_cons in Hcap. pose proof (len_nonneg s). pose proof (len_nonneg cell).
  assert (forall d q' k', (cell ← put_cell cap d cell; csv_cells cap q' k' cell s) = Some (csv_read q' k' (cell ++ [d]) s)) as Hput.
  { intros d q' k'. unfold put_cell. rewrite (proj2 (Z.ltb_lt _ _)) by lia. cbn [mbind option_bind]. apply IH.
    rewrite len_app. change (len [d]) with 1. lia. }
  rewrite !Hput, !(IH _ _ cell) by lia. rewrite (IH false false []) by (rewrite len_nil; lia). cbn [fmap option_fmap option_map].
  by repeat case_match.
Qed.

Lemma csv_read_plain s cell rest :
  existsb needs_quote s = false ->
  csv_read false false cell (s ++ rest) = csv_read false false (cell ++ s) rest.
Proof.
  revert cell. induction s as [|c s IH]; intros cell Hs; [by rewrite app_nil_r|].
  apply not_existsb in Hs as [[Hq Hc]%needs_quote_quote Hs]. cbn [app csv_read].
  rewrite Hq, Hc. cbn [andb]. rewrite IH by done. by rewrite <- app_assoc.
Qed.

(** What follows a cell: the end of the line or a comma. *)
Definition after_cell (rest : bytes) : Prop := rest = [] \/ exists r, rest = ","%char :: r.

Lemma csv_read_quoted s cell rest :
  after_cell rest ->
  csv_read true false cell (expand doubled s ++ quote :: rest) = csv_read false false (cell ++ s) rest.
Proof.
  intros Hr. revert cell. induction s as [|c s IH]; intros cell.
  - cbn [expand map concat app csv_read]. rewrite app_nil_r, is_byte_refl. by destruct Hr as [->|[r ->]].
  - rewrite expand_cons, <- app_assoc. unfold doubled at 1. destruct (is_byte quote c) eqn:E.
    + apply is_byte_spec in E. subst c. cbn [app csv_read]. rewrite is_byte_refl. cbn [andb].
      rewrite IH. by rewrite <- app_assoc.
    + cbn [app csv_read]. rewrite E. cbn [andb]. rewrite IH. by rewrite <- app_assoc.
Qed.

Lemma csv_read_cell s rest :
  after_cell rest -> csv_read false false [] (mod_csv_write_cell s ++ rest) = csv_read false false s rest.
Proof.
  intros Hr. unfold mod_csv_write_cell. destruct (existsb needs_quote s) eqn:E; [|by apply csv_read_plain].
  rewrite <- app_assoc, <- app_assoc. cbn [app csv_read]. rewrite is_byte_refl. cbn [andb].
  change (len [] =? 0) with true. cbn iota. by apply csv_read_quoted.
Qed.

Lemma csv_read_end s : csv_read false false s [] = [s].
Proof. done. Qed.

Lemma csv_read_comma s r : csv_read false false s (","%char :: r) = s :: csv_read false false [] r.
Proof. done. Qed.

Lemma csv_read_join cells :
  cells <> [] -> csv_read false false [] (join (lit ",") (map mod_csv_write_cell cells)) = cells.
Proof.
  intros Hne. induction cells as [|s cells IH]; [done|]. destruct cells as [|t cells].
  - cbn [map join]. rewrite <- (app_nil_r (mod_csv_write_cell s)), csv_read_cell by by left. done.
  - change (join (lit ",") (map mod_csv_write_cell (s :: t :: cells)))
      with (mod_csv_write_cell s ++ ","%char :: join (lit ",") (map mod_csv_write_cell (t :: cells))).
    rewrite csv_read_cell by (right; by eexists). by rewrite csv_read_comma, IH.
Qed.

(** *** Sizes *)

Definition sum_len (parts : list bytes) : Z := foldr (fun s n => len s + n) 0 parts.

Lemma sum_len_nonneg parts : 0 <= sum_len parts.
Proof. induction parts as [|s l IH]; simpl; [lia|]. pose proof (len_nonneg s). lia. Qed.

Lemma len_join sep parts :
  len (join sep parts) = sum_len parts + Z.max 0 (Z.of_nat (length parts) - 1) * len sep.
Proof.
  induction parts as [|p [|q parts] IH]; [done|cbn [join sum_len foldr length]; lia|].
  change (join sep (p :: q :: parts)) with (p ++ sep ++ join sep (q :: parts)).
  rewrite !len_app, IH, !Z.max_r by (simpl; lia). rewrite !length_cons, !Nat2Z.inj_succ. cbn [sum_len foldr]. lia.
Qed.

Lemma sum_len_forall parts n : sum_len parts < n -> Forall (fun s => len s < n) parts.
Proof.
  induction parts as [|s l IH]; [by constructor|]. simpl. intros Hn.
  pose proof (sum_len_nonneg l). pose proof (len_nonneg s). constructor; [lia|]. apply IH. lia.
Qed.

Context `{CText}.

Lemma total_cells cells :
  total csv_item_len (map str cells) = sum_len (map mod_csv_write_cell cells).
Proof.
  induction cells as [|s l IH]; [done|]. cbn [map total foldr sum_len csv_item_len str] in *.
  rewrite view_str, len_csv_cell. unfold total in *. by rewrite IH.
Qed.

Lemma map_csv_item cells : map csv_item (map str cells) = map mod_csv_write_cell cells.
Proof. induction cells as [|s l IH]; [done|]. cbn [map csv_item str]. by rewrite view_str, IH. Qed.

Lemma written_bound cells :
  sum_len (map mod_csv_write_cell cells) <= 2 * sum_len cells + 2 * Z.of_nat (length cells).
Proof.
  induction cells as [|s l IH]; [done|]. simpl. rewrite len_csv_cell. pose proof (csv_cell_bound s). lia.
Qed.

Lemma csv_line_bound cells :
  sum_len cells + Z.of_nat (length cells) < 2 ^ 60 ->
  0 <= len (join (lit ",") (map mod_csv_write_cell cells)) < 2 ^ 62.
Proof.
  intros Hs. pose proof (len_nonneg (join (lit ",") (map mod_csv_write_cell cells))) as Hn. split; [done|].
  rewrite len_join, length_map. change (len (lit ",")) with 1. pose proof (written_bound cells).
  pose proof (sum_len_nonneg cells). lia.
Qed.

Lemma csv_join_gives cells :
  sum_len cells + Z.of_nat (length cells) < 2 ^ 60 ->
  gives (fn_csv_join_line [XList false (map str cells)]) (str (join (lit ",") (map mod_csv_write_cell cells))).
Proof.
  intros Hs. unfold fn_csv_join_line. rewrite total_cells, map_csv_item, length_map. apply gives_buffer.
  rewrite len_join, length_map. change (len (lit ",")) with 1.
  pose proof (written_bound cells). pose proof (sum_len_nonneg cells).
  pose proof (sum_len_nonneg (map mod_csv_write_cell cells)).
  destruct (Nat.ltb_spec 0 (length cells)); cbn [Nat.ltb Nat.leb]; lia.
Qed.

Lemma csv_split_gives cells :
  cells <> [] -> sum_len cells + Z.of_nat (length cells) < 2 ^ 60 ->
  gives (fn_csv_split_line [str (join (lit ",") (map mod_csv_write_cell cells))]) (XList false (map str cells)).
Proof.
  intros Hne Hs. unfold fn_csv_split_line, str at 1. rewrite view_str.
  apply (gives_bind _ _ tt); [done|].
  pose proof (csv_line_bound cells Hs). rewrite csv_cells_fit by (rewrite len_nil, size_t_small by lia; lia).
  rewrite csv_read_join by done. apply string_list_gives, sum_len_forall. lia.
Qed.

(** C21: A line of CSV that the module writes is read back cell by cell: whatever bytes the
    cells have -- commas, quotes, line ends -- [csv_split_line] of [csv_join_line] is the
    list of the cells, as long as there is one. *)
Theorem csv_line_round_trip (cells : list bytes) :
  cells <> [] -> sum_len cells + Z.of_nat (length cells) < 2 ^ 60 ->
  exists line,
    exec (fn_csv_join_line [XList false (map str cells)]) [] = (Returns (str line), []) /\
    exec (fn_csv_split_line [str line]) [] = (Returns (XList false (map str cells)), []).
Proof.
  intros Hne Hs. exists (join (lit ",") (map mod_csv_write_cell cells)).
  split; apply gives_exec; [by apply csv_join_gives|by apply csv_split_gives].
Qed.
End lists.

(** ** Splitting and joining *)

Section split.
Context `{VStrLaws, Slots, CText}.

Lemma find_split s sep found :
  vstr_find s sep = Some found -> s = take found s ++ sep ++ drop (found + length sep) s.
Proof.
  intros [_ E]%find_occurs. rewrite <- drop_drop.
  assert (sep ++ drop (length sep) (drop found s) = drop found s) as ->.
  { rewrite <- E at 1. apply take_drop. }
  by rewrite take_drop.
Qed.

Lemma parts_cons fuel limit sep s : exists p l, parts fuel limit sep s = p :: l.
Proof. destruct fuel; simpl; repeat case_match; eauto. Qed.

Lemma join_parts fuel limit sep s : join sep (parts fuel limit sep s) = s.
Proof.
  revert limit s. induction fuel as [|fuel IH]; intros limit s; [done|]. cbn [parts].
  destruct (limit <=? 0); [done|]. destruct (vstr_find s sep) as [found|] eqn:E; [|done].
  specialize (IH (limit - 1) (drop (found + length sep) s)).
  destruct (parts_cons fuel (limit - 1) sep (drop (found + length sep) s)) as (p & l & El).
  rewrite El in *. change (join sep (take found s :: p :: l)) with (take found s ++ sep ++ join sep (p :: l)).
  rewrite IH. symmetry. by apply find_split.
Qed.

Lemma find_take s sep found : sep <> [] -> vstr_find s sep = Some found -> vstr_find (take found s) sep = None.
Proof.
  intros Hne E. destruct (vstr_find (take found s) sep) as [i|] eqn:Ei; [|done]. exfalso.
  pose proof (find_occurs _ _ _ E) as [Hs _]. apply find_occurs in Ei as [Hi Et].
  rewrite length_take in Hi. assert (length sep <> 0)%nat by (by destruct sep).
  destruct (find_first s sep i) as (j & Ej & Hj); [lia| |].
  - rewrite skipn_firstn_comm, take_take, Nat.min_l in Et by lia. done.
  - rewrite E in Ej. injection Ej as <-. lia.
Qed.

Lemma parts_no_sep fuel limit sep s :
  sep <> [] -> (length s < fuel)%nat -> len s < limit ->
  Forall (fun p => vstr_find p sep = None) (parts fuel limit sep s).
Proof.
  intros Hne. assert (length sep <> 0)%nat by (by destruct sep).
  revert limit s. induction fuel as [|fuel IH]; intros limit s Hf Hl; [lia|]. cbn [parts].
  rewrite (proj2 (Z.leb_gt _ _)) by (pose proof (len_nonneg s); lia).
  destruct (vstr_find s sep) as [found|] eqn:E; [|by repeat constructor].
  pose proof (find_occurs _ _ _ E) as [Hs _]. constructor; [by eapply find_take|].
  apply IH; [rewrite length_drop; lia|]. unfold len in *. rewrite length_drop. lia.
Qed.

Lemma drop_find s sep found n : vstr_find (drop n s) sep = Some found -> (n + found + length sep <= length s)%nat \/ sep = [].
Proof.
  intros [Hl _]%find_occurs. rewrite length_drop in Hl. destruct sep; [by right|left; simpl in *; lia].
Qed.

(** As many separators as occurrences counted. *)
Lemma parts_occurrences fuel limit sep s n :
  sep <> [] -> (length s - n < fuel)%nat -> (n <= length s)%nat -> len s - Z.of_nat n < limit ->
  length (parts fuel limit sep (drop n s)) = Datatypes.S (length (occurrences fuel (length sep) s sep n)).
Proof.
  intros Hne. assert (length sep <> 0)%nat by (by destruct sep).
  revert limit n. induction fuel as [|fuel IH]; intros limit n Hf Hn Hl; [lia|]. cbn [parts occurrences].
  rewrite (proj2 (Z.leb_gt _ _)) by (unfold len in *; lia). rewrite (proj2 (Nat.ltb_ge _ _)) by lia.
  destruct (vstr_find (drop n s) sep) as [found|] eqn:E; [|done].
  destruct (drop_find _ _ _ _ E) as [Hs| ->]; [|done].
  rewrite drop_drop, !length_cons. f_equal. rewrite Nat.add_assoc. apply IH; lia.
Qed.

Lemma join_items l : map join_item (map str l) = l.
Proof. induction l as [|s l IH]; [done|]. cbn [map join_item str]. by rewrite view_str, IH. Qed.

Lemma total_items l : total (fun v => len (join_item v)) (map str l) = sum_len l.
Proof.
  induction l as [|s l IH]; [done|]. unfold total in *. cbn [map foldr sum_len join_item str]. by rewrite view_str, IH.
Qed.

Lemma str_join_gives l sep :
  len (join sep l) < 2 ^ 60 -> gives (fn_str_join [XList false (map str l); str sep]) (str (join sep l)).
Proof.
  intros Hs. unfold fn_str_join, str at 1. rewrite view_str, join_items, total_items, length_map.
  apply gives_buffer. pose proof (len_join sep l). pose proof (len_nonneg (join sep l)).
  destruct (Nat.ltb_spec 0 (length l)); [rewrite Z.max_r in * by lia; lia|].
  destruct l; [|simpl in *; lia]. cbn in *. lia.
Qed.

Lemma str_split_call s sep :
  (len sep =? 0) = false -> fn_str_split [str s; str sep] = string_list (str_split s sep).
Proof. intros E. unfold fn_str_split, str. by rewrite !view_str, E. Qed.

Lemma count_substr_call s sep :
  (len sep =? 0) = false ->
  fn_str_count_substr [str s; str sep] = mret (count (Z.of_nat (length (disjoint_occurrences s sep)))).
Proof. intros E. unfold fn_str_count_substr, str. by rewrite !view_str, E. Qed.

(** C26: Splitting a string at a separator that is not empty loses nothing and leaves
    nothing: joining the parts with the separator gives the string back, no part contains
    the separator, and there is one part more than [str_count_substr] counts. *)
Theorem split_join (s sep : bytes) :
  sep <> [] -> len s < 2 ^ 53 ->
  exists l,
    exec (fn_str_split [str s; str sep]) [] = (Returns (XList false (map str l)), []) /\
    exec (fn_str_join [XList false (map str l); str sep]) [] = (Returns (str s), []) /\
    Forall (fun p => vstr_find p sep = None) l /\
    exec (fn_str_count_substr [str s; str sep]) [] = (Returns (count (Z.of_nat (length l) - 1)), []).
Proof.
  intros Hne Hs. exists (str_split s sep).
  assert (Hsep : (len sep =? 0) = false) by (destruct sep; [done|]; apply Z.eqb_neq; lens; pose proof (len_nonneg sep); lia).
  assert (Hj : join sep (str_split s sep) = s) by apply join_parts.
  assert (Hl : sum_len (str_split s sep) <= len s).
  { rewrite <- Hj at 2. rewrite len_join. pose proof (len_nonneg sep). nia. }
  rewrite str_split_call, count_substr_call by done. split_and!.
  - apply gives_exec, string_list_gives, sum_len_forall. lia.
  - pose proof (str_join_gives (str_split s sep) sep) as Hg. rewrite Hj in Hg. apply gives_exec, Hg. lia.
  - apply parts_no_sep; [done|lia|unfold no_limit; lia].
  - rewrite exec_ret. pose proof (parts_occurrences (length s + 1) (no_limit s) sep s 0 Hne) as Hn.
    unfold str_split. rewrite drop_0 in Hn. rewrite Hn by (unfold no_limit; lia).
    unfold disjoint_occurrences. do 3 f_equal. lia.
Qed.
End split.

(** ** Witnesses *)

Lemma plain_ascii : @AsciiEncoder plain_vstr.
Proof.
  split. intros c Hc. cbn [plain_vstr tstr_utf8_from_cp]. pose proof (byte_range c). unfold between.
  by rewrite (proj2 (Z.leb_le _ _)), (proj2 (Z.leb_le (byte c) 255)), to_char_byte by lia.
Qed.

Definition sample_text : bytes := lit "a<b>&'c' %+\ d," ++ [quote; lf; tab; "001"%char; "255"%char].

Lemma encodings_undone_witness :
  undoes fn_html_unescape fn_html_escape sample_text /\
  undoes fn_csv_unescape fn_csv_escape sample_text.
Proof.
  destruct (@encodings_undone plain_vstr plain_ascii sample_text) as (H1 & _ & _ & _ & H2); [vm_compute; reflexivity|].
  split; [exact H1|exact H2].
Defined.

Lemma csv_line_round_trip_witness :
  exists line, exec (fn_csv_split_line [str line]) [] = (Returns (XList false (map str [sample_text; []; lit "x"])), []).
Proof.
  destruct (@csv_line_round_trip slots_append plain_text [sample_text; []; lit "x"]) as (line & _ & H);
    [discriminate|vm_compute; reflexivity|]. exists line. exact H.
Defined.

Lemma split_join_witness :
  exists l, exec (@fn_str_split plain_vstr slots_append [str (lit "a--b---c"); str (lit "--")]) [] =
              (Returns (XList false (map str l)), []) /\
            Forall (fun p => naive_find p (lit "--") = None) l.
Proof.
  destruct (@split_join plain_vstr plain_vstr_laws slots_append plain_text (lit "a--b---c") (lit "--"))
    as (l & H1 & _ & H2 & _); [discriminate|vm_compute; reflexivity|]. exists l. split; [exact H1|exact H2].
Defined.
