(* ===== verification/StringTextProofs.v ===== *)
(** The string module: what the functions on words and lines do. *)

From Stdlib Require Import Ascii.
From S2P Require Import Prelude Float64 HostStatus RtValue StringLib StringBasic StringText StringEscape StringProofs.
Open Scope Z_scope.

(** ** Constant-time comparison *)

Lemma land_lxor a b c : Z.land (Z.lxor a b) c = Z.lxor (Z.land a c) (Z.land b c).
Proof.
  apply Z.bits_inj'. intros n _. rewrite Z.land_spec, !Z.lxor_spec, !Z.land_spec.
  by destruct (Z.testbit a n), (Z.testbit b n), (Z.testbit c n).
Qed.

Lemma wrapu_lxor a b : wrapu 32 (Z.lxor a b) = Z.lxor (wrapu 32 a) (wrapu 32 b).
Proof. unfold wrapu. rewrite <- !Z.land_ones by lia. apply land_lxor. Qed.

Lemma wrapu_lxor_zero a b : 0 <= a < 2 ^ 32 -> 0 <= b < 2 ^ 32 -> wrapu 32 (Z.lxor a b) = 0 <-> a = b.
Proof. intros Ha Hb. rewrite wrapu_lxor, !wrapu_small by done. apply Z.lxor_eq_0_iff. Qed.

Lemma foldl_lor_zero (f : nat -> Z) l d :
  foldl (fun d i => Z.lor d (f i)) d l = 0 <-> d = 0 /\ Forall (fun i => f i = 0) l.
Proof.
  revert d. induction l as [|i l IH]; intros d; simpl.
  - split; [by intros ->; split|by intros [-> _]].
  - rewrite IH, Forall_cons, Z.lor_eq_0_iff. tauto.
Qed.

Lemma byte_inj a b : byte a = byte b -> a = b.
Proof. intros H. by rewrite <- (to_char_byte a), H, to_char_byte. Qed.

Lemma difference_zero a b i :
  difference a b i = 0 <-> nth i a "000"%char = nth i b "000"%char.
Proof.
  unfold difference. rewrite Z.lxor_eq_0_iff. split; [apply byte_inj|congruence].
Qed.

Lemma diff_zero a b : len a < 2 ^ 32 -> len b < 2 ^ 32 -> diff a b = 0 <-> a = b.
Proof.
  intros Ha Hb. pose proof (len_nonneg a). pose proof (len_nonneg b).
  unfold diff. rewrite foldl_lor_zero, wrapu_lxor_zero by lia. split.
  - intros [Hl Hd]. assert (length a = length b) as E by (unfold len in Hl; lia).
    apply (nth_ext _ _ "000"%char "000"%char E). intros i Hi. apply difference_zero.
    rewrite Forall_forall in Hd. apply Hd, elem_of_seq. lia.
  - intros ->. split; [done|]. apply Forall_forall. intros i _. by apply difference_zero.
Qed.

(** Comparing in constant time decides equality, for strings below four gigabytes. *)
Theorem constant_time_eq_exact (a b : bytes) h :
  len a < 2 ^ 32 -> len b < 2 ^ 32 ->
  exec (fn_constant_time_eq [str a; str b]) h = (Returns (truth (bool_decide (a = b))), h).
Proof.
  intros Ha Hb. unfold fn_constant_time_eq, str. rewrite !view_str, exec_ret. do 3 f_equal.
  case_bool_decide as E; [by apply Z.eqb_eq, diff_zero|]. apply Z.eqb_neq. by rewrite diff_zero.
Qed.

(** The lengths are compared in 32 bits: a string of four gigabytes of NUL bytes is taken
    for the empty one. *)
Lemma length_difference_wraps n : 0 <= n < 2 ^ 32 -> wrapu 32 (Z.lxor n (n + 2 ^ 32)) = 0.
Proof.
  intros Hn. rewrite wrapu_lxor. unfold wrapu.
  replace (n + 2 ^ 32) with (n + 1 * 2 ^ 32) by lia. by rewrite Z_mod_plus_full, Z.lxor_nilpotent.
Qed.

(** ** Words *)

Definition no_space (s : bytes) : Prop := existsb isspace s = false.

Lemma span_word_app w r :
  no_space w -> match r with c :: _ => isspace c = true | [] => True end -> span_word (w ++ r) = (w, r).
Proof.
  intros Hw Hr. induction w as [|c w IH].
  - destruct r as [|c r]; [done|]. simpl. by rewrite Hr.
  - apply not_existsb in Hw as [Hc Hw]. cbn [app span_word]. by rewrite Hc, IH.
Qed.

Lemma span_word_spec s w r :
  span_word s = (w, r) -> s = w ++ r /\ no_space w /\ match r with c :: _ => isspace c = true | [] => True end.
Proof.
  revert w r. induction s as [|c s IH]; intros w r; simpl; [by intros [= <- <-]|].
  destruct (isspace c) eqn:E; [by intros [= <- <-]|].
  destruct (span_word s) as [w' r'] eqn:Es. intros [= <- <-]. destruct (IH _ _ eq_refl) as (-> & Hw & Hr).
  split_and!; [done| |done]. unfold no_space. simpl. by rewrite E.
Qed.

Lemma skip_space_length s : (length (skip_space s) <= length s)%nat.
Proof. induction s as [|c s IH]; [done|]. simpl. case_match; simpl; lia. Qed.

Lemma skip_space_head s : match skip_space s with c :: _ => isspace c = false | [] => True end.
Proof. induction s as [|c s IH]; [done|]. simpl. by destruct (isspace c) eqn:E. Qed.

Lemma squeeze_spaces s : squeeze true true (skip_space s) = squeeze true true s.
Proof. induction s as [|c s IH]; [done|]. simpl. destruct (isspace c) eqn:E; [done|]. simpl. by rewrite E. Qed.

Lemma squeeze_word w r : no_space w -> squeeze false true (w ++ r) = w ++ squeeze false true r.
Proof.
  intros Hw. induction w as [|c w IH]; [done|]. apply not_existsb in Hw as [Hc Hw].
  cbn [app squeeze]. by rewrite Hc, IH.
Qed.

Lemma squeeze_between r :
  match r with c :: _ => isspace c = true | [] => True end -> squeeze false true r = squeeze true true r.
Proof. destruct r as [|c r]; [done|]. intros E. simpl. by rewrite E. Qed.

(** A word after the start: with the pending space. *)
Lemma squeeze_next c w r :
  no_space (c :: w) -> match r with c :: _ => isspace c = true | [] => True end ->
  squeeze true true (c :: w ++ r) = lit " " ++ c :: w ++ squeeze true true r /\
  squeeze false false (c :: w ++ r) = c :: w ++ squeeze true true r.
Proof.
  intros [Hc Hw]%not_existsb Hr. cbn [squeeze app]. by rewrite Hc, squeeze_word, squeeze_between by done.
Qed.

(** The first word: what is skipped, the word, and what follows it. *)
Lemma first_word s :
  skip_space s = [] \/
  exists c w r, skip_space s = c :: w ++ r /\ no_space (c :: w) /\ span_word (skip_space s) = (c :: w, r) /\
    match r with c :: _ => isspace c = true | [] => True end /\ (length r < length s)%nat.
Proof.
  pose proof (skip_space_head s) as Hh. pose proof (skip_space_length s) as Hl.
  destruct (skip_space s) as [|c t] eqn:Es; [by left|right].
  destruct (span_word (c :: t)) as [w r] eqn:E. pose proof (span_word_spec _ _ _ E) as (Ht & Hw & Hr).
  destruct w as [|d w]; [cbn in E; rewrite Hh in E; destruct (span_word t); discriminate|].
  injection Ht as <- ->. exists c, w, r. split_and!; try done.
  rewrite length_cons, length_app in Hl. lia.
Qed.

Lemma words_loop_step fuel s :
  s <> [] -> words_loop (Datatypes.S fuel) s =
    let (w, rest) := span_word (skip_space s) in
    if 0 <? len w then w :: words_loop fuel rest else words_loop fuel rest.
Proof. by destruct s. Qed.

Lemma words_loop_nil fuel : words_loop fuel [] = [].
Proof. by destruct fuel. Qed.

Lemma words_loop_blank fuel s : skip_space s = [] -> words_loop fuel s = [].
Proof.
  intros E. destruct fuel as [|fuel]; [done|]. destruct (decide (s = [])) as [->|Hne]; [done|].
  rewrite words_loop_step, E by done. cbn. apply words_loop_nil.
Qed.

Lemma words_loop_word fuel s c w r :
  span_word (skip_space s) = (c :: w, r) -> words_loop (Datatypes.S fuel) s = (c :: w) :: words_loop fuel r.
Proof.
  intros E. rewrite words_loop_step by (by intros ->). rewrite E.
  by rewrite (proj2 (Z.ltb_lt _ _)) by (rewrite len_cons; pose proof (len_nonneg w); lia).
Qed.

Lemma squeeze_words fuel s :
  (length s <= fuel)%nat -> squeeze true true s = concat (map (fun w => lit " " ++ w) (words_loop fuel s)).
Proof.
  revert s. induction fuel as [|fuel IH]; intros s Hf; [destruct s; [done|simpl in Hf; lia]|].
  rewrite <- squeeze_spaces. destruct (first_word s) as [E|(c & w & r & E & Hw & Es & Hr & Hl)].
  - by rewrite words_loop_blank, E by done.
  - rewrite (words_loop_word _ _ _ _ _ Es), E. destruct (squeeze_next c w r Hw Hr) as [-> _].
    rewrite (IH r) by lia. done.
Qed.

Lemma join_concat sep w l : join sep (w :: l) = w ++ concat (map (fun v => sep ++ v) l).
Proof.
  revert w. induction l as [|v l IH]; intros w; [by rewrite app_nil_r|].
  change (join sep (w :: v :: l)) with (w ++ sep ++ join sep (v :: l)). rewrite IH. cbn [map concat].
  by rewrite <- !app_assoc.
Qed.

Lemma squeeze_is_join s : squeeze false false (skip_space s) = join (lit " ") (str_words s).
Proof.
  unfold str_words. destruct (first_word s) as [E|(c & w & r & E & Hw & Es & Hr & Hl)].
  - by rewrite words_loop_blank, E by done.
  - destruct (length s) as [|n] eqn:En; [lia|].
    rewrite (words_loop_word _ _ _ _ _ Es), E, join_concat. destruct (squeeze_next c w r Hw Hr) as [_ ->].
    rewrite (squeeze_words n) by lia. done.
Qed.

Lemma squeeze_length p b s : len (squeeze p b s) <= len s + (if p then 1 else 0).
Proof.
  revert p b. induction s as [|c s IH]; intros p b; simpl; [case_match; rewrite ?len_nil; lia|].
  rewrite len_cons. destruct (isspace c); [specialize (IH b b); destruct b, p; lia|].
  specialize (IH false true). cbn iota in IH. rewrite len_app, len_cons. destruct p; [change (len [" "%char]) with 1|rewrite len_nil]; lia.
Qed.

Lemma skip_space_len s : len (skip_space s) <= len s.
Proof. unfold len. pose proof (skip_space_length s). lia. Qed.

(** Normalizing the white space of a string joins its words with single spaces. *)
Theorem normalize_space_words (s : bytes) :
  len s < 2 ^ 60 ->
  exec (fn_normalize_space [str s]) [] = (Returns (str (join (lit " ") (str_words s))), []).
Proof.
  intros Hs. apply gives_exec. unfold fn_normalize_space, str at 1. rewrite view_str, <- squeeze_is_join.
  apply gives_buffer. pose proof (squeeze_length false false (skip_space s)). pose proof (skip_space_len s).
  cbn iota in *. lia.
Qed.

(** ** Lines *)

Lemma next_line_count s st n :
  line_count false st n s =
  match next_line s with
  | (l, Some rest) => line_count false false (n + 1) rest
  | (l, None) => if st || (0 <? len l) then n + 1 else n
  end.
Proof.
  revert st n. induction s as [|c s IH]; intros st n; [by destruct st|]. cbn [line_count next_line].
  destruct (is_eol c) eqn:E.
  - destruct (is_byte cr c); [|done]. destruct s as [|d s]; [done|]. cbn [andb].
    by destruct (is_byte lf d).
  - rewrite IH. destruct (next_line s) as [l [rest|]]; [done|].
    rewrite (proj2 (Z.ltb_lt 0 (len (c :: l)))) by (rewrite len_cons; pose proof (len_nonneg l); lia).
    by rewrite orb_true_r.
Qed.

Lemma next_line_length s l rest : next_line s = (l, Some rest) -> (length rest < length s)%nat.
Proof.
  revert l. induction s as [|c s IH]; intros l; [done|]. cbn [next_line].
  destruct (is_eol c); [intros [= _ <-]; repeat case_match; simpl; lia|].
  destruct (next_line s) as [l' [r|]]; [|done]. intros [= _ <-]. specialize (IH _ eq_refl). simpl. lia.
Qed.

Lemma line_count_lines fuel s n :
  (length s < fuel)%nat -> line_count false false n s = n + Z.of_nat (length (lines fuel s)).
Proof.
  revert s n. induction fuel as [|fuel IH]; intros s n Hf; [lia|]. rewrite next_line_count. cbn [lines].
  destruct (next_line s) as [l [rest|]] eqn:E.
  - apply next_line_length in E. rewrite IH by lia. rewrite length_cons. lia.
  - cbn [orb]. destruct (0 <? len l); simpl; lia.
Qed.

(** [line_count] counts what [str_lines] lists. *)
Theorem line_count_exact (s : bytes) h :
  exec (fn_line_count [str s]) h = (Returns (count (Z.of_nat (length (str_lines s)))), h).
Proof.
  unfold fn_line_count, str. rewrite view_str. destruct (Z.eqb_spec (len s) 0) as [E|E].
  - destruct s; [done|]. rewrite len_cons in E. pose proof (len_nonneg s). lia.
  - rewrite exec_ret, (line_count_lines (length s + 1)) by lia. done.
Qed.

(** ** Wrapping *)

(** Reading a text from a column on, no line gets wider than [width]. *)
Fixpoint fits (width col : Z) (s : bytes) : bool :=
  match s with
  | [] => true
  | c :: s => if is_byte lf c then fits width 0 s else (col + 1 <=? width) && fits width (col + 1) s
  end.

Lemma fits_line a l b width col :
  fits width col (a ++ l ++ b) = true -> Forall (fun c => is_byte lf c = false) l -> 0 <= col -> len l <= Z.max 0 width.
Proof.
  revert col. induction a as [|c a IH]; intros col Hf Hl Hc.
  - cbn [app] in Hf. cut (col + len l <= Z.max col width); [pose proof (len_nonneg l); lia|].
    revert col Hf Hc. induction Hl as [|d l Hd Hl IH]; intros col Hf Hc; [rewrite len_nil; lia|].
    cbn [app fits] in Hf. rewrite Hd in Hf. apply andb_true_iff in Hf as [Hw Hf].
    specialize (IH _ Hf). rewrite len_cons. lia.
  - cbn [app fits] in Hf. destruct (is_byte lf c); [by eapply (IH 0)|].
    apply andb_true_iff in Hf as [_ Hf]. eapply (IH (col + 1)); [done..|lia].
Qed.

Lemma space_not_lf c : isspace c = false -> is_byte lf c = false.
Proof. every_byte c; by intros. Qed.

Lemma fits_word width col w rest :
  no_space w -> col + len w <= width -> fits width (col + len w) rest = true -> fits width col (w ++ rest) = true.
Proof.
  revert col. induction w as [|c w IH]; intros col Hw Hl Hf.
  - by rewrite len_nil, Z.add_0_r in Hf.
  - apply not_existsb in Hw as [Hc Hw]. rewrite len_cons in *. pose proof (len_nonneg w).
    cbn [app fits]. rewrite space_not_lf by done. apply andb_true_iff. split; [lia|].
    apply IH; [done|lia|]. by replace (col + 1 + len w) with (col + (len w + 1)) by lia.
Qed.

(** The bytes that are not white space. *)
Fixpoint ink (s : bytes) : bytes :=
  match s with [] => [] | c :: s => if isspace c then ink s else c :: ink s end.

Lemma ink_app a b : ink (a ++ b) = ink a ++ ink b.
Proof. induction a as [|c a IH]; [done|]. simpl. rewrite IH. by destruct (isspace c). Qed.

Lemma ink_word w : no_space w -> ink w = w.
Proof. induction w as [|c w IH]; [done|]. intros [Hc Hw]%not_existsb. simpl. by rewrite Hc, IH. Qed.

Lemma no_space_app a b : no_space (a ++ b) <-> no_space a /\ no_space b.
Proof. unfold no_space. rewrite existsb_app, orb_false_iff. done. Qed.

(** *** Breaking a word *)

(** What writing [out] for a piece of text of the given ink does, from column [col] to
    [col']. *)
Record writes (width col col' : Z) (out word : bytes) : Prop := {
  writes_fits rest : fits width col' rest = true -> fits width col (out ++ rest) = true;
  writes_ink : ink out = word;
  writes_col : 0 <= col' <= width;
}.

Lemma slice_start s n : 0 <= n -> slice s 0 n = take (Z.to_nat n) s.
Proof. done. Qed.

Lemma writes_word width col w :
  no_space w -> 0 <= col -> col + len w <= width -> writes width col (col + len w) w w.
Proof.
  intros Hw Hc Hl. pose proof (len_nonneg w).
  split; [intros rest; by apply fits_word|by apply ink_word|lia].
Qed.

Lemma writes_newline width col col' out word : 
  writes width 0 col' out word -> writes width col col' (lf :: out) word.
Proof. intros [Hf Hi Hc]. split; [done|exact Hi|done]. Qed.

Lemma writes_after width col w col' out word :
  no_space w -> 0 <= col -> col + len w <= width ->
  writes width (col + len w) col' out word -> writes width col col' (w ++ out) (w ++ word).
Proof.
  intros Hw Hc Hl [Hf Hi Hc']. split; [|by rewrite ink_app, Hi, ink_word|done].
  intros rest Hr. rewrite <- app_assoc. apply fits_word; auto.
Qed.

Lemma len_take n s : len (take n s) = Z.min (Z.of_nat n) (len s).
Proof. unfold len. rewrite length_take. lia. Qed.

Lemma len_drop n s : len (drop n s) = len s - Z.min (Z.of_nat n) (len s).
Proof. unfold len. rewrite length_drop. lia. Qed.

Lemma break_word_writes fuel width col word out col' :
  no_space word -> (length word <= fuel)%nat -> 0 <= col < width ->
  break_word fuel width col word = (out, col') -> writes width col col' out word.
Proof.
  revert col word out col'. induction fuel as [|fuel IH]; intros col word out col' Hw Hf Hc; cbn [break_word].
  { destruct word; [|simpl in Hf; lia]. intros [= <- <-]. split; [done|done|lia]. }
  destruct (decide (word = [])) as [->|Hne]; [intros [= <- <-]; split; [done|done|lia]|].
  assert (0 < len word) by (destruct word; [done|]; rewrite len_cons; pose proof (len_nonneg word); lia).
  set (n := Z.min (len word) (width - col)). rewrite slice_start by lia.
  assert (Hd : word = take (Z.to_nat n) word ++ drop (Z.to_nat n) word) by (symmetry; apply take_drop).
  assert (Hn : len (take (Z.to_nat n) word) = n) by (rewrite len_take; lia).
  pose proof Hw as Hw'. rewrite Hd in Hw'. apply no_space_app in Hw' as [Hw1 Hw2].
  destruct word as [|c word]; [done|]. destruct (drop (Z.to_nat n) (c :: word)) as [|d rest] eqn:Ed.
  - intros [= <- <-]. rewrite app_nil_r in Hd. rewrite <- Hd, <- Hn, <- Hd. apply writes_word; [done|lia|].
    rewrite <- Hd in Hn. lia.
  - destruct (break_word fuel width 0 (d :: rest)) as [o l] eqn:Eb. intros [= <- <-].
    rewrite Hd at 2. apply writes_after; [done|lia|lia|]. apply writes_newline.
    apply (IH 0 (d :: rest)); [done| |lia|done].
    apply (f_equal length) in Ed. rewrite length_drop in Ed. simpl in *. lia.
Qed.

Lemma break_word_length fuel width col word :
  0 <= col < width -> (length word <= fuel)%nat -> word <> [] ->
  len (break_word fuel width col word).1 <= 2 * len word - 1.
Proof.
  revert col word. induction fuel as [|fuel IH]; intros col word Hc Hf Hne; [by destruct word; [|simpl in Hf; lia]|].
  assert (0 < len word) by (destruct word; [done|]; rewrite len_cons; pose proof (len_nonneg word); lia).
  cbn [break_word]. destruct word as [|c word]; [done|]. set (n := Z.min (len (c :: word)) (width - col)).
  rewrite slice_start by lia. destruct (drop (Z.to_nat n) (c :: word)) as [|d rest] eqn:Ed.
  - cbn [fst]. rewrite len_take. lia.
  - pose proof (f_equal len Ed) as El. rewrite len_drop in El.
    assert (length (d :: rest) <= fuel)%nat.
    { apply (f_equal length) in Ed. rewrite length_drop in Ed. simpl in *. lia. }
    specialize (IH 0 (d :: rest) ltac:(lia) ltac:(done) ltac:(done)).
    destruct (break_word fuel width 0 (d :: rest)) as [o l]. cbn [fst] in *.
    rewrite len_app, len_cons, len_take. lia.
Qed.

(** *** The words of a text *)

Lemma skip_to_word_spec b s :
  exists b', skip_to_word b s = (b', skip_space s) /\ (b' = true -> b = false -> (length (skip_space s) < length s)%nat).
Proof.
  revert b. induction s as [|c s IH]; intros b; simpl; [exists b; split; [done|congruence]|].
  destruct (isspace c); [|exists b; split; [done|congruence]].
  destruct (IH (b || is_eol c)) as (b' & E & _). exists b'. split; [done|].
  pose proof (skip_space_length s). lia.
Qed.

Lemma ink_skip s : ink (skip_space s) = ink s.
Proof. induction s as [|c s IH]; [done|]. simpl. destruct (isspace c) eqn:E; [done|]. simpl. by rewrite E. Qed.

Lemma writes_space width col col' out word :
  col + 1 <= width -> writes width (col + 1) col' out word -> writes width col col' (lit " " ++ out) word.
Proof.
  intros Hw [Hf Hi Hc]. split; [|exact Hi|done]. intros rest Hr. cbn [app lit Strings.String.list_ascii_of_string fits].
  change (is_byte lf " ") with false. cbn iota. apply andb_true_iff. split; [lia|by apply Hf].
Qed.

(** The word and what separates it from the line so far. *)
Definition wrap_word (width : Z) (break_long : bool) (line_len : Z) (word : bytes) : bytes * Z :=
  let joined := line_len + 1 + len word <=? width in
  let sep := if 0 <? line_len then (if joined then lit " " else [lf]) else [] in
  let line_len := if 0 <? line_len then (if joined then line_len + 1 else 0) else line_len in
  let (out, line_len) :=
    if (len word <=? width) || negb break_long then (word, line_len + len word)
    else break_word (length word) width line_len word in
  (sep ++ out, line_len).

Lemma wrap_loop_step fuel width break_long line_len s :
  s <> [] ->
  wrap_loop (Datatypes.S fuel) width break_long line_len s =
  let (saw_newline, t) := skip_to_word false s in
  let fresh := saw_newline && (0 <? line_len) in
  let line_len := if fresh then 0 else line_len in
  (if fresh then [lf] else []) ++
  match t with
  | [] => []
  | _ => let (word, rest) := span_word t in
         let (out, line_len) := wrap_word width break_long line_len word in
         out ++ wrap_loop fuel width break_long line_len rest
  end.
Proof.
  destruct s as [|c s]; [done|intros _]. cbn [wrap_loop]. destruct (skip_to_word false (c :: s)) as [b t].
  f_equal. destruct t as [|d t]; [done|]. destruct (span_word (d :: t)) as [w r]. unfold wrap_word.
  set (col := if b && (0 <? line_len) then 0 else line_len). clearbody col.
  destruct ((len w <=? width) || negb break_long); [by rewrite <- app_assoc|].
  match goal with |- context [break_word ?f ?x ?y ?z] => destruct (break_word f x y z) as [o l] end.
  by rewrite <- app_assoc.
Qed.

Lemma wrap_word_writes width col word out col' :
  no_space word -> 0 < width -> 0 <= col <= width ->
  wrap_word width true col word = (out, col') -> writes width col col' out word.
Proof.
  intros Hw Hp Hc. unfold wrap_word. pose proof (len_nonneg word).
  set (col0 := if 0 <? col then (if col + 1 + len word <=? width then col + 1 else 0) else col).
  set (sep := if 0 <? col then (if col + 1 + len word <=? width then lit " " else [lf]) else []).
  assert (Hcol : 0 <= col0 /\ (len word <= width -> col0 + len word <= width) /\ (width < len word -> col0 < width)).
  { unfold col0. destruct (Z.ltb_spec 0 col), (Z.leb_spec (col + 1 + len word) width); lia. }
  assert (Hsep : forall o l w, writes width col0 l o w -> writes width col l (sep ++ o) w).
  { intros o l w Ho. unfold sep, col0 in *. destruct (Z.ltb_spec 0 col); [|exact Ho].
    destruct (Z.leb_spec (col + 1 + len word) width); [apply writes_space; [lia|done]|by apply writes_newline]. }
  clearbody sep col0. rewrite orb_false_r.
  destruct (Z.leb_spec (len word) width).
  - intros [= <- <-]. apply Hsep, writes_word; [done|lia|lia].
  - destruct (break_word (length word) width col0 word) as [o l] eqn:E. intros [= <- <-].
    apply Hsep. apply (break_word_writes (length word)); [done|lia|lia|done].
Qed.

(** One turn of the loop: the spaces and the word. *)
Definition wrap_turn (fuel : nat) (width : Z) (break_long : bool) (fresh : bool) (line_len : Z) (s : bytes) : bytes :=
  let col := if fresh then 0 else line_len in
  (if fresh then [lf] else []) ++
  match skip_space s with
  | [] => []
  | _ => let (word, rest) := span_word (skip_space s) in
         let (out, line_len) := wrap_word width break_long col word in
         out ++ wrap_loop fuel width break_long line_len rest
  end.

Lemma wrap_loop_turn fuel width break_long line_len s :
  s <> [] ->
  exists b, wrap_loop (Datatypes.S fuel) width break_long line_len s =
              wrap_turn fuel width break_long (b && (0 <? line_len)) line_len s /\
            (b = true -> (length (skip_space s) < length s)%nat).
Proof.
  intros Hne. rewrite wrap_loop_step by done. destruct (skip_to_word_spec false s) as (b & -> & Hb).
  exists b. split; [done|]. intros E. by apply Hb.
Qed.

Lemma wrap_loop_writes fuel width col s :
  (length s <= fuel)%nat -> 0 < width -> 0 <= col <= width ->
  fits width col (wrap_loop fuel width true col s) = true /\ ink (wrap_loop fuel width true col s) = ink s.
Proof.
  revert col s. induction fuel as [|fuel IH]; intros col s Hf Hp Hc; [destruct s; [done|simpl in Hf; lia]|].
  destruct (decide (s = [])) as [->|Hne]; [done|].
  destruct (wrap_loop_turn fuel width true col s Hne) as (b & -> & _). rewrite <- (ink_skip s).
  generalize (b && (0 <? col)). clear b. intros fresh. unfold wrap_turn. set (col0 := if fresh then 0 else col).
  assert (Hc0 : 0 <= col0 <= width) by (unfold col0; case_match; lia).
  assert (Hstart : forall o, fits width col0 o = true -> fits width col ((if fresh then [lf] else []) ++ o) = true).
  { intros o Ho. unfold col0 in Ho. by destruct fresh. }
  assert (Hink : forall o, ink ((if fresh then [lf] else []) ++ o) = ink o) by (intros o; by destruct fresh).
  rewrite Hink. destruct (first_word s) as [->|(c & w & r & Es & Hw & Esp & Hr & Hl)].
  { split; [by apply Hstart|done]. }
  rewrite Esp, Es. destruct (wrap_word width true col0 (c :: w)) as [out col'] eqn:E.
  apply wrap_word_writes in E as [Hfit Hi Hcol]; [|done..].
  destruct (IH col' r) as [IHf IHi]; [lia|done|done|]. split; [by apply Hstart, Hfit|].
  rewrite ink_app, Hi, IHi. change (c :: w ++ r) with ((c :: w) ++ r). by rewrite ink_app, (ink_word (c :: w)).
Qed.

(** *** The size of the result *)

Lemma wrap_word_length width break_long col word out col' :
  no_space word -> 0 < width -> 0 <= col -> word <> [] ->
  wrap_word width break_long col word = (out, col') -> len out <= 2 * len word /\ 0 <= col'.
Proof.
  intros Hw Hp Hc Hne. assert (0 < len word) by (destruct word; [done|]; rewrite len_cons; pose proof (len_nonneg word); lia).
  unfold wrap_word.
  set (col0 := if 0 <? col then (if col + 1 + len word <=? width then col + 1 else 0) else col).
  set (sep := if 0 <? col then (if col + 1 + len word <=? width then lit " " else [lf]) else []).
  assert (Hs : len sep <= 1) by (unfold sep; repeat case_match; done).
  assert (Hcol : 0 <= col0 /\ (width < len word -> col0 = 0)).
  { unfold col0. destruct (Z.ltb_spec 0 col), (Z.leb_spec (col + 1 + len word) width); lia. }
  clearbody sep col0. destruct Hcol as [Hcol Hlong].
  destruct (Z.leb_spec (len word) width); [|destruct break_long]; cbn [orb negb].
  1, 3: intros [= <- <-]; rewrite len_app; lia.
  destruct (break_word (length word) width col0 word) as [o l] eqn:E. intros [= <- <-].
  pose proof (break_word_length (length word) width col0 word) as Hb. rewrite E in Hb. cbn [fst] in Hb.
  destruct (break_word_writes (length word) width col0 word o l) as [_ _ Hl]; [done|lia|lia|done|].
  rewrite len_app. specialize (Hb ltac:(lia) ltac:(lia) Hne). lia.
Qed.

Lemma wrap_loop_length fuel width break_long col s :
  (length s <= fuel)%nat -> 0 < width -> 0 <= col -> len (wrap_loop fuel width break_long col s) <= 2 * len s.
Proof.
  revert col s. induction fuel as [|fuel IH]; intros col s Hf Hp Hc; [destruct s; [done|simpl in Hf; lia]|].
  destruct (decide (s = [])) as [->|Hne]; [done|].
  destruct (wrap_loop_turn fuel width break_long col s Hne) as (b & -> & Hb).
  assert (Hfresh : b && (0 <? col) = true -> (length (skip_space s) < length s)%nat).
  { intros [E _]%andb_true_iff. by apply Hb. }
  revert Hfresh. generalize (b && (0 <? col)). clear b Hb. intros fresh Hfresh. unfold wrap_turn.
  assert (Hc0 : 0 <= (if fresh then 0 else col)) by (by case_match).
  revert Hc0. generalize (if fresh then 0 else col). intros col0 Hc0.
  assert (Hs : len (if fresh then [lf] else []) + len (skip_space s) <= len s).
  { unfold len in *. destruct fresh; simpl length; [specialize (Hfresh eq_refl)|pose proof (skip_space_length s)]; lia. }
  pose proof (len_nonneg (if fresh then [lf] else [])). rewrite len_app.
  destruct (first_word s) as [E|(c & w & r & Es & Hw & Esp & Hr & Hl)].
  { rewrite E in *. rewrite len_nil in *. lia. }
  rewrite Esp, Es. destruct (wrap_word width break_long col0 (c :: w)) as [out col'] eqn:E.
  apply wrap_word_length in E as [Ho Hcol]; [|done..].
  specialize (IH col' r ltac:(lia) Hp Hcol). rewrite Es in Hs. rewrite len_app in *.
  change (len (c :: w ++ r)) with (len ((c :: w) ++ r)) in Hs. rewrite len_app in Hs. lia.
Qed.

Lemma word_wrap_buffer s width break_long :
  0 < width -> len s < 2 ^ 60 ->
  gives (word_wrap s width break_long) (str (wrap_loop (length s) width break_long 0 s)).
Proof.
  intros Hp Hs. unfold word_wrap. rewrite (proj2 (Z.eqb_neq width 0)) by lia. cbn [orb].
  destruct (Z.eqb_spec (len s) 0) as [E|E].
  - destruct s; [by apply gives_buffer|]. rewrite len_cons in E. pose proof (len_nonneg s). lia.
  - apply gives_buffer. pose proof (wrap_loop_length (length s) width break_long 0 s ltac:(lia) Hp ltac:(lia)). lia.
Qed.

(** *** Leaving long words alone *)

Lemma words_loop_fuel n m s : (length s <= n)%nat -> (length s <= m)%nat -> words_loop n s = words_loop m s.
Proof.
  revert m s. induction n as [|n IH]; intros m s Hn Hm; [destruct s; [by rewrite !words_loop_nil|simpl in Hn; lia]|].
  destruct (first_word s) as [E|(c & w & r & _ & _ & Es & _ & Hl)]; [by rewrite !words_loop_blank by done|].
  destruct m as [|m]; [lia|]. rewrite !(words_loop_word _ _ _ _ _ Es). f_equal. apply IH; lia.
Qed.

Lemma str_words_blank s : skip_space s = [] -> str_words s = [].
Proof. apply words_loop_blank. Qed.

Lemma str_words_word s c w r :
  span_word (skip_space s) = (c :: w, r) -> (length r < length s)%nat -> str_words s = (c :: w) :: str_words r.
Proof.
  intros Es Hl. unfold str_words. destruct (length s) as [|n] eqn:E; [lia|].
  rewrite (words_loop_word _ _ _ _ _ Es). f_equal. apply words_loop_fuel; lia.
Qed.

Lemma str_words_skip a b : skip_space a = skip_space b -> str_words a = str_words b.
Proof.
  intros E. destruct (first_word a) as [Ea|(c & w & r & Ea & _ & Es & _ & Hl)].
  - by rewrite !str_words_blank by congruence.
  - pose proof (skip_space_length b) as Hb. rewrite <- E, Ea, length_cons, length_app in Hb.
    rewrite (str_words_word a c w r) by done. rewrite E in Es. rewrite (str_words_word b c w r); [done|done|lia].
Qed.

Definition starts_blank (s : bytes) : Prop := match s with c :: _ => isspace c = true | [] => True end.

(** A word between blanks. *)
Lemma str_words_between lead c w rest :
  skip_space lead = [] -> no_space (c :: w) -> starts_blank rest ->
  str_words (lead ++ (c :: w) ++ rest) = (c :: w) :: str_words rest.
Proof.
  intros Hl Hw Hr. apply str_words_word; [|rewrite !length_app; simpl; lia].
  replace (skip_space (lead ++ (c :: w) ++ rest)) with ((c :: w) ++ rest); [by apply span_word_app|].
  symmetry. apply not_existsb in Hw as [Hc _]. induction lead as [|d lead IH]; [simpl; by rewrite Hc|].
  simpl in Hl |- *. destruct (isspace d); [by apply IH|done].
Qed.

(** From a column on, the line so far clean of blanks or not: what is beyond the width
    stands in a line without blanks. *)
Fixpoint holds (width col : Z) (clean : bool) (s : bytes) : bool :=
  match s with
  | [] => true
  | c :: s =>
      if is_byte lf c then holds width 0 true s
      else let clean := clean && negb (isspace c) in
           ((col + 1 <=? width) || clean) && holds width (col + 1) clean s
  end.

Lemma holds_segment l b width col clean :
  holds width col clean (l ++ b) = true -> Forall (fun c => is_byte lf c = false) l ->
  col + len l <= Z.max col width \/ clean = true /\ no_space l.
Proof.
  revert col clean. induction l as [|d l IH]; intros col clean Hf Hl; [left; rewrite len_nil; lia|].
  inversion Hl as [|? ? Hd Hl']; subst. cbn [app holds] in Hf. rewrite Hd in Hf.
  apply andb_true_iff in Hf as [Hw Hf]. rewrite len_cons. pose proof (len_nonneg l).
  destruct (IH _ _ Hf Hl') as [H'|[[-> Hs]%andb_true_iff Hn]].
  - apply orb_true_iff in Hw as [Hw|[-> Hs]%andb_true_iff]; [left; lia|].
    destruct (Z.leb_spec (col + 1) width); [left; lia|right].
    destruct l; [|rewrite len_cons in H'; pose proof (len_nonneg l); lia].
    split; [done|]. unfold no_space. simpl. by apply negb_true_iff in Hs as ->.
  - right. split; [done|]. apply negb_true_iff in Hs. unfold no_space in *. simpl. by rewrite Hs.
Qed.

Lemma holds_line a l b width col clean :
  holds width col clean (a ++ l ++ b) = true -> Forall (fun c => is_byte lf c = false) l -> 0 <= col ->
  len l <= Z.max 0 width \/ no_space l.
Proof.
  revert col clean. induction a as [|c a IH]; intros col clean Hf Hl Hc.
  - apply (holds_segment l b) in Hf as [H|[_ H]]; [left; lia|by right|done].
  - cbn [app holds] in Hf. destruct (is_byte lf c); [by eapply (IH 0)|].
    apply andb_true_iff in Hf as [_ Hf]. eapply (IH (col + 1)); [done..|lia].
Qed.

Lemma holds_word width col clean w rest :
  no_space w -> col + len w <= width \/ clean = true ->
  (forall clean, holds width (col + len w) clean rest = true) -> holds width col clean (w ++ rest) = true.
Proof.
  revert col. induction w as [|c w IH]; intros col Hw Hl Hf.
  - specialize (Hf clean). by rewrite len_nil, Z.add_0_r in Hf.
  - apply not_existsb in Hw as [Hc Hw]. rewrite len_cons in *. pose proof (len_nonneg w).
    cbn [app holds]. rewrite space_not_lf, Hc by done. rewrite andb_true_r. apply andb_true_iff. split.
    + apply orb_true_iff. destruct Hl as [Hl| ->]; [left; lia|by right].
    + apply IH; [done|destruct Hl; [left; lia|by right]|]. intros cl. by replace (col + 1 + len w) with (col + (len w + 1)) by lia.
Qed.

(** A word that is not broken: what comes before it, and where it is put. *)
Lemma wrap_word_whole width col word :
  0 <= col -> exists sep col0,
    wrap_word width false col word = (sep ++ word, col0 + len word) /\ 0 <= col0 /\
    skip_space sep = [] /\ (0 < col -> exists c, sep = [c] /\ isspace c = true) /\
    forall clean rest, (col = 0 -> clean = true) ->
      (forall cl, col0 + len word <= width \/ cl = true -> holds width col0 cl (word ++ rest) = true) ->
      holds width col clean (sep ++ word ++ rest) = true.
Proof.
  intros Hc. unfold wrap_word. pose proof (len_nonneg word). rewrite orb_true_r. destruct (Z.ltb_spec 0 col) as [Hp|Hp].
  - destruct (Z.leb_spec (col + 1 + len word) width).
    + exists (lit " "), (col + 1). split_and!; [done|lia|done|by eexists|]. intros clean rest _ Hr.
      cbn [app lit Strings.String.list_ascii_of_string holds]. change (is_byte lf " ") with false. cbn iota.
      apply andb_true_iff. split; [apply orb_true_iff; left; lia|]. apply Hr. by left.
    + exists [lf], 0. split_and!; [done|lia|done|by eexists|]. intros clean rest _ Hr.
      cbn [app holds]. change (is_byte lf lf) with true. cbn iota. apply Hr. by right.
  - assert (col = 0) as -> by lia. exists [], 0. split_and!; [done|lia|done|lia|].
    intros clean rest Hcl Hr. cbn [app]. apply Hr. right. by apply Hcl.
Qed.

(** What the loop writes when it breaks no word. *)
Record wraps (width col : Z) (s out : bytes) : Prop := {
  wraps_words : str_words out = str_words s;
  wraps_ink : ink out = ink s;
  wraps_blank : 0 < col -> starts_blank out;
  wraps_holds clean : (col = 0 -> clean = true) -> holds width col clean out = true;
}.

Lemma ink_blank s : skip_space s = [] -> ink s = [].
Proof. induction s as [|c s IH]; [done|]. simpl. by destruct (isspace c). Qed.

Lemma wraps_start width col fresh s out :
  0 <= col -> (fresh = true -> 0 < col) ->
  wraps width (if fresh then 0 else col) s out -> wraps width col s ((if fresh then [lf] else []) ++ out).
Proof.
  intros Hc Hf [Hw Hi Hb Hh]. destruct fresh; [|by split].
  split.
  - rewrite <- Hw. by apply str_words_skip.
  - by rewrite <- Hi.
  - done.
  - intros clean _. cbn [app holds]. change (is_byte lf lf) with true. by apply Hh.
Qed.

Lemma wrap_turn_whole fuel width col s :
  (forall col r, (length r <= fuel)%nat -> 0 <= col -> wraps width col r (wrap_loop fuel width false col r)) ->
  (length s <= Datatypes.S fuel)%nat -> 0 <= col -> wraps width col s (wrap_turn fuel width false false col s).
Proof.
  intros IH Hf Hc. unfold wrap_turn. cbn [app]. destruct (first_word s) as [E|(c & w & r & Es & Hw & Esp & Hr & Hl)].
  { rewrite E. split; [by rewrite (str_words_blank s)|by rewrite (ink_blank s)|done|done]. }
  rewrite Esp, Es. destruct (wrap_word_whole width col (c :: w) Hc) as (sep & col1 & -> & Hc1 & Hsep & Hlead & Hh).
  pose proof (len_nonneg w). pose proof (len_cons c w). rewrite <- app_assoc.
  destruct (IH (col1 + len (c :: w)) r) as [IHw IHi IHb IHh]; [lia|lia|]. specialize (IHb ltac:(lia)). split.
  - by rewrite str_words_between, IHw, (str_words_word s c w r) by done.
  - rewrite !ink_app, IHi, (ink_blank sep), <- (ink_skip s), Es by done.
    change (c :: w ++ r) with ((c :: w) ++ r). by rewrite ink_app.
  - intros Hp. by destruct (Hlead Hp) as (d & -> & Hd).
  - intros clean Hcl. apply Hh; [done|]. intros cl Hw'. apply holds_word; [done|done|]. intros cl'. apply IHh. lia.
Qed.

Lemma wrap_loop_whole fuel width col s :
  (length s <= fuel)%nat -> 0 <= col -> wraps width col s (wrap_loop fuel width false col s).
Proof.
  revert col s. induction fuel as [|fuel IH]; intros col s Hf Hc; [destruct s; [by split|simpl in Hf; lia]|].
  destruct (decide (s = [])) as [->|Hne]; [by split|].
  destruct (wrap_loop_turn fuel width false col s Hne) as (b & -> & _).
  apply (wraps_start width col (b && (0 <? col)) s (wrap_turn fuel width false false (if b && (0 <? col) then 0 else col) s));
    [done|lia|]. apply wrap_turn_whole; [done|done|case_match; lia].
Qed.

(** Where no word is too long, breaking long words changes nothing. *)
Lemma wrap_loop_short fuel width col s :
  (length s <= fuel)%nat -> Forall (fun w => len w <= width) (str_words s) ->
  wrap_loop fuel width true col s = wrap_loop fuel width false col s.
Proof.
  revert col s. induction fuel as [|fuel IH]; intros col s Hf Hw; [done|].
  destruct (decide (s = [])) as [->|Hne]; [done|]. rewrite !wrap_loop_step by done.
  destruct (skip_to_word_spec false s) as (b & -> & _).
  destruct (first_word s) as [->|(c & w & r & Es & _ & Esp & _ & Hl)]; [done|].
  rewrite Esp, Es. rewrite (str_words_word s c w r) in Hw by done. inversion Hw as [|? ? Hcw Hr]; subst.
  unfold wrap_word. rewrite (proj2 (Z.leb_le _ _)) by done. cbn [orb]. cbv zeta.
  f_equal. f_equal. apply IH; [lia|done].
Qed.

(** Does the optional third argument let long words be broken? *)
Definition breaks (optional : option xvalue) : bool :=
  match optional with Some b => (f64_lit 1 (-9) <? f64_fabs (mod_number_value b))%f64 | None => true end.

(** C20: Wrapping a text at a positive width, with or without the third argument that says
    whether long words are broken, keeps its bytes and its width: what is not white space is
    there unchanged and in order; no part of a line of the result is wider than the width,
    unless long words are not to be broken, when only a part of a single word may be; and the
    words are those of the text whenever none is broken, because none may be or none is too
    long. *)
Theorem word_wrap_width (s : bytes) (width : Z) (n : xvalue) (optional : option xvalue) :
  0 < width -> len s < 2 ^ 60 ->
  mod_is_number n = true -> mod_number_to_index n [] = (Next width, []) ->
  from_option mod_is_number true optional = true ->
  exists out,
    exec (fn_word_wrap ([str s; n] ++ from_option (fun b => [b]) [] optional)) [] = (Returns (str out), []) /\
    ink out = ink s /\
    (forall a l b, out = a ++ l ++ b -> Forall (fun c => is_byte lf c = false) l ->
       len l <= width \/ breaks optional = false /\ no_space l) /\
    (breaks optional = false \/ Forall (fun w => len w <= width) (str_words s) -> str_words out = str_words s).
Proof.
  intros Hp Hs Hn Hw Hb. exists (wrap_loop (length s) width (breaks optional) 0 s).
  destruct (wrap_loop_whole (length s) width 0 s) as [Hwords Hink _ Hh]; [done..|]. split_and!.
  - apply gives_exec. destruct optional as [b|]; cbn [from_option app] in *; unfold fn_word_wrap, str at 1;
      rewrite Hn, ?Hb; (apply (gives_bind _ _ width); [done|]); rewrite view_str; by apply word_wrap_buffer.
  - destruct (breaks optional); [by apply wrap_loop_writes; lia|done].
  - intros a l b E Hl. destruct (breaks optional).
    + destruct (wrap_loop_writes (length s) width 0 s) as [Hf _]; [lia..|].
      rewrite E in Hf. apply fits_line in Hf; [left; lia|done|lia].
    + specialize (Hh true (fun _ => eq_refl)). rewrite E in Hh. apply holds_line in Hh as [H|H]; [left; lia|by right|done|lia].
  - intros [E|E]; [by rewrite E|]. destruct (breaks optional); [by rewrite wrap_loop_short|done].
Qed.

Lemma word_wrap_width_witness :
  (exists out, exec (fn_word_wrap [str (lit "alpha beta  extraordinary"); XInteger 8]) [] = (Returns (str out), []) /\
     ink out = lit "alphabetaextraordinary") /\
  (exists out, exec (fn_word_wrap [str (lit "ab abcdefgh"); XInteger 3; XInteger 0]) [] = (Returns (str out), []) /\
     str_words out = [lit "ab"; lit "abcdefgh"]).
Proof.
  split.
  - destruct (word_wrap_width (lit "alpha beta  extraordinary") 8 (XInteger 8) None) as (out & H1 & H2 & _);
      [lia|vm_compute; reflexivity|reflexivity|vm_compute; reflexivity|reflexivity|].
    exists out. split; [exact H1|exact H2].
  - destruct (word_wrap_width (lit "ab abcdefgh") 3 (XInteger 3) (Some (XInteger 0))) as (out & H1 & _ & _ & H2);
      [lia|vm_compute; reflexivity|reflexivity|vm_compute; reflexivity|reflexivity|].
    exists out. split; [exact H1|]. apply H2. left. vm_compute. reflexivity.
Defined.

(** Not broken, a word may be wider than the width. *)
Example word_wrap_long :
  exec (fn_word_wrap [str (lit "abcdefgh"); XInteger 3; XInteger 0]) [] = (Returns (str (lit "abcdefgh")), []).
Proof. vm_compute. reflexivity. Qed.

Lemma normalize_space_words_witness :
  exec (fn_normalize_space [str (lit "  a  b ")]) [] = (Returns (str (lit "a b")), []).
Proof. refine (normalize_space_words (lit "  a  b ") _). vm_compute. reflexivity. Defined.

Lemma constant_time_eq_exact_witness :
  exec (fn_constant_time_eq [str (lit "secret"); str (lit "secreT")]) [] = (Returns (truth false), []).
Proof. refine (constant_time_eq_exact (lit "secret") (lit "secreT") [] _ _); vm_compute; reflexivity. Defined.
