(* ===== verification/StringSafety.v ===== *)
(** The string module: no store leaves its buffer, and no conversion its range.

    Here are the notions, and the functions one by one; [StringTable] has the theorem about
    the table of the module. *)

From Stdlib Require Import Ascii SpecFloat.
From S2P Require Import Prelude Float64 HostStatus RtValue StringLib StringBasic StringText StringEscape StringSplit StringFormat StringSample StringProofs StringTextProofs.
Open Scope Z_scope.

(** ** Computations whose behaviour is defined *)

Definition safe {A} (m : lib A) (P : A -> Prop) : Prop :=
  forall h, match (m h).1 with Next a => P a | Leave r => r <> Undefined end.

Definition returns (m : lib xvalue) : Prop := safe m (fun _ => True).

Lemma safe_exec m h : returns m -> (exec m h).1 <> Undefined.
Proof. intros H. specialize (H h). unfold exec. by destruct (m h) as [[v|r] h']. Qed.

Lemma safe_ret {A} (a : A) (P : A -> Prop) : P a -> safe (mret a) P.
Proof. intros Ha h. exact Ha. Qed.

Lemma returns_ret v : returns (mret v).
Proof. by apply safe_ret. Qed.

Lemma safe_bind {A B} (m : lib A) (k : A -> lib B) P Q :
  safe m P -> (forall a, P a -> safe (k a) Q) -> safe (m ≫= k) Q.
Proof.
  intros Hm Hk h. unfold mbind, lib_bind. specialize (Hm h). destruct (m h) as [[a|r] h']; [|done].
  by apply Hk.
Qed.

Lemma safe_leave {A} v (P : A -> Prop) : safe (leave v) P.
Proof. by intros h. Qed.

Lemma safe_weaken {A} (m : lib A) (P Q : A -> Prop) : (forall a, P a -> Q a) -> safe m P -> safe m Q.
Proof. intros HPQ Hm h. specialize (Hm h). destruct (m h) as [[a|r] h']; [by apply HPQ|done]. Qed.

Lemma safe_mem_alloc : safe mem_alloc (fun _ => True).
Proof. intros h. unfold mem_alloc. by destruct (attempt h) as [[]?]. Qed.

Lemma safe_optional {A} (m : fallible A) : safe (optional m) (fun _ => True).
Proof. intros h. unfold optional. by destruct (m h). Qed.

Lemma returns_alloc m : returns m -> returns (mem_alloc ≫= fun _ => m).
Proof. intros Hm. eapply safe_bind; [apply safe_mem_alloc|done]. Qed.

Lemma safe_store cap n : 0 <= n <= cap -> cap < 2 ^ 64 -> safe (store_bytes cap n) (fun _ => True).
Proof.
  intros H Hc. unfold store_bytes. rewrite size_t_small, (proj2 (Z.leb_le _ _)) by lia. by apply safe_ret.
Qed.

Lemma returns_store cap n m : 0 <= n <= cap -> cap < 2 ^ 64 -> returns m -> returns (store_bytes cap n ≫= fun _ => m).
Proof. intros H Hc Hm. by eapply safe_bind; [apply safe_store|]. Qed.

Lemma returns_stored cap out : len out + 1 <= cap < 2 ^ 64 -> returns (stored cap out).
Proof.
  intros H. unfold stored. rewrite size_t_small by (pose proof (len_nonneg out); lia).
  rewrite (proj2 (Z.leb_le _ _)) by lia. apply returns_ret.
Qed.

Lemma returns_buffer cap out : len out + 1 <= cap < 2 ^ 64 -> returns (buffer cap out).
Proof. intros H. by apply returns_alloc, returns_stored. Qed.

Lemma returns_unterminated cap out : len out <= cap < 2 ^ 64 -> returns (unterminated cap out).
Proof.
  intros H. apply returns_alloc. rewrite size_t_small by (pose proof (len_nonneg out); lia).
  rewrite (proj2 (Z.leb_le _ _)) by lia. apply returns_ret.
Qed.

Lemma returns_filled cap before n unit after :
  0 <= n -> len before + n * len unit + len after + 1 <= cap < 2 ^ 64 -> returns (filled cap before n unit after).
Proof.
  intros Hn H. apply returns_alloc.
  pose proof (len_nonneg before). pose proof (len_nonneg unit). pose proof (len_nonneg after).
  rewrite size_t_small by nia. rewrite (proj2 (Z.leb_le _ _)) by lia. apply returns_ret.
Qed.

Lemma returns_copy s : len s < 2 ^ 62 -> returns (mod_copy_string s).
Proof. intros H. apply returns_buffer. pose proof (len_nonneg s). lia. Qed.

Lemma safe_copy s : len s < 2 ^ 62 -> safe (mod_copy_string s) (fun _ => True).
Proof. apply returns_copy. Qed.

Section lists.
Context `{Slots}.

Lemma returns_append l s : len s < 2 ^ 62 -> returns (mod_list_append_string l s).
Proof.
  intros Hs. eapply safe_bind; [by apply safe_copy|]. intros item _.
  eapply safe_bind; [apply safe_optional|]. intros pushed _. apply returns_ret.
Qed.

Lemma returns_append_all l parts : Forall (fun s => len s < 2 ^ 62) parts -> returns (append_all l parts).
Proof.
  intros Hp. revert l. induction Hp as [|s parts Hs _ IH]; intros l; [apply returns_ret|].
  eapply safe_bind; [by apply returns_append|]. intros l' _. apply IH.
Qed.

Lemma returns_list parts : Forall (fun s => len s < 2 ^ 62) parts -> returns (string_list parts).
Proof. apply returns_append_all. Qed.

Lemma returns_positions l found : returns (push_positions l found).
Proof.
  revert l. induction found as [|i found IH]; intros l; [apply returns_ret|].
  eapply safe_bind; [|intros l' _; apply IH].
  eapply safe_bind; [apply safe_optional|]. intros pushed _. apply returns_ret.
Qed.
End lists.

(** ** Arguments of a reasonable size *)

(** A string is at most a gigabyte, a number at most a million or so, a list or a vector at
    most that long. *)
Definition MAX_BYTES : Z := 2 ^ 30.
Definition MAX_COUNT : Z := 2 ^ 20.

Definition small_number (v : xvalue) : Prop :=
  exists k, f64_trunc (mod_number_value v) = Some k /\ - MAX_COUNT <= k <= MAX_COUNT.

Definition small_item (v : xvalue) : Prop :=
  match v with XString t => len (view t) <= MAX_BYTES | _ => True end.

Definition small (v : xvalue) : Prop :=
  match v with
  | XString t | XBytes t => len (view t) <= MAX_BYTES
  | XNumber _ => small_number v
  | XInteger n => INT64_MIN <= n <= INT64_MAX /\ small_number v
  | XVector l => Z.of_nat (length l) <= MAX_COUNT
  | XList _ l => Z.of_nat (length l) <= MAX_COUNT /\ Forall small_item l
  | _ => True
  end.

Lemma small_is_number v : mod_is_number v = true -> small v -> small_number v.
Proof. destruct v; try done. by intros _ []. Qed.

Lemma trunc_not_negative x k : (x <=? 0.0)%f64 = false -> f64_trunc x = Some k -> 0 <= k.
Proof.
  intros H E. destruct x as [[]|[]| |[] m e]; simpl in E; try discriminate.
  injection E as <-. destruct (Z.leb_spec 0 e).
  - apply Z.mul_nonneg_nonneg; [lia|]. apply Z.pow_nonneg. lia.
  - apply Z.div_pos; [lia|]. apply Z.pow_pos_nonneg; lia.
Qed.

Lemma safe_to_index v :
  small_number v -> safe (mod_number_to_index v) (fun k => 0 <= k <= MAX_COUNT).
Proof.
  intros (k & E & Hk). unfold mod_number_to_index.
  destruct (mod_number_value v <=? 0.0)%f64 eqn:H; [by apply safe_ret|].
  pose proof (trunc_not_negative _ _ H E). unfold to_size. rewrite E.
  unfold between, SIZE_MAX. rewrite (proj2 (Z.leb_le 0 k)), (proj2 (Z.leb_le k _)) by (unfold MAX_COUNT in *; lia).
  apply safe_ret. lia.
Qed.

Lemma safe_to_signed v :
  small_number v -> safe (mod_number_to_signed v) (fun k => - MAX_COUNT <= k <= MAX_COUNT).
Proof.
  intros (k & E & Hk). unfold mod_number_to_signed, to_signed. rewrite E.
  unfold between, INT64_MIN, INT64_MAX.
  rewrite (proj2 (Z.leb_le _ k)), (proj2 (Z.leb_le k _)) by (unfold MAX_COUNT in *; lia). by apply safe_ret.
Qed.

Lemma normalize_range n k : 0 <= n -> 0 <= normalize n k <= n.
Proof. intros Hn. unfold normalize. repeat (case_match; [|]); lia. Qed.

Lemma len_slice s a n : len (slice s a n) <= Z.max 0 n.
Proof. unfold slice. rewrite len_take. lia. Qed.

Lemma len_slice_le s a n : len (slice s a n) <= len s.
Proof. unfold slice. rewrite len_take, len_drop. pose proof (len_nonneg s). lia. Qed.

Lemma len_map_str f s : len (map f s) = len s.
Proof. apply len_map. Qed.

(** ** The functions, one by one

    A call is split into its cases; those that return a constant are closed at once. *)

Ltac args_small :=
  repeat match goal with
  | H : Forall small (_ :: _) |- _ => apply Forall_cons in H as [? H]
  | H : Forall small [] |- _ => clear H
  end; cbn [small] in *.

Ltac cases :=
  repeat match goal with
  | |- returns (mret _) => apply returns_ret
  | |- returns (match ?x with _ => _ end) => is_var x; destruct x
  | |- returns (if mod_is_number ?v && mod_is_number ?w then _ else _) =>
      destruct (mod_is_number v) eqn:?, (mod_is_number w) eqn:?; cbn [andb]
  | |- returns (if mod_is_number ?v then _ else _) => destruct (mod_is_number v) eqn:?
  end; args_small.

Tactic Notation "call" reference(f) := intros args Hs; unfold f; cases.

(** A number read as an index. *)
Ltac index k :=
  eapply safe_bind; [apply safe_to_index; by apply small_is_number|intros k ?; cbn beta in *].

Ltac bounds := unfold MAX_BYTES, MAX_COUNT in *; lia.

Definition behaves (f : native) : Prop := forall args, Forall small args -> returns (f args).

Lemma lower_safe : behaves fn_lower.
Proof. call fn_lower. apply returns_unterminated. rewrite len_map. pose proof (len_nonneg (view s)). bounds. Qed.

Lemma upper_safe : behaves fn_upper.
Proof. call fn_upper. apply returns_unterminated. rewrite len_map. bounds. Qed.

Lemma reverse_safe : behaves fn_reverse.
Proof. call fn_reverse. apply returns_unterminated. rewrite len_rev. bounds. Qed.

(** *** Case and classes *)

Lemma capitalize_safe : behaves fn_capitalize.
Proof.
  call fn_capitalize. apply returns_buffer. destruct (view s) as [|c v]; [rewrite len_nil; bounds|].
  rewrite !len_cons, len_map in *. pose proof (len_nonneg v). bounds.
Qed.

Lemma len_title b s : len (title_from b s) = len s.
Proof. revert b. induction s as [|c s IH]; intros b; [done|]. simpl. case_match; by rewrite !len_cons, IH. Qed.

Lemma title_safe : behaves fn_title.
Proof. call fn_title. apply returns_buffer. rewrite len_title. pose proof (len_nonneg (view s)). bounds. Qed.

Lemma swapcase_safe : behaves fn_swapcase.
Proof. call fn_swapcase. apply returns_buffer. rewrite len_map. pose proof (len_nonneg (view s)). bounds. Qed.

(** A separator for every character at most. *)
Lemma len_case_loop style p st s : len (case_loop style p st s) <= 2 * len s.
Proof.
  revert p st. induction s as [|c s IH]; intros p st; [done|]. cbn [case_loop].
  destruct (case_step style p st c) as [out st'] eqn:E. rewrite len_app, len_cons. specialize (IH (p + len out) st').
  assert (len out <= 2); [|lia]. revert E. unfold case_step.
  destruct (negb (isalnum c)); [by intros [= <- _]|]. intros [= <- _]. rewrite len_app.
  change (len [_]) with 1. by case_match.
Qed.

Lemma case_convert_returns s style : len s <= MAX_BYTES -> returns (mod_case_convert s style).
Proof.
  intros Hs. apply returns_buffer. pose proof (len_case_loop style 0 (CaseState 0 false false "000") s).
  pose proof (len_nonneg s). bounds.
Qed.

(** *** Slices and edits *)

Section edits.
Context `{VStrLaws, Slots}.

Lemma byte_offset_bound s n : 0 <= mod_utf8_byte_offset s n <= len s.
Proof.
  unfold mod_utf8_byte_offset. pose proof (len_nonneg s).
  destruct (vstr_utf8_byte_offset s n) as [k|] eqn:E; simpl; [by eapply byte_offset_range|lia].
Qed.

Lemma string_byte_offset_bound s n : 0 <= n -> 0 <= mod_string_byte_offset s n <= len s.
Proof.
  intros Hn. unfold mod_string_byte_offset. destruct (vstr_utf8_valid s); [apply byte_offset_bound|].
  pose proof (len_nonneg s). case_match; lia.
Qed.

Lemma unit_count_bound s : 0 <= mod_string_unit_count s <= len s.
Proof.
  unfold mod_string_unit_count. pose proof (len_nonneg s).
  destruct (vstr_utf8_len s) as [k|] eqn:E; simpl; [by eapply utf8_len_range|lia].
Qed.

Lemma returns_slice s a n : len s <= MAX_BYTES -> returns (mod_copy_string (slice s a n)).
Proof. intros Hs. apply returns_copy. pose proof (len_slice_le s a n). bounds. Qed.

Lemma returns_view s : len s <= MAX_BYTES -> returns (mod_copy_string s).
Proof. intros Hs. apply returns_copy. bounds. Qed.

Lemma find_safe : behaves fn_find.
Proof. call fn_find. index k. apply returns_ret. Qed.

Lemma rfind_safe : behaves fn_rfind.
Proof. call fn_rfind. index k. apply returns_ret. Qed.

Lemma char_at_safe : behaves fn_char_at.
Proof. call fn_char_at. index k. destruct (len (view s) <=? k); [apply returns_ret|by apply returns_slice]. Qed.

Lemma byte_at_safe : behaves fn_byte_at.
Proof. call fn_byte_at. index k. destruct (len (view s) <=? k); apply returns_ret. Qed.

Lemma remove_prefix_safe : behaves fn_remove_prefix.
Proof. call fn_remove_prefix. case_match; [by apply returns_slice|by apply returns_view]. Qed.

Lemma remove_suffix_safe : behaves fn_remove_suffix.
Proof. call fn_remove_suffix. case_match; [by apply returns_slice|by apply returns_view]. Qed.

Lemma surround_safe : behaves fn_surround.
Proof.
  call fn_surround; apply returns_buffer; rewrite !len_app;
    pose proof (len_nonneg (view s)); pose proof (len_nonneg (view s0)); bounds.
Qed.

Lemma unwrap_safe : behaves fn_unwrap.
Proof. call fn_unwrap; unfold unwrap; (case_match; [by apply returns_slice|by apply returns_view]). Qed.

Lemma replace_range_safe : behaves fn_replace_range.
Proof.
  call fn_replace_range. apply (safe_bind _ _ (fun k => 0 <= k <= len (view s))).
  { eapply safe_bind; [apply safe_to_signed; by apply small_is_number|]. intros k _. apply safe_ret.
    apply normalize_range, len_nonneg. }
  intros start Hstart. cbn beta in Hstart. index n. apply returns_buffer.
  pose proof (len_nonneg (view s)). pose proof (len_nonneg (view s0)).
  set (m := if len (view s) - start <? n then len (view s) - start else n).
  assert (0 <= m <= len (view s) - start) by (unfold m; destruct (Z.ltb_spec (len (view s) - start) n); lia).
  rewrite size_t_small by bounds. rewrite !len_app.
  pose proof (len_slice (view s) 0 start). pose proof (len_slice (view s) (start + m) (len (view s) - start - m)).
  bounds.
Qed.

Lemma num0_small : small num0.
Proof. exists 0. split; [done|bounds]. Qed.

Lemma empty_small : small (str []).
Proof. cbn [small str]. rewrite view_str. rewrite len_nil. bounds. Qed.

Lemma insert_safe : behaves fn_insert.
Proof.
  call fn_insert. apply replace_range_safe.
  repeat constructor; [done|done|apply num0_small|done].
Qed.

Lemma delete_range_safe : behaves fn_delete_range.
Proof.
  call fn_delete_range. apply replace_range_safe.
  repeat constructor; [done|done|done|apply empty_small].
Qed.

Lemma left_safe : behaves fn_left.
Proof. call fn_left. index k. by apply returns_slice. Qed.

Lemma right_safe : behaves fn_right.
Proof. call fn_right. index k. by apply returns_slice. Qed.

Lemma drop_safe : behaves fn_drop.
Proof. call fn_drop. index k. by apply returns_slice. Qed.

Lemma truncate_returns s suffix n :
  len s <= MAX_BYTES -> len suffix <= MAX_BYTES -> 0 <= n <= MAX_COUNT -> returns (truncate_to s suffix n).
Proof.
  intros Hs Hf Hn. unfold truncate_to. destruct (Z.leb_spec (mod_string_unit_count s) n); [by apply returns_view|].
  set (u := if n <? mod_string_unit_count suffix then n else mod_string_unit_count suffix).
  pose proof (unit_count_bound suffix).
  assert (Hu : 0 <= u <= n) by (unfold u; destruct (Z.ltb_spec n (mod_string_unit_count suffix)); lia).
  pose proof (string_byte_offset_bound s (n - u) ltac:(lia)).
  pose proof (string_byte_offset_bound suffix u ltac:(lia)).
  apply returns_buffer. rewrite len_app.
  pose proof (len_slice s 0 (mod_string_byte_offset s (n - u))).
  pose proof (len_slice suffix 0 (mod_string_byte_offset suffix u)). bounds.
Qed.

Lemma truncate_safe : behaves fn_truncate.
Proof. call fn_truncate; index k; apply truncate_returns; done. Qed.

(** *** Padding *)

Lemma filling_bound fill : 0 < len (filling fill) /\ (len fill <= MAX_BYTES -> len (filling fill) <= MAX_BYTES).
Proof.
  unfold filling, mod_first_utf8_char_len, mod_utf8_next_width.
  destruct (Z.eqb_spec (len fill) 0) as [E|E].
  { rewrite Z.eqb_refl. change (len (lit " ")) with 1. split; [lia|bounds]. }
  pose proof (len_nonneg fill). rewrite (proj2 (Z.leb_gt _ _)) by lia. rewrite drop_0.
  pose proof (len_slice_le fill 0). split; [|intros Hf].
  - destruct (vstr_utf8_next fill) as [[cp n]|] eqn:En; [apply utf8_next_width in En|].
    + destruct (Z.eqb_spec n 0); [lia|]. rewrite (proj2 (Z.eqb_neq n 0)) by done.
      unfold slice. rewrite len_take, drop_0. lia.
    + simpl. unfold slice. rewrite len_take, drop_0. lia.
  - case_match; [change (len (lit " ")) with 1; bounds|]. etrans; [apply len_slice_le|done].
Qed.

Lemma fill_of_bound rest : Forall small rest -> 0 < len (fill_of rest) <= MAX_BYTES.
Proof.
  intros Hr. unfold fill_of. pose proof (filling_bound (match rest with [XString f] => view f | _ => lit " " end)) as [Hp Hb].
  split; [done|]. apply Hb. repeat case_match; args_small; try done; change (len (lit " ")) with 1; bounds.
Qed.

Lemma pad_safe place :
  (forall s fill n, len s <= MAX_BYTES -> 0 < len fill <= MAX_BYTES -> 0 <= n <= MAX_COUNT -> returns (place s fill n)) ->
  behaves (pad place).
Proof.
  intros Hp args Hs. unfold pad. cases.
  match goal with |- context [(length ?l <=? 1)%nat] => destruct (length l <=? 1)%nat; [|apply returns_ret] end.
  match goal with |- context [mod_is_number ?x] => destruct (mod_is_number x) eqn:E; [|apply returns_ret] end.
  cbn [andb]. index k.
  pose proof (unit_count_bound (view s)).
  destruct (Z.leb_spec k (mod_string_unit_count (view s))); [by apply returns_view|].
  apply Hp; [done|by apply fill_of_bound|lia].
Qed.

Lemma pad_size_small s fill n :
  len s <= MAX_BYTES -> 0 < len fill <= MAX_BYTES -> 0 <= n <= MAX_COUNT ->
  pad_size s fill n = len s + n * len fill + 1 /\ len s + n * len fill + 1 < 2 ^ 62.
Proof.
  intros Hs Hf Hn. pose proof (len_nonneg s). unfold pad_size.
  assert (0 <= n * len fill <= 2 ^ 60) by (unfold MAX_BYTES, MAX_COUNT in *; nia).
  rewrite size_t_small by bounds. split; [done|bounds].
Qed.

Lemma pad_left_safe : behaves fn_pad_left.
Proof.
  apply pad_safe. intros s fill n Hs Hf Hn. destruct (pad_size_small s fill n Hs Hf Hn) as [-> Hb].
  apply returns_filled; [lia|]. rewrite len_nil. lia.
Qed.

Lemma pad_right_safe : behaves fn_pad_right.
Proof.
  apply pad_safe. intros s fill n Hs Hf Hn. destruct (pad_size_small s fill n Hs Hf Hn) as [-> Hb].
  apply returns_filled; [lia|]. rewrite len_nil. lia.
Qed.

Lemma center_safe : behaves fn_center.
Proof.
  apply pad_safe. intros s fill n Hs Hf Hn. destruct (pad_size_small s fill n Hs Hf Hn) as [-> Hb].
  apply returns_alloc. pose proof (len_nonneg s).
  rewrite size_t_small by (assert (0 <= n * len fill) by nia; lia).
  rewrite (proj2 (Z.leb_le _ _)) by lia. apply returns_ret.
Qed.

Lemma zfill_safe : behaves fn_zfill.
Proof.
  call fn_zfill. index k. pose proof (unit_count_bound (view s)).
  destruct (Z.leb_spec k (mod_string_unit_count (view s))); [by apply returns_view|].
  apply returns_filled; [lia|]. change (len (lit "0")) with 1. pose proof (len_nonneg (view s)).
  set (sign := match view s with c :: _ => is_byte "+" c || is_byte "-" c | [] => false end).
  destruct sign; [rewrite len_take, len_drop|rewrite len_nil]; bounds.
Qed.

Lemma repeat_safe : behaves fn_str_repeat.
Proof.
  call fn_str_repeat. index k. pose proof (len_nonneg (view s)).
  assert (0 <= k * len (view s) <= 2 ^ 60) by (unfold MAX_BYTES, MAX_COUNT in *; nia).
  apply returns_filled; [lia|]. rewrite len_nil, size_t_small by lia. lia.
Qed.

Lemma shorten_returns s suffix n :
  len s <= MAX_BYTES -> len suffix <= MAX_BYTES -> 0 <= n <= MAX_COUNT -> returns (shorten s suffix n).
Proof.
  intros Hs Hf Hn. unfold shorten. destruct (len s <=? n); [by apply returns_view|].
  destruct (n =? 0); [apply returns_view; rewrite len_nil; bounds|]. destruct (n <=? len suffix); [by apply returns_slice|].
  apply returns_buffer. rewrite len_app, len_rev.
  match goal with |- context [skip_space (rev ?x)] => set (kept := x) end.
  assert (len (skip_space (rev kept)) <= len s).
  { etrans; [apply skip_space_len|]. rewrite len_rev. unfold kept. apply len_slice_le. }
  pose proof (len_nonneg (skip_space (rev kept))). pose proof (len_nonneg suffix). bounds.
Qed.

Lemma shorten_safe : behaves fn_shorten.
Proof. call fn_shorten; index k; apply shorten_returns; done. Qed.

Lemma len_c_string s : len (c_string s) <= len s.
Proof.
  unfold c_string, lit, bytes_string. induction s as [|c s IH]; [done|]. simpl.
  destruct (decide (c = NUL)); [apply len_nonneg|]. cbn. rewrite !len_cons. lia.
Qed.

Lemma safe_arena_cstr s :
  len (view s) <= MAX_BYTES -> safe (mod_view_to_arena_cstr s) (fun text => len text <= len (view s)).
Proof.
  intros Hs. pose proof (len_nonneg (view s)). eapply safe_bind; [apply safe_mem_alloc|intros _ _].
  eapply safe_bind; [apply safe_store; bounds|intros _ _]. apply safe_ret.
  rewrite <- (Strings.String.string_of_list_ascii_of_string (text_bytes s)). apply (len_c_string (view s)).
Qed.

Lemma trim_chars_safe : behaves fn_trim_chars /\ behaves fn_ltrim_chars /\ behaves fn_rtrim_chars.
Proof.
  split_and!; [call fn_trim_chars|call fn_ltrim_chars|call fn_rtrim_chars];
    (eapply safe_bind; [by apply safe_arena_cstr|intros ? _; apply returns_ret]).
Qed.
End edits.

(** *** Lines, words and layout *)

Lemma Forall_len_le parts n s : sum_len parts <= len s -> len s < n -> Forall (fun p => len p < n) parts.
Proof. intros H Hn. apply sum_len_forall. lia. Qed.

Lemma next_line_sum s :
  match next_line s with (l, Some rest) => len l + len rest < len s | (l, None) => len l = len s end.
Proof.
  induction s as [|c s IH]; [done|]. cbn [next_line]. rewrite len_cons. destruct (is_eol c).
  - rewrite len_nil. destruct (is_byte cr c); [|lia]. destruct s as [|d s]; [done|].
    destruct (is_byte lf d); rewrite ?len_cons; lia.
  - destruct (next_line s) as [l [r|]]; rewrite len_cons; lia.
Qed.

Lemma sum_lines fuel s : sum_len (lines fuel s) <= len s.
Proof.
  revert s. induction fuel as [|fuel IH]; intros s; [apply len_nonneg|]. cbn [lines].
  pose proof (next_line_sum s). destruct (next_line s) as [l [r|]].
  - simpl. specialize (IH r). lia.
  - pose proof (len_nonneg l). case_match; simpl; lia.
Qed.

Lemma sum_words fuel s : sum_len (words_loop fuel s) <= len s.
Proof.
  revert s. induction fuel as [|fuel IH]; intros s; [apply len_nonneg|].
  destruct (decide (s = [])) as [->|Hne]; [done|]. rewrite words_loop_step by done.
  destruct (span_word (skip_space s)) as [w r] eqn:E. apply span_word_spec in E as (E & _ & _).
  pose proof (skip_space_len s) as Hl. rewrite E, len_app in Hl. specialize (IH r). pose proof (len_nonneg w).
  case_match; simpl; lia.
Qed.

Lemma next_token_sum d i token s :
  match mod_next_token d i token s with
  | Some (t, rest) => len t + match rest with Some r => len r | None => 0 end <= len token + len s
  | None => True
  end.
Proof.
  revert token. induction s as [|c s IH]; intros token; cbn [mod_next_token].
  - destruct ((0 <? len token) || negb i); [rewrite len_nil; lia|done].
  - rewrite len_cons. destruct (mod_view_contains_char d c).
    + destruct ((0 <? len token) || negb i); [lia|]. specialize (IH []). rewrite len_nil in IH. pose proof (len_nonneg token).
      destruct (mod_next_token d i [] s) as [[t [r|]]|]; lia.
    + specialize (IH (token ++ [c])). rewrite len_app in IH. change (len [c]) with 1 in IH.
      destruct (mod_next_token d i (token ++ [c]) s) as [[t [r|]]|]; lia.
Qed.

Section texts.
Context `{Slots}.

Lemma str_lines_safe : behaves fn_str_lines.
Proof. call fn_str_lines. apply returns_list, (Forall_len_le _ _ (view s)); [apply sum_lines|bounds]. Qed.

Lemma str_words_safe : behaves fn_str_words.
Proof. call fn_str_words. apply returns_list, (Forall_len_le _ _ (view s)); [apply sum_words|bounds]. Qed.
End texts.

Lemma len_chomp s : len (chomp s) <= len s.
Proof.
  unfold chomp. pose proof (len_rev s) as Hr. destruct (rev s) as [|c [|d r]]; [lia|..];
    rewrite ?len_cons, ?len_nil in Hr; repeat case_match; simplify_eq; rewrite ?len_rev, ?len_cons, ?len_nil; try lia;
    pose proof (len_nonneg s); lia.
Qed.

Lemma chomp_safe : behaves fn_chomp.
Proof. call fn_chomp. apply returns_view. pose proof (len_chomp (view s)). bounds. Qed.

Lemma normalize_space_safe : behaves fn_normalize_space.
Proof.
  call fn_normalize_space. apply returns_buffer.
  pose proof (squeeze_length false false (skip_space (view s))). pose proof (skip_space_len (view s)).
  pose proof (len_nonneg (squeeze false false (skip_space (view s)))). cbn iota in *. bounds.
Qed.

Lemma word_wrap_returns s n b : len s <= MAX_BYTES -> 0 <= n <= MAX_COUNT -> returns (word_wrap s n b).
Proof.
  intros Hs Hn. unfold word_wrap. destruct (Z.eqb_spec n 0); [by apply returns_view|]. cbn [orb].
  case_match; [by apply returns_view|]. apply returns_buffer.
  pose proof (wrap_loop_length (length s) n b 0 s ltac:(lia) ltac:(lia) ltac:(lia)).
  pose proof (len_nonneg s). bounds.
Qed.

Lemma word_wrap_safe : behaves fn_word_wrap.
Proof. call fn_word_wrap; index k; by apply word_wrap_returns. Qed.

(** The prefixes [fn_indent] writes are at most those it counts. *)
Lemma mul_bound a b m n : 0 <= a <= m -> 0 <= b <= n -> 0 <= a * b <= m * n.
Proof. nia. Qed.

Lemma indent_count_shift skip n s : indent_count skip n s = n + indent_count skip 0 s.
Proof.
  revert skip n. induction s as [|c s IH]; intros skip n; [simpl; lia|]. cbn [indent_count].
  destruct skip; [apply IH|]. destruct s as [|d s]; [lia|].
  destruct (is_eol c); [|apply IH]. rewrite (IH _ (n + 1)), (IH _ (0 + 1)). lia.
Qed.

Lemma indent_count_nonneg skip n s : 0 <= n -> 0 <= indent_count skip n s.
Proof.
  revert skip n. induction s as [|c s IH]; intros skip n Hn; [done|]. cbn [indent_count].
  destruct skip; [by apply IH|]. destruct s as [|d s]; [done|]. destruct (is_eol c); apply IH; lia.
Qed.

Lemma indent_loop_length prefix first skip start i s :
  0 <= i ->
  len (indent_loop prefix first skip start i s) <=
  len s + (indent_count skip 0 s + (if skip then 1 else if start && (first || (0 <? i)) then 1 else 0)) * len prefix.
Proof.
  pose proof (len_nonneg prefix) as Hp.
  revert skip start i. induction s as [|c s IH]; intros skip start i Hi; [cbn; repeat case_match; nia|].
  cbn [indent_loop indent_count]. rewrite len_cons. destruct skip.
  - rewrite len_cons. set (more := match s with [] => false | _ => true end).
    specialize (IH false more (if more then i + 1 else i) ltac:(by case_match; lia)). cbn iota in IH.
    pose proof (indent_count_nonneg false 0 s ltac:(done)). destruct more; cbn [andb] in IH; [|nia].
    rewrite (proj2 (Z.ltb_lt 0 (i + 1))), orb_true_r in IH by lia. lia.
  - rewrite len_app, len_cons. set (now := if start && (first || (0 <? i)) then 1 else 0).
    assert (Hnow : len (if start && (first || (0 <? i)) then prefix else []) = now * len prefix).
    { unfold now. case_match; rewrite ?len_nil; lia. }
    rewrite Hnow. clearbody now. destruct s as [|d s].
    { destruct (is_byte cr c); [rewrite len_nil; lia|]. rewrite andb_false_r. cbn [indent_loop]. rewrite len_nil. lia. }
    unfold is_eol. destruct (is_byte cr c) eqn:Ecr.
    + rewrite orb_true_r, indent_count_shift. cbn [andb]. destruct (is_byte lf d).
      * specialize (IH true false i Hi). cbn iota in IH. lia.
      * specialize (IH false true (i + 1) ltac:(lia)). cbn [andb] in IH.
        rewrite (proj2 (Z.ltb_lt 0 (i + 1))), orb_true_r in IH by lia. lia.
    + rewrite orb_false_r, andb_true_r. cbn [andb]. destruct (is_byte lf c).
      * rewrite indent_count_shift. specialize (IH false true (i + 1) ltac:(lia)). cbn [andb] in IH.
        rewrite (proj2 (Z.ltb_lt 0 (i + 1))), orb_true_r in IH by lia. lia.
      * specialize (IH false false i Hi). cbn [andb] in IH. lia.
Qed.

Lemma indent_count_bound skip s : indent_count skip 0 s <= len s.
Proof.
  revert skip. induction s as [|c s IH]; intros skip; [done|]. cbn [indent_count]. rewrite len_cons.
  destruct skip; [specialize (IH false); lia|]. destruct s as [|d s]; [rewrite len_nil; lia|].
  destruct (is_eol c); [rewrite indent_count_shift|]; [specialize (IH (is_byte cr c && is_byte lf d))|specialize (IH false)]; lia.
Qed.

Lemma indent_returns s prefix first :
  len s <= MAX_BYTES -> len prefix <= MAX_BYTES -> returns (indent s prefix first).
Proof.
  intros Hs Hp. unfold indent. apply returns_buffer. destruct s as [|c s].
  { cbn [indent_loop indent_count]. change (0 <? len []) with false. cbn iota. change (0 <? 0) with false.
    rewrite andb_false_r, !len_nil. bounds. }
  pose proof (indent_loop_length prefix first false true 0 (c :: s) ltac:(done)) as Hl.
  cbn [andb] in Hl. rewrite orb_false_r in Hl. pose proof (len_nonneg prefix). pose proof (len_nonneg (c :: s)).
  pose proof (indent_count_bound false (c :: s)). rewrite (indent_count_shift false (if 0 <? len (c :: s) then 1 else 0)).
  pose proof (indent_count_nonneg false 0 (c :: s) ltac:(done)).
  set (n := indent_count false 0 (c :: s)) in *.
  rewrite (proj2 (Z.ltb_lt 0 (len (c :: s)))) in * by (rewrite len_cons; pose proof (len_nonneg s); lia).
  rewrite (proj2 (Z.ltb_lt 0 (1 + n))) by lia.
  pose proof (mul_bound (n + 1) (len prefix) (MAX_BYTES + 1) MAX_BYTES).
  pose proof (len_nonneg (indent_loop prefix first false true 0 (c :: s))).
  destruct first; cbn [negb andb]; bounds.
Qed.

Lemma indent_safe : behaves fn_indent.
Proof. call fn_indent; by apply indent_returns. Qed.

Lemma line_and_end_app s : let '(l, e, rest) := line_and_end s in s = l ++ e ++ rest.
Proof.
  induction s as [|c s IH]; [done|]. cbn [line_and_end]. destruct (is_eol c).
  - destruct s as [|d s]; [done|]. by destruct (is_byte cr c && is_byte lf d).
  - destruct (line_and_end s) as [[l e] rest]. cbn [app]. by rewrite <- IH.
Qed.

Lemma dedent_length n fuel s : len (concat (map (dedent_line n) (lines_and_ends fuel s))) <= len s.
Proof.
  revert s. induction fuel as [|fuel IH]; intros s; [apply len_nonneg|]. destruct s as [|c s]; [done|].
  cbn [lines_and_ends]. pose proof (line_and_end_app (c :: s)) as E. destruct (line_and_end (c :: s)) as [[l e] rest].
  cbn [map concat]. rewrite E, !len_app. specialize (IH rest). unfold dedent_line at 1. cbn [fst snd].
  rewrite len_app, len_drop. pose proof (len_nonneg l). lia.
Qed.

Lemma dedent_safe : behaves fn_dedent.
Proof.
  call fn_dedent. case_match; [case_match|]; try by apply returns_view.
  apply returns_buffer. pose proof (dedent_length (Datatypes.S n0) (length (view s)) (view s)).
  match goal with |- context [len ?x + 1 <= _] => pose proof (len_nonneg x) end. bounds.
Qed.

(** *** Encodings *)

Lemma expanded_safe size f k :
  (forall c, len (f c) = size c) -> (forall c, 0 <= size c <= k) -> k <= 6 -> behaves (expanded size f).
Proof.
  intros Hf Hk Hk6 args Hs. unfold expanded. cases. apply returns_buffer.
  pose proof (foldr_bound size k (view s) Hk). rewrite (len_expand size f) by done.
  pose proof (Hk "000"%char). pose proof (len_nonneg (view s)). pose proof (mul_bound k (len (view s)) 6 MAX_BYTES). bounds.
Qed.

Lemma html_escape_safe : behaves fn_html_escape.
Proof. by apply (expanded_safe _ _ 6); [apply html_size_ok|apply html_size_bound|]. Qed.

Lemma json_escape_safe : behaves fn_json_escape.
Proof. by apply (expanded_safe _ _ 6); [apply json_size_ok|apply json_size_bound|]. Qed.

Lemma url_encode_safe : behaves fn_url_encode.
Proof. by apply (expanded_safe _ _ 3); [apply url_size_ok|apply url_size_bound|]. Qed.

Lemma html_unescape_safe : behaves fn_html_unescape.
Proof.
  call fn_html_unescape. apply returns_buffer. pose proof (html_unescape_length 0 (view s)).
  pose proof (len_nonneg (html_unescape 0 (view s))). bounds.
Qed.

Lemma url_decode_safe : behaves fn_url_decode.
Proof.
  call fn_url_decode. apply returns_buffer. pose proof (url_decode_length 0 (view s)).
  pose proof (len_nonneg (url_decode 0 (view s))). bounds.
Qed.

Lemma hex_encode_safe : behaves fn_hex_encode.
Proof. call fn_hex_encode. apply returns_buffer. rewrite len_hex. pose proof (len_nonneg (view s)). bounds. Qed.

Lemma len_hex_decode s out : hex_decode s = Some out -> 2 * len out <= len s.
Proof.
  revert out. induction s as [s IH] using (induction_ltof1 _ (@length ascii)). unfold ltof in IH. intros out.
  destruct s as [|a [|b s]]; [by intros [= <-]|intros [= <-]; rewrite len_cons, !len_nil; lia|].
  cbn [hex_decode]. destruct (hex_byte a b) as [d|]; [|done]. cbn [mbind option_bind].
  destruct (hex_decode s) as [o|] eqn:E; [|done]. intros [= <-]. rewrite !len_cons.
  specialize (IH s ltac:(simpl; lia) _ E). lia.
Qed.

Lemma hex_decode_safe : behaves fn_hex_decode.
Proof.
  call fn_hex_decode. case_match; [apply returns_ret|]. apply returns_alloc.
  destruct (hex_decode (view s)) as [out|] eqn:E; [|apply returns_ret]. apply len_hex_decode in E.
  apply returns_stored. pose proof (len_nonneg out).
  assert (len out <= len (view s) / 2) by (apply Z.div_le_lower_bound; lia).
  pose proof (Z.div_le_upper_bound (len (view s)) 2 (len (view s))). bounds.
Qed.

Section json.
Context `{VStrLaws}.

Lemma write_codepoint_length cap cp : len (mod_utf8_write_codepoint cap cp) <= 4.
Proof.
  unfold mod_utf8_write_codepoint. destruct (tstr_utf8_from_cp cp) as [e|] eqn:E; [|done].
  apply utf8_from_cp_length in E. by case_match.
Qed.

(** What is written is never longer than what was read: a byte stays free for the
    terminator. *)
Lemma len_json_unescape cap n s out :
  len (drop n s) < cap -> json_unescape cap n s = Some out -> len out < cap.
Proof.
  revert cap n out. induction s as [|c s IH]; intros cap n out Hcap.
  { rewrite drop_nil in Hcap. by intros [= <-]. }
  cbn [json_unescape]. destruct n as [|n]; [|by apply IH]. rewrite drop_0, len_cons in Hcap.
  assert (Hemit : forall o m out, len o + len (drop m s) < cap ->
    app o <$> json_unescape (cap - len o) m s = Some out -> len out < cap).
  { intros o m out' Ho E. apply fmap_Some in E as (r & E & ->). apply IH in E; [|lia]. rewrite len_app. lia. }
  assert (Hone : forall d out, app [d] <$> json_unescape (cap - len [d]) 0 s = Some out -> len out < cap).
  { intros d out'. apply Hemit. change (len [d]) with 1. rewrite drop_0. lia. }
  destruct s as [|e more]; [apply Hone|]. destruct (negb (is_byte "\" c)); [apply Hone|].
  rewrite len_cons in Hcap.
  assert (Hu : forall out, app (lit "\u") <$> json_unescape (cap - len (lit "\u")) 1 (e :: more) = Some out -> len out < cap).
  { intros out'. apply Hemit. change (len (lit "\u")) with 2. cbn [drop]. rewrite drop_0. lia. }
  assert (Hd : forall d out, app [d] <$> json_unescape (cap - len [d]) 1 (e :: more) = Some out -> len out < cap).
  { intros d out'. apply Hemit. change (len [d]) with 1. cbn [drop]. rewrite drop_0. lia. }
  destruct (is_byte "u" e); [|destruct (unescape_of e); apply Hd].
  destruct more as [|x [|y [|z [|w after]]]]; try apply Hu.
  destruct (mod_hex4_value x y z w) as [cp|]; [|apply Hu].
  rewrite !len_cons in Hcap. clear Hu Hd Hone IH.
  assert (Hw : forall m cp, len (drop m (e :: x :: y :: z :: w :: after)) <= len after ->
    match mod_utf8_write_codepoint cap cp with
    | [] => None
    | o => app o <$> json_unescape (cap - len o) m (e :: x :: y :: z :: w :: after)
    end = Some out -> len out < cap).
  { intros m p Hm. pose proof (write_codepoint_length cap p) as H4.
    destruct (mod_utf8_write_codepoint cap p); [done|]. apply Hemit. lia. }
  destruct (surrogate cp after) as [joined|]; apply Hw; cbn [drop]; [|by rewrite drop_0].
  rewrite len_drop. pose proof (len_nonneg after). lia.
Qed.

Lemma json_unescape_safe : behaves fn_json_unescape.
Proof.
  call fn_json_unescape. apply returns_alloc.
  destruct (json_unescape (len (view s) + 1) 0 (view s)) as [out|] eqn:E; [|apply returns_ret].
  apply len_json_unescape in E; [|rewrite drop_0; lia]. apply returns_stored.
  pose proof (len_nonneg out). bounds.
Qed.
End json.

(** *** Base64 *)

Section base64.
Context `{Base64}.

(** The encoded text is not much longer than what it encodes. *)
Class Base64Laws := {
  base64_encode_length s e : tn_base64_encode s = Some e -> len e <= 2 * len s + 4;
  base64_decode_length s d : tn_base64_decode s = Some d -> len d <= len s
}.
Context `{!Base64Laws}.

Lemma base64_encode_safe : behaves fn_base64_encode.
Proof.
  call fn_base64_encode. case_match; [apply returns_ret|].
  destruct (tn_base64_encode (view s)) as [b|] eqn:E; [|apply returns_ret].
  apply base64_encode_length in E. apply returns_copy. pose proof (len_c_string b). bounds.
Qed.

Lemma base64_decode_safe : behaves fn_base64_decode.
Proof.
  call fn_base64_decode. case_match; [apply returns_ret|].
  eapply safe_bind; [by apply safe_arena_cstr|intros input Hi; cbn beta in Hi].
  case_match eqn:E; [|apply returns_ret]. apply base64_decode_length in E. apply returns_copy. bounds.
Qed.
End base64.

Section base64url.
Context `{Base64Laws}.

Lemma len_strip s : len (strip_padding s) <= len s.
Proof. induction s as [|c s IH]; [done|]. simpl. case_match; rewrite ?len_cons; lia. Qed.

Lemma base64url_encode_safe : behaves fn_base64url_encode.
Proof.
  call fn_base64url_encode. case_match; [apply returns_ret|].
  destruct (tn_base64_encode (view s)) as [b|] eqn:E; [|apply returns_ret].
  apply base64_encode_length in E. apply returns_buffer. rewrite len_map, len_rev.
  pose proof (len_strip (rev (c_string b))) as Hl. rewrite len_rev in Hl. pose proof (len_c_string b).
  pose proof (len_nonneg (strip_padding (rev (c_string b)))). bounds.
Qed.

Lemma len_copies n u : 0 <= n -> len (copies n u) = n * len u.
Proof.
  intros Hn. unfold copies. rewrite <- (Z2Nat.id n) at 2 by done. induction (Z.to_nat n) as [|m IH]; [done|].
  cbn [replicate concat]. rewrite len_app, IH. lia.
Qed.

Lemma base64url_decode_safe : behaves fn_base64url_decode.
Proof.
  call fn_base64url_decode. case_match; [apply returns_ret|]. case_match; [apply returns_ret|]. apply returns_alloc.
  set (pad := (4 - len (view s) mod 4) mod 4). pose proof (Z.mod_pos_bound (4 - len (view s) mod 4) 4 ltac:(lia)) as Hpad.
  fold pad in Hpad. pose proof (len_nonneg (view s)).
  assert (Hi : len (map from_url_char (view s) ++ copies pad (lit "=")) = len (view s) + pad).
  { rewrite len_app, len_map, len_copies by lia. change (len (lit "=")) with 1. lia. }
  rewrite size_t_small, Hi by bounds. rewrite (proj2 (Z.ltb_ge _ _)) by lia.
  case_match eqn:E; [|apply returns_ret]. apply base64_decode_length in E. apply returns_copy.
  pose proof (len_c_string (map from_url_char (view s) ++ copies pad (lit "="))). bounds.
Qed.
End base64url.

(** *** CSV *)

Lemma csv_escape_safe : behaves fn_csv_escape.
Proof.
  call fn_csv_escape. pose proof (quote_count_bound (view s)). pose proof (len_csv_cell (view s)) as Hc.
  unfold mod_csv_cell_encoded_len in Hc. destruct (existsb needs_quote (view s)); [|by apply returns_view].
  apply returns_buffer. bounds.
Qed.

Lemma len_undouble s : len (undouble s) <= len s.
Proof.
  induction s as [s IH] using (induction_ltof1 _ (@length ascii)). unfold ltof in IH.
  destruct s as [|c [|d s]]; [done|done|]. cbn [undouble].
  destruct (is_byte quote c && is_byte quote d); rewrite !len_cons.
  - specialize (IH s ltac:(simpl; lia)). lia.
  - specialize (IH (d :: s) ltac:(simpl; lia)). rewrite len_cons in IH. cbn [undouble] in IH. lia.
Qed.

Lemma csv_unescape_safe : behaves fn_csv_unescape.
Proof.
  call fn_csv_unescape. destruct (csv_unescape (view s)) as [out|] eqn:E; [|by apply returns_view].
  apply returns_buffer. revert E. unfold csv_unescape. destruct (view s) as [|c r] eqn:Es; [done|].
  destruct (last (c :: r)) as [d|]; [|done]. destruct (Z.ltb_spec (len (c :: r)) 2); [done|].
  cbn [orb]. destruct (negb (is_byte quote c)); [done|]. destruct (negb (is_byte quote d)); [done|].
  cbn [orb]. intros [= <-].
  pose proof (len_undouble (take (length r - 1) r)) as Hu. rewrite len_take in Hu.
  pose proof (len_nonneg (undouble (take (length r - 1) r))). rewrite len_cons in *. unfold len in *. bounds.
Qed.

(** The cells are no longer than what they are read from. *)
Lemma sum_csv_read q k cell s : sum_len (csv_read q k cell s) <= len cell + len s.
Proof.
  revert q k cell. induction s as [|c s IH]; intros q k cell.
  - cbn [csv_read]. pose proof (len_nonneg cell). rewrite len_nil. destruct q; cbn [sum_len foldr]; lia.
  - cbn [csv_read]. rewrite len_cons. pose proof (len_nonneg cell).
    assert (Hc : forall d q' k', sum_len (csv_read q' k' (cell ++ [d]) s) <= len cell + (len s + 1)).
    { intros d q' k'. specialize (IH q' k' (cell ++ [d])). rewrite len_app in IH. change (len [d]) with 1 in IH. lia. }
    assert (Hk : forall q' k', sum_len (csv_read q' k' cell s) <= len cell + (len s + 1)).
    { intros q' k'. specialize (IH q' k' cell). lia. }
    destruct k; [apply Hk|]. destruct q.
    + destruct (is_byte quote c && _); [apply Hc|]. destruct (is_byte quote c); [apply Hk|apply Hc].
    + destruct (is_byte quote c && (len cell =? 0)); [apply Hk|]. destruct (is_byte "," c); [|apply Hc].
      cbn [sum_len foldr]. specialize (IH false false []). rewrite len_nil in IH. unfold sum_len in *. lia.
Qed.

Section csv.
Context `{Slots, CText}.

Lemma csv_split_line_safe : behaves fn_csv_split_line.
Proof.
  call fn_csv_split_line. apply returns_alloc. pose proof (len_nonneg (view s)).
  rewrite csv_cells_fit by (rewrite len_nil, size_t_small by bounds; lia). apply returns_list, sum_len_forall.
  pose proof (sum_csv_read false false [] (view s)) as Hc. rewrite len_nil in Hc. bounds.
Qed.

(** [%g] prints six significant digits, [%lld] an integer of 64 bits. *)
Class CTextLaws := {
  print_g_length x : len (print_g x) <= 13;
  print_d_length k : INT64_MIN <= k <= INT64_MAX -> len (print_d k) <= 20
}.
Context `{!CTextLaws}.

(** A joined list, whose items are at most twice as long as its strings. *)
Lemma joined_returns item size sep items :
  (forall v, small_item v -> len (item v) = size v /\ size v <= 2 * MAX_BYTES + 20) -> len sep <= MAX_BYTES ->
  Z.of_nat (length items) <= MAX_COUNT -> Forall small_item items ->
  let separators := if (0 <? length items)%nat then (Z.of_nat (length items) - 1) * len sep else 0 in
  returns (buffer (separators + total size items + 1) (join sep (map item items))).
Proof.
  intros Hsize Hsep Hn Hi separators. pose proof (len_nonneg sep).
  assert (Ht : sum_len (map item items) = total size items /\
               total size items <= Z.of_nat (length items) * (2 * MAX_BYTES + 20)).
  { clear separators Hn. induction Hi as [|v l Hv _ IH]; [done|]. destruct (Hsize v Hv).
    unfold total, sum_len in *. cbn [map foldr]. rewrite length_cons, Nat2Z.inj_succ. bounds. }
  destruct Ht as [Ht Htb]. apply returns_buffer. rewrite len_join, length_map, Ht.
  assert (Hs : separators = Z.max 0 (Z.of_nat (length items) - 1) * len sep).
  { unfold separators. destruct (Nat.ltb_spec 0 (length items)); [by rewrite Z.max_r by lia|].
    rewrite Z.max_l by lia. lia. }
  rewrite Hs. pose proof (mul_bound (Z.max 0 (Z.of_nat (length items) - 1)) (len sep) MAX_COUNT MAX_BYTES).
  bounds.
Qed.

Lemma csv_item_size v : small_item v -> len (csv_item v) = csv_item_len v /\ csv_item_len v <= 2 * MAX_BYTES + 20.
Proof.
  intros Hv. destruct v; cbn [csv_item csv_item_len small_item] in *; try (rewrite ?len_nil; split; [done|bounds]).
  - split; [done|]. etrans; [apply print_g_length|bounds].
  - split; [done|]. etrans; [apply print_g_length|bounds].
  - rewrite len_csv_cell. split; [done|]. pose proof (csv_cell_bound (view s)). bounds.
Qed.

Lemma csv_join_line_safe : behaves fn_csv_join_line.
Proof.
  call fn_csv_join_line. destruct_and?.
  pose proof (joined_returns csv_item csv_item_len (lit ",") items csv_item_size) as Hj. cbn zeta in Hj.
  change (len (lit ",")) with 1 in Hj. rewrite Z.mul_1_r in Hj. apply Hj; [bounds|done|done].
Qed.
End csv.

(** *** Splitting, replacing and joining *)

Section split.
Context `{VStrLaws, Slots, CText}.

Lemma find_all_safe : behaves fn_find_all /\ behaves fn_find_all_overlapping.
Proof. split; [call fn_find_all|call fn_find_all_overlapping]; (case_match; [apply returns_ret|apply returns_positions]). Qed.

Lemma count_safe : behaves fn_str_count_substr /\ behaves fn_str_count_overlapping.
Proof. split; [call fn_str_count_substr|call fn_str_count_overlapping]; (case_match; apply returns_ret). Qed.

Lemma sum_parts fuel limit sep s : sum_len (parts fuel limit sep s) <= len s.
Proof.
  rewrite <- (join_parts fuel limit sep s) at 2. rewrite len_join. pose proof (len_nonneg sep). nia.
Qed.

Lemma sum_characters fuel limit s :
  sum_len (characters fuel limit s).1 + len (characters fuel limit s).2 <= len s.
Proof.
  revert limit s. induction fuel as [|fuel IH]; intros limit s; [cbn; lia|]. cbn [characters].
  destruct ((len s =? 0) || (limit <=? 0)); [cbn; lia|]. set (n := Z.to_nat (mod_utf8_next_width s 0)).
  specialize (IH (limit - 1) (drop n s)). destruct (characters fuel (limit - 1) (drop n s)) as [l r].
  cbn [fst snd sum_len foldr] in *. unfold sum_len in *. rewrite len_drop in IH. rewrite len_take. lia.
Qed.

Lemma returns_parts l s : sum_len l <= len s -> len s <= MAX_BYTES -> returns (string_list l).
Proof. intros Hl Hs. apply returns_list, sum_len_forall. bounds. Qed.

Lemma sum_len_snoc l p : sum_len (l ++ [p]) = sum_len l + len p.
Proof. induction l as [|q l IH]; [cbn; lia|]. cbn [app sum_len foldr] in *. unfold sum_len in IH. lia. Qed.

Lemma str_split_safe : behaves fn_str_split.
Proof.
  call fn_str_split. case_match; [case_match; [|apply returns_ret]|].
  - apply (returns_parts _ (view s)); [|done].
    pose proof (sum_characters (length (view s)) (no_limit (view s)) (view s)) as Hc.
    pose proof (len_nonneg (characters (length (view s)) (no_limit (view s)) (view s)).2). lia.
  - apply (returns_parts _ (view s)); [apply sum_parts|done].
Qed.

Lemma returns_one s : len s <= MAX_BYTES -> returns (string_list [s]).
Proof. intros Hs. apply (returns_parts _ s); [cbn; lia|done]. Qed.

Lemma split_limit_safe : behaves fn_split_limit.
Proof.
  call fn_split_limit. index k. case_match; [by apply returns_one|]. case_match.
  - case_match; [|apply returns_ret]. pose proof (sum_characters (length (view s)) k (view s)) as Hc.
    destruct (characters (length (view s)) k (view s)) as [l r]. apply (returns_parts _ (view s)); [|done].
    rewrite sum_len_snoc. cbn [fst snd] in Hc. lia.
  - apply (returns_parts _ (view s)); [apply sum_parts|done].
Qed.

Lemma cut_at_forall s width start l : Forall (fun p => len p <= len s) (cut_at s width start l).
Proof.
  revert start. induction l as [|p l IH]; intros start; cbn [cut_at].
  - constructor; [|done]. rewrite len_drop. pose proof (len_nonneg s). lia.
  - constructor; [|done]. rewrite len_take, len_drop. pose proof (len_nonneg s). lia.
Qed.

Lemma length_occurrences fuel advance s sub cursor : (length (occurrences fuel advance s sub cursor) <= fuel)%nat.
Proof.
  revert cursor. induction fuel as [|fuel IH]; intros cursor; cbn [occurrences]; [done|].
  repeat case_match; cbn [length]; [lia| |lia]. specialize (IH (cursor + n + advance)%nat). lia.
Qed.

Lemma rsplit_returns s sep m : len s <= MAX_BYTES -> returns (rsplit s sep m).
Proof.
  intros Hs. unfold rsplit. case_match; [by apply returns_one|]. apply returns_alloc.
  pose proof (length_occurrences (length s + 1) (length sep) s sep 0) as Ho. fold (disjoint_occurrences s sep) in Ho.
  apply returns_store; [unfold len in *; bounds..|]. apply returns_list.
  eapply Forall_impl; [apply cut_at_forall|]. cbn beta. intros p Hp. bounds.
Qed.

Lemma rsplit_safe : behaves fn_rsplit.
Proof.
  call fn_rsplit; (case_match; [apply returns_ret|]); [by apply rsplit_returns|].
  case_match; [by apply returns_one|]. index k. by apply rsplit_returns.
Qed.

Lemma returns_pieces l : Forall (fun p => len p <= MAX_BYTES) l -> returns (string_list l).
Proof. intros Hl. apply returns_list. eapply Forall_impl; [exact Hl|]. cbn beta. intros p Hp. bounds. Qed.

Lemma around_bounds (s : bytes) pos n :
  len s <= MAX_BYTES -> len (take pos s) <= MAX_BYTES /\ len (drop n s) <= MAX_BYTES.
Proof. intros Hs. rewrite len_take, len_drop. pose proof (len_nonneg s). lia. Qed.

Lemma before_and_after_returns s sep pos : len s <= MAX_BYTES -> returns (before_and_after s sep pos).
Proof.
  intros Hs. destruct pos as [pos|]; apply returns_pieces.
  - destruct (around_bounds s pos (pos + length sep) Hs). by repeat constructor.
  - repeat constructor; [done|]. rewrite len_nil. bounds.
Qed.

Lemma partition_returns s sep pos :
  len s <= MAX_BYTES -> len sep <= MAX_BYTES -> returns (mod_partition_result s sep pos).
Proof.
  intros Hs Hsep. destruct pos as [pos|]; apply returns_pieces.
  - destruct (around_bounds s pos (pos + length sep) Hs). by repeat constructor.
  - repeat constructor; try done; rewrite len_nil; bounds.
Qed.

Lemma split_once_safe : behaves fn_split_once /\ behaves fn_rsplit_once.
Proof.
  split; [call fn_split_once|call fn_rsplit_once];
    (case_match; [apply returns_ret|by apply before_and_after_returns]).
Qed.

Lemma partition_safe : behaves fn_str_partition /\ behaves fn_str_rpartition.
Proof.
  split; [call fn_str_partition|call fn_str_rpartition];
    (case_match; [apply returns_ret|by apply partition_returns]).
Qed.

(** The two loops of [fn_replace] agree on the size. *)
Lemma len_replace fuel old new s :
  old <> [] -> (length s < fuel)%nat ->
  len (replace_loop fuel old new s) = len s + replace_count fuel old s * (len new - len old) /\
  0 <= replace_count fuel old s /\ replace_count fuel old s * len old <= len s.
Proof.
  intros Hne. assert (0 < len old) by (destruct old; [done|]; rewrite len_cons; pose proof (len_nonneg old); lia).
  revert s. induction fuel as [|fuel IH]; intros s Hf; [lia|]. cbn [replace_loop replace_count].
  destruct (vstr_find s old) as [p|] eqn:E.
  - pose proof (find_occurs _ _ _ E) as [Hl _]. assert (Hs : s <> []) by (intros ->; unfold len in *; simpl in Hl; lia).
    rewrite sub_drop, Nat2Z.id by (unfold len; lia). destruct s as [|c s]; [done|].
    destruct (IH (drop (p + length old) (c :: s))) as (E1 & E2 & E3).
    { rewrite length_drop. unfold len in *. lia. }
    set (k := replace_count fuel old (drop (p + length old) (c :: s))) in *.
    rewrite len_drop in *. rewrite !len_app, E1, len_take. unfold len in *. nia.
  - pose proof (len_nonneg s). destruct s; [rewrite len_nil in *|]; lia.
Qed.

Lemma replace_safe : behaves fn_replace.
Proof.
  call fn_replace. destruct (Z.eqb_spec (len (view s0)) 0) as [E|E]; [apply returns_ret|].
  case_match; [apply returns_ret|]. apply returns_alloc.
  destruct (len_replace (length (view s) + 1) (view s0) (view s1) (view s)) as (E1 & E2 & E3); [by intros Hn; rewrite Hn in E|lia|].
  rewrite <- E1. set (out := replace_loop (length (view s) + 1) (view s0) (view s1) (view s)) in *.
  set (k := replace_count (length (view s) + 1) (view s0) (view s)) in *.
  pose proof (len_nonneg out). pose proof (len_nonneg (view s1)). pose proof (len_nonneg (view s0)).
  assert (k <= len (view s)) by nia.
  pose proof (mul_bound k (len (view s1)) MAX_BYTES MAX_BYTES).
  rewrite size_t_small by bounds. rewrite Z.eqb_refl. apply returns_ret.
Qed.

Lemma replace_once_safe : behaves fn_replace_once.
Proof.
  call fn_replace_once. case_match; [by apply returns_view|].
  destruct (vstr_find (view s) (view s0)) as [pos|] eqn:E; [|by apply returns_view].
  apply find_occurs in E as [Hl _]. apply returns_buffer. rewrite !len_app, len_take, len_drop.
  pose proof (len_nonneg (view s1)). unfold len in *. bounds.
Qed.

Context `{!CTextLaws}.

Lemma join_item_size v : small_item v -> len (join_item v) = len (join_item v) /\ len (join_item v) <= 2 * MAX_BYTES + 20.
Proof.
  intros Hv. split; [done|]. destruct v; cbn [join_item small_item] in *; rewrite ?len_nil; try bounds;
    (etrans; [apply print_g_length|bounds]).
Qed.

Lemma str_join_safe : behaves fn_str_join.
Proof.
  call fn_str_join. destruct_and?.
  pose proof (joined_returns join_item (fun v => len (join_item v)) (view s) items join_item_size) as Hj. cbn zeta in Hj.
  rewrite <- Z.add_assoc, Z.add_comm. by apply Hj.
Qed.
End split.

(** *** Characters *)

Section characters.
Context `{VStrLaws}.

Lemma chunks_sum fuel valid s : sum_len (chunks fuel valid s) <= len s.
Proof.
  revert s. induction fuel as [|fuel IH]; intros s; [apply len_nonneg|]. cbn [chunks].
  destruct s as [|c s]; [done|]. set (n := Z.to_nat (chunk_width valid (c :: s))).
  specialize (IH (drop n (c :: s))). cbn [sum_len foldr]. unfold sum_len in IH. rewrite len_drop in IH.
  rewrite len_take. lia.
Qed.

Lemma len_concat_filter (f : bytes -> bool) l : len (concat (List.filter f l)) <= sum_len l.
Proof.
  induction l as [|p l IH]; [done|]. cbn [List.filter sum_len foldr]. unfold sum_len in IH.
  pose proof (len_nonneg p). destruct (f p); [cbn [concat]; rewrite len_app|]; lia.
Qed.

Lemma select_chars_returns keep s chars : len s <= MAX_BYTES -> returns (select_chars keep s chars).
Proof.
  intros Hs. apply returns_buffer.
  match goal with |- len (concat (List.filter ?f ?l)) + 1 <= _ < _ => pose proof (len_concat_filter f l); pose proof (len_nonneg (concat (List.filter f l))) end.
  pose proof (chunks_sum (length s) (vstr_utf8_valid s && vstr_utf8_valid chars) s). bounds.
Qed.

Lemma remove_chars_safe : behaves fn_remove_chars.
Proof. call fn_remove_chars. by apply select_chars_returns. Qed.

Lemma keep_chars_safe : behaves fn_keep_chars.
Proof. call fn_keep_chars. by apply select_chars_returns. Qed.

Lemma len_translate from to_ s : len (concat (map (translate_char from to_) s)) <= len s.
Proof.
  induction s as [|c s IH]; [done|]. cbn [map concat]. rewrite len_app, len_cons.
  assert (len (translate_char from to_ c) <= 1); [|lia]. unfold translate_char. by repeat case_match.
Qed.

Lemma translate_safe : behaves fn_translate.
Proof.
  call fn_translate. apply returns_buffer. pose proof (len_translate (view s0) (view s1) (view s)).
  pose proof (len_nonneg (concat (map (translate_char (view s0) (view s1)) (view s)))).
  pose proof (len_nonneg (view s)). pose proof (len_nonneg (view s1)).
  set (k := if len (view s1) =? 0 then 1 else len (view s1)).
  assert (1 <= k <= MAX_BYTES) by (unfold k; destruct (Z.eqb_spec (len (view s1)) 0); bounds).
  pose proof (mul_bound (len (view s)) k MAX_BYTES MAX_BYTES).
  assert (len (view s) <= len (view s) * k) by nia. bounds.
Qed.

Lemma stores_bound fuel valid tabsize col s :
  0 <= tabsize <= MAX_COUNT ->
  0 <= foldr (fun p n => piece_len p + n) 0 (expand_pieces fuel valid tabsize col s) <= len s * (MAX_COUNT + 1).
Proof.
  intros Ht. revert col s. induction fuel as [|fuel IH]; intros col s; [pose proof (len_nonneg s); cbn [expand_pieces foldr]; bounds|].
  cbn [expand_pieces]. destruct s as [|c s]; [done|]. destruct (is_byte tab c).
  - cbn [foldr piece_len]. specialize (IH (size_t (col + tab_spaces tabsize col)) s). rewrite len_cons.
    assert (0 <= tab_spaces tabsize col <= MAX_COUNT).
    { unfold tab_spaces. destruct (Z.eqb_spec tabsize 0); [bounds|]. pose proof (Z.mod_pos_bound col tabsize). bounds. }
    lia.
  - cbn [foldr piece_len]. set (n := Z.to_nat (chunk_width valid (c :: s))).
    specialize (IH (if is_eol c then 0 else col + 1) (drop n (c :: s))). rewrite len_drop in IH. rewrite len_take.
    unfold MAX_COUNT in *. pose proof (len_nonneg (c :: s)). lia.
Qed.

Lemma expand_tabs_returns s n : len s <= MAX_BYTES -> 0 <= n <= MAX_COUNT -> returns (expand_tabs s n).
Proof.
  intros Hs Hn. unfold expand_tabs. apply returns_alloc.
  pose proof (stores_bound (length s) (vstr_utf8_valid s) n 0 s Hn) as Hb.
  set (m := foldr _ 0 (expand_pieces _ _ n 0 s)) in *. clearbody m.
  rewrite (size_t_small m) by bounds. rewrite size_t_small by bounds. rewrite Z.leb_refl. apply returns_ret.
Qed.

Lemma expand_tabs_safe : behaves fn_expand_tabs.
Proof. call fn_expand_tabs; [by apply expand_tabs_returns|]. index k. by apply expand_tabs_returns. Qed.
End characters.
