(* ===== verification/StringUtf8Proofs.v ===== *)
(** The string module: its functions on code points stay inside their buffers, and
    reversing a text twice gives it back. *)

From Stdlib Require Import Ascii SpecFloat.
From S2P Require Import Prelude Float64 HostStatus RtValue StringLib StringBasic StringText StringEscape StringSplit StringFormat StringUtf8 StringSample StringProofs StringTextProofs StringSafety.
Open Scope Z_scope.

(** ** Reversal *)

(** A character: a byte that starts it and the bytes that continue it. *)
Definition character (g : bytes) : Prop :=
  match g with
  | c :: rest => is_continuation c = false /\ Forall (fun d => is_continuation d = true) rest
  | [] => False
  end.

(** A text that does not start in the middle of a character. *)
Definition starts_whole (s : bytes) : Prop := match s with c :: _ => is_continuation c = false | [] => True end.

Lemma reverse_loop_continuation group r l :
  Forall (fun d => is_continuation d = true) r ->
  reverse_loop group (rev r ++ l) = reverse_loop (r ++ group) l.
Proof.
  revert group. induction r as [|c r IH] using rev_ind; intros group Hr; [done|].
  apply Forall_app in Hr as [Hr Hc]. apply Forall_cons in Hc as [Hc _].
  rewrite rev_app_distr. cbn [rev app reverse_loop]. rewrite Hc, IH by done. by rewrite <- app_assoc.
Qed.

Lemma reverse_loop_character g l : character g -> reverse_loop [] (rev g ++ l) = g ++ reverse_loop [] l.
Proof.
  destruct g as [|c r]; [done|]. intros [Hc Hr]. cbn [rev].
  rewrite <- app_assoc, reverse_loop_continuation by done. rewrite app_nil_r. cbn [app reverse_loop].
  by rewrite Hc.
Qed.

Lemma reverse_characters gs : Forall character gs -> utf8_reverse (concat gs) = concat (rev gs).
Proof.
  unfold utf8_reverse. induction gs as [|g gs IH] using rev_ind; intros Hg; [done|].
  apply Forall_app in Hg as [Hgs Hg]. apply Forall_cons in Hg as [Hg _].
  rewrite concat_app. cbn [concat]. rewrite app_nil_r, rev_app_distr, reverse_loop_character, IH by done.
  by rewrite rev_app_distr.
Qed.

Lemma characters_of s :
  exists r gs, s = r ++ concat gs /\ Forall (fun d => is_continuation d = true) r /\ Forall character gs.
Proof.
  induction s as [|c s (r & gs & -> & Hr & Hg)]; [by exists [], []|].
  destruct (is_continuation c) eqn:E.
  - exists (c :: r), gs. split_and!; [done|by constructor|done].
  - exists [], ((c :: r) :: gs). split_and!; [done|done|by constructor].
Qed.

Lemma whole_characters s : starts_whole s -> exists gs, s = concat gs /\ Forall character gs.
Proof.
  intros Hs. destruct (characters_of s) as (r & gs & -> & Hr & Hg).
  destruct r as [|c r]; [by exists gs|]. apply Forall_cons in Hr as [Hc _]. simpl in Hs. congruence.
Qed.

Lemma utf8_reverse_twice s : starts_whole s -> utf8_reverse (utf8_reverse s) = s.
Proof.
  intros (gs & -> & Hg)%whole_characters. rewrite reverse_characters by done.
  rewrite reverse_characters by (by apply Forall_rev). by rewrite rev_involutive.
Qed.

Lemma len_reverse_loop g s : len (reverse_loop g s) = len g + len s.
Proof.
  revert g. induction s as [|c s IH]; intros g; [by rewrite len_nil, Z.add_0_r|]. cbn [reverse_loop].
  rewrite len_cons. destruct (is_continuation c).
  - rewrite IH, len_cons. lia.
  - rewrite len_app, IH, len_cons, len_nil. lia.
Qed.

Lemma len_utf8_reverse s : len (utf8_reverse s) = len s.
Proof. unfold utf8_reverse. by rewrite len_reverse_loop, len_rev. Qed.

(** ** Buffers *)

Section safe.
Context `{VStrLaws, Slots}.

Lemma safe_append out cp n :
  len out <= n -> safe (tstr_utf8_append_cp out cp) (fun o => len o <= n + 4).
Proof.
  intros Ho. eapply safe_bind; [apply safe_mem_alloc|]. intros _ _.
  destruct (tstr_utf8_from_cp cp) as [e|] eqn:E; [|apply safe_leave]. apply utf8_from_cp_length in E.
  apply safe_ret. rewrite len_app. lia.
Qed.

Lemma safe_map_case fuel up rest out n :
  len out <= n -> safe (map_case fuel up rest out) (fun o => len o <= n + 4 * Z.of_nat fuel).
Proof.
  revert rest out n. induction fuel as [|fuel IH]; intros rest out n Ho; cbn [map_case]; [apply safe_ret; lia|].
  destruct rest as [|c rest]; [apply safe_ret; lia|].
  destruct (vstr_utf8_next (c :: rest)) as [[cp w]|]; [|apply safe_leave].
  eapply safe_bind; [exact (safe_append _ _ _ Ho)|]. intros o Hl. cbn beta in Hl.
  apply (safe_weaken _ (fun o => len o <= n + 4 + 4 * Z.of_nat fuel)); [intros a; lia|apply IH; lia].
Qed.

Lemma map_case_returns s up : len s <= MAX_BYTES -> returns (mod_utf8_map_case s up).
Proof.
  intros Hs. apply returns_alloc. eapply safe_bind; [apply (safe_map_case _ _ _ _ 0); done|].
  intros o Ho. cbn beta in Ho. apply returns_copy. unfold len in *. bounds.
Qed.

Ltac guards := repeat (case_match; [apply returns_ret|]).

Lemma utf8_case_safe : behaves fn_utf8_lower /\ behaves fn_utf8_upper.
Proof. split; [call fn_utf8_lower|call fn_utf8_upper]; guards; by apply map_case_returns. Qed.

Lemma comparisons_safe : behaves fn_str_eq_ci /\ behaves fn_str_contains_ci /\ behaves fn_starts_with_ci /\ behaves fn_ends_with_ci.
Proof.
  split_and!; [call fn_str_eq_ci|call fn_str_contains_ci|call fn_starts_with_ci|call fn_ends_with_ci];
    guards; apply returns_ret.
Qed.

Lemma positions_safe : behaves fn_utf8_valid /\ behaves fn_utf8_len /\ behaves fn_utf8_index_of /\ behaves fn_utf8_rindex_of.
Proof.
  split_and!; [call fn_utf8_valid|call fn_utf8_len|call fn_utf8_index_of|call fn_utf8_rindex_of];
    guards; apply returns_ret.
Qed.

Lemma number_or v : negb (mod_is_number v) = false -> mod_is_number v = true.
Proof. by destruct (mod_is_number v). Qed.

Ltac numbers_ok :=
  repeat match goal with
  | H : _ || _ = false |- _ => apply orb_false_elim in H as [? ?]
  | H : negb (mod_is_number _) = false |- _ => apply number_or in H
  end.

Lemma utf8_substr_safe : behaves fn_utf8_substr.
Proof. call fn_utf8_substr; guards; numbers_ok; index k; [|index m]; by apply returns_slice. Qed.

Lemma utf8_slice_returns s units a b : len s <= MAX_BYTES -> returns (utf8_slice s units a b).
Proof.
  intros Hs. unfold utf8_slice. set (to_ := if b <? a then a else b).
  assert (Ht : a <= to_) by (unfold to_; destruct (Z.ltb_spec b a); lia).
  pose proof (byte_offset_mono s a to_ Ht) as Hm. unfold mod_utf8_byte_offset.
  rewrite (proj2 (Z.ltb_ge _ _)) by exact Hm. by apply returns_slice.
Qed.

Lemma safe_unit_index units v : small_number v -> safe (mod_normalize_unit_index units v) (fun _ => True).
Proof. intros Hv. eapply safe_bind; [by apply safe_to_signed|]. intros k _. by apply safe_ret. Qed.

Lemma utf8_slice_safe : behaves fn_utf8_slice.
Proof.
  call fn_utf8_slice; guards; numbers_ok;
    (eapply safe_bind; [apply safe_unit_index; by apply small_is_number|intros k _]).
  - by apply utf8_slice_returns.
  - eapply safe_bind; [apply safe_unit_index; by apply small_is_number|intros m _]. by apply utf8_slice_returns.
Qed.

Lemma utf8_char_at_safe : behaves fn_utf8_char_at.
Proof. call fn_utf8_char_at; guards; numbers_ok; index k. case_match; [apply returns_ret|by apply returns_slice]. Qed.

Lemma codepoint_at_safe : behaves fn_utf8_codepoint_at /\ behaves fn_ord.
Proof.
  split; [call fn_utf8_codepoint_at|call fn_ord]; guards; numbers_ok; try apply returns_ret; index k; apply returns_ret.
Qed.

Lemma safe_codepoints args out n :
  Forall small args -> len out <= n -> safe (from_codepoints args out) (fun o => len o <= n + 4 * Z.of_nat (length args)).
Proof.
  intros Ha. revert out n. induction Ha as [|v args Hv _ IH]; intros out n Ho; cbn [from_codepoints]; [apply safe_ret; lia|].
  case_match; [apply safe_leave|]. numbers_ok.
  eapply safe_bind; [apply safe_to_signed; by apply small_is_number|]. intros cp _.
  case_match; [apply safe_leave|]. eapply safe_bind; [exact (safe_append _ _ _ Ho)|]. intros o Hl. cbn beta in Hl.
  apply (safe_weaken _ (fun o => len o <= n + 4 + 4 * Z.of_nat (length args))); [intros a; rewrite length_cons; lia|apply IH; lia].
Qed.

(** Called with a million arguments at most. *)
Lemma from_codepoint_returns args :
  Forall small args -> Z.of_nat (length args) <= MAX_COUNT -> returns (fn_from_codepoint args).
Proof.
  intros Ha Hn. apply returns_alloc. eapply safe_bind; [apply (safe_codepoints args [] 0); done|].
  intros o Ho. cbn beta in Ho. apply returns_copy. bounds.
Qed.

Lemma utf8_reverse_safe : behaves fn_utf8_reverse.
Proof.
  call fn_utf8_reverse; guards. apply returns_buffer. rewrite len_utf8_reverse. pose proof (len_nonneg (view s)). bounds.
Qed.

Lemma sum_graphemes fuel s : sum_len (graphemes fuel s) <= len s.
Proof.
  revert s. induction fuel as [|fuel IH]; intros s; [apply len_nonneg|]. cbn [graphemes].
  destruct s as [|c s]; [done|]. set (n := Z.to_nat (grapheme_width (c :: s))). specialize (IH (drop n (c :: s))).
  cbn [sum_len foldr]. unfold sum_len in IH. rewrite len_drop in IH. rewrite len_take. lia.
Qed.

Lemma grapheme_split_safe : behaves fn_grapheme_split.
Proof. call fn_grapheme_split; guards. apply returns_list, sum_len_forall. pose proof (sum_graphemes (length (view s)) (view s)). bounds. Qed.

Lemma unicode_normalize_safe : behaves fn_unicode_normalize.
Proof. call fn_unicode_normalize; guards; by apply returns_view. Qed.
End safe.
