(* ===== verification/StringTable.v ===== *)
(** The string module: the formatting functions, the table of the module, and the theorem
    that its functions stay inside their buffers. *)

From Stdlib Require Import Ascii SpecFloat.
From S2P Require Import Prelude Float64 HostStatus RtValue StringLib StringBasic StringText StringEscape StringSplit StringFormat StringUtf8 StringModule FloatExact StringSample StringProofs StringTextProofs StringSafety StringUtf8Proofs.
Open Scope Z_scope.

(** ** Checked stores *)

Lemma put_fits size c st : pos st < size -> put size c st = Some (Cursor (pos st + 1) (out st ++ [c])).
Proof. intros H. unfold put. by rewrite (proj2 (Z.ltb_lt _ _)). Qed.

Lemma foldl_put size s st :
  pos st + len s <= size ->
  foldl (fun st c => st ≫= put size c) (Some st) s = Some (Cursor (pos st + len s) (out st ++ s)).
Proof.
  revert st. induction s as [|c s IH]; intros [p o] H; cbn [foldl].
  - by rewrite len_nil, Z.add_0_r, app_nil_r.
  - rewrite len_cons in *. cbn [mbind option_bind pos out] in *. pose proof (len_nonneg s).
    rewrite put_fits by (cbn; lia). cbn [pos out]. rewrite IH by (cbn; lia). cbn [pos out].
    rewrite <- app_assoc. do 2 f_equal. lia.
Qed.

Lemma put_all_fits size s st :
  pos st + len s <= size -> put_all size s st = Some (Cursor (pos st + len s) (out st ++ s)).
Proof. apply foldl_put. Qed.

Lemma snprintf_fits size room s st :
  0 <= pos st -> len s < room -> pos st + len s + 1 <= size ->
  snprintf size room s st = Some (Cursor (pos st + len s) (out st ++ s)).
Proof.
  intros Hp Hr Hs. unfold snprintf. pose proof (len_nonneg s).
  rewrite (proj2 (Z.eqb_neq room 0)), (proj2 (Z.ltb_lt (len s) room)) by lia.
  by rewrite (proj2 (Z.leb_le _ _)) by lia.
Qed.

(** The room that the functions compute is what is left. *)
Lemma room_left size p : 0 <= p <= size -> size < 2 ^ 64 -> size_t (size - p) = size - p.
Proof. intros Hp Hs. apply size_t_small. lia. Qed.

Lemma returns_finish size st : pos st + 1 <= size -> returns (finish size (Some st)).
Proof. intros H. unfold finish. rewrite (proj2 (Z.leb_le _ _)) by done. apply returns_ret. Qed.

(** ** [join] *)

Section format.
Context `{VStr, CText, !CTextLaws}.

Lemma join_loop_fits size delim (first : bool) l st :
  0 <= pos st -> size < 2 ^ 64 -> (first = true -> l <> []) ->
  pos st + 24 * Z.of_nat (length l) + (Z.of_nat (length l) - (if first then 1 else 0)) * len delim + 1 <= size ->
  exists st', join_loop size delim first l st = Some st' /\ pos st' + 1 <= size.
Proof.
  intros Hp Hsize. revert first st Hp. induction l as [|x l IH]; intros first st Hp Hf Hl; cbn [join_loop].
  { exists st. split; [done|]. destruct first; [by destruct Hf|]. cbn [length] in Hl. lia. }
  rewrite length_cons, Nat2Z.inj_succ in Hl. pose proof (len_nonneg delim). pose proof (print_g_length x).
  pose proof (len_nonneg (print_g x)).
  assert (Hd : exists st1, (if first then Some st else put_all size delim st) = Some st1 /\ 0 <= pos st1 /\
    pos st1 + 24 * Z.succ (Z.of_nat (length l)) + Z.of_nat (length l) * len delim + 1 <= size).
  { destruct first; [exists st; split_and!; [done|done|lia]|].
    rewrite put_all_fits by nia. eexists. split; [done|]. cbn [pos]. lia. }
  destruct Hd as (st1 & -> & Hp1 & Hl1). cbn [mbind option_bind].
  assert (0 <= Z.of_nat (length l) * len delim) by nia.
  rewrite room_left by lia. rewrite snprintf_fits by lia. apply IH; cbn [pos]; [lia|done|lia].
Qed.

Lemma join_safe : behaves fn_join.
Proof.
  call fn_join. destruct (length data =? 0)%nat eqn:E; [apply returns_ret|]. apply Nat.eqb_neq in E.
  apply returns_alloc. pose proof (len_nonneg (view s)).
  pose proof (mul_bound (Z.of_nat (length data) - 1) (len (view s)) MAX_COUNT MAX_BYTES ltac:(bounds) ltac:(bounds)).
  rewrite size_t_small by bounds.
  edestruct (join_loop_fits (Z.of_nat (length data) * 24 + (Z.of_nat (length data) - 1) * len (view s) + 1) (view s) true data (Cursor 0 []))
    as (st & -> & Hst); [cbn; lia|bounds|by intros _ ->|cbn [pos]; lia|].
  rewrite (proj2 (Z.leb_le _ _)) by lia. apply returns_ret.
Qed.

(** ** Conversions *)

Lemma safe_parse s : len s <= MAX_BYTES -> safe (mod_view_to_parse_cstr s) (fun _ => True).
Proof.
  intros Hs. pose proof (len_nonneg s). unfold mod_view_to_parse_cstr. destruct (Z.leb_spec (len s + 1) 128).
  - eapply safe_bind; [apply safe_store; lia|]. intros _ _. by apply safe_ret.
  - eapply safe_bind; [apply safe_optional|]. intros [b|] _; [|by apply safe_ret].
    eapply safe_bind; [apply safe_store; bounds|]. intros _ _. by apply safe_ret.
Qed.

Lemma safe_to_double s x : len s <= MAX_BYTES -> safe (mod_to_double_v s x) (fun _ => True).
Proof. intros Hs. eapply safe_bind; [by apply safe_parse|]. intros b _. by apply safe_ret. Qed.

Lemma to_num_safe : behaves fn_to_num.
Proof. call fn_to_num. eapply safe_bind; [by apply safe_to_double|]. intros v _. apply returns_ret. Qed.

Lemma to_int_safe : behaves fn_to_int.
Proof.
  call fn_to_int. eapply safe_bind; [|intros v _; apply returns_ret].
  eapply safe_bind; [by apply safe_parse|]. intros b _. by apply (safe_ret _ (fun _ => True)).
Qed.

Lemma to_str_safe : behaves fn_to_str.
Proof.
  call fn_to_str. apply returns_buffer. pose proof (print_g_length number). pose proof (len_nonneg (print_g number)). lia.
Qed.

Lemma safe_to_doubles l : Forall (fun t => len t <= MAX_BYTES) l -> safe (to_doubles l) (fun _ => True).
Proof.
  induction 1 as [|t l Ht _ IH]; [by apply safe_ret|]. eapply safe_bind; [by apply safe_to_double|]. intros v _.
  eapply safe_bind; [apply IH|]. intros r _. by apply safe_ret.
Qed.

(** Tokens are parts of the input, and no more than its bytes and one. *)
Lemma next_token_len delimiters ignore_empty s : forall token t rest,
  mod_next_token delimiters ignore_empty token s = Some (t, rest) ->
  len t + len (default [] rest) <= len token + len s.
Proof.
  induction s as [|c s IH]; intros token t rest; cbn [mod_next_token].
  - case_match; [|done]. intros [= <- <-]. cbn. lia.
  - rewrite len_cons. pose proof (len_nonneg token). case_match; [case_match|].
    + intros [= <- <-]. change (default [] (Some s)) with s. lia.
    + intros H'%IH. rewrite len_nil in H'. lia.
    + intros H'%IH. rewrite len_app in H'. change (len [c]) with 1 in H'. lia.
Qed.

Lemma tokens_loop_bounds fuel delimiters ignore_empty : forall input,
  (length (tokens_loop fuel delimiters ignore_empty input) <= fuel)%nat /\
  Forall (fun t => len t <= len (default [] input)) (tokens_loop fuel delimiters ignore_empty input).
Proof.
  induction fuel as [|fuel IH]; intros [s|]; cbn [tokens_loop]; try (by split; [cbn; lia|]).
  destruct (mod_next_token delimiters ignore_empty [] s) as [[t rest]|] eqn:E; [|by split; [cbn; lia|]].
  apply next_token_len in E. rewrite len_nil in E. destruct (IH rest) as [Hl Hf]. split; [cbn [length]; lia|].
  pose proof (len_nonneg t). pose proof (len_nonneg (default [] rest)).
  change (default [] (Some s)) with s. constructor; [lia|].
  eapply Forall_impl; [exact Hf|]. intros p Hp. cbn beta in *. lia.
Qed.

Lemma split_safe : behaves fn_split.
Proof.
  call fn_split. cbv zeta. case_match; [|apply returns_ret]. apply returns_alloc.
  destruct (tokens_loop_bounds (length (view s) + 1) (view s0) true (Some (view s))) as [Hn Hl].
  fold (tokens (view s) (view s0)) in Hn, Hl. unfold mod_count_tokens. rewrite Nat2Z.id, take_ge by done.
  assert (len (view s) <= MAX_BYTES) as Hs1 by done.
  apply returns_store; [unfold len in *; bounds..|].
  eapply safe_bind; [apply safe_to_doubles|intros l _; apply returns_ret].
  eapply Forall_impl; [exact Hl|]. change (default [] (Some (view s))) with (view s). intros t Ht. cbn beta in *. lia.
Qed.

(** ** [str_format] *)

Definition sizes (l : list xvalue) : Z := foldr (fun v n => mod_value_string_len v + 16 + n) 0 l.

Lemma value_len_range v : small v -> 0 <= mod_value_string_len v <= MAX_BYTES.
Proof.
  intros Hv. destruct v; cbn [mod_value_string_len small] in *; try bounds.
  - pose proof (print_g_length number). pose proof (len_nonneg (print_g number)). bounds.
  - destruct Hv as [Hv _]. pose proof (print_d_length integer Hv). pose proof (len_nonneg (print_d integer)). bounds.
  - pose proof (len_nonneg (view s)). bounds.
Qed.

Lemma sizes_range l : Forall small l -> 0 <= sizes l <= Z.of_nat (length l) * (MAX_BYTES + 16).
Proof.
  induction 1 as [|v l Hv _ IH]; [done|]. pose proof (value_len_range v Hv).
  unfold sizes in *. cbn [foldr]. rewrite length_cons, Nat2Z.inj_succ. unfold MAX_BYTES in *. lia.
Qed.

Lemma sizes_drop l k v :
  l !! k = Some v -> sizes (drop k l) = mod_value_string_len v + 16 + sizes (drop (Datatypes.S k) l).
Proof. intros E. by rewrite (drop_S _ _ _ E). Qed.

Lemma sizes_drop_nonneg l k : Forall small l -> 0 <= sizes (drop k l).
Proof. intros Hl. by apply sizes_range, Forall_drop. Qed.

Lemma sizes_drop_mono l k : Forall small l -> sizes (drop (Datatypes.S k) l) <= sizes (drop k l).
Proof.
  intros Hl. destruct (l !! k) as [v|] eqn:E.
  - rewrite (sizes_drop _ _ _ E). pose proof (Forall_lookup_1 _ _ _ _ Hl E) as Hv. apply value_len_range in Hv. lia.
  - apply lookup_ge_None in E. rewrite !drop_ge by lia. done.
Qed.

Lemma write_value_fits size v st :
  small v -> 0 <= pos st -> size < 2 ^ 64 -> pos st + mod_value_string_len v + 1 <= size ->
  exists st', mod_write_value_string size (size_t (size - pos st)) v st = Some st' /\
              0 <= pos st' <= pos st + mod_value_string_len v.
Proof.
  intros Hv Hp Hs Hl. pose proof (value_len_range v Hv). rewrite room_left by lia.
  destruct v; cbn [mod_write_value_string mod_value_string_len] in *; try (exists st; split; [done|lia]).
  - rewrite (proj2 (Z.leb_le 4 _)) by lia. rewrite put_all_fits by (change (len (lit "null")) with 4; lia).
    eexists. split; [done|]. cbn [pos]. change (len (lit "null")) with 4. lia.
  - rewrite snprintf_fits by lia. eexists. split; [done|]. cbn [pos]. lia.
  - rewrite snprintf_fits by lia. eexists. split; [done|]. cbn [pos]. lia.
  - rewrite Z.min_l by lia. pose proof (len_slice_le (view s) 0 (len (view s))).
    pose proof (len_nonneg (slice (view s) 0 (len (view s)))).
    rewrite put_all_fits by lia. eexists. split; [done|]. cbn [pos]. lia.
Qed.

Lemma placeholder_plain s :
  Forall (fun c => isdigit c = false) s -> placeholder s = None \/ placeholder s = Some (0%nat, 0).
Proof.
  intros Hs. unfold placeholder. destruct s as [|c s]; [by left|]. inversion Hs as [|? ? Hc _]; subst.
  cbn [index_digits]. rewrite Hc. destruct (is_byte "}" c); [by right|by left].
Qed.

Lemma str_format_fits cap args k skip fmt st :
  Forall small args -> Forall (fun c => isdigit c = false) fmt ->
  0 <= pos st -> cap < 2 ^ 64 ->
  pos st + len fmt + sizes (drop k args) + 1 <= cap ->
  exists st', str_format_loop cap args (Z.of_nat k) skip fmt st = Some st' /\ pos st' + 1 <= cap.
Proof.
  intros Ha. revert k skip st. induction fmt as [|c fmt IH]; intros k skip st Hf Hp Hs Hl; cbn [str_format_loop].
  { exists st. pose proof (sizes_drop_nonneg args k Ha). rewrite len_nil in Hl. split; [done|lia]. }
  inversion Hf as [|? ? _ Hf']; subst. rewrite len_cons in Hl. pose proof (len_nonneg fmt).
  pose proof (sizes_drop_nonneg args k Ha).
  destruct skip as [|skip]; [|apply IH; [done|done|done|lia]].
  assert (Hput : forall m, exists st', (st ← put cap c st; str_format_loop cap args (Z.of_nat k) m fmt st) = Some st' /\ pos st' + 1 <= cap).
  { intros m. rewrite put_fits by lia. apply IH; cbn [pos]; [done|lia|done|lia]. }
  case_match; [apply Hput|]. destruct (if is_byte "{" c then placeholder fmt else None) as [[digits index]|] eqn:Eph; [|apply Hput].
  assert (digits = 0%nat) as ->.
  { destruct (is_byte "{" c); [|done]. destruct (placeholder_plain fmt Hf') as [E|E]; rewrite E in Eph; congruence. }
  change (0 <? 0)%nat with false. cbn iota. replace (Z.of_nat k + 1) with (Z.of_nat (Datatypes.S k)) by lia.
  rewrite Nat2Z.id. pose proof (sizes_drop_mono args k Ha).
  destruct (Z.of_nat k <? Z.of_nat (length args)) eqn:Ek; [|apply IH; [done|done|done|lia]].
  destruct (args !! k) as [v|] eqn:Ev; [|apply IH; [done|done|done|lia]].
  rewrite (sizes_drop _ _ _ Ev) in Hl. pose proof (sizes_drop_nonneg args (Datatypes.S k) Ha).
  pose proof (Forall_lookup_1 _ _ _ _ Ha Ev) as Hv.
  destruct (write_value_fits cap v st Hv Hp Hs) as (st' & -> & Hp'); [lia|].
  apply IH; [done|lia|done|lia].
Qed.

(** Without indices in its placeholders. *)
Definition plain_format (args : list xvalue) : Prop :=
  match args with XString fmt :: _ => Forall (fun c => isdigit c = false) (view fmt) | _ => True end.

Lemma str_format_returns args :
  Forall small args -> plain_format args -> Z.of_nat (length args) <= MAX_COUNT -> returns (fn_str_format args).
Proof.
  intros Ha Hf Hn. unfold fn_str_format. destruct args as [|v rest]; [apply returns_ret|].
  destruct v as [| | | |fmt| | | | | | | | |]; try apply returns_ret. apply returns_alloc.
  pose proof Ha as Ha'. apply Forall_cons in Ha' as [Hfmt Hr]. cbn [small] in Hfmt.
  fold (sizes rest). pose proof (sizes_range rest Hr). pose proof (len_nonneg (view fmt)).
  rewrite length_cons, Nat2Z.inj_succ in Hn.
  assert (sizes rest <= 2 ^ 52) by (unfold MAX_BYTES, MAX_COUNT in *; lia).
  rewrite size_t_small by bounds.
  destruct (str_format_fits (len (view fmt) + 1 + sizes rest) (XString fmt :: rest) 1 0 (view fmt) (Cursor 0 []))
    as (st & E & Hst); [done|done|done|bounds|cbn [pos drop]; rewrite drop_0; lia|].
  change (Z.of_nat 1) with 1 in E. rewrite E. by apply returns_finish.
Qed.

(** Formatting with placeholders that name no index stays inside the buffer that was
    measured for the arguments, whatever they are. *)
Theorem str_format_in_bounds (args : list xvalue) (h : heap) :
  Forall small args -> plain_format args -> Z.of_nat (length args) <= MAX_COUNT ->
  (exec (fn_str_format args) h).1 <> Undefined.
Proof. intros Ha Hf Hn. by apply safe_exec, str_format_returns. Qed.
End format.

(** ** The table *)

Lemma len_small_trunc s : len s <= MAX_BYTES -> f64_trunc (f64_of_Z (len s)) = Some (len s).
Proof. intros Hs. apply trunc_of_Z. pose proof (len_nonneg s). bounds. Qed.

Lemma safe_slice_index s n k :
  f64_trunc n = Some k -> INT64_MIN <= k <= INT64_MAX -> safe (slice_index s n) (fun _ => True).
Proof.
  intros E Hk. apply (safe_bind _ _ (fun _ => True)); [|intros i _; by apply safe_ret].
  unfold to_signed, between. rewrite E.
  rewrite (proj2 (Z.leb_le _ k)), (proj2 (Z.leb_le k _)) by lia. by apply safe_ret.
Qed.

Create HintDb string_safe discriminated.

Section table.
Context `{VStrLaws, CText, !CTextLaws, Base64, !Base64Laws, Slots}.

Lemma slice_between_returns s a b j k :
  len s <= MAX_BYTES -> f64_trunc a = Some j -> f64_trunc b = Some k ->
  - MAX_BYTES <= j <= MAX_BYTES -> - MAX_BYTES <= k <= MAX_BYTES -> returns (slice_between s a b).
Proof.
  intros Hs Ea Eb Hj Hk. unfold slice_between.
  eapply safe_bind; [eapply safe_slice_index; [exact Ea|]; unfold INT64_MIN, INT64_MAX; bounds|intros start _].
  eapply safe_bind; [eapply safe_slice_index; [exact Eb|]; unfold INT64_MIN, INT64_MAX; bounds|intros to_ _].
  by apply returns_slice.
Qed.

Lemma slice_safe : behaves fn_slice.
Proof.
  call fn_slice.
  - destruct (small_is_number x) as (k & Ek & Hk); [done..|]. pose proof (len_nonneg (view s)).
    eapply slice_between_returns; [done|exact Ek|by apply len_small_trunc|bounds|bounds].
  - destruct (small_is_number x) as (j & Ej & Hj); [done..|].
    destruct (small_is_number x0) as (k & Ek & Hk); [done..|].
    eapply slice_between_returns; [done|exact Ej|exact Ek|bounds|bounds].
Qed.

(** Functions that neither allocate nor convert. *)
Lemma plain_safe :
  Forall behaves [fn_size; fn_is_empty; fn_is_blank; fn_is_ascii; fn_is_hex; fn_is_digit; fn_is_alpha;
    fn_is_alnum; fn_is_space; fn_is_printable; fn_is_lower; fn_is_upper; fn_trim; fn_ltrim; fn_rtrim;
    fn_contains; fn_starts_with; fn_ends_with; fn_index_of; fn_last_index_of; fn_constant_time_eq;
    fn_token_count; fn_to_bool; fn_line_count].
Proof.
  repeat constructor; intros args Hs; unfold fn_size, fn_is_empty, fn_is_blank, fn_is_ascii, fn_is_hex, fn_is_digit,
    fn_is_alpha, fn_is_alnum, fn_is_space, fn_is_printable, fn_is_lower, fn_is_upper, fn_trim, fn_ltrim, fn_rtrim,
    fn_contains, fn_starts_with, fn_ends_with, fn_index_of, fn_last_index_of, fn_constant_time_eq, fn_token_count,
    fn_to_bool, fn_line_count, all_in; cases; case_match; apply returns_ret.
Qed.

Lemma bytes_safe : behaves fn_bytes.
Proof.
  call fn_bytes. eapply safe_bind; [apply safe_optional|]. intros b _. case_match; [apply returns_ret|].
  pose proof (len_nonneg (view s)). destruct (0 <? len (view s)).
  - apply returns_store; [bounds..|apply returns_ret].
  - apply returns_ret.
Qed.

(** With a bound on the number of arguments, too. *)
Definition checked (f : native) : Prop :=
  forall args, Forall small args -> Z.of_nat (length args) <= MAX_COUNT -> returns (f args).

Lemma behaves_checked f : behaves f -> checked f.
Proof. intros Hf args Ha _. by apply Hf. Qed.

Lemma cases_safe :
  behaves fn_snake_case /\ behaves fn_kebab_case /\ behaves fn_camel_case /\ behaves fn_pascal_case /\ behaves fn_slugify.
Proof.
  split_and!; [call fn_snake_case|call fn_kebab_case|call fn_camel_case|call fn_pascal_case|call fn_slugify];
    by apply case_convert_returns.
Qed.

Lemma plain_checked f :
  f ∈ [fn_size; fn_is_empty; fn_is_blank; fn_is_ascii; fn_is_hex; fn_is_digit; fn_is_alpha;
    fn_is_alnum; fn_is_space; fn_is_printable; fn_is_lower; fn_is_upper; fn_trim; fn_ltrim; fn_rtrim;
    fn_contains; fn_starts_with; fn_ends_with; fn_index_of; fn_last_index_of; fn_constant_time_eq;
    fn_token_count; fn_to_bool; fn_line_count] -> behaves f.
Proof. intros Hf. pose proof plain_safe as Hp. rewrite Forall_forall in Hp. by apply Hp. Qed.
End table.

#[export] Hint Resolve from_codepoint_returns : string_safe.
#[export] Hint Resolve lower_safe upper_safe reverse_safe capitalize_safe title_safe swapcase_safe
  find_safe rfind_safe char_at_safe byte_at_safe remove_prefix_safe remove_suffix_safe surround_safe
  unwrap_safe replace_range_safe insert_safe delete_range_safe left_safe right_safe drop_safe
  truncate_safe pad_left_safe pad_right_safe center_safe zfill_safe repeat_safe shorten_safe
  str_lines_safe str_words_safe chomp_safe normalize_space_safe word_wrap_safe indent_safe
  dedent_safe html_escape_safe json_escape_safe url_encode_safe html_unescape_safe url_decode_safe
  hex_encode_safe hex_decode_safe json_unescape_safe base64_encode_safe base64_decode_safe
  base64url_encode_safe base64url_decode_safe csv_escape_safe csv_unescape_safe csv_split_line_safe
  csv_join_line_safe str_split_safe split_limit_safe rsplit_safe replace_safe replace_once_safe
  str_join_safe remove_chars_safe keep_chars_safe translate_safe expand_tabs_safe utf8_substr_safe
  utf8_slice_safe utf8_char_at_safe utf8_reverse_safe grapheme_split_safe unicode_normalize_safe
  join_safe to_num_safe to_int_safe to_str_safe split_safe slice_safe bytes_safe : string_safe.
#[export] Hint Extern 1 (behaves _) => first [apply trim_chars_safe
  | apply find_all_safe
  | apply count_safe
  | apply split_once_safe
  | apply partition_safe
  | apply utf8_case_safe
  | apply comparisons_safe
  | apply positions_safe
  | apply codepoint_at_safe
  | apply cases_safe] : string_safe.
#[export] Hint Extern 3 (behaves _) => apply plain_checked; unfold behaves; repeat (apply list_elem_of_here || apply list_elem_of_further) : string_safe.

Section table_theorem.
Context `{VStrLaws, CText, !CTextLaws, Base64, !Base64Laws, Slots}.

Lemma entries_checked : Forall (fun e => e.1 ∈ unchecked \/ checked e.2) string_entries.
Proof.
  unfold string_entries. repeat (apply Forall_cons; split; [cbn [fst snd]|]); [..|constructor].
  all: first
    [ right; first [exact from_codepoint_returns | apply behaves_checked; solve [eauto 2 with string_safe]]
    | left; unfold unchecked; repeat (apply list_elem_of_here || apply list_elem_of_further) ].
Qed.

Lemma string_function_checked name f :
  string_function name = Some f -> name ∉ unchecked -> checked f.
Proof.
  unfold string_function. destruct (List.find _ string_entries) as [[n g]|] eqn:E; [|done].
  intros [= <-] Hn. apply List.find_some in E as [Hin Heq]. apply bool_decide_eq_true in Heq. simpl in Heq. subst n.
  pose proof entries_checked as Ht. rewrite Forall_forall in Ht.
  destruct (Ht (name, g)) as [Hu|Hc]; [by apply list_elem_of_In|done|exact Hc].
Qed.

(** C13: No function of the table [string_entries] -- every function of the string module but [assert],
    [mustache_render] and [template_render] -- except the seven that [unchecked] names ever stores
    a byte outside the buffer it has measured, or converts a number out of the
    range of an integer, whether or not there is memory, as long as strings are at most a
    gigabyte and numbers, lists and argument lists at most about a million.  The buffers are those
    of results and of cells, the lists of positions, the vectors of numbers, and the C strings on the
    stack and in the arena. *)
Theorem string_functions_in_bounds (name : string) (f : native) (args : list xvalue) (h : heap) :
  string_function name = Some f -> name ∉ unchecked ->
  Forall small args -> Z.of_nat (length args) <= MAX_COUNT ->
  (exec (f args) h).1 <> Undefined.
Proof. intros Hf Hn Ha Hl. by apply safe_exec, (string_function_checked name f). Qed.
End table_theorem.

(** ** Witnesses, and what the others do *)

Definition plain_base64 : Base64 := {| tn_base64_encode s := Some s; tn_base64_decode s := Some s |}.

Lemma plain_base64_laws : @Base64Laws plain_base64.
Proof.
  split; intros s e [= <-]; [pose proof (len_nonneg s)|]; lia.
Qed.

Lemma plain_text_laws : @CTextLaws plain_text.
Proof. split; intros; vm_compute; discriminate. Qed.

Definition find_function (name : string) : option native :=
  @string_function plain_vstr plain_text plain_base64 slots_append name.

Lemma string_functions_in_bounds_witness :
  exists f, find_function "pad_start" = Some f /\
    (exec (f [str (lit "7"); XInteger 3; str (lit "0")]) [false]).1 <> Undefined.
Proof.
  eexists. split; [reflexivity|].
  refine (@string_functions_in_bounds plain_vstr plain_vstr_laws plain_text plain_text_laws plain_base64
    plain_base64_laws slots_append "pad_start" _ _ _ eq_refl _ _ _); [|repeat constructor|vm_compute; discriminate].
  - unfold unchecked. apply (bool_decide_unpack _). vm_compute. exact I.
  - vm_compute. discriminate.
  - vm_compute. discriminate.
  - vm_compute. discriminate.
  - exists 3. split; [reflexivity|]. vm_compute. split; discriminate.
  - vm_compute. discriminate.
Defined.

Lemma str_format_in_bounds_witness :
  (exec (@fn_str_format plain_text [str (lit "{} and {}"); str (lit "a"); XNull]) []).1 <> Undefined.
Proof.
  refine (@str_format_in_bounds plain_text plain_text_laws [str (lit "{} and {}"); str (lit "a"); XNull] [] _ _ _);
    [|vm_compute; repeat constructor|vm_compute; discriminate].
  repeat constructor; vm_compute; discriminate.
Defined.

(** An index that is used again writes its argument again, into a buffer that was measured
    for it once. *)
Example str_format_overflow :
  exec (@fn_str_format plain_text [str (lit "{0}{0}{0}"); str (lit "aaaaaaaaaaaaaaaaaaaa")]) [] = (Undefined, []).
Proof. vm_compute. reflexivity. Qed.

(** A number that [%f] prints with more than 32 digits. *)
Definition long_text : CText := {|
  strtod _ := None; strtoll _ := None; print_g _ := lit "0";
  print_f _ := copies 308 (lit "9"); print_d _ := lit "0"; raw_number _ := f64_zero
|}.

Example format_overflow :
  exec (@fn_format long_text [str (lit "%f"); XNumber (f64_lit 1 300)]) [] = (Undefined, []).
Proof. vm_compute. reflexivity. Qed.

(** A negative index is converted to [size_t] as it is. *)
Example tokenize_negative :
  exec (fn_tokenize [str (lit "a,b"); str (lit ","); XNumber (f64_opp 1.0)]) [] = (Undefined, []).
Proof. vm_compute. reflexivity. Qed.

(** Two bytes, [2 ^ 63] times: the size wraps around to one byte. *)
Example repeat_overflow :
  exec (fn_str_repeat [str (lit "ab"); XNumber (f64_of_Z (2 ^ 63))]) [] = (Undefined, []).
Proof. vm_compute. reflexivity. Qed.

(** A cell whose quotes are left open is dropped. *)
Example csv_open_quote :
  exec (@fn_csv_split_line slots_append [str (lit "a," ++ [quote] ++ lit "b")]) [] =
  (Returns (XList false [str (lit "a")]), []).
Proof. vm_compute. reflexivity. Qed.
