(* ===== verification/HostView.v ===== *)
(** Values that the embedder hands to a script: the validation of borrowed views in
    [turbo_script/src/host/turbo_script_host_result.c].

    A view is read in the embedder's memory, a function from addresses to views:
    views may share their children, and the pointers may form cycles.  The
    validator walks this memory; a [tree] is what a view stands for when the walk
    is finite.  [vstr_utf8_valid] and the hash sets belong to libraries outside the
    repository: the former is a parameter, the latter the class [HashSet]. *)

From S2P Require Import Prelude HostStatus Float64.
Open Scope Z_scope.

(** ** Data *)

(** A pointer to an array with its count, [NULL] or not. *)
Inductive slice (T : Type) :=
  | NoItems (count : Z)
  | Items (l : list T).
Arguments NoItems {T} _.
Arguments Items {T} _.

Inductive view_data (A : Type) :=
  | VNull
  | VBool (boolean : N)                             (* a byte *)
  | VInt64 (integer : Z)
  | VNumber (number : f64)
  | VString (s : text)
  | VArray (items : slice A)
  | VRecord (entries : slice (text * A))
  | VOther (kind : Z).
Arguments VNull {A}.
Arguments VBool {A} _.
Arguments VInt64 {A} _.
Arguments VNumber {A} _.
Arguments VString {A} _.
Arguments VArray {A} _.
Arguments VRecord {A} _.
Arguments VOther {A} _.

(** [turbo_script_value_view_t] *)
Record value_view (A : Type) := View { reserved : Z; as_ : view_data A }.
Arguments View {A} _ _.
Arguments reserved {A} _.
Arguments as_ {A} _.

Definition memory (A : Type) : Type := A -> value_view A.

(** The sizes of a view and of a record entry, in bytes. *)
Definition VIEW_SIZE : Z := 24.
Definition ENTRY_SIZE : Z := 40.

Definition slice_count {T} (s : slice T) : Z :=
  match s with NoItems n => n | Items l => Z.of_nat (length l) end.
Definition slice_items {T} (s : slice T) : list T :=
  match s with NoItems _ => [] | Items l => l end.
(** [!items && count != 0] *)
Definition slice_dangling {T} (s : slice T) : bool :=
  match s with NoItems n => negb (n =? 0) | Items _ => false end.

(** [ts_host_value_limits_t] *)
Record value_limits := ValueLimits { max_depth : Z; max_nodes : Z; max_bytes : Z }.

Definition limits_ok (lim : value_limits) : Prop :=
  0 <= max_depth lim <= UINT32_MAX /\ 0 <= max_nodes lim <= SIZE_MAX /\
  0 <= max_bytes lim <= SIZE_MAX.

(** ** The hash sets *)

Inductive stl_status := STL_OK | STL_OUT_OF_MEMORY | STL_CAPACITY_EXCEEDED | STL_FAILED.

Definition ts_host_stl_status (s : stl_status) : status :=
  match s with
  | STL_OK => STATUS_OK
  | STL_OUT_OF_MEMORY => STATUS_OUT_OF_MEMORY
  | STL_CAPACITY_EXCEEDED => STATUS_LIMIT_EXCEEDED
  | STL_FAILED => STATUS_INVALID_ARGUMENT
  end.

(** A set with a capacity; its elements are compared by the equality of [K]. *)
Class HashSet (K S : Type) := {
  set_init : Z -> stl_status * S;
  set_contains : S -> K -> bool;
  set_add : S -> K -> stl_status * S;
  set_remove : S -> K -> stl_status * S
}.

(** What an operation that reports success has done. *)
Class HashSetLaws (K S : Type) `{HashSet K S} := {
  init_law n s k : set_init n = (STL_OK, s) -> set_contains s k = false;
  add_law s k s' j : set_add s k = (STL_OK, s') ->
    set_contains s' j = true <-> j = k \/ set_contains s j = true;
  remove_law s k s' j : set_remove s k = (STL_OK, s') ->
    set_contains s' j = true <-> j <> k /\ set_contains s j = true
}.

(** A set whose operations succeed as long as its capacity allows. *)
Class ReliableSet (K S : Type) `{HashSetLaws K S} := {
  room : S -> Z;
  init_succeeds n : exists s, set_init n = (STL_OK, s) /\ room s = n;
  add_succeeds s k : set_contains s k = false -> 0 < room s ->
    exists s', set_add s k = (STL_OK, s') /\ room s' = room s - 1;
  remove_succeeds s k : set_contains s k = true ->
    exists s', set_remove s k = (STL_OK, s') /\ room s' = room s + 1
}.

(** ** Validation *)

Section validation.
Context {A SA SK : Type} `{HashSet A SA, HashSet string SK} (utf8_valid : string -> bool).
Context (lim : value_limits) (mem : memory A).

(** [ts_host_validation_state_t] *)
Record vstate := VState { nodes : Z; bytes : Z; active_containers : SA }.

Definition ts_host_charge_bytes (st : vstate) (count element_size : Z) : status * vstate :=
  if negb (count =? 0) && (SIZE_MAX / count <? element_size) then (STATUS_LIMIT_EXCEEDED, st)
  else
    let amount := count * element_size in
    if wrapu 64 (max_bytes lim - bytes st) <? amount then (STATUS_LIMIT_EXCEEDED, st)
    else (STATUS_OK, VState (nodes st) (bytes st + amount) (active_containers st)).

Definition ts_host_validate_string (st : vstate) (value : text)
    (require_nonempty reject_embedded_nul : bool) : status * vstate :=
  if text_dangling value then (STATUS_INVALID_ARGUMENT, st)
  else if require_nonempty && (text_size value =? 0) then (STATUS_VALIDATION_ERROR, st)
  else if reject_embedded_nul && has_nul (text_bytes value) then (STATUS_VALIDATION_ERROR, st)
  else if text_size value =? SIZE_MAX then (STATUS_LIMIT_EXCEEDED, st)
  else match ts_host_charge_bytes st (text_size value + 1) 1 with
       | (STATUS_OK, st) =>
           (if utf8_valid (text_bytes value) then STATUS_OK else STATUS_INVALID_UTF8, st)
       | r => r
       end.

(** The loop over the items of an array, and over the entries of a record with the
    keys seen; [node] validates a child. *)
Fixpoint check_items (node : vstate -> A -> status * vstate) (st : vstate) (l : list A)
    : status * vstate :=
  match l with
  | [] => (STATUS_OK, st)
  | a :: l =>
      match node st a with
      | (STATUS_OK, st) => check_items node st l
      | r => r
      end
  end.

Fixpoint check_entries (node : vstate -> A -> status * vstate) (keys : SK) (st : vstate)
    (l : list (text * A)) : status * vstate :=
  match l with
  | [] => (STATUS_OK, st)
  | (key, a) :: l =>
      match ts_host_validate_string st key true true with
      | (STATUS_OK, st) =>
          if set_contains keys (text_bytes key) then (STATUS_DUPLICATE_RECORD_KEY, st)
          else match set_add keys (text_bytes key) with
               | (STL_OK, keys) =>
                   match node st a with
                   | (STATUS_OK, st) => check_entries node keys st l
                   | r => r
                   end
               | (e, _) => (ts_host_stl_status e, st)
               end
      | r => r
      end
  end.

(** The keys of a record without entries are never looked up. *)
Definition check_record (node : vstate -> A -> status * vstate) (st : vstate)
    (entries : slice (text * A)) : status * vstate :=
  if slice_count entries =? 0 then (STATUS_OK, st)
  else match set_init (slice_count entries) with
       | (STL_OK, keys) => check_entries node keys st (slice_items entries)
       | (e, _) => (ts_host_stl_status e, st)
       end.

(** The children of a container, between the addition and the removal of its
    identity. *)
Definition with_identity (a : A) (st : vstate) (children : vstate -> status * vstate)
    : status * vstate :=
  if set_contains (active_containers st) a then (STATUS_VALIDATION_ERROR, st)
  else match set_add (active_containers st) a with
       | (STL_OK, active) =>
           let (s, st) := children (VState (nodes st) (bytes st) active) in
           match set_remove (active_containers st) a with
           | (STL_OK, active) => (s, VState (nodes st) (bytes st) active)
           | (_, active) =>
               (if ok s then STATUS_INVALID_STATE else s, VState (nodes st) (bytes st) active)
           end
       | (e, active) => (ts_host_stl_status e, VState (nodes st) (bytes st) active)
       end.

(** Count and size of a container. *)
Definition charge_slice {T} (st : vstate) (s : slice T) (element_size : Z) : status * vstate :=
  if slice_dangling s then (STATUS_INVALID_ARGUMENT, st)
  else if wrapu 64 (max_nodes lim - nodes st) <? slice_count s then (STATUS_LIMIT_EXCEEDED, st)
  else ts_host_charge_bytes st (slice_count s) element_size.

(** The recursion is on the levels that are still open: [depth > max_depth] is the
    case of no level. *)
Fixpoint ts_host_validate_node (levels : nat) (st : vstate) (a : A) : status * vstate :=
  match levels with
  | O => (STATUS_LIMIT_EXCEEDED, st)
  | S levels =>
      if nodes st =? max_nodes lim then (STATUS_LIMIT_EXCEEDED, st)
      else
        let st := VState (nodes st + 1) (bytes st) (active_containers st) in
        if negb (reserved (mem a) =? 0) then (STATUS_INVALID_ARGUMENT, st)
        else match as_ (mem a) with
             | VNull | VInt64 _ | VNumber _ => (STATUS_OK, st)
             | VBool b => (if (b <=? 1)%N then STATUS_OK else STATUS_VALIDATION_ERROR, st)
             | VString s => ts_host_validate_string st s false false
             | VArray items =>
                 match charge_slice st items VIEW_SIZE with
                 | (STATUS_OK, st) =>
                     with_identity a st (fun st =>
                       check_items (ts_host_validate_node levels) st (slice_items items))
                 | r => r
                 end
             | VRecord entries =>
                 match charge_slice st entries ENTRY_SIZE with
                 | (STATUS_OK, st) =>
                     with_identity a st (fun st =>
                       check_record (ts_host_validate_node levels) st entries)
                 | r => r
                 end
             | VOther _ => (STATUS_VALIDATION_ERROR, st)
             end
  end.

Definition levels_of : nat := Z.to_nat (max_depth lim).

(** [values] is the array of views with its count. *)
Definition ts_host_validate_value_views (values : slice A) : status :=
  if slice_dangling values || (max_depth lim =? 0) || (max_nodes lim =? 0) || (max_bytes lim =? 0)
  then STATUS_INVALID_ARGUMENT
  else match set_init (max_nodes lim) with
       | (STL_OK, active) =>
           (check_items (ts_host_validate_node levels_of) (VState 0 0 active)
              (slice_items values)).1
       | (e, _) => ts_host_stl_status e
       end.

(** [None] is the NULL pointer. *)
Definition ts_host_validate_value_view (value : option A) : status :=
  match value with
  | None => STATUS_INVALID_ARGUMENT
  | Some a => ts_host_validate_value_views (Items [a])
  end.
End validation.
Arguments VState {SA} _ _ _.
Arguments nodes {SA} _.
Arguments bytes {SA} _.
Arguments active_containers {SA} _.

(** ** The trees that views stand for *)

Inductive tree :=
  | TNull
  | TBool (boolean : N)
  | TInt64 (integer : Z)
  | TNumber (number : f64)
  | TString (s : string)
  | TArray (items : list tree)
  | TRecord (entries : list (string * tree)).

Section tree_induction.
Context (P : tree -> Prop).
Hypothesis HNull : P TNull.
Hypothesis HBool : forall b, P (TBool b).
Hypothesis HInt : forall i, P (TInt64 i).
Hypothesis HNumber : forall x, P (TNumber x).
Hypothesis HString : forall s, P (TString s).
Hypothesis HArray : forall l, Forall P l -> P (TArray l).
Hypothesis HRecord : forall l, Forall (fun e => P e.2) l -> P (TRecord l).

Fixpoint tree_nested_ind (t : tree) : P t :=
  match t with
  | TNull => HNull
  | TBool b => HBool b
  | TInt64 i => HInt i
  | TNumber x => HNumber x
  | TString s => HString s
  | TArray l =>
      HArray l ((fix go l : Forall P l := match l return Forall P l with
                                          | [] => Forall_nil_2 _
                                          | t :: l => Forall_cons_2 _ t l (tree_nested_ind t) (go l)
                                          end) l)
  | TRecord l =>
      HRecord l ((fix go l : Forall (fun e => P e.2) l :=
                    match l return Forall (fun e => P e.2) l with
                    | [] => Forall_nil_2 _
                    | e :: l => Forall_cons_2 _ e l (tree_nested_ind e.2) (go l)
                    end) l)
  end.
End tree_induction.

Definition sum_of {T} (f : T -> Z) (l : list T) : Z := foldr (fun x n => f x + n) 0 l.
Definition max_of {T} (f : T -> nat) (l : list T) : nat := foldr (fun x n => Nat.max (f x) n) 0%nat l.

Fixpoint tree_nodes (t : tree) : Z :=
  match t with
  | TArray l => 1 + sum_of tree_nodes l
  | TRecord l => 1 + sum_of (fun e => tree_nodes e.2) l
  | _ => 1
  end.

Fixpoint tree_bytes (t : tree) : Z :=
  match t with
  | TString s => str_size s + 1
  | TArray l => VIEW_SIZE * Z.of_nat (length l) + sum_of tree_bytes l
  | TRecord l =>
      ENTRY_SIZE * Z.of_nat (length l) + sum_of (fun e => str_size e.1 + 1 + tree_bytes e.2) l
  | _ => 0
  end.

Fixpoint tree_depth (t : tree) : nat :=
  match t with
  | TArray l => S (max_of tree_depth l)
  | TRecord l => S (max_of (fun e => tree_depth e.2) l)
  | _ => 1%nat
  end.

Section tree_valid.
Context (utf8_valid : string -> bool).

Definition key_valid (k : string) : bool :=
  negb (str_size k =? 0) && negb (has_nul k) && utf8_valid k.

Fixpoint tree_valid (t : tree) : bool :=
  match t with
  | TBool b => (b <=? 1)%N
  | TString s => utf8_valid s
  | TArray l => forallb tree_valid l
  | TRecord l =>
      bool_decide (NoDup l.*1) && forallb (fun e => key_valid e.1 && tree_valid e.2) l
  | _ => true
  end.
End tree_valid.

(** [denotes mem a t]: the view at [a] unfolds to the finite tree [t]. *)
Inductive denotes {A} (mem : memory A) (a : A) : tree -> Prop :=
  | denotes_null : mem a = View 0 VNull -> denotes mem a TNull
  | denotes_bool b : mem a = View 0 (VBool b) -> denotes mem a (TBool b)
  | denotes_int i : mem a = View 0 (VInt64 i) -> denotes mem a (TInt64 i)
  | denotes_number x : mem a = View 0 (VNumber x) -> denotes mem a (TNumber x)
  | denotes_string s : mem a = View 0 (VString s) -> text_dangling s = false ->
      denotes mem a (TString (text_bytes s))
  | denotes_array items l : mem a = View 0 (VArray items) -> slice_dangling items = false ->
      Forall2 (denotes mem) (slice_items items) l -> denotes mem a (TArray l)
  | denotes_record entries l : mem a = View 0 (VRecord entries) -> slice_dangling entries = false ->
      Forall2 (fun p e => text_dangling p.1 = false /\ text_bytes p.1 = e.1 /\ denotes mem p.2 e.2)
        (slice_items entries) l ->
      denotes mem a (TRecord l).
