(* ===== verification/HostViewProofs.v ===== *)
(** The validation of views is exact: it accepts the views that unfold to a finite
    tree of valid values within the limits, and no others.  No memory, however its
    pointers are tied together, makes it run on: the recursion of [HostView.v] is on
    the levels that are still open. *)

From S2P Require Import Prelude HostStatus Float64 HostView.
Open Scope Z_scope.

(** ** Trees *)

Lemma sum_of_nonneg {T} (f : T -> Z) l : Forall (fun x => 0 <= f x) l -> 0 <= sum_of f l.
Proof. induction 1; simpl; lia. Qed.

Lemma sum_of_in {T} (f : T -> Z) l x : Forall (fun x => 0 <= f x) l -> x ∈ l -> f x <= sum_of f l.
Proof.
  intros Hf Hx. induction Hf as [|y l Hy Hl IH]; [by apply elem_of_nil in Hx|].
  apply sum_of_nonneg in Hl. apply elem_of_cons in Hx as [->|Hx]; simpl; [lia|].
  specialize (IH Hx). lia.
Qed.

Lemma sum_of_length {T} (f : T -> Z) l : Forall (fun x => 1 <= f x) l -> Z.of_nat (length l) <= sum_of f l.
Proof. induction 1; simpl; lia. Qed.

Lemma max_of_le {T} (f : T -> nat) l n : (max_of f l <= n)%nat <-> Forall (fun x => (f x <= n)%nat) l.
Proof.
  induction l as [|x l IH]; simpl; [split; [constructor|lia]|].
  rewrite Forall_cons, <- IH. lia.
Qed.

Lemma tree_nodes_pos t : 1 <= tree_nodes t.
Proof.
  induction t as [| | | | |l IH|l IH] using tree_nested_ind; simpl; try lia.
  - enough (0 <= sum_of tree_nodes l) by lia. apply sum_of_nonneg.
    eapply Forall_impl; [exact IH|]. simpl. lia.
  - enough (0 <= sum_of (fun e => tree_nodes e.2) l) by lia. apply sum_of_nonneg.
    eapply Forall_impl; [exact IH|]. simpl. lia.
Qed.

Lemma tree_bytes_nonneg t : 0 <= tree_bytes t.
Proof.
  induction t as [| | | |s|l IH|l IH] using tree_nested_ind; simpl; try lia.
  - pose proof (str_size_nonneg s). lia.
  - apply sum_of_nonneg in IH. unfold VIEW_SIZE. lia.
  - enough (0 <= sum_of (fun e => str_size e.1 + 1 + tree_bytes e.2) l) by (unfold ENTRY_SIZE; lia).
    apply sum_of_nonneg. eapply Forall_impl; [exact IH|]. intros [k t] Ht. simpl in *.
    pose proof (str_size_nonneg k). lia.
Qed.

Lemma tree_depth_pos t : (1 <= tree_depth t)%nat.
Proof. destruct t; simpl; lia. Qed.

Lemma Forall2_unique {T U} (R : T -> U -> Prop) s l l' :
  Forall (fun u => forall x u', R x u -> R x u' -> u = u') l ->
  Forall2 R s l -> Forall2 R s l' -> l = l'.
Proof.
  intros IH Hl. revert l'. induction Hl as [|x u s l Hx Hl IHl]; intros l' Hl'; inversion Hl'; subst;
    [done|]. apply Forall_cons in IH as [Hu IH]. f_equal; eauto.
Qed.

(** A view stands for one tree. *)
Lemma denotes_unique {A} (mem : memory A) a t t' : denotes mem a t -> denotes mem a t' -> t = t'.
Proof.
  revert a t'. induction t as [| | | | |l IH|l IH] using tree_nested_ind; intros a t' H H';
    destruct H' as [E'|? E'|? E'|? E'|? E' ?|? ? E' ? Hl'|? ? E' ? Hl'];
    inversion H as [E|? E|? E|? E|? E ?|? ? E ? Hl|? ? E ? Hl]; rewrite E' in E;
    simplify_eq; try done; f_equal; eapply Forall2_unique; try (exact Hl || exact Hl').
  - eapply Forall_impl; [exact IH|]. intros u Hu x u'. apply Hu.
  - eapply Forall_impl; [exact IH|]. intros [k u] Hu x [k' u'] (_ & Hk & Hx) (_ & Hk' & Hx').
    simpl in *. f_equal; [congruence|by eapply Hu].
Qed.

(** ** The steps of the validator *)

Section steps.
Context {SA : Type} (utf8_valid : string -> bool) (lim : value_limits).
Hypothesis Hlim : limits_ok lim.

Definition st_ok (st : vstate (SA:=SA)) : Prop :=
  0 <= nodes st <= max_nodes lim /\ 0 <= bytes st <= max_bytes lim.

(** The state after charging [b] bytes. *)
Definition charged (st : vstate (SA:=SA)) (b : Z) : vstate :=
  VState (nodes st) (bytes st + b) (active_containers st).

Lemma charge_bytes_spec st count size :
  st_ok st -> 0 <= count -> 0 < size ->
  ts_host_charge_bytes lim st count size =
    if bytes st + count * size <=? max_bytes lim then (STATUS_OK, charged st (count * size))
    else (STATUS_LIMIT_EXCEEDED, st).
Proof using Hlim.
  intros [Hn Hb] Hc Hs. destruct Hlim as (_ & _ & Hmax). unfold ts_host_charge_bytes.
  rewrite wrapu_small by (unfold SIZE_MAX in *; lia).
  destruct (negb (count =? 0) && (SIZE_MAX / count <? size)) eqn:E.
  - bool_props. assert (SIZE_MAX < count * size).
    { pose proof (Z.mul_succ_div_gt SIZE_MAX count ltac:(lia)). nia. }
    replace (bytes st + count * size <=? max_bytes lim) with false by lia. done.
  - rewrite Z.leb_antisym.
    replace (max_bytes lim - bytes st <? count * size) with (max_bytes lim <? bytes st + count * size) by lia.
    by destruct (max_bytes lim <? bytes st + count * size).
Qed.

Lemma validate_string_ok st s ne rn st' :
  st_ok st ->
  ts_host_validate_string utf8_valid lim st s ne rn = (STATUS_OK, st') <->
  text_dangling s = false /\ (ne = true -> str_size (text_bytes s) <> 0) /\
  (rn = true -> has_nul (text_bytes s) = false) /\ utf8_valid (text_bytes s) = true /\
  bytes st + (str_size (text_bytes s) + 1) <= max_bytes lim /\
  st' = charged st (str_size (text_bytes s) + 1).
Proof using Hlim.
  intros Hst. unfold ts_host_validate_string. destruct (text_dangling s) eqn:Hd; [by split; [|intros []]|].
  replace (text_size s) with (str_size (text_bytes s)).
  2:{ destruct s; simpl in *; [|done]. change (str_size "") with 0. lia. }
  pose proof (str_size_nonneg (text_bytes s)) as Hz. set (z := str_size (text_bytes s)) in *.
  destruct (ne && (z =? 0)) eqn:E1.
  { split; [done|]. intros (_ & Hne & _). bool_props. by destruct ne; [apply Hne in H0|]. }
  destruct (rn && has_nul (text_bytes s)) eqn:E2.
  { split; [done|]. intros (_ & _ & Hrn & _). bool_props. destruct rn; [|done]. by rewrite Hrn in H0. }
  rewrite charge_bytes_spec by (done || lia). rewrite Z.mul_1_r.
  destruct (z =? SIZE_MAX) eqn:E3.
  { split; [done|]. intros (_ & _ & _ & _ & Hb & _). destruct Hlim as (_ & _ & ?), Hst. lia. }
  destruct (bytes st + (z + 1) <=? max_bytes lim) eqn:E4.
  - destruct (utf8_valid (text_bytes s)).
    + split; [intros [= <-]|intros (_ & _ & _ & _ & _ & ->); done].
      split_and!; [done| | |done|lia|done].
      * intros ->. simpl in E1. lia.
      * intros ->. done.
    + by split; [|intros (_ & _ & _ & ? & _)].
  - split; [done|]. intros (_ & _ & _ & _ & Hb & _). lia.
Qed.

Lemma slice_count_items {T} (s : slice T) :
  slice_dangling s = false -> slice_count s = Z.of_nat (length (slice_items s)).
Proof. destruct s; simpl; [|done]. intros H. bool_props. lia. Qed.

Lemma charge_slice_ok {T} st (s : slice T) size st' :
  st_ok st -> 0 < size ->
  charge_slice lim st s size = (STATUS_OK, st') <->
  slice_dangling s = false /\
  nodes st + Z.of_nat (length (slice_items s)) <= max_nodes lim /\
  bytes st + size * Z.of_nat (length (slice_items s)) <= max_bytes lim /\
  st' = charged st (size * Z.of_nat (length (slice_items s))).
Proof using Hlim.
  intros Hst Hsize. unfold charge_slice. destruct (slice_dangling s) eqn:Hd; [by split; [|intros []]|].
  rewrite (slice_count_items s Hd). pose proof Hst as [Hn Hb]. destruct Hlim as (_ & ? & _).
  rewrite wrapu_small by (unfold SIZE_MAX in *; lia).
  set (n := Z.of_nat (length (slice_items s))). assert (0 <= n) by lia. rewrite (Z.mul_comm size).
  destruct (max_nodes lim - nodes st <? n) eqn:E; [split; [done|lia]|].
  rewrite charge_bytes_spec by done.
  destruct (bytes st + n * size <=? max_bytes lim) eqn:E'.
  - split; [intros [= <-]; split_and!; [done|lia|lia|done]|intros (_ & _ & _ & ->); done].
  - split; [done|]. lia.
Qed.
End steps.

(** ** What is accepted is a tree within the limits *)

Section sound.
Context {A SA SK : Type} `{HashSetLaws A SA, HashSetLaws string SK}.
Context (utf8_valid : string -> bool) (lim : value_limits) (mem : memory A).
Hypothesis Hlim : limits_ok lim.

Local Abbreviation state := (vstate (SA:=SA)).
Local Abbreviation ok_state := (st_ok (SA:=SA) lim).

Definition grown (st st' : state) (n b : Z) : Prop :=
  nodes st' = nodes st + n /\ bytes st' = bytes st + b /\ ok_state st'.

Definition node_sound (node : state -> A -> status * state) (Q : A -> tree -> Prop) : Prop :=
  forall st a st', ok_state st -> node st a = (STATUS_OK, st') ->
  exists t, Q a t /\ grown st st' (tree_nodes t) (tree_bytes t).

Definition entry_bytes (e : string * tree) : Z := str_size e.1 + 1 + tree_bytes e.2.

Lemma check_items_sound node Q l : forall st st',
  node_sound node Q -> ok_state st -> check_items node st l = (STATUS_OK, st') ->
  exists ts, Forall2 Q l ts /\ grown st st' (sum_of tree_nodes ts) (sum_of tree_bytes ts).
Proof using.
  induction l as [|a l IH]; intros st st' Hnode Hst; simpl.
  - intros [= <-]. exists []. split; [constructor|]. unfold grown. simpl. split_and!; [lia|lia|done].
  - destruct (node st a) as [[] st1] eqn:Ea; try done. intros Hrest.
    destruct (Hnode _ _ _ Hst Ea) as (t & Ht & Hn1 & Hb1 & Hst1).
    destruct (IH _ _ Hnode Hst1 Hrest) as (ts & Hts & Hn2 & Hb2 & Hst2).
    exists (t :: ts). split; [by constructor|]. unfold grown. simpl. split_and!; [lia|lia|done].
Qed.

Definition entry_means (Q : A -> tree -> Prop) (p : text * A) (e : string * tree) : Prop :=
  text_dangling p.1 = false /\ text_bytes p.1 = e.1 /\ Q p.2 e.2.

Lemma check_entries_sound node Q l : forall keys st st',
  node_sound node Q -> ok_state st ->
  check_entries utf8_valid lim node keys st l = (STATUS_OK, st') ->
  exists es, Forall2 (entry_means Q) l es /\ NoDup es.*1 /\
    Forall (fun k => key_valid utf8_valid k = true /\ set_contains keys k = false) es.*1 /\
    grown st st' (sum_of (fun e => tree_nodes e.2) es) (sum_of entry_bytes es).
Proof using Hlim H2.
  induction l as [|[s a] l IH]; intros keys st st' Hnode Hst; simpl.
  - intros [= <-]. exists []. split_and!; [constructor..|]. unfold grown. simpl. split_and!; [lia|lia|done].
  - destruct (ts_host_validate_string _ _ _ _ _ _) as [[] st1] eqn:Es; try done.
    destruct (set_contains keys (text_bytes s)) eqn:Ec; [done|].
    destruct (set_add keys (text_bytes s)) as [[] keys1] eqn:Eadd; try done.
    destruct (node st1 a) as [[] st2] eqn:Ea; try done. intros Hrest.
    apply (validate_string_ok _ _ Hlim _ _ _ _ _ Hst) in Es as (Hd & Hne & Hnul & Hu & Hb & ->).
    set (z := str_size (text_bytes s)) in *.
    assert (ok_state (charged st (z + 1))) as Hst1.
    { destruct Hst. pose proof (str_size_nonneg (text_bytes s)). split; simpl; lia. }
    destruct (Hnode _ _ _ Hst1 Ea) as (t & Ht & Hn2 & Hb2 & Hst2).
    destruct (IH _ _ _ Hnode Hst2 Hrest) as (es & Hes & Hnd & Hks & Hn3 & Hb3 & Hst3).
    exists ((text_bytes s, t) :: es). simpl in *. split_and!.
    + by constructor.
    + apply NoDup_cons. split; [|done]. intros Hin. rewrite Forall_forall in Hks.
      destruct (Hks _ Hin) as [_ Hf].
      assert (set_contains keys1 (text_bytes s) = true) as Ht' by (apply (add_law _ _ _ _ Eadd); by left).
      congruence.
    + constructor.
      * split; [|done]. unfold key_valid. fold z. rewrite Hnul, Hu by done.
        specialize (Hne eq_refl). by replace (z =? 0) with false by lia.
      * eapply Forall_impl; [exact Hks|]. intros k [Hk Hkc]. split; [done|].
        destruct (set_contains keys k) eqn:E; [|done].
        assert (set_contains keys1 k = true) by (apply (add_law _ _ _ _ Eadd); by right). congruence.
    + unfold grown, entry_bytes. simpl. fold z. fold entry_bytes. split_and!; [lia|lia|done].
Qed.

Lemma check_record_sound node Q s st st' :
  node_sound node Q -> ok_state st -> slice_dangling s = false ->
  check_record utf8_valid lim node st s = (STATUS_OK, st') ->
  exists es, Forall2 (entry_means Q) (slice_items s) es /\ NoDup es.*1 /\
    Forall (fun k => key_valid utf8_valid k = true) es.*1 /\
    grown st st' (sum_of (fun e => tree_nodes e.2) es) (sum_of entry_bytes es).
Proof using Hlim H2.
  intros Hnode Hst Hd. unfold check_record. rewrite slice_count_items by done.
  destruct (_ =? 0) eqn:E.
  - intros [= <-]. destruct (slice_items s); [|simpl in E; lia].
    exists []. split_and!; [constructor..|]. unfold grown. simpl. split_and!; [lia|lia|done].
  - destruct (set_init _) as [[] keys]; try done. intros Hc.
    destruct (check_entries_sound _ _ _ _ _ _ Hnode Hst Hc) as (es & He & Hn & Hk & Hg).
    exists es. split_and!; [done|done| |done]. eapply Forall_impl; [exact Hk|]. by intros k [? _].
Qed.

Lemma with_identity_sound (a : A) (st : state) children st' :
  with_identity a st children = (STATUS_OK, st') ->
  exists st1 st2, children st1 = (STATUS_OK, st2) /\
    nodes st1 = nodes st /\ bytes st1 = bytes st /\ nodes st' = nodes st2 /\ bytes st' = bytes st2.
Proof using.
  unfold with_identity. destruct (set_contains _ _); [done|].
  destruct (set_add _ _) as [[] active]; try done.
  destruct (children _) as [s st2] eqn:E. intros Hr. eexists _, st2. rewrite E.
  destruct (set_remove _ _) as [[] active']; injection Hr as Hs <-; simpl;
    destruct s; try discriminate Hs; done.
Qed.

Definition node_means (levels : nat) (a : A) (t : tree) : Prop :=
  denotes mem a t /\ (tree_depth t <= levels)%nat /\ tree_valid utf8_valid t = true.

Lemma items_mean levels l ts :
  Forall2 (node_means levels) l ts ->
  Forall2 (denotes mem) l ts /\ (max_of tree_depth ts <= levels)%nat /\
  forallb (tree_valid utf8_valid) ts = true.
Proof using.
  induction 1 as [|a t l ts (Hd & Hl & Hv) _ (IHd & IHl & IHv)]; simpl; [split_and!; [constructor|lia|done]|].
  split_and!; [by constructor|lia|by rewrite Hv].
Qed.

Lemma entries_mean levels l es :
  Forall2 (entry_means (node_means levels)) l es ->
  Forall (fun k => key_valid utf8_valid k = true) es.*1 ->
  Forall2 (entry_means (denotes mem)) l es /\ (max_of (fun e => tree_depth e.2) es <= levels)%nat /\
  forallb (fun e => key_valid utf8_valid e.1 && tree_valid utf8_valid e.2) es = true.
Proof using.
  induction 1 as [|p e l es (Hp & Hk & Hd & Hl & Hv) _ IH]; simpl; intros Hks; [split_and!; [constructor|lia|done]|].
  apply Forall_cons in Hks as [He Hks]. destruct (IH Hks) as (IHd & IHl & IHv).
  split_and!; [by constructor|lia|]. by rewrite He, Hv.
Qed.

Lemma node_sound_at levels :
  node_sound (ts_host_validate_node utf8_valid lim mem levels) (node_means levels).
Proof using Hlim H2.
  induction levels as [|levels IH]; intros st a st' Hst; simpl; [done|].
  destruct (nodes st =? max_nodes lim) eqn:Em; [done|].
  set (st1 := VState _ _ _).
  assert (ok_state st1) as Hst1 by (destruct Hst; split; simpl; lia).
  destruct (mem a) as [r d] eqn:Ea; simpl. destruct (r =? 0) eqn:Er; [|done]. simpl.
  apply Z.eqb_eq in Er as ->.
  assert (forall t, (tree_depth t <= S levels)%nat -> tree_valid utf8_valid t = true ->
    denotes mem a t -> tree_nodes t = 1 -> tree_bytes t = 0 -> (STATUS_OK, st1) = (STATUS_OK, st') ->
    exists t, node_means (S levels) a t /\ grown st st' (tree_nodes t) (tree_bytes t)) as Hleaf.
  { intros t Hd Hv Hden Hn Hb [= <-]. exists t. split; [done|]. rewrite Hn, Hb.
    split_and!; [done|simpl; lia|done]. }
  destruct d as [|b|i|x|s|items|entries|kind]; try done.
  - apply (Hleaf TNull); [simpl; lia|done|by constructor|done|done].
  - destruct (b <=? 1)%N eqn:Eb; [|done].
    apply (Hleaf (TBool b)); [simpl; lia|done|by constructor|done|done].
  - apply (Hleaf (TInt64 i)); [simpl; lia|done|by constructor|done|done].
  - apply (Hleaf (TNumber x)); [simpl; lia|done|by constructor|done|done].
  - intros Hs. apply (validate_string_ok _ _ Hlim _ _ _ _ _ Hst1) in Hs as (Hd & _ & _ & Hu & Hb & ->).
    exists (TString (text_bytes s)). split; [split_and!; [by eapply denotes_string|simpl; lia|done]|].
    pose proof (str_size_nonneg (text_bytes s)). destruct Hst1. unfold grown. simpl in *.
    split_and!; [lia|lia|split; simpl; lia].
  - destruct (charge_slice lim st1 items VIEW_SIZE) as [[] st2] eqn:Ec; try done. intros Hw.
    apply (charge_slice_ok _ Hlim) in Ec as (Hd & Hn & Hb & ->); [|done|done].
    destruct (with_identity_sound _ _ _ _ Hw) as (st3 & st4 & Hc & Hn3 & Hb3 & Hn4 & Hb4).
    assert (ok_state st3) as Hst3.
    { destruct Hst1. unfold VIEW_SIZE in *. split; [rewrite Hn3|rewrite Hb3]; simpl in *; lia. }
    destruct (check_items_sound _ _ _ _ _ IH Hst3 Hc) as (ts & Hts & Hn5 & Hb5 & Hst5).
    pose proof (Forall2_length _ _ _ Hts) as Hlen.
    apply items_mean in Hts as (Hden & Hdepth & Hvalid).
    exists (TArray ts). split; [split_and!; [by eapply denotes_array|simpl; lia|done]|].
    unfold grown. simpl in *. destruct Hst5. split_and!; [lia|rewrite <- Hlen; lia|split; lia].
  - destruct (charge_slice lim st1 entries ENTRY_SIZE) as [[] st2] eqn:Ec; try done. intros Hw.
    apply (charge_slice_ok _ Hlim) in Ec as (Hd & Hn & Hb & ->); [|done|done].
    destruct (with_identity_sound _ _ _ _ Hw) as (st3 & st4 & Hc & Hn3 & Hb3 & Hn4 & Hb4).
    assert (ok_state st3) as Hst3.
    { destruct Hst1. unfold ENTRY_SIZE in *. split; [rewrite Hn3|rewrite Hb3]; simpl in *; lia. }
    destruct (check_record_sound _ _ _ _ _ IH Hst3 Hd Hc) as (es & Hes & Hnd & Hks & Hn5 & Hb5 & Hst5).
    pose proof (Forall2_length _ _ _ Hes) as Hlen.
    destruct (entries_mean _ _ _ Hes Hks) as (Hden & Hdepth & Hvalid).
    exists (TRecord es). split.
    + split_and!; [by eapply denotes_record|simpl; lia|]. simpl. rewrite Hvalid, andb_true_r.
      by apply bool_decide_eq_true.
    + unfold grown, entry_bytes in *. simpl in *. destruct Hst5.
      split_and!; [lia|rewrite <- Hlen; lia|split; lia].
Qed.
End sound.

(** ** A tree within the limits is accepted *)

Section complete.
Context {A SA SK : Type} `{ReliableSet A SA, ReliableSet string SK}.
Context (utf8_valid : string -> bool) (lim : value_limits) (mem : memory A).
Hypothesis Hlim : limits_ok lim.

Local Abbreviation state := (vstate (SA:=SA)).
Local Abbreviation ok_state := (st_ok (SA:=SA) lim).

(** The containers that are open are larger than [n], and there is room for those
    still to come. *)
Definition open_above (st : state) (n : Z) : Prop :=
  (forall a, set_contains (active_containers st) a = true ->
     exists t, denotes mem a t /\ n < tree_nodes t) /\
  max_nodes lim - nodes st <= room (active_containers st).

Definition grown_same (st st' : state) (n b : Z) : Prop :=
  grown lim st st' n b /\
  (forall a : A, set_contains (active_containers st') a = set_contains (active_containers st) a) /\
  room (active_containers st') = room (active_containers st).

Definition node_complete (node : state -> A -> status * state) (a : A) (t : tree) : Prop :=
  forall st, ok_state st -> open_above st (tree_nodes t) ->
  nodes st + tree_nodes t <= max_nodes lim -> bytes st + tree_bytes t <= max_bytes lim ->
  exists st', node st a = (STATUS_OK, st') /\ grown_same st st' (tree_nodes t) (tree_bytes t).

Lemma open_above_le st n m : open_above st n -> m <= n -> open_above st m.
Proof. intros [Ha Hr] Hm. split; [|done]. intros a Hc. destruct (Ha a Hc) as (t & ? & ?). exists t. split; [done|lia]. Qed.

Lemma open_above_grown st st' n m b :
  open_above st m -> 0 <= n -> grown_same st st' n b -> open_above st' m.
Proof.
  intros [Ha Hr] Hn ((Hn' & _ & _) & Hs & Hroom). split; [|lia].
  intros a. rewrite Hs. apply Ha.
Qed.

Lemma grown_same_trans st1 st2 st3 n b n' b' :
  grown_same st1 st2 n b -> grown_same st2 st3 n' b' -> grown_same st1 st3 (n + n') (b + b').
Proof.
  intros ((? & ? & ?) & Hs & Hr) ((? & ? & ?) & Hs' & Hr'). split.
  - unfold grown. split_and!; [lia|lia|done].
  - split; [|congruence]. intros a. by rewrite Hs', Hs.
Qed.

Lemma grown_same_refl st : ok_state st -> grown_same st st 0 0.
Proof. intros. split; [|done]. unfold grown. split_and!; [lia|lia|done]. Qed.

Lemma check_items_complete node l ts : forall st,
  Forall2 (node_complete node) l ts -> ok_state st -> open_above st (sum_of tree_nodes ts) ->
  nodes st + sum_of tree_nodes ts <= max_nodes lim -> bytes st + sum_of tree_bytes ts <= max_bytes lim ->
  exists st', check_items node st l = (STATUS_OK, st') /\
    grown_same st st' (sum_of tree_nodes ts) (sum_of tree_bytes ts).
Proof.
  intros st Hall. revert st. induction Hall as [|a t l ts Ha Hall IH]; intros st Hst Hopen Hn Hb; simpl in *.
  - exists st. split; [done|]. by apply grown_same_refl.
  - assert (0 <= sum_of tree_nodes ts).
    { apply sum_of_nonneg, Forall_true. intros u. pose proof (tree_nodes_pos u). lia. }
    assert (0 <= sum_of tree_bytes ts) by (apply sum_of_nonneg, Forall_true, tree_bytes_nonneg).
    pose proof (tree_nodes_pos t). pose proof (tree_bytes_nonneg t).
    destruct (Ha st Hst) as (st1 & -> & Hg); [by eapply open_above_le; [done|lia]|lia|lia|].
    pose proof Hg as ((Hn1 & Hb1 & Hst1) & _ & _).
    destruct (IH st1 Hst1) as (st2 & -> & Hg2).
    + eapply open_above_le; [|]; [eapply open_above_grown; [exact Hopen| |exact Hg]; lia|lia].
    + lia.
    + lia.
    + exists st2. split; [done|]. by eapply grown_same_trans.
Qed.

Lemma check_entries_complete node l es : forall keys st,
  Forall2 (entry_means (node_complete node)) l es ->
  NoDup es.*1 ->
  Forall (fun k => key_valid utf8_valid k = true /\ set_contains keys k = false) es.*1 ->
  Z.of_nat (length l) <= room keys ->
  ok_state st -> open_above st (sum_of (fun e => tree_nodes e.2) es) ->
  nodes st + sum_of (fun e => tree_nodes e.2) es <= max_nodes lim ->
  bytes st + sum_of entry_bytes es <= max_bytes lim ->
  exists st', check_entries utf8_valid lim node keys st l = (STATUS_OK, st') /\
    grown_same st st' (sum_of (fun e => tree_nodes e.2) es) (sum_of entry_bytes es).
Proof.
  intros keys st Hall. revert keys st.
  induction Hall as [|[s a] [k t] l es (Hd & Hk & Ha) Hall IH]; intros keys st Hnd Hks Hroom Hst Hopen Hn Hb;
    simpl in *.
  - exists st. split; [done|]. by apply grown_same_refl.
  - assert (0 <= sum_of (fun e => tree_nodes e.2) es).
    { apply sum_of_nonneg, Forall_true. intros [? u]. pose proof (tree_nodes_pos u). simpl. lia. }
    assert (0 <= sum_of entry_bytes es).
    { apply sum_of_nonneg, Forall_true. intros [k' u]. unfold entry_bytes. simpl.
      pose proof (tree_bytes_nonneg u). pose proof (str_size_nonneg k'). lia. }
    pose proof (tree_nodes_pos t). pose proof (tree_bytes_nonneg t). pose proof (str_size_nonneg k).
    apply Forall_cons in Hks as [[Hkv Hkc] Hks]. apply NoDup_cons in Hnd as [Hknew Hnd].
    unfold entry_bytes in Hb. simpl in Hb. fold entry_bytes in Hb.
    set (st0 := charged st (str_size k + 1)).
    assert (ts_host_validate_string utf8_valid lim st s true true = (STATUS_OK, st0)) as ->.
    { apply (validate_string_ok _ _ Hlim _ _ _ _ _ Hst). rewrite Hk. unfold key_valid in Hkv. bool_props.
      split_and!; [done|intros _; lia|done|done|lia|done]. }
    rewrite Hk, Hkc.
    destruct (add_succeeds keys k Hkc) as (keys1 & Hadd & Hroom1); [lia|]. rewrite Hadd.
    assert (ok_state st0) as Hst0 by (destruct Hst; split; simpl; lia).
    destruct (Ha st0 Hst0) as (st1 & -> & Hg).
    { destruct Hopen as [Ho Hr]. split; [|done]. intros b Hc. destruct (Ho b Hc) as (u & ? & ?).
      exists u. split; [done|lia]. }
    { simpl. lia. } { simpl. lia. }
    pose proof Hg as ((Hn1 & Hb1 & Hst1) & _ & _). simpl in Hn1, Hb1.
    destruct (IH keys1 st1) as (st2 & -> & Hg2); [done| |lia|done| |lia|lia|].
    + rewrite Forall_forall in Hks |- *. intros k' Hk'. destruct (Hks k' Hk') as [? Hc']. split; [done|].
      destruct (set_contains keys1 k') eqn:E; [|done].
      apply (add_law _ _ _ _ Hadd) in E as [->|E]; [done|congruence].
    + eapply open_above_le; [exact (open_above_grown st0 st1 (tree_nodes t) _ _ Hopen ltac:(lia) Hg)|lia].
    + exists st2. split; [done|].
      replace (entry_bytes (k, t)) with (str_size k + 1 + tree_bytes t) by done.
      pose proof (grown_same_trans _ _ _ _ _ _ _ Hg Hg2) as ((? & ? & ?) & Hsame).
      split; [|exact Hsame]. unfold grown. simpl in *. split_and!; [lia|lia|done].
Qed.

Lemma with_identity_complete (a : A) (st : state) children n b :
  set_contains (active_containers st) a = false -> 0 < room (active_containers st) ->
  (forall active, (forall c, set_contains active c = true <-> c = a \/ set_contains (active_containers st) c = true) ->
     room active = room (active_containers st) - 1 ->
     exists st', children (VState (nodes st) (bytes st) active) = (STATUS_OK, st') /\
       grown_same (VState (nodes st) (bytes st) active) st' n b) ->
  exists st', with_identity a st children = (STATUS_OK, st') /\ grown_same st st' n b.
Proof.
  intros Hc Hroom Hch. unfold with_identity. rewrite Hc.
  destruct (add_succeeds _ a Hc Hroom) as (active & Hadd & Hr). rewrite Hadd.
  destruct (Hch active) as (st2 & -> & (Hn & Hb & Hst) & Hs & Hr2); [|done|].
  { intros c. exact (add_law _ _ _ _ Hadd). }
  simpl in *.
  destruct (remove_succeeds (active_containers st2) a) as (active2 & Hrem & Hr3).
  { rewrite Hs. apply (add_law _ _ _ _ Hadd). by left. }
  rewrite Hrem. eexists. split; [done|]. split; [by unfold grown|]. simpl. split; [|lia].
  intros c. apply eq_bool_prop_intro. rewrite !Is_true_true.
  rewrite (remove_law _ _ _ _ Hrem), Hs, (add_law _ _ _ _ Hadd). split; [tauto|].
  intros Hc'. split; [|tauto]. intros ->. congruence.
Qed.

(** A container is not open yet while its contents are about to be read. *)
Lemma not_open st a t :
  denotes mem a t -> open_above st (tree_nodes t) -> set_contains (active_containers st) a = false.
Proof.
  intros Hd [Ho _]. destruct (set_contains _ a) eqn:E; [|done].
  destruct (Ho a E) as (t' & Hd' & Hlt). rewrite (denotes_unique _ _ _ _ Hd Hd') in Hlt. lia.
Qed.

(** The state in which the children of a container are read. *)
Lemma open_children st a t active n c :
  denotes mem a t -> open_above st (tree_nodes t) -> n < tree_nodes t ->
  (forall x, set_contains active x = true <-> x = a \/ set_contains (active_containers st) x = true) ->
  room active = room (active_containers st) - 1 ->
  open_above (VState (nodes st + 1) c active) n.
Proof.
  intros Hd [Ho Hr] Hn Hact Hroom. split; simpl; [|lia].
  intros x [->|Hx]%Hact; [by exists t|]. destruct (Ho x Hx) as (u & ? & ?). exists u. split; [done|lia].
Qed.

Lemma Forall2_with {T U} (P : U -> Prop) (R R' : T -> U -> Prop) l k :
  Forall2 R l k -> Forall P k -> (forall x y, R x y -> P y -> R' x y) -> Forall2 R' l k.
Proof. induction 1; inversion 1; subst; intros; constructor; eauto. Qed.

Lemma node_unfold levels (st : state) a d :
  mem a = View 0 d -> nodes st < max_nodes lim ->
  ts_host_validate_node utf8_valid lim mem (S levels) st a =
  let st := VState (nodes st + 1) (bytes st) (active_containers st) in
  match d with
  | VNull | VInt64 _ | VNumber _ => (STATUS_OK, st)
  | VBool b => (if (b <=? 1)%N then STATUS_OK else STATUS_VALIDATION_ERROR, st)
  | VString s => ts_host_validate_string utf8_valid lim st s false false
  | VArray items =>
      match charge_slice lim st items VIEW_SIZE with
      | (STATUS_OK, st) =>
          with_identity a st (fun st =>
            check_items (ts_host_validate_node utf8_valid lim mem levels) st (slice_items items))
      | r => r
      end
  | VRecord entries =>
      match charge_slice lim st entries ENTRY_SIZE with
      | (STATUS_OK, st) =>
          with_identity a st (fun st =>
            check_record utf8_valid lim (ts_host_validate_node utf8_valid lim mem levels) st entries)
      | r => r
      end
  | VOther _ => (STATUS_VALIDATION_ERROR, st)
  end.
Proof.
  intros Ha Hn. cbn [ts_host_validate_node]. rewrite Ha.
  by replace (nodes st =? max_nodes lim) with false by lia.
Qed.

Lemma leaf_complete (st : state) r :
  ok_state st -> nodes st + 1 <= max_nodes lim ->
  r = (STATUS_OK, VState (nodes st + 1) (bytes st) (active_containers st)) ->
  exists st', r = (STATUS_OK, st') /\ grown_same st st' 1 0.
Proof.
  intros [? ?] Hn ->. eexists. split; [done|]. split; [|done].
  unfold grown. simpl. split_and!; [lia|lia|]. split; simpl; lia.
Qed.

Lemma array_complete levels l a :
  Forall (fun t => forall a, denotes mem a t ->
    node_complete (ts_host_validate_node utf8_valid lim mem levels) a t) l ->
  denotes mem a (TArray l) ->
  node_complete (ts_host_validate_node utf8_valid lim mem (S levels)) a (TArray l).
Proof.
  intros IH Hden st Hst Hopen Hn Hb. pose proof (not_open st a _ Hden Hopen) as Hnot.
  inversion Hden as [| | | | |items ? Ha Hd Hl|]; subst. simpl in Hn, Hb.
  assert (Z.of_nat (length l) <= sum_of tree_nodes l) by apply sum_of_length, Forall_true, tree_nodes_pos.
  assert (0 <= sum_of tree_bytes l) by (apply sum_of_nonneg, Forall_true, tree_bytes_nonneg).
  pose proof (Forall2_length _ _ _ Hl) as Hlen. pose proof Hst as [Hst1 Hst2]. pose proof Hopen as [_ Hroom].
  rewrite (node_unfold _ _ _ _ Ha) by lia. cbv zeta. set (st1 := VState _ _ _).
  assert (charge_slice lim st1 items VIEW_SIZE =
          (STATUS_OK, charged st1 (VIEW_SIZE * Z.of_nat (length l)))) as ->.
  { apply (charge_slice_ok _ Hlim); [split; simpl; lia|done|]. rewrite Hlen.
    split_and!; [done|simpl; lia|simpl; lia|done]. }
  eassert (exists st', _ = (STATUS_OK, st') /\
    grown_same (charged st1 (VIEW_SIZE * Z.of_nat (length l))) st'
      (sum_of tree_nodes l) (sum_of tree_bytes l)) as (st' & Hst' & (Hn' & Hb' & Hok) & Hsame);
    [|exists st'; split; [exact Hst'|]; split; [|exact Hsame]; unfold grown in *; simpl in *; split_and!; [lia|lia|done]].
  unfold VIEW_SIZE in *. apply with_identity_complete; [done|simpl; lia|]. intros active Hact Hr.
  apply check_items_complete.
  - eapply Forall2_with; [exact Hl|exact IH|]. auto.
  - split; simpl; lia.
  - eapply (open_children st a (TArray l)); [done|done|simpl; lia|done|done].
  - simpl. lia.
  - simpl. lia.
Qed.

Lemma record_complete levels l a :
  Forall (fun e => forall a, denotes mem a e.2 ->
    node_complete (ts_host_validate_node utf8_valid lim mem levels) a e.2) l ->
  NoDup l.*1 -> Forall (fun k => key_valid utf8_valid k = true) l.*1 ->
  denotes mem a (TRecord l) ->
  node_complete (ts_host_validate_node utf8_valid lim mem (S levels)) a (TRecord l).
Proof.
  intros IH Hnd Hks Hden st Hst Hopen Hn Hb. pose proof (not_open st a _ Hden Hopen) as Hnot.
  inversion Hden as [| | | | | |entries ? Ha Hd Hl]; subst. simpl in Hn, Hb.
  assert (Z.of_nat (length l) <= sum_of (fun e => tree_nodes e.2) l).
  { apply sum_of_length, Forall_true. intros e. apply tree_nodes_pos. }
  assert (0 <= sum_of entry_bytes l).
  { apply sum_of_nonneg, Forall_true. intros [k t]. unfold entry_bytes. simpl.
    pose proof (tree_bytes_nonneg t). pose proof (str_size_nonneg k). lia. }
  fold entry_bytes in Hb.
  pose proof (Forall2_length _ _ _ Hl) as Hlen. pose proof Hst as [Hst1 Hst2]. pose proof Hopen as [_ Hroom].
  rewrite (node_unfold _ _ _ _ Ha) by lia. cbv zeta. set (st1 := VState _ _ _).
  assert (charge_slice lim st1 entries ENTRY_SIZE =
          (STATUS_OK, charged st1 (ENTRY_SIZE * Z.of_nat (length l)))) as ->.
  { apply (charge_slice_ok _ Hlim); [split; simpl; lia|done|]. rewrite Hlen.
    split_and!; [done|simpl; lia|simpl; lia|done]. }
  eassert (exists st', _ = (STATUS_OK, st') /\
    grown_same (charged st1 (ENTRY_SIZE * Z.of_nat (length l))) st'
      (sum_of (fun e => tree_nodes e.2) l) (sum_of entry_bytes l))
    as (st' & Hst' & (Hn' & Hb' & Hok) & Hsame);
    [|exists st'; split; [exact Hst'|]; split; [|exact Hsame]; unfold grown in *; simpl in *;
      fold entry_bytes; split_and!; [lia|lia|done]].
  unfold ENTRY_SIZE in *. apply with_identity_complete; [done|simpl; lia|]. intros active Hact Hr.
  unfold check_record. rewrite slice_count_items, Hlen by done.
  destruct (Z.of_nat (length l) =? 0) eqn:E.
  { destruct l; [|simpl in E; lia]. eexists. split; [done|]. apply grown_same_refl. split; simpl in *; lia. }
  destruct (init_succeeds (Z.of_nat (length l))) as (keys & Hinit & Hkroom). rewrite Hinit.
  apply check_entries_complete.
  - eapply Forall2_with; [exact Hl|exact IH|]. intros p e (Hp & Hk & Hpd) Hc. split_and!; auto.
  - done.
  - eapply Forall_impl; [exact Hks|]. intros k Hk. split; [done|]. by eapply init_law.
  - lia.
  - split; simpl; lia.
  - eapply (open_children st a (TRecord l)); [done|done|simpl; lia|done|done].
  - simpl. lia.
  - simpl. lia.
Qed.

Lemma node_complete_at t : forall levels a,
  denotes mem a t -> (tree_depth t <= levels)%nat -> tree_valid utf8_valid t = true ->
  node_complete (ts_host_validate_node utf8_valid lim mem levels) a t.
Proof.
  induction t as [|b|i|x|s|l IH|l IH] using tree_nested_ind; intros [|levels] a Hden Hdepth Hv;
    simpl in Hdepth; try lia.
  1-5: intros st Hst Hopen Hn Hb; simpl in Hn, Hb; inversion Hden as [Ha|? Ha|? Ha|? Ha|s' Ha Hd| |];
    subst; rewrite (node_unfold _ _ _ _ Ha) by lia.
  1, 3, 4: apply leaf_complete; [done|lia|done].
  - apply leaf_complete; [done|lia|]. simpl in Hv. by rewrite Hv.
  - cbv zeta. set (st1 := VState _ _ _). pose proof (str_size_nonneg (text_bytes s')). pose proof Hst as [? ?].
    exists (charged st1 (str_size (text_bytes s') + 1)). split.
    + apply (validate_string_ok _ _ Hlim); [split; simpl; lia|]. by split_and!; [| | | |simpl; lia|].
    + split; [|done]. unfold grown. simpl. split_and!; [lia|lia|]. split; simpl; lia.
  - apply array_complete; [|done]. simpl in Hv. rewrite forallb_forall in Hv.
    assert (max_of tree_depth l <= levels)%nat as Hmax%max_of_le by lia.
    rewrite Forall_forall in IH, Hmax |- *. intros t Ht c Hc.
    apply IH; [done|done|by apply Hmax|by apply Hv, list_elem_of_In].
  - simpl in Hv. apply andb_prop in Hv as [Hnd%bool_decide_eq_true Hv]. rewrite forallb_forall in Hv.
    assert (max_of (fun e => tree_depth e.2) l <= levels)%nat as Hmax%max_of_le by lia.
    apply record_complete; [|done| |done].
    + rewrite Forall_forall in IH, Hmax |- *. intros e He c Hc. apply IH; [done|done|by apply Hmax|].
      apply list_elem_of_In, Hv, andb_prop in He as [_ He]. done.
    + apply Forall_fmap, Forall_forall. intros e He. apply list_elem_of_In, Hv, andb_prop in He as [He _]. done.
Qed.
End complete.

(** ** The validator is exact *)

(** The views are the trees [ts], which are valid and within the limits. *)
Definition views_within {A} (utf8_valid : string -> bool) (lim : value_limits) (mem : memory A)
    (values : slice A) (ts : list tree) : Prop :=
  Forall2 (denotes mem) (slice_items values) ts /\
  Forall (fun t => (tree_depth t <= levels_of lim)%nat /\ tree_valid utf8_valid t = true) ts /\
  sum_of tree_nodes ts <= max_nodes lim /\ sum_of tree_bytes ts <= max_bytes lim.

Section exactness.
Context {A SA SK : Type} (utf8_valid : string -> bool) (lim : value_limits) (mem : memory A).
Hypothesis Hlim : limits_ok lim.

Lemma validate_sound `{HashSetLaws A SA, HashSetLaws string SK} (values : slice A) :
  ts_host_validate_value_views (SA:=SA) (SK:=SK) utf8_valid lim mem values = STATUS_OK ->
  slice_dangling values = false /\ 0 < max_depth lim /\ 0 < max_nodes lim /\ 0 < max_bytes lim /\
  exists ts, views_within utf8_valid lim mem values ts.
Proof.
  unfold ts_host_validate_value_views. destruct (_ || _) eqn:E; [done|]. bool_props.
  destruct Hlim as (? & ? & ?).
  destruct (set_init _) as [[] active]; try done. intros Hc.
  destruct (check_items _ _ _) as [s st'] eqn:Ei. simpl in Hc. subst s.
  apply (check_items_sound lim _ (node_means utf8_valid mem (levels_of lim))) in Ei
    as (ts & Hts & Hn & Hb & [? ?]); [|by apply node_sound_at|split; simpl; lia].
  split_and!; [done|lia..|]. exists ts. simpl in Hn, Hb.
  split; [|split; [|split; lia]].
  - eapply Forall2_impl; [exact Hts|]. by intros a t [].
  - eapply Forall2_Forall_r; [exact Hts|]. apply Forall_true. by intros a t (_ & ? & ?).
Qed.

Lemma validate_views_iff `{ReliableSet A SA, ReliableSet string SK} (values : slice A) :
  ts_host_validate_value_views (SA:=SA) (SK:=SK) utf8_valid lim mem values = STATUS_OK <->
  slice_dangling values = false /\ 0 < max_depth lim /\ 0 < max_nodes lim /\ 0 < max_bytes lim /\
  exists ts, views_within utf8_valid lim mem values ts.
Proof.
  split; [apply validate_sound|]. intros (Hd & ? & ? & ? & ts & Hts & Hall & Hn & Hb).
  unfold ts_host_validate_value_views. rewrite Hd.
  replace (max_depth lim =? 0) with false by lia. replace (max_nodes lim =? 0) with false by lia.
  replace (max_bytes lim =? 0) with false by lia. simpl.
  destruct (init_succeeds (K:=A) (S:=SA) (max_nodes lim)) as (active & Hinit & Hroom). rewrite Hinit.
  destruct (check_items_complete lim mem (ts_host_validate_node utf8_valid lim mem (levels_of lim))
    (slice_items values) ts (VState 0 0 active)) as (st' & -> & _); [|split; simpl; lia| |done|done|done].
  - eapply Forall2_with; [exact Hts|exact Hall|]. intros a t Ht [??]. by apply node_complete_at.
  - split; simpl; [|lia]. intros a Ha. by rewrite (init_law _ _ _ Hinit) in Ha.
Qed.

(** C4: Views are accepted if and only if they unfold to finite trees that are within
    the depth, node and byte limits of the call, hold booleans below 2, valid UTF-8
    and records with distinct, non-empty keys without NUL; this holds for every
    memory, also one in which views are shared or tied into cycles, and no input
    makes the walk run on. *)
Theorem validate_exact_views `{ReliableSet A SA, ReliableSet string SK} (values : slice A) :
  ts_host_validate_value_views (SA:=SA) (SK:=SK) utf8_valid lim mem values = STATUS_OK <->
  slice_dangling values = false /\ 0 < max_depth lim /\ 0 < max_nodes lim /\ 0 < max_bytes lim /\
  exists ts, views_within utf8_valid lim mem values ts.
Proof. apply validate_views_iff. Qed.

(** [b] is an item or a field of [a]. *)
Definition child (a b : A) : Prop :=
  match as_ (mem a) with
  | VArray items => b ∈ slice_items items
  | VRecord entries => b ∈ (slice_items entries).*2
  | _ => False
  end.

Lemma denotes_child a b t :
  denotes mem a t -> child a b -> exists u, denotes mem b u /\ tree_nodes u < tree_nodes t.
Proof.
  unfold child. intros Hd. destruct Hd as [E|? E|? E|? E|? E ?|items l E _ Hl|entries l E _ Hl];
    rewrite E; simpl; try done.
  - intros Hb. destruct (list_elem_of_lookup_1 _ _ Hb) as [i Hi].
    destruct (Forall2_lookup_l _ _ _ _ _ Hl Hi) as (u & Hu & Hd). exists u. split; [done|].
    pose proof (sum_of_in tree_nodes l u). apply list_elem_of_lookup_2 in Hu.
    enough (tree_nodes u <= sum_of tree_nodes l) by lia. apply sum_of_in; [|done].
    apply Forall_true. intros w. pose proof (tree_nodes_pos w). lia.
  - intros ([k c] & -> & Hb)%list_elem_of_fmap. destruct (list_elem_of_lookup_1 _ _ Hb) as [i Hi].
    destruct (Forall2_lookup_l _ _ _ _ _ Hl Hi) as ([k' u] & Hu & _ & _ & Hd). exists u. split; [done|].
    apply list_elem_of_lookup_2 in Hu.
    enough (tree_nodes (k', u).2 <= sum_of (fun e => tree_nodes e.2) l) by (simpl in *; lia).
    apply (sum_of_in (fun e => tree_nodes e.2)); [|done].
    apply Forall_true. intros w. pose proof (tree_nodes_pos w.2). lia.
Qed.

Lemma denotes_descendant a b t :
  denotes mem a t -> tc child a b -> exists u, denotes mem b u /\ tree_nodes u < tree_nodes t.
Proof.
  intros Hd Hc. revert t Hd. induction Hc as [a b Hab|a c b Hac _ IH]; intros t Hd.
  - by eapply denotes_child.
  - destruct (denotes_child _ _ _ Hd Hac) as (u & Hu & Hlt).
    destruct (IH u Hu) as (w & Hw & Hlt'). exists w. split; [done|lia].
Qed.

(** A view from which a cycle of arrays and records can be reached is never
    accepted, even when the hash sets fail to allocate. *)
Theorem view_cycle_rejected `{HashSetLaws A SA, HashSetLaws string SK} (values : slice A) v a :
  v ∈ slice_items values -> rtc child v a -> tc child a a ->
  ts_host_validate_value_views (SA:=SA) (SK:=SK) utf8_valid lim mem values <> STATUS_OK.
Proof.
  intros Hv Hva Haa Hok. apply validate_sound in Hok as (_ & _ & _ & _ & ts & Hts & _).
  destruct (list_elem_of_lookup_1 _ _ Hv) as [i Hi].
  destruct (Forall2_lookup_l _ _ _ _ _ Hts Hi) as (t & _ & Ht).
  assert (exists u, denotes mem a u) as (u & Hu).
  { apply rtc_tc in Hva as [<-|Hva]; [by exists t|].
    destruct (denotes_descendant _ _ _ Ht Hva) as (u & Hu & _). by exists u. }
  destruct (denotes_descendant _ _ _ Hu Haa) as (w & Hw & Hlt).
  rewrite (denotes_unique _ _ _ _ Hu Hw) in Hlt. lia.
Qed.
End exactness.

(** ** Bounded sets, and the theorems at work *)

Record bounded_set (K : Type) `{Countable K} := BoundedSet { members : gset K; capacity : Z }.
Arguments BoundedSet {K _ _} _ _.
Arguments members {K _ _} _.
Arguments capacity {K _ _} _.

Section bounded_set.
Context {K : Type} `{Countable K}.

#[export] Instance bounded_hash_set : HashSet K (bounded_set K) := {|
  set_init n := (STL_OK, BoundedSet ∅ n);
  set_contains s k := bool_decide (k ∈ members s);
  set_add s k :=
    if decide (k ∈ members s) then (STL_OK, s)
    else if Z.of_nat (size (members s)) <? capacity s
         then (STL_OK, BoundedSet ({[k]} ∪ members s) (capacity s))
         else (STL_CAPACITY_EXCEEDED, s);
  set_remove s k :=
    if decide (k ∈ members s) then (STL_OK, BoundedSet (members s ∖ {[k]}) (capacity s))
    else (STL_FAILED, s)
|}.

#[export, refine] Instance bounded_set_laws : HashSetLaws K (bounded_set K) :=
  {| init_law := _; add_law := _; remove_law := _ |}.
Proof.
  - intros n s k [= <-]. by apply bool_decide_eq_false.
  - intros s k s' j. simpl. rewrite !bool_decide_eq_true. destruct (decide _) as [Hk|Hk].
    + intros [= <-]. split; [tauto|]. by intros [->|].
    + destruct (_ <? _); [|done]. intros [= <-]. simpl. set_solver.
  - intros s k s' j. simpl. rewrite !bool_decide_eq_true. destruct (decide _) as [Hk|Hk]; [|done].
    intros [= <-]. simpl. set_solver.
Defined.

#[export, refine] Instance bounded_set_reliable : ReliableSet K (bounded_set K) :=
  {| room s := capacity s - Z.of_nat (size (members s)) |}.
Proof.
  - intros n. eexists. split; [done|]. cbn [members capacity]. rewrite size_empty. lia.
  - intros s k Hk Hr. apply bool_decide_eq_false in Hk. simpl in *. rewrite decide_False by done.
    replace (_ <? _) with true by lia. eexists. split; [done|]. cbn [members capacity].
    rewrite size_union by set_solver. rewrite size_singleton. lia.
  - intros s k Hk. apply bool_decide_eq_true in Hk. simpl in *. rewrite decide_True by done.
    eexists. split; [done|]. simpl. rewrite size_difference by set_solver. rewrite size_singleton.
    assert (size (members s) <> 0%nat) by (intros E%size_empty_inv; set_solver). lia.
Defined.
End bounded_set.

Definition any_text (_ : string) : bool := true.
Definition sample_limits : value_limits := ValueLimits 4 16 1024.

(** An array that shares its only item with a record, and a cycle at 9. *)
Definition sample_memory : memory Z := fun a =>
  View 0 (if a =? 1 then VArray (Items [2; 2; 3])
          else if a =? 2 then VString (Text "x")
          else if a =? 3 then VRecord (Items [(Text "k", 2)])
          else if a =? 9 then VArray (Items [2; 9]) else VNull).

Lemma sample_limits_ok : limits_ok sample_limits.
Proof. split; [|split]; split; vm_compute; discriminate. Qed.

Lemma validate_exact_views_witness :
  exists ts, views_within any_text sample_limits sample_memory (Items [1; 2]) ts.
Proof.
  apply (validate_exact_views (SA:=bounded_set Z) (SK:=bounded_set string) any_text sample_limits
    sample_memory sample_limits_ok (Items [1; 2])). vm_compute. reflexivity.
Defined.

Lemma view_cycle_rejected_witness :
  ts_host_validate_value_views (SA:=bounded_set Z) (SK:=bounded_set string)
    any_text sample_limits sample_memory (Items [2; 9]) <> STATUS_OK.
Proof.
  apply (view_cycle_rejected any_text sample_limits sample_memory sample_limits_ok (Items [2; 9]) 9 9).
  - apply list_elem_of_In. right. left. reflexivity.
  - apply rtc_refl.
  - apply tc_once. apply list_elem_of_In. right. left. reflexivity.
Defined.
