(* ===== verification/HostConvert.v ===== *)
(** Deep copies of views, and the conversions between views and script values, in
    [turbo_script/src/host/turbo_script_host_result.c].

    Once the validator has accepted a view, the view is the finite tree that it
    unfolds to ([HostViewProofs.v]); the copies and conversions walk that tree, and
    a deep copy is a tree again.  A temporary tree that is validated a second time
    is laid out in a memory whose addresses are the paths from its root. *)

From S2P Require Import Prelude HostStatus Float64 RtValue HostView.
Open Scope Z_scope.

(** ** The tree at an address *)

Section reading.
Context {A : Type} (mem : memory A).

Fixpoint view_tree (levels : nat) (a : A) : option tree :=
  match levels with
  | O => None
  | S levels =>
      match as_ (mem a) with
      | VNull => Some TNull
      | VBool b => Some (TBool b)
      | VInt64 i => Some (TInt64 i)
      | VNumber x => Some (TNumber x)
      | VString s => Some (TString (text_bytes s))
      | VArray items => TArray <$> mapM (view_tree levels) (slice_items items)
      | VRecord entries =>
          TRecord <$> mapM (fun e => t ← view_tree levels e.2; Some (text_bytes e.1, t))
                        (slice_items entries)
      | VOther _ => None
      end
  end.
End reading.

(** ** A tree in memory *)

Fixpoint subtree (t : tree) (path : list nat) : option tree :=
  match path with
  | [] => Some t
  | i :: path =>
      match t with
      | TArray l => t ← l !! i; subtree t path
      | TRecord l => e ← l !! i; subtree e.2 path
      | _ => None
      end
  end.

Definition node_view (path : list nat) (t : tree) : view_data (list nat) :=
  match t with
  | TNull => VNull
  | TBool b => VBool b
  | TInt64 i => VInt64 i
  | TNumber x => VNumber x
  | TString s => VString (Text s)
  | TArray l => VArray (Items (imap (fun i _ => path ++ [i]) l))
  | TRecord l => VRecord (Items (imap (fun i e => (Text e.1, path ++ [i])) l))
  end.

Definition tree_memory (t : tree) : memory (list nat) := fun path =>
  View 0 match subtree t path with Some s => node_view path s | None => VNull end.

(** ** Deep copies *)

Definition ts_host_copy_string (s : string) : fallible string := _ ← attempt; mret s.

(** An array of copies is allocated when it has elements. *)
Definition copy_array {T} (l : list T) : fallible unit :=
  if (length l =? 0)%nat then mret tt else attempt.

Fixpoint ts_host_copy_view (source : tree) : fallible tree :=
  match source with
  | TString s => s ← ts_host_copy_string s; mret (TString s)
  | TArray l => _ ← copy_array l; l ← mapM ts_host_copy_view l; mret (TArray l)
  | TRecord l =>
      _ ← copy_array l;
      l ← mapM (fun e => k ← ts_host_copy_string e.1; t ← ts_host_copy_view e.2; mret (k, t)) l;
      mret (TRecord l)
  | TNull | TBool _ | TInt64 _ | TNumber _ => mret source
  end.

(** ** From views to script values *)

Section conversion.
Context `{Slots}.

(** Without memory the new table is NULL, which is the end of the conversion.  A child is new: its
    table is not the one of the map. *)
Fixpoint ts_host_build_exprtk_value (source : tree) : fallible xvalue :=
  match source with
  | TNull => mret XNull
  | TBool b => mret (XBool (Z.of_N b))
  | TInt64 i => mret (XInteger i)
  | TNumber x => mret (XNumber x)
  | TString s => mret (XString (Text s))
  | TArray l =>
      fold_m (fun value t =>
        child ← ts_host_build_exprtk_value t;
        exprtk_list_push value child) exprtk_val_list_empty l
  | TRecord l =>
      slots ← exprtk_map_storage_create;
      fold_m (fun value e =>
        key ← ts_host_copy_string e.1;
        child ← ts_host_build_exprtk_value e.2;
        exprtk_map_set false value (cut_nul key) child) (XMap false (Some slots)) l
  end.

(** What the conversion leaves: the status, the value, and the message with which it
    aborted the environment, if it did. *)
Record from_view := FromView { fv_status : status; fv_value : xvalue; fv_abort : option string }.

Context {A SA SK : Type} `{HashSet A SA, HashSet string SK} (utf8_valid : string -> bool).
Context (lim : value_limits) (mem : memory A).

Definition ts_host_value_from_view_in_env (value : option A) (h : heap) : from_view * heap :=
  let failed s := FromView s XNull None in
  match ts_host_validate_value_view (SA:=SA) (SK:=SK) utf8_valid lim mem value with
  | STATUS_OK =>
      match attempt h with                               (* the key arena *)
      | (None, h) => (failed STATUS_OUT_OF_MEMORY, h)
      | (Some _, h) =>
          match value ≫= view_tree mem (levels_of lim) with
          | None => (failed STATUS_VALIDATION_ERROR, h)  (* never: the view is a tree *)
          | Some t =>
              match ts_host_build_exprtk_value t h with
              | (None, h) => (failed STATUS_OUT_OF_MEMORY, h)
              | (Some temporary, h) =>
                  match exprtk_value_copy_to_env temporary h with
                  | (Some v, abort, h) => (FromView STATUS_OK v abort, h)
                  | (None, abort, h) => (FromView STATUS_OUT_OF_MEMORY XNull abort, h)
                  end
              end
          end
      end
  | s => (failed s, h)
  end.

(** [owner]: the call is made on the thread that owns the context. *)
Definition ts_host_context_check_thread (owner : bool) : status :=
  if owner then STATUS_OK else STATUS_WRONG_THREAD.

Definition ts_host_value_from_view (owner : bool) (value : option A) (h : heap) : from_view * heap :=
  match ts_host_context_check_thread owner with
  | STATUS_OK => ts_host_value_from_view_in_env value h
  | s => (FromView s XNull None, h)
  end.
End conversion.

(** ** From script values to views *)

Section to_view.
Context (utf8_valid : string -> bool) (lim : value_limits).

(** [ts_host_exprtk_view_state_t]; the arena is the heap. *)
Record wstate := WState { wnodes : Z; wbytes : Z; wheap : heap }.

Definition ts_host_exprtk_view_charge (st : wstate) (count element_size : Z) : status * wstate :=
  if negb (count =? 0) && (SIZE_MAX / count <? element_size) then (STATUS_LIMIT_EXCEEDED, st)
  else
    let amount := count * element_size in
    if (max_bytes lim <? wbytes st) || (max_bytes lim - wbytes st <? amount)
    then (STATUS_LIMIT_EXCEEDED, st)
    else (STATUS_OK, WState (wnodes st) (wbytes st + amount) (wheap st)).

(** The array of the [count] children, if there are any. *)
Definition view_array (st : wstate) (count element_size : Z) : status * wstate :=
  if wrapu 64 (max_nodes lim - wnodes st) <? count then (STATUS_LIMIT_EXCEEDED, st)
  else match ts_host_exprtk_view_charge st count element_size with
       | (STATUS_OK, st) =>
           if count =? 0 then (STATUS_OK, st)
           else let (ok, h) := alloc (wheap st) in
                (if ok then STATUS_OK else STATUS_OUT_OF_MEMORY, WState (wnodes st) (wbytes st) h)
       | r => r
       end.

Fixpoint view_all {T U} (f : wstate -> T -> status * U * wstate) (st : wstate) (l : list T)
    : status * list U * wstate :=
  match l with
  | [] => (STATUS_OK, [], st)
  | x :: l =>
      match f st x with
      | (STATUS_OK, u, st) =>
          let '(s, us, st) := view_all f st l in (s, u :: us, st)
      | (s, _, st) => (s, [], st)
      end
  end.

(** A key of a map: a C string. *)
Definition view_key (st : wstate) (key : string) : status * wstate :=
  let key := cut_nul key in
  if str_size key =? 0 then (STATUS_VALIDATION_ERROR, st)
  else if str_size key =? SIZE_MAX then (STATUS_LIMIT_EXCEEDED, st)
  else match ts_host_exprtk_view_charge st (str_size key + 1) 1 with
       | (STATUS_OK, st) => (if utf8_valid key then STATUS_OK else STATUS_INVALID_UTF8, st)
       | r => r
       end.

(** A view that is not written is [TNull]: its fields are zero. *)
Fixpoint ts_host_exprtk_to_view (source : xvalue) (levels : nat) (st : wstate)
    : status * tree * wstate :=
  match levels with
  | O => (STATUS_LIMIT_EXCEEDED, TNull, st)
  | S levels =>
      if wnodes st =? max_nodes lim then (STATUS_LIMIT_EXCEEDED, TNull, st)
      else
        let st := WState (wnodes st + 1) (wbytes st) (wheap st) in
        match source with
        | XNull => (STATUS_OK, TNull, st)
        | XBool b =>
            if negb (b =? 0) && negb (b =? 1) then (STATUS_VALIDATION_ERROR, TNull, st)
            else (STATUS_OK, TBool (Z.to_N b), st)
        | XInteger i => (STATUS_OK, TInt64 i, st)
        | XNumber x => (STATUS_OK, TNumber x, st)
        | XString s =>
            if text_dangling s then (STATUS_INVALID_STATE, TNull, st)
            else if text_size s =? SIZE_MAX then (STATUS_LIMIT_EXCEEDED, TNull, st)
            else match ts_host_exprtk_view_charge st (text_size s + 1) 1 with
                 | (STATUS_OK, st) =>
                     if utf8_valid (text_bytes s) then (STATUS_OK, TString (text_bytes s), st)
                     else (STATUS_INVALID_UTF8, TNull, st)
                 | (e, st) => (e, TNull, st)
                 end
        | XVectorNull n =>
            if negb (n =? 0) then (STATUS_INVALID_STATE, TNull, st)
            else match view_array st 0 VIEW_SIZE with
                 | (STATUS_OK, st) => (STATUS_OK, TArray [], st)
                 | (e, st) => (e, TNull, st)
                 end
        | XVector l =>
            let n := Z.of_nat (length l) in
            match view_array st n VIEW_SIZE with
            | (STATUS_OK, st) =>
                (STATUS_OK, TArray (TNumber <$> l), WState (wnodes st + n) (wbytes st) (wheap st))
            | (e, st) => (e, TNull, st)
            end
        | XList false l =>
            match view_array st (Z.of_nat (length l)) VIEW_SIZE with
            | (STATUS_OK, st) =>
                match view_all (fun st v => ts_host_exprtk_to_view v levels st) st l with
                | (STATUS_OK, ts, st) => (STATUS_OK, TArray ts, st)
                | (e, _, st) => (e, TNull, st)
                end
            | (e, st) => (e, TNull, st)
            end
        | XMap _ None =>
            match view_array st 0 ENTRY_SIZE with
            | (STATUS_OK, st) => (STATUS_OK, TRecord [], st)
            | (e, st) => (e, TNull, st)
            end
        | XMap _ (Some l) =>
            match view_array st (Z.of_nat (length l)) ENTRY_SIZE with
            | (STATUS_OK, st) =>
                match view_all (fun st e =>
                        match view_key st e.1 with
                        | (STATUS_OK, st) =>
                            let '(s, t, st) := ts_host_exprtk_to_view e.2 levels st in
                            (s, (cut_nul e.1, t), st)
                        | (s, st) => (s, (EmptyString, TNull), st)
                        end) st l with
                | (STATUS_OK, ts, st) => (STATUS_OK, TRecord ts, st)
                | (e, _, st) => (e, TNull, st)
                end
            | (e, st) => (e, TNull, st)
            end
        | XBytes _ | XBigint _ | XEnum _ _ _ _ _ | XTyped _ _ _ | XList true _ | XOther _ _ =>
            (STATUS_VALIDATION_ERROR, TNull, st)
        end
  end.
End to_view.
