(* ===== verification/HostConvertProofs.v ===== *)
(** Views and script values: a deep copy is the same tree, a validated view becomes
    an equal script value, and the value reads back as the same view within the same
    limits, up to the order of the record entries. *)

From S2P Require Import Prelude HostStatus Float64 RtValue HostView HostViewProofs HostConvert.
Open Scope Z_scope.

(** ** Reading a tree, and laying one out *)

Lemma mapM_Forall2 {T U} (f : T -> option U) (R : T -> U -> Prop) l k :
  Forall2 R l k -> (forall x y, R x y -> f x = Some y) -> mapM f l = Some k.
Proof. intros Hl Hf. apply mapM_Some. eapply Forall2_impl; [exact Hl|exact Hf]. Qed.

Lemma view_tree_denotes {A} (mem : memory A) t : forall levels a,
  denotes mem a t -> (tree_depth t <= levels)%nat -> view_tree mem levels a = Some t.
Proof.
  induction t as [|b|i|x|s|l IH|l IH] using tree_nested_ind; intros [|levels] a Hden Hdepth;
    simpl in Hdepth; try lia; inversion Hden as [E|? E|? E|? E|? E ?|items ? E _ Hl|entries ? E _ Hl];
    subst; simpl; rewrite E; simpl; try done.
  - assert (max_of tree_depth l <= levels)%nat as Hmax%max_of_le by lia.
    rewrite (mapM_Forall2 _ (fun a t => denotes mem a t /\ view_tree mem levels a = Some t) _ l); [done| |].
    + eapply Forall2_with; [exact Hl|apply Forall_and; exact (conj IH Hmax)|].
      intros x t Hx [Ht Hd]. split; [done|]. by apply Ht.
    + by intros x t [_ ?].
  - assert (max_of (fun e => tree_depth e.2) l <= levels)%nat as Hmax%max_of_le by lia.
    rewrite (mapM_Forall2 _ (fun p e => text_bytes p.1 = e.1 /\ view_tree mem levels p.2 = Some e.2) _ l); [done| |].
    + eapply Forall2_with; [exact Hl|apply Forall_and; exact (conj IH Hmax)|].
      intros p e (_ & Hk & Hx) [Ht Hd]. split; [done|]. by apply Ht.
    + intros p [k t] [Hk Ht]. simpl in *. by rewrite Ht, <- Hk.
Qed.

Lemma subtree_app t p q : subtree t (p ++ q) = s ← subtree t p; subtree s q.
Proof.
  revert t. induction p as [|i p IH]; intros t; [done|]. simpl.
  destruct t as [| | | | |l|l]; try done; destruct (l !! i); [apply IH|done|apply IH|done].
Qed.

Lemma tree_memory_denotes t s : forall p,
  subtree t p = Some s -> denotes (tree_memory t) p s.
Proof.
  induction s as [|b|i|x|s|l IH|l IH] using tree_nested_ind; intros p Hp;
    assert (tree_memory t p = View 0 (node_view p _)) as E by (unfold tree_memory; rewrite Hp; reflexivity);
    simpl in E; try by constructor.
  - by apply (denotes_string (tree_memory t) p (Text s)).
  - eapply denotes_array; [exact E|done|]. simpl. apply Forall2_same_length_lookup_2; [by rewrite length_imap|].
    intros i a u Ha Hu. rewrite list_lookup_imap in Ha. rewrite Hu in Ha. injection Ha as <-.
    rewrite Forall_lookup in IH. apply (IH i u Hu). rewrite subtree_app, Hp. simpl. by rewrite Hu.
  - eapply denotes_record; [exact E|done|]. simpl. apply Forall2_same_length_lookup_2; [by rewrite length_imap|].
    intros i a u Ha Hu. rewrite list_lookup_imap in Ha. rewrite Hu in Ha. injection Ha as <-.
    split_and!; [done..|]. rewrite Forall_lookup in IH. apply (IH i u Hu).
    simpl. rewrite subtree_app, Hp. simpl. by rewrite Hu.
Qed.

(** ** Deep copies *)

Lemma fallibly_mapM {T U} (f : T -> fallible U) (R : T -> U -> Prop) l :
  Forall (fun x => fallibly (f x) (R x)) l -> fallibly (mapM f l) (fun k => Forall2 R l k).
Proof.
  induction 1 as [|x l Hx _ IH]; simpl; [by apply fallibly_ret|].
  eapply fallibly_bind; [exact Hx|]. intros y Hy. eapply fallibly_bind; [exact IH|]. intros k Hk.
  apply fallibly_ret. by constructor.
Qed.

Lemma copy_array_ok {T} (l : list T) : fallibly (copy_array l) (fun _ => True).
Proof. unfold copy_array. case_match; [by apply fallibly_ret|apply fallibly_attempt]. Qed.

Lemma copy_string_ok s : fallibly (ts_host_copy_string s) (fun s' => s' = s).
Proof. eapply fallibly_bind; [apply fallibly_attempt|]. intros _ _. by apply fallibly_ret. Qed.

Lemma Forall2_eq {T} (l k : list T) : Forall2 (fun x y => y = x) l k -> k = l.
Proof. induction 1; congruence. Qed.

Lemma copy_view_ok t : fallibly (ts_host_copy_view t) (fun t' => t' = t).
Proof.
  induction t as [| | | |s|l IH|l IH] using tree_nested_ind; simpl; try by apply fallibly_ret.
  - eapply fallibly_bind; [apply copy_string_ok|]. intros ? ->. by apply fallibly_ret.
  - eapply fallibly_bind; [apply copy_array_ok|]. intros _ _.
    eapply fallibly_bind; [exact (fallibly_mapM _ _ _ IH)|]. intros k Hk. apply fallibly_ret.
    by apply Forall2_eq in Hk as ->.
  - eapply fallibly_bind; [apply copy_array_ok|]. intros _ _.
    eapply fallibly_bind; [apply (fallibly_mapM _ (fun e e' => e' = e))|].
    + eapply Forall_impl; [exact IH|]. intros [k t] Ht. simpl.
      eapply fallibly_bind; [apply copy_string_ok|]. intros ? ->.
      eapply fallibly_bind; [exact Ht|]. intros ? ->. by apply fallibly_ret.
    + intros k Hk. apply fallibly_ret. by apply Forall2_eq in Hk as ->.
Qed.

(** ** The value of a tree and the tree of a value *)

Fixpoint value_of (t : tree) : xvalue :=
  match t with
  | TNull => XNull
  | TBool b => XBool (Z.of_N b)
  | TInt64 i => XInteger i
  | TNumber x => XNumber x
  | TString s => XString (Text s)
  | TArray l => XList false (value_of <$> l)
  | TRecord l => XMap false (Some ((fun e => (e.1, value_of e.2)) <$> l))
  end.

Fixpoint tree_of (v : xvalue) : tree :=
  match v with
  | XBool b => TBool (Z.to_N b)
  | XInteger i => TInt64 i
  | XNumber x => TNumber x
  | XString s => TString (text_bytes s)
  | XVector l => TArray (TNumber <$> l)
  | XVectorNull _ => TArray []
  | XList false l => TArray (tree_of <$> l)
  | XMap _ None => TRecord []
  | XMap _ (Some l) => TRecord ((fun e => (cut_nul e.1, tree_of e.2)) <$> l)
  | _ => TNull
  end.

(** The values that have a view: no other types, and no dangling payloads. *)
Fixpoint viewable (v : xvalue) : bool :=
  match v with
  | XNull | XInteger _ | XNumber _ | XVector _ | XMap _ None => true
  | XBool b => (b =? 0) || (b =? 1)
  | XString s => negb (text_dangling s)
  | XVectorNull n => n =? 0
  | XList set l => negb set && forallb viewable l
  | XMap _ (Some l) => forallb (fun e => viewable e.2) l
  | _ => false
  end.

(** Views that a script cannot tell apart: the order of record entries is free. *)
#[export] Instance tree_equiv : Equiv tree := fun t t' => value_of t ≡ value_of t'.

#[export] Instance tree_equivalence : Equivalence (≡@{tree}).
Proof.
  split; unfold equiv, tree_equiv.
  - by intros t.
  - by intros t t' ->.
  - by intros t t' t'' -> ->.
Qed.

#[export] Instance sum_of_perm {T} (f : T -> Z) : Proper ((≡ₚ) ==> eq) (sum_of f).
Proof. intros l l'. induction 1; simpl; lia. Qed.

#[export] Instance max_of_perm {T} (f : T -> nat) : Proper ((≡ₚ) ==> eq) (max_of f).
Proof. intros l l'. induction 1; simpl; lia. Qed.

Lemma sum_of_fmap {T U} (g : T -> U) (f : U -> Z) l : sum_of f (g <$> l) = sum_of (fun x => f (g x)) l.
Proof. induction l as [|x l IH]; [done|]. rewrite fmap_cons. simpl. by rewrite <- IH. Qed.

Lemma max_of_fmap {T U} (g : T -> U) (f : U -> nat) l : max_of f (g <$> l) = max_of (fun x => f (g x)) l.
Proof. induction l as [|x l IH]; [done|]. rewrite fmap_cons. simpl. by rewrite <- IH. Qed.

Lemma forallb_fmap {T U} (g : T -> U) (f : U -> bool) l : forallb f (g <$> l) = forallb (fun x => f (g x)) l.
Proof. induction l as [|x l IH]; [done|]. rewrite fmap_cons. simpl. by rewrite <- IH. Qed.

Lemma sum_of_Forall2 {T U} (R : T -> U -> Prop) f g l k :
  Forall2 R l k -> (forall x y, R x y -> f x = g y :> Z) -> sum_of f l = sum_of g k.
Proof. intros Hl Hf. induction Hl as [|x y l k Hx _ IH]; simpl; [done|]. by rewrite IH, (Hf _ _ Hx). Qed.

Lemma max_of_Forall2 {T U} (R : T -> U -> Prop) f g l k :
  Forall2 R l k -> (forall x y, R x y -> f x = g y :> nat) -> max_of f l = max_of g k.
Proof. intros Hl Hf. induction Hl as [|x y l k Hx _ IH]; simpl; [done|]. by rewrite IH, (Hf _ _ Hx). Qed.

Lemma forallb_Forall2 {T U} (R : T -> U -> Prop) f g l k :
  Forall2 R l k -> (forall x y, R x y -> f x = g y :> bool) -> forallb f l = forallb g k.
Proof. intros Hl Hf. induction Hl as [|x y l k Hx _ IH]; simpl; [done|]. by rewrite IH, (Hf _ _ Hx). Qed.

Definition view_entry (e : string * xvalue) : string * tree := (cut_nul e.1, tree_of e.2).

Lemma tree_of_map b h : tree_of (XMap b h) = TRecord (view_entry <$> slots h).
Proof. by destruct h. Qed.

Lemma viewable_map b h : viewable (XMap b h) = forallb (fun e => viewable e.2) (slots h).
Proof. by destruct h. Qed.

(** Equal values have equal views, which cost the same. *)
Definition same_view (utf8_valid : string -> bool) (v v' : xvalue) : Prop :=
  tree_of v ≡ tree_of v' /\ viewable v = viewable v' /\
  tree_nodes (tree_of v) = tree_nodes (tree_of v') /\
  tree_bytes (tree_of v) = tree_bytes (tree_of v') /\
  tree_depth (tree_of v) = tree_depth (tree_of v') /\
  tree_valid utf8_valid (tree_of v) = tree_valid utf8_valid (tree_of v').

Lemma canon_text_same s :
  text_bytes (canon_text s) = text_bytes s /\ text_dangling (canon_text s) = text_dangling s.
Proof.
  destruct s as [n|s]; simpl; [|split; reflexivity].
  destruct (n =? 0) eqn:E; simpl; [|by rewrite E]. split; reflexivity.
Qed.

Lemma canon_same v : tree_of (canon v) = tree_of v /\ viewable (canon v) = viewable v.
Proof.
  destruct v as [| | | |s|s|s|f t s x i|l|n|k n d|b l|b h|]; simpl; try (split; reflexivity).
  - destruct (canon_text_same s) as [-> ->]. split; reflexivity.
  - destruct (n =? 0) eqn:E; simpl; [|rewrite E]; split; reflexivity.
  - destruct (n <=? 0); split; reflexivity.
Qed.

Lemma leaf_same_view u v v' : canon v = canon v' -> same_view u v v'.
Proof.
  intros Hc. unfold same_view. destruct (canon_same v) as [<- <-], (canon_same v') as [<- <-].
  rewrite Hc. repeat match goal with |- _ /\ _ => split end; reflexivity.
Qed.

Lemma entries_same_view u l e :
  Forall2 (entry_rel (fun v v' => same_view u v v')) l e ->
  sum_of (fun e => tree_nodes e.2) (view_entry <$> l) = sum_of (fun e => tree_nodes e.2) (view_entry <$> e) /\
  sum_of (fun e => str_size e.1 + 1 + tree_bytes e.2) (view_entry <$> l) =
    sum_of (fun e => str_size e.1 + 1 + tree_bytes e.2) (view_entry <$> e) /\
  max_of (fun e => tree_depth e.2) (view_entry <$> l) = max_of (fun e => tree_depth e.2) (view_entry <$> e) /\
  forallb (fun e => key_valid u e.1 && tree_valid u e.2) (view_entry <$> l) =
    forallb (fun e => key_valid u e.1 && tree_valid u e.2) (view_entry <$> e) /\
  forallb (fun e => viewable e.2) l = forallb (fun e => viewable e.2) e /\
  (view_entry <$> l).*1 = (view_entry <$> e).*1.
Proof.
  induction 1 as [|[k v] [k' v'] l e [Hk (_ & Hv & Hn & Hb & Hd & Hval)] _ (IH1 & IH2 & IH3 & IH4 & IH5 & IH6)];
    [repeat match goal with |- _ /\ _ => split end; reflexivity|].
  simpl in Hk, Hv, Hn, Hb, Hd, Hval. subst k'. rewrite !fmap_cons. simpl.
  rewrite Hn, Hb, Hd, Hval, Hv. unfold sum_of, max_of in *. rewrite !IH1, !IH2, !IH3, IH4, IH5.
  repeat match goal with |- _ /\ _ => split end; try reflexivity. by rewrite IH6.
Qed.

Lemma record_perm u l l' :
  l ≡ₚ l' ->
  tree_nodes (TRecord l) = tree_nodes (TRecord l') /\ tree_bytes (TRecord l) = tree_bytes (TRecord l') /\
  tree_depth (TRecord l) = tree_depth (TRecord l') /\ tree_valid u (TRecord l) = tree_valid u (TRecord l').
Proof.
  intros Hp. simpl. rewrite (bool_decide_ext (NoDup l.*1) (NoDup l'.*1)) by (by rewrite Hp).
  set (d := bool_decide _). clearbody d. rewrite Hp.
  repeat match goal with |- _ /\ _ => split end; reflexivity.
Qed.

Lemma map_same_view u b h h' e :
  Forall2 (entry_rel (same_view u)) (slots h) e -> e ≡ₚ slots h' ->
  same_view u (XMap b h) (XMap b h').
Proof.
  intros He Hp. unfold same_view. rewrite !tree_of_map, !viewable_map.
  destruct (entries_same_view u _ _ He) as (H1 & H2 & H3 & H4 & H5 & H6).
  split.
  - unfold equiv, tree_equiv. simpl. eapply (xeq_map _ _ _ ((fun x => (x.1, value_of x.2)) <$> (view_entry <$> e))).
    + simpl. clear -He. induction He as [|[k v] [k' v'] l e [Hk Hv] _ IH]; [constructor|].
      rewrite !fmap_cons. constructor; [|exact IH]. simpl in *. split; [by rewrite Hk|apply Hv].
    + simpl. by rewrite Hp.
  - destruct (record_perm u (view_entry <$> e) (view_entry <$> slots h')) as (<- & <- & <- & <-);
      [by rewrite Hp|].
    rewrite H5, Hp at 1. cbn [tree_nodes tree_bytes tree_depth tree_valid].
    rewrite H1, H2, H3, H4, H6, !length_fmap. apply Forall2_length in He. rewrite He.
    repeat match goal with |- _ /\ _ => split end; reflexivity.
Qed.

Lemma list_same_view u set l l' :
  Forall2 (same_view u) l l' -> same_view u (XList set l) (XList set l').
Proof.
  intros Hl. destruct set.
  { unfold same_view. simpl. repeat match goal with |- _ /\ _ => split end; reflexivity. }
  assert (sum_of tree_nodes (tree_of <$> l) = sum_of tree_nodes (tree_of <$> l') /\
    sum_of tree_bytes (tree_of <$> l) = sum_of tree_bytes (tree_of <$> l') /\
    max_of tree_depth (tree_of <$> l) = max_of tree_depth (tree_of <$> l') /\
    forallb (tree_valid u) (tree_of <$> l) = forallb (tree_valid u) (tree_of <$> l') /\
    forallb viewable l = forallb viewable l' /\
    Forall2 xeq (value_of <$> (tree_of <$> l)) (value_of <$> (tree_of <$> l')) /\
    length (tree_of <$> l) = length (tree_of <$> l')) as (H1 & H2 & H3 & H4 & H5 & H6 & H7).
  { induction Hl as [|v v' l l' (Ht & Hv & Hn & Hb & Hd & Hval) _ (IH1 & IH2 & IH3 & IH4 & IH5 & IH6 & IH7)].
    - repeat match goal with |- _ /\ _ => split end; try reflexivity.
    - rewrite !fmap_cons. simpl. rewrite Hv, Hn, Hb, Hd, Hval. unfold sum_of, max_of in *.
      rewrite IH1, IH2, IH3, IH4, IH5.
      repeat match goal with |- _ /\ _ => split end; try reflexivity;
        try (by constructor); by rewrite IH7. }
  unfold same_view. simpl. unfold VIEW_SIZE. rewrite H1, H2, H3, H4, H5, H7.
  repeat match goal with |- _ /\ _ => split end; try reflexivity. by apply xeq_list.
Qed.

Lemma xeq_same_view u v v' : v ≡ v' -> same_view u v v'.
Proof.
  revert v'. induction v as [| | | | | | | | | | |b l IH|b|b l IH|] using xvalue_nested_ind;
    intros v' H; inversion H as [? ? Hl Hc|? ? ? Hl|? h h' e He Hp]; subst; clear H;
    try (by apply leaf_same_view); try discriminate Hl.
  - assert (Forall2 (same_view u) l l') as Hs.
    { apply Forall2_flip. eapply Forall2_with; [apply Forall2_flip; exact Hl|exact IH|].
      intros x y Hx Hy. exact (Hy x Hx). }
    by apply list_same_view.
  - eapply map_same_view; [|exact Hp]. inversion He; subst. constructor.
  - eapply map_same_view; [|exact Hp]. simpl in *. clear Hp.
    induction He as [|x y l e [Hk Hx] _ IHl]; [constructor|]. apply Forall_cons in IH as [Hy IH].
    constructor; [|by apply IHl]. split; [done|by apply Hy].
Qed.

(** A valid view and its value: the value reads back as the view. *)
Lemma tree_of_value_of u t :
  tree_valid u t = true -> tree_of (value_of t) = t.
Proof.
  induction t as [|b| | | |l IH|l IH] using tree_nested_ind; try done; simpl; intros Hv; f_equal.
  - apply N2Z.id.
  - rewrite <- list_fmap_compose. rewrite <- (list_fmap_id l) at 2. apply list_fmap_ext.
    intros i t Ht. rewrite Forall_lookup in IH. apply (IH i t Ht).
    rewrite forallb_forall in Hv. by apply Hv, list_elem_of_In, (list_elem_of_lookup_2 _ i).
  - apply andb_prop in Hv as [_ Hv]. rewrite <- list_fmap_compose.
    rewrite <- (list_fmap_id l) at 2. apply list_fmap_ext.
    intros i [k t] Ht. rewrite forallb_forall in Hv.
    pose proof (Hv _ (proj1 (list_elem_of_In _ _) (list_elem_of_lookup_2 _ i _ Ht))) as Hkt.
    simpl in Hkt. apply andb_prop in Hkt as [Hk Htv]. unfold key_valid in Hk. bool_props.
    rewrite Forall_lookup in IH. simpl. rewrite cut_nul_id by done.
    pose proof (IH i _ Ht) as Hi. simpl in Hi. by rewrite Hi.
Qed.

Lemma viewable_value_of u t : tree_valid u t = true -> viewable (value_of t) = true.
Proof.
  induction t as [|b| | | |l IH|l IH] using tree_nested_ind; try done; simpl; intros Hv.
  - lia.
  - rewrite forallb_fmap. apply forallb_forall. intros t Ht. rewrite forallb_forall in Hv.
    rewrite Forall_forall in IH. apply IH; [by apply list_elem_of_In|by apply Hv].
  - apply andb_prop in Hv as [_ Hv]. rewrite forallb_fmap. apply forallb_forall. intros e He.
    rewrite forallb_forall in Hv. rewrite Forall_forall in IH.
    apply (IH e); [by apply list_elem_of_In|]. by apply Hv, andb_prop in He as [_ ?].
Qed.

(** ** From views to script values *)

Section build.
Context `{SlotsLaws} (utf8_valid : string -> bool).

Local Abbreviation builds t := (fallibly (ts_host_build_exprtk_value t)
  (fun v => v ≡ value_of t /\ wf_value v = true)).

Lemma list_push_ok items item :
  forallb wf_value items = true -> wf_value item = true ->
  fallibly (exprtk_list_push (XList false items) item) (fun v =>
    exists item', v = XList false (items ++ [item']) /\ item ≡ item' /\
      forallb wf_value (items ++ [item']) = true).
Proof.
  intros Hi Hw. simpl. eapply fallibly_bind; [apply push_copy_ok; [exact (copy_ok item)|exact Hw]|].
  intros l (v' & -> & He & Hw'). apply fallibly_ret. exists v'. split; [done|]. split; [done|].
  rewrite forallb_app, Hi. simpl. by rewrite Hw'.
Qed.

Lemma build_items l : forall items,
  Forall (fun t => builds t) l -> forallb wf_value items = true ->
  fallibly (fold_m (fun value t => child ← ts_host_build_exprtk_value t; exprtk_list_push value child)
      (XList false items) l)
    (fun v => exists new, v = XList false (items ++ new) /\ Forall2 xeq new (value_of <$> l) /\
       forallb wf_value (items ++ new) = true).
Proof.
  induction l as [|t l IH]; intros items Hall Hw; cbn [fold_m].
  - apply fallibly_ret. exists []. rewrite app_nil_r. split; [done|]. by split; [constructor|].
  - apply Forall_cons in Hall as [Ht Hall].
    eapply (fallibly_bind _ _ (fun v => exists item, v = XList false (items ++ [item]) /\
      item ≡ value_of t /\ forallb wf_value (items ++ [item]) = true)).
    + eapply fallibly_bind; [exact Ht|].
      intros child [He Hc]. eapply fallibly_weaken; [by apply list_push_ok|].
      intros v (item & -> & Hi & Hwi). exists item. split; [done|]. split; [|done].
      etransitivity; [symmetry; exact Hi|exact He].
    + intros v (item & -> & Hi & Hwi). eapply fallibly_weaken; [by apply IH|].
      intros v (new & -> & Hn & Hwn). exists (item :: new). rewrite <- app_assoc in *.
      split; [done|]. split; [|done]. by constructor.
Qed.

Lemma build_entries l : forall slots,
  Forall (fun e => builds e.2) l -> Forall (fun e => has_nul e.1 = false) l ->
  NoDup (slots.*1 ++ l.*1) -> keys_free slots -> forallb (fun e => wf_value e.2) slots = true ->
  fallibly (fold_m (fun value e =>
        key ← ts_host_copy_string e.1;
        child ← ts_host_build_exprtk_value e.2;
        exprtk_map_set false value (cut_nul key) child) (XMap false (Some slots)) l)
    (fun v => exists slots' new, v = XMap false (Some slots') /\ slots' ≡ₚ slots ++ new /\
       Forall2 (entry_rel xeq) new ((fun e => (e.1, value_of e.2)) <$> l) /\
       wf_value v = true).
Proof.
  induction l as [|[k t] l IH]; intros slots Hall Hnul Hnd Hf Hw; cbn [fold_m].
  - apply fallibly_ret. exists slots, []. rewrite app_nil_r in *. split; [done|]. split; [done|].
    split; [constructor|]. by eapply wf_slots_intro.
  - apply Forall_cons in Hall as [Ht Hall]. apply Forall_cons in Hnul as [Hk Hnul]. simpl in *.
    pose proof Hnd as (Hns & Hdis & _)%NoDup_app.
    assert (find_key k slots = None) as Hnone.
    { apply find_key_None. intros Hin. apply (Hdis _ Hin). by left. }
    eapply (fallibly_bind _ _ (fun v => exists v' slots', v = XMap false (Some slots') /\
      slots' ≡ₚ (k, v') :: slots /\ v' ≡ value_of t /\ wf_value v' = true)).
    + eapply fallibly_bind; [apply copy_string_ok|]. intros ? ->. rewrite cut_nul_id by done.
      eapply fallibly_bind; [exact Ht|]. intros child [He Hc].
      match goal with |- fallibly ?e _ => change e with (exprtk_map_set false (XMap false (Some slots)) k child) end.
      rewrite map_set_fresh.
      eapply fallibly_bind; [by apply set_copy_ok; [exact (copy_ok child)| |]|].
      intros l' (v' & rest & Hl' & Hv' & Hw' & _ & Hold). rewrite Hnone in Hold. subst rest.
      apply fallibly_ret. exists v', l'. split; [done|]. split; [done|]. split; [|done].
      etransitivity; [symmetry; exact Hv'|exact He].
    + intros v (v' & slots' & -> & Hp & Hv' & Hw'). eapply fallibly_weaken; [apply IH|].
      * done.
      * done.
      * rewrite Hp. simpl. by rewrite Permutation_middle.
      * unfold keys_free. rewrite Hp. by constructor.
      * rewrite Hp. simpl. by rewrite Hw'.
      * intros v (slots'' & new & -> & Hp' & Hn & Hwf). exists slots'', ((k, v') :: new).
        split; [done|]. split; [by rewrite Hp', Hp; simpl; rewrite Permutation_middle|].
        split; [|done]. by constructor.
Qed.

Lemma build_ok t :
  tree_valid utf8_valid t = true -> tree_bytes t <= SIZE_MAX -> builds t.
Proof.
  induction t as [| | | |s|l IH|l IH] using tree_nested_ind; intros Hv Hb;
    try (apply fallibly_ret; split; [apply xeq_refl|done]).
  - apply fallibly_ret. split; [apply xeq_refl|]. simpl in *. unfold text_ok. simpl. lia.
  - simpl in Hv, Hb. rewrite forallb_forall in Hv.
    eapply fallibly_weaken; [apply (build_items l []); [|done]|].
    + rewrite Forall_forall in IH |- *. intros t Ht. apply IH; [done|by apply Hv, list_elem_of_In|].
      assert (tree_bytes t <= sum_of tree_bytes l) by (apply sum_of_in; [apply Forall_true, tree_bytes_nonneg|done]).
      unfold VIEW_SIZE in Hb. lia.
    + intros v (new & -> & Hn & Hw). split; [by apply xeq_list|done].
  - simpl in Hv, Hb. apply andb_prop in Hv as [Hnd%bool_decide_eq_true Hv]. rewrite forallb_forall in Hv.
    change (fallibly (slots ← exprtk_map_storage_create; fold_m (fun value e =>
        key ← ts_host_copy_string e.1; child ← ts_host_build_exprtk_value e.2;
        exprtk_map_set false value (cut_nul key) child) (XMap false (Some slots)) l)
      (fun v => v ≡ value_of (TRecord l) /\ wf_value v = true)).
    eapply fallibly_bind; [apply map_create_ok|]. intros ? ->.
    eapply fallibly_weaken; [apply (build_entries l [])|]; [| |exact Hnd|constructor|done|].
    + rewrite Forall_forall in IH |- *. intros e He. apply IH; [done| |].
      * apply list_elem_of_In, Hv, andb_prop in He as [_ He]. exact He.
      * pose proof (sum_of_in (fun e => str_size e.1 + 1 + tree_bytes e.2) l e) as Hle.
        pose proof (str_size_nonneg e.1). simpl in Hle. unfold ENTRY_SIZE in Hb.
        enough (str_size e.1 + 1 + tree_bytes e.2 <= sum_of (fun e => str_size e.1 + 1 + tree_bytes e.2) l) by lia.
        apply Hle; [|done]. apply Forall_true. intros e'. pose proof (str_size_nonneg e'.1).
        pose proof (tree_bytes_nonneg e'.2). lia.
    + apply Forall_forall. intros e He. apply list_elem_of_In, Hv, andb_prop in He as [He _].
      unfold key_valid in He. bool_props. done.
    + intros v (slots' & new & -> & Hp & Hn & Hw). split; [|done].
      symmetry. apply Forall2_flip in Hn. eapply (xeq_map _ _ _ new); [|symmetry; exact Hp].
      simpl. eapply Forall2_impl; [exact Hn|]. intros [k v] [k' v'] [Hk Hx]. split; [done|].
      by apply xeq_sym.
Qed.
End build.

(** ** From script values to views *)

Section to_view.
Context (utf8_valid : string -> bool) (lim : value_limits).
Hypothesis Hlim : limits_ok lim.

Local Abbreviation to_view := (ts_host_exprtk_to_view utf8_valid lim).

Lemma view_all_sound {T U} (f : wstate -> T -> status * U * wstate) (R : T -> U -> Prop) l :
  Forall (fun x => forall st u st', f st x = (STATUS_OK, u, st') -> R x u) l ->
  forall st us st', view_all f st l = (STATUS_OK, us, st') -> Forall2 R l us.
Proof using.
  induction 1 as [|x l Hx _ IH]; intros st us st'; simpl; [intros [= <- _]; constructor|].
  destruct (f st x) as [[[] u] st1] eqn:E; try done.
  destruct (view_all f st1 l) as [[s us1] st2] eqn:E'. intros [= -> <- _].
  constructor; [by eapply Hx|by eapply IH].
Qed.

Lemma viewed_list {T U} (g : T -> U) (ok : T -> bool) l us :
  Forall2 (fun x u => ok x = true /\ u = g x) l us -> forallb ok l = true /\ us = g <$> l.
Proof using. induction 1 as [|x u l us [Hx ->] _ [IH ->]]; [done|]. simpl. by rewrite Hx. Qed.

Lemma to_view_sound v : forall levels st t st',
  to_view v levels st = (STATUS_OK, t, st') -> viewable v = true /\ t = tree_of v.
Proof using.
  induction v as [| | | |s|s|s|f t s x i|l|n|k n d|set l IH|b|b l IH|] using xvalue_nested_ind;
    intros [|levels] st t' st'; try done; cbn [ts_host_exprtk_to_view]; (destruct (wnodes st =? max_nodes lim); [done|]);
    try done.
  1-3: intros [= <- _]; split; reflexivity.
  - destruct (negb _ && negb _) eqn:E; [done|]. intros [= <- _]. simpl. split; [lia|reflexivity].
  - destruct (text_dangling s) eqn:Hd; [done|]. destruct (text_size s =? SIZE_MAX); [done|].
    destruct (ts_host_exprtk_view_charge _ _ _ _) as [[] st1]; try done.
    destruct (utf8_valid _); [|done]. intros [= <- _]. simpl. rewrite Hd. split; reflexivity.
  - cbv zeta. destruct (view_array _ _ _ _) as [[] st1]; try done. intros [= <- _]. split; reflexivity.
  - destruct (negb (n =? 0)) eqn:E; [done|]. destruct (view_array _ _ _ _) as [[] st1]; try done.
    intros [= <- _]. simpl. split; [lia|reflexivity].
  - destruct set; [done|]. destruct (view_array _ _ _ _) as [[] st1]; try done.
    destruct (view_all _ st1 l) as [[[] ts] st2] eqn:E; try done. intros [= <- _]. simpl.
    destruct (viewed_list tree_of viewable l ts) as [-> ->]; [|split; reflexivity].
    eapply view_all_sound; [|exact E]. eapply Forall_impl; [exact IH|]. intros v Hv st0 u st0'. apply Hv.
  - destruct (view_array _ _ _ _) as [[] st1]; try done. intros [= <- _]. split; reflexivity.
  - destruct (view_array _ _ _ _) as [[] st1]; try done.
    destruct (view_all _ st1 l) as [[[] ts] st2] eqn:E; try done. intros [= <- _]. simpl.
    destruct (viewed_list view_entry (fun e => viewable e.2) l ts) as [-> ->]; [|split; reflexivity].
    eapply view_all_sound; [|exact E]. eapply Forall_impl; [exact IH|]. intros [k v] Hv st0 u st0'. simpl.
    destruct (view_key _ _ _ _) as [[] st3]; try done.
    destruct (to_view v levels st3) as [[s t] st4] eqn:E'. intros [= -> <- _].
    apply Hv in E' as [? ->]. split; [done|reflexivity].
Qed.

Definition room_for (st : wstate) (n b : Z) : Prop :=
  0 <= wnodes st /\ 0 <= wbytes st /\ wnodes st + n <= max_nodes lim /\ wbytes st + b <= max_bytes lim /\
  wheap st = [].

Definition after (st : wstate) (n b : Z) : wstate := WState (wnodes st + n) (wbytes st + b) [].

Lemma view_charge_ok st n b count size :
  room_for st n b -> 0 <= n -> 0 <= count -> 0 < size -> count * size <= b ->
  ts_host_exprtk_view_charge lim st count size = (STATUS_OK, after st 0 (count * size)).
Proof using Hlim.
  intros (Hn0 & Hb0 & Hn & Hb & Hh) Hn1 Hc Hs Hle. destruct Hlim as (_ & _ & ?).
  unfold ts_host_exprtk_view_charge, after. rewrite Hh.
  destruct (negb (count =? 0) && (SIZE_MAX / count <? size)) eqn:E.
  { bool_props. pose proof (Z.mul_succ_div_gt SIZE_MAX count ltac:(lia)). nia. }
  replace (max_bytes lim <? wbytes st) with false by lia.
  replace (max_bytes lim - wbytes st <? count * size) with false by lia. simpl.
  by rewrite Z.add_0_r.
Qed.

Lemma view_array_ok st n b count size :
  room_for st n b -> 0 <= count <= n -> 0 < size -> count * size <= b ->
  view_array lim st count size = (STATUS_OK, after st 0 (count * size)).
Proof using Hlim.
  intros Hr Hc Hs Hle. unfold view_array. pose proof Hr as (Hn0 & Hb0 & Hn & Hb & Hh).
  destruct Hlim as (_ & ? & _). rewrite wrapu_small by (unfold SIZE_MAX in *; lia).
  replace (max_nodes lim - wnodes st <? count) with false by lia.
  rewrite (view_charge_ok st n b) by (done || lia). by destruct (count =? 0).
Qed.

Lemma view_all_ok {T U} (f : wstate -> T -> status * U * wstate) (g : T -> U) (n b : T -> Z) l :
  (forall x, 0 <= n x /\ 0 <= b x) ->
  Forall (fun x => forall st, room_for st (n x) (b x) -> f st x = (STATUS_OK, g x, after st (n x) (b x))) l ->
  forall st, room_for st (sum_of n l) (sum_of b l) ->
  view_all f st l = (STATUS_OK, g <$> l, after st (sum_of n l) (sum_of b l)).
Proof using.
  intros Hpos. induction 1 as [|x l Hx _ IH]; intros st Hr; simpl in *.
  - unfold after. destruct st, Hr as (? & ? & ? & ? & Hh). simpl in *. by rewrite Hh, !Z.add_0_r.
  - destruct Hr as (? & ? & ? & ? & Hh).
    assert (0 <= sum_of n l /\ 0 <= sum_of b l) as [??].
    { split; apply sum_of_nonneg, Forall_true; intros y; apply (Hpos y). }
    destruct (Hpos x). unfold sum_of in *.
    rewrite Hx by (split_and!; simpl; try lia; done).
    rewrite IH by (split_and!; simpl; try lia; done). unfold after. simpl.
    do 2 f_equal; lia.
Qed.

Lemma view_key_ok st k n b :
  key_valid utf8_valid (cut_nul k) = true -> room_for st n b -> 0 <= n ->
  str_size (cut_nul k) + 1 <= b ->
  view_key utf8_valid lim st k = (STATUS_OK, after st 0 (str_size (cut_nul k) + 1)).
Proof using Hlim.
  intros Hk Hr Hn Hb. unfold key_valid in Hk. bool_props. unfold view_key.
  pose proof Hr as (_ & ? & _ & ? & _). pose proof (str_size_nonneg (cut_nul k)). destruct Hlim as (_ & _ & ?).
  replace (str_size (cut_nul k) =? 0) with false by lia.
  replace (str_size (cut_nul k) =? SIZE_MAX) with false by lia.
  rewrite (view_charge_ok st n b) by (done || lia). rewrite Z.mul_1_r. by rewrite H0.
Qed.
Ltac solve_room := unfold room_for, after; simpl; split_and!; first [lia|assumption|reflexivity].

Definition views_at (levels : nat) (v : xvalue) : Prop :=
  forall st, room_for st (tree_nodes (tree_of v)) (tree_bytes (tree_of v)) ->
  to_view v levels st =
  (STATUS_OK, tree_of v, after st (tree_nodes (tree_of v)) (tree_bytes (tree_of v))).

Lemma after_after st n b n' b' : after (after st n b) n' b' = after st (n + n') (b + b').
Proof using. unfold after. simpl. f_equal; lia. Qed.

Lemma sum_of_const {T} l (c : Z) : sum_of (fun _ : T => c) l = c * Z.of_nat (length l).
Proof using. induction l; unfold sum_of in *; simpl in *; lia. Qed.

(** The array of [count] children, when they have [n] nodes and [b] bytes. *)
Lemma view_children st count size n b :
  room_for st (1 + n) (size * count + b) -> 0 <= count <= n -> 0 < size -> 0 <= b ->
  view_array lim (WState (wnodes st + 1) (wbytes st) (wheap st)) count size =
    (STATUS_OK, after st 1 (size * count)) /\
  room_for (after st 1 (size * count)) n b.
Proof using Hlim.
  intros (Hn0 & Hb0 & Hn & Hb & Hh) Hc Hs Hpos. split.
  - rewrite (view_array_ok _ n (size * count)); [|solve_room|lia|lia|lia].
    unfold after. simpl. do 2 f_equal; lia.
  - solve_room.
Qed.

Lemma list_views_at levels l :
  Forall (views_at levels) l -> views_at (S levels) (XList false l).
Proof using Hlim.
  intros IH st Hr. cbn [ts_host_exprtk_to_view]. simpl in *.
  assert (0 <= sum_of tree_bytes (tree_of <$> l)) by (apply sum_of_nonneg, Forall_true, tree_bytes_nonneg).
  assert (Z.of_nat (length l) <= sum_of tree_nodes (tree_of <$> l)).
  { rewrite <- (length_fmap tree_of). apply sum_of_length, Forall_true, tree_nodes_pos. }
  rewrite length_fmap in *. pose proof Hr as (? & ? & ? & _).
  replace (wnodes st =? max_nodes lim) with false by lia.
  destruct (view_children st (Z.of_nat (length l)) VIEW_SIZE _ _ Hr) as [-> Hr']; [lia|done|lia|].
  rewrite sum_of_fmap in *.
  rewrite (view_all_ok _ tree_of (fun v => tree_nodes (tree_of v)) (fun v => tree_bytes (tree_of v)));
    [|intros v; pose proof (tree_nodes_pos (tree_of v)); pose proof (tree_bytes_nonneg (tree_of v)); lia
     |exact IH|by rewrite !sum_of_fmap in Hr'].
  rewrite after_after, !sum_of_fmap. reflexivity.
Qed.

Lemma map_views_at levels b l :
  Forall (fun e => views_at levels e.2) l ->
  Forall (fun e => key_valid utf8_valid (cut_nul e.1) = true) l ->
  views_at (S levels) (XMap b (Some l)).
Proof using Hlim.
  intros IH Hks st Hr. cbn [ts_host_exprtk_to_view]. simpl in *. fold entry_bytes in *. fold view_entry in *.
  assert (0 <= sum_of entry_bytes (view_entry <$> l)).
  { apply sum_of_nonneg, Forall_true. intros [k t]. unfold entry_bytes. simpl.
    pose proof (tree_bytes_nonneg t). pose proof (str_size_nonneg k). lia. }
  assert (Z.of_nat (length l) <= sum_of (fun e => tree_nodes e.2) (view_entry <$> l)).
  { rewrite <- (length_fmap view_entry). apply sum_of_length, Forall_true. intros e. apply tree_nodes_pos. }
  rewrite length_fmap in *. pose proof Hr as (? & ? & ? & _).
  replace (wnodes st =? max_nodes lim) with false by lia.
  destruct (view_children st (Z.of_nat (length l)) ENTRY_SIZE _ _ Hr) as [-> Hr']; [lia|done|lia|].
  rewrite (view_all_ok _ view_entry (fun e => tree_nodes (tree_of e.2)) (fun e => entry_bytes (view_entry e)));
    [rewrite after_after, !sum_of_fmap; reflexivity| | |by rewrite !sum_of_fmap in Hr'].
  - intros [k v]. unfold entry_bytes. simpl. pose proof (tree_nodes_pos (tree_of v)).
    pose proof (tree_bytes_nonneg (tree_of v)). pose proof (str_size_nonneg (cut_nul k)). lia.
  - apply Forall_forall. intros [k v] He st1 Hr1. rewrite Forall_forall in IH, Hks.
    pose proof (IH _ He) as Hv. pose proof (Hks _ He) as Hk. unfold entry_bytes in Hr1 |- *. simpl in *.
    pose proof (tree_nodes_pos (tree_of v)). pose proof (tree_bytes_nonneg (tree_of v)).
    rewrite (view_key_ok st1 k _ _ Hk Hr1) by lia. destruct Hr1 as (? & ? & ? & ? & ?).
    pose proof (str_size_nonneg (cut_nul k)).
    rewrite Hv by (solve_room). by rewrite after_after.
Qed.

Lemma to_view_complete v : forall levels,
  viewable v = true -> tree_valid utf8_valid (tree_of v) = true ->
  (tree_depth (tree_of v) <= levels)%nat -> views_at levels v.
Proof using Hlim.
  induction v as [| | | |s|s|s|f t s x i|l|n|k n d|set l IH|b|b l IH|] using xvalue_nested_ind;
    intros [|levels] Hv Hval Hd; try discriminate Hv;
    try (exfalso; match type of Hd with (tree_depth ?t <= 0)%nat => pose proof (tree_depth_pos t); lia end).
  1-5, 7: intros st Hr; pose proof Hr as (? & ? & ? & ? & Hh); cbn [ts_host_exprtk_to_view];
    simpl in *; (replace (wnodes st =? max_nodes lim) with false by lia).
  1-3: unfold after; by rewrite Hh, Z.add_0_r.
  - replace (negb _ && negb _) with false by lia. unfold after; by rewrite Hh, Z.add_0_r.
  - apply negb_true_iff in Hv. rewrite Hv. pose proof (str_size_nonneg (text_bytes s)).
    replace (text_size s) with (str_size (text_bytes s))
      by (destruct s; simpl in *; [change (str_size "") with 0; lia|done]).
    destruct Hlim as (_ & _ & ?). replace (_ =? SIZE_MAX) with false by lia.
    rewrite (view_charge_ok _ 0 (str_size (text_bytes s) + 1));
      [|solve_room|lia|lia|lia|lia].
    rewrite Hval, Z.mul_1_r. unfold after. simpl. by rewrite Z.add_0_r.
  - destruct (view_children st 0 VIEW_SIZE 0 0) as [Hc _]; [|lia|done|lia|].
    { solve_room. }
    rewrite Hv. simpl. rewrite Hc. reflexivity.
  - intros st Hr. cbn [ts_host_exprtk_to_view]. cbn [tree_of tree_nodes tree_bytes] in *.
    rewrite !sum_of_fmap in *. cbn [tree_nodes tree_bytes] in *. rewrite !sum_of_const in *.
    rewrite length_fmap in *. pose proof Hr as (? & ? & ? & _).
    replace (wnodes st =? max_nodes lim) with false by lia. cbv zeta.
    destruct (view_children st (Z.of_nat (length l)) VIEW_SIZE (1 * Z.of_nat (length l)) (0 * Z.of_nat (length l)) Hr)
      as [-> _]; [lia|done|lia|]. unfold after. simpl. do 2 f_equal; lia.
  - destruct set; [discriminate Hv|]. simpl in Hv, Hval, Hd. apply list_views_at.
    rewrite forallb_forall in Hv. rewrite forallb_fmap, forallb_forall in Hval.
    rewrite max_of_fmap in Hd.
    assert (max_of (fun v => tree_depth (tree_of v)) l <= levels)%nat as Hmax%max_of_le by lia.
    rewrite Forall_forall in IH, Hmax |- *. intros v Hin. apply list_elem_of_In in Hin as Hin'.
    apply IH; [done|by apply Hv|by apply Hval|by apply Hmax].
  - intros st Hr. pose proof Hr as (? & ? & ? & ? & Hh). simpl in *.
    replace (wnodes st =? max_nodes lim) with false by lia.
    destruct (view_children st 0 ENTRY_SIZE 0 0) as [-> _]; [|lia|done|lia|].
    { solve_room. }
    reflexivity.
  - simpl in Hv, Hval, Hd. fold view_entry in *. apply andb_prop in Hval as [_ Hval].
    rewrite forallb_forall in Hv. rewrite forallb_fmap, forallb_forall in Hval. rewrite max_of_fmap in Hd.
    assert (max_of (fun e => tree_depth (tree_of e.2)) l <= levels)%nat as Hmax%max_of_le by (simpl in *; lia).
    rewrite Forall_forall in IH, Hmax.
    apply map_views_at; apply Forall_forall; intros e He; pose proof (proj1 (list_elem_of_In _ _) He) as Hin;
      pose proof (Hval _ Hin) as [Hk Ht]%andb_prop; [|exact Hk].
    apply IH; [done|by apply Hv|done|by apply Hmax].
Qed.
End to_view.

(** ** Round trip *)

Section round_trip.
Context `{SlotsLaws} {A SA SK : Type} `{HashSetLaws A SA, HashSetLaws string SK}.
Context (utf8_valid : string -> bool) (lim : value_limits) (mem : memory A).
Hypothesis Hlim : limits_ok lim.

Local Abbreviation validate := (ts_host_validate_value_view (SA:=SA) (SK:=SK) utf8_valid lim mem).
Local Abbreviation from_view := (ts_host_value_from_view_in_env (SA:=SA) (SK:=SK) utf8_valid lim mem).

(** What validation says of one view. *)
Lemma validated_tree value :
  validate value = STATUS_OK ->
  exists a t, value = Some a /\ denotes mem a t /\ (tree_depth t <= levels_of lim)%nat /\
    tree_valid utf8_valid t = true /\ tree_nodes t <= max_nodes lim /\ tree_bytes t <= max_bytes lim.
Proof.
  unfold ts_host_validate_value_view. destruct value as [a|]; [|done]. intros Hok.
  apply (validate_sound _ _ _ Hlim) in Hok as (_ & _ & _ & _ & ts & Hts & Hall & Hn & Hb).
  simpl in Hts. inversion Hts as [|? t ? ts' Ht Hts']; subst. inversion Hts'; subst.
  apply Forall_cons in Hall as [[Hd Hv] _]. unfold sum_of in *. simpl in *.
  exists a, t. split; [done|]. split; [done|]. split; [done|]. split; [done|]. lia.
Qed.

Lemma from_view_ok value :
  validate value = STATUS_OK ->
  exists a t, value = Some a /\ denotes mem a t /\ tree_valid utf8_valid t = true /\
    (tree_depth t <= levels_of lim)%nat /\ tree_nodes t <= max_nodes lim /\ tree_bytes t <= max_bytes lim /\
  (forall h, match (from_view value h).1 with
             | FromView STATUS_OK v abort => v ≡ value_of t /\ wf_value v = true /\ abort = None
             | FromView s v _ => s = STATUS_OUT_OF_MEMORY /\ v = XNull
             end) /\
  fv_status (from_view value []).1 = STATUS_OK.
Proof.
  intros Hok. destruct (validated_tree _ Hok) as (a & t & -> & Hden & Hd & Hv & Hn & Hb).
  exists a, t. do 6 (split; [done|]). unfold ts_host_value_from_view_in_env. rewrite Hok. simpl.
  rewrite (view_tree_denotes _ _ _ _ Hden Hd). destruct Hlim as (_ & _ & ?).
  destruct (build_ok utf8_valid t Hv) as [Hbuild (v0 & Hv0)]; [lia|]. split.
  - intros h. destruct (attempt h) as [[[]|] h1]; [|done].
    destruct (ts_host_build_exprtk_value t h1) as [[tmp|] h2] eqn:E; [|done].
    destruct (Hbuild _ _ _ E) as [He Hw]. unfold exprtk_value_copy_to_env.
    destruct (exprtk_value_copy_to_pool tmp h2) as [[v|] h3] eqn:E'; simpl; [|done].
    destruct (copy_ok tmp Hw) as [Hcopy _]. destruct (Hcopy _ _ _ E') as [He' Hw'].
    split; [|done]. etransitivity; [symmetry; exact He'|exact He].
  - rewrite Hv0. destruct (Hbuild _ _ _ Hv0) as [He Hw]. unfold exprtk_value_copy_to_env.
    destruct (copy_ok v0 Hw) as [_ (v & Hvc)]. by rewrite Hvc.
Qed.

(** Any value equal to that of a valid view reads back as an equal view. *)
Lemma to_view_equal v t :
  v ≡ value_of t -> tree_valid utf8_valid t = true -> (tree_depth t <= levels_of lim)%nat ->
  tree_nodes t <= max_nodes lim -> tree_bytes t <= max_bytes lim ->
  tree_of v ≡ t /\ tree_valid utf8_valid (tree_of v) = true /\
  tree_nodes (tree_of v) = tree_nodes t /\ tree_bytes (tree_of v) = tree_bytes t /\
  tree_depth (tree_of v) = tree_depth t /\
  ts_host_exprtk_to_view utf8_valid lim v (levels_of lim) (WState 0 0 []) =
    (STATUS_OK, tree_of v, WState (tree_nodes t) (tree_bytes t) []).
Proof.
  intros He Hv Hd Hn Hb.
  destruct (xeq_same_view utf8_valid _ _ He) as (Ht & Hview & Hns & Hbs & Hds & Hvs).
  rewrite (tree_of_value_of _ _ Hv) in Ht, Hns, Hbs, Hds, Hvs.
  rewrite (viewable_value_of _ _ Hv) in Hview.
  split; [done|]. split; [by rewrite Hvs|]. do 3 (split; [done|]).
  rewrite <- Hns, <- Hbs.
  apply (to_view_complete utf8_valid lim Hlim v (levels_of lim) Hview).
  - by rewrite Hvs.
  - by rewrite Hds.
  - unfold room_for. simpl. rewrite Hns, Hbs. split_and!; first [lia|reflexivity].
Qed.

(** C11: A view that validation accepts becomes a well-formed script value, unless memory
    runs out, in which case the result is null; and the value converts back, within
    the same limits and at the same cost, to a view equal to the one that came in up
    to the order of the record entries. *)
Theorem host_value_round_trip value h :
  validate value = STATUS_OK ->
  fv_status (from_view value []).1 = STATUS_OK /\
  exists a t, value = Some a /\ denotes mem a t /\
  match (from_view value h).1 with
  | FromView STATUS_OK v abort =>
      wf_value v = true /\ abort = None /\
      exists t', t' ≡ t /\
        ts_host_exprtk_to_view utf8_valid lim v (levels_of lim) (WState 0 0 []) =
          (STATUS_OK, t', WState (tree_nodes t) (tree_bytes t) [])
  | FromView s v _ => s = STATUS_OUT_OF_MEMORY /\ v = XNull
  end.
Proof.
  intros Hok. destruct (from_view_ok _ Hok) as (a & t & -> & Hden & Hv & Hd & Hn & Hb & Hall & Hs).
  split; [exact Hs|]. exists a, t. split; [done|]. split; [done|]. specialize (Hall h).
  destruct (from_view (Some a) h).1 as [[] v abort]; try exact Hall.
  destruct Hall as (He & Hw & Ha). split; [done|]. split; [done|].
  destruct (to_view_equal v t He Hv Hd Hn Hb) as (Ht & _ & _ & _ & _ & Hto).
  exists (tree_of v). by split.
Qed.
End round_trip.

Lemma host_value_round_trip_witness :
  fv_status (ts_host_value_from_view_in_env (SA:=bounded_set Z) (SK:=bounded_set string)
    any_text sample_limits sample_memory (Some 1) []).1 = STATUS_OK.
Proof.
  apply (host_value_round_trip (SA:=bounded_set Z) (SK:=bounded_set string)
    any_text sample_limits sample_memory sample_limits_ok (Some 1) []).
  vm_compute. reflexivity.
Defined.
