(* ===== verification/HostResult.v ===== *)
(** Result objects of the host API, in [turbo_script/src/host/turbo_script_host_result.c]:
    a result belongs to a context and holds a value, an error or neither.

    The arena of a result only has its allocations modelled; what the getters hand
    out is the stored value or error itself. *)

From S2P Require Import Prelude HostStatus Float64 RtValue HostView HostViewProofs HostConvert HostConvertProofs.
Open Scope Z_scope.

(** ** Contexts: [ts_context_retain] and [ts_context_release] *)

(** [error_code] and [error_msg] of a context. *)
Record ctx_error := CtxError { ce_code : error_code; ce_msg : string }.

(** [clear_error] *)
Definition no_error : ctx_error := CtxError ERROR_NONE "".

(** [on_owner]: the calls are made on the thread that created the context. *)
Record host_ctx := HostCtx {
  ctx_id : nat;
  on_owner : bool;
  ref_count : Z;
  destroyed : bool;
  last_error : ctx_error
}.

Definition set_last_error (e : ctx_error) (c : host_ctx) : host_ctx :=
  HostCtx (ctx_id c) (on_owner c) (ref_count c) (destroyed c) e.

Definition ts_context_retain (c : host_ctx) : host_ctx :=
  HostCtx (ctx_id c) (on_owner c) (wrapu 32 (ref_count c + 1)) (destroyed c) (last_error c).

Definition ts_context_release (c : host_ctx) : host_ctx :=
  HostCtx (ctx_id c) (on_owner c) (wrapu 32 (ref_count c - 1)) (destroyed c || (ref_count c =? 1)) (last_error c).

(** ** Data *)

(** [turbo_script_error_info_t]; the numbers are the caller's. *)
Record error_info := ErrorInfo {
  e_struct_size : Z;
  e_status : Z;
  e_error_code : Z;
  e_phase : Z;
  e_line : Z;
  e_column : Z;
  e_length : Z;
  e_cause_code : Z;
  e_module_name : text;
  e_function_name : text;
  e_message : text;
  e_reserved : list Z
}.

Definition ERROR_INFO_SIZE : Z := 112.

(** All bytes zero. *)
Definition zero_error : error_info :=
  ErrorInfo 0 0 0 0 0 0 0 0 (NoData 0) (NoData 0) (NoData 0) [0; 0; 0; 0].

(** [turbo_script_result_s] *)
Record host_result := HostResult {
  r_ctx : nat;
  r_owner : bool;
  r_value : tree;
  r_error : error_info;
  has_value : bool;
  has_error : bool
}.

Definition ts_host_result_clear_unchecked (r : host_result) : host_result :=
  HostResult (r_ctx r) (r_owner r) TNull zero_error false false.

Definition ts_host_result_check_thread (r : option host_result) : status :=
  match r with
  | None => STATUS_INVALID_ARGUMENT
  | Some r => ts_host_context_check_thread (r_owner r)
  end.

(** The status, the new result, the context. *)
Definition turbo_script_result_create (ctx : option host_ctx) (h : heap)
    : status * option host_result * option host_ctx * heap :=
  match ctx with
  | None => (STATUS_INVALID_ARGUMENT, None, ctx, h)
  | Some c =>
      match ts_host_context_check_thread (on_owner c) with
      | STATUS_OK =>
          match attempt h with                                 (* the result *)
          | (None, h) => (STATUS_OUT_OF_MEMORY, None, ctx, h)
          | (Some _, h) =>
              match attempt h with                             (* its arena *)
              | (None, h) => (STATUS_OUT_OF_MEMORY, None, ctx, h)
              | (Some _, h) =>
                  (STATUS_OK, Some (HostResult (ctx_id c) (on_owner c) TNull zero_error false false),
                   Some (ts_context_retain c), h)
              end
          end
      | s => (s, None, ctx, h)
      end
  end.

Definition ts_host_result_reset_checked (r : option host_result) : status * option host_result :=
  match ts_host_result_check_thread r with
  | STATUS_OK => (STATUS_OK, ts_host_result_clear_unchecked <$> r)
  | s => (s, r)
  end.

(** A destroyed result is gone, and so is its reference to the context. *)
Definition ts_host_result_destroy_checked (r : option host_result) (c : host_ctx)
    : status * option host_result * host_ctx :=
  match ts_host_result_check_thread r with
  | STATUS_OK => (STATUS_OK, None, ts_context_release c)
  | s => (s, r, c)
  end.

Definition turbo_script_result_get_value (r : option host_result) : status * option tree :=
  match ts_host_result_check_thread r, r with
  | STATUS_OK, Some r => if has_value r then (STATUS_OK, Some (r_value r)) else (STATUS_INVALID_STATE, None)
  | s, _ => (s, None)
  end.

Definition turbo_script_result_get_error (r : option host_result) : status * option error_info :=
  match ts_host_result_check_thread r, r with
  | STATUS_OK, Some r => if has_error r then (STATUS_OK, Some (r_error r)) else (STATUS_INVALID_STATE, None)
  | s, _ => (s, None)
  end.

Definition ts_host_result_check_context (r : option host_result) (c : option nat) : status :=
  match ts_host_result_check_thread r, r, c with
  | STATUS_OK, Some r, Some c => if decide (r_ctx r = c) then STATUS_OK else STATUS_CONTEXT_MISMATCH
  | STATUS_OK, _, _ => STATUS_INVALID_ARGUMENT
  | s, _, _ => s
  end.

(** ** Storing a value *)

Section store.
Context {A SA SK : Type} `{HashSet A SA, HashSet string SK} (utf8_valid : string -> bool).
Context (lim : value_limits) (mem : memory A).

Definition ts_host_result_store_view (r : host_result) (value : option A) (h : heap)
    : status * host_result * heap :=
  match ts_host_result_check_thread (Some r) with
  | STATUS_OK =>
      let r := ts_host_result_clear_unchecked r in
      match ts_host_validate_value_view (SA:=SA) (SK:=SK) utf8_valid lim mem value with
      | STATUS_OK =>
          match value ≫= view_tree mem (levels_of lim) with
          | None => (STATUS_VALIDATION_ERROR, r, h)      (* never: the view is a tree *)
          | Some t =>
              match ts_host_copy_view t h with
              | (None, h) => (STATUS_OUT_OF_MEMORY, ts_host_result_clear_unchecked r, h)
              | (Some copy, h) =>
                  (STATUS_OK, HostResult (r_ctx r) (r_owner r) copy (r_error r) true (has_error r), h)
              end
          end
      | s => (s, r, h)
      end
  | s => (s, r, h)
  end.
End store.

Section store_exprtk.
Context {SA SK : Type} `{HashSet (list nat) SA, HashSet string SK} (utf8_valid : string -> bool).
Context (lim : value_limits).

(** The temporary view lies in an arena of its own. *)
Definition ts_host_result_store_exprtk (r : option host_result) (value : option xvalue) (h : heap)
    : status * option host_result * heap :=
  match r, value with
  | Some r0, Some v =>
      match ts_host_result_check_thread r with
      | STATUS_OK =>
          let r0 := ts_host_result_clear_unchecked r0 in
          match attempt h with
          | (None, h) => (STATUS_OUT_OF_MEMORY, Some r0, h)
          | (Some _, h) =>
              let '(s, t, st) := ts_host_exprtk_to_view utf8_valid lim v (levels_of lim) (WState 0 0 h) in
              let '(s, r1, h) :=
                if ok s
                then ts_host_result_store_view (SA:=SA) (SK:=SK) utf8_valid lim (tree_memory t) r0 (Some [])
                       (wheap st)
                else (s, r0, wheap st) in
              (s, Some (if ok s then r1 else ts_host_result_clear_unchecked r1), h)
          end
      | s => (s, r, h)
      end
  | _, _ => (STATUS_INVALID_ARGUMENT, r, h)
  end.
End store_exprtk.

(** ** Storing an error *)

Section set_error.
Context (utf8_valid : string -> bool).

(** The three texts are charged against one budget of bytes; the hash set of the
    validation state is not used. *)
Definition ts_host_validate_error_info (error : option error_info) (limit : Z) : status :=
  let lim := ValueLimits 1 1 limit in
  match error with
  | None => STATUS_INVALID_ARGUMENT
  | Some e =>
      if (e_struct_size e <? ERROR_INFO_SIZE) || (limit =? 0) ||
         (e_status e <? status_number STATUS_INVALID_ARGUMENT) ||
         (status_number STATUS_INTERRUPTED <? e_status e) ||
         (phase_number PHASE_INTERRUPT <? e_phase e)
      then STATUS_INVALID_ARGUMENT
      else if negb (forallb (fun z => z =? 0) (e_reserved e)) then STATUS_INVALID_ARGUMENT
      else
        match ts_host_validate_string utf8_valid lim (VState 0 0 tt) (e_module_name e) false false with
        | (STATUS_OK, st) =>
            match ts_host_validate_string utf8_valid lim st (e_function_name e) false false with
            | (STATUS_OK, st) =>
                (ts_host_validate_string utf8_valid lim st (e_message e) false false).1
            | (s, _) => s
            end
        | (s, _) => s
        end
  end.

(** The three copies are made one after the other, also when one fails. *)
Definition ts_host_result_set_error (r : host_result) (error : option error_info) (limit : Z) (h : heap)
    : status * host_result * heap :=
  match ts_host_result_check_thread (Some r) with
  | STATUS_OK =>
      let r := ts_host_result_clear_unchecked r in
      match ts_host_validate_error_info error limit, error with
      | STATUS_OK, Some e =>
          let (m, h) := ts_host_copy_string (text_bytes (e_module_name e)) h in
          let (f, h) := ts_host_copy_string (text_bytes (e_function_name e)) h in
          let (g, h) := ts_host_copy_string (text_bytes (e_message e)) h in
          match m, f, g with
          | Some m, Some f, Some g =>
              let copy := ErrorInfo (e_struct_size e) (e_status e) (e_error_code e) (e_phase e)
                (e_line e) (e_column e) (e_length e) (e_cause_code e) (Text m) (Text f) (Text g)
                (e_reserved e) in
              (STATUS_OK, HostResult (r_ctx r) (r_owner r) (r_value r) copy (has_value r) true, h)
          | _, _, _ => (STATUS_OUT_OF_MEMORY, ts_host_result_clear_unchecked r, h)
          end
      | s, _ => (s, r, h)
      end
  | s => (s, r, h)
  end.
End set_error.

(** ** A result holds a value, an error or neither *)

(** The operations on one result, in any order. *)
Inductive result_op {A : Type} :=
  | OpReset
  | OpStoreView (lim : value_limits) (mem : memory A) (value : option A)
  | OpStoreExprtk (lim : value_limits) (value : option xvalue)
  | OpSetError (error : option error_info) (limit : Z).
Arguments result_op _ : clear implicits.

Section exclusive.
Context {A SA SP SK : Type} `{HashSet A SA, HashSet (list nat) SP, HashSet string SK}.
Context (utf8_valid : string -> bool).

Definition run_result_op (op : result_op A) (r : host_result) (h : heap) : status * host_result * heap :=
  match op with
  | OpReset => let (s, r') := ts_host_result_reset_checked (Some r) in (s, default r r', h)
  | OpStoreView lim mem value => ts_host_result_store_view (SA:=SA) (SK:=SK) utf8_valid lim mem r value h
  | OpStoreExprtk lim value =>
      let '(s, r', h) := ts_host_result_store_exprtk (SA:=SP) (SK:=SK) utf8_valid lim (Some r) value h in
      (s, default r r', h)
  | OpSetError error limit => ts_host_result_set_error utf8_valid r error limit h
  end.

Definition cleared (r r' : host_result) : Prop := r' = ts_host_result_clear_unchecked r.

(** What an operation can leave of a result. *)
Definition settled (op : result_op A) (r : host_result) (s : status) (r' : host_result) : Prop :=
  r_ctx r' = r_ctx r /\ r_owner r' = r_owner r /\
  if r_owner r then
    match s, op with
    | STATUS_OK, OpReset => cleared r r'
    | STATUS_OK, OpStoreView _ _ _ | STATUS_OK, OpStoreExprtk _ _ => has_value r' = true /\ has_error r' = false
    | STATUS_OK, OpSetError _ _ => has_value r' = false /\ has_error r' = true
    | STATUS_INVALID_ARGUMENT, OpStoreExprtk _ None => r' = r
    | _, _ => cleared r r'
    end
  else r' = r /\ s <> STATUS_OK.
Lemma store_view_settled {B SB : Type} `{HashSet B SB} lim (mem : memory B) (value : option B) r h s r' h' :
  ts_host_result_store_view (SA:=SB) (SK:=SK) utf8_valid lim mem r value h = (s, r', h') ->
  r_ctx r' = r_ctx r /\ r_owner r' = r_owner r /\
  if r_owner r then
    if ok s then has_value r' = true /\ has_error r' = false else cleared r r'
  else r' = r /\ s = STATUS_WRONG_THREAD.
Proof.
  unfold ts_host_result_store_view, cleared. simpl. destruct (r_owner r) eqn:Ho; simpl; [|by intros [= <- <- _]].
  destruct (ts_host_validate_value_view _ _ _ _) eqn:E; try (intros [= <- <- _]; by rewrite <- Ho).
  destruct (value ≫= _) as [t|]; [|intros [= <- <- _]; by rewrite <- Ho].
  destruct (ts_host_copy_view t h) as [[t'|] h1]; intros [= <- <- _]; by rewrite <- Ho.
Qed.

(** Whatever operations write to a result, it never holds a value and an error at
    once: a success publishes exactly one of them, every failure on the owner thread
    leaves the result empty (the getters then report an invalid state), and a call on
    another thread is refused and changes nothing. *)
Theorem result_settled op r h s r' h' :
  run_result_op op r h = (s, r', h') -> settled op r s r'.
Proof.
  destruct op as [|lim mem value|lim value|error limit]; simpl; unfold settled.
  - unfold ts_host_result_reset_checked. simpl. destruct (r_owner r) eqn:Ho; simpl; intros [= <- <- _];
      by rewrite <- ?Ho.
  - intros Hs. apply store_view_settled in Hs as (Hc & Ho & Hr). split; [done|]. split; [done|].
    destruct (r_owner r); [|by destruct Hr as [-> ->]]. destruct s; simpl in Hr; try exact Hr; done.
  - unfold ts_host_result_store_exprtk. destruct value as [v|].
    2:{ intros [= <- <- _]. split; [done|]. split; [done|]. by destruct (r_owner r). }
    simpl. destruct (r_owner r) eqn:Ho; simpl.
    2:{ intros [= <- <- _]. by rewrite Ho. }
    destruct (attempt h) as [[[]|] h1]; [|intros [= <- <- _]; by rewrite <- Ho].
    destruct (ts_host_exprtk_to_view _ _ _ _ _) as [[s1 t] st]. destruct (ok s1) eqn:Eo.
    + destruct (ts_host_result_store_view _ _ _ _ _ _) as [[s2 r2] h2] eqn:E.
      apply store_view_settled in E as (Hc & Ho2 & Hr). simpl in Hc, Ho2, Hr. rewrite Ho in Hr.
      destruct (ok s2) eqn:Eo2; intros [= <- <- _]; simpl in *.
      * rewrite Hc, Ho2. apply ok_true in Eo2 as ->. by rewrite Ho.
      * rewrite Hr. apply ok_false in Eo2. simpl. split; [done|]. split; [by rewrite <- Ho|].
        destruct s2; try done; by rewrite <- Ho.
    + intros [= <- <- _]. rewrite Eo. simpl. split; [done|]. split; [by rewrite <- Ho|].
      apply ok_false in Eo. destruct s1; try done; by rewrite <- Ho.
  - unfold ts_host_result_set_error. simpl. destruct (r_owner r) eqn:Ho; simpl; [|by intros [= <- <- _]].
    destruct (ts_host_validate_error_info _ _ _) eqn:E; try (intros [= <- <- _]; by rewrite <- Ho).
    destruct error as [e|]; [|intros [= <- <- _]; by rewrite <- Ho].
    destruct (ts_host_copy_string _ h) as [[m|] h1], (ts_host_copy_string _ h1) as [[f|] h2],
      (ts_host_copy_string _ h2) as [[g|] h3]; intros [= <- <- _]; by rewrite <- Ho.
Qed.
End exclusive.

#[local] Arguments ts_host_validate_value_view : simpl never.
#[local] Arguments ts_host_validate_error_info : simpl never.

(** ** What a script value publishes *)

(** The values that a result accepts: those with a valid view within the limits. *)
Definition publishable (utf8_valid : string -> bool) (lim : value_limits) (v : xvalue) : Prop :=
  viewable v = true /\ tree_valid utf8_valid (tree_of v) = true /\
  (tree_depth (tree_of v) <= levels_of lim)%nat /\
  tree_nodes (tree_of v) <= max_nodes lim /\ tree_bytes (tree_of v) <= max_bytes lim.

Section publish.
Context {SA SK : Type} `{ReliableSet (list nat) SA, ReliableSet string SK}.
Context (utf8_valid : string -> bool) (lim : value_limits).
Hypothesis Hlim : limits_ok lim.

Lemma laid_out_valid t :
  0 < max_bytes lim -> tree_valid utf8_valid t = true -> (tree_depth t <= levels_of lim)%nat ->
  tree_nodes t <= max_nodes lim -> tree_bytes t <= max_bytes lim ->
  ts_host_validate_value_view (SA:=SA) (SK:=SK) utf8_valid lim (tree_memory t) (Some []) = STATUS_OK.
Proof.
  intros Hmb Hv Hd Hn Hb. pose proof (tree_nodes_pos t). pose proof (tree_depth_pos t).
  apply (validate_views_iff utf8_valid lim (tree_memory t) Hlim (Items [[]])).
  unfold levels_of in *. split; [done|]. split; [lia|]. split; [lia|]. split; [done|].
  exists [t]. unfold views_within, sum_of. simpl. split_and!; [|by repeat constructor|lia|lia].
  constructor; [|constructor]. by apply tree_memory_denotes.
Qed.

Local Abbreviation store r v := (ts_host_result_store_exprtk (SA:=SA) (SK:=SK) utf8_valid lim (Some r) (Some v)).

Lemma store_exprtk_sound r v h :
  r_owner r = true -> (store r v h).1.1 = STATUS_OK ->
  publishable utf8_valid lim v /\
  turbo_script_result_get_value (store r v h).1.2 = (STATUS_OK, Some (tree_of v)) /\
  turbo_script_result_get_error (store r v h).1.2 = (STATUS_INVALID_STATE, None).
Proof.
  intros Ho. unfold ts_host_result_store_exprtk, ts_host_result_store_view. simpl. rewrite Ho. simpl.
  destruct (attempt h) as [[[]|] h1]; [|done].
  destruct (ts_host_exprtk_to_view utf8_valid lim v (levels_of lim) (WState 0 0 h1)) as [[s t] st] eqn:Et.
  destruct (ok s) eqn:Es; [|simpl; intros ->; done]. apply ok_true in Es as ->.
  apply to_view_sound in Et as [Hview ->].
  destruct (ts_host_validate_value_view (SA:=SA) (SK:=SK) utf8_valid lim
    (tree_memory (tree_of v)) (Some [])) eqn:Ev; simpl; try done.
  destruct (validated_tree _ _ _ Hlim _ Ev) as (a & t & [= <-] & Hden & Hd & Hv & Hn & Hb).
  rewrite <- (denotes_unique _ _ _ _ (tree_memory_denotes (tree_of v) (tree_of v) [] eq_refl) Hden) in *.
  rewrite (view_tree_denotes _ _ _ _ (tree_memory_denotes (tree_of v) (tree_of v) [] eq_refl) Hd).
  destruct (copy_view_ok (tree_of v)) as [Hcopy _].
  destruct (ts_host_copy_view (tree_of v) _) as [[t'|] h2] eqn:Ec; simpl; [|done].
  apply Hcopy in Ec as ->. intros _. split; [by unfold publishable; split_and!|].
  unfold turbo_script_result_get_value, turbo_script_result_get_error. simpl. by rewrite ?Ho.
Qed.

Lemma store_exprtk_complete r v :
  r_owner r = true -> 0 < max_bytes lim -> publishable utf8_valid lim v ->
  (store r v []).1.1 = STATUS_OK.
Proof.
  intros Ho Hmb (Hview & Hv & Hd & Hn & Hb).
  unfold ts_host_result_store_exprtk, ts_host_result_store_view. simpl. rewrite Ho. simpl.
  rewrite (to_view_complete utf8_valid lim Hlim v (levels_of lim) Hview Hv Hd);
    [|unfold room_for; simpl; split_and!; first [lia|reflexivity]]. simpl.
  rewrite (laid_out_valid _ Hmb Hv Hd Hn Hb).
  rewrite (view_tree_denotes _ _ _ _ (tree_memory_denotes (tree_of v) (tree_of v) [] eq_refl) Hd).
  destruct (copy_view_ok (tree_of v)) as [_ (t' & Hc)]. by rewrite Hc.
Qed.

(** A script value is published exactly when it and everything in it has a view (a
    null, boolean, integer, number, string, vector, list or map), its strings and keys
    are valid UTF-8, its keys distinct and not empty, and its view is within the depth,
    node and byte limits: then the getter returns that view; a failure for want of
    memory apart, every other value leaves the result empty. *)
Theorem store_exprtk_exact r v h :
  r_owner r = true -> 0 < max_bytes lim ->
  let store := ts_host_result_store_exprtk (SA:=SA) (SK:=SK) utf8_valid lim (Some r) (Some v) in
  (publishable utf8_valid lim v <-> (store []).1.1 = STATUS_OK) /\
  ((store h).1.1 = STATUS_OK ->
   publishable utf8_valid lim v /\
   turbo_script_result_get_value (store h).1.2 = (STATUS_OK, Some (tree_of v)) /\
   turbo_script_result_get_error (store h).1.2 = (STATUS_INVALID_STATE, None)).
Proof.
  intros Ho Hmb store. split; [|by apply store_exprtk_sound].
  split; [by apply store_exprtk_complete|]. intros Hs. by apply store_exprtk_sound in Hs as [? _].
Qed.
End publish.

(** ** What an error publishes *)

(** The stored copy: its texts have their own storage. *)
Definition stored_error (e : error_info) : error_info :=
  ErrorInfo (e_struct_size e) (e_status e) (e_error_code e) (e_phase e)
    (e_line e) (e_column e) (e_length e) (e_cause_code e)
    (Text (text_bytes (e_module_name e))) (Text (text_bytes (e_function_name e)))
    (Text (text_bytes (e_message e))) (e_reserved e).

Definition error_texts (e : error_info) : list text := [e_module_name e; e_function_name e; e_message e].

Lemma sum_of_three {T} (f : T -> Z) x y z : sum_of f [x; y; z] = f x + f y + f z.
Proof. unfold sum_of. simpl. lia. Qed.

Lemma validate_error_ok utf8_valid e limit :
  0 <= limit <= SIZE_MAX ->
  ts_host_validate_error_info utf8_valid (Some e) limit = STATUS_OK <->
  ERROR_INFO_SIZE <= e_struct_size e /\ limit <> 0 /\ 1 <= e_status e <= 17 /\ e_phase e <= 6 /\
  Forall (fun z => z = 0) (e_reserved e) /\
  Forall (fun s => text_dangling s = false /\ utf8_valid (text_bytes s) = true) (error_texts e) /\
  sum_of (fun s => str_size (text_bytes s) + 1) (error_texts e) <= limit.
Proof.
  intros Hlimit. set (lim := ValueLimits 1 1 limit).
  assert (limits_ok lim) as Hlim by (repeat split; simpl; unfold UINT32_MAX, SIZE_MAX in *; lia).
  unfold ts_host_validate_error_info, error_texts. fold lim. rewrite sum_of_three, !Forall_cons.
  destruct (_ || _) eqn:E1.
  { split; [done|]. unfold ERROR_INFO_SIZE in *. simpl in E1. intros (? & ? & ? & ? & _). lia. }
  assert (ERROR_INFO_SIZE <= e_struct_size e /\ limit <> 0 /\ 1 <= e_status e <= 17 /\ e_phase e <= 6)
    as (? & ? & ? & ?) by (simpl in E1; lia).
  destruct (forallb (fun z => z =? 0) (e_reserved e)) eqn:E2; simpl.
  2:{ split; [done|]. intros (_ & _ & _ & _ & Hr & _). rewrite <- not_true_iff_false in E2. destruct E2.
      apply forallb_forall. intros z Hz. rewrite Forall_forall in Hr. apply Z.eqb_eq, Hr. by apply list_elem_of_In. }
  assert (Forall (fun z => z = 0) (e_reserved e)).
  { apply Forall_forall. intros z Hz. rewrite forallb_forall in E2. by apply Z.eqb_eq, E2, list_elem_of_In. }
  clear E1 E2.
  set (t1 := e_module_name e). set (t2 := e_function_name e). set (t3 := e_message e).
  pose proof (str_size_nonneg (text_bytes t1)). pose proof (str_size_nonneg (text_bytes t2)).
  pose proof (str_size_nonneg (text_bytes t3)).
  assert (forall st : vstate (SA:=unit), st_ok lim st -> forall s,
    match ts_host_validate_string utf8_valid lim st s false false with
    | (STATUS_OK, st') => text_dangling s = false /\ utf8_valid (text_bytes s) = true /\
        bytes st + (str_size (text_bytes s) + 1) <= limit /\ st' = charged st (str_size (text_bytes s) + 1)
    | _ => ~ (text_dangling s = false /\ utf8_valid (text_bytes s) = true /\
              bytes st + (str_size (text_bytes s) + 1) <= limit)
    end) as Hstr.
  { intros st Hst s. destruct (ts_host_validate_string _ _ _ _ _ _) as [r st'] eqn:E.
    assert (r <> STATUS_OK -> ~ (text_dangling s = false /\ utf8_valid (text_bytes s) = true /\
              bytes st + (str_size (text_bytes s) + 1) <= limit)) as Hbad.
    { intros Hr (Hd & Hu & Hb). apply Hr.
      assert (ts_host_validate_string utf8_valid lim st s false false
        = (STATUS_OK, charged st (str_size (text_bytes s) + 1))) as E' by by apply validate_string_ok.
      congruence. }
    destruct r; try (by apply Hbad).
    apply (validate_string_ok _ _ Hlim) in E as (? & _ & _ & ? & ? & ?); done. }
  assert (st_ok lim (VState 0 0 tt)) as Hst0 by (split; simpl; lia).
  pose proof (Hstr _ Hst0 t1) as HH1. destruct (ts_host_validate_string _ _ _ t1 _ _) as [r1 st1].
  destruct r1; try (split; [done|]; intros (_ & _ & _ & _ & _ & ((? & ?) & _) & ?); exfalso; apply HH1; simpl; split_and!; (done || lia)).
  destruct HH1 as (? & ? & Hb1 & ->). simpl in Hb1.
  assert (st_ok lim (charged (VState 0 0 tt) (str_size (text_bytes t1) + 1))) as Hst1 by (split; simpl; lia).
  pose proof (Hstr _ Hst1 t2) as HH2. destruct (ts_host_validate_string _ _ _ t2 _ _) as [r2 st2].
  destruct r2; try (split; [done|]; intros (_ & _ & _ & _ & _ & (_ & (? & ?) & _) & ?); exfalso; apply HH2; simpl; split_and!; (done || lia)).
  destruct HH2 as (? & ? & Hb2 & ->). simpl in Hb2.
  match goal with |- context [ts_host_validate_string _ _ ?st t3] =>
    assert (st_ok lim st) as Hst2 by (split; simpl; lia); pose proof (Hstr _ Hst2 t3) as HH3 end.
  destruct (ts_host_validate_string _ _ _ t3 _ _) as [r3 st3].
  destruct r3; simpl; try (split; [done|]; intros (_ & _ & _ & _ & _ & (_ & _ & (? & ?) & _) & ?); exfalso; apply HH3; simpl; split_and!; (done || lia)).
  destruct HH3 as (? & ? & Hb3 & _). simpl in Hb3. split; [|done]. intros _.
  split_and!; (done || lia).
Qed.

(** An error is accepted exactly when it is a full structure with a failure status
    and a phase of the ABI, zero reserved words and three valid UTF-8 texts that fit in
    the byte limit with their terminators; then the getter returns a copy of it. *)
Theorem set_error_exact utf8_valid r e limit :
  r_owner r = true -> 0 <= limit <= SIZE_MAX ->
  (ERROR_INFO_SIZE <= e_struct_size e /\ limit <> 0 /\ 1 <= e_status e <= 17 /\ e_phase e <= 6 /\
   Forall (fun z => z = 0) (e_reserved e) /\
   Forall (fun s => text_dangling s = false /\ utf8_valid (text_bytes s) = true) (error_texts e) /\
   sum_of (fun s => str_size (text_bytes s) + 1) (error_texts e) <= limit)
  <->
  exists r', ts_host_result_set_error utf8_valid r (Some e) limit [] = (STATUS_OK, r', []) /\
    turbo_script_result_get_error (Some r') = (STATUS_OK, Some (stored_error e)) /\
    turbo_script_result_get_value (Some r') = (STATUS_INVALID_STATE, None).
Proof.
  intros Ho Hlimit. rewrite <- (validate_error_ok utf8_valid e limit Hlimit).
  unfold ts_host_result_set_error. simpl. rewrite Ho. simpl. split.
  - intros ->. eexists. split; [reflexivity|]. unfold turbo_script_result_get_error, turbo_script_result_get_value.
    simpl. by rewrite ?Ho.
  - intros (r' & Hr & _). by destruct (ts_host_validate_error_info utf8_valid (Some e) limit).
Qed.

(** ** The theorems at work *)

Definition sample_result : host_result := HostResult 1 true TNull zero_error false false.

Definition sample_error : error_info :=
  ErrorInfo 112 14 4 4 3 7 1 0 (Text "m") (Text "f") (Text "boom") [0; 0; 0; 0].

Lemma result_settled_witness :
  settled (A:=Z) (OpSetError (Some sample_error) 64) sample_result STATUS_OK
    (HostResult 1 true TNull (stored_error sample_error) false true).
Proof.
  apply (result_settled (A:=Z) (SA:=bounded_set Z) (SP:=bounded_set (list nat)) (SK:=bounded_set string)
    any_text (OpSetError (Some sample_error) 64) sample_result [] STATUS_OK _ []).
  vm_compute. reflexivity.
Defined.

Lemma store_exprtk_exact_witness : publishable any_text sample_limits (XList false [XInteger 5; XNull]).
Proof.
  apply (store_exprtk_exact (SA:=bounded_set (list nat)) (SK:=bounded_set string) any_text sample_limits
    sample_limits_ok sample_result (XList false [XInteger 5; XNull]) [] eq_refl eq_refl).
  vm_compute. reflexivity.
Defined.

Lemma set_error_exact_witness :
  exists r', ts_host_result_set_error any_text sample_result (Some sample_error) 64 [] = (STATUS_OK, r', []) /\
    turbo_script_result_get_error (Some r') = (STATUS_OK, Some (stored_error sample_error)) /\
    turbo_script_result_get_value (Some r') = (STATUS_INVALID_STATE, None).
Proof.
  apply (set_error_exact any_text sample_result sample_error 64 eq_refl).
  - split; vm_compute; discriminate.
  - split; [vm_compute; discriminate|]. split; [discriminate|]. split; [split; vm_compute; discriminate|].
    split; [vm_compute; discriminate|]. split; [repeat constructor|].
    split; [repeat constructor|]. vm_compute. discriminate.
Defined.
