(* ===== verification/HostRegistry.v ===== *)
(** Host functions: [turbo_script/src/host/turbo_script_host_registry.c].

    The embedder registers functions with a context; while a module is alive the
    registry is frozen, so the slots that compiled code and instances refer to stay
    where they are.  A registered function is called with views of the script's
    arguments and answers through a builder that takes one write. *)

From S2P Require Import Prelude HostStatus Float64 RtValue HostView HostViewProofs HostConvert HostConvertProofs HostResult.
Open Scope Z_scope.

Definition TS_HOST_REGISTRY_CAPACITY : Z := 256.
Definition TS_HOST_MAX_VALUE_DEPTH : Z := 64.
Definition TS_HOST_MAX_VALUE_NODES : Z := 65536.
Definition TS_HOST_MAX_STRING_BYTES : Z := 4 * 1024 * 1024.

Definition host_value_limits : value_limits :=
  ValueLimits TS_HOST_MAX_VALUE_DEPTH TS_HOST_MAX_VALUE_NODES TS_HOST_MAX_STRING_BYTES.

(** ** Data *)

(** [ts_host_function_entry_t]; a callback with its user data is an identity. *)
Record fn_entry := FnEntry { fn_name : string; min_arity : Z; max_arity : Z; callback : nat }.

(** The host part of [turbo_script_ctx_s]. *)
Record host := Host {
  ctx : host_ctx;
  closing : bool;
  host_functions : list fn_entry;
  active_host_modules : Z;
  host_callback_depth : Z;
  active_host_instance : option nat;
  next_instance_generation : Z
}.

Definition set_functions (fs : list fn_entry) (c : host) : host :=
  Host (ctx c) (closing c) fs (active_host_modules c) (host_callback_depth c)
    (active_host_instance c) (next_instance_generation c).
Definition set_modules (n : Z) (c : host) : host :=
  Host (ctx c) (closing c) (host_functions c) n (host_callback_depth c)
    (active_host_instance c) (next_instance_generation c).

(** [turbo_script_host_function_descriptor_t] *)
Record descriptor := Descriptor {
  d_struct_size : Z;
  d_min_arity : Z;
  d_max_arity : Z;
  d_reserved0 : Z;
  d_name : text;
  d_reserved : list Z
}.

Definition DESCRIPTOR_SIZE : Z := 64.

(** [ts_host_registry_init] of a new context. *)
Definition ts_host_registry_init (c : host_ctx) : host := Host c false [] 0 0 None 1.

Definition ts_host_check_owner_thread (c : host) : status :=
  ts_host_context_check_thread (on_owner (ctx c)).

(** ** Modules in use *)

Definition ts_host_registry_acquire_module (c : host) : status * host :=
  match ts_host_check_owner_thread c with
  | STATUS_OK =>
      if active_host_modules c =? SIZE_MAX then (STATUS_LIMIT_EXCEEDED, c)
      else (STATUS_OK, set_modules (active_host_modules c + 1) c)
  | s => (s, c)
  end.

Definition ts_host_registry_release_module (c : host) : status * host :=
  match ts_host_check_owner_thread c with
  | STATUS_OK =>
      if active_host_modules c =? 0 then (STATUS_INVALID_STATE, c)
      else (STATUS_OK, set_modules (active_host_modules c - 1) c)
  | s => (s, c)
  end.

(** ** Errors *)

(** The structure that an entry point fills in when it fails. *)
Definition api_error (s : status) (code : error_code) (p : error_phase) (line column length : Z)
    (module_name function_name : text) (message : string) : error_info :=
  ErrorInfo ERROR_INFO_SIZE (status_number s) 
    (match code with
     | ERROR_NONE => 0 | ERROR_ARGUMENT => 1 | ERROR_PARSE => 2 | ERROR_VALIDATE => 3
     | ERROR_RUNTIME => 4 | ERROR_IO => 5 | ERROR_PLUGIN => 6 | ERROR_JIT => 7 | ERROR_OOM => 8
     | ERROR_STATE => 9 | ERROR_CANCELLED => 10
     end) (phase_number p) line column length 0 module_name function_name (Text message) [0; 0; 0; 0].

Section registry.
Context (utf8_valid : string -> bool).

Definition ts_host_registry_fail (r : host_result) (s : status) (message : string) (h : heap)
    : status * host_result * heap :=
  let error := api_error s ERROR_NONE PHASE_NONE 0 0 0 (NoData 0) (NoData 0) message in
  let '(_, r, h) := ts_host_result_set_error utf8_valid r (Some error) TS_HOST_MAX_STRING_BYTES h in
  (s, r, h).

(** ** Names and slots *)

Definition ts_host_registry_validate_name (name : text) : status :=
  if text_dangling name then STATUS_INVALID_ARGUMENT
  else if text_size name =? 0 then STATUS_VALIDATION_ERROR
  else if TS_HOST_MAX_STRING_BYTES <? text_size name then STATUS_LIMIT_EXCEEDED
  else if has_nul (text_bytes name) then STATUS_VALIDATION_ERROR
  else if utf8_valid (text_bytes name) then STATUS_OK else STATUS_INVALID_UTF8.

Definition ts_host_registry_name_equal (e : fn_entry) (name : string) : bool :=
  bool_decide (fn_name e = name).

Definition ts_host_registry_find_slot (c : host) (name : text) : status * option nat :=
  match ts_host_check_owner_thread c with
  | STATUS_OK =>
      match ts_host_registry_validate_name name with
      | STATUS_OK =>
          match find_index (fun e => ts_host_registry_name_equal e (text_bytes name)) (host_functions c) with
          | Some i => (STATUS_OK, Some i)
          | None => (STATUS_NOT_FOUND, None)
          end
      | s => (s, None)
      end
  | s => (s, None)
  end.

Definition ts_host_registry_get_slot (c : host) (slot : nat) : status * option fn_entry :=
  match ts_host_check_owner_thread c with
  | STATUS_OK =>
      match host_functions c !! slot with
      | Some e => (STATUS_OK, Some e)
      | None => (STATUS_NOT_FOUND, None)
      end
  | s => (s, None)
  end.

(** [None] is a NULL descriptor or callback. *)
Definition ts_host_registry_validate_descriptor (d : option descriptor) (callback : option nat) : status :=
  match d, callback with
  | Some d, Some _ =>
      if negb (d_struct_size d =? DESCRIPTOR_SIZE) || (d_max_arity d <? d_min_arity d) ||
         negb (d_reserved0 d =? 0)
      then STATUS_INVALID_ARGUMENT
      else if negb (forallb (fun z => z =? 0) (d_reserved d)) then STATUS_INVALID_ARGUMENT
      else ts_host_registry_validate_name (d_name d)
  | _, _ => STATUS_INVALID_ARGUMENT
  end.

(** ** Registration *)

(** What an entry point leaves: its status, the context, the result. *)
Definition outcome : Type := status * host * option host_result * heap.

(** The result is checked and reset before anything else. *)
Definition ts_host_registry_begin_api (c : host) (r : option host_result) : status * option host_result :=
  match ts_host_check_owner_thread c with
  | STATUS_OK =>
      match ts_host_result_check_context r (Some (ctx_id (ctx c))) with
      | STATUS_OK => ts_host_result_reset_checked r
      | s => (s, r)
      end
  | s => (s, r)
  end.

(** The body of an entry point, on the reset result. *)
Definition with_result (c : host) (r : option host_result) (h : heap)
    (body : host_result -> outcome) : outcome :=
  match ts_host_registry_begin_api c r with
  | (STATUS_OK, Some r) => body r
  | (s, r) => (s, c, r, h)
  end.

Definition refuse (c : host) (r : host_result) (s : status) (message : string) (h : heap) : outcome :=
  let '(s, r, h) := ts_host_registry_fail r s message h in (s, c, Some r, h).

Definition turbo_script_context_register_host_function (c : host) (d : option descriptor)
    (cb : option nat) (r : option host_result) (h : heap) : outcome :=
  with_result c r h (fun r =>
    if negb (active_host_modules c =? 0)
    then refuse c r STATUS_INVALID_STATE "host registry is frozen while modules are active" h
    else match ts_host_registry_validate_descriptor d cb, d, cb with
         | STATUS_OK, Some d, Some cb =>
             match ts_host_registry_find_slot c (d_name d) with
             | (STATUS_OK, _) =>
                 refuse c r STATUS_INVALID_STATE "host function name is already registered" h
             | (STATUS_NOT_FOUND, _) =>
                 if TS_HOST_REGISTRY_CAPACITY <=? Z.of_nat (length (host_functions c))
                 then refuse c r STATUS_LIMIT_EXCEEDED "host registry capacity exceeded" h
                 else match attempt h with                        (* the name *)
                      | (None, h) =>
                          refuse c r STATUS_OUT_OF_MEMORY "failed to copy host function name" h
                      | (Some _, h) =>
                          match attempt h with                    (* the slot *)
                          | (None, h) =>
                              refuse c r STATUS_OUT_OF_MEMORY "failed to append host registry slot" h
                          | (Some _, h) =>
                              let e := FnEntry (text_bytes (d_name d)) (d_min_arity d) (d_max_arity d) cb in
                              (STATUS_OK, set_functions (host_functions c ++ [e]) c, Some r, h)
                          end
                      end
             | (s, _) => refuse c r s "failed to search host registry" h
             end
         | s, _, _ => refuse c r s "invalid host function descriptor" h
         end).

Definition turbo_script_context_unregister_host_function (c : host) (name : text)
    (r : option host_result) (h : heap) : outcome :=
  with_result c r h (fun r =>
    if negb (active_host_modules c =? 0)
    then refuse c r STATUS_INVALID_STATE "host registry is frozen while modules are active" h
    else match ts_host_registry_validate_name name with
         | STATUS_OK =>
             match ts_host_registry_find_slot c name with
             | (STATUS_OK, Some slot) =>
                 (STATUS_OK, set_functions (delete slot (host_functions c)) c, Some r, h)
             | (s, _) => refuse c r s "host function is not registered" h
             end
         | s => refuse c r s "invalid host function name" h
         end).
End registry.

(** ** Arguments of a callback *)

Section arguments.
Context (utf8_valid : string -> bool).

(** [ts_host_registry_charge] is the charge of [HostConvert.v] at the limits of the
    registry; a text is charged without a terminator. *)
Definition ts_host_registry_charge : wstate -> Z -> Z -> status * wstate :=
  ts_host_exprtk_view_charge host_value_limits.

Definition arg_key (st : wstate) (key : string) : status * wstate :=
  let key := cut_nul key in
  if str_size key =? 0 then (STATUS_VALIDATION_ERROR, st)
  else match ts_host_registry_charge st (str_size key) 1 with
       | (STATUS_OK, st) => (if utf8_valid key then STATUS_OK else STATUS_INVALID_UTF8, st)
       | r => r
       end.

Fixpoint ts_host_arg_view_from_exprtk (source : xvalue) (levels : nat) (st : wstate)
    : status * tree * wstate :=
  match levels with
  | O => (STATUS_LIMIT_EXCEEDED, TNull, st)
  | S levels =>
      if wnodes st =? TS_HOST_MAX_VALUE_NODES then (STATUS_LIMIT_EXCEEDED, TNull, st)
      else
        let st := WState (wnodes st + 1) (wbytes st) (wheap st) in
        match source with
        | XNull => (STATUS_OK, TNull, st)
        | XBool b =>
            if negb (b =? 0) && negb (b =? 1) then (STATUS_VALIDATION_ERROR, TNull, st)
            else (STATUS_OK, TBool (Z.to_N b), st)
        | XInteger i => (STATUS_OK, TInt64 i, st)
        | XNumber x => (STATUS_OK, TNumber x, st)
        | XString s =>
            if text_dangling s then (STATUS_INVALID_ARGUMENT, TNull, st)
            else match ts_host_registry_charge st (text_size s) 1 with
                 | (STATUS_OK, st) =>
                     if utf8_valid (text_bytes s) then (STATUS_OK, TString (text_bytes s), st)
                     else (STATUS_INVALID_UTF8, TNull, st)
                 | (e, st) => (e, TNull, st)
                 end
        | XVectorNull n =>
            if negb (n =? 0) then (STATUS_INVALID_ARGUMENT, TNull, st)
            else match view_array host_value_limits st 0 VIEW_SIZE with
                 | (STATUS_OK, st) => (STATUS_OK, TArray [], st)
                 | (e, st) => (e, TNull, st)
                 end
        | XVector l =>
            let n := Z.of_nat (length l) in
            match view_array host_value_limits st n VIEW_SIZE with
            | (STATUS_OK, st) =>
                (STATUS_OK, TArray (TNumber <$> l), WState (wnodes st + n) (wbytes st) (wheap st))
            | (e, st) => (e, TNull, st)
            end
        | XList false l =>
            match view_array host_value_limits st (Z.of_nat (length l)) VIEW_SIZE with
            | (STATUS_OK, st) =>
                match view_all (fun st v => ts_host_arg_view_from_exprtk v levels st) st l with
                | (STATUS_OK, ts, st) => (STATUS_OK, TArray ts, st)
                | (e, _, st) => (e, TNull, st)
                end
            | (e, st) => (e, TNull, st)
            end
        | XMap _ htab =>
            match htab with
            | None =>
                match view_array host_value_limits st 0 ENTRY_SIZE with
                | (STATUS_OK, st) => (STATUS_OK, TRecord [], st)
                | (e, st) => (e, TNull, st)
                end
            | Some l =>
                match view_array host_value_limits st (Z.of_nat (length l)) ENTRY_SIZE with
                | (STATUS_OK, st) =>
                    match view_all (fun st e =>
                            match arg_key st e.1 with
                            | (STATUS_OK, st) =>
                                let '(s, t, st) := ts_host_arg_view_from_exprtk e.2 levels st in
                                (s, (cut_nul e.1, t), st)
                            | (s, st) => (s, (EmptyString, TNull), st)
                            end) st l with
                    | (STATUS_OK, ts, st) => (STATUS_OK, TRecord ts, st)
                    | (e, _, st) => (e, TNull, st)
                    end
                | (e, st) => (e, TNull, st)
                end
            end
        | XBytes _ | XBigint _ | XEnum _ _ _ _ _ | XTyped _ _ _ | XList true _ | XOther _ _ =>
            (STATUS_VALIDATION_ERROR, TNull, st)
        end
  end.

(** The views of all arguments, in an arena of their own. *)
Definition argument_views (args : list xvalue) (h : heap) : status * list tree * wstate :=
  let st := WState 0 0 h in
  let n := Z.of_nat (length args) in
  if n =? 0 then (STATUS_OK, [], st)
  else match ts_host_registry_charge st n VIEW_SIZE with
       | (STATUS_OK, st) =>
           match attempt (wheap st) with
           | (None, h) => (STATUS_OUT_OF_MEMORY, [], WState (wnodes st) (wbytes st) h)
           | (Some _, h) =>
               view_all (fun st v => ts_host_arg_view_from_exprtk v (Z.to_nat TS_HOST_MAX_VALUE_DEPTH) st)
                 (WState (wnodes st) (wbytes st) h) args
           end
       | (s, st) => (s, [], st)
       end.
End arguments.

(** ** The registry is a table of distinct valid names *)

Section correctness.
Context (utf8_valid : string -> bool).

Definition entry_ok (e : fn_entry) : Prop :=
  ts_host_registry_validate_name utf8_valid (Text (fn_name e)) = STATUS_OK /\ min_arity e <= max_arity e.

Definition registry_ok (c : host) : Prop :=
  NoDup (fn_name <$> host_functions c) /\ Forall entry_ok (host_functions c) /\
  Z.of_nat (length (host_functions c)) <= TS_HOST_REGISTRY_CAPACITY.

(** A call that reaches the body: on the owner thread, with a result of this context. *)
Definition usable (c : host) (r : host_result) : Prop :=
  on_owner (ctx c) = true /\ r_owner r = true /\ r_ctx r = ctx_id (ctx c).

Lemma validate_name_text name :
  ts_host_registry_validate_name utf8_valid name = STATUS_OK ->
  ts_host_registry_validate_name utf8_valid (Text (text_bytes name)) = STATUS_OK.
Proof. destruct name as [n|s]; [|done]. unfold ts_host_registry_validate_name. simpl. by destruct (n =? 0). Qed.

Lemma with_result_usable c r h body :
  usable c r -> with_result c (Some r) h body = body (ts_host_result_clear_unchecked r).
Proof.
  intros (Hc & Hr & Hid). unfold with_result, ts_host_registry_begin_api, ts_host_check_owner_thread,
    ts_host_result_check_context, ts_host_result_reset_checked. simpl.
  rewrite Hc, Hr. simpl. by rewrite Hid, decide_True.
Qed.

(** What reaches the body of an entry point; otherwise the context is untouched. *)
Lemma with_result_inv c r h body s c' r' h' :
  with_result c r h body = (s, c', r', h') ->
  (exists r0, usable c r0 /\ r = Some r0 /\ body (ts_host_result_clear_unchecked r0) = (s, c', r', h')) \/
  (c' = c /\ s <> STATUS_OK).
Proof.
  unfold with_result, ts_host_registry_begin_api, ts_host_check_owner_thread, ts_host_result_check_context,
    ts_host_result_reset_checked.
  destruct (on_owner (ctx c)) eqn:Ho; simpl; [|intros [= <- <- _ _]; by right].
  destruct r as [r|]; simpl; [|intros [= <- <- _ _]; by right].
  destruct (r_owner r) eqn:Hr; simpl; [|intros [= <- <- _ _]; by right].
  destruct (decide _) as [Hid|]; simpl; [|intros [= <- <- _ _]; by right].
  intros Hb. left. by exists r.
Qed.

Lemma refuse_inv c r s message h s' c' r' h' :
  refuse utf8_valid c r s message h = (s', c', r', h') -> s' = s /\ c' = c.
Proof.
  unfold refuse, ts_host_registry_fail. destruct (ts_host_result_set_error _ _ _ _ _) as [[? ?] ?].
  by intros [= <- <- _ _].
Qed.

Lemma find_slot_spec c name :
  on_owner (ctx c) = true ->
  ts_host_registry_find_slot utf8_valid c name =
  match ts_host_registry_validate_name utf8_valid name with
  | STATUS_OK =>
      match find_index (fun e => ts_host_registry_name_equal e (text_bytes name)) (host_functions c) with
      | Some i => (STATUS_OK, Some i)
      | None => (STATUS_NOT_FOUND, None)
      end
  | s => (s, None)
  end.
Proof. intros Ho. unfold ts_host_registry_find_slot, ts_host_check_owner_thread. by rewrite Ho. Qed.

Lemma name_index_None l name :
  find_index (fun e => ts_host_registry_name_equal e name) l = None <-> name ∉ fn_name <$> l.
Proof.
  rewrite find_index_None, Forall_forall, list_elem_of_fmap. unfold ts_host_registry_name_equal.
  split.
  - intros Hall (e & -> & He). by apply Hall, bool_decide_eq_false in He.
  - intros Hn e He. apply bool_decide_eq_false. intros <-. apply Hn. by exists e.
Qed.

Lemma name_index_Some l name i :
  find_index (fun e => ts_host_registry_name_equal e name) l = Some i ->
  exists e, l !! i = Some e /\ fn_name e = name.
Proof.
  intros (e & He & Hn)%find_index_lookup. exists e. split; [done|]. by apply bool_decide_eq_true in Hn.
Qed.

(** What a descriptor has to be. *)
Definition descriptor_ok (d : descriptor) : Prop :=
  ts_host_registry_validate_descriptor utf8_valid (Some d) (Some 0%nat) = STATUS_OK.

Lemma descriptor_ok_inv d :
  descriptor_ok d ->
  ts_host_registry_validate_name utf8_valid (d_name d) = STATUS_OK /\ d_min_arity d <= d_max_arity d.
Proof.
  unfold descriptor_ok, ts_host_registry_validate_descriptor.
  destruct (_ || _) eqn:E; [done|]. bool_props. destruct (negb (forallb _ _)); [done|].
  intros Hn. split; [done|lia].
Qed.

Lemma register_ok_inv c d cb r h c' r' h' :
  turbo_script_context_register_host_function utf8_valid c d cb r h = (STATUS_OK, c', r', h') ->
  exists d0 cb0 r0, d = Some d0 /\ cb = Some cb0 /\ usable c r0 /\ active_host_modules c = 0 /\ descriptor_ok d0 /\
    (text_bytes (d_name d0) ∉ fn_name <$> host_functions c) /\
    Z.of_nat (length (host_functions c)) < TS_HOST_REGISTRY_CAPACITY /\
    c' = set_functions (host_functions c ++
           [FnEntry (text_bytes (d_name d0)) (d_min_arity d0) (d_max_arity d0) cb0]) c.
Proof.
  unfold turbo_script_context_register_host_function.
  intros [(r0 & Hu & -> & Hb)|[_ Hs]]%with_result_inv; [|done]. pose proof Hu as (Ho & _).
  destruct (active_host_modules c =? 0) eqn:Ea; simpl in Hb; [|by apply refuse_inv in Hb as [? _]].
  destruct d as [d|]; [|by apply refuse_inv in Hb as [? _]].
  destruct cb as [cb|]; [|by apply refuse_inv in Hb as [? _]].
  destruct (ts_host_registry_validate_descriptor utf8_valid (Some d) (Some cb)) eqn:Ed;
    try (by apply refuse_inv in Hb as [? _]).
  assert (descriptor_ok d) as Hd by exact Ed. destruct (descriptor_ok_inv d Hd) as [En _].
  rewrite (find_slot_spec c _ Ho), En in Hb.
  destruct (find_index _ _) as [i|] eqn:Ei; [by apply refuse_inv in Hb as [? _]|].
  destruct (_ <=? _) eqn:El; [by apply refuse_inv in Hb as [? _]|].
  destruct (attempt h) as [[[]|] h1]; [|by apply refuse_inv in Hb as [? _]].
  destruct (attempt h1) as [[[]|] h2]; [|by apply refuse_inv in Hb as [? _]].
  injection Hb as <- _ _. exists d, cb, r0. apply name_index_None in Ei. split_and!; try done; lia.
Qed.

Lemma unregister_ok_inv c name r h c' r' h' :
  turbo_script_context_unregister_host_function utf8_valid c name r h = (STATUS_OK, c', r', h') ->
  exists slot e, active_host_modules c = 0 /\ host_functions c !! slot = Some e /\
    fn_name e = text_bytes name /\ on_owner (ctx c) = true /\
    ts_host_registry_validate_name utf8_valid name = STATUS_OK /\
    c' = set_functions (delete slot (host_functions c)) c.
Proof.
  unfold turbo_script_context_unregister_host_function.
  intros [(r0 & Hu & -> & Hb)|[_ Hs]]%with_result_inv; [|done]. pose proof Hu as (Ho & _).
  destruct (active_host_modules c =? 0) eqn:Ea; simpl in Hb; [|by apply refuse_inv in Hb as [? _]].
  rewrite (find_slot_spec c _ Ho) in Hb.
  destruct (ts_host_registry_validate_name utf8_valid name) eqn:En; try (by apply refuse_inv in Hb as [? _]).
  destruct (find_index _ _) as [i|] eqn:Ei; [|by apply refuse_inv in Hb as [? _]].
  injection Hb as <- _ _. apply name_index_Some in Ei as (e & He & Hn). exists i, e. split_and!; try done; lia.
Qed.

Lemma register_refused c d cb r h s c' r' h' :
  turbo_script_context_register_host_function utf8_valid c d cb r h = (s, c', r', h') -> s <> STATUS_OK -> c' = c.
Proof.
  unfold turbo_script_context_register_host_function.
  intros [(r0 & _ & _ & Hb)|[-> _]]%with_result_inv Hs; [|done].
  repeat case_match; simplify_eq; try done; by apply refuse_inv in Hb as [_ ->].
Qed.

Lemma unregister_refused c name r h s c' r' h' :
  turbo_script_context_unregister_host_function utf8_valid c name r h = (s, c', r', h') -> s <> STATUS_OK -> c' = c.
Proof.
  unfold turbo_script_context_unregister_host_function.
  intros [(r0 & _ & _ & Hb)|[-> _]]%with_result_inv Hs; [|done].
  repeat case_match; simplify_eq; try done; by apply refuse_inv in Hb as [_ ->].
Qed.

(** The registry always holds at most 256 functions with distinct valid names and
    consistent arities; while a module is alive neither registration nor removal
    changes it; a refused call changes nothing; an accepted registration takes the
    next slot, where the name is then found, and leaves every other slot alone; after
    an accepted removal the name is not found. *)
Theorem registry_table c d cb name r h s c' r' h' :
  registry_ok c ->
  (turbo_script_context_register_host_function utf8_valid c d cb r h = (s, c', r', h') ->
    (s <> STATUS_OK -> c' = c) /\
    (s = STATUS_OK -> registry_ok c' /\ active_host_modules c = 0 /\
       exists d0, d = Some d0 /\
         ts_host_registry_find_slot utf8_valid c' (d_name d0) = (STATUS_OK, Some (length (host_functions c))) /\
         forall i, (i < length (host_functions c))%nat ->
           ts_host_registry_get_slot c' i = ts_host_registry_get_slot c i)) /\
  (turbo_script_context_unregister_host_function utf8_valid c name r h = (s, c', r', h') ->
    (s <> STATUS_OK -> c' = c) /\
    (s = STATUS_OK -> registry_ok c' /\ active_host_modules c = 0 /\
       ts_host_registry_find_slot utf8_valid c' name = (STATUS_NOT_FOUND, None))).
Proof.
  intros (Hnd & Hall & Hlen). split; intros Hs; (split; [intros Hbad|intros ->]).
  - by eapply register_refused.
  - destruct (register_ok_inv _ _ _ _ _ _ _ _ Hs) as (d0 & cb0 & r0 & -> & -> & (Ho & _) & Ha & Hd & Hnew & Hl & ->).
    destruct (descriptor_ok_inv _ Hd) as [Hn Hle].
    split; [|split; [done|]].
    + unfold registry_ok. simpl. rewrite fmap_app, length_app. split_and!.
      * apply NoDup_app. split; [done|]. split; [|apply NoDup_singleton].
        intros x Hx Hx'%list_elem_of_singleton. simpl in Hx'. by subst.
      * apply Forall_app. split; [done|]. constructor; [|constructor]. split; [|done].
        by apply validate_name_text.
      * simpl. lia.
    + exists d0. split; [done|]. split.
      * rewrite find_slot_spec by done. rewrite Hn. simpl.
        replace (find_index _ _) with (Some (length (host_functions c))); [done|]. symmetry.
        apply find_index_Some. eexists. split; [by rewrite lookup_app_r, Nat.sub_diag by lia|].
        split; [by apply bool_decide_eq_true|]. intros j e Hj He. apply bool_decide_eq_false.
        rewrite lookup_app_l in He by done. intros Heq. apply Hnew. rewrite <- Heq.
        apply list_elem_of_fmap. exists e. split; [done|]. by eapply list_elem_of_lookup_2.
      * intros i Hi. unfold ts_host_registry_get_slot, ts_host_check_owner_thread. simpl.
        by rewrite lookup_app_l.
  - by eapply unregister_refused.
  - destruct (unregister_ok_inv _ _ _ _ _ _ _ Hs) as (slot & e & Ha & He & Hname & Ho & Hn & ->).
    pose proof (delete_Permutation _ _ _ He) as Hp. rewrite Hp in Hnd, Hall.
    apply Forall_cons in Hall as [_ Hall]. simpl in Hnd. apply NoDup_cons in Hnd as [Hnot Hnd].
    split; [|split; [done|]].
    + unfold registry_ok. simpl. split_and!; [done|done|]. apply Permutation_length in Hp. simpl in Hp. lia.
    + rewrite find_slot_spec by done. rewrite Hn. simpl.
      replace (find_index _ _) with (@None nat); [done|]. symmetry. apply name_index_None. by rewrite <- Hname.
Qed.

(** ** Arguments *)

Lemma arg_view_sound v : forall levels st t st',
  ts_host_arg_view_from_exprtk utf8_valid v levels st = (STATUS_OK, t, st') ->
  viewable v = true /\ t = tree_of v.
Proof.
  induction v as [| | | |s|s|s|f t s x i|l|n|k n d|set l IH|b|b l IH|] using xvalue_nested_ind;
    intros [|levels] st t' st'; try done; cbn [ts_host_arg_view_from_exprtk];
    (destruct (wnodes st =? TS_HOST_MAX_VALUE_NODES); [done|]); try done.
  1-3: intros [= <- _]; split; reflexivity.
  - destruct (negb _ && negb _) eqn:E; [done|]. intros [= <- _]. simpl. split; [lia|reflexivity].
  - destruct (text_dangling s) eqn:Hd; [done|].
    destruct (ts_host_registry_charge _ _ _) as [[] st1]; try done.
    destruct (utf8_valid _); [|done]. intros [= <- _]. simpl. rewrite Hd. split; reflexivity.
  - cbv zeta. destruct (view_array _ _ _ _) as [[] st1]; try done. intros [= <- _]. split; reflexivity.
  - destruct (negb (n =? 0)) eqn:E; [done|]. destruct (view_array _ _ _ _) as [[] st1]; try done.
    intros [= <- _]. simpl. split; [lia|reflexivity].
  - destruct set; [done|]. destruct (view_array _ _ _ _) as [[] st1]; try done.
    destruct (view_all _ st1 l) as [[[] ts] st2] eqn:E; try done. intros [= <- _]. simpl.
    destruct (viewed_list tree_of viewable l ts) as [-> ->]; [|split; reflexivity].
    eapply view_all_sound; [|exact E]. eapply Forall_impl; [exact IH|]. intros v Hv st0 u st0'. apply Hv.
  - destruct (view_array _ _ _ _) as [[] st1]; try done. intros [= <- _]. split; reflexivity.
  - destruct (view_array _ _ _ _) as [[] st1]; try done.
    destruct (view_all _ st1 l) as [[[] ts] st2] eqn:E; try done. intros [= <- _]. simpl.
    destruct (viewed_list view_entry (fun e => viewable e.2) l ts) as [-> ->]; [|split; reflexivity].
    eapply view_all_sound; [|exact E]. eapply Forall_impl; [exact IH|]. intros [k v] Hv st0 u st0'. simpl.
    destruct (arg_key _ _ _) as [[] st3]; try done.
    destruct (ts_host_arg_view_from_exprtk utf8_valid v levels st3) as [[s t] st4] eqn:E'. intros [= -> <- _].
    apply Hv in E' as [? ->]. split; [done|reflexivity].
Qed.

Lemma argument_views_sound args h ts st :
  argument_views utf8_valid args h = (STATUS_OK, ts, st) ->
  forallb viewable args = true /\ ts = tree_of <$> args.
Proof.
  unfold argument_views. destruct (_ =? 0) eqn:E.
  - destruct args; [|simpl in E; lia]. by intros [= <- _].
  - destruct (ts_host_registry_charge _ _ _) as [[] st1]; try done.
    destruct (attempt _) as [[[]|] h1]; [|done]. intros Hv. apply viewed_list.
    eapply view_all_sound; [|exact Hv]. apply Forall_true. intros v st0 u st0'. apply arg_view_sound.
Qed.
End correctness.

Definition sample_host : host :=
  Host (HostCtx 1 true 1 false no_error) false [FnEntry "log" 1 2 7%nat] 0 0 None 1.

Definition sample_descriptor : descriptor := Descriptor 64 0 3 0 (Text "emit") [0; 0; 0; 0].

Lemma sample_host_ok : registry_ok any_text sample_host.
Proof.
  split; [repeat constructor; set_solver|]. split; [repeat constructor; vm_compute; discriminate|].
  vm_compute. discriminate.
Qed.

Definition sample_registration : outcome :=
  turbo_script_context_register_host_function any_text sample_host (Some sample_descriptor)
    (Some 9%nat) (Some sample_result) [].

Lemma registry_table_witness :
  ts_host_registry_find_slot any_text sample_registration.1.1.2 (Text "emit") = (STATUS_OK, Some 1%nat).
Proof.
  destruct (registry_table any_text sample_host (Some sample_descriptor) (Some 9%nat) (Text "log")
    (Some sample_result) [] STATUS_OK sample_registration.1.1.2 sample_registration.1.2
    sample_registration.2 sample_host_ok) as [H _].
  destruct (H eq_refl) as [_ H']. destruct (H' eq_refl) as (_ & _ & d0 & Hd & Hf & _).
  injection Hd as <-. exact Hf.
Defined.
