(* ===== verification/HostModule.v ===== *)
(** Modules of the host API: [turbo_script/src/host/turbo_script_host_module.c].

    Compiling a module checks the source, charges the syntax tree against the
    caller's limits, collects the exports, and freezes the host registry for the
    module's life.  The parser, the validator of the tree and the compiled backend
    are operations of the class [Frontend]: the first two are components of their own,
    the last one is not modelled. *)

From S2P Require Import Prelude HostStatus Float64 Ast HostView HostViewProofs HostResult HostRegistry.
Open Scope Z_scope.

Definition TS_HOST_MODULE_SOURCE_LIMIT : Z := 4 * 1024 * 1024.
Definition TS_HOST_MODULE_AST_LIMIT : Z := 100000.
Definition TS_HOST_MODULE_IMPORT_LIMIT : Z := 64.
Definition TS_HOST_MODULE_EXPORT_LIMIT : Z := 256.
Definition TS_HOST_MODULE_STRING_LIMIT : Z := 4 * 1024 * 1024.

(** ** Options: [turbo_script_module_options_t] *)

Record module_options := ModuleOptions {
  mo_struct_size : Z;
  mo_reserved0 : Z;
  mo_module_name : text;
  max_source_bytes : Z;
  max_ast_nodes : Z;
  max_imports : Z;
  max_exports : Z;
  max_string_bytes : Z;
  mo_reserved : list Z
}.

Definition MODULE_OPTIONS_SIZE : Z := 96.

Definition turbo_script_module_options_init : module_options :=
  ModuleOptions MODULE_OPTIONS_SIZE 0 (NoData 0) TS_HOST_MODULE_SOURCE_LIMIT TS_HOST_MODULE_AST_LIMIT
    TS_HOST_MODULE_IMPORT_LIMIT TS_HOST_MODULE_EXPORT_LIMIT TS_HOST_MODULE_STRING_LIMIT [0; 0; 0; 0].

Definition ts_host_options_valid (o : option module_options) : bool :=
  match o with
  | None => false
  | Some o =>
      (mo_struct_size o =? MODULE_OPTIONS_SIZE) && (mo_reserved0 o =? 0) &&
      forallb (fun z => z =? 0) (mo_reserved o) &&
      (max_source_bytes o <=? TS_HOST_MODULE_SOURCE_LIMIT) &&
      (max_ast_nodes o <=? TS_HOST_MODULE_AST_LIMIT) &&
      (max_imports o <=? TS_HOST_MODULE_IMPORT_LIMIT) &&
      (max_exports o <=? TS_HOST_MODULE_EXPORT_LIMIT) &&
      (max_string_bytes o <=? TS_HOST_MODULE_STRING_LIMIT)
  end.

(** ** The size of a tree *)

Record ast_usage := Usage { u_nodes : Z; u_imports : Z; u_string_bytes : Z }.

(** [None] is the 0 of the code. *)
Definition ts_host_charge (value amount limit : Z) : option Z :=
  if (limit <? value) || (limit - value <? amount) then None else Some (value + amount).

Definition use_opt (f : node -> ast_usage -> option ast_usage) (o : option node) (u : ast_usage)
    : option ast_usage :=
  match o with Some n => f n u | None => Some u end.

Definition use_list (f : node -> ast_usage -> option ast_usage) :=
  fix go (l : list node) (u : ast_usage) : option ast_usage :=
    match l with
    | [] => Some u
    | n :: l => u ← f n u; go l u
    end.

Section usage.
Context (options : module_options).

Definition charge_node (u : ast_usage) : option ast_usage :=
  n ← ts_host_charge (u_nodes u) 1 (max_ast_nodes options);
  Some (Usage n (u_imports u) (u_string_bytes u)).

Definition charge_import (u : ast_usage) : option ast_usage :=
  n ← ts_host_charge (u_imports u) 1 (max_imports options);
  Some (Usage (u_nodes u) n (u_string_bytes u)).

Definition charge_string (bytes : Z) (u : ast_usage) : option ast_usage :=
  n ← ts_host_charge (u_string_bytes u) bytes (max_string_bytes options);
  Some (Usage (u_nodes u) (u_imports u) n).

Fixpoint ts_host_ast_usage (n : node) (u : ast_usage) : option ast_usage :=
  let 'Node _ _ d := n in
  u ← charge_node u;
  match d with
  | NODE_NUMBER _ | NODE_INTEGER _ | NODE_VARIABLE _ | NODE_NULL | NODE_REST_PARAMETER _
  | NODE_THIS => Some u
  | NODE_BLOCK l | NODE_VECTOR l | NODE_MAP_LITERAL _ l | NODE_NEW _ l | NODE_SUPER _ l _ =>
      use_list ts_host_ast_usage l u
  | NODE_STRING s | NODE_TEMPLATE_STRING s => charge_string (str_size s) u
  | NODE_FUNCTION_EXPRESSION _ l a | NODE_FUNCTION_DEFINITION _ l a
  | NODE_GENERATOR_FUNCTION _ l a | NODE_METHOD _ l a _ _ _ _ _ =>
      u ← use_list ts_host_ast_usage l u; use_opt ts_host_ast_usage a u
  | NODE_FUNCTION_CALL name l =>
      u ← (if decide (name = Some "import"%string) then charge_import u else Some u);
      use_list ts_host_ast_usage l u
  | NODE_BINARY_OP _ a b | NODE_WHILE a b | NODE_INDEX a b | NODE_DO_WHILE a b
  | NODE_MEMBER_SET a _ b | NODE_FOR_IN _ a b | NODE_DESTRUCTURING_ASSIGNMENT a b _
  | NODE_TRY_CATCH a _ b | NODE_INSTANCEOF a _ b =>
      u ← use_opt ts_host_ast_usage a u; use_opt ts_host_ast_usage b u
  | NODE_ASSIGNMENT _ a | NODE_CONSTANT_DECL _ a | NODE_FLOW _ a | NODE_MEMBER_ACCESS a _
  | NODE_SPREAD a | NODE_THROW a | NODE_YIELD a | NODE_FIELD_DECL _ _ a _ _ =>
      use_opt ts_host_ast_usage a u
  | NODE_IF a b c | NODE_SLICE a b c =>
      u ← use_opt ts_host_ast_usage a u; u ← use_opt ts_host_ast_usage b u;
      use_opt ts_host_ast_usage c u
  | NODE_FOR a b c e =>
      u ← use_opt ts_host_ast_usage a u; u ← use_opt ts_host_ast_usage b u;
      u ← use_opt ts_host_ast_usage c u; use_opt ts_host_ast_usage e u
  | NODE_MEMBER_CALL a _ l => u ← use_opt ts_host_ast_usage a u; use_list ts_host_ast_usage l u
  | NODE_SWITCH a l b =>
      u ← use_opt ts_host_ast_usage a u; u ← use_list ts_host_ast_usage l u;
      use_opt ts_host_ast_usage b u
  | NODE_CLASS_DEF _ a l l' _ _ _ _ _ =>
      u ← use_opt ts_host_ast_usage a u; u ← use_list ts_host_ast_usage l u;
      use_list ts_host_ast_usage l' u
  end.

(** ** Exports *)

(** [ts_host_export_entry_t] *)
Record export_entry := ExportEntry {
  x_name : string;
  x_arity : Z;
  x_line : Z;
  x_column : Z;
  x_declaration : node;
  x_function : node
}.

(** A top-level definition of the function [name]. *)
Definition defines (name : string) (n : node) : bool :=
  match data n with
  | NODE_FUNCTION_DEFINITION (Some f) _ _ => bool_decide (f = name)
  | _ => false
  end.

Definition ts_host_find_top_function (statements : list node) (name : string) : option node :=
  List.find (defines name) statements.

(** [ts_host_module_test_ast_usage] *)
Definition ts_host_module_test_ast_usage (root : option node) (o : option module_options) : status :=
  match root, ts_host_options_valid o with
  | Some root, true =>
      match ts_host_ast_usage root (Usage 0 0 0) with
      | Some _ => STATUS_OK
      | None => STATUS_LIMIT_EXCEEDED
      end
  | _, _ => STATUS_INVALID_ARGUMENT
  end.

Definition is_export (n : node) : bool :=
  match data n with
  | NODE_FUNCTION_CALL (Some f) _ => bool_decide (f = "export"%string)
  | _ => false
  end.

Definition is_variable (n : node) : bool :=
  match data n with NODE_VARIABLE _ => true | _ => false end.

Definition parameters (n : node) : list node :=
  match data n with NODE_FUNCTION_DEFINITION _ l _ => l | _ => [] end.

Context (utf8_valid : string -> bool).

(** The literal name of an export statement. *)
Definition export_name (n : node) : option string :=
  match data n with
  | NODE_FUNCTION_CALL _ [a] =>
      match data a with
      | NODE_STRING name =>
          if (str_size name =? 0) || has_nul name || negb (utf8_valid name) then None else Some name
      | _ => None
      end
  | _ => None
  end.

(** The exported function, when its parameters are at most 16 plain names. *)
Definition export_function (statements : list node) (name : string) : option node :=
  match ts_host_find_top_function statements name with
  | None => None
  | Some f =>
      if (16 <? Z.of_nat (length (parameters f))) || negb (forallb is_variable (parameters f))
      then None else Some f
  end.

(** The loop over the statements: the status, the table, the offending statement. *)
Fixpoint scan_loop (all todo : list node) (table : list export_entry) (h : heap)
    : status * list export_entry * option node * heap :=
  match todo with
  | [] => (STATUS_OK, table, None, h)
  | n :: todo =>
      if negb (is_export n) then scan_loop all todo table h
      else
        match export_name n with
        | None => (STATUS_VALIDATION_ERROR, table, Some n, h)
        | Some name =>
            if max_exports options <=? Z.of_nat (length table)
            then (STATUS_LIMIT_EXCEEDED, table, Some n, h)
            else if existsb (fun e => bool_decide (x_name e = name)) table
            then (STATUS_VALIDATION_ERROR, table, Some n, h)
            else
              match export_function all name with
              | None => (STATUS_VALIDATION_ERROR, table, Some n, h)
              | Some f =>
                  match attempt h with                              (* the name *)
                  | (None, h) => (STATUS_OUT_OF_MEMORY, table, Some n, h)
                  | (Some _, h) =>
                      match attempt h with                          (* the entry *)
                      | (None, h) => (STATUS_OUT_OF_MEMORY, table, Some n, h)
                      | (Some _, h) =>
                          let e := ExportEntry name (Z.of_nat (length (parameters f)))
                            (Z.max 0 (node_line n)) (Z.max 0 (node_column n)) n f in
                          scan_loop all todo (table ++ [e]) h
                      end
                  end
              end
        end
  end.

Definition ts_host_scan_exports (root : node) (h : heap)
    : status * list export_entry * option node * heap :=
  match data root with
  | NODE_BLOCK statements => scan_loop statements statements [] h
  | _ => (STATUS_OK, [], None, h)
  end.
End usage.

(** ** Where a parse failed

    [scanned] is what [sscanf] reads from the parser's message: a line, 0 without
    one, and a column.  Otherwise the end of the source. *)
Fixpoint end_span (s : string) (line column : Z) : Z * Z :=
  match s with
  | EmptyString => (line, column)
  | String a s =>
      if decide (a = Ascii.ascii_of_nat 10) then end_span s (wrapu 32 (line + 1)) 1
      else end_span s line (wrapu 32 (column + 1))
  end.

Definition ts_host_parse_span (scanned : Z * Z) (source : string) : Z * Z :=
  if scanned.1 =? 0 then end_span (cut_nul source) 1 1 else scanned.

(** ** Modules *)

(** [turbo_script_module_s]; the artifact is an identity. *)
Record host_module := HostModule {
  m_source : string;
  m_name : string;
  m_ast : node;
  m_exports : list export_entry;
  m_artifact : nat;
  parse_count : Z;
  lower_count : Z;
  m_ref_count : Z;
  accepting_instances : bool
}.

(** What compiling a module asks of the rest of the program.  [turbo_script_parse_with_error] clears the error
    of the context, and a parse that fails leaves one there, with the line and column that its message names;
    the validator that finds something leaves its message, and a lowering that fails an error. *)
Class Frontend := {
  parse : string -> node + (ctx_error * (Z * Z));
  bind_runtime : list fn_entry -> status;
  validates : node -> list fn_entry -> option string;
  artifact_compile : node -> list export_entry -> nat + ctx_error
}.

Section compile.
Context `{Frontend} (utf8_valid : string -> bool).

Definition ts_host_module_fail (c : host) (r : host_result) (s : status) (module_name : text)
    (message : string) (span : Z * Z) (h : heap) : outcome :=
  let error := api_error s ERROR_NONE PHASE_COMPILE span.1 span.2 1 module_name (NoData 0) message in
  let '(_, r, h) := ts_host_result_set_error utf8_valid r (Some error) TS_HOST_MODULE_STRING_LIMIT h in
  (s, c, Some r, h).

(** The message of the [fail] label. *)
Definition failure_message (s : status) : string :=
  match s with
  | STATUS_PARSE_ERROR => "module parse failed"
  | STATUS_LIMIT_EXCEEDED => "module compile limit exceeded"
  | _ => "module validation or lowering failed"
  end.

Definition bad_span (bad : option node) : Z * Z :=
  match bad with
  | Some n => (Z.max 0 (node_line n), Z.max 0 (node_column n))
  | None => (0, 0)
  end.

Definition with_ctx (f : host_ctx -> host_ctx) (c : host) : host :=
  Host (f (ctx c)) (closing c) (host_functions c) (active_host_modules c) (host_callback_depth c)
    (active_host_instance c) (next_instance_generation c).

Definition with_last_error (e : ctx_error) : host -> host := with_ctx (set_last_error e).

(** From the allocation of the module on; [fail] is the label, with the registry
    released when it had been acquired. *)
Definition compile_checked (c : host) (source : string) (options : module_options) (r : host_result)
    (h : heap) : outcome * option host_module :=
  let name := mo_module_name options in
  let fail c s span h := (ts_host_module_fail c r s name (failure_message s) span h, None) in
  match attempt h with
  | (None, h) => (ts_host_module_fail c r STATUS_OUT_OF_MEMORY name "module allocation failed" (0, 0) h, None)
  | (Some _, h) =>
      let (a, h) := attempt h in                           (* the source *)
      let (b, h) := attempt h in                           (* the name *)
      match a, b with
      | Some _, Some _ =>
          match parse source with
          | inr (e, scanned) =>
              let c := with_last_error e c in
              if decide (ce_code e = ERROR_OOM) then fail c STATUS_OUT_OF_MEMORY (0, 0) h
              else fail c STATUS_PARSE_ERROR (ts_host_parse_span scanned source) h
          | inl ast =>
              let c := with_last_error no_error c in
              match ts_host_ast_usage options ast (Usage 0 0 (text_size name)) with
              | None => fail c STATUS_LIMIT_EXCEEDED (0, 0) h
              | Some _ =>
                  match ts_host_scan_exports options utf8_valid ast h with
                  | (STATUS_OK, exports, bad, h) =>
                      match ts_host_registry_acquire_module c with
                      | (STATUS_OK, c1) =>
                          let release e s h := fail (ts_host_registry_release_module (with_last_error e c1)).2 s (0, 0) h in
                          match bind_runtime (host_functions c1) with
                          | STATUS_OK =>
                              match validates ast (host_functions c1) with
                              | None =>
                                match artifact_compile ast exports with
                                | inl artifact =>
                                    ((STATUS_OK, with_ctx ts_context_retain c1, Some r, h),
                                     Some (HostModule source (text_bytes name) ast exports artifact 1 1 1 true))
                                | inr e =>
                                    release e (if decide (ce_code e = ERROR_OOM) then STATUS_OUT_OF_MEMORY
                                               else STATUS_UNSUPPORTED_BACKEND_SEMANTIC) h
                                end
                              | Some message => release (CtxError ERROR_NONE message) STATUS_VALIDATION_ERROR h
                              end
                          | s => release no_error s h
                          end
                      | (s, _) => fail c s (0, 0) h
                      end
                  | (s, _, bad, h) => fail c s (bad_span bad) h
                  end
              end
          end
      | _, _ => fail c STATUS_OUT_OF_MEMORY (0, 0) h
      end
  end.

(** [out]: the caller gave a place for the module. *)
Definition turbo_script_module_compile (c : option host) (source : text) (options : option module_options)
    (r : option host_result) (out : bool) (h : heap)
    : (status * option host * option host_result * heap) * option host_module :=
  match c with
  | None => ((STATUS_INVALID_ARGUMENT, None, r, h), None)
  | Some c =>
      let wrap (o : outcome * option host_module) :=
        let '((s, c, r, h), m) := o in ((s, Some c, r, h), m) in
      match ts_host_registry_begin_api c r with
      | (STATUS_OK, Some r) =>
          wrap (
          if negb out
          then (ts_host_module_fail c r STATUS_INVALID_ARGUMENT (NoData 0) "module output is required" (0, 0) h, None)
          else if closing c
          then (ts_host_module_fail c r STATUS_INVALID_STATE (NoData 0) "context is closing" (0, 0) h, None)
          else match ts_host_options_valid options, options with
               | true, Some o =>
                   let name := mo_module_name o in
                   let fail s message := (ts_host_module_fail c r s name message (0, 0) h, None) in
                   if text_dangling source
                   then (ts_host_module_fail c r STATUS_INVALID_ARGUMENT (NoData 0)
                           "invalid module compile arguments" (0, 0) h, None)
                   else if max_source_bytes o <? text_size source
                   then fail STATUS_LIMIT_EXCEEDED "source byte limit exceeded"%string
                   else if (text_size source =? 0) || has_nul (text_bytes source)
                   then fail STATUS_VALIDATION_ERROR "source must be nonempty and NUL-free"%string
                   else if negb (utf8_valid (text_bytes source)) || text_dangling name ||
                           (negb (text_size name =? 0) &&
                            (has_nul (text_bytes name) || negb (utf8_valid (text_bytes name))))
                   then fail STATUS_INVALID_UTF8 "module text is not valid UTF-8"%string
                   else if max_string_bytes o <? text_size name
                   then fail STATUS_LIMIT_EXCEEDED "module name byte limit exceeded"%string
                   else compile_checked c (text_bytes source) o r h
               | _, _ => (ts_host_module_fail c r STATUS_INVALID_ARGUMENT (NoData 0)
                            "invalid module compile arguments" (0, 0) h, None)
               end)
      | (s, r) => ((s, Some c, r, h), None)
      end
  end.
End compile.

(** ** Ownership of a module *)

Inductive released := Alive (m : host_module) | Freed | Aborted.

Definition set_refs (n : Z) (m : host_module) : host_module :=
  HostModule (m_source m) (m_name m) (m_ast m) (m_exports m) (m_artifact m) (parse_count m)
    (lower_count m) n (accepting_instances m).

(** [None] is [abort]. *)
Definition ts_host_module_retain (m : host_module) : option host_module :=
  if m_ref_count m =? SIZE_MAX then None else Some (set_refs (m_ref_count m + 1) m).

(** The last reference releases the registry and the context. *)
Definition ts_host_module_release (c : host) (m : host_module) : host * released :=
  if m_ref_count m =? 0 then (c, Aborted)
  else if m_ref_count m =? 1
  then match ts_host_registry_release_module c with
       | (STATUS_OK, c) => (with_ctx ts_context_release c, Freed)
       | _ => (c, Aborted)
       end
  else (c, Alive (set_refs (m_ref_count m - 1) m)).

Definition close_module (m : host_module) : host_module :=
  HostModule (m_source m) (m_name m) (m_ast m) (m_exports m) (m_artifact m) (parse_count m)
    (lower_count m) (m_ref_count m) false.

Definition turbo_script_module_destroy (c : host) (m : host_module) (r : option host_result) (h : heap)
    : outcome * released :=
  match ts_host_registry_begin_api c r with
  | (STATUS_OK, r) =>
      if accepting_instances m
      then let (c, m) := ts_host_module_release c (close_module m) in ((STATUS_OK, c, r, h), m)
      else ((STATUS_INVALID_STATE, c, r, h), Alive m)
  | (s, r) => ((s, c, r, h), Alive m)
  end.

(** The accessors; NULL modules are [None]. *)
Definition ts_host_module_export_count (m : option host_module) : Z :=
  match m with Some m => Z.of_nat (length (m_exports m)) | None => 0 end.
Definition ts_host_module_entry (m : option host_module) (index : nat) : option export_entry :=
  m ← m; m_exports m !! index.
Definition ts_host_module_export_name (m : option host_module) (index : nat) : option string :=
  x_name <$> ts_host_module_entry m index.
Definition ts_host_module_export_arity (m : option host_module) (index : nat) : Z :=
  default UINT32_MAX (x_arity <$> ts_host_module_entry m index).

(** ** The size of a tree *)

(** The nodes of a tree, each before its descendants. *)
Inductive preorder : node -> list node -> Prop :=
  | preorder_node n ls : Forall2 preorder (children (data n)) ls -> preorder n (n :: concat ls).

Definition is_import (n : node) : bool :=
  match data n with
  | NODE_FUNCTION_CALL name _ => bool_decide (name = Some "import"%string)
  | _ => false
  end.

Definition literal_bytes (n : node) : Z :=
  match data n with NODE_STRING s | NODE_TEMPLATE_STRING s => str_size s | _ => 0 end.

Definition plus_usage (u v : ast_usage) : ast_usage :=
  Usage (u_nodes u + u_nodes v) (u_imports u + u_imports v) (u_string_bytes u + u_string_bytes v).

(** What a list of nodes weighs. *)
Definition weight (l : list node) : ast_usage :=
  Usage (Z.of_nat (length l)) (Z.of_nat (length (filter is_import l))) (sum_of literal_bytes l).

Section usage_correct.
Context (options : module_options).

Definition fits (u : ast_usage) : bool :=
  (u_nodes u <=? max_ast_nodes options) && (u_imports u <=? max_imports options) &&
  (u_string_bytes u <=? max_string_bytes options).

(** [f] adds [w] when the sum fits. *)
Definition adds (f : ast_usage -> option ast_usage) (w : ast_usage) : Prop :=
  forall u, fits u = true -> f u = if fits (plus_usage u w) then Some (plus_usage u w) else None.

Lemma adds_bind f g v w :
  0 <= u_nodes w -> 0 <= u_imports w -> 0 <= u_string_bytes w ->
  adds f v -> adds g w -> adds (fun u => u ← f u; g u) (plus_usage v w).
Proof.
  intros Hn Hi Hs Hf Hg u Hu. rewrite (Hf u Hu).
  replace (plus_usage u (plus_usage v w)) with (plus_usage (plus_usage u v) w)
    by (unfold plus_usage; simpl; by rewrite !Z.add_assoc).
  destruct (fits (plus_usage u v)) eqn:E; simpl; [by apply Hg|].
  destruct (fits (plus_usage (plus_usage u v) w)) eqn:E'; [|done]. unfold fits in *. simpl in *. lia.
Qed.

Lemma adds_ext f g v w : (forall u, f u = g u) -> v = w -> adds g w -> adds f v.
Proof. intros Hfg -> Hg u Hu. rewrite Hfg. by apply Hg. Qed.

Lemma adds_nothing : adds Some (weight []).
Proof. intros u Hu. destruct u. unfold plus_usage. simpl in *. by rewrite !Z.add_0_r, Hu. Qed.

Lemma adds_node : adds (charge_node options) (Usage 1 0 0).
Proof.
  intros u Hu. unfold charge_node, ts_host_charge, fits, plus_usage in *. simpl.
  rewrite !Z.add_0_r. destruct (_ || _) eqn:E; simpl; case_match; (done || lia).
Qed.

Lemma adds_import : adds (charge_import options) (Usage 0 1 0).
Proof.
  intros u Hu. unfold charge_import, ts_host_charge, fits, plus_usage in *. simpl.
  rewrite !Z.add_0_r. destruct (_ || _) eqn:E; simpl; case_match; (done || lia).
Qed.

Lemma adds_string n : adds (charge_string options n) (Usage 0 0 n).
Proof.
  intros u Hu. unfold charge_string, ts_host_charge, fits, plus_usage in *. simpl.
  rewrite !Z.add_0_r. destruct (_ || _) eqn:E; simpl; case_match; (done || lia).
Qed.

(** What a node adds besides itself and its children. *)
Definition charge_own (n : node) (u : ast_usage) : option ast_usage :=
  match data n with
  | NODE_STRING s | NODE_TEMPLATE_STRING s => charge_string options (str_size s) u
  | NODE_FUNCTION_CALL name _ =>
      if decide (name = Some "import"%string) then charge_import options u else Some u
  | _ => Some u
  end.

Lemma use_list_app f l l' u :
  use_list f (l ++ l') u = (u ← use_list f l u; use_list f l' u).
Proof. revert u. induction l as [|n l IH]; intros u; simpl; [done|]. destruct (f n u); simpl; auto. Qed.

Lemma use_opt_list f o u : use_opt f o u = use_list f (opt o) u.
Proof. destruct o as [n|]; simpl; [by destruct (f n u)|done]. Qed.

(** The walk visits the children in order. *)
Lemma ast_usage_children n u :
  ts_host_ast_usage options n u =
  (u ← charge_node options u; u ← charge_own n u; use_list (ts_host_ast_usage options) (children (data n)) u).
Proof.
  destruct n as [line column d]. cbn [ts_host_ast_usage]. destruct (charge_node options u) as [v|]; [|done]. simpl.
  unfold charge_own. destruct d; simpl;
    repeat (rewrite ?use_opt_list, ?use_list_app;
            try match goal with
            | |- context [mbind _ (use_list ?f ?l ?u)] => destruct (use_list f l u); simpl
            | |- context [charge_string ?o ?n ?u] => destruct (charge_string o n u); simpl
            | |- context [decide ?P] => destruct (decide P); simpl
            | |- context [charge_import ?o ?u] => destruct (charge_import o u); simpl
            end; try reflexivity).
Qed.

Lemma weight_app l l' : weight (l ++ l') = plus_usage (weight l) (weight l').
Proof.
  unfold weight, plus_usage. simpl. rewrite filter_app, !length_app, !Nat2Z.inj_add. f_equal.
  unfold sum_of. induction l as [|x l IH]; simpl; lia.
Qed.

Lemma weight_nonneg l : 0 <= u_nodes (weight l) /\ 0 <= u_imports (weight l) /\ 0 <= u_string_bytes (weight l).
Proof.
  unfold weight. simpl. split_and!; [lia..|]. apply sum_of_nonneg, Forall_true. intros n. unfold literal_bytes.
  destruct (data n); try lia; apply str_size_nonneg.
Qed.

Lemma adds_own n : adds (charge_own n) (Usage 0 (u_imports (weight [n])) (u_string_bytes (weight [n]))).
Proof.
  destruct n as [line column d]. unfold charge_own, weight, is_import, literal_bytes, sum_of. simpl.
  destruct d; simpl; rewrite ?Z.add_0_r; try apply adds_nothing; try apply adds_string.
  destruct (decide (name = Some "import"%string)) as [->|Hn]; [apply adds_import|].
  unfold filter, list_filter. simpl. rewrite bool_decide_eq_false_2 by done. apply adds_nothing.
Qed.

Lemma adds_list l ls :
  Forall (fun n => forall t, preorder n t -> adds (ts_host_ast_usage options n) (weight t)) l ->
  Forall2 preorder l ls -> adds (use_list (ts_host_ast_usage options) l) (weight (concat ls)).
Proof.
  intros Hall H. induction H as [|n t l ls Hn H IH]; [apply adds_nothing|].
  apply Forall_cons in Hall as [Hh Hall]. simpl. rewrite weight_app.
  destruct (weight_nonneg (concat ls)) as (? & ? & ?). apply adds_bind; auto.
Qed.

Lemma ast_usage_adds n t : preorder n t -> adds (ts_host_ast_usage options n) (weight t).
Proof.
  revert t. induction n as [line column d IH] using node_children_ind. intros t Ht.
  inversion Ht as [n ls Hls]; subst. eapply adds_ext.
  - intros u. apply ast_usage_children.
  - change (?n :: concat ls) with ([n] ++ concat ls). rewrite weight_app.
    instantiate (1 := plus_usage (Usage 1 0 0) (plus_usage (Usage 0 _ _) (weight (concat ls)))).
    unfold plus_usage. cbn [u_nodes u_imports u_string_bytes]. rewrite Z.add_0_l. reflexivity.
  - destruct (weight_nonneg (concat ls)) as (? & ? & ?). destruct (weight_nonneg [Node line column d]) as (? & ? & ?).
    apply adds_bind; [simpl in *; lia..|apply adds_node|].
    apply adds_bind; [simpl in *; lia..|apply adds_own|]. by apply adds_list.
Qed.

Lemma preorder_exists n : exists t, preorder n t.
Proof.
  induction n as [line column d IH] using node_children_ind.
  assert (exists ls, Forall2 preorder (children d) ls) as [ls Hls].
  { induction IH as [|n l [t Ht] _ [ls Hls]]; [by exists []|]. exists (t :: ls). by constructor. }
  exists (Node line column d :: concat ls). by constructor.
Qed.

(** Charging a syntax tree against the limits of the options counts every node of
    the tree, every call of import and every byte of its string literals, once each:
    it fails exactly when one of the three sums would pass its limit, and otherwise
    leaves the exact sums. *)
Theorem ast_usage_exact n u :
  fits u = true ->
  exists t, preorder n t /\
    ts_host_ast_usage options n u =
      if fits (plus_usage u (weight t)) then Some (plus_usage u (weight t)) else None.
Proof. intros Hu. destruct (preorder_exists n) as [t Ht]. exists t. split; [done|]. by apply ast_usage_adds. Qed.
End usage_correct.

(** ** The exports of a program *)

Section exports_correct.
Context (options : module_options) (utf8_valid : string -> bool).

(** The entry that an export statement asks for. *)
Definition export_of (all : list node) (n : node) : option export_entry :=
  name ← export_name utf8_valid n;
  f ← export_function all name;
  Some (ExportEntry name (Z.of_nat (length (parameters f))) (Z.max 0 (node_line n)) (Z.max 0 (node_column n)) n f).

(** The table that a list of export statements asks for. *)
Definition exports_of (all todo : list node) : option (list export_entry) :=
  mapM (export_of all) (filter is_export todo).

Lemma exports_of_cons all n todo :
  exports_of all (n :: todo) =
  if is_export n then e ← export_of all n; es ← exports_of all todo; Some (e :: es) else exports_of all todo.
Proof.
  unfold exports_of, filter, list_filter. fold (filter (fun n => is_export n) todo). simpl.
  destruct (is_export n); simpl; [|done]. by destruct (export_of all n).
Qed.

Definition table_ok (table : list export_entry) : Prop :=
  NoDup (x_name <$> table) /\ Z.of_nat (length table) <= max_exports options.

Lemma forallb_Forall_true {A} (f : A -> bool) l : forallb f l = true <-> Forall (fun x => f x = true) l.
Proof. rewrite forallb_forall, Forall_forall. by setoid_rewrite list_elem_of_In. Qed.

Lemma existsb_name table name :
  existsb (fun e => bool_decide (x_name e = name)) table = true <-> name ∈ x_name <$> table.
Proof.
  rewrite existsb_exists, list_elem_of_fmap. setoid_rewrite bool_decide_eq_true.
  setoid_rewrite <- list_elem_of_In. naive_solver.
Qed.

Lemma export_of_spec all n e :
  export_of all n = Some e <->
  export_name utf8_valid n = Some (x_name e) /\ export_function all (x_name e) = Some (x_function e) /\
  e = ExportEntry (x_name e) (Z.of_nat (length (parameters (x_function e))))
        (Z.max 0 (node_line n)) (Z.max 0 (node_column n)) n (x_function e).
Proof.
  unfold export_of. split.
  - destruct (export_name _ n) as [name|]; simpl; [|done].
    destruct (export_function all name) as [f|] eqn:E; simpl; [|done]. by intros [= <-].
  - intros (-> & Hf & He). simpl. rewrite Hf. simpl. f_equal. by symmetry.
Qed.

Lemma scan_loop_sound all : forall todo table h table' bad h',
  table_ok table -> scan_loop options utf8_valid all todo table h = (STATUS_OK, table', bad, h') ->
  exists es, exports_of all todo = Some es /\ table' = table ++ es /\ table_ok table' /\ bad = None.
Proof.
  induction todo as [|n todo IH]; intros table h table' bad h' Hok; simpl.
  - intros [= <- <- _]. exists []. by rewrite app_nil_r.
  - rewrite exports_of_cons. destruct (is_export n); simpl; [|by apply IH].
    destruct (export_name utf8_valid n) as [name|] eqn:En; [|done].
    destruct (_ <=? _) eqn:El; [done|]. destruct (existsb _ table) eqn:Ed; [done|].
    destruct (export_function all name) as [f|] eqn:Ef; [|done].
    destruct (attempt h) as [[[]|] h1]; [|done]. destruct (attempt h1) as [[[]|] h2]; [|done].
    intros H. apply IH in H as (es & Hes & -> & Hok' & ->).
    + unfold export_of. rewrite En. simpl. rewrite Ef. simpl. rewrite Hes. simpl.
      eexists. split; [done|]. split; [|done]. by rewrite <- app_assoc.
    + destruct Hok as [Hn Hl]. split; [|rewrite length_app; simpl; lia].
      rewrite fmap_app. simpl. apply NoDup_app. split; [exact Hn|]. split; [|by apply NoDup_singleton].
      intros x Hx ->%list_elem_of_singleton. apply existsb_name in Hx. congruence.
Qed.

Lemma scan_loop_complete all : forall todo table es,
  exports_of all todo = Some es -> table_ok (table ++ es) ->
  scan_loop options utf8_valid all todo table [] = (STATUS_OK, table ++ es, None, []).
Proof.
  induction todo as [|n todo IH]; intros table es; simpl.
  - intros [= <-] _. by rewrite app_nil_r.
  - rewrite exports_of_cons. destruct (is_export n); simpl; [|by apply IH].
    destruct (export_of all n) as [e|] eqn:Ee; simpl; [|done].
    destruct (exports_of all todo) as [es'|] eqn:Hes; simpl; [|done]. intros [= <-] Hok.
    apply export_of_spec in Ee as (-> & -> & He). pose proof Hok as [Hn Hl].
    rewrite length_app in Hl. simpl in Hl. replace (_ <=? _) with false by lia.
    rewrite fmap_app in Hn. simpl in Hn. apply NoDup_app in Hn as (_ & Hn & _).
    replace (existsb _ table) with false.
    2:{ symmetry. apply not_true_is_false. rewrite existsb_name. intros Hx. eapply Hn; [done|]. by left. }
    simpl. rewrite <- He. replace (table ++ e :: es') with ((table ++ [e]) ++ es') in * by by rewrite <- app_assoc.
    by apply IH.
Qed.

Lemma export_function_spec all name f :
  export_function all name = Some f <->
  (exists i, all !! i = Some f /\ defines name f = true /\
     forall j g, (j < i)%nat -> all !! j = Some g -> defines name g = false) /\
  Z.of_nat (length (parameters f)) <= 16 /\ Forall (fun p => is_variable p = true) (parameters f).
Proof.
  unfold export_function, ts_host_find_top_function.
  assert (List.find (defines name) all = Some f <->
    exists i, all !! i = Some f /\ defines name f = true /\
      forall j g, (j < i)%nat -> all !! j = Some g -> defines name g = false) as <-.
  { induction all as [|g all IH]; simpl.
    - split; [done|]. intros (i & Hi & _). by rewrite lookup_nil in Hi.
    - destruct (defines name g) eqn:E.
      + split.
        * intros [= ->]. exists 0%nat. split_and!; [done..|]. lia.
        * intros ([|i] & Hi & Hd & Hall); [done|]. specialize (Hall 0%nat g). rewrite Hall in E by (done || lia). done.
      + rewrite IH. split.
        * intros (i & Hi & Hd & Hall). exists (S i). split_and!; [done..|].
          intros [|j] g' Hj; simpl; [congruence|]. apply Hall. lia.
        * intros ([|i] & Hi & Hd & Hall); simpl in Hi; [congruence|]. exists i. split_and!; [done..|].
          intros j g' Hj. apply (Hall (S j)). lia. }
  destruct (List.find _ all) as [g|]; [|naive_solver].
  pose proof (forallb_Forall_true is_variable (parameters g)) as Hv.
  destruct (_ || _) eqn:E; split.
  - done.
  - intros ([= ->] & Hl & Hf). apply Hv in Hf. rewrite Hf in E. simpl in E. lia.
  - intros [= ->]. bool_props. apply Hv in H0. split; [done|]. split; [lia|done].
  - naive_solver.
Qed.

(** The export table of a program holds, in the order of the export statements, one
    entry for each of them: the literal name, the first top-level function of that
    name, and its arity; the scan succeeds (given memory) exactly when every export
    statement names such a function with at most 16 plain parameters, no name is
    exported twice and the table fits. *)
Theorem scan_exports_exact root statements :
  data root = NODE_BLOCK statements -> 0 <= max_exports options ->
  (forall h table bad h',
     ts_host_scan_exports options utf8_valid root h = (STATUS_OK, table, bad, h') ->
     exports_of statements statements = Some table /\ table_ok table /\ bad = None) /\
  (forall table, exports_of statements statements = Some table -> table_ok table ->
     ts_host_scan_exports options utf8_valid root [] = (STATUS_OK, table, None, [])) /\
  (forall n e, export_of statements n = Some e ->
     export_name utf8_valid n = Some (x_name e) /\ x_arity e <= 16 /\
     exists i, statements !! i = Some (x_function e) /\ defines (x_name e) (x_function e) = true /\
       forall j g, (j < i)%nat -> statements !! j = Some g -> defines (x_name e) g = false).
Proof.
  intros Hroot Hmax. unfold ts_host_scan_exports. rewrite Hroot. split_and!.
  - intros h table bad h' Hs. apply scan_loop_sound in Hs as (es & Hes & -> & Hok & Hb); [done|].
    split; [constructor|simpl; lia].
  - intros table Hes Hok. by apply (scan_loop_complete _ _ []).
  - intros n e (Hn & Hf & He)%export_of_spec. apply export_function_spec in Hf as (Hi & Ha & _).
    split; [done|]. split; [by rewrite He|done].
Qed.

(** The table of the scan of any program. *)
Definition scanned (root : node) (table : list export_entry) : Prop :=
  match data root with
  | NODE_BLOCK statements => exports_of statements statements = Some table /\ table_ok table
  | _ => table = []
  end.

Lemma scan_exports_scanned root h table bad h' :
  0 <= max_exports options ->
  ts_host_scan_exports options utf8_valid root h = (STATUS_OK, table, bad, h') ->
  scanned root table /\ bad = None.
Proof.
  intros Hmax. unfold ts_host_scan_exports, scanned.
  destruct (data root); try (by intros [= <- <- _]). intros Hs.
  apply scan_loop_sound in Hs as (es & Hes & -> & Hok & Hb); [done|]. split; [constructor|simpl; lia].
Qed.

Lemma scanned_scan_exports root table :
  scanned root table -> ts_host_scan_exports options utf8_valid root [] = (STATUS_OK, table, None, []).
Proof.
  unfold ts_host_scan_exports, scanned. destruct (data root); try (by intros ->).
  intros [Hes Hok]. by apply (scan_loop_complete _ _ []).
Qed.
End exports_correct.

(** ** Compiling *)

Section compile_correct.
Context `{Frontend} (utf8_valid : string -> bool).

(** A text without NUL bytes; a module may have no name. *)
Definition plain (s : text) : Prop :=
  text_dangling s = false /\
  (text_size s = 0 \/ has_nul (text_bytes s) = false /\ utf8_valid (text_bytes s) = true).

(** What a program has to be, and the module that it compiles to. *)
Record compilable (c : host) (source : text) (o : module_options) (m : host_module) : Prop := {
  cp_open : closing c = false;
  cp_options : ts_host_options_valid (Some o) = true;
  cp_source : plain source;
  cp_source_size : 0 < text_size source <= max_source_bytes o;
  cp_name : plain (mo_module_name o);
  cp_name_size : text_size (mo_module_name o) <= max_string_bytes o;
  cp_parse : parse (text_bytes source) = inl (m_ast m);
  cp_size : exists t, preorder (m_ast m) t /\
    fits o (plus_usage (Usage 0 0 (text_size (mo_module_name o))) (weight t)) = true;
  cp_exports : scanned o utf8_valid (m_ast m) (m_exports m);
  cp_modules : active_host_modules c <> SIZE_MAX;
  cp_bind : bind_runtime (host_functions c) = STATUS_OK;
  cp_valid : validates (m_ast m) (host_functions c) = None;
  cp_artifact : artifact_compile (m_ast m) (m_exports m) = inl (m_artifact m);
  cp_module : m = HostModule (text_bytes source) (text_bytes (mo_module_name o)) (m_ast m) (m_exports m)
    (m_artifact m) 1 1 1 true
}.

(** The context after a compilation: one module and one reference more, and no error. *)
Definition with_module (c : host) : host :=
  with_ctx ts_context_retain (set_modules (active_host_modules c + 1) (with_last_error no_error c)).

Definition unsigned (o : module_options) : Prop :=
  0 <= max_ast_nodes o /\ 0 <= max_imports o /\ 0 <= max_exports o.

Lemma module_fail_inv c r s name message span h o :
  ts_host_module_fail utf8_valid c r s name message span h = o -> o.1.1.1 = s /\ o.1.1.2 = c.
Proof.
  unfold ts_host_module_fail. destruct (ts_host_result_set_error _ _ _ _ _) as [[? ?] ?]. by intros <-.
Qed.

Lemma release_acquired c :
  on_owner (ctx c) = true -> 0 <= active_host_modules c ->
  (ts_host_registry_release_module (set_modules (active_host_modules c + 1) c)).2 = c.
Proof.
  intros Ho Hn. unfold ts_host_registry_release_module, ts_host_check_owner_thread. simpl. rewrite Ho. simpl.
  replace (_ =? 0) with false by lia. simpl. destruct c. unfold set_modules. simpl. f_equal. lia.
Qed.

(** The validation of the arguments: the rest of the compilation sees plain texts. *)
Definition arguments_ok (c : host) (source : text) (o : module_options) : Prop :=
  closing c = false /\ ts_host_options_valid (Some o) = true /\ plain source /\
  0 < text_size source <= max_source_bytes o /\ plain (mo_module_name o) /\
  text_size (mo_module_name o) <= max_string_bytes o.

#[local] Arguments ts_host_options_valid : simpl never.
#[local] Arguments compile_checked : simpl never.

Lemma module_compile_checked c source o r h :
  usable c r -> arguments_ok c source o ->
  turbo_script_module_compile utf8_valid (Some c) source (Some o) (Some r) true h =
  let '((s, c, r, h), m) :=
    compile_checked utf8_valid c (text_bytes source) o (ts_host_result_clear_unchecked r) h in
  ((s, Some c, r, h), m).
Proof.
  intros (Hc & Hr & Hid) (Hcl & Ho & [Hd Hs] & Hsz & [Hnd Hn] & Hns).
  unfold turbo_script_module_compile, ts_host_registry_begin_api, ts_host_check_owner_thread,
    ts_host_result_check_context, ts_host_result_reset_checked. simpl.
  rewrite Hc, Hr. simpl. rewrite Hid, decide_True by done. simpl. rewrite Hcl, Ho, Hd, Hnd.
  destruct Hs as [?|[Hs1 Hs2]]; [lia|]. rewrite Hs1, Hs2. simpl.
  replace (_ <? _) with false by lia. replace (text_size source =? 0) with false by lia. simpl.
  replace (negb (text_size _ =? 0) && _) with false.
  - by replace (_ <? _) with false by lia.
  - destruct Hn as [Hn|[-> ->]]; [rewrite Hn|]; simpl; by rewrite ?andb_false_r.
Qed.

Lemma module_compile_inv c source o r out h s c' r' h' m :
  turbo_script_module_compile utf8_valid (Some c) source o r out h = ((s, c', r', h'), m) ->
  (s <> STATUS_OK /\ c' = Some c /\ m = None) \/
  exists o' r0, o = Some o' /\ out = true /\ r = Some r0 /\ usable c r0 /\ arguments_ok c source o'.
Proof.
  unfold turbo_script_module_compile, ts_host_registry_begin_api, ts_host_check_owner_thread,
    ts_host_result_check_context, ts_host_result_reset_checked.
  assert (forall c0 r0 s0 name message span h0, s0 <> STATUS_OK -> c0 = c ->
    (let '((s, c, r, h), m) := (ts_host_module_fail utf8_valid c0 r0 s0 name message span h0, @None host_module) in
     ((s, Some c, r, h), m)) = ((s, c', r', h'), m) -> s <> STATUS_OK /\ c' = Some c /\ m = None) as Hfail.
  { intros c0 r0 s0 name message span h0 Hs0 ->.
    destruct (ts_host_module_fail _ _ _ _ _ _ _ _) as [[[s1 c1] r1] h1] eqn:F.
    apply module_fail_inv in F as [Hs Hc]. simpl in Hs, Hc. subst. by intros [= <- <- _ _ <-]. }
  destruct (on_owner (ctx c)) eqn:Ho; simpl; [|intros [= <- <- _ _ <-]; by left].
  destruct r as [r|]; simpl; [|intros [= <- <- _ _ <-]; by left].
  destruct (r_owner r) eqn:Hr; simpl; [|intros [= <- <- _ _ <-]; by left].
  destruct (decide _) as [Hid|]; simpl; [|intros [= <- <- _ _ <-]; by left].
  destruct out; simpl; [|intros HH; left; by eapply Hfail; [..|exact HH]].
  destruct (closing c) eqn:Hcl; [intros HH; left; by eapply Hfail; [..|exact HH]|].
  destruct (ts_host_options_valid o) eqn:Hopt; [|intros HH; left; by eapply Hfail; [..|exact HH]].
  destruct o as [o|]; [|done].
  destruct (text_dangling source) eqn:Hd; [intros HH; left; by eapply Hfail; [..|exact HH]|].
  destruct (_ <? _) eqn:Hsz; [intros HH; left; by eapply Hfail; [..|exact HH]|].
  destruct (_ || _) eqn:Hs; [intros HH; left; by eapply Hfail; [..|exact HH]|].
  destruct (_ || _) eqn:Hn in |- *; [intros HH; left; by eapply Hfail; [..|exact HH]|].
  destruct (max_string_bytes o <? _) eqn:Hns; [intros HH; left; by eapply Hfail; [..|exact HH]|].
  intros _. right. exists o, r. bool_props.
  unfold usable, arguments_ok, plain. split_and!; try done; try by right.
  - destruct source as [n|b]; simpl in *; [|pose proof (str_size_nonneg b)]; bool_props; lia.
  - destruct (text_size (mo_module_name o) =? 0) eqn:E; [left; lia|right].
    simpl in *. bool_props. done.
Qed.

Lemma acquire_inv c s c1 :
  ts_host_registry_acquire_module c = (s, c1) ->
  s = STATUS_OK -> active_host_modules c <> SIZE_MAX /\ c1 = set_modules (active_host_modules c + 1) c.
Proof.
  unfold ts_host_registry_acquire_module. destruct (ts_host_check_owner_thread c); try congruence.
  destruct (_ =? _) eqn:E; [congruence|]. bool_props. by intros [= <- <-].
Qed.

Lemma usage_size o n name :
  unsigned o -> text_size name <= max_string_bytes o ->
  is_Some (ts_host_ast_usage o n (Usage 0 0 (text_size name))) <->
  exists t, preorder n t /\ fits o (plus_usage (Usage 0 0 (text_size name)) (weight t)) = true.
Proof.
  intros (? & ? & ?) Hn. assert (fits o (Usage 0 0 (text_size name)) = true) as Hf
    by (unfold fits; simpl; lia). split.
  - intros [u Hu]. destruct (preorder_exists n) as [t Ht]. exists t. split; [done|].
    rewrite (ast_usage_adds _ _ _ Ht _ Hf) in Hu. by destruct (fits o (plus_usage _ _)).
  - intros (t & Ht & Hfit). rewrite (ast_usage_adds _ _ _ Ht _ Hf), Hfit. by eexists.
Qed.

#[local] Arguments ts_host_ast_usage : simpl never.
#[local] Arguments ts_host_scan_exports : simpl never.
#[local] Arguments ts_host_registry_acquire_module : simpl never.
#[local] Arguments ts_host_registry_release_module : simpl never.

Lemma with_last_error_same c : with_last_error (last_error (ctx c)) c = c.
Proof. by destruct c as [[]]. Qed.

(** A compilation of valid arguments: refused with the context as it was but for its last error, or a module. *)
Lemma compile_checked_inv c source o r h s c' r' h' m :
  unsigned o -> on_owner (ctx c) = true -> 0 <= active_host_modules c -> arguments_ok c source o ->
  compile_checked utf8_valid c (text_bytes source) o r h = ((s, c', r', h'), m) ->
  match m with
  | Some m => s = STATUS_OK /\ c' = with_module c /\ r' = Some r /\ compilable c source o m
  | None => s <> STATUS_OK /\ exists e, c' = with_last_error e c
  end.
Proof.
  intros Ho Hc Ha (Hcl & Hopt & Hs & Hsz & Hn & Hns). pose proof Ho as (_ & _ & Hmax).
  assert (forall e c0 r0 s0 name message span h0, s0 <> STATUS_OK -> c0 = with_last_error e c ->
    (ts_host_module_fail utf8_valid c0 r0 s0 name message span h0, @None host_module) = ((s, c', r', h'), m) ->
    match m with
    | Some m => s = STATUS_OK /\ c' = with_module c /\ r' = Some r /\ compilable c source o m
    | None => s <> STATUS_OK /\ exists e, c' = with_last_error e c
    end) as Hfail.
  { intros e c0 r0 s0 name message span h0 Hs0 -> [= F <-]. apply module_fail_inv in F as [HS HC]. subst.
    split; [done|]. by exists e. }
  assert (forall e, on_owner (ctx (with_last_error e c)) = true) as Hce by done.
  assert (forall e e', with_last_error e (with_last_error e' c) = with_last_error e c) as Hover by done.
  unfold compile_checked.
  pose proof (Hfail (last_error (ctx c))) as Hsame. rewrite with_last_error_same in Hsame.
  destruct (attempt h) as [[[]|] h1]; [|by apply Hsame].
  destruct (attempt h1) as [a1 h2]. destruct (attempt h2) as [a2 h3].
  destruct a1 as [[]|], a2 as [[]|]; try (by apply Hsame).
  destruct (parse _) as [ast|[e span]] eqn:Hp; [|by case_decide; apply (Hfail e)].
  destruct (ts_host_ast_usage _ _ _) as [u|] eqn:Hu; [|by apply (Hfail no_error)].
  destruct (ts_host_scan_exports _ _ _ _) as [[[sx table] bad] h4] eqn:Hx.
  destruct sx; try (by apply (Hfail no_error)).
  destruct (ts_host_registry_acquire_module _) as [sa c1] eqn:Hq.
  pose proof (acquire_inv _ _ _ Hq) as Hq'. destruct sa; try (by apply (Hfail no_error)).
  destruct (Hq' eq_refl) as [Hlim ->]. clear Hsame.
  assert (forall e, (ts_host_registry_release_module (with_last_error e (set_modules (active_host_modules c + 1)
    (with_last_error no_error c)))).2 = with_last_error e c) as Hrel
    by (intros e; apply (release_acquired (with_last_error e c)); done).
  simpl in Hrel |- *.
  destruct (bind_runtime _) eqn:Hb; try (by apply (Hfail no_error); [|apply Hrel]).
  destruct (validates _ _) as [message|] eqn:Hv; [by eapply Hfail; [|apply Hrel]|].
  destruct (artifact_compile _ _) as [a|e] eqn:Hart; [|by eapply Hfail; [|apply Hrel]; case_decide].
  intros [= <- <- <- _ <-]. split; [done|]. split; [done|]. split; [done|].
  apply scan_exports_scanned in Hx as [Hx _]; [|done].
  constructor; try done. apply usage_size; [done..|]. simpl. by rewrite Hu.
Qed.

(** C34: Compiling a module succeeds exactly on a nonempty plain source, with a plain
    name, within every limit of the options, that parses, whose tree weighs no more
    than the limits, whose exports form a table, which validates and lowers (and when
    no allocation fails); the module then holds the exact export table and one
    reference, and the context one more module and reference, and no error.  Every other outcome is
    a failure that leaves the context as it was but for its last error: an acquired registry is released. *)
Theorem module_compile_exact c source o r :
  unsigned o -> usable c r -> 0 <= active_host_modules c ->
  (forall h s c' r' h' m,
     turbo_script_module_compile utf8_valid (Some c) source (Some o) (Some r) true h = ((s, c', r', h'), m) ->
     match m with
     | Some m => s = STATUS_OK /\ c' = Some (with_module c) /\ compilable c source o m
     | None => s <> STATUS_OK /\ exists e, c' = Some (with_last_error e c)
     end) /\
  (forall m, compilable c source o m ->
     turbo_script_module_compile utf8_valid (Some c) source (Some o) (Some r) true [] =
     ((STATUS_OK, Some (with_module c), Some (ts_host_result_clear_unchecked r), []), Some m)).
Proof.
  intros Hun Hu Ha. pose proof Hu as (Hc & _). split.
  - intros h s c' r' h' m Hm. pose proof (module_compile_inv _ _ _ _ _ _ _ _ _ _ _ Hm)
      as [(? & -> & ->)|(o' & r0 & [= <-] & _ & [= <-] & _ & Hargs)].
    { split; [done|]. exists (last_error (ctx c)). by rewrite with_last_error_same. }
    rewrite (module_compile_checked _ _ _ _ _ Hu Hargs) in Hm.
    destruct (compile_checked _ _ _ _ _ _) as [[[[s0 c0] r1] h0] m0] eqn:Hk. injection Hm as <- <- <- <- <-.
    apply compile_checked_inv in Hk; [|done..]. destruct m0; naive_solver.
  - intros m [Hcl Hopt Hs Hsz Hn Hns Hp Hfit Hx Hlim Hb Hv Hart Hm].
    rewrite module_compile_checked by (done || by unfold arguments_ok).
    unfold compile_checked. simpl. rewrite Hp.
    apply usage_size in Hfit as [u ->]; [|done..]. rewrite (scanned_scan_exports _ _ _ _ Hx).
    unfold ts_host_registry_acquire_module, ts_host_check_owner_thread. simpl. rewrite Hc. simpl.
    replace (_ =? SIZE_MAX) with false by lia. simpl. rewrite Hb, Hv, Hart. simpl. by rewrite Hm at 4.
Qed.
End compile_correct.

(** ** The theorems at work *)

Definition sample_function : node :=
  Node 2 1 (NODE_FUNCTION_DEFINITION (Some "twice"%string) [Node 2 16 (NODE_VARIABLE "x"%string)]
    (Some (Node 2 20 (NODE_BINARY_OP TOKEN_PLUS (Some (Node 2 20 (NODE_VARIABLE "x"%string)))
                        (Some (Node 2 24 (NODE_VARIABLE "x"%string))))))).
Definition sample_export : node :=
  Node 1 1 (NODE_FUNCTION_CALL (Some "export"%string) [Node 1 8 (NODE_STRING "twice"%string)]).
Definition sample_program : node := Node 1 1 (NODE_BLOCK [sample_export; sample_function]).
Definition sample_table : list export_entry := [ExportEntry "twice" 1 1 1 sample_export sample_function].

(** A front end that knows one program. *)
#[local] Instance sample_frontend : Frontend := {|
  parse s := if decide (s = "P"%string) then inl sample_program else inr (CtxError ERROR_PARSE "Parse error", (0, 0));
  bind_runtime _ := STATUS_OK;
  validates _ _ := None;
  artifact_compile _ _ := inl 5%nat
|}.

Definition sample_options : module_options := turbo_script_module_options_init.
Definition sample_module : host_module := HostModule "P" "" sample_program sample_table 5 1 1 1 true.

Lemma sample_size :
  exists t, preorder sample_program t /\ fits sample_options (plus_usage (Usage 0 0 0) (weight t)) = true.
Proof.
  destruct (preorder_exists sample_program) as [t Ht]. exists t. split; [done|].
  pose proof (ast_usage_adds sample_options _ _ Ht (Usage 0 0 0) eq_refl) as Hw.
  destruct (fits sample_options (plus_usage _ _)); [done|]. vm_compute in Hw. discriminate.
Qed.

Lemma sample_compilable : compilable any_text sample_host (Text "P") sample_options sample_module.
Proof.
  constructor.
  - reflexivity.
  - reflexivity.
  - split; [reflexivity|right; split; reflexivity].
  - split; vm_compute; [reflexivity|discriminate].
  - split; [reflexivity|left; reflexivity].
  - vm_compute. discriminate.
  - reflexivity.
  - exact sample_size.
  - split; [reflexivity|]. split; [repeat constructor; set_solver|vm_compute; discriminate].
  - vm_compute. discriminate.
  - reflexivity.
  - reflexivity.
  - reflexivity.
  - reflexivity.
Qed.

Lemma ast_usage_exact_witness :
  exists t, preorder sample_program t /\
    ts_host_ast_usage sample_options sample_program (Usage 0 0 0) =
      if fits sample_options (plus_usage (Usage 0 0 0) (weight t))
      then Some (plus_usage (Usage 0 0 0) (weight t)) else None.
Proof. apply (ast_usage_exact sample_options sample_program (Usage 0 0 0)). reflexivity. Defined.

Lemma scan_exports_exact_witness :
  ts_host_scan_exports sample_options any_text sample_program [] = (STATUS_OK, sample_table, None, []).
Proof.
  destruct (scan_exports_exact sample_options any_text sample_program [sample_export; sample_function]
    eq_refl) as (_ & H & _); [vm_compute; discriminate|].
  apply H; [reflexivity|]. split; [repeat constructor; set_solver|vm_compute; discriminate].
Defined.

Lemma module_compile_exact_witness :
  turbo_script_module_compile any_text (Some sample_host) (Text "P") (Some sample_options)
    (Some sample_result) true [] =
  ((STATUS_OK, Some (with_module sample_host), Some (ts_host_result_clear_unchecked sample_result), []),
   Some sample_module).
Proof.
  destruct (module_compile_exact any_text sample_host (Text "P") sample_options sample_result) as [_ H].
  - split; [|split]; vm_compute; discriminate.
  - split; [|split]; reflexivity.
  - vm_compute. discriminate.
  - apply H. exact sample_compilable.
Defined.
