(* ===== verification/HostInstance.v ===== *)
(** Instances of a module: [turbo_script/src/host/turbo_script_host_instance.c].

    An instance runs the exports of a module in an environment of its own.  This
    file has its options, its states and the transitions between them, the handles
    of exports, the diagnostic of a failed callback and the errors that a failed
    execution publishes; creation is in two halves, since the initializer of the
    module, which may call back into the host, runs between them.  A call is in
    [HostCall.v]. *)

From S2P Require Import Prelude HostStatus Float64 Ast RtValue HostView HostViewProofs HostLimits HostResult HostRegistry HostModule.
Open Scope Z_scope.

Definition TS_HOST_INSTANCE_RETAINED_LIMIT : Z := 128 * 1024 * 1024.
Definition TS_HOST_INSTANCE_STACK_LIMIT : Z := 1024 * 1024.
Definition TS_HOST_INSTANCE_RECURSION_LIMIT : Z := 100.
Definition TS_HOST_INSTANCE_GLOBAL_LIMIT : Z := 4096.
Definition TS_HOST_INSTANCE_VALUE_DEPTH_LIMIT : Z := 64.
Definition TS_HOST_INSTANCE_VALUE_NODE_LIMIT : Z := 65536.
Definition TS_HOST_INSTANCE_RESULT_LIMIT : Z := 4 * 1024 * 1024.
Definition TS_HOST_INSTANCE_NAME_LIMIT : Z := 4 * 1024 * 1024.
Definition TS_HOST_CALL_STEP_LIMIT : Z := 100000.
Definition TS_HOST_CALL_LOOP_LIMIT : Z := 10000.
Definition TS_HOST_CALL_CALLBACK_LIMIT : Z := 1024.

(** ** Options *)

Inductive execution_mode := EXEC_INTERPRETER | EXEC_JIT | EXEC_OTHER (mode : Z).

(** [turbo_script_instance_options_t] *)
Record instance_options := InstanceOptions {
  io_struct_size : Z;
  io_mode : execution_mode;
  max_retained_bytes : Z;
  max_stack_bytes : Z;
  max_recursion : Z;
  max_globals : Z;
  max_value_depth : Z;
  io_reserved0 : Z;
  max_value_nodes : Z;
  max_result_bytes : Z;
  io_reserved : list Z
}.

Definition INSTANCE_OPTIONS_SIZE : Z := 88.

Definition turbo_script_instance_options_init : instance_options :=
  InstanceOptions INSTANCE_OPTIONS_SIZE EXEC_INTERPRETER TS_HOST_INSTANCE_RETAINED_LIMIT
    TS_HOST_INSTANCE_STACK_LIMIT TS_HOST_INSTANCE_RECURSION_LIMIT TS_HOST_INSTANCE_GLOBAL_LIMIT
    TS_HOST_INSTANCE_VALUE_DEPTH_LIMIT 0 TS_HOST_INSTANCE_VALUE_NODE_LIMIT
    TS_HOST_INSTANCE_RESULT_LIMIT [0; 0; 0; 0].

Definition ts_host_instance_options_valid (o : option instance_options) : bool :=
  match o with
  | None => false
  | Some o =>
      (io_struct_size o =? INSTANCE_OPTIONS_SIZE) &&
      match io_mode o with EXEC_OTHER _ => false | _ => true end &&
      negb ((max_retained_bytes o =? 0) || (max_stack_bytes o =? 0) || (max_recursion o =? 0) ||
            (max_globals o =? 0) || (max_value_depth o =? 0) || negb (io_reserved0 o =? 0) ||
            (max_value_nodes o =? 0) || (max_result_bytes o =? 0)) &&
      forallb (fun z => z =? 0) (io_reserved o)
  end.

(** What a call budget is limited by. *)
Definition limits_of (o : instance_options) : instance_limits :=
  InstanceLimits (max_recursion o) (max_stack_bytes o) (max_result_bytes o) (max_retained_bytes o).

(** [turbo_script_call_options_t], around the limits of [HostLimits.v] *)
Record call_request := CallRequest {
  co_struct_size : Z;
  co_limits : call_options;
  co_reserved0 : Z;
  co_reserved : list Z
}.

Definition CALL_OPTIONS_SIZE : Z := 80.

Definition turbo_script_call_options_init : call_request :=
  CallRequest CALL_OPTIONS_SIZE
    (CallOptions TS_HOST_INSTANCE_RECURSION_LIMIT TS_HOST_CALL_STEP_LIMIT TS_HOST_CALL_LOOP_LIMIT
       TS_HOST_CALL_CALLBACK_LIMIT TS_HOST_INSTANCE_RESULT_LIMIT None) 0 [0; 0; 0; 0].

Definition ts_host_call_options_valid (o : option call_request) : bool :=
  match o with
  | None => false
  | Some o =>
      let l := co_limits o in
      negb (negb (co_struct_size o =? CALL_OPTIONS_SIZE) || (opt_max_recursion l =? 0) ||
            (opt_max_steps l =? 0) || (opt_max_loop_iterations l =? 0) ||
            (opt_max_host_callbacks l =? 0) || negb (co_reserved0 o =? 0) ||
            (opt_max_result_bytes l =? 0)) &&
      forallb (fun z => z =? 0) (co_reserved o)
  end.

(** ** Instances *)

Inductive instance_state :=
  | INSTANCE_READY | INSTANCE_CALLING | INSTANCE_CALLING_HOST | INSTANCE_FAULTED | INSTANCE_DESTROYED.

#[export] Instance instance_state_eq_dec : EqDecision instance_state.
Proof. solve_decision. Defined.

(** [ts_host_runtime_diagnostic_t] when [present]; the message may be NULL. *)
Record diagnostic := Diagnostic {
  dg_status : status;
  dg_error_code : error_code;
  dg_phase : error_phase;
  dg_line : Z;
  dg_column : Z;
  dg_length : Z;
  dg_cause_code : Z;
  dg_function_name : text;
  dg_message : option string
}.

(** A function that the environment of an instance knows. *)
Record script_func := ScriptFunc { is_script : bool; f_name : option string; has_body : bool; f_arg_count : Z }.

(** The runtime of an instance: its context and what the host API uses of its
    environment. *)
Record runtime := Runtime {
  rt_ctx : runtime_ctx;
  error_line : Z;
  error_column : Z;
  last_line : Z;
  last_column : Z;
  error_value : xvalue;
  env_max_recursion : Z;
  env_max_nodes : Z;
  env_max_loop_iterations : Z;
  arenas : Z * list Z;                       (* bytes used: the environment, its closures *)
  scopes : list (list script_func);          (* the functions of the environment and its parents *)
  host_export_functions : list script_func
}.

(** [turbo_script_instance_s]; the module is passed along with it. *)
Record instance := Instance {
  i_id : nat;
  runtime_of : runtime;
  i_limits : instance_options;
  generation : Z;
  i_mode : execution_mode;
  i_state : instance_state;
  i_diagnostic : option diagnostic;
  initializer_count : Z
}.

Definition set_state (s : instance_state) (i : instance) : instance :=
  Instance (i_id i) (runtime_of i) (i_limits i) (generation i) (i_mode i) s (i_diagnostic i)
    (initializer_count i).
Definition set_diagnostic (d : option diagnostic) (i : instance) : instance :=
  Instance (i_id i) (runtime_of i) (i_limits i) (generation i) (i_mode i) (i_state i) d
    (initializer_count i).
Definition set_runtime (r : runtime) (i : instance) : instance :=
  Instance (i_id i) r (i_limits i) (generation i) (i_mode i) (i_state i) (i_diagnostic i)
    (initializer_count i).

Definition set_active (i : option nat) (c : host) : host :=
  Host (ctx c) (closing c) (host_functions c) (active_host_modules c) (host_callback_depth c) i
    (next_instance_generation c).
Definition set_depth (n : Z) (c : host) : host :=
  Host (ctx c) (closing c) (host_functions c) (active_host_modules c) n (active_host_instance c)
    (next_instance_generation c).
Definition set_generation (n : Z) (c : host) : host :=
  Host (ctx c) (closing c) (host_functions c) (active_host_modules c) (host_callback_depth c)
    (active_host_instance c) n.

Definition ts_host_instance_clear_diagnostic : instance -> instance := set_diagnostic None.

(** ** The states of a call *)

(** The runtime as it is when a call begins: no error, no position. *)
Definition fresh_errors (r : runtime) : runtime :=
  let c := rt_ctx r in
  Runtime (Ctx (active_host_budget c) (hooked c) (other_hook c) (aborted c) ERROR_NONE "" "")
    0 0 0 0 XNull (env_max_recursion r) (env_max_nodes r) (env_max_loop_iterations r) (arenas r)
    (scopes r) (host_export_functions r).

Definition ts_host_instance_begin_call (c : host) (i : instance) : status * host * instance :=
  if decide (i_state i = INSTANCE_FAULTED) then (STATUS_INVALID_STATE, c, i)
  else if negb (bool_decide (i_state i = INSTANCE_READY)) || negb (host_callback_depth c =? 0) ||
          negb (bool_decide (active_host_instance c = None))
  then (STATUS_REENTRANT_CALL, c, i)
  else (STATUS_OK, set_active (Some (i_id i)) c,
        set_state INSTANCE_CALLING
          (set_runtime (fresh_errors (runtime_of i)) (ts_host_instance_clear_diagnostic i))).

(** [i] is the active instance of the context, if there is one. *)
Definition ts_host_instance_enter_callback (c : host) (i : option instance)
    : status * host * option instance :=
  if host_callback_depth c =? SIZE_MAX then (STATUS_LIMIT_EXCEEDED, c, i)
  else
    match i with
    | Some i0 =>
        if decide (i_state i0 = INSTANCE_CALLING)
        then (STATUS_OK, set_depth (host_callback_depth c + 1) c, Some (set_state INSTANCE_CALLING_HOST i0))
        else (STATUS_REENTRANT_CALL, c, i)
    | None => (STATUS_OK, set_depth (host_callback_depth c + 1) c, None)
    end.

Definition ts_host_instance_leave_callback (c : host) (i : option instance) : host * option instance :=
  if host_callback_depth c =? 0 then (c, i)
  else
    (set_depth (host_callback_depth c - 1) c,
     (fun i => if bool_decide (active_host_instance c = Some (i_id i)) &&
                  bool_decide (i_state i = INSTANCE_CALLING_HOST)
               then set_state INSTANCE_CALLING i else i) <$> i).

Definition ts_host_instance_finish_call (c : host) (i : instance) (s : status) : status * host * instance :=
  if negb (bool_decide (active_host_instance c = Some (i_id i))) ||
     negb (bool_decide (i_state i = INSTANCE_CALLING)) || negb (host_callback_depth c =? 0)
  then
    (STATUS_INVALID_STATE,
     (if decide (active_host_instance c = Some (i_id i)) then set_active None c else c),
     set_state INSTANCE_FAULTED i)
  else (s, set_active None c, set_state (if ok s then INSTANCE_READY else INSTANCE_FAULTED) i).

(** ** Handles of exports: [turbo_script_export_handle_t] is a 64-bit number *)

Definition ts_host_export_handle (generation slot : Z) : Z :=
  Z.lor (Z.shiftl generation 32) (slot + 1).

Definition ts_host_instance_decode_handle (m : host_module) (i : instance) (handle : Z) : status * option nat :=
  if handle =? 0 then (STATUS_INVALID_EXPORT_HANDLE, None)
  else
    let gen := wrapu 32 (Z.shiftr handle 32) in
    let encoded := wrapu 32 handle in
    if (gen =? 0) || (encoded =? 0) || negb (gen =? generation i) ||
       (ts_host_module_export_count (Some m) <=? encoded - 1)
    then (STATUS_INVALID_EXPORT_HANDLE, None)
    else (STATUS_OK, Some (Z.to_nat (encoded - 1))).

(** ** Errors *)

Definition ts_host_instance_module_name (m : host_module) : text := Text (m_name m).

Definition instance_error_code (s : status) : error_code :=
  match s with
  | STATUS_INVALID_ARGUMENT | STATUS_VALIDATION_ERROR | STATUS_INVALID_UTF8
  | STATUS_DUPLICATE_RECORD_KEY | STATUS_INVALID_EXPORT_HANDLE | STATUS_NOT_FOUND => ERROR_ARGUMENT
  | STATUS_OUT_OF_MEMORY => ERROR_OOM
  | STATUS_INVALID_STATE | STATUS_REENTRANT_CALL | STATUS_CONTEXT_MISMATCH | STATUS_WRONG_THREAD =>
      ERROR_STATE
  | STATUS_INTERRUPTED => ERROR_CANCELLED
  | _ => ERROR_RUNTIME
  end.

(** [ts_host_instance_record_callback_error]; [copied] says whether the message
    could be copied. *)
Definition callback_diagnostic (s : status) (cause_code : Z) (function_name message : text)
    (line column : Z) (copied : bool) : diagnostic :=
  Diagnostic STATUS_HOST_ERROR
    (match s with
     | STATUS_OUT_OF_MEMORY => ERROR_OOM
     | STATUS_INTERRUPTED => ERROR_CANCELLED
     | _ => ERROR_RUNTIME
     end)
    PHASE_HOST_CALLBACK line column (if line =? 0 then 0 else 1) cause_code function_name
    (if copied then Some (text_bytes message) else None).

Definition ts_host_instance_record_callback_error (i : instance) (s : status) (cause_code : Z)
    (function_name message : text) (line column : Z) (h : heap) : instance * heap :=
  let (copied, h) := attempt h in
  (set_diagnostic (Some (callback_diagnostic s cause_code function_name message line column
                           (bool_decide (copied = Some tt)))) i, h).

Definition ts_host_instance_export_span (m : host_module) (slot : nat) : Z * Z :=
  match ts_host_module_entry (Some m) slot with
  | Some e => (Z.max 0 (node_line (x_function e)), Z.max 0 (node_column (x_function e)))
  | None => (0, 0)
  end.

Section instance.
Context (utf8_valid : string -> bool).

Definition ts_host_instance_fail (r : host_result) (s : status) (p : error_phase)
    (module_name function_name : text) (message : string) (max_bytes : Z) (h : heap)
    : status * host_result * heap :=
  let error := api_error s (instance_error_code s) p 0 0 0 module_name function_name message in
  let '(_, r, h) := ts_host_result_set_error utf8_valid r (Some error) max_bytes h in
  (s, r, h).

(** The error of a failed execution: the diagnostic of a callback, or what the
    environment knows. *)
Definition execution_error (m : host_module) (i : instance) (s : status) (p : error_phase)
    (function_name : text) (slot : nat) (default_message : string) : status * error_info :=
  let r := runtime_of i in
  let mname := ts_host_instance_module_name m in
  let '(st, code, ph, line, column, cause, fname, message) :=
    match i_diagnostic i with
    | Some d =>
        (dg_status d, dg_error_code d, dg_phase d, dg_line d, dg_column d, dg_cause_code d,
         dg_function_name d, dg_message d)
    | None =>
        (s, (if decide (s = STATUS_INTERRUPTED) then ERROR_CANCELLED else ERROR_RUNTIME), p,
         (if 0 <? error_line r then error_line r else if 0 <? last_line r then last_line r else 0),
         (if 0 <? error_column r then error_column r else if 0 <? last_column r then last_column r else 0),
         0, function_name,
         if decide (env_error_msg (rt_ctx r) <> ""%string) then Some (env_error_msg (rt_ctx r))
         else match error_value r with XString (Text t) => Some t | _ => None end)
    end in
  let span := ts_host_instance_export_span m slot in
  let line := if line =? 0 then span.1 else line in
  let column := if column =? 0 then span.2 else column in
  let e := api_error st code ph line column (if line =? 0 then 0 else 1) mname fname
             (default default_message message) in
  (st, ErrorInfo (e_struct_size e) (e_status e) (e_error_code e) (e_phase e) (e_line e) (e_column e)
         (e_length e) cause (e_module_name e) (e_function_name e) (e_message e) (e_reserved e)).

Definition ts_host_instance_publish_execution_error (m : host_module) (i : instance) (r : host_result)
    (s : status) (p : error_phase) (function_name : text) (slot : nat) (default_message : string)
    (h : heap) : status * instance * host_result * heap :=
  let (st, error) := execution_error m i s p function_name slot default_message in
  let '(stored, r, h) :=
    ts_host_result_set_error utf8_valid r (Some error) (max_result_bytes (i_limits i)) h in
  ((if ok stored then st else stored), ts_host_instance_clear_diagnostic i, r, h).

(** ** Entry points on an instance *)

(** [PHASE_NONE] is the destruction, which a closing context allows. *)
Definition ts_host_instance_begin (c : host) (m : host_module) (i : instance) (r : option host_result)
    (p : error_phase) (h : heap) : status * option host_result * heap :=
  match ts_host_registry_begin_api c r with
  | (STATUS_OK, Some r) =>
      if closing c && negb (bool_decide (p = PHASE_NONE)) then
        let '(s, r, h) :=
          ts_host_instance_fail r STATUS_INVALID_STATE p (ts_host_instance_module_name m) (NoData 0)
            "context is closing" (max_result_bytes (i_limits i)) h in
        (s, Some r, h)
      else (STATUS_OK, Some r, h)
  | (s, r) => (s, r, h)
  end.

Definition ts_host_instance_validate_name (name : text) : status :=
  if text_dangling name then STATUS_INVALID_ARGUMENT
  else if (text_size name =? 0) || (TS_HOST_INSTANCE_NAME_LIMIT <? text_size name) ||
          has_nul (text_bytes name)
  then if TS_HOST_INSTANCE_NAME_LIMIT <? text_size name then STATUS_LIMIT_EXCEEDED
       else STATUS_VALIDATION_ERROR
  else if utf8_valid (text_bytes name) then STATUS_OK else STATUS_INVALID_UTF8.

(** [out]: the caller gave a place for the handle. *)
Definition turbo_script_instance_resolve_export (c : host) (m : host_module) (i : instance) (name : text)
    (r : option host_result) (out : bool) (h : heap) : status * option host_result * Z * heap :=
  match ts_host_instance_begin c m i r PHASE_RESOLVE h with
  | (STATUS_OK, Some r, h) =>
      let fail s message :=
        let '(s, r, h) :=
          ts_host_instance_fail r s PHASE_RESOLVE (ts_host_instance_module_name m) name message
            (max_result_bytes (i_limits i)) h in
        (s, Some r, 0, h) in
      if negb out then fail STATUS_INVALID_ARGUMENT "export handle output is required"%string
      else
        match ts_host_instance_validate_name name with
        | STATUS_OK =>
            match find_index (fun e => bool_decide (x_name e = text_bytes name)) (m_exports m) with
            | Some slot =>
                if UINT32_MAX <=? Z.of_nat slot
                then fail STATUS_LIMIT_EXCEEDED "export slot cannot be encoded"%string
                else (STATUS_OK, Some r, ts_host_export_handle (generation i) (Z.of_nat slot), h)
            | None => fail STATUS_NOT_FOUND "export was not found"%string
            end
        | s => fail s "invalid export name"%string
        end
  | (s, r, h) => (s, r, 0, h)
  end.

(** [turbo_script_export_info_t] *)
Record export_info := ExportInfo {
  ei_struct_size : Z;
  ei_min_arity : Z;
  ei_max_arity : Z;
  ei_reserved0 : Z;
  ei_name : text;
  ei_reserved : list Z
}.

Definition EXPORT_INFO_SIZE : Z := 64.

Definition turbo_script_instance_get_export_info (c : host) (m : host_module) (i : instance) (handle : Z)
    (r : option host_result) (out : option export_info) (h : heap)
    : status * option host_result * option export_info * heap :=
  match ts_host_instance_begin c m i r PHASE_RESOLVE h with
  | (STATUS_OK, Some r0, h) =>
      let fail s message :=
        let '(s, r, h) :=
          ts_host_instance_fail r0 s PHASE_RESOLVE (ts_host_instance_module_name m) (NoData 0) message
            (max_result_bytes (i_limits i)) h in
        (s, Some r, out, h) in
      match out with
      | None => fail STATUS_INVALID_ARGUMENT "invalid export info structure"%string
      | Some info =>
          if negb (ei_struct_size info =? EXPORT_INFO_SIZE) || negb (ei_reserved0 info =? 0) ||
             negb (forallb (fun z => z =? 0) (ei_reserved info))
          then fail STATUS_INVALID_ARGUMENT "invalid export info structure"%string
          else
            match ts_host_instance_decode_handle m i handle with
            | (STATUS_OK, Some slot) =>
                match ts_host_module_export_name (Some m) slot with
                | None => (STATUS_INVALID_STATE, Some r0, out, h)
                | Some name =>
                    let arity := ts_host_module_export_arity (Some m) slot in
                    (STATUS_OK, Some r0,
                     Some (ExportInfo EXPORT_INFO_SIZE arity arity 0 (Text name) [0; 0; 0; 0]), h)
                end
            | (s, _) => fail s "invalid export handle"%string
            end
      end
  | (s, r, h) => (s, r, out, h)
  end.
End instance.

(** ** The runtime of a new instance *)

(** The sum of the arenas, at most [SIZE_MAX]. *)
Fixpoint add_arenas (total : Z) (l : list Z) : Z :=
  match l with
  | [] => total
  | bytes :: l => if SIZE_MAX - bytes <? total then SIZE_MAX else add_arenas (total + bytes) l
  end.

Definition ts_host_instance_retained_bytes (r : runtime) : Z := add_arenas (arenas r).1 (arenas r).2.

(** The script function of that name in the nearest environment. *)
Definition named (name : string) (f : script_func) : bool :=
  is_script f && bool_decide (f_name f = Some name).

Fixpoint find_function (scopes : list (list script_func)) (name : string) : option script_func :=
  match scopes with
  | [] => None
  | fs :: scopes =>
      match List.find (named name) fs with
      | Some f => Some f
      | None => find_function scopes name
      end
  end.

(** The function that an export is bound to. *)
Definition bind_export (scopes : list (list script_func)) (e : export_entry) : option script_func :=
  match find_function scopes (x_name e) with
  | Some f => if has_body f && (f_arg_count f =? x_arity e) then Some f else None
  | None => None
  end.

Definition ts_host_instance_bind_exports (m : host_module) (r : runtime) (h : heap)
    : status * runtime * heap :=
  if ts_host_module_export_count (Some m) =? 0 then (STATUS_OK, r, h)
  else
    match attempt h with
    | (None, h) => (STATUS_OUT_OF_MEMORY, r, h)
    | (Some _, h) =>
        match mapM (bind_export (scopes r)) (m_exports m) with
        | Some fs =>
            (STATUS_OK,
             Runtime (rt_ctx r) (error_line r) (error_column r) (last_line r) (last_column r)
               (error_value r) (env_max_recursion r) (env_max_nodes r) (env_max_loop_iterations r)
               (arenas r) (scopes r) fs, h)
        | None => (STATUS_INVALID_STATE, r, h)
        end
    end.

Definition ENV_MAX_LOOP_ITERATIONS : Z := 10000.

(** The environment of a new runtime knows the host functions; [used] is what its
    arena holds then. *)
Definition new_runtime (o : instance_options) (host_funcs : list fn_entry) (used : Z) : runtime :=
  Runtime (Ctx None false false false ERROR_NONE "" "") 0 0 0 0 XNull (max_recursion o)
    (Z.min (max_value_nodes o) UINT32_MAX) ENV_MAX_LOOP_ITERATIONS (used, [])
    [(fun e => ScriptFunc false (Some (fn_name e)) false 0) <$> host_funcs] [].

Section create.
Context `{Frontend} (utf8_valid : string -> bool) (used : Z).

Definition ts_host_instance_runtime_create (c : host) (o : instance_options) (h : heap)
    : status * option runtime * heap :=
  match attempt h with
  | (None, h) => (STATUS_OUT_OF_MEMORY, None, h)
  | (Some _, h) =>
      match bind_runtime (host_functions c) with
      | STATUS_OK => (STATUS_OK, Some (new_runtime o (host_functions c) used), h)
      | s => (s, None, h)
      end
  end.

(** What the first half of a creation leaves: it has ended, or the module is pinned
    and its initializer is to run on the new runtime. *)
Inductive creation :=
  | Ended (s : status) (m : released) (r : option host_result)
  | Pinned (m : host_module) (r : host_result) (o : instance_options) (runtime : runtime).

(** The [fail] label: the error is published, then the pin is released. *)
Definition create_fail (c : host) (m : host_module) (r : host_result) (o : instance_options) (s : status)
    (h : heap) : host * creation * heap :=
  let message := match s with
                 | STATUS_LIMIT_EXCEEDED => "instance retained memory limit exceeded"
                 | _ => "instance initialization failed"
                 end%string in
  let '(s, r, h) :=
    ts_host_instance_fail utf8_valid r s PHASE_INSTANTIATE (ts_host_instance_module_name m) (NoData 0)
      message (max_result_bytes o) h in
  let (c, m) := ts_host_module_release c m in
  (c, Ended s m (Some r), h).

(** [turbo_script_instance_create] up to the initializer; [out]: the caller gave a
    place for the instance. *)
Definition create_begin (c : host) (m : host_module) (options : option instance_options)
    (r : option host_result) (out : bool) (h : heap) : host * creation * heap :=
  match ts_host_registry_begin_api c r with
  | (STATUS_OK, Some r) =>
      let mname := ts_host_instance_module_name m in
      let refuse s message limit :=
        let '(s, r, h) :=
          ts_host_instance_fail utf8_valid r s PHASE_INSTANTIATE mname (NoData 0) message limit h in
        (c, Ended s (Alive m) (Some r), h) in
      if negb out
      then refuse STATUS_INVALID_ARGUMENT "instance output is required"%string TS_HOST_INSTANCE_RESULT_LIMIT
      else if closing c || negb (accepting_instances m)
      then refuse STATUS_INVALID_STATE "module context is closing"%string TS_HOST_INSTANCE_RESULT_LIMIT
      else match ts_host_instance_options_valid options, options with
           | true, Some o =>
               if (next_instance_generation c =? 0) || (UINT32_MAX <? next_instance_generation c)
               then refuse STATUS_LIMIT_EXCEEDED "instance generation exhausted"%string (max_result_bytes o)
               else
                 match attempt h with
                 | (None, h) =>
                     let '(s, r, h) :=
                       ts_host_instance_fail utf8_valid r STATUS_OUT_OF_MEMORY PHASE_INSTANTIATE mname
                         (NoData 0) "instance allocation failed" (max_result_bytes o) h in
                     (c, Ended s (Alive m) (Some r), h)
                 | (Some _, h) =>
                     match ts_host_module_retain m with
                     | None => (c, Ended STATUS_OK Aborted (Some r), h)        (* abort *)
                     | Some m =>
                         match ts_host_instance_runtime_create c o h with
                         | (STATUS_OK, Some runtime, h) => (c, Pinned m r o runtime, h)
                         | (s, _, h) => create_fail c m r o s h
                         end
                     end
                 end
           | _, _ =>
               refuse STATUS_INVALID_ARGUMENT "invalid instance options"%string TS_HOST_INSTANCE_RESULT_LIMIT
           end
  | (s, r) => (c, Ended s (Alive m) r, h)
  end.

(** The rest of it, on the context, module and runtime as the initializer left them;
    [executed] is its status.  With the creation comes the new instance. *)
Definition create_end (c : host) (m : host_module) (r : host_result) (o : instance_options) (id : nat)
    (executed : status) (runtime : runtime) (h : heap) : host * creation * option instance * heap :=
  let fail s h := let '(c, k, h) := create_fail c m r o s h in (c, k, None, h) in
  match executed with
  | STATUS_OK =>
      match ts_host_instance_bind_exports m runtime h with
      | (STATUS_OK, runtime, h) =>
          if max_retained_bytes o <? ts_host_instance_retained_bytes runtime
          then fail STATUS_LIMIT_EXCEEDED h
          else
            let g := next_instance_generation c in
            (set_generation (wrapu 64 (g + 1)) c, Ended STATUS_OK (Alive m) (Some r),
             Some (Instance id runtime o (wrapu 32 g) (io_mode o) INSTANCE_READY None 1), h)
      | (s, _, h) => fail s h
      end
  | s => fail s h
  end.

(** Destroying frees the instance ([None]) and releases its module. *)
Definition turbo_script_instance_destroy (c : host) (m : host_module) (i : instance)
    (r : option host_result) (h : heap)
    : status * host * released * option instance * option host_result * heap :=
  match ts_host_instance_begin utf8_valid c m i r PHASE_NONE h with
  | (STATUS_OK, Some r, h) =>
      if negb (bool_decide (i_state i = INSTANCE_READY)) && negb (bool_decide (i_state i = INSTANCE_FAULTED))
      then
        let '(s, r, h) :=
          ts_host_instance_fail utf8_valid r STATUS_INVALID_STATE PHASE_NONE (ts_host_instance_module_name m)
            (NoData 0) "instance cannot be destroyed while executing" (max_result_bytes (i_limits i)) h in
        (s, c, Alive m, Some i, Some r, h)
      else let (c, m) := ts_host_module_release c m in (STATUS_OK, c, m, None, Some r, h)
  | (s, r, h) => (s, c, Alive m, Some i, r, h)
  end.

End create.

(** ** Handles *)

Lemma lor_shift g b w : 0 <= w -> 0 <= b < 2 ^ w -> Z.lor (Z.shiftl g w) b = g * 2 ^ w + b.
Proof.
  intros Hw Hb. rewrite <- Z.shiftl_mul_pow2 by done.
  assert (Z.land (Z.shiftl g w) b = 0) as Hland.
  { apply Z.bits_inj'. intros n Hn. rewrite Z.land_spec, Z.bits_0.
    destruct (decide (n < w)); [by rewrite Z.shiftl_spec_low|].
    rewrite <- (Z.mod_small b (2 ^ w)) by done. rewrite Z.mod_pow2_bits_high by lia. by rewrite andb_false_r. }
  by rewrite (Z.add_nocarry_lxor _ _ Hland), Z.lxor_lor.
Qed.

Definition u32 (x : Z) : Prop := 0 <= x <= UINT32_MAX.

Lemma export_handle_parts g slot :
  u32 g -> 0 <= slot < UINT32_MAX ->
  ts_host_export_handle g slot = g * 2 ^ 32 + (slot + 1) /\
  wrapu 32 (Z.shiftr (ts_host_export_handle g slot) 32) = g /\
  wrapu 32 (ts_host_export_handle g slot) = slot + 1.
Proof.
  unfold u32, UINT32_MAX, ts_host_export_handle, wrapu. intros Hg Hs.
  rewrite lor_shift by lia. split; [done|]. rewrite Z.shiftr_div_pow2 by lia.
  rewrite (Z.add_comm (g * _)), Z.div_add, Z_mod_plus_full by lia.
  rewrite (Z.div_small (slot + 1)), (Z.mod_small (slot + 1)) by lia. rewrite Z.mod_small by lia. lia.
Qed.

Lemma decode_export_handle m i g slot :
  u32 g -> u32 (generation i) -> 0 <= slot < UINT32_MAX ->
  ts_host_instance_decode_handle m i (ts_host_export_handle g slot) =
  if (g =? 0) || negb (g =? generation i) || (ts_host_module_export_count (Some m) <=? slot)
  then (STATUS_INVALID_EXPORT_HANDLE, None) else (STATUS_OK, Some (Z.to_nat slot)).
Proof.
  intros Hg Hi Hs. destruct (export_handle_parts g slot Hg Hs) as (He & Hgen & Hslot).
  unfold ts_host_instance_decode_handle. rewrite Hgen, Hslot.
  unfold u32 in *. replace (_ =? 0) with false by lia. replace (slot + 1 =? 0) with false by lia.
  replace (slot + 1 - 1) with slot by lia. by rewrite orb_false_r.
Qed.

Lemma decode_handle_inv m i handle slot :
  0 <= handle < 2 ^ 64 -> ts_host_instance_decode_handle m i handle = (STATUS_OK, Some slot) ->
  generation i <> 0 /\ is_Some (m_exports m !! slot) /\
  handle = ts_host_export_handle (generation i) (Z.of_nat slot).
Proof.
  intros Hh. unfold ts_host_instance_decode_handle. destruct (handle =? 0) eqn:E0; [done|].
  destruct (_ || _) eqn:E; [done|]. intros [= <-]. bool_props.
  pose proof (wrapu_bounds 32 handle). assert (0 <= wrapu 32 (Z.shiftr handle 32) < 2 ^ 32) as Hgb
    by (apply wrapu_bounds; lia).
  simpl in H0. split; [lia|]. split; [apply lookup_lt_is_Some; lia|].
  unfold ts_host_export_handle. rewrite Z2Nat.id by lia. rewrite lor_shift by lia.
  rewrite <- H1. unfold wrapu. rewrite Z.shiftr_div_pow2 by lia.
  rewrite (Z.mod_small (handle / _)) by (split; [apply Z.div_pos; lia|apply Z.div_lt_upper_bound; lia]).
  pose proof (Z.div_mod handle (2 ^ 32)). lia.
Qed.

Section handles.
Context (utf8_valid : string -> bool).

Lemma begin_usable c m i r p h :
  usable c r -> closing c = false ->
  ts_host_instance_begin utf8_valid c m i (Some r) p h = (STATUS_OK, Some (ts_host_result_clear_unchecked r), h).
Proof.
  intros (Hc & Hr & Hid) Hcl. unfold ts_host_instance_begin, ts_host_registry_begin_api,
    ts_host_check_owner_thread, ts_host_result_check_context, ts_host_result_reset_checked. simpl.
  rewrite Hc, Hr. simpl. rewrite Hid, decide_True by done. simpl. by rewrite Hcl.
Qed.

Lemma find_export l slot e :
  NoDup (x_name <$> l) -> l !! slot = Some e ->
  find_index (fun e' => bool_decide (x_name e' = x_name e)) l = Some slot.
Proof.
  intros Hnd He. apply find_index_Some. exists e. split; [done|]. split; [by apply bool_decide_eq_true|].
  intros j e' Hj He'. apply bool_decide_eq_false. intros Heq.
  assert ((x_name <$> l) !! j = Some (x_name e) /\ (x_name <$> l) !! slot = Some (x_name e)) as [Hj' Hs]
    by (rewrite !list_lookup_fmap, He, He'; simpl; by rewrite Heq).
  pose proof (proj1 (NoDup_alt _) Hnd _ _ _ Hj' Hs). lia.
Qed.

(** Every export of an instance can be resolved by its name to a handle that
    decodes to its slot and whose information is the name and the arity of the
    export; conversely a handle that an instance accepts is the handle of one of its
    own exports, so no instance accepts the handle of another generation. *)
Theorem export_handle_round_trip c m i r slot e info :
  usable c r -> closing c = false -> 0 < generation i <= UINT32_MAX ->
  NoDup (x_name <$> m_exports m) -> Z.of_nat (length (m_exports m)) <= TS_HOST_MODULE_EXPORT_LIMIT ->
  m_exports m !! slot = Some e -> ts_host_instance_validate_name utf8_valid (Text (x_name e)) = STATUS_OK ->
  ei_struct_size info = EXPORT_INFO_SIZE -> ei_reserved0 info = 0 -> ei_reserved info = [0; 0; 0; 0] ->
  let handle := ts_host_export_handle (generation i) (Z.of_nat slot) in
  let r' := Some (ts_host_result_clear_unchecked r) in
  turbo_script_instance_resolve_export utf8_valid c m i (Text (x_name e)) (Some r) true [] =
    (STATUS_OK, r', handle, []) /\
  ts_host_instance_decode_handle m i handle = (STATUS_OK, Some slot) /\
  turbo_script_instance_get_export_info utf8_valid c m i handle (Some r) (Some info) [] =
    (STATUS_OK, r', Some (ExportInfo EXPORT_INFO_SIZE (x_arity e) (x_arity e) 0 (Text (x_name e)) [0; 0; 0; 0]), []) /\
  (forall m' i' slot', u32 (generation i') ->
     ts_host_instance_decode_handle m' i' handle = (STATUS_OK, Some slot') ->
     generation i' = generation i /\ slot' = slot).
Proof.
  intros Hu Hcl Hg Hnd Hlen He Hname Hs H0 Hres handle r'. pose proof (lookup_lt_Some _ _ _ He).
  unfold TS_HOST_MODULE_EXPORT_LIMIT, UINT32_MAX in *.
  assert (forall m' i', u32 (generation i') -> ts_host_instance_decode_handle m' i' handle =
    if (generation i =? 0) || negb (generation i =? generation i') ||
       (ts_host_module_export_count (Some m') <=? Z.of_nat slot)
    then (STATUS_INVALID_EXPORT_HANDLE, None) else (STATUS_OK, Some (Z.to_nat (Z.of_nat slot)))) as Hdecode
    by (intros m' i' Hi'; apply decode_export_handle; unfold u32, UINT32_MAX in *; lia).
  assert (u32 (generation i)) as Hgi by (unfold u32, UINT32_MAX; lia).
  assert (ts_host_instance_decode_handle m i handle = (STATUS_OK, Some slot)) as Hd.
  { rewrite Hdecode by done. cbn [ts_host_module_export_count]. rewrite Z.eqb_refl, Nat2Z.id.
    destruct (_ || _) eqn:E; [bool_props; lia|done]. }
  split; [|split; [done|split]].
  - unfold turbo_script_instance_resolve_export. rewrite begin_usable, Hname by done. simpl.
    rewrite (find_export _ _ _ Hnd He). replace (_ <=? _) with false by (unfold UINT32_MAX; lia). done.
  - unfold turbo_script_instance_get_export_info. rewrite begin_usable by done.
    rewrite Hs, H0, Hres, Hd. simpl. unfold ts_host_module_export_arity, ts_host_module_export_name. simpl.
    by rewrite He.
  - intros m' i' slot' Hi'. rewrite Hdecode by done. destruct (_ || _) eqn:E; [done|]. intros [= <-].
    bool_props. lia.
Qed.
End handles.

Definition sample_runtime : runtime := new_runtime turbo_script_instance_options_init [] 512.
Definition sample_instance : instance :=
  Instance 3 sample_runtime turbo_script_instance_options_init 1 EXEC_INTERPRETER INSTANCE_READY None 1.

Lemma export_handle_round_trip_witness :
  turbo_script_instance_resolve_export any_text sample_host sample_module sample_instance (Text "twice")
    (Some sample_result) true [] =
  (STATUS_OK, Some (ts_host_result_clear_unchecked sample_result), 4294967297, []).
Proof.
  refine (proj1 (export_handle_round_trip any_text sample_host sample_module sample_instance sample_result 0
    (ExportEntry "twice" 1 1 1 sample_export sample_function) (ExportInfo 64 0 0 0 (NoData 0) [0; 0; 0; 0])
    _ _ _ _ _ _ _ _ _ _)); try reflexivity.
  - split; [|split]; reflexivity.
  - split; vm_compute; [reflexivity|discriminate].
  - repeat constructor; set_solver.
  - vm_compute. discriminate.
Defined.
