(* ===== verification/HostCall.v ===== *)
(** Calls through the host API: the callback adapter and the result builder of
    [turbo_script/src/host/turbo_script_host_registry.c], and
    [turbo_script_instance_call] of [turbo_script_host_instance.c].

    The compiled code of a module is not part of the repository's C sources as such:
    it is generated.  What a run of it does, as far as the host API can see, is a
    [script]: safe points, positions, errors, memory use and calls of host functions,
    each continuing with the answer it gets.  The embedder's functions are an
    instance of [Embedder]: for the argument views, what they write to the builder
    and the status they return; in this file they do not call the API again (the
    interleavings are the subject of [HostSystem.v]). *)

From S2P Require Import Prelude HostStatus Float64 Ast RtValue HostView HostViewProofs HostLimits HostConvert HostConvertProofs HostResult HostRegistry HostModule HostInstance.
From stdpp Require Import pretty.
Open Scope Z_scope.

(** ** The result builder *)

Inductive builder_state := BUILDER_EMPTY | BUILDER_VALUE | BUILDER_ERROR.

#[export] Instance builder_state_eq_dec : EqDecision builder_state.
Proof. solve_decision. Defined.

(** [turbo_script_host_result_builder_s] *)
Record builder := Builder {
  b_state : builder_state;
  terminal_status : status;
  b_value : xvalue;
  b_cause_code : Z;
  error_message : option string
}.

Definition empty_builder : builder := Builder BUILDER_EMPTY STATUS_OK XNull 0 None.

Section builder_ops.
Context `{Slots} {A SA SK : Type} `{HashSet A SA, HashSet string SK} (utf8_valid : string -> bool).

(** A write of the embedder: a view in its memory, or an error. *)
Inductive builder_op :=
  | SetValue (mem : memory A) (value : option A)
  | SetError (cause_code : Z) (message : text).

(** [owner]: the call is made on the owner thread of the context. *)
Definition turbo_script_host_result_set_value (owner : bool) (b : builder) (mem : memory A)
    (value : option A) (h : heap) : status * builder * heap :=
  match b_state b with
  | BUILDER_EMPTY =>
      let (v, h) := ts_host_value_from_view (SA:=SA) (SK:=SK) utf8_valid host_value_limits mem owner value h in
      (fv_status v, Builder BUILDER_VALUE (fv_status v) (fv_value v) (b_cause_code b) (error_message b), h)
  | _ => (STATUS_INVALID_STATE, b, h)
  end.

Definition turbo_script_host_result_set_error (b : builder) (cause_code : Z) (message : text) (h : heap)
    : status * builder * heap :=
  match b_state b with
  | BUILDER_EMPTY =>
      let write s m := Builder BUILDER_ERROR s (b_value b) cause_code m in
      if text_dangling message
      then (STATUS_INVALID_ARGUMENT, write STATUS_INVALID_ARGUMENT (error_message b), h)
      else if TS_HOST_MAX_STRING_BYTES <? text_size message
      then (STATUS_LIMIT_EXCEEDED, write STATUS_LIMIT_EXCEEDED (error_message b), h)
      else if negb (utf8_valid (text_bytes message))
      then (STATUS_INVALID_UTF8, write STATUS_INVALID_UTF8 (error_message b), h)
      else match attempt h with
           | (None, h) => (STATUS_OUT_OF_MEMORY, write STATUS_OUT_OF_MEMORY None, h)
           | (Some _, h) => (STATUS_OK, write STATUS_OK (Some (text_bytes message)), h)
           end
  | _ => (STATUS_INVALID_STATE, b, h)
  end.

Definition builder_write (owner : bool) (b : builder) (op : builder_op) (h : heap) : status * builder * heap :=
  match op with
  | SetValue mem value => turbo_script_host_result_set_value owner b mem value h
  | SetError cause message => turbo_script_host_result_set_error b cause message h
  end.

(** All the writes of a callback, whatever it makes of their statuses. *)
Fixpoint builder_writes (owner : bool) (b : builder) (ops : list builder_op) (h : heap) : builder * heap :=
  match ops with
  | [] => (b, h)
  | op :: ops =>
      let '(_, b, h) := builder_write owner b op h in builder_writes owner b ops h
  end.
End builder_ops.
Arguments builder_op : clear implicits.

(** ** Throwing into the script *)

Definition ts_host_status_name (s : status) : string :=
  match s with
  | STATUS_INVALID_ARGUMENT => "INVALID_ARGUMENT"
  | STATUS_OUT_OF_MEMORY => "OUT_OF_MEMORY"
  | STATUS_WRONG_THREAD => "WRONG_THREAD"
  | STATUS_INVALID_STATE => "INVALID_STATE"
  | STATUS_LIMIT_EXCEEDED => "LIMIT_EXCEEDED"
  | STATUS_INVALID_UTF8 => "INVALID_UTF8"
  | _ => "HOST_ERROR"
  end.

(** A run of a script: the context, the runtime, the instance that is being called
    (none during an initializer), the allocator. *)
Record call_state := CallState {
  cs_host : host;
  cs_runtime : runtime;
  cs_active : option instance;
  cs_heap : heap
}.

Definition with_ctx_of (c : runtime_ctx) (r : runtime) : runtime :=
  Runtime c (error_line r) (error_column r) (last_line r) (last_column r) (error_value r)
    (env_max_recursion r) (env_max_nodes r) (env_max_loop_iterations r) (arenas r) (scopes r)
    (host_export_functions r).
Definition with_error (message : string) (v : xvalue) (line column : Z) (abort : bool) (r : runtime) : runtime :=
  let c := rt_ctx r in
  Runtime (Ctx (active_host_budget c) (hooked c) (other_hook c) (aborted c || abort) (ctx_error_code c)
             message (ctx_error_msg c))
    line column (last_line r) (last_column r) v (env_max_recursion r) (env_max_nodes r)
    (env_max_loop_iterations r) (arenas r) (scopes r) (host_export_functions r).
Definition with_position (line column : Z) (r : runtime) : runtime :=
  Runtime (rt_ctx r) (error_line r) (error_column r) line column (error_value r) (env_max_recursion r)
    (env_max_nodes r) (env_max_loop_iterations r) (arenas r) (scopes r) (host_export_functions r).
Definition with_arenas (a : Z * list Z) (r : runtime) : runtime :=
  Runtime (rt_ctx r) (error_line r) (error_column r) (last_line r) (last_column r) (error_value r)
    (env_max_recursion r) (env_max_nodes r) (env_max_loop_iterations r) a (scopes r)
    (host_export_functions r).
Definition with_limits (recursion nodes loops : Z) (r : runtime) : runtime :=
  Runtime (rt_ctx r) (error_line r) (error_column r) (last_line r) (last_column r) (error_value r)
    recursion nodes loops (arenas r) (scopes r) (host_export_functions r).

Definition put_runtime (r : runtime) (st : call_state) : call_state :=
  CallState (cs_host st) r (cs_active st) (cs_heap st).
Definition put_heap (h : heap) (st : call_state) : call_state :=
  CallState (cs_host st) (cs_runtime st) (cs_active st) h.

(** What [snprintf] leaves in the 256 bytes of [error_msg]. *)
Definition throw_message (s : status) (cause_code : Z) (message function_name : string) : string :=
  String.substring 0 255
    (ts_host_status_name s ++ ": " ++ cut_nul (String.substring 0 128 message) ++
     " (function=" ++ function_name ++
     (if (cause_code =? 0)%Z then ")" else ", cause=" ++ pretty cause_code ++ ")"))%string.

Definition ts_host_runtime_throw_view (s : status) (cause_code : Z) (message function_name : string)
    (st : call_state) : call_state :=
  let r := cs_runtime st in
  let text := throw_message s cause_code message function_name in
  let '(v, abort, h) := exprtk_value_copy_to_env (XString (Text text)) (cs_heap st) in
  let r := with_error (default text abort) (default XNull v) (last_line r) (last_column r)
             (bool_decide (abort <> None)) r in
  match active_host_instance (cs_host st), cs_active st with
  | Some _, Some i =>
      let (i, h) := ts_host_instance_record_callback_error i s cause_code (Text function_name) (Text message)
                      (Z.max 0 (error_line r)) (Z.max 0 (error_column r)) h in
      CallState (cs_host st) r (Some i) h
  | _, _ => CallState (cs_host st) r (cs_active st) h
  end.

(** ** The callback adapter *)

(** What the embedder's function with an identity does for the arguments. *)
Class Embedder (A : Type) := respond : nat -> list tree -> list (builder_op A) * status.

(** How an adapted call ends: with its value, by throwing, or at a refused safe
    point. *)
Inductive host_answer := Returned (v : xvalue) | Thrown | Stopped | NoSuchSlot.

Section adapter.
Context `{Slots} {A SA SK : Type} `{HashSet A SA, HashSet string SK, Embedder A}.
Context (utf8_valid : string -> bool).

(** A safe point of the environment, when it has one. *)
Definition safe_point (kind : safe_point_kind) (cost : Z) (st : call_state) : bool * call_state :=
  if hooked (rt_ctx (cs_runtime st)) then
    let (passed, c) := ts_host_safe_point (rt_ctx (cs_runtime st)) kind cost in
    (passed, put_runtime (with_ctx_of c (cs_runtime st)) st)
  else (true, st).

Definition throw (s : status) (message : string) (e : fn_entry) (st : call_state) : host_answer * call_state :=
  (Thrown, ts_host_runtime_throw_view s 0 message (fn_name e) st).

(** What the adapter makes of the builder and of the status of the callback. *)
Definition adapter_result (e : fn_entry) (b : builder) (s : status) (st : call_state)
    : host_answer * call_state :=
  if ok s && bool_decide (b_state b = BUILDER_EMPTY)
  then throw STATUS_HOST_ERROR "callback returned success without a result" e st
  else if negb (ok (terminal_status b))
  then (Thrown, ts_host_runtime_throw_view (terminal_status b) (b_cause_code b)
                  "host result builder rejected its terminal write" (fn_name e) st)
  else if negb (ok s)
  then (Thrown, ts_host_runtime_throw_view s (b_cause_code b)
                  (default "host callback failed" (error_message b)) (fn_name e) st)
  else if bool_decide (b_state b = BUILDER_ERROR)
  then (Thrown, ts_host_runtime_throw_view STATUS_HOST_ERROR (b_cause_code b)
                  (default "host callback failed" (error_message b)) (fn_name e) st)
  else (Returned (b_value b), st).

(** The callback itself, between entering and leaving. *)
Definition invoke (e : fn_entry) (views : list tree) (st : call_state) : host_answer * call_state :=
  match ts_host_instance_enter_callback (cs_host st) (cs_active st) with
  | (STATUS_OK, c, i) =>
      let (ops, s) := respond (callback e) views in
      let (b, h) := builder_writes (SA:=SA) (SK:=SK) utf8_valid (on_owner (ctx c)) empty_builder ops (cs_heap st) in
      let (c, i) := ts_host_instance_leave_callback c i in
      let st := CallState c (cs_runtime st) i h in
      if ok s && ok (terminal_status b) && bool_decide (b_state b = BUILDER_VALUE) then
        match safe_point SP_CALLBACK_AFTER 0 st with
        | (true, st) => adapter_result e b s st
        | (false, st) => (Stopped, st)
        end
      else adapter_result e b s st
  | (s, c, i) =>
      throw s "host callback state transition failed" e (CallState c (cs_runtime st) i (cs_heap st))
  end.

Definition ts_host_registry_callback_adapter (e : fn_entry) (args : slice xvalue) (st : call_state)
    : host_answer * call_state :=
  match ts_host_check_owner_thread (cs_host st) with
  | STATUS_OK =>
      if (slice_count args <? min_arity e) || (max_arity e <? slice_count args)
      then throw STATUS_HOST_ERROR "host function arity mismatch" e st
      else if slice_dangling args
      then throw STATUS_INVALID_ARGUMENT "host arguments have no backing storage" e st
      else
        match attempt (cs_heap st) with
        | (None, h) =>
            throw STATUS_OUT_OF_MEMORY "failed to initialize host argument arena" e (put_heap h st)
        | (Some _, h) =>
            match argument_views utf8_valid (slice_items args) h with
            | (STATUS_OK, views, w) =>
                match safe_point SP_CALLBACK_BEFORE 1 (put_heap (wheap w) st) with
                | (true, st) => invoke e views st
                | (false, st) => (Stopped, st)
                end
            | (s, _, w) => throw s "failed to adapt host arguments" e (put_heap (wheap w) st)
            end
        end
  | s => throw s "host callback ran outside its owner thread" e st
  end.

(** The number that the generated code gets from a host function. *)
Definition numeric_answer (a : host_answer) : f64 :=
  match a with
  | Returned (XNumber x) => x
  | Returned (XInteger i) => f64_of_Z i
  | Returned (XBool b) => if b =? 0 then f64_zero else f64_one
  | _ => f64_zero
  end.

Definition ts_host_registry_invoke_numeric_slot (slot : nat) (numeric_args : slice f64) (st : call_state)
    : f64 * call_state :=
  if (16 <? slice_count numeric_args) || slice_dangling numeric_args then (f64_zero, st)
  else match ts_host_registry_get_slot (cs_host st) slot with
       | (STATUS_OK, Some e) =>
           let (a, st) :=
             ts_host_registry_callback_adapter e (Items (XNumber <$> slice_items numeric_args)) st in
           (numeric_answer a, st)
       | _ => (f64_zero, st)
       end.

(** ** Runs *)

Inductive script :=
  | Done (result : option xvalue)                    (* [None]: the backend reports a failure *)
  | SafePoint (kind : safe_point_kind) (cost : Z) (k : bool -> script)
  | At (line column : Z) (k : script)
  | Raise (message : string) (value : xvalue) (line column : Z) (abort : bool) (k : script)
  | Use (memory : Z * list Z) (k : script)
  | CallHost (slot : nat) (args : slice xvalue) (k : host_answer -> script).

Fixpoint run_script (s : script) (st : call_state) : option xvalue * call_state :=
  match s with
  | Done result => (result, st)
  | SafePoint kind cost k => let (passed, st) := safe_point kind cost st in run_script (k passed) st
  | At line column k => run_script k (put_runtime (with_position line column (cs_runtime st)) st)
  | Raise message value line column abort k =>
      run_script k (put_runtime (with_error message value line column abort (cs_runtime st)) st)
  | Use memory k => run_script k (put_runtime (with_arenas memory (cs_runtime st)) st)
  | CallHost slot args k =>
      match host_functions (cs_host st) !! slot with
      | Some e =>
          let (answer, st) := ts_host_registry_callback_adapter e args st in run_script (k answer) st
      | None => run_script (k NoSuchSlot) st
      end
  end.
End adapter.

(** ** Calls of an export *)

(** A run of slot [slot] of an artifact. *)
Class Backend := execute : nat -> execution_mode -> nat -> list xvalue -> script.

Section call.
Context `{Slots} {A SA SP SK : Type}.
Context `{HashSet A SA, HashSet (list nat) SP, HashSet string SK, Embedder A, Backend}.
Context (utf8_valid : string -> bool) (mem : memory A).

(** The arguments, each converted in the environment of the call. *)
Fixpoint convert_args (lim : value_limits) (args : list A) (h : heap) : status * list xvalue * heap :=
  match args with
  | [] => (STATUS_OK, [], h)
  | a :: args =>
      let (v, h) := ts_host_value_from_view_in_env (SA:=SA) (SK:=SK) utf8_valid lim mem (Some a) h in
      match fv_status v with
      | STATUS_OK => let '(s, vs, h) := convert_args lim args h in (s, fv_value v :: vs, h)
      | s => (s, [], h)
      end
  end.

Definition called : Type := status * host * instance * option host_result * heap.

Definition budget_of (r : runtime) : option call_budget := snd <$> active_host_budget (rt_ctx r).

(** What the call has come to when the backend and the publication are over: the
    status, the phase and the message to publish. *)
Definition backend_failure (i : instance) (r : runtime) : status * error_phase * string :=
  let b := budget_of r in
  if ok (ts_host_call_budget_status b) then
    (match i_diagnostic i with Some d => dg_status d | None => STATUS_RUNTIME_ERROR end,
     match i_diagnostic i with Some d => dg_phase d | None => PHASE_CALL end,
     "export execution failed: recursion or runtime error"%string)
  else (ts_host_call_budget_status b, ts_host_call_budget_phase b, ts_host_call_budget_message b).

(** The [finish] label. *)
Definition call_finish (attached : bool) (c : host) (m : host_module) (i : instance) (saved : runtime) (s : status)
    (p : error_phase) (message : string) (function_name : text) (slot : nat) (r : host_result) (h : heap)
    : called :=
  let rt := runtime_of i in
  let rt := if attached then with_ctx_of (ts_host_call_budget_detach (rt_ctx rt) 0) rt else rt in
  let rt := with_limits (env_max_recursion saved) (env_max_nodes saved) (env_max_loop_iterations saved) rt in
  let '(s, c, i) := ts_host_instance_finish_call c (set_runtime rt i) s in
  match s with
  | STATUS_OK => (STATUS_OK, c, ts_host_instance_clear_diagnostic i, Some r, h)
  | s =>
      let '(s, i, r, h) :=
        ts_host_instance_publish_execution_error utf8_valid m i r s p function_name slot message h in
      (s, c, i, Some r, h)
  end.

(** From the attachment of the budget on; the call has begun. *)
Definition call_started (c : host) (m : host_module) (i : instance) (saved : runtime) (slot : nat)
    (function_name : text) (args : list xvalue) (b : call_budget) (output_limits : value_limits)
    (r : host_result) (h : heap) : called :=
  match ts_host_call_budget_attach (rt_ctx (runtime_of i)) 0 b with
  | (STATUS_OK, rc) =>
      let run := execute (m_artifact m) (i_mode i) slot args in
      let (result, st) :=
        run_script (SA:=SA) (SK:=SK) utf8_valid run
          (CallState c (with_ctx_of rc (runtime_of i)) (Some i) h) in
      let c := cs_host st in
      let i := set_runtime (cs_runtime st) (default i (cs_active st)) in
      match result with
      | None =>
          let '(s, p, message) := backend_failure i (cs_runtime st) in
          call_finish true c m i saved s p message function_name slot r (cs_heap st)
      | Some output =>
          match ts_host_result_store_exprtk (SA:=SP) (SK:=SK) utf8_valid output_limits (Some r) (Some output)
                  (cs_heap st) with
          | (STATUS_OK, r', h) =>
              let rt := cs_runtime st in
              let (passed, rc) :=
                ts_host_safe_point (rt_ctx rt) SP_RETAINED_BYTES (ts_host_instance_retained_bytes rt) in
              let rt := with_ctx_of rc rt in
              let i := set_runtime rt i in
              if passed : bool
              then call_finish true c m i saved STATUS_OK PHASE_CALL "call value conversion failed" function_name slot (default r r') h
              else
                let b := budget_of rt in
                call_finish true c m i saved (ts_host_call_budget_status b) (ts_host_call_budget_phase b)
                  (ts_host_call_budget_message b) function_name slot (default r r') h
          | (s, r', h) =>
              let message := match s with
                             | STATUS_LIMIT_EXCEEDED => "call result quota exceeded"
                             | _ => "call result conversion failed"
                             end%string in
              call_finish true c m i saved s PHASE_CALL message function_name slot (default r r') h
          end
      end
  | (s, rc) =>
      call_finish false c m (set_runtime (with_ctx_of rc (runtime_of i)) i) saved s PHASE_CALL
        "call budget attachment failed" function_name slot r h
  end.

(** The limits on the arguments: an instance retains what it is given. *)
Definition input_limits (i : instance) : value_limits :=
  ValueLimits (max_value_depth (i_limits i)) (max_value_nodes (i_limits i)) (max_retained_bytes (i_limits i)).
Definition output_limits (i : instance) (b : call_budget) : value_limits :=
  ValueLimits (max_value_depth (i_limits i)) (max_value_nodes (i_limits i)) (result_bytes_left b).

Definition turbo_script_instance_call (c : host) (m : host_module) (i : instance) (handle : Z)
    (args : slice A) (options : option call_request) (r : option host_result) (h : heap) : called :=
  match ts_host_instance_begin utf8_valid c m i r PHASE_CALL h with
  | (STATUS_OK, Some r, h) =>
      let fail s function_name message h :=
        let '(s, r, h) :=
          ts_host_instance_fail utf8_valid r s PHASE_CALL (ts_host_instance_module_name m) function_name
            message (max_result_bytes (i_limits i)) h in
        (s, c, i, Some r, h) in
      if decide (i_state i = INSTANCE_FAULTED)
      then fail STATUS_INVALID_STATE (NoData 0) "faulted instance rejects future calls"%string h
      else if negb (bool_decide (i_state i = INSTANCE_READY)) || negb (host_callback_depth c =? 0) ||
              negb (bool_decide (active_host_instance c = None))
      then fail STATUS_REENTRANT_CALL (NoData 0) "instance call is not reentrant"%string h
      else match ts_host_call_options_valid options, options with
           | true, Some o =>
               if slice_dangling args || (16 <? slice_count args)
               then fail STATUS_INVALID_ARGUMENT (NoData 0) "invalid call arguments"%string h
               else
                 match ts_host_instance_decode_handle m i handle with
                 | (STATUS_OK, Some slot) =>
                     match ts_host_module_export_name (Some m) slot with
                     | None => fail STATUS_INVALID_STATE (NoData 0) "export metadata is unavailable"%string h
                     | Some name =>
                         if negb (slice_count args =? ts_host_module_export_arity (Some m) slot)
                         then fail STATUS_INVALID_ARGUMENT (Text name) "export arity mismatch"%string h
                         else
                           let b := ts_host_call_budget_init (limits_of (i_limits i)) (co_limits o) in
                           match ts_host_validate_value_views (SA:=SA) (SK:=SK) utf8_valid (input_limits i) mem args with
                           | STATUS_OK =>
                               match convert_args (input_limits i) (slice_items args) h with
                               | (STATUS_OK, vs, h) =>
                                   let saved := runtime_of i in
                                   let rt := with_limits (recursion_left b) (steps_left b) (loops_left b) saved in
                                   match ts_host_instance_begin_call c (set_runtime rt i) with
                                   | (STATUS_OK, c, i) =>
                                       call_started c m i saved slot (Text name) vs b (output_limits i b) r h
                                   | (s, _, _) => fail s (Text name) "call value conversion failed"%string h
                                   end
                               | (s, _, h) => fail s (Text name) "call value conversion failed"%string h
                               end
                           | s => fail s (Text name) "call argument validation failed"%string h
                           end
                     end
                 | (s, _) => fail s (NoData 0) "invalid export handle"%string h
                 end
           | _, _ => fail STATUS_INVALID_ARGUMENT (NoData 0) "invalid call options"%string h
           end
  | (s, r, h) => (s, c, i, r, h)
  end.
End call.

(** ** What a run leaves alone *)

(** A recorded diagnostic is that of a callback. *)
Definition diagnosed (i : instance) : Prop :=
  match i_diagnostic i with Some d => dg_status d = STATUS_HOST_ERROR | None => True end.

(** Two instances that differ in their diagnostic only. *)
Definition same_instance (i i' : instance) : Prop :=
  set_diagnostic None i' = set_diagnostic None i /\ (diagnosed i -> diagnosed i').

(** The environment keeps its limits, and its budget stays attached. *)
Definition same_runtime (r r' : runtime) : Prop :=
  env_max_recursion r' = env_max_recursion r /\ env_max_nodes r' = env_max_nodes r /\
  env_max_loop_iterations r' = env_max_loop_iterations r /\
  fst <$> active_host_budget (rt_ctx r') = fst <$> active_host_budget (rt_ctx r) /\
  hooked (rt_ctx r') = hooked (rt_ctx r) /\ other_hook (rt_ctx r') = other_hook (rt_ctx r).

Definition same_call (st st' : call_state) : Prop :=
  cs_host st' = cs_host st /\ same_runtime (cs_runtime st) (cs_runtime st') /\
  match cs_active st, cs_active st' with
  | Some i, Some i' => same_instance i i'
  | None, None => True
  | _, _ => False
  end.

#[export] Instance same_instance_pre : PreOrder same_instance.
Proof.
  split; [by intros i; split|]. intros i j k [H1 H2] [H3 H4]. split; [congruence|auto].
Qed.

#[export] Instance same_runtime_pre : PreOrder same_runtime.
Proof.
  split; [by intros r; unfold same_runtime; split_and!|].
  intros r s t (?&?&?&?&?&?) (?&?&?&?&?&?). unfold same_runtime. split_and!; congruence.
Qed.

#[export] Instance same_call_pre : PreOrder same_call.
Proof.
  split.
  - intros st. split; [done|]. split; [reflexivity|]. by destruct (cs_active st).
  - intros s t u (H1 & H2 & H3) (H4 & H5 & H6). split; [congruence|]. split; [by etrans|].
    destruct (cs_active s), (cs_active t), (cs_active u); try done. by etrans.
Qed.

Lemma same_runtime_put st r : same_runtime (cs_runtime st) r -> same_call st (put_runtime r st).
Proof. intros Hr. split; [done|]. split; [done|]. simpl. by destruct (cs_active st). Qed.

Lemma same_heap st h : same_call st (put_heap h st).
Proof. split; [done|]. split; [reflexivity|]. simpl. by destruct (cs_active st). Qed.

Lemma throw_view_keeps s cause message name st :
  same_call st (ts_host_runtime_throw_view s cause message name st).
Proof.
  unfold ts_host_runtime_throw_view. destruct (exprtk_value_copy_to_env _ _) as [[v abort] h].
  assert (forall m v a, same_runtime (cs_runtime st) (with_error m v (last_line (cs_runtime st))
    (last_column (cs_runtime st)) a (cs_runtime st))) as Hr by (intros; unfold same_runtime; by split_and!).
  destruct (active_host_instance (cs_host st)), (cs_active st) as [i|] eqn:Ei; simpl;
    try (split; [done|]; split; [apply Hr|]; by rewrite Ei).
  unfold ts_host_instance_record_callback_error. destruct (attempt h) as [copied h']. simpl.
  split; [done|]. split; [apply Hr|]. simpl. rewrite Ei. split; [by destruct i|]. done.
Qed.

Lemma safe_point_keeps kind cost st b st' : safe_point kind cost st = (b, st') -> same_call st st'.
Proof.
  unfold safe_point. destruct (hooked _) eqn:Hh; [|by intros [= _ <-]].
  destruct (ts_host_safe_point _ _ _) as [passed c] eqn:E. intros [= _ <-]. apply same_runtime_put.
  unfold ts_host_safe_point in E. unfold same_runtime. simpl.
  destruct (active_host_budget (rt_ctx (cs_runtime st))) as [[id b0]|] eqn:Eb;
    [|injection E as _ <-; by rewrite Eb].
  destruct (decide _); [|injection E as _ <-; by rewrite Eb].
  destruct (charge b0 kind cost) as [[] b1]; injection E as _ <-; simpl; by split_and!.
Qed.

(** The instance that is being called is the active one of the context. *)
Definition anchored (st : call_state) : Prop :=
  0 <= host_callback_depth (cs_host st) /\
  match cs_active st with
  | Some i => active_host_instance (cs_host st) = Some (i_id i) /\ diagnosed i
  | None => True
  end.

Lemma anchored_same st st' : same_call st st' -> anchored st -> anchored st'.
Proof.
  intros (Hh & _ & Hi) [Hd Ha]. unfold anchored. rewrite Hh. split; [done|].
  destruct (cs_active st) as [i|], (cs_active st') as [i'|]; try done. destruct Hi as [Hi Hdg], Ha as [Ha Hok].
  split; [|auto]. rewrite Ha. f_equal. change (i_id (set_diagnostic None i) = i_id (set_diagnostic None i')).
  by rewrite Hi.
Qed.

(** Leaving a callback undoes entering it. *)
Lemma enter_leave st c i :
  anchored st -> ts_host_instance_enter_callback (cs_host st) (cs_active st) = (STATUS_OK, c, i) ->
  ts_host_instance_leave_callback c i = (cs_host st, cs_active st) /\
  host_callback_depth c = host_callback_depth (cs_host st) + 1.
Proof.
  intros [Hd Ha]. unfold ts_host_instance_enter_callback.
  destruct (_ =? SIZE_MAX); [done|].
  assert (forall j, ts_host_instance_leave_callback (set_depth (host_callback_depth (cs_host st) + 1) (cs_host st)) j =
    (cs_host st, (fun i => if bool_decide (active_host_instance (cs_host st) = Some (i_id i)) &&
                  bool_decide (i_state i = INSTANCE_CALLING_HOST) then set_state INSTANCE_CALLING i else i) <$> j))
    as Hleave.
  { intros j. unfold ts_host_instance_leave_callback. simpl. replace (_ =? 0) with false by lia.
    f_equal. destruct (cs_host st). unfold set_depth. simpl. f_equal. lia. }
  destruct (cs_active st) as [i0|].
  - destruct (decide _) as [Hs|]; [|done]. intros [= <- <-]. rewrite Hleave. destruct Ha as [Ha _]. simpl.
    rewrite Ha, !bool_decide_eq_true_2 by done. simpl. split; [|done]. do 2 f_equal.
    destruct i0. simpl in Hs. by subst.
  - intros [= <- <-]. rewrite Hleave. done.
Qed.

Section keeps.
Context `{Slots} {A SA SK : Type} `{HashSet A SA, HashSet string SK, Embedder A}.
Context (utf8_valid : string -> bool).
Local Abbreviation adapter := (ts_host_registry_callback_adapter (SA:=SA) (SK:=SK) utf8_valid).

Lemma adapter_result_keeps e b s st a st' : adapter_result e b s st = (a, st') -> same_call st st'.
Proof.
  unfold adapter_result, throw. repeat case_match; intros [= _ <-]; try apply throw_view_keeps. reflexivity.
Qed.

Lemma invoke_keeps e views st a st' :
  anchored st -> invoke (SA:=SA) (SK:=SK) utf8_valid e views st = (a, st') -> same_call st st'.
Proof.
  intros Hst. unfold invoke, throw.
  destruct (ts_host_instance_enter_callback _ _) as [[s c] i] eqn:E.
  destruct s; try (intros [= _ <-];
    assert (c = cs_host st /\ i = cs_active st) as [-> ->]
      by (revert E; unfold ts_host_instance_enter_callback; repeat case_match; by intros [= <- <-]);
    transitivity (CallState (cs_host st) (cs_runtime st) (cs_active st) (cs_heap st));
      [by apply same_heap|apply throw_view_keeps]).
  apply (enter_leave _ _ _ Hst) in E as [E _].
  destruct (respond _ _) as [ops s]. destruct (builder_writes _ _ _ _ _) as [b h]. rewrite E.
  set (st1 := CallState (cs_host st) (cs_runtime st) (cs_active st) h).
  assert (same_call st st1) as Hst1 by apply same_heap. fold st1.
  destruct (_ && _ && _); [|intros Hr; etrans; [exact Hst1|by eapply adapter_result_keeps]].
  destruct (safe_point _ _ _) as [[] st2] eqn:E2; pose proof (safe_point_keeps _ _ _ _ _ E2) as Hk.
  - intros Hr. etrans; [exact Hst1|]. etrans; [exact Hk|]. by eapply adapter_result_keeps.
  - intros [= _ <-]. etrans; [exact Hst1|exact Hk].
Qed.

Lemma adapter_keeps e args st a st' : anchored st -> adapter e args st = (a, st') -> same_call st st'.
Proof.
  intros Hst. unfold ts_host_registry_callback_adapter, throw.
  destruct (ts_host_check_owner_thread _); try (intros [= _ <-]; apply throw_view_keeps).
  destruct (_ || _); [intros [= _ <-]; apply throw_view_keeps|].
  destruct (slice_dangling args); [intros [= _ <-]; apply throw_view_keeps|].
  destruct (attempt _) as [[[]|] h];
    [|intros [= _ <-]; etrans; [apply (same_heap st h)|apply throw_view_keeps]].
  destruct (argument_views _ _ _) as [[s views] w].
  destruct s; try (intros [= _ <-]; etrans; [apply (same_heap st (wheap w))|apply throw_view_keeps]).
  destruct (safe_point _ _ _) as [[] st2] eqn:E2; pose proof (safe_point_keeps _ _ _ _ _ E2) as Hk.
  - intros Hi. assert (same_call st st2) as Hs by (etrans; [apply (same_heap st (wheap w))|exact Hk]).
    etrans; [exact Hs|]. eapply invoke_keeps; [|exact Hi]. by eapply anchored_same.
  - intros [= _ <-]. etrans; [apply (same_heap st (wheap w))|exact Hk].
Qed.

Lemma run_keeps run : forall st result st',
  anchored st -> run_script (SA:=SA) (SK:=SK) utf8_valid run st = (result, st') -> same_call st st'.
Proof.
  induction run as [v|kind cost k IH|line column k IH|message v line column abort k IH|memory k IH|slot args k IH];
    intros st result st' Hst; simpl.
  - by intros [= _ <-].
  - destruct (safe_point _ _ _) as [p st1] eqn:E. apply safe_point_keeps in E. intros Hr.
    etrans; [exact E|]. eapply IH; [|exact Hr]. by eapply anchored_same.
  - intros Hr. etrans; [|eapply IH; [|exact Hr]].
    + by apply same_runtime_put.
    + by eapply (anchored_same st); [apply same_runtime_put|].
  - intros Hr. etrans; [|eapply IH; [|exact Hr]].
    + by apply same_runtime_put.
    + by eapply (anchored_same st); [apply same_runtime_put|].
  - intros Hr. etrans; [|eapply IH; [|exact Hr]].
    + by apply same_runtime_put.
    + by eapply (anchored_same st); [apply same_runtime_put|].
  - destruct (host_functions _ !! slot) as [e|]; [|by apply IH].
    destruct (ts_host_registry_callback_adapter _ _ _) as [a st1] eqn:E. apply adapter_keeps in E; [|done].
    intros Hr. etrans; [exact E|]. eapply IH; [|exact Hr]. by eapply anchored_same.
Qed.
End keeps.

(** ** Host functions *)

Section callback.
Context `{Slots} {A SA SK : Type} `{HashSet A SA, HashSet string SK, Embedder A}.
Context (utf8_valid : string -> bool).
Local Abbreviation adapter := (ts_host_registry_callback_adapter (SA:=SA) (SK:=SK) utf8_valid).
Local Abbreviation write := (builder_write (SA:=SA) (SK:=SK) utf8_valid).
Local Abbreviation writes := (builder_writes (SA:=SA) (SK:=SK) utf8_valid).

(** A builder that has been written refuses every later write. *)
Lemma written_once owner b op h :
  b_state b <> BUILDER_EMPTY -> write owner b op h = (STATUS_INVALID_STATE, b, h).
Proof.
  intros Hb. destruct op; simpl; unfold turbo_script_host_result_set_value, turbo_script_host_result_set_error;
    by destruct (b_state b).
Qed.

Lemma write_fills owner op h s b h' :
  write owner empty_builder op h = (s, b, h') -> b_state b <> BUILDER_EMPTY /\ terminal_status b = s.
Proof.
  destruct op as [mem value|cause message]; simpl.
  - unfold turbo_script_host_result_set_value. simpl.
    destruct (ts_host_value_from_view _ _ _ _ _ _) as [v h1]. by intros [= <- <- _].
  - unfold turbo_script_host_result_set_error. simpl. destruct (attempt h) as [[[]|] h1];
      repeat case_match; by intros [= <- <- _].
Qed.

Lemma writes_first owner op ops h :
  writes owner empty_builder (op :: ops) h =
  ((write owner empty_builder op h).1.2, (write owner empty_builder op h).2).
Proof.
  cbn [builder_writes]. destruct (write owner empty_builder op h) as [[s b] h1] eqn:E.
  apply write_fills in E as [Hb _]. simpl.
  induction ops as [|op' ops IH]; simpl; [done|]. by rewrite written_once by done.
Qed.

(** What a thrown error leaves in the environment. *)
Definition thrown (st : call_state) : Prop :=
  env_error_msg (rt_ctx (cs_runtime st)) <> ""%string /\
  error_line (cs_runtime st) = last_line (cs_runtime st) /\
  error_column (cs_runtime st) = last_column (cs_runtime st).

Lemma throw_message_nonempty s cause message name : throw_message s cause message name <> ""%string.
Proof. unfold throw_message. by destruct s. Qed.

Lemma throw_view_thrown s cause message name st : thrown (ts_host_runtime_throw_view s cause message name st).
Proof.
  unfold ts_host_runtime_throw_view.
  pose proof (throw_message_nonempty s cause message name) as Hne.
  destruct (exprtk_value_copy_to_env _ _) as [[v abort] h] eqn:E.
  assert (default (throw_message s cause message name) abort <> ""%string) as Hm.
  { unfold exprtk_value_copy_to_env in E. destruct (exprtk_value_copy_to_pool _ _) as [[?|] ?]; by simplify_eq. }
  destruct (active_host_instance _), (cs_active st); simpl;
    unfold ts_host_instance_record_callback_error; try destruct (attempt h); by unfold thrown; simpl.
Qed.

Lemma adapter_result_returned e b s st v st' :
  adapter_result e b s st = (Returned v, st') ->
  s = STATUS_OK /\ terminal_status b = STATUS_OK /\ b_state b = BUILDER_VALUE /\ v = b_value b /\ st' = st.
Proof.
  unfold adapter_result, throw. destruct (ok s) eqn:Hs, (ok (terminal_status b)) eqn:Ht; simpl;
    try (repeat case_match; done).
  apply ok_true in Hs, Ht. destruct (b_state b) eqn:Hb; simpl; try done. by intros [= <- <-].
Qed.

Lemma adapter_result_thrown e b s st st' : adapter_result e b s st = (Thrown, st') -> thrown st'.
Proof.
  unfold adapter_result, throw. repeat case_match; intros [= <-]; apply throw_view_thrown.
Qed.

Lemma invoke_returned e views st v st' :
  invoke (SA:=SA) (SK:=SK) utf8_valid e views st = (Returned v, st') ->
  exists mem value ops h h', respond (callback e) views = (SetValue mem value :: ops, STATUS_OK) /\
    turbo_script_host_result_set_value (SA:=SA) (SK:=SK) utf8_valid (on_owner (ctx (cs_host st))) empty_builder
      mem value h = (STATUS_OK, Builder BUILDER_VALUE STATUS_OK v 0 None, h').
Proof.
  unfold invoke, throw. destruct (ts_host_instance_enter_callback _ _) as [[s c] i] eqn:E.
  destruct s; try done.
  assert (on_owner (ctx c) = on_owner (ctx (cs_host st))) as Ho.
  { revert E. unfold ts_host_instance_enter_callback. repeat case_match; by intros [= <- _]. }
  destruct (respond _ _) as [ops s]. rewrite Ho.
  destruct (writes _ _ ops _) as [b h1] eqn:Hw. destruct (ts_host_instance_leave_callback c i) as [c1 i1].
  intros Hr. assert (exists st1, adapter_result e b s st1 = (Returned v, st')) as [st1 Hr'].
  { revert Hr. destruct (_ && _ && _); [|by eexists]. destruct (safe_point _ _ _) as [[] ?]; [by eexists|done]. }
  apply adapter_result_returned in Hr' as (-> & Ht & Hb & -> & _).
  destruct ops as [|op ops]; [simpl in Hw; injection Hw as <- _; done|].
  rewrite writes_first in Hw. destruct (write _ empty_builder op _) as [[s b'] h2] eqn:E2.
  simpl in Hw. injection Hw as <- <-. destruct op as [mem value|cause message].
  - exists mem, value, ops, (cs_heap st), h2. split; [done|]. simpl in E2. rewrite E2.
    unfold turbo_script_host_result_set_value in E2. simpl in E2.
    destruct (ts_host_value_from_view _ _ _ _ _ _) as [fv h3]. injection E2 as <- <- <-. simpl in *. by rewrite Ht.
  - exfalso. simpl in E2. unfold turbo_script_host_result_set_error in E2. simpl in E2.
    destruct (attempt (cs_heap st)) as [[[]|] ?]; repeat case_match; by simplify_eq.
Qed.

Lemma invoke_thrown e views st st' :
  invoke (SA:=SA) (SK:=SK) utf8_valid e views st = (Thrown, st') -> thrown st'.
Proof.
  unfold invoke, throw. destruct (ts_host_instance_enter_callback _ _) as [[s c] i].
  destruct s; try (intros [= <-]; apply throw_view_thrown).
  destruct (respond _ _) as [ops s]. destruct (writes _ _ ops _) as [b h1].
  destruct (ts_host_instance_leave_callback c i) as [c1 i1].
  destruct (_ && _ && _); [|apply adapter_result_thrown].
  destruct (safe_point _ _ _) as [[] ?]; [apply adapter_result_thrown|done].
Qed.

(** A host function gives the script a value only when it is called on the owner
    thread with a number of arguments that it declares, is handed the views of exactly
    those arguments, reports success, and its first write to the builder is a view that
    converts to that value; any other answer throws an error, with a message, at the
    position of the call, or stops the run at a refused safe point.  Whatever the
    answer, the context, the states of the call and its limits are as before. *)
Theorem host_function_answer e args st a st' :
  anchored st -> adapter e args st = (a, st') ->
  same_call st st' /\
  match a with
  | Returned v =>
      on_owner (ctx (cs_host st)) = true /\ min_arity e <= slice_count args <= max_arity e /\
      forallb viewable (slice_items args) = true /\
      exists mem value ops h h',
        respond (callback e) (tree_of <$> slice_items args) = (SetValue mem value :: ops, STATUS_OK) /\
        turbo_script_host_result_set_value (SA:=SA) (SK:=SK) utf8_valid true empty_builder mem value h =
          (STATUS_OK, Builder BUILDER_VALUE STATUS_OK v 0 None, h')
  | Thrown => thrown st'
  | Stopped => True
  | NoSuchSlot => False
  end.
Proof.
  intros Hst Ha. split; [by eapply adapter_keeps|]. revert Ha.
  unfold ts_host_registry_callback_adapter, throw, ts_host_check_owner_thread.
  destruct (on_owner (ctx (cs_host st))) eqn:Ho; simpl; [|intros [= <- <-]; apply throw_view_thrown].
  destruct (_ || _) eqn:Har; [intros [= <- <-]; apply throw_view_thrown|].
  destruct (slice_dangling args); [intros [= <- <-]; apply throw_view_thrown|].
  destruct (attempt _) as [[[]|] h]; [|intros [= <- <-]; apply throw_view_thrown].
  destruct (argument_views _ _ _) as [[s views] w] eqn:Hv.
  destruct s; try (intros [= <- <-]; apply throw_view_thrown).
  destruct (safe_point _ _ _) as [[] st2] eqn:E2; [|by intros [= <- _]].
  apply safe_point_keeps in E2 as (Hh & _). simpl in Hh. intros Hi.
  destruct a as [v| | |]; [|by eapply invoke_thrown|done|].
  - apply argument_views_sound in Hv as [Hv ->]. apply invoke_returned in Hi. rewrite Hh, Ho in Hi.
    split; [done|]. split; [lia|]. by split.
  - revert Hi. unfold invoke, throw, adapter_result. repeat case_match; done.
Qed.
End callback.

(** ** What a call leaves *)

Section call_correct.
Context `{Slots} {A SA SP SK : Type}.
Context `{HashSet A SA, ReliableSet (list nat) SP, ReliableSet string SK, Embedder A, Backend}.
Context (utf8_valid : string -> bool) (mem : memory A).

(** The result holds no value. *)
Definition valueless (r : option host_result) : Prop :=
  exists r0, r = Some r0 /\ turbo_script_result_get_value r = (STATUS_INVALID_STATE, None).

Lemma set_error_valueless r e limit h s r' h' :
  ts_host_result_set_error utf8_valid r e limit h = (s, r', h') -> r_owner r = true ->
  valueless (Some r') /\ r_owner r' = true.
Proof.
  intros E Ho. revert E. unfold ts_host_result_set_error. simpl. rewrite Ho. simpl.
  assert (forall r1, r_owner r1 = true -> has_value r1 = false -> valueless (Some r1) /\ r_owner r1 = true) as Hv.
  { intros r1 Hr Hn. split; [|done]. exists r1. split; [done|]. unfold turbo_script_result_get_value. simpl.
    by rewrite Hr, Hn. }
  destruct (ts_host_validate_error_info _ _ _), e as [e|]; try (by intros [= _ <- _]; apply Hv).
  destruct (ts_host_copy_string _ h) as [[m|] h1], (ts_host_copy_string _ h1) as [[f|] h2],
    (ts_host_copy_string _ h2) as [[g|] h3]; by intros [= _ <- _]; apply Hv.
Qed.

Lemma instance_fail_inv r s p mn fn message limit h s' r' h' :
  ts_host_instance_fail utf8_valid r s p mn fn message limit h = (s', r', h') -> r_owner r = true ->
  s' = s /\ valueless (Some r').
Proof.
  unfold ts_host_instance_fail. destruct (ts_host_result_set_error _ _ _ _ _) as [[s1 r1] h1] eqn:E.
  intros [= <- <- _] Ho. split; [done|]. by eapply set_error_valueless.
Qed.

Lemma execution_error_status m i s p fn slot message :
  diagnosed i -> s <> STATUS_OK -> (execution_error m i s p fn slot message).1 <> STATUS_OK.
Proof.
  unfold execution_error, diagnosed. intros Hd Hs. destruct (i_diagnostic i) as [d|]; simpl; [|done].
  by rewrite Hd.
Qed.

Lemma publish_inv m i r s p fn slot message h s' i' r' h' :
  ts_host_instance_publish_execution_error utf8_valid m i r s p fn slot message h = (s', i', r', h') ->
  r_owner r = true -> diagnosed i -> s <> STATUS_OK ->
  s' <> STATUS_OK /\ i' = ts_host_instance_clear_diagnostic i /\ valueless (Some r').
Proof.
  unfold ts_host_instance_publish_execution_error. intros Hp Ho Hd Hs. revert Hp.
  pose proof (execution_error_status m i s p fn slot message Hd Hs) as Hst.
  destruct (execution_error _ _ _ _ _ _ _) as [st e]. simpl in Hst.
  destruct (ts_host_result_set_error _ _ _ _ _) as [[s1 r1] h1] eqn:E1. intros [= <- <- <- _].
  split; [|split; [done|by eapply set_error_valueless]]. destruct (ok s1) eqn:Es; [done|by apply ok_false].
Qed.

(** A call that has begun. *)
Definition begun (c : host) (i : instance) : Prop :=
  active_host_instance c = Some (i_id i) /\ i_state i = INSTANCE_CALLING /\ host_callback_depth c = 0.

Definition env_limits (r : runtime) : Z * Z * Z :=
  (env_max_recursion r, env_max_nodes r, env_max_loop_iterations r).

(** What a call that has begun ends with. *)
Definition ended (c : host) (saved : runtime) (ok_result : option host_result -> Prop) (o : called) : Prop :=
  let '(s, c', i', r', _) := o in
  c' = set_active None c /\ env_limits (runtime_of i') = env_limits saved /\
  (s = STATUS_OK -> i_state i' = INSTANCE_READY /\ i_diagnostic i' = None /\
     active_host_budget (rt_ctx (runtime_of i')) = None /\ ok_result r') /\
  (s <> STATUS_OK -> i_state i' = INSTANCE_FAULTED /\ valueless r').

Lemma finish_failed attached c m i saved s p message fn slot r h P :
  begun c i -> diagnosed i -> r_owner r = true -> s <> STATUS_OK ->
  ended c saved P (call_finish utf8_valid attached c m i saved s p message fn slot r h).
Proof.
  intros (Ha & Hst & Hd) Hdg Ho Hs. unfold call_finish, ts_host_instance_finish_call. simpl.
  rewrite Ha, Hst, Hd, !bool_decide_eq_true_2 by done. simpl.
  apply ok_false in Hs as Hok. rewrite Hok. destruct s; try done;
    destruct (ts_host_instance_publish_execution_error _ _ _ _ _ _ _ _ _ _) as [[[s' i'] r'] h'] eqn:E;
    apply publish_inv in E as (Hs' & -> & Hv); try done;
    (split; [done|]; split; [by destruct attached|]; split; [done|]; by intros _).
Qed.

Lemma finish_ok c m i saved p message fn slot r h b (P : option host_result -> Prop) :
  begun c i -> active_host_budget (rt_ctx (runtime_of i)) = Some (0%nat, b) -> P (Some r) ->
  ended c saved P (call_finish utf8_valid true c m i saved STATUS_OK p message fn slot r h).
Proof.
  intros (Ha & Hst & Hd) Hb HP. unfold call_finish, ts_host_instance_finish_call. simpl.
  rewrite Ha, Hst, Hd, !bool_decide_eq_true_2 by done. simpl.
  split; [done|]. split; [done|]. split; [|done]. intros _. split; [done|]. split; [done|]. split; [|done].
  simpl. unfold ts_host_call_budget_detach. by rewrite Hb.
Qed.

Local Abbreviation store lim r v h := (ts_host_result_store_exprtk (SA:=SP) (SK:=SK) utf8_valid lim (Some r) (Some v) h).

Lemma store_owner lim r v h s r' h' :
  store lim r v h = (s, r', h') -> r_owner r = true -> exists r1, r' = Some r1 /\ r_owner r1 = true.
Proof.
  unfold ts_host_result_store_exprtk. intros E Ho. revert E. simpl. rewrite Ho. simpl.
  destruct (attempt h) as [[[]|] h1]; [|intros [= _ <- _]; by eexists].
  destruct (ts_host_exprtk_to_view _ _ _ _ _) as [[s1 t] st]. destruct (ok s1) eqn:E1.
  - destruct (ts_host_result_store_view _ _ _ _ _ _) as [[s2 r2] h2] eqn:E.
    apply store_view_settled in E as (_ & Hr & _). simpl in Hr. intros [= _ <- _].
    destruct (ok s2); eexists; (split; [done|]); simpl; congruence.
  - intros [= _ <- _]. eexists. split; [reflexivity|]. by destruct (ok s1).
Qed.

(** What a successful call publishes. *)
Definition published (lim : value_limits) (r : option host_result) : Prop :=
  exists v r1, r = Some r1 /\ publishable utf8_valid lim v /\
    turbo_script_result_get_value (Some r1) = (STATUS_OK, Some (tree_of v)).

Lemma store_published lim r v h r' h' :
  limits_ok lim -> r_owner r = true -> store lim r v h = (STATUS_OK, r', h') -> published lim r'.
Proof.
  intros Hlim Ho E. destruct (store_exprtk_sound utf8_valid lim Hlim r v h Ho) as (Hp & Hv & _); [by rewrite E|].
  rewrite E in Hv. simpl in Hv. destruct (store_owner _ _ _ _ _ _ _ E Ho) as (r1 & -> & _). by exists v, r1.
Qed.

Lemma backend_failure_status i r : diagnosed i -> (backend_failure i r).1.1 <> STATUS_OK.
Proof.
  unfold backend_failure, diagnosed. intros Hd. destruct (ok _) eqn:E; simpl; [|by apply ok_false].
  destruct (i_diagnostic i) as [d|]; [by rewrite Hd|done].
Qed.

Lemma safe_point_budget c id b kind cost passed c' :
  active_host_budget c = Some (id, b) -> ts_host_safe_point c kind cost = (passed, c') ->
  exists b', active_host_budget c' = Some (id, b') /\ (passed = false -> failure_status b' <> STATUS_OK).
Proof.
  intros Ha. unfold ts_host_safe_point. rewrite Ha. destruct (decide _) as [Hf|Hf].
  - destruct (charge b kind cost) as [[] b'] eqn:E; intros [= <- <-]; exists b'; (split; [done|]); [done|].
    intros _. by eapply charge_fail.
  - intros [= <- <-]. by exists b.
Qed.

Lemma call_started_ended c m i saved slot fn args b lim r h :
  begun c i -> i_diagnostic i = None -> r_owner r = true -> limits_ok lim ->
  ended c saved (published lim)
    (call_started (SA:=SA) (SP:=SP) (SK:=SK) utf8_valid c m i saved slot fn args b lim r h).
Proof.
  intros Hb Hdg Ho Hlim. pose proof Hb as (Ha & Hst & Hd). unfold call_started.
  assert (diagnosed i) as Hdi by (unfold diagnosed; by rewrite Hdg).
  destruct (ts_host_call_budget_attach _ _ _) as [s rc] eqn:Hat.
  destruct s; try (by apply finish_failed).
  assert (active_host_budget rc = Some (0%nat, b)) as Hrc.
  { unfold ts_host_call_budget_attach in Hat. destruct (active_host_budget (rt_ctx _)); [done|].
    destruct (_ || _); [done|]. by injection Hat as <-. }
  destruct (run_script _ _ _) as [result st] eqn:Hrun.
  apply run_keeps in Hrun as (Hh & (_ & _ & _ & Hbud & _) & Hi).
  2:{ split; simpl; [lia|done]. }
  simpl in Hh, Hbud, Hi. rewrite Hrc in Hbud. destruct (cs_active st) as [i2|]; [|done].
  destruct Hi as [Hi Hdi2]. specialize (Hdi2 Hdi).
  assert (begun (cs_host st) (set_runtime (cs_runtime st) i2)) as Hb2.
  { rewrite Hh. destruct i, i2. simpl in *. injection Hi as -> _ _ _ _ -> _. by split_and!. }
  assert (forall rt, begun (cs_host st) (set_runtime rt i2) /\ diagnosed (set_runtime rt i2)) as Hset
    by (intros rt; split; [exact Hb2|exact Hdi2]).
  rewrite <- Hh. cbn [default].
  destruct result as [output|].
  2:{ pose proof (backend_failure_status (set_runtime (cs_runtime st) i2) (cs_runtime st) Hdi2) as Hf.
      destruct (backend_failure _ _) as [[s p] message]. simpl in Hf.
      by apply finish_failed; [apply Hset..|done|]. }
  destruct (ts_host_result_store_exprtk _ _ _ _ _) as [[s r1] h1] eqn:Es.
  destruct (store_owner _ _ _ _ _ _ _ Es Ho) as (r2 & -> & Ho2).
  destruct s; try (apply finish_failed; [apply Hset..|done|done]).
  destruct (active_host_budget (rt_ctx (cs_runtime st))) as [[id b2]|] eqn:Eb; [|done]. injection Hbud as ->.
  destruct (ts_host_safe_point _ _ _) as [passed rc'] eqn:Ep.
  destruct (safe_point_budget _ _ _ _ _ _ _ Eb Ep) as (b3 & Hb3 & Hfail).
  destruct passed.
  - eapply finish_ok; [apply Hset|exact Hb3|]. exact (store_published _ _ _ _ _ _ Hlim Ho Es).
  - apply finish_failed; [apply Hset..|done|]. unfold budget_of. simpl. rewrite Hb3. simpl. by apply Hfail.
Qed.

(** An entry point that refuses has published an error, or could not touch the result. *)
Lemma begin_inv c m i r p h s r' h' :
  usable c r -> ts_host_instance_begin utf8_valid c m i (Some r) p h = (s, r', h') ->
  (s = STATUS_OK /\ r' = Some (ts_host_result_clear_unchecked r) /\ h' = h) \/
  (s <> STATUS_OK /\ valueless r').
Proof.
  intros (Hc & Hr & Hid). unfold ts_host_instance_begin, ts_host_registry_begin_api,
    ts_host_check_owner_thread, ts_host_result_check_context, ts_host_result_reset_checked. simpl.
  rewrite Hc, Hr. simpl. rewrite Hid, decide_True by done. simpl.
  destruct (_ && _); [|intros [= <- <- <-]; by left].
  destruct (ts_host_instance_fail _ _ _ _ _ _ _ _ _) as [[s1 r1] h1] eqn:E.
  intros [= <- <- _]. right. by apply instance_fail_inv in E as [-> Hv].
Qed.

(** The export that a handle stands for takes these arguments. *)
Definition callable (m : host_module) (i : instance) (handle : Z) (args : slice A) : Prop :=
  exists slot e, ts_host_instance_decode_handle m i handle = (STATUS_OK, Some slot) /\
    m_exports m !! slot = Some e /\ slice_count args = x_arity e /\
    ts_host_validate_value_views (SA:=SA) (SK:=SK) utf8_valid (input_limits i) mem args = STATUS_OK.

Definition call_budget_of (i : instance) (o : call_request) : call_budget :=
  ts_host_call_budget_init (limits_of (i_limits i)) (co_limits o).

(** How a call of [i] in [c] ends. *)
Definition call_settled (c : host) (m : host_module) (i : instance) (handle : Z) (args : slice A)
    (o : call_request) (out : called) : Prop :=
  let '(s, c', i', r', _) := out in
  c' = c /\ env_limits (runtime_of i') = env_limits (runtime_of i) /\
  (s = STATUS_OK ->
     i_state i = INSTANCE_READY /\ callable m i handle args /\ ts_host_call_options_valid (Some o) = true /\
     i_state i' = INSTANCE_READY /\ i_diagnostic i' = None /\
     active_host_budget (rt_ctx (runtime_of i')) = None /\
     published (output_limits i (call_budget_of i o)) r') /\
  (s <> STATUS_OK ->
     valueless r' /\ (i' = i \/ (i_state i = INSTANCE_READY /\ i_state i' = INSTANCE_FAULTED))).

Lemma refused_settles c m i handle args o s r h :
  s <> STATUS_OK -> valueless r -> call_settled c m i handle args o (s, c, i, r, h).
Proof. intros Hs Hv. split; [done|]. split; [done|]. split; [done|]. auto. Qed.

Lemma failed_settles c m i handle args o s r p fn message h :
  s <> STATUS_OK -> r_owner r = true ->
  call_settled c m i handle args o
    (let '(s, r, h) := ts_host_instance_fail utf8_valid r s p (ts_host_instance_module_name m) fn
       message (max_result_bytes (i_limits i)) h in (s, c, i, Some r, h)).
Proof.
  intros Hs Ho. destruct (ts_host_instance_fail _ _ _ _ _ _ _ _ _) as [[s1 r1] h2] eqn:E.
  apply instance_fail_inv in E as [-> Hv]; [|done]. by apply refused_settles.
Qed.

(** C23: A call through the host API either succeeds, on a ready instance, with valid
    options, a handle of one of its exports and as many valid arguments as the export
    takes; then a value within the limits of the call is published, the instance is
    ready again, without a diagnostic, and its budget is detached.  Or it fails, and no
    value is published: it was refused and the instance is as it was, or the ready
    instance had started and is faulted for good.  In every case no instance remains
    active in the context, and the limits of the environment are restored. *)
Theorem instance_call_settles c m i handle args o r h :
  usable c r -> limits_ok (output_limits i (call_budget_of i o)) ->
  call_settled c m i handle args o
    (turbo_script_instance_call (SA:=SA) (SP:=SP) (SK:=SK) utf8_valid mem c m i handle args (Some o) (Some r) h).
Proof.
  intros Hu Hlim. pose proof Hu as (_ & Ho & _). unfold turbo_script_instance_call.
  destruct (ts_host_instance_begin _ _ _ _ _ _ _) as [[s0 r0] h0] eqn:Eb.
  apply (begin_inv _ _ _ _ _ _ _ _ _ Hu) in Eb as [(-> & -> & ->)|[Hs Hv]];
    [|destruct s0; try done; by apply refused_settles].
  destruct (decide (i_state i = INSTANCE_FAULTED)); [by apply failed_settles|].
  destruct (negb _ || _ || _) eqn:Hready; [by apply failed_settles|].
  destruct (ts_host_call_options_valid (Some o)) eqn:Hopt; [|by apply failed_settles].
  destruct (_ || _) eqn:Hargs in |- *; [by apply failed_settles|].
  destruct (ts_host_instance_decode_handle m i handle) as [sd [slot|]] eqn:Hd;
    [|destruct sd; try (by apply failed_settles); exfalso;
      revert Hd; unfold ts_host_instance_decode_handle; repeat case_match; done].
  destruct sd; try (by apply failed_settles).
  destruct (ts_host_module_export_name (Some m) slot) as [name|] eqn:Hname; [|by apply failed_settles].
  destruct (negb (slice_count args =? _)) eqn:Har; [by apply failed_settles|].
  destruct (ts_host_validate_value_views _ _ _ _) eqn:Hval; try (by apply failed_settles).
  destruct (convert_args _ _ _ _ _) as [[sc vs] h1]. destruct sc; try (by apply failed_settles).
  apply orb_false_elim in Hready as [Hready Hact]. apply orb_false_elim in Hready as [Hready Hdepth].
  bool_props. apply bool_decide_eq_true in Hready, Hact.
  unfold ts_host_instance_begin_call. simpl. rewrite decide_False, Hready, Hact, Hdepth by done. simpl.
  match goal with |- call_settled _ _ _ _ _ _ (call_started _ ?c1 _ ?i1 ?sv _ _ ?vs ?b ?lim ?r1 ?h1) =>
    pose proof (call_started_ended c1 m i1 sv slot (Text name) vs b lim r1 h1) as Hend end.
  destruct (call_started _ _ _ _ _ _ _ _ _ _ _ _) as [[[[s c'] i'] r'] h'].
  destruct Hend as (-> & Hl & Hok & Hbad); [by split_and!|done..|].
  assert (set_active None (set_active (Some (i_id i)) c) = c) as Hc by (destruct c; simpl in *; by subst).
  split; [exact Hc|]. split; [exact Hl|]. split.
  - intros Hs. destruct (Hok Hs) as (? & ? & ? & ?). split_and!; try done.
    unfold ts_host_module_export_name in Hname. simpl in Hname.
    destruct (m_exports m !! slot) as [e|] eqn:He; [|done]. exists slot, e. split_and!; try done.
    unfold ts_host_module_export_arity in Har. simpl in Har. by rewrite He in Har.
  - intros Hs. destruct (Hbad Hs) as [? ?]. auto.
Qed.
End call_correct.

(** ** The theorems at work *)

(** The host function answers with an array; the export calls it and returns 42. *)
#[local] Instance sample_embedder : Embedder Z := fun id views =>
  if (id =? 8)%nat then ([SetError 5 (Text "no such file")], STATUS_OK)
  else ([SetValue sample_memory (Some 1)], STATUS_OK).

(** The second export catches the error of a callback and runs out of loops. *)
#[local] Instance sample_backend : Backend := fun artifact mode slot args =>
  if (artifact =? 6)%nat then
    CallHost 1 (Items []) (fun _ => SafePoint SP_LOOP 10001 (fun _ => Done None))
  else SafePoint SP_STEP 1 (fun _ => CallHost 0 (Items args) (fun _ => Done (Some (XInteger 42)))).

Definition sample_request : call_request := turbo_script_call_options_init.
Definition calling_host : host :=
  Host (HostCtx 1 true 1 false no_error) false [FnEntry "log" 1 2 7%nat; FnEntry "open" 0 0 8%nat] 1 0 None 2.
Definition sample_views : memory Z := fun _ => View 0 (VInt64 4).

Local Abbreviation sample_call m args :=
  (turbo_script_instance_call (SA:=bounded_set Z) (SP:=bounded_set (list nat)) (SK:=bounded_set string)
     any_text sample_views calling_host m sample_instance 4294967297 args (Some sample_request)
     (Some sample_result) []).

Lemma instance_call_settles_witness :
  published any_text
    (output_limits sample_instance (call_budget_of sample_instance sample_request))
    (sample_call sample_module (Items [1])).1.2.
Proof.
  pose proof (instance_call_settles (SA:=bounded_set Z) (SP:=bounded_set (list nat)) (SK:=bounded_set string)
    any_text sample_views calling_host sample_module sample_instance 4294967297 (Items [1]) sample_request
    sample_result []) as H.
  destruct (sample_call sample_module (Items [1])) as [[[[s c] i] r] h] eqn:E.
  assert (s = STATUS_OK) as Hs by (apply (f_equal (fun o => o.1.1.1.1)) in E; vm_compute in E; congruence).
  destruct H as (_ & _ & H & _).
  - split; [|split]; reflexivity.
  - split; [|split]; split; vm_compute; discriminate.
  - destruct (H Hs) as (_ & _ & _ & _ & _ & _ & Hp). exact Hp.
Defined.

Definition sample_call_state : call_state :=
  CallState (set_active (Some 3%nat) calling_host) sample_runtime
    (Some (set_state INSTANCE_CALLING sample_instance)) [].

Lemma host_function_answer_witness :
  thrown (ts_host_registry_callback_adapter (SA:=bounded_set Z) (SK:=bounded_set string) any_text
            (FnEntry "open" 0 0 8%nat) (Items []) sample_call_state).2.
Proof.
  pose proof (host_function_answer (SA:=bounded_set Z) (SK:=bounded_set string) any_text
    (FnEntry "open" 0 0 8%nat) (Items []) sample_call_state Thrown) as H.
  refine (proj2 (H _ _ _)).
  - split; [vm_compute; discriminate|]. split; reflexivity.
  - vm_compute. reflexivity.
Defined.

(** An error of a callback that the script has caught stays the diagnostic of the
    instance: when the call then exceeds a quota, the error that is published is the
    old one, with its status, phase and message. *)
Example caught_callback_error_published :
  let out := sample_call (HostModule "P" "" sample_program [ExportEntry "twice" 0 1 1 sample_export sample_function]
                            6 1 1 1 true) (Items []) in
  out.1.1.1.1 = STATUS_HOST_ERROR /\
  match out.1.2 with
  | Some r => e_phase (r_error r) = phase_number PHASE_HOST_CALLBACK /\ e_cause_code (r_error r) = 5 /\
      e_message (r_error r) = Text "no such file"
  | None => False
  end.
Proof. vm_compute. repeat split. Qed.
