(* ===== verification/HostSystem.v ===== *)
(** The host API as a whole: every interleaving of its operations.

    A world holds the context, the live modules and instances, and the stack of what is
    under way: the creation of an instance, a call, a callback.  The embedder acts when
    nothing is under way or in a callback; a script runs in a call or in the
    initializer of a creation.  The steps are the operations of [HostRegistry.v],
    [HostModule.v], [HostInstance.v] and [HostCall.v]; a call is its two ends with the
    callbacks between them, so that the embedder may use the API inside a callback.

    Every reachable world accounts exactly for the references of its modules, never
    frees a module that an instance still uses, never aborts, and keeps the host
    functions that compiled code is bound to. *)

From S2P Require Import Prelude HostStatus Float64 Ast RtValue HostView HostViewProofs HostLimits HostResult HostRegistry HostModule HostInstance HostCall.
Open Scope Z_scope.

(** ** Worlds *)

Inductive frame :=
  | FCreate (module : nat) (r : host_result) (o : instance_options)
  | FCall (instance : nat)
  | FCallback (instance : option nat).

(** A module is kept with the host functions that its code was bound to, an instance
    with its module. *)
Record world := World {
  w_host : host;
  w_modules : gmap nat (host_module * list fn_entry);
  w_instances : gmap nat (nat * instance);
  w_stack : list frame;
  w_aborted : bool
}.

(** The embedder acts; a script runs. *)
Definition embedder_runs (stack : list frame) : bool :=
  match stack with [] | FCallback _ :: _ => true | _ => false end.
Definition script_runs (stack : list frame) : bool :=
  match stack with FCreate _ _ _ :: _ | FCall _ :: _ => true | _ => false end.

Definition put_released (mid : nat) (fs : list fn_entry) (m : released)
    (ms : gmap nat (host_module * list fn_entry)) : gmap nat (host_module * list fn_entry) :=
  match m with
  | Alive m => <[mid := (m, fs)]> ms
  | Freed => delete mid ms
  | Aborted => ms
  end.
Definition aborts (m : released) : bool := match m with Aborted => true | _ => false end.

Definition active (w : world) : option instance := i ← active_host_instance (w_host w); snd <$> w_instances w !! i.

Definition put_instance (i : option instance) (insts : gmap nat (nat * instance)) : gmap nat (nat * instance) :=
  match i with
  | Some i => alter (fun e => (e.1, i)) (i_id i) insts
  | None => insts
  end.

Section steps.
Context `{Frontend} (utf8_valid : string -> bool) (used base : Z).

(** [base] references of the context are held outside the modules; counts of live
    objects stay below the largest count, as they do in any address space. *)
Inductive step : world -> world -> Prop :=
  | step_register w d cb r h s c r' h' :
      embedder_runs (w_stack w) = true ->
      turbo_script_context_register_host_function utf8_valid (w_host w) d cb r h = (s, c, r', h') ->
      step w (World c (w_modules w) (w_instances w) (w_stack w) (w_aborted w))
  | step_unregister w name r h s c r' h' :
      embedder_runs (w_stack w) = true ->
      turbo_script_context_unregister_host_function utf8_valid (w_host w) name r h = (s, c, r', h') ->
      step w (World c (w_modules w) (w_instances w) (w_stack w) (w_aborted w))
  | step_compile w source o r out h s c r' h' om mid :
      embedder_runs (w_stack w) = true -> w_modules w !! mid = None ->
      match o with Some o => unsigned o | None => True end ->
      base + Z.of_nat (size (w_modules w)) < UINT32_MAX ->
      turbo_script_module_compile utf8_valid (Some (w_host w)) source o r out h = ((s, Some c, r', h'), om) ->
      step w (World c (match om with
                       | Some m => <[mid := (m, host_functions (w_host w))]> (w_modules w)
                       | None => w_modules w
                       end) (w_instances w) (w_stack w) (w_aborted w))
  | step_destroy_module w mid m fs r h s c r' h' m' :
      embedder_runs (w_stack w) = true -> w_modules w !! mid = Some (m, fs) ->
      turbo_script_module_destroy (w_host w) m r h = ((s, c, r', h'), m') ->
      step w (World c (put_released mid fs m' (w_modules w)) (w_instances w) (w_stack w)
                (w_aborted w || aborts m'))
  | step_create_refused w mid m fs o r out h c s m' r' h' :
      embedder_runs (w_stack w) = true -> w_modules w !! mid = Some (m, fs) ->
      Z.of_nat (size (w_instances w)) + Z.of_nat (length (w_stack w)) + 1 < INT64_MAX ->
      create_begin utf8_valid used (w_host w) m o r out h = (c, Ended s m' r', h') ->
      step w (World c (put_released mid fs m' (w_modules w)) (w_instances w) (w_stack w)
                (w_aborted w || aborts m'))
  | step_create_begin w mid m fs o r out h c m' r' o' rt h' :
      embedder_runs (w_stack w) = true -> w_modules w !! mid = Some (m, fs) ->
      Z.of_nat (size (w_instances w)) + Z.of_nat (length (w_stack w)) + 1 < INT64_MAX ->
      create_begin utf8_valid used (w_host w) m o r out h = (c, Pinned m' r' o' rt, h') ->
      step w (World c (<[mid := (m', fs)]> (w_modules w)) (w_instances w) (FCreate mid r' o' :: w_stack w)
                (w_aborted w))
  | step_create_end w mid m fs r o stack id executed rt h c s m' r' i h' :
      w_stack w = FCreate mid r o :: stack -> w_modules w !! mid = Some (m, fs) ->
      w_instances w !! id = None ->
      create_end utf8_valid (w_host w) m r o id executed rt h = (c, Ended s m' r', i, h') ->
      step w (World c (put_released mid fs m' (w_modules w))
                (match i with Some i => <[id := (mid, i)]> (w_instances w) | None => w_instances w end)
                stack (w_aborted w || aborts m'))
  | step_destroy_instance w id mid i m fs r h s c m' i' r' h' :
      embedder_runs (w_stack w) = true -> w_instances w !! id = Some (mid, i) ->
      w_modules w !! mid = Some (m, fs) ->
      turbo_script_instance_destroy utf8_valid (w_host w) m i r h = (s, c, m', i', r', h') ->
      step w (World c (put_released mid fs m' (w_modules w))
                (match i' with Some i' => <[id := (mid, i')]> (w_instances w) | None => delete id (w_instances w) end)
                (w_stack w) (w_aborted w || aborts m'))
  | step_call_begin w id mid i rt c i' :
      embedder_runs (w_stack w) = true -> w_instances w !! id = Some (mid, i) ->
      ts_host_instance_begin_call (w_host w) (set_runtime rt i) = (STATUS_OK, c, i') ->
      step w (World c (w_modules w) (put_instance (Some i') (w_instances w)) (FCall id :: w_stack w) (w_aborted w))
  | step_run w id mid i stack rt d :
      w_stack w = FCall id :: stack -> w_instances w !! id = Some (mid, i) ->
      step w (World (w_host w) (w_modules w)
                (put_instance (Some (set_diagnostic d (set_runtime rt i))) (w_instances w))
                (w_stack w) (w_aborted w))
  | step_enter w c i :
      script_runs (w_stack w) = true ->
      ts_host_instance_enter_callback (w_host w) (active w) = (STATUS_OK, c, i) ->
      step w (World c (w_modules w) (put_instance i (w_instances w))
                (FCallback (i_id <$> i) :: w_stack w) (w_aborted w))
  | step_leave w oid stack i c i' :
      w_stack w = FCallback oid :: stack ->
      (oid = None /\ i = None \/ exists id mid i0, oid = Some id /\ w_instances w !! id = Some (mid, i0) /\ i = Some i0) ->
      ts_host_instance_leave_callback (w_host w) i = (c, i') ->
      step w (World c (w_modules w) (put_instance i' (w_instances w)) stack (w_aborted w))
  | step_call_end w id mid i stack s s' c i' :
      w_stack w = FCall id :: stack -> w_instances w !! id = Some (mid, i) ->
      ts_host_instance_finish_call (w_host w) i s = (s', c, i') ->
      step w (World c (w_modules w) (put_instance (Some (ts_host_instance_clear_diagnostic i')) (w_instances w))
                stack (w_aborted w)).

(** A new context. *)
Definition initial_world (fs : list fn_entry) : world :=
  World (set_functions fs (ts_host_registry_init (HostCtx 0 true base false no_error))) ∅ ∅ [] false.

Definition reachable (w : world) : Prop := exists fs, rtc step (initial_world fs) w.

(** ** What holds in every world *)

(** The references of a module that instances and creations hold. *)
Definition instances_of (insts : gmap nat (nat * instance)) (mid : nat) : nat :=
  size (filter (fun e => e.2.1 = mid) insts).
Definition creates (mid : nat) (f : frame) : Prop := match f with FCreate m _ _ => m = mid | _ => False end.
#[export] Instance creates_dec mid f : Decision (creates mid f).
Proof. destruct f; simpl; apply _. Defined.
Definition creations_of (stack : list frame) (mid : nat) : nat := length (filter (creates mid) stack).
Definition refs (insts : gmap nat (nat * instance)) (stack : list frame) (mid : nat) : nat :=
  (instances_of insts mid + creations_of stack mid)%nat.

(** The context and its modules: exact counts, current bindings. *)
Record modules_ok (c : host) (ms : gmap nat (host_module * list fn_entry)) (refs : nat -> nat) : Prop := {
  mo_owner : on_owner (ctx c) = true;
  mo_count : active_host_modules c = Z.of_nat (size ms);
  mo_refs : ref_count (ctx c) = base + Z.of_nat (size ms);
  mo_bound : base + Z.of_nat (size ms) <= UINT32_MAX;
  mo_alive : destroyed (ctx c) = false;
  mo_module mid m fs : ms !! mid = Some (m, fs) ->
    m_ref_count m = (if accepting_instances m then 1 else 0) + Z.of_nat (refs mid) /\
    1 <= m_ref_count m /\ fs = host_functions c;
  mo_used mid : (0 < refs mid)%nat -> is_Some (ms !! mid)
}.

Fixpoint running (stack : list frame) : option nat :=
  match stack with
  | [] => None
  | FCall id :: _ => Some id
  | _ :: stack => running stack
  end.
Fixpoint callbacks (stack : list frame) : Z :=
  match stack with
  | [] => 0
  | FCallback _ :: stack => 1 + callbacks stack
  | _ :: stack => callbacks stack
  end.

Fixpoint creating (stack : list frame) : Z :=
  match stack with
  | [] => 0
  | FCreate _ _ _ :: stack => 1 + creating stack
  | _ :: stack => creating stack
  end.

(** What can be under way: a call, at the bottom, calls back once; the initializers of
    creations outside a call may call back, and creations nest there. *)
Inductive stack_ok : list frame -> Prop :=
  | stack_nil : stack_ok []
  | stack_call id : stack_ok [FCall id]
  | stack_callback id : stack_ok [FCallback (Some id); FCall id]
  | stack_create mid r o stack :
      stack_ok stack -> embedder_runs stack = true -> stack_ok (FCreate mid r o :: stack)
  | stack_init mid r o stack :
      stack_ok (FCreate mid r o :: stack) -> running stack = None ->
      stack_ok (FCallback None :: FCreate mid r o :: stack).

(** The state of an instance tells where it is on the stack. *)
Definition state_of (stack : list frame) (id : nat) (s : instance_state) : Prop :=
  if decide (running stack = Some id)
  then s = if callbacks stack =? 0 then INSTANCE_CALLING else INSTANCE_CALLING_HOST
  else s = INSTANCE_READY \/ s = INSTANCE_FAULTED.

(** Generations are distinct until the counter has passed [UINT32_MAX]: creations
    that nest in an initializer can take it further, one each. *)
Record instances_ok (c : host) (insts : gmap nat (nat * instance)) (stack : list frame) : Prop := {
  io_stack : stack_ok stack;
  io_depth : host_callback_depth c = callbacks stack;
  io_active : active_host_instance c = running stack;
  io_running id : running stack = Some id -> is_Some (insts !! id);
  io_instance id mid i : insts !! id = Some (mid, i) ->
    i_id i = id /\ state_of stack id (i_state i);
  io_generation id mid i : next_instance_generation c <= UINT32_MAX + 1 ->
    insts !! id = Some (mid, i) -> 0 < generation i < next_instance_generation c;
  io_generations id mid i id' mid' i' : next_instance_generation c <= UINT32_MAX + 1 ->
    insts !! id = Some (mid, i) -> insts !! id' = Some (mid', i') -> generation i = generation i' -> id = id';
  io_next : 1 <= next_instance_generation c /\
    next_instance_generation c + creating stack <= UINT32_MAX + 1 + INT64_MAX
}.

Definition world_ok (w : world) : Prop :=
  modules_ok (w_host w) (w_modules w) (refs (w_instances w) (w_stack w)) /\
  instances_ok (w_host w) (w_instances w) (w_stack w) /\ w_aborted w = false.

(** ** References of modules *)

Hypothesis Hbase : 1 <= base <= UINT32_MAX.

(** One more user of a module, or one less. *)
Definition used_by (refs : nat -> nat) (mid : nat) : nat -> nat := fun k => if decide (k = mid) then S (refs k) else refs k.

Lemma modules_ok_ext c ms f g : (forall mid, f mid = g mid) -> modules_ok c ms f -> modules_ok c ms g.
Proof.
  intros Hfg [H1 H2 H3 H4 H5 H6 H7]. constructor; try done.
  - intros mid m fs Hm. rewrite <- Hfg. eauto.
  - intros mid. rewrite <- Hfg. eauto.
Qed.

(** Only the context's owner, count and references matter, and the host functions. *)
Lemma modules_ok_host c c' ms f :
  ctx c' = ctx c -> active_host_modules c' = active_host_modules c -> host_functions c' = host_functions c ->
  modules_ok c ms f -> modules_ok c' ms f.
Proof.
  intros Hc Ha Hf [H1 H2 H3 H4 H5 H6 H7]. constructor; rewrite ?Hc, ?Ha; try done.
  intros mid m fs Hm. rewrite Hf. eauto.
Qed.

Lemma modules_ok_error c e ms f : modules_ok c ms f -> modules_ok (with_last_error e c) ms f.
Proof. intros [H1 H2 H3 H4 H5 H6 H7]. by constructor. Qed.

Lemma size_insert_same (ms : gmap nat (host_module * list fn_entry)) mid x y :
  ms !! mid = Some y -> size (<[mid:=x]> ms) = size ms.
Proof. intros Hm. rewrite map_size_insert, Hm. done. Qed.

Lemma retain_ok c ms f mid m fs m' :
  modules_ok c ms f -> ms !! mid = Some (m, fs) -> ts_host_module_retain m = Some m' ->
  modules_ok c (<[mid:=(m', fs)]> ms) (used_by f mid).
Proof.
  intros [H1 H2 H3 H4 H5 H6 H7] Hm. unfold ts_host_module_retain. destruct (_ =? _); [done|]. intros [= <-].
  constructor; rewrite ?(size_insert_same _ _ _ _ Hm); try done.
  - intros k m1 fs1 Hk. unfold used_by. apply lookup_insert_Some in Hk as [[<- [= <- <-]]|[Hne Hk]].
    + rewrite decide_True by done. destruct (H6 _ _ _ Hm) as (Hr & Hp & Hf). simpl. split_and!; [lia|lia|done].
    + rewrite decide_False by done. eauto.
  - intros k Hk. apply lookup_insert_is_Some'. unfold used_by in Hk. destruct (decide (k = mid)) as [->|]; auto.
Qed.

Lemma release_ok c ms f mid m fs c' m' :
  modules_ok c ms (used_by f mid) -> ms !! mid = Some (m, fs) ->
  ts_host_module_release c m = (c', m') ->
  aborts m' = false /\ modules_ok c' (put_released mid fs m' ms) f /\ host_functions c' = host_functions c /\
  host_callback_depth c' = host_callback_depth c /\ active_host_instance c' = active_host_instance c /\
  next_instance_generation c' = next_instance_generation c.
Proof.
  intros [H1 H2 H3 H4 H5 H6 H7] Hm. destruct (H6 _ _ _ Hm) as (Hr & Hp & Hf).
  unfold used_by in Hr. rewrite decide_True in Hr by done.
  assert (size ms <> 0)%nat as Hsize by (intros Hz%map_size_empty_inv; by rewrite Hz, lookup_empty in Hm).
  unfold ts_host_module_release. replace (_ =? 0) with false by lia.
  destruct (m_ref_count m =? 1) eqn:E1.
  - unfold ts_host_registry_release_module, ts_host_check_owner_thread. rewrite H1. simpl.
    replace (_ =? 0) with false by lia. intros [= <- <-]. simpl. split; [done|]. split; [|done].
    assert (size (delete mid ms) = pred (size ms)) as Hd by (rewrite map_size_delete, Hm; done).
    constructor; simpl; rewrite ?Hd; try done.
    + lia.
    + rewrite H3. unfold wrapu. unfold UINT32_MAX in *. rewrite Z.mod_small by lia. lia.
    + lia.
    + rewrite H5, H3. simpl. lia.
    + intros k m1 fs1 [Hne Hk]%lookup_delete_Some. destruct (H6 _ _ _ Hk) as (Hr' & ? & ?).
      unfold used_by in Hr'. rewrite decide_False in Hr' by done. by split_and!.
    + intros k Hk. destruct (decide (k = mid)) as [->|Hne].
      * destruct (accepting_instances m); lia.
      * rewrite lookup_delete_ne by done. apply H7. unfold used_by. by rewrite decide_False.
  - intros [= <- <-]. simpl. split; [done|]. split; [|done].
    constructor; rewrite ?(size_insert_same _ _ _ _ Hm); try done.
    + intros k m1 fs1 Hk. apply lookup_insert_Some in Hk as [[<- [= <- <-]]|[Hne Hk]].
      * simpl. split_and!; [destruct (accepting_instances m); lia|lia|done].
      * destruct (H6 _ _ _ Hk) as (Hr' & ? & ?). unfold used_by in Hr'. rewrite decide_False in Hr' by done.
        by split_and!.
    + intros k Hk. apply lookup_insert_is_Some'. destruct (decide (k = mid)) as [->|Hne]; [by left|right].
      apply H7. unfold used_by. by rewrite decide_False.
Qed.

(** Closing the public handle of a module turns its reference into one more user. *)
Lemma close_ok c ms f mid m fs :
  modules_ok c ms f -> ms !! mid = Some (m, fs) -> accepting_instances m = true ->
  modules_ok c (<[mid:=(close_module m, fs)]> ms) (used_by f mid).
Proof.
  intros [H1 H2 H3 H4 H5 H6 H7] Hm Ha. constructor; rewrite ?(size_insert_same _ _ _ _ Hm); try done.
  - intros k m1 fs1 Hk. unfold used_by. apply lookup_insert_Some in Hk as [[<- [= <- <-]]|[Hne Hk]].
    + rewrite decide_True by done. destruct (H6 _ _ _ Hm) as (Hr & Hp & Hf). rewrite Ha in Hr. simpl.
      split_and!; [lia|lia|done].
    + rewrite decide_False by done. eauto.
  - intros k Hk. apply lookup_insert_is_Some'. unfold used_by in Hk. destruct (decide (k = mid)) as [->|]; auto.
Qed.

Lemma put_released_insert mid fs x m' (ms : gmap nat (host_module * list fn_entry)) y :
  ms !! mid = Some y -> aborts m' = false ->
  put_released mid fs m' (<[mid:=x]> ms) = put_released mid fs m' ms.
Proof.
  intros Hm Ha. destruct m'; simpl; [by rewrite insert_insert_eq|by rewrite delete_insert_eq|done].
Qed.

(** A new module. *)
Lemma compiled_ok c ms f mid m :
  modules_ok c ms f -> ms !! mid = None -> base + Z.of_nat (size ms) < UINT32_MAX ->
  m_ref_count m = 1 -> accepting_instances m = true ->
  modules_ok (with_module c) (<[mid:=(m, host_functions c)]> ms) f.
Proof.
  intros [H1 H2 H3 H4 H5 H6 H7] Hm Hb Hr Ha.
  assert (size (<[mid:=(m, host_functions c)]> ms) = S (size ms)) as Hs by (rewrite map_size_insert, Hm; done).
  assert (f mid = 0)%nat as Hf.
  { destruct (f mid) eqn:E; [done|]. destruct (H7 mid) as [x Hx]; [lia|]. congruence. }
  constructor; rewrite ?Hs; simpl; try done.
  - lia.
  - rewrite H3. unfold wrapu, UINT32_MAX in *. rewrite Z.mod_small by lia. lia.
  - lia.
  - intros k m1 fs1 Hk. apply lookup_insert_Some in Hk as [[<- [= <- <-]]|[Hne Hk]].
    + rewrite Ha, Hr, Hf. split_and!; [lia|lia|done].
    + eauto.
  - intros k Hk. apply lookup_insert_is_Some'. auto.
Qed.

(** ** Counting users *)

Lemma instances_of_insert insts id mid i k :
  insts !! id = None -> instances_of (<[id:=(mid, i)]> insts) k = used_by (instances_of insts) mid k.
Proof.
  intros Hn. unfold instances_of, used_by. destruct (decide (k = mid)) as [->|Hne].
  - rewrite map_filter_insert_True by done. rewrite map_size_insert_None; [done|].
    apply map_lookup_filter_None. by left.
  - rewrite map_filter_insert_False by (simpl; congruence). by rewrite delete_id.
Qed.

Lemma instances_of_delete insts id mid i k :
  insts !! id = Some (mid, i) -> instances_of insts k = used_by (instances_of (delete id insts)) mid k.
Proof.
  intros Hi. rewrite <- (instances_of_insert (delete id insts) id mid i k) by apply lookup_delete_eq.
  by rewrite insert_delete_id.
Qed.

Lemma instances_of_put insts id mid i i' k :
  insts !! id = Some (mid, i) -> i_id i' = id -> instances_of (put_instance (Some i') insts) k = instances_of insts k.
Proof.
  intros Hi Hid. simpl. rewrite Hid. rewrite <- (insert_delete_id insts id (mid, i) Hi) at 1.
  rewrite alter_insert_eq. simpl. rewrite instances_of_insert by apply lookup_delete_eq.
  symmetry. by apply (instances_of_delete _ _ _ i).
Qed.

Lemma refs_create insts mid r o stack k : refs insts (FCreate mid r o :: stack) k = used_by (refs insts stack) mid k.
Proof.
  unfold refs, creations_of, used_by. destruct (decide (k = mid)) as [->|Hne].
  - rewrite filter_cons_True by done. simpl. lia.
  - by rewrite filter_cons_False by (simpl; congruence).
Qed.

Lemma used_by_add f g mid k : (f k + used_by g mid k)%nat = used_by (fun k => (f k + g k)%nat) mid k.
Proof. unfold used_by. destruct (decide (k = mid)); lia. Qed.

Lemma refs_insert insts id mid i stack k :
  insts !! id = None -> refs (<[id:=(mid, i)]> insts) stack k = used_by (refs insts stack) mid k.
Proof.
  intros Hn. unfold refs. rewrite instances_of_insert by done. unfold used_by. destruct (decide (k = mid)); lia.
Qed.

Lemma refs_delete insts id mid i stack k :
  insts !! id = Some (mid, i) -> refs insts stack k = used_by (refs (delete id insts) stack) mid k.
Proof.
  intros Hi. unfold refs. rewrite (instances_of_delete _ _ _ _ k Hi). unfold used_by. destruct (decide (k = mid)); lia.
Qed.

Lemma refs_put insts id mid i i' stack k :
  insts !! id = Some (mid, i) -> i_id i' = id -> refs (put_instance (Some i') insts) stack k = refs insts stack k.
Proof. intros Hi Hid. unfold refs. by rewrite (instances_of_put _ _ _ _ _ _ Hi Hid). Qed.

Lemma refs_other insts f stack k : (forall mid r o, f <> FCreate mid r o) -> refs insts (f :: stack) k = refs insts stack k.
Proof.
  intros Hf. unfold refs, creations_of. rewrite filter_cons_False; [done|].
  destruct f; simpl; [by destruct (Hf module r o)|tauto|tauto].
Qed.

(** ** Instances and the stack *)

Lemma instances_ok_host c c' insts stack :
  host_callback_depth c' = host_callback_depth c -> active_host_instance c' = active_host_instance c ->
  next_instance_generation c' = next_instance_generation c ->
  instances_ok c insts stack -> instances_ok c' insts stack.
Proof. intros Hd Ha Hg [H1 H2 H3 H4 H5 H6 H7 H8]. constructor; rewrite ?Hd, ?Ha, ?Hg; done. Qed.

Lemma callbacks_nonneg stack : 0 <= callbacks stack.
Proof. induction stack as [|[] stack IH]; simpl; lia. Qed.

(** With no callback under way the embedder acts on an empty stack only. *)
Lemma embedder_idle stack : embedder_runs stack = true -> callbacks stack = 0 -> stack = [].
Proof. destruct stack as [|[] stack]; simpl; try done. pose proof (callbacks_nonneg stack). lia. Qed.

(** An instance in the middle of a call is the one that runs. *)
Lemma not_running c insts stack id mid i :
  instances_ok c insts stack -> insts !! id = Some (mid, i) ->
  i_state i = INSTANCE_READY \/ i_state i = INSTANCE_FAULTED -> running stack <> Some id.
Proof.
  intros Hok Hi Hs Hr. destruct (io_instance _ _ _ Hok _ _ _ Hi) as (_ & Hst).
  unfold state_of in Hst. rewrite decide_True in Hst by done. rewrite Hst in Hs. by destruct (_ =? 0), Hs.
Qed.

(** The instances when one is replaced by another of the same generation. *)
Lemma replaced_ok c c' insts stack stack' id mid i i' :
  instances_ok c insts stack -> insts !! id = Some (mid, i) -> i_id i' = id -> generation i' = generation i ->
  stack_ok stack' -> host_callback_depth c' = callbacks stack' -> active_host_instance c' = running stack' ->
  next_instance_generation c' = next_instance_generation c ->
  state_of stack' id (i_state i') ->
  (forall k, k <> id -> is_Some (insts !! k) -> running stack' = Some k <-> running stack = Some k) ->
  (forall k, running stack' = Some k -> is_Some (insts !! k)) ->
  (forall k, k <> id -> running stack = Some k -> callbacks stack' = callbacks stack) ->
  creating stack' <= creating stack ->
  instances_ok c' (put_instance (Some i') insts) stack'.
Proof.
  intros [H1 H2 H3 H4 H5 H6 H7 H8] Hi Hid Hg Hst Hd Ha Hn Hs Hrun Hex Hcb Hcr.
  assert (forall k mid' j, put_instance (Some i') insts !! k = Some (mid', j) ->
    k = id /\ mid' = mid /\ j = i' \/ k <> id /\ insts !! k = Some (mid', j)) as Hput.
  { intros k mid' j. simpl. rewrite Hid. destruct (decide (k = id)) as [->|Hne].
    - rewrite lookup_alter_eq, Hi. simpl. intros [= <- <-]. by left.
    - rewrite lookup_alter_ne by done. by right. }
  constructor; try done.
  - intros k Hk. simpl. rewrite Hid. destruct (decide (k = id)) as [->|Hne].
    + rewrite lookup_alter_eq, Hi. by eexists.
    + rewrite lookup_alter_ne by done. by apply Hex.
  - intros k mid' j [(-> & -> & ->)|[Hne Hk]]%Hput; [done|].
    destruct (H5 _ _ _ Hk) as (? & Hst'). split; [done|]. unfold state_of in *.
    specialize (Hrun k Hne (mk_is_Some _ _ Hk)). destruct (decide (running stack = Some k)) as [Hr|Hr].
    + rewrite decide_True by by apply Hrun. by rewrite (Hcb k).
    + rewrite decide_False by by intros ?%Hrun. done.
  - intros k mid' j Hle [(-> & -> & ->)|[Hne Hk]]%Hput; rewrite Hn in *; [rewrite Hg|]; eauto.
  - intros k mid1 j k' mid2 j' Hle [(-> & -> & ->)|[Hne Hk]]%Hput [(-> & -> & ->)|[Hne' Hk']]%Hput;
      rewrite Hn in *; try done; rewrite ?Hg; eauto.
  - rewrite Hn. lia.
Qed.

(** ** Every step preserves the invariant *)

Local Abbreviation both_ok c ms insts stack := (modules_ok c ms (refs insts stack) /\ instances_ok c insts stack).

(** Registration and removal change the functions only, and only without modules. *)
Lemma functions_ok c c' ms insts stack :
  c' = c \/ (active_host_modules c = 0 /\ exists fs, c' = set_functions fs c) ->
  both_ok c ms insts stack -> both_ok c' ms insts stack.
Proof.
  intros [->|[Ha [fs ->]]] [Hm Hi]; [by split|]. split; [|by eapply instances_ok_host; [..|exact Hi]].
  destruct Hm as [H1 H2 H3 H4 H5 H6 H7]. constructor; try done.
  intros mid m g Hk. assert (size ms = 0%nat) as Hs by lia. apply map_size_empty_inv in Hs as ->.
  by rewrite lookup_empty in Hk.
Qed.

Lemma register_functions c d cb r h s c' r' h' :
  turbo_script_context_register_host_function utf8_valid c d cb r h = (s, c', r', h') ->
  c' = c \/ (active_host_modules c = 0 /\ exists fs, c' = set_functions fs c).
Proof.
  intros E. destruct (decide (s = STATUS_OK)) as [->|Hs]; [right|left; by eapply register_refused].
  apply register_ok_inv in E as (d0 & cb0 & r0 & _ & _ & _ & Ha & _ & _ & _ & ->). split; [done|]. by eexists.
Qed.

Lemma unregister_functions c name r h s c' r' h' :
  turbo_script_context_unregister_host_function utf8_valid c name r h = (s, c', r', h') ->
  c' = c \/ (active_host_modules c = 0 /\ exists fs, c' = set_functions fs c).
Proof.
  intros E. destruct (decide (s = STATUS_OK)) as [->|Hs]; [right|left; by eapply unregister_refused].
  apply unregister_ok_inv in E as (slot & e & Ha & _ & _ & _ & _ & ->). split; [done|]. by eexists.
Qed.

Lemma compile_ok c ms insts stack source o r out h s c' r' h' om mid :
  both_ok c ms insts stack -> ms !! mid = None -> match o with Some o => unsigned o | None => True end ->
  base + Z.of_nat (size ms) < UINT32_MAX ->
  turbo_script_module_compile utf8_valid (Some c) source o r out h = ((s, Some c', r', h'), om) ->
  both_ok c' (match om with Some m => <[mid := (m, host_functions c)]> ms | None => ms end) insts stack.
Proof.
  intros [Hm Hi] Hmid Hun Hsize E. pose proof E as Ei.
  apply module_compile_inv in Ei as [(_ & [= ->] & ->)|(o' & r0 & -> & -> & -> & Hu & Hargs)]; [done|].
  rewrite (module_compile_checked _ _ _ _ _ _ Hu Hargs) in E.
  destruct (compile_checked _ _ _ _ _ _) as [[[[s0 c0] r1] h0] m0] eqn:Hk. injection E as <- <- <- <- <-.
  destruct Hu as (Ho & _).
  apply compile_checked_inv in Hk; [|done|done|rewrite (mo_count _ _ _ Hm); lia|done].
  destruct m0 as [m|].
  2: { destruct Hk as [_ [e ->]]. split; [by apply modules_ok_error|by eapply instances_ok_host; [..|exact Hi]]. }
   destruct Hk as (_ & -> & _ & Hc).
  split; [|by eapply instances_ok_host; [..|exact Hi]].
  apply compiled_ok; [done..| |]; by rewrite (cp_module _ _ _ _ _ Hc).
Qed.

(** Releasing a module changes nothing that the instances depend on. *)
Lemma released_ok c ms insts insts' stack stack' mid m fs c' m' :
  modules_ok c ms (refs insts stack) -> (forall k, refs insts stack k = used_by (refs insts' stack') mid k) ->
  instances_ok c insts' stack' -> ms !! mid = Some (m, fs) -> ts_host_module_release c m = (c', m') ->
  both_ok c' (put_released mid fs m' ms) insts' stack' /\ aborts m' = false.
Proof.
  intros Hm Hr Hi Hk E. apply (modules_ok_ext _ _ _ _ Hr) in Hm.
  destruct (release_ok _ _ _ _ _ _ _ _ Hm Hk E) as (Ha & Hm' & Hf & Hd & Hact & Hg).
  split; [|done]. split; [done|]. by eapply instances_ok_host; [..|exact Hi].
Qed.

Lemma begin_api_ok c r s r' : ts_host_registry_begin_api c r = (s, r') -> s <> STATUS_OK \/ is_Some r'.
Proof.
  unfold ts_host_registry_begin_api, ts_host_result_check_context, ts_host_result_reset_checked.
  destruct r as [r|]; simpl; repeat case_match; intros [= <- <-]; simplify_eq; auto; right; by eexists.
Qed.

Lemma destroy_module_ok c ms insts stack mid m fs r h s c' r' h' m' :
  both_ok c ms insts stack -> ms !! mid = Some (m, fs) ->
  turbo_script_module_destroy c m r h = ((s, c', r', h'), m') ->
  both_ok c' (put_released mid fs m' ms) insts stack /\ aborts m' = false.
Proof.
  intros [Hm Hi] Hk. unfold turbo_script_module_destroy.
  assert (both_ok c (put_released mid fs (Alive m) ms) insts stack) as Hsame by (simpl; by rewrite insert_id).
  destruct (ts_host_registry_begin_api c r) as [s1 r1]. destruct s1; try (by intros [= _ <- _ _ <-]).
  destruct (accepting_instances m) eqn:Ha; [|by intros [= _ <- _ _ <-]].
  destruct (ts_host_module_release c (close_module m)) as [c1 m1] eqn:E. intros [= _ <- _ _ <-].
  pose proof (close_ok _ _ _ _ _ _ Hm Hk Ha) as Hc.
  destruct (release_ok c (<[mid:=(close_module m, fs)]> ms) _ mid (close_module m) fs c1 m1 Hc) as
    (Hab & Hm' & Hf & Hd & Hact & Hg); [by rewrite lookup_insert_eq|done|].
  rewrite (put_released_insert _ _ _ _ _ _ Hk Hab) in Hm'. split; [|done]. split; [done|].
  by eapply instances_ok_host; [..|exact Hi].
Qed.

(** ** Creations *)

Lemma refs_bound insts stack mid : Z.of_nat (refs insts stack mid) <= Z.of_nat (size insts) + Z.of_nat (length stack).
Proof.
  unfold refs, instances_of, creations_of.
  pose proof (map_subseteq_size _ _ (map_filter_subseteq (fun e : nat * (nat * instance) => e.2.1 = mid) insts)).
  pose proof (length_filter (creates mid) stack). lia.
Qed.

Lemma create_fail_inv c m r o s h c' k h' :
  create_fail utf8_valid c m r o s h = (c', k, h') ->
  exists s' m' r', k = Ended s' m' r' /\ ts_host_module_release c m = (c', m').
Proof.
  unfold create_fail. destruct (ts_host_instance_fail _ _ _ _ _ _ _ _ _) as [[s1 r1] h1].
  destruct (ts_host_module_release c m) as [c1 m1]. intros [= <- <- _]. by exists s1, m1, (Some r1).
Qed.

Lemma create_begin_inv c m o r out h c' k h' :
  m_ref_count m <> SIZE_MAX -> create_begin utf8_valid used c m o r out h = (c', k, h') ->
  match k with
  | Ended _ m' _ =>
      (c' = c /\ m' = Alive m) \/
      exists m1, ts_host_module_retain m = Some m1 /\ ts_host_module_release c m1 = (c', m')
  | Pinned m' _ _ _ =>
      c' = c /\ ts_host_module_retain m = Some m' /\ next_instance_generation c <= UINT32_MAX
  end.
Proof.
  intros Hr. unfold create_begin. destruct (ts_host_registry_begin_api c r) as [s1 r1].
  assert (forall r0 s0 message limit h0, (let '(s, r, h) :=
      ts_host_instance_fail utf8_valid r0 s0 PHASE_INSTANTIATE (ts_host_instance_module_name m) (NoData 0) message limit h0 in
      (c, Ended s (Alive m) (Some r), h)) = (c', k, h') ->
    match k with
    | Ended _ m' _ => (c' = c /\ m' = Alive m) \/
        exists m1, ts_host_module_retain m = Some m1 /\ ts_host_module_release c m1 = (c', m')
    | Pinned m' _ _ _ => c' = c /\ ts_host_module_retain m = Some m' /\ next_instance_generation c <= UINT32_MAX
    end) as Hrefuse.
  { intros r0 s0 message limit h0. destruct (ts_host_instance_fail _ _ _ _ _ _ _ _ _) as [[s2 r2] h2].
    intros [= <- <- _]. by left. }
  destruct s1, r1 as [r1|]; try (intros [= <- <- _]; by left).
  destruct (negb out); [apply Hrefuse|]. destruct (_ || _); [apply Hrefuse|].
  destruct (ts_host_instance_options_valid o), o as [o|]; try apply Hrefuse.
  destruct ((_ =? 0) || _) eqn:Hg; [apply Hrefuse|].
  destruct (attempt h) as [[[]|] h1]; [|apply Hrefuse].
  destruct (ts_host_module_retain m) as [m1|] eqn:Hm.
  2:{ unfold ts_host_module_retain in Hm. destruct (_ =? SIZE_MAX) eqn:E; [lia|done]. }
  destruct (ts_host_instance_runtime_create _ _ _ _) as [[s2 [rt|]] h2].
  - destruct s2; try (intros Hf; apply create_fail_inv in Hf as (? & m' & ? & -> & Hrel); right; by exists m1).
    intros [= <- <- _]. split_and!; [done|done|lia].
  - intros Hf. assert (create_fail utf8_valid c m1 r1 o s2 h2 = (c', k, h')) as Hf' by by destruct s2.
    apply create_fail_inv in Hf' as (? & m' & ? & -> & Hrel). right. by exists m1.
Qed.

Lemma create_end_inv c m r o id executed rt h c' k i h' :
  create_end utf8_valid c m r o id executed rt h = (c', k, i, h') ->
  exists s m' r', k = Ended s m' r' /\
    match i with
    | Some i => c' = set_generation (wrapu 64 (next_instance_generation c + 1)) c /\ m' = Alive m /\
        i_id i = id /\ i_state i = INSTANCE_READY /\ generation i = wrapu 32 (next_instance_generation c)
    | None => ts_host_module_release c m = (c', m')
    end.
Proof.
  unfold create_end.
  assert (forall s0 h0, (let '(c0, k0, h1) := create_fail utf8_valid c m r o s0 h0 in (c0, k0, @None instance, h1)) =
      (c', k, i, h') -> exists s m' r', k = Ended s m' r' /\
    match i with
    | Some i => c' = set_generation (wrapu 64 (next_instance_generation c + 1)) c /\ m' = Alive m /\
        i_id i = id /\ i_state i = INSTANCE_READY /\ generation i = wrapu 32 (next_instance_generation c)
    | None => ts_host_module_release c m = (c', m')
    end) as Hfail.
  { intros s0 h0. destruct (create_fail _ _ _ _ _ _ _) as [[c0 k0] h1] eqn:E. intros [= <- <- <- _].
    apply create_fail_inv in E as (s1 & m1 & r1 & -> & Hr). by exists s1, m1, r1. }
  destruct executed; try apply Hfail.
  destruct (ts_host_instance_bind_exports m rt h) as [[s1 rt1] h1]. destruct s1; try apply Hfail.
  destruct (_ <? _); [apply Hfail|]. intros [= <- <- <- _]. by exists STATUS_OK, (Alive m), (Some r).
Qed.

Lemma creation_refused_ok c ms insts stack mid m fs o r out h c' s m' r' h' :
  both_ok c ms insts stack -> ms !! mid = Some (m, fs) ->
  Z.of_nat (size insts) + Z.of_nat (length stack) + 1 < INT64_MAX ->
  create_begin utf8_valid used c m o r out h = (c', Ended s m' r', h') ->
  both_ok c' (put_released mid fs m' ms) insts stack /\ aborts m' = false.
Proof.
  intros [Hm Hi] Hk Hb E. destruct (mo_module _ _ _ Hm _ _ _ Hk) as (Hr & _).
  pose proof (refs_bound insts stack mid).
  apply create_begin_inv in E as [[-> ->]|(m1 & Hret & Hrel)].
  - simpl. by rewrite insert_id.
  - pose proof (retain_ok _ _ _ _ _ _ _ Hm Hk Hret) as Hm1.
    destruct (release_ok _ _ _ mid m1 fs c' m' Hm1) as (Hab & Hm' & Hf & Hd & Ha & Hg);
      [by rewrite lookup_insert_eq|done|].
    rewrite (put_released_insert _ _ _ _ _ _ Hk Hab) in Hm'. split; [|done]. split; [done|].
    by eapply instances_ok_host; [..|exact Hi].
  - unfold SIZE_MAX, INT64_MAX in *. destruct (accepting_instances m); lia.
Qed.

(** A stack with the same call and callbacks. *)
Lemma same_stack_ok c insts stack stack' :
  instances_ok c insts stack -> stack_ok stack' -> running stack' = running stack ->
  callbacks stack' = callbacks stack ->
  next_instance_generation c + creating stack' <= UINT32_MAX + 1 + INT64_MAX ->
  instances_ok c insts stack'.
Proof.
  intros [H1 H2 H3 H4 H5 H6 H7 H8] Hs Hr Hc Hcr. constructor; rewrite ?Hr, ?Hc; try done.
  - intros id mid i Hi. unfold state_of. rewrite Hr, Hc. by apply (H5 id mid i).
  - lia.
Qed.

Lemma creating_length stack : creating stack <= Z.of_nat (length stack).
Proof. induction stack as [|[] stack IH]; simpl; lia. Qed.

Lemma creation_begins_ok c ms insts stack mid m fs o r out h c' m' r' o' rt h' :
  both_ok c ms insts stack -> ms !! mid = Some (m, fs) -> embedder_runs stack = true ->
  Z.of_nat (size insts) + Z.of_nat (length stack) + 1 < INT64_MAX ->
  create_begin utf8_valid used c m o r out h = (c', Pinned m' r' o' rt, h') ->
  both_ok c' (<[mid := (m', fs)]> ms) insts (FCreate mid r' o' :: stack).
Proof.
  intros [Hm Hi] Hk He Hb E. destruct (mo_module _ _ _ Hm _ _ _ Hk) as (Hr & _).
  pose proof (refs_bound insts stack mid).
  apply create_begin_inv in E as (-> & Hret & Hg).
  2:{ unfold SIZE_MAX, INT64_MAX in *. destruct (accepting_instances m); lia. }
  split.
  - eapply modules_ok_ext; [|by eapply retain_ok]. intros k. by rewrite refs_create.
  - pose proof (creating_length stack). apply (same_stack_ok _ _ stack); try done.
    + constructor; [by apply (io_stack _ _ _ Hi)|done].
    + simpl. lia.
Qed.

Lemma creation_stack c insts mid r o stack :
  instances_ok c insts (FCreate mid r o :: stack) -> instances_ok c insts stack.
Proof.
  intros Hi. apply (same_stack_ok _ _ (FCreate mid r o :: stack)); try done.
  - pose proof (io_stack _ _ _ Hi) as Hs. by inversion Hs.
  - destruct (io_next _ _ _ Hi) as [_ Hn]. simpl in Hn. lia.
Qed.

Lemma creation_ends_ok c ms insts stack mid m fs r o id executed rt h c' s m' r' i h' :
  both_ok c ms insts (FCreate mid r o :: stack) -> ms !! mid = Some (m, fs) -> insts !! id = None ->
  create_end utf8_valid c m r o id executed rt h = (c', Ended s m' r', i, h') ->
  both_ok c' (put_released mid fs m' ms) (match i with Some i => <[id := (mid, i)]> insts | None => insts end) stack /\
  aborts m' = false.
Proof.
  intros [Hm Hi] Hk Hid E. apply create_end_inv in E as (s1 & m1 & r1 & [= <- <- <-] & E).
  pose proof (creation_stack _ _ _ _ _ _ Hi) as Hi'.
  destruct i as [i|]; [|by eapply released_ok; [exact Hm|intros k; apply refs_create|..]].
  destruct E as (-> & -> & Hi1 & Hi2 & Hi3). simpl. rewrite insert_id by done. split; [|done].
  pose proof Hi as [_ _ _ _ _ _ _ Hn]. simpl in Hn.
  assert (wrapu 64 (next_instance_generation c + 1) = next_instance_generation c + 1) as Hw.
  { apply wrapu_small. unfold UINT32_MAX, INT64_MAX in *.
    assert (0 <= creating stack) by (clear; induction stack as [|[] stack IH]; simpl; lia). lia. }
  split.
  - eapply modules_ok_host; [..|eapply modules_ok_ext; [|exact Hm]]; try done.
    intros k. by rewrite refs_create, (refs_insert _ id mid i).
  - destruct Hi' as [H1 H2 H3 H4 H5 H6 H7 H8].
    constructor; simpl; try done.
    + intros k Hk'. apply lookup_insert_is_Some'. auto.
    + intros k mid' j [[<- [= <- <-]]|[Hne Hj]]%lookup_insert_Some; [|eauto].
      split; [done|]. unfold state_of. rewrite decide_False by (intros Hr'; apply H4 in Hr' as [? ?]; congruence).
      by left.
    + rewrite Hw. intros k mid' j Hle [[<- [= <- <-]]|[Hne Hj]]%lookup_insert_Some.
      * rewrite Hi3. unfold UINT32_MAX in *. rewrite wrapu_small by lia. lia.
      * assert (0 < generation j < next_instance_generation c) by (eapply H6; [lia|done]). lia.
    + rewrite Hw. intros k mid1 j k' mid2 j' Hle [[<- [= <- <-]]|[Hne Hj]]%lookup_insert_Some
        [[<- [= <- <-]]|[Hne' Hj']]%lookup_insert_Some; try done.
      * assert (0 < generation j' < next_instance_generation c) by (eapply H6; [lia|done]).
        rewrite Hi3. unfold UINT32_MAX in *. rewrite wrapu_small by lia. lia.
      * assert (0 < generation j < next_instance_generation c) by (eapply H6; [lia|done]).
        rewrite Hi3. unfold UINT32_MAX in *. rewrite wrapu_small by lia. lia.
      * eapply H7; [lia|done..].
    + rewrite Hw. lia.
Qed.

(** ** Calls and callbacks *)

#[local] Arguments put_instance : simpl never.

Lemma destroy_instance_inv c m i r h s c' m' i' r' h' :
  turbo_script_instance_destroy utf8_valid c m i r h = (s, c', m', i', r', h') ->
  (c' = c /\ m' = Alive m /\ i' = Some i) \/
  (i' = None /\ (i_state i = INSTANCE_READY \/ i_state i = INSTANCE_FAULTED) /\
   ts_host_module_release c m = (c', m')).
Proof.
  unfold turbo_script_instance_destroy.
  destruct (ts_host_instance_begin _ _ _ _ _ _ _) as [[s1 [r1|]] h1];
    [destruct s1|destruct s1]; try (intros [= _ <- <- <- _ _]; by left).
  destruct (_ && _) eqn:E.
  - destruct (ts_host_instance_fail _ _ _ _ _ _ _ _ _) as [[s2 r2] h2]. intros [= _ <- <- <- _ _]. by left.
  - destruct (ts_host_module_release c m) as [c1 m1]. intros [= _ <- <- <- _ _]. right. split; [done|].
    split; [|done]. destruct (i_state i); simpl in E; try done; auto.
Qed.

Lemma instance_destroyed_ok c ms insts stack id mid i m fs r h s c' m' i' r' h' :
  both_ok c ms insts stack -> insts !! id = Some (mid, i) -> ms !! mid = Some (m, fs) ->
  turbo_script_instance_destroy utf8_valid c m i r h = (s, c', m', i', r', h') ->
  both_ok c' (put_released mid fs m' ms)
    (match i' with Some i' => <[id := (mid, i')]> insts | None => delete id insts end) stack /\
  aborts m' = false.
Proof.
  intros [Hm Hi] Hk Hmk E.
  apply destroy_instance_inv in E as [(-> & -> & ->)|(-> & Hs & Hrel)].
  { simpl. by rewrite !insert_id. }
  eapply released_ok; [exact Hm|intros k; by apply (refs_delete _ id mid i)| |done|done].
  pose proof (not_running _ _ _ _ _ _ Hi Hk Hs) as Hrun.
  destruct Hi as [H1 H2 H3 H4 H5 H6 H7 H8]. constructor; try done.
  - intros k Hr. rewrite lookup_delete_ne by congruence. auto.
  - intros k mid' j [Hne Hj]%lookup_delete_Some. eauto.
  - intros k mid' j Hle [Hne Hj]%lookup_delete_Some. eauto.
  - intros k mid1 j k' mid2 j' Hle [Hne Hj]%lookup_delete_Some [Hne' Hj']%lookup_delete_Some. eauto.
Qed.

(** The references of modules after a step of a call. *)
Lemma call_modules_ok c c' ms insts stack stack' id mid i i' :
  modules_ok c ms (refs insts stack) -> insts !! id = Some (mid, i) -> i_id i' = id ->
  (forall k, refs insts stack' k = refs insts stack k) ->
  ctx c' = ctx c -> active_host_modules c' = active_host_modules c -> host_functions c' = host_functions c ->
  modules_ok c' ms (refs (put_instance (Some i') insts) stack').
Proof.
  intros Hm Hi Hid Hr Hc Ha Hf. eapply modules_ok_host; [done..|]. eapply modules_ok_ext; [|exact Hm].
  intros k. by rewrite (refs_put _ _ _ _ _ _ _ Hi Hid), Hr.
Qed.

Lemma call_begins_ok c ms insts stack id mid i rt c' i' :
  both_ok c ms insts stack -> embedder_runs stack = true -> insts !! id = Some (mid, i) ->
  ts_host_instance_begin_call c (set_runtime rt i) = (STATUS_OK, c', i') ->
  both_ok c' ms (put_instance (Some i') insts) (FCall id :: stack).
Proof.
  intros [Hm Hi] He Hk. destruct (io_instance _ _ _ Hi _ _ _ Hk) as (Hid & _).
  unfold ts_host_instance_begin_call. simpl. destruct (decide _); [done|].
  destruct (_ || _ || _) eqn:E; [done|]. intros [= <- <-].
  apply orb_false_elim in E as [E Hact]. apply orb_false_elim in E as [Hst Hd].
  bool_props. apply bool_decide_eq_true in Hst, Hact. rewrite (io_depth _ _ _ Hi) in Hd.
  pose proof (embedder_idle _ He Hd) as ->. split.
  - eapply call_modules_ok; [exact Hm|exact Hk|exact Hid|intros k; by apply refs_other|done..].
  - eapply replaced_ok; [exact Hi|exact Hk|exact Hid|done|constructor| | |done|..]; simpl.
    + by rewrite (io_depth _ _ _ Hi).
    + by rewrite Hid.
    + unfold state_of. simpl. by rewrite decide_True.
    + intros k Hne _. split; [|done]. by intros [= <-].
    + intros k [= <-]. by eexists.
    + done.
    + lia.
Qed.

Lemma run_ok c ms insts stack id mid i rt d :
  both_ok c ms insts (FCall id :: stack) -> insts !! id = Some (mid, i) ->
  both_ok c ms (put_instance (Some (set_diagnostic d (set_runtime rt i))) insts) (FCall id :: stack).
Proof.
  intros [Hm Hi] Hk. destruct (io_instance _ _ _ Hi _ _ _ Hk) as (Hid & Hst). split.
  - by eapply call_modules_ok.
  - destruct Hi as [H1 H2 H3 H4 H5 H6 H7 H8].
    eapply replaced_ok; [by constructor|exact Hk|exact Hid|done..|exact Hst|done|exact H4|done|lia].
Qed.

Lemma call_ends_ok c ms insts stack id mid i s s' c' i' :
  both_ok c ms insts (FCall id :: stack) -> insts !! id = Some (mid, i) ->
  ts_host_instance_finish_call c i s = (s', c', i') ->
  s' = s /\ both_ok c' ms (put_instance (Some (ts_host_instance_clear_diagnostic i')) insts) stack.
Proof.
  intros [Hm Hi] Hk. destruct (io_instance _ _ _ Hi _ _ _ Hk) as (Hid & Hst).
  pose proof (io_stack _ _ _ Hi) as Hs. inversion Hs as [|? Heq| | |]; subst.
  unfold state_of in Hst. simpl in Hst. rewrite decide_True in Hst by done.
  unfold ts_host_instance_finish_call. rewrite (io_active _ _ _ Hi), (io_depth _ _ _ Hi), Hst. simpl.
  rewrite bool_decide_eq_true_2 by done. simpl. intros [= <- <- <-]. split; [done|].
  remember (ts_host_instance_clear_diagnostic _) as i2 eqn:E2.
  assert (i_id i2 = i_id i /\ generation i2 = generation i) as [Hid2 Hg2] by by subst.
  assert (i_state i2 = INSTANCE_READY \/ i_state i2 = INSTANCE_FAULTED) as Hs2
    by (subst; simpl; destruct (ok s); auto).
  clear E2. split.
  - eapply call_modules_ok; [exact Hm|exact Hk|done|intros k; symmetry; by apply refs_other|done..].
  - eapply replaced_ok; [exact Hi|exact Hk|done|done|constructor| | |done|..]; simpl.
    + by rewrite (io_depth _ _ _ Hi).
    + done.
    + done.
    + intros k Hne _. split; [done|]. intros [= Heq]. congruence.
    + done.
    + intros k Hne [= Heq]. congruence.
    + lia.
Qed.

(** Entering and leaving a callback of an initializer: only the depth moves. *)
Lemma callback_none_ok c ms insts stack stack' n :
  both_ok c ms insts stack -> stack_ok stack' -> running stack = None -> running stack' = None ->
  n = callbacks stack' -> creating stack' = creating stack ->
  (forall k, refs insts stack' k = refs insts stack k) ->
  both_ok (set_depth n c) ms insts stack'.
Proof.
  intros [Hm Hi] Hs Hr Hr' -> Hcr Hrefs. split.
  - eapply modules_ok_host; [..|eapply modules_ok_ext; [|exact Hm]]; done.
  - destruct Hi as [H1 H2 H3 H4 H5 H6 H7 H8]. constructor; simpl; rewrite ?Hr', ?Hcr; try done.
    + by rewrite H3, Hr.
    + intros id mid i Hi. destruct (H5 _ _ _ Hi) as [? Hst]. split; [done|]. unfold state_of in *.
      rewrite Hr in Hst. by rewrite Hr'.
Qed.

Lemma enter_callback_ok c ms insts stack c' i :
  both_ok c ms insts stack -> script_runs stack = true ->
  ts_host_instance_enter_callback c (id ← active_host_instance c; snd <$> insts !! id) = (STATUS_OK, c', i) ->
  both_ok c' ms (put_instance i insts) (FCallback (i_id <$> i) :: stack).
Proof.
  intros Hok Hs. pose proof Hok as [Hm Hi]. rewrite (io_active _ _ _ Hi). pose proof (io_stack _ _ _ Hi) as Hst.
  unfold ts_host_instance_enter_callback. destruct (_ =? SIZE_MAX); [done|].
  destruct (running stack) as [id|] eqn:Hr; simpl.
  - destruct (io_running _ _ _ Hi _ Hr) as [[mid i0] Hk]. rewrite Hk. simpl.
    destruct (io_instance _ _ _ Hi _ _ _ Hk) as (Hid & Hst0). unfold state_of in Hst0.
    rewrite decide_True in Hst0 by done. rewrite Hst0.
    destruct (callbacks stack =? 0) eqn:Hc; simpl; [|done]. intros [= <- <-]. simpl. rewrite Hid.
    assert (stack = [FCall id]) as ->.
    { inversion Hst; subst; simpl in *; try done; [congruence|].
      destruct stack0 as [|[] stack0]; simpl in *; try done. pose proof (callbacks_nonneg stack0). lia. }
    split.
    + eapply call_modules_ok; [exact Hm|exact Hk|done|intros k; by apply refs_other|done..].
    + eapply replaced_ok; [exact Hi|exact Hk|done|done|constructor| | |done|..]; simpl.
      * by rewrite (io_depth _ _ _ Hi).
      * by rewrite (io_active _ _ _ Hi).
      * unfold state_of. simpl. by rewrite decide_True.
      * done.
      * intros k [= <-]. by eexists.
      * intros k Hne [= Heq]. congruence.
      * lia.
  - intros [= <- <-]. unfold put_instance. simpl.
    eapply callback_none_ok; [exact Hok| |done|done| |done|intros k; by apply refs_other].
    + destruct stack as [|[mid r o|id|oid] stack]; try done. by constructor.
    + rewrite (io_depth _ _ _ Hi). simpl. lia.
Qed.

Lemma leave_ok c ms insts oid stack i c' i' :
  both_ok c ms insts (FCallback oid :: stack) ->
  (oid = None /\ i = None \/ exists id mid i0, oid = Some id /\ insts !! id = Some (mid, i0) /\ i = Some i0) ->
  ts_host_instance_leave_callback c i = (c', i') ->
  both_ok c' ms (put_instance i' insts) stack.
Proof.
  intros Hok Hoid. pose proof Hok as [Hm Hi]. pose proof (io_stack _ _ _ Hi) as Hst.
  unfold ts_host_instance_leave_callback. rewrite (io_depth _ _ _ Hi), (io_active _ _ _ Hi). simpl.
  pose proof (callbacks_nonneg stack). replace (1 + callbacks stack =? 0) with false by lia. intros [= <- <-].
  replace (1 + callbacks stack - 1) with (callbacks stack) by lia.
  inversion Hst as [| |id Heq| |mid r o st Hst' Hr Heq]; subst.
  - destruct Hoid as [[? _]|(id' & mid & i0 & [= <-] & Hk & ->)]; [done|].
    destruct (io_instance _ _ _ Hi _ _ _ Hk) as (Hid & Hst0). unfold state_of in Hst0. simpl in Hst0.
    rewrite decide_True in Hst0 by done. simpl. rewrite Hid, Hst0, !bool_decide_eq_true_2 by done. simpl. split.
    + eapply call_modules_ok; [exact Hm|exact Hk|done|intros k; symmetry; by apply refs_other|done..].
    + eapply replaced_ok; [exact Hi|exact Hk|done|done|constructor| | |done|..]; simpl.
      * done.
      * by rewrite (io_active _ _ _ Hi).
      * unfold state_of. simpl. by rewrite decide_True.
      * done.
      * intros k [= <-]. by eexists.
      * intros k Hne [= Heq]. congruence.
      * lia.
  - destruct Hoid as [[_ ->]|(id' & mid' & i0 & ? & _)]; [|done]. unfold put_instance. simpl.
    eapply callback_none_ok; [exact Hok|done|done|done|done|done|].
    intros k. symmetry. by apply (refs_other _ (FCallback None)).
Qed.

Lemma step_keeps w w' : step w w' -> world_ok w -> world_ok w'.
Proof.
  intros Hstep (Hm & Hi & Hab). pose proof (conj Hm Hi) as Hok. unfold world_ok.
  destruct Hstep; simpl; rewrite ?Hab; simpl.
  - apply and_assoc. split; [|done]. eapply functions_ok; [by eapply register_functions|done].
  - apply and_assoc. split; [|done]. eapply functions_ok; [by eapply unregister_functions|done].
  - apply and_assoc. split; [|done]. by eapply compile_ok.
  - apply and_assoc. by eapply destroy_module_ok.
  - apply and_assoc. by eapply creation_refused_ok.
  - apply and_assoc. split; [|done]. by eapply creation_begins_ok.
  - apply and_assoc. match goal with Hs : w_stack w = _ |- _ => rewrite Hs in Hok end. by eapply creation_ends_ok.
  - apply and_assoc. by eapply instance_destroyed_ok.
  - apply and_assoc. split; [|done]. by eapply call_begins_ok.
  - apply and_assoc. split; [|done]. match goal with Hs : w_stack w = _ |- _ => rewrite Hs in Hok |- * end.
    by eapply run_ok.
  - apply and_assoc. split; [|done]. by eapply enter_callback_ok.
  - apply and_assoc. split; [|done]. match goal with Hs : w_stack w = _ |- _ => rewrite Hs in Hok end.
    by eapply leave_ok.
  - apply and_assoc. split; [|done]. match goal with Hs : w_stack w = _ |- _ => rewrite Hs in Hok end.
    by eapply call_ends_ok.
Qed.

Lemma initial_ok fs : world_ok (initial_world fs).
Proof.
  split; [|split; [|done]].
  - constructor; simpl; rewrite ?map_size_empty; try done; try lia.
    intros mid Hk. unfold refs, instances_of in Hk. rewrite map_filter_empty, map_size_empty in Hk. simpl in Hk. by apply Nat.lt_irrefl in Hk.
  - constructor; simpl; try done. constructor.
Qed.

Lemma reachable_ok w : reachable w -> world_ok w.
Proof.
  intros [fs Hr]. remember (initial_world fs) as w0 eqn:E.
  assert (world_ok w0) as H0 by (subst; apply initial_ok). clear E.
  induction Hr as [|w0 w1 w2 Hs _ IH]; [done|]. apply IH. by eapply step_keeps.
Qed.

(** C1: However registrations, compilations, creations, calls, callbacks and destructions
    interleave, callbacks using the API included, the host API never aborts; every module
    holds exactly one reference for its open handle, one for each of its instances and one
    for each creation under way, and is alive as long as it has an instance; the context
    holds one reference for each module, so it is not destroyed before them; and the
    registered host functions are those that every live module was bound to. *)
Theorem host_references_exact w :
  reachable w ->
  w_aborted w = false /\ active_host_modules (w_host w) = Z.of_nat (size (w_modules w)) /\
  ref_count (ctx (w_host w)) = base + Z.of_nat (size (w_modules w)) /\ destroyed (ctx (w_host w)) = false /\
  (forall mid m fs, w_modules w !! mid = Some (m, fs) ->
     m_ref_count m = (if accepting_instances m then 1 else 0) + Z.of_nat (instances_of (w_instances w) mid) +
       Z.of_nat (creations_of (w_stack w) mid) /\ 1 <= m_ref_count m /\ fs = host_functions (w_host w)) /\
  (forall id mid i, w_instances w !! id = Some (mid, i) -> is_Some (w_modules w !! mid)).
Proof.
  intros ([H1 H2 H3 H4 H5 H6 H7] & _ & Hab)%reachable_ok. split_and!; try done.
  - intros mid m fs (Hr & Hp & Hf)%H6. unfold refs in Hr. split_and!; [lia|done|done].
  - intros id mid i Hi. apply H7. unfold refs. rewrite (instances_of_delete _ _ _ _ mid Hi).
    unfold used_by. rewrite decide_True by done. lia.
Qed.

(** C36: At most one instance is being called at a time, and only it is in a calling
    state: calling host code exactly while a callback is under way; the end of a call
    always finds it so and gives the instance the status of the call.  The handles that
    two instances accept are distinct as long as the generations have not wrapped. *)
Theorem host_calls_exclusive w :
  reachable w ->
  host_callback_depth (w_host w) = callbacks (w_stack w) /\
  active_host_instance (w_host w) = running (w_stack w) /\
  (forall id mid i, w_instances w !! id = Some (mid, i) ->
     if decide (running (w_stack w) = Some id)
     then i_state i = if callbacks (w_stack w) =? 0 then INSTANCE_CALLING else INSTANCE_CALLING_HOST
     else i_state i = INSTANCE_READY \/ i_state i = INSTANCE_FAULTED) /\
  (forall id mid i stack s, w_stack w = FCall id :: stack -> w_instances w !! id = Some (mid, i) ->
     (ts_host_instance_finish_call (w_host w) i s).1.1 = s) /\
  (next_instance_generation (w_host w) <= UINT32_MAX + 1 ->
   forall id mid i m id' mid' i' m' handle slot slot', 0 <= handle < 2 ^ 64 ->
     w_instances w !! id = Some (mid, i) -> w_instances w !! id' = Some (mid', i') ->
     ts_host_instance_decode_handle m i handle = (STATUS_OK, Some slot) ->
     ts_host_instance_decode_handle m' i' handle = (STATUS_OK, Some slot') -> id = id').
Proof.
  intros (Hm & Hi & _)%reachable_ok. split_and!.
  - apply (io_depth _ _ _ Hi).
  - apply (io_active _ _ _ Hi).
  - intros id mid i Hk. by apply (io_instance _ _ _ Hi _ _ _ Hk).
  - intros id mid i stack s Hs Hk. rewrite Hs in Hm, Hi.
    destruct (ts_host_instance_finish_call (w_host w) i s) as [[s' c'] i'] eqn:E.
    by apply (call_ends_ok _ _ _ _ _ _ _ _ _ _ _ (conj Hm Hi) Hk) in E as [-> _].
  - intros Hn id mid i m id' mid' i' m' handle slot slot' Hh Hk Hk' Hd Hd'.
    apply (io_generations _ _ _ Hi id mid i id' mid' i' Hn Hk Hk').
    assert (forall j mj slotj idj midj, w_instances w !! idj = Some (midj, j) ->
      ts_host_instance_decode_handle mj j handle = (STATUS_OK, Some slotj) ->
      generation j = wrapu 32 (Z.shiftr handle 32)) as Hgen.
    { intros j mj slotj idj midj Hj. unfold ts_host_instance_decode_handle. destruct (handle =? 0); [done|].
      destruct (_ || _) eqn:E; [done|]. intros _. bool_props. lia. }
    rewrite (Hgen _ _ _ _ _ Hk Hd). symmetry. by eapply Hgen.
Qed.
End steps.

(** ** The theorems at work *)

(** A module is compiled, one instance of it created, a call begun, its callback
    entered. *)
Definition system_host : host := set_functions [] (ts_host_registry_init (HostCtx 0 true 1 false no_error)).
Definition system_result : host_result := HostResult 0 true TNull zero_error false false.

Definition compiled_world : world :=
  World (with_module system_host) {[ 5%nat := (sample_module, []) ]} ∅ [] false.
Definition pinned_module : host_module := set_refs 2 sample_module.
Definition creating_world : world :=
  World (with_module system_host) {[ 5%nat := (pinned_module, []) ]} ∅
    [FCreate 5 system_result turbo_script_instance_options_init] false.
Definition script_functions : list (list script_func) := [[ScriptFunc true (Some "twice"%string) true 1]].
Definition initialized_runtime : runtime :=
  Runtime (rt_ctx sample_runtime) 0 0 0 0 XNull 100 65536 10000 (512, []) script_functions [].
Definition created_instance : instance :=
  Instance 7 (Runtime (rt_ctx sample_runtime) 0 0 0 0 XNull 100 65536 10000 (512, []) script_functions
                [ScriptFunc true (Some "twice"%string) true 1])
    turbo_script_instance_options_init 1 EXEC_INTERPRETER INSTANCE_READY None 1.
Definition created_world : world :=
  World (set_generation 2 (with_module system_host)) {[ 5%nat := (pinned_module, []) ]}
    {[ 7%nat := (5%nat, created_instance) ]} [] false.

Lemma compiled_reachable : reachable (H:=sample_frontend) any_text 512 1 compiled_world.
Proof.
  exists []. eapply rtc_l; [|apply rtc_refl].
  apply (step_compile (H:=sample_frontend) any_text 512 1 (initial_world 1 []) (Text "P") (Some sample_options)
    (Some system_result) true [] STATUS_OK (with_module system_host) (Some system_result) [] (Some sample_module) 5).
  - reflexivity.
  - reflexivity.
  - split; [|split]; vm_compute; discriminate.
  - vm_compute. reflexivity.
  - vm_compute. reflexivity.
Qed.

Lemma creating_reachable : reachable (H:=sample_frontend) any_text 512 1 creating_world.
Proof.
  destruct compiled_reachable as [fs Hr]. exists fs. eapply rtc_r; [exact Hr|].
  apply (step_create_begin (H:=sample_frontend) any_text 512 1 compiled_world 5 sample_module []
    (Some turbo_script_instance_options_init) (Some system_result) true [] (with_module system_host) pinned_module
    system_result turbo_script_instance_options_init sample_runtime []).
  - reflexivity.
  - reflexivity.
  - vm_compute. reflexivity.
  - vm_compute. reflexivity.
Qed.

Lemma created_reachable : reachable (H:=sample_frontend) any_text 512 1 created_world.
Proof.
  destruct creating_reachable as [fs Hr]. exists fs. eapply rtc_r; [exact Hr|].
  apply (step_create_end (H:=sample_frontend) any_text 512 1 creating_world 5 pinned_module [] system_result
    turbo_script_instance_options_init [] 7 STATUS_OK initialized_runtime [] (set_generation 2 (with_module system_host))
    STATUS_OK (Alive pinned_module) (Some system_result) (Some created_instance) []); reflexivity.
Qed.

Lemma one_reference : 1 <= 1 <= UINT32_MAX.
Proof. split; vm_compute; discriminate. Qed.

Lemma host_references_exact_witness : m_ref_count pinned_module = 2 /\ w_aborted created_world = false.
Proof.
  destruct (host_references_exact (H:=sample_frontend) any_text 512 1 one_reference
    created_world created_reachable) as (Hab & _ & _ & _ & Hm & _).
  destruct (Hm 5%nat pinned_module [] eq_refl) as (Hr & _). split; [exact Hr|exact Hab].
Defined.

Lemma host_calls_exclusive_witness : host_callback_depth (w_host created_world) = 0.
Proof.
  destruct (host_calls_exclusive (H:=sample_frontend) any_text 512 1 one_reference
    created_world created_reachable) as (Hd & _). exact Hd.
Defined.

(** A creation checks the generation before the initializer runs and takes it after:
    when the creations in its callbacks have used the last generations, it gets
    generation 0, and no handle of the new instance is ever valid. *)
Example nested_creation_wraps_generation :
  match (create_end any_text (set_generation (UINT32_MAX + 1) (with_module system_host)) pinned_module system_result
           turbo_script_instance_options_init 7 STATUS_OK initialized_runtime []).1.2 with
  | Some i => generation i = 0 /\
      (ts_host_instance_decode_handle pinned_module i (ts_host_export_handle (generation i) 0)).1 =
        STATUS_INVALID_EXPORT_HANDLE
  | None => False
  end.
Proof. vm_compute. split; reflexivity. Qed.
